(* ===== verification/_CoqProject ===== *)
-Q . S2P
Prelude.v
Bytes.v
Core.v
Hlc.v
OrdMap.v
Path.v
Disk.v
WalCodec.v
WalWriter.v
WalRecovery.v
WalLayout.v
WalDurability.v
InternalKey.v
Memtable.v
Manifest.v
Compaction.v
SstBlock.v
SstSpec.v
Engine.v
EngineReads.v
EngineScan.v
EngineStore.v
EngineCompact.v
SstIndex.v
Sstable.v
SstBuild.v
SstRead.v
SstTable.v
SstProps.v
EngineProps.v
RaftLog.v
RaftConfig.v
RaftCommand.v
RaftStorage.v
RaftNode.v
RaftElection.v
RaftSafety.v
RaftReplication.v
EngineSnapshot.v
Index.v
Cdc.v
Node.v
NodeStore.v
Txn.v
NodePlans.v
TxnProps.v
Txn2pc.v
Txn2pcProps.v
IndexOps.v
IndexProps.v
CdcLoad.v
EngineOpen.v
EngineTables.v
EngineDurability.v
Encrypted.v
Linear.v
LinearProps.v
LinearMinimal.v
Ranges.v
RangesProps.v
Balancer.v
NetCodec.v
TxnCoord.v
MultiRaft.v
ClientCodec.v
Acl.v
Roster.v
RosterProps.v
Client.v
ClientProps.v
ClientOps.v
ClientOpsProps.v
SnapPayload.v
Server.v
ServerProps.v
ServerDemo.v
RaftOwn.v
ServerAcks.v
ClientServer.v
ClientServerDemo.v
