(* ===== verification/Prelude.v ===== *)
(** KayaDB: a verification of the storage engine, its write-ahead log, its
    transactions and its replication.

    * The program

    KayaDB (the crates under [src/crates]) is a replicated key-value store.  A client
    request reaches a server, is proposed as a command to a Raft group, and, once
    committed, is applied to a storage engine on every member.  The engine is a
    log-structured merge tree: a write is appended to the write-ahead log, put into the
    memtable under its commit sequence, and later flushed to sorted tables that
    compaction merges; reads see the newest version not after their timestamp.
    Transactions, secondary indexes, the change feed and the records of two-phase commit
    are layers over the engine, and keep their durable state in it.

    * How the source is translated

    Machine integers are [N], with the wrap-around, saturation or truncation of the source
    written out where it happens.  Bytes are [N] below 256, byte vectors and strings are
    [list N].  A [BTreeMap] is a sorted association list ([OrdMap]), a [HashMap] a [gmap].
    A fallible function returns [result]; a method on [&mut self] is a state passing
    function, in the monads [stm] (a result and the new state), [Node.task] (a call of the
    engine's upper layers, which may also never return) and [RaftNode.act] (the new node
    and the messages it pushed).  Clocks, durations and random numbers are arguments.  Third
    party code is a parameter: the block compressors of the sorted tables, with the law that
    decompression undoes compression, and the AES-GCM cipher, with the laws that it seals
    messages within its limit, adds a tag, and opens what it sealed and nothing else.

    * The files, from the bottom up

    Foundations: [Prelude] (results, monads, generic lemmas and tactics), [Bytes] (integer
    codecs, key order, cursors, UTF-8), [Core] ([kaya-core/src/lib.rs]), [Hlc] (the hybrid
    logical clock, [kaya-core/src/hlc.rs], and the engine's use of it), [OrdMap], [Path]
    ([kaya-io/src/path.rs]), [Disk] (the simulated disk with faults and crashes,
    [kaya-io/src/sim.rs]), [Encrypted] (the disk that seals its files, with keyring and
    rotation, [kaya-io/src/encrypted.rs]).

    The write-ahead log, crate [kaya-wal]: [WalCodec] (records), [WalWriter] (group commit,
    rotation), [WalRecovery] (the recovery scan), [WalLayout] and [WalDurability] (writer,
    disk, crash and recovery together).

    The merge tree, crate [kaya-lsm]: [InternalKey], [Memtable], [Manifest], [Compaction];
    sorted tables in [SstBlock], [SstSpec], [SstIndex], [Sstable], with their theorems in
    [SstBuild], [SstRead], [SstTable] and [SstProps].

    The engine, crate [kaya-engine]: [Engine] holds reads, writes, flush and compaction
    over the typeclass [SstFormat] of sorted tables; [EngineReads] states the laws [SstLaws]
    of that interface and what point reads return, [EngineScan] prefix scans, [EngineCompact]
    compaction, [EngineProps] the theorems.  [SstTable] shows that the real table format has
    these laws; [EngineReads] also holds a table format that keeps the entries as they are, on
    which the engine runs on concrete inputs.  [EngineStore] is what the layers above rely on: an engine
    represents a history of versions.  [EngineOpen] is [Engine::open] with the recovery of
    [recovery.rs]; [EngineTables] is the invariant that ties the tables, the manifest and the
    names on the disk together, over the interface [SstMeta] of table metadata, and
    [EngineDurability] puts engine, log, disk, crashes and opening together.

    The layers above: [Node] is the engine with the state of all layers, and the public
    writes; [Index] and [IndexOps] ([index.rs]), [Cdc] and [CdcLoad] ([cdc.rs]), [Txn]
    ([txn.rs]), [Txn2pc] ([txn2pc.rs]).  [NodeStore] and [NodePlans] are the reasoning
    principle of their theorems: a call performs a prefix of a plan of writes computed from
    the history, and the whole of it when it returns.  The theorems are in [TxnProps],
    [Txn2pcProps], [IndexProps], [Cdc] and [CdcLoad].  [EngineSnapshot] is the state transfer of
    [snapshot.rs] with its theorems.

    Replication, crate [kaya-raft]: [RaftLog], [RaftConfig], [RaftCommand], [RaftStorage]
    (with the persister of [kaya-server]), [RaftNode] (every entry point and handler of the
    node), and the theorems in [RaftElection] (with a logic for actions), [RaftSafety] and
    [RaftReplication].  [MultiRaft] is the host of several groups, [Ranges] and [RangesProps] the
    table of key ranges ([multi_raft.rs]), [SnapPayload] the payload of a snapshot ([lib.rs]).

    The wire, crate [kaya-net]: [NetCodec] (envelopes and frames between servers), [ClientCodec]
    (requests, answers, tokens and epochs).

    The server, crate [kaya-server]: [Acl] ([acl.rs]), [Roster] and [RosterProps]
    ([kaya-net/src/roster.rs], [membership.rs]), [Balancer] ([cluster/balancer.rs]), [TxnCoord]
    (the coordinator of [cluster/txn_coord.rs] and the execution of a command).  [ClientOps] holds
    the request handlers of [cluster/client_ops.rs] as programs over the calls they make on the
    state they share; [ClientOpsProps] quantifies over all answers of these calls.  [Server] is the
    process behind them: the event loop of [cluster/election.rs], with [cluster/replication.rs],
    [cluster/snapshot.rs], [range_meta.rs] and [apply_index.rs]; its theorems are in [ServerProps],
    [RaftOwn] and [ServerAcks], concrete processes in [ServerDemo].  [ClientServer] runs the
    handlers over such a process, any number of them interleaved with the events of the loop, and
    [ClientServerDemo] gives end-to-end runs.

    The client, crate [kaya-client]: [Client], with theorems in [ClientProps].

    The linearizability checker, [kaya-sim/src/linear.rs]: [Linear], [LinearProps],
    [LinearMinimal].

    * What the theorems show

    - The log: what was acknowledged as durable is recovered after any number of crashes and
      reopenings, on a disk that injects no faults and in strict mode; damaged
      records are never taken for others; records round-trip.
    - Tables and engine: a point read returns the newest visible version among memtable and
      tables; a scan returns exactly the live keys under its prefix, in order, up to its
      limits; flush and compaction keep what is read; the block cache is transparent;
      memtable and manifest are rebuilt by replay.
    - Durability of the engine: over writes, flushes, compactions, crashes between operations
      and reopenings, strict mode and no injected faults, every acknowledged write is read back
      and the tables are those of before.
    - Encryption: for any cipher with its laws the sealed disk answers as the plain one, through
      rotations and crashes; only sealings open; the keyring file round-trips.
    - Transactions: snapshot reads, first committer wins, detection of conflicts.
    - Two-phase commit: prepare is invisible, commit is atomic and can be resumed after any
      interruption, decisions are final, recovery settles every record it may settle; all for
      transactions whose intents, and a store whose records, a scan returns whole.
    - Indexes and change feed: indexes stay equal to what their extractors compute, are scanned,
      verified and backfilled exactly; events are delivered in order, without gaps, and survive
      crashes.
    - Raft: election safety over an asynchronous network with crashes (odd voter sets),
      leader append-only, the merge and commit rules, in-order apply, joint quorums; persistence
      over the calls [atomic_write] makes on the host, stopped after any of them.
    - Several groups: every message and tick of the host changes the group it is for and no
      other, so that election safety holds per group, also while processes start and drop groups;
      the range table partitions the keys under splits, merges and moves; a change prepared from
      an older table is refused, so that no change is lost.
    - Cross-group commit: no participant commits before the decision is recorded.
    - The wire: envelopes within the limits are received as sent, in any cut of the stream those
      that were complete; what is decoded is within the bounds of its types; answers round-trip,
      and requests do exactly when their first bytes do not spell a marker.
    - The request handlers: nothing is executed for a request whose token does not cover its
      key (statistics and routing need the client token only), a success is earned by an answer of
      the log or the engine, tenants are disjoint.
    - The event loop: a write is answered when the command asked for has been executed (as long
      as no event both deposes the leader and applies entries), nobody keeps waiting on a lost
      leadership, groups that ranges need are not reclaimed.
    - The client: with a request timeout every call ends within its budgets of redirects and
      retries, with the outcome of its last exchange; waits are bounded, the range cache routes as
      the servers reported.
    - The linearizability checker: what its search decides, that it enforces the real-time order
      the wrong way round, and that its reductions are minimal.
    The theorems of kind "error" are runs of the model, and so of the code, that break what
    the code means to do; each says in its comment what goes wrong.

    * Bounds and fuel

    Recursion that is not structural runs on fuel computed from its input, which the
    theorems show to be enough: decoders and scans over bytes use the number of bytes (each
    round consumes at least one), the recovery scan and the manifest replay the length of
    the file, [RaftNode.apply_loop] the number of entries between [last_applied] and the
    end of the log, text decoding the number of bytes.  [represents room] and [stores env room]
    say that the sequence numbers have room for that many more writes below 2^64, taken from the
    counter or, with the hybrid clock, from wall clock readings below 2^47 ms.
    The request loop of the client runs on the redirects and retries it has left; the balancer's
    loop on its own bound, shown to be enough.  The election theorems take the state of a node to
    be on disk when its messages leave, which the event loop does not ensure: [ServerDemo] has the
    run in which a vote is given twice.

    * Not modelled

    A crash of the simulated disk in the durability theorems ([crash_to]) loses contents and keeps
    the names of files, so that they do not depend on the syncs of directories; [RaftStorage] loses
    names too, but takes the syncs of the directory, whose errors the code ignores, to succeed.
    The durability of the engine is stated for [open_core]; the index, change feed and 2PC layers
    that [Engine::open] loads after it have theorems of their own.  The terms and indices of Raft
    are unbounded.

    Crashes in the middle of a flush or a compaction are covered only by the error theorems of
    [EngineDurability]: a failed sync of the manifest is not repaired by the code.

    Host file access, sockets, timers, threads and async scheduling ([kaya-io/src/file.rs],
    [io_uring.rs], the sockets of [kaya-net/src/transport.rs], the accept loops and the process
    start of [kaya-server], TLS); statistics, histograms, probes, dashboards and audit output, which do not
    influence results; command line front ends, benchmarks and kernel tracing.
    The interleaving of tasks is the order of events: the loop handles one event at a time, a
    handler runs between two waits without interruption.  Outside [RaftStorage] a file
    replaced through a rename is replaced whole or not at all.  Texts of messages are constructors where nothing reads them.
    Parsing of JSON and of socket addresses, the compressors and the network are parameters.
    The simulated cluster and the external test harness ([kaya-sim/src/cluster.rs],
    [kaya-jepsen-test]) drive the program and are not part of it.
*)
From stdpp Require Export base list gmap sorting strings pretty numbers fin_maps.
From Stdlib Require Export Lia.

#[export] Set Default Goal Selector "!".

(** ** Machine integers

    An unsigned Rust integer is an [N]; the width shows in the bounds below and
    in the explicit wrapping or saturating operations. *)

Definition u8_lim : N := 256.
Definition u16_lim : N := 65536.
Definition u32_lim : N := 4294967296.
Definition u64_lim : N := 18446744073709551616.
Definition u16_max : N := 65535.
Definition u32_max : N := 4294967295.
Definition u64_max : N := 18446744073709551615.

(** [usize::len()] of a vector, as the [N] the codecs write. *)
Definition lenN {A} (l : list A) : N := N.of_nat (length l).

(** [x.saturating_add(y)] at the width whose largest value is [mx]. *)
Definition sat_add (mx x y : N) : N := N.min (x + y) mx.

(** [x as u32] and the like: truncation to the low bits. *)
Definition wrap (lim x : N) : N := (x mod lim)%N.

Lemma wrap_small lim x : (x < lim)%N → wrap lim x = x.
Proof. intros. unfold wrap. by apply N.mod_small. Qed.

Lemma lenN_app {A} (l k : list A) : lenN (l ++ k) = (lenN l + lenN k)%N.
Proof. unfold lenN. rewrite length_app. lia. Qed.

Lemma lenN_to_nat {A} (l : list A) : N.to_nat (lenN l) = length l.
Proof. unfold lenN. lia. Qed.

(** ** Results *)

(** Rust's [Result<A, E>]. *)
Inductive result (E A : Type) : Type :=
| Ok (a : A)
| Err (e : E).
Arguments Ok {E A} a.
Arguments Err {E A} e.

#[export] Instance result_ret {E} : MRet (result E) := fun A a => Ok a.
#[export] Instance result_bind {E} : MBind (result E) :=
  fun A B f m => match m with Ok a => f a | Err e => Err e end.
#[export] Instance result_fmap {E} : FMap (result E) :=
  fun A B f m => match m with Ok a => Ok (f a) | Err e => Err e end.

Definition is_ok {E A} (r : result E A) : bool :=
  match r with Ok _ => true | Err _ => false end.

(** [Option::ok_or]. *)
Definition ok_or {E A} (e : E) (o : option A) : result E A :=
  match o with Some a => Ok a | None => Err e end.

Lemma Ok_inj {E A} (a b : A) : @Ok E A a = Ok b → a = b.
Proof. by intros [= ->]. Qed.

Lemma Err_inj {E A} (a b : E) : @Err E A a = Err b → a = b.
Proof. by intros [= ->]. Qed.

Lemma result_bind_Ok {E A B} (f : A → result E B) (m : result E A) b :
  m ≫= f = Ok b ↔ ∃ a, m = Ok a ∧ f a = Ok b.
Proof.
  destruct m as [a|e]; cbn; split.
  - eauto.
  - by intros (? & [= ->] & ?).
  - done.
  - by intros (? & ? & ?).
Qed.

Lemma result_bind_Err {E A B} (f : A → result E B) (m : result E A) e :
  m ≫= f = Err e ↔ m = Err e ∨ ∃ a, m = Ok a ∧ f a = Err e.
Proof.
  destruct m as [a|e']; cbn; split.
  - eauto.
  - by intros [?|(? & [= ->] & ?)].
  - intros [= ->]. by left.
  - by intros [[= ->]|(? & ? & ?)].
Qed.

(** ** Cursor parsers

    The decoders of the repository read from [cur: &mut &[u8]]: a parser takes
    the unread bytes and returns a value with the bytes still unread. *)

Definition parser (E A : Type) : Type := list N → result E (A * list N).

#[export] Instance parser_ret {E} : MRet (parser E) := fun A a bs => Ok (a, bs).
#[export] Instance parser_bind {E} : MBind (parser E) :=
  fun A B f p bs => match p bs with Ok (a, bs') => f a bs' | Err e => Err e end.

Definition perr {E A} (e : E) : parser E A := fun _ => Err e.

(** [parses p x bs]: on any input that starts with [bs], [p] consumes exactly
    [bs] and yields [x]. *)
Definition parses {E A} (p : parser E A) (x : A) (bs : list N) : Prop :=
  ∀ rest, p (bs ++ rest) = Ok (x, rest).

Lemma parses_ret {E A} (x : A) : parses (mret x : parser E A) x [].
Proof. by intros rest. Qed.

Lemma parses_bind {E A B} (p : parser E A) (k : A → parser E B) x y b1 b2 bs :
  bs = b1 ++ b2 → parses p x b1 → parses (k x) y b2 → parses (p ≫= k) y bs.
Proof.
  intros -> Hp Hk rest. unfold mbind, parser_bind.
  by rewrite <-app_assoc, Hp, Hk.
Qed.

Lemma parses_bind_tail {E A B} (p : parser E A) (k : A → parser E B) x y bs :
  parses p x bs → parses (k x) y [] → parses (p ≫= k) y bs.
Proof. intros. eapply (parses_bind _ _ _ _ bs []); [by rewrite app_nil_r|done..]. Qed.

(** [count] repetitions of a parser, collected in order: the decoders'
    [for _ in 0..count] loops. *)
Fixpoint prepeat {E A} (n : nat) (p : parser E A) : parser E (list A) :=
  match n with
  | O => mret []
  | S n => x ← p; xs ← prepeat n p; mret (x :: xs)
  end.

Lemma parses_prepeat {E A} (p : parser E A) (enc : A → list N) xs :
  Forall (λ x, parses p x (enc x)) xs →
  parses (prepeat (length xs) p) xs (xs ≫= enc).
Proof.
  induction 1 as [|x xs Hx _ IH]; cbn.
  - apply parses_ret.
  - eapply parses_bind; [done|exact Hx|]. apply parses_bind_tail with (x := xs); [exact IH|].
    apply parses_ret.
Qed.

(** ** Slices *)

(** [bytes[a..b]] for [a <= b <= len]. *)
Definition slice {A} (a b : nat) (l : list A) : list A := take (b - a) (drop a l).

Lemma length_slice {A} a b (l : list A) :
  (b ≤ length l)%nat → length (slice a b l) = (b - a)%nat.
Proof. intros. unfold slice. rewrite length_take, length_drop. lia. Qed.

Lemma slice_skip {A} a b (x r : list A) :
  (length x ≤ a)%nat → slice a b (x ++ r) = slice (a - length x) (b - length x) r.
Proof.
  intros. unfold slice. rewrite drop_app_ge by done. f_equal. lia.
Qed.

Lemma slice_here {A} b (x r : list A) : b = length x → slice 0 b (x ++ r) = x.
Proof. intros ->. unfold slice. by rewrite drop_0, Nat.sub_0_r, take_app_length. Qed.

Lemma slice_at {A} a b (x y z : list A) :
  a = length x → b = (length x + length y)%nat → slice a b (x ++ y ++ z) = y.
Proof.
  intros -> ->. rewrite slice_skip by done. rewrite Nat.sub_diag, Nat.add_comm, Nat.add_sub.
  by apply slice_here.
Qed.

Lemma slice_at_end {A} a b (x y : list A) :
  a = length x → b = (length x + length y)%nat → slice a b (x ++ y) = y.
Proof. intros. rewrite <-(app_nil_r y) at 1. by apply slice_at. Qed.

Lemma slice_all {A} b (x : list A) : b = length x → slice 0 b x = x.
Proof. intros. rewrite <-(app_nil_r x) at 1. by apply slice_here. Qed.

Lemma slice_app_l {A} a b (l r : list A) :
  (b ≤ length l)%nat → slice a b (l ++ r) = slice a b l.
Proof.
  intros. unfold slice. destruct (decide (a ≤ length l)%nat).
  - rewrite drop_app_le by done. rewrite take_app_le; [done|].
    rewrite length_drop. lia.
  - replace (b - a)%nat with 0%nat by lia. by rewrite !take_0.
Qed.

Lemma slice_split {A} a b c (l : list A) :
  (a ≤ b)%nat → (b ≤ c)%nat → slice a b l ++ slice b c l = slice a c l.
Proof.
  intros. unfold slice. replace (drop b l) with (drop (b - a) (drop a l)).
  - rewrite <-take_drop with (i := (b - a)%nat) (l := take (c - a) (drop a l)) at 1.
    f_equal; [rewrite take_take; f_equal; lia|].
    rewrite skipn_firstn_comm. f_equal. lia.
  - rewrite drop_drop. f_equal. lia.
Qed.

Lemma slice_0_take {A} b (l : list A) : slice 0 b l = take b l.
Proof. unfold slice. by rewrite drop_0, Nat.sub_0_r. Qed.

Lemma slice_to_end {A} a b (l : list A) : (length l ≤ b)%nat → slice a b l = drop a l.
Proof. intros. unfold slice. apply take_ge. rewrite length_drop. lia. Qed.

(** ** Automation *)

Create HintDb kaya discriminated.
Create HintDb kaya_parse discriminated.
#[export] Hint Resolve parses_ret : kaya_parse.

(** Unpacks chains of [≫=] in hypotheses about successful computations. *)
Ltac inv_ok :=
  repeat match goal with
  | H : (_ ≫= _) = Ok _ |- _ => apply result_bind_Ok in H as (? & ? & ?)
  | H : mret _ = _ |- _ => progress cbv [mret result_ret] in H
  | H : Ok _ = Ok _ |- _ => apply Ok_inj in H; subst
  | H : Err _ = Ok _ |- _ => discriminate H
  | H : Ok _ = Err _ |- _ => discriminate H
  | H : Err _ = Err _ |- _ => apply Err_inj in H; subst
  | H : (_, _) = (_, _) |- _ => apply pair_eq in H as [? ?]; subst
  end.

(** Case analysis on the scrutinee of a [match] or [if], goal first. *)
Ltac case_goal :=
  match goal with
  | |- context [match ?x with _ => _ end] => destruct x eqn:?
  end.
Ltac case_hyp H :=
  match type of H with
  | context [match ?x with _ => _ end] => destruct x eqn:?
  end.

(** Boolean comparisons on [N] turned into propositions. *)
Ltac nbool :=
  repeat match goal with
  | H : (_ =? _)%N = true |- _ => apply N.eqb_eq in H
  | H : (_ =? _)%N = false |- _ => apply N.eqb_neq in H
  | H : (_ <? _)%N = true |- _ => apply N.ltb_lt in H
  | H : (_ <? _)%N = false |- _ => apply N.ltb_ge in H
  | H : (_ <=? _)%N = true |- _ => apply N.leb_le in H
  | H : (_ <=? _)%N = false |- _ => apply N.leb_gt in H
  | H : (_ && _) = true |- _ => apply andb_prop in H as [? ?]
  | H : negb _ = true |- _ => apply negb_true_iff in H
  | H : negb _ = false |- _ => apply negb_false_iff in H
  | H : bool_decide _ = true |- _ => apply bool_decide_eq_true in H
  | H : bool_decide _ = false |- _ => apply bool_decide_eq_false in H
  end.

(** ** Generic list lemmas *)

Lemma snoc_inv {A} (l k : list A) x y : l ++ [x] = k ++ [y] → l = k ∧ x = y.
Proof. intros H. by apply app_inj_tail in H. Qed.

Lemma list_eq_lenN {A} (l k : list A) : l = k → lenN l = lenN k.
Proof. by intros ->. Qed.
