(* ===== verification/Bytes.v ===== *)
(** Byte strings: the little- and big-endian integer encodings every codec of
    the repository uses ([to_le_bytes], [from_le_bytes], ...), the
    lexicographic order on keys ([Ord] for [Vec<u8>]), the cursor readers, UTF-8
    validation ([String::from_utf8]) and the CRC-32C checksum of
    [kaya-core/src/lib.rs]. *)
From S2P Require Import Prelude.

Open Scope N_scope.

Abbreviation bytes := (list N).

Definition byte_ok (b : N) : Prop := b < 256.
Definition bytes_ok (bs : bytes) : Prop := Forall byte_ok bs.

(** ** Fixed-width integers *)

(** [v.to_le_bytes()] for an [n]-byte integer. *)
Fixpoint le_bytes (n : nat) (v : N) : bytes :=
  match n with
  | O => []
  | S n => (v mod 256) :: le_bytes n (v / 256)
  end.

(** [uN::from_le_bytes]. *)
Fixpoint le_val (bs : bytes) : N :=
  match bs with
  | [] => 0
  | b :: bs => b + 256 * le_val bs
  end.

(** [v.to_be_bytes()] and [uN::from_be_bytes]. *)
Definition be_bytes (n : nat) (v : N) : bytes := reverse (le_bytes n v).
Definition be_val (bs : bytes) : N := le_val (reverse bs).

Lemma length_le_bytes n v : length (le_bytes n v) = n.
Proof. revert v. induction n; cbn; auto. Qed.

Lemma length_be_bytes n v : length (be_bytes n v) = n.
Proof. unfold be_bytes. by rewrite length_reverse, length_le_bytes. Qed.

Lemma lenN_le_bytes n v : lenN (le_bytes n v) = N.of_nat n.
Proof. unfold lenN. by rewrite length_le_bytes. Qed.

Lemma le_bytes_ok n v : bytes_ok (le_bytes n v).
Proof.
  revert v. induction n; intros v; cbn; constructor; [|apply IHn].
  apply N.mod_lt. lia.
Qed.

Lemma be_bytes_ok n v : bytes_ok (be_bytes n v).
Proof. unfold be_bytes, bytes_ok. apply Forall_reverse, le_bytes_ok. Qed.

Lemma le_val_le_bytes n v : v < 256 ^ N.of_nat n → le_val (le_bytes n v) = v.
Proof.
  revert v. induction n as [|n IH]; intros v Hv; cbn.
  - change (256 ^ 0) with 1 in Hv. lia.
  - rewrite IH.
    + pose proof (N.div_mod v 256). lia.
    + rewrite Nat2N.inj_succ, N.pow_succ_r' in Hv.
      apply N.Div0.div_lt_upper_bound; lia.
Qed.

Lemma le_val_bound bs : bytes_ok bs → le_val bs < 256 ^ N.of_nat (length bs).
Proof.
  induction 1 as [|b bs Hb _ IH]; cbn [le_val length].
  - done.
  - rewrite Nat2N.inj_succ, N.pow_succ_r'. unfold byte_ok in Hb. lia.
Qed.

Lemma le_bytes_le_val bs : bytes_ok bs → le_bytes (length bs) (le_val bs) = bs.
Proof.
  induction 1 as [|b bs Hb _ IH]; cbn; [done|]. unfold byte_ok in Hb.
  rewrite (N.mul_comm 256), N.Div0.mod_add, N.mod_small by lia.
  rewrite N.div_add, (N.div_small b) by lia. by rewrite N.add_0_l, IH.
Qed.

Lemma be_val_be_bytes n v : v < 256 ^ N.of_nat n → be_val (be_bytes n v) = v.
Proof. intros. unfold be_val, be_bytes. rewrite reverse_involutive. by apply le_val_le_bytes. Qed.

Lemma le_bytes_inj n v w :
  v < 256 ^ N.of_nat n → w < 256 ^ N.of_nat n → le_bytes n v = le_bytes n w → v = w.
Proof. intros Hv Hw E. by rewrite <-(le_val_le_bytes n v), E, le_val_le_bytes. Qed.

#[global] Arguments le_bytes : simpl never.
#[export] Hint Resolve le_bytes_ok be_bytes_ok : kaya.

(** ** Cursor readers

    [read_u16(&mut cur)], [read_bytes(&mut cur, n)] and the like: they fail when
    the cursor is too short and otherwise advance it.  The error of a short
    cursor is the reader's argument, since each module words it differently. *)

Section Readers.
  Context {E : Type} (short : E).

Definition p_bytes (n : N) : parser E bytes := fun bs =>
  if lenN bs <? n then Err short
  else Ok (take (N.to_nat n) bs, drop (N.to_nat n) bs).

Definition p_le (n : nat) : parser E N := fun bs =>
  if lenN bs <? N.of_nat n then Err short
  else Ok (le_val (take n bs), drop n bs).

Lemma parses_bytes (x : bytes) n : n = lenN x → parses (p_bytes n) x x.
Proof.
  intros -> rest. unfold p_bytes. rewrite lenN_app.
  destruct (N.ltb_spec (lenN x + lenN rest) (lenN x)); [lia|].
  by rewrite lenN_to_nat, take_app_length, drop_app_length.
Qed.

Lemma parses_le n v : v < 256 ^ N.of_nat n → parses (p_le n) v (le_bytes n v).
Proof.
  intros Hv rest. unfold p_le. rewrite lenN_app.
  assert (length (le_bytes n v) = n) as Hl by apply length_le_bytes.
  destruct (N.ltb_spec (lenN (le_bytes n v) + lenN rest) (N.of_nat n)).
  { unfold lenN in *. lia. }
  rewrite take_app_length', drop_app_length' by done. by rewrite le_val_le_bytes.
Qed.
End Readers.

#[export] Hint Resolve parses_bytes parses_le : kaya_parse.

(** ** Lexicographic order: [Ord for Vec<u8>] *)

Fixpoint bcmp (a b : bytes) : comparison :=
  match a, b with
  | [], [] => Eq
  | [], _ :: _ => Lt
  | _ :: _, [] => Gt
  | x :: a, y :: b => match x ?= y with Eq => bcmp a b | c => c end
  end.

Definition blt (a b : bytes) : bool := match bcmp a b with Lt => true | _ => false end.
Definition ble (a b : bytes) : bool := match bcmp a b with Gt => false | _ => true end.

Lemma bcmp_eq a b : bcmp a b = Eq ↔ a = b.
Proof.
  revert b. induction a as [|x a IH]; intros [|y b]; cbn; try done.
  destruct (N.compare_spec x y) as [->|H|H].
  - rewrite IH. split; [by intros ->|by intros [= ->]].
  - split; [done|intros [= -> ->]; lia].
  - split; [done|intros [= -> ->]; lia].
Qed.

Lemma bcmp_refl a : bcmp a a = Eq.
Proof. by apply bcmp_eq. Qed.

Lemma bcmp_antisym a b : bcmp b a = CompOpp (bcmp a b).
Proof.
  revert b. induction a as [|x a IH]; intros [|y b]; cbn; try done.
  rewrite (N.compare_antisym x y). destruct (x ?= y); cbn; auto.
Qed.

Lemma bcmp_trans_lt a b c : bcmp a b = Lt → bcmp b c = Lt → bcmp a c = Lt.
Proof.
  revert b c. induction a as [|x a IH]; intros [|y b] [|z c]; cbn; try done.
  destruct (N.compare_spec x y) as [->|Hxy|Hxy]; try done.
  - destruct (N.compare_spec y z) as [->|Hyz|Hyz]; try done. eauto.
  - intros _. destruct (N.compare_spec y z) as [->|Hyz|Hyz]; try done.
    + intros _. by apply N.compare_lt_iff in Hxy as ->.
    + intros _. assert (x < z) as Hxz by lia. by apply N.compare_lt_iff in Hxz as ->.
Qed.

Lemma bcmp_app_l p a b : bcmp (p ++ a) (p ++ b) = bcmp a b.
Proof. induction p as [|x p IH]; cbn; [done|]. by rewrite N.compare_refl. Qed.

(** [slice::starts_with]. *)
Fixpoint starts_with (p a : bytes) : bool :=
  match p, a with
  | [], _ => true
  | _ :: _, [] => false
  | x :: p, y :: a => (x =? y) && starts_with p a
  end.

Lemma starts_with_spec p a : starts_with p a = true ↔ p `prefix_of` a.
Proof.
  revert a. induction p as [|x p IH]; intros a; cbn.
  - split; [intros _; apply prefix_nil|done].
  - destruct a as [|y a].
    + split; [done|intros H; by apply prefix_nil_not in H].
    + rewrite andb_true_iff, N.eqb_eq, IH. split.
      * intros [-> ?]. by apply prefix_cons.
      * intros H. by apply prefix_cons_inv_1 in H as Hx; apply prefix_cons_inv_2 in H.
Qed.

(** Byte strings with a given prefix are an interval of the order. *)
Lemma starts_with_between p a b :
  bcmp p a ≠ Gt → bcmp a b ≠ Gt → starts_with p b = true → starts_with p a = true.
Proof.
  revert a b. induction p as [|x p IH]; [done|]. intros [|y a] [|z b]; cbn; try done.
  intros H1 H2 [->%N.eqb_eq Hb]%andb_prop.
  destruct (N.compare_spec z y) as [->|Hlt|Hgt]; [|destruct (N.compare_spec y z); done || lia|done].
  rewrite N.compare_refl in H2. rewrite N.eqb_refl. by eapply IH.
Qed.

Lemma starts_with_le p a : starts_with p a = true → bcmp p a ≠ Gt.
Proof.
  revert a. induction p as [|x p IH]; intros [|y a]; cbn; try done.
  intros [->%N.eqb_eq Hb]%andb_prop. rewrite N.compare_refl. auto.
Qed.

(** ** UTF-8: what [String::from_utf8] accepts *)

Definition in_range (lo hi b : N) : bool := (lo <=? b) && (b <=? hi).

Fixpoint utf8_valid (bs : bytes) : bool :=
  match bs with
  | [] => true
  | b1 :: t1 =>
      if b1 <? 0x80 then utf8_valid t1
      else match t1 with
      | [] => false
      | b2 :: t2 =>
          if in_range 0xC2 0xDF b1 then in_range 0x80 0xBF b2 && utf8_valid t2
          else match t2 with
          | [] => false
          | b3 :: t3 =>
              if b1 =? 0xE0 then in_range 0xA0 0xBF b2 && in_range 0x80 0xBF b3 && utf8_valid t3
              else if b1 =? 0xED then in_range 0x80 0x9F b2 && in_range 0x80 0xBF b3 && utf8_valid t3
              else if in_range 0xE1 0xEF b1 then
                in_range 0x80 0xBF b2 && in_range 0x80 0xBF b3 && utf8_valid t3
              else match t3 with
              | [] => false
              | b4 :: t4 =>
                  if b1 =? 0xF0 then
                    in_range 0x90 0xBF b2 && in_range 0x80 0xBF b3 && in_range 0x80 0xBF b4 && utf8_valid t4
                  else if in_range 0xF1 0xF3 b1 then
                    in_range 0x80 0xBF b2 && in_range 0x80 0xBF b3 && in_range 0x80 0xBF b4 && utf8_valid t4
                  else if b1 =? 0xF4 then
                    in_range 0x80 0x8F b2 && in_range 0x80 0xBF b3 && in_range 0x80 0xBF b4 && utf8_valid t4
                  else false
              end
          end
      end
  end.

(** ** Positional readers: [read_uN_le(bytes, offset)] *)

Definition read_le {E} (err : E) (n off : nat) (bs : bytes) : result E N :=
  if (length bs <? off + n)%nat then Err err else Ok (le_val (slice off (off + n) bs)).

Lemma read_le_ok {E} (err : E) n off v bs :
  (off + n ≤ length bs)%nat → slice off (off + n) bs = le_bytes n v → v < 256 ^ N.of_nat n →
  read_le err n off bs = Ok v.
Proof.
  intros Hl Hs Hv. unfold read_le. rewrite (proj2 (Nat.ltb_ge _ _)) by done.
  by rewrite Hs, le_val_le_bytes.
Qed.

(** Steps a [slice] over concatenated fields to the field it reads. *)
Ltac slice_step :=
  first [ rewrite slice_here by (rewrite ?length_le_bytes; reflexivity)
        | rewrite slice_skip by (rewrite ?length_le_bytes; lia);
          rewrite ?length_le_bytes; cbn [Nat.sub Nat.add] ].
