(* ===== verification/Core.v ===== *)
(** [kaya-core/src/lib.rs]: the error type every crate returns and the CRC-32C
    checksum that protects every on-disk frame. *)
From S2P Require Import Prelude Bytes.

Open Scope N_scope.

(** ** KayaError *)

Inductive KayaError : Type :=
| InvalidArgument (message : string)
| NotFound
| Corruption (message : string)
| Io (message : string)
| DiskFull
| FsyncFailed
| UnsupportedVersion (found : N)
| LockConflict
| TxnConflict
| InvariantViolation (id message : string)
| Internal (message : string)
| ClockSkew (message : string).

#[export] Instance KayaError_eq_dec : EqDecision KayaError.
Proof. solve_decision. Defined.

(** [thiserror]'s [Display], as [error.to_string()] uses it. *)
Definition display (e : KayaError) : string :=
  match e with
  | InvalidArgument m => "invalid argument: " +:+ m
  | NotFound => "not found"
  | Corruption m => "corruption: " +:+ m
  | Io m => "io error: " +:+ m
  | DiskFull => "disk full"
  | FsyncFailed => "fsync failed"
  | UnsupportedVersion n => "unsupported version: " +:+ pretty n
  | LockConflict => "data directory lock conflict"
  | TxnConflict => "transaction conflict"
  | InvariantViolation i m => "invariant violation " +:+ i +:+ ": " +:+ m
  | Internal m => "internal error: " +:+ m
  | ClockSkew m => "clock skew exceeded: " +:+ m
  end.

Definition exit_code (e : KayaError) : N :=
  match e with
  | NotFound => 2
  | Corruption _ => 3
  | InvalidArgument _ | UnsupportedVersion _ => 4
  | InvariantViolation _ _ => 5
  | LockConflict => 6
  | TxnConflict => 7
  | ClockSkew _ => 8
  | Io _ | DiskFull | FsyncFailed | Internal _ => 1
  end.

(** ** Configuration records and their [Default]s *)

Inductive DurabilityMode : Type := Strict | Relaxed.

#[export] Instance DurabilityMode_eq_dec : EqDecision DurabilityMode.
Proof. solve_decision. Defined.

(** [batch_max_records = 1], [batch_max_bytes = 0] and
    [batch_flush_interval_us = 0] each disable their trigger. *)
Record WalBatchConfig := mkWalBatchConfig {
  batch_max_records : N;
  batch_max_bytes : N;
  batch_flush_interval_us : N
}.
Definition WalBatchConfig_default : WalBatchConfig := mkWalBatchConfig 1 0 0.

Record WalConfig := mkWalConfig {
  segment_max_bytes : N;
  max_record_bytes : N;
  wal_batch : WalBatchConfig
}.
Definition WalConfig_default : WalConfig :=
  mkWalConfig (64 * 1024 * 1024) (32 * 1024 * 1024) WalBatchConfig_default.

Record LimitsConfig := mkLimitsConfig {
  max_key_len : N;
  max_value_len : N;
  max_scan_results : N;
  max_scan_bytes : N
}.
Definition LimitsConfig_default : LimitsConfig :=
  mkLimitsConfig (4 * 1024) (16 * 1024 * 1024) 100000 (64 * 1024 * 1024).

Inductive CompactionPolicyKind : Type := L0Merge | Leveled | SizeTiered.

Record LeveledCompactionConfig := mkLeveledConfig {
  level_count : N;
  l0_compaction_trigger : N
}.
Definition LeveledCompactionConfig_default : LeveledCompactionConfig := mkLeveledConfig 7 4.

Record SizeTieredCompactionConfig := mkTieredConfig {
  min_tables : N;
  ratio_x1000 : N
}.
Definition SizeTieredCompactionConfig_default : SizeTieredCompactionConfig :=
  mkTieredConfig 4 1500.

Record CompactionConfig := mkCompactionConfig {
  policy : CompactionPolicyKind;
  leveled : LeveledCompactionConfig;
  tiered : SizeTieredCompactionConfig
}.

(** ** CRC-32C *)

Definition crc_poly : N := 0x82f63b78.

(** [(crc & 1).wrapping_neg()] at 32 bits. *)
Definition wrapping_neg (x : N) : N := (u32_lim - x) mod u32_lim.

(** One iteration of the inner loop. *)
Definition crc_bit (crc : N) : N :=
  let mask := wrapping_neg (N.land crc 1) in
  N.lxor (N.shiftr crc 1) (N.land crc_poly mask).

(** One iteration of the outer loop. *)
Definition crc_byte (crc byte : N) : N := Nat.iter 8 crc_bit (N.lxor crc byte).

(** [!x] at 32 bits. *)
Definition not32 (x : N) : N := N.lxor x u32_max.

Definition crc32c (bs : bytes) : N := not32 (foldl crc_byte (not32 0) bs).

(** *** 32-bit closure *)

Lemma lt_u32_bits x : x < u32_lim ↔ ∀ i, 32 <= i → N.testbit x i = false.
Proof.
  change u32_lim with (2 ^ 32). split.
  - intros Hx i Hi. destruct (N.eq_dec x 0) as [->|]; [apply N.bits_0|].
    apply N.bits_above_log2. apply N.log2_lt_pow2 in Hx; lia.
  - intros H. destruct (N.lt_ge_cases x (2 ^ 32)) as [|Hge]; [done|].
    assert (x ≠ 0) by lia. assert (32 <= N.log2 x) by (apply N.log2_le_pow2; lia).
    pose proof (N.bit_log2 x). rewrite H in *; naive_solver.
Qed.

Lemma lxor_u32 x y : x < u32_lim → y < u32_lim → N.lxor x y < u32_lim.
Proof.
  rewrite !lt_u32_bits. intros Hx Hy i Hi. by rewrite N.lxor_spec, Hx, Hy.
Qed.

Lemma crc_bit_eq c : crc_bit c = N.lxor (N.shiftr c 1) (if N.odd c then crc_poly else 0).
Proof.
  unfold crc_bit. f_equal. change 1 with (N.ones 1). rewrite N.land_ones.
  rewrite <-N.bit0_mod, N.bit0_odd. by destruct (N.odd c).
Qed.

Lemma crc_bit_u32 c : c < u32_lim → crc_bit c < u32_lim.
Proof.
  intros Hc. rewrite crc_bit_eq. apply lxor_u32.
  - rewrite N.shiftr_div_pow2. change (2 ^ 1) with 2.
    pose proof (N.Div0.div_le_upper_bound c 2 c). lia.
  - by destruct (N.odd c).
Qed.

Lemma crc_iter_u32 n c : c < u32_lim → Nat.iter n crc_bit c < u32_lim.
Proof. intros Hc. induction n; [done|]. by apply crc_bit_u32. Qed.

(** The top bit of the polynomial is set, so the bit shifted out can be read off
    the result: a step loses no information. *)
Lemma crc_bit_odd c : c < u32_lim → N.testbit (crc_bit c) 31 = N.odd c.
Proof.
  intros Hc. rewrite crc_bit_eq, N.lxor_spec, N.shiftr_spec'.
  change (31 + 1) with 32. rewrite (proj1 (lt_u32_bits c)) by (done || lia).
  by destruct (N.odd c).
Qed.

Lemma lxor_cancel_r x y z : N.lxor x z = N.lxor y z → x = y.
Proof.
  intros H. apply (f_equal (λ w, N.lxor w z)) in H.
  by rewrite !N.lxor_assoc, N.lxor_nilpotent, !N.lxor_0_r in H.
Qed.

Lemma crc_bit_inj c d : c < u32_lim → d < u32_lim → crc_bit c = crc_bit d → c = d.
Proof.
  intros Hc Hd H. assert (N.odd c = N.odd d) as Hodd.
  { by rewrite <-(crc_bit_odd c), <-(crc_bit_odd d), H. }
  rewrite !crc_bit_eq, Hodd in H. apply lxor_cancel_r in H.
  rewrite !N.shiftr_div_pow2 in H. change (2 ^ 1) with 2 in H.
  rewrite (N.div_mod c 2), (N.div_mod d 2), H by lia. f_equal.
  by rewrite <-!N.bit0_mod, !N.bit0_odd, Hodd.
Qed.

Lemma crc_iter_inj n c d :
  c < u32_lim → d < u32_lim → Nat.iter n crc_bit c = Nat.iter n crc_bit d → c = d.
Proof.
  intros Hc Hd. induction n as [|n IH]; [done|]. intros H. apply IH.
  apply crc_bit_inj; auto using crc_iter_u32.
Qed.

Lemma byte_u32 b : byte_ok b → b < u32_lim.
Proof. unfold byte_ok, u32_lim. lia. Qed.

Lemma crc_byte_u32 c b : c < u32_lim → byte_ok b → crc_byte c b < u32_lim.
Proof. intros. apply crc_iter_u32, lxor_u32; auto using byte_u32. Qed.

Lemma crc_byte_inj_state c d b :
  c < u32_lim → d < u32_lim → byte_ok b → crc_byte c b = crc_byte d b → c = d.
Proof.
  intros Hc Hd Hb H. apply crc_iter_inj in H; auto using lxor_u32, byte_u32.
  by apply lxor_cancel_r in H.
Qed.

Lemma crc_byte_inj_byte c b b' :
  c < u32_lim → byte_ok b → byte_ok b' → crc_byte c b = crc_byte c b' → b = b'.
Proof.
  intros Hc Hb Hb' H. apply crc_iter_inj in H; auto using lxor_u32, byte_u32.
  rewrite !(N.lxor_comm c) in H. by apply lxor_cancel_r in H.
Qed.

Lemma crc_fold_u32 bs c : c < u32_lim → bytes_ok bs → foldl crc_byte c bs < u32_lim.
Proof.
  intros Hc Hbs. revert c Hc. induction Hbs; intros c Hc; [done|].
  cbn [foldl]. auto using crc_byte_u32.
Qed.

Lemma crc_fold_inj bs c d :
  c < u32_lim → d < u32_lim → bytes_ok bs →
  foldl crc_byte c bs = foldl crc_byte d bs → c = d.
Proof.
  intros Hc Hd Hbs. revert c d Hc Hd. induction Hbs as [|b bs Hb _ IH]; [done|].
  cbn [foldl]. intros c d Hc Hd H. apply IH in H; auto using crc_byte_u32.
  by apply crc_byte_inj_state in H.
Qed.

Lemma not32_0_u32 : not32 0 < u32_lim.
Proof. done. Qed.

Lemma crc32c_u32 bs : bytes_ok bs → crc32c bs < u32_lim.
Proof.
  intros. apply lxor_u32; [|done]. by apply crc_fold_u32.
Qed.

Lemma crc32c_bound bs : bytes_ok bs → crc32c bs < 256 ^ N.of_nat 4.
Proof. apply crc32c_u32. Qed.

(** Replacing one byte by a different one changes the checksum. *)
Lemma crc32c_one_byte pre b b' post :
  bytes_ok pre → byte_ok b → byte_ok b' → bytes_ok post → b ≠ b' →
  crc32c (pre ++ b :: post) ≠ crc32c (pre ++ b' :: post).
Proof.
  intros Hpre Hb Hb' Hpost Hne H. unfold crc32c in H. apply lxor_cancel_r in H.
  rewrite !foldl_app in H. cbn [foldl] in H.
  assert (foldl crc_byte (not32 0) pre < u32_lim) by (by apply crc_fold_u32).
  apply crc_fold_inj in H; auto using crc_byte_u32.
  by apply crc_byte_inj_byte in H.
Qed.

Lemma crc32c_insert l i b b' :
  bytes_ok l → byte_ok b' → l !! i = Some b → b ≠ b' → crc32c (<[i:=b']> l) ≠ crc32c l.
Proof.
  intros Hl Hb' Hi Hne. assert (byte_ok b) by (by eapply Forall_lookup_1).
  assert (i < length l)%nat by (by eapply lookup_lt_Some).
  rewrite insert_take_drop by done. rewrite <-(take_drop_middle l i b Hi) at 3.
  apply crc32c_one_byte; auto; by apply Forall_take || by apply Forall_drop.
Qed.

#[global] Arguments crc32c : simpl never.
#[export] Hint Resolve crc32c_bound crc32c_u32 : kaya.

(** The published check value of CRC-32C, as the repository's own test has it. *)
Example crc32c_known_vector : crc32c [49; 50; 51; 52; 53; 54; 55; 56; 57] = 0xe3069283.
Proof. vm_compute. reflexivity. Qed.
