(* ===== verification/Hlc.v ===== *)
(** [kaya-core/src/hlc.rs]: the hybrid logical clock that assigns commit
    timestamps, with its packing into a [u64], and the two engine operations
    that drive it ([sync_clock] and [prepare_hlc_write_sequence] of
    [kaya-engine/src/lib.rs], with the WAL's [ensure_min_sequence]).  The wall
    clock reading is an argument. *)
From S2P Require Import Prelude Bytes Core.

Open Scope N_scope.

Record Hlc := mkHlc { physical_ms : N; logical : N }.

#[export] Instance Hlc_eq_dec : EqDecision Hlc.
Proof. solve_decision. Defined.

(** The fields hold a [u64] and a [u16]. *)
Definition hlc_ok (h : Hlc) : Prop := physical_ms h < u64_lim ∧ logical h < u16_lim.

Definition hlc_zero : Hlc := mkHlc 0 0.

(** The derived [Ord]: physical time first, then the counter. *)
Definition hlc_lt (a b : Hlc) : Prop :=
  physical_ms a < physical_ms b ∨ physical_ms a = physical_ms b ∧ logical a < logical b.
Definition hlc_le (a b : Hlc) : Prop :=
  physical_ms a < physical_ms b ∨ physical_ms a = physical_ms b ∧ logical a <= logical b.

(** [Hlc::update]: the new clock, which is also the value returned. *)
Definition update (self : Hlc) (now_ms : N) (remote : option Hlc) : Hlc :=
  let remote := default hlc_zero remote in
  let pt := N.max (N.max now_ms (physical_ms self)) (physical_ms remote) in
  let l :=
    if (pt =? physical_ms self) && (pt =? physical_ms remote) then
      sat_add u16_max (N.max (logical self) (logical remote)) 1
    else if pt =? physical_ms self then sat_add u16_max (logical self) 1
    else if pt =? physical_ms remote then sat_add u16_max (logical remote) 1
    else 0 in
  mkHlc pt l.

Definition tick (self : Hlc) (now_ms : N) : Hlc := update self now_ms None.

Record ClockSkewExceeded := mkClockSkew {
  local_now_ms : N;
  remote_physical_ms : N;
  max_offset_ms : N
}.

Definition checked_update (self : Hlc) (now_ms : N) (remote : option Hlc) (max_offset : N)
    : result ClockSkewExceeded Hlc :=
  match remote with
  | Some r =>
      if sat_add u64_max now_ms max_offset <? physical_ms r
      then Err (mkClockSkew now_ms (physical_ms r) max_offset)
      else Ok (update self now_ms remote)
  | None => Ok (update self now_ms remote)
  end.

Definition lead_over_wall_ms (self : Hlc) (now_ms : N) : N := physical_ms self - now_ms.

(** [phys << 16] drops the bits above 64; the saturation above it makes sure
    there are none. *)
Definition to_u64 (self : Hlc) : N :=
  let phys := N.min (physical_ms self) (N.shiftr u64_max 16) in
  N.lor (wrap u64_lim (N.shiftl phys 16)) (logical self).

Definition from_u64 (v : N) : Hlc :=
  mkHlc (N.shiftr v 16) (wrap u16_lim (N.land v 0xFFFF)).

(** ** The engine's use of the clock *)

Record EngineClock := mkEngineClock {
  hlc : Hlc;
  next_sequence : N;
  use_hlc : bool;
  max_clock_offset_micros : N
}.

(** [self.config.max_clock_offset_micros / 1_000]. *)
Definition offset_ms (e : EngineClock) : N := max_clock_offset_micros e / 1000.

(** [WalWriter::ensure_min_sequence]. *)
Definition ensure_min_sequence (min_seq : N) (next_seq : N) : N :=
  if next_seq <? min_seq then min_seq else next_seq.

Definition ClockSkew_display (e : ClockSkewExceeded) : string :=
  "remote clock offset " +:+ pretty (remote_physical_ms e - local_now_ms e)
  +:+ "ms exceeds max_clock_offset_ms=" +:+ pretty (max_offset_ms e)
  +:+ " (local wall clock " +:+ pretty (local_now_ms e)
  +:+ "ms, remote physical " +:+ pretty (remote_physical_ms e) +:+ "ms)".

Definition sync_clock (now_ms hlc_u64 : N) (e : EngineClock) : result KayaError EngineClock :=
  match checked_update (hlc e) now_ms (Some (from_u64 hlc_u64))
          (offset_ms e) with
  | Err err => Err (ClockSkew (ClockSkew_display err))
  | Ok merged =>
      let ts := N.max (to_u64 merged) 1 in
      Ok (mkEngineClock merged (ensure_min_sequence ts (next_sequence e))
            (use_hlc e) (max_clock_offset_micros e))
  end.

(** The engine after the call and the milliseconds it slept. *)
Definition prepare_hlc_write_sequence (now_ms : N) (e : EngineClock) : EngineClock * N :=
  if use_hlc e then
    let h := tick (hlc e) now_ms in
    let ts := N.max (to_u64 h) 1 in
    (mkEngineClock h (ensure_min_sequence ts (next_sequence e))
       (use_hlc e) (max_clock_offset_micros e),
     N.min (lead_over_wall_ms h now_ms) (offset_ms e))
  else (e, 0).

(** ** The update rule *)

Lemma sat_add_1 mx x : x < mx → sat_add mx x 1 = x + 1.
Proof. unfold sat_add. lia. Qed.

Ltac hlc_cases :=
  repeat match goal with
  | |- context [N.eqb ?a ?b] => destruct (N.eqb_spec a b); cbn [andb] in *
  | H : context [N.eqb ?a ?b] |- _ => destruct (N.eqb_spec a b); cbn [andb] in *
  end.

Lemma update_physical h now r :
  physical_ms (update h now r) =
  N.max (N.max now (physical_ms h)) (physical_ms (default hlc_zero r)).
Proof. done. Qed.

Lemma update_ok h now r :
  hlc_ok h → now < u64_lim → hlc_ok (default hlc_zero r) → hlc_ok (update h now r).
Proof.
  unfold hlc_ok, update, sat_add, u16_max, u16_lim, u64_lim. cbn.
  intros [? ?] ? [? ?]. split; [lia|]. hlc_cases; lia.
Qed.

Lemma update_strict h now r :
  logical (update h now r) < u16_max →
  hlc_lt h (update h now r) ∧ hlc_lt (default hlc_zero r) (update h now r).
Proof.
  unfold hlc_lt, update, sat_add, u16_max. cbn. intros Hl.
  hlc_cases; split; lia.
Qed.

Lemma update_le h now r :
  hlc_ok h → hlc_ok (default hlc_zero r) →
  hlc_le h (update h now r) ∧ hlc_le (default hlc_zero r) (update h now r).
Proof.
  unfold hlc_ok, hlc_le, hlc_lt, update, sat_add, u16_max, u16_lim. cbn.
  intros [_ ?] [_ ?]. hlc_cases; split; lia.
Qed.

(** ** Packing *)

Definition max_phys : N := 281474976710655.

Lemma lor_shiftl_add p l : l < 65536 → N.lor (N.shiftl p 16) l = p * 65536 + l.
Proof.
  intros Hl. rewrite <-N.lxor_lor, <-N.add_nocarry_lxor.
  - by rewrite N.shiftl_mul_pow2.
  - apply N.bits_inj_0. intros i. rewrite N.land_spec.
    destruct (N.lt_ge_cases i 16); [by rewrite N.shiftl_spec_low|].
    rewrite <-(N.mod_small l (2 ^ 16)), N.mod_pow2_bits_high by done.
    apply andb_false_r.
  - apply N.bits_inj_0. intros i. rewrite N.land_spec.
    destruct (N.lt_ge_cases i 16); [by rewrite N.shiftl_spec_low|].
    rewrite <-(N.mod_small l (2 ^ 16)), N.mod_pow2_bits_high by done.
    apply andb_false_r.
Qed.

Lemma to_u64_eq h :
  logical h < u16_lim → to_u64 h = N.min (physical_ms h) max_phys * 65536 + logical h.
Proof.
  intros Hl. unfold to_u64. change (N.shiftr u64_max 16) with max_phys.
  rewrite wrap_small; [by apply lor_shiftl_add|].
  rewrite N.shiftl_mul_pow2. change (2 ^ 16) with 65536. unfold max_phys, u64_lim. lia.
Qed.

Lemma from_u64_eq v : from_u64 v = mkHlc (v / 65536) (v mod 65536).
Proof.
  unfold from_u64. rewrite N.shiftr_div_pow2. change 0xFFFF with (N.ones 16).
  rewrite N.land_ones. change (2 ^ 16) with 65536. unfold wrap, u16_lim.
  by rewrite N.Div0.mod_mod.
Qed.

Lemma from_to_u64 h : logical h < u16_lim → physical_ms h <= max_phys → from_u64 (to_u64 h) = h.
Proof.
  intros Hl Hp. rewrite from_u64_eq, to_u64_eq, N.min_l by done. destruct h as [p l]; cbn in *.
  unfold u16_lim in Hl. f_equal.
  - rewrite N.div_add_l, N.div_small by lia. lia.
  - rewrite N.add_comm, N.Div0.mod_add. by apply N.mod_small.
Qed.

Lemma to_from_u64 v : v < u64_lim → to_u64 (from_u64 v) = v.
Proof.
  intros Hv. rewrite from_u64_eq, to_u64_eq; cbn.
  - rewrite N.min_l.
    + pose proof (N.div_mod v 65536). lia.
    + unfold max_phys, u64_lim in *. pose proof (N.Div0.div_lt_upper_bound v 65536 281474976710656). lia.
  - unfold u16_lim. pose proof (N.mod_lt v 65536). lia.
Qed.

Lemma to_u64_bound h : logical h < u16_lim → to_u64 h < u64_lim.
Proof. intros. rewrite to_u64_eq by done. unfold max_phys, u16_lim, u64_lim in *. lia. Qed.

Lemma to_u64_lt a b :
  logical a < u16_lim → logical b < u16_lim → physical_ms b <= max_phys →
  hlc_lt a b → to_u64 a < to_u64 b.
Proof.
  intros Ha Hb Hp Hlt. rewrite !to_u64_eq by done. unfold hlc_lt, u16_lim, max_phys in *. lia.
Qed.

(** ** Runs of the engine clock *)

(** The calls that move the clock: a remote sample or a local write, each with
    the wall clock it read. *)
Inductive clock_op : Type :=
| SyncClock (now_ms hlc_u64 : N)
| PrepareWrite (now_ms : N).

Definition op_now (op : clock_op) : N :=
  match op with SyncClock now _ | PrepareWrite now => now end.

Definition op_ok (op : clock_op) : Prop :=
  op_now op < u64_lim ∧ match op with SyncClock _ v => v < u64_lim | _ => True end.

(** A rejected sample leaves the engine as it was. *)
Definition clock_step (e : EngineClock) (op : clock_op) : EngineClock :=
  match op with
  | SyncClock now v => match sync_clock now v e with Ok e' => e' | Err _ => e end
  | PrepareWrite now => (prepare_hlc_write_sequence now e).1
  end.

Definition clock_run (e : EngineClock) (ops : list clock_op) : EngineClock :=
  foldl clock_step e ops.

Lemma ensure_min_sequence_max s n : ensure_min_sequence s n = N.max n s.
Proof. unfold ensure_min_sequence. destruct (N.ltb_spec n s); lia. Qed.

Lemma from_u64_ok v : v < u64_lim → hlc_ok (from_u64 v).
Proof.
  intros Hv. rewrite from_u64_eq. unfold hlc_ok, u64_lim, u16_lim in *; cbn.
  pose proof (N.mod_lt v 65536). pose proof (N.Div0.div_le_upper_bound v 65536 v). lia.
Qed.

Lemma hlc_le_refl h : hlc_le h h.
Proof. unfold hlc_le. lia. Qed.

Lemma hlc_le_trans a b c : hlc_le a b → hlc_le b c → hlc_le a c.
Proof. unfold hlc_le. lia. Qed.

Lemma sync_clock_cases now v e :
  let r := from_u64 v in
  let off := offset_ms e in
  (sat_add u64_max now off < physical_ms r ∧
   sync_clock now v e = Err (ClockSkew (ClockSkew_display (mkClockSkew now (physical_ms r) off)))) ∨
  (physical_ms r <= sat_add u64_max now off ∧
   sync_clock now v e =
     Ok (mkEngineClock (update (hlc e) now (Some r))
           (N.max (next_sequence e) (N.max (to_u64 (update (hlc e) now (Some r))) 1))
           (use_hlc e) (max_clock_offset_micros e))).
Proof.
  intros r off. unfold sync_clock, checked_update. fold r. fold off.
  destruct (N.ltb_spec (sat_add u64_max now off) (physical_ms r)); [left|right]; split; try done.
  by rewrite ensure_min_sequence_max.
Qed.

Record clock_bound (w : N) (e e' : EngineClock) : Prop := {
  cb_ok : hlc_ok (hlc e');
  cb_phys : physical_ms (hlc e') <= w + offset_ms e;
  cb_le : hlc_le (hlc e) (hlc e');
  cb_seq : next_sequence e <= next_sequence e';
  cb_off : max_clock_offset_micros e' = max_clock_offset_micros e
}.

Lemma clock_step_bound w e op :
  hlc_ok (hlc e) → op_ok op → op_now op <= w →
  physical_ms (hlc e) <= w + offset_ms e →
  clock_bound w e (clock_step e op).
Proof.
  intros Hok [Hnow Hop] Hw Hp. destruct op as [now v|now]; cbn [clock_step op_now] in *.
  - destruct (sync_clock_cases now v e) as [[_ ->]|[Hr ->]].
    { constructor; auto using hlc_le_refl; lia. }
    pose proof (from_u64_ok v Hop) as Hrok.
    destruct (update_le (hlc e) now (Some (from_u64 v)) Hok Hrok) as [Hle _].
    constructor; cbn [hlc next_sequence max_clock_offset_micros]; auto; try lia.
    + by apply update_ok.
    + rewrite update_physical. cbn [from_option id]. unfold sat_add in Hr. lia.
  - unfold prepare_hlc_write_sequence. destruct (use_hlc e); cbn [fst].
    2: { constructor; auto using hlc_le_refl; lia. }
    assert (hlc_ok hlc_zero) by done.
    destruct (update_le (hlc e) now None) as [Hle _]; [done..|].
    constructor; cbn [hlc next_sequence max_clock_offset_micros]; auto.
    + by apply update_ok.
    + unfold tick. rewrite update_physical. cbn. lia.
    + rewrite ensure_min_sequence_max. lia.
Qed.

Lemma clock_run_bound w e ops :
  hlc_ok (hlc e) → Forall (λ op, op_ok op ∧ op_now op <= w) ops →
  physical_ms (hlc e) <= w + offset_ms e →
  clock_bound w e (clock_run e ops).
Proof.
  intros Hok Hops. revert e Hok. induction Hops as [|op ops [Hop Hw] _ IH]; intros e Hok Hp; cbn.
  - constructor; auto using hlc_le_refl; lia.
  - pose proof (clock_step_bound w e op Hok Hop Hw Hp) as [H1 H2 H3 H4 H5].
    assert (offset_ms (clock_step e op) = offset_ms e) as Ho by (unfold offset_ms; by rewrite H5).
    destruct (IH (clock_step e op) H1) as [G1 G2 G3 G4 G5]; [by rewrite Ho|].
    unfold clock_run in *. rewrite Ho, H5 in *. constructor; eauto using hlc_le_trans; lia.
Qed.

(** ** Properties *)

(** Packing a clock into a commit timestamp loses nothing and preserves the
    order, for every physical time up to 2^48-1 ms; every [u64] is the packing
    of exactly the clock [from_u64] returns. *)
Theorem hlc_pack_correct (a b : Hlc) (v : N) :
  hlc_ok a → hlc_ok b → physical_ms a <= max_phys → physical_ms b <= max_phys →
  v < u64_lim →
  from_u64 (to_u64 a) = a ∧ (hlc_lt a b ↔ to_u64 a < to_u64 b) ∧
  to_u64 a < u64_lim ∧ to_u64 (from_u64 v) = v.
Proof.
  intros [_ Ha] [_ Hb] Hpa Hpb Hv. split_and!; auto using from_to_u64, to_u64_bound, to_from_u64.
  split; [by apply to_u64_lt|]. rewrite !to_u64_eq by done.
  unfold hlc_lt, u16_lim, max_phys in *. lia.
Qed.

Lemma hlc_pack_correct_witness :
  from_u64 (to_u64 (mkHlc 1700000000000 7)) = mkHlc 1700000000000 7 ∧
  (hlc_lt (mkHlc 1700000000000 7) (mkHlc 1700000000001 0) ↔
   to_u64 (mkHlc 1700000000000 7) < to_u64 (mkHlc 1700000000001 0)) ∧
  to_u64 (mkHlc 1700000000000 7) < u64_lim ∧ to_u64 (from_u64 65537) = 65537.
Proof.
  apply (hlc_pack_correct (mkHlc 1700000000000 7) (mkHlc 1700000000001 0) 65537);
    vm_compute; done || (split; done).
Defined.

(** An update moves the clock past both the local and the remote sample (it
    is never behind either, and strictly ahead while the 16-bit counter has not
    reached its ceiling); at the ceiling a stalled wall clock makes it return
    the same timestamp again. *)
Theorem hlc_update_monotone (h : Hlc) (now : N) (r : Hlc) :
  hlc_ok h → hlc_ok r →
  let u := update h now (Some r) in
  hlc_le h u ∧ hlc_le r u ∧ now <= physical_ms u ∧
  (logical u < u16_max → hlc_lt h u ∧ hlc_lt r u) ∧
  (now <= physical_ms h → physical_ms r < physical_ms h → logical h = u16_max → u = h).
Proof.
  intros Hh Hr u. destruct (update_le h now (Some r) Hh Hr) as [H1 H2].
  split_and!; [done|done|subst u; rewrite update_physical; lia|apply update_strict|].
  intros Hn Hp Hl. subst u. destruct h as [p l]; unfold update, sat_add, u16_max in *; cbn in *.
  subst l. hlc_cases; f_equal; lia.
Qed.

Lemma hlc_update_monotone_witness :
  let u := update (mkHlc 100 5) 90 (Some (mkHlc 100 9)) in
  hlc_le (mkHlc 100 5) u ∧ hlc_le (mkHlc 100 9) u ∧ 90 <= physical_ms u ∧
  (logical u < u16_max → hlc_lt (mkHlc 100 5) u ∧ hlc_lt (mkHlc 100 9) u) ∧
  (90 <= 100 → 100 < 100 → 5 = u16_max → u = mkHlc 100 5).
Proof. apply (hlc_update_monotone (mkHlc 100 5) 90 (mkHlc 100 9)); by vm_compute. Defined.

(** Over any interleaving of remote samples and local writes, the clock
    never runs more than the configured offset ahead of the largest wall clock
    reading (whatever the peers send), never goes back, and the WAL's next
    sequence number never decreases. *)
Theorem engine_clock_bounded (w : N) (e : EngineClock) (ops : list clock_op) :
  hlc_ok (hlc e) → Forall (λ op, op_ok op ∧ op_now op <= w) ops →
  physical_ms (hlc e) <= w + offset_ms e →
  physical_ms (hlc (clock_run e ops)) <= w + offset_ms e ∧
  hlc_le (hlc e) (hlc (clock_run e ops)) ∧
  next_sequence e <= next_sequence (clock_run e ops).
Proof. intros H1 H2 H3. by destruct (clock_run_bound w e ops H1 H2 H3). Qed.

Lemma engine_clock_bounded_witness :
  let e := mkEngineClock (mkHlc 900 0) 1 true 500000 in
  let ops := [PrepareWrite 1000; SyncClock 1001 (to_u64 (mkHlc 1400 3));
              SyncClock 1001 (to_u64 (mkHlc 99999 0)); PrepareWrite 1002] in
  physical_ms (hlc (clock_run e ops)) <= 1002 + 500000 / 1000 ∧
  hlc_le (mkHlc 900 0) (hlc (clock_run e ops)) ∧
  1 <= next_sequence (clock_run e ops).
Proof.
  apply (engine_clock_bounded 1002 (mkEngineClock (mkHlc 900 0) 1 true 500000)).
  - by vm_compute.
  - by repeat constructor; vm_compute.
  - by vm_compute.
Defined.

(** Preparing a write assigns a sequence number strictly above every
    timestamp the clock has shown, and when the clock's lead is within the
    configured offset the wall clock has caught up with it by the time the call
    returns. *)
Theorem prepare_write_exposes_past (now : N) (e : EngineClock) :
  use_hlc e = true → hlc_ok (hlc e) →
  logical (tick (hlc e) now) < u16_max → physical_ms (tick (hlc e) now) <= max_phys →
  let '(e', slept) := prepare_hlc_write_sequence now e in
  to_u64 (hlc e) < next_sequence e' ∧ next_sequence e <= next_sequence e' ∧
  (lead_over_wall_ms (hlc e') now <= offset_ms e →
   physical_ms (hlc e') <= now + slept).
Proof.
  intros Huse [_ Hl] Hs Hp. unfold prepare_hlc_write_sequence. rewrite Huse.
  cbn [hlc next_sequence]. rewrite ensure_min_sequence_max.
  pose proof (proj1 (update_strict (hlc e) now None Hs)) as Hlt.
  apply to_u64_lt in Hlt; [|done|unfold u16_max, u16_lim in *; unfold tick in Hs; lia|done].
  unfold tick, lead_over_wall_ms in *. split_and!; lia.
Qed.

Lemma prepare_write_exposes_past_witness :
  let '(e', slept) := prepare_hlc_write_sequence 1000 (mkEngineClock (mkHlc 1400 3) 5 true 500000) in
  to_u64 (mkHlc 1400 3) < next_sequence e' ∧ 5 <= next_sequence e' ∧
  (lead_over_wall_ms (hlc e') 1000 <= 500000 / 1000 → physical_ms (hlc e') <= 1000 + slept).
Proof.
  apply (prepare_write_exposes_past 1000 (mkEngineClock (mkHlc 1400 3) 5 true 500000));
    by vm_compute.
Defined.
