(* ===== verification/OrdMap.v ===== *)
(** Ordered maps: the model of [BTreeMap] and [BTreeSet], as association lists
    sorted by a decidable total order on the keys, with the lookup laws of
    insertion, removal and range scans.  The order is an interface ([OrdKey]);
    the instances are the byte-string order, the order of [N] and the
    lexicographic order of pairs. *)
From S2P Require Import Prelude Bytes.

Open Scope N_scope.

Class OrdKey (K : Type) := {
  kcmp : K → K → comparison;
  kcmp_eq : ∀ a b, kcmp a b = Eq ↔ a = b;
  kcmp_opp : ∀ a b, kcmp b a = CompOpp (kcmp a b);
  kcmp_lt_trans : ∀ a b c, kcmp a b = Lt → kcmp b c = Lt → kcmp a c = Lt
}.

Definition klt {K} `{OrdKey K} (a b : K) : Prop := kcmp a b = Lt.

#[export, refine] Instance OrdKey_bytes : OrdKey bytes := {| kcmp := bcmp |}.
Proof.
  - apply bcmp_eq.
  - apply bcmp_antisym.
  - apply bcmp_trans_lt.
Defined.

#[export, refine] Instance OrdKey_N : OrdKey N := {| kcmp := N.compare |}.
Proof.
  - apply N.compare_eq_iff.
  - intros a b. apply N.compare_antisym.
  - intros a b c. rewrite !N.compare_lt_iff. lia.
Defined.

Section Order.
  Context {K} `{OrdKey K}.

Lemma kcmp_refl a : kcmp a a = Eq.
Proof. by apply kcmp_eq. Qed.

Lemma kcmp_gt_lt a b : kcmp a b = Gt ↔ kcmp b a = Lt.
Proof. rewrite (kcmp_opp a b). by destruct (kcmp a b). Qed.

Lemma klt_irrefl a : ¬ klt a a.
Proof. unfold klt. by rewrite kcmp_refl. Qed.

Lemma klt_trans a b c : klt a b → klt b c → klt a c.
Proof. apply kcmp_lt_trans. Qed.

Lemma klt_ne a b : klt a b → a ≠ b.
Proof. intros Hl ->. by apply klt_irrefl in Hl. Qed.

#[export] Instance klt_Transitive : Transitive (klt (K := K)).
Proof. intros a b c. apply klt_trans. Qed.
End Order.

(** ** The map operations *)

Section Ops.
  Context {K V : Type} `{OrdKey K}.

(** [BTreeMap::get]. *)
Fixpoint om_get (k : K) (m : list (K * V)) : option V :=
  match m with
  | [] => None
  | (k', v) :: m => match kcmp k k' with Lt => None | Eq => Some v | Gt => om_get k m end
  end.

(** [BTreeMap::insert]. *)
Fixpoint om_insert (k : K) (v : V) (m : list (K * V)) : list (K * V) :=
  match m with
  | [] => [(k, v)]
  | (k', v') :: m' =>
      match kcmp k k' with
      | Lt => (k, v) :: m
      | Eq => (k, v) :: m'
      | Gt => (k', v') :: om_insert k v m'
      end
  end.

(** [BTreeMap::remove]. *)
Fixpoint om_remove (k : K) (m : list (K * V)) : list (K * V) :=
  match m with
  | [] => []
  | (k', v') :: m' =>
      match kcmp k k' with
      | Lt => m
      | Eq => m'
      | Gt => (k', v') :: om_remove k m'
      end
  end.

(** [BTreeMap::range(k..)]. *)
Fixpoint om_from (k : K) (m : list (K * V)) : list (K * V) :=
  match m with
  | [] => []
  | (k', v') :: m' => match kcmp k' k with Lt => om_from k m' | _ => m end
  end.

Definition om_has (k : K) (m : list (K * V)) : bool :=
  match om_get k m with Some _ => true | None => false end.

(** Keys in strictly increasing order: the representation invariant. *)
Definition om_sorted (m : list (K * V)) : Prop := StronglySorted klt m.*1.

Lemma om_sorted_nil : om_sorted [].
Proof. constructor. Qed.

Lemma om_sorted_cons k v m :
  om_sorted ((k, v) :: m) ↔ om_sorted m ∧ Forall (λ kv, klt k kv.1) m.
Proof.
  unfold om_sorted. cbn. split.
  - intros Hs. apply StronglySorted_inv in Hs as [Hs Hf]. split; [done|].
    rewrite Forall_fmap in Hf. exact Hf.
  - intros [Hs Hf]. constructor; [done|]. rewrite Forall_fmap. exact Hf.
Qed.

Lemma om_get_lt k m : Forall (λ kv, klt k kv.1) m → om_get k m = None.
Proof. destruct 1 as [|[k' v] m Hk _]; cbn in *; [done|]. unfold klt in Hk. by rewrite Hk. Qed.

Lemma om_insert_Forall (P : K * V → Prop) k v m :
  P (k, v) → Forall P m → Forall P (om_insert k v m).
Proof.
  intros Hp. induction 1 as [|[k' v'] m Hx Hm IH]; cbn; [by repeat constructor|].
  destruct (kcmp k k'); repeat constructor; auto.
Qed.

Lemma om_remove_Forall (P : K * V → Prop) k m : Forall P m → Forall P (om_remove k m).
Proof.
  induction 1 as [|[k' v'] m Hx Hm IH]; cbn; [done|].
  destruct (kcmp k k'); repeat constructor; auto.
Qed.

Lemma om_insert_sorted k v m : om_sorted m → om_sorted (om_insert k v m).
Proof.
  induction m as [|[k' v'] m IH]; cbn [om_insert].
  - intros _. apply om_sorted_cons. split; constructor.
  - intros Hs. pose proof Hs as [Hm Hf]%om_sorted_cons.
    destruct (kcmp k k') eqn:E.
    + apply kcmp_eq in E as ->. by apply om_sorted_cons.
    + apply om_sorted_cons. split; [done|]. constructor; [done|].
      eapply Forall_impl; [exact Hf|]. intros [k2 v2] ?; cbn in *. by eapply klt_trans.
    + apply om_sorted_cons. split; [auto|]. apply om_insert_Forall; [|done].
      by apply kcmp_gt_lt.
Qed.

Lemma om_remove_sorted k m : om_sorted m → om_sorted (om_remove k m).
Proof.
  induction m as [|[k' v'] m IH]; cbn [om_remove]; [done|].
  intros Hs. pose proof Hs as [Hm Hf]%om_sorted_cons.
  destruct (kcmp k k'); auto. apply om_sorted_cons. split; [auto|]. by apply om_remove_Forall.
Qed.

Lemma om_get_insert_eq k v m : om_get k (om_insert k v m) = Some v.
Proof.
  induction m as [|[k' v'] m IH]; cbn [om_insert om_get]; [by rewrite kcmp_refl|].
  destruct (kcmp k k') eqn:E; cbn [om_get]; rewrite ?kcmp_refl, ?E; done.
Qed.

Lemma om_get_insert_ne k k1 v m :
  om_sorted m → k ≠ k1 → om_get k1 (om_insert k v m) = om_get k1 m.
Proof.
  intros Hs Hne. induction m as [|[k' v'] m IH]; cbn [om_insert om_get].
  - destruct (kcmp k1 k) eqn:E; try done. by apply kcmp_eq in E as ->.
  - apply om_sorted_cons in Hs as [Hm Hf].
    destruct (kcmp k k') eqn:E; cbn [om_get].
    + apply kcmp_eq in E as ->. destruct (kcmp k1 k') eqn:E1; try done.
      by apply kcmp_eq in E1 as ->.
    + destruct (kcmp k1 k) eqn:E1; try done.
      * by apply kcmp_eq in E1 as ->.
      * by rewrite (kcmp_lt_trans k1 k k' E1 E).
    + destruct (kcmp k1 k'); auto.
Qed.

Lemma om_get_insert k k1 v m :
  om_sorted m →
  om_get k1 (om_insert k v m) = match kcmp k1 k with Eq => Some v | _ => om_get k1 m end.
Proof.
  intros Hs. destruct (kcmp k1 k) eqn:E.
  - apply kcmp_eq in E as ->. apply om_get_insert_eq.
  - apply om_get_insert_ne; [done|]. intros ->. by rewrite kcmp_refl in E.
  - apply om_get_insert_ne; [done|]. intros ->. by rewrite kcmp_refl in E.
Qed.

Lemma om_get_remove_eq k m : om_sorted m → om_get k (om_remove k m) = None.
Proof.
  intros Hs. induction m as [|[k' v'] m IH]; cbn [om_remove om_get]; [done|].
  apply om_sorted_cons in Hs as [Hm Hf]. destruct (kcmp k k') eqn:E; cbn [om_get].
  - apply kcmp_eq in E as ->. by apply om_get_lt.
  - by rewrite E.
  - rewrite E. auto.
Qed.

Lemma om_get_remove_ne k k1 m :
  om_sorted m → k ≠ k1 → om_get k1 (om_remove k m) = om_get k1 m.
Proof.
  intros Hs Hne. induction m as [|[k' v'] m IH]; cbn [om_remove om_get]; [done|].
  apply om_sorted_cons in Hs as [Hm Hf]. destruct (kcmp k k') eqn:E; cbn [om_get].
  - apply kcmp_eq in E as ->. destruct (kcmp k1 k') eqn:E1; [by apply kcmp_eq in E1 as ->| |done].
    apply om_get_lt. eapply Forall_impl; [exact Hf|]. intros [? ?] ?; cbn in *.
    by eapply klt_trans.
  - done.
  - destruct (kcmp k1 k'); auto.
Qed.

Lemma om_get_elem k v m : om_sorted m → om_get k m = Some v ↔ (k, v) ∈ m.
Proof.
  induction m as [|[k' v'] m IH]; cbn [om_get].
  - intros _. split; [done|]. intros Hx. by apply not_elem_of_nil in Hx.
  - intros [Hm Hf]%om_sorted_cons. rewrite elem_of_cons.
    destruct (kcmp k k') eqn:E.
    + apply kcmp_eq in E as ->. split.
      * intros [= ->]. by left.
      * intros [[= ->]|Hin]; [done|]. rewrite Forall_forall in Hf.
        by apply Hf, klt_irrefl in Hin.
    + split; [done|]. intros [[= -> ->]|Hin]; [by rewrite kcmp_refl in E|].
      rewrite Forall_forall in Hf. apply Hf in Hin. cbn in Hin.
      assert (klt k k) as Hkk by (by eapply klt_trans). by apply klt_irrefl in Hkk.
    + rewrite IH by done. split; [by right|]. intros [[= -> ->]|Hin]; [by rewrite kcmp_refl in E|done].
Qed.

Lemma om_has_elem k m : om_sorted m → om_has k m = true ↔ k ∈ m.*1.
Proof.
  intros Hs. unfold om_has. rewrite list_elem_of_fmap. split.
  - destruct (om_get k m) as [v|] eqn:E; [|done]. intros _.
    exists (k, v). split; [done|]. by apply om_get_elem.
  - intros ([k' v] & -> & Hin). apply om_get_elem in Hin; [|done]. cbn. by rewrite Hin.
Qed.

(** Two sorted maps with the same lookups are the same list. *)
Lemma om_ext m1 m2 :
  om_sorted m1 → om_sorted m2 → (∀ k, om_get k m1 = om_get k m2) → m1 = m2.
Proof.
  revert m2. induction m1 as [|[k v] m1 IH]; intros [|[k' v'] m2] S1 S2 He.
  - done.
  - specialize (He k'). cbn in He. by rewrite kcmp_refl in He.
  - specialize (He k). cbn in He. by rewrite kcmp_refl in He.
  - pose proof S1 as [M1 F1]%om_sorted_cons. pose proof S2 as [M2 F2]%om_sorted_cons.
    assert (k = k') as ->.
    { pose proof (He k) as E1. pose proof (He k') as E2. cbn in E1, E2.
      rewrite kcmp_refl in E1, E2. destruct (kcmp k k') eqn:E; [by apply kcmp_eq in E|done|].
      apply kcmp_gt_lt in E. by rewrite E in E2. }
    pose proof (He k') as E1. cbn in E1. rewrite kcmp_refl in E1. injection E1 as ->.
    f_equal. apply IH; [done..|]. intros k1. specialize (He k1). cbn in He.
    destruct (kcmp k1 k') eqn:E; [|rewrite !om_get_lt; [done|..]|done].
    + apply kcmp_eq in E as ->. by rewrite !om_get_lt.
    + eapply Forall_impl; [exact F2|]. intros [? ?] ?. by eapply klt_trans.
    + eapply Forall_impl; [exact F1|]. intros [? ?] ?. by eapply klt_trans.
Qed.

Lemma om_filter_sorted (P : K * V → Prop) `{∀ x, Decision (P x)} m :
  om_sorted m → om_sorted (filter P m).
Proof.
  induction m as [|[k v] m IH]; [done|]. intros [Hm Hf]%om_sorted_cons.
  rewrite filter_cons. case_decide; auto. apply om_sorted_cons. split; [auto|].
  rewrite Forall_forall in *. intros x [_ Hx]%list_elem_of_filter. auto.
Qed.

Lemma om_get_cons_ne k k' v m :
  om_sorted ((k', v) :: m) → k ≠ k' → om_get k ((k', v) :: m) = om_get k m.
Proof.
  intros [_ Hf]%om_sorted_cons Hne. cbn. destruct (kcmp k k') eqn:E; [by apply kcmp_eq in E| |done].
  symmetry. apply om_get_lt. eapply Forall_impl; [exact Hf|]. intros [? ?] ?. by eapply klt_trans.
Qed.

Lemma om_get_cons_eq k v m : om_get k ((k, v) :: m) = Some v.
Proof. cbn. by rewrite kcmp_refl. Qed.

Lemma om_from_sorted k m : om_sorted m → om_sorted (om_from k m).
Proof.
  induction m as [|[k' v'] m IH]; [done|]. intros Hs. cbn.
  destruct (kcmp k' k); [done| |done]. apply IH. by apply om_sorted_cons in Hs as [? _].
Qed.

Lemma om_from_elem k m x : om_sorted m → x ∈ om_from k m ↔ x ∈ m ∧ kcmp x.1 k ≠ Lt.
Proof.
  induction m as [|[k' v'] m IH]; cbn [om_from].
  - intros _. split; [intros Hx; by apply not_elem_of_nil in Hx|by intros [? _]].
  - intros [Hm Hf]%om_sorted_cons. destruct (kcmp k' k) eqn:E.
    2: { rewrite IH, elem_of_cons by done. split; [tauto|]. intros [[->|?] Hk]; [done|tauto]. }
    all: split; [intros Hx; split; [done|]|by intros [? _]];
      apply elem_of_cons in Hx as [->|Hx]; cbn; [by rewrite E|]; intros Hlt;
      rewrite Forall_forall in Hf; apply Hf in Hx;
      pose proof (klt_trans _ _ _ Hx Hlt) as Hk; unfold klt in Hk; by rewrite E in Hk.
Qed.

(** A sum over the entries moves by the difference at the key written. *)
Lemma om_insert_sum (size : K * V → N) k v m :
  om_sorted m →
  foldr N.add 0 (size <$> om_insert k v m) + default 0 ((λ w, size (k, w)) <$> om_get k m) =
  foldr N.add 0 (size <$> m) + size (k, v).
Proof.
  induction m as [|[k' v'] m IH]; cbn [om_insert om_get]; [cbn; lia|].
  intros [Hm Hf]%om_sorted_cons. specialize (IH Hm). destruct (kcmp k k') eqn:E; cbn in *.
  - apply kcmp_eq in E as ->. lia.
  - lia.
  - lia.
Qed.

Lemma om_insert_snoc k v m : Forall (λ kv, klt kv.1 k) m → om_insert k v m = m ++ [(k, v)].
Proof.
  induction 1 as [|[k' v'] m Hk _ IH]; cbn; [done|]. cbn in Hk. apply kcmp_gt_lt in Hk.
  rewrite Hk. by rewrite IH.
Qed.

Lemma om_sorted_snoc k v m :
  om_sorted (m ++ [(k, v)]) ↔ om_sorted m ∧ Forall (λ kv, klt kv.1 k) m.
Proof.
  induction m as [|[k' v'] m IH]; cbn [app].
  - rewrite om_sorted_cons. split; [intros; split; constructor|intros; split; constructor].
  - rewrite !om_sorted_cons, IH, Forall_app, !Forall_cons. cbn. split; intros; intuition.
Qed.

Lemma om_insert_last k v v' m :
  om_sorted (m ++ [(k, v)]) → om_insert k v' (m ++ [(k, v)]) = m ++ [(k, v')].
Proof.
  intros [_ Hf]%om_sorted_snoc. induction Hf as [|[k' v2] m Hk _ IH]; cbn.
  - by rewrite kcmp_refl.
  - cbn in Hk. apply kcmp_gt_lt in Hk. by rewrite Hk, IH.
Qed.
End Ops.

Lemma om_sorted_NoDup {K} `{OrdKey K} {V} (m : list (K * V)) : om_sorted m → NoDup m.*1.
Proof.
  induction m as [|[k v] m IH]; [constructor|]. intros [Hs Hf]%om_sorted_cons. constructor; [|by apply IH].
  intros ([k' v'] & Hk & Hin)%list_elem_of_fmap. cbn in Hk. subst k'.
  exact (klt_irrefl k (proj1 (Forall_forall _ _) Hf _ Hin)).
Qed.

#[export] Hint Resolve om_sorted_nil om_insert_sorted om_remove_sorted : kaya.
