(* ===== verification/Path.v ===== *)
(** [kaya-io/src/path.rs]: the validated relative paths the storage layers use,
    as UTF-8 byte strings, and the WAL segment file names of
    [kaya-wal/src/writer.rs] built on them. *)
From Stdlib Require Import Ascii.
From S2P Require Import Prelude Bytes Core.

Open Scope N_scope.

(** ASCII text as bytes and back, for literals and messages. *)
Definition str (s : string) : bytes := N_of_ascii <$> String.list_ascii_of_string s.
Definition to_string (bs : bytes) : string :=
  String.string_of_list_ascii (ascii_of_N <$> bs).

Definition ch_slash : N := 47.
Definition ch_backslash : N := 92.
Definition ch_colon : N := 58.
Definition ch_dot : N := 46.

(** ** [str::trim] *)

Definition ascii_ws (b : N) : bool := ((9 <=? b) && (b <=? 13)) || (b =? 32).

(** The length of the white-space character (Unicode [White_Space], in UTF-8) at
    the front, 0 if there is none. *)
Definition ws_front (bs : bytes) : nat :=
  match bs with
  | b :: rest =>
      if ascii_ws b then 1%nat
      else match rest with
      | c :: rest' =>
          if (b =? 0xC2) && ((c =? 0x85) || (c =? 0xA0)) then 2%nat
          else match rest' with
          | d :: _ =>
              if ((b =? 0xE1) && (c =? 0x9A) && (d =? 0x80))
                 || ((b =? 0xE2) && (c =? 0x80) &&
                     (((0x80 <=? d) && (d <=? 0x8A)) || (d =? 0xA8) || (d =? 0xA9) || (d =? 0xAF)))
                 || ((b =? 0xE2) && (c =? 0x81) && (d =? 0x9F))
                 || ((b =? 0xE3) && (c =? 0x80) && (d =? 0x80)) then 3%nat
              else 0%nat
          | [] => 0
          end
      | [] => 0
      end
  | [] => 0
  end.

(** The same at the end of the string, read from the reversed bytes. *)
Definition ws_back (rbs : bytes) : nat :=
  match rbs with
  | d :: rest =>
      if ascii_ws d then 1%nat
      else match rest with
      | c :: rest' =>
          if (ws_front [c; d] =? 2)%nat then 2%nat
          else match rest' with
          | b :: _ => if (ws_front [b; c; d] =? 3)%nat then 3%nat else 0%nat
          | [] => 0
          end
      | [] => 0
      end
  | [] => 0
  end.

Fixpoint trim_with (ws : bytes → nat) (fuel : nat) (bs : bytes) : bytes :=
  match fuel with
  | O => bs
  | S fuel => match ws bs with O => bs | n => trim_with ws fuel (drop n bs) end
  end.

Definition trim (bs : bytes) : bytes :=
  let a := trim_with ws_front (length bs) bs in
  reverse (trim_with ws_back (length a) (reverse a)).

(** ** Components *)

(** [str::split(sep)]: always at least one piece. *)
Fixpoint split_on (sep : N) (bs : bytes) : list bytes :=
  match bs with
  | [] => [[]]
  | b :: bs =>
      if b =? sep then [] :: split_on sep bs
      else match split_on sep bs with
           | [] => [[b]]
           | p :: ps => (b :: p) :: ps
           end
  end.

(** [parts.join("/")]. *)
Fixpoint join_with (sep : N) (parts : list bytes) : bytes :=
  match parts with
  | [] => []
  | [p] => p
  | p :: ps => p ++ sep :: join_with sep ps
  end.

(** The loop over the pieces: drops empty and "." pieces, refuses "..". *)
Fixpoint clean_parts (trimmed : bytes) (parts : list bytes) : result KayaError (list bytes) :=
  match parts with
  | [] => Ok []
  | p :: ps =>
      if bool_decide (p = []) || bool_decide (p = [ch_dot]) then clean_parts trimmed ps
      else if bool_decide (p = [ch_dot; ch_dot]) then
        Err (InvalidArgument ("relative path must not contain '..': " +:+ to_string trimmed))
      else r ← clean_parts trimmed ps; mret (p :: r)
  end.

(** [RelativePath::new]; on the platforms modelled [Path::is_absolute] is the
    leading slash. *)
Definition path_new (path : bytes) : result KayaError bytes :=
  let raw := (λ b, if b =? ch_backslash then ch_slash else b) <$> path in
  let trimmed := trim raw in
  if bool_decide (trimmed = []) || bool_decide (trimmed = [ch_dot]) then Ok []
  else if starts_with [ch_slash] trimmed || bool_decide (trimmed !! 1%nat = Some ch_colon) then
    Err (InvalidArgument ("relative path must not be absolute: " +:+ to_string trimmed))
  else
    parts ← clean_parts trimmed (split_on ch_slash trimmed);
    mret (join_with ch_slash parts).

Definition is_root (p : bytes) : bool := bool_decide (p = []).

Definition path_join (self child : bytes) : result KayaError bytes :=
  child ← path_new child;
  if is_root self then mret child
  else if is_root child then mret self
  else path_new (self ++ ch_slash :: child).

(** [RelativePath::file_name]: the last component, when it is not empty. *)
Definition file_name (p : bytes) : option bytes :=
  match last (split_on ch_slash p) with
  | Some [] | None => None
  | Some n => Some n
  end.

(** ** Segment names *)

Definition hex_digit (d : N) : N := if d <? 10 then 48 + d else 87 + d.

(** [format!("{:016x}", v)] for a [u64]: sixteen digits, most significant first. *)
Fixpoint hex_digits (n : nat) (v : N) : bytes :=
  match n with
  | O => []
  | S n => hex_digits n (v / 16) ++ [hex_digit (v mod 16)]
  end.

(** [char::to_digit(16)]. *)
Definition digit_val (b : N) : option N :=
  if (48 <=? b) && (b <=? 57) then Some (b - 48)
  else if (97 <=? b) && (b <=? 102) then Some (b - 87)
  else if (65 <=? b) && (b <=? 70) then Some (b - 55)
  else None.

(** The digit loop of [u64::from_str_radix(_, 16)], with its overflow check. *)
Fixpoint parse_hex_digits (acc : N) (bs : bytes) : option N :=
  match bs with
  | [] => Some acc
  | b :: bs =>
      d ← digit_val b;
      let acc := acc * 16 + d in
      if acc <? u64_lim then parse_hex_digits acc bs else None
  end.

(** [u64::from_str_radix]: a leading plus sign is allowed, an empty digit string
    is not. *)
Definition from_str_radix16 (bs : bytes) : option N :=
  match bs with
  | [] => None
  | [43] => None
  | 43 :: bs => parse_hex_digits 0 bs
  | _ => parse_hex_digits 0 bs
  end.

(** [str::strip_suffix]. *)
Definition strip_suffix (suf bs : bytes) : option bytes :=
  if starts_with (reverse suf) (reverse bs)
  then Some (take (length bs - length suf) bs) else None.

Definition segment_name (segment_id : N) : bytes := hex_digits 16 segment_id ++ str ".wal".

Definition segment_path (segment_id : N) : result KayaError bytes :=
  path_new (str "wal/" ++ segment_name segment_id).

Definition parse_segment_id (path : bytes) : option N :=
  name ← file_name path;
  hex ← strip_suffix (str ".wal") name;
  from_str_radix16 hex.

(** ** Lemmas *)

Lemma split_on_nonempty sep bs : split_on sep bs ≠ [].
Proof. destruct bs as [|b bs]; cbn; [done|]. destruct (b =? sep); [done|]. by destruct (split_on sep bs). Qed.

Lemma join_split sep bs : join_with sep (split_on sep bs) = bs.
Proof.
  induction bs as [|b bs IH]; [done|]. cbn [split_on].
  destruct (N.eqb_spec b sep) as [->|].
  - destruct (split_on sep bs) eqn:E; [by apply split_on_nonempty in E|].
    cbn in *. by rewrite IH.
  - destruct (split_on sep bs) as [|p [|q ps]] eqn:E; [by apply split_on_nonempty in E|..];
      cbn in *; by rewrite <-IH.
Qed.

Lemma split_on_no_sep sep bs : sep ∉ bs → split_on sep bs = [bs].
Proof.
  induction bs as [|b bs IH]; [done|]. rewrite not_elem_of_cons. intros [Hb Hs]. cbn.
  destruct (N.eqb_spec b sep); [congruence|]. by rewrite IH.
Qed.

Lemma split_on_app sep a b : sep ∉ a → split_on sep (a ++ sep :: b) = a :: split_on sep b.
Proof.
  induction a as [|x a IH]; cbn; [by rewrite N.eqb_refl|].
  rewrite not_elem_of_cons. intros [Hx Ha]. destruct (N.eqb_spec x sep); [congruence|].
  by rewrite IH.
Qed.

Lemma split_on_pieces sep bs p : p ∈ split_on sep bs → sep ∉ p.
Proof.
  revert p. induction bs as [|b bs IH]; cbn; intros p.
  - rewrite list_elem_of_singleton. intros ->. apply not_elem_of_nil.
  - destruct (N.eqb_spec b sep) as [->|Hb].
    + rewrite elem_of_cons. intros [->|Hp]; [apply not_elem_of_nil|auto].
    + destruct (split_on sep bs) as [|q ps] eqn:E; [by apply split_on_nonempty in E|].
      rewrite elem_of_cons. intros [->|Hp].
      * rewrite not_elem_of_cons. split; [congruence|]. apply IH. by left.
      * apply IH. by right.
Qed.

(** A component that [RelativePath::new] keeps. *)
Definition good_part (p : bytes) : Prop := p ≠ [] ∧ p ≠ [ch_dot] ∧ p ≠ [ch_dot; ch_dot].

Lemma clean_parts_good t parts out :
  clean_parts t parts = Ok out → Forall good_part out ∧ ∀ p, p ∈ out → p ∈ parts.
Proof.
  revert out. induction parts as [|p ps IH]; cbn [clean_parts]; intros out Ho.
  - inv_ok. split; [constructor|]. intros p Hp. by apply not_elem_of_nil in Hp.
  - case_bool_decide as H1; cbn [orb] in Ho.
    { destruct (IH _ Ho). split; [done|]. intros. apply elem_of_cons. auto. }
    case_bool_decide as H2.
    { destruct (IH _ Ho). split; [done|]. intros. apply elem_of_cons. auto. }
    case_bool_decide as H3; [done|]. inv_ok. destruct (IH _ H) as [Hf Hin].
    split; [by repeat constructor|]. intros q. rewrite !elem_of_cons. intros [->|Hq]; auto.
Qed.

Lemma clean_parts_id t parts : Forall good_part parts → clean_parts t parts = Ok parts.
Proof.
  induction 1 as [|p ps (H1 & H2 & H3) _ IH]; [done|]. cbn [clean_parts].
  rewrite !bool_decide_eq_false_2 by done. cbn [orb]. by rewrite IH.
Qed.

Lemma split_join sep parts :
  parts ≠ [] → Forall (λ p, sep ∉ p) parts → split_on sep (join_with sep parts) = parts.
Proof.
  intros Hne Hf. induction Hf as [|p ps Hp Hps IH]; [done|].
  destruct ps as [|q ps]; cbn [join_with]; [by apply split_on_no_sep|].
  rewrite split_on_app by done. f_equal. by apply IH.
Qed.

(** Printable ASCII without the backslash: untouched by [replace] and [trim]. *)
Definition plain (b : N) : Prop := 33 <= b ∧ b <= 126 ∧ b ≠ ch_backslash.

Lemma ws_front_plain b bs : plain b → ws_front (b :: bs) = 0%nat.
Proof.
  intros (H1 & H2 & _). unfold ws_front, ascii_ws.
  destruct (N.leb_spec b 13); [lia|]. rewrite andb_false_r.
  destruct (N.eqb_spec b 32); [lia|]. cbn [orb].
  destruct (N.eqb_spec b 0xC2); [lia|]. destruct (N.eqb_spec b 0xE1); [lia|].
  destruct (N.eqb_spec b 0xE2); [lia|]. destruct (N.eqb_spec b 0xE3); [lia|].
  destruct bs as [|c [|d bs]]; done.
Qed.

Lemma ws_back_plain b bs : plain b → ws_back (b :: bs) = 0%nat.
Proof.
  intros (H1 & H2 & _). unfold ws_back. unfold ascii_ws at 1.
  destruct (N.leb_spec b 13); [lia|]. rewrite andb_false_r.
  destruct (N.eqb_spec b 32); [lia|]. cbn [orb]. destruct bs as [|c bs]; [done|].
  assert (ws_front [c; b] ≠ 2%nat) as E.
  { unfold ws_front. destruct (ascii_ws c); [done|]. destruct (N.eqb_spec b 0x85); [lia|].
    destruct (N.eqb_spec b 0xA0); [lia|]. by rewrite andb_false_r. }
  apply Nat.eqb_neq in E as ->. destruct bs as [|d bs]; [done|].
  assert (ws_front [d; c; b] ≠ 3%nat) as E.
  { unfold ws_front. destruct (ascii_ws d); [done|].
    destruct ((d =? _) && ((c =? _) || _)); [done|].
    destruct (N.leb_spec 0x80 b); [lia|]. destruct (N.eqb_spec b 0x80); [lia|].
    destruct (N.eqb_spec b 0xA8); [lia|]. destruct (N.eqb_spec b 0xA9); [lia|].
    destruct (N.eqb_spec b 0xAF); [lia|]. destruct (N.eqb_spec b 0x9F); [lia|].
    cbn [andb orb]. by rewrite !andb_false_r. }
  by apply Nat.eqb_neq in E as ->.
Qed.

Lemma trim_with_stop ws fuel bs : ws bs = 0%nat → trim_with ws fuel bs = bs.
Proof. intros H. destruct fuel; cbn; [done|]. by rewrite H. Qed.

Lemma trim_plain bs : Forall plain bs → trim bs = bs.
Proof.
  intros Hf. unfold trim.
  rewrite (trim_with_stop ws_front) by (destruct Hf; [done|by apply ws_front_plain]).
  apply Forall_reverse in Hf. rewrite trim_with_stop by (destruct Hf; [done|by apply ws_back_plain]).
  apply reverse_involutive.
Qed.

Lemma replace_plain bs :
  Forall plain bs → (λ b, if b =? ch_backslash then ch_slash else b) <$> bs = bs.
Proof.
  induction 1 as [|b bs (_ & _ & Hb) _ IH]; [done|]. rewrite fmap_cons, IH.
  by apply N.eqb_neq in Hb as ->.
Qed.

Lemma path_new_plain bs :
  Forall plain bs → Forall good_part (split_on ch_slash bs) →
  starts_with [ch_slash] bs = false → bs !! 1%nat ≠ Some ch_colon → path_new bs = Ok bs.
Proof.
  intros Hp Hg Hs Hc. unfold path_new. rewrite replace_plain, trim_plain by done.
  rewrite Hs, (bool_decide_eq_false_2 (bs !! 1%nat = _)) by done. cbn [orb].
  rewrite clean_parts_id by done. cbn [mbind result_bind]. rewrite join_split.
  destruct bs as [|b bs]; [by apply Forall_cons_1 in Hg as [[? _] _]|].
  rewrite (bool_decide_eq_false_2 (_ = [])) by done. cbn [orb].
  rewrite bool_decide_eq_false_2; [done|]. intros E. rewrite E in Hg.
  by apply Forall_cons_1 in Hg as [(_ & ? & _) _].
Qed.

(** *** Segment names *)

Lemma hex_digit_plain d : d < 16 → plain (hex_digit d) ∧ hex_digit d ≠ ch_slash ∧
  hex_digit d ≠ ch_colon ∧ hex_digit d ≠ 43 ∧ digit_val (hex_digit d) = Some d.
Proof.
  intros Hd. unfold hex_digit, plain, digit_val, ch_slash, ch_colon, ch_backslash.
  destruct (N.ltb_spec d 10).
  - split_and!; try lia. rewrite (proj2 (N.leb_le 48 _)), (proj2 (N.leb_le _ 57)) by lia.
    cbn. f_equal. lia.
  - split_and!; try lia. rewrite (proj2 (N.leb_gt _ 57)) by lia. rewrite andb_false_r.
    rewrite (proj2 (N.leb_le 97 _)), (proj2 (N.leb_le _ 102)) by lia. cbn. f_equal. lia.
Qed.

Lemma length_hex_digits n v : length (hex_digits n v) = n.
Proof. revert v. induction n; intros v; cbn; [done|]. rewrite length_app, IHn. cbn. lia. Qed.

Lemma hex_digits_Forall (P : N → Prop) n v :
  (∀ d, d < 16 → P (hex_digit d)) → Forall P (hex_digits n v).
Proof.
  intros HP. revert v. induction n; intros v; cbn; [constructor|].
  apply Forall_app. split; [done|]. repeat constructor. apply HP, N.mod_lt. lia.
Qed.

Lemma parse_hex_digits_app acc a b :
  parse_hex_digits acc (a ++ b) = parse_hex_digits acc a ≫= λ x, parse_hex_digits x b.
Proof.
  revert acc. induction a as [|x a IH]; intros acc; cbn; [done|].
  destruct (digit_val x); cbn; [|done]. destruct (_ <? _); [apply IH|done].
Qed.

Lemma parse_hex_digits_hex n v :
  v < 16 ^ N.of_nat n → v < u64_lim → parse_hex_digits 0 (hex_digits n v) = Some v.
Proof.
  revert v. induction n as [|n IH]; intros v Hv Hu; cbn [hex_digits].
  - cbn in *. f_equal. lia.
  - rewrite Nat2N.inj_succ, N.pow_succ_r' in Hv.
    assert (v / 16 < 16 ^ N.of_nat n) by (apply N.Div0.div_lt_upper_bound; lia).
    assert (v / 16 <= v) by (apply N.Div0.div_le_upper_bound; lia).
    rewrite parse_hex_digits_app, IH by lia. cbn [mbind option_bind parse_hex_digits].
    destruct (hex_digit_plain (v mod 16)) as (_ & _ & _ & _ & ->); [apply N.mod_lt; lia|].
    cbn [mbind option_bind]. replace (v / 16 * 16 + v mod 16) with v
      by (pose proof (N.div_mod v 16); lia).
    by rewrite (proj2 (N.ltb_lt _ _)).
Qed.

Lemma segment_name_plain id :
  Forall plain (segment_name id) ∧ ch_slash ∉ segment_name id.
Proof.
  unfold segment_name. split.
  - apply Forall_app. split; [|by repeat constructor].
    apply hex_digits_Forall. intros. by apply hex_digit_plain.
  - intros [H|H]%elem_of_app.
    + pose proof (hex_digits_Forall (λ b, b ≠ ch_slash) 16 id) as Hf.
      rewrite Forall_forall in Hf. eapply Hf; [|exact H|done]. intros. by apply hex_digit_plain.
    + by repeat (apply elem_of_cons in H as [H|H]; [done|]); apply not_elem_of_nil in H.
Qed.

Definition wal_path (id : N) : bytes := str "wal/" ++ segment_name id.

#[global] Arguments wal_path : simpl never.
#[global] Arguments segment_name : simpl never.
#[global] Arguments path_new : simpl never.
#[global] Arguments parse_segment_id : simpl never.

Lemma split_wal_path id : split_on ch_slash (wal_path id) = [str "wal"; segment_name id].
Proof.
  change (wal_path id) with (str "wal" ++ ch_slash :: segment_name id).
  rewrite split_on_app; [f_equal; apply split_on_no_sep, segment_name_plain|].
  intros H. by repeat (apply elem_of_cons in H as [H|H]; [done|]); apply not_elem_of_nil in H.
Qed.

Lemma segment_name_good id : good_part (segment_name id).
Proof.
  assert (length (segment_name id) = 20%nat) as L
    by (unfold segment_name; by rewrite length_app, length_hex_digits).
  unfold good_part. split_and!; intros E; by rewrite E in L.
Qed.

Lemma segment_path_eq id : segment_path id = Ok (wal_path id).
Proof.
  unfold segment_path. apply path_new_plain.
  - apply Forall_app. split; [by repeat constructor|apply segment_name_plain].
  - rewrite split_wal_path. repeat constructor; try done; apply segment_name_good.
  - done.
  - done.
Qed.

Lemma parse_wal_path id : id < u64_lim → parse_segment_id (wal_path id) = Some id.
Proof.
  intros Hid. unfold parse_segment_id, file_name. rewrite split_wal_path. cbn [last].
  destruct (segment_name id) as [|b l] eqn:E; [by destruct (segment_name_good id)|]. rewrite <-E.
  cbn [mbind option_bind]. unfold strip_suffix, segment_name.
  rewrite reverse_app.
  replace (starts_with _ _) with true by (symmetry; apply starts_with_spec; by eexists).
  cbn [mbind option_bind]. rewrite length_app, Nat.add_sub, take_app_length.
  assert (∃ d l', hex_digits 16 id = d :: l' ∧ d ≠ 43) as (d & l' & E' & Hd).
  { pose proof (length_hex_digits 16 id) as L.
    pose proof (hex_digits_Forall (λ b, b ≠ 43) 16 id ltac:(intros; by apply hex_digit_plain)) as Hf.
    destruct Hf; [done|eauto]. }
  rewrite E'. unfold from_str_radix16.
  transitivity (parse_hex_digits 0 (d :: l')); [repeat case_match; done|].
  rewrite <-E'. by apply parse_hex_digits_hex.
Qed.

Lemma wal_path_inj a b : a < u64_lim → b < u64_lim → wal_path a = wal_path b → a = b.
Proof.
  intros Ha Hb E. pose proof (parse_wal_path a Ha) as Ea. rewrite E, parse_wal_path in Ea by done.
  congruence.
Qed.

(** A relative path never escapes its root: every component of a path that
    [RelativePath::new] accepts is non-empty and neither "." nor "..", so the
    path is not absolute and climbs nowhere. *)
Theorem path_new_no_traversal (p q : bytes) :
  path_new p = Ok q → q = [] ∨ Forall good_part (split_on ch_slash q).
Proof.
  unfold path_new. destruct (_ || _); [intros H; inv_ok; by left|].
  destruct (_ || _); [done|]. intros H. inv_ok. destruct (clean_parts_good _ _ _ H) as [Hg Hin].
  destruct x as [|p1 ps]; [by left|right]. rewrite split_join; [done|done|].
  apply Forall_forall. intros r Hr. by eapply split_on_pieces, Hin.
Qed.

Lemma path_new_no_traversal_witness :
  str "wal/0001.wal" = [] ∨ Forall good_part (split_on ch_slash (str "wal/0001.wal")).
Proof. apply (path_new_no_traversal (str " ./wal//0001.wal ")). by vm_compute. Defined.
