(* ===== verification/Disk.v ===== *)
(** [kaya-io/src/sim.rs]: the simulated disk the storage code runs on, with
    volatile and stable contents per file, the fault schedule, directory-entry
    durability and the crash operation; and the [Disk] trait of
    [kaya-io/src/lib.rs] as the operations the other components call.  The
    diagnostic event list ([record_event]) is left out. *)
From S2P Require Import Prelude Bytes Core OrdMap Path.

Open Scope N_scope.

(** ** Stateful computations

    A computation over a mutable state that can fail; a failure keeps the
    changes made before it. *)

Definition stm (S A : Type) : Type := S → result KayaError A * S.

#[export] Instance stm_ret {S} : MRet (stm S) := fun A a s => (Ok a, s).
#[export] Instance stm_bind {S} : MBind (stm S) :=
  fun A B f m s => match m s with
                   | (Ok a, s') => f a s'
                   | (Err e, s') => (Err e, s')
                   end.

Definition fail {S A} (e : KayaError) : stm S A := fun s => (Err e, s).
Definition get_state {S} : stm S S := fun s => (Ok s, s).
Definition modify {S} (f : S → S) : stm S unit := fun s => (Ok tt, f s).
Definition lift {S A} (r : result KayaError A) : stm S A := fun s => (r, s).

(** ** State *)

Inductive FaultKind : Type :=
| FFsyncFailed
| FIoError
| FDiskFull
| FPartialWrite (nbytes : N).

Record FaultRule := mkFaultRule { operation_index : N; fault_kind : FaultKind }.

Record SimFile := mkSimFile { volatile : bytes; stable : bytes }.

Record SimState := mkSimState {
  files : list (bytes * SimFile);
  write_op_count : N;
  fault_schedule : option (list FaultRule);
  strict_namespace : bool;
  durable_names : list (bytes * unit);
  shadow : list (bytes * SimFile)
}.

Definition SimDisk_new : SimState := mkSimState [] 0 None false [] [].

Definition with_files (f : list (bytes * SimFile) → list (bytes * SimFile)) (s : SimState) :=
  mkSimState (f (files s)) (write_op_count s) (fault_schedule s) (strict_namespace s)
    (durable_names s) (shadow s).
Definition with_names (f : list (bytes * unit) → list (bytes * unit)) (s : SimState) :=
  mkSimState (files s) (write_op_count s) (fault_schedule s) (strict_namespace s)
    (f (durable_names s)) (shadow s).
Definition with_shadow (f : list (bytes * SimFile) → list (bytes * SimFile)) (s : SimState) :=
  mkSimState (files s) (write_op_count s) (fault_schedule s) (strict_namespace s)
    (durable_names s) (f (shadow s)).

(** [parent_dir]: everything before the last slash, empty if there is none. *)
Definition parent_dir (name : bytes) : bytes :=
  join_with ch_slash (removelast (split_on ch_slash name)).

Definition find_rule (idx : N) (rules : list FaultRule) : option FaultKind :=
  fault_kind <$> List.find (λ r, operation_index r =? idx) rules.

(** [SimState::take_fault]. *)
Definition take_fault (s : SimState) : option FaultKind * SimState :=
  (rules ← fault_schedule s; find_rule (write_op_count s) rules,
   mkSimState (files s) (write_op_count s + 1) (fault_schedule s) (strict_namespace s)
     (durable_names s) (shadow s)).

Definition fault_to_error (f : FaultKind) : KayaError :=
  match f with
  | FFsyncFailed => FsyncFailed
  | FIoError => Io "simulated io error"
  | FDiskFull => DiskFull
  | FPartialWrite _ => Io "simulated io error"
  end.

(** [state.files.entry(key).or_default()]. *)
Definition file_or_default (k : bytes) (s : SimState) : SimFile :=
  default (mkSimFile [] []) (om_get k (files s)).

(** ** The [Disk] operations *)

(** The bytes read; the buffer of the source holds them in its first [actual]
    positions. *)
Definition read_at (path : bytes) (offset buf_len : N) : stm SimState bytes := fun s =>
  match om_get path (files s) with
  | None => (Err NotFound, s)
  | Some file =>
      if lenN (volatile file) <=? offset then (Ok [], s)
      else (Ok (take (N.to_nat (N.min (lenN (volatile file) - offset) buf_len))
                  (drop (N.to_nat offset) (volatile file))), s)
  end.

(** [resize(end, 0)] and the copy. *)
Definition overwrite (start : nat) (buf l : bytes) : bytes :=
  let l := l ++ replicate (start + length buf - length l) 0 in
  take start l ++ buf ++ drop (start + length buf) l.

Definition write_at (path : bytes) (offset : N) (buf : bytes) : stm SimState N := fun s =>
  match take_fault s with
  | (Some fault, s) => (Err (fault_to_error fault), s)
  | (None, s) =>
      let f := file_or_default path s in
      (Ok (lenN buf),
       with_files (om_insert path
         (mkSimFile (overwrite (N.to_nat offset) buf (volatile f)) (stable f))) s)
  end.

Definition append_bytes (path buf : bytes) (s : SimState) : result KayaError N * SimState :=
  let f := file_or_default path s in
  (Ok (lenN (volatile f)),
   with_files (om_insert path (mkSimFile (volatile f ++ buf) (stable f))) s).

Definition append (path buf : bytes) : stm SimState N := fun s =>
  match take_fault s with
  | (Some (FPartialWrite n), s) =>
      append_bytes path (take (N.to_nat (N.min n (lenN buf))) buf) s
  | (Some other, s) => (Err (fault_to_error other), s)
  | (None, s) => append_bytes path buf s
  end.

(** A partial-write fault on an operation that writes nothing is ignored. *)
Definition fault_not_partial (f : option FaultKind) : option FaultKind :=
  match f with Some (FPartialWrite _) => None | f => f end.

Definition fsync_file (path : bytes) : stm SimState unit := fun s =>
  let '(fault, s) := take_fault s in
  match fault_not_partial fault with
  | Some f => (Err (fault_to_error f), s)
  | None =>
      match om_get path (files s) with
      | None => (Err NotFound, s)
      | Some file =>
          (Ok tt, with_files (om_insert path (mkSimFile (volatile file) (volatile file))) s)
      end
  end.

Definition fsync_dir (path : bytes) : stm SimState unit := fun s =>
  let '(fault, s) := take_fault s in
  match fault_not_partial fault with
  | Some f => (Err (fault_to_error f), s)
  | None =>
      if strict_namespace s then
        let present := filter (λ n, parent_dir n = path) (files s).*1 in
        let names := foldl (λ ns n, om_insert n tt ns) (durable_names s) present in
        let removed :=
          filter (λ n, parent_dir n = path ∧ om_has n (files s) = false) names.*1 in
        let names' := foldl (λ ns n, om_remove n ns) names removed in
        let shadow' := foldl (λ sh n, om_remove n sh) (shadow s) removed in
        (Ok tt, with_shadow (λ _, shadow') (with_names (λ _, names') s))
      else (Ok tt, s)
  end.

Definition truncate (path : bytes) (len : N) : stm SimState unit := fun s =>
  let '(_, s) := take_fault s in
  match om_get path (files s) with
  | None => (Err NotFound, s)
  | Some file =>
      (Ok tt, with_files (om_insert path
         (mkSimFile (take (N.to_nat len) (volatile file)) (take (N.to_nat len) (stable file)))) s)
  end.

Definition stable_snapshot (f : SimFile) : SimFile := mkSimFile (stable f) (stable f).

Definition rename (from to : bytes) : stm SimState unit := fun s =>
  let '(_, s) := take_fault s in
  match om_get from (files s) with
  | None => (Err NotFound, s)
  | Some file =>
      let s := with_files (om_remove from) s in
      let s :=
        if strict_namespace s then
          let s := if om_has from (durable_names s)
                   then with_shadow (om_insert from (stable_snapshot file)) s else s in
          with_names (om_remove to) s
        else s in
      (Ok tt, with_files (om_insert to file) s)
  end.

Definition remove_file (path : bytes) : stm SimState unit := fun s =>
  let '(_, s) := take_fault s in
  let removed := om_get path (files s) in
  let s := with_files (om_remove path) s in
  match removed with
  | Some file =>
      if strict_namespace s && om_has path (durable_names s)
      then (Ok tt, with_shadow (om_insert path (stable_snapshot file)) s)
      else (Ok tt, s)
  | None => (Ok tt, s)
  end.

Record DirEntry := mkDirEntry { de_path : bytes; is_dir : bool; de_len : N }.

(** The loop of [list_dir]: [seen] holds the first components already listed. *)
Fixpoint list_entries (path prefix : bytes) (seen : list bytes) (fs : list (bytes * SimFile))
    : result KayaError (list DirEntry) :=
  match fs with
  | [] => Ok []
  | (file_path, file) :: fs =>
      if negb (starts_with prefix file_path) then list_entries path prefix seen fs
      else
        let remainder := drop (length prefix) file_path in
        if bool_decide (remainder = []) then list_entries path prefix seen fs
        else
          let first := default [] (head (split_on ch_slash remainder)) in
          if bool_decide (first ∈ seen) then list_entries path prefix seen fs
          else
            child ← path_join path first;
            let dir := bool_decide (ch_slash ∈ remainder) in
            let e := mkDirEntry child dir (if dir then 0 else lenN (volatile file)) in
            es ← list_entries path prefix (first :: seen) fs;
            mret (e :: es)
  end.

Definition list_dir (path : bytes) : stm SimState (list DirEntry) := fun s =>
  let prefix := if is_root path then [] else path ++ [ch_slash] in
  (list_entries path prefix [] (files s), s).

Definition file_len (path : bytes) : stm SimState N := fun s =>
  match om_get path (files s) with
  | None => (Err NotFound, s)
  | Some file => (Ok (lenN (volatile file)), s)
  end.

(** ** Crash *)

Definition crash_file (f : SimFile) : SimFile := mkSimFile (stable f) (stable f).

(** The directory part of a crash under [strict_namespace]: undurable creations
    vanish, undurable removals come back. *)
Definition crash_names (s : SimState) : list (bytes * SimFile) :=
  let kept := filter (λ kf, om_has kf.1 (durable_names s) = true) (files s) in
  foldl (λ fs n, if om_has n fs then fs
                 else match om_get n (shadow s) with
                      | Some f => om_insert n f fs
                      | None => fs
                      end) kept (durable_names s).*1.

Definition crash (s : SimState) : SimState :=
  with_files (λ _, prod_map id crash_file <$>
                     (if strict_namespace s then crash_names s else files s)) s.

Record CrashReport := mkCrashReport { files_restored : N; lost_bytes : N }.

Definition sumN (l : list N) : N := foldr N.add 0 l.

Definition crash_report (s : SimState) : CrashReport :=
  let dropped := filter (λ kf, om_has kf.1 (durable_names s) = false) (files s) in
  let after := if strict_namespace s then crash_names s else files s in
  mkCrashReport (lenN after)
    ((if strict_namespace s then sumN ((λ kf, lenN (volatile kf.2)) <$> dropped) else 0)
     + sumN ((λ kf, lenN (volatile kf.2) - lenN (stable kf.2)) <$> after)).

(** ** Lemmas *)

(** The map representation is sorted and no fault is scheduled. *)
Record disk_ok (s : SimState) : Prop := {
  dk_sorted : om_sorted (files s);
  dk_faults : fault_schedule s = None
}.

Lemma take_fault_none s : fault_schedule s = None → (take_fault s).1 = None.
Proof. intros H. unfold take_fault. by rewrite H. Qed.

Lemma append_ok path buf s :
  disk_ok s →
  let old := file_or_default path s in
  ∃ s', append path buf s = (Ok (lenN (volatile old)), s') ∧ disk_ok s' ∧
        files s' = om_insert path (mkSimFile (volatile old ++ buf) (stable old)) (files s).
Proof.
  intros [Hs Hf] old. unfold append, take_fault. rewrite Hf. cbn.
  eexists. split; [done|]. split; [|done]. split; cbn; [by apply om_insert_sorted|done].
Qed.

Lemma fsync_file_ok path s f :
  disk_ok s → om_get path (files s) = Some f →
  ∃ s', fsync_file path s = (Ok tt, s') ∧ disk_ok s' ∧
        files s' = om_insert path (mkSimFile (volatile f) (volatile f)) (files s).
Proof.
  intros [Hs Hf] Hg. unfold fsync_file, take_fault. rewrite Hf. cbn. rewrite Hg.
  eexists. split; [done|]. split; [|done]. split; cbn; [by apply om_insert_sorted|done].
Qed.

Lemma fsync_dir_ok path s :
  disk_ok s → ∃ s', fsync_dir path s = (Ok tt, s') ∧ disk_ok s' ∧ files s' = files s.
Proof.
  intros [Hs Hf]. unfold fsync_dir, take_fault. rewrite Hf. cbn.
  destruct (strict_namespace s); eexists; (split; [done|]); (split; [|done]); by split.
Qed.

Lemma truncate_ok path len s f :
  disk_ok s → om_get path (files s) = Some f →
  ∃ s', truncate path len s = (Ok tt, s') ∧ disk_ok s' ∧
        files s' = om_insert path (mkSimFile (take (N.to_nat len) (volatile f))
                                     (take (N.to_nat len) (stable f))) (files s).
Proof.
  intros [Hs Hf] Hg. unfold truncate, take_fault. cbn. rewrite Hg.
  eexists. split; [done|]. split; [|done]. split; cbn; [by apply om_insert_sorted|done].
Qed.

Lemma read_at_all path s f :
  om_get path (files s) = Some f →
  read_at path 0 (lenN (volatile f)) s = (Ok (volatile f), s).
Proof.
  intros Hg. unfold read_at. rewrite Hg. destruct (N.leb_spec (lenN (volatile f)) 0) as [H|H].
  - destruct (volatile f); [done|]. unfold lenN in H. cbn in H. lia.
  - rewrite N.sub_0_r, N.min_id, lenN_to_nat, drop_0. by rewrite firstn_all.
Qed.
