(* ===== verification/WalCodec.v ===== *)
(** [kaya-wal/src/codec.rs]: the 40-byte record header with its two CRC-32C
    fields, the payload formats, [encode_record] and [decode_record] with every
    warning it can return. *)
From S2P Require Import Prelude Bytes Core.

Open Scope N_scope.

Definition WAL_MAGIC : N := 0x4b415941.
Definition WAL_VERSION : N := 1.
Definition WAL_HEADER_LEN : N := 40.

Inductive WalRecordType : Type := RPut | RDelete | RNoop.

Definition from_wire (value : N) : option WalRecordType :=
  match value with
  | 1 => Some RPut
  | 2 => Some RDelete
  | 3 => Some RNoop
  | _ => None
  end.

Definition as_wire (t : WalRecordType) : N :=
  match t with RPut => 1 | RDelete => 2 | RNoop => 3 end.

Inductive WalPayload : Type :=
| Put (key value : bytes)
| Delete (key : bytes)
| Noop.

Definition record_type (p : WalPayload) : WalRecordType :=
  match p with Put _ _ => RPut | Delete _ => RDelete | Noop => RNoop end.

Record WalRecord := mkWalRecord {
  flags : N;
  lsn : N;
  sequence : N;
  payload : WalPayload
}.

(** [WalRecord::new]. *)
Definition new_record (l s : N) (p : WalPayload) : WalRecord := mkWalRecord 0 l s p.

#[export] Instance WalPayload_eq_dec : EqDecision WalPayload.
Proof. solve_decision. Defined.
#[export] Instance WalRecord_eq_dec : EqDecision WalRecord.
Proof. solve_decision. Defined.

Inductive WalWarning : Type :=
| PartialHeader (offset : N)
| PartialPayload (offset expected actual : N)
| BadMagic (offset found : N)
| WUnsupportedVersion (offset found : N)
| BadHeaderLength (offset found : N)
| UnknownFlags (offset found : N)
| UnknownRecordType (offset found : N)
| OversizedPayload (offset found max : N)
| BadHeaderChecksum (offset expected actual : N)
| BadPayloadChecksum (offset expected actual : N)
| MalformedPayload (offset : N) (message : string)
| NonMonotonicLsn (offset expected found : N)
| TailTruncated (path : string) (valid_len truncated_bytes : N)
| TrailingSegmentsIgnored (count : N).

Inductive DecodeRecordResult : Type :=
| Complete (record : WalRecord) (bytes_read : N)
| Incomplete (warning : WalWarning)
| Invalid (warning : WalWarning).

(** ** Encoding *)

(** [u32::try_from(len).map_err(..)]. *)
Definition try_u32 (msg : string) (n : N) : result KayaError N :=
  if n <? u32_lim then Ok n else Err (InvalidArgument msg).

Definition encode_payload (p : WalPayload) : result KayaError bytes :=
  match p with
  | Put key value =>
      key_len ← try_u32 "WAL PUT key length does not fit into u32" (lenN key);
      value_len ← try_u32 "WAL PUT value length does not fit into u32" (lenN value);
      mret (le_bytes 4 key_len ++ le_bytes 4 value_len ++ key ++ value)
  | Delete key =>
      key_len ← try_u32 "WAL DELETE key length does not fit into u32" (lenN key);
      mret (le_bytes 4 key_len ++ key)
  | Noop => mret []
  end.

(** The ten header fields in order. *)
Definition header_bytes (flags ty lsn seq plen hcrc pcrc : N) : bytes :=
  le_bytes 4 WAL_MAGIC ++ le_bytes 2 WAL_VERSION ++ le_bytes 2 WAL_HEADER_LEN ++
  le_bytes 2 flags ++ le_bytes 2 ty ++ le_bytes 8 lsn ++ le_bytes 8 seq ++
  le_bytes 4 plen ++ le_bytes 4 hcrc ++ le_bytes 4 pcrc.

(** [buf[off..off + new.len()].copy_from_slice(new)]. *)
Definition patch (off : nat) (new l : bytes) : bytes :=
  take off l ++ new ++ drop (off + length new) l.

Definition encode_record (r : WalRecord) : result KayaError bytes :=
  pl ← encode_payload (payload r);
  payload_len ← try_u32 "WAL payload length does not fit into u32" (lenN pl);
  let payload_crc := crc32c pl in
  let encoded := header_bytes (flags r) (as_wire (record_type (payload r))) (lsn r)
                   (sequence r) payload_len 0 payload_crc in
  let header_crc := crc32c (slice 0 40 encoded) in
  let encoded := patch 32 (le_bytes 4 header_crc) encoded in
  mret (encoded ++ pl).

(** ** Decoding *)

Definition read_int (a b : nat) (input : bytes) : N := le_val (slice a b input).

Definition decode_payload (ty : WalRecordType) (pl : bytes) : result KayaError WalPayload :=
  match ty with
  | RPut =>
      if lenN pl <? 8 then Err (Corruption "PUT payload header is too short")
      else
        let key_len := read_int 0 4 pl in
        let value_len := read_int 4 8 pl in
        let expected := 8 + key_len + value_len in
        if u64_lim <=? expected then Err (Corruption "PUT payload length overflows usize")
        else if negb (lenN pl =? expected) then
          Err (Corruption ("PUT payload length mismatch: expected " +:+ pretty expected
                           +:+ ", got " +:+ pretty (lenN pl)))
        else Ok (Put (slice 8 (8 + N.to_nat key_len) pl) (drop (8 + N.to_nat key_len) pl))
  | RDelete =>
      if lenN pl <? 4 then Err (Corruption "DELETE payload header is too short")
      else
        let key_len := read_int 0 4 pl in
        let expected := 4 + key_len in
        if u64_lim <=? expected then Err (Corruption "DELETE payload length overflows usize")
        else if negb (lenN pl =? expected) then
          Err (Corruption ("DELETE payload length mismatch: expected " +:+ pretty expected
                           +:+ ", got " +:+ pretty (lenN pl)))
        else Ok (Delete (drop 4 pl))
  | RNoop =>
      if negb (lenN pl =? 0) then Err (Corruption "NOOP payload must be empty") else Ok Noop
  end.

Definition zeroed_header (input : bytes) : bytes :=
  patch 32 (le_bytes 4 0) (slice 0 40 input).

Definition decode_record (input : bytes) (offset max_payload_len : N) : DecodeRecordResult :=
  if lenN input <? WAL_HEADER_LEN then Incomplete (PartialHeader offset)
  else
  let magic := read_int 0 4 input in
  if negb (magic =? WAL_MAGIC) then Invalid (BadMagic offset magic)
  else
  let version := read_int 4 6 input in
  if negb (version =? WAL_VERSION) then Invalid (WUnsupportedVersion offset version)
  else
  let header_len := read_int 6 8 input in
  if negb (header_len =? WAL_HEADER_LEN) then Invalid (BadHeaderLength offset header_len)
  else
  let fl := read_int 8 10 input in
  if negb (fl =? 0) then Invalid (UnknownFlags offset fl)
  else
  let record_type_raw := read_int 10 12 input in
  match from_wire record_type_raw with
  | None => Invalid (UnknownRecordType offset record_type_raw)
  | Some ty =>
      let l := read_int 12 20 input in
      let s := read_int 20 28 input in
      let payload_len := read_int 28 32 input in
      if max_payload_len <? payload_len then
        Invalid (OversizedPayload offset payload_len max_payload_len)
      else
      let actual_header_crc := read_int 32 36 input in
      let expected_header_crc := crc32c (zeroed_header input) in
      if negb (actual_header_crc =? expected_header_crc) then
        Invalid (BadHeaderChecksum offset expected_header_crc actual_header_crc)
      else
      let actual_payload_crc := read_int 36 40 input in
      let total_len := WAL_HEADER_LEN + payload_len in
      if lenN input <? total_len then
        Incomplete (PartialPayload offset total_len (lenN input))
      else
      let payload_bytes := slice 40 (N.to_nat total_len) input in
      let expected_payload_crc := crc32c payload_bytes in
      if negb (actual_payload_crc =? expected_payload_crc) then
        Invalid (BadPayloadChecksum offset expected_payload_crc actual_payload_crc)
      else
      match decode_payload ty payload_bytes with
      | Err error => Invalid (MalformedPayload offset (display error))
      | Ok p => Complete (mkWalRecord fl l s p) total_len
      end
  end.

(** ** Header layout *)

Lemma length_header_bytes f t l s n h p : length (header_bytes f t l s n h p) = 40%nat.
Proof. unfold header_bytes. rewrite !length_app, !length_le_bytes. done. Qed.

Lemma header_bytes_ok f t l s n h p : bytes_ok (header_bytes f t l s n h p).
Proof. unfold header_bytes, bytes_ok. rewrite !Forall_app. split_and!; apply le_bytes_ok. Qed.

(** Steps a [slice] over the concatenated fields to the field it reads. *)
Ltac slice_step :=
  first [ rewrite slice_here by (rewrite ?length_le_bytes; reflexivity)
        | rewrite slice_skip by (rewrite ?length_le_bytes; lia);
          rewrite ?length_le_bytes; cbn [Nat.sub] ].

Section Fields.
  Context (f t l s n h p : N) (rest : bytes).
Let hd := header_bytes f t l s n h p ++ rest.

Lemma header_slices :
  slice 0 4 hd = le_bytes 4 WAL_MAGIC ∧ slice 4 6 hd = le_bytes 2 WAL_VERSION ∧
  slice 6 8 hd = le_bytes 2 WAL_HEADER_LEN ∧ slice 8 10 hd = le_bytes 2 f ∧
  slice 10 12 hd = le_bytes 2 t ∧ slice 12 20 hd = le_bytes 8 l ∧
  slice 20 28 hd = le_bytes 8 s ∧ slice 28 32 hd = le_bytes 4 n ∧
  slice 32 36 hd = le_bytes 4 h ∧ slice 36 40 hd = le_bytes 4 p.
Proof.
  subst hd. unfold header_bytes. rewrite <-!app_assoc. split_and!; by repeat slice_step.
Qed.

Lemma header_slice_all : slice 0 40 hd = header_bytes f t l s n h p.
Proof. apply slice_here. by rewrite length_header_bytes. Qed.
End Fields.

Lemma patch_header f t l s n h p c :
  patch 32 (le_bytes 4 c) (header_bytes f t l s n h p) = header_bytes f t l s n c p.
Proof.
  set (pre := le_bytes 4 WAL_MAGIC ++ le_bytes 2 WAL_VERSION ++ le_bytes 2 WAL_HEADER_LEN ++
    le_bytes 2 f ++ le_bytes 2 t ++ le_bytes 8 l ++ le_bytes 8 s ++ le_bytes 4 n).
  assert (∀ x, header_bytes f t l s n x p = pre ++ le_bytes 4 x ++ le_bytes 4 p) as E.
  { intros x. unfold header_bytes, pre. by rewrite <-!app_assoc. }
  assert (length pre = 32%nat) as Hl by (unfold pre; by rewrite !length_app, !length_le_bytes).
  rewrite !E. unfold patch. rewrite take_app_length' by done. done.
Qed.

Record header_ok (f t l s n : N) : Prop := {
  ho_f : f < 2 ^ 16; ho_t : t < 2 ^ 16; ho_l : l < 2 ^ 64; ho_s : s < 2 ^ 64; ho_n : n < 2 ^ 32
}.

(** What is left of [decode_record] once a header with the right checksum is in
    front: the length check, the payload checksum and the payload format. *)
Definition decode_body (ty : WalRecordType) (l s n pcrc offset : N) (body : bytes)
    : DecodeRecordResult :=
  if lenN body <? n then Incomplete (PartialPayload offset (40 + n) (40 + lenN body))
  else
    let pb := take (N.to_nat n) body in
    if negb (pcrc =? crc32c pb) then Invalid (BadPayloadChecksum offset (crc32c pb) pcrc)
    else match decode_payload ty pb with
         | Err error => Invalid (MalformedPayload offset (display error))
         | Ok p => Complete (mkWalRecord 0 l s p) (40 + n)
         end.

Lemma from_as_wire ty : from_wire (as_wire ty) = Some ty.
Proof. by destruct ty. Qed.

Lemma as_wire_bound ty : as_wire ty < 2 ^ 16.
Proof. by destruct ty. Qed.

Lemma decode_after_header ty l s n p body offset mx :
  header_ok 0 (as_wire ty) l s n → p < 2 ^ 32 → n <= mx →
  decode_record (header_bytes 0 (as_wire ty) l s n
                   (crc32c (header_bytes 0 (as_wire ty) l s n 0 p)) p ++ body) offset mx =
  decode_body ty l s n p offset body.
Proof.
  intros [Hf Ht Hl Hs Hn] Hp Hmx. set (c := crc32c _).
  assert (c < 2 ^ 32) as Hc by (apply crc32c_u32, header_bytes_ok).
  unfold decode_record, read_int, zeroed_header.
  destruct (header_slices 0 (as_wire ty) l s n c p body)
    as (-> & -> & -> & -> & -> & -> & -> & -> & -> & ->).
  rewrite header_slice_all, patch_header.
  rewrite (le_val_le_bytes 4 WAL_MAGIC), (le_val_le_bytes 2 WAL_VERSION),
    (le_val_le_bytes 2 WAL_HEADER_LEN), (le_val_le_bytes 2 0), (le_val_le_bytes 2 (as_wire ty)),
    (le_val_le_bytes 8 l), (le_val_le_bytes 8 s), (le_val_le_bytes 4 n),
    (le_val_le_bytes 4 c), (le_val_le_bytes 4 p) by done.
  rewrite lenN_app. replace (lenN (header_bytes _ _ _ _ _ _ _)) with 40
    by (unfold lenN; by rewrite length_header_bytes).
  unfold WAL_HEADER_LEN, decode_body.
  replace (40 + lenN body <? 40) with false by (symmetry; apply N.ltb_ge; lia).
  rewrite from_as_wire. cbn [negb N.eqb Pos.eqb].
  change (WAL_MAGIC =? WAL_MAGIC) with true. change (WAL_VERSION =? WAL_VERSION) with true.
  cbn [negb]. replace (mx <? n) with false by (symmetry; apply N.ltb_ge; lia).
  fold c. rewrite N.eqb_refl. cbn [negb].
  replace (40 + lenN body <? 40 + n) with (lenN body <? n)
    by (destruct (N.ltb_spec (lenN body) n), (N.ltb_spec (40 + lenN body) (40 + n)); lia).
  destruct (lenN body <? n); [done|].
  replace (slice 40 (N.to_nat (40 + n)) _) with (take (N.to_nat n) body); [done|].
  rewrite slice_skip by (rewrite length_header_bytes; lia).
  rewrite length_header_bytes, <-slice_0_take. f_equal; lia.
Qed.

(** ** Payloads *)

Definition payload_ok (p : WalPayload) : Prop :=
  match p with
  | Put k v => bytes_ok k ∧ bytes_ok v
  | Delete k => bytes_ok k
  | Noop => True
  end.

(** A record as the writer makes it: no flags, 64-bit numbers, byte payloads. *)
Record record_ok (r : WalRecord) : Prop := {
  ro_flags : flags r = 0;
  ro_lsn : lsn r < 2 ^ 64;
  ro_seq : sequence r < 2 ^ 64;
  ro_payload : payload_ok (payload r)
}.

Lemma try_u32_Ok msg n m : try_u32 msg n = Ok m ↔ m = n ∧ n < u32_lim.
Proof.
  unfold try_u32. destruct (N.ltb_spec n u32_lim); split; [|by intros [-> ?]|done|lia].
  by intros [= ->].
Qed.

Lemma encode_payload_ok p pl : payload_ok p → encode_payload p = Ok pl → bytes_ok pl.
Proof.
  unfold bytes_ok. destruct p; cbn [encode_payload payload_ok]; intros Hp H; inv_ok.
  - destruct Hp. rewrite !Forall_app. split_and!; auto using le_bytes_ok; apply le_bytes_ok.
  - rewrite Forall_app. split; [apply le_bytes_ok|done].
  - constructor.
Qed.

Lemma decode_encode_payload p pl :
  encode_payload p = Ok pl → lenN pl < u32_lim → decode_payload (record_type p) pl = Ok p.
Proof.
  intros H Hlen. destruct p as [k v|k|]; cbn [encode_payload] in H; inv_ok.
  - apply try_u32_Ok in H as [-> Hk], H0 as [-> Hv]. inv_ok.
    unfold decode_payload, record_type. rewrite !lenN_app in *.
    assert (lenN (le_bytes 4 (lenN k)) = 4) as E1 by done.
    assert (lenN (le_bytes 4 (lenN v)) = 4) as E2 by done. rewrite E1, E2 in *.
    unfold read_int. rewrite slice_here by done.
    rewrite (slice_skip 4 8) by done. rewrite slice_here by done.
    rewrite !le_val_le_bytes by done. unfold u64_lim, u32_lim in *.
    destruct (N.ltb_spec (4 + (4 + (lenN k + lenN v))) 8); [lia|].
    destruct (N.leb_spec 18446744073709551616 (8 + lenN k + lenN v)); [lia|].
    destruct (N.eqb_spec (4 + (4 + (lenN k + lenN v))) (8 + lenN k + lenN v)); [|lia].
    cbn [negb]. do 2 f_equal; rewrite lenN_to_nat.
    + rewrite slice_skip, slice_skip by (rewrite ?length_le_bytes; lia).
      apply slice_here. rewrite !length_le_bytes. lia.
    + rewrite !app_assoc, drop_app_length'; [done|]. rewrite !length_app, !length_le_bytes. lia.
  - apply try_u32_Ok in H as [-> Hk]. inv_ok.
    unfold decode_payload, record_type. rewrite !lenN_app in *.
    assert (lenN (le_bytes 4 (lenN k)) = 4) as E1 by done. rewrite E1 in *.
    unfold read_int. rewrite slice_here by done.
    rewrite !le_val_le_bytes by done. unfold u64_lim, u32_lim in *.
    destruct (N.ltb_spec (4 + lenN k) 4); [lia|].
    destruct (N.leb_spec 18446744073709551616 (4 + lenN k)); [lia|].
    rewrite N.eqb_refl. cbn [negb]. by rewrite drop_app_length'.
  - done.
Qed.

Lemma read_int_spec n a b l :
  n = (b - a)%nat → bytes_ok l → (b ≤ length l)%nat →
  read_int a b l < 256 ^ N.of_nat n ∧ le_bytes n (read_int a b l) = slice a b l.
Proof.
  intros -> Hl Hb. assert (bytes_ok (slice a b l)) as Hs by (by apply Forall_take, Forall_drop).
  unfold read_int. rewrite <-(length_slice a b l Hb).
  split; [by apply le_val_bound|by apply le_bytes_le_val].
Qed.

(** A payload that decodes is the canonical encoding of what it decodes to. *)
Lemma encode_decode_payload ty p pl :
  bytes_ok pl → decode_payload ty pl = Ok p →
  encode_payload p = Ok pl ∧ record_type p = ty ∧ payload_ok p.
Proof.
  intros Hpl. unfold decode_payload. destruct ty.
  - destruct (N.ltb_spec (lenN pl) 8) as [|H8]; [done|].
    destruct (u64_lim <=? _); [done|]. case_match eqn:Hl; [done|]. nbool. intros <-%Ok_inj.
    unfold lenN in *.
    destruct (read_int_spec 4 0 4 pl) as [Hk Ek], (read_int_spec 4 4 8 pl) as [Hv Ev]; try done; try lia.
    set (kl := read_int 0 4 pl) in *. set (vl := read_int 4 8 pl) in *.
    assert (lenN (slice 8 (8 + N.to_nat kl) pl) = kl) as Lk
      by (unfold lenN; rewrite length_slice; lia).
    assert (lenN (drop (8 + N.to_nat kl) pl) = vl) as Lv by (unfold lenN; rewrite length_drop; lia).
    split_and!; [|done|split; [apply Forall_take|]; by apply Forall_drop].
    unfold encode_payload, try_u32. rewrite Lk, Lv, !(proj2 (N.ltb_lt _ _)) by done.
    cbv [mret mbind result_ret result_bind]. f_equal.
    rewrite Ek, Ev, <-(slice_to_end (8 + N.to_nat kl) (length pl)), !slice_split by lia.
    by apply slice_all.
  - destruct (N.ltb_spec (lenN pl) 4) as [|H8]; [done|].
    destruct (u64_lim <=? _); [done|]. case_match eqn:Hl; [done|]. nbool. intros <-%Ok_inj.
    unfold lenN in *. destruct (read_int_spec 4 0 4 pl) as [Hk Ek]; try done; try lia.
    set (kl := read_int 0 4 pl) in *.
    assert (lenN (drop 4 pl) = kl) as Lk by (unfold lenN; rewrite length_drop; lia).
    split_and!; [|done|by apply Forall_drop].
    unfold encode_payload, try_u32. rewrite Lk, !(proj2 (N.ltb_lt _ _)) by done.
    cbv [mret mbind result_ret result_bind]. f_equal.
    rewrite Ek, <-(slice_to_end 4 (length pl)), !slice_split by lia. by apply slice_all.
  - case_match eqn:Hl; [done|]. nbool. intros <-%Ok_inj. destruct pl; [done|cbv in Hl; lia].
Qed.

(** ** Records *)

Lemma encode_record_shape r bs :
  encode_record r = Ok bs ↔
  ∃ pl, encode_payload (payload r) = Ok pl ∧ lenN pl < u32_lim ∧
    let ty := as_wire (record_type (payload r)) in
    bs = header_bytes (flags r) ty (lsn r) (sequence r) (lenN pl)
           (crc32c (header_bytes (flags r) ty (lsn r) (sequence r) (lenN pl) 0 (crc32c pl)))
           (crc32c pl) ++ pl.
Proof.
  unfold encode_record. split.
  - intros H. inv_ok. exists x. apply try_u32_Ok in H0 as [-> Hl]. split_and!; [done..|].
    by rewrite slice_all, patch_header by (by rewrite length_header_bytes).
  - intros (pl & -> & Hl & ->). cbn [mbind result_bind]. unfold try_u32.
    rewrite (proj2 (N.ltb_lt _ _)) by done. cbn [mbind result_bind].
    by rewrite slice_all, patch_header by (by rewrite length_header_bytes).
Qed.

Lemma encode_record_length r bs : encode_record r = Ok bs → 40 <= lenN bs.
Proof.
  intros (pl & _ & _ & ->)%encode_record_shape. rewrite lenN_app. unfold lenN.
  rewrite length_header_bytes. lia.
Qed.

Lemma record_header_ok r (pl : bytes) :
  record_ok r → lenN pl < u32_lim →
  header_ok (flags r) (as_wire (record_type (payload r))) (lsn r) (sequence r) (lenN pl).
Proof.
  intros [Hf Hl Hs _] Hn. constructor; [by rewrite Hf|apply as_wire_bound|done..].
Qed.

Lemma decode_encoded r (pl body : bytes) offset mx :
  record_ok r → bytes_ok pl → lenN pl < u32_lim → lenN pl <= mx →
  let ty := as_wire (record_type (payload r)) in
  decode_record (header_bytes (flags r) ty (lsn r) (sequence r) (lenN pl)
    (crc32c (header_bytes (flags r) ty (lsn r) (sequence r) (lenN pl) 0 (crc32c pl)))
    (crc32c pl) ++ body) offset mx =
  decode_body (record_type (payload r)) (lsn r) (sequence r) (lenN pl) (crc32c pl) offset body.
Proof.
  intros Hr Hpl Hn Hmx ty. pose proof (record_header_ok r pl Hr Hn) as Hh.
  rewrite (ro_flags r Hr) in *. apply decode_after_header; auto. by apply crc32c_u32.
Qed.

Lemma decode_encode_record r bs rest offset mx :
  record_ok r → encode_record r = Ok bs → lenN bs <= 40 + mx →
  decode_record (bs ++ rest) offset mx = Complete r (lenN bs).
Proof.
  intros Hr (pl & Hpl & Hn & ->)%encode_record_shape Hmx.
  assert (bytes_ok pl) by (eapply encode_payload_ok; [apply Hr|done]).
  assert (∀ f t l s n h p, lenN (header_bytes f t l s n h p) = 40) as L40
    by (intros; unfold lenN; by rewrite length_header_bytes).
  rewrite lenN_app, L40 in Hmx. rewrite <-app_assoc, decode_encoded by (auto; lia).
  unfold decode_body. rewrite lenN_app. destruct (N.ltb_spec (lenN pl + lenN rest) (lenN pl)); [lia|].
  rewrite lenN_to_nat, take_app_length, N.eqb_refl. cbn [negb].
  rewrite (decode_encode_payload (payload r)), lenN_app, L40 by done.
  f_equal. destruct Hr as [Hf _ _ _]. destruct r; cbn in *. by subst.
Qed.

(** *** Torn writes *)

Lemma decode_torn_record r bs k offset mx :
  record_ok r → encode_record r = Ok bs → lenN bs <= 40 + mx → (k < length bs)%nat →
  ∃ w, decode_record (take k bs) offset mx = Incomplete w.
Proof.
  intros Hr (pl & Hpl & Hn & ->)%encode_record_shape Hmx Hk.
  assert (bytes_ok pl) by (eapply encode_payload_ok; [apply Hr|done]).
  rewrite lenN_app in Hmx. unfold lenN in Hmx at 1. rewrite length_app in Hk.
  rewrite length_header_bytes in Hmx, Hk.
  destruct (decide (k < 40)%nat) as [Hlt|Hge].
  - eexists. unfold decode_record. rewrite (proj2 (N.ltb_lt _ _)); [done|].
    unfold lenN, WAL_HEADER_LEN. rewrite length_take. lia.
  - rewrite take_app_ge, decode_encoded by (rewrite ?length_header_bytes; auto; lia).
    eexists. unfold decode_body. rewrite (proj2 (N.ltb_lt _ _)); [done|].
    unfold lenN. rewrite length_take, length_header_bytes. lia.
Qed.

(** *** Corruption *)

Lemma decode_bad_header_crc input offset mx :
  40 <= lenN input → read_int 32 36 input ≠ crc32c (zeroed_header input) →
  ∃ w, decode_record input offset mx = Invalid w.
Proof.
  intros Hlen Hne. unfold decode_record. rewrite (proj2 (N.ltb_ge _ _)) by done.
  repeat (case_match; [by eauto|]). case_match; [|by eauto].
  case_match; [by eauto|]. rewrite (proj2 (N.eqb_neq _ _)) by done. cbn. eauto.
Qed.

Lemma patch_app (P Q T new : bytes) :
  length P = 32%nat → length Q = length new → patch 32 new (P ++ Q ++ T) = P ++ new ++ T.
Proof.
  intros HP HQ. unfold patch. rewrite take_app_length' by done. do 2 f_equal.
  rewrite app_assoc, drop_app_length'; [done|]. rewrite length_app. lia.
Qed.

Section Corrupt.
  Context (P Q T rest : bytes).
  Context (HP : length P = 32%nat) (HQ : length Q = 4%nat) (HT : length T = 4%nat).

Lemma zeroed_header_app :
  zeroed_header ((P ++ Q ++ T) ++ rest) = P ++ le_bytes 4 0 ++ T.
Proof.
  unfold zeroed_header. rewrite slice_here by (rewrite !length_app; lia). by apply patch_app.
Qed.

Lemma read_crc_app : read_int 32 36 ((P ++ Q ++ T) ++ rest) = le_val Q.
Proof.
  unfold read_int. rewrite <-!app_assoc, slice_skip by lia. rewrite HP. f_equal.
  by apply slice_here.
Qed.
End Corrupt.

Lemma lookup_app3_cases {A} (P Q T : list A) i b :
  (P ++ Q ++ T) !! i = Some b →
  (∃ j, P !! j = Some b ∧ ∀ b', <[i:=b']> (P ++ Q ++ T) = <[j:=b']> P ++ Q ++ T) ∨
  (∃ j, Q !! j = Some b ∧ ∀ b', <[i:=b']> (P ++ Q ++ T) = P ++ <[j:=b']> Q ++ T) ∨
  (∃ j, T !! j = Some b ∧ ∀ b', <[i:=b']> (P ++ Q ++ T) = P ++ Q ++ <[j:=b']> T).
Proof.
  intros [H|[Hi H]]%lookup_app_Some.
  { left. exists i. split; [done|]. intros. apply insert_app_l. by eapply lookup_lt_Some. }
  right. apply lookup_app_Some in H as [H|[Hj H]]; [left|right]; eexists; split; try exact H.
  - intros. rewrite insert_app_r_alt by done. f_equal. apply insert_app_l. by eapply lookup_lt_Some.
  - intros. rewrite insert_app_r_alt by done. f_equal. by rewrite insert_app_r_alt.
Qed.

Lemma insert_byte_ok (l : bytes) i b : bytes_ok l → byte_ok b → bytes_ok (<[i:=b]> l).
Proof. intros. by apply Forall_insert. Qed.

Lemma corrupt_header_crc (H rest : bytes) i b b' :
  length H = 40%nat → bytes_ok H → byte_ok b' →
  read_int 32 36 H = crc32c (zeroed_header H) → H !! i = Some b → b ≠ b' →
  read_int 32 36 (<[i:=b']> H ++ rest) ≠ crc32c (zeroed_header (<[i:=b']> H ++ rest)).
Proof.
  intros Hlen Hok Hb' Hcrc Hi Hne.
  assert (∃ P Q T, H = P ++ Q ++ T ∧ length P = 32%nat ∧ length Q = 4%nat ∧ length T = 4%nat)
    as (P & Q & T & -> & HP & HQ & HT).
  { exists (slice 0 32 H), (slice 32 36 H), (slice 36 40 H).
    rewrite !length_slice, !slice_split, slice_all by lia. done. }
  rewrite <-(app_nil_r (P ++ Q ++ T)) in Hcrc.
  rewrite zeroed_header_app, read_crc_app in Hcrc by done.
  unfold bytes_ok in Hok. rewrite !Forall_app in Hok. destruct Hok as (OP & OQ & OT).
  destruct (lookup_app3_cases P Q T i b Hi) as [(j & Hj & ->)|[(j & Hj & ->)|(j & Hj & ->)]];
    rewrite zeroed_header_app, read_crc_app by (rewrite ?length_insert; done); rewrite ?Hcrc.
  - rewrite <-(insert_app_l P _ j b') by (by eapply lookup_lt_Some). apply not_eq_sym.
    apply (crc32c_insert _ j b b'); auto.
    + unfold bytes_ok. rewrite !Forall_app. split_and!; auto. apply le_bytes_ok.
    + by apply lookup_app_l_Some.
  - rewrite <-Hcrc. intros E. apply Hne.
    assert (<[j:=b']> Q = Q) as EQ.
    { pose proof (le_bytes_le_val (<[j:=b']> Q) (insert_byte_ok Q j b' OQ Hb')) as E2.
      by rewrite E, length_insert, le_bytes_le_val in E2. }
    assert (<[j:=b']> Q !! j = Some b') as E'
      by (apply list_lookup_insert_eq; by eapply lookup_lt_Some).
    rewrite EQ in E'. congruence.
  - apply not_eq_sym. rewrite !app_assoc.
    rewrite <-(insert_app_r (P ++ le_bytes 4 0) T j b').
    apply (crc32c_insert _ _ b b'); auto.
    + unfold bytes_ok. rewrite !Forall_app. split_and!; auto. apply le_bytes_ok.
    + rewrite lookup_app_r by lia. by rewrite Nat.add_sub_swap, Nat.sub_diag.
Qed.

Lemma decode_corrupt_record r bs rest i b b' offset mx :
  record_ok r → encode_record r = Ok bs → lenN bs <= 40 + mx →
  bs !! i = Some b → byte_ok b' → b ≠ b' →
  ∃ w, decode_record (<[i:=b']> bs ++ rest) offset mx = Invalid w.
Proof.
  intros Hr (pl & Hpl & Hn & ->)%encode_record_shape Hmx Hi Hb' Hne.
  assert (bytes_ok pl) as Hok by (eapply encode_payload_ok; [apply Hr|done]).
  set (H := header_bytes _ _ _ _ _ _ _) in *.
  assert (length H = 40%nat) as HL by apply length_header_bytes.
  rewrite lenN_app in Hmx. unfold lenN in Hmx at 1. rewrite HL in Hmx.
  apply lookup_app_Some in Hi as [Hi|[Hge Hi]].
  - rewrite insert_app_l, <-app_assoc by (by eapply lookup_lt_Some).
    apply decode_bad_header_crc.
    { rewrite lenN_app. unfold lenN at 1. rewrite length_insert. lia. }
    apply (corrupt_header_crc H _ i b b'); auto; [apply header_bytes_ok|].
    unfold zeroed_header, read_int. rewrite slice_all by done. subst H.
    rewrite patch_header. set (c := crc32c _).
    destruct (header_slices (flags r) (as_wire (record_type (payload r))) (lsn r) (sequence r)
      (lenN pl) c (crc32c pl) []) as (_ & _ & _ & _ & _ & _ & _ & _ & E & _).
    rewrite app_nil_r in E. rewrite E. apply le_val_le_bytes, crc32c_bound, header_bytes_ok.
  - rewrite insert_app_r_alt, <-app_assoc by done. subst H. rewrite decode_encoded by (auto; lia).
    unfold decode_body. rewrite lenN_app. set (j := (i - _)%nat) in *.
    assert (lenN (<[j:=b']> pl) = lenN pl) as EL by (unfold lenN; by rewrite length_insert).
    rewrite EL, (proj2 (N.ltb_ge _ _)) by lia. rewrite take_app_length'.
    2: { rewrite length_insert. apply lenN_to_nat. }
    rewrite (proj2 (N.eqb_neq _ _)); [by eauto|].
    apply not_eq_sym. by apply (crc32c_insert _ _ b).
Qed.

(** *** Accepted bytes are canonical *)

Lemma header_of_input input :
  bytes_ok input → (40 ≤ length input)%nat →
  read_int 0 4 input = WAL_MAGIC → read_int 4 6 input = WAL_VERSION →
  read_int 6 8 input = WAL_HEADER_LEN →
  slice 0 40 input =
  header_bytes (read_int 8 10 input) (read_int 10 12 input) (read_int 12 20 input)
    (read_int 20 28 input) (read_int 28 32 input) (read_int 32 36 input) (read_int 36 40 input) ∧
  header_ok (read_int 8 10 input) (read_int 10 12 input) (read_int 12 20 input)
    (read_int 20 28 input) (read_int 28 32 input).
Proof.
  intros Hok Hl Hm Hv Hh. unfold header_bytes. rewrite <-Hm, <-Hv, <-Hh.
  repeat match goal with
  | |- context [le_bytes ?n (read_int ?a ?b input)] =>
      rewrite (proj2 (read_int_spec n a b input eq_refl Hok ltac:(lia)))
  end.
  rewrite !slice_split by lia. split; [done|].
  constructor; eapply N.lt_le_trans; try (apply read_int_spec; [reflexivity|done|lia]); done.
Qed.

Lemma from_wire_inv t ty : from_wire t = Some ty → t = as_wire ty.
Proof.
  destruct t as [|[[]|[]|]]; cbn; try done; intros [= <-]; done.
Qed.

Lemma decode_complete_inv input offset mx r n :
  bytes_ok input → decode_record input offset mx = Complete r n →
  record_ok r ∧ 40 <= n ∧ n <= lenN input ∧ n <= 40 + mx ∧
  encode_record r = Ok (take (N.to_nat n) input).
Proof.
  intros Hok. unfold decode_record.
  destruct (N.ltb_spec (lenN input) WAL_HEADER_LEN) as [|Hlen]; [done|].
  assert (40 ≤ length input)%nat as Hl by (unfold lenN, WAL_HEADER_LEN in Hlen; lia).
  do 4 (case_match; [done|]). destruct (from_wire _) as [ty|] eqn:Hty; [|done].
  do 4 (case_match; [done|]). case_match eqn:Hdp; [|done]. nbool. intros [= <- <-].
  destruct (header_of_input input) as [HH [_ _ Bl Bs Bn]]; [done..|].
  apply from_wire_inv in Hty.
  set (pb := slice 40 _ input) in *. set (pn := read_int 28 32 input) in *.
  unfold WAL_HEADER_LEN in *.
  assert (lenN pb = pn) as Lpb by (unfold pb, lenN in *; rewrite length_slice; lia).
  assert (bytes_ok pb) as Opb by (by apply Forall_take, Forall_drop).
  destruct (encode_decode_payload ty _ pb Opb Hdp) as (Henc & Hrt & Hpok).
  split_and!; try lia; [by constructor|].
  apply encode_record_shape. exists pb. cbn [payload flags lsn sequence].
  rewrite Lpb, Hrt, <-Hty. split_and!; [done..|].
  replace (take (N.to_nat (40 + pn)) input) with (slice 0 40 input ++ pb).
  2: { subst pb. rewrite slice_split, slice_0_take; [done|lia..]. }
  f_equal. unfold zeroed_header in *. rewrite HH, patch_header in *. congruence.
Qed.

(** ** Properties *)

(** Bytes of the payload encoding, for the size side conditions. *)
Definition payload_size (p : WalPayload) : N :=
  match p with
  | Put k v => 8 + lenN k + lenN v
  | Delete k => 4 + lenN k
  | Noop => 0
  end.

Lemma encode_payload_total p :
  payload_size p < u32_lim → ∃ pl, encode_payload p = Ok pl ∧ lenN pl = payload_size p.
Proof.
  destruct p as [k v|k|]; cbn [payload_size]; intros Hs; unfold encode_payload, try_u32.
  - rewrite !(proj2 (N.ltb_lt _ _)) by lia. eexists. split; [done|].
    rewrite !lenN_app, !lenN_le_bytes. lia.
  - rewrite !(proj2 (N.ltb_lt _ _)) by lia. eexists. split; [done|].
    rewrite !lenN_app, !lenN_le_bytes. lia.
  - by eexists.
Qed.

Lemma encode_record_total r :
  payload_size (payload r) < u32_lim →
  ∃ bs, encode_record r = Ok bs ∧ lenN bs = 40 + payload_size (payload r).
Proof.
  intros Hs. destruct (encode_payload_total _ Hs) as (pl & Hpl & Hlen).
  eexists. split.
  - apply encode_record_shape. exists pl. split_and!; [done|by rewrite Hlen|done].
  - rewrite lenN_app, Hlen. unfold lenN. by rewrite length_header_bytes.
Qed.

(** Every well-formed record whose payload fits the configured maximum
    encodes, and decoding the encoding (whatever follows it) yields the record
    and consumes exactly its bytes. *)
Theorem wal_encode_decode (r : WalRecord) (rest : bytes) (offset mx : N) :
  record_ok r → payload_size (payload r) <= mx → mx < u32_lim →
  ∃ bs, encode_record r = Ok bs ∧ lenN bs = 40 + payload_size (payload r) ∧
        decode_record (bs ++ rest) offset mx = Complete r (lenN bs).
Proof.
  intros Hr Hs Hmx. destruct (encode_record_total r) as (bs & He & Hl); [lia|].
  exists bs. split_and!; [done..|]. apply decode_encode_record; auto. lia.
Qed.

Lemma wal_encode_decode_witness :
  ∃ bs, encode_record (new_record 3 9 (Put [107; 49] [118])) = Ok bs ∧ lenN bs = 40 + 11 ∧
        decode_record (bs ++ [1; 2; 3]) 0 100 =
        Complete (new_record 3 9 (Put [107; 49] [118])) (lenN bs).
Proof.
  apply (wal_encode_decode (new_record 3 9 (Put [107; 49] [118])) [1; 2; 3] 0 100).
  - constructor; cbn; try lia; try done. split; by repeat constructor.
  - by vm_compute.
  - by vm_compute.
Defined.

(** Whatever bytes the decoder accepts are the canonical encoding of the
    record it returns: no two byte strings decode to the same record, and the
    reported length stays inside the input and the configured maximum. *)
Theorem wal_decode_canonical (input : bytes) (offset mx : N) (r : WalRecord) (n : N) :
  bytes_ok input → decode_record input offset mx = Complete r n →
  record_ok r ∧ 40 <= n ∧ n <= lenN input ∧ n <= 40 + mx ∧
  encode_record r = Ok (take (N.to_nat n) input).
Proof. apply decode_complete_inv. Qed.

(** The encoding of a [Noop] record with LSN and sequence number 1. *)
Definition noop_bytes : bytes :=
  Eval vm_compute in match encode_record (new_record 1 1 Noop) with Ok b => b | Err _ => [] end.

Lemma wal_decode_canonical_witness :
  record_ok (new_record 1 1 Noop) ∧ 40 <= 40 ∧ 40 <= lenN (noop_bytes ++ [0]) ∧ 40 <= 40 + 10 ∧
  encode_record (new_record 1 1 Noop) = Ok (take (N.to_nat 40) (noop_bytes ++ [0])).
Proof.
  apply (wal_decode_canonical (noop_bytes ++ [0]) 0 10).
  - unfold bytes_ok. apply Forall_forall. intros x Hx.
    by repeat (apply elem_of_cons in Hx as [->|Hx]; [done|]); apply not_elem_of_nil in Hx.
  - by vm_compute.
Defined.

(** A record cut anywhere before its end (a torn write) is reported as
    incomplete: never accepted and never taken for corruption. *)
Theorem wal_torn_record_incomplete (r : WalRecord) (bs : bytes) (k : nat) (offset mx : N) :
  record_ok r → encode_record r = Ok bs → lenN bs <= 40 + mx → (k < length bs)%nat →
  ∃ w, decode_record (take k bs) offset mx = Incomplete w.
Proof. apply decode_torn_record. Qed.

Lemma wal_torn_record_incomplete_witness :
  ∃ w, decode_record (take 39 noop_bytes) 0 10 = Incomplete w.
Proof.
  apply (wal_torn_record_incomplete (new_record 1 1 Noop) noop_bytes 39 0 10).
  - by constructor.
  - by vm_compute.
  - by vm_compute.
  - vm_compute. lia.
Defined.

(** Changing any single byte of an encoded record, in the header, in either
    checksum field or in the payload, makes the decoder report it invalid. *)
Theorem wal_single_byte_corruption (r : WalRecord) (bs rest : bytes) (i : nat) (b b' offset mx : N) :
  record_ok r → encode_record r = Ok bs → lenN bs <= 40 + mx →
  bs !! i = Some b → byte_ok b' → b ≠ b' →
  ∃ w, decode_record (<[i:=b']> bs ++ rest) offset mx = Invalid w.
Proof. apply decode_corrupt_record. Qed.

Lemma wal_single_byte_corruption_witness :
  ∃ w, decode_record (<[12%nat:=7]> noop_bytes ++ [1; 2]) 0 10 = Invalid w.
Proof.
  apply (wal_single_byte_corruption (new_record 1 1 Noop) noop_bytes [1; 2] 12 1 7 0 10);
    by vm_compute || by constructor.
Defined.
