(* ===== verification/WalWriter.v ===== *)
(** [kaya-wal/src/batch.rs] and [kaya-wal/src/writer.rs]: the group-commit batch
    and the segment writer.  Instants and fsync durations are arguments.  A
    blocked append call is identified by the record it wrote: [waiters] are the
    senders of the batch, [sent] the calls whose channel has been answered. *)
From S2P Require Import Prelude Bytes Core OrdMap Path Disk WalCodec.

Open Scope N_scope.

(** ** batch.rs *)

Inductive BatchAction : Type := FlushNow | WaitForFlush.

Record WalBatchWriter := mkBatch {
  max_records : N;
  max_bytes : N;
  flush_interval : N;
  pending_count : N;
  pending_bytes : N;
  batch_started_at : option N;
  waiters : list WalRecord;
  sent : list WalRecord
}.

Definition batch_new (config : WalBatchConfig) : WalBatchWriter :=
  mkBatch (batch_max_records config) (batch_max_bytes config) (batch_flush_interval_us config)
    0 0 None [] [].

Definition enabled (b : WalBatchWriter) : bool :=
  (1 <? max_records b) || (0 <? max_bytes b) || negb (flush_interval b =? 0).

Definition has_pending (b : WalBatchWriter) : bool := 0 <? pending_count b.

Definition interval_expired (now : N) (b : WalBatchWriter) : bool :=
  if flush_interval b =? 0 then false
  else match batch_started_at b with
       | Some started => flush_interval b <=? now - started
       | None => false
       end.

Definition should_flush_now (now : N) (b : WalBatchWriter) : bool :=
  let count_limit := if 1 <? max_records b then max_records b else u64_max in
  let count_full := count_limit <=? pending_count b in
  let bytes_full := (0 <? max_bytes b) && (max_bytes b <=? pending_bytes b) in
  count_full || bytes_full || interval_expired now b.

Definition batch_add_waiter (r : WalRecord) (b : WalBatchWriter) : WalBatchWriter :=
  mkBatch (max_records b) (max_bytes b) (flush_interval b) (pending_count b) (pending_bytes b)
    (batch_started_at b) (waiters b ++ [r]) (sent b).

Definition after_record_appended (now : N) (r : WalRecord) (encoded_len : N) (b : WalBatchWriter)
    : BatchAction * WalBatchWriter :=
  if negb (enabled b) then (FlushNow, b)
  else
    let b := mkBatch (max_records b) (max_bytes b) (flush_interval b)
               (pending_count b + 1) (pending_bytes b + encoded_len)
               (match batch_started_at b with None => Some now | s => s end)
               (waiters b) (sent b) in
    if should_flush_now now b then (FlushNow, b) else (WaitForFlush, batch_add_waiter r b).

(** Every waiter is answered, then the counters are reset. *)
Definition complete_flush (b : WalBatchWriter) : WalBatchWriter :=
  mkBatch (max_records b) (max_bytes b) (flush_interval b) 0 0 None [] (sent b ++ waiters b).

(** The senders are dropped: the blocked calls see an error. *)
Definition fail_flush (b : WalBatchWriter) : WalBatchWriter :=
  mkBatch (max_records b) (max_bytes b) (flush_interval b) 0 0 None [] (sent b).

(** ** writer.rs *)

Record AppendResult := mkAppendResult {
  ar_lsn : N;
  ar_sequence : N;
  ar_segment_id : N;
  ar_offset : N;
  ar_encoded_len : N;
  ar_durable : bool;
  ar_fsync_us : option N
}.

(** What the call of [append] has become when it returns or blocks. *)
Inductive AppendOutcome : Type :=
| Returned (r : AppendResult)
| Blocked (r : AppendResult).

Record WalWriterInner := mkWriter {
  w_disk : SimState;
  w_config : WalConfig;
  active_segment_id : N;
  active_path : bytes;
  active_len : N;
  active_dir_synced : bool;
  next_lsn : N;
  w_next_sequence : N;
  batch : WalBatchWriter
}.

Definition upd_disk (d : SimState) (w : WalWriterInner) : WalWriterInner :=
  mkWriter d (w_config w) (active_segment_id w) (active_path w) (active_len w)
    (active_dir_synced w) (next_lsn w) (w_next_sequence w) (batch w).
Definition upd_batch (b : WalBatchWriter) (w : WalWriterInner) : WalWriterInner :=
  mkWriter (w_disk w) (w_config w) (active_segment_id w) (active_path w) (active_len w)
    (active_dir_synced w) (next_lsn w) (w_next_sequence w) b.
Definition upd_dir_synced (w : WalWriterInner) : WalWriterInner :=
  mkWriter (w_disk w) (w_config w) (active_segment_id w) (active_path w) (active_len w)
    true (next_lsn w) (w_next_sequence w) (batch w).

(** [active_len = offset + encoded_len; next_lsn.next(); next_sequence.next()]. *)
Definition advance (len : N) (w : WalWriterInner) : WalWriterInner :=
  mkWriter (w_disk w) (w_config w) (active_segment_id w) (active_path w) len
    (active_dir_synced w) (next_lsn w + 1) (w_next_sequence w + 1) (batch w).

(** Runs a disk operation of the writer. *)
Definition on_disk {A} (op : stm SimState A) : stm WalWriterInner A := fun w =>
  let '(r, d) := op (w_disk w) in (r, upd_disk d w).

Definition flush_strict_batch (fsync_us : N) : stm WalWriterInner N := fun w =>
  match on_disk (fsync_file (active_path w)) w with
  | (Ok _, w) => (Ok fsync_us, upd_batch (complete_flush (batch w)) w)
  | (Err e, w) => (Err e, upd_batch (fail_flush (batch w)) w)
  end.

Definition flush_pending_batch (fsync_us : N) : stm WalWriterInner unit := fun w =>
  if has_pending (batch w) then (_ ← flush_strict_batch fsync_us; mret tt) w
  else (Ok tt, w).

Definition rotate : stm WalWriterInner unit := fun w =>
  let id := active_segment_id w + 1 in
  match segment_path id with
  | Err e => (Err e, mkWriter (w_disk w) (w_config w) id (active_path w) (active_len w)
                       (active_dir_synced w) (next_lsn w) (w_next_sequence w) (batch w))
  | Ok p => (Ok tt, mkWriter (w_disk w) (w_config w) id p 0 false
                      (next_lsn w) (w_next_sequence w) (batch w))
  end.

Definition open_at (config : WalConfig) (lsn seq : N) (d : SimState)
    : result KayaError WalWriterInner :=
  wal_dir ← path_new (str "wal");
  segments ← (list_dir wal_dir d).1;
  let ids := omap parse_segment_id (de_path <$> segments) in
  let id := default 1 (foldr (λ i m, Some (N.max i (default 0 m))) None ids) in
  p ← segment_path id;
  match (file_len p d).1 with
  | Ok len => Ok (mkWriter d config id p len true lsn seq (batch_new (wal_batch config)))
  | Err NotFound => Ok (mkWriter d config id p 0 false lsn seq (batch_new (wal_batch config)))
  | Err e => Err e
  end.

(** [WalWriter::open]. *)
Definition open (config : WalConfig) (d : SimState) : result KayaError WalWriterInner :=
  open_at config 1 1 d.

(** The group flush at the head of [append] when the interval has run out. *)
Definition flush_expired (now fsync_us : N) : stm WalWriterInner unit := fun w =>
  if enabled (batch w) && has_pending (batch w) && interval_expired now (batch w)
  then (_ ← flush_strict_batch fsync_us; mret tt) w
  else (Ok tt, w).

(** Rotation when the record does not fit the active segment. *)
Definition rotate_if_full (fsync_us encoded_len : N) : stm WalWriterInner unit := fun w =>
  if (0 <? active_len w) && (segment_max_bytes (w_config w) <? active_len w + encoded_len)
  then (_ ← flush_pending_batch fsync_us; rotate) w
  else (Ok tt, w).

(** The directory sync after the append that created the segment file. *)
Definition sync_new_segment : stm WalWriterInner unit := fun w =>
  if active_dir_synced w then (Ok tt, w)
  else (d ← lift (path_new (str "wal")); _ ← on_disk (fsync_dir d); modify upd_dir_synced) w.

(** What [append] does once the bytes are in the file, by durability mode. *)
Definition finish_append (mode : DurabilityMode) (now fsync_us : N) (r : WalRecord)
    (offset encoded_len : N) : stm WalWriterInner AppendOutcome := fun w =>
  let res durable us :=
    mkAppendResult (next_lsn w) (w_next_sequence w) (active_segment_id w) offset encoded_len
      durable us in
  match mode with
  | Relaxed => (Ok (Returned (res false None)), advance (offset + encoded_len) w)
  | Strict =>
      if negb (enabled (batch w)) then
        (us ← flush_strict_batch fsync_us;
         _ ← modify (advance (offset + encoded_len));
         mret (Returned (res true (Some us)))) w
      else
        let '(action, b) := after_record_appended now r encoded_len (batch w) in
        let w := advance (offset + encoded_len) (upd_batch b w) in
        match action with
        | FlushNow => (us ← flush_strict_batch fsync_us; mret (Returned (res true (Some us)))) w
        | WaitForFlush => (Ok (Blocked (res true None)), w)
        end
  end.

(** The checks on the encoded size. *)
Definition check_encoded (w : WalWriterInner) (r : WalRecord) : result KayaError bytes :=
  encoded ← encode_record r;
  len ← try_u32 "encoded WAL record length does not fit into u32" (lenN encoded);
  if max_record_bytes (w_config w) <? len
  then Err (InvalidArgument ("encoded WAL record exceeds configured max: " +:+ pretty len
                             +:+ " > " +:+ pretty (max_record_bytes (w_config w))))
  else mret encoded.

Definition wal_append (p : WalPayload) (mode : DurabilityMode) (now fsync_us : N)
    : stm WalWriterInner AppendOutcome :=
  _ ← flush_expired now fsync_us;
  w ← get_state;
  let r := new_record (next_lsn w) (w_next_sequence w) p in
  encoded ← lift (check_encoded w r);
  _ ← rotate_if_full fsync_us (lenN encoded);
  w ← get_state;
  offset ← on_disk (append (active_path w) encoded);
  _ ← sync_new_segment;
  finish_append mode now fsync_us r offset (lenN encoded).
