(* ===== verification/WalRecovery.v ===== *)
(** [kaya-wal/src/recovery.rs]: the scan that rebuilds the record sequence from
    the segment files, truncates the torn tail and reports what it did; and the
    segment summary of [kaya-wal/src/inspect.rs]. *)
From S2P Require Import Prelude Bytes Core OrdMap Path Disk WalCodec WalWriter.

Open Scope N_scope.

Record RecoveredRecord := mkRecovered {
  rr_segment_id : N;
  rr_offset : N;
  rr_record : WalRecord
}.

Record WalRecoveryReport := mkReport {
  records : list RecoveredRecord;
  last_lsn : option N;
  valid_bytes : N;
  truncated_bytes : N;
  warnings : list WalWarning
}.

Definition empty_report : WalRecoveryReport := mkReport [] None 0 0 [].

(** The [while offset < bytes.len()] loop over one segment: the unread bytes,
    their offset and the LSN expected next; returns the records accepted, the
    final offset, the LSN expected after them and the warning that stopped the
    scan, if one did. *)
Fixpoint scan_segment (fuel : nat) (mx segment_id : N) (rest : bytes) (offset : N)
    (expected : option N) : list RecoveredRecord * N * option N * option WalWarning :=
  match fuel with
  | O => ([], offset, expected, None)
  | S fuel =>
      match rest with
      | [] => ([], offset, expected, None)
      | _ :: _ =>
          match decode_record rest offset mx with
          | Complete r n =>
              let go :=
                let '(rs, off', exp', stop) :=
                  scan_segment fuel mx segment_id (drop (N.to_nat n) rest) (offset + n)
                    (Some (lsn r + 1)) in
                (mkRecovered segment_id offset r :: rs, off', exp', stop) in
              match expected with
              | Some e =>
                  if negb (lsn r =? e) then
                    ([], offset, expected, Some (NonMonotonicLsn offset e (lsn r)))
                  else go
              | None => go
              end
          | Incomplete w | Invalid w => ([], offset, expected, Some w)
          end
      end
  end.

Definition last_of (old : option N) (rs : list RecoveredRecord) : option N :=
  match last rs with Some r => Some (lsn (rr_record r)) | None => old end.

(** One iteration of the segment loop; [true] when the scan stopped in it. *)
Definition recover_segment (mx : N) (seg : N * bytes) (expected : option N)
    (rep : WalRecoveryReport) : stm SimState (bool * option N * WalRecoveryReport) := fun d =>
  let '(segment_id, path) := seg in
  let read_len :=
    match file_len path d with
    | (Ok len, d) => (Ok len, d)
    | (Err NotFound, d) => (Ok 0, d)
    | (Err e, d) => (Err e, d)
    end in
  match read_len with
  | (Err e, d) => (Err e, d)
  | (Ok len, d) =>
      if len =? 0 then (Ok (false, expected, rep), d)
      else
        (bytes ← read_at path 0 len;
         let '(rs, off, expected', stop) :=
           scan_segment (length bytes) mx segment_id bytes 0 expected in
         let rep := mkReport (records rep ++ rs) (last_of (last_lsn rep) rs)
                      (valid_bytes rep + off) (truncated_bytes rep) (warnings rep) in
         match stop with
         | None => mret (false, expected', rep)
         | Some w =>
             let rep := mkReport (records rep) (last_lsn rep) (valid_bytes rep)
                          (truncated_bytes rep) (warnings rep ++ [w]) in
             if off <? len then
               _ ← truncate path off;
               mret (true, expected',
                     mkReport (records rep) (last_lsn rep) (valid_bytes rep)
                       (truncated_bytes rep + (len - off))
                       (warnings rep ++ [TailTruncated (to_string path) off (len - off)]))
             else mret (true, expected', rep)
         end) d
  end.

Fixpoint recover_segments (mx : N) (segs : list (N * bytes)) (expected : option N)
    (rep : WalRecoveryReport) : stm SimState WalRecoveryReport :=
  match segs with
  | [] => mret rep
  | seg :: segs =>
      '(stopped, expected', rep') ← recover_segment mx seg expected rep;
      if (stopped : bool) then
        mret (match segs with
              | [] => rep'
              | _ => mkReport (records rep') (last_lsn rep') (valid_bytes rep')
                       (truncated_bytes rep')
                       (warnings rep' ++ [TrailingSegmentsIgnored (lenN segs)])
              end)
      else recover_segments mx segs expected' rep'
  end.

(** [segments.sort_by_key(|(id, _)| id)], a stable sort. *)
Fixpoint insert_by_id (s : N * bytes) (l : list (N * bytes)) : list (N * bytes) :=
  match l with
  | [] => [s]
  | t :: l => if s.1 <=? t.1 then s :: t :: l else t :: insert_by_id s l
  end.
Definition sort_by_id (l : list (N * bytes)) : list (N * bytes) := foldr insert_by_id [] l.

Definition wal_segments (entries : list DirEntry) : list (N * bytes) :=
  sort_by_id (omap (λ e, id ← parse_segment_id (de_path e); Some (id, de_path e)) entries).

Definition recover_wal (config : WalConfig) : stm SimState WalRecoveryReport :=
  wal_dir ← lift (path_new (str "wal"));
  entries ← list_dir wal_dir;
  recover_segments (max_record_bytes config) (wal_segments entries) None empty_report.

(** ** inspect.rs *)

Record WalInspectionRow := mkRow {
  row_offset : N;
  row_lsn : N;
  row_sequence : N;
  row_type : WalRecordType;
  row_key_len : option N;
  row_value_len : option N
}.

Definition key_len (p : WalPayload) : option N :=
  match p with Put k _ | Delete k => Some (lenN k) | Noop => None end.
Definition value_len (p : WalPayload) : option N :=
  match p with Put _ v => Some (lenN v) | Delete _ | Noop => None end.

(** The row loop of [inspect_wal_path] over the bytes of the file. *)
Fixpoint inspect_rows (fuel : nat) (mx : N) (rest : bytes) (offset : N)
    : list WalInspectionRow * option WalWarning :=
  match fuel with
  | O => ([], None)
  | S fuel =>
      match rest with
      | [] => ([], None)
      | _ :: _ =>
          match decode_record rest offset mx with
          | Complete r n =>
              let '(rows, w) := inspect_rows fuel mx (drop (N.to_nat n) rest) (offset + n) in
              (mkRow offset (lsn r) (sequence r) (record_type (payload r))
                 (key_len (payload r)) (value_len (payload r)) :: rows, w)
          | Incomplete w | Invalid w => ([], Some w)
          end
      end
  end.
