(* ===== verification/WalLayout.v ===== *)
(** The correspondence between the segment files on disk and the segments the
    recovery scan visits: [list_dir], [parse_segment_id] and the sort together
    enumerate exactly the segment files in increasing id order. *)
From S2P Require Import Prelude Bytes Core OrdMap Path Disk WalCodec WalWriter WalRecovery.

Open Scope N_scope.

Definition wal_prefix : bytes := str "wal/".

(** [segs] is the map from segment ids to the files under [wal/], which holds
    nothing else. *)
Record layout (d : SimState) (segs : list (N * SimFile)) : Prop := {
  ly_disk : disk_ok d;
  ly_sorted : om_sorted segs;
  ly_file : ∀ id f, om_get id segs = Some f →
              id < u64_lim ∧ om_get (wal_path id) (files d) = Some f;
  ly_only : ∀ path f, starts_with wal_prefix path = true → om_get path (files d) = Some f →
              ∃ id, path = wal_path id ∧ om_get id segs = Some f
}.

Lemma wal_path_prefix id : starts_with wal_prefix (wal_path id) = true.
Proof. apply starts_with_spec. by exists (segment_name id). Qed.

Lemma path_new_wal : path_new (str "wal") = Ok (str "wal").
Proof. by vm_compute. Qed.

Lemma path_join_wal id : path_join (str "wal") (segment_name id) = Ok (wal_path id).
Proof.
  unfold path_join. rewrite path_new_plain.
  - unfold mbind, result_bind, is_root. rewrite !bool_decide_eq_false_2; [|apply segment_name_good|done].
    replace (str "wal" ++ ch_slash :: segment_name id) with (str "wal/" ++ segment_name id) by reflexivity.
    rewrite <-(segment_path_eq id). unfold segment_path. reflexivity.
  - apply segment_name_plain.
  - rewrite split_on_no_sep by apply segment_name_plain. repeat constructor; apply segment_name_good.
  - apply not_true_iff_false. rewrite starts_with_spec. intros [k Hk].
    apply (proj2 (segment_name_plain id)). rewrite Hk. by left.
  - intros Hl. assert (∃ a b l, segment_name id = a :: b :: l ∧ b ≠ ch_colon) as (a & b & l & E & Hb).
    { unfold segment_name.
      pose proof (hex_digits_Forall (λ b, b ≠ ch_colon) 16 id
        ltac:(intros; by apply hex_digit_plain)) as Hf.
      pose proof (length_hex_digits 16 id) as L.
      destruct Hf as [|a ? _ [|b l' Hb Hl']]; try done. by eexists _, _, _. }
    rewrite E in Hl. cbn in Hl. congruence.
Qed.

Lemma drop_wal_path id : drop (length wal_prefix) (wal_path id) = segment_name id.
Proof. unfold wal_path. by rewrite drop_app_length. Qed.

Definition wal_entry (kf : bytes * SimFile) : DirEntry :=
  mkDirEntry kf.1 false (lenN (volatile kf.2)).

Lemma list_entries_wal fs seen :
  (∀ k f, (k, f) ∈ fs → starts_with wal_prefix k = true →
     ∃ id, k = wal_path id ∧ segment_name id ∉ seen) →
  NoDup fs.*1 →
  list_entries (str "wal") wal_prefix seen fs =
  Ok (wal_entry <$> filter (λ kf, starts_with wal_prefix kf.1 = true) fs).
Proof.
  revert seen. induction fs as [|[k f] fs IH]; intros seen Hk Hnd; [done|].
  cbn [fmap list_fmap fst] in Hnd. apply NoDup_cons in Hnd as [Hnin Hnd].
  cbn [list_entries]. rewrite filter_cons. cbn [fst].
  destruct (starts_with wal_prefix k) eqn:E; cbn [negb].
  2: { rewrite decide_False by done. apply IH; [|done]. intros k' f' Hin.
       apply (Hk k' f'). by right. }
  rewrite decide_True by done. destruct (Hk k f) as (sid & -> & Hseen); [by left|done|].
  rewrite drop_wal_path. rewrite bool_decide_eq_false_2 by apply segment_name_good.
  rewrite split_on_no_sep by apply segment_name_plain. cbn [head from_option id].
  rewrite (bool_decide_eq_false_2 (_ ∈ seen)) by done. rewrite path_join_wal.
  cbn [mbind result_bind]. rewrite IH; [|..|done].
  - cbn. do 2 f_equal. unfold wal_entry. cbn.
    by rewrite bool_decide_eq_false_2 by apply segment_name_plain.
  - intros k' f' Hin Hp. destruct (Hk k' f') as (id' & -> & Hs'); [by right|done|].
    exists id'. split; [done|]. rewrite not_elem_of_cons. split; [|done].
    intros En. apply Hnin. apply list_elem_of_fmap. exists (wal_path id', f'). split; [|done].
    cbn [fst]. unfold wal_path. by rewrite En.
Qed.

(** ** The sort *)

Lemma elem_insert_by_id s l x : x ∈ insert_by_id s l ↔ x = s ∨ x ∈ l.
Proof.
  induction l as [|t l IH]; cbn [insert_by_id].
  - rewrite list_elem_of_singleton. split; [auto|]. intros [?|H]; [done|by apply not_elem_of_nil in H].
  - destruct (s.1 <=? t.1); rewrite !elem_of_cons; [done|]. rewrite IH. tauto.
Qed.

Lemma elem_sort_by_id l x : x ∈ sort_by_id l ↔ x ∈ l.
Proof.
  induction l as [|s l IH]; cbn; [done|]. rewrite elem_insert_by_id, elem_of_cons.
  fold (sort_by_id l). by rewrite IH.
Qed.

Lemma insert_by_id_sorted s l :
  om_sorted l → s.1 ∉ l.*1 → om_sorted (insert_by_id s l).
Proof.
  destruct s as [i p]. cbn [fst].
  induction l as [|[j q] l IH]; cbn [insert_by_id fst]; intros Hs Hn.
  - apply om_sorted_cons. split; constructor.
  - pose proof Hs as [Hl Hf]%om_sorted_cons. cbn in Hn. apply not_elem_of_cons in Hn as [Hij Hn].
    destruct (N.leb_spec i j) as [Hle|Hlt].
    + apply om_sorted_cons. split; [done|]. assert (klt i j) by (apply N.compare_lt_iff; lia).
      constructor; [done|]. eapply Forall_impl; [exact Hf|]. intros [? ?] ?. by eapply klt_trans.
    + apply om_sorted_cons. split; [auto|]. rewrite Forall_forall in *.
      intros x [->|Hx]%elem_insert_by_id; [|auto]. by apply N.compare_lt_iff.
Qed.

Lemma sort_by_id_sorted l : NoDup l.*1 → om_sorted (sort_by_id l).
Proof.
  induction l as [|s l IH]; cbn; [constructor|]. intros [Hn Hd]%NoDup_cons.
  apply insert_by_id_sorted; [auto|]. rewrite list_elem_of_fmap. intros (x & Ex & Hx).
  apply Hn, list_elem_of_fmap. exists x. split; [done|]. by apply elem_sort_by_id.
Qed.

Definition seg_path (kf : N * SimFile) : N * bytes := (kf.1, wal_path kf.1).

Lemma NoDup_segment_ids fs :
  NoDup fs.*1 → (∀ k f, (k, f) ∈ fs → ∃ i, k = wal_path i ∧ i < u64_lim) →
  NoDup (omap (λ e, i ← parse_segment_id (de_path e); Some (i, de_path e)) (wal_entry <$> fs)).*1.
Proof.
  induction fs as [|[k f] fs IH]; cbn [fmap list_fmap omap list_omap fst]; [constructor|].
  intros [Hn Hd]%NoDup_cons Hk. destruct (Hk k f) as (i & -> & Hi); [by left|].
  cbn [wal_entry de_path fst]. rewrite parse_wal_path by done. cbn [mbind option_bind fmap list_fmap fst].
  constructor; [|apply IH; [done|]; intros; apply (Hk k f0); by right].
  intros ([j p] & -> & (e & He & Hp)%list_elem_of_omap)%list_elem_of_fmap.
  apply list_elem_of_fmap in He as ([k' f'] & -> & Hin).
  destruct (Hk k' f') as (i' & -> & Hi'); [by right|]. cbn [wal_entry de_path fst] in *.
  rewrite parse_wal_path in Hp by done. cbn in Hp. injection Hp as -> _.
  apply Hn, list_elem_of_fmap. by exists (wal_path j, f').
Qed.

Lemma layout_segments d segs entries :
  layout d segs → list_dir (str "wal") d = (Ok entries, d) →
  wal_segments entries = seg_path <$> segs.
Proof.
  intros HL. unfold list_dir. change (if is_root (str "wal") then [] else _) with wal_prefix.
  pose proof (dk_sorted d (ly_disk _ _ HL)) as Hs.
  rewrite list_entries_wal; [|..|by apply om_sorted_NoDup].
  2: { intros k f Hin Hp. destruct (ly_only _ _ HL k f) as (i & -> & _); [done|by apply om_get_elem|].
       exists i. split; [done|]. apply not_elem_of_nil. }
  intros [<-%Ok_inj _]%pair_eq. unfold wal_segments.
  set (l := omap _ _).
  assert (∀ i p, (i, p) ∈ l ↔ ∃ f, om_get i segs = Some f ∧ p = wal_path i) as Hl.
  { intros i p. unfold l. rewrite list_elem_of_omap. split.
    - intros (e & He & Hp). apply list_elem_of_fmap in He as ([k f] & -> & [Hpre Hin]%list_elem_of_filter).
      destruct (ly_only _ _ HL k f) as (j & -> & Hj); [done|by apply om_get_elem|].
      destruct (ly_file _ _ HL j f Hj) as [Hb _]. cbn [wal_entry de_path fst] in Hp.
      rewrite parse_wal_path in Hp by done. cbn in Hp. injection Hp as <- <-. eauto.
    - intros (f & Hf & ->). destruct (ly_file _ _ HL i f Hf) as [Hb Hg].
      exists (wal_entry (wal_path i, f)). split.
      + apply list_elem_of_fmap. exists (wal_path i, f). split; [done|].
        apply list_elem_of_filter. split; [apply (wal_path_prefix i)|by apply om_get_elem].
      + cbn [wal_entry de_path fst]. by rewrite parse_wal_path. }
  assert (NoDup l.*1) as Hnd.
  { apply NoDup_segment_ids.
    - apply (om_sorted_NoDup (K := bytes)), om_filter_sorted, Hs.
    - intros k f [Hpre Hin]%list_elem_of_filter.
      destruct (ly_only _ _ HL k f) as (j & -> & Hj); [done|by apply om_get_elem|].
      exists j. split; [done|]. by apply (ly_file _ _ HL j f). }
  apply om_ext.
  - by apply sort_by_id_sorted.
  - unfold om_sorted. rewrite <-list_fmap_compose. apply (ly_sorted _ _ HL).
  - assert (om_sorted (seg_path <$> segs)) as Hss.
    { unfold om_sorted. rewrite <-list_fmap_compose. apply (ly_sorted _ _ HL). }
    intros i. apply option_eq. intros p.
    rewrite !om_get_elem, elem_sort_by_id, Hl by (done || by apply sort_by_id_sorted).
    rewrite list_elem_of_fmap. split.
    + intros (f & Hf & ->). exists (i, f). split; [done|]. apply om_get_elem; [apply HL|done].
    + intros ([j f] & [= -> ->] & Hin). exists f. split; [|done]. apply om_get_elem; [apply HL|done].
Qed.

Lemma layout_list d segs :
  layout d segs → ∃ entries, list_dir (str "wal") d = (Ok entries, d).
Proof.
  intros HL. unfold list_dir. change (if is_root (str "wal") then [] else _) with wal_prefix.
  pose proof (dk_sorted d (ly_disk _ _ HL)) as Hs.
  rewrite list_entries_wal; [by eexists|..|by apply om_sorted_NoDup].
  intros k f Hin Hp. destruct (ly_only _ _ HL k f) as (i & -> & _); [done|by apply om_get_elem|].
  exists i. split; [done|]. apply not_elem_of_nil.
Qed.

(** Writing a segment file updates the segment map at its id. *)
Lemma layout_write d d' segs id f :
  layout d segs → id < u64_lim → disk_ok d' → files d' = om_insert (wal_path id) f (files d) →
  layout d' (om_insert id f segs).
Proof.
  intros [Hd Hs Hf Ho] Hid Hd' E. pose proof (dk_sorted d Hd) as Hsd. split; [done|..].
  - by apply om_insert_sorted.
  - intros i g. rewrite E, !om_get_insert by done. intros Hg.
    destruct (decide (i = id)) as [->|Hne].
    + rewrite !kcmp_refl in *. done.
    + destruct (kcmp i id) eqn:Ec; [by apply kcmp_eq in Ec|..];
      (destruct (Hf i g Hg) as [Hb Hgg]; split; [done|];
       destruct (kcmp (wal_path i) (wal_path id)) eqn:Ep; try done;
       apply kcmp_eq, wal_path_inj in Ep; done).
  - intros path g Hp. rewrite E, om_get_insert by done.
    destruct (kcmp path (wal_path id)) eqn:Ep.
    + apply kcmp_eq in Ep as ->. intros [= <-]. exists id. split; [done|]. apply om_get_insert_eq.
    + intros Hg. destruct (Ho path g Hp Hg) as (i & -> & Hi). exists i. split; [done|].
      rewrite om_get_insert_ne; [done|done|]. intros ->. by rewrite kcmp_refl in Ep.
    + intros Hg. destruct (Ho path g Hp Hg) as (i & -> & Hi). exists i. split; [done|].
      rewrite om_get_insert_ne; [done|done|]. intros ->. by rewrite kcmp_refl in Ep.
Qed.

Lemma layout_same_files d d' segs :
  layout d segs → disk_ok d' → files d' = files d → layout d' segs.
Proof. intros [Hd Hs Hf Ho] Hd' E. split; [done|done|..]; rewrite E; done. Qed.
