(* ===== verification/WalDurability.v ===== *)
(** Durability of the write-ahead log: the writer, the disk, crashes and the
    recovery scan together.  A crash keeps every synced byte and any prefix of
    the unsynced ones; the theorems say what the recovery scan then returns. *)
From S2P Require Import Prelude Bytes Core OrdMap Path Disk WalCodec WalWriter WalRecovery WalLayout.

Open Scope N_scope.

(** ** Encoded record sequences *)

Definition enc (r : WalRecord) : bytes :=
  match encode_record r with Ok bs => bs | Err _ => [] end.
Definition enc_all (rs : list WalRecord) : bytes := rs ≫= enc.

(** A record the writer accepts under the size limit [mx]. *)
Record good (mx : N) (r : WalRecord) : Prop := {
  gd_ok : record_ok r;
  gd_enc : encode_record r = Ok (enc r);
  gd_len : lenN (enc r) <= mx
}.

Lemma good_intro mx r bs :
  record_ok r → encode_record r = Ok bs → lenN bs <= mx → good mx r.
Proof. intros Hr He Hl. split; unfold enc; by rewrite ?He. Qed.

Lemma enc_all_app a b : enc_all (a ++ b) = enc_all a ++ enc_all b.
Proof. apply bind_app. Qed.

Lemma enc_all_cons r rs : enc_all (r :: rs) = enc r ++ enc_all rs.
Proof. done. Qed.

Lemma enc_all_one r : enc_all [r] = enc r.
Proof. apply app_nil_r. Qed.

#[local] Arguments enc_all : simpl never.

Lemma good_enc_length mx r : good mx r → (40 ≤ length (enc r))%nat.
Proof. intros [_ He _]. apply encode_record_length in He. unfold lenN in He. lia. Qed.

(** LSNs increase by one, starting at [e] when it is given. *)
Fixpoint chain (e : option N) (rs : list WalRecord) : Prop :=
  match rs with
  | [] => True
  | r :: rs => match e with Some x => lsn r = x | None => True end ∧ chain (Some (lsn r + 1)) rs
  end.

Definition chain_end (e : option N) (rs : list WalRecord) : option N :=
  match last rs with Some r => Some (lsn r + 1) | None => e end.

Lemma chain_end_cons e r rs : chain_end e (r :: rs) = chain_end (Some (lsn r + 1)) rs.
Proof. unfold chain_end. destruct rs; [done|]. rewrite last_cons_cons. by destruct (last _) eqn:E; [|apply last_None in E]. Qed.

Lemma chain_app e a b : chain e (a ++ b) ↔ chain e a ∧ chain (chain_end e a) b.
Proof.
  revert e. induction a as [|r a IH]; intros e; cbn [app chain].
  - unfold chain_end. cbn. tauto.
  - rewrite IH, chain_end_cons. tauto.
Qed.

Lemma chain_end_app e a b : chain_end e (a ++ b) = chain_end (chain_end e a) b.
Proof. unfold chain_end. rewrite last_app. by destruct (last b). Qed.

(** What a crash can leave after the last whole record: nothing, or a record cut
    short. *)
Definition torn (mx : N) (tail : bytes) : Prop :=
  tail = [] ∨ ∃ r k, good mx r ∧ (k < length (enc r))%nat ∧ tail = take k (enc r) ∧ tail ≠ [].

Lemma prefix_enc_all mx rs v :
  Forall (good mx) rs → v `prefix_of` enc_all rs →
  ∃ a b tail, rs = a ++ b ∧ v = enc_all a ++ tail ∧ torn mx tail.
Proof.
  intros Hg. revert v. induction Hg as [|r rs Hr Hrs IH]; intros v Hv.
  - apply prefix_nil_inv in Hv as ->. exists [], [], []. split_and!; [done..|by left].
  - rewrite enc_all_cons in Hv. destruct (decide (length (enc r) ≤ length v)%nat) as [Hle|Hlt].
    + destruct Hv as [k Hk]. assert (v = enc r ++ drop (length (enc r)) v) as Ev.
      { rewrite <-(take_drop (length (enc r)) v) at 1. f_equal.
        apply (f_equal (take (length (enc r)))) in Hk.
        by rewrite take_app_length, take_app_le in Hk. }
      destruct (IH (drop (length (enc r)) v)) as (a & b & tail & -> & Ed & Ht).
      { exists k. apply (app_inv_head (enc r)). by rewrite Hk, app_assoc, <-Ev. }
      exists (r :: a), b, tail. split_and!; [done| |done].
      rewrite enc_all_cons, <-app_assoc, <-Ed. done.
    + exists [], (r :: rs), v. split_and!; [done..|]. destruct v as [|x v]; [by left|right].
      exists r, (length (x :: v)). split_and!; [done|lia| |done].
      destruct Hv as [k Hk]. apply (f_equal (take (length (x :: v)))) in Hk.
      rewrite take_app_length, take_app_le in Hk by lia. done.
Qed.

(** ** The scan of one segment *)

Fixpoint recovered (sid off : N) (rs : list WalRecord) : list RecoveredRecord :=
  match rs with
  | [] => []
  | r :: rs => mkRecovered sid off r :: recovered sid (off + lenN (enc r)) rs
  end.

Lemma recovered_records sid off rs : rr_record <$> recovered sid off rs = rs.
Proof. revert off. induction rs as [|r rs IH]; intros off; cbn; [done|]. by rewrite IH. Qed.

Lemma decode_good mx r rest off :
  good mx r → decode_record (enc r ++ rest) off mx = Complete r (lenN (enc r)).
Proof. intros [Hr He Hl]. apply decode_encode_record; auto. lia. Qed.

Lemma decode_torn mx tail off :
  torn mx tail → tail ≠ [] → ∃ w, decode_record tail off mx = Incomplete w.
Proof.
  intros [->|(r & k & [Hr He Hl] & Hk & -> & _)] Hne; [done|].
  apply (decode_torn_record r); auto. lia.
Qed.

Lemma scan_good mx sid rs tail : ∀ fuel off e,
  Forall (good mx) rs → chain e rs → torn mx tail →
  (length (enc_all rs ++ tail) ≤ fuel)%nat →
  ∃ stop, scan_segment fuel mx sid (enc_all rs ++ tail) off e =
            (recovered sid off rs, off + lenN (enc_all rs), chain_end e rs, stop) ∧
          (tail = [] → stop = None) ∧ (tail ≠ [] → ∃ w, stop = Some w).
Proof.
  induction rs as [|r rs IH]; intros fuel off e Hg Hc Ht Hf.
  - change (enc_all []) with (@nil N) in *. cbn [app recovered] in *.
    replace (off + lenN []) with off by (unfold lenN; cbn; lia).
    destruct tail as [|x t] eqn:Et.
    + exists None. split_and!; [by destruct fuel|done|done].
    + destruct fuel as [|fuel]; [cbn in Hf; lia|]. rewrite <-Et in *.
      destruct (decode_torn mx tail off Ht) as [w Hw]; [by rewrite Et|].
      exists (Some w). split_and!; [|by rewrite Et|eauto].
      cbn [scan_segment]. rewrite Hw. by rewrite Et.
  - apply Forall_cons in Hg as [Hr Hg]. destruct Hc as [He Hc].
    rewrite enc_all_cons, <-app_assoc in *. pose proof (good_enc_length mx r Hr) as H40.
    rewrite length_app in Hf. destruct fuel as [|fuel]; [lia|].
    destruct (IH fuel (off + lenN (enc r)) (Some (lsn r + 1)) Hg Hc Ht) as (stop & Hs & Hst); [lia|].
    exists stop. split; [|done]. cbn [scan_segment].
    destruct (enc r ++ enc_all rs ++ tail) as [|y l] eqn:El; [destruct (enc r); cbn in *; [lia|done]|].
    rewrite <-El. rewrite (decode_good mx r) by done. rewrite lenN_to_nat, drop_app_length, Hs.
    rewrite lenN_app, chain_end_cons, N.add_assoc.
    destruct e as [x|]; [|done]. subst x. by rewrite N.eqb_refl.
Qed.

(** ** Recovery of a whole log *)

Definition rep_ok (rep : WalRecoveryReport) (recs : list WalRecord) : Prop :=
  rr_record <$> records rep = recs ∧ last_lsn rep = lsn <$> last recs.

Lemma last_of_recovered old sid off rs :
  last_of old (recovered sid off rs) = match last rs with Some r => Some (lsn r) | None => old end.
Proof.
  unfold last_of. rewrite <-(recovered_records sid off rs) at 2. rewrite fmap_last.
  by destruct (last (recovered sid off rs)).
Qed.

Section Recover.
  Context (mx : N).

(** A segment holding whole records and possibly a torn one. *)
Lemma recover_segment_spec d sid path f rs tail e rep recs :
  disk_ok d → om_get path (files d) = Some f → volatile f = enc_all rs ++ tail →
  Forall (good mx) rs → chain e rs → torn mx tail → rep_ok rep recs →
  ∃ b rep' d', recover_segment mx (sid, path) e rep d = (Ok (b, chain_end e rs, rep'), d') ∧
    rep_ok rep' (recs ++ rs) ∧ disk_ok d' ∧
    (tail = [] → b = false ∧ d' = d) ∧
    (tail ≠ [] → b = true ∧
       files d' = om_insert path (mkSimFile (enc_all rs)
                    (take (length (enc_all rs)) (stable f))) (files d)).
Proof.
  intros Hd Hf Hv Hg Hc Ht [Hr1 Hr2]. unfold recover_segment, file_len. rewrite Hf.
  destruct (N.eqb_spec (lenN (volatile f)) 0) as [H0|H0].
  { assert (volatile f = []) as E by (destruct (volatile f); [done|cbn in H0; unfold lenN in H0; cbn in H0; lia]).
    rewrite E in Hv. symmetry in Hv. apply app_nil in Hv as [Hv1 ->].
    assert (rs = []) as ->.
    { destruct rs as [|r rs]; [done|]. apply Forall_cons in Hg as [Hr _].
      apply good_enc_length in Hr. rewrite enc_all_cons in Hv1.
      apply (f_equal length) in Hv1. rewrite length_app in Hv1. cbn in Hv1. lia. }
    exists false, rep, d. rewrite app_nil_r. split_and!; done. }
  unfold mbind, stm_bind. rewrite (read_at_all path d f Hf), Hv.
  destruct (scan_good mx sid rs tail (length (enc_all rs ++ tail)) 0 e Hg Hc Ht)
    as (stop & -> & Hn & Hs); [done|].
  rewrite last_of_recovered.
  assert (∀ vb tb ws, rep_ok (mkReport (records rep ++ recovered sid 0 rs)
     (match last rs with Some r => Some (lsn r) | None => last_lsn rep end) vb tb ws) (recs ++ rs)) as HR.
  { intros. split; cbn.
    - by rewrite fmap_app, Hr1, recovered_records.
    - rewrite last_app, Hr2. by destruct (last rs). }
  destruct (decide (tail = [])) as [->|Hne].
  - rewrite Hn by done. eexists false, _, d. split_and!; [done|apply HR|done..].
  - destruct (Hs Hne) as [w ->]. rewrite lenN_app, N.add_0_l.
    assert (0 < lenN tail) by (destruct tail; [done|unfold lenN; cbn; lia]).
    rewrite (proj2 (N.ltb_lt _ _)) by lia. cbn [records last_lsn valid_bytes truncated_bytes warnings].
    destruct (truncate_ok path (lenN (enc_all rs)) d f Hd Hf) as (d' & -> & Hd' & Hfd').
    eexists true, _, d'. split_and!; [done|apply HR|done|done|].
    intros _. split; [done|]. by rewrite Hfd', Hv, lenN_to_nat, take_app_length.
Qed.
End Recover.

(** ** The ghost view of the log directory

    Closed segments hold whole synced records; the active one holds a synced
    part [s] and an unsynced part [u]. *)

Definition synced_file (rs : list WalRecord) : SimFile := mkSimFile (enc_all rs) (enc_all rs).

Definition closed_seg (c : N * list WalRecord) : N * SimFile := (c.1, synced_file c.2).

Definition active_seg (act : option (N * list WalRecord * list WalRecord)) : list (N * SimFile) :=
  match act with
  | None => []
  | Some (i, s, u) => [(i, mkSimFile (enc_all (s ++ u)) (enc_all s))]
  end.

Definition mk_segs closed act : list (N * SimFile) := (closed_seg <$> closed) ++ active_seg act.

Definition closed_recs (closed : list (N * list WalRecord)) : list WalRecord := concat closed.*2.

Definition act_recs (act : option (N * list WalRecord * list WalRecord)) : list WalRecord :=
  match act with None => [] | Some (_, s, u) => s ++ u end.

Definition act_synced (act : option (N * list WalRecord * list WalRecord)) : list WalRecord :=
  match act with None => [] | Some (_, s, _) => s end.

Lemma closed_recs_snoc closed i rs : closed_recs (closed ++ [(i, rs)]) = closed_recs closed ++ rs.
Proof. unfold closed_recs. rewrite fmap_app, concat_app. cbn. by rewrite app_nil_r. Qed.

Section RecoverAll.
  Context (mx : N).

Lemma recover_closed closed rest d segs e rep recs :
  layout d segs → (∀ c, c ∈ closed → closed_seg c ∈ segs) →
  Forall (good mx) (closed_recs closed) → chain e (closed_recs closed) → rep_ok rep recs →
  ∃ rep', rep_ok rep' (recs ++ closed_recs closed) ∧
    recover_segments mx ((seg_path ∘ closed_seg <$> closed) ++ rest) e rep d =
    recover_segments mx rest (chain_end e (closed_recs closed)) rep' d.
Proof.
  intros HL. revert e rep recs. induction closed as [|[i rs] closed IH]; intros e rep recs Hin Hg Hc Hr.
  - exists rep. rewrite app_nil_r. done.
  - change (closed_recs ((i, rs) :: closed)) with (rs ++ closed_recs closed) in *.
    apply Forall_app in Hg as [Hg1 Hg2]. apply chain_app in Hc as [Hc1 Hc2].
    assert (om_get (wal_path i) (files d) = Some (synced_file rs)) as Hf.
    { apply (ly_file _ _ HL). apply om_get_elem; [apply HL|]. apply (Hin (i, rs)). by left. }
    destruct (recover_segment_spec mx d i (wal_path i) (synced_file rs) rs [] e rep recs)
      as (b & rep' & d' & Hseg & Hr' & _ & Hb & _); auto.
    { apply HL. } { cbn. by rewrite app_nil_r. } { by left. }
    destruct Hb as [-> ->]; [done|].
    destruct (IH (chain_end e rs) rep' (recs ++ rs)) as (rep2 & Hr2 & E); auto.
    { intros c Hcin. apply Hin. by right. }
    exists rep2. rewrite app_assoc. split; [done|]. rewrite chain_end_app, <-E.
    cbn [fmap list_fmap app recover_segments]. unfold mbind at 1, stm_bind at 1.
    change ((seg_path ∘ closed_seg) (i, rs)) with (i, wal_path i). by rewrite Hseg.
Qed.

(** The log as a crash leaves it: closed segments, and a last one with a torn
    tail.  Recovery returns every whole record and cuts the tail off. *)
Lemma recover_wal_spec config d closed i rs tail :
  max_record_bytes config = mx →
  layout d ((closed_seg <$> closed) ++ [(i, mkSimFile (enc_all rs ++ tail) (enc_all rs ++ tail))]) →
  Forall (good mx) (closed_recs closed ++ rs) → chain None (closed_recs closed ++ rs) →
  torn mx tail →
  ∃ rep d', recover_wal config d = (Ok rep, d') ∧ rep_ok rep (closed_recs closed ++ rs) ∧
            layout d' ((closed_seg <$> closed) ++ [(i, synced_file rs)]).
Proof.
  intros Hmx HL Hg Hc Ht. set (segs := _ ++ _) in HL.
  apply Forall_app in Hg as [Hg1 Hg2]. apply chain_app in Hc as [Hc1 Hc2].
  unfold recover_wal, mbind, stm_bind, lift. rewrite path_new_wal.
  destruct (layout_list _ _ HL) as [entries Hent]. rewrite Hent.
  rewrite (layout_segments _ _ _ HL Hent), Hmx. unfold segs at 1. rewrite fmap_app.
  rewrite <-list_fmap_compose.
  destruct (recover_closed closed (seg_path <$> [(i, mkSimFile (enc_all rs ++ tail) (enc_all rs ++ tail))])
    d segs None empty_report []) as (rep1 & Hr1 & ->); auto.
  { intros c Hcin. unfold segs. apply elem_of_app. left. by apply list_elem_of_fmap_2. }
  { done. }
  set (f := mkSimFile _ _) in *.
  assert (om_get i segs = Some f) as Hi.
  { apply om_get_elem; [apply HL|]. unfold segs. apply elem_of_app. right. by left. }
  destruct (ly_file _ _ HL i f Hi) as [Hib Hif].
  destruct (recover_segment_spec mx d i (wal_path i) f rs tail
    (chain_end None (closed_recs closed)) rep1 (closed_recs closed))
    as (b & rep2 & d' & Hseg & Hr2 & Hd' & Hnil & Hcut); auto.
  { apply HL. }
  cbn [fmap list_fmap recover_segments seg_path fst].
  unfold mbind, stm_bind. change (seg_path (i, f)) with (i, wal_path i). rewrite Hseg.
  assert (om_sorted segs) as Hss by apply HL.
  destruct (decide (tail = [])) as [->|Hne].
  - destruct Hnil as [-> ->]; [done|]. eexists rep2, d. split_and!; [done|done|].
    unfold segs in HL. unfold f in HL. by rewrite app_nil_r in HL.
  - destruct Hcut as [-> Hfd']; [done|]. eexists rep2, d'. split_and!; [done|done|].
    pose proof (layout_write d d' segs i _ HL Hib Hd' Hfd') as HL'.
    unfold f in HL'. cbn [stable] in HL'. rewrite take_app_length in HL'.
    replace (_ ++ [(i, synced_file rs)]) with (om_insert i (mkSimFile (enc_all rs) (enc_all rs)) segs);
      [done|].
    by apply om_insert_last.
Qed.
End RecoverAll.

(** ** Crashes *)

(** What survives of one file: at least the synced bytes, at most the written
    ones. *)
Definition file_survives (f f' : SimFile) : Prop :=
  stable f `prefix_of` volatile f' ∧ volatile f' `prefix_of` volatile f ∧ stable f' = volatile f'.

(** A crash loses contents, not names: every file that was there is there after it, and no other.
    The crash of the simulated disk that also drops names created since the last sync of their
    directory ([strict_namespace]) is not among these. *)
Definition crash_to (d d' : SimState) : Prop :=
  disk_ok d' ∧
  ∀ path, option_Forall2 file_survives (om_get path (files d)) (om_get path (files d')).

Lemma om_get_fmap {K V W} `{OrdKey K} (g : V → W) k (m : list (K * V)) :
  om_get k (prod_map id g <$> m) = g <$> om_get k m.
Proof. induction m as [|[k' v] m IH]; cbn; [done|]. by destruct (kcmp k k'). Qed.

(** The simulated crash is one of them. *)
Lemma crash_crash_to d :
  disk_ok d → strict_namespace d = false →
  (∀ path f, om_get path (files d) = Some f → stable f `prefix_of` volatile f) →
  crash_to d (crash d).
Proof.
  intros [Hs Hf] Hn Hp. unfold crash. rewrite Hn. split.
  - split; [|done]. cbn. unfold om_sorted. rewrite <-list_fmap_compose. exact Hs.
  - intros path. cbn. rewrite om_get_fmap. destruct (om_get path (files d)) as [f|] eqn:E; constructor.
    split_and!; [done|by eapply Hp|done].
Qed.

Lemma enc_all_mono a b : enc_all a `prefix_of` enc_all (a ++ b).
Proof. rewrite enc_all_app. by eexists. Qed.

Lemma prefix_between_enc mx s u v :
  Forall (good mx) (s ++ u) → enc_all s `prefix_of` v → v `prefix_of` enc_all (s ++ u) →
  ∃ u1 u2 tail, u = u1 ++ u2 ∧ v = enc_all (s ++ u1) ++ tail ∧ torn mx tail.
Proof.
  intros [_ Hu]%Forall_app [k ->] Hv. rewrite enc_all_app in Hv.
  apply prefix_app_inv in Hv. destruct (prefix_enc_all mx u k Hu Hv) as (a & b & tail & -> & -> & Ht).
  exists a, b, tail. split_and!; [done| |done]. by rewrite enc_all_app, app_assoc.
Qed.

Definition survivor (d' : SimState) (kf : N * SimFile) : N * SimFile :=
  (kf.1, default kf.2 (om_get (wal_path kf.1) (files d'))).

Lemma om_get_survivor d' i segs :
  om_get i (survivor d' <$> segs) =
  (λ f, default f (om_get (wal_path i) (files d'))) <$> om_get i segs.
Proof.
  induction segs as [|[j f] segs IH]; cbn; [done|].
  destruct (N.compare_spec i j) as [->|H|H]; done.
Qed.

Lemma crash_layout d d' segs :
  layout d segs → crash_to d d' →
  layout d' (survivor d' <$> segs) ∧
  Forall (λ kf, file_survives kf.2 (survivor d' kf).2) segs.
Proof.
  intros HL [Hd' Hs]. destruct HL as [Hd Hso Hf Ho].
  assert (∀ i f, om_get i segs = Some f → ∃ f', om_get (wal_path i) (files d') = Some f' ∧
            file_survives f f') as Hsv.
  { intros i f Hi. destruct (Hf i f Hi) as [_ Hg]. specialize (Hs (wal_path i)).
    rewrite Hg in Hs. inversion Hs; subst. eauto. }
  split.
  - split; [done|..].
    + unfold om_sorted. rewrite <-list_fmap_compose. exact Hso.
    + intros i f'. rewrite om_get_survivor. destruct (om_get i segs) as [f|] eqn:E; [|done].
      destruct (Hsv i f E) as (f2 & E2 & _). destruct (Hf i f E) as [Hb _]. rewrite E2. cbn.
      by intros [= <-].
    + intros path f' Hp Hg. specialize (Hs path). rewrite Hg in Hs.
      inversion Hs as [f f2 Hfs E1 E2|]; subst. symmetry in E1.
      destruct (Ho path f Hp E1) as (i & -> & Hi). exists i. split; [done|].
      rewrite om_get_survivor, Hi. cbn. by rewrite Hg.
  - apply Forall_forall. intros [i f] Hin. cbn.
    destruct (Hsv i f) as (f' & E & Hx); [by apply om_get_elem|]. rewrite E. done.
Qed.

Lemma synced_survives rs f' : file_survives (synced_file rs) f' → f' = synced_file rs.
Proof.
  destruct f' as [v s]. intros (H1 & H2 & E). cbn in *. subst s.
  assert (v = enc_all rs) as -> by (by apply (anti_symm prefix)). done.
Qed.

Lemma survivor_closed d' closed :
  Forall (λ kf, file_survives kf.2 (survivor d' kf).2) (closed_seg <$> closed) →
  survivor d' <$> (closed_seg <$> closed) = closed_seg <$> closed.
Proof.
  induction closed as [|[i rs] closed IH]; [done|].
  rewrite !fmap_cons, Forall_cons. intros [Hx Hf]. f_equal; [|auto].
  unfold survivor in *. cbn in *. apply synced_survives in Hx. by rewrite Hx.
Qed.

(** ** Sequence numbers *)

(** The sequence numbers rise along the log and stay below [n]. *)
Definition rising (rs : list WalRecord) : Prop := StronglySorted N.lt (sequence <$> rs).
Definition seqs_under (rs : list WalRecord) (n : N) : Prop := rising rs ∧ Forall (λ r, sequence r < n) rs.

Lemma seqs_under_mono rs n m : seqs_under rs n → n <= m → seqs_under rs m.
Proof. intros [H1 H2] H. split; [done|]. eapply Forall_impl; [exact H2|]. cbn. lia. Qed.

Lemma seqs_under_snoc rs n r : seqs_under rs n → n = sequence r → seqs_under (rs ++ [r]) (n + 1).
Proof.
  intros [H1 H2] E. split.
  - unfold rising. rewrite fmap_app. apply StronglySorted_app_2; [|done|by repeat constructor].
    intros x y (a & -> & Ha)%list_elem_of_fmap Hy%list_elem_of_singleton. subst y. rewrite Forall_forall in H2.
    rewrite <-E. by apply H2.
  - apply Forall_app. split; [|apply Forall_singleton; lia]. eapply Forall_impl; [exact H2|]. cbn. lia.
Qed.

Lemma rising_prefix a b : rising (a ++ b) → rising a.
Proof. unfold rising. rewrite fmap_app. by intros ?%StronglySorted_app_1_l. Qed.

(** What the sequence number after the last record bounds. *)
Lemma rising_last rs : rising rs → seqs_under rs (match last rs with Some r => sequence r + 1 | None => 1 end).
Proof.
  intros Hr. destruct rs as [|r rs _] using rev_ind; [done|]. rewrite last_snoc. split; [done|].
  unfold rising in Hr. rewrite fmap_app in Hr. apply Forall_app. split; [|apply Forall_singleton; lia].
  apply Forall_forall. intros x Hx. cut (sequence x < sequence r); [lia|].
  apply (StronglySorted_app_1_elem_of _ _ _ _ _ Hr); [by apply list_elem_of_fmap_2|by left].
Qed.

(** ** The writer's invariant *)

Section Writer.
  Context (config : WalConfig).
Let mx := max_record_bytes config.

(** [A] are the records acknowledged before this writer was opened or returned
    directly by it; those answered through the batch are in [sent]. *)
Record winv (A : list WalRecord) (w : WalWriterInner) (closed : list (N * list WalRecord))
    (act : option (N * list WalRecord * list WalRecord)) : Prop := {
  wi_config : w_config w = config;
  wi_layout : layout (w_disk w) (mk_segs closed act);
  wi_good : Forall (good mx) (closed_recs closed ++ act_recs act);
  wi_chain : chain None (closed_recs closed ++ act_recs act);
  wi_next : match chain_end None (closed_recs closed ++ act_recs act) with
            | Some n => next_lsn w = n
            | None => True
            end;
  wi_path : active_path w = wal_path (active_segment_id w);
  wi_id : active_segment_id w < u64_lim;
  wi_active : match act with
              | None => active_len w = 0 ∧ Forall (λ c, c.1 < active_segment_id w) closed
              | Some (i, s, u) =>
                  i = active_segment_id w ∧ active_len w = lenN (enc_all (s ++ u)) ∧
                  (u ≠ [] → has_pending (batch w) = true)
              end;
  wi_pending : act = None → has_pending (batch w) = false;
  wi_nowait : has_pending (batch w) = false → waiters (batch w) = [];
  wi_waiters : ∀ r, r ∈ waiters (batch w) → r ∈ act_recs act;
  wi_acked : ∀ r, r ∈ A ++ sent (batch w) → r ∈ closed_recs closed ++ act_synced act;
  wi_seqs : seqs_under (closed_recs closed ++ act_recs act) (w_next_sequence w)
}.

Lemma mk_segs_active_get d closed i s u :
  layout d (mk_segs closed (Some (i, s, u))) →
  i < u64_lim ∧ om_get (wal_path i) (files d) = Some (mkSimFile (enc_all (s ++ u)) (enc_all s)).
Proof.
  intros HL. apply (ly_file _ _ HL). apply om_get_elem; [apply HL|].
  apply elem_of_app. right. by left.
Qed.

Lemma fsync_active d closed i s u :
  layout d (mk_segs closed (Some (i, s, u))) →
  ∃ d', fsync_file (wal_path i) d = (Ok tt, d') ∧
        layout d' (mk_segs closed (Some (i, s ++ u, []))).
Proof.
  intros HL. destruct (mk_segs_active_get _ _ _ _ _ HL) as [Hb Hf].
  destruct (fsync_file_ok (wal_path i) d (mkSimFile (enc_all (s ++ u)) (enc_all s)))
    as (d' & Hfs & Hd' & Hfd'); [apply HL|done|].
  exists d'. split; [done|]. pose proof (layout_write _ _ _ _ _ HL Hb Hd' Hfd') as HL'.
  unfold mk_segs in *. cbn [active_seg] in *. rewrite om_insert_last in HL' by apply HL.
  by rewrite app_nil_r.
Qed.

(** What a step of the writer leaves unchanged until the record is in. *)
Definition same_seq (w w' : WalWriterInner) : Prop :=
  next_lsn w' = next_lsn w ∧ w_next_sequence w' = w_next_sequence w.

(** A sync moves the unsynced records into the synced part and answers every
    waiter. *)
Lemma flush_spec A w closed i s u us :
  winv A w closed (Some (i, s, u)) →
  ∃ w', flush_strict_batch us w = (Ok us, w') ∧ winv A w' closed (Some (i, s ++ u, [])) ∧
        same_seq w w' ∧ active_segment_id w' = active_segment_id w ∧
        has_pending (batch w') = false.
Proof.
  intros [Hc HL Hg Hch Hn Hp Hid Ha Hpe Hnw Hw Hak Hq].
  destruct Ha as (-> & Hal & Hu). destruct (fsync_active _ _ _ _ _ HL) as (d' & Hfs & HL').
  unfold flush_strict_batch, on_disk. rewrite Hp, Hfs. eexists. split; [done|].
  split_and!; try done. split; cbn; rewrite ?app_nil_r; auto.
  - intros r Hr. by apply not_elem_of_nil in Hr.
  - intros r. rewrite app_assoc, elem_of_app. intros [Hr|Hr].
    + apply Hak in Hr. cbn in Hr. rewrite !elem_of_app in *. tauto.
    + apply Hw in Hr. cbn in Hr. rewrite !elem_of_app in *. tauto.
Qed.

Lemma flush_expired_spec A w closed act now us :
  winv A w closed act →
  ∃ w' act', flush_expired now us w = (Ok tt, w') ∧ winv A w' closed act' ∧ same_seq w w' ∧
             active_segment_id w' = active_segment_id w.
Proof.
  intros Hi. unfold flush_expired. destruct (_ && _) eqn:E; [|by exists w, act].
  nbool. destruct act as [[[i s] u]|]; [|by rewrite (wi_pending _ _ _ _ Hi) in *].
  destruct (flush_spec A w closed i s u us Hi) as (w' & Hf & Hi' & Hs & Ha & _).
  unfold mbind, stm_bind. rewrite Hf. eauto 10.
Qed.

Lemma rotate_if_full_spec A w closed act us len :
  winv A w closed act → active_segment_id w + 1 < u64_lim →
  ∃ w' closed' act', rotate_if_full us len w = (Ok tt, w') ∧ winv A w' closed' act' ∧ same_seq w w'.
Proof.
  intros Hi Hid. unfold rotate_if_full. destruct (_ && _) eqn:E; [|by exists w, closed, act].
  nbool. destruct act as [[[i s] u]|].
  2: { destruct (wi_active _ _ _ _ Hi) as [Hz _]. lia. }
  assert (∃ w1 s1, flush_pending_batch us w = (Ok tt, w1) ∧ winv A w1 closed (Some (i, s1, [])) ∧
            same_seq w w1 ∧ active_segment_id w1 = active_segment_id w ∧
            has_pending (batch w1) = false) as (w1 & s1 & Hf & Hi1 & Hs1 & Hid1 & Hp1).
  { unfold flush_pending_batch. destruct (has_pending (batch w)) eqn:Hp.
    - destruct (flush_spec A w closed i s u us Hi) as (w1 & Hf & Hi' & Hs & Ha & Hp').
      unfold mbind, stm_bind. rewrite Hf. eauto 10.
    - destruct (wi_active _ _ _ _ Hi) as (_ & _ & Hu).
      assert (u = []) as -> by (destruct u; [done|]; exfalso; by rewrite Hu in Hp).
      by exists w, s. }
  unfold mbind, stm_bind. rewrite Hf. unfold rotate. rewrite Hid1, segment_path_eq.
  exists (mkWriter (w_disk w1) (w_config w1) (active_segment_id w + 1)
            (wal_path (active_segment_id w + 1)) 0 false (next_lsn w1) (w_next_sequence w1) (batch w1)),
    (closed ++ [(i, s1)]), None.
  split; [done|]. split; [|done]. destruct Hi1 as [Hc HL Hg Hch Hn Hp' Hid' Ha Hpe Hnw Hw Hak Hq].
  cbn [act_recs act_synced] in *. rewrite app_nil_r in *.
  split; cbn [w_config w_disk active_segment_id active_path active_len next_lsn batch act_recs act_synced];
    rewrite ?closed_recs_snoc, ?app_nil_r; auto.
  - unfold mk_segs in *. cbn [active_seg] in *. rewrite fmap_app, !app_nil_r in *. exact HL.
  - split; [done|]. destruct Ha as (-> & _). rewrite Forall_app, Forall_singleton. cbn.
    rewrite Hid1. split; [|lia]. apply Forall_forall. intros c Hc'.
    pose proof (ly_sorted _ _ HL) as Hso. unfold mk_segs in Hso. cbn [active_seg] in Hso.
    apply om_sorted_snoc in Hso as [_ Hfl]. rewrite Forall_fmap, Forall_forall in Hfl.
    apply Hfl in Hc'. cbn in Hc'. apply (proj1 (N.compare_lt_iff _ _)) in Hc'. lia.
  - rewrite (Hnw Hp1). intros r Hr. by apply not_elem_of_nil in Hr.
Qed.
(** *** Writing the record *)

Definition act_push (i : N) (r : WalRecord) (act : option (N * list WalRecord * list WalRecord)) :=
  match act with None => (i, [], [r]) | Some (_, s, u) => (i, s, u ++ [r]) end.

Lemma file_absent d segs i :
  layout d segs → i < u64_lim → om_get i segs = None → om_get (wal_path i) (files d) = None.
Proof.
  intros HL Hi Hn. destruct (om_get (wal_path i) (files d)) as [f|] eqn:E; [|done].
  destruct (ly_only _ _ HL (wal_path i) f) as (j & Ej & Hj); [apply wal_path_prefix|done|].
  apply wal_path_inj in Ej as ->; [congruence|done|]. by apply (ly_file _ _ HL j f).
Qed.

Lemma append_active A w closed act r :
  winv A w closed act → encode_record r = Ok (enc r) →
  ∃ d', append (active_path w) (enc r) (w_disk w) = (Ok (active_len w), d') ∧
        layout d' (mk_segs closed (Some (act_push (active_segment_id w) r act))).
Proof.
  intros [Hc HL Hg Hch Hn Hp Hid Ha Hpe Hnw Hw Hak Hq] He. rewrite Hp.
  destruct (append_ok (wal_path (active_segment_id w)) (enc r) (w_disk w)) as (d' & Hap & Hd' & Hfd');
    [apply HL|]. unfold file_or_default in *.
  pose proof (λ f, layout_write _ d' _ (active_segment_id w) f HL Hid Hd') as HL'.
  exists d'. destruct act as [[[i s] u]|].
  - destruct Ha as (-> & Hal & Hu). destruct (mk_segs_active_get _ _ _ _ _ HL) as [_ Hf].
    rewrite Hf in *. cbn [from_option id volatile stable] in *. rewrite Hal. split; [done|].
    specialize (HL' _ Hfd'). unfold mk_segs in *. cbn [active_seg act_push] in *.
    rewrite om_insert_last in HL' by apply HL. by rewrite app_assoc, enc_all_app, enc_all_one.
  - destruct Ha as [Hal Hlt]. unfold mk_segs in *. cbn [active_seg] in *. rewrite app_nil_r in *.
    assert (Forall (λ kv : N * SimFile, klt kv.1 (active_segment_id w)) (closed_seg <$> closed)) as Hkl.
    { rewrite Forall_fmap. eapply Forall_impl; [exact Hlt|]. intros c Hcl. by apply N.compare_lt_iff. }
    assert (om_get (wal_path (active_segment_id w)) (files (w_disk w)) = None) as Hno.
    { apply (file_absent _ _ _ HL Hid).
      destruct (om_get (active_segment_id w) _) as [f|] eqn:E; [|done].
      apply om_get_elem in E; [|apply HL]. rewrite Forall_forall in Hkl. apply Hkl in E.
      by apply klt_irrefl in E. }
    rewrite Hno in *. cbn [from_option id volatile stable app] in *. rewrite Hal. split; [done|].
    specialize (HL' _ Hfd'). rewrite om_insert_snoc, <-(enc_all_one r) in HL' by done. exact HL'.
Qed.

Lemma sync_new_segment_spec w segs :
  layout (w_disk w) segs →
  ∃ d', sync_new_segment w = (Ok tt, upd_dir_synced (upd_disk d' w)) ∧ layout d' segs.
Proof.
  intros HL. unfold sync_new_segment. destruct (active_dir_synced w) eqn:E.
  - exists (w_disk w). split; [|done]. f_equal. destruct w. cbn in *. by subst.
  - destruct (fsync_dir_ok (str "wal") (w_disk w)) as (d' & Hf & Hd' & Hfd'); [apply HL|].
    exists d'. unfold mbind, stm_bind, lift, on_disk, modify. rewrite path_new_wal, Hf.
    split; [done|]. by eapply layout_same_files.
Qed.

Lemma recs_push closed i r act :
  closed_recs closed ++ act_recs (Some (act_push i r act)) =
  (closed_recs closed ++ act_recs act) ++ [r].
Proof. destruct act as [[[j s] u]|]; cbn; rewrite <-?app_assoc; done. Qed.

Lemma chain_push A w closed act r :
  winv A w closed act → lsn r = next_lsn w →
  chain None ((closed_recs closed ++ act_recs act) ++ [r]).
Proof.
  intros Hi Hl. apply chain_app. split; [apply Hi|]. pose proof (wi_next _ _ _ _ Hi) as Hn.
  cbn [chain]. split; [|done]. destruct (chain_end _ _); [congruence|done].
Qed.

Lemma chain_end_snoc e a r : chain_end e (a ++ [r]) = Some (lsn r + 1).
Proof. unfold chain_end. by rewrite last_snoc. Qed.

(** The writer once the record is in the file and the counters have moved, for a
    batch [b] that accounts for it. *)
Lemma winv_written A w closed act r d' b len :
  winv A w closed act → good mx r → lsn r = next_lsn w → w_next_sequence w = sequence r →
  layout d' (mk_segs closed (Some (act_push (active_segment_id w) r act))) →
  len = active_len w + lenN (enc r) → has_pending b = true → sent b = sent (batch w) →
  (∀ x, x ∈ waiters b → x ∈ waiters (batch w) ∨ x = r) →
  winv A (advance len (upd_batch b (upd_dir_synced (upd_disk d' w)))) closed
    (Some (act_push (active_segment_id w) r act)).
Proof.
  intros Hi Hr Hl Hsq HL' -> Hpb Hsb Hwb. pose proof (chain_push _ _ _ _ _ Hi Hl) as Hch'.
  destruct Hi as [Hc HL Hg Hch Hn Hp Hid Ha Hpe Hnw Hw Hak Hq].
  split; cbn [w_config w_disk active_segment_id active_path active_len next_lsn w_next_sequence batch advance
    upd_batch upd_dir_synced upd_disk]; rewrite ?recs_push; auto.
  - rewrite Forall_app, Forall_singleton. done.
  - rewrite chain_end_snoc. congruence.
  - destruct act as [[[i s] u]|]; cbn.
    + destruct Ha as (-> & Hal & _). split_and!; [done| |done].
      by rewrite Hal, app_assoc, (enc_all_app (s ++ u) [r]), lenN_app, enc_all_one.
    + destruct Ha as (Hal & _). split_and!; [done| |done]. by rewrite Hal, enc_all_one.
  - done.
  - congruence.
  - intros x [Hx| ->]%Hwb.
    + apply Hw in Hx. destruct act as [[[i s] u]|]; cbn in *; [|by apply not_elem_of_nil in Hx].
      rewrite !elem_of_app in *. tauto.
    + destruct act as [[[i s] u]|]; cbn; [rewrite !elem_of_app, list_elem_of_singleton; tauto|by left].
  - intros x. rewrite Hsb. intros Hx%Hak. destruct act as [[[i s] u]|]; cbn in *; done.
  - by apply seqs_under_snoc.
Qed.
(** *** The whole append *)

Definition out_acked (r : WalRecord) (out : AppendOutcome) : list WalRecord :=
  match out with Returned _ => [r] | Blocked _ => [] end.

Lemma winv_more A w closed act r :
  winv A w closed act → r ∈ closed_recs closed ++ act_synced act → winv (A ++ [r]) w closed act.
Proof.
  intros [Hc HL Hg Hch Hn Hp Hid Ha Hpe Hnw Hw Hak Hq] Hr. split; auto.
  intros x Hx. rewrite !elem_of_app, list_elem_of_singleton in Hx. destruct Hx as [[Hx| ->]|Hx].
  - apply Hak, elem_of_app. by left.
  - done.
  - apply Hak, elem_of_app. by right.
Qed.

Lemma act_push_flush i r act :
  ∃ s u, act_push i r act = (i, s, u) ∧ s ++ u = act_recs act ++ [r].
Proof.
  destruct act as [[[j s] u]|]; cbn.
  - exists s, (u ++ [r]). by rewrite app_assoc.
  - by exists [], [r].
Qed.

Lemma wi_len A w closed act : winv A w closed act → active_len w = lenN (enc_all (act_recs act)).
Proof.
  intros Hi. pose proof (wi_active _ _ _ _ Hi) as Ha.
  destruct act as [[[j s] u]|]; [by destruct Ha as (_ & -> & _)|by destruct Ha as [-> _]].
Qed.

Lemma act_synced_recs act r : r ∈ act_synced act → r ∈ act_recs act.
Proof. destruct act as [[[j s] u]|]; cbn; [rewrite elem_of_app; tauto|done]. Qed.

(** The unbatched path: the record is synced before the counters move. *)
Lemma winv_synced A w closed act r d' b i s u len :
  winv A w closed act → good mx r → lsn r = next_lsn w → w_next_sequence w = sequence r → i = active_segment_id w →
  layout d' (mk_segs closed (Some (i, s ++ u, []))) → s ++ u = act_recs act ++ [r] →
  len = active_len w + lenN (enc r) → has_pending b = false → waiters b = [] →
  sent b = sent (batch w) ++ waiters (batch w) →
  winv A (advance len (upd_batch b (upd_disk d' (upd_dir_synced w)))) closed (Some (i, s ++ u, [])).
Proof.
  intros Hi Hr Hl Hsq -> HL' Esu -> Hpb Hwb Hsb. pose proof (chain_push _ _ _ _ _ Hi Hl) as Hch'.
  pose proof (wi_len _ _ _ _ Hi) as Hlen. rewrite Esu in *.
  destruct Hi as [Hc HL Hg Hch Hn Hp Hid Ha Hpe Hnw Hw Hak Hq].
  split; cbn [w_config w_disk active_segment_id active_path active_len next_lsn w_next_sequence batch advance
    upd_batch upd_dir_synced upd_disk act_recs act_synced]; rewrite ?app_nil_r, ?app_assoc; auto.
  - rewrite Forall_app, Forall_singleton. done.
  - rewrite chain_end_snoc. congruence.
  - split_and!; [done| |done]. by rewrite enc_all_app, lenN_app, enc_all_one, Hlen.
  - rewrite Hwb. intros x Hx. by apply not_elem_of_nil in Hx.
  - rewrite Hsb. intros x. rewrite app_assoc, elem_of_app. intros [Hx|Hx].
    + apply Hak in Hx. rewrite !elem_of_app in *. destruct Hx as [Hx|Hx%act_synced_recs]; tauto.
    + apply Hw in Hx. rewrite !elem_of_app. tauto.
  - by apply seqs_under_snoc.
Qed.

Lemma finish_append_spec A w closed act r d' now us :
  winv A w closed act → good mx r → lsn r = next_lsn w → w_next_sequence w = sequence r →
  layout d' (mk_segs closed (Some (act_push (active_segment_id w) r act))) →
  ∃ out w' act', finish_append Strict now us r (active_len w) (lenN (enc r))
                   (upd_dir_synced (upd_disk d' w)) = (Ok out, w') ∧
                 winv (A ++ out_acked r out) w' closed act'.
Proof.
  intros Hi Hr Hl Hsq HL'. unfold finish_append. cbn [batch upd_dir_synced upd_disk].
  destruct (enabled (batch w)) eqn:Een; cbn [negb].
  - unfold after_record_appended. rewrite Een. cbn [negb].
    set (b := mkBatch _ _ _ _ _ _ _ _).
    assert (has_pending b = true) as Hpb by (apply N.ltb_lt; cbn; lia).
    destruct (should_flush_now now b).
    + pose proof (winv_written A w closed act r d' b _ Hi Hr Hl Hsq HL' eq_refl Hpb eq_refl
        ltac:(by left)) as Hi2.
      destruct (act_push_flush (active_segment_id w) r act) as (s & u & Epush & Hru).
      rewrite Epush in Hi2. destruct (flush_spec _ _ _ _ _ _ us Hi2) as (w3 & Hf & Hi3 & _).
      unfold mbind, stm_bind. rewrite Hf. eexists _, w3, _. split; [done|].
      apply winv_more; [exact Hi3|]. cbn [act_synced]. rewrite Hru, !elem_of_app, list_elem_of_singleton.
      tauto.
    + eexists _, _, _. split; [done|]. cbn [out_acked]. rewrite app_nil_r.
      apply (winv_written A w closed act r d' (batch_add_waiter r b)); auto.
      intros x. cbn. rewrite elem_of_app, list_elem_of_singleton. tauto.
  - destruct (act_push_flush (active_segment_id w) r act) as (s & u & Epush & Hru).
    rewrite Epush in HL'. destruct (fsync_active _ _ _ _ _ HL') as (d2 & Hfs & HL2).
    unfold mbind, stm_bind, flush_strict_batch, on_disk, modify.
    cbn [active_path w_disk upd_dir_synced upd_disk]. rewrite (wi_path _ _ _ _ Hi), Hfs.
    eexists _, _, _. split; [done|]. cbn [out_acked]. apply winv_more.
    { eapply (winv_synced A w closed act r d2); eauto. }
    cbn [act_synced]. rewrite Hru, !elem_of_app, list_elem_of_singleton. tauto.
Qed.
Lemma check_encoded_spec w r bs :
  w_config w = config → check_encoded w r = Ok bs → record_ok r →
  bs = enc r ∧ good mx r.
Proof.
  intros Hc H Hr. unfold check_encoded in H. rewrite Hc in H. inv_ok.
  apply try_u32_Ok in H0 as [-> _]. case_match eqn:E; [done|]. nbool. inv_ok.
  assert (enc r = bs) as Eb by (unfold enc; by rewrite H). subst bs.
  split; [done|]. by split.
Qed.

Lemma check_encoded_total w r :
  w_config w = config → 40 + payload_size (payload r) <= mx → mx < u32_lim →
  ∃ bs, check_encoded w r = Ok bs.
Proof.
  intros Hc Hs Hmx. unfold check_encoded. rewrite Hc.
  destruct (encode_record_total r) as (bs & -> & Hl); [lia|]. cbn [mbind result_bind].
  unfold try_u32. rewrite (proj2 (N.ltb_lt _ _)) by (rewrite Hl; lia). cbn [mbind result_bind].
  fold mx. rewrite (proj2 (N.ltb_ge _ _)) by (rewrite Hl; lia). by eexists.
Qed.

Definition res_acked (r : WalRecord) (res : result KayaError AppendOutcome) : list WalRecord :=
  match res with Ok out => out_acked r out | Err _ => [] end.

Lemma wal_append_spec A w closed act p now us :
  winv A w closed act → payload_ok p → next_lsn w < 2 ^ 64 → w_next_sequence w < 2 ^ 64 →
  active_segment_id w + 1 < u64_lim →
  let r := new_record (next_lsn w) (w_next_sequence w) p in
  ∃ res w' closed' act', wal_append p Strict now us w = (res, w') ∧
    winv (A ++ res_acked r res) w' closed' act' ∧
    (40 + payload_size p <= mx → mx < u32_lim → ∃ out, res = Ok out).
Proof.
  intros Hi Hp Hl Hs Hid r. unfold wal_append.
  destruct (flush_expired_spec _ _ _ _ now us Hi) as (w1 & act1 & H1 & Hi1 & [El1 Es1] & Ea1).
  unfold mbind, stm_bind. rewrite H1. unfold get_state. rewrite El1, Es1. fold r.
  assert (record_ok r) as Hr by (by constructor).
  unfold lift. destruct (check_encoded w1 r) as [bs|e] eqn:Hck.
  2: { exists (Err e), w1, closed, act1. split_and!; [done|cbn; by rewrite app_nil_r|].
       intros Hx Hm. destruct (check_encoded_total w1 r) as [bs Hbs]; [apply Hi1|done..|congruence]. }
  destruct (check_encoded_spec w1 r bs) as [-> Hg]; [apply Hi1|done..|].
  destruct (rotate_if_full_spec _ _ _ _ us (lenN (enc r)) Hi1) as (w2 & cl2 & act2 & H2 & Hi2 & [El2 Es2]);
    [by rewrite Ea1|]. rewrite H2.
  destruct (append_active _ _ _ _ r Hi2) as (d' & Hap & HL'); [apply Hg|].
  unfold on_disk. rewrite Hap.
  destruct (sync_new_segment_spec (upd_disk d' w2) _ HL') as (d2 & Hsy & HL2). rewrite Hsy.
  destruct (finish_append_spec A w2 cl2 act2 r d2 now us Hi2 Hg) as (out & w3 & act3 & H3 & Hi3);
    [cbn; congruence|cbn; congruence|done|].
  change (upd_dir_synced (upd_disk d2 (upd_disk d' w2))) with (upd_dir_synced (upd_disk d2 w2)).
  rewrite H3. exists (Ok out), w3, cl2, act3. split_and!; eauto.
Qed.

(** ** Crash, recovery and reopening *)

Lemma max_ids_last (l : list (N * SimFile)) i f :
  om_sorted (l ++ [(i, f)]) →
  ∀ ids, (∀ x, x ∈ ids ↔ x ∈ (l ++ [(i, f)]).*1) →
  foldr (λ i m, Some (N.max i (default 0 m))) None ids = Some i.
Proof.
  intros [_ Hf]%om_sorted_snoc ids Hids.
  assert (∀ x, x ∈ ids → x <= i) as Hle.
  { intros x Hx%Hids. rewrite fmap_app, elem_of_app in Hx. cbn in Hx.
    rewrite list_elem_of_singleton in Hx. destruct Hx as [Hx| ->]; [|lia].
    apply list_elem_of_fmap in Hx as ([j g] & -> & Hin). rewrite Forall_forall in Hf.
    apply Hf in Hin. apply (proj1 (N.compare_lt_iff _ _)) in Hin. cbn in *. lia. }
  assert (i ∈ ids) as Hin.
  { apply Hids. rewrite fmap_app, elem_of_app. right. by left. }
  clear Hids Hf. induction ids as [|x ids IH]; [by apply not_elem_of_nil in Hin|].
  cbn [foldr]. f_equal. apply elem_of_cons in Hin as [->|Hin].
  - assert (default 0 (foldr (λ i m, Some (N.max i (default 0 m))) None ids) <= x) as Hm.
    { assert (∀ y, y ∈ ids → y <= x) as Hy by (intros; apply Hle; by right).
      clear -Hy. induction ids as [|y ids IH]; cbn; [lia|].
      assert (y <= x) by (apply Hy; by left). specialize (IH ltac:(intros; apply Hy; by right)). lia. }
    lia.
  - rewrite IH; [cbn|intros; apply Hle; by right|done]. assert (x <= i) by (apply Hle; by left). lia.
Qed.

(** [open_at] once the directory has been listed. *)
Lemma open_at_listed d entries l s :
  list_dir (str "wal") d = (Ok entries, d) →
  open_at config l s d =
    (let i := default 1 (foldr (λ i m, Some (N.max i (default 0 m))) None
                (omap parse_segment_id (de_path <$> entries))) in
     match (file_len (wal_path i) d).1 with
     | Ok len => Ok (mkWriter d config i (wal_path i) len true l s (batch_new (wal_batch config)))
     | Err NotFound => Ok (mkWriter d config i (wal_path i) 0 false l s (batch_new (wal_batch config)))
     | Err e => Err e
     end).
Proof.
  intros Hent. unfold open_at. rewrite path_new_wal. unfold mbind, result_bind. rewrite Hent.
  cbv beta iota zeta delta [fst]. rewrite segment_path_eq. reflexivity.
Qed.

Lemma open_at_spec d closed i rs l s :
  layout d ((closed_seg <$> closed) ++ [(i, synced_file rs)]) →
  open_at config l s d =
    Ok (mkWriter d config i (wal_path i) (lenN (enc_all rs)) true l s (batch_new (wal_batch config))).
Proof.
  intros HL. destruct (layout_list _ _ HL) as [entries Hent]. rewrite (open_at_listed d entries) by done.
  pose proof (layout_segments _ _ _ HL Hent) as Hseg.
  rewrite (max_ids_last (closed_seg <$> closed) i (synced_file rs)); [|apply HL|].
  - cbn [from_option id]. cbv zeta. unfold file_len.
    destruct (ly_file _ _ HL i (synced_file rs)) as [_ Hf].
    { apply om_get_elem; [apply HL|]. apply elem_of_app. right. by left. }
    rewrite Hf. done.
  - intros x. trans (x ∈ (wal_segments entries).*1).
    + unfold wal_segments. rewrite list_elem_of_omap, list_elem_of_fmap. split.
      * intros (p & Hp & Hx). apply list_elem_of_fmap in Hp as (e & -> & He).
        exists (x, de_path e). split; [done|]. apply elem_sort_by_id, list_elem_of_omap.
        exists e. split; [done|]. by rewrite Hx.
      * intros ([j p] & -> & Hj). rewrite elem_sort_by_id in Hj.
        apply list_elem_of_omap in Hj as (e & He & Hj).
        exists (de_path e). split; [by apply list_elem_of_fmap_2|].
        destruct (parse_segment_id (de_path e)) as [k|]; cbn in Hj; [|done].
        by injection Hj as -> _.
    + rewrite Hseg, <-list_fmap_compose. done.
Qed.
(** The counters [Engine::open] derives from the recovery report. *)
Definition next_lsn_of (rep : WalRecoveryReport) : N :=
  match last_lsn rep with Some l => l + 1 | None => 1 end.
Definition next_sequence_of (rep : WalRecoveryReport) : N :=
  match last (records rep) with Some r => sequence (rr_record r) + 1 | None => 1 end.

(** What a reopened writer promises: everything acknowledged was recovered. *)
Definition reopened (A : list WalRecord) (d' : SimState) : Prop :=
  ∃ rep d2 w', recover_wal config d' = (Ok rep, d2) ∧
    open_at config (next_lsn_of rep) (next_sequence_of rep) d2 = Ok w' ∧
    (∀ r, r ∈ A → r ∈ rr_record <$> records rep) ∧
    Forall (good mx) (rr_record <$> records rep) ∧ chain None (rr_record <$> records rep) ∧
    rising (rr_record <$> records rep) ∧ ∃ closed act, winv A w' closed act.

Lemma chain_end_next recs rep :
  rep_ok rep recs → match chain_end None recs with Some n => next_lsn_of rep = n | None => True end.
Proof.
  intros [_ El]. unfold chain_end, next_lsn_of. rewrite El. by destruct (last recs).
Qed.

Lemma reopen_active A d d' closed i s u :
  layout d (mk_segs closed (Some (i, s, u))) →
  Forall (good mx) (closed_recs closed ++ s ++ u) → chain None (closed_recs closed ++ s ++ u) →
  rising (closed_recs closed ++ s ++ u) →
  (∀ r, r ∈ A → r ∈ closed_recs closed ++ s) → crash_to d d' → reopened A d'.
Proof.
  intros HL Hg Hch Hri Hak Hcr. destruct (crash_layout _ _ _ HL Hcr) as [HL' Hsv].
  unfold mk_segs in *. cbn [active_seg] in *. rewrite fmap_app in HL'.
  apply Forall_app in Hsv as [Hsv1 Hsv2]. rewrite survivor_closed in HL' by done.
  rewrite Forall_singleton in Hsv2. cbn [fmap list_fmap] in HL'.
  destruct (survivor d' (i, _)) as [j [v vs]] eqn:Ej.
  assert (j = i) as -> by (unfold survivor in Ej; cbn in Ej; congruence).
  destruct Hsv2 as (Hv1 & Hv2 & Evs). cbn in Hv1, Hv2, Evs. subst vs.
  rewrite app_assoc in Hg, Hch, Hri.
  assert (Forall (good mx) (s ++ u)) as Hgsu.
  { rewrite <-app_assoc in Hg. by apply Forall_app in Hg as [_ ?]. }
  destruct (prefix_between_enc mx s u v Hgsu Hv1 Hv2) as (u1 & u2 & tail & -> & -> & Ht).
  rewrite app_assoc in Hg, Hch, Hri. apply Forall_app in Hg as [Hg _]. apply chain_app in Hch as [Hch _].
  apply rising_prefix in Hri. rewrite <-app_assoc in Hg, Hch, Hri.
  destruct (recover_wal_spec mx config d' closed i (s ++ u1) tail) as (rep & d2 & Hrec & Hrep & HL2); auto.
  eexists rep, d2, _. split; [done|]. split; [by eapply open_at_spec|].
  pose proof (chain_end_next _ _ Hrep) as Hnext. destruct Hrep as [Er _]. rewrite Er.
  assert (∀ r, r ∈ A → r ∈ closed_recs closed ++ s ++ u1) as Hsub.
  { intros r Hr%Hak. rewrite !elem_of_app in *. tauto. }
  split_and!; auto. exists closed, (Some (i, s ++ u1, [])).
  destruct (ly_file _ _ HL2 i (synced_file (s ++ u1))) as [Hib _].
  { apply om_get_elem; [apply HL2|]. apply elem_of_app. right. by left. }
  split; cbn; rewrite ?app_nil_r; auto.
  - unfold mk_segs. cbn. by rewrite app_nil_r.
  - intros r Hr. by apply not_elem_of_nil in Hr.
  - pose proof (rising_last _ Hri) as Hq. rewrite <-Er, fmap_last in Hq. unfold next_sequence_of.
    rewrite <-Er at 1. by destruct (last (records rep)).
Qed.

Lemma open_empty d l s :
  layout d [] →
  recover_wal config d = (Ok empty_report, d) ∧
  ∃ w, open_at config l s d = Ok w ∧ winv [] w [] None.
Proof.
  intros HL. destruct (layout_list _ _ HL) as [entries Hent].
  pose proof (layout_segments _ _ _ HL Hent) as Hseg.
  assert (omap parse_segment_id (de_path <$> entries) = []) as Hids.
  { apply elem_of_nil_inv. intros x (p & Hp & Hx)%list_elem_of_omap.
    apply list_elem_of_fmap in Hp as (e & -> & He).
    assert ((x, de_path e) ∈ wal_segments entries) as Hin.
    { apply elem_sort_by_id, list_elem_of_omap. exists e. split; [done|]. by rewrite Hx. }
    rewrite Hseg in Hin. by apply not_elem_of_nil in Hin. }
  split.
  { unfold recover_wal, mbind, stm_bind, lift. by rewrite path_new_wal, Hent, Hseg. }
  exists (mkWriter d config 1 (wal_path 1) 0 false l s (batch_new (wal_batch config))). split.
  - rewrite (open_at_listed d entries), Hids by done. cbn [foldr from_option id]. cbv zeta.
    unfold file_len. by rewrite (file_absent _ _ 1 HL).
  - split; cbn; auto; [constructor|]. split; constructor.
Qed.

Lemma reopen_empty A d' : layout d' [] → A = [] → reopened A d'.
Proof.
  intros HL ->. destruct (open_empty d' 1 1 HL) as [Hr (w & Ho & Hi)].
  exists empty_report, d', w. split_and!; eauto; try done. constructor.
Qed.

Lemma reopen_spec A w closed act d' :
  winv A w closed act → crash_to (w_disk w) d' → reopened (A ++ sent (batch w)) d'.
Proof.
  intros [Hc HL Hg Hch Hn Hp Hid Ha Hpe Hnw Hw Hak [Hri _]] Hcr. destruct act as [[[i s] u]|].
  - by eapply reopen_active.
  - cbn [act_recs act_synced] in *. rewrite app_nil_r in *.
    destruct closed as [|[i rs] closed _] using rev_ind.
    + apply reopen_empty.
      * by destruct (crash_layout _ _ _ HL Hcr) as [HL' _].
      * apply elem_of_nil_inv. intros r Hr%Hak. by apply not_elem_of_nil in Hr.
    + rewrite closed_recs_snoc in *. eapply (reopen_active _ _ d' closed i rs []); rewrite ?app_nil_r; eauto.
      unfold mk_segs in *. cbn [active_seg] in *. rewrite fmap_app, !app_nil_r in *. exact HL.
Qed.

(** ** The log as a system *)

(** The counter raised by the engine's clock. *)
Definition upd_sequence (seq : N) (w : WalWriterInner) : WalWriterInner :=
  mkWriter (w_disk w) (w_config w) (active_segment_id w) (active_path w) (active_len w)
    (active_dir_synced w) (next_lsn w) seq (batch w).

Record wal_sys := mkSys { sw : WalWriterInner; acked : list WalRecord }.

(** Every record acknowledged as durable so far: returned by [append] or answered
    through the batch. *)
Definition all_acked (s : wal_sys) : list WalRecord := acked s ++ sent (batch (sw s)).

(** Two disks with the same files under [wal/]. *)
Definition same_wal (d d2 : SimState) : Prop :=
  ∀ path, starts_with wal_prefix path = true → om_get path (files d2) = om_get path (files d).

(** Strict appends at any time and of any payload, sequence bumps, changes to the
    files of other components, and crashes followed by recovery and reopening.
    The counters stay below their 64-bit limits. *)
Inductive wal_step (s : wal_sys) : wal_sys → Prop :=
| step_append p now us res w' :
    payload_ok p → next_lsn (sw s) < 2 ^ 64 → w_next_sequence (sw s) < 2 ^ 64 →
    active_segment_id (sw s) + 1 < u64_lim →
    wal_append p Strict now us (sw s) = (res, w') →
    wal_step s (mkSys w' (acked s ++
      res_acked (new_record (next_lsn (sw s)) (w_next_sequence (sw s)) p) res))
| step_crash d' rep d2 w' :
    crash_to (w_disk (sw s)) d' → recover_wal config d' = (Ok rep, d2) →
    open_at config (next_lsn_of rep) (next_sequence_of rep) d2 = Ok w' →
    wal_step s (mkSys w' (all_acked s))
| step_bump seq :
    w_next_sequence (sw s) <= seq → wal_step s (mkSys (upd_sequence seq (sw s)) (acked s))
| step_other d2 :
    disk_ok d2 → same_wal (w_disk (sw s)) d2 → wal_step s (mkSys (upd_disk d2 (sw s)) (acked s)).

Lemma layout_same_wal d d2 segs : layout d segs → disk_ok d2 → same_wal d d2 → layout d2 segs.
Proof.
  intros [Hd Hs Hf Ho] Hd2 He. split; [done|done|..].
  - intros id f Hi. rewrite He by apply wal_path_prefix. by apply Hf.
  - intros path f Hp. rewrite He by done. by apply Ho.
Qed.

Lemma wal_step_inv s s' :
  (∃ closed act, winv (acked s) (sw s) closed act) → wal_step s s' →
  ∃ closed act, winv (acked s') (sw s') closed act.
Proof.
  intros (closed & act & Hi) [p now us res w' Hp Hl Hs Hid Ha|d' rep d2 w' Hcr Hrec Hop|seq Hle|d2 Hd2 He].
  - destruct (wal_append_spec _ _ _ _ p now us Hi Hp Hl Hs Hid) as (res' & w2 & cl & ac & Ha' & Hi' & _).
    rewrite Ha in Ha'. injection Ha' as -> ->. eauto.
  - destruct (reopen_spec _ _ _ _ d' Hi Hcr) as (rep' & d3 & w2 & Hrec' & Hop' & _ & _ & _ & _ & Hex).
    rewrite Hrec in Hrec'. injection Hrec' as -> ->. rewrite Hop in Hop'. by injection Hop' as ->.
  - exists closed, act. destruct Hi as [Hc HL Hg Hch Hn Hp Hid Ha Hpe Hnw Hw Hak Hq]. split; auto.
    by eapply seqs_under_mono.
  - exists closed, act. destruct Hi as [Hc HL Hg Hch Hn Hp Hid Ha Hpe Hnw Hw Hak Hq]. split; auto.
    by eapply layout_same_wal.
Qed.

Lemma wal_reachable_inv d w s :
  layout d [] → open config d = Ok w → rtc wal_step (mkSys w []) s →
  ∃ closed act, winv (acked s) (sw s) closed act.
Proof.
  intros HL Ho Hs. destruct (open_empty d 1 1 HL) as [_ (w' & Ho' & Hi)].
  unfold open in Ho. rewrite Ho in Ho'. injection Ho' as ->.
  assert (∃ closed act, winv (acked (mkSys w' [])) (sw (mkSys w' [])) closed act) as H0 by eauto.
  clear Ho Hi HL. induction Hs; eauto using wal_step_inv.
Qed.

(** ** Properties *)

(** C2: durability of the write-ahead log.  Starting from an empty log and after
    any number of strict appends (batched or not, across segment rotations, while the counters
    fit their fields), changes to other files and crashes with recovery in between, whenever the
    machine crashes and whatever part of the unsynced bytes survives (file names always do),
    recovery succeeds, returns
    every record whose append was acknowledged, all returned records are well
    formed with consecutive LSNs and rising sequence numbers, and the log can be reopened. *)
Theorem wal_strict_durability (d : SimState) (w : WalWriterInner) (s : wal_sys) (d' : SimState) :
  layout d [] → open config d = Ok w → rtc wal_step (mkSys w []) s →
  crash_to (w_disk (sw s)) d' →
  ∃ rep d2 w', recover_wal config d' = (Ok rep, d2) ∧
    open_at config (next_lsn_of rep) (next_sequence_of rep) d2 = Ok w' ∧
    (∀ r, r ∈ all_acked s → r ∈ rr_record <$> records rep) ∧
    Forall record_ok (rr_record <$> records rep) ∧ chain None (rr_record <$> records rep) ∧
    rising (rr_record <$> records rep).
Proof.
  intros HL Ho Hs Hcr. destruct (wal_reachable_inv d w s HL Ho Hs) as (closed & act & Hi).
  destruct (reopen_spec _ _ _ _ d' Hi Hcr) as (rep & d2 & w' & H1 & H2 & H3 & H4 & H5 & H6 & _).
  exists rep, d2, w'. split_and!; auto.
  eapply Forall_impl; [exact H4|]. by intros r [? _ _].
Qed.

(** Availability of the log: in every state reachable by strict appends and
    crashes, an append whose record fits the configured maximum is accepted. *)
Theorem wal_append_accepts (d : SimState) (w : WalWriterInner) (s : wal_sys)
    (p : WalPayload) (now us : N) :
  layout d [] → open config d = Ok w → rtc wal_step (mkSys w []) s →
  payload_ok p → next_lsn (sw s) < 2 ^ 64 → w_next_sequence (sw s) < 2 ^ 64 →
  active_segment_id (sw s) + 1 < u64_lim →
  40 + payload_size p <= max_record_bytes config → max_record_bytes config < u32_lim →
  ∃ out w', wal_append p Strict now us (sw s) = (Ok out, w').
Proof.
  intros HL Ho Hs Hp Hl Hq Hid Hsz Hmx.
  destruct (wal_reachable_inv d w s HL Ho Hs) as (closed & act & Hi).
  destruct (wal_append_spec _ _ _ _ p now us Hi Hp Hl Hq Hid) as (res & w' & cl & ac & Ha & _ & Hok).
  destruct (Hok Hsz Hmx) as [out ->]. eauto.
Qed.
End Writer.

(** ** Witnesses *)

Definition demo_config : WalConfig := mkWalConfig 60 1000 (mkWalBatchConfig 2 0 0).

Definition demo_writer (cfg : WalConfig) (d : SimState) : WalWriterInner :=
  match open cfg d with
  | Ok w => w
  | Err _ => mkWriter d cfg 0 [] 0 false 0 0 (batch_new (wal_batch cfg))
  end.

Definition demo_step (s : wal_sys) (p : WalPayload) (mode : DurabilityMode) : wal_sys :=
  let r := new_record (next_lsn (sw s)) (w_next_sequence (sw s)) p in
  let '(res, w') := wal_append p mode 0 0 (sw s) in
  mkSys w' (acked s ++ match mode with Strict => res_acked r res | Relaxed => [] end).

Definition demo_start (cfg : WalConfig) (d : SimState) : wal_sys := mkSys (demo_writer cfg d) [].

Lemma demo_step_step cfg s p :
  payload_ok p → next_lsn (sw s) < 2 ^ 64 → w_next_sequence (sw s) < 2 ^ 64 →
  active_segment_id (sw s) + 1 < u64_lim → wal_step cfg s (demo_step s p Strict).
Proof.
  intros. unfold demo_step. destruct (wal_append p Strict 0 0 (sw s)) as [res w'] eqn:E.
  by eapply step_append.
Qed.

Lemma layout_new : layout SimDisk_new [].
Proof. by split; [split; [constructor|]|constructor|..]. Qed.

(** Three appends under a batch of two: the first two are acknowledged together,
    the third is still waiting when the machine crashes. *)
Definition demo_run : wal_sys :=
  demo_step (demo_step (demo_step (demo_start demo_config SimDisk_new)
    (Put [97] [1]) Strict) (Put [98] [2]) Strict) (Delete [97]) Strict.

Lemma demo_run_steps : rtc (wal_step demo_config) (demo_start demo_config SimDisk_new) demo_run.
Proof.
  unfold demo_run.
  do 3 (eapply rtc_r; [|apply demo_step_step;
    first [by vm_compute | split; by repeat constructor | by repeat constructor]]).
  apply rtc_refl.
Qed.

Lemma wal_strict_durability_witness :
  ∃ rep d2 w', recover_wal demo_config (crash (w_disk (sw demo_run))) = (Ok rep, d2) ∧
    open_at demo_config (next_lsn_of rep) (next_sequence_of rep) d2 = Ok w' ∧
    (∀ r, r ∈ all_acked demo_run → r ∈ rr_record <$> records rep) ∧
    Forall record_ok (rr_record <$> records rep) ∧ chain None (rr_record <$> records rep) ∧
    rising (rr_record <$> records rep).
Proof.
  apply (wal_strict_durability demo_config SimDisk_new (demo_writer demo_config SimDisk_new)
    demo_run (crash (w_disk (sw demo_run)))).
  - apply layout_new.
  - by vm_compute.
  - apply demo_run_steps.
  - apply crash_crash_to.
    + split; [|by vm_compute]. vm_compute. repeat constructor.
    + by vm_compute.
    + intros path f Hf. apply om_get_elem in Hf; [|vm_compute; repeat constructor].
      vm_compute in Hf. repeat (apply elem_of_cons in Hf as [[= -> ->]|Hf];
        [by eexists|]). by apply not_elem_of_nil in Hf.
Defined.

Lemma wal_append_accepts_witness :
  ∃ out w', wal_append (Put [99] [3; 4]) Strict 5 1 (sw demo_run) = (Ok out, w').
Proof.
  apply (wal_append_accepts demo_config SimDisk_new (demo_writer demo_config SimDisk_new) demo_run).
  - apply layout_new.
  - by vm_compute.
  - apply demo_run_steps.
  - split; by repeat constructor.
  - by vm_compute.
  - by vm_compute.
  - by vm_compute.
  - by vm_compute.
  - by vm_compute.
Defined.

(** * Runs of the log that lose acknowledged records: what happens to the durability of [WalDurability] when an fsync fails, when relaxed and strict appends are mixed across a rotation, and when trailing segments are left behind by recovery. Each is a closed run of the modelled code. *)

Definition unbatched (segment_max : N) : WalConfig :=
  mkWalConfig segment_max 1000 WalBatchConfig_default.

(** Recovery after the simulated crash, and the system it reopens. *)
Definition recover_after_crash (cfg : WalConfig) (s : wal_sys)
    : option (list WalRecord * wal_sys) :=
  match recover_wal cfg (crash (w_disk (sw s))) with
  | (Ok rep, d) =>
      match open_at cfg (next_lsn_of rep) (next_sequence_of rep) d with
      | Ok w => Some (rr_record <$> records rep, mkSys w (all_acked s))
      | Err _ => None
      end
  | (Err _, _) => None
  end.

(** ** A failed fsync *)

(** The third disk operation, the fsync of the first record, fails once. *)
Definition fsync_fault_disk : SimState :=
  mkSimState [] 0 (Some [mkFaultRule 2 FFsyncFailed]) false [] [].

Definition fsync_fault_run : wal_sys :=
  demo_step (demo_step (demo_start (unbatched 1000) fsync_fault_disk)
    (Put [97] [1]) Strict) (Put [98] [2]) Strict.

(** After a failed fsync the writer reuses the LSN of the record it has
    already appended; the next record is acknowledged, and recovery then keeps
    the failed record and cuts the acknowledged one off. *)
Theorem wal_fsync_failure_loses_ack :
  all_acked fsync_fault_run = [new_record 1 1 (Put [98] [2])] ∧
  fst <$> recover_after_crash (unbatched 1000) fsync_fault_run =
    Some [new_record 1 1 (Put [97] [1])].
Proof. split; by vm_compute. Qed.

(** ** Relaxed and strict appends across a rotation *)

Definition mixed_mode_run : wal_sys :=
  demo_step (demo_step (demo_step (demo_start (unbatched 110) SimDisk_new)
    (Put [97] [1]) Strict) (Put [98] [2]) Relaxed) (Put [99] [3]) Strict.

(** Rotation syncs only pending strict batches, so a relaxed record in the
    old segment can be lost while the strict record after it in the new segment
    is synced and acknowledged; recovery finds the gap and drops it. *)
Theorem wal_mixed_modes_lose_ack :
  all_acked mixed_mode_run = [new_record 1 1 (Put [97] [1]); new_record 3 3 (Put [99] [3])] ∧
  fst <$> recover_after_crash (unbatched 110) mixed_mode_run =
    Some [new_record 1 1 (Put [97] [1])].
Proof. split; by vm_compute. Qed.

(** ** Trailing segments *)

Definition trailing_run : wal_sys :=
  demo_step (demo_step mixed_mode_run (Put [100] [4]) Strict) (Put [101] [5]) Strict.

(** The reopened log after the first crash, with one more acknowledged append. *)
Definition trailing_second_life : option wal_sys :=
  (λ p, demo_step (mkSys (sw p.2) []) (Put [102] [6]) Strict) <$>
  recover_after_crash (unbatched 110) trailing_run.

(** Recovery ignores the segments after the one it stopped in but leaves
    them on disk, and the reopened writer appends to the highest of them; a
    record acknowledged by the recovered log, with no fault and in strict mode,
    is dropped by the next recovery. *)
Theorem wal_trailing_segments_lose_ack :
  all_acked <$> trailing_second_life = Some [new_record 2 2 (Put [102] [6])] ∧
  (λ s, fst <$> recover_after_crash (unbatched 110) s) <$> trailing_second_life =
    Some (Some [new_record 1 1 (Put [97] [1])]).
Proof. split; by vm_compute. Qed.
