(* ===== verification/InternalKey.v ===== *)
(** [kaya-lsm/src/internal_key.rs]: versioned keys, their in-memory order (user
    key ascending, commit timestamp descending) and the wire encoding with the
    inverted big-endian timestamp suffix. *)
From S2P Require Import Prelude Bytes Core OrdMap.

Open Scope N_scope.

Definition COMMIT_TS_LEN : nat := 8.

Record InternalKey := mkIK { user_key : bytes; commit_ts : N }.

#[export] Instance InternalKey_eq_dec : EqDecision InternalKey.
Proof. solve_decision. Defined.

(** [Ord for InternalKey]. *)
Definition ik_cmp (a b : InternalKey) : comparison :=
  match bcmp (user_key a) (user_key b) with
  | Eq => commit_ts b ?= commit_ts a
  | c => c
  end.

Definition encode_internal_key (uk : bytes) (ts : N) : bytes := uk ++ be_bytes 8 (u64_max - ts).

Definition user_key_of (ik : bytes) : bytes :=
  if (length ik <? COMMIT_TS_LEN)%nat then ik else take (length ik - COMMIT_TS_LEN) ik.

Definition commit_ts_of (ik : bytes) : N :=
  if (length ik <? COMMIT_TS_LEN)%nat then 0
  else u64_max - be_val (drop (length ik - COMMIT_TS_LEN) ik).

Definition matches_user_key (ik uk : bytes) : bool := bool_decide (user_key_of ik = uk).

(** ** The order *)

Lemma ik_cmp_eq a b : ik_cmp a b = Eq ↔ a = b.
Proof.
  destruct a as [ka ta], b as [kb tb]. unfold ik_cmp; cbn.
  destruct (bcmp ka kb) eqn:E.
  - apply bcmp_eq in E as ->. rewrite N.compare_eq_iff. split; [by intros ->|by intros [= ->]].
  - split; [done|]. intros [= -> ->]. by rewrite bcmp_refl in E.
  - split; [done|]. intros [= -> ->]. by rewrite bcmp_refl in E.
Qed.

Lemma ik_cmp_opp a b : ik_cmp b a = CompOpp (ik_cmp a b).
Proof.
  unfold ik_cmp. rewrite (bcmp_antisym (user_key a)).
  destruct (bcmp (user_key a) (user_key b)); cbn; [apply N.compare_antisym|done..].
Qed.

Lemma ik_cmp_lt a b :
  ik_cmp a b = Lt ↔
  bcmp (user_key a) (user_key b) = Lt ∨ (user_key a = user_key b ∧ commit_ts b < commit_ts a).
Proof.
  unfold ik_cmp. destruct (bcmp (user_key a) (user_key b)) eqn:E.
  - rewrite N.compare_lt_iff. apply bcmp_eq in E. split; [auto|]. by intros [?|[_ ?]].
  - split; auto.
  - split; [done|]. intros [?|[Ek _]]; [done|]. by rewrite Ek, bcmp_refl in E.
Qed.

Lemma ik_cmp_trans a b c : ik_cmp a b = Lt → ik_cmp b c = Lt → ik_cmp a c = Lt.
Proof.
  rewrite !ik_cmp_lt. intros [H1|[E1 H1]] [H2|[E2 H2]].
  - left. by eapply bcmp_trans_lt.
  - left. by rewrite <-E2.
  - left. by rewrite E1.
  - right. split; [congruence|lia].
Qed.

#[export, refine] Instance OrdKey_InternalKey : OrdKey InternalKey := {| kcmp := ik_cmp |}.
Proof.
  - apply ik_cmp_eq.
  - apply ik_cmp_opp.
  - apply ik_cmp_trans.
Defined.

(** ** The encoding *)

Lemma encode_ik_roundtrip uk ts :
  ts < u64_lim →
  user_key_of (encode_internal_key uk ts) = uk ∧ commit_ts_of (encode_internal_key uk ts) = ts.
Proof.
  intros Ht. unfold user_key_of, commit_ts_of, encode_internal_key, COMMIT_TS_LEN.
  rewrite length_app, length_be_bytes. rewrite (proj2 (Nat.ltb_ge _ _)) by lia.
  rewrite Nat.add_sub, take_app_length, drop_app_length. split; [done|].
  rewrite be_val_be_bytes; unfold u64_max, u64_lim in *; cbn; lia.
Qed.

(** Big-endian strings of one width compare as their values. *)
Lemma bcmp_le_bytes_rev n a b (x y : bytes) :
  a < 256 ^ N.of_nat n → b < 256 ^ N.of_nat n →
  bcmp (reverse (le_bytes n a) ++ x) (reverse (le_bytes n b) ++ y) =
  match a ?= b with Eq => bcmp x y | c => c end.
Proof.
  revert a b x y. induction n as [|n IH]; intros a b x y Ha Hb.
  - cbn in Ha, Hb. assert (a = 0) as -> by lia. assert (b = 0) as -> by lia. done.
  - rewrite Nat2N.inj_succ, N.pow_succ_r' in Ha, Hb. unfold le_bytes. fold le_bytes.
    rewrite !reverse_cons, <-!app_assoc.
    assert (a / 256 < 256 ^ N.of_nat n) by (apply N.Div0.div_lt_upper_bound; lia).
    assert (b / 256 < 256 ^ N.of_nat n) by (apply N.Div0.div_lt_upper_bound; lia).
    rewrite IH by done. cbn [app bcmp].
    pose proof (N.div_mod a 256 ltac:(done)). pose proof (N.div_mod b 256 ltac:(done)).
    pose proof (N.mod_lt a 256 ltac:(done)). pose proof (N.mod_lt b 256 ltac:(done)).
    generalize dependent (a / 256). generalize dependent (b / 256).
    generalize dependent (a mod 256). generalize dependent (b mod 256). intros rb Hrb ra Hra qb Hqb Eb qa Hqa Ea.
    destruct (N.compare_spec qa qb) as [E|E|E];
      destruct (N.compare_spec a b) as [E'|E'|E']; try done; try lia;
      destruct (N.compare_spec ra rb); try done; lia.
Qed.

(** The wire form decodes to the key and timestamp it encodes, and among
    versions of one user key the byte order of the encodings is newest first,
    as the in-memory order. *)
Theorem internal_key_encoding (uk : bytes) (ts ts' : N) :
  ts < u64_lim → ts' < u64_lim →
  user_key_of (encode_internal_key uk ts) = uk ∧
  commit_ts_of (encode_internal_key uk ts) = ts ∧
  bcmp (encode_internal_key uk ts) (encode_internal_key uk ts') =
    ik_cmp (mkIK uk ts) (mkIK uk ts').
Proof.
  intros Ht Ht'. destruct (encode_ik_roundtrip uk ts Ht). split_and!; [done..|].
  unfold encode_internal_key, ik_cmp, be_bytes. cbn. rewrite bcmp_app_l, bcmp_refl.
  rewrite <-(app_nil_r (reverse (le_bytes 8 (u64_max - ts)))),
    <-(app_nil_r (reverse (le_bytes 8 (u64_max - ts')))).
  unfold u64_lim in *. rewrite bcmp_le_bytes_rev by (unfold u64_max; cbn; lia).
  unfold u64_max. destruct (N.compare_spec (18446744073709551615 - ts) (18446744073709551615 - ts')),
    (N.compare_spec ts' ts); try done; lia.
Qed.

Lemma internal_key_encoding_witness :
  user_key_of (encode_internal_key [117] 5) = [117] ∧
  commit_ts_of (encode_internal_key [117] 5) = 5 ∧
  bcmp (encode_internal_key [117] 5) (encode_internal_key [117] 9) =
    ik_cmp (mkIK [117] 5) (mkIK [117] 9).
Proof. by apply (internal_key_encoding [117] 5 9). Defined.

(** Across user keys the byte order differs from the in-memory order when one
    key is a proper prefix of the other, as the module's documentation warns. *)
Example internal_key_bytes_not_ordered :
  bcmp (encode_internal_key [117] 0) (encode_internal_key [117; 58] 0) = Gt ∧
  ik_cmp (mkIK [117] 0) (mkIK [117; 58] 0) = Lt.
Proof. split; by vm_compute. Qed.
