(* ===== verification/Memtable.v ===== *)
(** [kaya-lsm/src/lib.rs]: the multi-version memtable, with point reads at a
    timestamp, prefix scans and size accounting, and its replay from the
    recovered log ([apply_payload] of [kaya-engine/src/recovery.rs]). *)
From S2P Require Import Prelude Bytes Core OrdMap WalCodec InternalKey.

Open Scope N_scope.

Inductive ValueRecord : Type :=
| VPut (value : bytes) (seq : N)
| VDelete (seq : N).

Definition vr_sequence (r : ValueRecord) : N := match r with VPut _ s | VDelete s => s end.

Record Memtable := mkMemtable {
  entries : list (InternalKey * ValueRecord);
  approximate_bytes : N
}.

Definition Memtable_new : Memtable := mkMemtable [] 0.

(** [Memtable::entry_size]. *)
Definition entry_size (e : InternalKey * ValueRecord) : N :=
  lenN (user_key e.1) + 8 + match e.2 with VPut v _ => lenN v | VDelete _ => 0 end.

(** The common body of [put] and [delete]. *)
Definition mt_write (ik : InternalKey) (r : ValueRecord) (m : Memtable) : Memtable :=
  let old_size := match om_get ik (entries m) with Some o => entry_size (ik, o) | None => 0 end in
  let new_size := entry_size (ik, r) in
  mkMemtable (om_insert ik r (entries m)) (approximate_bytes m - old_size + new_size).

Definition mt_put (key value : bytes) (seq : N) (m : Memtable) : Memtable :=
  mt_write (mkIK key seq) (VPut value seq) m.

Definition mt_delete (key : bytes) (seq : N) (m : Memtable) : Memtable :=
  mt_write (mkIK key seq) (VDelete seq) m.

Definition get_at (key : bytes) (read_ts : N) (m : Memtable) : option ValueRecord :=
  match om_from (mkIK key read_ts) (entries m) with
  | (ik, r) :: _ => if bool_decide (user_key ik = key) then Some r else None
  | [] => None
  end.

Definition mt_get (key : bytes) (m : Memtable) : option ValueRecord := get_at key u64_max m.

Definition iter_prefix (prefix : bytes) (es : list (InternalKey * ValueRecord)) :=
  match prefix with [] => es | _ => om_from (mkIK prefix u64_max) es end.

(** The test that ends the prefix loops. *)
Definition past_prefix (prefix uk : bytes) : bool :=
  negb (bool_decide (prefix = [])) && negb (starts_with prefix uk).

(** The loop of [scan_prefix_at]; [cur] and [selected] are its local state. *)
Fixpoint scan_loop (prefix : bytes) (read_ts : N) (cur : option bytes) (selected : bool)
    (es : list (InternalKey * ValueRecord)) : list (bytes * bytes) :=
  match es with
  | [] => []
  | (ik, r) :: es =>
      let uk := user_key ik in
      if past_prefix prefix uk then []
      else
        let is_new_user := bool_decide (cur ≠ Some uk) in
        let selected := if is_new_user then false else selected in
        if selected then scan_loop prefix read_ts (Some uk) true es
        else if read_ts <? commit_ts ik then scan_loop prefix read_ts (Some uk) false es
        else match r with
             | VPut v _ => (uk, v) :: scan_loop prefix read_ts (Some uk) true es
             | VDelete _ => scan_loop prefix read_ts (Some uk) true es
             end
  end.

Definition scan_prefix_at (prefix : bytes) (read_ts : N) (m : Memtable) : list (bytes * bytes) :=
  scan_loop prefix read_ts None false (iter_prefix prefix (entries m)).

Definition mt_scan_prefix (prefix : bytes) (m : Memtable) : list (bytes * bytes) :=
  scan_prefix_at prefix u64_max m.

Fixpoint raw_loop (prefix : bytes) (es : list (InternalKey * ValueRecord))
    : list (bytes * option bytes * N) :=
  match es with
  | [] => []
  | (ik, r) :: es =>
      if past_prefix prefix (user_key ik) then []
      else match r with
           | VPut v s => (user_key ik, Some v, s)
           | VDelete s => (user_key ik, None, s)
           end :: raw_loop prefix es
  end.

Definition raw_scan_prefix (prefix : bytes) (m : Memtable) : list (bytes * option bytes * N) :=
  raw_loop prefix (iter_prefix prefix (entries m)).

(** The loop of [iter_latest_user]. *)
Fixpoint latest_loop (last_uk : option bytes) (es : list (InternalKey * ValueRecord))
    : list (bytes * ValueRecord) :=
  match es with
  | [] => []
  | (ik, r) :: es =>
      if bool_decide (last_uk = Some (user_key ik)) then latest_loop last_uk es
      else (user_key ik, r) :: latest_loop (Some (user_key ik)) es
  end.

Definition iter_latest_user (m : Memtable) : list (bytes * ValueRecord) :=
  latest_loop None (entries m).

Definition mt_len (m : Memtable) : N := lenN (entries m).
Definition mt_is_empty (m : Memtable) : bool := bool_decide (entries m = []).

(** ** Replay of the recovered log *)

Definition apply_payload (p : WalPayload) (seq : N) (m : Memtable) : Memtable :=
  match p with
  | Put key value => mt_put key value seq m
  | Delete key => mt_delete key seq m
  | Noop => m
  end.

(** The replay loop of [Engine::open]. *)
Definition replay (rs : list WalRecord) (m : Memtable) : Memtable :=
  foldl (λ m r, apply_payload (payload r) (sequence r) m) m rs.

(** ** The invariant *)

Record mt_ok (m : Memtable) : Prop := {
  mo_sorted : om_sorted (entries m);
  mo_seq : ∀ ik r, (ik, r) ∈ entries m → vr_sequence r = commit_ts ik;
  mo_bytes : approximate_bytes m = foldr N.add 0 (entry_size <$> entries m)
}.

Lemma mt_new_ok : mt_ok Memtable_new.
Proof. split; [constructor| |done]. intros ik r H. by apply not_elem_of_nil in H. Qed.

Lemma om_insert_elem {K V} `{OrdKey K} k v (m : list (K * V)) x :
  om_sorted m → x ∈ om_insert k v m → x = (k, v) ∨ x ∈ m.
Proof.
  intros Hs Hx. destruct x as [k1 v1]. apply om_get_elem in Hx; [|by apply om_insert_sorted].
  rewrite om_get_insert in Hx by done. destruct (kcmp k1 k) eqn:E.
  - apply kcmp_eq in E as ->. injection Hx as ->. by left.
  - right. by apply om_get_elem.
  - right. by apply om_get_elem.
Qed.

Lemma entry_size_le_sum (es : list (InternalKey * ValueRecord)) ik r :
  om_get ik es = Some r → entry_size (ik, r) <= foldr N.add 0 (entry_size <$> es).
Proof.
  induction es as [|[k' r'] es IH]; cbn [om_get]; [done|].
  destruct (kcmp ik k') eqn:E; intros Hg; [|done|].
  - apply kcmp_eq in E as ->. injection Hg as ->. cbn. lia.
  - apply IH in Hg. cbn. lia.
Qed.

Lemma mt_write_ok ik r m : mt_ok m → vr_sequence r = commit_ts ik → mt_ok (mt_write ik r m).
Proof.
  intros [Hs Hq Hb] Hr. unfold mt_write. split; cbn.
  - by apply om_insert_sorted.
  - intros k x [[= -> ->]|Hin]%om_insert_elem; auto.
  - pose proof (om_insert_sum entry_size ik r (entries m) Hs) as E. rewrite Hb.
    destruct (om_get ik (entries m)) as [o|] eqn:Eo; cbn in E; [|lia].
    pose proof (entry_size_le_sum _ _ _ Eo). lia.
Qed.

Lemma apply_payload_ok p s m : mt_ok m → mt_ok (apply_payload p s m).
Proof. intros. destruct p; cbn; [by apply mt_write_ok..|done]. Qed.

Lemma replay_ok rs m : mt_ok m → mt_ok (replay rs m).
Proof. revert m. induction rs; intros m Hm; [done|]. by apply IHrs, apply_payload_ok. Qed.

(** ** Point reads *)

(** [r] is the version of [k] at [ts], the newest not after [t]. *)
Definition is_newest (es : list (InternalKey * ValueRecord)) (k : bytes) (t ts : N)
    (r : ValueRecord) : Prop :=
  om_get (mkIK k ts) es = Some r ∧ ts <= t ∧
  ∀ ts' r', om_get (mkIK k ts') es = Some r' → ts' <= t → ts' <= ts.

Lemma seek_ge k t ik : ik_cmp ik (mkIK k t) ≠ Lt ↔
  bcmp k (user_key ik) = Lt ∨ (user_key ik = k ∧ commit_ts ik <= t).
Proof.
  destruct ik as [uk ts]. unfold ik_cmp. cbn. rewrite (bcmp_antisym k uk).
  destruct (bcmp k uk) eqn:E; cbn.
  - apply bcmp_eq in E as ->. rewrite N.compare_lt_iff. split; [right; split; [done|lia]|].
    intros [?|[_ ?]]; [done|lia].
  - split; [by left|done].
  - split; [done|]. intros [?|[-> _]]; [done|]. by rewrite bcmp_refl in E.
Qed.

Lemma from_elem (es : list (InternalKey * ValueRecord)) k t ts r :
  om_sorted es → om_get (mkIK k ts) es = Some r → ts <= t →
  (mkIK k ts, r) ∈ om_from (mkIK k t) es.
Proof.
  intros Hs Hg Ht. apply om_from_elem; [done|]. split; [by apply om_get_elem|].
  apply seek_ge. by right.
Qed.

(** The first entry of the range: it is the newest visible version of [k], or
    [k] has none. *)
Lemma from_head (es : list (InternalKey * ValueRecord)) k t uk ts r rest :
  om_sorted es → om_from (mkIK k t) es = (mkIK uk ts, r) :: rest →
  om_get (mkIK uk ts) es = Some r ∧ (bcmp k uk = Lt ∨ uk = k ∧ ts <= t) ∧
  ∀ ts' r', om_get (mkIK k ts') es = Some r' → ts' <= t →
    uk = k ∧ (ts' = ts ∧ r' = r ∨ ts' < ts).
Proof.
  intros Hs Ef. pose proof (om_from_sorted (mkIK k t) es Hs) as Hfs.
  pose proof (om_from_elem (mkIK k t) es (mkIK uk ts, r) Hs) as Hel.
  rewrite Ef in Hel, Hfs. destruct (proj1 Hel ltac:(by left)) as [Hin Hge].
  apply om_get_elem in Hin; [|done]. apply seek_ge in Hge. cbn in Hge.
  apply om_sorted_cons in Hfs as [_ Hmin]. rewrite Forall_forall in Hmin.
  split_and!; [done..|]. intros ts' r' Hg Ht.
  pose proof (from_elem es k t ts' r' Hs Hg Ht) as Hv. rewrite Ef in Hv.
  apply elem_of_cons in Hv as [[= -> -> ->]|Hr]; [by auto|].
  apply Hmin in Hr. apply ik_cmp_lt in Hr as [Hl|[Ek ?]]; cbn in *; [|by subst; auto].
  exfalso. destruct Hge as [Hge|[-> _]]; [|by rewrite bcmp_refl in Hl].
  pose proof (bcmp_trans_lt _ _ _ Hl Hge) as Hx. by rewrite bcmp_refl in Hx.
Qed.

Lemma get_at_Some m k t r :
  om_sorted (entries m) → get_at k t m = Some r ↔ ∃ ts, is_newest (entries m) k t ts r.
Proof.
  intros Hs. unfold get_at, is_newest.
  destruct (om_from (mkIK k t) (entries m)) as [|[[uk ts] r0] rest] eqn:Ef.
  - split; [done|]. intros (ts & Hg & Ht & _). apply (from_elem _ _ t) in Hg; [|done..].
    rewrite Ef in Hg. by apply not_elem_of_nil in Hg.
  - destruct (from_head _ _ _ _ _ _ _ Hs Ef) as (Hg0 & Hge & Hh). case_bool_decide as Huk; cbn in Huk.
    + subst uk. destruct Hge as [Hge|[_ Hge]]; [by rewrite bcmp_refl in Hge|]. split.
      * intros [= <-]. exists ts. split_and!; [done..|]. intros ts' r' Hg Ht.
        destruct (Hh ts' r' Hg Ht) as [_ [[-> _]|?]]; lia.
      * intros (ts1 & Hg & Ht & Hn). destruct (Hh ts1 r Hg Ht) as [_ [[_ ->]|?]]; [done|].
        specialize (Hn ts r0 Hg0 Hge). lia.
    + split; [done|]. intros (ts1 & Hg & Ht & _). by destruct (Hh ts1 r Hg Ht).
Qed.

Lemma get_at_exists m k t ts r :
  om_sorted (entries m) → om_get (mkIK k ts) (entries m) = Some r → ts <= t →
  is_Some (get_at k t m).
Proof.
  intros Hs Hg Ht. unfold get_at. pose proof (from_elem _ _ t _ _ Hs Hg Ht) as Hv.
  destruct (om_from (mkIK k t) (entries m)) as [|[[uk ts0] r0] rest] eqn:Ef; [by apply not_elem_of_nil in Hv|].
  destruct (from_head _ _ _ _ _ _ _ Hs Ef) as (_ & _ & Hh). destruct (Hh ts r Hg Ht) as [-> _].
  rewrite bool_decide_eq_true_2 by done. by eexists.
Qed.

Lemma get_at_None m k t :
  om_sorted (entries m) →
  get_at k t m = None ↔ ∀ ts, ts <= t → om_get (mkIK k ts) (entries m) = None.
Proof.
  intros Hs. split.
  - intros Hn ts Ht. destruct (om_get (mkIK k ts) (entries m)) as [r|] eqn:E; [|done].
    destruct (get_at_exists m k t ts r Hs E Ht) as [r' Hr']. congruence.
  - intros Hall. destruct (get_at k t m) as [r|] eqn:E; [|done].
    apply get_at_Some in E as (ts & Hg & Ht & _); [|done]. by rewrite Hall in Hg.
Qed.

(** *** Reading after a write *)

Lemma is_newest_ext es es' k t ts r :
  (∀ ts, ts <= t → om_get (mkIK k ts) es = om_get (mkIK k ts) es') →
  is_newest es k t ts r → is_newest es' k t ts r.
Proof.
  intros He (Hg & Ht & Hn). split_and!; [by rewrite <-He|done|].
  intros ts' r' Hg' Ht'. eapply Hn; [|done]. by rewrite He.
Qed.

Lemma get_at_ext k t m m' :
  om_sorted (entries m) → om_sorted (entries m') →
  (∀ ts, ts <= t → om_get (mkIK k ts) (entries m) = om_get (mkIK k ts) (entries m')) →
  get_at k t m = get_at k t m'.
Proof.
  intros Hs Hs' He. apply option_eq. intros x. rewrite !get_at_Some by done.
  split; intros (ts & Hx); exists ts; (eapply is_newest_ext; [|exact Hx]); intros; symmetry; auto.
  symmetry. auto.
Qed.

Lemma get_at_write_other k t ik r m :
  om_sorted (entries m) → (user_key ik ≠ k ∨ t < commit_ts ik) →
  get_at k t (mt_write ik r m) = get_at k t m.
Proof.
  intros Hs Hne. apply get_at_ext; [by apply om_insert_sorted|done|].
  intros ts Ht. cbn. apply om_get_insert_ne; [done|]. intros ->. cbn in Hne. destruct Hne; [done|lia].
Qed.

(** The new version hides the older ones, and is hidden by newer ones. *)
Lemma get_at_write_same k t s r m :
  mt_ok m → s <= t →
  get_at k t (mt_write (mkIK k s) r m) =
    match get_at k t m with
    | Some old => if s <? vr_sequence old then Some old else Some r
    | None => Some r
    end.
Proof.
  intros [Hs Hq _] Hst. set (m' := mt_write _ _ _).
  assert (om_sorted (entries m')) as Hs' by (by apply om_insert_sorted).
  assert (om_get (mkIK k s) (entries m') = Some r) as Hnew by apply om_get_insert_eq.
  assert (∀ ts, ts ≠ s → om_get (mkIK k ts) (entries m') = om_get (mkIK k ts) (entries m)) as Hold.
  { intros ts Hne. apply om_get_insert_ne; [done|]. by intros [= ->]. }
  destruct (get_at k t m) as [old|] eqn:E.
  - apply get_at_Some in E as (ts & Hg & Ht & Hn); [|done].
    assert (vr_sequence old = ts) as -> by (apply (Hq (mkIK k ts)); by apply om_get_elem).
    destruct (N.ltb_spec s ts) as [Hlt|Hge]; apply get_at_Some; auto.
    + exists ts. split_and!; [rewrite Hold; [done|lia]|done|]. intros ts' r' Hg' Ht'.
      destruct (decide (ts' = s)) as [->|Hne]; [lia|]. rewrite Hold in Hg' by done. by eapply Hn.
    + exists s. split_and!; [done..|]. intros ts' r' Hg' Ht'.
      destruct (decide (ts' = s)) as [->|Hne]; [lia|]. rewrite Hold in Hg' by done.
      specialize (Hn ts' r' Hg' Ht'). lia.
  - pose proof (proj1 (get_at_None m k t Hs) E) as Hno. apply get_at_Some; [done|].
    exists s. split_and!; [done..|]. intros ts' r' Hg' Ht'.
    destruct (decide (ts' = s)) as [->|Hne]; [lia|]. by rewrite Hold, Hno in Hg'.
Qed.

(** ** Prefix scans *)

Definition sees (k : bytes) (t : N) (ik : InternalKey) : bool :=
  bool_decide (user_key ik = k) && (commit_ts ik <=? t).

Lemma is_newest_cons ik r0 es k t ts r :
  om_sorted ((ik, r0) :: es) →
  is_newest ((ik, r0) :: es) k t ts r ↔
  if sees k t ik then ts = commit_ts ik ∧ r = r0 else is_newest es k t ts r.
Proof.
  intros Hs. pose proof Hs as [Hes Hf]%om_sorted_cons. unfold is_newest, sees.
  assert (∀ ts' r', om_get (mkIK k ts') es = Some r' → user_key ik = k → ts' < commit_ts ik) as Hlater.
  { intros ts' r' Hg Hu. apply om_get_elem in Hg; [|done]. rewrite Forall_forall in Hf.
    apply Hf, ik_cmp_lt in Hg as [Hl|[_ ?]]; cbn in *; [|done]. by rewrite Hu, bcmp_refl in Hl. }
  destruct ik as [uk ts0]; cbn [user_key commit_ts] in *. case_bool_decide as Hu; cbn [andb].
  - subst uk. destruct (N.leb_spec ts0 t) as [Hle|Hgt].
    + split.
      * intros (Hg & Ht & Hn). destruct (decide (ts = ts0)) as [->|Hne].
        -- by rewrite om_get_cons_eq in Hg; injection Hg as ->.
        -- rewrite om_get_cons_ne in Hg by (done || congruence). apply Hlater in Hg; [|done].
           specialize (Hn ts0 r0 (om_get_cons_eq _ _ _) Hle). lia.
      * intros [-> ->]. split_and!; [apply om_get_cons_eq|done|]. intros ts' r' Hg Ht.
        destruct (decide (ts' = ts0)) as [->|Hne]; [lia|].
        rewrite om_get_cons_ne in Hg by (done || congruence). apply Hlater in Hg; [lia|done].
    + assert (∀ ts', ts' <= t → om_get (mkIK k ts') ((mkIK k ts0, r0) :: es) = om_get (mkIK k ts') es) as He.
      { intros ts' Ht. apply om_get_cons_ne; [done|]. intros [= ->]. lia. }
      split; intros Hx; (eapply is_newest_ext; [|exact Hx]); intros; [|symmetry]; auto.
  - assert (∀ ts', ts' <= t → om_get (mkIK k ts') ((mkIK uk ts0, r0) :: es) = om_get (mkIK k ts') es) as He.
    { intros ts' Ht. apply om_get_cons_ne; [done|]. by intros [= -> ->]. }
    split; intros Hx; (eapply is_newest_ext; [|exact Hx]); intros; [|symmetry]; auto.
Qed.

Section ScanLoop.
  Context (prefix : bytes) (t : N).

Lemma past_prefix_spec uk : past_prefix prefix uk = negb (starts_with prefix uk).
Proof. unfold past_prefix. case_bool_decide as H; [subst; done|done]. Qed.

Lemma is_newest_key es k ts r :
  om_sorted es → is_newest es k t ts r → ∃ ik r', (ik, r') ∈ es ∧ user_key ik = k.
Proof. intros Hs (Hg & _). apply om_get_elem in Hg; [|done]. by eexists _, _. Qed.

(** Everything left to scan is at or after the current user key. *)
Definition cur_ok (cur : option bytes) (es : list (InternalKey * ValueRecord)) : Prop :=
  ∀ c, cur = Some c → ∀ ik r, (ik, r) ∈ es → bcmp c (user_key ik) ≠ Gt.

Lemma sorted_cur_ok ik r es : om_sorted ((ik, r) :: es) → cur_ok (Some (user_key ik)) es.
Proof.
  intros [_ Hf]%om_sorted_cons c [= <-] ik' r' Hin. rewrite Forall_forall in Hf.
  apply Hf, ik_cmp_lt in Hin as [Hl|[Ek _]]; cbn in *; [by rewrite Hl|by rewrite Ek, bcmp_refl].
Qed.

(** A key that was selected and passed has no version left. *)
Lemma passed_no_version cur ik r es k ts x :
  om_sorted ((ik, r) :: es) → cur_ok cur ((ik, r) :: es) → cur = Some k → user_key ik ≠ k →
  ¬ is_newest es k t ts x.
Proof.
  intros Hs Hc -> Hne Hn. pose proof Hs as [Hes _]%om_sorted_cons.
  destruct (is_newest_key _ _ _ _ Hes Hn) as (ik' & r' & Hin & Ek).
  pose proof (Hc k eq_refl ik r ltac:(by left)) as H1.
  pose proof (sorted_cur_ok _ _ _ Hs _ eq_refl ik' r' Hin) as H2. rewrite Ek, bcmp_antisym in H2.
  destruct (bcmp k (user_key ik)) eqn:E; [by apply bcmp_eq in E|done|done].
Qed.

Lemma scan_loop_spec es : ∀ cur selected,
  om_sorted es → (∀ ik r, (ik, r) ∈ es → bcmp prefix (user_key ik) ≠ Gt) → cur_ok cur es →
  ∀ k v, (k, v) ∈ scan_loop prefix t cur selected es ↔
    starts_with prefix k = true ∧ (∃ ts s, is_newest es k t ts (VPut v s)) ∧
    ¬ (cur = Some k ∧ selected = true).
Proof.
  induction es as [|[ik r] es IH]; intros cur selected Hs Hp Hc k v.
  - cbn. split; [intros Hx; by apply not_elem_of_nil in Hx|]. intros (_ & (ts & s & Hg & _) & _). done.
  - pose proof Hs as [Hes _]%om_sorted_cons. pose proof (sorted_cur_ok _ _ _ Hs) as Hc'.
    assert (∀ ik r, (ik, r) ∈ es → bcmp prefix (user_key ik) ≠ Gt) as Hp'
      by (intros ik' r' Hin; apply (Hp ik' r'); by right).
    pose proof (λ sel, IH (Some (user_key ik)) sel Hes Hp' Hc' k v) as IH'. clear IH.
    cbn [scan_loop]. rewrite past_prefix_spec.
    destruct (starts_with prefix (user_key ik)) eqn:Epre; cbn [negb].
    2: { split; [intros Hx; by apply not_elem_of_nil in Hx|]. intros (Hk & (ts & s & Hn) & _). exfalso.
         destruct (is_newest_key _ _ _ _ Hs Hn) as (ik' & r' & Hin & <-).
         assert (starts_with prefix (user_key ik) = true) as Hcc; [|congruence].
         apply (starts_with_between _ _ (user_key ik')); [apply (Hp ik r); by left| |done].
         apply elem_of_cons in Hin as [[= -> ->]|Hin]; [by rewrite bcmp_refl|]. by eapply Hc'. }
    pose proof (λ ts x, is_newest_cons ik r es k t ts x Hs) as Hcons.
    pose proof (λ ts x, passed_no_version cur ik r es k ts x Hs Hc) as Hpass.
    set (sel := if bool_decide (cur ≠ Some (user_key ik)) then false else selected).
    assert (sel = true ↔ cur = Some (user_key ik) ∧ selected = true) as Hsel.
    { unfold sel. case_bool_decide as Hcur; [|tauto]. split; [done|]. by intros [? _]. }
    clearbody sel. unfold sees in Hcons. destruct (decide (user_key ik = k)) as [Ek|Hne].
    + rewrite bool_decide_eq_true_2 in Hcons by done. cbn [andb] in Hcons. rewrite Ek in *.
      assert (¬ (Some k = Some k ∧ true = true) ↔ False) as Hself by tauto. rewrite <-Hsel.
      destruct sel; [|destruct (N.leb_spec (commit_ts ik) t) as [Hts|Hts]].
      * rewrite IH'. tauto.
      * rewrite (proj2 (N.ltb_ge _ _)) by done. setoid_rewrite Hcons.
        destruct r as [v0 s0|s0]; rewrite ?elem_of_cons, IH', Hself.
        -- split; [intros [[= ->]|?]; [split_and!; eauto|tauto]|].
           intros (_ & (ts & s & _ & [= -> _]) & _). by left.
        -- split; [tauto|]. by intros (_ & (ts & s & _ & ?) & _).
      * rewrite (proj2 (N.ltb_lt _ _)) by done. rewrite IH'. setoid_rewrite Hcons. intuition congruence.
    + rewrite bool_decide_eq_false_2 in Hcons by done. cbn [andb] in Hcons. setoid_rewrite Hcons.
      assert (∀ sel', (k, v) ∈ scan_loop prefix t (Some (user_key ik)) sel' es ↔
                starts_with prefix k = true ∧ (∃ ts s, is_newest es k t ts (VPut v s)) ∧
                ¬ (cur = Some k ∧ selected = true)) as Hall.
      { intros sel'. rewrite IH'. split; intros (? & (ts & s & Hn) & _); split_and!; eauto.
        - intros [-> _]. by eapply Hpass.
        - intros [[= ?] _]. done. }
      destruct sel; [apply Hall|]. destruct (t <? commit_ts ik); [apply Hall|].
      destruct r as [v0 s0|s0]; [rewrite elem_of_cons, Hall|apply Hall].
      split; [intros [[= Hx _]|?]; [congruence|done]|tauto].
Qed.

Lemma scan_loop_sorted es : ∀ cur selected,
  om_sorted es → (∀ ik r, (ik, r) ∈ es → bcmp prefix (user_key ik) ≠ Gt) →
  om_sorted (scan_loop prefix t cur selected es).
Proof.
  induction es as [|[ik r] es IH]; intros cur selected Hs Hp; [constructor|].
  pose proof Hs as [Hes _]%om_sorted_cons.
  assert (∀ ik r, (ik, r) ∈ es → bcmp prefix (user_key ik) ≠ Gt) as Hp'
    by (intros ik' r' Hin; apply (Hp ik' r'); by right).
  cbn [scan_loop]. destruct (past_prefix _ _); [constructor|].
  set (sel := if bool_decide _ then false else selected).
  destruct sel; [auto|]. destruct (_ <? _); [auto|]. destruct r as [v s|s]; [|auto].
  apply om_sorted_cons. split; [auto|]. apply Forall_forall. intros [k v'] Hin.
  apply scan_loop_spec in Hin; [|done|done|by eapply sorted_cur_ok].
  destruct Hin as (_ & (ts & s' & Hn) & Hne).
  destruct (is_newest_key _ _ _ _ Hes Hn) as (ik' & r' & Hin' & Ek).
  pose proof (sorted_cur_ok _ _ _ Hs _ eq_refl ik' r' Hin') as Hle. rewrite Ek in Hle. cbn.
  unfold klt, kcmp; cbn. destruct (bcmp (user_key ik) k) eqn:E; [|done|done].
  apply bcmp_eq in E. by rewrite E in Hne; destruct Hne.
Qed.
End ScanLoop.

Lemma iter_prefix_sorted p es : om_sorted es → om_sorted (iter_prefix p es).
Proof. destruct p; [done|]. apply om_from_sorted. Qed.

Lemma iter_prefix_ge p es ik r :
  om_sorted es → (ik, r) ∈ iter_prefix p es → bcmp p (user_key ik) ≠ Gt.
Proof.
  destruct p as [|b p]; [by destruct (user_key ik)|].
  intros Hs [_ Hk]%om_from_elem; [|done]. apply seek_ge in Hk. cbn [fst] in Hk.
  destruct Hk as [->|[-> _]]; [done|]. by rewrite bcmp_refl.
Qed.

(** Seeking to the prefix skips no key that has it, up to the largest timestamp. *)
Lemma iter_prefix_newest p es k t ts r :
  om_sorted es → (∀ ik r, (ik, r) ∈ es → commit_ts ik <= u64_max) → starts_with p k = true →
  is_newest (iter_prefix p es) k t ts r ↔ is_newest es k t ts r.
Proof.
  intros Hs Hts Hk. destruct p as [|b p]; [done|]. cbn [iter_prefix].
  assert (∀ ts, om_get (mkIK k ts) (om_from (mkIK (b :: p) u64_max) es) = om_get (mkIK k ts) es) as He.
  { intros ts'. apply option_eq. intros x.
    rewrite !om_get_elem, om_from_elem by (done || by apply om_from_sorted).
    split; [by intros [? _]|]. intros Hin. split; [done|]. apply seek_ge. cbn [fst user_key commit_ts].
    destruct (bcmp (b :: p) k) eqn:E; [|by left|].
    - apply bcmp_eq in E as <-. right. split; [done|]. by apply (Hts _ _ Hin).
    - by apply starts_with_le in Hk. }
  split; (apply is_newest_ext; intros; rewrite He; done).
Qed.

(** ** Replay *)

Definition payload_key (p : WalPayload) : option bytes :=
  match p with Put k _ | Delete k => Some k | Noop => None end.

Definition payload_record (p : WalPayload) (seq : N) : ValueRecord :=
  match p with Put _ v => VPut v seq | Delete _ | Noop => VDelete seq end.

(** The reference semantics of a log: the last operation on [k] with a sequence
    number not after [t]. *)
Definition log_read (k : bytes) (t : N) (rs : list WalRecord) : option ValueRecord :=
  foldl (λ acc r, if bool_decide (payload_key (payload r) = Some k) && (sequence r <=? t)
                  then Some (payload_record (payload r) (sequence r)) else acc) None rs.

Lemma replay_snoc rs r m : replay (rs ++ [r]) m = apply_payload (payload r) (sequence r) (replay rs m).
Proof. unfold replay. by rewrite foldl_app. Qed.

Lemma replay_ts rs ik r :
  (ik, r) ∈ entries (replay rs Memtable_new) → ∃ x, x ∈ rs ∧ sequence x = commit_ts ik.
Proof.
  induction rs as [|x rs IH] using rev_ind; [intros H; by apply not_elem_of_nil in H|].
  rewrite replay_snoc. set (m := replay rs Memtable_new) in *.
  assert (om_sorted (entries m)) as Hs by apply replay_ok, mt_new_ok. intros Hin.
  assert ((ik, r) ∈ entries m ∨ sequence x = commit_ts ik) as [H|H].
  { destruct (payload x); cbn in Hin; [..|by left];
      (apply om_insert_elem in Hin as [[= -> ->]|?]; [by right|by left|done]). }
  - destruct (IH H) as (y & Hy & Ey). exists y. split; [apply elem_of_app; by left|done].
  - exists x. split; [apply elem_of_app; right; by left|done].
Qed.

Lemma get_at_apply p s k t m :
  mt_ok m → (∀ ik r, (ik, r) ∈ entries m → commit_ts ik < s) →
  get_at k t (apply_payload p s m) =
    if bool_decide (payload_key p = Some k) && (s <=? t) then Some (payload_record p s)
    else get_at k t m.
Proof.
  intros Hm Hlt. pose proof (mo_sorted m Hm) as Hs.
  assert (∀ key r, get_at k t (mt_write (mkIK key s) r m) =
            if bool_decide (Some key = Some k) && (s <=? t) then Some r else get_at k t m) as Hw.
  { intros key r. case_bool_decide as Ek; cbn [andb].
    - injection Ek as ->. destruct (N.leb_spec s t) as [Hle|Hgt].
      + rewrite get_at_write_same by done. destruct (get_at k t m) as [old|] eqn:E; [|done].
        apply get_at_Some in E as (ts & Hg & _ & _); [|done]. apply om_get_elem in Hg; [|done].
        pose proof (Hlt _ _ Hg). rewrite (mo_seq m Hm _ _ Hg). cbn in *.
        by rewrite (proj2 (N.ltb_ge _ _)) by lia.
      + apply get_at_write_other; auto.
    - apply get_at_write_other; [done|]. left. cbn. congruence. }
  destruct p; cbn [apply_payload payload_key payload_record]; [apply Hw..|].
  by rewrite bool_decide_eq_false_2.
Qed.

Lemma replay_read rs k t :
  StronglySorted N.lt (sequence <$> rs) → get_at k t (replay rs Memtable_new) = log_read k t rs.
Proof.
  induction rs as [|r rs IH] using rev_ind; [done|]. intros Hss.
  rewrite fmap_app in Hss. apply StronglySorted_app in Hss as (Hlt & Hs1 & _).
  rewrite replay_snoc, get_at_apply, IH; [|done|apply replay_ok, mt_new_ok|].
  - unfold log_read. by rewrite foldl_app.
  - intros ik x (y & Hy & <-)%replay_ts. apply Hlt; [by apply list_elem_of_fmap_2|by left].
Qed.

(** ** Properties *)

(** The versions a memtable holds, as a function of key and timestamp. *)
Definition mt_version (m : Memtable) (k : bytes) (ts : N) : option ValueRecord :=
  om_get (mkIK k ts) (entries m).

(** A memtable write keeps the representation invariant (sorted entries,
    exact byte accounting) and changes exactly the version it names: writing a
    new version never loses or alters another one. *)
Theorem memtable_write_refines (m : Memtable) (k v : bytes) (s : N) :
  mt_ok m →
  mt_ok (mt_put k v s m) ∧ mt_ok (mt_delete k s m) ∧
  (∀ k' ts, mt_version (mt_put k v s m) k' ts =
     if bool_decide (k' = k ∧ ts = s) then Some (VPut v s) else mt_version m k' ts) ∧
  (∀ k' ts, mt_version (mt_delete k s m) k' ts =
     if bool_decide (k' = k ∧ ts = s) then Some (VDelete s) else mt_version m k' ts).
Proof.
  intros Hm. pose proof (mo_sorted m Hm) as Hs.
  assert (∀ r k' ts, mt_version (mt_write (mkIK k s) r m) k' ts =
            if bool_decide (k' = k ∧ ts = s) then Some r else mt_version m k' ts) as Hw.
  { intros r k' ts. unfold mt_version. cbn. case_bool_decide as E.
    - destruct E as [-> ->]. apply om_get_insert_eq.
    - apply om_get_insert_ne; [done|]. intros [= -> ->]. by apply E. }
  split_and!; [by apply mt_write_ok..|apply Hw|apply Hw].
Qed.

Definition mt_demo : Memtable :=
  mt_delete [97] 4 (mt_put [98] [20] 3 (mt_put [97] [12] 2 (mt_put [97] [11] 1 Memtable_new))).

Lemma mt_demo_ok : mt_ok mt_demo.
Proof. repeat apply mt_write_ok; done || apply mt_new_ok. Qed.

Lemma memtable_write_refines_witness :
  mt_ok (mt_put [97] [1] 5 mt_demo) ∧ mt_ok (mt_delete [97] 5 mt_demo) ∧
  (∀ k' ts, mt_version (mt_put [97] [1] 5 mt_demo) k' ts =
     if bool_decide (k' = [97] ∧ ts = 5) then Some (VPut [1] 5) else mt_version mt_demo k' ts) ∧
  (∀ k' ts, mt_version (mt_delete [97] 5 mt_demo) k' ts =
     if bool_decide (k' = [97] ∧ ts = 5) then Some (VDelete 5) else mt_version mt_demo k' ts).
Proof. apply (memtable_write_refines mt_demo [97] [1] 5), mt_demo_ok. Defined.

(** A read at timestamp [t] returns the version with the largest commit
    timestamp not after [t], and nothing exactly when there is no such
    version. *)
Theorem memtable_snapshot_read (m : Memtable) (k : bytes) (t : N) :
  mt_ok m →
  match get_at k t m with
  | Some r => ∃ ts, ts <= t ∧ mt_version m k ts = Some r ∧ vr_sequence r = ts ∧
                    ∀ ts', ts' <= t → is_Some (mt_version m k ts') → ts' <= ts
  | None => ∀ ts, ts <= t → mt_version m k ts = None
  end.
Proof.
  intros Hm. pose proof (mo_sorted m Hm) as Hs. destruct (get_at k t m) as [r|] eqn:E.
  - apply get_at_Some in E as (ts & Hg & Ht & Hn); [|done]. exists ts. split_and!; [done..| |].
    + apply (mo_seq m Hm (mkIK k ts)). by apply om_get_elem.
    + intros ts' Ht' [r' Hr']. by eapply Hn.
  - by apply get_at_None.
Qed.

Lemma memtable_snapshot_read_witness :
  match get_at [97] 3 mt_demo with
  | Some r => ∃ ts, ts <= 3 ∧ mt_version mt_demo [97] ts = Some r ∧ vr_sequence r = ts ∧
                    ∀ ts', ts' <= 3 → is_Some (mt_version mt_demo [97] ts') → ts' <= ts
  | None => ∀ ts, ts <= 3 → mt_version mt_demo [97] ts = None
  end.
Proof. apply (memtable_snapshot_read mt_demo [97] 3), mt_demo_ok. Defined.

(** A snapshot prefix scan returns, in strictly increasing key order, exactly
    the keys with the prefix whose visible version at [t] is a put, with that
    value. *)
Theorem memtable_snapshot_scan (m : Memtable) (p : bytes) (t : N) :
  mt_ok m → (∀ ik r, (ik, r) ∈ entries m → commit_ts ik <= u64_max) →
  om_sorted (scan_prefix_at p t m) ∧
  ∀ k v, (k, v) ∈ scan_prefix_at p t m ↔
    starts_with p k = true ∧ ∃ s, get_at k t m = Some (VPut v s).
Proof.
  intros Hm Hts. pose proof (mo_sorted m Hm) as Hs. unfold scan_prefix_at.
  pose proof (iter_prefix_sorted p _ Hs) as Hps.
  assert (∀ ik r, (ik, r) ∈ iter_prefix p (entries m) → bcmp p (user_key ik) ≠ Gt) as Hge
    by (intros ik r; by apply iter_prefix_ge).
  split; [by apply scan_loop_sorted|]. intros k v. rewrite scan_loop_spec by done.
  setoid_rewrite get_at_Some; [|done]. split.
  - intros (Hk & (ts & s & Hn) & _). rewrite iter_prefix_newest in Hn by done. eauto.
  - intros (Hk & s & ts & Hn). split_and!; [done| |by intros [? _]].
    exists ts, s. by rewrite iter_prefix_newest.
Qed.

Lemma memtable_snapshot_scan_witness :
  om_sorted (scan_prefix_at [] 3 mt_demo) ∧
  ∀ k v, (k, v) ∈ scan_prefix_at [] 3 mt_demo ↔
    starts_with [] k = true ∧ ∃ s, get_at k 3 mt_demo = Some (VPut v s).
Proof.
  apply (memtable_snapshot_scan mt_demo [] 3 mt_demo_ok).
  intros ik r Hin. repeat (apply elem_of_cons in Hin as [[= -> ->]|Hin]; [by vm_compute|]).
  by apply not_elem_of_nil in Hin.
Defined.

(** C31: replaying a log whose sequence numbers increase rebuilds the state the
    log describes: a read at any timestamp returns the last operation on the key
    not after it. *)
Theorem memtable_replay_correct (rs : list WalRecord) (k : bytes) (t : N) :
  StronglySorted N.lt (sequence <$> rs) →
  get_at k t (replay rs Memtable_new) = log_read k t rs.
Proof. apply replay_read. Qed.

Lemma memtable_replay_correct_witness :
  get_at [97] 9 (replay [new_record 1 1 (Put [97] [5]); new_record 2 4 (Delete [97])] Memtable_new)
  = log_read [97] 9 [new_record 1 1 (Put [97] [5]); new_record 2 4 (Delete [97])].
Proof. apply memtable_replay_correct. repeat constructor; lia. Defined.
