(* ===== verification/Manifest.v ===== *)
(** [kaya-lsm/src/manifest.rs]: the manifest, a log of edits to the set of live
    SSTables, with its frame format, the edit payloads and the replay that
    rebuilds the state and tolerates a torn tail. *)
From S2P Require Import Prelude Bytes Core Path.

Open Scope N_scope.

Definition MANIFEST_MAGIC : N := 0x4b4d414e.
Definition MANIFEST_VERSION : N := 1.
Definition MANIFEST_HEADER_LEN : N := 32.

Inductive ManifestEditType : Type := TCreateTable | TDeleteTable | TSetLastSequence.

Definition edit_type_from_wire (v : N) : option ManifestEditType :=
  match v with
  | 1 => Some TCreateTable
  | 2 => Some TDeleteTable
  | 3 => Some TSetLastSequence
  | _ => None
  end.

Record TableMetadata := mkTable {
  table_id : N;
  level : N;
  path : bytes;
  smallest_key : bytes;
  largest_key : bytes;
  min_sequence : N;
  max_sequence : N;
  entry_count : N;
  file_size : N;
  footer_checksum : N
}.

#[export] Instance TableMetadata_eq_dec : EqDecision TableMetadata.
Proof. solve_decision. Defined.

Inductive ManifestEdit : Type :=
| CreateTable (meta : TableMetadata)
| DeleteTable (id : N)
| SetLastSequence (seq : N).

Record ManifestState := mkManifest {
  live_tables : list TableMetadata;
  last_sequence : N;
  last_edit_seq : N
}.

Definition ManifestState_default : ManifestState := mkManifest [] 1 0.

(** [ManifestState::apply]. *)
Definition apply_edit (s : ManifestState) (edit : ManifestEdit) (edit_seq : N) : ManifestState :=
  match edit with
  | CreateTable meta => mkManifest (live_tables s ++ [meta]) (last_sequence s) edit_seq
  | DeleteTable id =>
      mkManifest (filter (λ t, table_id t ≠ id) (live_tables s)) (last_sequence s) edit_seq
  | SetLastSequence seq => mkManifest (live_tables s) seq edit_seq
  end.

(** [sort_by_key(|t| Reverse(t.table_id))], a stable sort. *)
Fixpoint insert_newest (t : TableMetadata) (l : list TableMetadata) : list TableMetadata :=
  match l with
  | [] => [t]
  | u :: l => if table_id u <=? table_id t then t :: u :: l else u :: insert_newest t l
  end.
Definition tables_newest_first (s : ManifestState) : list TableMetadata :=
  foldr insert_newest [] (live_tables s).

Inductive ManifestWarning : Type :=
| MTruncated (offset trailing_bytes : N)
| MInvalid (offset : N) (message : string).

(** ** Encoding *)

Definition encode_table_metadata (m : TableMetadata) : bytes :=
  le_bytes 8 (table_id m) ++ le_bytes 4 (level m) ++
  le_bytes 4 (wrap u32_lim (lenN (path m))) ++
  le_bytes 4 (wrap u32_lim (lenN (smallest_key m))) ++
  le_bytes 4 (wrap u32_lim (lenN (largest_key m))) ++
  le_bytes 8 (min_sequence m) ++ le_bytes 8 (max_sequence m) ++
  le_bytes 8 (entry_count m) ++ le_bytes 8 (file_size m) ++ le_bytes 4 (footer_checksum m) ++
  path m ++ smallest_key m ++ largest_key m.

Definition encode_edit_payload (e : ManifestEdit) : N * bytes :=
  match e with
  | CreateTable meta => (1, encode_table_metadata meta)
  | DeleteTable id => (2, le_bytes 8 id)
  | SetLastSequence seq => (3, le_bytes 8 seq)
  end.

(** The first 24 bytes of a frame. *)
Definition manifest_header (record_type edit_seq payload_len : N) : bytes :=
  le_bytes 4 MANIFEST_MAGIC ++ le_bytes 2 MANIFEST_VERSION ++ le_bytes 2 MANIFEST_HEADER_LEN ++
  le_bytes 2 record_type ++ le_bytes 2 0 ++ le_bytes 8 edit_seq ++ le_bytes 4 payload_len.

Definition encode_manifest_edit (e : ManifestEdit) (edit_seq : N) : bytes :=
  let '(record_type, payload) := encode_edit_payload e in
  let payload_crc := crc32c payload in
  let header := manifest_header record_type edit_seq (wrap u32_lim (lenN payload)) in
  let header_crc := crc32c (take 24 header) in
  (header ++ le_bytes 4 header_crc ++ le_bytes 4 payload_crc) ++ payload.

(** ** Decoding *)

Definition read_u16_le := read_le (Corruption "truncated u16") 2.
Definition read_u32_le := read_le (Corruption "truncated u32") 4.
Definition read_u64_le := read_le (Corruption "truncated u64") 8.

Definition decode_table_metadata (bs : bytes) : result KayaError TableMetadata :=
  if lenN bs <? 60 then Err (Corruption "table metadata too short")
  else
    table_id ← read_u64_le 0 bs;
    level ← read_u32_le 8 bs;
    path_len ← read_u32_le 12 bs;
    smallest_len ← read_u32_le 16 bs;
    largest_len ← read_u32_le 20 bs;
    min_sequence ← read_u64_le 24 bs;
    max_sequence ← read_u64_le 32 bs;
    entry_count ← read_u64_le 40 bs;
    file_size ← read_u64_le 48 bs;
    footer_checksum ← read_u32_le 56 bs;
    if lenN bs <? 60 + path_len + smallest_len + largest_len then
      Err (Corruption "table metadata variable fields truncated")
    else
      let pl := N.to_nat path_len in
      let sl := N.to_nat smallest_len in
      let ll := N.to_nat largest_len in
      let path := slice 60 (60 + pl) bs in
      if negb (utf8_valid path) then Err (Corruption "table path is not valid UTF-8")
      else
        Ok (mkTable table_id level path (slice (60 + pl) (60 + pl + sl) bs)
              (slice (60 + pl + sl) (60 + pl + sl + ll) bs)
              min_sequence max_sequence entry_count file_size footer_checksum).

Inductive DecodeEditResult : Type :=
| EComplete (edit : ManifestEdit) (edit_seq bytes_read : N)
| EIncomplete
| EInvalid (message : string).

(** [match read(..) { Ok(v) => v, Err(_) => return Incomplete }]. *)
Definition or_incomplete (r : result KayaError N) (k : N → DecodeEditResult) : DecodeEditResult :=
  match r with Ok v => k v | Err _ => EIncomplete end.

Definition decode_edit_payload (t : ManifestEditType) (payload : bytes) (edit_seq bytes_read : N)
    : DecodeEditResult :=
  match t with
  | TCreateTable =>
      match decode_table_metadata payload with
      | Ok meta => EComplete (CreateTable meta) edit_seq bytes_read
      | Err e => EInvalid (display e)
      end
  | TDeleteTable =>
      if lenN payload <? 8 then EInvalid "DELETE_TABLE payload too short"
      else or_incomplete (read_u64_le 0 payload)
             (λ id, EComplete (DeleteTable id) edit_seq bytes_read)
  | TSetLastSequence =>
      if lenN payload <? 8 then EInvalid "SET_LAST_SEQUENCE payload too short"
      else or_incomplete (read_u64_le 0 payload)
             (λ seq, EComplete (SetLastSequence seq) edit_seq bytes_read)
  end.

Definition decode_manifest_edit (bs : bytes) : DecodeEditResult :=
  if lenN bs <? MANIFEST_HEADER_LEN then EIncomplete
  else
  or_incomplete (read_u32_le 0 bs) (λ magic,
  if negb (magic =? MANIFEST_MAGIC) then
    EInvalid ("bad manifest magic: 0x" +:+ to_string (hex_digits 8 magic))
  else
  or_incomplete (read_u16_le 4 bs) (λ version,
  if negb (version =? MANIFEST_VERSION) then
    EInvalid ("unsupported manifest version: " +:+ pretty version)
  else
  or_incomplete (read_u32_le 24 bs) (λ expected_hcrc,
  if negb (expected_hcrc =? crc32c (take 24 bs)) then EInvalid "manifest header CRC mismatch"
  else
  or_incomplete (read_u16_le 8 bs) (λ record_type,
  or_incomplete (read_u64_le 12 bs) (λ edit_seq,
  or_incomplete (read_u32_le 20 bs) (λ payload_len,
  or_incomplete (read_u32_le 28 bs) (λ expected_pcrc,
  if lenN bs <? MANIFEST_HEADER_LEN + payload_len then EIncomplete
  else
  let payload := slice 32 (32 + N.to_nat payload_len) bs in
  if negb (expected_pcrc =? crc32c payload) then EInvalid "manifest payload CRC mismatch"
  else
  match edit_type_from_wire record_type with
  | None => EInvalid ("unknown manifest edit type: " +:+ pretty record_type)
  | Some t => decode_edit_payload t payload edit_seq (MANIFEST_HEADER_LEN + payload_len)
  end))))))).

(** ** Replay *)

(** The loop of [replay_manifest]: state, edits replayed, warnings. *)
Fixpoint replay_loop (fuel : nat) (s : ManifestState) (count offset : N) (rest : bytes)
    : ManifestState * N * list ManifestWarning :=
  match fuel with
  | O => (s, count, [])
  | S fuel =>
      match rest with
      | [] => (s, count, [])
      | _ :: _ =>
          match decode_manifest_edit rest with
          | EComplete edit edit_seq n =>
              replay_loop fuel (apply_edit s edit edit_seq) (count + 1) (offset + n)
                (drop (N.to_nat n) rest)
          | EIncomplete => (s, count, [MTruncated offset (lenN rest)])
          | EInvalid message => (s, count, [MInvalid offset message])
          end
      end
  end.

Definition replay_manifest (bs : bytes) : ManifestState * N * list ManifestWarning :=
  replay_loop (length bs) ManifestState_default 0 0 bs.

(** ** Metadata round trip *)

Record meta_ok (m : TableMetadata) : Prop := {
  me_id : table_id m < 2 ^ 64;
  me_level : level m < 2 ^ 32;
  me_min : min_sequence m < 2 ^ 64;
  me_max : max_sequence m < 2 ^ 64;
  me_count : entry_count m < 2 ^ 64;
  me_size : file_size m < 2 ^ 64;
  me_crc : footer_checksum m < 2 ^ 32;
  me_utf8 : utf8_valid (path m) = true;
  me_len : 60 + lenN (path m) + lenN (smallest_key m) + lenN (largest_key m) < u32_lim;
  me_bytes : bytes_ok (path m) ∧ bytes_ok (smallest_key m) ∧ bytes_ok (largest_key m)
}.

Lemma length_encode_meta m :
  lenN (encode_table_metadata m) = 60 + lenN (path m) + lenN (smallest_key m) + lenN (largest_key m).
Proof. unfold encode_table_metadata. rewrite !lenN_app, !lenN_le_bytes. lia. Qed.

(** Evaluates a positional read of one encoded field. *)
Ltac read_field :=
  match goal with
  | |- context [read_le ?e ?n ?off ?bs] =>
      erewrite (read_le_ok e n off _ bs);
      [|unfold lenN in *; lia|by repeat slice_step
       |first [done | change (256 ^ N.of_nat 4) with 4294967296; lia]];
      cbn [mbind result_bind or_incomplete]
  end.

Lemma decode_encode_meta m : meta_ok m → decode_table_metadata (encode_table_metadata m) = Ok m.
Proof.
  intros [H1 H2 H3 H4 H5 H6 H7 Hu Hl _]. pose proof (length_encode_meta m) as HL.
  unfold u32_lim in Hl. unfold decode_table_metadata.
  rewrite HL, (proj2 (N.ltb_ge _ 60)) by lia.
  assert (60 ≤ length (encode_table_metadata m))%nat by (unfold lenN in HL; lia).
  unfold read_u64_le, read_u32_le. unfold encode_table_metadata in *.
  assert (∀ x : bytes, lenN x < 4294967296 → wrap u32_lim (lenN x) = lenN x) as W
    by (intros; by apply wrap_small).
  rewrite !W in * by lia. do 10 read_field.
  rewrite N.ltb_irrefl, !lenN_to_nat.
  assert (∀ v : bytes, ∀ a b, (60 ≤ a)%nat → slice a b (le_bytes 8 (table_id m) ++ le_bytes 4 (level m) ++
     le_bytes 4 (lenN (path m)) ++ le_bytes 4 (lenN (smallest_key m)) ++
     le_bytes 4 (lenN (largest_key m)) ++ le_bytes 8 (min_sequence m) ++
     le_bytes 8 (max_sequence m) ++ le_bytes 8 (entry_count m) ++ le_bytes 8 (file_size m) ++
     le_bytes 4 (footer_checksum m) ++ v) = slice (a - 60) (b - 60) v) as Hskip.
  { intros v a b Ha. rewrite !(slice_skip _ _ (le_bytes _ _)) by (rewrite !length_le_bytes; lia).
    rewrite !length_le_bytes. f_equal; lia. }
  rewrite !Hskip by lia. replace (60 - 60)%nat with 0%nat by lia.
  rewrite slice_here, Hu by lia. cbn [negb].
  rewrite slice_at by lia. rewrite app_assoc, slice_at_end by (rewrite ?length_app; lia).
  by destruct m.
Qed.

(** ** Frames *)

Definition edit_ok (e : ManifestEdit) : Prop :=
  match e with
  | CreateTable m => meta_ok m
  | DeleteTable id => id < 2 ^ 64
  | SetLastSequence s => s < 2 ^ 64
  end.

Lemma encode_edit_payload_spec e :
  edit_ok e →
  let '(t, pl) := encode_edit_payload e in
  bytes_ok pl ∧ lenN pl < u32_lim ∧ t < 2 ^ 16 ∧
  ∃ ty, edit_type_from_wire t = Some ty ∧
        ∀ seq n, decode_edit_payload ty pl seq n = EComplete e seq n.
Proof.
  destruct e as [m|id|s]; cbn [edit_ok encode_edit_payload]; intros He.
  - split_and!; [|by rewrite length_encode_meta; apply He|done|].
    + destruct (me_bytes m He) as (? & ? & ?). unfold encode_table_metadata, bytes_ok.
      rewrite !Forall_app. split_and!; done || apply le_bytes_ok.
    + exists TCreateTable. split; [done|]. intros. cbn [decode_edit_payload].
      by rewrite decode_encode_meta.
  - split_and!; [apply le_bytes_ok|by rewrite lenN_le_bytes|done|].
    exists TDeleteTable. split; [done|]. intros. cbn [decode_edit_payload].
    rewrite lenN_le_bytes. cbn [N.of_nat N.ltb]. unfold read_u64_le.
    erewrite read_le_ok; [done|by rewrite length_le_bytes|by rewrite slice_all; rewrite ?length_le_bytes|done].
  - split_and!; [apply le_bytes_ok|by rewrite lenN_le_bytes|done|].
    exists TSetLastSequence. split; [done|]. intros. cbn [decode_edit_payload].
    rewrite lenN_le_bytes. cbn [N.of_nat N.ltb]. unfold read_u64_le.
    erewrite read_le_ok; [done|by rewrite length_le_bytes|by rewrite slice_all; rewrite ?length_le_bytes|done].
Qed.

Lemma length_manifest_header t seq n : length (manifest_header t seq n) = 24%nat.
Proof. unfold manifest_header. by rewrite !length_app, !length_le_bytes. Qed.

Lemma manifest_header_ok t seq n : bytes_ok (manifest_header t seq n).
Proof. unfold manifest_header, bytes_ok. rewrite !Forall_app. split_and!; apply le_bytes_ok. Qed.

(** What is left of the decoder after a header with the right checksum. *)
Definition decode_frame_body (t seq n pcrc : N) (body : bytes) : DecodeEditResult :=
  if lenN body <? n then EIncomplete
  else
    let pb := take (N.to_nat n) body in
    if negb (pcrc =? crc32c pb) then EInvalid "manifest payload CRC mismatch"
    else match edit_type_from_wire t with
         | None => EInvalid ("unknown manifest edit type: " +:+ pretty t)
         | Some ty => decode_edit_payload ty pb seq (32 + n)
         end.

Lemma decode_after_manifest_header t seq n pcrc body :
  t < 2 ^ 16 → seq < 2 ^ 64 → n < 2 ^ 32 → pcrc < 2 ^ 32 →
  let h := manifest_header t seq n in
  decode_manifest_edit (h ++ le_bytes 4 (crc32c h) ++ le_bytes 4 pcrc ++ body) =
  decode_frame_body t seq n pcrc body.
Proof.
  intros Ht Hs Hn Hp h. set (c := crc32c h).
  assert (c < 2 ^ 32) as Hc by (apply crc32c_u32, manifest_header_ok).
  set (bs := h ++ _). assert (lenN bs = 32 + lenN body) as HL.
  { unfold bs. rewrite !lenN_app, !lenN_le_bytes. unfold lenN at 1.
    unfold h. rewrite length_manifest_header. lia. }
  assert (32 ≤ length bs)%nat by (unfold lenN in HL; lia).
  assert (take 24 bs = h) as H24 by (unfold bs; by rewrite take_app_length').
  assert (bs = le_bytes 4 MANIFEST_MAGIC ++ le_bytes 2 MANIFEST_VERSION ++
    le_bytes 2 MANIFEST_HEADER_LEN ++ le_bytes 2 t ++ le_bytes 2 0 ++ le_bytes 8 seq ++
    le_bytes 4 n ++ le_bytes 4 c ++ le_bytes 4 pcrc ++ body) as Ebs.
  { unfold bs, h, manifest_header. by rewrite <-!app_assoc. }
  unfold decode_manifest_edit, MANIFEST_HEADER_LEN. rewrite HL, (proj2 (N.ltb_ge _ 32)) by lia.
  unfold read_u32_le, read_u16_le, read_u64_le. rewrite H24. fold c. clearbody bs. subst bs.
  read_field. change (MANIFEST_MAGIC =? MANIFEST_MAGIC) with true. cbn [negb].
  read_field. change (MANIFEST_VERSION =? MANIFEST_VERSION) with true. cbn [negb].
  read_field. rewrite N.eqb_refl. cbn [negb]. do 4 read_field.
  rewrite !(slice_skip _ _ (le_bytes _ _)) by (rewrite !length_le_bytes; lia).
  rewrite !length_le_bytes. replace (slice _ _ body) with (take (N.to_nat n) body)
    by (rewrite <-slice_0_take; f_equal; lia).
  unfold decode_frame_body.
  replace (32 + lenN body <? 32 + n) with (lenN body <? n); [done|].
  destruct (N.ltb_spec (lenN body) n), (N.ltb_spec (32 + lenN body) (32 + n)); lia.
Qed.

(** The shape of an encoded edit. *)
Lemma encode_manifest_edit_shape e seq :
  edit_ok e →
  ∃ t pl ty, encode_edit_payload e = (t, pl) ∧ bytes_ok pl ∧ lenN pl < 2 ^ 32 ∧ t < 2 ^ 16 ∧
    edit_type_from_wire t = Some ty ∧
    (∀ s n, decode_edit_payload ty pl s n = EComplete e s n) ∧
    let h := manifest_header t seq (lenN pl) in
    encode_manifest_edit e seq = h ++ le_bytes 4 (crc32c h) ++ le_bytes 4 (crc32c pl) ++ pl.
Proof.
  intros He. pose proof (encode_edit_payload_spec e He) as Hp. unfold encode_manifest_edit.
  destruct (encode_edit_payload e) as [t pl]. destruct Hp as (Hb & Hl & Ht & ty & Hty & Hd).
  exists t, pl, ty. split_and!; [done..|]. rewrite wrap_small by done.
  rewrite take_ge by (by rewrite length_manifest_header). by rewrite <-!app_assoc.
Qed.

Lemma length_encode_edit e seq :
  edit_ok e → lenN (encode_manifest_edit e seq) = 32 + lenN (encode_edit_payload e).2.
Proof.
  intros He. destruct (encode_manifest_edit_shape e seq He) as (t & pl & ty & -> & _ & _ & _ & _ & _ & ->).
  rewrite !lenN_app, !lenN_le_bytes. unfold lenN at 1. rewrite length_manifest_header. cbn. lia.
Qed.

Lemma decode_encode_edit e seq rest :
  edit_ok e → seq < 2 ^ 64 →
  decode_manifest_edit (encode_manifest_edit e seq ++ rest) =
  EComplete e seq (lenN (encode_manifest_edit e seq)).
Proof.
  intros He Hs. rewrite length_encode_edit by done.
  destruct (encode_manifest_edit_shape e seq He) as (t & pl & ty & -> & Hb & Hl & Ht & Hty & Hd & ->).
  rewrite <-!app_assoc, decode_after_manifest_header by (done || by apply crc32c_u32).
  unfold decode_frame_body. rewrite lenN_app, (proj2 (N.ltb_ge _ _)) by lia.
  rewrite lenN_to_nat, take_app_length, N.eqb_refl, Hty. cbn [negb]. apply Hd.
Qed.

Lemma decode_torn_edit e seq k :
  edit_ok e → seq < 2 ^ 64 → (k < length (encode_manifest_edit e seq))%nat →
  decode_manifest_edit (take k (encode_manifest_edit e seq)) = EIncomplete.
Proof.
  intros He Hs Hk. pose proof (length_encode_edit e seq He) as HL.
  destruct (encode_manifest_edit_shape e seq He) as (t & pl & ty & Ep & Hb & Hl & Ht & Hty & Hd & E).
  rewrite Ep in HL. cbn in HL. unfold lenN in HL at 1.
  destruct (decide (k < 32)%nat) as [Hlt|Hge].
  - unfold decode_manifest_edit. rewrite (proj2 (N.ltb_lt _ _)); [done|].
    unfold lenN, MANIFEST_HEADER_LEN. rewrite length_take. lia.
  - rewrite E in *. set (h := manifest_header _ _ _) in *.
    assert (length h = 24%nat) as Lh by apply length_manifest_header.
    rewrite (take_app_ge h), (take_app_ge (le_bytes 4 (crc32c h))), (take_app_ge (le_bytes 4 (crc32c pl)))
      by (rewrite ?length_le_bytes; lia).
    unfold h. rewrite decode_after_manifest_header by (done || by apply crc32c_u32).
    unfold decode_frame_body. rewrite (proj2 (N.ltb_lt _ _)); [done|].
    unfold lenN in *. rewrite length_take, !length_le_bytes, ?length_manifest_header. lia.
Qed.

(** *** Corruption *)

Lemma decode_bad_header_crc_manifest bs :
  32 <= lenN bs → le_val (slice 24 28 bs) ≠ crc32c (take 24 bs) →
  ∃ msg, decode_manifest_edit bs = EInvalid msg.
Proof.
  intros HL Hne. unfold decode_manifest_edit, MANIFEST_HEADER_LEN.
  rewrite (proj2 (N.ltb_ge _ _)) by done.
  assert (32 ≤ length bs)%nat by (unfold lenN in HL; lia).
  unfold read_u32_le, read_u16_le, read_le.
  rewrite (proj2 (Nat.ltb_ge _ (0 + 4))), (proj2 (Nat.ltb_ge _ (4 + 2))), (proj2 (Nat.ltb_ge _ (24 + 4))) by lia.
  cbn [or_incomplete]. case_match; [by eauto|]. case_match; [by eauto|].
  rewrite (proj2 (N.eqb_neq _ _)) by done. cbn. eauto.
Qed.

Lemma le_val_insert (Q : bytes) j b b' :
  bytes_ok Q → byte_ok b' → Q !! j = Some b → b ≠ b' → le_val (<[j:=b']> Q) ≠ le_val Q.
Proof.
  intros HQ Hb' Hj Hne E. assert (bytes_ok (<[j:=b']> Q)) as HQ' by (by apply Forall_insert).
  pose proof (le_bytes_le_val _ HQ') as E2. rewrite E, length_insert, le_bytes_le_val in E2 by done.
  assert (<[j:=b']> Q !! j = Some b') as E3 by (apply list_lookup_insert_eq; by eapply lookup_lt_Some).
  rewrite <-E2 in E3. congruence.
Qed.

Lemma decode_corrupt_edit e seq rest i b b' :
  edit_ok e → seq < 2 ^ 64 → encode_manifest_edit e seq !! i = Some b → byte_ok b' → b ≠ b' →
  ∃ msg, decode_manifest_edit (<[i:=b']> (encode_manifest_edit e seq) ++ rest) = EInvalid msg.
Proof.
  intros He Hs Hi Hb' Hne.
  destruct (encode_manifest_edit_shape e seq He) as (t & pl & ty & Ep & Hb & Hl & Ht & Hty & Hd & E).
  rewrite E in *. set (h := manifest_header _ _ _) in *.
  assert (length h = 24%nat) as Lh by apply length_manifest_header.
  assert (bytes_ok h) as Hh by apply manifest_header_ok.
  assert (crc32c h < 2 ^ 32 ∧ crc32c pl < 2 ^ 32) as [Hch Hcp] by (split; by apply crc32c_u32).
  assert (∀ P Q X : bytes, length P = 24%nat → length Q = 4%nat → (8 ≤ length (Q ++ X))%nat →
            le_val Q ≠ crc32c P → ∃ msg, decode_manifest_edit (P ++ Q ++ X) = EInvalid msg) as Hbad.
  { intros P Q X LP LQ LX Hx. apply decode_bad_header_crc_manifest.
    - unfold lenN. rewrite !length_app in *. lia.
    - rewrite take_app_length' by done. rewrite slice_at by (rewrite ?LQ; lia). done. }
  apply lookup_app_Some in Hi as [Hi|[Hge1 Hi]].
  { rewrite insert_app_l, <-!app_assoc by (by eapply lookup_lt_Some).
    apply Hbad; [by rewrite length_insert|by rewrite length_le_bytes|rewrite !length_app, !length_le_bytes; lia|].
    rewrite le_val_le_bytes by done. apply not_eq_sym. by eapply crc32c_insert. }
  rewrite insert_app_r_alt by done. apply lookup_app_Some in Hi as [Hi|[Hge2 Hi]].
  { rewrite insert_app_l, <-!app_assoc by (by eapply lookup_lt_Some).
    apply Hbad; [done|by rewrite length_insert, length_le_bytes|rewrite !length_app, length_insert, !length_le_bytes; lia|].
    pose proof (le_val_insert _ _ _ b' (le_bytes_ok _ _) Hb' Hi Hne) as Hx.
    by rewrite (le_val_le_bytes 4) in Hx. }
  rewrite insert_app_r_alt by done. set (j := (_ - _)%nat) in *. rewrite <-!app_assoc.
  assert (∀ pc x, pc < 2 ^ 32 → length x = length pl → pc ≠ crc32c x →
    ∃ msg, decode_manifest_edit (h ++ le_bytes 4 (crc32c h) ++ le_bytes 4 pc ++ x ++ rest) = EInvalid msg) as Hbody.
  { intros pc x Hpc Hlx Hx. unfold h. rewrite decode_after_manifest_header by done.
    unfold decode_frame_body. rewrite lenN_app.
    assert (lenN x = lenN pl) as -> by (unfold lenN; by rewrite Hlx).
    rewrite (proj2 (N.ltb_ge _ _)) by lia. rewrite take_app_length' by (by rewrite lenN_to_nat).
    rewrite (proj2 (N.eqb_neq _ _)) by done. cbn. eauto. }
  apply lookup_app_Some in Hi as [Hi|[Hge3 Hi]].
  - rewrite insert_app_l, <-!app_assoc by (by eapply lookup_lt_Some).
    set (Q := <[_:=b']> (le_bytes 4 (crc32c pl))).
    assert (bytes_ok Q) as HQ by (apply Forall_insert; [apply le_bytes_ok|done]).
    assert (length Q = 4%nat) as LQ by (unfold Q; by rewrite length_insert, length_le_bytes).
    rewrite <-(le_bytes_le_val Q HQ), LQ. apply Hbody; [|done|].
    + pose proof (le_val_bound Q HQ) as B. by rewrite LQ in B.
    + pose proof (le_val_insert _ _ _ b' (le_bytes_ok _ _) Hb' Hi Hne) as Hx.
      by rewrite (le_val_le_bytes 4 (crc32c pl)) in Hx.
  - rewrite insert_app_r_alt, <-!app_assoc by done. apply Hbody; [done|by rewrite length_insert|].
    apply not_eq_sym. by eapply crc32c_insert.
Qed.

(** ** Replay *)

Definition encode_edits (es : list (ManifestEdit * N)) : bytes :=
  es ≫= λ x, encode_manifest_edit x.1 x.2.

Definition apply_edits (s : ManifestState) (es : list (ManifestEdit * N)) : ManifestState :=
  foldl (λ s x, apply_edit s x.1 x.2) s es.

Definition edits_ok (es : list (ManifestEdit * N)) : Prop :=
  Forall (λ x, edit_ok x.1 ∧ x.2 < 2 ^ 64) es.

(** A tail that is empty or a proper prefix of one frame. *)
Definition torn_edit (tail : bytes) : Prop :=
  tail = [] ∨ ∃ e seq k, edit_ok e ∧ seq < 2 ^ 64 ∧ tail = take k (encode_manifest_edit e seq) ∧
                         (k < length (encode_manifest_edit e seq))%nat.

(** Whole frames are consumed one by one, whatever follows them. *)
Lemma replay_loop_frames es tail : ∀ fuel s count offset,
  edits_ok es → (length (encode_edits es ++ tail) ≤ fuel)%nat →
  ∃ fuel', (length tail ≤ fuel')%nat ∧
    replay_loop fuel s count offset (encode_edits es ++ tail) =
    replay_loop fuel' (apply_edits s es) (count + lenN es) (offset + lenN (encode_edits es)) tail.
Proof.
  induction es as [|[e seq] es IH]; intros fuel s count offset Hok Hf.
  - exists fuel. change (encode_edits []) with (@nil N) in *. by rewrite !N.add_0_r.
  - apply Forall_cons in Hok as [[He Hs] Hok]. cbn [fst snd] in *.
    change (encode_edits ((e, seq) :: es)) with (encode_manifest_edit e seq ++ encode_edits es) in *.
    rewrite <-app_assoc in *. rewrite length_app in Hf.
    pose proof (length_encode_edit e seq He) as HL. unfold lenN in HL at 1.
    destruct fuel as [|fuel]; [lia|]. cbn [replay_loop].
    destruct (encode_manifest_edit e seq ++ encode_edits es ++ tail) as [|y l] eqn:El.
    { apply (f_equal length) in El. rewrite length_app in El. cbn in El. lia. }
    rewrite <-El, decode_encode_edit by done. rewrite lenN_to_nat, drop_app_length.
    destruct (IH fuel (apply_edit s e seq) (count + 1)
      (offset + lenN (encode_manifest_edit e seq)) Hok) as (fuel' & Hl & E); [lia|].
    exists fuel'. split; [done|]. rewrite E, lenN_app. unfold apply_edits. cbn [foldl fst snd].
    f_equal; [unfold lenN; cbn [length]; lia|lia].
Qed.

Lemma replay_frames es tail :
  edits_ok es →
  ∃ fuel', (length tail ≤ fuel')%nat ∧
    replay_manifest (encode_edits es ++ tail) =
    replay_loop fuel' (apply_edits ManifestState_default es) (lenN es) (lenN (encode_edits es)) tail.
Proof. intros. by apply replay_loop_frames. Qed.

(** ** Properties *)

(** Replaying a manifest file gives the state after applying its edits in
    order, and a torn last frame changes nothing but adds one warning with its
    position and size. *)
Theorem manifest_replay (es : list (ManifestEdit * N)) (tail : bytes) :
  edits_ok es → torn_edit tail →
  replay_manifest (encode_edits es ++ tail) =
    (apply_edits ManifestState_default es, lenN es,
     match tail with [] => [] | _ => [MTruncated (lenN (encode_edits es)) (lenN tail)] end).
Proof.
  intros Hok Ht. destruct (replay_frames es tail Hok) as (fuel & Hf & ->).
  destruct tail as [|x tl] eqn:Et; [by destruct fuel|].
  destruct fuel as [|fuel]; [cbn in Hf; lia|]. cbn [replay_loop]. rewrite <-Et in *.
  destruct Ht as [->|(e & seq & k & He & Hs & Htl & Hk)]; [done|].
  by rewrite Htl, decode_torn_edit.
Qed.

Definition demo_meta : TableMetadata :=
  mkTable 7 0 (str "sst/7.sst") [97] [122] 1 9 3 512 99.
Definition demo_edits : list (ManifestEdit * N) :=
  [(CreateTable demo_meta, 1); (SetLastSequence 9, 2); (DeleteTable 6, 3)].

Lemma demo_meta_ok : meta_ok demo_meta.
Proof. split; try by vm_compute. split_and!; by repeat constructor. Qed.

Lemma demo_edits_ok : edits_ok demo_edits.
Proof. repeat constructor; try by vm_compute. all: apply demo_meta_ok. Qed.

Lemma manifest_replay_witness :
  replay_manifest (encode_edits demo_edits ++ take 39 (encode_manifest_edit (DeleteTable 7) 4)) =
    (apply_edits ManifestState_default demo_edits, lenN demo_edits,
     match take 39 (encode_manifest_edit (DeleteTable 7) 4) with
     | [] => []
     | _ => [MTruncated (lenN (encode_edits demo_edits))
               (lenN (take 39 (encode_manifest_edit (DeleteTable 7) 4)))]
     end).
Proof.
  apply (manifest_replay demo_edits (take 39 (encode_manifest_edit (DeleteTable 7) 4)) demo_edits_ok).
  right. exists (DeleteTable 7), 4, 39%nat. split_and!; [by vm_compute..|]. vm_compute. lia.
Defined.

(** Damage to one byte of a frame, wherever it is, stops the replay there:
    the state is the one of the frames before it, nothing of the damaged frame or
    of what follows is applied, and the damage is reported at its offset. *)
Theorem manifest_corruption_stops_replay (es : list (ManifestEdit * N)) (e : ManifestEdit)
    (seq : N) (i : nat) (b b' : N) (rest : bytes) :
  edits_ok es → edit_ok e → seq < 2 ^ 64 → encode_manifest_edit e seq !! i = Some b →
  byte_ok b' → b ≠ b' →
  ∃ msg, replay_manifest (encode_edits es ++ <[i:=b']> (encode_manifest_edit e seq) ++ rest) =
    (apply_edits ManifestState_default es, lenN es, [MInvalid (lenN (encode_edits es)) msg]).
Proof.
  intros Hok He Hs Hi Hb' Hne. set (tail := _ ++ rest).
  destruct (replay_frames es tail Hok) as (fuel & Hf & ->).
  destruct (decode_corrupt_edit e seq rest i b b' He Hs Hi Hb' Hne) as [msg Hmsg]. fold tail in Hmsg.
  exists msg. destruct tail as [|x tl] eqn:Et; [done|].
  destruct fuel as [|fuel]; [cbn in Hf; lia|]. cbn [replay_loop]. by rewrite Hmsg.
Qed.

Lemma manifest_corruption_stops_replay_witness :
  ∃ msg, replay_manifest (encode_edits demo_edits ++
      <[13%nat:=200]> (encode_manifest_edit (DeleteTable 7) 4) ++ [1; 2]) =
    (apply_edits ManifestState_default demo_edits, lenN demo_edits,
     [MInvalid (lenN (encode_edits demo_edits)) msg]).
Proof.
  apply (manifest_corruption_stops_replay demo_edits (DeleteTable 7) 4 13 0 200 [1; 2] demo_edits_ok);
    by vm_compute.
Defined.
