(* ===== verification/Compaction.v ===== *)
(** Compaction policies ([kaya-lsm/src/compaction.rs] and
    [kaya-engine/src/compaction.rs]) and the version selection of the garbage
    collector ([select_versions_for_gc] of [kaya-engine/src/lib.rs]).  The
    [f64] arithmetic of the size-tiered policy is IEEE binary64, by the
    Standard Library's [SpecFloat]. *)
From Stdlib Require Import SpecFloat.
From stdpp Require Import gmap.
From S2P Require Import Prelude Bytes Core OrdMap WalCodec InternalKey Memtable Manifest.

Open Scope N_scope.

Record CompactionCandidate := mkCandidate { input_table_ids : list N; output_level : N }.

(** [!pinned.contains(&t.table_id)]. *)
Definition unpinned (pinned : gset N) (t : TableMetadata) : bool :=
  negb (bool_decide (table_id t ∈ pinned)).

(** ** L0MergePolicy *)

Definition l0_pick (live : list TableMetadata) (pinned : gset N) : option CompactionCandidate :=
  let eligible := table_id <$> filter (λ t, unpinned pinned t = true) live in
  if (length eligible <? 2)%nat then None else Some (mkCandidate eligible 0).

(** ** LevelStrategy *)

Record LevelStrategy := mkLevelStrategy { ls_level_count : N; ls_l0_trigger : N }.

Definition at_level (level : N) (live : list TableMetadata) (pinned : gset N) : list TableMetadata :=
  filter (λ t, (Manifest.level t =? level) && unpinned pinned t = true) live.

(** The loop over the levels, from [level] on. *)
Fixpoint level_loop (s : LevelStrategy) (live : list TableMetadata) (pinned : gset N)
    (count : nat) (level : N) : option CompactionCandidate :=
  match count with
  | O => None
  | S count =>
      let ts := at_level level live pinned in
      if level =? 0 then
        if ls_l0_trigger s <=? lenN ts then Some (mkCandidate (table_id <$> ts) 1)
        else level_loop s live pinned count (level + 1)
      else if 2 <=? lenN ts then Some (mkCandidate (table_id <$> ts) (level + 1))
      else level_loop s live pinned count (level + 1)
  end.

Definition level_pick (s : LevelStrategy) (live : list TableMetadata) (pinned : gset N)
    : option CompactionCandidate :=
  level_loop s live pinned (N.to_nat (ls_level_count s)) 0.

(** ** TierStrategy *)

Record TierStrategy := mkTierStrategy { ts_min_tables : N; ts_size_ratio : spec_float }.

(** [n as f64], rounded to nearest even. *)
Definition f64_of_N (n : N) : spec_float := binary_normalize 53 1024 (Z.of_N n) 0 false.

Definition ratio_ok (s : TierStrategy) (file_size run_max : N) : bool :=
  SFleb (SFdiv 53 1024 (f64_of_N file_size) (f64_of_N (N.max run_max 1))) (ts_size_ratio s).

(** [sort_by_key(|t| t.file_size)], a stable sort. *)
Fixpoint insert_by_size (t : TableMetadata) (l : list TableMetadata) : list TableMetadata :=
  match l with
  | [] => [t]
  | x :: l' => if file_size t <=? file_size x then t :: x :: l' else x :: insert_by_size t l'
  end.
Definition sort_by_size (l : list TableMetadata) : list TableMetadata := foldr insert_by_size [] l.

(** The run of similar sizes within one level. *)
Fixpoint tier_run (s : TierStrategy) (level : N) (run : list N) (run_max : N) (l : list TableMetadata)
    : option CompactionCandidate :=
  match l with
  | [] => if ts_min_tables s <=? lenN run then Some (mkCandidate run (level + 1)) else None
  | t :: l =>
      match run with
      | [] => tier_run s level [table_id t] (file_size t) l
      | _ =>
          if ratio_ok s (file_size t) run_max
          then tier_run s level (run ++ [table_id t]) (N.max run_max (file_size t)) l
          else if ts_min_tables s <=? lenN run then Some (mkCandidate run (level + 1))
          else tier_run s level [table_id t] (file_size t) l
      end
  end.

(** [by_level.entry(table.level).or_default().push(table)]. *)
Definition push_level (m : list (N * list TableMetadata)) (t : TableMetadata)
    : list (N * list TableMetadata) :=
  om_insert (Manifest.level t) (default [] (om_get (Manifest.level t) m) ++ [t]) m.

Definition by_level (live : list TableMetadata) (pinned : gset N) : list (N * list TableMetadata) :=
  foldl push_level [] (filter (λ t, unpinned pinned t = true) live).

Fixpoint tier_loop (s : TierStrategy) (groups : list (N * list TableMetadata))
    : option CompactionCandidate :=
  match groups with
  | [] => None
  | (level, tables) :: groups =>
      if lenN tables <? ts_min_tables s then tier_loop s groups
      else match tier_run s level [] 0 (sort_by_size tables) with
           | Some c => Some c
           | None => tier_loop s groups
           end
  end.

Definition tier_pick (s : TierStrategy) (live : list TableMetadata) (pinned : gset N)
    : option CompactionCandidate :=
  tier_loop s (by_level live pinned).

(** ** The configured policy *)

Inductive ConfiguredCompactionPolicy : Type :=
| PL0Merge
| PLeveled (s : LevelStrategy)
| PTiered (s : TierStrategy).

Definition pick_compaction (p : ConfiguredCompactionPolicy) (live : list TableMetadata)
    (pinned : gset N) : option CompactionCandidate :=
  match p with
  | PL0Merge => l0_pick live pinned
  | PLeveled s => level_pick s live pinned
  | PTiered s => tier_pick s live pinned
  end.

Definition compaction_policy_from_config (c : CompactionConfig) : ConfiguredCompactionPolicy :=
  match policy c with
  | L0Merge => PL0Merge
  | Leveled => PLeveled (mkLevelStrategy (level_count (leveled c)) (l0_compaction_trigger (leveled c)))
  | SizeTiered =>
      PTiered (mkTierStrategy (min_tables (tiered c))
                 (SFdiv 53 1024 (f64_of_N (ratio_x1000 (tiered c))) (f64_of_N 1000)))
  end.

(** ** Version selection *)

(** A version: its sequence and its value, [None] for a tombstone. *)
Definition Version : Type := N * option bytes.

(** The loop over the versions; [first] marks the newest one. *)
Fixpoint gc_loop (watermark : N) (first : bool) (vs : list Version) : list Version :=
  match vs with
  | [] => []
  | (s, v) :: vs =>
      if watermark <=? s then (s, v) :: gc_loop watermark false vs
      else if first && bool_decide (is_Some v) then (s, v) :: gc_loop watermark false vs
      else gc_loop watermark false vs
  end.

Definition select_versions_for_gc (versions : list Version) (watermark : N) : list Version :=
  match versions with
  | [] => []
  | (s, v) :: _ =>
      if bool_decide (v = None) && (s <? watermark) then []
      else gc_loop watermark true versions
  end.

(** What a reader at [ts] sees: the first version of the descending list that
    is not newer. *)
Definition visible_at (ts : N) (vs : list Version) : option Version :=
  snd <$> list_find (λ x, x.1 <= ts) vs.

Definition value_at (ts : N) (vs : list Version) : option bytes := visible_at ts vs ≫= snd.

(** Newest first, without repeated sequences. *)
Definition desc (vs : list Version) : Prop := StronglySorted (λ x y : Version, y.1 < x.1) vs.

Lemma visible_at_cons ts s v vs :
  visible_at ts ((s, v) :: vs) = if s <=? ts then Some (s, v) else visible_at ts vs.
Proof.
  unfold visible_at. cbn. destruct (decide (s <= ts)) as [H|H].
  - by rewrite (proj2 (N.leb_le _ _) H).
  - rewrite (proj2 (N.leb_gt _ _)) by lia. by destruct (list_find _ vs) as [[]|].
Qed.

Lemma visible_at_None ts vs : Forall (λ x, ts < x.1) vs → visible_at ts vs = None.
Proof.
  induction 1 as [|[s v] vs Hs _ IH]; [done|]. rewrite visible_at_cons, (proj2 (N.leb_gt _ _)); done.
Qed.

Lemma visible_at_elem ts vs x : visible_at ts vs = Some x → x ∈ vs ∧ x.1 <= ts.
Proof.
  induction vs as [|[s v] vs IH]; [done|]. rewrite visible_at_cons. destruct (N.leb_spec s ts).
  - intros [= <-]. split; [by left|done].
  - intros [? ?]%IH. split; [by right|done].
Qed.

(** Below the watermark nothing but the first version is kept. *)
Lemma gc_loop_low w vs : Forall (λ x : Version, x.1 < w) vs → gc_loop w false vs = [].
Proof.
  induction 1 as [|[s v] vs Hs _ IH]; [done|]. cbn in *. by rewrite (proj2 (N.leb_gt _ _)).
Qed.

Lemma gc_loop_value w ts vs :
  desc vs → w <= ts →
  value_at ts (gc_loop w false vs) =
    match visible_at ts vs with Some (s, v) => if w <=? s then v else None | None => None end.
Proof.
  intros Hd Hw. induction Hd as [|[s v] vs Hvs IH Hf]; [done|]. cbn [gc_loop].
  rewrite visible_at_cons. destruct (N.leb_spec w s) as [Hge|Hlt].
  - unfold value_at. rewrite visible_at_cons. destruct (N.leb_spec s ts); cbn [mbind option_bind snd].
    + by rewrite (proj2 (N.leb_le _ _) Hge).
    + exact IH.
  - cbn [andb]. rewrite gc_loop_low by (eapply Forall_impl; [exact Hf|]; cbn; intros; lia).
    by rewrite (proj2 (N.leb_le s ts)), (proj2 (N.leb_gt w s)) by lia.
Qed.

(** ** Which tables a policy picks *)

Lemma at_level_elem level live pinned t :
  t ∈ at_level level live pinned → t ∈ live ∧ unpinned pinned t = true.
Proof. unfold at_level. rewrite list_elem_of_filter. intros [[_ ?]%andb_prop ?]. done. Qed.

Lemma level_loop_ids s live pinned count level c :
  level_loop s live pinned count level = Some c →
  ∃ l, input_table_ids c = table_id <$> at_level l live pinned.
Proof.
  revert level. induction count as [|count IH]; intros level; [done|]. cbn [level_loop].
  repeat case_match; intros Hc; simplify_eq; eauto.
Qed.

Lemma insert_by_size_perm t l : insert_by_size t l ≡ₚ t :: l.
Proof.
  induction l as [|x l IH]; [done|]. cbn. case_match; [done|]. rewrite IH. apply Permutation_swap.
Qed.

Lemma sort_by_size_perm l : sort_by_size l ≡ₚ l.
Proof. induction l as [|x l IH]; [done|]. cbn. by rewrite insert_by_size_perm, IH. Qed.

Lemma tier_run_ids s level run run_max l c :
  tier_run s level run run_max l = Some c →
  input_table_ids c `sublist_of` run ++ (table_id <$> l).
Proof.
  revert run run_max. induction l as [|t l IH]; intros run run_max; cbn [tier_run].
  - case_match; intros Hc; simplify_eq. cbn. by rewrite app_nil_r.
  - destruct run as [|i run]; [by intros Hc%IH|].
    destruct (ratio_ok s (file_size t) run_max).
    { intros Hc%IH. by rewrite <-app_assoc in Hc. }
    case_match; intros Hc; [simplify_eq; by apply sublist_inserts_r|].
    apply IH in Hc. by apply sublist_inserts_l.
Qed.

Lemma by_level_elem live pinned l ts t :
  (l, ts) ∈ by_level live pinned → t ∈ ts → t ∈ live ∧ unpinned pinned t = true.
Proof.
  unfold by_level. intros Hl Ht.
  assert (∀ xs m, om_sorted m →
    (∀ l ts t, (l, ts) ∈ m → t ∈ ts → t ∈ live ∧ unpinned pinned t = true) →
    (∀ t, t ∈ xs → t ∈ live ∧ unpinned pinned t = true) →
    ∀ l ts t, (l, ts) ∈ foldl push_level m xs → t ∈ ts → t ∈ live ∧ unpinned pinned t = true) as Hgen.
  { clear. induction xs as [|x xs IH]; intros m Hs Hm Hx; [done|]. cbn [foldl]. apply IH.
    - by apply om_insert_sorted.
    - intros l ts t Hin Ht. apply om_insert_elem in Hin as [E|Hin]; [|by eapply Hm|done].
      simplify_eq. apply elem_of_app in Ht as [Ht|Ht%list_elem_of_singleton]; [|subst; apply Hx; by left].
      destruct (om_get (Manifest.level x) m) as [ts|] eqn:E; [|by apply elem_of_nil in Ht].
      apply om_get_elem in E; [by eapply Hm|done].
    - intros t Ht. apply Hx. by right. }
  eapply (Hgen _ []); [apply om_sorted_nil| | |exact Hl|exact Ht].
  - by intros ? ? ? ?%elem_of_nil.
  - intros y [? ?]%list_elem_of_filter. done.
Qed.

Lemma tier_loop_ids s groups c :
  tier_loop s groups = Some c →
  ∃ l ts, (l, ts) ∈ groups ∧ ∀ i, i ∈ input_table_ids c → ∃ t, t ∈ ts ∧ table_id t = i.
Proof.
  induction groups as [|[l ts] groups IH]; [done|]. cbn [tier_loop]. intros Hc.
  assert (tier_loop s groups = Some c → ∃ l0 ts0, (l0, ts0) ∈ (l, ts) :: groups ∧
    ∀ i, i ∈ input_table_ids c → ∃ t, t ∈ ts0 ∧ table_id t = i) as Hrest.
  { intros (l0 & ts0 & ? & ?)%IH. exists l0, ts0. split; [by right|done]. }
  case_match; [by apply Hrest|]. destruct (tier_run s l [] 0 (sort_by_size ts)) as [c'|] eqn:E; [|by apply Hrest].
  simplify_eq. exists l, ts. split; [by left|]. intros i Hi. apply tier_run_ids in E. cbn in E.
  apply (sublist_subseteq _ _ E) in Hi. apply list_elem_of_fmap in Hi as (t & -> & Ht).
  rewrite sort_by_size_perm in Ht. eauto.
Qed.

(** Every policy picks live tables that no snapshot pins. *)
Theorem policy_picks_unpinned (p : ConfiguredCompactionPolicy) (live : list TableMetadata)
    (pinned : gset N) (c : CompactionCandidate) (i : N) :
  pick_compaction p live pinned = Some c → i ∈ input_table_ids c →
  (i ∉ pinned) ∧ ∃ t, t ∈ live ∧ table_id t = i.
Proof.
  assert (∀ t, t ∈ live ∧ unpinned pinned t = true → table_id t = i →
            (i ∉ pinned) ∧ ∃ t, t ∈ live ∧ table_id t = i) as Hfin.
  { intros t [Ht Hu] <-. split; [|eauto]. unfold unpinned in Hu. by apply negb_true_iff, bool_decide_eq_false in Hu. }
  destruct p as [|s|s]; cbn [pick_compaction]; intros Hp Hi.
  - unfold l0_pick in Hp. case_match; simplify_eq. cbn in Hi. apply list_elem_of_fmap in Hi as (t & -> & Ht).
    apply list_elem_of_filter in Ht as [? ?]. by apply (Hfin t).
  - apply level_loop_ids in Hp as [l Hl]. rewrite Hl in Hi. apply list_elem_of_fmap in Hi as (t & -> & Ht).
    apply at_level_elem in Ht. by apply (Hfin t).
  - apply tier_loop_ids in Hp as (l & ts & Hg & Hin). destruct (Hin i Hi) as (t & Ht & <-).
    apply (Hfin t); [|done]. by eapply by_level_elem.
Qed.

(** The value a reader finds after garbage collection. *)
Lemma gc_select_value (vs : list Version) (w ts : N) :
  desc vs → w <= ts →
  value_at ts (select_versions_for_gc vs w) =
    (match visible_at ts vs with
     | Some (s, v) => if (w <=? s) || bool_decide (head vs = Some (s, v)) then v else None
     | None => None
     end) ∧
  (Forall (λ x, x.1 <= ts) vs ∨ w = 0 → value_at ts (select_versions_for_gc vs w) = value_at ts vs).
Proof.
  intros Hd Hw.
  assert (value_at ts (select_versions_for_gc vs w) =
    match visible_at ts vs with
    | Some (s, v) => if (w <=? s) || bool_decide (head vs = Some (s, v)) then v else None
    | None => None
    end) as Hmain.
  { destruct Hd as [|[s v] vs Hvs Hf]; [done|]. unfold select_versions_for_gc. cbn [head].
    rewrite visible_at_cons. destruct (N.leb_spec w s) as [Hge|Hlt].
    - replace (s <? w) with false by (symmetry; apply N.ltb_ge; lia). rewrite andb_false_r. cbn [gc_loop].
      rewrite (proj2 (N.leb_le _ _) Hge). unfold value_at. rewrite visible_at_cons.
      destruct (N.leb_spec s ts); cbn [mbind option_bind snd].
      + by rewrite (proj2 (N.leb_le _ _) Hge).
      + pose proof (gc_loop_value w ts vs Hvs Hw) as Hg. unfold value_at in Hg. rewrite Hg.
        destruct (visible_at ts vs) as [[s' v']|] eqn:Ev; [|done].
        apply visible_at_elem in Ev as [Hin _]. rewrite Forall_forall in Hf. specialize (Hf _ Hin). cbn in Hf.
        rewrite bool_decide_eq_false_2 by (intros [= <- <-]; lia). by rewrite orb_false_r.
    - rewrite (proj2 (N.leb_le s ts)), (proj2 (N.ltb_lt s w)) by lia. cbn [gc_loop].
      rewrite (proj2 (N.leb_gt w s)) by lia. rewrite (bool_decide_eq_true_2 (Some (s, v) = Some (s, v))) by done.
      cbn [orb]. rewrite gc_loop_low by (eapply Forall_impl; [exact Hf|]; cbn; intros; lia).
      destruct v as [v|].
      + rewrite bool_decide_eq_false_2 by done. cbn [andb].
        rewrite bool_decide_eq_true_2 by done. unfold value_at. rewrite visible_at_cons.
        by rewrite (proj2 (N.leb_le s ts)) by lia.
      + by rewrite bool_decide_eq_true_2 by done. }
  split; [exact Hmain|]. rewrite Hmain. unfold value_at.
  destruct (visible_at ts vs) as [[s v]|] eqn:Ev; [|done]. cbn [mbind option_bind snd].
  intros [Hall| ->]; [|by rewrite (proj2 (N.leb_le 0 s)) by lia].
  destruct Hd as [|[s0 v0] vs Hvs Hf]; [done|]. rewrite visible_at_cons in Ev.
  apply Forall_cons in Hall as [H0 _]. cbn in H0. rewrite (proj2 (N.leb_le _ _) H0) in Ev. simplify_eq.
  cbn [head]. by rewrite bool_decide_eq_true_2, orb_true_r.
Qed.

(** ** Properties *)

(** What garbage collection does to a reader at or above the watermark,
    exactly: the visible version survives when it is at or above the watermark
    or the newest of its key, and a value below the watermark that a newer
    version supersedes is lost.  In particular a reader of the latest state
    always reads the same, and with watermark 0 so does every reader. *)
Theorem gc_select_reads (vs : list Version) (w ts : N) :
  desc vs → w <= ts →
  value_at ts (select_versions_for_gc vs w) =
    (match visible_at ts vs with
     | Some (s, v) => if (w <=? s) || bool_decide (head vs = Some (s, v)) then v else None
     | None => None
     end) ∧
  (Forall (λ x, x.1 <= ts) vs ∨ w = 0 → value_at ts (select_versions_for_gc vs w) = value_at ts vs).
Proof. apply gc_select_value. Qed.

Lemma gc_select_reads_witness :
  let vs := [(9, None); (7, Some [1]); (4, Some [2])] in
  value_at 9 (select_versions_for_gc vs 5) =
    (match visible_at 9 vs with
     | Some (s, v) => if (5 <=? s) || bool_decide (head vs = Some (s, v)) then v else None
     | None => None
     end) ∧
  (Forall (λ x : Version, x.1 <= 9) vs ∨ 5 = 0 →
     value_at 9 (select_versions_for_gc vs 5) = value_at 9 vs).
Proof.
  apply (gc_select_reads [(9, None); (7, Some [1]); (4, Some [2])]); [|done].
  repeat constructor.
Defined.

(** Garbage collection loses a version that a reader above the watermark
    selects: a key written at 10 and at 30, collected with watermark 20, has no
    value for a reader at 25, who saw the first one before. *)
Theorem gc_loses_snapshot_version :
  let vs := [(30, Some [98]); (10, Some [97])] in
  20 <= 25 ∧ value_at 25 vs = Some [97] ∧ value_at 25 (select_versions_for_gc vs 20) = None.
Proof. by vm_compute. Qed.
