(* ===== verification/SstBlock.v ===== *)
(** Data blocks of the sorted tables, [kaya-lsm/src/sstable.rs]: entries in the
    plain and the prefix-compressed layout, the block with its restart array and
    CRC, and the tagged storage of compressed blocks. *)
From S2P Require Import Prelude Bytes Core.

Open Scope N_scope.

Record SstEntry := mkSstEntry { se_key : bytes; se_value : option bytes; se_sequence : N }.

#[export] Instance SstEntry_eq_dec : EqDecision SstEntry.
Proof. solve_decision. Defined.

Definition COMPRESSION_CODEC_NONE : N := 0.
Definition COMPRESSION_CODEC_LZ4 : N := 1.
Definition COMPRESSION_CODEC_ZSTD : N := 2.

Definition BLOCK_STORE_RAW : N := 0.
Definition BLOCK_STORE_LZ4 : N := 1.
Definition BLOCK_STORE_ZSTD : N := 2.

Definition PREFIX_RESTART_INTERVAL : nat := 8.

Definition ENTRY_KIND_PUT : N := 1.
Definition ENTRY_KIND_DELETE : N := 2.

(** ** Reading integers *)

Definition read_u8 (bs : bytes) (offset : nat) : result KayaError N :=
  ok_or (Corruption "truncated u8") (bs !! offset).
Definition read_u16_le (bs : bytes) (offset : nat) : result KayaError N :=
  read_le (Corruption "truncated u16") 2 offset bs.
Definition read_u32_le (bs : bytes) (offset : nat) : result KayaError N :=
  read_le (Corruption "truncated u32") 4 offset bs.
Definition read_u64_le (bs : bytes) (offset : nat) : result KayaError N :=
  read_le (Corruption "truncated u64") 8 offset bs.

(** ** Entries *)

Fixpoint common_prefix_len (a b : bytes) : nat :=
  match a, b with
  | x :: a, y :: b => if x =? y then S (common_prefix_len a b) else O
  | _, _ => O
  end.

(** [value_len] and [kind] of an entry. *)
Definition value_head (e : SstEntry) : N * N :=
  match se_value e with
  | Some v => (wrap u32_lim (lenN v), ENTRY_KIND_PUT)
  | None => (0, ENTRY_KIND_DELETE)
  end.

Definition encode_entry_legacy (e : SstEntry) : bytes :=
  let '(value_len, kind) := value_head e in
  le_bytes 4 (wrap u32_lim (lenN (se_key e))) ++ le_bytes 4 value_len ++ le_bytes 8 (se_sequence e) ++
  [kind] ++ se_key e ++ default [] (se_value e).

Definition encode_entry_prefix (e : SstEntry) (prev_key : option bytes) : bytes :=
  let shared := match prev_key with Some prev => common_prefix_len prev (se_key e) | None => O end in
  let non_shared := drop shared (se_key e) in
  let '(value_len, kind) := value_head e in
  le_bytes 4 (wrap u32_lim (N.of_nat shared)) ++ le_bytes 4 (wrap u32_lim (lenN non_shared)) ++
  le_bytes 4 value_len ++ le_bytes 8 (se_sequence e) ++ [kind] ++ non_shared ++ default [] (se_value e).

(** The loop of [encode_data_block] with prefix compression: the entries region
    and the restart offsets written so far. *)
Fixpoint encode_prefix_loop (i : nat) (prev_key : option bytes) (region : bytes) (restarts : list N)
    (es : list SstEntry) : bytes * list N :=
  match es with
  | [] => (region, restarts)
  | e :: es =>
      let restart := (i mod PREFIX_RESTART_INTERVAL =? 0)%nat in
      let restarts := if restart then restarts ++ [wrap u32_lim (lenN region)] else restarts in
      let prev_key := if restart then None else prev_key in
      encode_prefix_loop (S i) (Some (se_key e)) (region ++ encode_entry_prefix e prev_key) restarts es
  end.

Definition encode_data_block (es : list SstEntry) (prefix_compression : bool) : bytes :=
  let buf :=
    if prefix_compression then
      let '(region, restarts) := encode_prefix_loop 0 None [] [] es in
      le_bytes 4 (wrap u32_lim (lenN es)) ++ le_bytes 4 (wrap u32_lim (lenN restarts)) ++ region ++
      (restarts ≫= le_bytes 4)
    else
      le_bytes 4 (wrap u32_lim (lenN es)) ++ le_bytes 4 0 ++ (es ≫= encode_entry_legacy) in
  buf ++ le_bytes 4 (crc32c buf).

(** The value of an entry whose key ends at [next]. *)
Definition decode_value (bs : bytes) (next : nat) (value_len kind : N) : result KayaError (option bytes * nat) :=
  if kind =? ENTRY_KIND_PUT then
    Ok (Some (slice next (next + N.to_nat value_len) bs), (next + N.to_nat value_len)%nat)
  else if kind =? ENTRY_KIND_DELETE then Ok (None, next)
  else Err (Corruption ("unknown entry kind: " +:+ pretty kind)).

Definition decode_entry_legacy (bs : bytes) (offset data_len : nat) : result KayaError (SstEntry * nat) :=
  if (data_len <? offset + 17)%nat then Err (Corruption "truncated data block entry header")
  else
    key_len ← read_u32_le bs offset;
    value_len ← read_u32_le bs (offset + 4);
    sequence ← read_u64_le bs (offset + 8);
    kind ← read_u8 bs (offset + 16);
    let next := (offset + 17)%nat in
    if N.of_nat data_len <? N.of_nat next + key_len + value_len then
      Err (Corruption "truncated entry key/value")
    else
      let key := slice next (next + N.to_nat key_len) bs in
      '(value, next) ← decode_value bs (next + N.to_nat key_len) value_len kind;
      Ok (mkSstEntry key value sequence, next).

Definition decode_entry_prefix (bs : bytes) (offset data_len : nat) (restart_key : bytes)
    : result KayaError (SstEntry * nat) :=
  if (data_len <? offset + 21)%nat then Err (Corruption "truncated prefix entry header")
  else
    shared ← read_u32_le bs offset;
    non_shared_len ← read_u32_le bs (offset + 4);
    value_len ← read_u32_le bs (offset + 8);
    sequence ← read_u64_le bs (offset + 12);
    kind ← read_u8 bs (offset + 20);
    let next := (offset + 21)%nat in
    if (lenN restart_key <? shared) || (N.of_nat data_len <? N.of_nat next + non_shared_len + value_len) then
      Err (Corruption "truncated prefix entry key/value")
    else
      let key := take (N.to_nat shared) restart_key ++ slice next (next + N.to_nat non_shared_len) bs in
      '(value, next) ← decode_value bs (next + N.to_nat non_shared_len) value_len kind;
      Ok (mkSstEntry key value sequence, next).

(** ** Blocks *)

(** [for _ in 0..entry_count] over plain entries. *)
Fixpoint decode_legacy_loop (count : nat) (bs : bytes) (offset data_len : nat)
    : result KayaError (list SstEntry) :=
  match count with
  | O => Ok []
  | S count =>
      '(entry, next) ← decode_entry_legacy bs offset data_len;
      entries ← decode_legacy_loop count bs next data_len;
      Ok (entry :: entries)
  end.

(** The restart offsets; [prev] is the one before, if any. *)
Fixpoint read_restarts (count : nat) (bs : bytes) (at_ : nat) (span : N) (prev : option N)
    : result KayaError (list N) :=
  match count with
  | O => Ok []
  | S count =>
      rel ← read_u32_le bs at_;
      if span <? rel then Err (Corruption "restart offset out of entries range")
      else if match prev with Some p => rel <=? p | None => false end then
        Err (Corruption "restart offsets not monotonic")
      else
        restarts ← read_restarts count bs (at_ + 4) span (Some rel);
        Ok (rel :: restarts)
  end.

(** The inner [while]: drops the restart points at [offset]; [true] when there
    was one, which clears the key prefix. *)
Fixpoint pass_restarts (offset : nat) (restarts : list N) : bool * list N :=
  match restarts with
  | r :: rs =>
      if N.of_nat offset =? 8 + r then (true, (pass_restarts offset rs).2) else (false, restarts)
  | [] => (false, [])
  end.

(** The outer [while]; yields the entries and the final offset. *)
Fixpoint decode_prefix_loop (count : nat) (bs : bytes) (offset entries_end : nat) (restarts : list N)
    (restart_key : bytes) : result KayaError (list SstEntry * nat) :=
  match count with
  | O => Ok ([], offset)
  | S count =>
      let '(restart, restarts) := pass_restarts offset restarts in
      let restart_key := if restart then [] else restart_key in
      '(entry, next) ← decode_entry_prefix bs offset entries_end restart_key;
      '(entries, final) ← decode_prefix_loop count bs next entries_end restarts (se_key entry);
      Ok (entry :: entries, final)
  end.

Definition decode_data_block (bs : bytes) : result KayaError (list SstEntry) :=
  if lenN bs <? 12 then Err (Corruption "data block too short")
  else
    let data_len := (length bs - 4)%nat in
    expected_crc ← read_u32_le bs data_len;
    if negb (expected_crc =? crc32c (take data_len bs)) then
      Err (Corruption "SSTable data block CRC mismatch")
    else
      entry_count ← read_u32_le bs 0;
      restart_count ← read_u32_le bs 4;
      if restart_count =? 0 then decode_legacy_loop (N.to_nat entry_count) bs 8 data_len
      else
        let restarts_bytes := restart_count * 4 in
        if N.of_nat data_len <? 8 + restarts_bytes then Err (Corruption "truncated restart array")
        else
          let entries_end := (data_len - N.to_nat restarts_bytes)%nat in
          restarts ← read_restarts (N.to_nat restart_count) bs entries_end (N.of_nat entries_end - 8) None;
          '(entries, offset) ← decode_prefix_loop (N.to_nat entry_count) bs 8 entries_end restarts [];
          if (offset =? entries_end)%nat then Ok entries
          else Err (Corruption "prefix entries region size mismatch").

(** ** Storage *)

Section Storage.
(** The compressors: [lz4_flex] and [zstd]; an encoder that fails stores the
    block raw. *)
Context (lz4_compress : bytes → bytes) (lz4_decompress : bytes → result string bytes).
Context (zstd_encode : bytes → option bytes) (zstd_decode : bytes → result string bytes).

Definition tagged (raw : bytes) (store_kind : N) (compressed : bytes) : bytes :=
  if lenN compressed + 1 <? lenN raw then store_kind :: compressed else BLOCK_STORE_RAW :: raw.

Definition wrap_data_block_for_storage (raw : bytes) (codec : N) : bytes :=
  if codec =? COMPRESSION_CODEC_NONE then raw
  else if codec =? COMPRESSION_CODEC_LZ4 then tagged raw BLOCK_STORE_LZ4 (lz4_compress raw)
  else if codec =? COMPRESSION_CODEC_ZSTD then tagged raw BLOCK_STORE_ZSTD (default raw (zstd_encode raw))
  else raw.

Definition map_corruption (pre : string) {A} (r : result string A) : result KayaError A :=
  match r with Ok a => Ok a | Err e => Err (Corruption (pre +:+ e)) end.

Definition unwrap_data_block_from_storage (stored : bytes) (codec : N) : result KayaError bytes :=
  if codec =? COMPRESSION_CODEC_NONE then Ok stored
  else match stored with
       | [] => Err (Corruption "compressed data block is empty")
       | kind :: rest =>
           if kind =? BLOCK_STORE_RAW then Ok rest
           else if kind =? BLOCK_STORE_LZ4 then
             map_corruption "LZ4 data block decompress failed: " (lz4_decompress rest)
           else if kind =? BLOCK_STORE_ZSTD then
             map_corruption "ZSTD data block decompress failed: " (zstd_decode rest)
           else Err (Corruption ("unknown SSTable block store kind: " +:+ pretty kind))
       end.
End Storage.

(** ** Reading what is at an offset *)

Lemma drop_step {A} off (bs x rest : list A) :
  drop off bs = x ++ rest → drop (off + length x) bs = rest.
Proof. intros Hd. by rewrite <-drop_drop, Hd, drop_app_length. Qed.

Lemma slice_drop {A} off (bs x rest : list A) n :
  drop off bs = x ++ rest → n = length x → slice off (off + n) bs = x.
Proof. intros Hd ->. unfold slice. by rewrite Nat.add_comm, Nat.add_sub, Hd, take_app_length. Qed.

Lemma length_drop_app {A} off (bs x rest : list A) :
  drop off bs = x ++ rest → (0 < length x)%nat → (off + length x ≤ length bs)%nat.
Proof. intros Hd Hx. assert (length (drop off bs) = length (x ++ rest)) as E by (by rewrite Hd).
  rewrite length_drop, length_app in E. lia. Qed.

Lemma read_le_drop {E} (err : E) n off v bs rest :
  drop off bs = le_bytes n v ++ rest → (0 < n)%nat → v < 256 ^ N.of_nat n → read_le err n off bs = Ok v.
Proof.
  intros Hd Hn Hv. apply read_le_ok; [|by eapply slice_drop; [|by rewrite length_le_bytes]|done].
  rewrite <-(length_le_bytes n v) at 1. apply (length_drop_app off bs _ rest); [done|]. by rewrite length_le_bytes.
Qed.

Lemma read_u8_drop off bs b rest : drop off bs = b :: rest → read_u8 bs off = Ok b.
Proof.
  intros Hd. unfold read_u8. assert (bs !! off = Some b) as ->; [|done].
  replace off with (off + 0)%nat by lia. by rewrite <-lookup_drop, Hd.
Qed.

Lemma read_u16_drop off bs v rest : drop off bs = le_bytes 2 v ++ rest → v < 2 ^ 16 → read_u16_le bs off = Ok v.
Proof. intros Hd Hv. by apply (read_le_drop _ _ _ _ _ _ Hd); [lia|]. Qed.

Lemma read_u32_drop off bs v rest : drop off bs = le_bytes 4 v ++ rest → v < 2 ^ 32 → read_u32_le bs off = Ok v.
Proof. intros Hd Hv. by apply (read_le_drop _ _ _ _ _ _ Hd); [lia|]. Qed.

Lemma read_u32_end off (x y : bytes) : off = length x → length y = 4%nat → read_u32_le (x ++ y) off = Ok (le_val y).
Proof.
  intros -> Hy. unfold read_u32_le, read_le. rewrite length_app, Hy, (proj2 (Nat.ltb_ge _ _)) by lia.
  by rewrite slice_at_end by (rewrite ?Hy; lia).
Qed.

Lemma read_u64_drop off bs v rest : drop off bs = le_bytes 8 v ++ rest → v < 2 ^ 64 → read_u64_le bs off = Ok v.
Proof. intros Hd Hv. by apply (read_le_drop _ _ _ _ _ _ Hd); [lia|]. Qed.

(** Reads the next field of the bytes at [Hd], which then describes the rest. *)
Ltac at_field lem Hd := rewrite (lem _ _ _ _ Hd); [|first [lia|done|idtac]];
  cbn [mbind result_bind]; apply drop_step in Hd; rewrite length_le_bytes in Hd.
Ltac at_u32 Hd := at_field read_u32_drop Hd.
Ltac at_u64 Hd := at_field read_u64_drop Hd.

(** Sizes that fit the table format's fields; bytes are bytes. *)
Record entry_fits (x : SstEntry) : Prop := mkFits {
  ef_key : lenN (se_key x) < 2 ^ 32;
  ef_value : lenN (default [] (se_value x)) < 2 ^ 32;
  ef_seq : se_sequence x < 2 ^ 64;
  ef_key_bytes : bytes_ok (se_key x);
  ef_value_bytes : bytes_ok (default [] (se_value x))
}.

Definition value_kind (v : option bytes) : N :=
  match v with Some _ => ENTRY_KIND_PUT | None => ENTRY_KIND_DELETE end.

Lemma value_head_fits e :
  lenN (default [] (se_value e)) < 2 ^ 32 →
  value_head e = (lenN (default [] (se_value e)), value_kind (se_value e)).
Proof. intros Hv. unfold value_head. destruct (se_value e); cbn in *; [by rewrite wrap_small|done]. Qed.

Lemma decode_value_ok bs off v rest :
  drop off bs = default [] v ++ rest →
  decode_value bs off (lenN (default [] v)) (value_kind v) = Ok (v, (off + length (default [] v))%nat).
Proof.
  intros Hd. unfold decode_value. destruct v as [v|]; cbn [value_kind default from_option].
  - cbn [default from_option] in Hd. rewrite lenN_to_nat. cbn.
    by rewrite (slice_drop _ _ v rest) by done.
  - cbn. by rewrite Nat.add_0_r.
Qed.

Definition entry_len_legacy (e : SstEntry) : nat := (17 + length (se_key e) + length (default [] (se_value e)))%nat.

Lemma length_encode_legacy e : length (encode_entry_legacy e) = entry_len_legacy e.
Proof.
  unfold encode_entry_legacy, entry_len_legacy. destruct (value_head e).
  rewrite !length_app, !length_le_bytes. cbn. lia.
Qed.

Lemma lt_le_false (a b : nat) : (b ≤ a)%nat → (a <? b)%nat = false.
Proof. by rewrite Nat.ltb_ge. Qed.

Lemma decode_entry_legacy_ok bs off data_len e rest :
  drop off bs = encode_entry_legacy e ++ rest → entry_fits e →
  (off + entry_len_legacy e ≤ data_len)%nat →
  decode_entry_legacy bs off data_len = Ok (e, (off + entry_len_legacy e)%nat).
Proof.
  intros Hd [Hk Hv Hs _ _] Hl. unfold entry_len_legacy in *. unfold decode_entry_legacy.
  rewrite lt_le_false by lia. unfold encode_entry_legacy in Hd. rewrite value_head_fits in Hd by done.
  rewrite wrap_small in Hd by done. rewrite <-!app_assoc in Hd.
  at_u32 Hd. at_u32 Hd. rewrite <-Nat.add_assoc in Hd. cbn [Nat.add] in Hd.
  at_u64 Hd. rewrite <-Nat.add_assoc in Hd. cbn [Nat.add] in Hd.
  rewrite (read_u8_drop _ _ _ _ Hd). cbn [mbind result_bind].
  apply (drop_step _ _ [_]) in Hd. rewrite <-Nat.add_assoc in Hd. cbn [length Nat.add] in Hd.
  rewrite (proj2 (N.ltb_ge _ _)) by (unfold lenN; lia).
  rewrite lenN_to_nat, (slice_drop _ _ _ _ _ Hd) by done. apply drop_step in Hd.
  rewrite (decode_value_ok _ _ _ _ Hd). cbn [mbind result_bind]. destruct e; cbn. do 2 f_equal. lia.
Qed.

Lemma decode_legacy_loop_ok es bs off data_len rest :
  drop off bs = (es ≫= encode_entry_legacy) ++ rest → Forall entry_fits es →
  (off + length (es ≫= encode_entry_legacy) ≤ data_len)%nat →
  decode_legacy_loop (length es) bs off data_len = Ok es.
Proof.
  revert off. induction es as [|e es IH]; intros off Hd Hf Hl; [done|].
  apply Forall_cons in Hf as [He Hf]. rewrite bind_cons, <-app_assoc in Hd.
  rewrite bind_cons, length_app, length_encode_legacy in Hl. cbn [length decode_legacy_loop].
  rewrite (decode_entry_legacy_ok _ _ _ _ _ Hd) by (done || lia). cbn [mbind result_bind].
  rewrite IH; [done| |done|lia]. apply drop_step in Hd. by rewrite length_encode_legacy in Hd.
Qed.

(** ** The prefix-compressed layout *)

Lemma common_prefix_spec a b :
  (common_prefix_len a b ≤ length a)%nat ∧ (common_prefix_len a b ≤ length b)%nat ∧
  take (common_prefix_len a b) a ++ drop (common_prefix_len a b) b = b.
Proof.
  revert b. induction a as [|x a IH]; intros [|y b]; cbn; try (split_and!; [lia..|done]).
  destruct (N.eqb_spec x y) as [->|]; cbn; [|split_and!; [lia..|done]].
  destruct (IH b) as (? & ? & ?). split_and!; [lia..|by f_equal].
Qed.

(** How many bytes of the key are shared with the previous one. *)
Definition shared_len (prev : option bytes) (e : SstEntry) : nat :=
  match prev with Some p => common_prefix_len p (se_key e) | None => O end.

Definition entry_len_prefix (prev : option bytes) (e : SstEntry) : nat :=
  (21 + (length (se_key e) - shared_len prev e) + length (default [] (se_value e)))%nat.

Lemma shared_len_le prev e : (shared_len prev e ≤ length (se_key e))%nat.
Proof. destruct prev as [p|]; cbn; [|lia]. apply common_prefix_spec. Qed.

Lemma length_encode_prefix e prev : length (encode_entry_prefix e prev) = entry_len_prefix prev e.
Proof.
  unfold encode_entry_prefix, entry_len_prefix. fold (shared_len prev e). destruct (value_head e).
  rewrite !length_app, !length_le_bytes, length_drop. cbn. lia.
Qed.

Lemma decode_entry_prefix_ok bs off data_len e prev rk rest :
  drop off bs = encode_entry_prefix e prev ++ rest → entry_fits e →
  match prev with Some p => p = rk | None => True end →
  (off + entry_len_prefix prev e ≤ data_len)%nat →
  decode_entry_prefix bs off data_len rk = Ok (e, (off + entry_len_prefix prev e)%nat).
Proof.
  intros Hd [Hk Hv Hs _ _] Hprev Hl. pose proof (shared_len_le prev e) as Hsh.
  assert (shared_len prev e ≤ length rk)%nat as Hrk.
  { destruct prev as [p|]; cbn; [subst; apply common_prefix_spec|lia]. }
  assert (take (shared_len prev e) rk ++ drop (shared_len prev e) (se_key e) = se_key e) as Hkey.
  { destruct prev as [p|]; cbn; [subst; apply common_prefix_spec|done]. }
  unfold entry_len_prefix in *. unfold decode_entry_prefix. rewrite lt_le_false by lia.
  unfold encode_entry_prefix in Hd. rewrite value_head_fits in Hd by done. fold (shared_len prev e) in Hd.
  set (sh := shared_len prev e) in *. unfold lenN in Hk, Hd.
  rewrite !wrap_small in Hd by (rewrite ?length_drop; change u32_lim with (2 ^ 32); lia).
  rewrite <-!app_assoc in Hd.
  at_u32 Hd. rewrite length_drop in Hd. at_u32 Hd. rewrite <-Nat.add_assoc in Hd. cbn [Nat.add] in Hd.
  at_u32 Hd. rewrite <-Nat.add_assoc in Hd. cbn [Nat.add] in Hd.
  at_u64 Hd. rewrite <-Nat.add_assoc in Hd. cbn [Nat.add] in Hd.
  rewrite (read_u8_drop _ _ _ _ Hd). cbn [mbind result_bind].
  apply (drop_step _ _ [_]) in Hd. rewrite <-Nat.add_assoc in Hd. cbn [length Nat.add] in Hd.
  rewrite (proj2 (N.ltb_ge (lenN rk) _)) by (unfold lenN; lia).
  rewrite (proj2 (N.ltb_ge _ _)) by (unfold lenN; lia). cbn [orb].
  rewrite !Nat2N.id, (slice_drop _ _ _ _ _ Hd) by (by rewrite length_drop). apply drop_step in Hd.
  rewrite length_drop in Hd. fold (lenN (default [] (se_value e))).
  rewrite (decode_value_ok _ _ _ _ Hd). cbn [mbind result_bind]. rewrite Hkey.
  destruct e; cbn in *. do 2 f_equal. lia.
Qed.

Definition is_restart (i : nat) : bool := (i mod PREFIX_RESTART_INTERVAL =? 0)%nat.
Definition prev_at (i : nat) (prev : option bytes) : option bytes := if is_restart i then None else prev.

(** The entries region from position [i] on, and the restart offsets in it. *)
Fixpoint pregion (i : nat) (prev : option bytes) (es : list SstEntry) : bytes :=
  match es with
  | [] => []
  | e :: es => encode_entry_prefix e (prev_at i prev) ++ pregion (S i) (Some (se_key e)) es
  end.
Fixpoint prestarts (base : nat) (i : nat) (prev : option bytes) (es : list SstEntry) : list N :=
  match es with
  | [] => []
  | e :: es =>
      (if is_restart i then [N.of_nat base] else []) ++
      prestarts (base + entry_len_prefix (prev_at i prev) e) (S i) (Some (se_key e)) es
  end.

Lemma encode_prefix_loop_spec es : ∀ i prev region restarts,
  N.of_nat (length region + length (pregion i prev es)) < 2 ^ 32 →
  encode_prefix_loop i prev region restarts es =
    (region ++ pregion i prev es, restarts ++ prestarts (length region) i prev es).
Proof.
  induction es as [|e es IH]; intros i prev region restarts Hl; cbn [encode_prefix_loop pregion prestarts].
  { by rewrite !app_nil_r. }
  cbn [pregion] in Hl. rewrite length_app in Hl.
  fold (is_restart i). fold (prev_at i prev). rewrite IH by (rewrite length_app; lia).
  rewrite length_app, length_encode_prefix, <-app_assoc. f_equal. destruct (is_restart i); [|done].
  rewrite wrap_small by (unfold lenN; change u32_lim with (2 ^ 32); lia). unfold lenN. by rewrite <-app_assoc.
Qed.

Lemma prestarts_bounds es : ∀ base i prev,
  Forall (λ r, N.of_nat base <= r ∧ r <= N.of_nat (base + length (pregion i prev es))) (prestarts base i prev es).
Proof.
  induction es as [|e es IH]; intros base i prev; cbn [prestarts pregion]; [constructor|].
  rewrite length_app, length_encode_prefix. apply Forall_app. split.
  - destruct (is_restart i); constructor; [lia|constructor].
  - eapply Forall_impl; [apply IH|]. cbn. intros r [? ?]. lia.
Qed.

Lemma prestarts_later base n i prev es :
  (0 < n)%nat → Forall (λ r, N.of_nat base < r) (prestarts (base + n) i prev es).
Proof. intros. eapply Forall_impl; [apply prestarts_bounds|]. cbn. intros r [? ?]. lia. Qed.

Lemma entry_len_prefix_pos prev e : (0 < entry_len_prefix prev e)%nat.
Proof. unfold entry_len_prefix. lia. Qed.

Lemma prestarts_sorted es : ∀ base i prev, StronglySorted N.lt (prestarts base i prev es).
Proof.
  induction es as [|e es IH]; intros base i prev; cbn [prestarts]; [constructor|].
  destruct (is_restart i); cbn [app]; [|apply IH]. constructor; [apply IH|].
  apply prestarts_later, entry_len_prefix_pos.
Qed.

Lemma prestarts_length es : ∀ base i prev, (length (prestarts base i prev es) ≤ length (pregion i prev es))%nat.
Proof.
  induction es as [|e es IH]; intros base i prev; cbn [prestarts pregion]; [done|].
  rewrite !length_app, length_encode_prefix. specialize (IH (base + entry_len_prefix (prev_at i prev) e)%nat (S i) (Some (se_key e))).
  unfold entry_len_prefix in *. destruct (is_restart i); cbn [length]; lia.
Qed.

Lemma prestarts_pos base es : es ≠ [] → (0 < length (prestarts base 0 None es))%nat.
Proof. destruct es as [|e es]; [done|]. intros _. cbn [prestarts is_restart]. cbn. lia. Qed.

Lemma pass_restarts_later off rs :
  Forall (λ r, N.of_nat off < 8 + r) rs → pass_restarts off rs = (false, rs).
Proof. destruct 1 as [|r rs Hr _]; [done|]. cbn. by rewrite (proj2 (N.eqb_neq _ _)) by lia. Qed.

Lemma pass_restarts_spec base i prev e es :
  pass_restarts (8 + base) (prestarts base i prev (e :: es)) =
    (is_restart i, prestarts (base + entry_len_prefix (prev_at i prev) e) (S i) (Some (se_key e)) es).
Proof.
  cbn [prestarts]. assert (Forall (λ r, N.of_nat (8 + base) < 8 + r)
    (prestarts (base + entry_len_prefix (prev_at i prev) e) (S i) (Some (se_key e)) es)) as Hf.
  { eapply Forall_impl; [apply prestarts_later, entry_len_prefix_pos|]. cbn. intros; lia. }
  destruct (is_restart i); cbn [app]; [|by apply pass_restarts_later].
  cbn [pass_restarts]. rewrite (proj2 (N.eqb_eq _ _)) by lia. by rewrite pass_restarts_later.
Qed.

Lemma decode_prefix_loop_ok es : ∀ bs base i prev rk entries_end rest,
  drop (8 + base) bs = pregion i prev es ++ rest → Forall entry_fits es →
  match prev with Some p => p = rk | None => is_restart i = true end →
  (8 + base + length (pregion i prev es) ≤ entries_end)%nat →
  decode_prefix_loop (length es) bs (8 + base) entries_end (prestarts base i prev es) rk =
    Ok (es, (8 + base + length (pregion i prev es))%nat).
Proof.
  induction es as [|e es IH]; intros bs base i prev rk entries_end rest Hd Hf Hp Hl.
  { cbn. do 2 f_equal. lia. }
  apply Forall_cons in Hf as [He Hf]. cbn [pregion] in Hd, Hl. rewrite <-app_assoc in Hd.
  rewrite length_app, length_encode_prefix in Hl. cbn [length decode_prefix_loop].
  rewrite pass_restarts_spec. cbn [fst snd].
  rewrite (decode_entry_prefix_ok _ _ _ _ _ _ _ Hd); [|done| |lia].
  2: { unfold prev_at. destruct (is_restart i); [done|]. by destruct prev. }
  cbn [mbind result_bind]. apply drop_step in Hd. rewrite length_encode_prefix in Hd.
  rewrite <-Nat.add_assoc in Hd |- *.
  rewrite (IH bs _ _ _ _ _ _ Hd); [|done|done|lia]. cbn [mbind result_bind pregion].
  rewrite length_app, length_encode_prefix. do 2 f_equal. lia.
Qed.

Lemma read_restarts_ok rs : ∀ bs at_ span prev rest,
  drop at_ bs = (rs ≫= le_bytes 4) ++ rest → StronglySorted N.lt rs →
  Forall (λ r, r <= span ∧ r < 2 ^ 32) rs →
  match prev with Some p => Forall (λ r, p < r) rs | None => True end →
  read_restarts (length rs) bs at_ span prev = Ok rs.
Proof.
  induction rs as [|r rs IH]; intros bs at_ span prev rest Hd Hs Hf Hp; [done|].
  inversion Hs as [|? ? Hs' Hlt]; subst. apply Forall_cons in Hf as [[Hspan H32] Hf].
  rewrite bind_cons, <-app_assoc in Hd. cbn [length read_restarts]. at_u32 Hd.
  rewrite (proj2 (N.ltb_ge _ _)) by done.
  replace (match prev with Some p => r <=? p | None => false end) with false.
  2: { destruct prev as [p|]; [|done]. apply Forall_cons in Hp as [? _]. symmetry. by apply N.leb_gt. }
  by rewrite (IH _ _ _ _ _ Hd).
Qed.

(** ** Block round trip and corruption *)

Definition block_body (es : list SstEntry) (pc : bool) : bytes :=
  if pc then
    le_bytes 4 (lenN es) ++ le_bytes 4 (lenN (prestarts 0 0 None es)) ++ pregion 0 None es ++
    (prestarts 0 0 None es ≫= le_bytes 4)
  else le_bytes 4 (lenN es) ++ le_bytes 4 0 ++ (es ≫= encode_entry_legacy).

Lemma length_le4_list (rs : list N) : length (rs ≫= le_bytes 4) = (4 * length rs)%nat.
Proof. induction rs; [done|]. rewrite bind_cons, length_app, length_le_bytes, IHrs. cbn. lia. Qed.

Lemma legacy_region_length es : (17 * length es ≤ length (es ≫= encode_entry_legacy))%nat.
Proof.
  induction es as [|e es IH]; [done|]. rewrite bind_cons, length_app, length_encode_legacy.
  unfold entry_len_legacy. cbn [length]. lia.
Qed.

Lemma pregion_length es : ∀ i prev, (21 * length es ≤ length (pregion i prev es))%nat.
Proof.
  induction es as [|e es IH]; intros i prev; cbn [pregion]; [done|]. rewrite length_app, length_encode_prefix.
  specialize (IH (S i) (Some (se_key e))). unfold entry_len_prefix. cbn [length]. lia.
Qed.

Lemma block_body_len es pc : (length es ≤ length (block_body es pc))%nat.
Proof.
  unfold block_body. destruct pc; rewrite !length_app, !length_le_bytes.
  - pose proof (pregion_length es 0 None). lia.
  - pose proof (legacy_region_length es). lia.
Qed.

(** The bytes of the entries region as the encoder builds it, its size read off
    the unwrapped lengths. *)
Definition block_size (es : list SstEntry) (pc : bool) : N := lenN (block_body es pc) + 4.

Lemma encode_data_block_body es pc :
  block_size es pc < 2 ^ 32 →
  encode_data_block es pc = block_body es pc ++ le_bytes 4 (crc32c (block_body es pc)).
Proof.
  intros Hl. unfold block_size in Hl. pose proof (block_body_len es pc) as Hn. unfold lenN in Hl.
  assert (wrap u32_lim (lenN es) = lenN es) as Hes.
  { apply wrap_small. unfold lenN. change u32_lim with (2 ^ 32). lia. }
  unfold encode_data_block. rewrite Hes. unfold block_body in *. destruct pc; [|done].
  rewrite !length_app, !length_le_bytes, length_le4_list in Hl.
  rewrite encode_prefix_loop_spec by (cbn [length]; lia). cbn [app length].
  rewrite (wrap_small _ (lenN (prestarts _ _ _ _))); [done|]. unfold lenN. change u32_lim with (2 ^ 32). lia.
Qed.

Lemma length_encode_data_block es pc :
  block_size es pc < 2 ^ 32 → lenN (encode_data_block es pc) = block_size es pc.
Proof. intros. rewrite encode_data_block_body by done. by rewrite lenN_app, lenN_le_bytes. Qed.

Lemma kind_byte_ok v : byte_ok (value_kind v).
Proof. by destruct v. Qed.

Lemma encode_legacy_bytes_ok e : entry_fits e → bytes_ok (encode_entry_legacy e).
Proof.
  intros [_ Hv _ Hkb Hvb]. unfold encode_entry_legacy, bytes_ok. rewrite value_head_fits by done.
  rewrite !Forall_app. split_and!; [apply le_bytes_ok..| |done|done]. constructor; [apply kind_byte_ok|constructor].
Qed.

Lemma encode_prefix_bytes_ok e prev : entry_fits e → bytes_ok (encode_entry_prefix e prev).
Proof.
  intros [_ Hv _ Hkb Hvb]. unfold encode_entry_prefix, bytes_ok. rewrite value_head_fits by done.
  rewrite !Forall_app. split_and!; [apply le_bytes_ok..| |by apply Forall_drop|done].
  constructor; [apply kind_byte_ok|constructor].
Qed.

Lemma bind_bytes_ok {A} (f : A → bytes) l : (∀ x, x ∈ l → bytes_ok (f x)) → bytes_ok (l ≫= f).
Proof.
  induction l as [|x l IH]; intros Hf; [constructor|]. rewrite bind_cons. apply Forall_app.
  split; [apply Hf; by left|apply IH; intros; apply Hf; by right].
Qed.

Lemma pregion_bytes_ok es : ∀ i prev, Forall entry_fits es → bytes_ok (pregion i prev es).
Proof.
  induction es as [|e es IH]; intros i prev Hf; cbn [pregion]; [constructor|].
  apply Forall_cons in Hf as [He Hf]. apply Forall_app. split; [by apply encode_prefix_bytes_ok|by apply IH].
Qed.

Lemma block_body_bytes_ok es pc : Forall entry_fits es → bytes_ok (block_body es pc).
Proof.
  intros Hf. unfold block_body, bytes_ok. destruct pc; rewrite !Forall_app.
  - split_and!; [apply le_bytes_ok..|by apply pregion_bytes_ok|].
    apply bind_bytes_ok. intros. apply le_bytes_ok.
  - split_and!; [apply le_bytes_ok..|]. apply bind_bytes_ok. intros x Hx. apply encode_legacy_bytes_ok.
    exact (proj1 (Forall_forall _ _) Hf x Hx).
Qed.

Lemma encode_data_block_bytes_ok es pc :
  Forall entry_fits es → block_size es pc < 2 ^ 32 → bytes_ok (encode_data_block es pc).
Proof.
  intros. rewrite encode_data_block_body by done. apply Forall_app.
  split; [by apply block_body_bytes_ok|apply le_bytes_ok].
Qed.

Lemma decode_data_block_encode es pc :
  es ≠ [] → Forall entry_fits es → block_size es pc < 2 ^ 32 →
  decode_data_block (encode_data_block es pc) = Ok es.
Proof.
  intros Hne Hf Hsz. rewrite encode_data_block_body by done. pose proof (block_body_bytes_ok es pc Hf) as Hok.
  pose proof (crc32c_bound _ Hok) as Hcrc. pose proof (block_body_len es pc) as Hn.
  unfold block_size, lenN in Hsz. set (body := block_body es pc) in *. set (crc := crc32c body) in *.
  assert (8 < length body)%nat as H8.
  { unfold body, block_body. pose proof (legacy_region_length es). pose proof (pregion_length es 0 None).
    destruct es as [|e es]; [done|]. cbn [length] in *. destruct pc; rewrite !length_app, !length_le_bytes; cbn [length]; lia. }
  unfold decode_data_block. unfold lenN. rewrite length_app, length_le_bytes.
  rewrite (proj2 (N.ltb_ge _ _)) by lia. rewrite Nat.add_sub.
  rewrite (read_u32_drop (length body) _ crc []); [|by rewrite drop_app_length, app_nil_r|done].
  cbn [mbind result_bind]. rewrite take_app_length. fold crc. rewrite N.eqb_refl. cbn [negb].
  assert (drop 0 (body ++ le_bytes 4 crc) = body ++ le_bytes 4 crc) as Hd by done.
  unfold body in Hd at 2. unfold block_body in Hd. destruct pc.
  - rewrite <-!app_assoc in Hd. at_u32 Hd; [|unfold lenN; lia]. cbn [Nat.add] in Hd.
    assert (length body = (8 + length (pregion 0 None es) + 4 * length (prestarts 0 0 None es))%nat) as Hlb.
    { unfold body, block_body. rewrite !length_app, !length_le_bytes, length_le4_list. lia. }
    pose proof (prestarts_length es 0 0 None) as Hpl. at_u32 Hd; [|unfold lenN; lia]. cbn [Nat.add] in Hd.
    assert (0 < length (prestarts 0 0 None es))%nat as Hpos by (by apply prestarts_pos).
    rewrite (proj2 (N.eqb_neq _ _)) by (unfold lenN; lia). rewrite (proj2 (N.ltb_ge _ _)) by (unfold lenN; lia).
    replace (length body - N.to_nat (lenN (prestarts 0 0 None es) * 4))%nat
      with (8 + length (pregion 0 None es))%nat by (unfold lenN; lia).
    rewrite !lenN_to_nat. pose proof (drop_step _ _ _ _ Hd) as Hr.
    rewrite (read_restarts_ok _ _ _ _ _ _ Hr); [|apply prestarts_sorted| |done].
    2: { eapply Forall_impl; [apply prestarts_bounds|]. cbn. intros r [? ?]. lia. }
    cbn [mbind result_bind]. rewrite (decode_prefix_loop_ok es _ 0 0 None [] _ _ Hd); [|done|done|lia].
    cbn [mbind result_bind]. by rewrite Nat.add_0_r, Nat.eqb_refl.
  - rewrite <-!app_assoc in Hd. at_u32 Hd; [|unfold lenN; lia]. cbn [Nat.add] in Hd. at_u32 Hd. cbn [Nat.add] in Hd.
    cbn [N.eqb]. rewrite lenN_to_nat. apply (decode_legacy_loop_ok _ _ _ _ _ Hd); [done|].
    unfold body, block_body. rewrite !length_app, !length_le_bytes. lia.
Qed.

(** A block with one byte changed is not accepted. *)
Lemma decode_data_block_corrupt es pc i b b' :
  Forall entry_fits es → es ≠ [] → block_size es pc < 2 ^ 32 → byte_ok b' →
  encode_data_block es pc !! i = Some b → b ≠ b' →
  decode_data_block (<[i:=b']> (encode_data_block es pc)) = Err (Corruption "SSTable data block CRC mismatch").
Proof.
  intros Hf Hne Hsz Hb' Hi Hbb. pose proof (length_encode_data_block es pc Hsz) as Hlen.
  rewrite encode_data_block_body in Hi, Hlen |- * by done.
  pose proof (block_body_bytes_ok es pc Hf) as Hok. set (body := block_body es pc) in *.
  pose proof (crc32c_bound _ Hok) as Hcrc.
  assert (8 < length body)%nat as H8.
  { unfold body, block_body. pose proof (legacy_region_length es). pose proof (pregion_length es 0 None).
    destruct es as [|e es]; [done|]. cbn [length] in *. destruct pc; rewrite !length_app, !length_le_bytes; cbn [length]; lia. }
  unfold decode_data_block. unfold lenN. rewrite length_insert, length_app, length_le_bytes.
  rewrite (proj2 (N.ltb_ge _ _)) by lia. rewrite Nat.add_sub.
  destruct (decide (i < length body)%nat) as [Hlt|Hge].
  - rewrite insert_app_l by done. rewrite lookup_app_l in Hi by done.
    rewrite (read_u32_end (length body)); [|by rewrite length_insert|apply length_le_bytes]. cbn [mbind result_bind].
    rewrite le_val_le_bytes by done. rewrite take_app_length' by (by rewrite length_insert).
    rewrite (proj2 (N.eqb_neq _ _)); [done|]. intros E. symmetry in E. revert E. by apply (crc32c_insert body i b b').
  - replace i with (length body + (i - length body))%nat in * by lia. set (j := (i - length body)%nat) in *.
    rewrite insert_app_r. rewrite lookup_app_r in Hi by lia.
    replace (length body + j - length body)%nat with j in Hi by lia.
    rewrite (read_u32_end (length body)); [|done|by rewrite length_insert, length_le_bytes]. cbn [mbind result_bind].
    rewrite take_app_length. rewrite (proj2 (N.eqb_neq _ _)); [done|]. intros E.
    assert (<[j:=b']> (le_bytes 4 (crc32c body)) = le_bytes 4 (crc32c body)) as Hsame.
    { rewrite <-(le_bytes_le_val (<[j:=b']> (le_bytes 4 (crc32c body)))).
      - rewrite length_insert, length_le_bytes. by rewrite E.
      - apply Forall_insert; [apply le_bytes_ok|done]. }
    assert (j < 4)%nat as Hj by (apply lookup_lt_Some in Hi; by rewrite length_le_bytes in Hi).
    rewrite <-Hsame in Hi. rewrite list_lookup_insert_eq in Hi by (by rewrite length_le_bytes). congruence.
Qed.

(** ** Storage round trip *)

Section StorageRoundtrip.
Context (lz4_compress : bytes → bytes) (lz4_decompress : bytes → result string bytes).
Context (zstd_encode : bytes → option bytes) (zstd_decode : bytes → result string bytes).
Hypothesis lz4_roundtrip : ∀ raw, lz4_decompress (lz4_compress raw) = Ok raw.
Hypothesis zstd_roundtrip : ∀ raw out, zstd_encode raw = Some out → zstd_decode out = Ok raw.

Lemma unwrap_wrap raw codec :
  codec ≤ COMPRESSION_CODEC_ZSTD →
  unwrap_data_block_from_storage lz4_decompress zstd_decode
    (wrap_data_block_for_storage lz4_compress zstd_encode raw codec) codec = Ok raw.
Proof.
  intros Hc. unfold wrap_data_block_for_storage, unwrap_data_block_from_storage, COMPRESSION_CODEC_ZSTD in *.
  assert (codec = 0 ∨ codec = 1 ∨ codec = 2) as [->|[->| ->]] by lia; [done|..].
  - change (1 =? COMPRESSION_CODEC_NONE) with false. change (1 =? COMPRESSION_CODEC_LZ4) with true. cbn iota.
    unfold tagged. destruct (_ <? _); [|done]. cbn. by rewrite lz4_roundtrip.
  - change (2 =? COMPRESSION_CODEC_NONE) with false. change (2 =? COMPRESSION_CODEC_LZ4) with false.
    change (2 =? COMPRESSION_CODEC_ZSTD) with true. cbn iota.
    unfold tagged. destruct (_ <? _) eqn:E; [|done]. destruct (zstd_encode raw) as [out|] eqn:Ez; cbn.
    + by rewrite (zstd_roundtrip _ _ Ez).
    + apply N.ltb_lt in E. cbn in E. lia.
Qed.
End StorageRoundtrip.

(** ** Sizes *)

(** A bound on what an entry costs in any layout, index and restarts included. *)
Definition entry_cost (e : SstEntry) : N := 64 + lenN (se_key e) + lenN (default [] (se_value e)).
Definition table_size (es : list SstEntry) : N := foldr N.add 0 (entry_cost <$> es).

(** Entries that fit the format's fields, less than a gibibyte of them. *)
Record table_fits (es : list SstEntry) : Prop := mkTableFits {
  tf_entries : Forall entry_fits es;
  tf_size : table_size es < 2 ^ 30
}.

Lemma table_size_app a b : table_size (a ++ b) = table_size a + table_size b.
Proof. unfold table_size. induction a as [|x a IH]; cbn in *; [done|]. rewrite IH. lia. Qed.

Lemma table_size_submseteq a b : a ⊆+ b → table_size a <= table_size b.
Proof. unfold table_size. induction 1; cbn in *; lia. Qed.

Lemma table_size_length es : 64 * lenN es <= table_size es.
Proof.
  unfold table_size, lenN. induction es as [|e es IH]; cbn in *; [lia|]. unfold entry_cost at 1. lia.
Qed.

Lemma legacy_region_size es : lenN (es ≫= encode_entry_legacy) <= table_size es.
Proof.
  induction es as [|e es IH]; [done|]. rewrite bind_cons, lenN_app.
  unfold lenN at 1. rewrite length_encode_legacy. unfold entry_len_legacy, table_size in *. cbn.
  unfold entry_cost, lenN in *. lia.
Qed.

Lemma pregion_size es : ∀ i prev, lenN (pregion i prev es) + 4 * lenN es <= table_size es.
Proof.
  induction es as [|e es IH]; intros i prev; [done|]. cbn [pregion]. rewrite lenN_app.
  unfold lenN at 1. rewrite length_encode_prefix. specialize (IH (S i) (Some (se_key e))).
  unfold entry_len_prefix, table_size in *. cbn. unfold entry_cost, lenN in *. cbn in *. lia.
Qed.

Lemma prestarts_count es : ∀ base i prev, (length (prestarts base i prev es) ≤ length es)%nat.
Proof.
  induction es as [|e es IH]; intros base i prev; cbn [prestarts]; [done|]. rewrite length_app.
  specialize (IH (base + entry_len_prefix (prev_at i prev) e)%nat (S i) (Some (se_key e))).
  destruct (is_restart i); cbn [length]; lia.
Qed.

Lemma block_size_bound es pc : block_size es pc <= table_size es + 12.
Proof.
  unfold block_size, block_body. destruct pc; rewrite !lenN_app, !lenN_le_bytes.
  - pose proof (pregion_size es 0 None). pose proof (prestarts_count es 0 0 None).
    unfold lenN at 2. rewrite length_le4_list. unfold lenN in *. lia.
  - pose proof (legacy_region_size es). lia.
Qed.
