(* ===== verification/SstSpec.v ===== *)
(** Sorted version lists: the order of table entries and what a point read and
    a prefix scan of them mean. *)
From S2P Require Import Prelude Bytes Core OrdMap InternalKey SstBlock.

Open Scope N_scope.

Definition sst_ik (x : SstEntry) : InternalKey := mkIK (se_key x) (se_sequence x).

(** User keys ascending, the versions of a key newest first, none twice. *)
Definition sst_sorted (es : list SstEntry) : Prop :=
  StronglySorted (λ x y, ik_cmp (sst_ik x) (sst_ik y) = Lt) es.

Definition version_of (k : bytes) (ts : N) (x : SstEntry) : Prop := se_key x = k ∧ se_sequence x <= ts.

#[export] Instance version_of_dec k ts x : Decision (version_of k ts x).
Proof. apply _. Defined.

(** The newest version of [k] not after [ts]: the first one in table order. *)
Definition sst_newest (k : bytes) (ts : N) (es : list SstEntry) : option SstEntry :=
  head (filter (version_of k ts) es).

(** The newest visible version of every key with the prefix, in key order. *)
Fixpoint sst_visible (prefix : bytes) (ts : N) (seen : option bytes) (es : list SstEntry) : list SstEntry :=
  match es with
  | [] => []
  | x :: es =>
      if starts_with prefix (se_key x) && (se_sequence x <=? ts) && negb (bool_decide (seen = Some (se_key x)))
      then x :: sst_visible prefix ts (Some (se_key x)) es
      else sst_visible prefix ts seen es
  end.

Lemma sst_sorted_cons x es :
  sst_sorted (x :: es) ↔ sst_sorted es ∧ Forall (λ y, ik_cmp (sst_ik x) (sst_ik y) = Lt) es.
Proof. split; [by inversion 1|intros []; by constructor]. Qed.

(** Of two versions of a key, the one that comes first is newer. *)
Lemma sst_sorted_newer x y es :
  sst_sorted (x :: es) → y ∈ es → se_key y = se_key x → se_sequence y < se_sequence x.
Proof.
  intros [_ Hf]%sst_sorted_cons Hy Hk. rewrite Forall_forall in Hf. specialize (Hf y Hy).
  unfold sst_ik in Hf. rewrite ik_cmp_lt in Hf. cbn in Hf. destruct Hf as [Hf|[_ Hf]]; [|done].
  by rewrite Hk, bcmp_refl in Hf.
Qed.

(** [x] is the newest version of [k] not after [ts] among [es]. *)
Definition is_latest (es : list SstEntry) (k : bytes) (ts : N) (x : SstEntry) : Prop :=
  x ∈ es ∧ version_of k ts x ∧ ∀ y, y ∈ es → version_of k ts y → se_sequence y <= se_sequence x.

Lemma sst_newest_None k ts es :
  sst_newest k ts es = None ↔ ∀ y, y ∈ es → ¬ version_of k ts y.
Proof.
  unfold sst_newest. split.
  - intros Hn y Hy Hv. assert (y ∈ filter (version_of k ts) es) as Hin by (by apply list_elem_of_filter).
    destruct (filter (version_of k ts) es); [by apply elem_of_nil in Hin|done].
  - intros Hno. destruct (filter (version_of k ts) es) as [|y l] eqn:E; [done|].
    assert (y ∈ filter (version_of k ts) es) as [Hv Hy]%list_elem_of_filter by (rewrite E; by left).
    by destruct (Hno y Hy).
Qed.

Lemma sst_newest_latest k ts es x :
  sst_sorted es → sst_newest k ts es = Some x → is_latest es k ts x.
Proof.
  unfold sst_newest. intros Hs. induction es as [|y es IH]; [done|].
  rewrite filter_cons. destruct (decide (version_of k ts y)) as [Hv|Hv]; cbn [head].
  - intros [= <-]. split_and!; [by left|done|]. intros z [->|Hz]%elem_of_cons Hzv; [done|].
    apply N.lt_le_incl. eapply sst_sorted_newer; [exact Hs|done|]. destruct Hzv, Hv. congruence.
  - intros Hx. destruct IH as (Hin & Hxv & Hall); [by apply sst_sorted_cons in Hs as []|done|].
    split_and!; [by right|done|]. intros z [->|Hz]%elem_of_cons Hzv; [done|by apply Hall].
Qed.


Lemma sst_sorted_NoDup es : sst_sorted es → NoDup es.
Proof.
  induction es as [|x es IH]; intros Hs; [constructor|]. pose proof Hs as [Hs' Hf]%sst_sorted_cons.
  constructor; [|by apply IH]. intros Hin. pose proof (sst_sorted_newer _ _ _ Hs Hin eq_refl). lia.
Qed.

(** Sorted entries taken from a list that fits, fit. *)
Lemma table_fits_sub es es' :
  sst_sorted es' → (∀ x, x ∈ es' → x ∈ es) → table_fits es → table_fits es'.
Proof.
  intros Hs Hsub [Hf Ht]. split.
  - apply Forall_forall. intros x Hx. exact (proj1 (Forall_forall _ _) Hf x (Hsub x Hx)).
  - eapply N.le_lt_trans; [|exact Ht]. apply table_size_submseteq.
    apply NoDup_submseteq; [by apply sst_sorted_NoDup|done].
Qed.

Lemma sst_sorted_keys x y es : sst_sorted (x :: es) → y ∈ es → bcmp (se_key x) (se_key y) ≠ Gt.
Proof.
  intros [_ Hf]%sst_sorted_cons Hy. pose proof (proj1 (Forall_forall _ _) Hf y Hy) as H.
  apply ik_cmp_lt in H as [H|[H _]]; cbn in H; rewrite H; [done|by rewrite bcmp_refl].
Qed.

Lemma bcmp_le_trans a b c : bcmp a b ≠ Gt → bcmp b c ≠ Gt → bcmp a c ≠ Gt.
Proof.
  intros H1 H2. destruct (bcmp a b) eqn:E1; [|destruct (bcmp b c) eqn:E2|done].
  - by apply bcmp_eq in E1 as ->.
  - apply bcmp_eq in E2 as <-. by rewrite E1.
  - by rewrite (bcmp_trans_lt a b c).
  - done.
Qed.

Lemma bcmp_lt_le_trans a b c : bcmp a b = Lt → bcmp b c ≠ Gt → bcmp a c = Lt.
Proof.
  intros H1 H2. destruct (bcmp b c) eqn:E2; [|by eapply bcmp_trans_lt|done]. by apply bcmp_eq in E2 as <-.
Qed.

Lemma bcmp_le_lt_trans a b c : bcmp a b ≠ Gt → bcmp b c = Lt → bcmp a c = Lt.
Proof.
  intros H1 H2. destruct (bcmp a b) eqn:E1; [|by eapply bcmp_trans_lt|done]. by apply bcmp_eq in E1 as ->.
Qed.

Lemma sst_app_keys es1 es2 x y :
  sst_sorted (es1 ++ es2) → x ∈ es1 → y ∈ es2 → bcmp (se_key x) (se_key y) ≠ Gt.
Proof.
  induction es1 as [|z es1 IH]; [by intros _ ?%elem_of_nil|]. cbn [app]. intros Hs [->|Hx]%elem_of_cons Hy.
  - eapply sst_sorted_keys; [exact Hs|]. apply elem_of_app. by right.
  - apply IH; [by apply sst_sorted_cons in Hs as []|done|done].
Qed.

Lemma sst_sorted_app_r es1 es2 : sst_sorted (es1 ++ es2) → sst_sorted es2.
Proof. induction es1 as [|z es1 IH]; [done|]. cbn. intros [Hs _]%sst_sorted_cons. auto. Qed.

(** Nothing to find among keys that are all after, or all before, the one asked. *)
Lemma sst_newest_after k ts es :
  (∀ y, y ∈ es → bcmp k (se_key y) = Lt) → sst_newest k ts es = None.
Proof. intros H. apply sst_newest_None. intros y Hy [Hk _]. specialize (H y Hy). by rewrite Hk, bcmp_refl in H. Qed.

Lemma sst_newest_skip k ts es1 es2 :
  sst_newest k ts es1 = None → sst_newest k ts (es1 ++ es2) = sst_newest k ts es2.
Proof.
  unfold sst_newest. rewrite filter_app. destruct (filter (version_of k ts) es1); [done|by intros [=]].
Qed.

Lemma sst_visible_unseen p ts k es :
  (∀ y, y ∈ es → bcmp k (se_key y) = Lt) → sst_visible p ts (Some k) es = sst_visible p ts None es.
Proof.
  induction es as [|x es IH]; intros Hlt; [done|]. cbn [sst_visible].
  rewrite (bool_decide_eq_false_2 (Some k = Some (se_key x))), (bool_decide_eq_false_2 (None = Some (se_key x))) by
    (try done; intros [= ->]; specialize (Hlt x ltac:(by left)); by rewrite bcmp_refl in Hlt).
  rewrite IH; [done|]. intros y Hy. apply Hlt. by right.
Qed.

Lemma sst_visible_none p ts seen es :
  (∀ y, y ∈ es → starts_with p (se_key y) = false) → sst_visible p ts seen es = [].
Proof.
  induction es as [|x es IH]; intros H; [done|]. cbn [sst_visible]. rewrite H by (by left). cbn.
  apply IH. intros y Hy. apply H. by right.
Qed.

Lemma sst_visible_skip p ts seen es1 es2 :
  (∀ y, y ∈ es1 → starts_with p (se_key y) = false) →
  sst_visible p ts seen (es1 ++ es2) = sst_visible p ts seen es2.
Proof.
  induction es1 as [|x es IH]; intros H; [done|]. cbn [sst_visible app]. rewrite H by (by left). cbn.
  apply IH. intros y Hy. apply H. by right.
Qed.
