(* ===== verification/Engine.v ===== *)
(** The storage engine over memtable, sorted tables, log and manifest:
    reads ([kaya-engine/src/memtable.rs]), the write path ([write_put] and
    [write_delete] of [kaya-engine/src/index.rs]), flush
    ([kaya-engine/src/flush.rs]) and compaction ([kaya-engine/src/lib.rs]).

    The sorted-table format is an interface, [SstFormat]: the engine builds a
    table from entries, opens its bytes and asks for entries.  Statistics and
    latency histograms are left out, except for [last_sequence] ([e_last_sequence]), which flush
    and compaction write to the manifest. *)
From stdpp Require Import gmap.
From S2P Require Import Prelude Bytes Core Hlc OrdMap Path Disk WalCodec WalWriter InternalKey SstBlock Memtable Manifest Compaction.

Open Scope N_scope.

(** ** Sorted tables as the engine uses them *)

(** [SstableBuilder] with multi-version options, [SstableReader] and the footer
    functions of [kaya-lsm/src/sstable.rs]. *)
Class SstFormat (T : Type) := {
  sst_build : list SstEntry → result KayaError bytes;
  sst_open : bytes → result KayaError T;
  decode_footer_seqs : bytes → result KayaError (N * N);
  footer_stored_crc : bytes → result KayaError N;
  sst_all_entries : T → result KayaError (list SstEntry);
  sst_get_at : T → bytes → N → result KayaError (option SstEntry);
  sst_scan_prefix_at : T → bytes → N → result KayaError (list SstEntry)
}.

Inductive ReadTimestamp : Type := Latest | At (ts : N).
Definition as_u64 (r : ReadTimestamp) : N := match r with Latest => u64_max | At ts => ts end.

Record ScanOptions := mkScanOptions { scan_limit : option N; scan_read_at : ReadTimestamp }.

Record WriteResult := mkWriteResult { wr_sequence : N; wr_lsn : N; wr_durable : bool }.
Record FlushResult := mkFlushResult { fr_memtable_entries : N; fr_sstable_count : N }.
Record CompactionResult := mkCompactionResult { cr_input_tables : N; cr_output_tables : N }.

Section Engine.
Context {T : Type} `{SstFormat T}.

Record Engine := mkEngine {
  limits : LimitsConfig;
  durability : DurabilityMode;
  memtable_max_bytes : N;
  compaction : CompactionConfig;
  e_hlc : Hlc;
  e_use_hlc : bool;
  e_max_clock_offset_micros : N;
  wal : WalWriterInner;
  memtable : Memtable;
  e_last_sequence : N;
  manifest_state : ManifestState;
  next_table_id : N;
  next_manifest_edit_seq : N;
  live_sstables : list (TableMetadata * T);
  sstable_refcounts : gmap N N;
  gc_watermark : N
}.

Definition set_clock (h : Hlc) (e : Engine) : Engine :=
  mkEngine (limits e) (durability e) (memtable_max_bytes e) (compaction e) h (e_use_hlc e)
    (e_max_clock_offset_micros e) (wal e) (memtable e) (e_last_sequence e) (manifest_state e)
    (next_table_id e) (next_manifest_edit_seq e) (live_sstables e) (sstable_refcounts e) (gc_watermark e).
Definition set_wal (w : WalWriterInner) (e : Engine) : Engine :=
  mkEngine (limits e) (durability e) (memtable_max_bytes e) (compaction e) (e_hlc e) (e_use_hlc e)
    (e_max_clock_offset_micros e) w (memtable e) (e_last_sequence e) (manifest_state e)
    (next_table_id e) (next_manifest_edit_seq e) (live_sstables e) (sstable_refcounts e) (gc_watermark e).
Definition set_memtable (m : Memtable) (e : Engine) : Engine :=
  mkEngine (limits e) (durability e) (memtable_max_bytes e) (compaction e) (e_hlc e) (e_use_hlc e)
    (e_max_clock_offset_micros e) (wal e) m (e_last_sequence e) (manifest_state e)
    (next_table_id e) (next_manifest_edit_seq e) (live_sstables e) (sstable_refcounts e) (gc_watermark e).
Definition set_last_sequence (s : N) (e : Engine) : Engine :=
  mkEngine (limits e) (durability e) (memtable_max_bytes e) (compaction e) (e_hlc e) (e_use_hlc e)
    (e_max_clock_offset_micros e) (wal e) (memtable e) s (manifest_state e)
    (next_table_id e) (next_manifest_edit_seq e) (live_sstables e) (sstable_refcounts e) (gc_watermark e).
Definition set_manifest_state (m : ManifestState) (e : Engine) : Engine :=
  mkEngine (limits e) (durability e) (memtable_max_bytes e) (compaction e) (e_hlc e) (e_use_hlc e)
    (e_max_clock_offset_micros e) (wal e) (memtable e) (e_last_sequence e) m
    (next_table_id e) (next_manifest_edit_seq e) (live_sstables e) (sstable_refcounts e) (gc_watermark e).
Definition set_next_ids (t s : N) (e : Engine) : Engine :=
  mkEngine (limits e) (durability e) (memtable_max_bytes e) (compaction e) (e_hlc e) (e_use_hlc e)
    (e_max_clock_offset_micros e) (wal e) (memtable e) (e_last_sequence e) (manifest_state e)
    t s (live_sstables e) (sstable_refcounts e) (gc_watermark e).
Definition set_live_sstables (l : list (TableMetadata * T)) (e : Engine) : Engine :=
  mkEngine (limits e) (durability e) (memtable_max_bytes e) (compaction e) (e_hlc e) (e_use_hlc e)
    (e_max_clock_offset_micros e) (wal e) (memtable e) (e_last_sequence e) (manifest_state e)
    (next_table_id e) (next_manifest_edit_seq e) l (sstable_refcounts e) (gc_watermark e).
Definition set_watermark (w : N) (e : Engine) : Engine :=
  mkEngine (limits e) (durability e) (memtable_max_bytes e) (compaction e) (e_hlc e) (e_use_hlc e)
    (e_max_clock_offset_micros e) (wal e) (memtable e) (e_last_sequence e) (manifest_state e)
    (next_table_id e) (next_manifest_edit_seq e) (live_sstables e) (sstable_refcounts e) w.

(** A disk operation; the engine and its log share the disk. *)
Definition edisk {A} (op : stm SimState A) : stm Engine A := fun e =>
  let '(r, w) := on_disk op (wal e) in (r, set_wal w e).

Definition set_gc_watermark (ts : N) (e : Engine) : Engine :=
  if gc_watermark e <? ts then set_watermark ts e else e.

(** ** Limits *)

Definition validate_key (key : bytes) (e : Engine) : result KayaError unit :=
  if lenN key =? 0 then Err (InvalidArgument "empty keys are not supported in MVP")
  else if max_key_len (limits e) <? lenN key then
    Err (InvalidArgument ("key length " +:+ pretty (lenN key) +:+ " exceeds max "
                          +:+ pretty (max_key_len (limits e))))
  else Ok tt.

Definition validate_scan_prefix (prefix : bytes) (e : Engine) : result KayaError unit :=
  if max_key_len (limits e) <? lenN prefix then
    Err (InvalidArgument ("scan prefix length " +:+ pretty (lenN prefix) +:+ " exceeds max key length "
                          +:+ pretty (max_key_len (limits e))))
  else Ok tt.

Definition validate_value (value : bytes) (e : Engine) : result KayaError unit :=
  if max_value_len (limits e) <? lenN value then
    Err (InvalidArgument ("value length " +:+ pretty (lenN value) +:+ " exceeds max "
                          +:+ pretty (max_value_len (limits e))))
  else Ok tt.

(** ** Reads *)

(** The loop over the tables, newest first. *)
Fixpoint get_tables (ts : list (TableMetadata * T)) (key : bytes) (read_ts : N)
    : result KayaError (option bytes) :=
  match ts with
  | [] => Ok None
  | (_, reader) :: ts =>
      hit ← sst_get_at reader key read_ts;
      match hit with
      | Some entry => Ok (se_value entry)
      | None => get_tables ts key read_ts
      end
  end.

Definition get_inner (key : bytes) (read_at : ReadTimestamp) (e : Engine) : result KayaError (option bytes) :=
  let read_ts := as_u64 read_at in
  match get_at key read_ts (memtable e) with
  | Some (VPut value _) => Ok (Some value)
  | Some (VDelete _) => Ok None
  | None => get_tables (live_sstables e) key read_ts
  end.

(** [merged]: the newest version seen so far per key. *)
Definition Merged : Type := list (bytes * (N * option bytes)).

(** One version into the window of the [max_results] smallest keys. *)
Definition merge_one (max_results : N) (m : Merged) (key : bytes) (seq : N) (value : option bytes) : Merged :=
  let insert :=
    let m := om_insert key (seq, value) m in
    if max_results <? lenN m then removelast m else m in
  match om_get key m with
  | Some (s, _) => if seq <=? s then m else insert
  | None => insert
  end.

Fixpoint merge_tables (max_results : N) (prefix : bytes) (read_ts : N) (ts : list (TableMetadata * T))
    (m : Merged) : result KayaError Merged :=
  match ts with
  | [] => Ok m
  | (_, reader) :: ts =>
      es ← sst_scan_prefix_at reader prefix read_ts;
      merge_tables max_results prefix read_ts ts
        (foldl (λ m x, merge_one max_results m (se_key x) (se_sequence x) (se_value x)) m es)
  end.

Definition merge_memtable (max_results : N) (prefix : bytes) (read_ts : N) (mt : Memtable) (m : Merged)
    : Merged :=
  foldl (λ m '(key, value, seq), if read_ts <? seq then m else merge_one max_results m key seq value)
    m (raw_scan_prefix prefix mt).

(** The output loop: tombstones are skipped, and it stops at the byte limit or
    at the result limit. *)
Fixpoint scan_out (max_bytes limit : N) (total_bytes : N) (count : N) (m : Merged) : list (bytes * bytes) :=
  match m with
  | [] => []
  | (key, (_, None)) :: m => scan_out max_bytes limit total_bytes count m
  | (key, (_, Some value)) :: m =>
      let entry_bytes := lenN key + lenN value in
      if negb (count =? 0) && (max_bytes <? total_bytes + entry_bytes) then []
      else (key, value) ::
           (if limit <=? count + 1 then []
            else scan_out max_bytes limit (total_bytes + entry_bytes) (count + 1) m)
  end.

Definition scan_prefix_inner (prefix : bytes) (opts : ScanOptions) (e : Engine)
    : result KayaError (list (bytes * bytes)) :=
  _ ← validate_scan_prefix prefix e;
  let max_results := max_scan_results (limits e) in
  let read_ts := as_u64 (scan_read_at opts) in
  m ← merge_tables max_results prefix read_ts (rev (live_sstables e)) [];
  let m := merge_memtable max_results prefix read_ts (memtable e) m in
  let effective_limit := match scan_limit opts with Some l => N.min l max_results | None => max_results end in
  Ok (scan_out (max_scan_bytes (limits e)) effective_limit 0 0 m).

(** ** Flush *)

(** The memtable's versions as table entries, in its order. *)
Definition sst_of_record (x : InternalKey * ValueRecord) : SstEntry :=
  match x.2 with
  | VPut value s => mkSstEntry (user_key x.1) (Some value) s
  | VDelete s => mkSstEntry (user_key x.1) None s
  end.

(** Footer sequences and the first and last key of freshly built bytes. *)
Definition describe_table (sst_bytes : bytes) : result KayaError (N * N * bytes * bytes) :=
  footer ← decode_footer_seqs sst_bytes;
  reader ← sst_open sst_bytes;
  es ← sst_all_entries reader;
  Ok (footer.1, footer.2, default [] (se_key <$> head es), default [] (se_key <$> last es)).

Definition table_file (table_id : N) (ext : string) : bytes :=
  str "sst/" ++ hex_digits 16 table_id ++ str ext.

(** Writes the bytes under a temporary name and publishes them. *)
Definition publish_table (table_id : N) (sst_bytes : bytes) : stm Engine unit :=
  sst_rel ← lift (path_new (table_file table_id ".sst"));
  tmp_rel ← lift (path_new (table_file table_id ".tmp"));
  sst_dir_rel ← lift (path_new (str "sst"));
  _ ← edisk (write_at tmp_rel 0 sst_bytes);
  _ ← edisk (fsync_file tmp_rel);
  _ ← edisk (rename tmp_rel sst_rel);
  edisk (fsync_dir sst_dir_rel).

Definition table_meta (table_id level : N) (sst_bytes : bytes) (count : N) (d : N * N * bytes * bytes)
    : TableMetadata :=
  let '(min_seq, max_seq, smallest, largest) := d in
  mkTable table_id level (table_file table_id ".sst") smallest largest min_seq max_seq count
    (lenN sst_bytes) (match footer_stored_crc sst_bytes with Ok c => c | Err _ => 0 end).

Definition MANIFEST_FILE_NAME : bytes := str "MANIFEST-000001".
Definition CURRENT_FILE_NAME : bytes := str "CURRENT".
Definition CURRENT_TMP_FILE_NAME : bytes := str "CURRENT.tmp".

(** Encodes an edit under the next edit sequence, which it consumes. *)
Definition next_edit (edit : ManifestEdit) : stm Engine bytes := fun e =>
  (Ok (encode_manifest_edit edit (next_manifest_edit_seq e)),
   set_next_ids (next_table_id e) (next_manifest_edit_seq e + 1) e).

(** Points [CURRENT] at the manifest. *)
Definition publish_current : stm Engine unit :=
  current_tmp_rel ← lift (path_new CURRENT_TMP_FILE_NAME);
  current_rel ← lift (path_new CURRENT_FILE_NAME);
  _ ← edisk (write_at current_tmp_rel 0 MANIFEST_FILE_NAME);
  _ ← edisk (fsync_file current_tmp_rel);
  _ ← edisk (rename current_tmp_rel current_rel);
  edisk (fsync_dir []).

(** Takes the next table id. *)
Definition take_table_id : stm Engine N := fun e =>
  (Ok (next_table_id e), set_next_ids (next_table_id e + 1) (next_manifest_edit_seq e) e).

Definition install_flushed (meta : TableMetadata) (reader : T) (last_seq : N) (e : Engine) : Engine :=
  let ms := manifest_state e in
  set_memtable Memtable_new
    (set_manifest_state (mkManifest (live_tables ms ++ [meta]) last_seq (last_edit_seq ms))
       (set_live_sstables ((meta, reader) :: live_sstables e) e)).

Definition flush_nonempty : stm Engine FlushResult :=
  tid ← take_table_id;
  e ← get_state;
  let versions := sst_of_record <$> Memtable.entries (memtable e) in
  sst_bytes ← lift (sst_build versions);
  d ← lift (describe_table sst_bytes);
  _ ← publish_table tid sst_bytes;
  let meta := table_meta tid 0 sst_bytes (lenN versions) d in
  let last_seq := e_last_sequence e in
  manifest_rel ← lift (path_new MANIFEST_FILE_NAME);
  edit_create ← next_edit (CreateTable meta);
  edit_seq ← next_edit (SetLastSequence last_seq);
  _ ← edisk (append manifest_rel edit_create);
  _ ← edisk (append manifest_rel edit_seq);
  _ ← edisk (fsync_file manifest_rel);
  _ ← publish_current;
  reader ← lift (sst_open sst_bytes);
  _ ← modify (install_flushed meta reader last_seq);
  e ← get_state;
  mret (mkFlushResult (lenN versions) (lenN (live_sstables e))).

Definition flush : stm Engine FlushResult := fun e =>
  if mt_is_empty (memtable e) then (Ok (mkFlushResult 0 (lenN (live_sstables e))), e)
  else flush_nonempty e.

Definition maybe_auto_flush : stm Engine unit := fun e =>
  if (0 <? memtable_max_bytes e) && (memtable_max_bytes e <=? approximate_bytes (memtable e))
  then (_ ← flush; mret tt) e
  else (Ok tt, e).

(** ** Writes *)

Definition prepare_write (now_ms : N) (e : Engine) : Engine :=
  let c := (prepare_hlc_write_sequence now_ms
              (mkEngineClock (e_hlc e) (w_next_sequence (wal e)) (e_use_hlc e)
                 (e_max_clock_offset_micros e))).1 in
  let w := wal e in
  set_wal (mkWriter (w_disk w) (w_config w) (active_segment_id w) (active_path w) (active_len w)
             (active_dir_synced w) (next_lsn w) (next_sequence c) (batch w))
    (set_clock (hlc c) e).

(** The append to the log; [None] while the call waits for a group commit. *)
Definition log_append (p : WalPayload) (mode : DurabilityMode) (now fsync_us : N)
    : stm Engine (option AppendResult) := fun e =>
  match wal_append p mode now fsync_us (wal e) with
  | (Ok (Returned r), w) => (Ok (Some r), set_wal w e)
  | (Ok (Blocked _), w) => (Ok None, set_wal w e)
  | (Err err, w) => (Err err, set_wal w e)
  end.

(** What follows the append: the memtable, [last_sequence] and the automatic flush. *)
Definition after_append (apply : N → Memtable → Memtable) (r : option AppendResult)
    : stm Engine (option WriteResult) :=
  match r with
  | None => mret None
  | Some r =>
      _ ← modify (λ e, set_last_sequence (ar_sequence r)
                         (set_memtable (apply (ar_sequence r) (memtable e)) e));
      _ ← maybe_auto_flush;
      mret (Some (mkWriteResult (ar_sequence r) (ar_lsn r) (ar_durable r)))
  end.

Definition write_put (key value : bytes) (mode : option DurabilityMode) (now_ms now fsync_us : N)
    : stm Engine (option WriteResult) :=
  e ← get_state;
  _ ← lift (validate_key key e);
  _ ← lift (validate_value value e);
  _ ← modify (prepare_write now_ms);
  r ← log_append (Put key value) (default (durability e) mode) now fsync_us;
  after_append (λ s m, mt_put key value s m) r.

Definition write_delete (key : bytes) (mode : option DurabilityMode) (now_ms now fsync_us : N)
    : stm Engine (option WriteResult) :=
  e ← get_state;
  _ ← lift (validate_key key e);
  _ ← modify (prepare_write now_ms);
  r ← log_append (Delete key) (default (durability e) mode) now fsync_us;
  after_append (λ s m, mt_delete key s m) r.

(** ** Compaction *)

Definition pinned_ids (e : Engine) : gset N :=
  dom (filter (λ x, 0 < x.2) (sstable_refcounts e)).

(** [by_key.entry(key).or_default().push(..)]. *)
Definition push_version (m : list (bytes * list Version)) (x : SstEntry) : list (bytes * list Version) :=
  om_insert (se_key x) (default [] (om_get (se_key x) m) ++ [(se_sequence x, se_value x)]) m.

(** The versions of the input tables by key; the tables come oldest first. *)
Fixpoint collect_versions (inputs : list N) (ts : list (TableMetadata * T)) (m : list (bytes * list Version))
    : result KayaError (list (bytes * list Version)) :=
  match ts with
  | [] => Ok m
  | (meta, reader) :: ts =>
      if bool_decide (table_id meta ∈ inputs) then
        es ← sst_all_entries reader;
        collect_versions inputs ts (foldl push_version m es)
      else collect_versions inputs ts m
  end.

(** [sort_by_key(|b| Reverse(b.0))], a stable sort. *)
Fixpoint insert_version (v : Version) (l : list Version) : list Version :=
  match l with
  | [] => [v]
  | x :: l' => if x.1 <=? v.1 then v :: x :: l' else x :: insert_version v l'
  end.
Definition sort_versions (l : list Version) : list Version := foldr insert_version [] l.

(** [dedup_by(|a, b| a.0 == b.0)] keeps the first of equal neighbours. *)
Fixpoint dedup_from (prev : N) (l : list Version) : list Version :=
  match l with
  | [] => []
  | x :: l => if x.1 =? prev then dedup_from prev l else x :: dedup_from x.1 l
  end.
Definition dedup_versions (l : list Version) : list Version :=
  match l with [] => [] | x :: l => x :: dedup_from x.1 l end.

Definition retained (watermark : N) (versions : list Version) : list Version :=
  select_versions_for_gc (dedup_versions (sort_versions versions)) watermark.

Definition compacted_entries (watermark : N) (by_key : list (bytes * list Version)) : list SstEntry :=
  by_key ≫= λ '(key, versions), (λ '(s, v), mkSstEntry key v s) <$> retained watermark versions.

Fixpoint delete_edits (manifest_rel : bytes) (ids : list N) : stm Engine unit :=
  match ids with
  | [] => mret tt
  | i :: ids =>
      edit_del ← next_edit (DeleteTable i);
      _ ← edisk (append manifest_rel edit_del);
      delete_edits manifest_rel ids
  end.

Definition finish_manifest (manifest_rel : bytes) (last_seq : N) : stm Engine unit :=
  edit_seq ← next_edit (SetLastSequence last_seq);
  _ ← edisk (append manifest_rel edit_seq);
  _ ← edisk (fsync_file manifest_rel);
  publish_current.

(** [sort_by_key(|b| Reverse(b.0.table_id))], a stable sort. *)
Fixpoint insert_table (t : TableMetadata * T) (l : list (TableMetadata * T)) : list (TableMetadata * T) :=
  match l with
  | [] => [t]
  | x :: l' => if table_id x.1 <=? table_id t.1 then t :: x :: l' else x :: insert_table t l'
  end.
Definition sort_tables (l : list (TableMetadata * T)) : list (TableMetadata * T) :=
  foldr insert_table [] l.

(** The live tables once the inputs are replaced by the output, if any. *)
Definition install_compacted (inputs : list N) (out : option (TableMetadata * T)) (last_seq : N) (e : Engine)
    : Engine :=
  let ms := manifest_state e in
  let kept := filter (λ x, table_id x.1 ∉ inputs) (live_sstables e) in
  let metas := filter (λ t, table_id t ∉ inputs) (live_tables ms) in
  set_manifest_state (mkManifest (metas ++ option_list (fst <$> out)) last_seq (last_edit_seq ms))
    (set_live_sstables (sort_tables (kept ++ option_list out)) e).

Definition write_compacted (c : CompactionCandidate) (out_entries : list SstEntry) : stm Engine CompactionResult :=
  e ← get_state;
  let last_seq := e_last_sequence e in
  let inputs := input_table_ids c in
  manifest_rel ← lift (path_new MANIFEST_FILE_NAME);
  match out_entries with
  | [] =>
      _ ← delete_edits manifest_rel inputs;
      _ ← finish_manifest manifest_rel last_seq;
      _ ← modify (install_compacted inputs None last_seq);
      mret (mkCompactionResult (lenN inputs) 0)
  | _ =>
      tid ← take_table_id;
      sst_bytes ← lift (sst_build out_entries);
      d ← lift (describe_table sst_bytes);
      _ ← publish_table tid sst_bytes;
      let meta := table_meta tid (output_level c) sst_bytes (lenN out_entries) d in
      edit_create ← next_edit (CreateTable meta);
      _ ← edisk (append manifest_rel edit_create);
      _ ← delete_edits manifest_rel inputs;
      _ ← finish_manifest manifest_rel last_seq;
      reader ← lift (sst_open sst_bytes);
      _ ← modify (install_compacted inputs (Some (meta, reader)) last_seq);
      mret (mkCompactionResult (lenN inputs) 1)
  end.

Definition compact : stm Engine CompactionResult :=
  e ← get_state;
  match pick_compaction (compaction_policy_from_config (compaction e))
          (live_tables (manifest_state e)) (pinned_ids e) with
  | None => mret (mkCompactionResult 0 0)
  | Some c =>
      by_key ← lift (collect_versions (input_table_ids c) (rev (live_sstables e)) []);
      write_compacted c (compacted_entries (gc_watermark e) by_key)
  end.

End Engine.

#[global] Arguments Engine : clear implicits.
