(* ===== verification/EngineReads.v ===== *)
(** What the engine's reads return: the sorted-table interface's laws, the
    agreement of point reads with the set of all versions, and that flush and
    writes act on it as they should. *)
From stdpp Require Import gmap countable.
From S2P Require Import Prelude Bytes Core Hlc OrdMap Path Disk WalCodec WalWriter InternalKey Memtable Manifest Compaction SstBlock SstSpec Engine.

Open Scope N_scope.

(** ** The interface's laws *)

(** The reader [t] gives access to the entries [es]. *)
Record holds {T} `{SstFormat T} (t : T) (es : list SstEntry) : Prop := {
  hd_all : sst_all_entries t = Ok es;
  hd_sorted : sst_sorted es;
  hd_get : ∀ k ts, sst_get_at t k ts = Ok (sst_newest k ts es);
  hd_scan : ∀ p ts, sst_scan_prefix_at t p ts = Ok (sst_visible p ts None es)
}.

(** What [SstableBuilder] and [SstableReader] document: a table built from
    sorted entries opens to a reader over them. *)
Class SstLaws (T : Type) `{SstFormat T} : Prop :=
  sst_build_open es bs : es ≠ [] → sst_sorted es → table_fits es →
    sst_build es = Ok bs → ∃ t, sst_open bs = Ok t ∧ holds t es.

Section Reads.
Context {T : Type} `{SstLaws T}.

Implicit Types e : Engine T.

(** The tables of the engine are readers over the given entries. *)
Definition tables_ok e (ess : list (list SstEntry)) : Prop :=
  mt_ok (memtable e) ∧ Forall2 (λ x es, holds x.2 es) (live_sstables e) ess.

Definition mem_versions (m : Memtable) : list SstEntry := sst_of_record <$> Memtable.entries m.

(** Memtable and tables, in the order the reads consult them. *)
Definition sources e (ess : list (list SstEntry)) : list (list SstEntry) :=
  mem_versions (memtable e) :: ess.

(** The first source with a visible version answers. *)
Fixpoint first_hit (k : bytes) (ts : N) (srcs : list (list SstEntry)) : option SstEntry :=
  match srcs with
  | [] => None
  | es :: srcs => match sst_newest k ts es with Some x => Some x | None => first_hit k ts srcs end
  end.

Definition sst_value (x : option SstEntry) : option bytes := x ≫= se_value.

Lemma mem_versions_ik m x :
  mt_ok m → x ∈ Memtable.entries m → sst_ik (sst_of_record x) = x.1.
Proof.
  intros Hm Hx. destruct x as [ik r]. pose proof (mo_seq m Hm ik r Hx) as Hs.
  destruct ik, r; cbn in *; by subst.
Qed.

Lemma mem_versions_sorted m : mt_ok m → sst_sorted (mem_versions m).
Proof.
  intros Hm. pose proof (mo_sorted m Hm) as Hs.
  assert (∀ x, x ∈ Memtable.entries m → sst_ik (sst_of_record x) = x.1) as Hik by (intros; by eapply mem_versions_ik).
  unfold mem_versions, sst_sorted. clear Hm. induction (Memtable.entries m) as [|[k r] es IH]; [constructor|].
  apply om_sorted_cons in Hs as [Hs Hf]. rewrite fmap_cons. constructor; [apply IH; [done|]; intros; apply Hik; by right|].
  rewrite Forall_fmap. rewrite Forall_forall in Hf |- *. intros y Hy. cbn [compose].
  rewrite (Hik (k, r)), (Hik y) by (by left || by right). by apply Hf.
Qed.

Lemma elem_mem_versions m k s v :
  mt_ok m → mkSstEntry k v s ∈ mem_versions m ↔
  om_get (mkIK k s) (Memtable.entries m) = Some (match v with Some v => VPut v s | None => VDelete s end).
Proof.
  intros Hm. unfold mem_versions. rewrite list_elem_of_fmap. split.
  - intros ([[uk ts] r] & E & Hx). pose proof (mo_seq m Hm _ _ Hx) as Hs. cbn in Hs.
    apply om_get_elem; [apply Hm|]. destruct r; cbn in E, Hs; simplify_eq; done.
  - intros Hg%om_get_elem; [|apply Hm]. eexists. split; [|exact Hg]. by destruct v.
Qed.

Lemma mem_get_at m k ts :
  mt_ok m →
  get_at k ts m = (λ x, match se_value x with Some v => VPut v (se_sequence x) | None => VDelete (se_sequence x) end)
                    <$> sst_newest k ts (mem_versions m).
Proof.
  intros Hm. destruct (sst_newest k ts (mem_versions m)) as [[k' v s]|] eqn:E; cbn [fmap option_fmap option_map].
  - apply sst_newest_latest in E as (Hin & [Hk Hs] & Hall); [|by apply mem_versions_sorted]. cbn in *. subst k'.
    apply get_at_Some; [apply Hm|]. exists s. split_and!; [by apply elem_mem_versions in Hin|done|].
    intros ts' r' Hg Hts. pose proof (mo_seq m Hm (mkIK k ts') r') as Hq.
    apply om_get_elem in Hg; [|apply Hm]. specialize (Hq Hg). cbn in Hq.
    assert (sst_of_record (mkIK k ts', r') ∈ mem_versions m) as Hin' by (by apply list_elem_of_fmap_2).
    assert (se_key (sst_of_record (mkIK k ts', r')) = k ∧ se_sequence (sst_of_record (mkIK k ts', r')) = ts')
      as [E1 E2] by (destruct r'; cbn in *; by subst).
    rewrite <-E2. apply Hall; [done|]. split; [done|lia].
  - apply get_at_None; [apply Hm|]. intros ts' Ht. destruct (om_get (mkIK k ts') (Memtable.entries m)) as [r|] eqn:Eg; [|done].
    exfalso. apply om_get_elem in Eg; [|apply Hm]. pose proof (mo_seq m Hm _ _ Eg) as Hq. cbn in Hq.
    eapply (proj1 (sst_newest_None k ts _) E (sst_of_record (mkIK k ts', r))); [by apply list_elem_of_fmap_2|].
    destruct r; cbn in *; subst; done.
Qed.

Lemma get_tables_first_hit k ts (l : list (TableMetadata * T)) ess :
  Forall2 (λ x es, holds x.2 es) l ess → get_tables l k ts = Ok (sst_value (first_hit k ts ess)).
Proof.
  induction 1 as [|[meta t] es l ess Ht _ IH]; [done|]. cbn [get_tables first_hit].
  rewrite (hd_get t es Ht). cbn [mbind result_bind]. by destruct (sst_newest k ts es).
Qed.

(** A point read is the value of the first hit. *)
Lemma get_inner_first_hit k at_ e ess :
  tables_ok e ess → get_inner k at_ e = Ok (sst_value (first_hit k (as_u64 at_) (sources e ess))).
Proof.
  intros [Hm Ht]. unfold get_inner. rewrite mem_get_at by done. cbn [sources first_hit].
  destruct (sst_newest k (as_u64 at_) (mem_versions (memtable e))) as [[? [v|] s]|];
    cbn [fmap option_fmap option_map se_value se_sequence]; [done|done|].
  by apply get_tables_first_hit.
Qed.

(** Source [a] comes before [b] and may answer for it: a version of [b] newer
    than one of [a] is also in [a]. *)
Definition dominates (a b : list SstEntry) : Prop :=
  ∀ x y, x ∈ a → y ∈ b → se_key x = se_key y → se_sequence x < se_sequence y →
    ∃ x', x' ∈ a ∧ se_key x' = se_key y ∧ se_sequence x' = se_sequence y.

Fixpoint layered (srcs : list (list SstEntry)) : Prop :=
  match srcs with
  | [] => True
  | a :: srcs => Forall (dominates a) srcs ∧ layered srcs
  end.

Lemma first_hit_latest k ts srcs :
  Forall sst_sorted srcs → layered srcs →
  match first_hit k ts srcs with
  | Some x => is_latest (mjoin srcs) k ts x
  | None => ∀ y, y ∈ mjoin srcs → ¬ version_of k ts y
  end.
Proof.
  induction srcs as [|a srcs IH]; intros Hs Hl; cbn [first_hit].
  { by intros y ?%elem_of_nil. }
  apply Forall_cons in Hs as [Ha Hs]. destruct Hl as [Hd Hl]. specialize (IH Hs Hl).
  cbn [mjoin list_join]. destruct (sst_newest k ts a) as [x|] eqn:E.
  - apply sst_newest_latest in E as (Hin & Hv & Hall); [|done].
    split_and!; [apply elem_of_app; by left|done|]. intros y [Hy|Hy]%elem_of_app Hyv; [by apply Hall|].
    apply list_elem_of_join in Hy as (b & Hyb & Hb). rewrite Forall_forall in Hd.
    destruct (N.le_gt_cases (se_sequence y) (se_sequence x)) as [?|Hlt]; [done|]. exfalso.
    destruct (Hd b Hb x y Hin Hyb) as (x' & Hx' & Hk' & Hs'); [destruct Hv, Hyv; congruence|done|].
    assert (se_sequence x' <= se_sequence x); [|lia]. apply Hall; [done|]. destruct Hyv. split; [congruence|lia].
  - pose proof (proj1 (sst_newest_None k ts a) E) as Hno. destruct (first_hit k ts srcs) as [x|].
    + destruct IH as (Hin & Hv & Hall). split_and!; [apply elem_of_app; by right|done|].
      intros y [Hy|Hy]%elem_of_app Hyv; [by destruct (Hno y Hy)|by apply Hall].
    + intros y [Hy|Hy]%elem_of_app; [by apply Hno|by apply IH].
Qed.

Lemma tables_ok_sorted e ess : tables_ok e ess → Forall sst_sorted (sources e ess).
Proof.
  intros [Hm Ht]. constructor; [by apply mem_versions_sorted|].
  induction Ht as [|x es l ess Hx _ IH]; constructor; [apply Hx|done].
Qed.

(** ** Steps that leave what readers see alone *)

(** Everything of the engine but its log, clock, ids and disk. *)
Definition view e :=
  (limits e, durability e, memtable_max_bytes e, compaction e, memtable e, e_last_sequence e,
   (manifest_state e, live_sstables e, sstable_refcounts e, gc_watermark e)).

Definition frames {A} (m : stm (Engine T) A) : Prop := ∀ e, view (m e).2 = view e.

Lemma frames_ret {A} (a : A) : frames (mret a).
Proof. done. Qed.

Lemma frames_bind {A B} (m : stm (Engine T) A) (f : A → stm (Engine T) B) :
  frames m → (∀ a, frames (f a)) → frames (m ≫= f).
Proof.
  intros Hm Hf e. specialize (Hm e). unfold mbind, stm_bind. destruct (m e) as [[a|x] e1]; [|done].
  cbn in Hm. rewrite <-Hm. apply Hf.
Qed.

Lemma frames_lift {A} (r : result KayaError A) : frames (lift r).
Proof. done. Qed.

Lemma frames_edisk {A} (op : stm SimState A) : frames (edisk op).
Proof. intros e. unfold edisk. by destruct (on_disk op (wal e)). Qed.

Lemma frames_next_edit edit : frames (next_edit edit).
Proof. done. Qed.

Lemma frames_take_table_id : frames take_table_id.
Proof. done. Qed.

End Reads.

Create HintDb frames.
#[export] Hint Resolve frames_ret frames_lift frames_edisk frames_next_edit frames_take_table_id : frames.
#[export] Hint Extern 1 (frames (_ ≫= _)) => (apply frames_bind; [|intros ?]) : frames.
#[export] Hint Extern 2 (frames _) => progress cbv zeta : frames.

Section Steps.
Context {T : Type} `{SstLaws T}.

Implicit Types e : Engine T.

Lemma frames_publish_table tid bs : frames (T:=T) (publish_table tid bs).
Proof. unfold publish_table. eauto 20 with frames. Qed.

Lemma frames_publish_current : frames (T:=T) publish_current.
Proof. unfold publish_current. eauto 20 with frames. Qed.

Lemma frames_delete_edits rel ids : frames (T:=T) (delete_edits rel ids).
Proof. induction ids; cbn [delete_edits]; eauto 20 with frames. Qed.

Lemma frames_finish_manifest rel s : frames (T:=T) (finish_manifest rel s).
Proof. unfold finish_manifest. eauto 20 using frames_publish_current with frames. Qed.

(** The outcome of [m] from [e] satisfies [Q]. *)
Definition outcome {A} (m : stm (Engine T) A) (e : Engine T) (Q : result KayaError A → Engine T → Prop) : Prop :=
  Q (m e).1 (m e).2.

(** A framed step followed by [f]: if it fails [Q] holds of any framed state,
    and if not [f] goes on from one. *)
Lemma outcome_bind {A B} (m : stm (Engine T) A) (f : A → stm (Engine T) B) e v Q :
  frames m → view e = v →
  (∀ x e1, view e1 = v → Q (Err x) e1) →
  (∀ a e1, (m e).1 = Ok a → view e1 = v → outcome (f a) e1 Q) →
  outcome (m ≫= f) e Q.
Proof.
  intros Hm <- He Hf. specialize (Hm e). unfold outcome, mbind, stm_bind.
  destruct (m e) as [[a|x] e1]; cbn in Hm; [by apply (Hf a e1)|by apply He].
Qed.

Lemma outcome_get {B} (f : Engine T → stm (Engine T) B) e Q :
  outcome (f e) e Q → outcome (get_state ≫= f) e Q.
Proof. done. Qed.

Lemma outcome_modify {B} (g : Engine T → Engine T) (f : unit → stm (Engine T) B) e Q :
  outcome (f tt) (g e) Q → outcome (modify g ≫= f) e Q.
Proof. done. Qed.

End Steps.

(** Goes past a framed step, keeping its result [a] and the equation [Ha]. *)
Ltac framed a Ha :=
  match goal with
  | Hv : view ?e1 = ?v |- outcome _ ?e1 _ =>
      apply (outcome_bind _ _ e1 v);
      [ eauto using frames_publish_table, frames_publish_current, frames_delete_edits,
          frames_finish_manifest with frames
      | exact Hv
      | done
      | clear Hv; let e2 := fresh "e" in intros a e2 Ha Hv; cbn [lift fst] in Ha ]
  end.

Section Flush.
Context {T : Type} `{SstLaws T}.

Implicit Types e : Engine T.

Lemma view_eq e1 e :
  view e1 = view e →
  memtable e1 = memtable e ∧ live_sstables e1 = live_sstables e ∧
  e_last_sequence e1 = e_last_sequence e ∧ manifest_state e1 = manifest_state e.
Proof. unfold view. intros Hv. by simplify_eq. Qed.

(** What a successful flush does: the memtable becomes a table in front. *)
Definition flushed e e' : Prop :=
  ∃ bs meta t, sst_build (mem_versions (memtable e)) = Ok bs ∧ sst_open bs = Ok t ∧
    memtable e' = Memtable_new ∧ live_sstables e' = (meta, t) :: live_sstables e ∧
    manifest_state e' = mkManifest (live_tables (manifest_state e) ++ [meta]) (e_last_sequence e)
                          (last_edit_seq (manifest_state e)).

Lemma flush_nonempty_outcome e :
  outcome flush_nonempty e (λ r e', match r with Ok _ => flushed e e' | Err _ => view e' = view e end).
Proof.
  assert (view e = view e) as Hv by done. revert Hv. generalize e at 1 3. intros e0 Hv.
  unfold flush_nonempty. framed tid Htid. apply outcome_get.
  destruct (view_eq _ _ Hv) as (-> & _ & -> & _).
  framed bs Hbs. framed d Hd. framed u1 Hu1. framed rel Hrel. framed c1 Hc1. framed c2 Hc2.
  framed u2 Hu2. framed u3 Hu3. framed u4 Hu4. framed u5 Hu5. framed t Ht.
  destruct (view_eq _ _ Hv) as (Hm & Hl & _ & Hs). apply outcome_modify, outcome_get.
  eexists bs, _, t. split_and!; [done|exact Ht|done|..]; cbn; by rewrite ?Hl, ?Hs.
Qed.

Lemma flush_outcome e :
  outcome flush e (λ _ e', view e' = view e ∨ (mt_is_empty (memtable e) = false ∧ flushed e e')).
Proof.
  unfold flush, outcome. destruct (mt_is_empty (memtable e)); [by left|].
  pose proof (flush_nonempty_outcome e) as Ho. unfold outcome in Ho.
  destruct (flush_nonempty e) as [[r|x] e']; cbn in *; auto.
Qed.

Lemma first_hit_nil_source k ts srcs : first_hit k ts ([] :: srcs) = first_hit k ts srcs.
Proof. done. Qed.

Lemma flushed_tables_ok e e' ess :
  tables_ok e ess → table_fits (mem_versions (memtable e)) → mt_is_empty (memtable e) = false →
  flushed e e' → tables_ok e' (mem_versions (memtable e) :: ess) ∧ memtable e' = Memtable_new.
Proof.
  intros [Hm Ht] Hf Hne (bs & meta & t & Hb & Ho & Hm' & Hl & _). split; [|done]. split.
  { rewrite Hm'. apply mt_new_ok. }
  rewrite Hl. constructor; [|done].
  assert (mem_versions (memtable e) ≠ []) as Hnil.
  { unfold mem_versions. apply bool_decide_eq_false in Hne. by destruct (Memtable.entries (memtable e)). }
  destruct (sst_build_open _ _ Hnil (mem_versions_sorted _ Hm) Hf Hb) as (t' & Ho' & Hh).
  rewrite Ho in Ho'. by apply Ok_inj in Ho' as <-.
Qed.

(** Reads see only memtable and tables. *)
Lemma get_inner_view k at_ e e' :
  memtable e' = memtable e → live_sstables e' = live_sstables e → get_inner k at_ e' = get_inner k at_ e.
Proof. unfold get_inner. by intros -> ->. Qed.

Lemma tables_ok_view e e' ess :
  memtable e' = memtable e → live_sstables e' = live_sstables e → tables_ok e ess → tables_ok e' ess.
Proof. unfold tables_ok. by intros -> ->. Qed.

Lemma flush_keeps e ess :
  tables_ok e ess → table_fits (mem_versions (memtable e)) →
  ∃ ess', tables_ok (flush e).2 ess' ∧
    (sources (flush e).2 ess' = sources e ess ∨ sources (flush e).2 ess' = [] :: sources e ess).
Proof.
  intros Ht Hf. destruct (flush_outcome e) as [Hv|[Hne Hfl]].
  - destruct (view_eq _ _ Hv) as (Hm & Hl & _). exists ess. split; [by eapply tables_ok_view|].
    left. unfold sources. by rewrite Hm.
  - destruct (flushed_tables_ok e (flush e).2 ess) as [Ht' Hm']; [done..|]. eexists. split; [exact Ht'|].
    right. unfold sources. by rewrite Hm'.
Qed.

(** The reads after a flush, whether it succeeds or fails on the way. *)
Lemma flush_get k at_ e ess :
  tables_ok e ess → table_fits (mem_versions (memtable e)) →
  get_inner k at_ (flush e).2 = get_inner k at_ e.
Proof.
  intros Ht Hf. destruct (flush_keeps e ess Ht Hf) as (ess' & Ht' & Hs).
  rewrite (get_inner_first_hit _ _ _ _ Ht), (get_inner_first_hit _ _ _ _ Ht').
  destruct Hs as [->| ->]; [done|]. by rewrite first_hit_nil_source.
Qed.

Lemma layered_nil_source srcs : layered srcs → layered ([] :: srcs).
Proof.
  intros Hl. split; [|done]. apply Forall_forall. intros b _ x y Hx. by apply elem_of_nil in Hx.
Qed.

Lemma flush_layered e ess :
  tables_ok e ess → table_fits (mem_versions (memtable e)) → layered (sources e ess) →
  ∃ ess', tables_ok (flush e).2 ess' ∧ layered (sources (flush e).2 ess').
Proof.
  intros Ht Hf Hl. destruct (flush_keeps e ess Ht Hf) as (ess' & Ht' & Hs). exists ess'. split; [done|].
  destruct Hs as [->| ->]; [done|by apply layered_nil_source].
Qed.

(** ** Writes *)

Definition record_of (v : option bytes) (s : N) : ValueRecord :=
  match v with Some v => VPut v s | None => VDelete s end.

Definition write_to (key : bytes) (v : option bytes) (s : N) (m : Memtable) : Memtable :=
  mt_write (mkIK key s) (record_of v s) m.

Lemma write_to_ok key v s m : mt_ok m → mt_ok (write_to key v s m).
Proof. intros. apply mt_write_ok; [done|]. by destruct v. Qed.

Lemma elem_write_to key v s m k v' s' :
  mt_ok m →
  mkSstEntry k v' s' ∈ mem_versions (write_to key v s m) ↔
  (k = key ∧ s' = s ∧ v' = v) ∨ ((k, s') ≠ (key, s) ∧ mkSstEntry k v' s' ∈ mem_versions m).
Proof.
  intros Hm. rewrite !elem_mem_versions by (done || by apply write_to_ok). cbn [write_to mt_write Memtable.entries].
  destruct (decide ((k, s') = (key, s))) as [E|E].
  - simplify_eq. rewrite om_get_insert_eq. unfold record_of. split.
    + intros [= Hr]. left. split_and!; [done..|]. destruct v, v'; congruence.
    + intros [(_ & _ & ->)|[? _]]; done.
  - rewrite om_get_insert_ne by (apply Hm || (intros [= -> ->]; done)). split; [by right|].
    intros [(-> & -> & _)|[_ ?]]; done.
Qed.

(** A version of the key that the reader sees and the new one does not replace. *)
Definition superseded (key : bytes) (s ts : N) (m : Memtable) : bool :=
  match get_at key ts m with Some old => s <? vr_sequence old | None => false end.

(** What a write does to the reads, before the automatic flush. *)
Lemma write_to_get key v s k at_ e e' :
  mt_ok (memtable e) → memtable e' = write_to key v s (memtable e) → live_sstables e' = live_sstables e →
  get_inner k at_ e' =
    if bool_decide (k = key) && (s <=? as_u64 at_) && negb (superseded key s (as_u64 at_) (memtable e))
    then Ok v else get_inner k at_ e.
Proof.
  intros Hm Hm' Hl. unfold get_inner, superseded. rewrite Hm', Hl. unfold write_to.
  case_bool_decide as Hk; cbn [andb].
  2: { rewrite get_at_write_other; [done|apply Hm|left; cbn; congruence]. }
  subst k. destruct (N.leb_spec s (as_u64 at_)); cbn [andb].
  2: { rewrite get_at_write_other; [done|apply Hm|by right]. }
  rewrite get_at_write_same by done.
  destruct (get_at key (as_u64 at_) (memtable e)) as [old|]; [|by destruct v].
  destruct (s <? vr_sequence old); [done|by destruct v].
Qed.

Lemma write_to_layered key v s m ess :
  mt_ok m → (∀ y, y ∈ mjoin ess → se_key y = key → se_sequence y <= s) →
  layered (mem_versions m :: ess) → layered (mem_versions (write_to key v s m) :: ess).
Proof.
  intros Hm Hy [Hd Hl]. split; [|done]. rewrite Forall_forall in Hd |- *.
  intros b Hb [kx vx sx] y Hx Hyb Hk Hs. cbn in Hk, Hs.
  apply elem_write_to in Hx as [(-> & -> & ->)|[Hne Hx]]; [| |done].
  - specialize (Hy y). rewrite list_elem_of_join in Hy. assert (se_sequence y <= s); [|lia]. eauto.
  - destruct (Hd b Hb _ y Hx Hyb) as ([k' v' s'] & Hx' & Hk' & Hs'); [done..|]. cbn in *.
    destruct (decide ((k', s') = (key, s))) as [E|E].
    + simplify_eq. exists (mkSstEntry (se_key y) v (se_sequence y)). split; [|done]. apply elem_write_to; [done|]. left. naive_solver.
    + exists (mkSstEntry k' v' s'). split; [|done]. apply elem_write_to; auto.
Qed.

Lemma stm_bind_Ok {S A B} (m : stm S A) (f : A → stm S B) s b s' :
  (m ≫= f) s = (Ok b, s') → ∃ a s1, m s = (Ok a, s1) ∧ f a s1 = (Ok b, s').
Proof. unfold mbind, stm_bind. destruct (m s) as [[a|x] s1]; [|done]. eauto. Qed.

(** Read, layering and size facts carried over the automatic flush. *)
Lemma maybe_auto_flush_get k at_ e ess :
  tables_ok e ess → table_fits (mem_versions (memtable e)) →
  get_inner k at_ (maybe_auto_flush e).2 = get_inner k at_ e ∧
  (layered (sources e ess) →
   ∃ ess', tables_ok (maybe_auto_flush e).2 ess' ∧ layered (sources (maybe_auto_flush e).2 ess')).
Proof.
  intros Ht Hf. unfold maybe_auto_flush. destruct (_ && _); [|by eauto].
  assert (∀ e0, ((_ ← flush; mret tt) e0).2 = (flush e0).2) as Hfl.
  { intros e0. unfold mbind, stm_bind. by destruct (flush e0) as [[] ?]. }
  rewrite Hfl. split; [by eapply flush_get|]. intros. by eapply flush_layered.
Qed.

(** The state between the append of a write and its automatic flush. *)
Definition written key v (s : N) e e1 : Prop :=
  memtable e1 = write_to key v s (memtable e) ∧ live_sstables e1 = live_sstables e.

Lemma after_append_Ok key v apply e ar e' r :
  (∀ s m, apply s m = write_to key v s m) →
  after_append apply ar e = (Ok (Some r), e') →
  ∃ e1, written key v (wr_sequence r) e e1 ∧ e' = (maybe_auto_flush e1).2.
Proof.
  intros Happ Ha. destruct ar as [ar|]; [|done]. cbn [after_append] in Ha.
  apply stm_bind_Ok in Ha as ([] & e1 & [= <-] & Ha). apply stm_bind_Ok in Ha as ([] & e2 & Hf & [= <- <-]).
  eexists. split; [|by rewrite Hf]. split; [apply Happ|done].
Qed.

Lemma log_append_view p mode now us e : view (log_append p mode now us e).2 = view e.
Proof. unfold log_append. by repeat case_match. Qed.

Lemma write_put_Ok key value mode ms now us e r e' :
  write_put key value mode ms now us e = (Ok (Some r), e') →
  validate_key key e = Ok tt ∧ validate_value value e = Ok tt ∧
  ∃ e1, written key (Some value) (wr_sequence r) e e1 ∧ e' = (maybe_auto_flush e1).2.
Proof.
  unfold write_put. intros Hw. apply stm_bind_Ok in Hw as (? & ? & [= <- <-] & Hw).
  apply stm_bind_Ok in Hw as ([] & ? & Hk & Hw). apply pair_eq in Hk as [Hk <-].
  apply stm_bind_Ok in Hw as ([] & ? & Hv & Hw). apply pair_eq in Hv as [Hv <-].
  apply stm_bind_Ok in Hw as ([] & e0 & [= He0] & Hw). apply stm_bind_Ok in Hw as (ar & e2 & Hl & Hw).
  split_and!; [done..|]. apply (after_append_Ok key (Some value)) in Hw as (e1 & [Hm Hs] & ->); [|done].
  exists e1. split; [|done]. pose proof (log_append_view (Put key value) (default (durability e) mode) now us e0) as Hvw.
  rewrite Hl in Hvw. apply view_eq in Hvw as (Hm2 & Hl2 & _). subst e0. cbn [snd] in *.
  rewrite Hm2 in Hm. rewrite Hl2 in Hs. done.
Qed.

Lemma write_delete_Ok key mode ms now us e r e' :
  write_delete key mode ms now us e = (Ok (Some r), e') →
  validate_key key e = Ok tt ∧
  ∃ e1, written key None (wr_sequence r) e e1 ∧ e' = (maybe_auto_flush e1).2.
Proof.
  unfold write_delete. intros Hw. apply stm_bind_Ok in Hw as (? & ? & [= <- <-] & Hw).
  apply stm_bind_Ok in Hw as ([] & ? & Hk & Hw). apply pair_eq in Hk as [Hk <-].
  apply stm_bind_Ok in Hw as ([] & e0 & [= He0] & Hw). apply stm_bind_Ok in Hw as (ar & e2 & Hl & Hw).
  split; [done|]. apply (after_append_Ok key None) in Hw as (e1 & [Hm Hs] & ->); [|done].
  exists e1. split; [|done]. pose proof (log_append_view (Delete key) (default (durability e) mode) now us e0) as Hvw.
  rewrite Hl in Hvw. apply view_eq in Hvw as (Hm2 & Hl2 & _). subst e0. cbn [snd] in *.
  rewrite Hm2 in Hm. rewrite Hl2 in Hs. done.
Qed.

Lemma written_fits key v s e e1 :
  mt_ok (memtable e) → written key v s e e1 →
  table_fits (mkSstEntry key v s :: mem_versions (memtable e)) → table_fits (mem_versions (memtable e1)).
Proof.
  intros Hm [-> _]. apply table_fits_sub; [by apply mem_versions_sorted, write_to_ok|].
  intros [k' v' s'] Hy. apply elem_write_to in Hy as [(-> & -> & ->)|[_ ?]]; [by left|by right|done].
Qed.

(** What a written engine reads, the automatic flush included. *)
Lemma written_get key v s e e1 ess k at_ :
  tables_ok e ess → table_fits (mkSstEntry key v s :: mem_versions (memtable e)) →
  written key v s e e1 →
  get_inner k at_ (maybe_auto_flush e1).2 =
    (if bool_decide (k = key) && (s <=? as_u64 at_) && negb (superseded key s (as_u64 at_) (memtable e))
     then Ok v else get_inner k at_ e) ∧
  ((∀ y, y ∈ mjoin ess → se_key y = key → se_sequence y <= s) → layered (sources e ess) →
   ∃ ess', tables_ok (maybe_auto_flush e1).2 ess' ∧ layered (sources (maybe_auto_flush e1).2 ess')).
Proof.
  intros [Hm Ht] Hf [Hm1 Hl1].
  assert (tables_ok e1 ess) as Ht1.
  { split; [rewrite Hm1; by apply write_to_ok|by rewrite Hl1]. }
  destruct (maybe_auto_flush_get k at_ e1 ess Ht1) as [Hg Hl]; [by eapply written_fits|].
  split; [rewrite Hg; by apply write_to_get|]. intros Hy Hlay. apply Hl. unfold sources. rewrite Hm1.
  by apply write_to_layered.
Qed.

End Flush.

(** * A table format that keeps the entries as they are, bit by bit, and answers by looking through them. It satisfies the laws of the interface, and lets the engine run on concrete inputs without encoding blocks. *)

#[export] Instance SstEntry_countable : Countable SstEntry.
Proof.
  apply (inj_countable' (λ x, (se_key x, se_value x, se_sequence x)) (λ '(k, v, s), mkSstEntry k v s)).
  by intros [].
Defined.

Fixpoint pos_bits (p : positive) : bytes :=
  match p with xH => [] | xO p => 0 :: pos_bits p | xI p => 1 :: pos_bits p end.

Fixpoint bits_pos (l : bytes) : positive :=
  match l with [] => xH | 0 :: l => xO (bits_pos l) | _ :: l => xI (bits_pos l) end.

Lemma bits_pos_bits p : bits_pos (pos_bits p) = p.
Proof. induction p; cbn; by rewrite ?IHp. Qed.

Definition box_open (bs : bytes) : result KayaError (list SstEntry) :=
  match decode (bits_pos bs) with Some es => Ok es | None => Err (Corruption "not a table") end.

Definition seqs_of (es : list SstEntry) : N * N :=
  (foldr N.min u64_max (se_sequence <$> es), foldr N.max 0 (se_sequence <$> es)).

#[export] Instance box_format : SstFormat (list SstEntry) := {|
  sst_build es := Ok (pos_bits (encode es));
  sst_open := box_open;
  decode_footer_seqs bs := es ← box_open bs; Ok (seqs_of es);
  footer_stored_crc _ := Ok 0;
  sst_all_entries es := Ok es;
  sst_get_at es k ts := Ok (sst_newest k ts es);
  sst_scan_prefix_at es p ts := Ok (sst_visible p ts None es)
|}.

Lemma box_holds es : sst_sorted es → holds es es.
Proof. by split. Qed.

#[export] Instance box_laws : SstLaws (list SstEntry).
Proof.
  intros es bs _ Hs _ Hb. cbn in Hb. apply Ok_inj in Hb as <-. exists es. split; [|by apply box_holds].
  cbn. unfold box_open. by rewrite bits_pos_bits, decode_encode.
Qed.
