(* ===== verification/EngineScan.v ===== *)
(** What the engine's prefix scan returns: the window of the smallest keys that
    the merge keeps agrees with merging everything, and the merge holds the
    newest visible version of every key. *)
From stdpp Require Import gmap.
From S2P Require Import Prelude Bytes Core Hlc OrdMap Path Disk WalCodec WalWriter InternalKey SstBlock SstSpec Memtable Manifest Compaction Engine EngineReads.

Open Scope N_scope.

(** ** The window *)

(** The merge without the bound on the number of keys. *)
Definition merge_full (m : Merged) (x : SstEntry) : Merged :=
  match om_get (se_key x) m with
  | Some (s, _) => if se_sequence x <=? s then m else om_insert (se_key x) (se_sequence x, se_value x) m
  | None => om_insert (se_key x) (se_sequence x, se_value x) m
  end.

Section Window.
Context {K V : Type} `{OrdKey K}.

Lemma om_insert_take n (k : K) (v : V) m :
  take n (om_insert k v (take n m)) = take n (om_insert k v m).
Proof.
  revert n. induction m as [|[k' v'] m IH]; intros [|n]; [done..|]. cbn.
  destruct (kcmp k k'); cbn; f_equal.
  - by rewrite take_take, Nat.min_id.
  - destruct n; [done|]. cbn. by rewrite take_take, Nat.min_l by lia.
  - apply IH.
Qed.

Lemma om_insert_beyond n (k : K) (v v0 : V) m :
  om_get k (take n m) = None → om_get k m = Some v0 → take n (om_insert k v m) = take n m.
Proof.
  revert n. induction m as [|[k' v'] m IH]; intros [|n]; [done..|]. cbn.
  destruct (kcmp k k'); [done|done|]. intros. cbn. f_equal. by apply IH.
Qed.

Lemma om_take_sorted n (m : list (K * V)) : om_sorted m → om_sorted (take n m).
Proof.
  revert n. induction m as [|[k v] m IH]; intros [|n] Hs; [constructor..|].
  apply om_sorted_cons in Hs as [Hs Hf]. cbn [take]. apply om_sorted_cons. split; [by apply IH|by apply Forall_take].
Qed.

Lemma om_get_take n (k : K) (v : V) m : om_sorted m → om_get k (take n m) = Some v → om_get k m = Some v.
Proof.
  intros Hs Hg. apply om_get_elem; [done|]. apply om_get_elem in Hg; [|by apply om_take_sorted].
  rewrite <-(take_drop n m). apply elem_of_app. by left.
Qed.

Lemma om_insert_length (k : K) (v : V) m : (length (om_insert k v m) <= S (length m))%nat.
Proof. induction m as [|[k' v'] m IH]; cbn; [lia|]. destruct (kcmp k k'); cbn; lia. Qed.

End Window.

Lemma removelast_take {A} (l : list A) : removelast l = take (pred (length l)) l.
Proof. by rewrite removelast_firstn_len. Qed.

(** Dropping the largest key of an overfull window keeps the bound. *)
Lemma window_insert max (key : bytes) (p : N * option bytes) m :
  (let m' := om_insert key p (take (N.to_nat max) m) in if max <? lenN m' then removelast m' else m') =
  take (N.to_nat max) (om_insert key p m).
Proof.
  cbv zeta. rewrite <-om_insert_take. set (m' := om_insert key p (take (N.to_nat max) m)).
  assert (length m' <= S (N.to_nat max))%nat as Hl.
  { etrans; [apply om_insert_length|]. rewrite length_take. lia. }
  unfold lenN. destruct (N.ltb_spec max (N.of_nat (length m'))).
  - rewrite removelast_take. f_equal. lia.
  - rewrite take_ge; [done|lia].
Qed.

Lemma merge_one_window max m x :
  om_sorted m →
  merge_one max (take (N.to_nat max) m) (se_key x) (se_sequence x) (se_value x) =
  take (N.to_nat max) (merge_full m x).
Proof.
  intros Hs. unfold merge_one, merge_full.
  destruct (om_get (se_key x) (take (N.to_nat max) m)) as [[s v]|] eqn:E.
  - rewrite (om_get_take _ _ _ _ Hs E). destruct (_ <=? s); [done|]. apply window_insert.
  - rewrite window_insert. destruct (om_get (se_key x) m) as [[s v]|] eqn:E'; [|done].
    destruct (_ <=? s); [|done]. by eapply om_insert_beyond.
Qed.

Lemma merge_full_sorted m x : om_sorted m → om_sorted (merge_full m x).
Proof. intros. unfold merge_full. repeat case_match; auto using om_insert_sorted. Qed.

Lemma foldl_merge_sorted L m : om_sorted m → om_sorted (foldl merge_full m L).
Proof. revert m. induction L; intros; cbn; auto using merge_full_sorted. Qed.

Lemma foldl_merge_window max L m :
  om_sorted m →
  foldl (λ m x, merge_one max m (se_key x) (se_sequence x) (se_value x)) (take (N.to_nat max) m) L =
  take (N.to_nat max) (foldl merge_full m L).
Proof.
  revert m. induction L as [|x L IH]; intros m Hs; [done|]. cbn [foldl].
  rewrite merge_one_window by done. by apply IH, merge_full_sorted.
Qed.

(** ** What the merge holds *)

(** A key and a sequence determine the version. *)
Definition consistent (L : list SstEntry) : Prop :=
  ∀ x y, x ∈ L → y ∈ L → se_key x = se_key y → se_sequence x = se_sequence y → x = y.

Definition top_of (L : list SstEntry) (x : SstEntry) : Prop :=
  x ∈ L ∧ ∀ y, y ∈ L → se_key y = se_key x → se_sequence y <= se_sequence x.

Lemma top_of_unique L x y : consistent L → top_of L x → top_of L y → se_key x = se_key y → x = y.
Proof.
  intros Hc [Hx Hxt] [Hy Hyt] Hk. apply Hc; [done..|].
  specialize (Hxt y Hy (eq_sym Hk)). specialize (Hyt x Hx Hk). lia.
Qed.

Lemma foldl_merge_top L k :
  consistent L →
  match om_get k (foldl merge_full [] L) with
  | Some (s, v) => top_of L (mkSstEntry k v s)
  | None => ∀ y, y ∈ L → se_key y ≠ k
  end.
Proof.
  induction L as [|x L IH] using rev_ind; intros Hc; [by intros y ?%elem_of_nil|].
  rewrite foldl_app. cbn [foldl]. pose proof (foldl_merge_sorted L [] om_sorted_nil) as Hs.
  assert (consistent L) as HcL by (intros a b ??; apply Hc; apply elem_of_app; by left).
  specialize (IH HcL). set (m := foldl merge_full [] L) in *. unfold merge_full.
  assert (∀ s v, top_of L (mkSstEntry k v s) → (se_key x = k → se_sequence x <= s) →
            top_of (L ++ [x]) (mkSstEntry k v s)) as Hkeep.
  { intros s v [Hin Ht] Hx. split; [apply elem_of_app; by left|].
    intros y [Hy|Hy%list_elem_of_singleton]%elem_of_app Hk; [by apply Ht|]. cbn in *. subst. auto. }
  assert ((∀ y, y ∈ L → se_key y = k → se_sequence y <= se_sequence x) → se_key x = k →
            top_of (L ++ [x]) (mkSstEntry k (se_value x) (se_sequence x))) as Hnew.
  { intros Hall <-. destruct x as [kx vx sx]. split; [apply elem_of_app; right; by left|].
    intros y [Hy|Hy%list_elem_of_singleton]%elem_of_app Hk; [by apply Hall|by subst]. }
  destruct (decide (se_key x = k)) as [Hk|Hk].
  - rewrite Hk. destruct (om_get k m) as [[s v]|] eqn:E.
    + destruct (N.leb_spec (se_sequence x) s) as [Hle|Hgt].
      { rewrite E. by apply Hkeep. }
      rewrite om_get_insert_eq. apply Hnew; [|done]. intros y Hy Hyk.
      destruct IH as [_ IH]. specialize (IH y Hy Hyk). cbn in IH. lia.
    + rewrite om_get_insert_eq. apply Hnew; [|done]. intros y Hy Hyk. by destruct (IH y Hy).
  - assert (om_get k (merge_full m x) = om_get k m) as Hsame.
    { unfold merge_full. repeat case_match; by rewrite ?om_get_insert_ne. }
    unfold merge_full in Hsame. rewrite Hsame. destruct (om_get k m) as [[s v]|]; [by apply Hkeep|].
    intros y [Hy|Hy%list_elem_of_singleton]%elem_of_app; [by apply IH|by subst].
Qed.

(** ** What is merged *)

Lemma sst_visible_elem p ts es : ∀ seen x,
  x ∈ sst_visible p ts seen es → x ∈ es ∧ starts_with p (se_key x) = true ∧ se_sequence x <= ts.
Proof.
  induction es as [|y es IH]; intros seen x Hx; [by apply elem_of_nil in Hx|]. cbn [sst_visible] in Hx.
  destruct (starts_with p (se_key y) && (se_sequence y <=? ts)) eqn:E; cbn [andb] in Hx.
  - apply andb_prop in E as [Ep Et%N.leb_le]. destruct (negb _).
    + apply elem_of_cons in Hx as [->|Hx]; [split_and!; [by left|done..]|].
      apply IH in Hx as (? & ? & ?). split_and!; [by right|done..].
    + apply IH in Hx as (? & ? & ?). split_and!; [by right|done..].
  - apply IH in Hx as (? & ? & ?). split_and!; [by right|done..].
Qed.

Lemma sst_visible_newest p k ts es x : ∀ seen,
  starts_with p k = true → seen ≠ Some k → sst_newest k ts es = Some x → x ∈ sst_visible p ts seen es.
Proof.
  unfold sst_newest. induction es as [|y es IH]; intros seen Hp Hd; [done|].
  rewrite filter_cons. cbn [sst_visible]. destruct (decide (version_of k ts y)) as [[Hk Ht]|Hn]; cbn [head].
  - intros [= <-]. rewrite Hk, Hp, (proj2 (N.leb_le _ _) Ht), bool_decide_eq_false_2 by congruence. by left.
  - intros Hx. destruct (_ && _ && _) eqn:E; [right|]; apply IH; [done| |done..].
    apply andb_prop in E as [[_ Et%N.leb_le]%andb_prop _]. intros [= Hk]. by apply Hn.
Qed.

Lemma raw_loop_elem p es k v s :
  om_sorted es → (∀ ik r, (ik, r) ∈ es → bcmp p (user_key ik) ≠ Gt) →
  (k, v, s) ∈ raw_loop p es ↔ starts_with p k = true ∧ mkSstEntry k v s ∈ sst_of_record <$> es.
Proof.
  induction es as [|[ik r] es IH]; intros Hs Hp.
  { cbn. split; [by intros ?%elem_of_nil|by intros [_ ?%elem_of_nil]]. }
  pose proof Hs as [Hes _]%om_sorted_cons. cbn [raw_loop]. rewrite past_prefix_spec, fmap_cons.
  destruct (starts_with p (user_key ik)) eqn:E; cbn [negb].
  - rewrite !elem_of_cons, IH; [|done|intros ik' r' ?; eapply Hp; by right].
    destruct r as [v0 s0|s0]; cbn [sst_of_record fst snd].
    all: split; [intros [?|[? ?]]; simplify_eq; auto|intros [? [?|?]]; simplify_eq; auto].
  - split; [by intros ?%elem_of_nil|]. intros [Hk Hin]. exfalso.
    assert (∃ ik' r', (ik', r') ∈ (ik, r) :: es ∧ user_key ik' = k) as (ik' & r' & Hin' & <-).
    { rewrite <-fmap_cons in Hin. apply list_elem_of_fmap in Hin as ([ik' r'] & Ex & Hin). exists ik', r'.
      split; [done|]. destruct r'; cbn in Ex; congruence. }
    assert (starts_with p (user_key ik) = true) as Hcc; [|congruence].
    apply (starts_with_between _ _ (user_key ik')); [apply (Hp ik r); by left| |done].
    apply elem_of_cons in Hin' as [[= -> ->]|Hin']; [by rewrite bcmp_refl|].
    by eapply (sorted_cur_ok ik r es Hs).
Qed.

Lemma iter_prefix_get p es k ts :
  om_sorted es → (∀ ik r, (ik, r) ∈ es → commit_ts ik <= u64_max) → starts_with p k = true →
  om_get (mkIK k ts) (iter_prefix p es) = om_get (mkIK k ts) es.
Proof.
  intros Hs Hts Hk. destruct p as [|b p]; [done|]. cbn [iter_prefix]. apply option_eq. intros x.
  rewrite !om_get_elem, om_from_elem by (done || by apply om_from_sorted).
  split; [by intros [? _]|]. intros Hin. split; [done|]. apply seek_ge. cbn [fst user_key commit_ts].
  destruct (bcmp (b :: p) k) eqn:E; [|by left|].
  - apply bcmp_eq in E as <-. right. split; [done|]. by apply (Hts _ _ Hin).
  - by apply starts_with_le in Hk.
Qed.

(** Sequences fit the read timestamp. *)
Definition seqs_fit (L : list SstEntry) : Prop := Forall (λ x, se_sequence x <= u64_max) L.

Lemma raw_scan_prefix_elem p m k v s :
  mt_ok m → seqs_fit (mem_versions m) →
  (k, v, s) ∈ raw_scan_prefix p m ↔ starts_with p k = true ∧ mkSstEntry k v s ∈ mem_versions m.
Proof.
  intros Hm Hf. pose proof (mo_sorted m Hm) as Hs. unfold raw_scan_prefix, mem_versions.
  rewrite raw_loop_elem; [|by apply iter_prefix_sorted|intros ??; by apply iter_prefix_ge].
  split; intros [Hp Hin]; (split; [done|]).
  - apply list_elem_of_fmap in Hin as (x & -> & Hx). apply list_elem_of_fmap_2.
    destruct p; [done|]. by apply om_from_elem in Hx as [? _].
  - apply (elem_mem_versions m k s v Hm) in Hin as Hg. apply list_elem_of_fmap.
    rewrite <-(iter_prefix_get p) in Hg; [|done| |done].
    + apply om_get_elem in Hg; [|by apply iter_prefix_sorted]. eexists. split; [|exact Hg]. by destruct v.
    + intros ik r Hx. rewrite <-(mo_seq m Hm ik r Hx). unfold seqs_fit in Hf. rewrite Forall_forall in Hf.
      specialize (Hf (sst_of_record (ik, r)) (list_elem_of_fmap_2 _ _ _ Hx)). by destruct r.
Qed.

Section Scan.
Context {T : Type} `{SstLaws T}.

Implicit Types e : Engine T.

(** The versions the scan merges, in its order. *)
Definition raw_entry (x : bytes * option bytes * N) : SstEntry := mkSstEntry x.1.1 x.1.2 x.2.

Definition scanned (p : bytes) (ts : N) (m : Memtable) (ess : list (list SstEntry)) : list SstEntry :=
  mjoin (sst_visible p ts None <$> rev ess) ++
  filter (λ x, se_sequence x <= ts) (raw_entry <$> raw_scan_prefix p m).

Lemma in_rev_elem {A} (x : A) l : x ∈ rev l ↔ x ∈ l.
Proof. rewrite !list_elem_of_In. symmetry. apply in_rev. Qed.

Lemma Forall2_rev_of {A B} (P : A → B → Prop) l k : Forall2 P l k → Forall2 P (rev l) (rev k).
Proof. induction 1; cbn; [constructor|]. by apply Forall2_app; [|constructor]. Qed.

Lemma merge_tables_foldl max p ts l ess m :
  Forall2 (λ (x : TableMetadata * T) es, holds x.2 es) l ess → om_sorted m →
  merge_tables max p ts l (take (N.to_nat max) m) =
    Ok (take (N.to_nat max) (foldl merge_full m (mjoin (sst_visible p ts None <$> ess)))).
Proof.
  intros Hl. revert m. induction Hl as [|[meta t] es l ess Ht _ IH]; intros m Hs; [done|].
  cbn [merge_tables]. rewrite (hd_scan t es Ht). cbn [mbind result_bind fmap list_fmap mjoin list_join].
  rewrite foldl_merge_window by done. rewrite foldl_app. apply IH. by apply foldl_merge_sorted.
Qed.

Lemma merge_memtable_foldl max p ts mt m :
  om_sorted m →
  merge_memtable max p ts mt (take (N.to_nat max) m) =
    take (N.to_nat max)
      (foldl merge_full m (filter (λ x, se_sequence x <= ts) (raw_entry <$> raw_scan_prefix p mt))).
Proof.
  unfold merge_memtable. generalize (raw_scan_prefix p mt) as l. intros l Hs.
  rewrite <-foldl_merge_window by done. generalize (take (N.to_nat max) m) as w. clear.
  induction l as [|[[k v] s] l IH]; intros w; [done|]. cbn [foldl fmap list_fmap]. rewrite filter_cons.
  cbn [raw_entry se_sequence fst snd]. destruct (N.ltb_spec ts s).
  - rewrite decide_False by lia. apply IH.
  - rewrite decide_True by lia. cbn [foldl]. apply IH.
Qed.

Lemma scan_prefix_inner_eq p opts e ess :
  tables_ok e ess → validate_scan_prefix p e = Ok tt →
  let max := max_scan_results (limits e) in
  scan_prefix_inner p opts e =
    Ok (scan_out (max_scan_bytes (limits e)) (match scan_limit opts with Some l => N.min l max | None => max end) 0 0
          (take (N.to_nat max)
             (foldl merge_full [] (scanned p (as_u64 (scan_read_at opts)) (memtable e) ess)))).
Proof.
  intros [Hm Ht] Hv max. unfold scan_prefix_inner. rewrite Hv. cbn [mbind result_bind]. fold max.
  replace (@nil (bytes * (N * option bytes))) with (take (N.to_nat max) (@nil (bytes * (N * option bytes)))) at 1
    by apply take_nil.
  rewrite (merge_tables_foldl _ _ _ _ (rev ess)); [|by apply Forall2_rev_of|apply om_sorted_nil].
  cbn [mbind result_bind]. rewrite merge_memtable_foldl by apply foldl_merge_sorted, om_sorted_nil.
  unfold scanned. by rewrite foldl_app.
Qed.

Lemma scanned_elem p ts e ess y :
  tables_ok e ess → seqs_fit (mem_versions (memtable e)) →
  y ∈ scanned p ts (memtable e) ess →
  y ∈ mjoin (sources e ess) ∧ starts_with p (se_key y) = true ∧ se_sequence y <= ts.
Proof.
  intros [Hm Ht] Hf Hy. unfold sources. cbn [mjoin list_join]. rewrite elem_of_app.
  apply elem_of_app in Hy as [Hy|Hy].
  - apply list_elem_of_join in Hy as (b & Hyb & Hb). apply list_elem_of_fmap in Hb as (es & -> & Hes).
    apply sst_visible_elem in Hyb as (Hin & Hp & Hs). split_and!; [|done..].
    right. apply list_elem_of_join. exists es. split; [done|]. by apply in_rev_elem.
  - apply list_elem_of_filter in Hy as [Hs Hy]. apply list_elem_of_fmap in Hy as ([[k v] s] & -> & Hy).
    apply raw_scan_prefix_elem in Hy as [Hp Hin]; [|done..]. split_and!; [by left|done..].
Qed.

Lemma scanned_covers p ts e ess y :
  tables_ok e ess → seqs_fit (mem_versions (memtable e)) →
  y ∈ mjoin (sources e ess) → starts_with p (se_key y) = true → se_sequence y <= ts →
  ∃ y', y' ∈ scanned p ts (memtable e) ess ∧ se_key y' = se_key y ∧ se_sequence y <= se_sequence y'.
Proof.
  intros Hok Hf Hy Hp Hs. pose proof Hok as [Hm Ht]. unfold sources in Hy. cbn [mjoin list_join] in Hy.
  apply elem_of_app in Hy as [Hy|Hy].
  - exists y. split_and!; [|done..]. apply elem_of_app. right. apply list_elem_of_filter. split; [done|].
    apply list_elem_of_fmap. destruct y as [k v s]. exists (k, v, s). split; [done|]. by apply raw_scan_prefix_elem.
  - apply list_elem_of_join in Hy as (es & Hye & Hes).
    assert (sst_sorted es) as Hso.
    { pose proof (tables_ok_sorted e ess Hok) as Ha. rewrite Forall_forall in Ha. apply Ha. by right. }
    destruct (sst_newest (se_key y) ts es) as [x|] eqn:E.
    2: { by destruct (proj1 (sst_newest_None _ _ _) E y Hye). }
    pose proof (sst_newest_latest _ _ _ _ Hso E) as (_ & [Hk _] & Hall). exists x.
    split_and!; [|done|by apply Hall]. apply elem_of_app. left. apply list_elem_of_join.
    exists (sst_visible p ts None es). split; [by apply (sst_visible_newest p (se_key y))|].
    apply list_elem_of_fmap_2. by apply in_rev_elem.
Qed.

(** The merge keeps, per key with the prefix, the newest visible version. *)
Lemma scanned_top p ts e ess x :
  tables_ok e ess → seqs_fit (mem_versions (memtable e)) → consistent (mjoin (sources e ess)) →
  top_of (scanned p ts (memtable e) ess) x ↔
  starts_with p (se_key x) = true ∧ is_latest (mjoin (sources e ess)) (se_key x) ts x.
Proof.
  intros Hok Hf Hc. split.
  - intros [Hx Ht]. pose proof (scanned_elem p ts e ess x Hok Hf Hx) as (Hin & Hp & Hs).
    split; [done|]. split_and!; [done|done|]. intros y Hy [Hk Hys].
    destruct (scanned_covers p ts e ess y Hok Hf Hy) as (y' & Hy' & Hk' & Hle); [by rewrite Hk|done|].
    specialize (Ht y' Hy' ltac:(congruence)). lia.
  - intros [Hp (Hin & [_ Hs] & Hall)].
    assert (∀ y, y ∈ scanned p ts (memtable e) ess → se_key y = se_key x → se_sequence y <= se_sequence x) as Hmax.
    { intros y Hy Hk. destruct (scanned_elem p ts e ess y Hok Hf Hy) as (? & _ & ?). by apply Hall. }
    split; [|done]. destruct (scanned_covers p ts e ess x Hok Hf Hin Hp Hs) as (x' & Hx' & Hk' & Hle).
    assert (x' = x) as <-; [|done]. pose proof (scanned_elem p ts e ess x' Hok Hf Hx') as (? & _ & _).
    apply Hc; [done..|]. specialize (Hmax x' Hx' Hk'). lia.
Qed.

Lemma scanned_consistent p ts e ess :
  tables_ok e ess → seqs_fit (mem_versions (memtable e)) → consistent (mjoin (sources e ess)) →
  consistent (scanned p ts (memtable e) ess).
Proof.
  intros Hok Hf Hc x y Hx Hy. apply Hc; [by apply (scanned_elem p ts e ess x)|by apply (scanned_elem p ts e ess y)].
Qed.

(** The merged map, by what point reads return. *)
Lemma scan_map_get p ts at_ e ess k :
  as_u64 at_ = ts →
  tables_ok e ess → seqs_fit (mem_versions (memtable e)) →
  consistent (mjoin (sources e ess)) → layered (sources e ess) →
  (om_get k (foldl merge_full [] (scanned p ts (memtable e) ess)) ≫= snd) =
    (if starts_with p k then match get_inner k at_ e with Ok v => v | Err _ => None end else None).
Proof.
  intros Hts Hok Hf Hc Hl. rewrite (get_inner_first_hit _ _ _ _ Hok), Hts.
  pose proof (foldl_merge_top (scanned p ts (memtable e) ess) k) as Hm.
  specialize (Hm (scanned_consistent p ts e ess Hok Hf Hc)).
  pose proof (first_hit_latest k ts _ (tables_ok_sorted e ess Hok) Hl) as Hh.
  destruct (om_get k _) as [[s v]|].
  - apply scanned_top in Hm as [Hp (Hin & Hv & Hall)]; [|done..]. cbn in Hp, Hall. rewrite Hp.
    destruct (first_hit k ts (sources e ess)) as [x|]; [|by destruct (Hh _ Hin)].
    destruct Hh as (Hx & Hxv & Hxall).
    assert (mkSstEntry k v s = x) as <-; [|done]. destruct Hxv as [Hkx Hsx]. apply Hc; [done..|cbn; congruence|].
    apply N.le_antisymm; [by apply Hxall|by apply Hall].
  - destruct (starts_with p k) eqn:Ep; [|done].
    destruct (first_hit k ts (sources e ess)) as [x|]; [|done]. exfalso. destruct Hh as (Hx & [Hkx Hsx] & _).
    destruct (scanned_covers p ts e ess x Hok Hf Hx) as (y & Hy & Hky & _); [by rewrite Hkx|done|].
    apply (Hm y Hy). congruence.
Qed.

End Scan.

(** ** The output loop *)

(** The keys with a value, tombstones left out. *)
Definition live_pairs (m : Merged) : list (bytes * bytes) :=
  omap (λ '(k, (_, v)), pair k <$> v) m.

Definition pairs_bytes (l : list (bytes * bytes)) : N := foldr N.add 0 ((λ x, lenN x.1 + lenN x.2) <$> l).

Lemma scan_out_prefix max_bytes limit m : ∀ total count,
  scan_out max_bytes limit total count m `prefix_of` live_pairs m.
Proof.
  induction m as [|[k [s [v|]]] m IH]; intros total count; cbn [scan_out]; [done| |apply IH].
  change (live_pairs ((k, (s, Some v)) :: m)) with ((k, v) :: live_pairs m).
  case_match; [apply prefix_nil|]. apply prefix_cons. case_match; [apply prefix_nil|apply IH].
Qed.

(** Without a limit in the way the output is complete. *)
Lemma scan_out_all max_bytes limit m : ∀ total count,
  count + lenN (live_pairs m) <= limit → total + pairs_bytes (live_pairs m) <= max_bytes →
  scan_out max_bytes limit total count m = live_pairs m.
Proof.
  induction m as [|[k [s [v|]]] m IH]; intros total count; cbn [scan_out]; [done| |apply IH].
  change (live_pairs ((k, (s, Some v)) :: m)) with ((k, v) :: live_pairs m).
  unfold pairs_bytes. cbn [fmap list_fmap foldr fst snd]. fold (pairs_bytes (live_pairs m)).
  intros Hl Hb. assert (lenN ((k, v) :: live_pairs m) = 1 + lenN (live_pairs m)) as Hn by (unfold lenN; cbn; lia).
  rewrite Hn in Hl.
  replace (max_bytes <? total + (lenN k + lenN v)) with false by (symmetry; apply N.ltb_ge; unfold pairs_bytes; lia).
  rewrite andb_false_r. f_equal. destruct (N.leb_spec limit (count + 1)).
  - assert (lenN (live_pairs m) = 0) as Hz by lia. unfold lenN in Hz. by destruct (live_pairs m).
  - apply IH; [lia|]. unfold pairs_bytes in *. lia.
Qed.

Lemma live_pairs_take_prefix n m : live_pairs (take n m) `prefix_of` live_pairs m.
Proof. rewrite <-(take_drop n m) at 2. unfold live_pairs. rewrite omap_app. by eexists. Qed.

Lemma live_pairs_elem m k v : om_sorted m → (k, v) ∈ live_pairs m ↔ (om_get k m ≫= snd) = Some v.
Proof.
  intros Hs. unfold live_pairs. rewrite list_elem_of_omap. split.
  - intros ([k' [s v']] & Hin & E). destruct v'; simplify_eq/=. apply om_get_elem in Hin; [|done]. by rewrite Hin.
  - destruct (om_get k m) as [[s v']|] eqn:E; [|done]. cbn. intros ->. apply om_get_elem in E; [|done].
    by exists (k, (s, Some v)).
Qed.

Lemma live_pairs_sorted m : om_sorted m → om_sorted (live_pairs m).
Proof.
  induction m as [|[k [s v]] m IH]; intros Hs; [constructor|]. pose proof Hs as [Hm Hf]%om_sorted_cons.
  destruct v as [v|]; [|by apply IH].
  change (live_pairs ((k, (s, Some v)) :: m)) with ((k, v) :: live_pairs m). apply om_sorted_cons. split; [by apply IH|].
  apply Forall_forall. intros [k' v'] Hx. unfold live_pairs in Hx. pose proof (proj1 (Forall_forall _ _) Hf) as Hall.
  apply list_elem_of_omap in Hx as ([k2 [s2 v2]] & Hin & E). destruct v2; simplify_eq/=. exact (Hall _ Hin).
Qed.
