(* ===== verification/EngineStore.v ===== *)
(** What the engine promises to the components built on it: it represents a
    history of versions, which its reads are read off and its writes extend. *)
From stdpp Require Import gmap.
From S2P Require Import Prelude Bytes Core Hlc OrdMap Path Disk WalCodec WalWriter InternalKey SstBlock SstSpec Memtable Manifest Compaction Engine EngineReads EngineScan.

Open Scope N_scope.

(** ** Parts of a state that a step keeps *)

Definition keeps {S A X} (f : S → X) (m : stm S A) : Prop := ∀ s, f (m s).2 = f s.

Lemma keeps_ret {S A X} (f : S → X) (a : A) : keeps f (mret a).
Proof. done. Qed.

Lemma keeps_lift {S A X} (f : S → X) (r : result KayaError A) : keeps f (lift r).
Proof. done. Qed.

Lemma keeps_bind {S A B X} (f : S → X) (m : stm S A) (k : A → stm S B) :
  keeps f m → (∀ a, keeps f (k a)) → keeps f (m ≫= k).
Proof.
  intros Hm Hk s. specialize (Hm s). unfold mbind, stm_bind. destruct (m s) as [[a|x] s1]; [|done].
  cbn in Hm. rewrite <-Hm. apply Hk.
Qed.

Lemma keeps_get {S X} (f : S → X) : keeps f get_state.
Proof. done. Qed.

Lemma keeps_modify {S X} (f : S → X) (g : S → S) : (∀ s, f (g s) = f s) → keeps f (modify g).
Proof. intros Hg s. apply Hg. Qed.

Create HintDb keeps.
#[export] Hint Resolve keeps_ret keeps_lift keeps_get keeps_modify : keeps.
#[export] Hint Extern 1 (keeps _ (_ ≫= _)) => (apply keeps_bind; [|intros ?]) : keeps.
#[export] Hint Extern 2 (keeps _ _) => progress cbv zeta : keeps.

Lemma bind_get {S A} (k : S → stm S A) s : (get_state ≫= k) s = k s s.
Proof. done. Qed.

Lemma bind_lift {S A B} (r : result KayaError A) (k : A → stm S B) s :
  (lift r ≫= k) s = match r with Ok a => k a s | Err x => (Err x, s) end.
Proof. by destruct r. Qed.

Lemma bind_modify {S A} (g : S → S) (k : unit → stm S A) s : (modify g ≫= k) s = k tt (g s).
Proof. done. Qed.

(** ** The sequence of the log *)

Lemma keeps_on_disk {A} (op : stm SimState A) : keeps w_next_sequence (on_disk op).
Proof. intros w. unfold on_disk. by destruct (op (w_disk w)). Qed.

Lemma keeps_flush_batch us : keeps w_next_sequence (flush_strict_batch us).
Proof.
  intros w. unfold flush_strict_batch. pose proof (keeps_on_disk (fsync_file (active_path w)) w) as H.
  by destruct (on_disk _ w) as [[] ?].
Qed.
#[local] Hint Resolve keeps_on_disk keeps_flush_batch : keeps.

Lemma keeps_flush_expired now us : keeps w_next_sequence (flush_expired now us).
Proof. intros w. unfold flush_expired. destruct (_ && _); [|done]. revert w. fold (keeps w_next_sequence (_ ← flush_strict_batch us; mret tt)). eauto with keeps. Qed.

Lemma keeps_rotate_if_full us len : keeps w_next_sequence (rotate_if_full us len).
Proof.
  intros w. unfold rotate_if_full. destruct (_ && _); [|done]. revert w.
  fold (keeps w_next_sequence (_ ← flush_pending_batch us; rotate)). apply keeps_bind; [|intros []].
  - intros w. unfold flush_pending_batch. destruct (has_pending (batch w)); [|done]. revert w.
    fold (keeps w_next_sequence (_ ← flush_strict_batch us; mret tt)). eauto with keeps.
  - intros w. unfold rotate. by case_match.
Qed.

Lemma keeps_sync_new_segment : keeps w_next_sequence sync_new_segment.
Proof.
  intros w. unfold sync_new_segment. destruct (active_dir_synced w); [done|]. revert w.
  fold (keeps w_next_sequence (d ← lift (path_new (str "wal")); _ ← on_disk (fsync_dir d); modify upd_dir_synced)).
  eauto 10 with keeps.
Qed.

(** The log hands out its next sequence to the record it returns, and never goes
    back. *)
Definition appended_seq (s : N) (x : result KayaError AppendOutcome * WalWriterInner) : Prop :=
  match x with
  | (Ok (Returned r), w') => ar_sequence r = s ∧ w_next_sequence w' = s + 1
  | (_, w') => s <= w_next_sequence w' <= s + 1
  end.

Lemma appended_bind {A} s (m : stm WalWriterInner A) (k : A → stm WalWriterInner AppendOutcome) w :
  keeps w_next_sequence m → w_next_sequence w = s →
  (∀ a w1, w_next_sequence w1 = s → appended_seq s (k a w1)) → appended_seq s ((m ≫= k) w).
Proof.
  intros Hm Hw Hk. specialize (Hm w). unfold mbind, stm_bind. destruct (m w) as [[a|x] w1]; cbn in *.
  - apply Hk. congruence.
  - lia.
Qed.

Lemma finish_append_seq mode now us r off len w :
  appended_seq (w_next_sequence w) (finish_append mode now us r off len w).
Proof.
  unfold finish_append. destruct mode; [|done].
  destruct (negb (enabled (batch w))).
  - apply appended_bind; [eauto with keeps|done|]. intros a w1 Hw1. split; [done|]. change (w_next_sequence w1 + 1 = w_next_sequence w + 1). by rewrite Hw1.
  - destruct (after_record_appended now r len (batch w)) as [[] b]; [|cbn; lia].
    unfold mbind, stm_bind. set (w1 := advance (off + len) (upd_batch b w)).
    pose proof (keeps_flush_batch us w1) as Hk.
    destruct (flush_strict_batch us w1) as [[a|x] w2]; cbn in *; [done|lia].
Qed.

Lemma wal_append_seq p mode now us w : appended_seq (w_next_sequence w) (wal_append p mode now us w).
Proof.
  unfold wal_append.
  apply appended_bind; [apply keeps_flush_expired|done|]. intros [] w1 H1.
  apply appended_bind; [apply keeps_get|done|]. intros w2 w2' H2. cbv zeta.
  apply appended_bind; [apply keeps_lift|done|]. intros enc w3 H3.
  apply appended_bind; [apply keeps_rotate_if_full|done|]. intros [] w4 H4.
  apply appended_bind; [apply keeps_get|done|]. intros w5 w5' H5.
  apply appended_bind; [apply keeps_on_disk|done|]. intros off w6 H6.
  apply appended_bind; [apply keeps_sync_new_segment|done|]. intros [] w7 <-.
  apply finish_append_seq.
Qed.

(** ** Sorted maps *)

Lemma join_app_l {A} (x : A) (l : list A) ls : x ∈ mjoin (l :: ls) ↔ x ∈ l ∨ x ∈ mjoin ls.
Proof. cbn [mjoin list_join]. apply elem_of_app. Qed.

Lemma length_omap_le {A B} (f : A → option B) l : (length (omap f l) ≤ length l)%nat.
Proof. induction l as [|x l IH]; cbn; [done|]. destruct (f x); cbn; lia. Qed.

(** ** The engine's steps *)

Section Store.
Context {T : Type} `{SstLaws T}.
Implicit Types e : Engine T.

(** A write of a value or, with [None], a deletion. *)
Definition engine_write (key : bytes) (v : option bytes) (mode : option DurabilityMode) (now_ms now fsync_us : N)
    : stm (Engine T) (option WriteResult) :=
  match v with
  | Some value => write_put key value mode now_ms now fsync_us
  | None => write_delete key mode now_ms now fsync_us
  end.

(** The configuration; with it the sequences assigned so far and the clock. *)
Definition fixed e := (limits e, durability e, memtable_max_bytes e, e_use_hlc e).
Definition static e := (fixed e, w_next_sequence (wal e), e_last_sequence e, e_hlc e).

Lemma keeps_edisk {A} (op : stm SimState A) : keeps static (edisk op).
Proof.
  intros e. unfold edisk. pose proof (keeps_on_disk op (wal e)) as Hk. destruct (on_disk op (wal e)) as [r w].
  unfold static. cbn in *. by rewrite Hk.
Qed.
Lemma keeps_next_edit edit : keeps static (next_edit edit).
Proof. done. Qed.
Lemma keeps_take_table_id : keeps static take_table_id.
Proof. done. Qed.
#[local] Hint Resolve keeps_edisk keeps_next_edit keeps_take_table_id : keeps.

Lemma keeps_flush : keeps static flush.
Proof.
  intros e. unfold flush. destruct (mt_is_empty (memtable e)); [done|]. revert e. fold (keeps static flush_nonempty).
  unfold flush_nonempty, publish_table, publish_current. eauto 60 with keeps.
Qed.

Lemma keeps_auto_flush : keeps static maybe_auto_flush.
Proof.
  intros e. unfold maybe_auto_flush. destruct (_ && _); [|done]. revert e.
  fold (keeps static (_ ← flush; mret tt)). eauto using keeps_flush with keeps.
Qed.

(** *** The clock *)

(** A reading of the wall clock, in milliseconds, that the hybrid clock packs into the lower half
    of the sequences: until the year 6429. *)
Definition clock_limit : N := 2 ^ 47.
Definition clock_ok e : Prop := e_use_hlc e = true → physical_ms (e_hlc e) < clock_limit ∧ logical (e_hlc e) < u16_lim.
(** The sequences the next write may get. *)
Definition seq_limit e : N := N.max (w_next_sequence (wal e)) (if e_use_hlc e then 2 ^ 63 else 0).

(** What a write does to the clock and the sequences before its append. *)
Lemma prepare_write_clock ms e : clock_ok e → (e_use_hlc e = true → ms < clock_limit) →
  let e0 := prepare_write ms e in
  view e0 = view e ∧ fixed e0 = fixed e ∧ e_last_sequence e0 = e_last_sequence e ∧ clock_ok e0 ∧
  w_next_sequence (wal e) <= w_next_sequence (wal e0) <= seq_limit e.
Proof.
  intros Hc Hm. cbv zeta. unfold prepare_write, prepare_hlc_write_sequence, clock_ok, seq_limit, fixed.
  destruct (e_use_hlc e) eqn:Eu; cbn [use_hlc hlc next_sequence].
  - destruct (Hc Eu) as [Hp Hl]. specialize (Hm eq_refl). set (c := tick (e_hlc e) ms).
    assert (physical_ms c < clock_limit ∧ logical c < u16_lim) as [Hp' Hl'].
    { unfold c, tick. rewrite update_physical. split; [cbn; unfold clock_limit in *; lia|].
      apply (update_ok (e_hlc e) ms None); [split; [unfold clock_limit, u64_lim in *; lia|done]|unfold clock_limit, u64_lim in *; lia|done]. }
    assert (to_u64 c < 2 ^ 63) as Ht by (rewrite to_u64_eq by done; unfold clock_limit, max_phys, u16_lim in *; lia).
    split_and!; [by destruct e|by destruct e; cbn in *; subst|by destruct e|..].
    + by destruct e.
    + destruct e as [? ? ? ? ? ? ? w]; cbn in *. unfold ensure_min_sequence. destruct (N.ltb_spec (w_next_sequence w) (N.max (to_u64 c) 1)); lia.
    + destruct e as [? ? ? ? ? ? ? w]; cbn in *. unfold ensure_min_sequence. destruct (N.ltb_spec (w_next_sequence w) (N.max (to_u64 c) 1)); lia.
  - destruct e as [? ? ? ? ? uh ? w]. cbn in *. subst uh. destruct w. cbn. split_and!; try done; lia.
Qed.

(** The state between a write's append and its automatic flush, under the sequence [s]. *)
Record applied key v s e e1 : Prop := {
  ap_written : written key v s e e1;
  ap_seq : w_next_sequence (wal e) <= s <= seq_limit e;
  ap_last : e_last_sequence e1 = s;
  ap_next : w_next_sequence (wal e1) = s + 1;
  ap_fixed : fixed e1 = fixed e;
  ap_clock : clock_ok e1
}.

(** A write that stops before the memtable leaves what readers see; one that
    reaches it goes on to the automatic flush. *)
Definition write_outcome key v e (res : result KayaError (option WriteResult)) e' : Prop :=
  (view e' = view e ∧ fixed e' = fixed e ∧ clock_ok e' ∧
   w_next_sequence (wal e) <= w_next_sequence (wal e') <= seq_limit e + 1 ∧ ∀ r, res ≠ Ok (Some r)) ∨
  (∃ s e1, applied key v s e e1 ∧ e' = (maybe_auto_flush e1).2 ∧ ∀ r, res = Ok (Some r) → wr_sequence r = s).

Lemma log_append_outcome key v p apply mode now us e e0 :
  (∀ s m, apply s m = write_to key v s m) →
  view e0 = view e → fixed e0 = fixed e → clock_ok e0 → w_next_sequence (wal e) <= w_next_sequence (wal e0) <= seq_limit e →
  let x := (r ← log_append p mode now us; after_append apply r) e0 in write_outcome key v e x.1 x.2.
Proof.
  intros Happ Hv Hf Hc Hn. cbv zeta. unfold mbind, stm_bind, log_append. pose proof (wal_append_seq p mode now us (wal e0)) as Hs.
  destruct (wal_append p mode now us (wal e0)) as [[[r|r]|x] w] eqn:Ew; unfold appended_seq in Hs.
  2,3: left; split_and!; [done|done|done|cbn; lia|cbn; lia|done].
  right. cbn [after_append]. unfold mbind, stm_bind, modify.
  set (e1 := set_last_sequence _ _). destruct Hs as [Hr Hw].
  exists (w_next_sequence (wal e0)), e1. split; [|split].
  - destruct (view_eq _ _ Hv) as (Hm & Hss & _). split; cbn; [|done|done|done|done|done].
    split; cbn; [by rewrite Hr, Happ, Hm|done].
  - by destruct (maybe_auto_flush e1) as [[[]|] ?].
  - destruct (maybe_auto_flush e1) as [[[]|] ?]; [|done]. intros r' [= <-]. done.
Qed.

Lemma engine_write_outcome key v mode ms now us e :
  clock_ok e → (e_use_hlc e = true → ms < clock_limit) →
  let x := engine_write key v mode ms now us e in write_outcome key v e x.1 x.2.
Proof.
  intros Hc Hm. cbv zeta. destruct (prepare_write_clock ms e Hc Hm) as (Hv & Hf & _ & Hc0 & Hn).
  assert (∀ x : KayaError, write_outcome key v e (Err x) e) as Herr.
  { intros x. left. unfold seq_limit. split_and!; [done|done|done|lia|lia|done]. }
  unfold engine_write. destruct v as [value|]; [unfold write_put|unfold write_delete]; rewrite bind_get, bind_lift.
  - destruct (validate_key key e) as [[]|x]; [|apply Herr]. rewrite bind_lift.
    destruct (validate_value value e) as [[]|x]; [|apply Herr]. rewrite bind_modify.
    by apply log_append_outcome.
  - destruct (validate_key key e) as [[]|x]; [|apply Herr]. rewrite bind_modify. by apply log_append_outcome.
Qed.

(** ** The history *)

(** The engine holds the versions [h], newest first, and takes further writes
    of a total cost of [room]. *)
Record represents (room : N) (h : list SstEntry) e : Prop := {
  rp_tables : ∃ ess, tables_ok e ess ∧ layered (sources e ess) ∧ ∀ y, y ∈ h ↔ y ∈ mjoin (sources e ess);
  rp_order : StronglySorted (λ x y, se_sequence y < se_sequence x) h;
  rp_last : Forall (λ x, se_sequence x <= e_last_sequence e) h;
  rp_next : e_last_sequence e < w_next_sequence (wal e);
  rp_hlc : clock_ok e;
  rp_fits : Forall entry_fits (mem_versions (memtable e));
  rp_size : table_size (mem_versions (memtable e)) + room < 2 ^ 30;
  rp_seq : seq_limit e + room < 2 ^ 64
}.

(** What the history says of a key at a timestamp. *)
Definition read_at_ts (k : bytes) (ts : N) (h : list SstEntry) : option bytes := sst_newest k ts h ≫= se_value.

Lemma represents_room room room' h e : room' <= room → represents room h e → represents room' h e.
Proof. intros Hle []. split; try done; lia. Qed.

Lemma history_unique h x y :
  StronglySorted (λ x y, se_sequence y < se_sequence x) h →
  x ∈ h → y ∈ h → se_sequence x = se_sequence y → x = y.
Proof.
  induction 1 as [|z h Hs IH Hf]; [by intros ?%elem_of_nil|]. rewrite Forall_forall in Hf.
  intros [->|Hx]%elem_of_cons [->|Hy]%elem_of_cons Hxy.
  - done.
  - specialize (Hf y Hy). lia.
  - specialize (Hf x Hx). lia.
  - by apply IH.
Qed.

(** In a history the first visible version is the newest. *)
Lemma history_latest h k ts x :
  StronglySorted (λ x y, se_sequence y < se_sequence x) h → sst_newest k ts h = Some x → is_latest h k ts x.
Proof.
  unfold sst_newest. induction 1 as [|z h Hs IH Hf]; [done|]. rewrite Forall_forall in Hf. rewrite filter_cons.
  destruct (decide (version_of k ts z)) as [Hv|Hv]; cbn [head].
  - intros [= <-]. split_and!; [by left|done|]. intros y [->|Hy]%elem_of_cons _; [done|].
    specialize (Hf y Hy). lia.
  - intros Hx. destruct (IH Hx) as (Hin & Hxv & Hall). split_and!; [by right|done|].
    intros y [->|Hy]%elem_of_cons Hyv; [done|by apply Hall].
Qed.

Section Laws.
Context (room : N) (h : list SstEntry) (e : Engine T) (Hr : represents room h e).

Lemma rp_consistent ess : (∀ y, y ∈ h ↔ y ∈ mjoin (sources e ess)) → consistent (mjoin (sources e ess)).
Proof. intros Hh x y Hx%Hh Hy%Hh _. apply (history_unique h); [apply Hr|done|done]. Qed.

(** Reads are what the history says. *)
Lemma represents_hit k ts ess :
  tables_ok e ess → layered (sources e ess) → (∀ y, y ∈ h ↔ y ∈ mjoin (sources e ess)) →
  first_hit k ts (sources e ess) = sst_newest k ts h.
Proof.
  intros Hok Hl Hh. pose proof (first_hit_latest k ts _ (tables_ok_sorted e ess Hok) Hl) as Hf.
  destruct (sst_newest k ts h) as [x|] eqn:E.
  - apply history_latest in E as (Hx & Hxv & Hall); [|apply Hr].
    destruct (first_hit k ts (sources e ess)) as [y|].
    + destruct Hf as (Hy%Hh & Hyv & Hyall). f_equal. apply (history_unique h); [apply Hr|done|done|].
      apply N.le_antisymm; [by apply Hall|by apply Hyall; [apply Hh|]].
    + apply Hh in Hx. by destruct (Hf x Hx).
  - pose proof (proj1 (sst_newest_None k ts h) E) as Hno. destruct (first_hit k ts (sources e ess)) as [y|]; [|done].
    destruct Hf as (Hy%Hh & Hyv & _). by destruct (Hno y Hy).
Qed.

Lemma represents_get k at_ : get_inner k at_ e = Ok (read_at_ts k (as_u64 at_) h).
Proof.
  destruct (rp_tables _ _ _ Hr) as (ess & Hok & Hl & Hh).
  rewrite (get_inner_first_hit _ _ _ _ Hok). by rewrite (represents_hit k (as_u64 at_) ess Hok Hl Hh).
Qed.

(** A scan that the limits do not cut returns exactly the pairs of the history;
    [ks] bounds the keys the merge holds, tombstones included. *)
Lemma represents_scan p opts l ks :
  validate_scan_prefix p e = Ok tt → scan_limit opts = None → om_sorted l →
  (∀ k v, (k, v) ∈ l ↔ starts_with p k = true ∧ read_at_ts k (as_u64 (scan_read_at opts)) h = Some v) →
  (∀ x, x ∈ h → starts_with p (se_key x) = true → se_key x ∈ ks) →
  lenN ks <= max_scan_results (limits e) → pairs_bytes l <= max_scan_bytes (limits e) →
  scan_prefix_inner p opts e = Ok l.
Proof.
  intros Hv Hlim Hls Hl Hks Hn Hb. destruct (rp_tables _ _ _ Hr) as (ess & Hok & Hlay & Hh).
  pose proof (rp_consistent ess Hh) as Hc. set (ts := as_u64 (scan_read_at opts)) in *.
  assert (seqs_fit (mem_versions (memtable e))) as Hf.
  { eapply Forall_impl; [apply Hr|]. intros x Hx. pose proof (ef_seq x Hx). unfold u64_max. lia. }
  rewrite (scan_prefix_inner_eq p opts e ess Hok Hv), Hlim. fold ts.
  set (m := foldl merge_full [] (scanned p ts (memtable e) ess)).
  assert (om_sorted m) as Hms by apply foldl_merge_sorted, om_sorted_nil.
  assert (live_pairs m = l) as Hml.
  { apply om_ext; [by apply live_pairs_sorted|done|]. intros k. apply option_eq. intros v.
    rewrite !om_get_elem, Hl, live_pairs_elem by (done || by apply live_pairs_sorted). unfold m.
    rewrite (scan_map_get p ts (scan_read_at opts) e ess k) by done. rewrite represents_get. fold ts.
    destruct (starts_with p k); split; [done|by intros [_ ?]|done|by intros [? _]]. }
  assert (lenN m <= lenN ks) as Hmk.
  { assert (length m.*1 ≤ length ks)%nat as Hle; [|rewrite length_fmap in Hle; unfold lenN; lia].
    apply submseteq_length, NoDup_submseteq; [by apply om_sorted_NoDup|]. intros k Hk.
    apply list_elem_of_fmap in Hk as ([k' [s v]] & -> & Hk). apply om_get_elem in Hk; [|done].
    pose proof (foldl_merge_top (scanned p ts (memtable e) ess) k' (scanned_consistent p ts e ess Hok Hf Hc)) as Ht.
    fold m in Ht. rewrite Hk in Ht. destruct Ht as [Ht _].
    apply (scanned_elem p ts e ess _ Hok Hf) in Ht as (Hin & Hp & _). apply Hh in Hin. by apply (Hks _ Hin). }
  rewrite take_ge by (unfold lenN in *; lia). f_equal. rewrite <-Hml. apply scan_out_all; [|by rewrite Hml].
  assert (length (live_pairs m) ≤ length m)%nat as Hlp by apply length_omap_le. unfold lenN in *. lia.
Qed.

End Laws.

Lemma represents_auto_flush room h e : represents room h e → represents room h (maybe_auto_flush e).2.
Proof.
  intros Hr. pose proof (keeps_auto_flush e) as Hs. unfold static, fixed in Hs.
  injection Hs as _ _ _ Hhlc Hnext Hlast Hclk. destruct Hr as [(ess & Hok & Hl & Hh) Ho Hla Hn Hu Hf Hsz Hsq].
  assert (∃ ess', tables_ok (maybe_auto_flush e).2 ess' ∧
    (sources (maybe_auto_flush e).2 ess' = sources e ess ∨ sources (maybe_auto_flush e).2 ess' = [] :: sources e ess))
    as (ess' & Hok' & Hsrc).
  { unfold maybe_auto_flush. destruct (_ && _); [|exists ess; by split; [|left]].
    unfold mbind, stm_bind. destruct (flush_keeps e ess Hok) as (ess' & Hk); [split; [done|lia]|].
    exists ess'. by destruct (flush e) as [[] ?]. }
  split; unfold clock_ok, seq_limit in *; rewrite ?Hnext, ?Hlast, ?Hhlc, ?Hclk; try done.
  - exists ess'. split; [done|]. destruct Hsrc as [->| ->]; [done|]. by split; [apply layered_nil_source|].
  - destruct Hsrc as [[= -> _]|[= -> _]]; [done|constructor].
  - destruct Hsrc as [[= -> _]|[= -> _]]; [done|]. cbn. lia.
Qed.

(** A write that reached the memtable adds its version to the history. *)
Lemma represents_applied room h key v s e e1 :
  represents room h e → applied key v s e e1 → bytes_ok key → bytes_ok (default [] v) →
  entry_cost (mkSstEntry key v 0) <= room →
  represents (room - entry_cost (mkSstEntry key v 0)) (mkSstEntry key v s :: h) e1.
Proof.
  intros [(ess & [Hm Ht] & Hl & Hh) Ho Hla Hn Hu Hf Hsz Hsq] [[Hm1 Hl1] Hs Hl2 Hn1 Hf1 Hc1] Hbk Hbv Hc.
  set (c := entry_cost (mkSstEntry key v 0)) in *.
  assert (∀ y, y ∈ mjoin (sources e ess) → se_sequence y < s) as Hlt.
  { intros y Hy%Hh. pose proof (proj1 (Forall_forall _ _) Hla y Hy). cbn in *. lia. }
  assert (∀ y, y ∈ mem_versions (write_to key v s (memtable e)) ↔ y = mkSstEntry key v s ∨ y ∈ mem_versions (memtable e))
    as Hmem.
  { intros [k' v' s']. rewrite elem_write_to by done. split.
    - intros [(-> & -> & ->)|[_ ?]]; [by left|by right].
    - intros [[= -> -> ->]|Hin]; [by left|]. right. split; [|done]. intros [= -> ->].
      assert (s < s); [|lia]. apply (Hlt (mkSstEntry key v' s)). unfold sources. rewrite join_app_l. by left. }
  assert (entry_cost (mkSstEntry key v s) = c) as Hcs by done.
  assert (64 <= c /\ lenN key <= c /\ lenN (default [] v) <= c) as Hcb by (unfold c, entry_cost; cbn; lia).
  assert (table_fits (mem_versions (write_to key v s (memtable e)))) as Hfit.
  { apply (table_fits_sub (mkSstEntry key v s :: mem_versions (memtable e))).
    - by apply mem_versions_sorted, write_to_ok.
    - intros y Hy%Hmem. by apply elem_of_cons.
    - split; [|unfold table_size in *; cbn [fmap list_fmap foldr]; rewrite Hcs; lia].
      constructor; [|done]. split; cbn; [lia|destruct v; cbn in *; lia|lia|done|done]. }
  split.
  - exists ess. split_and!.
    + split; [rewrite Hm1; by apply write_to_ok|by rewrite Hl1].
    + unfold sources. rewrite Hm1. apply write_to_layered; [done| |done]. intros y Hy _. apply N.lt_le_incl, Hlt.
      unfold sources. rewrite join_app_l. by right.
    + intros y. unfold sources in *. rewrite elem_of_cons, Hh, !join_app_l, Hm1, Hmem. tauto.
  - constructor; [done|]. apply Forall_forall. intros y Hy. apply Hh in Hy. cbn. by apply Hlt.
  - rewrite Hl2. constructor; [done|]. apply Forall_forall. intros y Hy. apply N.lt_le_incl, Hlt, Hh, Hy.
  - rewrite Hl2, Hn1. lia.
  - done.
  - rewrite Hm1. apply Hfit.
  - rewrite Hm1. eapply N.le_lt_trans; [|exact Hsz]. apply N.le_trans with (table_size (mem_versions (memtable e)) + c + (room - c)).
    + apply N.add_le_mono_r. etrans; [apply (table_size_submseteq _ (mkSstEntry key v s :: mem_versions (memtable e)))|].
      * apply NoDup_submseteq; [by apply sst_sorted_NoDup, mem_versions_sorted, write_to_ok|].
        intros y Hy%Hmem. by apply elem_of_cons.
      * unfold table_size. cbn [fmap list_fmap foldr]. rewrite Hcs. lia.
    + lia.
  - injection Hf1 as _ _ _ Hu1. unfold seq_limit in *. rewrite Hn1, Hu1. lia.
Qed.

(** A write either adds its version, newer than all before, or leaves the
    history; it returns a result only in the first case. *)
Lemma represents_write room h key v mode ms now us e :
  represents room h e → (e_use_hlc e = true → ms < clock_limit) → bytes_ok key → bytes_ok (default [] v) →
  let c := entry_cost (mkSstEntry key v 0) in
  let x := engine_write key v mode ms now us e in
  c <= room →
  fixed x.2 = fixed e ∧
  ((∃ s, e_last_sequence e < s ∧ e_last_sequence x.2 = s ∧ (∀ r, x.1 = Ok (Some r) → wr_sequence r = s) ∧
      represents (room - c) (mkSstEntry key v s :: h) x.2) ∨
   ((∀ r, x.1 ≠ Ok (Some r)) ∧ e_last_sequence x.2 = e_last_sequence e ∧ represents (room - c) h x.2)).
Proof.
  intros Hr Hms Hbk Hbv c x Hc. pose proof (engine_write_outcome key v mode ms now us e (rp_hlc _ _ _ Hr) Hms) as Ho.
  cbv zeta in Ho. fold x in Ho. destruct Ho as [(Hv & Hf & Hck & Hn & Hno)|(s & e1 & Ha & He & Hres)].
  - split; [done|]. right. destruct (view_eq _ _ Hv) as (Hm & Hl & Hls & _). split_and!; [done|done|].
    destruct Hr as [(ess & Hok & Hlay & Hh) Hor Hla Hnx Hu Hfi Hsz Hsq].
    assert (64 <= c) by (unfold c, entry_cost; lia).
    split; rewrite ?Hm, ?Hls; try done; try lia.
    + exists ess. split; [by eapply tables_ok_view|]. unfold sources. by rewrite Hm.
    + unfold fixed in Hf. injection Hf as _ _ _ Hu'. unfold seq_limit in *. rewrite Hu'. lia.
  - pose proof (represents_applied room h key v s e e1 Hr Ha Hbk Hbv Hc) as Hr1.
    pose proof (keeps_auto_flush e1) as Hs. unfold static in Hs. rewrite <-He in Hs.
    apply pair_eq in Hs as [[[Hf1 Hn1]%pair_eq Hl1]%pair_eq _].
    split; [rewrite Hf1; apply Ha|]. left. exists s. split_and!.
    + pose proof (ap_seq _ _ _ _ _ Ha). pose proof (rp_next _ _ _ Hr). lia.
    + rewrite Hl1. apply Ha.
    + done.
    + rewrite He. by apply represents_auto_flush.
Qed.

Lemma represents_edisk {A} (op : stm SimState A) room h e :
  represents room h e → represents room h (edisk op e).2 ∧ static (edisk op e).2 = static e.
Proof.
  intros Hr. pose proof (keeps_edisk op e) as Hs. split; [|done]. pose proof (frames_edisk op e) as Hv.
  destruct (view_eq _ _ Hv) as (Hm & Hl & Hls & _). unfold static, fixed in Hs. injection Hs as _ _ _ Hu Hn _ Hck.
  destruct Hr as [(ess & Hok & Hlay & Hh) Hor Hla Hnx Hhl Hfi Hsz Hsq].
  split; unfold clock_ok, seq_limit in *; rewrite ?Hm, ?Hls, ?Hn, ?Hu, ?Hck; try done.
  exists ess. split; [by eapply tables_ok_view|]. unfold sources. by rewrite Hm.
Qed.

End Store.
