(* ===== verification/EngineCompact.v ===== *)
(** What compaction does to the reads: the versions it collects, sorts and
    removes duplicates from, and the table it installs. *)
From stdpp Require Import gmap.
From S2P Require Import Prelude Bytes Core Hlc OrdMap Path Disk WalCodec WalWriter InternalKey SstBlock SstSpec Memtable Manifest Compaction Engine EngineReads EngineScan.

Open Scope N_scope.

(** ** Collecting *)

Definition version (x : SstEntry) : Version := (se_sequence x, se_value x).

(** The versions of a key, in the order of the entries. *)
Definition vers (k : bytes) (L : list SstEntry) : list Version := version <$> filter (λ x, se_key x = k) L.

Definition collected (k : bytes) (m : list (bytes * list Version)) : list Version := default [] (om_get k m).

Lemma foldl_push_version es : ∀ m,
  om_sorted m →
  om_sorted (foldl push_version m es) ∧ ∀ k, collected k (foldl push_version m es) = collected k m ++ vers k es.
Proof.
  induction es as [|x es IH]; intros m Hs.
  { split; [done|]. intros k. by rewrite app_nil_r. }
  cbn [foldl]. destruct (IH (push_version m x)) as [Hs' Hg]; [by apply om_insert_sorted|].
  split; [done|]. intros k. rewrite Hg. unfold vers. rewrite filter_cons. unfold push_version, collected at 1.
  destruct (decide (se_key x = k)) as [<-|Hne].
  - rewrite om_get_insert_eq. cbn [default from_option]. rewrite fmap_cons. cbn [id]. by rewrite <-app_assoc.
  - by rewrite om_get_insert_ne.
Qed.

Lemma vers_elem k L s v : (s, v) ∈ vers k L ↔ mkSstEntry k v s ∈ L.
Proof.
  unfold vers. rewrite list_elem_of_fmap. split.
  - intros ([k' v' s'] & [= -> ->] & Hx). by apply list_elem_of_filter in Hx as [<- ?].
  - intros Hx. exists (mkSstEntry k v s). split; [done|]. by apply list_elem_of_filter.
Qed.

(** ** Sorting and removing duplicates *)

Definition descending (vs : list Version) : Prop := StronglySorted (λ x y : Version, y.1 <= x.1) vs.

Lemma insert_version_perm v l : insert_version v l ≡ₚ v :: l.
Proof. induction l as [|x l IH]; [done|]. cbn. case_match; [done|]. rewrite IH. apply Permutation_swap. Qed.

Lemma sort_versions_perm l : sort_versions l ≡ₚ l.
Proof. induction l as [|x l IH]; [done|]. cbn. by rewrite insert_version_perm, IH. Qed.

Lemma insert_version_descending v l : descending l → descending (insert_version v l).
Proof.
  induction 1 as [|x l Hl IH Hf]; cbn; [by repeat constructor|].
  destruct (N.leb_spec x.1 v.1) as [Hle|Hgt].
  - constructor; [by constructor|]. constructor; [done|]. eapply Forall_impl; [exact Hf|]. cbn. intros; lia.
  - constructor; [done|]. rewrite insert_version_perm. constructor; [lia|done].
Qed.

Lemma sort_versions_descending l : descending (sort_versions l).
Proof. induction l; cbn; [constructor|by apply insert_version_descending]. Qed.

Lemma dedup_from_spec l : ∀ prev,
  descending l → Forall (λ x : Version, x.1 <= prev) l →
  desc (dedup_from prev l) ∧ Forall (λ x : Version, x.1 < prev) (dedup_from prev l) ∧
  (∀ x, x ∈ dedup_from prev l → x ∈ l) ∧
  (∀ x, x ∈ l → x.1 = prev ∨ ∃ y, y ∈ dedup_from prev l ∧ y.1 = x.1).
Proof.
  induction l as [|x l IH]; intros prev Hd Hf.
  { cbn. split_and!; [constructor|constructor|done|by intros ? ?%elem_of_nil]. }
  inversion Hd as [|? ? Hl Hx]; subst. apply Forall_cons in Hf as [Hp Hf]. cbn [dedup_from].
  destruct (N.eqb_spec x.1 prev) as [E|E].
  - destruct (IH prev) as (H1 & H2 & H3 & H4); [done|done|]. split_and!; [done|done| |].
    + intros y Hy. right. by apply H3.
    + intros y [->|Hy]%elem_of_cons; [by left|by apply H4].
  - destruct (IH x.1) as (H1 & H2 & H3 & H4); [done|done|]. split_and!.
    + by constructor.
    + constructor; [lia|]. eapply Forall_impl; [exact H2|]. cbn. intros; lia.
    + intros y [->|Hy]%elem_of_cons; [by left|right; by apply H3].
    + intros y [->|Hy]%elem_of_cons; [right; exists x; split; [by left|done]|].
      right. destruct (H4 y Hy) as [Ey|(z & Hz & Ez)]; [exists x; split; [by left|done]|].
      exists z. split; [by right|done].
Qed.

(** One version per sequence. *)
Definition one_per_seq (vs : list Version) : Prop := ∀ x y, x ∈ vs → y ∈ vs → x.1 = y.1 → x = y.

Lemma dedup_sort_spec vs :
  desc (dedup_versions (sort_versions vs)) ∧
  (∀ x, x ∈ dedup_versions (sort_versions vs) → x ∈ vs) ∧
  (one_per_seq vs → ∀ x, x ∈ vs → x ∈ dedup_versions (sort_versions vs)).
Proof.
  pose proof (sort_versions_descending vs) as Hd. pose proof (sort_versions_perm vs) as Hp.
  destruct (sort_versions vs) as [|x l].
  { apply Permutation_nil_l in Hp as <-. split_and!; [constructor|done..]. }
  inversion Hd as [|? ? Hl Hx]; subst. cbn [dedup_versions].
  destruct (dedup_from_spec l x.1 Hl Hx) as (H1 & H2 & H3 & H4). split_and!.
  - by constructor.
  - intros y Hy. rewrite <-Hp. apply elem_of_cons in Hy as [->|Hy]; [by left|right; by apply H3].
  - intros Ho y Hy. rewrite <-Hp in Hy. apply elem_of_cons in Hy as [->|Hy]; [by left|].
    assert (∀ z, z ∈ x :: l → z.1 = y.1 → z = y) as Hu.
    { intros z Hz Ez. apply Ho; [by rewrite <-Hp|rewrite <-Hp; by right|done]. }
    destruct (H4 y Hy) as [Ey|(z & Hz & Ez)]; [rewrite (Hu x); [by left|by left|done]|].
    rewrite <-(Hu z); [by right|right; by apply H3|done].
Qed.

Lemma visible_at_top ts vs :
  desc vs →
  match visible_at ts vs with
  | Some x => x ∈ vs ∧ x.1 <= ts ∧ ∀ y, y ∈ vs → y.1 <= ts → y.1 <= x.1
  | None => ∀ y, y ∈ vs → ts < y.1
  end.
Proof.
  induction 1 as [|[s v] vs Hvs IH Hf]; [by intros ? ?%elem_of_nil|]. rewrite visible_at_cons.
  rewrite Forall_forall in Hf. destruct (N.leb_spec s ts).
  - split_and!; [by left|done|]. intros y [->|Hy]%elem_of_cons _; [done|]. specialize (Hf y Hy). cbn in *. lia.
  - destruct (visible_at ts vs) as [x|].
    + destruct IH as (Hx & Hs & Hall). split_and!; [by right|done|]. intros y [->|Hy]%elem_of_cons Ht; [cbn in *; lia|auto].
    + intros y [->|Hy]%elem_of_cons; [done|auto].
Qed.

(** ** The entries of the new table *)

Lemma gc_loop_elem w b vs x : x ∈ gc_loop w b vs → x ∈ vs.
Proof.
  revert b. induction vs as [|[s v] vs IH]; intros b; [done|]. cbn [gc_loop].
  rewrite elem_of_cons. repeat case_match; [rewrite elem_of_cons; intros [?|?%IH]; auto..|intros ?%IH; auto].
Qed.

Lemma gc_loop_desc w b vs : desc vs → desc (gc_loop w b vs).
Proof.
  intros Hd. revert b. induction Hd as [|[s v] vs Hvs IH Hf]; intros b; cbn [gc_loop]; [constructor|].
  rewrite Forall_forall in Hf.
  assert (desc ((s, v) :: gc_loop w false vs)) as Hc.
  { constructor; [apply IH|]. apply Forall_forall. intros x Hx%gc_loop_elem. by apply Hf. }
  repeat case_match; [exact Hc..|apply IH].
Qed.

Lemma retained_desc w vs : desc (retained w vs).
Proof.
  destruct (dedup_sort_spec vs) as [Hd _]. unfold retained, select_versions_for_gc.
  destruct (dedup_versions _) as [|[s v] l]; [constructor|]. case_match; [constructor|by apply gc_loop_desc].
Qed.

Lemma retained_elem w vs x : x ∈ retained w vs → x ∈ vs.
Proof.
  destruct (dedup_sort_spec vs) as (_ & Hin & _). unfold retained, select_versions_for_gc.
  destruct (dedup_versions _) as [|[s v] l]; [by intros ?%elem_of_nil|].
  case_match; [by intros ?%elem_of_nil|]. intros ?%gc_loop_elem. by apply Hin.
Qed.

Definition of_version (k : bytes) (x : Version) : SstEntry := mkSstEntry k x.2 x.1.

Lemma compacted_entries_cons w k vs m :
  compacted_entries w ((k, vs) :: m) = (of_version k <$> retained w vs) ++ compacted_entries w m.
Proof.
  unfold compacted_entries. rewrite bind_cons. f_equal. apply list_fmap_ext. by intros ? [] ?.
Qed.

Lemma compacted_elem w m x :
  om_sorted m → x ∈ compacted_entries w m → version x ∈ collected (se_key x) m ∧ ∃ vs, (se_key x, vs) ∈ m.
Proof.
  intros Hs. induction m as [|[k vs] m IH]; [by intros ?%elem_of_nil|].
  rewrite compacted_entries_cons, elem_of_app. pose proof Hs as [Hm Hf]%om_sorted_cons. intros [Hx|Hx].
  - apply list_elem_of_fmap in Hx as ([s v] & -> & Hx). cbn [of_version se_key fst snd]. split; [|eexists; by left].
    unfold collected. rewrite om_get_cons_eq. by apply retained_elem in Hx.
  - destruct (IH Hm Hx) as [Hv (vs' & Hin)]. split; [|eexists; by right].
    unfold collected in *. rewrite om_get_cons_ne; [done|done|]. intros Hk.
    pose proof (proj1 (Forall_forall _ _) Hf _ Hin) as Hlt. unfold klt in Hlt. cbn in Hlt. by rewrite Hk, bcmp_refl in Hlt.
Qed.

Lemma sst_sorted_app a b :
  sst_sorted a → sst_sorted b → (∀ x y, x ∈ a → y ∈ b → ik_cmp (sst_ik x) (sst_ik y) = Lt) → sst_sorted (a ++ b).
Proof.
  induction a as [|x a IH]; [done|]. intros [Ha Hf]%sst_sorted_cons Hb Hab. cbn. apply sst_sorted_cons. split.
  - apply IH; [done..|]. intros y z Hy Hz. apply Hab; [by right|done].
  - apply Forall_app. split; [done|]. apply Forall_forall. intros y Hy. apply Hab; [by left|done].
Qed.

Lemma versions_sorted k vs : desc vs → sst_sorted (of_version k <$> vs).
Proof.
  induction 1 as [|x vs Hvs IH Hf]; [constructor|]. rewrite fmap_cons. apply sst_sorted_cons. split; [done|].
  rewrite Forall_fmap. eapply Forall_impl; [exact Hf|]. intros y Hy. apply ik_cmp_lt. right. split; [done|exact Hy].
Qed.

Lemma compacted_sorted w m : om_sorted m → sst_sorted (compacted_entries w m).
Proof.
  induction m as [|[k vs] m IH]; intros Hs; [constructor|]. pose proof Hs as [Hm Hf]%om_sorted_cons.
  rewrite compacted_entries_cons. apply sst_sorted_app; [apply versions_sorted, retained_desc|by apply IH|].
  intros x y Hx Hy. apply list_elem_of_fmap in Hx as ([s v] & -> & _).
  apply compacted_elem in Hy as [_ (vs' & Hin)]; [|done]. apply ik_cmp_lt. left. cbn.
  pose proof (proj1 (Forall_forall _ _) Hf _ Hin) as Hlt. exact Hlt.
Qed.

Lemma sst_newest_app k ts a b :
  sst_newest k ts (a ++ b) = match sst_newest k ts a with Some x => Some x | None => sst_newest k ts b end.
Proof. unfold sst_newest. rewrite filter_app. by destruct (filter (version_of k ts) a). Qed.

Lemma sst_newest_versions k ts vs : sst_newest k ts (of_version k <$> vs) = of_version k <$> visible_at ts vs.
Proof.
  induction vs as [|[s v] vs IH]; [done|]. unfold sst_newest in *. rewrite fmap_cons, filter_cons, visible_at_cons.
  destruct (N.leb_spec s ts).
  - by rewrite decide_True by done.
  - rewrite decide_False; [exact IH|]. intros [_ ?]. cbn in *. lia.
Qed.

Lemma sst_newest_other k k' ts vs : k' ≠ k → sst_newest k ts (of_version k' <$> vs) = None.
Proof.
  intros Hne. apply sst_newest_None. intros y (x & -> & _)%list_elem_of_fmap [Hk _]. done.
Qed.

(** The new table answers from the retained versions of the key. *)
Lemma compacted_newest w m k ts :
  om_sorted m →
  sst_newest k ts (compacted_entries w m) = of_version k <$> visible_at ts (retained w (collected k m)).
Proof.
  intros Hs. induction m as [|[k' vs] m IH]; [done|]. pose proof Hs as [Hm Hf]%om_sorted_cons.
  rewrite compacted_entries_cons, sst_newest_app. unfold collected.
  destruct (decide (k' = k)) as [->|Hne].
  - rewrite sst_newest_versions, om_get_cons_eq. cbn [default from_option id].
    rewrite IH by done. unfold collected. rewrite om_get_lt by exact Hf.
    by destruct (visible_at ts (retained w vs)).
  - rewrite sst_newest_other by done. rewrite om_get_cons_ne by (done || congruence). by apply IH.
Qed.

(** ** Against the tables compacted *)

Lemma first_hit_value k ts ess vs :
  Forall sst_sorted ess → layered ess → consistent (mjoin ess) →
  (∀ s v, (s, v) ∈ vs ↔ mkSstEntry k v s ∈ mjoin ess) →
  sst_value (first_hit k ts ess) = value_at ts (dedup_versions (sort_versions vs)).
Proof.
  intros Hs Hl Hc Hvs. destruct (dedup_sort_spec vs) as (Hd & Hsub & Hsup).
  assert (one_per_seq vs) as Ho.
  { intros [s v] [s' v'] Hx Hy E. cbn in E. subst s'. apply Hvs in Hx, Hy.
    by injection (Hc _ _ Hx Hy eq_refl eq_refl) as ->. }
  specialize (Hsup Ho). pose proof (first_hit_latest k ts ess Hs Hl) as Hh.
  pose proof (visible_at_top ts _ Hd) as Hv. unfold value_at.
  destruct (visible_at ts _) as [[s v]|].
  - destruct Hv as (Hin & Hst & Hall). apply Hsub, Hvs in Hin.
    destruct (first_hit k ts ess) as [[k' v' s']|]; [|by destruct (Hh _ Hin)].
    destruct Hh as (Hx & [Hk Hxs] & Hxall). cbn in *. subst k'.
    assert (s' = s) as ->.
    { apply N.le_antisymm; [apply (Hall (s', v')); [by apply Hsup, Hvs|done]|].
      apply (Hxall (mkSstEntry k v s)); [done|]. done. }
    by injection (Hc _ _ Hx Hin eq_refl eq_refl) as ->.
  - destruct (first_hit k ts ess) as [[k' v' s']|]; [|done]. destruct Hh as (Hx & [Hk Hxs] & _). cbn in *. subst k'.
    specialize (Hv (s', v')). assert (ts < s'); [|lia]. by apply Hv, Hsup, Hvs.
Qed.

Section Compact.
Context {T : Type} `{SstLaws T}.

Implicit Types e : Engine T.

Lemma collect_versions_all inputs (l : list (TableMetadata * T)) ess :
  Forall2 (λ x es, holds x.2 es) l ess → Forall (λ x, table_id x.1 ∈ inputs) l →
  ∀ m, collect_versions inputs l m = Ok (foldl push_version m (mjoin ess)).
Proof.
  induction 1 as [|[meta t] es l ess Ht _ IH]; intros Hi m; [done|].
  apply Forall_cons in Hi as [Hm Hi]. cbn [collect_versions]. rewrite bool_decide_eq_true_2 by exact Hm.
  rewrite (hd_all t es Ht). cbn [mbind result_bind mjoin list_join]. rewrite foldl_app. by apply IH.
Qed.

(** The output of a compaction, installed in place of its inputs. *)
Definition replaced (inputs : list N) (out_entries : list SstEntry) e e' : Prop :=
  ∃ out, memtable e' = memtable e ∧
    live_sstables e' = sort_tables (filter (λ x, table_id x.1 ∉ inputs) (live_sstables e) ++ option_list out) ∧
    match out with
    | None => out_entries = []
    | Some (meta, t) => out_entries ≠ [] ∧ ∃ bs, sst_build out_entries = Ok bs ∧ sst_open bs = Ok t
    end.

Lemma write_compacted_outcome c out_entries e :
  outcome (write_compacted c out_entries) e
    (λ r e', match r with Ok _ => replaced (input_table_ids c) out_entries e e' | Err _ => view e' = view e end).
Proof.
  assert (view e = view e) as Hv by done. revert Hv. generalize e at 1 3. intros e0 Hv.
  unfold write_compacted. apply outcome_get. framed rel Hrel. destruct out_entries as [|x0 xs].
  - framed u1 Hu1. framed u2 Hu2. destruct (view_eq _ _ Hv) as (Hm & Hl & _ & Hs).
    apply outcome_modify. exists None. split_and!; [done| |done]. cbn. by rewrite Hl.
  - set (es := x0 :: xs). framed tid Htid. framed bs Hbs. framed d Hd. framed u1 Hu1. framed c1 Hc1.
    framed u2 Hu2. framed u3 Hu3. framed u4 Hu4. framed t Ht.
    destruct (view_eq _ _ Hv) as (Hm & Hl & _ & Hs). apply outcome_modify.
    eexists (Some (_, t)). split_and!; [done| |done|by eexists]. cbn. by rewrite Hl.
Qed.

(** A compaction that takes every table. *)
Definition takes_all e : Prop :=
  ∀ c, pick_compaction (compaction_policy_from_config (compaction e))
         (live_tables (manifest_state e)) (pinned_ids e) = Some c →
       Forall (λ x, table_id x.1 ∈ input_table_ids c) (live_sstables e).

Definition by_key_of (ess : list (list SstEntry)) : list (bytes * list Version) :=
  foldl push_version [] (mjoin (rev ess)).

Lemma compact_outcome e ess :
  tables_ok e ess → takes_all e →
  view (compact e).2 = view e ∨
  ∃ inputs, Forall (λ x, table_id x.1 ∈ inputs) (live_sstables e) ∧
    replaced inputs (compacted_entries (gc_watermark e) (by_key_of ess)) e (compact e).2.
Proof.
  intros [_ Ht] Ha. destruct (pick_compaction (compaction_policy_from_config (compaction e))
    (live_tables (manifest_state e)) (pinned_ids e)) as [c|] eqn:Ec.
  2: { left. unfold compact, mbind, stm_bind. cbn [get_state]. by rewrite Ec. }
  specialize (Ha c Ec).
  assert (compact e = write_compacted c (compacted_entries (gc_watermark e) (by_key_of ess)) e) as ->.
  { unfold compact, mbind, stm_bind. cbn [get_state]. rewrite Ec. cbn [lift].
    rewrite (collect_versions_all _ _ (rev ess)); [done|by apply Forall2_rev_of|].
    apply Forall_forall. intros x Hx. apply (proj1 (in_rev_elem _ _)) in Hx. exact (proj1 (Forall_forall _ _) Ha x Hx). }
  pose proof (write_compacted_outcome c (compacted_entries (gc_watermark e) (by_key_of ess)) e) as Ho.
  unfold outcome in Ho. destruct (write_compacted _ _ e) as [[r|x] e']; [right; by exists (input_table_ids c)|by left].
Qed.

Lemma by_key_of_spec ess :
  om_sorted (by_key_of ess) ∧ ∀ k s v, (s, v) ∈ collected k (by_key_of ess) ↔ mkSstEntry k v s ∈ mjoin ess.
Proof.
  destruct (foldl_push_version (mjoin (rev ess)) [] om_sorted_nil) as [Hs Hg]. split; [done|].
  intros k s v. unfold by_key_of. rewrite Hg. cbn [collected om_get default from_option app].
  unfold collected. cbn. rewrite vers_elem, !list_elem_of_join. by setoid_rewrite in_rev_elem.
Qed.

(** What the compacted table answers, when the reader sees no loss. *)
Lemma compacted_value k ts w ess :
  Forall sst_sorted ess → layered ess → consistent (mjoin ess) → w <= ts →
  Forall (λ x, se_sequence x <= ts) (mjoin ess) ∨ w = 0 →
  sst_value (sst_newest k ts (compacted_entries w (by_key_of ess))) = sst_value (first_hit k ts ess).
Proof.
  intros Hs Hl Hc Hw Hor. destruct (by_key_of_spec ess) as [Hb Hk].
  rewrite compacted_newest by done. rewrite (first_hit_value k ts ess _ Hs Hl Hc (Hk k)).
  set (vs := collected k (by_key_of ess)) in *. destruct (dedup_sort_spec vs) as (Hd & Hsub & _).
  unfold retained. transitivity (value_at ts (select_versions_for_gc (dedup_versions (sort_versions vs)) w)).
  { unfold value_at. by destruct (visible_at ts _) as [[]|]. }
  apply gc_select_value; [done|done|]. destruct Hor as [Hall|Hz]; [left|by right].
  apply Forall_forall. intros [s v] Hx%Hsub. apply Hk in Hx. exact (proj1 (Forall_forall _ _) Hall _ Hx).
Qed.

Lemma filter_none (inputs : list N) (l : list (TableMetadata * T)) :
  Forall (λ x, table_id x.1 ∈ inputs) l → filter (λ x, table_id x.1 ∉ inputs) l = [].
Proof. induction 1 as [|x l Hx _ IH]; [done|]. rewrite filter_cons_False; [done|]. intros Hn. by apply Hn. Qed.

Lemma compacted_fits w ess :
  table_fits (mjoin ess) → table_fits (compacted_entries w (by_key_of ess)).
Proof.
  destruct (by_key_of_spec ess) as [Hb Hk]. apply table_fits_sub; [by apply compacted_sorted|].
  intros [k v s] Hx. apply compacted_elem in Hx as [Hx _]; [|done]. by apply Hk in Hx.
Qed.

(** Compacting everything: the new state of the tables. *)
Lemma compact_tables e ess :
  tables_ok e ess → table_fits (mjoin ess) → takes_all e →
  ∃ ess', tables_ok (compact e).2 ess' ∧ memtable (compact e).2 = memtable e ∧
    (ess' = ess ∨ ess' = option_list (match compacted_entries (gc_watermark e) (by_key_of ess) with
                                      | [] => None | es => Some es end)).
Proof.
  intros Hok Hf Ha. pose proof Hok as [Hm Ht]. destruct (compact_outcome e ess Hok Ha) as [Hv|(inputs & Hi & out & Hm' & Hl & Ho)].
  { apply view_eq in Hv as (Hm' & Hl & _). exists ess. split_and!; [by eapply tables_ok_view|done|by left]. }
  rewrite (filter_none _ _ Hi) in Hl. cbn [app] in Hl. eexists. split_and!; [|done|right; reflexivity].
  split; [by rewrite Hm'|]. rewrite Hl. destruct out as [[meta t]|]; [|rewrite Ho; constructor].
  destruct Ho as (Hne & bs & Hb & Hop).
  destruct (sst_build_open _ _ Hne (compacted_sorted _ _ (proj1 (by_key_of_spec ess))) (compacted_fits _ _ Hf) Hb) as (t' & Ho' & Hh).
  rewrite Hop in Ho'. apply Ok_inj in Ho' as <-.
  destruct (compacted_entries _ _); [done|]. constructor; [exact Hh|constructor].
Qed.

End Compact.
