(* ===== verification/SstIndex.v ===== *)
(** The index block, the Bloom filter and the footer of the sorted tables,
    [kaya-lsm/src/sstable.rs]. *)
From Stdlib Require Import SpecFloat.
From S2P Require Import Prelude Bytes Core Path SstBlock.

Open Scope N_scope.

Definition SST_MAGIC : N := 0x4b535354.
Definition SST_VERSION : N := 3.
Definition SST_VERSION_V1 : N := 1.
Definition SST_VERSION_V2 : N := 2.
Definition SST_VERSION_V4 : N := 4.
Definition SST_FOOTER_LEN : nat := 48.
Definition SST_FOOTER_LEN_V2 : nat := 64.
Definition SST_FOOTER_LEN_V3 : nat := 72.

(** ** Index block *)

Record IndexEntry := mkIndexEntry {
  separator_key : bytes;
  block_offset : N;
  block_len : N;
  first_seq : N;
  last_seq : N
}.

Definition encode_index_entry (ie : IndexEntry) : bytes :=
  le_bytes 4 (wrap u32_lim (lenN (separator_key ie))) ++ le_bytes 8 (block_offset ie) ++
  le_bytes 4 (block_len ie) ++ le_bytes 8 (first_seq ie) ++ le_bytes 8 (last_seq ie) ++ separator_key ie.

Definition finalize_index_block (ies : list IndexEntry) : bytes :=
  let buf := le_bytes 4 (wrap u32_lim (lenN ies)) ++ (ies ≫= encode_index_entry) in
  buf ++ le_bytes 4 (crc32c buf).

Fixpoint decode_index_loop (count : nat) (bs : bytes) (offset data_len : nat) : result KayaError (list IndexEntry) :=
  match count with
  | O => Ok []
  | S count =>
      if (data_len <? offset + 32)%nat then Err (Corruption "truncated index entry header")
      else
        sep_len ← read_u32_le bs offset;
        block_offset ← read_u64_le bs (offset + 4);
        block_len ← read_u32_le bs (offset + 12);
        first_seq ← read_u64_le bs (offset + 16);
        last_seq ← read_u64_le bs (offset + 24);
        let offset := (offset + 32)%nat in
        if N.of_nat data_len <? N.of_nat offset + sep_len then Err (Corruption "truncated index separator key")
        else
          let offset' := (offset + N.to_nat sep_len)%nat in
          entries ← decode_index_loop count bs offset' data_len;
          Ok (mkIndexEntry (slice offset offset' bs) block_offset block_len first_seq last_seq :: entries)
  end.

Definition decode_index_block (bs : bytes) : result KayaError (list IndexEntry) :=
  if lenN bs <? 8 then Err (Corruption "index block too short")
  else
    let data_len := (length bs - 4)%nat in
    expected_crc ← read_u32_le bs data_len;
    if negb (expected_crc =? crc32c (take data_len bs)) then Err (Corruption "SSTable index block CRC mismatch")
    else
      entry_count ← read_u32_le bs 0;
      decode_index_loop (N.to_nat entry_count) bs 4 data_len.

(** ** Bloom filter *)

(** [std::f64::consts::LN_2]. *)
Definition LN_2 : spec_float := S754_finite false 6243314768165359 (-53).

(** [f64::from(n)]. *)
Definition f64_from (n : N) : spec_float := binary_normalize 53 1024 (Z.of_N n) 0 false.

(** [x.ceil() as u32]; the conversion saturates. *)
Definition ceil_as_u32 (x : spec_float) : N :=
  match x with
  | S754_finite false m e =>
      N.min u32_max
        (match e with
         | Zneg p => (Npos m + (2 ^ Npos p - 1)) / 2 ^ Npos p
         | _ => Npos m * 2 ^ Z.to_N e
         end)
  | S754_infinity false => u32_max
  | _ => 0
  end.

Definition bloom_hash_count (bits_per_key : N) : N :=
  N.max (ceil_as_u32 (SFmul 53 1024 (f64_from bits_per_key) LN_2)) 1.

Definition bloom_num_bits (num_keys bits_per_key : N) : N :=
  let bits := N.min (num_keys * bits_per_key) u64_max in wrap u32_lim (N.max bits 64).

Definition bloom_hash_pair (key : bytes) : N * N :=
  let h1 := crc32c key in
  let seed := key ++ take 4 (le_bytes 8 h1) in
  (h1, N.lor (crc32c seed) 1).

Definition bloom_bit_index (h1 h2 i num_bits : N) : N :=
  (wrap u64_lim (h1 + wrap u64_lim (i * h2))) mod num_bits.

Definition bloom_set_bit (bits : bytes) (index : N) : bytes :=
  alter (λ b, N.lor b (2 ^ (index mod 8))) (N.to_nat (index / 8)) bits.

Definition bloom_get_bit (bits : bytes) (index : N) : bool :=
  negb (N.land (default 0 (bits !! N.to_nat (index / 8))) (2 ^ (index mod 8)) =? 0).

(** [for i in 0..hash_count]. *)
Definition N_upto (n : N) : list N := N.of_nat <$> seq 0 (N.to_nat n).

Definition bloom_add (hash_count num_bits : N) (bits key : bytes) : bytes :=
  let '(h1, h2) := bloom_hash_pair key in
  foldl (λ bits i, bloom_set_bit bits (bloom_bit_index h1 h2 i num_bits)) bits (N_upto hash_count).

(** [(n as u32).saturating_mul(8)]. *)
Definition bits_of_len (n : N) : N := N.min (wrap u32_lim n * 8) u32_max.

Definition build_bloom_filter (keys : list bytes) (bits_per_key : N) : bytes * N :=
  let hash_count := bloom_hash_count bits_per_key in
  let target_bits := bloom_num_bits (lenN keys) bits_per_key in
  let byte_len := (target_bits + 7) / 8 in
  let num_bits := bits_of_len byte_len in
  (foldl (bloom_add hash_count num_bits) (replicate (N.to_nat byte_len) 0) keys, hash_count).

Record BloomFilter := mkBloom { bits : bytes; num_bits : N; hash_count : N }.

Definition bloom_from_bytes (bs : bytes) (hash_count : N) : result KayaError BloomFilter :=
  if hash_count =? 0 then Err (Corruption "bloom filter hash_count is zero")
  else
    let num_bits := bits_of_len (lenN bs) in
    if num_bits =? 0 then Err (Corruption "bloom filter is empty")
    else Ok (mkBloom bs num_bits hash_count).

Definition might_contain (b : BloomFilter) (key : bytes) : bool :=
  let '(h1, h2) := bloom_hash_pair key in
  forallb (λ i, bloom_get_bit (bits b) (bloom_bit_index h1 h2 i (num_bits b))) (N_upto (hash_count b)).

(** ** Footer *)

Record SstFooter := mkFooter {
  index_block_offset : N;
  index_block_len : N;
  table_min_seq : N;
  table_max_seq : N;
  entry_count : N;
  format_version : N;
  bloom_offset : N;
  bloom_len : N;
  bloom_hash_count_f : N;
  compression_codec : N
}.

Definition physical_len (f : SstFooter) : nat :=
  if format_version f <=? SST_VERSION_V1 then SST_FOOTER_LEN
  else if format_version f =? SST_VERSION_V2 then SST_FOOTER_LEN_V2
  else SST_FOOTER_LEN_V3.

Definition encode_footer (f : SstFooter) : bytes :=
  let pl := physical_len f in
  let buf :=
    le_bytes 8 (index_block_offset f) ++ le_bytes 4 (index_block_len f) ++ le_bytes 8 (table_min_seq f) ++
    le_bytes 8 (table_max_seq f) ++ le_bytes 8 (entry_count f) ++ le_bytes 2 (format_version f) ++
    le_bytes 2 (N.of_nat pl) ++
    (if (SST_FOOTER_LEN_V2 <=? pl)%nat
     then le_bytes 8 (bloom_offset f) ++ le_bytes 4 (bloom_len f) ++ le_bytes 4 (bloom_hash_count_f f) else []) ++
    (if (pl =? SST_FOOTER_LEN_V3)%nat then le_bytes 4 (compression_codec f) ++ le_bytes 4 0 else []) in
  buf ++ le_bytes 4 (crc32c (take (pl - 8) buf)) ++ le_bytes 4 SST_MAGIC.

(** [read_u16_le(&bytes[bytes.len() - n..], 38)]. *)
Definition footer_len_at (bs : bytes) (n : nat) : result KayaError N :=
  read_u16_le (drop (length bs - n) bs) 38.

Definition footer_len_v1 (bs : bytes) : result KayaError nat :=
  l ← footer_len_at bs SST_FOOTER_LEN;
  if l =? N.of_nat SST_FOOTER_LEN then Ok SST_FOOTER_LEN
  else Err (Corruption ("invalid SSTable footer_len: " +:+ pretty l)).

Definition footer_len_v2 (bs : bytes) : result KayaError nat :=
  if (SST_FOOTER_LEN_V2 <=? length bs)%nat then
    l ← footer_len_at bs SST_FOOTER_LEN_V2;
    if l =? N.of_nat SST_FOOTER_LEN_V2 then Ok SST_FOOTER_LEN_V2 else footer_len_v1 bs
  else footer_len_v1 bs.

(** The longest layout whose length field is its own length. *)
Definition footer_physical_len (bs : bytes) : result KayaError nat :=
  if (SST_FOOTER_LEN_V3 <=? length bs)%nat then
    l ← footer_len_at bs SST_FOOTER_LEN_V3;
    if l =? N.of_nat SST_FOOTER_LEN_V3 then Ok SST_FOOTER_LEN_V3 else footer_len_v2 bs
  else footer_len_v2 bs.

Definition version_supported (v : N) : bool :=
  (v =? SST_VERSION_V1) || (v =? SST_VERSION_V2) || (v =? SST_VERSION) || (v =? SST_VERSION_V4).

Definition codec_supported (c : N) : bool :=
  (c =? COMPRESSION_CODEC_NONE) || (c =? COMPRESSION_CODEC_LZ4) || (c =? COMPRESSION_CODEC_ZSTD).

Definition hex8 (v : N) : string := "0x" +:+ to_string (hex_digits 8 v).

Definition decode_footer (bs : bytes) : result KayaError SstFooter :=
  if (length bs <? SST_FOOTER_LEN)%nat then Err (Corruption "file too short for SSTable footer")
  else
    magic ← read_u32_le (drop (length bs - 4) bs) 0;
    if negb (magic =? SST_MAGIC) then
      Err (Corruption ("bad SSTable magic: " +:+ hex8 magic +:+ " (expected " +:+ hex8 SST_MAGIC +:+ ")"))
    else
    pl ← footer_physical_len bs;
    if (length bs <? pl)%nat then Err (Corruption "file too short for SSTable footer")
    else
    let fb := drop (length bs - pl) bs in
    expected_crc ← read_u32_le fb (pl - 8);
    if negb (expected_crc =? crc32c (take (pl - 8) fb)) then Err (Corruption "SSTable footer CRC mismatch")
    else
    version ← read_u16_le fb 36;
    if negb (version_supported version) then
      Err (Corruption ("unsupported SSTable version: " +:+ pretty version))
    else
    '(boff, blen, bhash) ←
      (if (SST_FOOTER_LEN_V2 <=? pl)%nat then
         a ← read_u64_le fb 40; b ← read_u32_le fb 48; c ← read_u32_le fb 52; Ok (a, b, c)
       else Ok (0, 0, 0));
    codec ←
      (if (pl =? SST_FOOTER_LEN_V3)%nat then
         c ← read_u32_le fb 56;
         if codec_supported c then Ok c
         else Err (Corruption ("unsupported SSTable compression codec: " +:+ pretty c))
       else Ok COMPRESSION_CODEC_NONE);
    ioff ← read_u64_le fb 0;
    ilen ← read_u32_le fb 8;
    min_seq ← read_u64_le fb 12;
    max_seq ← read_u64_le fb 20;
    count ← read_u64_le fb 28;
    Ok (mkFooter ioff ilen min_seq max_seq count version boff blen bhash codec).

Definition footer_stored_crc (bs : bytes) : result KayaError N :=
  f ← decode_footer bs;
  let pl := physical_len f in
  read_u32_le (drop (length bs - pl) bs) (pl - 8).

(** ** Index round trip *)

Record index_fits (ie : IndexEntry) : Prop := mkIndexFits {
  xf_sep : lenN (separator_key ie) < 2 ^ 32;
  xf_off : block_offset ie < 2 ^ 64;
  xf_len : block_len ie < 2 ^ 32;
  xf_first : first_seq ie < 2 ^ 64;
  xf_last : last_seq ie < 2 ^ 64;
  xf_bytes : bytes_ok (separator_key ie)
}.

Lemma length_encode_index ie : length (encode_index_entry ie) = (32 + length (separator_key ie))%nat.
Proof. unfold encode_index_entry. rewrite !length_app, !length_le_bytes. lia. Qed.

Lemma decode_index_loop_ok ies : ∀ bs off data_len rest,
  drop off bs = (ies ≫= encode_index_entry) ++ rest → Forall index_fits ies →
  (off + length (ies ≫= encode_index_entry) ≤ data_len)%nat →
  decode_index_loop (length ies) bs off data_len = Ok ies.
Proof.
  induction ies as [|ie ies IH]; intros bs off data_len rest Hd Hf Hl; [done|].
  apply Forall_cons in Hf as [[Hs Ho Hbl Hfs Hls _] Hf]. rewrite bind_cons, <-app_assoc in Hd.
  rewrite bind_cons, length_app, length_encode_index in Hl. cbn [length decode_index_loop].
  rewrite lt_le_false by lia. unfold encode_index_entry in Hd at 1. rewrite wrap_small in Hd by done.
  rewrite <-!app_assoc in Hd.
  at_u32 Hd. at_u64 Hd. rewrite <-Nat.add_assoc in Hd. cbn [Nat.add] in Hd.
  at_u32 Hd. rewrite <-Nat.add_assoc in Hd. cbn [Nat.add] in Hd.
  at_u64 Hd. rewrite <-Nat.add_assoc in Hd. cbn [Nat.add] in Hd.
  at_u64 Hd. rewrite <-Nat.add_assoc in Hd. cbn [Nat.add] in Hd.
  rewrite (proj2 (N.ltb_ge _ _)) by (unfold lenN; lia).
  rewrite lenN_to_nat, (slice_drop _ _ _ _ _ Hd) by done. apply drop_step in Hd.
  rewrite (IH _ _ _ _ Hd); [by destruct ie|done|lia].
Qed.

Definition index_body (ies : list IndexEntry) : bytes := le_bytes 4 (lenN ies) ++ (ies ≫= encode_index_entry).
Definition index_size (ies : list IndexEntry) : N := lenN (index_body ies) + 4.

Lemma index_body_len ies : (length ies ≤ length (index_body ies))%nat.
Proof.
  unfold index_body. rewrite length_app, length_le_bytes. induction ies as [|ie ies IH]; [cbn; lia|].
  rewrite bind_cons, length_app, length_encode_index. cbn [length]. lia.
Qed.

Lemma finalize_index_body ies :
  index_size ies < 2 ^ 32 → finalize_index_block ies = index_body ies ++ le_bytes 4 (crc32c (index_body ies)).
Proof.
  intros Hs. pose proof (index_body_len ies). unfold index_size, lenN in Hs. unfold finalize_index_block.
  rewrite wrap_small by (unfold lenN; change u32_lim with (2 ^ 32); lia). done.
Qed.

Lemma length_finalize_index ies : index_size ies < 2 ^ 32 → lenN (finalize_index_block ies) = index_size ies.
Proof. intros. rewrite finalize_index_body by done. by rewrite lenN_app, lenN_le_bytes. Qed.

Lemma index_body_bytes_ok ies : Forall index_fits ies → bytes_ok (index_body ies).
Proof.
  intros Hf. unfold index_body, bytes_ok. rewrite Forall_app. split; [apply le_bytes_ok|].
  apply bind_bytes_ok. intros ie Hi. pose proof (xf_bytes _ (proj1 (Forall_forall _ _) Hf ie Hi)) as Hb.
  unfold encode_index_entry, bytes_ok. rewrite !Forall_app. split_and!; [apply le_bytes_ok..|done].
Qed.

Lemma decode_index_block_ok ies :
  Forall index_fits ies → index_size ies < 2 ^ 32 → decode_index_block (finalize_index_block ies) = Ok ies.
Proof.
  intros Hf Hsz. pose proof (index_body_bytes_ok ies Hf) as Hok. pose proof (index_body_len ies) as Hn.
  rewrite finalize_index_body by done. unfold index_size, lenN in Hsz.
  set (body := index_body ies) in *. pose proof (crc32c_bound _ Hok) as Hcrc. set (crc := crc32c body) in *.
  assert (4 ≤ length body)%nat as H4 by (unfold body, index_body; rewrite length_app, length_le_bytes; lia).
  unfold decode_index_block. unfold lenN. rewrite length_app, length_le_bytes.
  rewrite (proj2 (N.ltb_ge _ _)) by lia. rewrite Nat.add_sub.
  rewrite (read_u32_drop (length body) _ crc []); [|by rewrite drop_app_length, app_nil_r|done].
  cbn [mbind result_bind]. rewrite take_app_length. fold crc. rewrite N.eqb_refl. cbn [negb].
  assert (drop 0 (body ++ le_bytes 4 crc) = body ++ le_bytes 4 crc) as Hd by done.
  unfold body in Hd at 2. unfold index_body in Hd. rewrite <-app_assoc in Hd.
  at_u32 Hd; [|unfold lenN; lia]. cbn [Nat.add] in Hd. rewrite lenN_to_nat.
  apply (decode_index_loop_ok _ _ _ _ _ Hd Hf). unfold body, index_body. rewrite length_app, length_le_bytes. lia.
Qed.

(** ** The filter has no false negatives *)

Definition bit_set (bs : bytes) (i : N) : Prop := bloom_get_bit bs i = true.

Lemma land_lor_pow b i j : N.land (N.lor b (2 ^ i)) (2 ^ j) = 0 → N.land b (2 ^ j) = 0 ∧ i ≠ j.
Proof.
  intros Hz. assert (∀ n, N.testbit (N.land (N.lor b (2 ^ i)) (2 ^ j)) n = false) as Hb by (intros; by rewrite Hz, N.bits_0).
  specialize (Hb j). rewrite N.land_spec, N.lor_spec, N.pow2_bits_true, andb_true_r in Hb.
  apply orb_false_elim in Hb as [Hb Hi]. split.
  - apply N.bits_inj. intros n. rewrite N.land_spec, N.bits_0.
    destruct (decide (n = j)) as [->|]; [by rewrite Hb|]. by rewrite N.pow2_bits_false, andb_false_r.
  - intros ->. by rewrite N.pow2_bits_true in Hi.
Qed.

Lemma bloom_set_bit_get bs i : (N.to_nat (i / 8) < length bs)%nat → bit_set (bloom_set_bit bs i) i.
Proof.
  intros Hl. unfold bit_set, bloom_get_bit, bloom_set_bit. destruct (lookup_lt_is_Some_2 bs _ Hl) as [b Hb].
  rewrite list_lookup_alter_eq, Hb. cbn. apply negb_true_iff, N.eqb_neq. intros [_ ?]%land_lor_pow. done.
Qed.

Lemma bloom_set_bit_keeps bs i j : bit_set bs j → bit_set (bloom_set_bit bs i) j.
Proof.
  unfold bit_set, bloom_get_bit, bloom_set_bit. intros Hj.
  destruct (decide (N.to_nat (i / 8) = N.to_nat (j / 8))) as [E|E]; [|by rewrite list_lookup_alter_ne].
  rewrite E, list_lookup_alter_eq. destruct (bs !! N.to_nat (j / 8)) as [b|]; [|done].
  cbn in *. apply negb_true_iff, N.eqb_neq in Hj. apply negb_true_iff, N.eqb_neq. by intros [? _]%land_lor_pow.
Qed.

Lemma length_bloom_set_bit bs i : length (bloom_set_bit bs i) = length bs.
Proof. unfold bloom_set_bit. apply length_alter. Qed.

(** The bits of a key at the given width. *)
Definition has_key (hc nb : N) (bs key : bytes) : Prop :=
  ∀ i, i ∈ N_upto hc → bit_set bs (bloom_bit_index (bloom_hash_pair key).1 (bloom_hash_pair key).2 i nb).

Lemma set_bits_spec (f : N → N) l : ∀ bs,
  (∀ i, (N.to_nat (f i / 8) < length bs)%nat) →
  let bs' := foldl (λ bits i, bloom_set_bit bits (f i)) bs l in
  length bs' = length bs ∧ (∀ j, bit_set bs j → bit_set bs' j) ∧ ∀ i, i ∈ l → bit_set bs' (f i).
Proof.
  induction l as [|x l IH]; intros bs Hf; cbn [foldl].
  { split_and!; [done|done|by intros ? ?%elem_of_nil]. }
  destruct (IH (bloom_set_bit bs (f x))) as (Hl & Hk & Hs); [intros; by rewrite length_bloom_set_bit|].
  rewrite length_bloom_set_bit in Hl. split_and!; [done|auto using bloom_set_bit_keeps|].
  intros i [->|Hi]%elem_of_cons; [|by apply Hs]. apply Hk. by apply bloom_set_bit_get.
Qed.

Lemma bloom_index_range h1 h2 i nb n :
  nb ≠ 0 → nb <= 8 * N.of_nat n → (N.to_nat (bloom_bit_index h1 h2 i nb / 8) < n)%nat.
Proof.
  intros Hz Hn. unfold bloom_bit_index. set (x := wrap _ _). pose proof (N.mod_upper_bound x nb Hz).
  assert (x mod nb / 8 < N.of_nat n) by (apply N.Div0.div_lt_upper_bound; lia). lia.
Qed.

Lemma bloom_add_spec hc nb bs key :
  nb ≠ 0 → nb <= 8 * lenN bs →
  length (bloom_add hc nb bs key) = length bs ∧ (∀ j, bit_set bs j → bit_set (bloom_add hc nb bs key) j) ∧
  has_key hc nb (bloom_add hc nb bs key) key.
Proof.
  intros Hz Hn. unfold bloom_add, has_key. destruct (bloom_hash_pair key) as [h1 h2]. cbn [fst snd].
  apply (set_bits_spec (λ i, bloom_bit_index h1 h2 i nb)). intros i. by apply bloom_index_range.
Qed.

Lemma bloom_keys_spec hc nb keys : ∀ bs,
  nb ≠ 0 → nb <= 8 * lenN bs →
  let bs' := foldl (bloom_add hc nb) bs keys in
  length bs' = length bs ∧ (∀ j, bit_set bs j → bit_set bs' j) ∧ ∀ k, k ∈ keys → has_key hc nb bs' k.
Proof.
  induction keys as [|k keys IH]; intros bs Hz Hn; cbn [foldl].
  { split_and!; [done|done|by intros ? ?%elem_of_nil]. }
  destruct (bloom_add_spec hc nb bs k Hz Hn) as (Hl & Hk & Hh).
  destruct (IH (bloom_add hc nb bs k)) as (Hl' & Hk' & Hh'); [done|unfold lenN; by rewrite Hl|].
  rewrite Hl in Hl'. split_and!; [done|auto|]. intros k' [->|Hin]%elem_of_cons; [|by apply Hh'].
  intros i Hi. apply Hk'. by apply Hh.
Qed.

Lemma bits_of_len_le n : bits_of_len n <= 8 * n.
Proof. unfold bits_of_len, wrap. pose proof (N.Div0.mod_le n u32_lim). lia. Qed.

Lemma length_build_bloom keys bpk :
  bits_of_len ((bloom_num_bits (lenN keys) bpk + 7) / 8) ≠ 0 →
  lenN (build_bloom_filter keys bpk).1 = (bloom_num_bits (lenN keys) bpk + 7) / 8.
Proof.
  intros Hz. unfold build_bloom_filter. cbn [fst]. set (n := (bloom_num_bits (lenN keys) bpk + 7) / 8) in *.
  assert (lenN (replicate (N.to_nat n) 0) = n) as Hr by (unfold lenN; rewrite length_replicate; lia).
  destruct (bloom_keys_spec (bloom_hash_count bpk) (bits_of_len n) keys (replicate (N.to_nat n) 0) Hz) as (Hl & _);
    [rewrite Hr; apply bits_of_len_le|]. unfold lenN. rewrite Hl. exact Hr.
Qed.

Lemma bloom_no_false_negative keys bpk b k :
  bits_of_len ((bloom_num_bits (lenN keys) bpk + 7) / 8) ≠ 0 →
  bloom_from_bytes (build_bloom_filter keys bpk).1 (build_bloom_filter keys bpk).2 = Ok b →
  k ∈ keys → might_contain b k = true.
Proof.
  intros Hz Hb Hk. pose proof (length_build_bloom keys bpk Hz) as Hlen. unfold bloom_from_bytes in Hb.
  rewrite Hlen in Hb. unfold build_bloom_filter in Hb. cbn [fst snd] in Hb.
  set (n := (bloom_num_bits (lenN keys) bpk + 7) / 8) in *. case_match; [done|]. case_match; [done|].
  apply Ok_inj in Hb as <-. unfold might_contain. cbn [bits num_bits hash_count].
  assert (lenN (replicate (N.to_nat n) 0) = n) as Hr by (unfold lenN; rewrite length_replicate; lia).
  destruct (bloom_keys_spec (bloom_hash_count bpk) (bits_of_len n) keys (replicate (N.to_nat n) 0) Hz) as (_ & _ & Hh);
    [rewrite Hr; apply bits_of_len_le|]. specialize (Hh k Hk). unfold has_key in Hh.
  destruct (bloom_hash_pair k) as [h1 h2]. cbn [fst snd] in Hh. apply forallb_forall.
  intros i Hi. apply Hh. by apply list_elem_of_In.
Qed.

(** With fewer than 2^32 filter bits the filter is never empty. *)
Lemma bloom_width (keys : list bytes) bpk :
  lenN keys * bpk < 2 ^ 32 - 8 →
  8 <= (bloom_num_bits (lenN keys) bpk + 7) / 8 < 2 ^ 29 ∧
  bits_of_len ((bloom_num_bits (lenN keys) bpk + 7) / 8) ≠ 0.
Proof.
  intros Hk. unfold bloom_num_bits. rewrite N.min_l by (unfold u64_max; lia).
  rewrite wrap_small by (unfold u32_lim; lia). set (t := N.max _ 64).
  assert (64 <= t < 2 ^ 32 - 8) as [H1 H2] by (unfold t; lia).
  assert (8 <= (t + 7) / 8) by (apply N.div_le_lower_bound; lia).
  assert ((t + 7) / 8 < 2 ^ 29) by (apply N.Div0.div_lt_upper_bound; lia).
  split; [done|]. unfold bits_of_len. rewrite wrap_small by (unfold u32_lim; lia). unfold u32_max. lia.
Qed.

(** ** Footer round trip *)

Record footer_fits (f : SstFooter) : Prop := mkFooterFits {
  ff_ioff : index_block_offset f < 2 ^ 64; ff_ilen : index_block_len f < 2 ^ 32;
  ff_min : table_min_seq f < 2 ^ 64; ff_max : table_max_seq f < 2 ^ 64; ff_count : entry_count f < 2 ^ 64;
  ff_boff : bloom_offset f < 2 ^ 64; ff_blen : bloom_len f < 2 ^ 32; ff_bhash : bloom_hash_count_f f < 2 ^ 32;
  ff_codec : compression_codec f <= COMPRESSION_CODEC_ZSTD;
  ff_version : format_version f = SST_VERSION ∨ format_version f = SST_VERSION_V4
}.

Definition footer_body (f : SstFooter) : bytes :=
  le_bytes 8 (index_block_offset f) ++ le_bytes 4 (index_block_len f) ++ le_bytes 8 (table_min_seq f) ++
  le_bytes 8 (table_max_seq f) ++ le_bytes 8 (entry_count f) ++ le_bytes 2 (format_version f) ++ le_bytes 2 72 ++
  le_bytes 8 (bloom_offset f) ++ le_bytes 4 (bloom_len f) ++ le_bytes 4 (bloom_hash_count_f f) ++
  le_bytes 4 (compression_codec f) ++ le_bytes 4 0.

Lemma length_footer_body f : length (footer_body f) = 64%nat.
Proof. unfold footer_body. by rewrite !length_app, !length_le_bytes. Qed.

Lemma footer_physical_72 f : footer_fits f → physical_len f = 72%nat.
Proof. intros [????????? [E|E]]; unfold physical_len; rewrite E; done. Qed.

Lemma encode_footer_body f :
  footer_fits f → encode_footer f = footer_body f ++ le_bytes 4 (crc32c (footer_body f)) ++ le_bytes 4 SST_MAGIC.
Proof.
  intros Hf. unfold encode_footer. rewrite (footer_physical_72 f Hf).
  change (SST_FOOTER_LEN_V2 <=? 72)%nat with true. change (72 =? SST_FOOTER_LEN_V3)%nat with true. cbv iota.
  change (72 - 8)%nat with 64%nat. change (N.of_nat 72) with 72.
  match goal with |- ?b ++ le_bytes 4 (crc32c (take 64 ?b)) ++ _ = _ =>
    replace b with (footer_body f) by (unfold footer_body; by rewrite <-!app_assoc) end.
  by rewrite take_ge by (by rewrite length_footer_body).
Qed.

(** Finds the field at an offset of concatenated fields. *)
Ltac drop_field :=
  rewrite <-?app_assoc;
  repeat (rewrite drop_app_ge by (rewrite length_le_bytes; lia); rewrite length_le_bytes; cbn [Nat.sub]);
  rewrite drop_0; reflexivity.

(** Reads the field at offset [k] of [F], whose layout [H] gives. *)
Ltac footer_field lem k F H :=
  rewrite (lem k F _ _ ltac:(rewrite H; drop_field)); [cbn [mbind result_bind]|try done].

Lemma decode_footer_encode pre f : footer_fits f → decode_footer (pre ++ encode_footer f) = Ok f.
Proof.
  intros Hf. pose proof Hf as [Hioff Hilen Hmin Hmax Hcnt Hboff Hblen Hbh Hcod Hver].
  assert (bytes_ok (footer_body f)) as Hok.
  { unfold footer_body, bytes_ok. rewrite !Forall_app. split_and!; apply le_bytes_ok. }
  pose proof (crc32c_bound _ Hok) as Hcrc. change (256 ^ N.of_nat 4) with (2 ^ 32) in Hcrc.
  rewrite encode_footer_body by done. pose proof (length_footer_body f) as Hbl.
  set (crc := crc32c (footer_body f)) in *.
  set (F := footer_body f ++ le_bytes 4 crc ++ le_bytes 4 SST_MAGIC).
  assert (length F = 72%nat) as HF by (unfold F; rewrite !length_app, !length_le_bytes, Hbl; done).
  unfold decode_footer, footer_physical_len, footer_len_at. rewrite length_app, HF.
  rewrite lt_le_false by (unfold SST_FOOTER_LEN; lia).
  assert (∀ n, (n ≤ 72)%nat → drop (length pre + 72 - n) (pre ++ F) = drop (72 - n) F) as Hpre.
  { intros n Hn. rewrite drop_app_ge by lia. f_equal. lia. }
  rewrite (Hpre 4%nat) by lia. rewrite (read_u32_drop 0 _ SST_MAGIC []); [|unfold F; rewrite drop_0|done].
  2: { rewrite app_assoc, drop_app_ge by (rewrite length_app, length_le_bytes, Hbl; lia).
       rewrite length_app, length_le_bytes, Hbl. cbn [Nat.sub Nat.add]. by rewrite drop_0, app_nil_r. }
  cbn [mbind result_bind]. rewrite N.eqb_refl. cbn [negb].
  rewrite (proj2 (Nat.leb_le SST_FOOTER_LEN_V3 _)) by (unfold SST_FOOTER_LEN_V3; lia).
  change SST_FOOTER_LEN_V3 with 72%nat. rewrite (Hpre 72%nat) by lia. rewrite Nat.sub_diag, drop_0.
  assert (∀ k, drop k F = drop k (footer_body f ++ le_bytes 4 crc ++ le_bytes 4 SST_MAGIC)) as HdF by done.
  unfold footer_body in HdF.
  rewrite (read_u16_drop 38 F 72 _ ltac:(rewrite HdF; drop_field)) by done.
  cbn [mbind result_bind]. change (72 =? N.of_nat 72) with true. cbv iota. cbn [mbind result_bind].
  rewrite lt_le_false by lia. rewrite (Hpre 72%nat) by lia. rewrite Nat.sub_diag, drop_0.
  change (72 - 8)%nat with 64%nat.
  rewrite (read_u32_drop 64 F crc _ ltac:(rewrite HdF; drop_field)) by done. cbn [mbind result_bind].
  replace (take 64 F) with (footer_body f) by (unfold F; by rewrite take_app_length').
  fold crc. rewrite N.eqb_refl. cbn [negb].
  rewrite (read_u16_drop 36 F (format_version f) _ ltac:(rewrite HdF; drop_field)) by (by destruct Hver as [-> | ->]).
  cbn [mbind result_bind]. replace (version_supported (format_version f)) with true by (by destruct Hver as [-> | ->]).
  cbn [negb]. change (SST_FOOTER_LEN_V2 <=? 72)%nat with true. change (72 =? SST_FOOTER_LEN_V3)%nat with true. cbv iota.
  footer_field read_u64_drop 40%nat F HdF. footer_field read_u32_drop 48%nat F HdF. footer_field read_u32_drop 52%nat F HdF.
  rewrite (read_u32_drop 56 F _ _ ltac:(rewrite HdF; drop_field)) by (unfold COMPRESSION_CODEC_ZSTD in Hcod; lia).
  cbn [mbind result_bind].
  replace (codec_supported (compression_codec f)) with true.
  2: { symmetry. unfold codec_supported, COMPRESSION_CODEC_NONE, COMPRESSION_CODEC_LZ4, COMPRESSION_CODEC_ZSTD in *.
       assert (compression_codec f = 0 ∨ compression_codec f = 1 ∨ compression_codec f = 2) as [-> |[-> | ->]] by lia; done. }
  cbn [mbind result_bind].
  footer_field read_u64_drop 0%nat F HdF. footer_field read_u32_drop 8%nat F HdF. footer_field read_u64_drop 12%nat F HdF.
  footer_field read_u64_drop 20%nat F HdF. footer_field read_u64_drop 28%nat F HdF.
  by destruct f.
Qed.
