(* ===== verification/Sstable.v ===== *)
(** Building and reading sorted tables, [kaya-lsm/src/sstable.rs]: the builder,
    the reader's lookups and scans, and the block cache
    ([kaya-lsm/src/block_cache.rs]). *)
From S2P Require Import Prelude Bytes Core OrdMap Path Disk InternalKey SstBlock SstIndex.

Open Scope N_scope.

Record SstableBuildOptions := mkBuildOptions {
  target_block_bytes : N;
  bloom_bits_per_key : N;
  compression_lz4 : bool;
  compression_zstd : bool;
  prefix_compression : bool;
  mvcc : bool
}.

Definition resolve_compression_codec (opts : SstableBuildOptions) : N :=
  if compression_zstd opts then COMPRESSION_CODEC_ZSTD
  else if compression_lz4 opts then COMPRESSION_CODEC_LZ4
  else COMPRESSION_CODEC_NONE.

(** The size of an entry at position [i] after the entry [prev]. *)
Fixpoint estimate_prefix_loop (i : nat) (prev : bytes) (es : list SstEntry) : N :=
  match es with
  | [] => 0
  | e :: es =>
      let shared := if (i mod PREFIX_RESTART_INTERVAL =? 0)%nat then O else common_prefix_len prev (se_key e) in
      21 + (lenN (se_key e) - N.of_nat shared) + lenN (default [] (se_value e)) +
      estimate_prefix_loop (S i) (se_key e) es
  end.

Definition estimate_block_size (es : list SstEntry) (prefix_compression : bool) : N :=
  if prefix_compression then
    estimate_prefix_loop 0 [] es + 8 + (lenN es / 8 + 1) * 4 + 4
  else
    foldr N.add 0 ((λ e, 17 + lenN (se_key e) + lenN (default [] (se_value e))) <$> es) + 12.

(** ** Builder *)

Record SstableBuilder := mkBuilder {
  b_options : SstableBuildOptions;
  current_entries : list SstEntry;
  current_count : N;
  current_first_seq : option N;
  current_last_seq : option N;
  current_last_key : option bytes;
  data_bytes : bytes;
  index_entries : list IndexEntry;
  all_keys : list bytes;
  smallest_key : option bytes;
  largest_key : option bytes;
  b_table_min_seq : option N;
  b_table_max_seq : option N;
  total_entries : N;
  last_internal_key : option InternalKey
}.

Definition with_options (o : SstableBuildOptions) : SstableBuilder :=
  mkBuilder (mkBuildOptions (N.max (target_block_bytes o) 1) (bloom_bits_per_key o) (compression_lz4 o)
               (compression_zstd o) (prefix_compression o) (mvcc o))
    [] 0 None None None [] [] [] None None None None 0 None.

Section Codec.
Context (lz4_compress : bytes → bytes) (lz4_decompress : bytes → result string bytes).
Context (zstd_encode : bytes → option bytes) (zstd_decode : bytes → result string bytes).

Definition flush_current_block (b : SstableBuilder) : SstableBuilder :=
  if current_count b =? 0 then b
  else
    let raw_block := encode_data_block (current_entries b) (prefix_compression (b_options b)) in
    let block_data := wrap_data_block_for_storage lz4_compress zstd_encode raw_block
                        (resolve_compression_codec (b_options b)) in
    let ie := mkIndexEntry (default [] (current_last_key b)) (lenN (data_bytes b))
                (wrap u32_lim (lenN block_data)) (default 1 (current_first_seq b)) (default 1 (current_last_seq b)) in
    mkBuilder (b_options b) [] 0 None None None (data_bytes b ++ block_data) (index_entries b ++ [ie])
      (all_keys b) (smallest_key b) (largest_key b) (b_table_min_seq b) (b_table_max_seq b)
      (total_entries b) (last_internal_key b).

(** [add]; the order is only checked by a [debug_assert]. *)
Definition add (b : SstableBuilder) (e : SstEntry) : SstableBuilder :=
  let seq := se_sequence e in
  let b := mkBuilder (b_options b) (current_entries b ++ [e]) (current_count b + 1)
             (Some (default seq (current_first_seq b))) (Some seq) (Some (se_key e)) (data_bytes b)
             (index_entries b) (all_keys b ++ [se_key e]) (Some (default (se_key e) (smallest_key b)))
             (Some (se_key e)) (Some (match b_table_min_seq b with Some m => N.min m seq | None => seq end))
             (Some (match b_table_max_seq b with Some m => N.max m seq | None => seq end))
             (total_entries b + 1)
             (if mvcc (b_options b) then Some (mkIK (se_key e) seq) else last_internal_key b) in
  if target_block_bytes (b_options b) <=? estimate_block_size (current_entries b) (prefix_compression (b_options b))
  then flush_current_block b else b.

Definition format_version_of (o : SstableBuildOptions) : N :=
  if mvcc o then SST_VERSION_V4
  else if negb (resolve_compression_codec o =? COMPRESSION_CODEC_NONE) || prefix_compression o then SST_VERSION
  else SST_VERSION_V2.

Definition finish (b : SstableBuilder) : result KayaError bytes :=
  if total_entries b =? 0 then Err (InvalidArgument "cannot build empty SSTable")
  else
    let b := flush_current_block b in
    let out := data_bytes b in
    let index_offset := lenN out in
    let index_bytes := finalize_index_block (index_entries b) in
    let out := out ++ index_bytes in
    let '(out, boff, blen, bhash) :=
      if 0 <? bloom_bits_per_key (b_options b) then
        let '(bloom_bytes, hash_count) := build_bloom_filter (all_keys b) (bloom_bits_per_key (b_options b)) in
        (out ++ bloom_bytes, lenN out, wrap u32_lim (lenN bloom_bytes), hash_count)
      else (out, 0, 0, 0) in
    let footer := mkFooter index_offset (wrap u32_lim (lenN index_bytes)) (default 1 (b_table_min_seq b))
                    (default 1 (b_table_max_seq b)) (total_entries b) (format_version_of (b_options b))
                    boff blen bhash (resolve_compression_codec (b_options b)) in
    Ok (out ++ encode_footer footer).

(** Building a table from entries, as flush and compaction do. *)
Definition build (o : SstableBuildOptions) (es : list SstEntry) : result KayaError bytes :=
  finish (foldl add (with_options o) es).

(** ** Block cache *)

Record BlockCache := mkCache {
  capacity : N;
  order : list N;
  cmap : gmap N (list SstEntry);
  hits : N;
  misses : N
}.

Definition cache_new (capacity : N) : BlockCache := mkCache capacity [] ∅ 0 0.

(** [position] then [remove]: the first occurrence goes. *)
Fixpoint remove_first (k : N) (l : list N) : list N :=
  match l with [] => [] | x :: l => if x =? k then l else x :: remove_first k l end.

Definition cache_get (block_offset : N) (c : BlockCache) : option (list SstEntry) * BlockCache :=
  match cmap c !! block_offset with
  | None => (None, mkCache (capacity c) (order c) (cmap c) (hits c) (misses c + 1))
  | Some es =>
      (Some es, mkCache (capacity c) (remove_first block_offset (order c) ++ [block_offset]) (cmap c)
                  (hits c + 1) (misses c))
  end.

Definition cache_insert (block_offset : N) (es : list SstEntry) (c : BlockCache) : BlockCache :=
  if capacity c =? 0 then c
  else
    let '(order, m) :=
      match cmap c !! block_offset with
      | Some _ => (remove_first block_offset (order c), cmap c)
      | None =>
          if capacity c <=? N.of_nat (size (cmap c)) then
            match order c with
            | evict :: order => (order, delete evict (cmap c))
            | [] => ([], cmap c)
            end
          else (order c, cmap c)
      end in
    mkCache (capacity c) (order ++ [block_offset]) (<[block_offset := es]> m) (hits c) (misses c).

(** ** Reader *)

Record SstableReader := mkReader {
  r_bytes : bytes;
  r_footer : SstFooter;
  r_index : list IndexEntry;
  r_bloom : option BloomFilter
}.

(** The filter, when the footer has one. *)
Definition open_bloom (bs : bytes) (footer : SstFooter) (idx_end content_end : N)
    : result KayaError (option BloomFilter) :=
  if 0 <? bloom_len footer then
    let bloom_start := bloom_offset footer in
    let bloom_end := bloom_start + bloom_len footer in
    if (bloom_start <? idx_end) || (content_end <? bloom_end) then Err (Corruption "bloom filter range invalid")
    else
      b ← bloom_from_bytes (slice (N.to_nat bloom_start) (N.to_nat bloom_end) bs) (bloom_hash_count_f footer);
      Ok (Some b)
  else Ok None.

(** [open_with_cache]; the cache is the state of the reads below. *)
Definition open (bs : bytes) : result KayaError SstableReader :=
  footer ← decode_footer bs;
  let footer_len := physical_len footer in
  let idx_start := index_block_offset footer in
  let idx_end := idx_start + index_block_len footer in
  let content_end := lenN bs - N.of_nat footer_len in
  if content_end <? idx_end then Err (Corruption "index block range exceeds content area")
  else
    bloom ← open_bloom bs footer idx_end content_end;
    index ← decode_index_block (slice (N.to_nat idx_start) (N.to_nat idx_end) bs);
    Ok (mkReader bs footer index bloom).

(** Reads with the optional cache as their state. *)
Abbreviation cached := (stm (option BlockCache)).

(** Decoding a block from the file. *)
Definition load_block (r : SstableReader) (ie : IndexEntry) : result KayaError (list SstEntry) :=
  let start := block_offset ie in
  let end_ := start + block_len ie in
  if index_block_offset (r_footer r) <? end_ then Err (Corruption "data block offset out of bounds")
  else
    raw ← unwrap_data_block_from_storage lz4_decompress zstd_decode
            (slice (N.to_nat start) (N.to_nat end_) (r_bytes r)) (compression_codec (r_footer r));
    decode_data_block raw.

Definition read_data_block (r : SstableReader) (ie : IndexEntry) : cached (list SstEntry) := fun c =>
  match c with
  | None => (load_block r ie, None)
  | Some cache =>
      match cache_get (block_offset ie) cache with
      | (Some es, cache) => (Ok es, Some cache)
      | (None, cache) =>
          match load_block r ie with
          | Ok es => (Ok es, Some (cache_insert (block_offset ie) es cache))
          | Err e => (Err e, Some cache)
          end
      end
  end.

(** The loop over the entries of a block: [Some r] returns [r]. *)
Fixpoint get_in_block (multi_version : bool) (key : bytes) (read_ts : N) (block : list SstEntry)
    : option (option SstEntry) :=
  match block with
  | [] => None
  | entry :: block =>
      match bcmp (se_key entry) key with
      | Lt => get_in_block multi_version key read_ts block
      | Gt => Some None
      | Eq =>
          if se_sequence entry <=? read_ts then Some (Some entry)
          else if negb multi_version then Some None
          else get_in_block multi_version key read_ts block
      end
  end.

Fixpoint get_loop (r : SstableReader) (multi_version : bool) (key : bytes) (read_ts : N) (started : bool)
    (ies : list IndexEntry) : cached (option SstEntry) :=
  match ies with
  | [] => mret None
  | ie :: ies =>
      if negb started && blt (separator_key ie) key then get_loop r multi_version key read_ts started ies
      else
        block ← read_data_block r ie;
        match get_in_block multi_version key read_ts block with
        | Some res => mret res
        | None =>
            if negb multi_version then mret None
            else if blt key (separator_key ie) then mret None
            else get_loop r multi_version key read_ts true ies
        end
  end.

Definition get_at (r : SstableReader) (key : bytes) (read_ts : N) : cached (option SstEntry) :=
  if match r_bloom r with Some bloom => negb (might_contain bloom key) | None => false end then mret None
  else get_loop r (SST_VERSION_V4 <=? format_version (r_footer r)) key read_ts false (r_index r).

Definition get (r : SstableReader) (key : bytes) : cached (option SstEntry) := get_at r key u64_max.

(** The state of a scan: what it has emitted, the current key and whether one of
    its versions was selected. *)
Record ScanState := mkScan { sc_result : list SstEntry; sc_key : option bytes; sc_selected : bool }.

(** The loop over the entries of a block; [true] when past the prefix. *)
Fixpoint scan_block (prefix : bytes) (read_ts : N) (s : ScanState) (block : list SstEntry) : bool * ScanState :=
  match block with
  | [] => (false, s)
  | entry :: block =>
      if negb (bool_decide (prefix = [])) && negb (starts_with prefix (se_key entry)) then
        if blt (se_key entry) prefix then scan_block prefix read_ts s block else (true, s)
      else
        let is_new := negb (bool_decide (sc_key s = Some (se_key entry))) in
        let s := if is_new then mkScan (sc_result s) (Some (se_key entry)) false else s in
        if sc_selected s then scan_block prefix read_ts s block
        else if se_sequence entry <=? read_ts then
          scan_block prefix read_ts (mkScan (sc_result s ++ [entry]) (sc_key s) true) block
        else scan_block prefix read_ts s block
  end.

Fixpoint scan_loop (r : SstableReader) (prefix : bytes) (read_ts : N) (s : ScanState) (ies : list IndexEntry)
    : cached (list SstEntry) :=
  match ies with
  | [] => mret (sc_result s)
  | ie :: ies =>
      if negb (bool_decide (separator_key ie = [])) && blt (separator_key ie) prefix
      then scan_loop r prefix read_ts s ies
      else
        block ← read_data_block r ie;
        let '(past, s) := scan_block prefix read_ts s block in
        if past then mret (sc_result s) else scan_loop r prefix read_ts s ies
  end.

Definition scan_prefix_at (r : SstableReader) (prefix : bytes) (read_ts : N) : cached (list SstEntry) :=
  scan_loop r prefix read_ts (mkScan [] None false) (r_index r).

Definition scan_prefix (r : SstableReader) (prefix : bytes) : cached (list SstEntry) :=
  scan_prefix_at r prefix u64_max.

Fixpoint entries_loop (r : SstableReader) (result : list SstEntry) (ies : list IndexEntry) : cached (list SstEntry) :=
  match ies with
  | [] => mret result
  | ie :: ies => block ← read_data_block r ie; entries_loop r (result ++ block) ies
  end.

Definition all_entries (r : SstableReader) : cached (list SstEntry) := entries_loop r [] (r_index r).

(** ** Inspection *)

Record SstInspection := mkInspection {
  i_footer : SstFooter; i_entries : list SstEntry; i_warnings : list string
}.

(** [inspect_sstable_path] on the bytes of the file. *)
Definition inspect (bs : bytes) : result KayaError SstInspection :=
  match open bs with
  | Ok reader =>
      match (all_entries reader None).1 with
      | Ok es => Ok (mkInspection (r_footer reader) es [])
      | Err e => Err e
      end
  | Err e => Ok (mkInspection (mkFooter 0 0 0 0 0 0 0 0 0 0) [] [display e])
  end.

End Codec.
