(* ===== verification/SstBuild.v ===== *)
(** What the table builder writes: the blocks it cuts the entries into, the
    layout of the file, and that the reader opens it and finds the blocks. *)
From S2P Require Import Prelude Bytes Core OrdMap Path Disk InternalKey SstBlock SstIndex Sstable.

Open Scope N_scope.

(** The options as the builder keeps them. *)
Definition norm_options (o : SstableBuildOptions) : SstableBuildOptions :=
  mkBuildOptions (N.max (target_block_bytes o) 1) (bloom_bits_per_key o) (compression_lz4 o)
    (compression_zstd o) (prefix_compression o) (mvcc o).

Lemma norm_codec o : resolve_compression_codec (norm_options o) = resolve_compression_codec o.
Proof. done. Qed.

Lemma codec_le o : resolve_compression_codec o <= COMPRESSION_CODEC_ZSTD.
Proof. unfold resolve_compression_codec. repeat case_match; by vm_compute. Qed.

Section Build.
Context (lz4_compress : bytes → bytes) (lz4_decompress : bytes → result string bytes).
Context (zstd_encode : bytes → option bytes) (zstd_decode : bytes → result string bytes).
Context (o : SstableBuildOptions).

Abbreviation flush_current_block := (flush_current_block lz4_compress zstd_encode).
Abbreviation add := (add lz4_compress zstd_encode).

(** A block as stored, and its index entry at an offset. *)
Definition stored (es : list SstEntry) : bytes :=
  wrap_data_block_for_storage lz4_compress zstd_encode (encode_data_block es (prefix_compression o))
    (resolve_compression_codec o).

Definition index_entry (off : N) (es : list SstEntry) : IndexEntry :=
  mkIndexEntry (default [] (se_key <$> last es)) off (wrap u32_lim (lenN (stored es)))
    (default 1 (se_sequence <$> head es)) (default 1 (se_sequence <$> last es)).

Fixpoint index_of (off : N) (blocks : list (list SstEntry)) : list IndexEntry :=
  match blocks with
  | [] => []
  | es :: blocks => index_entry off es :: index_of (off + lenN (stored es)) blocks
  end.

Definition data_of (blocks : list (list SstEntry)) : bytes := blocks ≫= stored.

Lemma data_of_snoc blocks es : data_of (blocks ++ [es]) = data_of blocks ++ stored es.
Proof. unfold data_of. rewrite bind_app. cbn. by rewrite app_nil_r. Qed.

Lemma index_of_snoc blocks es : ∀ off,
  index_of off (blocks ++ [es]) = index_of off blocks ++ [index_entry (off + lenN (data_of blocks)) es].
Proof.
  induction blocks as [|b blocks IH]; intros off; cbn [index_of app].
  - by rewrite N.add_0_r.
  - unfold data_of. rewrite bind_cons, lenN_app. fold (data_of blocks). rewrite IH. by rewrite N.add_assoc.
Qed.

(** The sequences seen, as the footer records them. *)
Definition min_seq (es : list SstEntry) : option N :=
  foldl (λ m e, Some (match m with Some m => N.min m (se_sequence e) | None => se_sequence e end)) None es.
Definition max_seq (es : list SstEntry) : option N :=
  foldl (λ m e, Some (match m with Some m => N.max m (se_sequence e) | None => se_sequence e end)) None es.

(** The builder after the entries [es]: they are cut into [blocks] and the
    unfinished block. *)
Record binv (es : list SstEntry) (blocks : list (list SstEntry)) (b : SstableBuilder) : Prop := {
  bi_options : b_options b = norm_options o;
  bi_split : mjoin blocks ++ current_entries b = es;
  bi_nonempty : Forall (λ blk, blk ≠ []) blocks;
  bi_count : current_count b = lenN (current_entries b);
  bi_first : current_first_seq b = se_sequence <$> head (current_entries b);
  bi_last : current_last_seq b = se_sequence <$> last (current_entries b);
  bi_key : current_last_key b = se_key <$> last (current_entries b);
  bi_data : data_bytes b = data_of blocks;
  bi_index : index_entries b = index_of 0 blocks;
  bi_keys : all_keys b = se_key <$> es;
  bi_total : total_entries b = lenN es;
  bi_min : b_table_min_seq b = min_seq es;
  bi_max : b_table_max_seq b = max_seq es
}.

Lemma binv_init : binv [] [] (with_options o).
Proof. by split. Qed.

Lemma lenN_zero {A} (l : list A) : lenN l = 0 → l = [].
Proof. destruct l; [done|]. unfold lenN. cbn. lia. Qed.

Lemma binv_flush es blocks b :
  binv es blocks b →
  ∃ blocks', binv es blocks' (flush_current_block b) ∧ current_entries (flush_current_block b) = [].
Proof.
  intros Hb. unfold Sstable.flush_current_block. rewrite (bi_count _ _ _ Hb).
  destruct (N.eqb_spec (lenN (current_entries b)) 0) as [E|E].
  { apply lenN_zero in E. by exists blocks. }
  exists (blocks ++ [current_entries b]). split; [|done].
  destruct Hb as [Ho Hs Hne Hc Hf Hl Hk Hd Hi Hkeys Ht Hmin Hmax].
  split; cbn; auto.
  - rewrite app_nil_r, join_app. cbn. by rewrite app_nil_r.
  - apply Forall_app. split; [done|]. constructor; [|constructor]. intros Hz. rewrite Hz in E. done.
  - rewrite Hd, data_of_snoc. f_equal. unfold stored. by rewrite Ho, norm_codec.
  - rewrite Hi, index_of_snoc, N.add_0_l. f_equal. unfold index_entry, stored. by rewrite Hk, Hd, Hf, Hl, Ho.
Qed.

Lemma binv_add es blocks b e : binv es blocks b → ∃ blocks', binv (es ++ [e]) blocks' (add b e).
Proof.
  intros [Ho Hs Hne Hc Hf Hl Hk Hd Hi Hkeys Ht Hmin Hmax]. unfold Sstable.add. cbv zeta.
  match goal with |- ∃ _, binv _ _ (if ?c then Sstable.flush_current_block _ _ ?b' else _) =>
    assert (binv (es ++ [e]) blocks b') as Hb'; [|destruct c; [|by exists blocks]] end.
  - split; cbn; auto.
    + by rewrite app_assoc, Hs.
    + rewrite Hc, lenN_app. done.
    + rewrite Hf. by destruct (current_entries b).
    + by rewrite last_snoc.
    + by rewrite last_snoc.
    + by rewrite fmap_app, Hkeys.
    + by rewrite lenN_app, Ht.
    + unfold min_seq. rewrite foldl_app. fold (min_seq es). cbn. by rewrite Hmin.
    + unfold max_seq. rewrite foldl_app. fold (max_seq es). cbn. by rewrite Hmax.
  - apply binv_flush in Hb' as (blocks' & Hb'' & _). by exists blocks'.
Qed.

Lemma binv_build es : ∃ blocks, binv es blocks (foldl add (with_options o) es).
Proof.
  induction es as [|e es IH] using rev_ind; [exists []; apply binv_init|].
  destruct IH as [blocks Hb]. rewrite foldl_app. by eapply binv_add.
Qed.

(** ** The file *)

Definition bloom_part (es : list SstEntry) : bytes * N :=
  if 0 <? bloom_bits_per_key o then build_bloom_filter (se_key <$> es) (bloom_bits_per_key o) else ([], 0).

Definition footer_of (es : list SstEntry) (blocks : list (list SstEntry)) : SstFooter :=
  let idx := finalize_index_block (index_of 0 blocks) in
  mkFooter (lenN (data_of blocks)) (wrap u32_lim (lenN idx)) (default 1 (min_seq es)) (default 1 (max_seq es))
    (lenN es) (format_version_of o)
    (if 0 <? bloom_bits_per_key o then lenN (data_of blocks ++ idx) else 0)
    (wrap u32_lim (lenN (bloom_part es).1)) (bloom_part es).2 (resolve_compression_codec o).

Lemma build_layout es bs :
  build lz4_compress zstd_encode o es = Ok bs →
  ∃ blocks, mjoin blocks = es ∧ Forall (λ blk, blk ≠ []) blocks ∧
    bs = data_of blocks ++ finalize_index_block (index_of 0 blocks) ++ (bloom_part es).1 ++
         encode_footer (footer_of es blocks).
Proof.
  destruct (binv_build es) as [blocks Hb]. unfold build, finish. rewrite (bi_total _ _ _ Hb).
  destruct (N.eqb_spec (lenN es) 0) as [E|E]; [done|].
  apply binv_flush in Hb as (blocks' & Hb & Hcur). fold add in *.
  set (b := flush_current_block (foldl add (with_options o) es)) in *. clearbody b.
  destruct Hb as [Ho Hs Hne Hc Hf Hl Hk Hd Hi Hkeys Ht Hmin Hmax]. rewrite Hcur, app_nil_r in Hs.
  rewrite Ho, Hd, Hi, Hkeys, Ht, Hmin, Hmax. intros Hbs. exists blocks'. split_and!; [done|done|].
  unfold bloom_part, footer_of, bloom_part. change (bloom_bits_per_key (norm_options o)) with (bloom_bits_per_key o) in Hbs.
  destruct (0 <? bloom_bits_per_key o).
  - destruct (build_bloom_filter _ _) as [bl hc]. apply Ok_inj in Hbs as <-. cbn [fst snd].
    by rewrite <-!app_assoc.
  - apply Ok_inj in Hbs as <-. cbn [fst snd]. rewrite <-!app_assoc. done.
Qed.

(** ** Sizes of the parts *)

Lemma join_cons {A} (x : list A) l : mjoin (x :: l) = x ++ mjoin l.
Proof. done. Qed.


Lemma stored_len es : lenN (stored es) <= lenN (encode_data_block es (prefix_compression o)) + 1.
Proof.
  unfold stored, wrap_data_block_for_storage. generalize (encode_data_block es (prefix_compression o)). intros raw.
  assert (∀ k c, lenN (tagged raw k c) <= lenN raw + 1) as Ht.
  { intros k c. unfold tagged. destruct (N.ltb_spec (lenN c + 1) (lenN raw)); unfold lenN in *; cbn; lia. }
  destruct (_ =? COMPRESSION_CODEC_NONE); [lia|]. destruct (_ =? COMPRESSION_CODEC_LZ4); [apply Ht|].
  destruct (_ =? COMPRESSION_CODEC_ZSTD); [apply Ht|lia].
Qed.

Lemma stored_bound es : table_size es < 2 ^ 30 → lenN (stored es) <= table_size es + 13.
Proof.
  intros Ht. pose proof (stored_len es) as Hs. pose proof (block_size_bound es (prefix_compression o)) as Hb.
  rewrite length_encode_data_block in Hs by lia. lia.
Qed.

Lemma table_size_blocks blocks :
  Forall (λ blk, table_size blk <= table_size (mjoin blocks)) blocks.
Proof.
  apply Forall_forall. intros blk Hin. apply table_size_submseteq.
  apply list_elem_of_split in Hin as (l1 & l2 & ->). rewrite join_app. cbn.
  apply submseteq_inserts_l, submseteq_inserts_r. done.
Qed.

Lemma data_of_bound blocks :
  table_size (mjoin blocks) < 2 ^ 30 → Forall (λ blk, blk ≠ []) blocks →
  lenN (data_of blocks) <= 2 * table_size (mjoin blocks).
Proof.
  intros Ht Hne. induction Hne as [|blk blocks Hb Hne IH]; [done|].
  rewrite join_cons, table_size_app in *. unfold data_of. rewrite bind_cons, lenN_app. fold (data_of blocks).
  pose proof (stored_bound blk ltac:(lia)). pose proof (table_size_length blk).
  assert (1 <= lenN blk) by (destruct blk; [done|unfold lenN; cbn; lia]).
  specialize (IH ltac:(lia)). lia.
Qed.

Lemma index_body_bound blocks : ∀ off,
  Forall (λ blk, blk ≠ []) blocks → lenN (index_of off blocks ≫= encode_index_entry) <= table_size (mjoin blocks).
Proof.
  induction blocks as [|blk blocks IH]; intros off Hne; [done|]. apply Forall_cons in Hne as [Hb Hne].
  cbn [index_of]. rewrite join_cons, bind_cons, lenN_app, table_size_app. specialize (IH (off + lenN (stored blk)) Hne).
  unfold lenN at 1. rewrite length_encode_index. cbn [index_entry separator_key].
  destruct (last blk) as [e|] eqn:El; [|by apply last_None in El]. cbn.
  apply last_Some in El as [blk' ->]. rewrite table_size_app. unfold table_size at 2. cbn. unfold entry_cost, lenN in *. lia.
Qed.

Lemma index_size_bound blocks :
  Forall (λ blk, blk ≠ []) blocks → index_size (index_of 0 blocks) <= table_size (mjoin blocks) + 8.
Proof.
  intros Hne. unfold index_size, index_body. rewrite lenN_app, lenN_le_bytes.
  pose proof (index_body_bound blocks 0 Hne). lia.
Qed.

Lemma index_of_fits blocks : ∀ off,
  Forall (λ blk, blk ≠ []) blocks → Forall entry_fits (mjoin blocks) → table_size (mjoin blocks) < 2 ^ 30 →
  off + lenN (data_of blocks) < 2 ^ 64 → Forall index_fits (index_of off blocks).
Proof.
  induction blocks as [|blk blocks IH]; intros off Hne Hf Ht Ho; [constructor|].
  apply Forall_cons in Hne as [Hb Hne]. rewrite join_cons in Hf, Ht. apply Forall_app in Hf as [Hfb Hf].
  rewrite table_size_app in Ht. unfold data_of in Ho. rewrite bind_cons, lenN_app in Ho. fold (data_of blocks) in Ho.
  cbn [index_of]. constructor; [|apply IH; [done|done|lia|lia]].
  destruct (last blk) as [e|] eqn:El; [|by apply last_None in El].
  destruct blk as [|e0 blk]; [done|]. unfold index_entry. rewrite El. cbn.
  assert (e ∈ e0 :: blk) as He by (apply last_Some in El as [? ->]; apply elem_of_app; right; by left).
  pose proof (proj1 (Forall_forall _ _) Hfb e He) as [? ? ? ? ?].
  apply Forall_cons in Hfb as [[? ? ? ? ?] _].
  pose proof (stored_bound (e0 :: blk) ltac:(lia)).
  split; cbn; auto; [lia|]. rewrite wrap_small; [lia|]. unfold u32_lim. lia.
Qed.

Lemma seq_bound_min es m : Forall entry_fits es → min_seq es = Some m → m < 2 ^ 64.
Proof.
  revert m. induction es as [|e es IH] using rev_ind; intros m Hf; [done|].
  unfold min_seq. rewrite foldl_app. fold (min_seq es). cbn. intros [= <-].
  apply Forall_app in Hf as [Hf [He _]%Forall_cons]. pose proof (ef_seq e He).
  destruct (min_seq es) as [m|]; [|done]. specialize (IH m Hf eq_refl). lia.
Qed.

Lemma seq_bound_max es m : Forall entry_fits es → max_seq es = Some m → m < 2 ^ 64.
Proof.
  revert m. induction es as [|e es IH] using rev_ind; intros m Hf; [done|].
  unfold max_seq. rewrite foldl_app. fold (max_seq es). cbn. intros [= <-].
  apply Forall_app in Hf as [Hf [He _]%Forall_cons]. pose proof (ef_seq e He).
  destruct (max_seq es) as [m|]; [|done]. specialize (IH m Hf eq_refl). lia.
Qed.

Lemma hash_count_u32 bpk : bloom_hash_count bpk < 2 ^ 32.
Proof.
  unfold bloom_hash_count. assert (∀ x, ceil_as_u32 x < 2 ^ 32) as Hc.
  { intros x. unfold ceil_as_u32, u32_max. repeat case_match; lia. }
  specialize (Hc (SpecFloat.SFmul 53 1024 (f64_from bpk) LN_2)). lia.
Qed.

(** ** Opening the file *)

Hypothesis bloom_small : bloom_bits_per_key o <= 16.
Hypothesis is_mvcc : mvcc o = true.

Lemma bloom_part_facts es :
  table_size es < 2 ^ 30 →
  lenN (bloom_part es).1 < 2 ^ 29 ∧ (bloom_part es).2 < 2 ^ 32 ∧
  (0 < bloom_bits_per_key o → 0 < lenN (bloom_part es).1 ∧
     ∃ b, bloom_from_bytes (bloom_part es).1 (bloom_part es).2 = Ok b ∧
          ∀ k, k ∈ se_key <$> es → might_contain b k = true).
Proof.
  intros Ht. pose proof (table_size_length es). unfold bloom_part.
  destruct (N.ltb_spec 0 (bloom_bits_per_key o)) as [Hb|Hb]; cbn [fst snd]; [|split_and!; [by vm_compute..|lia]].
  assert (lenN (se_key <$> es) * bloom_bits_per_key o < 2 ^ 32 - 8) as Hw.
  { unfold lenN in *. rewrite length_fmap. nia. }
  destruct (bloom_width _ _ Hw) as [[Hlo Hhi] Hz]. pose proof (length_build_bloom _ _ Hz) as Hlen.
  rewrite Hlen. split_and!; [done|apply hash_count_u32|]. intros _. split; [lia|].
  unfold bloom_from_bytes. rewrite Hlen.
  assert (((build_bloom_filter (se_key <$> es) (bloom_bits_per_key o)).2 =? 0) = false) as Hh.
  { cbn. apply N.eqb_neq. unfold bloom_hash_count. lia. }
  rewrite Hh, (proj2 (N.eqb_neq _ _) Hz). eexists. split; [done|]. intros k Hk.
  eapply (bloom_no_false_negative (se_key <$> es) (bloom_bits_per_key o) _ k Hz); [|done].
  unfold bloom_from_bytes. by rewrite Hlen, Hh, (proj2 (N.eqb_neq _ _) Hz).
Qed.

Lemma footer_of_fits es blocks :
  table_fits es → mjoin blocks = es → Forall (λ blk, blk ≠ []) blocks → footer_fits (footer_of es blocks).
Proof.
  intros [Hf Ht] <- Hne. pose proof (data_of_bound blocks Ht Hne). pose proof (index_size_bound blocks Hne).
  pose proof (table_size_length (mjoin blocks)). destruct (bloom_part_facts (mjoin blocks) Ht) as (Hb1 & Hb2 & _).
  assert (lenN (finalize_index_block (index_of 0 blocks)) <= table_size (mjoin blocks) + 8) as Hil
    by (rewrite length_finalize_index; lia).
  unfold footer_of. split; cbn.
  - lia.
  - rewrite wrap_small; unfold u32_lim; lia.
  - destruct (min_seq _) as [m|] eqn:E; cbn; [by eapply seq_bound_min|lia].
  - destruct (max_seq _) as [m|] eqn:E; cbn; [by eapply seq_bound_max|lia].
  - lia.
  - case_match; [rewrite lenN_app; lia|lia].
  - rewrite wrap_small; unfold u32_lim; lia.
  - done.
  - apply codec_le.
  - right. unfold format_version_of. by rewrite is_mvcc.
Qed.

Hypothesis lz4_roundtrip : ∀ raw, lz4_decompress (lz4_compress raw) = Ok raw.
Hypothesis zstd_roundtrip : ∀ raw out, zstd_encode raw = Some out → zstd_decode out = Ok raw.

(** Every block is found where its index entry says. *)
Lemma load_blocks r blocks : ∀ pre rest,
  r_bytes r = pre ++ data_of blocks ++ rest → compression_codec (r_footer r) = resolve_compression_codec o →
  index_block_offset (r_footer r) = lenN (pre ++ data_of blocks) →
  Forall (λ blk, blk ≠ []) blocks → Forall entry_fits (mjoin blocks) → table_size (mjoin blocks) < 2 ^ 30 →
  Forall2 (λ ie blk, load_block lz4_decompress zstd_decode r ie = Ok blk) (index_of (lenN pre) blocks) blocks.
Proof.
  induction blocks as [|blk blocks IH]; intros pre rest Hb Hc Hi Hne Hf Ht; [constructor|].
  apply Forall_cons in Hne as [Hbn Hne]. rewrite join_cons in Hf, Ht. apply Forall_app in Hf as [Hfb Hf].
  rewrite table_size_app in Ht. unfold data_of in Hb, Hi. rewrite bind_cons in Hb, Hi. fold (data_of blocks) in Hb, Hi.
  rewrite <-app_assoc in Hb. pose proof (stored_bound blk ltac:(lia)) as Hsb.
  pose proof (block_size_bound blk (prefix_compression o)) as Hbs. cbn [index_of]. constructor.
  - unfold load_block, index_entry. cbn [block_offset block_len]. rewrite wrap_small by (unfold u32_lim; lia).
    rewrite Hi, !lenN_app, (proj2 (N.ltb_ge _ _)) by lia. rewrite Hb, Hc.
    rewrite (slice_at _ _ pre (stored blk)) by (unfold lenN; lia). unfold stored.
    rewrite unwrap_wrap by (done || apply codec_le). cbn [mbind result_bind].
    apply decode_data_block_encode; [done|done|lia].
  - rewrite <-lenN_app. apply (IH (pre ++ stored blk) rest); [by rewrite <-app_assoc|done| |done|done|lia].
    by rewrite Hi, <-app_assoc.
Qed.

(** A reader over the given blocks. *)
Record reader_over (blocks : list (list SstEntry)) (r : SstableReader) : Prop := {
  ro_index : r_index r = index_of 0 blocks;
  ro_load : Forall2 (λ ie blk, load_block lz4_decompress zstd_decode r ie = Ok blk) (r_index r) blocks;
  ro_multi : (SST_VERSION_V4 <=? format_version (r_footer r)) = true;
  ro_bloom : ∀ b k, r_bloom r = Some b → k ∈ se_key <$> mjoin blocks → might_contain b k = true
}.

Lemma open_build es bs :
  build lz4_compress zstd_encode o es = Ok bs → table_fits es →
  ∃ blocks r, open bs = Ok r ∧ mjoin blocks = es ∧ Forall (λ blk, blk ≠ []) blocks ∧
    r_footer r = footer_of es blocks ∧ reader_over blocks r.
Proof.
  intros Hbuild Hfits. destruct (build_layout es bs Hbuild) as (blocks & Hj & Hne & ->).
  pose proof (footer_of_fits es blocks Hfits Hj Hne) as Hff. destruct Hfits as [Hf Ht].
  destruct (bloom_part_facts es Ht) as (Hb1 & Hb2 & Hb3).
  assert (lenN (data_of blocks) <= 2 * table_size es) as Hdb by (subst es; by apply data_of_bound).
  assert (index_size (index_of 0 blocks) <= table_size es + 8) as Hib by (subst es; by apply index_size_bound).
  assert (lenN (finalize_index_block (index_of 0 blocks)) <= table_size es + 8) as Hil
    by (rewrite length_finalize_index; lia).
  assert (Forall index_fits (index_of 0 blocks)) as Hxf by (apply index_of_fits; subst es; auto; lia).
  set (D := data_of blocks) in *. set (X := finalize_index_block (index_of 0 blocks)) in *.
  set (B := (bloom_part es).1) in *. set (f := footer_of es blocks) in *.
  assert (physical_len f = 72%nat) as Hpl by (by apply footer_physical_72).
  assert (length (encode_footer f) = 72%nat) as Hlf.
  { rewrite encode_footer_body by done. by rewrite !length_app, !length_le_bytes, length_footer_body. }
  set (bs := D ++ X ++ B ++ encode_footer f).
  assert (decode_footer bs = Ok f) as Hdf.
  { unfold bs. rewrite !app_assoc. by apply decode_footer_encode. }
  assert (lenN bs = lenN D + lenN X + lenN B + 72) as Hlen by (unfold bs; rewrite !lenN_app; unfold lenN; lia).
  assert (index_block_offset f = lenN D) as Eio by done.
  assert (index_block_len f = lenN X) as Eil by (apply wrap_small; unfold u32_lim; lia).
  assert (bloom_len f = lenN B) as Ebl by (apply wrap_small; unfold u32_lim; lia).
  assert (slice (N.to_nat (lenN D)) (N.to_nat (lenN D + lenN X)) bs = X) as HsX.
  { unfold bs. rewrite (slice_at _ _ D X); [done|..]; unfold lenN; lia. }
  unfold open. rewrite Hdf. cbn [mbind result_bind]. rewrite Eio, Eil, Hpl, Hlen.
  rewrite (proj2 (N.ltb_ge _ _)) by lia. rewrite HsX.
  assert (∃ bl, open_bloom bs f (lenN D + lenN X) (lenN D + lenN X + lenN B + 72 - N.of_nat 72) = Ok bl ∧
    ∀ b k, bl = Some b → k ∈ se_key <$> es → might_contain b k = true) as (bl & -> & Hbl).
  { unfold open_bloom. rewrite Ebl. destruct (N.ltb_spec 0 (bloom_bits_per_key o)) as [Hbpk|Hbpk].
    - destruct (Hb3 Hbpk) as (HB0 & b & Hfb & Hmc). assert (bloom_offset f = lenN (D ++ X)) as Ebo.
      { unfold f, footer_of. cbn. by rewrite (proj2 (N.ltb_lt _ _) Hbpk). }
      rewrite (proj2 (N.ltb_lt _ _) HB0), Ebo, lenN_app.
      rewrite (proj2 (N.ltb_ge _ _)) by lia. rewrite (proj2 (N.ltb_ge _ _)) by lia. cbn [orb].
      replace (slice _ _ bs) with B.
      + change (bloom_hash_count_f f) with (bloom_part es).2. rewrite Hfb. cbn. eexists. split; [done|].
        intros b' k [= <-]. apply Hmc.
      + unfold bs. rewrite app_assoc. symmetry. apply slice_at; rewrite ?length_app; unfold lenN; lia.
    - assert (B = []) as -> by (unfold B, bloom_part; by rewrite (proj2 (N.ltb_ge _ _) Hbpk)).
      cbn. by exists None. }
  cbn [mbind result_bind]. unfold X. rewrite decode_index_block_ok by (done || lia). cbn [mbind result_bind].
  exists blocks. eexists. split; [done|]. split_and!; [done|done|done|]. split; cbn [r_index r_footer r_bloom].
  - done.
  - apply (load_blocks _ blocks [] (X ++ B ++ encode_footer f)); [done|done|done|done|by subst es|by subst es].
  - unfold f, footer_of, format_version_of. cbn. by rewrite is_mvcc.
  - intros b k Hb Hk. apply (Hbl b k); [done|]. by rewrite <-Hj.
Qed.
End Build.
