(* ===== verification/SstRead.v ===== *)
(** Reading sorted tables: the lookups and scans of a reader over a table's
    blocks return what its entries say, with the block cache or without, and
    the built format is an instance of the engine's table interface. *)
From stdpp Require Import gmap.
From S2P Require Import Prelude Bytes Core OrdMap Path Disk InternalKey SstBlock SstIndex Sstable SstBuild SstSpec.

Open Scope N_scope.

(** ** The block cache *)

(** The recency list names each cached block once, and nothing else. *)
Record cache_ok (c : BlockCache) : Prop := {
  co_nodup : NoDup (order c);
  co_keys : ∀ k, k ∈ order c ↔ is_Some (cmap c !! k);
  co_bound : N.of_nat (size (cmap c)) <= capacity c
}.

Lemma elem_remove_first k l x : NoDup l → x ∈ remove_first k l ↔ x ∈ l ∧ x ≠ k.
Proof.
  induction l as [|y l IH]; cbn [remove_first]; intros Hnd; [split; [by intros ?%elem_of_nil|by intros [?%elem_of_nil _]]|].
  apply NoDup_cons in Hnd as [Hy Hnd]. destruct (N.eqb_spec y k) as [->|Hne].
  - rewrite elem_of_cons. split; [intros Hx; split; [by right|intros ->; done]|intros [[->|?] ?]; done].
  - rewrite !elem_of_cons, IH by done. split; [intros [->|[? ?]]; auto|intros [[->|?] ?]; auto].
Qed.

Lemma NoDup_remove_first k l : NoDup l → NoDup (remove_first k l).
Proof.
  induction l as [|y l IH]; cbn [remove_first]; intros Hnd; [constructor|].
  pose proof Hnd as [Hy Hnd']%NoDup_cons. destruct (N.eqb_spec y k); [done|]. constructor; [|by apply IH].
  rewrite elem_remove_first by done. by intros [? _].
Qed.

(** Putting the block [k] last in the recency list. *)
Lemma push_keys k l (P : N → Prop) :
  NoDup l → (∀ x, x ∈ l ↔ x ≠ k ∧ P x) → P k → NoDup (l ++ [k]) ∧ ∀ x, x ∈ l ++ [k] ↔ P x.
Proof.
  intros Hn Hl Hk. split.
  - apply NoDup_app. split_and!; [done| |apply NoDup_singleton].
    intros x Hx ->%list_elem_of_singleton. by apply Hl in Hx as [].
  - intros x. rewrite elem_of_app, list_elem_of_singleton, Hl. destruct (decide (x = k)) as [->|]; tauto.
Qed.

Lemma lookup_insert_some {A} (m : gmap N A) k v x : is_Some (<[k := v]> m !! x) ↔ x = k ∨ is_Some (m !! x).
Proof. rewrite lookup_insert_is_Some. destruct (decide (x = k)) as [->|]; [tauto|]. intuition congruence. Qed.

Lemma cache_get_ok k c : cache_ok c → cache_ok (cache_get k c).2.
Proof.
  intros [Hn Hk Hb]. unfold cache_get. destruct (cmap c !! k) as [es|] eqn:E; cbn [snd]; [|by split].
  destruct (push_keys k (remove_first k (order c)) (λ x, is_Some (cmap c !! x))) as [Hn' Hk']; [| | |by split].
  - by apply NoDup_remove_first.
  - intros x. rewrite elem_remove_first, Hk by done. tauto.
  - by eexists.
Qed.

(** The block evicted from a full cache is a cached one. *)
Lemma evicts c v l :
  cache_ok c → order c = v :: l →
  is_Some (cmap c !! v) ∧ NoDup l ∧ (∀ x, x ∈ l ↔ x ≠ v ∧ is_Some (cmap c !! x)).
Proof.
  intros [Hn Hk _] Eo. rewrite Eo in *. apply NoDup_cons in Hn as [Hv Hn]. split_and!; [rewrite <-Hk; by left|done|].
  intros x. rewrite <-Hk, elem_of_cons. split; [intros Hx; split; [by intros ->|by right]|by intros [? [?|?]]].
Qed.

Lemma cache_insert_ok k es c : cache_ok c → cache_ok (cache_insert k es c).
Proof.
  intros Hok. unfold cache_insert. destruct (N.eqb_spec (capacity c) 0) as [?|Hc]; [done|].
  pose proof Hok as [Hn Hk Hb].
  destruct (cmap c !! k) as [old|] eqn:E; [|destruct (N.leb_spec (capacity c) (N.of_nat (size (cmap c)))) as [Hfull|Hfree]].
  - destruct (push_keys k (remove_first k (order c)) (λ x, is_Some (<[k := es]> (cmap c) !! x))) as [Hn' Hk'].
    + by apply NoDup_remove_first.
    + intros x. rewrite elem_remove_first, Hk, lookup_insert_some by done. tauto.
    + rewrite lookup_insert_some. by left.
    + split; cbn; [done..|]. rewrite map_size_insert_Some; [done|by eexists].
  - destruct (order c) as [|v l] eqn:Eo.
    { destruct (map_choose (cmap c)) as (i & x & Hi).
      - intros E0. rewrite E0, map_size_empty in Hfull. lia.
      - assert (i ∈ @nil N) as []%elem_of_nil by (rewrite Hk; by eexists). }
    destruct (evicts c v l Hok Eo) as (Hv & Hl & Hlk).
    assert (k ≠ v) as Hkv by (intros ->; rewrite E in Hv; by destruct Hv).
    destruct (push_keys k l (λ x, is_Some (<[k := es]> (delete v (cmap c)) !! x))) as [Hn' Hk']; [done| | |split; cbn; [done..|]].
    + intros x. rewrite lookup_insert_some, lookup_delete_is_Some, Hlk. split; [|intuition congruence].
      intros [? Hx]. split; [intros ->; rewrite E in Hx; by destruct Hx|]. right. split; [congruence|done].
    + rewrite lookup_insert_some. by left.
    + rewrite map_size_insert_None by (rewrite lookup_delete_ne; done).
      rewrite map_size_delete_Some by done. destruct (size (cmap c)) eqn:Es; [|lia].
      apply map_size_empty_inv in Es. rewrite Es in Hv. by destruct Hv.
  - destruct (push_keys k (order c) (λ x, is_Some (<[k := es]> (cmap c) !! x))) as [Hn' Hk']; [done| | |split; cbn; [done..|]].
    + intros x. rewrite Hk, lookup_insert_some. split; [|intuition congruence].
      intros Hx. split; [intros ->; rewrite E in Hx; by destruct Hx|by right].
    + rewrite lookup_insert_some. by left.
    + rewrite map_size_insert_None by done. lia.
Qed.

Lemma cache_new_ok n : cache_ok (cache_new n).
Proof.
  split; cbn; [constructor| |rewrite map_size_empty; lia].
  intros k. rewrite lookup_empty. split; [by intros ?%elem_of_nil|by intros [? ?]].
Qed.

(** What an insertion leaves in the cache: the new block and some of the old. *)
Lemma cache_insert_lookup k es c x old :
  cmap (cache_insert k es c) !! x = Some old → x = k ∧ old = es ∨ cmap c !! x = Some old.
Proof.
  unfold cache_insert. destruct (capacity c =? 0); [by right|].
  set (p := match cmap c !! k with Some _ => _ | None => _ end).
  assert (∀ v, p.2 !! x = Some v → cmap c !! x = Some v) as Hp.
  { unfold p. destruct (cmap c !! k); [done|]. destruct (_ <=? _); [|done].
    destruct (order c) as [|e l]; [done|]. cbn. intros v Hv. apply lookup_delete_Some in Hv. tauto. }
  destruct p as [l m]. cbn. intros [[-> ->]|[_ Hx]]%lookup_insert_Some; [by left|]. right. by apply Hp.
Qed.

Section Reader.
Context (lz4_decompress : bytes → result string bytes) (zstd_decode : bytes → result string bytes).
Implicit Types (r : SstableReader) (c : BlockCache).

Abbreviation cached := (stm (option BlockCache)).
Abbreviation load_block := (load_block lz4_decompress zstd_decode).
Abbreviation read_data_block := (read_data_block lz4_decompress zstd_decode).
Abbreviation get_loop := (get_loop lz4_decompress zstd_decode).
Abbreviation get_at := (get_at lz4_decompress zstd_decode).
Abbreviation scan_loop := (scan_loop lz4_decompress zstd_decode).
Abbreviation scan_prefix_at := (scan_prefix_at lz4_decompress zstd_decode).
Abbreviation entries_loop := (entries_loop lz4_decompress zstd_decode).
Abbreviation all_entries := (all_entries lz4_decompress zstd_decode).

(** ** Reads through the cache *)

(** Every cached block is what its index entries load. *)
Definition coherent r c : Prop :=
  cache_ok c ∧ ∀ ie es, ie ∈ r_index r → cmap c !! block_offset ie = Some es → load_block r ie = Ok es.

(** The action computes the same with a coherent cache as without one. *)
Definition transparent r {A} (m : cached A) : Prop :=
  (m None).2 = None ∧
  ∀ c, coherent r c → ∃ c', m (Some c) = ((m None).1, Some c') ∧ coherent r c'.

Lemma transparent_ret r {A} (a : A) : transparent r (mret a).
Proof. split; [done|]. intros c Hc. by exists c. Qed.

Lemma transparent_bind r {A B} (m : cached A) (f : A → cached B) :
  transparent r m → (∀ a, transparent r (f a)) → transparent r (m ≫= f).
Proof.
  intros [Hm1 Hm2] Hf. split.
  - unfold mbind, stm_bind. destruct (m None) as [[a|e] s]; cbn [fst snd] in *; subst s; [apply Hf|done].
  - intros c Hc. destruct (Hm2 c Hc) as (c' & E' & Hc'). unfold mbind, stm_bind. rewrite E'.
    destruct (m None) as [[a|e] s]; cbn [fst snd] in *; subst s; [by apply Hf|by exists c'].
Qed.

Lemma transparent_read r ie :
  NoDup (block_offset <$> r_index r) → ie ∈ r_index r → transparent r (read_data_block r ie).
Proof.
  intros Hnd Hie. split; [done|]. intros c [Hok Hc]. cbn.
  pose proof (cache_get_ok (block_offset ie) c Hok) as Hok'. unfold cache_get in *.
  destruct (cmap c !! block_offset ie) as [es|] eqn:E; cbn [snd] in Hok'.
  - eexists. split; [by rewrite (Hc ie es Hie E)|]. split; [done|]. cbn. exact Hc.
  - destruct (load_block r ie) as [es|e] eqn:El; eexists; (split; [done|]); (split; [|]).
    + by apply cache_insert_ok.
    + intros ie' es' Hie' [[Ho ->]|Hl]%cache_insert_lookup; [|by eapply Hc].
      assert (ie' = ie) as ->; [|done].
      apply list_elem_of_lookup in Hie as [i Hi], Hie' as [j Hj].
      assert (i = j) as ->; [|congruence].
      eapply (NoDup_lookup (block_offset <$> r_index r)); [done| |]; rewrite list_lookup_fmap.
      * rewrite Hi. done.
      * rewrite Hj. cbn. by rewrite Ho.
    + done.
    + cbn. exact Hc.
Qed.

Section Transparent.
Context (r : SstableReader) (offsets_unique : NoDup (block_offset <$> r_index r)).

Lemma transparent_get_loop multi key ts ies : ∀ started,
  (∀ ie, ie ∈ ies → ie ∈ r_index r) → transparent r (get_loop r multi key ts started ies).
Proof.
  induction ies as [|ie ies IH]; intros started Hin; cbn [get_loop]; [apply transparent_ret|].
  destruct (negb started && blt (separator_key ie) key); [apply IH; intros; apply Hin; by right|].
  apply transparent_bind; [apply transparent_read; [done|apply Hin; by left]|]. intros block.
  destruct (get_in_block multi key ts block); [apply transparent_ret|].
  destruct (negb multi); [apply transparent_ret|]. destruct (blt key (separator_key ie)); [apply transparent_ret|].
  apply IH. intros; apply Hin; by right.
Qed.

Lemma transparent_get_at key ts : transparent r (get_at r key ts).
Proof.
  unfold get_at. case_match; [apply transparent_ret|]. by apply transparent_get_loop.
Qed.

Lemma transparent_scan_loop p ts ies : ∀ s,
  (∀ ie, ie ∈ ies → ie ∈ r_index r) → transparent r (scan_loop r p ts s ies).
Proof.
  induction ies as [|ie ies IH]; intros s Hin; cbn [scan_loop]; [apply transparent_ret|].
  destruct (_ && _); [apply IH; intros; apply Hin; by right|].
  apply transparent_bind; [apply transparent_read; [done|apply Hin; by left]|]. intros block.
  destruct (scan_block p ts s block) as [[] s']; [apply transparent_ret|].
  apply IH. intros; apply Hin; by right.
Qed.

Lemma transparent_all_entries : transparent r (all_entries r).
Proof.
  unfold all_entries. generalize (@nil SstEntry).
  assert (∀ ie, ie ∈ r_index r → ie ∈ r_index r) as Hin by done. revert Hin.
  generalize (r_index r) at 1 3. intros ies Hin.
  induction ies as [|ie ies IH]; intros acc; cbn [entries_loop]; [apply transparent_ret|].
  apply transparent_bind; [apply transparent_read; [done|apply Hin; by left]|]. intros block.
  apply IH. intros; apply Hin; by right.
Qed.

End Transparent.

(** ** What the reads return *)

(** Without a cache, a bind passes on the first result. *)
Lemma run_bind {A B} (m : cached A) (f : A → cached B) a :
  m None = (Ok a, None) → (m ≫= f) None = f a None.
Proof. intros E. unfold mbind, stm_bind. by rewrite E. Qed.

Lemma get_in_block_spec k ts blk rest :
  sst_sorted (blk ++ rest) →
  match get_in_block true k ts blk with
  | Some res => sst_newest k ts (blk ++ rest) = res
  | None => sst_newest k ts (blk ++ rest) = sst_newest k ts rest
  end.
Proof.
  induction blk as [|x blk IH]; [done|]. cbn [app]. intros Hs. cbn [get_in_block negb].
  assert (sst_sorted (blk ++ rest)) as Hs' by (by apply sst_sorted_cons in Hs as []).
  specialize (IH Hs'). unfold sst_newest in *. rewrite filter_cons.
  destruct (bcmp (se_key x) k) eqn:E.
  - apply bcmp_eq in E. destruct (N.leb_spec (se_sequence x) ts).
    + by rewrite decide_True by done.
    + rewrite decide_False by (intros [_ ?]; lia). exact IH.
  - rewrite decide_False; [exact IH|]. intros [Hk _]. by rewrite Hk, bcmp_refl in E.
  - rewrite decide_False by (intros [Hk _]; by rewrite Hk, bcmp_refl in E).
    fold (sst_newest k ts (blk ++ rest)). apply sst_newest_after. intros y Hy.
    eapply bcmp_lt_le_trans; [|by eapply sst_sorted_keys]. rewrite bcmp_antisym, E. done.
Qed.

(** The index entry [ie] leads to the block [blk], and separates it from the
    blocks after. *)
Definition indexes r (ie : IndexEntry) (blk : list SstEntry) : Prop :=
  load_block r ie = Ok blk ∧ (se_key <$> last blk) = Some (separator_key ie).

Lemma separator_le r ie blk rest x :
  indexes r ie blk → sst_sorted (blk ++ rest) → x ∈ blk → bcmp (se_key x) (separator_key ie) ≠ Gt.
Proof.
  intros [_ Hl] Hs Hx. destruct (last blk) as [y|] eqn:E; [|done]. cbn in Hl. injection Hl as <-.
  apply last_Some in E as [l ->]. apply elem_of_app in Hx as [Hx| ->%list_elem_of_singleton].
  - rewrite <-app_assoc in Hs. eapply sst_app_keys; [exact Hs|done|by left].
  - by rewrite bcmp_refl.
Qed.

Lemma separator_after r ie blk rest x :
  indexes r ie blk → sst_sorted (blk ++ rest) → x ∈ rest → bcmp (separator_key ie) (se_key x) ≠ Gt.
Proof.
  intros [_ Hl] Hs Hx. destruct (last blk) as [y|] eqn:E; [|done]. cbn in Hl. injection Hl as <-.
  apply last_Some in E as [l ->]. eapply sst_app_keys; [exact Hs| |done]. apply elem_of_app. right. by left.
Qed.

Lemma table_get_spec r k ts ies blocks : ∀ started,
  Forall2 (indexes r) ies blocks → sst_sorted (mjoin blocks) →
  get_loop r true k ts started ies None = (Ok (sst_newest k ts (mjoin blocks)), None).
Proof.
  revert blocks. induction ies as [|ie ies IH]; intros blocks started Hix Hs; inversion Hix; subst; [done|].
  rename y into blk, l' into blocks. rewrite join_cons in *. cbn [get_loop].
  pose proof (sst_sorted_app_r _ _ Hs) as Hs'.
  destruct (negb started && blt (separator_key ie) k) eqn:Eskip.
  { rewrite (IH blocks) by done. rewrite sst_newest_skip; [done|]. apply sst_newest_None. intros y Hy [Hk _].
    apply andb_true_iff in Eskip as [_ Eb]. unfold blt in Eb. pose proof (separator_le r ie blk _ y H1 Hs Hy) as Hle.
    rewrite Hk in Hle. rewrite bcmp_antisym in Hle. by destruct (bcmp (separator_key ie) k). }
  rewrite (run_bind _ _ blk) by (cbn; by rewrite (proj1 H1)).
  pose proof (get_in_block_spec k ts blk (mjoin blocks) Hs) as Hb.
  destruct (get_in_block true k ts blk) as [res|]; rewrite Hb; [done|]. cbn [negb].
  destruct (blt k (separator_key ie)) eqn:Eb; [|by apply IH].
  rewrite sst_newest_after; [done|]. intros y Hy. eapply bcmp_lt_le_trans; [|by eapply separator_after].
  unfold blt in Eb. by destruct (bcmp k (separator_key ie)).
Qed.

(** ** Scans *)

(** The key whose version a scan has emitted last, if it is the current one. *)
Definition emitted (s : ScanState) : option bytes := if sc_selected s then sc_key s else None.

(** The scan is at the entries [es]. *)
Definition scan_at (s : ScanState) (es : list SstEntry) : Prop :=
  (sc_selected s = true → sc_key s ≠ None) ∧
  ∀ k y, sc_key s = Some k → y ∈ es → bcmp k (se_key y) ≠ Gt.


Lemma scan_at_tail s x es : scan_at s (x :: es) → scan_at s es.
Proof. intros [H1 H2]. split; [done|]. intros k y Hk Hy. apply (H2 k y Hk). by right. Qed.

Lemma scan_at_key s x es : sst_sorted (x :: es) → sc_key s = Some (se_key x) → scan_at s es.
Proof.
  intros Hs Hk. split; [by rewrite Hk|]. intros k y. rewrite Hk. intros [= <-] Hy. by eapply sst_sorted_keys.
Qed.

(** Moving on to the key of the entry [x]. *)
Definition rekey (s : ScanState) (x : SstEntry) : ScanState :=
  if negb (bool_decide (sc_key s = Some (se_key x))) then mkScan (sc_result s) (Some (se_key x)) false else s.

Lemma rekey_spec p ts s x es :
  sst_sorted (x :: es) → scan_at s (x :: es) →
  sc_key (rekey s x) = Some (se_key x) ∧ sc_result (rekey s x) = sc_result s ∧
  sst_visible p ts (emitted (rekey s x)) (x :: es) = sst_visible p ts (emitted s) (x :: es).
Proof.
  intros Hs [H1 H2]. unfold rekey. destruct (bool_decide_reflect (sc_key s = Some (se_key x))) as [E|E]; [done|].
  cbn [negb]. split_and!; [done|done|]. unfold emitted at 1. cbn [sc_selected]. unfold emitted.
  destruct (sc_selected s); [|done]. destruct (sc_key s) as [k|] eqn:Ek; [|done]. symmetry. apply sst_visible_unseen.
  assert (bcmp k (se_key x) = Lt) as Hlt.
  { specialize (H2 k x eq_refl ltac:(by left)). destruct (bcmp k (se_key x)) eqn:Ec; [|done|done].
    apply bcmp_eq in Ec as ->. done. }
  intros y [->|Hy]%elem_of_cons; [done|]. eapply bcmp_lt_le_trans; [done|by eapply sst_sorted_keys].
Qed.

Lemma scan_block_step p ts s x blk :
  starts_with p (se_key x) = true →
  scan_block p ts s (x :: blk) =
  if sc_selected (rekey s x) then scan_block p ts (rekey s x) blk
  else if se_sequence x <=? ts then
    scan_block p ts (mkScan (sc_result (rekey s x) ++ [x]) (sc_key (rekey s x)) true) blk
  else scan_block p ts (rekey s x) blk.
Proof. intros Hp. cbn [scan_block]. rewrite Hp, andb_false_r. done. Qed.

Lemma scan_block_other p ts s x blk :
  starts_with p (se_key x) = false →
  scan_block p ts s (x :: blk) = if blt (se_key x) p then scan_block p ts s blk else (true, s).
Proof.
  intros Hp. cbn [scan_block]. rewrite Hp, andb_true_r. destruct p; [done|].
  by rewrite bool_decide_eq_false_2.
Qed.

(** What a block adds to a scan; the rest of the table follows it. *)
Lemma scan_block_spec p ts blk rest : ∀ s,
  sst_sorted (blk ++ rest) → scan_at s (blk ++ rest) →
  match scan_block p ts s blk with
  | (true, s') => sc_result s' = sc_result s ++ sst_visible p ts (emitted s) (blk ++ rest)
  | (false, s') =>
      sc_result s' ++ sst_visible p ts (emitted s') rest =
        sc_result s ++ sst_visible p ts (emitted s) (blk ++ rest) ∧ scan_at s' rest
  end.
Proof.
  induction blk as [|x blk IH]; intros s Hs Ha; [done|]. cbn [app] in *.
  assert (sst_sorted (blk ++ rest)) as Hs' by (by apply sst_sorted_cons in Hs as []).
  destruct (starts_with p (se_key x)) eqn:Hp.
  - rewrite scan_block_step by done. destruct (rekey_spec p ts s x _ Hs Ha) as (Hk & Hr & <-).
    rewrite <-Hr. clear Hr. revert Hk. generalize (rekey s x) as s1. clear s Ha. intros s Hk.
    pose proof (scan_at_key s x _ Hs Hk) as Ha. cbn [sst_visible]. rewrite Hp.
    unfold emitted in *. destruct (sc_selected s) eqn:Es.
    + rewrite Hk, bool_decide_eq_true_2 by done. cbn [negb]. rewrite andb_false_r.
      specialize (IH s Hs' Ha). rewrite Es, Hk in IH. exact IH.
    + rewrite bool_decide_eq_false_2 by done. cbn [negb]. rewrite andb_true_r. cbn [andb].
      destruct (se_sequence x <=? ts).
      * set (s1 := mkScan (sc_result s ++ [x]) (sc_key s) true).
        specialize (IH s1 Hs' (scan_at_key s1 x _ Hs Hk)). cbn [s1 sc_selected sc_key sc_result] in IH.
        rewrite Hk, <-app_assoc in IH. exact IH.
      * specialize (IH s Hs' Ha). rewrite Es in IH. exact IH.
  - rewrite scan_block_other by done. unfold blt. destruct (bcmp (se_key x) p) eqn:Ex.
    + apply bcmp_eq in Ex as <-. apply not_true_iff_false in Hp as []. by apply starts_with_spec.
    + cbn [sst_visible]. rewrite Hp. apply IH; [done|by eapply scan_at_tail].
    + rewrite sst_visible_none; [by rewrite app_nil_r|]. intros y Hy. apply not_true_iff_false. intros Hpy.
      apply not_true_iff_false in Hp as []. eapply starts_with_between; [| |exact Hpy].
      * rewrite bcmp_antisym, Ex. done.
      * apply elem_of_cons in Hy as [->|Hy]; [by rewrite bcmp_refl|by eapply sst_sorted_keys].
Qed.

Lemma table_scan_spec r p ts ies blocks : ∀ s,
  Forall2 (indexes r) ies blocks → sst_sorted (mjoin blocks) → scan_at s (mjoin blocks) →
  scan_loop r p ts s ies None = (Ok (sc_result s ++ sst_visible p ts (emitted s) (mjoin blocks)), None).
Proof.
  revert blocks. induction ies as [|ie ies IH]; intros blocks s Hix Hs Ha; inversion Hix; subst.
  { cbn. by rewrite app_nil_r. }
  rename y into blk, l' into blocks. rewrite join_cons in *. cbn [scan_loop].
  pose proof (sst_sorted_app_r _ _ Hs) as Hs'.
  destruct (_ && blt (separator_key ie) p) eqn:Eskip.
  { assert (scan_at s (mjoin blocks)) as Ha'.
    { destruct Ha as [? Ha]. split; [done|]. intros k y Hk Hy. apply (Ha k y Hk), elem_of_app. by right. }
    rewrite (IH blocks s) by done. rewrite sst_visible_skip; [done|]. intros y Hy. apply not_true_iff_false. intros Hp%starts_with_le.
    apply andb_true_iff in Eskip as [_ Eb]. unfold blt in Eb. pose proof (separator_le r ie blk _ y H1 Hs Hy) as Hle.
    destruct (bcmp (separator_key ie) p) eqn:Ec; try done. apply Hp.
    by rewrite bcmp_antisym, (bcmp_le_lt_trans (se_key y) (separator_key ie) p). }
  rewrite (run_bind _ _ blk) by (cbn; by rewrite (proj1 H1)).
  pose proof (scan_block_spec p ts blk (mjoin blocks) s Hs Ha) as Hb.
  destruct (scan_block p ts s blk) as [[] s']; [by rewrite <-Hb|]. destruct Hb as [<- Ha']. by apply IH.
Qed.

Lemma entries_loop_spec r ies blocks : ∀ acc,
  Forall2 (indexes r) ies blocks → entries_loop r acc ies None = (Ok (acc ++ mjoin blocks), None).
Proof.
  revert blocks. induction ies as [|ie ies IH]; intros blocks acc Hix; inversion Hix; subst.
  { cbn. by rewrite app_nil_r. }
  rename y into blk, l' into blocks. cbn [entries_loop]. rewrite (run_bind _ _ blk) by (cbn; by rewrite (proj1 H1)).
  rewrite (IH blocks) by done. by rewrite join_cons, app_assoc.
Qed.

End Reader.

(** ** Built tables *)

Section Built.
Context (lz4_compress : bytes → bytes) (lz4_decompress : bytes → result string bytes).
Context (zstd_encode : bytes → option bytes) (zstd_decode : bytes → result string bytes).
Context (o : SstableBuildOptions).

Abbreviation index_of := (index_of lz4_compress zstd_encode o).
Abbreviation reader_over := (reader_over lz4_compress lz4_decompress zstd_encode zstd_decode o).
Abbreviation indexes := (indexes lz4_decompress zstd_decode).
Abbreviation get_at := (get_at lz4_decompress zstd_decode).
Abbreviation scan_prefix_at := (scan_prefix_at lz4_decompress zstd_decode).
Abbreviation all_entries := (all_entries lz4_decompress zstd_decode).

Lemma stored_pos es : 0 < lenN (stored lz4_compress zstd_encode o es).
Proof.
  assert (0 < lenN (encode_data_block es (prefix_compression o))) as Hraw.
  { unfold encode_data_block. cbv zeta. rewrite lenN_app, lenN_le_bytes. lia. }
  unfold stored, wrap_data_block_for_storage, tagged. unfold lenN in *. repeat case_match; cbn [length]; lia.
Qed.

Lemma index_of_offsets blocks : ∀ off,
  Forall (λ n, off <= n) (block_offset <$> index_of off blocks) ∧ NoDup (block_offset <$> index_of off blocks).
Proof.
  induction blocks as [|es blocks IH]; intros off; [by split; constructor|].
  cbn [index_of fmap list_fmap index_entry block_offset]. pose proof (stored_pos es) as Hp.
  destruct (IH (off + lenN (stored lz4_compress zstd_encode o es))) as [Hf Hn]. split.
  - constructor; [lia|]. eapply Forall_impl; [exact Hf|]. cbn. intros. lia.
  - constructor; [|done]. intros Hin. pose proof (proj1 (Forall_forall _ _) Hf _ Hin). cbn in *. lia.
Qed.

Section Over.
Context (blocks : list (list SstEntry)) (r : SstableReader).
Context (Hr : reader_over blocks r) (Hne : Forall (λ blk, blk ≠ []) blocks).

Lemma built_offsets : NoDup (block_offset <$> r_index r).
Proof. rewrite (ro_index _ _ _ _ _ _ _ Hr). apply index_of_offsets. Qed.

Lemma built_indexes : Forall2 (indexes r) (r_index r) blocks.
Proof.
  assert (Forall2 (λ ie blk, (se_key <$> last blk) = Some (separator_key ie)) (r_index r) blocks) as Hsep.
  { rewrite (ro_index _ _ _ _ _ _ _ Hr). clear Hr. generalize 0 as off. revert Hne.
    induction blocks as [|blk bs IH]; intros Hne off; [constructor|]. apply Forall_cons in Hne as [Hb Hbs].
    cbn [SstBuild.index_of]. constructor; [|by apply IH]. cbn. destruct (last blk) eqn:E; [done|]. by apply last_None in E. }
  pose proof (ro_load _ _ _ _ _ _ _ Hr) as Hload. revert Hsep Hload. generalize (r_index r) as ies. clear Hr Hne.
  intros ies Hs. induction Hs; intros Hl; inversion Hl; subst; constructor; [by split|auto].
Qed.

Hypothesis Hs : sst_sorted (mjoin blocks).

Lemma built_get key ts : get_at r key ts None = (Ok (sst_newest key ts (mjoin blocks)), None).
Proof.
  unfold get_at. rewrite (ro_multi _ _ _ _ _ _ _ Hr).
  pose proof (table_get_spec _ _ r key ts _ blocks false built_indexes Hs) as Hg.
  destruct (r_bloom r) as [b|] eqn:E; [|exact Hg]. destruct (might_contain b key) eqn:Em; [exact Hg|]. cbn [negb].
  rewrite (proj2 (sst_newest_None key ts (mjoin blocks))); [done|]. intros y Hy [<- _].
  rewrite (ro_bloom _ _ _ _ _ _ _ Hr b (se_key y) E) in Em; [done|]. by apply list_elem_of_fmap_2.
Qed.

Lemma built_scan p ts : scan_prefix_at r p ts None = (Ok (sst_visible p ts None (mjoin blocks)), None).
Proof. unfold scan_prefix_at. by rewrite (table_scan_spec _ _ r p ts _ blocks _ built_indexes Hs). Qed.

Lemma built_entries : all_entries r None = (Ok (mjoin blocks), None).
Proof. unfold all_entries. by rewrite (entries_loop_spec _ _ r _ blocks [] built_indexes). Qed.

End Over.
End Built.
