(* ===== verification/SstTable.v ===== *)
(** The sorted-table format of [kaya-lsm/src/sstable.rs] as an instance of the
    engine's table interface, with its laws, and the instance without block
    compression on which the engine runs on concrete inputs. *)
From stdpp Require Import gmap.
From S2P Require Import Prelude Bytes Core Hlc OrdMap Path Disk WalCodec WalWriter InternalKey SstBlock SstIndex Sstable SstBuild SstSpec SstRead Memtable Manifest Compaction Engine EngineReads.

Open Scope N_scope.

(** The result of a read without a cache. *)
Definition uncached {A} (m : stm (option BlockCache) A) : result KayaError A := (m None).1.

Section Format.
Context (lz4_compress : bytes → bytes) (lz4_decompress : bytes → result string bytes).
Context (zstd_encode : bytes → option bytes) (zstd_decode : bytes → result string bytes).
Context (o : SstableBuildOptions).

Definition sst_format : SstFormat SstableReader := {|
  sst_build := build lz4_compress zstd_encode o;
  sst_open := open;
  decode_footer_seqs bs := f ← decode_footer bs; Ok (table_min_seq f, table_max_seq f);
  Engine.footer_stored_crc := SstIndex.footer_stored_crc;
  sst_all_entries r := uncached (all_entries lz4_decompress zstd_decode r);
  sst_get_at r k ts := uncached (Sstable.get_at lz4_decompress zstd_decode r k ts);
  sst_scan_prefix_at r p ts := uncached (Sstable.scan_prefix_at lz4_decompress zstd_decode r p ts)
|}.

Hypothesis bloom_small : bloom_bits_per_key o <= 16.
Hypothesis is_mvcc : mvcc o = true.
Hypothesis lz4_roundtrip : ∀ raw, lz4_decompress (lz4_compress raw) = Ok raw.
Hypothesis zstd_roundtrip : ∀ raw out, zstd_encode raw = Some out → zstd_decode out = Ok raw.

Lemma sst_laws : @SstLaws SstableReader sst_format.
Proof.
  intros es bs _ Hs Hf Hb.
  destruct (open_build _ _ _ _ o bloom_small is_mvcc lz4_roundtrip zstd_roundtrip es bs Hb Hf)
    as (blocks & r & Hr & <- & Hne & _ & Hover).
  exists r. split; [done|]. split; cbn; unfold uncached.
  - by rewrite (built_entries _ _ _ _ _ _ _ Hover Hne).
  - done.
  - intros k ts. by rewrite (built_get _ _ _ _ _ _ _ Hover Hne Hs).
  - intros p ts. by rewrite (built_scan _ _ _ _ _ _ _ Hover Hne Hs).
Qed.
End Format.

(** ** Tables without block compression *)

Definition stored_as_is (bs : bytes) : bytes := bs.
Definition read_as_is (bs : bytes) : result string bytes := Ok bs.

(** The defaults of the configuration, as the engine uses them. *)
Definition plain_options : SstableBuildOptions := mkBuildOptions 32768 10 false false false true.

#[export] Instance plain_format : SstFormat SstableReader :=
  sst_format stored_as_is read_as_is Some read_as_is plain_options.

#[export] Instance plain_laws : SstLaws SstableReader.
Proof. apply sst_laws; [done|done|done|]. by intros raw out [= ->]. Qed.

(** The reader over entries, through the bytes of their table. *)
Definition reader_of (es : list SstEntry) : result KayaError SstableReader := bs ← sst_build es; sst_open bs.

Lemma reader_of_holds es r :
  es ≠ [] → sst_sorted es → table_fits es → reader_of es = Ok r → holds r es.
Proof.
  unfold reader_of. intros Hne Hs Hf Hr. destruct (sst_build es) as [bs|e] eqn:Eb; [|done].
  destruct (sst_build_open es bs Hne Hs Hf Eb) as (t & Ht & Hh). cbn in Hr, Ht. rewrite Ht in Hr.
  by injection Hr as <-.
Qed.
