(* ===== verification/SstProps.v ===== *)
(** The correctness of sorted tables: round trip through the file, reads, the
    block cache, detection of a damaged block; and two gaps of the format. *)
From stdpp Require Import gmap.
From S2P Require Import Prelude Bytes Core OrdMap Path Disk InternalKey SstBlock SstIndex Sstable SstBuild SstSpec SstRead SstTable.

Open Scope N_scope.

Section Tables.
Context (lz4_compress : bytes → bytes) (lz4_decompress : bytes → result string bytes).
Context (zstd_encode : bytes → option bytes) (zstd_decode : bytes → result string bytes).

Lemma build_total o es : es ≠ [] → ∃ bs, build lz4_compress zstd_encode o es = Ok bs.
Proof.
  intros Hne. destruct (binv_build lz4_compress zstd_encode o es) as [blocks Hb]. unfold build, finish.
  rewrite (bi_total _ _ _ _ _ _ Hb). destruct (N.eqb_spec (lenN es) 0) as [E|E]; [by apply lenN_zero in E|].
  destruct (if 0 <? _ then _ else _) as [[[? ?] ?] ?]. by eexists.
Qed.

(** C9: A table built from sorted entries opens, whatever block compression and key
    compression it uses; reading it back gives the entries, a lookup gives the
    newest version of the key not after the timestamp, a scan the newest visible
    version of every key with the prefix; and no two index entries share an
    offset.  The codecs are required to undo themselves. *)
Theorem sst_reads_correct (o : SstableBuildOptions) (es : list SstEntry) :
  (∀ raw, lz4_decompress (lz4_compress raw) = Ok raw) →
  (∀ raw out, zstd_encode raw = Some out → zstd_decode out = Ok raw) →
  bloom_bits_per_key o <= 16 → mvcc o = true →
  es ≠ [] → sst_sorted es → table_fits es →
  ∃ bs r, build lz4_compress zstd_encode o es = Ok bs ∧ open bs = Ok r ∧
    uncached (all_entries lz4_decompress zstd_decode r) = Ok es ∧
    (∀ k ts, uncached (get_at lz4_decompress zstd_decode r k ts) = Ok (sst_newest k ts es)) ∧
    (∀ p ts, uncached (scan_prefix_at lz4_decompress zstd_decode r p ts) = Ok (sst_visible p ts None es)) ∧
    NoDup (block_offset <$> r_index r).
Proof.
  intros Hl Hz Hbl Hm Hne Hs Hf. destruct (build_total o es Hne) as [bs Hb].
  destruct (open_build _ _ _ _ o Hbl Hm Hl Hz es bs Hb Hf) as (blocks & r & Hr & <- & Hneb & _ & Hover).
  exists bs, r. unfold uncached. split_and!; [done|done|..].
  - by rewrite (built_entries _ _ _ _ _ _ _ Hover Hneb).
  - intros k ts. by rewrite (built_get _ _ _ _ _ _ _ Hover Hneb Hs).
  - intros p ts. by rewrite (built_scan _ _ _ _ _ _ _ Hover Hneb Hs).
  - by eapply built_offsets.
Qed.

(** The block cache changes no result: from a new cache of any capacity on,
    every lookup, scan and full read returns what it returns without a cache,
    errors included, and leaves a cache that is coherent with the file, names
    each cached block once in its recency list and stays within its capacity. *)
Theorem sst_cache_transparent (r : SstableReader) :
  NoDup (block_offset <$> r_index r) →
  (∀ n, coherent lz4_decompress zstd_decode r (cache_new n)) ∧
  (∀ k ts, transparent lz4_decompress zstd_decode r (get_at lz4_decompress zstd_decode r k ts)) ∧
  (∀ p ts, transparent lz4_decompress zstd_decode r (scan_prefix_at lz4_decompress zstd_decode r p ts)) ∧
  transparent lz4_decompress zstd_decode r (all_entries lz4_decompress zstd_decode r).
Proof.
  intros Hnd. split_and!.
  - intros n. split; [apply cache_new_ok|]. intros ie es _. cbn. by rewrite lookup_empty.
  - intros. by apply transparent_get_at.
  - intros. unfold scan_prefix_at. by apply transparent_scan_loop.
  - by apply transparent_all_entries.
Qed.

End Tables.

(** A data block decodes to its entries, in both layouts, and with any one byte
    changed it is rejected. *)
Theorem sst_block_checked (es : list SstEntry) (pc : bool) :
  es ≠ [] → Forall entry_fits es → block_size es pc < 2 ^ 32 →
  decode_data_block (encode_data_block es pc) = Ok es ∧
  ∀ i b b', encode_data_block es pc !! i = Some b → byte_ok b' → b ≠ b' →
    decode_data_block (<[i := b']> (encode_data_block es pc)) = Err (Corruption "SSTable data block CRC mismatch").
Proof.
  intros Hne Hf Hsz. split; [by apply decode_data_block_encode|].
  intros i b b' Hi Hb' Hbb. by eapply decode_data_block_corrupt.
Qed.

(** ** Witnesses *)

Definition demo_es : list SstEntry :=
  [mkSstEntry [97] (Some [1; 2]) 7; mkSstEntry [97] None 4; mkSstEntry [97; 98] (Some []) 9].

Lemma sst_reads_correct_witness :
  ∃ bs r, build stored_as_is Some plain_options demo_es = Ok bs ∧ open bs = Ok r ∧
    uncached (all_entries read_as_is read_as_is r) = Ok demo_es ∧
    (∀ k ts, uncached (get_at read_as_is read_as_is r k ts) = Ok (sst_newest k ts demo_es)) ∧
    (∀ p ts, uncached (scan_prefix_at read_as_is read_as_is r p ts) = Ok (sst_visible p ts None demo_es)) ∧
    NoDup (block_offset <$> r_index r).
Proof.
  apply (sst_reads_correct stored_as_is read_as_is Some read_as_is plain_options demo_es).
  - done.
  - by intros raw out [= ->].
  - done.
  - done.
  - done.
  - by repeat constructor.
  - by repeat constructor.
Defined.

Definition demo_reader : SstableReader :=
  match reader_of demo_es with Ok r => r | Err _ => mkReader [] (mkFooter 0 0 0 0 0 0 0 0 0 0) [] None end.

Lemma sst_cache_transparent_witness :
  (∀ n, coherent read_as_is read_as_is demo_reader (cache_new n)) ∧
  (∀ k ts, transparent read_as_is read_as_is demo_reader (get_at read_as_is read_as_is demo_reader k ts)) ∧
  (∀ p ts, transparent read_as_is read_as_is demo_reader (scan_prefix_at read_as_is read_as_is demo_reader p ts)) ∧
  transparent read_as_is read_as_is demo_reader (all_entries read_as_is read_as_is demo_reader).
Proof. apply (sst_cache_transparent read_as_is read_as_is demo_reader), (bool_decide_unpack _). by vm_compute. Defined.

Lemma sst_block_checked_witness :
  decode_data_block (encode_data_block demo_es true) = Ok demo_es ∧
  ∀ i b b', encode_data_block demo_es true !! i = Some b → byte_ok b' → b ≠ b' →
    decode_data_block (<[i := b']> (encode_data_block demo_es true)) = Err (Corruption "SSTable data block CRC mismatch").
Proof. apply (sst_block_checked demo_es true); [done|by repeat constructor|by vm_compute]. Defined.

(** ** Gaps *)

(** The layout of the footer is guessed from the two bytes where the longest
    layout has its length.  In a table with the 64-byte footer those bytes are
    the middle of the entry count: with 4718592 entries they read 72, the footer
    is taken for one of 72 bytes, and the table is rejected as corrupt. *)
Theorem sst_footer_misread :
  let table n := replicate 8 0 ++ encode_footer (mkFooter 1000 100 1 9 n SST_VERSION_V2 0 0 0 0) in
  decode_footer (table 4718592) = Err (Corruption "SSTable footer CRC mismatch") ∧
  decode_footer (table 4718591) = Ok (mkFooter 1000 100 1 9 4718591 SST_VERSION_V2 0 0 0 0).
Proof. split; by vm_compute. Qed.

(** The bytes of the demonstration table. *)
Definition demo_bytes : bytes :=
  match build stored_as_is Some plain_options demo_es with Ok bs => bs | Err _ => [] end.

(** What is read back from a file: the entries, and a lookup. *)
Definition demo_reads (bs : bytes) (k : bytes) : result KayaError (list SstEntry * option SstEntry) :=
  r ← open bs;
  es ← uncached (all_entries read_as_is read_as_is r);
  x ← uncached (get read_as_is read_as_is r k);
  Ok (es, x).

(** The filter block carries no checksum.  With one of its bytes lost the table
    opens, its entries are all read, and the lookup of a key that is there
    answers that it is not, without an error. *)
Theorem sst_filter_unchecked :
  ∃ i, demo_reads demo_bytes [97] = Ok (demo_es, Some (mkSstEntry [97] (Some [1; 2]) 7)) ∧
    demo_reads (<[i := 0]> demo_bytes) [97] = Ok (demo_es, None).
Proof.
  exists (length demo_bytes - 73)%nat. split; vm_compute; done.
Qed.
