(* ===== verification/EngineProps.v ===== *)
(** The engine's correctness: point reads and scans against the set of all
    versions, and that writes, flush and compaction change what is read only as
    they should; then runs in which they do not. *)
From stdpp Require Import gmap.
From S2P Require Import Prelude Bytes Core Hlc OrdMap Path Disk WalCodec WalWriter WalDurability InternalKey SstBlock SstSpec Memtable Manifest Compaction Engine EngineReads EngineScan EngineStore EngineCompact.

Open Scope N_scope.

(** ** Concrete runs *)

(** A new engine on an empty disk with the given compaction policy. *)
Definition fresh_engine (c : CompactionConfig) : Engine (list SstEntry) :=
  mkEngine LimitsConfig_default Strict 0 c (mkHlc 0 0) false 0
    (demo_writer (mkWalConfig 100000 1000 (mkWalBatchConfig 1 0 0)) SimDisk_new)
    Memtable_new 0 ManifestState_default 1 1 [] ∅ 0.

Inductive op : Type :=
| OPut (k v : bytes) | ODelete (k : bytes) | OFlush | OCompact | OWatermark (ts : N).

(** One operation; [false] when it does not succeed. *)
Definition run_op (o : op) (e : Engine (list SstEntry)) : bool * Engine (list SstEntry) :=
  match o with
  | OPut k v => match write_put k v None 0 0 0 e with (Ok (Some _), e) => (true, e) | (_, e) => (false, e) end
  | ODelete k => match write_delete k None 0 0 0 e with (Ok (Some _), e) => (true, e) | (_, e) => (false, e) end
  | OFlush => match flush e with (Ok _, e) => (true, e) | (_, e) => (false, e) end
  | OCompact => match compact e with (Ok _, e) => (true, e) | (_, e) => (false, e) end
  | OWatermark ts => (true, set_gc_watermark ts e)
  end.

Definition run_ops (os : list op) (e : Engine (list SstEntry)) : bool * Engine (list SstEntry) :=
  foldl (λ '(b, e) o, let '(b', e) := run_op o e in (b && b', e)) (true, e) os.

Definition leveled_at_two : CompactionConfig :=
  mkCompactionConfig Leveled (mkLeveledConfig 7 2) SizeTieredCompactionConfig_default.

Definition run_key : bytes := [107].
Definition run_other : bytes := [111].
Definition two_tables (v : bytes) : list op := [OPut run_key v; OFlush; OPut run_other v; OFlush; OCompact].

(** Two tables and a memtable. *)
Definition demo_engine : Engine (list SstEntry) :=
  (run_ops [OPut run_key [1]; OFlush; OPut run_key [2]; OPut run_other [3]; OFlush; OPut run_key [4]]
     (fresh_engine (mkCompactionConfig L0Merge LeveledCompactionConfig_default SizeTieredCompactionConfig_default))).2.

Definition demo_tables : list (list SstEntry) :=
  [[mkSstEntry run_key (Some [2]) 2; mkSstEntry run_other (Some [3]) 3]; [mkSstEntry run_key (Some [1]) 1]].

Lemma demo_memtable : memtable demo_engine = mt_put run_key [4] 4 Memtable_new.
Proof. by vm_compute. Qed.

Lemma demo_live : snd <$> live_sstables demo_engine = demo_tables.
Proof. by vm_compute. Qed.

Lemma demo_tables_ok : tables_ok demo_engine demo_tables.
Proof.
  split; [rewrite demo_memtable; by apply mt_write_ok, eq_refl; apply mt_new_ok|].
  apply Forall2_fmap_l with (f := snd) (P := λ t es, holds t es). rewrite demo_live.
  repeat constructor; apply box_holds; repeat constructor.
Qed.

Lemma demo_sources : sources demo_engine demo_tables = [mkSstEntry run_key (Some [4]) 4] :: demo_tables.
Proof. unfold sources. by rewrite demo_memtable. Qed.

(** A source all of whose versions are newer. *)
Lemma dominates_newer a b :
  Forall (λ x, Forall (λ y, se_key x = se_key y → se_sequence y <= se_sequence x) b) a → dominates a b.
Proof.
  intros Ha x y Hx Hy Hk Hs. rewrite Forall_forall in Ha. specialize (Ha x Hx). rewrite Forall_forall in Ha.
  specialize (Ha y Hy Hk). lia.
Qed.

Lemma demo_layered : layered (sources demo_engine demo_tables).
Proof.
  rewrite demo_sources. cbn [layered demo_tables]. split_and!; [..|done].
  all: repeat (constructor; [apply dominates_newer, (bool_decide_unpack _); by vm_compute|]); constructor.
Qed.

Lemma demo_consistent : consistent (mjoin (sources demo_engine demo_tables)).
Proof.
  rewrite demo_sources. intros x y Hx Hy Hk Hs.
  repeat (apply elem_of_cons in Hx as [->|Hx]; [repeat (apply elem_of_cons in Hy as [->|Hy]; [done|])|]);
    by (apply elem_of_nil in Hx || apply elem_of_nil in Hy).
Qed.

(** ** Properties *)

Section Properties.
Context {T : Type} `{SstLaws T}.

Lemma l0_takes_all (e : Engine T) :
  policy (compaction e) = L0Merge → pinned_ids e = ∅ →
  (∀ x, x ∈ live_sstables e → table_id x.1 ∈ table_id <$> live_tables (manifest_state e)) → takes_all e.
Proof.
  intros Hp Hpin Hids c Hc. unfold compaction_policy_from_config in Hc. rewrite Hp, Hpin in Hc.
  cbn [pick_compaction] in Hc. unfold l0_pick in Hc. case_match; [done|]. simplify_eq. cbn [input_table_ids].
  apply Forall_forall. intros x Hx. apply Hids, list_elem_of_fmap in Hx as (t & Ht & Hin). rewrite Ht.
  apply list_elem_of_fmap_2, list_elem_of_filter. split; [|done]. unfold unpinned.
  by rewrite bool_decide_eq_false_2 by apply not_elem_of_empty.
Qed.

Lemma layered_consistent_tables (e : Engine T) ess :
  layered (sources e ess) → consistent (mjoin (sources e ess)) → layered ess ∧ consistent (mjoin ess).
Proof.
  intros [_ Hl] Hc. split; [done|]. intros x y Hx Hy.
  apply Hc; unfold sources; cbn [mjoin list_join]; apply elem_of_app; by right.
Qed.

(** C6: A point read at [ts], over memtable and tables consulted in order,
    returns the value of the newest version of the key not after [ts] among all
    versions the engine holds: no value exactly when there is no such version or
    it is a tombstone.  It needs the sources to be layered: a version in a later
    source that is newer than one of the same key in an earlier source is in the
    earlier one too. *)
Theorem engine_read_newest (e : Engine T) (ess : list (list SstEntry)) (k : bytes) (at_ : ReadTimestamp) :
  tables_ok e ess → layered (sources e ess) →
  ∃ v, get_inner k at_ e = Ok v ∧
    ((∃ x, is_latest (mjoin (sources e ess)) k (as_u64 at_) x ∧ v = se_value x) ∨
     (v = None ∧ ∀ y, y ∈ mjoin (sources e ess) → ¬ version_of k (as_u64 at_) y)).
Proof.
  intros Hok Hl. eexists. split; [by apply get_inner_first_hit|].
  pose proof (first_hit_latest k (as_u64 at_) _ (tables_ok_sorted e ess Hok) Hl) as Hh.
  destruct (first_hit _ _ _) as [x|]; [left; by exists x|by right].
Qed.

(** A prefix scan agrees with point reads.  There is a map from the keys
    with the prefix to their newest visible version such that its live pairs are
    exactly the pairs a point read returns, the scan's answer is a prefix of
    them in key order, computed from the [max_scan_results] smallest keys, and
    it is all of them when neither that bound, the result limit nor the byte
    limit cuts it. *)
Theorem engine_scan_reads (e : Engine T) (ess : list (list SstEntry)) (p : bytes) (opts : ScanOptions) :
  tables_ok e ess → layered (sources e ess) → consistent (mjoin (sources e ess)) →
  seqs_fit (mem_versions (memtable e)) → validate_scan_prefix p e = Ok tt →
  let max := max_scan_results (limits e) in
  let limit := match scan_limit opts with Some l => N.min l max | None => max end in
  ∃ m out, scan_prefix_inner p opts e = Ok out ∧ om_sorted (live_pairs m) ∧
    (∀ k v, (k, v) ∈ live_pairs m ↔ starts_with p k = true ∧ get_inner k (scan_read_at opts) e = Ok (Some v)) ∧
    out `prefix_of` live_pairs (take (N.to_nat max) m) ∧ out `prefix_of` live_pairs m ∧
    (lenN m <= max → lenN (live_pairs m) <= limit → pairs_bytes (live_pairs m) <= max_scan_bytes (limits e) →
     out = live_pairs m).
Proof.
  intros Hok Hl Hc Hf Hv max limit.
  set (m := foldl merge_full [] (scanned p (as_u64 (scan_read_at opts)) (memtable e) ess)).
  assert (om_sorted m) as Hs by apply foldl_merge_sorted, om_sorted_nil.
  exists m. eexists. split; [by apply scan_prefix_inner_eq|]. fold max limit m.
  split_and!; [by apply live_pairs_sorted| |apply scan_out_prefix| |].
  - intros k v. rewrite live_pairs_elem by done. unfold m.
    rewrite (scan_map_get p _ (scan_read_at opts) e ess k) by done.
    rewrite (get_inner_first_hit _ _ _ _ Hok). destruct (starts_with p k); [|by split; [|intros [? _]]].
    split; [by intros ->|]. intros [_ Hg]. by apply Ok_inj in Hg.
  - etrans; [apply scan_out_prefix|apply live_pairs_take_prefix].
  - intros Hm Hn Hb. rewrite take_ge by (unfold lenN in Hm; lia). apply scan_out_all; lia.
Qed.

(** A flush changes no read, at any timestamp, whether it succeeds or a disk
    operation of it fails; and it keeps the sources layered. *)
Theorem engine_flush_reads (e : Engine T) (ess : list (list SstEntry)) (k : bytes) (at_ : ReadTimestamp) :
  tables_ok e ess → layered (sources e ess) → table_fits (mem_versions (memtable e)) →
  get_inner k at_ (flush e).2 = get_inner k at_ e ∧
  ∃ ess', tables_ok (flush e).2 ess' ∧ layered (sources (flush e).2 ess') ∧
    ∀ y, y ∈ mjoin (sources (flush e).2 ess') ↔ y ∈ mjoin (sources e ess).
Proof.
  intros Hok Hl Hf. split; [by eapply flush_get|].
  destruct (flush_keeps e ess Hok Hf) as (ess' & Hok' & Hs). exists ess'. split; [done|].
  destruct Hs as [->| ->]; [done|]. split; [by apply layered_nil_source|done].
Qed.

(** What every reader sees after a put or a delete returned, the automatic
    flush included: a reader of the key at or after the write's sequence, and
    with no newer version in the memtable, reads the value written (or none);
    every other read is unchanged.  The sources stay layered when the tables
    hold no newer version of the key. *)
Theorem engine_write_reads (e e' : Engine T) (ess : list (list SstEntry)) (key k : bytes) (v : option bytes)
    (mode : option DurabilityMode) (now_ms now fsync_us : N) (r : WriteResult) (at_ : ReadTimestamp) :
  tables_ok e ess → table_fits (mkSstEntry key v (wr_sequence r) :: mem_versions (memtable e)) →
  engine_write key v mode now_ms now fsync_us e = (Ok (Some r), e') →
  get_inner k at_ e' =
    (if bool_decide (k = key) && (wr_sequence r <=? as_u64 at_)
        && negb (superseded key (wr_sequence r) (as_u64 at_) (memtable e))
     then Ok v else get_inner k at_ e) ∧
  ((∀ y, y ∈ mjoin ess → se_key y = key → se_sequence y <= wr_sequence r) → layered (sources e ess) →
   ∃ ess', tables_ok e' ess' ∧ layered (sources e' ess')).
Proof.
  intros Hok Hf Hw.
  assert (∃ e1, written key v (wr_sequence r) e e1 ∧ e' = (maybe_auto_flush e1).2) as (e1 & Hwr & ->).
  { destruct v; [by apply write_put_Ok in Hw as (_ & _ & ?)|by apply write_delete_Ok in Hw as (_ & ?)]. }
  by apply written_get.
Qed.

(** C10: compaction under the default policy, with no table pinned by a snapshot,
    changes no read of the latest state, whether or not it succeeds, and no read
    at all while the watermark for garbage collection is 0. *)
Theorem engine_compact_reads (e : Engine T) (ess : list (list SstEntry)) (k : bytes) (at_ : ReadTimestamp) :
  tables_ok e ess → layered (sources e ess) → consistent (mjoin (sources e ess)) →
  table_fits (mjoin ess) →
  policy (compaction e) = L0Merge → pinned_ids e = ∅ →
  (∀ x, x ∈ live_sstables e → table_id x.1 ∈ table_id <$> live_tables (manifest_state e)) →
  (at_ = Latest ∧ gc_watermark e <= u64_max) ∨ gc_watermark e = 0 →
  get_inner k at_ (compact e).2 = get_inner k at_ e.
Proof.
  intros Hok Hl Hc Hf Hp Hpin Hids Hw. pose proof (l0_takes_all e Hp Hpin Hids) as Ha.
  destruct (layered_consistent_tables e ess Hl Hc) as [Hlt Hct].
  destruct (compact_tables e ess Hok Hf Ha) as (ess' & Hok' & Hm & Hess).
  rewrite (get_inner_first_hit _ _ _ _ Hok), (get_inner_first_hit _ _ _ _ Hok').
  unfold sources. cbn [first_hit]. rewrite Hm. f_equal. destruct (sst_newest _ _ _); [done|].
  destruct Hess as [->| ->]; [done|].
  rewrite <-(compacted_value k (as_u64 at_) (gc_watermark e) ess); [|exact (Forall_inv_tail (tables_ok_sorted e ess Hok))|done|done|..].
  - destruct (compacted_entries _ _) as [|x es]; [done|]. change (option_list (Some (x :: es))) with [x :: es]. cbn [first_hit]. by destruct (sst_newest k (as_u64 at_) (x :: es)).
  - destruct Hw as [[-> ?]| ->]; [done|apply N.le_0_l].
  - destruct Hw as [[-> _]| ?]; [left|by right]. eapply Forall_impl; [exact (tf_entries _ Hf)|]. intros x Hx.
    pose proof (ef_seq x Hx). cbn. unfold u64_max. lia.
Qed.

End Properties.

(** ** Witnesses *)

Lemma demo_mem_fits : table_fits (mem_versions (memtable demo_engine)).
Proof. rewrite demo_memtable. by repeat constructor. Qed.

Lemma engine_read_newest_witness :
  ∃ v, get_inner run_key (At 2) demo_engine = Ok v ∧
    ((∃ x, is_latest (mjoin (sources demo_engine demo_tables)) run_key 2 x ∧ v = se_value x) ∨
     (v = None ∧ ∀ y, y ∈ mjoin (sources demo_engine demo_tables) → ¬ version_of run_key 2 y)).
Proof. apply (engine_read_newest demo_engine demo_tables run_key (At 2) demo_tables_ok demo_layered). Defined.

Lemma engine_scan_reads_witness :
  let max := max_scan_results (limits demo_engine) in
  ∃ m out, scan_prefix_inner [] (mkScanOptions None Latest) demo_engine = Ok out ∧ om_sorted (live_pairs m) ∧
    (∀ k v, (k, v) ∈ live_pairs m ↔ starts_with [] k = true ∧ get_inner k Latest demo_engine = Ok (Some v)) ∧
    out `prefix_of` live_pairs (take (N.to_nat max) m) ∧ out `prefix_of` live_pairs m ∧
    (lenN m <= max → lenN (live_pairs m) <= max →
     pairs_bytes (live_pairs m) <= max_scan_bytes (limits demo_engine) → out = live_pairs m).
Proof.
  refine (engine_scan_reads demo_engine demo_tables [] (mkScanOptions None Latest) demo_tables_ok demo_layered
    demo_consistent _ _).
  - rewrite demo_memtable. by repeat constructor.
  - by vm_compute.
Defined.

Lemma engine_flush_reads_witness :
  get_inner run_key (At 2) (flush demo_engine).2 = get_inner run_key (At 2) demo_engine ∧
  ∃ ess', tables_ok (flush demo_engine).2 ess' ∧ layered (sources (flush demo_engine).2 ess') ∧
    ∀ y, y ∈ mjoin (sources (flush demo_engine).2 ess') ↔ y ∈ mjoin (sources demo_engine demo_tables).
Proof. apply (engine_flush_reads demo_engine demo_tables run_key (At 2) demo_tables_ok demo_layered demo_mem_fits). Defined.

Definition demo_put := engine_write run_other (Some [9]) None 0 0 0 demo_engine.

Lemma engine_write_reads_witness :
  get_inner run_other Latest demo_put.2 =
    (if bool_decide (run_other = run_other) && (5 <=? u64_max) &&
        negb (superseded run_other 5 u64_max (memtable demo_engine))
     then Ok (Some [9]) else get_inner run_other Latest demo_engine) ∧
  ((∀ y, y ∈ mjoin demo_tables → se_key y = run_other → se_sequence y <= 5) →
   layered (sources demo_engine demo_tables) →
   ∃ ess', tables_ok demo_put.2 ess' ∧ layered (sources demo_put.2 ess')).
Proof.
  refine (engine_write_reads demo_engine demo_put.2 demo_tables run_other run_other (Some [9]) None 0 0 0
    (mkWriteResult 5 5 true) Latest demo_tables_ok _ _).
  - rewrite demo_memtable. by repeat constructor.
  - by vm_compute.
Defined.

Lemma engine_compact_reads_witness :
  get_inner run_key Latest (compact demo_engine).2 = get_inner run_key Latest demo_engine.
Proof.
  apply (engine_compact_reads demo_engine demo_tables run_key Latest demo_tables_ok demo_layered demo_consistent).
  - by repeat constructor.
  - by vm_compute.
  - by vm_compute.
  - intros x Hx. assert (table_id x.1 ∈ (λ x, table_id x.1) <$> live_sstables demo_engine) as Hin
      by (by apply (list_elem_of_fmap_2 (λ x, table_id x.1))).
    assert ((λ x, table_id x.1) <$> live_sstables demo_engine = [2; 1]) as E by (by vm_compute).
    assert (table_id <$> live_tables (manifest_state demo_engine) = [1; 2]) as -> by (by vm_compute).
    rewrite E in Hin. revert Hin. generalize (table_id x.1). intros n. rewrite !elem_of_cons. tauto.
  - left. split; [done|]. by vm_compute.
Defined.

(** ** Runs that read wrongly *)

(** Two L0 tables of the leveled policy become an L1 table, twice; then the
    two L1 tables are merged while a newer L0 table exists. *)
Definition stale_run : list op :=
  two_tables [1] ++ two_tables [2] ++ [OPut run_key [3]; OFlush].

(** Under leveled compaction a point read returns an overwritten value: the
    output of merging two L1 tables has the highest table id, so it is consulted
    before a newer L0 table.  After the compaction the last put of 3 is read back
    as 2, while a scan still finds 3. *)
Theorem engine_leveled_stale_read :
  let e := (run_ops stale_run (fresh_engine leveled_at_two)).2 in
  let e' := (run_ops (stale_run ++ [OCompact]) (fresh_engine leveled_at_two)).2 in
  (run_ops (stale_run ++ [OCompact]) (fresh_engine leveled_at_two)).1 = true ∧
  get_inner run_key Latest e = Ok (Some [3]) ∧ get_inner run_key Latest e' = Ok (Some [2]) ∧
  scan_prefix_inner run_key (mkScanOptions None Latest) e' = Ok [(run_key, [3])].
Proof. by vm_compute. Qed.

(** A key is written and compacted to L1, then deleted. *)
Definition ghost_run : list op :=
  two_tables [1] ++ [ODelete run_key; OFlush; OPut run_other [1]; OFlush].

(** Under leveled compaction a deleted key comes back: a tombstone below the
    watermark is dropped when the L0 tables are compacted, although an L1 table
    that takes no part still holds the value it hides. *)
Theorem engine_tombstone_resurrects :
  let e := (run_ops ghost_run (fresh_engine leveled_at_two)).2 in
  let e' := (run_ops (ghost_run ++ [OWatermark 10; OCompact]) (fresh_engine leveled_at_two)).2 in
  (run_ops (ghost_run ++ [OWatermark 10; OCompact]) (fresh_engine leveled_at_two)).1 = true ∧
  get_inner run_key Latest e = Ok None ∧ get_inner run_key Latest e' = Ok (Some [1]).
Proof. by vm_compute. Qed.
