(* ===== verification/RaftLog.v ===== *)
(** [kaya-raft/src/log.rs]: the in-memory Raft log with its compacted prefix.
    Terms, log indices and node ids ([kaya-raft/src/types.rs]) are [N]; indices
    are assumed to stay below 2^64. *)
From S2P Require Import Prelude Bytes.

Open Scope N_scope.

Record LogEntry := mkEntry { e_term : N; command : bytes }.

#[export] Instance LogEntry_eq_dec : EqDecision LogEntry.
Proof. solve_decision. Defined.

Record MemLog := mkMemLog {
  entries : list LogEntry;
  last_included_index : N;
  last_included_term : N;
  snapshot_data : option bytes
}.

#[export] Instance MemLog_eq_dec : EqDecision MemLog.
Proof. solve_decision. Defined.

Definition MemLog_new : MemLog := mkMemLog [] 0 0 None.

Definition last_index (l : MemLog) : N :=
  match entries l with
  | [] => last_included_index l
  | _ => last_included_index l + lenN (entries l)
  end.

Definition last_term (l : MemLog) : N :=
  match last (entries l) with Some e => e_term e | None => last_included_term l end.

Definition offset_of (l : MemLog) (index : N) : nat := N.to_nat (index - last_included_index l - 1).

Definition term_at (l : MemLog) (index : N) : option N :=
  if index =? 0 then Some 0
  else if index <=? last_included_index l then Some (last_included_term l)
  else e_term <$> entries l !! offset_of l index.

Definition log_get (l : MemLog) (index : N) : option LogEntry :=
  if (index =? 0) || (index <=? last_included_index l) then None
  else entries l !! offset_of l index.

Definition with_entries (es : list LogEntry) (l : MemLog) : MemLog :=
  mkMemLog es (last_included_index l) (last_included_term l) (snapshot_data l).

Definition log_append (e : LogEntry) (l : MemLog) : MemLog := with_entries (entries l ++ [e]) l.

Definition truncate_from (from : N) (l : MemLog) : MemLog :=
  if from =? 0 then with_entries [] l
  else if from <=? last_included_index l then with_entries [] l
  else with_entries (take (offset_of l from) (entries l)) l.

Definition entries_from (l : MemLog) (from : N) : list LogEntry :=
  if (from =? 0) || (from <=? last_included_index l) then [] else drop (offset_of l from) (entries l).

(** The [else] branch of the source, which clears the entries, is unreachable:
    the guard above it makes [first_to_keep > current_logical_first]. *)
Definition install_snapshot (up_to_index up_to_term : N) (data : bytes) (l : MemLog) : MemLog :=
  if up_to_index <=? last_included_index l then l
  else
    let first_to_keep := up_to_index + 1 in
    let current_logical_first := last_included_index l + 1 in
    let kept :=
      if current_logical_first <? first_to_keep
      then drop (N.to_nat (first_to_keep - current_logical_first)) (entries l) else [] in
    mkMemLog kept up_to_index up_to_term (Some data).

Definition log_snapshot (l : MemLog) : option (N * N * bytes) :=
  (λ d, (last_included_index l, last_included_term l, d)) <$> snapshot_data l.

Definition clear_snapshot (l : MemLog) : MemLog :=
  mkMemLog (entries l) (last_included_index l) (last_included_term l) None.

(** ** Lemmas *)

Lemma last_index_eq l : last_index l = last_included_index l + lenN (entries l).
Proof. unfold last_index. destruct (entries l); [unfold lenN; cbn; lia|done]. Qed.

Lemma log_get_Some l i e :
  log_get l i = Some e ↔ last_included_index l < i ∧ entries l !! offset_of l i = Some e.
Proof.
  unfold log_get. destruct (N.eqb_spec i 0) as [->|]; cbn [orb].
  - split; [done|lia].
  - destruct (N.leb_spec i (last_included_index l)); split; [done|lia|auto|by intros [_ ?]].
Qed.

Lemma log_get_bound l i e : log_get l i = Some e → last_included_index l < i <= last_index l.
Proof.
  intros [Hi He]%log_get_Some. apply lookup_lt_Some in He. rewrite last_index_eq.
  unfold offset_of, lenN in *. lia.
Qed.

Lemma log_get_inside l i : last_included_index l < i <= last_index l → is_Some (log_get l i).
Proof.
  intros [H1 H2]. rewrite last_index_eq in H2. unfold log_get, lenN in *.
  destruct (N.eqb_spec i 0); [lia|]. destruct (N.leb_spec i (last_included_index l)); [lia|]. cbn.
  apply lookup_lt_is_Some. unfold offset_of. lia.
Qed.

Lemma term_at_get l i e : log_get l i = Some e → term_at l i = Some (e_term e).
Proof.
  intros [Hi He]%log_get_Some. unfold term_at. destruct (N.eqb_spec i 0); [lia|].
  destruct (N.leb_spec i (last_included_index l)); [lia|]. by rewrite He.
Qed.

Lemma last_index_append e l : last_index (log_append e l) = last_index l + 1.
Proof. rewrite !last_index_eq. cbn. rewrite lenN_app. unfold lenN. cbn. lia. Qed.

Lemma log_get_append e l i :
  log_get (log_append e l) i = if i =? last_index l + 1 then Some e else log_get l i.
Proof.
  unfold log_get, offset_of. cbn. rewrite last_index_eq. unfold lenN.
  destruct (N.eqb_spec i 0); cbn [orb].
  - destruct (N.eqb_spec i (last_included_index l + N.of_nat (length (entries l)) + 1)); [lia|done].
  - destruct (N.leb_spec i (last_included_index l)).
    + destruct (N.eqb_spec i (last_included_index l + N.of_nat (length (entries l)) + 1)); [lia|done].
    + destruct (N.eqb_spec i (last_included_index l + N.of_nat (length (entries l)) + 1)) as [->|Hne].
      * replace (N.to_nat _) with (length (entries l)) by lia. by rewrite list_lookup_middle.
      * set (o := N.to_nat _). destruct (decide (o < length (entries l))%nat).
        -- by rewrite lookup_app_l.
        -- rewrite !lookup_ge_None_2; [done|lia|]. rewrite length_app. cbn. lia.
Qed.

Lemma log_get_truncate from l i :
  last_included_index l < from →
  log_get (truncate_from from l) i = if i <? from then log_get l i else None.
Proof.
  intros Hf. unfold truncate_from. destruct (N.eqb_spec from 0); [lia|].
  destruct (N.leb_spec from (last_included_index l)); [lia|].
  unfold log_get, offset_of. cbn. destruct (N.eqb_spec i 0); cbn [orb]; [by case_match|].
  destruct (N.leb_spec i (last_included_index l)); [by case_match|].
  destruct (N.ltb_spec i from).
  - rewrite lookup_take_lt; [done|lia].
  - apply lookup_take_ge. lia.
Qed.

Lemma log_get_install up term data l i :
  last_included_index l < up →
  log_get (install_snapshot up term data l) i = if i <=? up then None else log_get l i.
Proof.
  intros Hu. unfold install_snapshot. destruct (N.leb_spec up (last_included_index l)); [lia|].
  destruct (N.ltb_spec (last_included_index l + 1) (up + 1)); [|lia].
  unfold log_get, offset_of. cbn. destruct (N.eqb_spec i 0); cbn [orb]; [by case_match|].
  destruct (N.leb_spec i up); [done|]. destruct (N.leb_spec i (last_included_index l)); [lia|].
  rewrite lookup_drop. f_equal. lia.
Qed.

(** ** Properties *)

(** The log operations read through the compaction boundary: appending adds
    exactly the next index, truncating removes exactly the indices from the
    cut on, and installing a snapshot hides exactly the covered prefix and
    keeps every later entry under its logical index. *)
Theorem raft_log_operations (l : MemLog) (e : LogEntry) (from up term : N) (data : bytes) (i : N) :
  last_included_index l < from → last_included_index l < up →
  (log_get (log_append e l) i = if i =? last_index l + 1 then Some e else log_get l i) ∧
  (log_get (truncate_from from l) i = if i <? from then log_get l i else None) ∧
  (log_get (install_snapshot up term data l) i = if i <=? up then None else log_get l i) ∧
  (is_Some (log_get l i) ↔ last_included_index l < i <= last_index l).
Proof.
  intros Hf Hu. split_and!; [apply log_get_append|by apply log_get_truncate|by apply log_get_install|].
  split; [intros [x Hx]; by eapply log_get_bound|apply log_get_inside].
Qed.

Lemma raft_log_operations_witness :
  let l := mkMemLog [mkEntry 2 [1]; mkEntry 2 [2]; mkEntry 3 []] 4 1 None in
  (log_get (log_append (mkEntry 3 [9]) l) 8 =
     if 8 =? last_index l + 1 then Some (mkEntry 3 [9]) else log_get l 8) ∧
  (log_get (truncate_from 6 l) 8 = if 8 <? 6 then log_get l 8 else None) ∧
  (log_get (install_snapshot 5 2 [7] l) 8 = if 8 <=? 5 then None else log_get l 8) ∧
  (is_Some (log_get l 8) ↔ last_included_index l < 8 <= last_index l).
Proof.
  apply (raft_log_operations (mkMemLog [mkEntry 2 [1]; mkEntry 2 [2]; mkEntry 3 []] 4 1 None));
    by vm_compute.
Defined.
