(* ===== verification/RaftConfig.v ===== *)
(** [kaya-raft/src/cluster_config.rs]: voter sets, the joint-consensus
    configuration and its quorums.  A [BTreeSet<NodeId>] is a [gset N]; where the
    source iterates over one, [set_list] gives its ascending order. *)
From stdpp Require Import gmap sorting.
From S2P Require Import Prelude.

Open Scope N_scope.

(** The elements of a set in ascending order. *)
Definition set_list (s : gset N) : list N := merge_sort N.le (elements s).

Record ClusterConfiguration := mkConfig { voters : gset N }.

#[export] Instance ClusterConfiguration_eq_dec : EqDecision ClusterConfiguration.
Proof. solve_decision. Defined.

Definition from_voters (ids : list N) : ClusterConfiguration := mkConfig (list_to_set ids).

(** [usize::div_ceil(2)]. *)
Definition div_ceil2 (n : nat) : nat := ((n + 1) / 2)%nat.

Definition quorum (c : ClusterConfiguration) : nat := div_ceil2 (size (voters c)).

Definition peers_of (self_id : N) (c : ClusterConfiguration) : list N :=
  filter (λ i, i ≠ self_id) (set_list (voters c)).

Inductive EffectiveConfig : Type :=
| Stable (c : ClusterConfiguration)
| JointConfig (outgoing incoming : ClusterConfiguration).

#[export] Instance EffectiveConfig_eq_dec : EqDecision EffectiveConfig.
Proof. solve_decision. Defined.

(** [EffectiveConfig::stable]. *)
Definition stable (vs : gset N) : EffectiveConfig := Stable (mkConfig vs).

Definition stable_config (e : EffectiveConfig) : ClusterConfiguration :=
  match e with Stable c => c | JointConfig _ incoming => incoming end.

Definition all_voters (e : EffectiveConfig) : gset N :=
  match e with
  | Stable c => voters c
  | JointConfig outgoing incoming => voters outgoing ∪ voters incoming
  end.

(** How many voters of [c] satisfy the predicate. *)
Definition count_met (match_counts : N → bool) (c : ClusterConfiguration) : nat :=
  length (filter (λ i, match_counts i = true) (set_list (voters c))).

Definition commit_quorum_met (match_counts : N → bool) (e : EffectiveConfig) : bool :=
  match e with
  | Stable c => (quorum c <=? count_met match_counts c)%nat
  | JointConfig outgoing incoming =>
      (quorum outgoing <=? count_met match_counts outgoing)%nat &&
      (quorum incoming <=? count_met match_counts incoming)%nat
  end.

Definition election_quorum (e : EffectiveConfig) : nat :=
  match e with
  | Stable c => quorum c
  | JointConfig outgoing incoming =>
      div_ceil2 (Nat.max (size (voters outgoing)) (size (voters incoming)))
  end.

(** ** Lemmas *)

Lemma set_list_perm s : set_list s ≡ₚ elements s.
Proof. apply merge_sort_Permutation. Qed.

Lemma elem_of_set_list i s : i ∈ set_list s ↔ i ∈ s.
Proof. rewrite set_list_perm. apply elem_of_elements. Qed.

Lemma NoDup_set_list s : NoDup (set_list s).
Proof. rewrite set_list_perm. apply NoDup_elements. Qed.

Lemma length_set_list s : length (set_list s) = size s.
Proof. by rewrite set_list_perm. Qed.

Lemma div_ceil2_odd n : Nat.odd n = true → (n < 2 * div_ceil2 n)%nat.
Proof.
  intros [k ->]%Nat.odd_spec. unfold div_ceil2.
  replace (2 * k + 1 + 1)%nat with ((k + 1) * 2)%nat by lia. rewrite Nat.div_mul; lia.
Qed.

Lemma div_ceil2_even k : div_ceil2 (2 * k) = k.
Proof. unfold div_ceil2. rewrite Nat.mul_comm, Nat.div_add_l by lia. cbn. lia. Qed.

(** The voters counted by [count_met] as a set. *)
Lemma count_met_set f c :
  ∃ Q : gset N, Q ⊆ voters c ∧ size Q = count_met f c ∧ ∀ i, i ∈ Q → f i = true.
Proof.
  set (l := filter (λ i, f i = true) (set_list (voters c))).
  exists (list_to_set l). split_and!.
  - intros i Hi%elem_of_list_to_set. apply list_elem_of_filter in Hi as [_ Hi].
    by apply elem_of_set_list in Hi.
  - rewrite size_list_to_set; [done|]. apply NoDup_filter, NoDup_set_list.
  - intros i Hi%elem_of_list_to_set. by apply list_elem_of_filter in Hi as [? _].
Qed.

Lemma majorities_meet (V A B : gset N) :
  A ⊆ V → B ⊆ V → (size V < size A + size B)%nat → ∃ i, i ∈ A ∧ i ∈ B.
Proof.
  intros HA HB Hs. destruct (set_choose_or_empty (A ∩ B)) as [[i Hi]|He].
  - exists i. set_solver.
  - exfalso. assert (size (A ∪ B) = size A + size B)%nat by (apply size_union; set_solver).
    assert (size (A ∪ B) ≤ size V)%nat by (apply subseteq_size; set_solver). lia.
Qed.

(** Two election quorums of an odd voter set share a voter. *)
Lemma odd_quorums_meet (c : ClusterConfiguration) (A B : gset N) :
  Nat.odd (size (voters c)) = true → A ⊆ voters c → B ⊆ voters c →
  (quorum c ≤ size A)%nat → (quorum c ≤ size B)%nat → ∃ i, i ∈ A ∧ i ∈ B.
Proof.
  intros Ho%div_ceil2_odd HA HB QA QB. apply (majorities_meet (voters c)); [done..|].
  unfold quorum in *. lia.
Qed.

(** ** Properties *)

(** When the outgoing and the incoming voter sets have odd sizes, any two
    commit decisions share a voter in both sets: an index committed in the
    outgoing configuration, in the joint one and in the incoming one was
    acknowledged by a common member each time. *)
Theorem joint_quorums_intersect (outgoing incoming : ClusterConfiguration) (f g : N → bool) :
  Nat.odd (size (voters outgoing)) = true → Nat.odd (size (voters incoming)) = true →
  commit_quorum_met f (JointConfig outgoing incoming) = true →
  (commit_quorum_met g (Stable outgoing) = true →
     ∃ i, i ∈ voters outgoing ∧ f i = true ∧ g i = true) ∧
  (commit_quorum_met g (Stable incoming) = true →
     ∃ i, i ∈ voters incoming ∧ f i = true ∧ g i = true).
Proof.
  intros Ho Hi [Hf1 Hf2]%andb_prop. cbn [commit_quorum_met] in *.
  split; intros Hg; apply Nat.leb_le in Hf1, Hf2, Hg.
  - destruct (count_met_set f outgoing) as (A & HA & SA & FA).
    destruct (count_met_set g outgoing) as (B & HB & SB & FB).
    destruct (odd_quorums_meet outgoing A B) as (i & ? & ?); [done..|lia|lia|].
    exists i. set_solver.
  - destruct (count_met_set f incoming) as (A & HA & SA & FA).
    destruct (count_met_set g incoming) as (B & HB & SB & FB).
    destruct (odd_quorums_meet incoming A B) as (i & ? & ?); [done..|lia|lia|].
    exists i. set_solver.
Qed.

Lemma joint_quorums_intersect_witness :
  let old := from_voters [1; 2; 3] in let new := from_voters [2; 3; 4] in
  (commit_quorum_met (λ i, i =? 3) (Stable old) = true →
     ∃ i, i ∈ voters old ∧ negb (i =? 1) = true ∧ (i =? 3) = true) ∧
  (commit_quorum_met (λ i, i =? 3) (Stable new) = true →
     ∃ i, i ∈ voters new ∧ negb (i =? 1) = true ∧ (i =? 3) = true).
Proof.
  apply (joint_quorums_intersect (from_voters [1; 2; 3]) (from_voters [2; 3; 4])
           (λ i, negb (i =? 1)) (λ i, i =? 3)); by vm_compute.
Defined.

(** The quorum [len.div_ceil(2)] is not a majority for any even number of
    voters: such a configuration has two disjoint quorums that together hold
    every voter, so two leaders of one term, or two conflicting commits, can
    each have theirs. *)
Theorem even_quorum_splits (c : ClusterConfiguration) :
  Nat.even (size (voters c)) = true →
  ∃ A B : gset N, A ∪ B = voters c ∧ A ## B ∧
    size A = quorum c ∧ size B = quorum c ∧
    commit_quorum_met (λ i, bool_decide (i ∈ A)) (Stable c) = true ∧
    commit_quorum_met (λ i, bool_decide (i ∈ B)) (Stable c) = true.
Proof.
  intros [k Hk]%Nat.even_spec.
  assert (quorum c = k) as Hq by (unfold quorum; by rewrite Hk, div_ceil2_even).
  set (l := set_list (voters c)).
  assert (NoDup l) as Hnd by apply NoDup_set_list.
  assert (length l = 2 * k)%nat as Hl by (unfold l; by rewrite length_set_list).
  assert (∀ s : gset N, s ⊆ voters c →
            count_met (λ i, bool_decide (i ∈ s)) c = size s) as Hcount.
  { intros s Hs. unfold count_met. rewrite <-(length_set_list s). apply Permutation_length.
    apply NoDup_Permutation; [apply NoDup_filter, NoDup_set_list|apply NoDup_set_list|].
    intros i. rewrite list_elem_of_filter, !elem_of_set_list, bool_decide_eq_true. set_solver. }
  rewrite <-(take_drop k l) in Hnd. apply NoDup_app in Hnd as (H1 & Hd & H2).
  set (A := list_to_set (take k l) : gset N). set (B := list_to_set (drop k l) : gset N).
  assert (A ∪ B = voters c) as HU.
  { apply leibniz_equiv. intros i. unfold A, B. rewrite <-list_to_set_app, take_drop.
    unfold l. by rewrite elem_of_list_to_set, elem_of_set_list. }
  assert (size A = k) as SA.
  { unfold A. rewrite size_list_to_set by done. rewrite length_take. lia. }
  assert (size B = k) as SB.
  { unfold B. rewrite size_list_to_set by done. rewrite length_drop. lia. }
  exists A, B. cbn [commit_quorum_met]. rewrite !Hcount, SA, SB, Hq by set_solver. split_and!; [done| |done..| |].
  - intros i Ha%elem_of_list_to_set Hb%elem_of_list_to_set. by eapply Hd.
  - by apply Nat.leb_le.
  - by apply Nat.leb_le.
Qed.

Lemma even_quorum_splits_witness :
  ∃ A B : gset N, A ∪ B = voters (from_voters [1; 2; 3; 4]) ∧ A ## B ∧
    size A = quorum (from_voters [1; 2; 3; 4]) ∧ size B = quorum (from_voters [1; 2; 3; 4]) ∧
    commit_quorum_met (λ i, bool_decide (i ∈ A)) (Stable (from_voters [1; 2; 3; 4])) = true ∧
    commit_quorum_met (λ i, bool_decide (i ∈ B)) (Stable (from_voters [1; 2; 3; 4])) = true.
Proof. apply (even_quorum_splits (from_voters [1; 2; 3; 4])). by vm_compute. Defined.
