(* ===== verification/RaftCommand.v ===== *)
(** [kaya-raft/src/command.rs]: the replicated commands, their wire format and
    its decoder, including the three historical encodings of a membership
    change.  Strings are UTF-8 byte strings. *)
From S2P Require Import Prelude Bytes.

Open Scope N_scope.

Inductive ConfigChangePhase : Type := Joint | Final.

Record ClusterMember := mkMember {
  m_id : N;
  raft_addr : bytes;
  client_addr : bytes;
  is_learner : bool
}.

#[export] Instance ConfigChangePhase_eq_dec : EqDecision ConfigChangePhase.
Proof. solve_decision. Defined.
#[export] Instance ClusterMember_eq_dec : EqDecision ClusterMember.
Proof. solve_decision. Defined.

(** [ClusterMember::voter_ids]. *)
Definition voter_ids (members : list ClusterMember) : list N :=
  m_id <$> filter (λ m, is_learner m = false) members.

Definition Mutation : Type := bytes * option bytes.

Inductive RaftCommand : Type :=
| CPut (key value : bytes)
| CDelete (key : bytes)
| CConfigChange (phase : ConfigChangePhase) (members : list ClusterMember)
| CTxnCommit (txn_id : N) (mutations : list Mutation)
| CTxnPrepare (txn_id coordinator_group : N) (mutations : list Mutation)
| CTxnCommit2pc (txn_id : N)
| CTxnAbort2pc (txn_id : N)
| CRangeMeta (base_epoch : N) (snapshot : bytes)
| CTxnDecision (txn_id : N) (commit : bool).

#[export] Instance RaftCommand_eq_dec : EqDecision RaftCommand.
Proof. solve_decision. Defined.

(** The messages of the decoder's error strings. *)
Inductive CmdError : Type :=
| EofU8
| EofU64
| EofU32 (have : N)
| TruncatedData (need have : N)
| InvalidUtf8
| UnknownPhase (p : N)
| UnknownType (t : N)
| InvalidHasValue (label : string) (other : N)
| TrailingBytes.

(** ** Encoding *)

Definition phase_byte (p : ConfigChangePhase) : N := match p with Joint => 1 | Final => 2 end.

(** A [u32] length prefix ([len as u32]) and the bytes. *)
Definition push_bytes (b : bytes) : bytes := le_bytes 4 (wrap u32_lim (lenN b)) ++ b.

Definition push_member (m : ClusterMember) : bytes :=
  le_bytes 8 (m_id m) ++ push_bytes (raft_addr m) ++ push_bytes (client_addr m) ++
  [if is_learner m then 1 else 0].

Definition push_mutation (x : Mutation) : bytes :=
  push_bytes x.1 ++ match x.2 with Some v => [1] ++ push_bytes v | None => [0] end.

Definition push_mutations (ms : list Mutation) : bytes :=
  le_bytes 4 (wrap u32_lim (lenN ms)) ++ (ms ≫= push_mutation).

Definition cmd_encode (c : RaftCommand) : bytes :=
  match c with
  | CPut key value => [1] ++ push_bytes key ++ push_bytes value
  | CDelete key => [2] ++ push_bytes key
  | CConfigChange phase members =>
      [3] ++ [phase_byte phase] ++ le_bytes 4 (wrap u32_lim (lenN members)) ++
      (members ≫= push_member)
  | CTxnCommit txn_id ms => [4] ++ le_bytes 8 txn_id ++ push_mutations ms
  | CTxnPrepare txn_id group ms =>
      [5] ++ le_bytes 8 txn_id ++ le_bytes 8 group ++ push_mutations ms
  | CTxnCommit2pc txn_id => [6] ++ le_bytes 8 txn_id
  | CTxnAbort2pc txn_id => [7] ++ le_bytes 8 txn_id
  | CRangeMeta base_epoch snapshot => [8] ++ le_bytes 8 base_epoch ++ push_bytes snapshot
  | CTxnDecision txn_id commit => [9] ++ le_bytes 8 txn_id ++ [if commit then 1 else 0]
  end.

(** ** Decoding *)

Definition next_u8 : parser CmdError N := fun cur =>
  match cur with [] => Err EofU8 | b :: cur => Ok (b, cur) end.
Definition next_u64 : parser CmdError N := p_le EofU64 8.
Definition next_u32 : parser CmdError N := fun cur => p_le (EofU32 (lenN cur)) 4 cur.

Definition take_data (len : N) : parser CmdError bytes := fun cur =>
  p_bytes (TruncatedData len (lenN cur)) len cur.

Definition next_bytes : parser CmdError bytes := len ← next_u32; take_data len.

Definition next_string : parser CmdError bytes :=
  s ← next_bytes;
  if utf8_valid s then mret s else perr InvalidUtf8.

Definition next_mutation (label : string) : parser CmdError Mutation :=
  key ← next_bytes;
  has_value ← next_u8;
  match has_value with
  | 0 => mret (key, None)
  | 1 => v ← next_bytes; mret (key, Some v)
  | other => perr (InvalidHasValue label other)
  end.

Definition next_mutations (label : string) : parser CmdError (list Mutation) :=
  count ← next_u32;
  prepeat (N.to_nat count) (next_mutation label).

Definition next_member (with_learner_flag : bool) : parser CmdError ClusterMember :=
  i ← next_u64;
  ra ← next_string;
  ca ← next_string;
  l ← (if with_learner_flag then b ← next_u8; mret (negb (b =? 0)) else mret false);
  mret (mkMember i ra ca l).

(** The whole remaining input must be members. *)
Definition no_trailing {A} (x : A) : parser CmdError A := fun cur =>
  match cur with [] => Ok (x, []) | _ => Err TrailingBytes end.

Definition decode_members_with_addrs (count : N) (with_learner_flag : bool)
    : parser CmdError (list ClusterMember) :=
  ms ← prepeat (N.to_nat count) (next_member with_learner_flag);
  no_trailing ms.

Definition next_legacy_member : parser CmdError ClusterMember :=
  i ← next_u64; mret (mkMember i [] [] false).

Definition decode_members (count : N) : parser CmdError (list ClusterMember) := fun cur =>
  if lenN cur =? count * 8 then prepeat (N.to_nat count) next_legacy_member cur
  else
    match decode_members_with_addrs count true cur with
    | Ok r => Ok r
    | Err _ => decode_members_with_addrs count false cur
    end.

Definition p_decode : parser CmdError RaftCommand :=
  cmd_type ← next_u8;
  match cmd_type with
  | 1 => key ← next_bytes; value ← next_bytes; mret (CPut key value)
  | 2 => key ← next_bytes; mret (CDelete key)
  | 3 =>
      pb ← next_u8;
      phase ← match pb with
              | 1 => mret Joint
              | 2 => mret Final
              | p => perr (UnknownPhase p)
              end;
      count ← next_u32;
      members ← decode_members count;
      mret (CConfigChange phase members)
  | 4 => txn_id ← next_u64; ms ← next_mutations "TxnCommit"; mret (CTxnCommit txn_id ms)
  | 5 => txn_id ← next_u64; group ← next_u64; ms ← next_mutations "TxnPrepare";
         mret (CTxnPrepare txn_id group ms)
  | 6 => txn_id ← next_u64; mret (CTxnCommit2pc txn_id)
  | 7 => txn_id ← next_u64; mret (CTxnAbort2pc txn_id)
  | 8 => base_epoch ← next_u64; snapshot ← next_bytes; mret (CRangeMeta base_epoch snapshot)
  | 9 => txn_id ← next_u64; commit ← next_u8; mret (CTxnDecision txn_id (negb (commit =? 0)))
  | t => perr (UnknownType t)
  end.

(** [RaftCommand::decode]; bytes left over after the command are ignored. *)
Definition cmd_decode (data : bytes) : result CmdError RaftCommand := fst <$> p_decode data.

(** ** Round trip *)

Definition mutation_ok (x : Mutation) : Prop :=
  lenN x.1 < u32_lim ∧ match x.2 with Some v => lenN v < u32_lim | None => True end.

Record member_ok (m : ClusterMember) : Prop := {
  mo_id : m_id m < 2 ^ 64;
  mo_raft : lenN (raft_addr m) < u32_lim ∧ utf8_valid (raft_addr m) = true;
  mo_client : lenN (client_addr m) < u32_lim ∧ utf8_valid (client_addr m) = true
}.

(** The commands whose fields fit their wire widths. *)
Definition cmd_ok (c : RaftCommand) : Prop :=
  match c with
  | CPut k v => lenN k < u32_lim ∧ lenN v < u32_lim
  | CDelete k => lenN k < u32_lim
  | CConfigChange _ ms => lenN ms < u32_lim ∧ Forall member_ok ms
  | CTxnCommit t ms => t < 2 ^ 64 ∧ lenN ms < u32_lim ∧ Forall mutation_ok ms
  | CTxnPrepare t g ms => t < 2 ^ 64 ∧ g < 2 ^ 64 ∧ lenN ms < u32_lim ∧ Forall mutation_ok ms
  | CTxnCommit2pc t | CTxnAbort2pc t => t < 2 ^ 64
  | CRangeMeta e s => e < 2 ^ 64 ∧ lenN s < u32_lim
  | CTxnDecision t _ => t < 2 ^ 64
  end.

Lemma parses_u8 b : parses next_u8 b [b].
Proof. by intros rest. Qed.

Lemma parses_u64 v : v < 2 ^ 64 → parses next_u64 v (le_bytes 8 v).
Proof. intros Hv. by apply parses_le. Qed.

Lemma parses_u32 v : v < u32_lim → parses next_u32 v (le_bytes 4 v).
Proof. intros Hv rest. unfold next_u32. by apply parses_le. Qed.

Lemma parses_push_bytes b : lenN b < u32_lim → parses next_bytes b (push_bytes b).
Proof.
  intros Hb. unfold push_bytes. rewrite wrap_small by done.
  eapply parses_bind; [done|by apply parses_u32|]. intros rest. by apply parses_bytes.
Qed.

Lemma parses_string b :
  lenN b < u32_lim → utf8_valid b = true → parses next_string b (push_bytes b).
Proof.
  intros Hb Hu. eapply parses_bind_tail; [by apply parses_push_bytes|]. rewrite Hu. apply parses_ret.
Qed.

#[local] Hint Resolve parses_u8 parses_u64 parses_u32 parses_push_bytes parses_string : kaya_parse.

(** Runs a decoder over the encoding of its fields. *)
Ltac parse_step := eapply parses_bind; [reflexivity|eauto with kaya_parse|].
Ltac parse_last := eapply parses_bind_tail; [eauto with kaya_parse|].

Lemma bind_all {A B} (p : parser CmdError A) (k : A → parser CmdError B) x y b1 b2 :
  parses p x b1 → k x b2 = Ok (y, []) → (p ≫= k) (b1 ++ b2) = Ok (y, []).
Proof. intros Hp Hk. unfold mbind, parser_bind. by rewrite Hp. Qed.

Lemma parses_mutation label x : mutation_ok x → parses (next_mutation label) x (push_mutation x).
Proof.
  destruct x as [k [v|]]; intros [Hk Hv]; unfold next_mutation, push_mutation; cbn [fst snd] in *.
  - parse_step. parse_step. parse_last. apply parses_ret.
  - parse_step. parse_last. apply parses_ret.
Qed.

Lemma parses_mutations label ms :
  lenN ms < u32_lim → Forall mutation_ok ms → parses (next_mutations label) ms (push_mutations ms).
Proof.
  intros Hl Hms. unfold next_mutations, push_mutations. rewrite wrap_small by done.
  parse_step. rewrite lenN_to_nat. apply parses_prepeat.
  eapply Forall_impl; [done|]. intros x. apply parses_mutation.
Qed.

Lemma parses_member m : member_ok m → parses (next_member true) m (push_member m).
Proof.
  intros [Hi [Hr Hru] [Hc Hcu]]. unfold next_member, push_member.
  parse_step. parse_step. parse_step.
  eapply parses_bind_tail; [eapply parses_bind_tail; [apply parses_u8|apply parses_ret]|].
  destruct m as [? ? ? []]; apply parses_ret.
Qed.

Lemma decode_members_current ms :
  lenN ms < u32_lim → Forall member_ok ms →
  decode_members (lenN ms) (ms ≫= push_member) = Ok (ms, []).
Proof.
  intros Hl Hms. unfold decode_members.
  destruct (N.eqb_spec (lenN (ms ≫= push_member)) (lenN ms * 8)) as [E|_].
  - destruct ms as [|m ms]; [done|exfalso].
    assert (lenN (ms ≫= push_member) >= lenN ms * 8).
    { clear. induction ms as [|m ms IH]; [done|]. cbn [mbind list_bind] in *.
      rewrite lenN_app. unfold push_member at 1. rewrite !lenN_app, lenN_le_bytes.
      unfold lenN in *. cbn [length] in *. lia. }
    revert E. cbn [mbind list_bind]. rewrite lenN_app. unfold push_member at 1.
    rewrite !lenN_app, lenN_le_bytes. unfold lenN in *. cbn [length]. lia.
  - assert (parses (prepeat (N.to_nat (lenN ms)) (next_member true)) ms (ms ≫= push_member)) as Hp.
    { rewrite lenN_to_nat. apply parses_prepeat. eapply Forall_impl; [done|]. apply parses_member. }
    specialize (Hp []). rewrite app_nil_r in Hp. revert Hp. generalize (ms ≫= push_member).
    intros bs Hp. unfold decode_members_with_addrs. unfold mbind, parser_bind. by rewrite Hp.
Qed.

(** ** Properties *)

(** Every command whose fields fit their wire widths decodes to itself;
    in particular a membership change in the current format is never mistaken
    for one of the two older formats the decoder also accepts. *)
Theorem raft_command_roundtrip (c : RaftCommand) :
  cmd_ok c → cmd_decode (cmd_encode c) = Ok c.
Proof.
  intros Hc. assert (p_decode (cmd_encode c) = Ok (c, [])) as Hp.
  2: { unfold cmd_decode. by rewrite Hp. }
  destruct c as [k v|k|ph ms|t ms|t g ms|t|t|e s|t b]; cbn [cmd_ok] in Hc.
  3: { destruct Hc as [Hl Hms]. cbn [cmd_encode]. rewrite wrap_small by done.
       eapply bind_all; [apply parses_u8|]. eapply bind_all; [apply parses_u8|].
       apply (bind_all _ _ ph _ [] (le_bytes 4 (lenN ms) ++ (ms ≫= push_member)));
         [destruct ph; apply parses_ret|].
       eapply bind_all; [by apply parses_u32|].
       unfold mbind at 1, parser_bind. by rewrite decode_members_current. }
  all: match goal with |- p_decode ?bs = Ok (?c, []) => cut (parses p_decode c bs);
         [intros Hp; specialize (Hp []); by rewrite app_nil_r in Hp|] end.
  all: destruct_and?; unfold p_decode, cmd_encode; eapply parses_bind; [reflexivity|apply parses_u8|].
  1: parse_step; parse_last; apply parses_ret.
  1: parse_last; apply parses_ret.
  1: parse_step; eapply parses_bind_tail; [by apply parses_mutations|apply parses_ret].
  1: parse_step; parse_step; eapply parses_bind_tail; [by apply parses_mutations|apply parses_ret].
  1-2: parse_last; apply parses_ret.
  1: parse_step; parse_last; apply parses_ret.
  parse_step; parse_last; destruct b; apply parses_ret.
Qed.

Lemma raft_command_roundtrip_witness :
  let c := CConfigChange Final [mkMember 1 [104; 58; 49] [] false; mkMember 7 [] [195; 169] true] in
  cmd_decode (cmd_encode c) = Ok c.
Proof.
  apply (raft_command_roundtrip
    (CConfigChange Final [mkMember 1 [104; 58; 49] [] false; mkMember 7 [] [195; 169] true])).
  split; [done|]. repeat constructor.
Defined.
