(* ===== verification/RaftStorage.v ===== *)
(** Raft persistence: the hard-state and log-file formats of
    [kaya-raft/src/storage.rs], the on-disk store of
    [kaya-raft/src/disk_storage.rs] and the persister of
    [kaya-server/src/raft_persister.rs].  A data directory is the pair of its
    two files.  Below it is the host directory [atomic_write] works on, with the
    calls of [std::fs] it makes: what was not synced may be lost in a crash, in
    the files and in the names.  I/O errors of the host stop a flush like a crash
    does, after any number of calls, except that the code goes on when the directory
    can not be synced: the model takes these syncs to succeed. *)
From stdpp Require Import gmap.
From S2P Require Import Prelude Bytes Core Path RaftLog.

Open Scope N_scope.

Definition RAFT_HARD_STATE_MAGIC : N := 0x484B5352.
Definition RAFT_HARD_STATE_VERSION : N := 1.
Definition RAFT_HARD_STATE_LEN : N := 64.
Definition RAFT_LOG_FRAME_MAGIC : N := 0x46474C52.
Definition RAFT_LOG_FRAME_VERSION : N := 1.
Definition RAFT_LOG_FRAME_HEADER_LEN : N := 32.

Record HardState := mkHardState {
  hs_term : N;
  hs_voted_for : option N;
  hs_last_included_index : N;
  hs_last_included_term : N
}.

#[export] Instance HardState_eq_dec : EqDecision HardState.
Proof. solve_decision. Defined.

Record LogFrame := mkFrame { f_index : N; f_term : N; f_command : bytes }.

(** The messages of [RaftStorageError::Corrupt]. *)
Inductive StorageError : Type :=
| HsWrongLen (n : N)
| HsBadMagic (m : N)
| HsBadVersion (v : N)
| HsCrcMismatch
| TruncatedFrameHeader
| BadFrameMagic (offset : N)
| TruncatedFramePayload
| FrameCrcMismatch (index : N).

(** [uN::from_le_bytes(bytes[a..b])]. *)
Definition u_at (a b : nat) (bs : bytes) : N := le_val (slice a b bs).

(** ** Hard state *)

Definition hard_state_body (hs : HardState) : bytes :=
  le_bytes 4 RAFT_HARD_STATE_MAGIC ++ le_bytes 4 RAFT_HARD_STATE_VERSION ++
  le_bytes 8 (hs_term hs) ++ le_bytes 8 (default 0 (hs_voted_for hs)) ++
  le_bytes 8 (hs_last_included_index hs) ++ le_bytes 8 (hs_last_included_term hs) ++
  replicate 20 0.

Definition encode_hard_state (hs : HardState) : bytes :=
  hard_state_body hs ++ le_bytes 4 (crc32c (hard_state_body hs)).

Definition decode_hard_state (bs : bytes) : result StorageError HardState :=
  if negb (lenN bs =? RAFT_HARD_STATE_LEN) then Err (HsWrongLen (lenN bs))
  else if negb (u_at 0 4 bs =? RAFT_HARD_STATE_MAGIC) then Err (HsBadMagic (u_at 0 4 bs))
  else if negb (u_at 4 8 bs =? RAFT_HARD_STATE_VERSION) then Err (HsBadVersion (u_at 4 8 bs))
  else if negb (crc32c (take 60 bs) =? u_at 60 64 bs) then Err HsCrcMismatch
  else
    let voted_raw := u_at 16 24 bs in
    Ok (mkHardState (u_at 8 16 bs) (if voted_raw =? 0 then None else Some voted_raw)
          (u_at 24 32 bs) (u_at 32 40 bs)).

Definition default_hard_state : HardState := mkHardState 0 None 0 0.

(** ** Log file *)

Definition frame_crc_input (index term payload_len : N) (command : bytes) : bytes :=
  le_bytes 8 index ++ le_bytes 8 term ++ le_bytes 4 payload_len ++ command.

Definition encode_frame (f : LogFrame) : bytes :=
  let n := wrap u32_lim (lenN (f_command f)) in
  le_bytes 4 RAFT_LOG_FRAME_MAGIC ++ le_bytes 2 RAFT_LOG_FRAME_VERSION ++ le_bytes 2 0 ++
  le_bytes 8 (f_index f) ++ le_bytes 8 (f_term f) ++ le_bytes 4 n ++
  le_bytes 4 (crc32c (frame_crc_input (f_index f) (f_term f) n (f_command f))) ++ f_command f.

Definition encode_log_file (frames : list LogFrame) : bytes := frames ≫= encode_frame.

(** One iteration of the decoding loop: a frame and the bytes after it. *)
Definition decode_frame (offset : N) (bs : bytes) : result StorageError (LogFrame * bytes) :=
  if lenN bs <? RAFT_LOG_FRAME_HEADER_LEN then Err TruncatedFrameHeader
  else if negb (u_at 0 4 bs =? RAFT_LOG_FRAME_MAGIC) then Err (BadFrameMagic offset)
  else
    let index := u_at 8 16 bs in
    let term := u_at 16 24 bs in
    let payload_len := u_at 24 28 bs in
    let frame_crc := u_at 28 32 bs in
    let body := drop 32 bs in
    if lenN body <? payload_len then Err TruncatedFramePayload
    else
      let command := take (N.to_nat payload_len) body in
      if negb (crc32c (frame_crc_input index term payload_len command) =? frame_crc)
      then Err (FrameCrcMismatch index)
      else Ok (mkFrame index term command, drop (N.to_nat payload_len) body).

(** The [while offset < bytes.len()] loop; a frame takes at least 32 bytes, so
    [length bytes] iterations reach the end. *)
Fixpoint decode_log_loop (fuel : nat) (offset : N) (bs : bytes) : result StorageError (list LogFrame) :=
  match fuel, bs with
  | _, [] => Ok []
  | O, _ => Ok []
  | S fuel, _ =>
      '(f, rest) ← decode_frame offset bs;
      fs ← decode_log_loop fuel (offset + (lenN bs - lenN rest)) rest;
      Ok (f :: fs)
  end.

Definition decode_log_file (bs : bytes) : result StorageError (list LogFrame) :=
  decode_log_loop (length bs) 0 bs.

(** [memlog_to_frames]: the loop over [last_included + 1 ..= last_index]; its
    [expect] never fails there ([log_get_inside]). *)
Definition memlog_to_frames (l : MemLog) : list LogFrame :=
  omap (λ i, (λ e, mkFrame i (e_term e) (command e)) <$> log_get l i)
    ((λ k, last_included_index l + 1 + N.of_nat k) <$>
       seq 0 (N.to_nat (last_index l - last_included_index l))).

(** [frames_to_memlog] as a release build runs it: the frame indices are only
    compared by a [debug_assert]. *)
Definition frames_to_memlog (hs : HardState) (frames : list LogFrame) : MemLog :=
  let l := if 0 <? hs_last_included_index hs
           then install_snapshot (hs_last_included_index hs) (hs_last_included_term hs) [] MemLog_new
           else MemLog_new in
  foldl (λ l f, log_append (mkEntry (f_term f) (f_command f)) l) l frames.

(** ** The store and the persister *)

Record PersistedRaftState := mkPersisted { hard_state : HardState; p_log : MemLog }.

#[export] Instance PersistedRaftState_eq_dec : EqDecision PersistedRaftState.
Proof. solve_decision. Defined.

Record RaftDir := mkRaftDir { hard_state_file : option bytes; log_file : option bytes }.

Definition save_hard_state (hs : HardState) (d : RaftDir) : RaftDir :=
  mkRaftDir (Some (encode_hard_state hs)) (log_file d).
Definition save_log (l : MemLog) (d : RaftDir) : RaftDir :=
  mkRaftDir (hard_state_file d) (Some (encode_log_file (memlog_to_frames l))).

Definition raft_load (d : RaftDir) : result StorageError PersistedRaftState :=
  hs ← match hard_state_file d with
       | Some bs => decode_hard_state bs
       | None => Ok default_hard_state
       end;
  l ← match log_file d with
      | Some bs => frames ← decode_log_file bs; Ok (frames_to_memlog hs frames)
      | None =>
          if 0 <? hs_last_included_index hs then Ok (frames_to_memlog hs []) else Ok MemLog_new
      end;
  Ok (mkPersisted hs l).

Record RaftPersister := mkPersister { storage : RaftDir; last_persisted : option PersistedRaftState }.

Definition load_state (p : RaftPersister) : result StorageError (option PersistedRaftState) :=
  state ← raft_load (storage p);
  if bool_decide (hard_state state = default_hard_state) && (last_index (p_log state) =? 0)
  then Ok None else Ok (Some state).

(** The writes of a flush, in their order. *)
Inductive RaftWrite : Type := WHardState (hs : HardState) | WLog (l : MemLog).

Definition flush_writes (view : PersistedRaftState) : list RaftWrite :=
  [WHardState (hard_state view); WLog (p_log view)].

Definition apply_write (d : RaftDir) (w : RaftWrite) : RaftDir :=
  match w with WHardState hs => save_hard_state hs d | WLog l => save_log l d end.

Definition flush_view (view : PersistedRaftState) (p : RaftPersister) : RaftPersister :=
  if bool_decide (last_persisted p = Some view) then p
  else mkPersister (foldl apply_write (storage p) (flush_writes view)) (Some view).

(** ** The host directory *)

(** An inode holds what was written and what was synced of it; names refer to inodes, and
    [synced_names] are the names as of the last sync of the directory. *)
Record HostDir := mkHostDir {
  inodes : gmap N (bytes * bytes);
  names : gmap bytes N;
  synced_names : gmap bytes N;
  next_inode : N
}.

Inductive FsOp : Type :=
| FRemove (name : bytes)
| FCreate (name : bytes)
| FWriteAll (name bs : bytes)
| FSyncAll (name : bytes)
| FRename (from to : bytes)
| FSyncDir.

(** [File::create] finds the name free, since it was removed just before. *)
Definition fs_op (h : HostDir) (op : FsOp) : HostDir :=
  match op with
  | FRemove n => mkHostDir (inodes h) (base.delete n (names h)) (synced_names h) (next_inode h)
  | FCreate n =>
      mkHostDir (<[next_inode h := ([], [])]> (inodes h)) (<[n := next_inode h]> (names h)) (synced_names h) (next_inode h + 1)
  | FWriteAll n bs =>
      match names h !! n with
      | Some i => mkHostDir (alter (λ f, (f.1 ++ bs, f.2)) i (inodes h)) (names h) (synced_names h) (next_inode h)
      | None => h
      end
  | FSyncAll n =>
      match names h !! n with
      | Some i => mkHostDir (alter (λ f, (f.1, f.1)) i (inodes h)) (names h) (synced_names h) (next_inode h)
      | None => h
      end
  | FRename a b =>
      match names h !! a with
      | Some i => mkHostDir (inodes h) (<[b := i]> (base.delete a (names h))) (synced_names h) (next_inode h)
      | None => h
      end
  | FSyncDir => mkHostDir (inodes h) (names h) (names h) (next_inode h)
  end.

Definition hard_state_path : bytes := str "raft-hard-state".
Definition log_path : bytes := str "raft-log".

(** [with_extension], on a name without one. *)
Definition with_tmp (path : bytes) : bytes := path ++ str ".tmp".

Definition atomic_write (path bs : bytes) : list FsOp :=
  let tmp := with_tmp path in
  [FRemove tmp; FCreate tmp; FWriteAll tmp bs; FSyncAll tmp; FRename tmp path; FSyncDir].

Definition write_ops (w : RaftWrite) : list FsOp :=
  match w with
  | WHardState hs => atomic_write hard_state_path (encode_hard_state hs)
  | WLog l => atomic_write log_path (encode_log_file (memlog_to_frames l))
  end.

(** The calls of a flush; [DiskRaftStorage::sync] comes last. *)
Definition flush_ops (view : PersistedRaftState) (p : RaftPersister) : list FsOp :=
  if bool_decide (last_persisted p = Some view) then []
  else (flush_writes view ≫= write_ops) ++ [FSyncDir].

(** What a crash may leave of a name: it refers to what it did at the last sync of the directory
    or to what it does now, and the file holds what was synced and any part of what came after. *)
Definition survives (h : HostDir) (name : bytes) (c : option bytes) : Prop :=
  ∃ i, (i = names h !! name ∨ i = synced_names h !! name) ∧
    match i with
    | None => c = None
    | Some i => ∃ data synced bs, inodes h !! i = Some (data, synced) ∧ c = Some bs ∧ synced `prefix_of` bs ∧ bs `prefix_of` data
    end.

Definition crash_leaves (h : HostDir) (d : RaftDir) : Prop :=
  survives h hard_state_path (hard_state_file d) ∧ survives h log_path (log_file d).

(** ** Hard-state lemmas *)

Record hs_ok (hs : HardState) : Prop := {
  ho_term : hs_term hs < 2 ^ 64;
  ho_vote : default 0 (hs_voted_for hs) < 2 ^ 64;
  ho_index : hs_last_included_index hs < 2 ^ 64;
  ho_iterm : hs_last_included_term hs < 2 ^ 64
}.

Lemma u_at_eq a b n v bs : slice a b bs = le_bytes n v → v < 256 ^ N.of_nat n → u_at a b bs = v.
Proof. intros Hs Hv. unfold u_at. by rewrite Hs, le_val_le_bytes. Qed.

(** Evaluates the positional reads of encoded fields. *)
Ltac u_field :=
  match goal with
  | |- context [u_at ?a ?b ?bs] =>
      erewrite (u_at_eq a b _ _ bs);
      [|by repeat slice_step
       |first [done | eassumption | change (256 ^ N.of_nat 4) with 4294967296; lia]]
  end.

Lemma length_hard_state_body hs : length (hard_state_body hs) = 60%nat.
Proof. unfold hard_state_body. by rewrite !length_app, !length_le_bytes, length_replicate. Qed.

Lemma hard_state_body_ok hs : bytes_ok (hard_state_body hs).
Proof.
  unfold hard_state_body, bytes_ok. rewrite !Forall_app. split_and!; try apply le_bytes_ok.
  by apply Forall_replicate.
Qed.

Lemma length_encode_hard_state hs : length (encode_hard_state hs) = 64%nat.
Proof. unfold encode_hard_state. by rewrite length_app, length_hard_state_body, length_le_bytes. Qed.

Lemma take_encode_hard_state hs : take 60 (encode_hard_state hs) = hard_state_body hs.
Proof. unfold encode_hard_state. by rewrite take_app_length' by (by rewrite length_hard_state_body). Qed.

Lemma slice_encode_hard_state_crc hs :
  slice 60 64 (encode_hard_state hs) = le_bytes 4 (crc32c (hard_state_body hs)).
Proof.
  unfold encode_hard_state. by rewrite slice_at_end
    by (rewrite ?length_hard_state_body, ?length_le_bytes; done).
Qed.

Lemma decode_encode_hard_state hs :
  hs_ok hs → hs_voted_for hs ≠ Some 0 → decode_hard_state (encode_hard_state hs) = Ok hs.
Proof.
  intros [Ht Hv Hi Hit] H0. unfold decode_hard_state.
  replace (lenN (encode_hard_state hs)) with 64 by (unfold lenN; by rewrite length_encode_hard_state).
  cbn [N.eqb RAFT_HARD_STATE_LEN Pos.eqb negb].
  rewrite take_encode_hard_state, (u_at_eq 60 64 4 _ _ (slice_encode_hard_state_crc hs))
    by (apply crc32c_bound, hard_state_body_ok).
  rewrite N.eqb_refl. unfold encode_hard_state. generalize (crc32c (hard_state_body hs)). intros c.
  unfold hard_state_body. rewrite <-!app_assoc. do 6 u_field.
  rewrite !N.eqb_refl. cbn [negb]. destruct hs as [t [v|] i it]; cbn in *; [|done].
  destruct (N.eqb_spec v 0) as [->|]; [done|done].
Qed.

Lemma crc_field_corrupt (body : bytes) i b b' :
  bytes_ok body → le_bytes 4 (crc32c body) !! i = Some b → byte_ok b' → b ≠ b' →
  le_val (<[i:=b']> (le_bytes 4 (crc32c body))) ≠ crc32c body.
Proof.
  intros Hb Hi Hb' Hne E.
  assert (length (<[i:=b']> (le_bytes 4 (crc32c body))) = 4%nat) as L
    by (by rewrite length_insert, length_le_bytes).
  assert (<[i:=b']> (le_bytes 4 (crc32c body)) = le_bytes 4 (crc32c body)) as E2.
  { rewrite <-E at 2. rewrite <-L at 2. symmetry. apply le_bytes_le_val.
    apply Forall_insert; [apply le_bytes_ok|done]. }
  assert (<[i:=b']> (le_bytes 4 (crc32c body)) !! i = Some b') as H1.
  { apply list_lookup_insert_eq. by eapply lookup_lt_Some. }
  rewrite E2, Hi in H1. by simplify_eq.
Qed.

Lemma decode_corrupt_hard_state hs i b b' :
  encode_hard_state hs !! i = Some b → byte_ok b' → b ≠ b' →
  ∃ e, decode_hard_state (<[i:=b']> (encode_hard_state hs)) = Err e.
Proof.
  intros Hi Hb' Hne. set (bad := <[i:=b']> _).
  assert (length bad = 64%nat) as Hl by (unfold bad; by rewrite length_insert, length_encode_hard_state).
  assert (crc32c (take 60 bad) ≠ u_at 60 64 bad) as Hcrc.
  { destruct (decide (i < 60)%nat) as [Hlt|Hge].
    - unfold bad. rewrite take_insert_lt, take_encode_hard_state by done.
      assert (hard_state_body hs !! i = Some b) as Hb.
      { rewrite <-take_encode_hard_state. by rewrite lookup_take_lt. }
      rewrite (u_at_eq 60 64 4 (crc32c (hard_state_body hs))).
      + by apply (crc32c_insert _ _ b); [apply hard_state_body_ok|..].
      + rewrite <-slice_encode_hard_state_crc. unfold slice. by rewrite drop_insert_lt.
      + apply crc32c_bound, hard_state_body_ok.
    - unfold bad. rewrite take_insert_ge, take_encode_hard_state by lia.
      assert (slice 60 64 (<[i:=b']> (encode_hard_state hs)) =
              <[(i - 60)%nat:=b']> (le_bytes 4 (crc32c (hard_state_body hs)))) as Hs.
      { unfold encode_hard_state. rewrite insert_app_r_alt by (rewrite length_hard_state_body; lia).
        rewrite length_hard_state_body. rewrite slice_at_end; [done|..].
        all: by rewrite length_hard_state_body, ?length_insert, ?length_le_bytes. }
      unfold u_at. rewrite Hs. apply not_eq_sym, (crc_field_corrupt _ _ b); [|idtac|done|done].
      + apply hard_state_body_ok.
      + unfold encode_hard_state in Hi. rewrite lookup_app_r in Hi by (rewrite length_hard_state_body; lia).
        by rewrite length_hard_state_body in Hi. }
  unfold decode_hard_state. rewrite (proj2 (N.eqb_neq _ _) Hcrc). cbn [negb].
  repeat case_match; eauto.
Qed.

(** ** Log-file lemmas *)

Record frame_ok (f : LogFrame) : Prop := {
  fo_index : f_index f < 2 ^ 64;
  fo_term : f_term f < 2 ^ 64;
  fo_len : lenN (f_command f) < 2 ^ 32;
  fo_bytes : bytes_ok (f_command f)
}.

Lemma decode_encode_frame f off rest :
  frame_ok f → decode_frame off (encode_frame f ++ rest) = Ok (f, rest).
Proof.
  intros [Hi Ht Hl Hb]. unfold decode_frame, encode_frame. rewrite wrap_small by done.
  set (n := lenN (f_command f)) in *. set (c := crc32c _).
  assert (c < 256 ^ N.of_nat 4) as Hc.
  { apply crc32c_bound. unfold frame_crc_input, bytes_ok. rewrite !Forall_app.
    split_and!; done || apply le_bytes_ok. }
  rewrite <-!app_assoc.
  match goal with |- context [lenN ?bs <? RAFT_LOG_FRAME_HEADER_LEN] =>
    assert (lenN bs = 32 + n + lenN rest) as HL by (rewrite !lenN_app, !lenN_le_bytes; unfold n; lia)
  end.
  rewrite HL, (proj2 (N.ltb_ge _ _)) by (unfold RAFT_LOG_FRAME_HEADER_LEN; lia).
  do 5 u_field. rewrite N.eqb_refl. cbn [negb].
  assert (∀ v : bytes, drop 32 (le_bytes 4 RAFT_LOG_FRAME_MAGIC ++ le_bytes 2 RAFT_LOG_FRAME_VERSION ++
     le_bytes 2 0 ++ le_bytes 8 (f_index f) ++ le_bytes 8 (f_term f) ++ le_bytes 4 n ++
     le_bytes 4 c ++ v) = v) as Hd by (intros v; by rewrite !app_assoc, drop_app_length'
       by (rewrite !length_app, !length_le_bytes; done)).
  rewrite Hd, lenN_app, (proj2 (N.ltb_ge _ n)) by (unfold n; lia).
  assert (N.to_nat n = length (f_command f)) as En by apply lenN_to_nat.
  rewrite !En, take_app_length, drop_app_length. fold c. rewrite N.eqb_refl. by destruct f.
Qed.

Lemma length_encode_frame f : lenN (encode_frame f) = 32 + lenN (f_command f).
Proof. unfold encode_frame. rewrite !lenN_app, !lenN_le_bytes. lia. Qed.

Lemma decode_encode_log_loop fs fuel off :
  Forall frame_ok fs → (length (encode_log_file fs) ≤ fuel)%nat →
  decode_log_loop fuel off (encode_log_file fs) = Ok fs.
Proof.
  intros Hfs. revert fuel off. induction Hfs as [|f fs Hf _ IH]; intros fuel off Hfuel.
  { by destruct fuel. }
  unfold encode_log_file in *. cbn [mbind list_bind] in *. fold (fs ≫= encode_frame) in *.
  pose proof (length_encode_frame f) as HL. unfold lenN in HL. rewrite length_app in Hfuel.
  destruct fuel as [|fuel]; [lia|].
  destruct (encode_frame f ++ (fs ≫= encode_frame)) as [|x xs] eqn:E.
  { apply (f_equal length) in E. rewrite length_app in E. cbn in E. lia. }
  cbn [decode_log_loop]. rewrite <-E, decode_encode_frame by done. cbn [mbind result_bind].
  rewrite IH by lia. done.
Qed.

Lemma decode_encode_log_file fs :
  Forall frame_ok fs → decode_log_file (encode_log_file fs) = Ok fs.
Proof. intros. by apply decode_encode_log_loop. Qed.

Definition entry_ok (e : LogEntry) : Prop :=
  e_term e < 2 ^ 64 ∧ lenN (command e) < 2 ^ 32 ∧ bytes_ok (command e).

(** The frames of a log, without the detour over [log_get]. *)
Definition frames_of (start : N) (es : list LogEntry) : list LogFrame :=
  imap (λ k e, mkFrame (start + N.of_nat k) (e_term e) (command e)) es.

Lemma omap_seq_lookup {A B} (f : nat → A → B) (l : list A) n :
  (n ≤ length l)%nat → omap (λ j, f j <$> l !! j) (seq 0 n) = imap f (take n l).
Proof.
  induction n as [|n IH]; intros Hn; [done|].
  destruct (lookup_lt_is_Some_2 l n) as [x Hx]; [lia|].
  rewrite seq_S, omap_app, IH by lia. rewrite (take_S_r _ _ x) by done.
  rewrite imap_app, length_take_le by lia. cbn. by rewrite Hx, Nat.add_0_r.
Qed.

Lemma memlog_to_frames_eq l :
  memlog_to_frames l = frames_of (last_included_index l + 1) (entries l).
Proof.
  unfold memlog_to_frames, frames_of. rewrite last_index_eq.
  replace (N.to_nat _) with (length (entries l)) by (unfold lenN; lia).
  rewrite <-(firstn_all (entries l)) at 2.
  rewrite <-(omap_seq_lookup (λ k e, mkFrame (last_included_index l + 1 + N.of_nat k) (e_term e) (command e)))
    by done.
  generalize (seq 0 (length (entries l))). intros ks.
  induction ks as [|k ks IH]; [done|]. cbn [fmap list_fmap omap list_omap].
  assert (log_get l (last_included_index l + 1 + N.of_nat k) = entries l !! k) as ->.
  { unfold log_get, offset_of. destruct (N.eqb_spec (last_included_index l + 1 + N.of_nat k) 0); [lia|].
    destruct (N.leb_spec (last_included_index l + 1 + N.of_nat k) (last_included_index l)); [lia|].
    cbn. f_equal. lia. }
  destruct (entries l !! k); cbn; by rewrite <-IH.
Qed.

Lemma frames_of_ok start es :
  start + lenN es <= 2 ^ 64 → Forall entry_ok es → Forall frame_ok (frames_of start es).
Proof.
  intros Hs Hes. apply Forall_lookup. intros i f Hf. unfold frames_of in Hf.
  rewrite list_lookup_imap in Hf. destruct (es !! i) as [e|] eqn:E; [|done].
  cbn in Hf. simplify_eq. rewrite Forall_lookup in Hes. destruct (Hes _ _ E) as (? & ? & ?).
  apply lookup_lt_Some in E. unfold lenN in Hs. split; cbn; [lia|done..].
Qed.

(** A log rebuilt from frames: their entries above the recorded boundary. *)
Definition rebuilt (hs : HardState) (es : list LogEntry) : MemLog :=
  if 0 <? hs_last_included_index hs
  then mkMemLog es (hs_last_included_index hs) (hs_last_included_term hs) (Some [])
  else mkMemLog es 0 0 None.

Lemma frames_to_memlog_eq hs start es : frames_to_memlog hs (frames_of start es) = rebuilt hs es.
Proof.
  unfold frames_to_memlog, rebuilt.
  assert (∀ l start es, foldl (λ l f, log_append (mkEntry (f_term f) (f_command f)) l) l
            (frames_of start es) = with_entries (entries l ++ es) l) as Hfold.
  { clear. intros l start es. revert l start. induction es as [|[t c] es IH]; intros l start.
    - destruct l. unfold with_entries. cbn. by rewrite app_nil_r.
    - unfold frames_of in *. cbn [imap foldl f_term f_command].
      specialize (IH (log_append (mkEntry t c) l) (start + 1)).
      etrans; [etrans; [|exact IH]|].
      + f_equal. apply imap_ext. intros i x _. cbn. f_equal. lia.
      + unfold with_entries, log_append. cbn. by rewrite <-app_assoc. }
  destruct (N.ltb_spec 0 (hs_last_included_index hs)); rewrite Hfold; [|done].
  unfold install_snapshot. cbn [last_included_index MemLog_new].
  destruct (N.leb_spec (hs_last_included_index hs) 0); [lia|].
  case_match; cbn [entries MemLog_new]; by rewrite ?drop_nil.
Qed.

(** ** Persisted views *)

(** A view as [RaftNode::persist_view] builds it: the hard state carries the
    log's snapshot boundary, and every field fits its width. *)
Record view_ok (v : PersistedRaftState) : Prop := {
  vo_hs : hs_ok (hard_state v);
  vo_vote : hs_voted_for (hard_state v) ≠ Some 0;
  vo_index : hs_last_included_index (hard_state v) = last_included_index (p_log v);
  vo_term : hs_last_included_term (hard_state v) = last_included_term (p_log v);
  vo_zero : last_included_index (p_log v) = 0 →
            last_included_term (p_log v) = 0 ∧ snapshot_data (p_log v) = None;
  vo_bound : last_included_index (p_log v) + 1 + lenN (entries (p_log v)) <= 2 ^ 64;
  vo_entries : Forall entry_ok (entries (p_log v))
}.

(** What a restart recovers of a view: everything but the snapshot's data. *)
Definition recovered_view (v : PersistedRaftState) : PersistedRaftState :=
  mkPersisted (hard_state v)
    (mkMemLog (entries (p_log v)) (last_included_index (p_log v)) (last_included_term (p_log v))
       (if 0 <? last_included_index (p_log v) then Some [] else None)).

Lemma rebuilt_view v : view_ok v → rebuilt (hard_state v) (entries (p_log v)) = p_log (recovered_view v).
Proof.
  intros [_ _ Hi Ht Hz _ _]. unfold rebuilt, recovered_view. cbn. rewrite Hi, Ht.
  destruct (N.ltb_spec 0 (last_included_index (p_log v))) as [|H0]; [done|].
  destruct Hz as [-> _]; [lia|]. f_equal; lia.
Qed.

Lemma load_hs_log v1 v2 :
  view_ok v1 → view_ok v2 →
  raft_load (mkRaftDir (Some (encode_hard_state (hard_state v2)))
                       (Some (encode_log_file (memlog_to_frames (p_log v1))))) =
  Ok (mkPersisted (hard_state v2) (rebuilt (hard_state v2) (entries (p_log v1)))).
Proof.
  intros V1 V2. unfold raft_load. cbn [hard_state_file log_file].
  rewrite decode_encode_hard_state by apply V2. cbn [mbind result_bind].
  rewrite memlog_to_frames_eq, decode_encode_log_file.
  - cbn [mbind result_bind]. by rewrite frames_to_memlog_eq.
  - apply frames_of_ok; apply V1.
Qed.

(** ** Properties *)

(** A hard state whose vote is not for node 0 survives its encoding, and
    changing any one byte of the 64-byte record makes the decoder reject it. *)
Theorem raft_hard_state_codec (hs : HardState) (i : nat) (b b' : N) :
  hs_ok hs → hs_voted_for hs ≠ Some 0 →
  encode_hard_state hs !! i = Some b → byte_ok b' → b ≠ b' →
  decode_hard_state (encode_hard_state hs) = Ok hs ∧
  ∃ e, decode_hard_state (<[i:=b']> (encode_hard_state hs)) = Err e.
Proof.
  intros. split; [by apply decode_encode_hard_state|by eapply decode_corrupt_hard_state].
Qed.

Lemma raft_hard_state_codec_witness :
  let hs := mkHardState 7 (Some 3) 100 6 in
  decode_hard_state (encode_hard_state hs) = Ok hs ∧
  ∃ e, decode_hard_state (<[16%nat:=2]> (encode_hard_state hs)) = Err e.
Proof.
  apply (raft_hard_state_codec (mkHardState 7 (Some 3) 100 6) 16 3 2);
    [by split|done|by vm_compute|done|done].
Defined.

(** A completed flush is what a restart loads: the hard state exactly, and
    the log with its entries and its snapshot boundary; only the snapshot's
    data, which the log file does not hold, comes back empty. *)
Theorem raft_persist_roundtrip (v : PersistedRaftState) (p : RaftPersister) :
  view_ok v → last_persisted p ≠ Some v →
  raft_load (storage (flush_view v p)) = Ok (recovered_view v).
Proof.
  intros V Hne. unfold flush_view. rewrite bool_decide_eq_false_2 by done.
  cbn [storage flush_writes foldl apply_write]. unfold save_log, save_hard_state. cbn [hard_state_file].
  rewrite (load_hs_log v v V V), rebuilt_view by done. done.
Qed.

(** A node with a compacted prefix and two entries. *)
Definition demo_view : PersistedRaftState :=
  mkPersisted (mkHardState 4 (Some 2) 5 3)
    (mkMemLog [mkEntry 3 [1]; mkEntry 4 [2; 2]] 5 3 (Some [42])).

Lemma demo_view_ok : view_ok demo_view.
Proof. split; cbn; [by split|done|done|done|by intros|done|]. by repeat constructor. Qed.

Lemma raft_persist_roundtrip_witness :
  raft_load (storage (flush_view demo_view (mkPersister (mkRaftDir None None) None))) =
  Ok (recovered_view demo_view).
Proof. apply (raft_persist_roundtrip demo_view); [apply demo_view_ok|done]. Defined.

(** ** Crashes in a flush *)

(** The name holds [c] and would after a crash. *)
Definition settled (h : HostDir) (name : bytes) (c : option bytes) : Prop :=
  names h !! name = synced_names h !! name ∧
  match c with
  | None => names h !! name = None
  | Some bs => ∃ i, names h !! name = Some i ∧ inodes h !! i = Some (bs, bs)
  end.

(** The host directory holds the files of [d], all synced. *)
Record holds_dir (h : HostDir) (d : RaftDir) : Prop := {
  hd_hard_state : settled h hard_state_path (hard_state_file d);
  hd_log : settled h log_path (log_file d);
  hd_inodes : ∀ i f, inodes h !! i = Some f → i < next_inode h
}.

Lemma settled_survives h name c c' : settled h name c → survives h name c' → c' = c.
Proof.
  intros [Hn Hc] (i & Hi & Hs). rewrite <-Hn in Hi. assert (i = names h !! name) as -> by (by destruct Hi). destruct c as [bs|].
  - destruct Hc as (j & Ej & Hj). rewrite Ej in Hs. destruct Hs as (data & synced & bs' & Hd & -> & H1 & H2).
    rewrite Hj in Hd. injection Hd as <- <-. f_equal. by apply (anti_symm prefix).
  - by rewrite Hc in Hs.
Qed.

Lemma settled_gives h name c : settled h name c → survives h name c.
Proof.
  intros [Hn Hc]. exists (names h !! name). split; [by left|]. destruct c as [bs|]; [|by rewrite Hc]. destruct Hc as (i & -> & Hi). by exists bs, bs, bs.
Qed.

Definition runs_ops (h : HostDir) (ops : list FsOp) : HostDir := foldl fs_op h ops.

Lemma with_tmp_ne path : with_tmp path ≠ path.
Proof. intros E%(f_equal length). unfold with_tmp in E. rewrite length_app in E. cbn in E. lia. Qed.

(** The states of [atomic_write]: the new file grows under the temporary name, then takes over
    the name, then the directory is synced. *)
Lemma atomic_write_state h path bs k :
  let h' := runs_ops h (take k (atomic_write path bs)) in
  let n := next_inode h in
  (next_inode h' = n ∧ inodes h' = inodes h ∨
   next_inode h' = n + 1 ∧ ∃ data synced, inodes h' = <[n := (data, synced)]> (inodes h) ∧
     ((5 ≤ k)%nat → data = bs ∧ synced = bs)) ∧
  (∀ other, other ≠ path → other ≠ with_tmp path → names h' !! other = names h !! other) ∧
  (if decide (5 ≤ k)%nat then next_inode h' = n + 1 ∧ names h' !! path = Some n else names h' !! path = names h !! path) ∧
  synced_names h' = (if decide (6 ≤ k)%nat then names h' else synced_names h).
Proof.
  pose proof (with_tmp_ne path) as Hne. intros h' n. unfold h', runs_ops, atomic_write.
  destruct k as [|[|[|[|[|[|k]]]]]].
  all: cbn [take foldl fs_op names inodes next_inode synced_names]; rewrite ?take_nil; cbn [foldl].
  all: repeat (rewrite ?lookup_insert_eq; cbn [names inodes next_inode synced_names fs_op]).
  all: rewrite ?alter_insert_eq; cbn [fst snd app].
  all: split_and!; try (intros other Ho1 Ho2; by rewrite ?lookup_insert_ne, ?lookup_delete_ne, ?lookup_insert_ne, ?lookup_delete_ne).
  all: try (by left).
  all: try (right; split; [done|]; do 2 eexists; split; [done|]; intros; first [done|lia]).
  all: repeat case_decide; try lia.
  all: try done.
  all: try (split; [done|]; by rewrite lookup_insert_eq).
  all: try (by rewrite ?lookup_insert_ne, ?lookup_delete_ne).
Qed.

Lemma settled_keep h h' q c :
  names h' !! q = names h !! q → synced_names h' !! q = names h !! q →
  (∀ i f, inodes h !! i = Some f → inodes h' !! i = Some f) → settled h q c → settled h' q c.
Proof.
  intros Hn Hs Hi [_ Hc]. split; [congruence|]. destruct c as [bs|]; [|congruence]. destruct Hc as (i & Ei & Hf).
  exists i. split; [congruence|auto].
Qed.

Lemma settled_sync h q c : settled h q c → settled (fs_op h FSyncDir) q c.
Proof. by apply settled_keep. Qed.

(** Other names do not notice, and a crash leaves the old or the new content. *)
Lemma atomic_write_prefix h path bs c k :
  settled h path c → (∀ i f, inodes h !! i = Some f → i < next_inode h) →
  let h' := runs_ops h (take k (atomic_write path bs)) in
  (∀ i f, inodes h' !! i = Some f → i < next_inode h') ∧
  (∀ c', survives h' path c' → c' = c ∨ c' = Some bs) ∧
  ((6 ≤ k)%nat → settled h' path (Some bs)) ∧
  (∀ other c', other ≠ path → other ≠ with_tmp path → settled h other c' → settled h' other c').
Proof.
  intros Hs Hi h'. destruct (atomic_write_state h path bs k) as (Hin & Hot & Hpath & Hsy). fold h' in Hin, Hot, Hpath, Hsy.
  assert (∀ i f, inodes h !! i = Some f → inodes h' !! i = Some f) as Hkeep.
  { intros i f Hf. destruct Hin as [[_ ->]|(_ & data & synced & -> & _)]; [done|].
    rewrite lookup_insert_ne; [done|]. specialize (Hi i f Hf). lia. }
  assert ((6 ≤ k)%nat → settled h' path (Some bs)) as Hend.
  { intros Hk. rewrite decide_True in Hpath by lia. rewrite decide_True in Hsy by lia. destruct Hpath as [Hnx Hp]. split; [by rewrite Hsy|]. exists (next_inode h).
    split; [done|]. destruct Hin as [[E _]|(_ & data & synced & -> & Hd)]; [lia|]. destruct Hd as [-> ->]; [lia|]. apply lookup_insert_eq. }
  split_and!; [| |done|].
  - intros i f. destruct Hin as [[-> ->]|(-> & data & synced & -> & _)]; [apply Hi|].
    destruct (decide (i = next_inode h)) as [->|]; [lia|]. rewrite lookup_insert_ne by done. intros Hf%Hi. lia.
  - intros c' Hc'. destruct (decide (6 ≤ k)%nat) as [H6|H6]; [right; by eapply settled_survives; [apply Hend|]|].
    destruct Hs as [Hns Hc]. destruct (decide (5 ≤ k)%nat) as [H5|H5].
    + destruct Hpath as [Hnx Hp]. destruct Hin as [[E _]|(_ & data & synced & Hin & Hd)]; [lia|]. destruct (Hd H5) as [-> ->].
      destruct Hc' as (i & [->| ->] & Hf).
      * rewrite Hp, Hin, lookup_insert_eq in Hf. destruct Hf as (? & ? & b & [= <- <-] & -> & H1 & H2). right. f_equal. by apply (anti_symm prefix).
      * left. apply (settled_survives (mkHostDir (inodes h') (names h) (names h) 0) path); [|by exists (names h !! path); rewrite Hsy, <-Hns in Hf; split; [left|]].
        by apply (settled_keep h).
    + left. apply (settled_survives h' path); [|done]. apply (settled_keep h); [done|by rewrite Hsy, Hns|done|by split].
  - intros other c1 Ho1 Ho2 Hso. apply (settled_keep h); [by apply Hot| |done|done]. rewrite Hsy. case_decide; [by apply Hot|]. by destruct Hso.
Qed.

Lemma holds_sync h d : holds_dir h d → holds_dir (fs_op h FSyncDir) d.
Proof. intros [H1 H2 H3]. split; [by apply settled_sync..|exact H3]. Qed.

(** The two writes one after the other, stopped after any number of calls. *)
Lemma writes_prefix h d hs lg k d' :
  holds_dir h d →
  crash_leaves (runs_ops h (take k (atomic_write hard_state_path hs ++ atomic_write log_path lg ++ [FSyncDir]))) d' →
  d' = d ∨ d' = mkRaftDir (Some hs) (log_file d) ∨ d' = mkRaftDir (Some hs) (Some lg).
Proof.
  intros [Hh Hl Hi] [Hc1 Hc2]. set (a := atomic_write hard_state_path hs) in *. set (b := atomic_write log_path lg) in *.
  assert (log_path ≠ hard_state_path ∧ log_path ≠ with_tmp hard_state_path ∧ hard_state_path ≠ log_path ∧ hard_state_path ≠ with_tmp log_path)
    as (N1 & N2 & N3 & N4) by done.
  destruct (atomic_write_prefix h hard_state_path hs _ k Hh Hi) as (Hi1 & Hp1 & He1 & Ho1). fold a in Hi1, Hp1, He1, Ho1.
  specialize (Ho1 _ _ N1 N2 Hl). destruct d as [c1 c2], d' as [c1' c2']. cbn [hard_state_file log_file] in *.
  destruct (decide (k ≤ 6)%nat) as [Hk|Hk].
  { rewrite take_app_le in Hc1, Hc2 by done. rewrite (settled_survives _ _ _ _ Ho1 Hc2). destruct (Hp1 _ Hc1) as [->| ->]; auto. }
  rewrite take_ge in Hi1, He1, Ho1 by (cbn; lia). specialize (He1 ltac:(lia)).
  rewrite take_app_ge in Hc1, Hc2 by (cbn; lia). change (length a) with 6%nat in *. unfold runs_ops in Hc1, Hc2. rewrite foldl_app in Hc1, Hc2.
  fold (runs_ops h a) in *. set (h1 := runs_ops h a) in *.
  destruct (atomic_write_prefix h1 log_path lg _ (k - 6) Ho1 Hi1) as (_ & Hp2 & He2 & Ho2). fold b in Hp2, He2, Ho2.
  specialize (Ho2 _ _ N3 N4 He1). destruct (decide (k - 6 ≤ 6)%nat) as [Hk2|Hk2].
  { rewrite take_app_le in Hc1, Hc2 by done. rewrite (settled_survives _ _ _ _ Ho2 Hc1). destruct (Hp2 _ Hc2) as [->| ->]; auto. }
  rewrite take_ge in He2, Ho2 by (cbn; lia). specialize (He2 ltac:(lia)). rewrite take_ge in Hc1, Hc2 by (rewrite length_app; cbn; lia).
  rewrite foldl_app in Hc1, Hc2. fold (runs_ops h1 b) in *. cbn [foldl] in Hc1, Hc2.
  assert (∀ q c c', settled (runs_ops h1 b) q c → survives (fs_op (runs_ops h1 b) FSyncDir) q c' → c' = c) as Hsync.
  { intros q c c' Hq. apply settled_survives, settled_sync, Hq. }
  rewrite (Hsync _ _ _ Ho2 Hc1), (Hsync _ _ _ He2 Hc2). auto.
Qed.

Lemma writes_done h d hs lg :
  holds_dir h d → holds_dir (runs_ops h (atomic_write hard_state_path hs ++ atomic_write log_path lg ++ [FSyncDir])) (mkRaftDir (Some hs) (Some lg)).
Proof.
  intros [Hh Hl Hi]. set (a := atomic_write hard_state_path hs) in *. set (b := atomic_write log_path lg) in *.
  destruct (atomic_write_prefix h hard_state_path hs _ 6 Hh Hi) as (Hi1 & _ & He1 & Ho1). rewrite take_ge in * by (cbn; lia). fold a in Hi1, He1, Ho1.
  specialize (Ho1 log_path _ ltac:(done) ltac:(done) Hl). specialize (He1 ltac:(lia)).
  destruct (atomic_write_prefix (runs_ops h a) log_path lg _ 6 Ho1 Hi1) as (Hi2 & _ & He2 & Ho2). rewrite take_ge in * by (cbn; lia). fold b in Hi2, He2, Ho2.
  specialize (Ho2 hard_state_path _ ltac:(done) ltac:(done) He1). specialize (He2 ltac:(lia)).
  unfold runs_ops. rewrite !foldl_app. fold (runs_ops h a). fold (runs_ops (runs_ops h a) b). cbn [foldl].
  apply holds_sync. split; [exact Ho2|exact He2|exact Hi2].
Qed.

(** A persister whose files hold the view it flushed last, all synced. *)
Definition flushed (h : HostDir) (p : RaftPersister) (v : PersistedRaftState) : Prop :=
  last_persisted p = Some v ∧
  storage p = mkRaftDir (Some (encode_hard_state (hard_state v))) (Some (encode_log_file (memlog_to_frames (p_log v)))) ∧
  holds_dir h (storage p).


(** The directory of a node that flushed [demo_view]. *)
Definition demo_dir (v : PersistedRaftState) : HostDir :=
  runs_ops (mkHostDir ∅ ∅ ∅ 0) (flush_ops v (mkPersister (mkRaftDir None None) None)).
Definition demo_persister (v : PersistedRaftState) : RaftPersister := flush_view v (mkPersister (mkRaftDir None None) None).

Lemma demo_flushed v : flushed (demo_dir v) (demo_persister v) v.
Proof.
  split_and!; [done|done|]. unfold demo_dir. change (flush_ops v _) with
    (atomic_write hard_state_path (encode_hard_state (hard_state v)) ++
     atomic_write log_path (encode_log_file (memlog_to_frames (p_log v))) ++ [FSyncDir]).
  apply (writes_done _ (mkRaftDir None None)). split; [done|done|]. intros i f Hf. cbn in Hf. by rewrite lookup_empty in Hf.
Qed.

Definition demo_next : PersistedRaftState := mkPersisted (mkHardState 6 None 5 3) (mkMemLog [mkEntry 3 [1]] 5 3 None).

Lemma demo_next_ok : view_ok demo_next.
Proof. split; cbn; [by split|done|done|done|by intros|done|]. by repeat constructor. Qed.


(** A stop between the two writes of a flush that records a compaction
    misplaces the log: the new boundary is read with the old log file, whose
    frame indices are not compared, so the entry of index [i] is served at
    [i] plus the distance the boundary moved. *)
Theorem raft_persist_compaction_crash (old new : PersistedRaftState) (p : RaftPersister) (h : HostDir) (moved i : N) :
  view_ok old → view_ok new → flushed h p old → old ≠ new →
  last_included_index (p_log new) = last_included_index (p_log old) + moved → 0 < moved →
  ∃ d st, crash_leaves (runs_ops h (take 6 (flush_ops new p))) d ∧ raft_load d = Ok st ∧
    hard_state st = hard_state new ∧ last_index (p_log st) = last_index (p_log old) + moved ∧
    (last_included_index (p_log old) < i → log_get (p_log st) (i + moved) = log_get (p_log old) i).
Proof.
  intros V1 V2 (Hl & Hs & [Hh Hlg Hin]) Hne Hm Hpos.
  eexists (mkRaftDir (Some (encode_hard_state (hard_state new))) (log_file (storage p))), _. split; [|split].
  { unfold flush_ops. rewrite bool_decide_eq_false_2 by congruence. change (flush_writes new ≫= write_ops) with
      (atomic_write hard_state_path (encode_hard_state (hard_state new)) ++
       atomic_write log_path (encode_log_file (memlog_to_frames (p_log new))) ++ []).
    rewrite <-app_assoc, take_app_length' by done.
    destruct (atomic_write_prefix h hard_state_path (encode_hard_state (hard_state new)) _ 6 Hh Hin) as (_ & _ & He & Ho).
    rewrite take_ge in He, Ho by (cbn; lia). split; cbn [hard_state_file log_file].
    - apply settled_gives, He. lia.
    - apply settled_gives, Ho; done. }
  { rewrite Hs. apply (load_hs_log old new V1 V2). }
  cbn [hard_state p_log]. unfold rebuilt. rewrite (vo_index _ V2), (vo_term _ V2), Hm.
  destruct (N.ltb_spec 0 (last_included_index (p_log old) + moved)); [|lia].
  split_and!; [done|rewrite !last_index_eq; cbn; lia|]. intros Hi.
  unfold log_get, offset_of. cbn [last_included_index entries].
  rewrite !(proj2 (N.eqb_neq _ 0)), !(proj2 (N.leb_gt _ _)) by lia. cbn [orb]. f_equal. lia.
Qed.

Definition demo_before : PersistedRaftState := mkPersisted (mkHardState 4 None 5 3) (mkMemLog [mkEntry 3 [1]; mkEntry 4 [2]] 5 3 None).
Definition demo_compacted : PersistedRaftState := mkPersisted (mkHardState 4 None 6 3) (mkMemLog [mkEntry 4 [2]] 6 3 (Some [42])).

Lemma raft_persist_compaction_crash_witness :
  ∃ d st, crash_leaves (runs_ops (demo_dir demo_before) (take 6 (flush_ops demo_compacted (demo_persister demo_before)))) d ∧ raft_load d = Ok st ∧
    hard_state st = hard_state demo_compacted ∧ last_index (p_log st) = last_index (p_log demo_before) + 1 ∧
    (last_included_index (p_log demo_before) < 6 → log_get (p_log st) (6 + 1) = log_get (p_log demo_before) 6).
Proof.
  apply (raft_persist_compaction_crash demo_before demo_compacted (demo_persister demo_before) (demo_dir demo_before) 1 6).
  1-2: split; cbn; [by split|done|done|done|by intros|done|by repeat constructor].
  - apply demo_flushed.
  - done.
  - done.
  - done.
Defined.
