(* ===== verification/RaftNode.v ===== *)
(** [kaya-raft/src/node.rs] and [kaya-raft/src/message.rs]: the Raft state
    machine.  A method that takes [&mut self] and an output vector is an [act]:
    a function from the node to the node after it and the envelopes it pushed,
    in order.  Terms, indices and tick counters are unbounded.  Where the source
    iterates over the keys of a [HashMap], the model takes ascending order. *)
From stdpp Require Import gmap sorting.
From S2P Require Import Prelude Bytes RaftLog RaftConfig RaftCommand RaftStorage.

Open Scope N_scope.

(** ** Messages *)

Record VoteRequest := mkVoteRequest {
  vq_term : N; candidate_id : N; last_log_index : N; last_log_term : N }.
Record VoteResponse := mkVoteResponse { vr_term : N; vote_granted : bool }.
Record AppendRequest := mkAppendRequest {
  aq_term : N; aq_leader_id : N; prev_log_index : N; prev_log_term : N;
  aq_entries : list LogEntry; leader_commit : N }.
Record AppendResponse := mkAppendResponse { ar_term : N; ar_success : bool; ar_match_index : N }.
Record InstallSnapshotRequest := mkSnapRequest {
  iq_term : N; iq_leader_id : N; iq_last_included_index : N; iq_last_included_term : N;
  iq_data : bytes }.
Record InstallSnapshotResponse := mkSnapResponse { ir_term : N; ir_success : bool }.
Record ConfigChangeRequest := mkConfigRequest {
  cq_term : N; old_peers : list N; new_peers : list N }.
Record ConfigChangeResponse := mkConfigResponse { cr_term : N; cr_success : bool }.

Inductive Message : Type :=
| MVoteRequest (m : VoteRequest)
| MVoteResponse (m : VoteResponse)
| MAppendRequest (m : AppendRequest)
| MAppendResponse (m : AppendResponse)
| MInstallSnapshotRequest (m : InstallSnapshotRequest)
| MInstallSnapshotResponse (m : InstallSnapshotResponse)
| MConfigChangeRequest (m : ConfigChangeRequest)
| MConfigChangeResponse (m : ConfigChangeResponse).

Record Envelope := mkEnvelope { from : N; to : N; group_id : N; message : Message }.

(** [Envelope::new] and [Envelope::with_group]. *)
Definition env_new (f t : N) (m : Message) : Envelope := mkEnvelope f t 0 m.
Definition with_group (f t g : N) (m : Message) : Envelope := mkEnvelope f t g m.

Definition message_term (m : Message) : N :=
  match m with
  | MVoteRequest m => vq_term m
  | MVoteResponse m => vr_term m
  | MAppendRequest m => aq_term m
  | MAppendResponse m => ar_term m
  | MInstallSnapshotRequest m => iq_term m
  | MInstallSnapshotResponse m => ir_term m
  | MConfigChangeRequest m => cq_term m
  | MConfigChangeResponse m => cr_term m
  end.

(** ** The node *)

Record RaftConfig := mkRaftConfig {
  id : N; peers : list N; election_timeout_ticks : N; heartbeat_interval_ticks : N }.

Inductive Role : Type := Follower | Candidate | Leader.

#[export] Instance Role_eq_dec : EqDecision Role.
Proof. solve_decision. Defined.

Record PendingRead := mkPendingRead {
  request_id : N; read_index : N; pr_term : N; ack_seq : N; acks : gset N }.

Record RaftNode := mkNode {
  config : RaftConfig;
  current_term : N;
  voted_for : option N;
  log : MemLog;
  commit_index : N;
  last_applied : N;
  role : Role;
  leader_id : option N;
  election_ticks : N;
  votes_received : gset N;
  next_index : gmap N N;
  match_index : gmap N N;
  heartbeat_ticks : N;
  applied_entries : list (N * N * bytes);
  pending_reads : list PendingRead;
  current_ack_seq : N;
  last_sent_ack_seq : gmap N N;
  ready_reads : list N;
  pending_snapshot : option (N * N * bytes);
  effective_config : EffectiveConfig;
  current_membership : list ClusterMember;
  pending_membership : option (list ClusterMember)
}.

(** Field updates. *)
Definition set_config (v : RaftConfig) (n : RaftNode) : RaftNode :=
  let '(mkNode _ x1 x2 x3 x4 x5 x6 x7 x8 x9 x10 x11 x12 x13 x14 x15 x16 x17 x18 x19 x20 x21) := n in
  mkNode v x1 x2 x3 x4 x5 x6 x7 x8 x9 x10 x11 x12 x13 x14 x15 x16 x17 x18 x19 x20 x21.
Definition set_current_term (v : N) (n : RaftNode) : RaftNode :=
  let '(mkNode x0 _ x2 x3 x4 x5 x6 x7 x8 x9 x10 x11 x12 x13 x14 x15 x16 x17 x18 x19 x20 x21) := n in
  mkNode x0 v x2 x3 x4 x5 x6 x7 x8 x9 x10 x11 x12 x13 x14 x15 x16 x17 x18 x19 x20 x21.
Definition set_voted_for (v : option N) (n : RaftNode) : RaftNode :=
  let '(mkNode x0 x1 _ x3 x4 x5 x6 x7 x8 x9 x10 x11 x12 x13 x14 x15 x16 x17 x18 x19 x20 x21) := n in
  mkNode x0 x1 v x3 x4 x5 x6 x7 x8 x9 x10 x11 x12 x13 x14 x15 x16 x17 x18 x19 x20 x21.
Definition set_log (v : MemLog) (n : RaftNode) : RaftNode :=
  let '(mkNode x0 x1 x2 _ x4 x5 x6 x7 x8 x9 x10 x11 x12 x13 x14 x15 x16 x17 x18 x19 x20 x21) := n in
  mkNode x0 x1 x2 v x4 x5 x6 x7 x8 x9 x10 x11 x12 x13 x14 x15 x16 x17 x18 x19 x20 x21.
Definition set_commit_index (v : N) (n : RaftNode) : RaftNode :=
  let '(mkNode x0 x1 x2 x3 _ x5 x6 x7 x8 x9 x10 x11 x12 x13 x14 x15 x16 x17 x18 x19 x20 x21) := n in
  mkNode x0 x1 x2 x3 v x5 x6 x7 x8 x9 x10 x11 x12 x13 x14 x15 x16 x17 x18 x19 x20 x21.
Definition set_last_applied (v : N) (n : RaftNode) : RaftNode :=
  let '(mkNode x0 x1 x2 x3 x4 _ x6 x7 x8 x9 x10 x11 x12 x13 x14 x15 x16 x17 x18 x19 x20 x21) := n in
  mkNode x0 x1 x2 x3 x4 v x6 x7 x8 x9 x10 x11 x12 x13 x14 x15 x16 x17 x18 x19 x20 x21.
Definition set_role (v : Role) (n : RaftNode) : RaftNode :=
  let '(mkNode x0 x1 x2 x3 x4 x5 _ x7 x8 x9 x10 x11 x12 x13 x14 x15 x16 x17 x18 x19 x20 x21) := n in
  mkNode x0 x1 x2 x3 x4 x5 v x7 x8 x9 x10 x11 x12 x13 x14 x15 x16 x17 x18 x19 x20 x21.
Definition set_leader_id (v : option N) (n : RaftNode) : RaftNode :=
  let '(mkNode x0 x1 x2 x3 x4 x5 x6 _ x8 x9 x10 x11 x12 x13 x14 x15 x16 x17 x18 x19 x20 x21) := n in
  mkNode x0 x1 x2 x3 x4 x5 x6 v x8 x9 x10 x11 x12 x13 x14 x15 x16 x17 x18 x19 x20 x21.
Definition set_election_ticks (v : N) (n : RaftNode) : RaftNode :=
  let '(mkNode x0 x1 x2 x3 x4 x5 x6 x7 _ x9 x10 x11 x12 x13 x14 x15 x16 x17 x18 x19 x20 x21) := n in
  mkNode x0 x1 x2 x3 x4 x5 x6 x7 v x9 x10 x11 x12 x13 x14 x15 x16 x17 x18 x19 x20 x21.
Definition set_votes_received (v : gset N) (n : RaftNode) : RaftNode :=
  let '(mkNode x0 x1 x2 x3 x4 x5 x6 x7 x8 _ x10 x11 x12 x13 x14 x15 x16 x17 x18 x19 x20 x21) := n in
  mkNode x0 x1 x2 x3 x4 x5 x6 x7 x8 v x10 x11 x12 x13 x14 x15 x16 x17 x18 x19 x20 x21.
Definition set_next_index (v : gmap N N) (n : RaftNode) : RaftNode :=
  let '(mkNode x0 x1 x2 x3 x4 x5 x6 x7 x8 x9 _ x11 x12 x13 x14 x15 x16 x17 x18 x19 x20 x21) := n in
  mkNode x0 x1 x2 x3 x4 x5 x6 x7 x8 x9 v x11 x12 x13 x14 x15 x16 x17 x18 x19 x20 x21.
Definition set_match_index (v : gmap N N) (n : RaftNode) : RaftNode :=
  let '(mkNode x0 x1 x2 x3 x4 x5 x6 x7 x8 x9 x10 _ x12 x13 x14 x15 x16 x17 x18 x19 x20 x21) := n in
  mkNode x0 x1 x2 x3 x4 x5 x6 x7 x8 x9 x10 v x12 x13 x14 x15 x16 x17 x18 x19 x20 x21.
Definition set_heartbeat_ticks (v : N) (n : RaftNode) : RaftNode :=
  let '(mkNode x0 x1 x2 x3 x4 x5 x6 x7 x8 x9 x10 x11 _ x13 x14 x15 x16 x17 x18 x19 x20 x21) := n in
  mkNode x0 x1 x2 x3 x4 x5 x6 x7 x8 x9 x10 x11 v x13 x14 x15 x16 x17 x18 x19 x20 x21.
Definition set_applied_entries (v : list (N * N * bytes)) (n : RaftNode) : RaftNode :=
  let '(mkNode x0 x1 x2 x3 x4 x5 x6 x7 x8 x9 x10 x11 x12 _ x14 x15 x16 x17 x18 x19 x20 x21) := n in
  mkNode x0 x1 x2 x3 x4 x5 x6 x7 x8 x9 x10 x11 x12 v x14 x15 x16 x17 x18 x19 x20 x21.
Definition set_pending_reads (v : list PendingRead) (n : RaftNode) : RaftNode :=
  let '(mkNode x0 x1 x2 x3 x4 x5 x6 x7 x8 x9 x10 x11 x12 x13 _ x15 x16 x17 x18 x19 x20 x21) := n in
  mkNode x0 x1 x2 x3 x4 x5 x6 x7 x8 x9 x10 x11 x12 x13 v x15 x16 x17 x18 x19 x20 x21.
Definition set_current_ack_seq (v : N) (n : RaftNode) : RaftNode :=
  let '(mkNode x0 x1 x2 x3 x4 x5 x6 x7 x8 x9 x10 x11 x12 x13 x14 _ x16 x17 x18 x19 x20 x21) := n in
  mkNode x0 x1 x2 x3 x4 x5 x6 x7 x8 x9 x10 x11 x12 x13 x14 v x16 x17 x18 x19 x20 x21.
Definition set_last_sent_ack_seq (v : gmap N N) (n : RaftNode) : RaftNode :=
  let '(mkNode x0 x1 x2 x3 x4 x5 x6 x7 x8 x9 x10 x11 x12 x13 x14 x15 _ x17 x18 x19 x20 x21) := n in
  mkNode x0 x1 x2 x3 x4 x5 x6 x7 x8 x9 x10 x11 x12 x13 x14 x15 v x17 x18 x19 x20 x21.
Definition set_ready_reads (v : list N) (n : RaftNode) : RaftNode :=
  let '(mkNode x0 x1 x2 x3 x4 x5 x6 x7 x8 x9 x10 x11 x12 x13 x14 x15 x16 _ x18 x19 x20 x21) := n in
  mkNode x0 x1 x2 x3 x4 x5 x6 x7 x8 x9 x10 x11 x12 x13 x14 x15 x16 v x18 x19 x20 x21.
Definition set_pending_snapshot (v : option (N * N * bytes)) (n : RaftNode) : RaftNode :=
  let '(mkNode x0 x1 x2 x3 x4 x5 x6 x7 x8 x9 x10 x11 x12 x13 x14 x15 x16 x17 _ x19 x20 x21) := n in
  mkNode x0 x1 x2 x3 x4 x5 x6 x7 x8 x9 x10 x11 x12 x13 x14 x15 x16 x17 v x19 x20 x21.
Definition set_effective_config (v : EffectiveConfig) (n : RaftNode) : RaftNode :=
  let '(mkNode x0 x1 x2 x3 x4 x5 x6 x7 x8 x9 x10 x11 x12 x13 x14 x15 x16 x17 x18 _ x20 x21) := n in
  mkNode x0 x1 x2 x3 x4 x5 x6 x7 x8 x9 x10 x11 x12 x13 x14 x15 x16 x17 x18 v x20 x21.
Definition set_current_membership (v : list ClusterMember) (n : RaftNode) : RaftNode :=
  let '(mkNode x0 x1 x2 x3 x4 x5 x6 x7 x8 x9 x10 x11 x12 x13 x14 x15 x16 x17 x18 x19 _ x21) := n in
  mkNode x0 x1 x2 x3 x4 x5 x6 x7 x8 x9 x10 x11 x12 x13 x14 x15 x16 x17 x18 x19 v x21.
Definition set_pending_membership (v : option (list ClusterMember)) (n : RaftNode) : RaftNode :=
  let '(mkNode x0 x1 x2 x3 x4 x5 x6 x7 x8 x9 x10 x11 x12 x13 x14 x15 x16 x17 x18 x19 x20 _) := n in
  mkNode x0 x1 x2 x3 x4 x5 x6 x7 x8 x9 x10 x11 x12 x13 x14 x15 x16 x17 x18 x19 x20 v.

Definition node_id (n : RaftNode) : N := id (config n).

Definition is_leader (n : RaftNode) : bool := bool_decide (role n = Leader).

Definition members_from_voter_ids (vs : gset N) : list ClusterMember :=
  (λ i, mkMember i [] [] false) <$> set_list vs.

(** [RaftNode::recover]; [commit_index] and [last_applied] restart at zero. *)
Definition recover (c : RaftConfig) (state : PersistedRaftState) : RaftNode :=
  let vs := {[id c]} ∪ list_to_set (peers c) in
  mkNode c (hs_term (hard_state state)) (hs_voted_for (hard_state state)) (p_log state)
    0 0 Follower None 0 ∅ ∅ ∅ 0 [] [] 0 ∅ [] None (stable vs) (members_from_voter_ids vs) None.

(** [RaftNode::new]. *)
Definition node_new (c : RaftConfig) : RaftNode :=
  let vs := {[id c]} ∪ list_to_set (peers c) in
  mkNode c 0 None MemLog_new
    0 0 Follower None 0 ∅ ∅ ∅ 0 [] [] 0 ∅ [] None (stable vs) (members_from_voter_ids vs) None.

Definition persist_view (n : RaftNode) : PersistedRaftState :=
  mkPersisted (mkHardState (current_term n) (voted_for n) (last_included_index (log n))
                 (last_included_term (log n)))
    (log n).

Definition set_recovered_apply_floor (i : N) (n : RaftNode) : RaftNode :=
  set_commit_index i (set_last_applied i n).

(** ** Actions *)

Definition act : Type := RaftNode → RaftNode * list Envelope.

Definition skip : act := λ n, (n, []).
Definition upd (f : RaftNode → RaftNode) : act := λ n, (f n, []).
Definition push (e : RaftNode → Envelope) : act := λ n, (n, [e n]).
Definition andThen (a b : act) : act := λ n,
  let '(n1, o1) := a n in let '(n2, o2) := b n1 in (n2, o1 ++ o2).
Definition ifM (c : RaftNode → bool) (a b : act) : act := λ n, if c n then a n else b n.
(** Runs an action and drops what it pushed ([let _ = ...]). *)
Definition silent (a : act) : act := λ n, ((a n).1, []).
Fixpoint forM {A} (l : list A) (f : A → act) : act :=
  match l with [] => skip | x :: l => andThen (f x) (forM l f) end.


Declare Scope raft_scope.
Infix ">>>" := andThen (at level 60, right associativity) : raft_scope.
Open Scope raft_scope.

(** ** Quorums and membership *)

Definition node_quorum (n : RaftNode) : nat := quorum (stable_config (effective_config n)).
Definition cluster_size (n : RaftNode) : nat := size (voters (stable_config (effective_config n))).

(** The integers [lo, lo + 1, ...], [k] of them. *)
Definition N_range (lo : N) (k : nat) : list N := (λ j, lo + N.of_nat j) <$> seq 0 k.

Definition replicated_to (n : RaftNode) (idx : N) (i : N) : bool :=
  idx <=? default 0 (match_index n !! i).

Definition try_commit_at (n : RaftNode) (idx : N) : RaftNode :=
  if bool_decide (term_at (log n) idx ≠ Some (current_term n)) then n
  else if commit_quorum_met (replicated_to n idx) (effective_config n)
       then set_commit_index idx n else n.

Definition try_advance_commit (n : RaftNode) : RaftNode :=
  if bool_decide (role n ≠ Leader) then n
  else foldl try_commit_at n
         (N_range (commit_index n + 1) (N.to_nat (last_index (log n) - commit_index n))).

Definition learner_flag (i : N) (members : list ClusterMember) : option bool :=
  (λ p, is_learner p.2) <$> list_find (λ m, m_id m = i) members.

Definition is_self_learner (n : RaftNode) : bool :=
  let current := default false (learner_flag (node_id n) (current_membership n)) in
  match pending_membership n with
  | Some pending => default current (learner_flag (node_id n) pending)
  | None => current
  end.

Definition is_self_voter (n : RaftNode) : bool :=
  bool_decide (node_id n ∈ all_voters (effective_config n)).

Definition sync_peers_from_effective_config (n : RaftNode) : RaftNode :=
  let c := config n in
  set_config (mkRaftConfig (id c) (peers_of (id c) (stable_config (effective_config n)))
                (election_timeout_ticks c) (heartbeat_interval_ticks c)) n.

(** [HashMap::entry(k).or_insert(v)]. *)
Definition or_insert (k v : N) (m : gmap N N) : gmap N N :=
  match m !! k with Some _ => m | None => <[k := v]> m end.

Definition seed_replication_for_members (members : list ClusterMember) (n : RaftNode) : RaftNode :=
  let lst := last_index (log n) in
  foldl (λ n m,
    if m_id m =? node_id n then n
    else set_match_index (or_insert (m_id m) 0 (match_index n))
           (set_next_index (or_insert (m_id m) (lst + 1) (next_index n)) n)) n members.

(** ** Replication *)

Definition node_snapshot (n : RaftNode) : option (N * N * bytes) := log_snapshot (log n).

Definition append_request_for (next : N) (n : RaftNode) : AppendRequest :=
  let prev_idx := next - 1 in
  mkAppendRequest (current_term n) (node_id n) prev_idx (default 0 (term_at (log n) prev_idx))
    (entries_from (log n) next) (commit_index n).

Definition send_append_to (peer : N) : act :=
  upd (λ n, set_last_sent_ack_seq (<[peer := current_ack_seq n]> (last_sent_ack_seq n)) n) >>>
  push (λ n,
    let next := default (last_index (log n) + 1) (next_index n !! peer) in
    let snap_idx := last_included_index (log n) in
    env_new (node_id n) peer
      match (if (next <=? snap_idx) && (0 <? snap_idx) then node_snapshot n else None) with
      | Some (idx, term, data) =>
          MInstallSnapshotRequest (mkSnapRequest (current_term n) (node_id n) idx term data)
      | None => MAppendRequest (append_request_for next n)
      end).

Definition append_targets (n : RaftNode) : list N :=
  peers (config n) ++
  filter (λ i, i ≠ node_id n ∧ i ∉ peers (config n)) (set_list (dom (next_index n))).

Definition send_append_to_all : act := λ n, forM (append_targets n) send_append_to n.

(** [self.log.append(..)] by a leader, with its own match and next index. *)
Definition leader_append (cmd : bytes) (n : RaftNode) : RaftNode :=
  let n := set_log (log_append (mkEntry (current_term n) cmd) (log n)) n in
  let idx := last_index (log n) in
  set_next_index (<[node_id n := idx + 1]> (next_index n))
    (set_match_index (<[node_id n := idx]> (match_index n)) n).

(** ** Stepping down *)

Definition step_down_keeping_vote (n : RaftNode) : RaftNode :=
  set_pending_reads [] (set_votes_received ∅ (set_election_ticks 0
    (set_leader_id None (set_role Follower n)))).

Definition step_down (new_term : N) (n : RaftNode) : RaftNode :=
  set_pending_reads [] (set_votes_received ∅ (set_election_ticks 0
    (set_leader_id None (set_role Follower (set_voted_for None (set_current_term new_term n)))))).

(** ** Applying committed entries *)

Definition enter_joint (vs : list N) (members : list ClusterMember) (n : RaftNode) : RaftNode :=
  let n := set_effective_config
             (JointConfig (stable_config (effective_config n)) (from_voters vs)) n in
  seed_replication_for_members members
    (sync_peers_from_effective_config (set_current_membership members n)).

Definition enter_final (vs : list N) (members : list ClusterMember) (n : RaftNode) : RaftNode :=
  let n := set_effective_config (Stable (from_voters vs)) n in
  seed_replication_for_members members
    (set_pending_membership None
       (sync_peers_from_effective_config (set_current_membership members n))).

(** The final-configuration entry the leader appends once the joint one applies. *)
Definition append_final_config : act := λ n,
  match pending_membership n with
  | Some final_members =>
      (upd (λ n, leader_append (cmd_encode (CConfigChange Final final_members))
                   (set_pending_membership None n)) >>>
       send_append_to_all >>>
       upd try_advance_commit) n
  | None => skip n
  end.

Definition apply_config_command (phase : ConfigChangePhase) (members : list ClusterMember) : act :=
  let vs := voter_ids members in
  match phase with
  | Joint => upd (enter_joint vs members) >>>
             ifM is_leader append_final_config skip
  | Final => upd (enter_final vs members)
  end >>>
  ifM (λ n, negb (is_self_voter n) && bool_decide (role n ≠ Follower))
    (upd step_down_keeping_vote) skip.

(** One iteration of the loop of [try_advance_apply]: the entry at the new
    [last_applied], if the log has it. *)
Definition apply_entry : act := λ n,
  match log_get (log n) (last_applied n) with
  | Some e =>
      (match cmd_decode (command e) with
       | Ok (CConfigChange phase members) => apply_config_command phase members
       | _ => skip
       end >>>
       upd (λ n, set_applied_entries
                   (applied_entries n ++ [(last_applied n, e_term e, command e)]) n)) n
  | None => skip n
  end.

Definition apply_next : act :=
  upd (λ n, set_last_applied (last_applied n + 1) n) >>> apply_entry.

Fixpoint apply_loop (fuel : nat) : act := λ n,
  match fuel with
  | O => skip n
  | S fuel => if last_applied n <? commit_index n then (apply_next >>> apply_loop fuel) n else skip n
  end.

(** A pass applies at most one entry beyond the current end of the log: the
    final-configuration entry it may append itself ([apply_loop_done]). *)
Definition apply_fuel (n : RaftNode) : nat :=
  N.to_nat (N.max (commit_index n) (last_index (log n) + 1) - last_applied n).

Definition read_ready (n : RaftNode) (r : PendingRead) : bool :=
  (node_quorum n <=? size (acks r))%nat && (read_index r <=? last_applied n).

Definition check_pending_reads (n : RaftNode) : RaftNode :=
  if bool_decide (role n ≠ Leader) then n
  else
    set_ready_reads (ready_reads n ++
        (request_id <$> filter (λ r, read_ready n r = true) (pending_reads n)))
      (set_pending_reads (filter (λ r, read_ready n r = false) (pending_reads n)) n).

Definition try_advance_apply : act :=
  (λ n, apply_loop (apply_fuel n) n) >>> upd check_pending_reads.

(** ** Elections *)

(** Leader state at the start of a term, before its no-op entry. *)
Definition init_leader (n : RaftNode) : RaftNode :=
  let n := set_heartbeat_ticks 0 (set_leader_id (Some (node_id n)) (set_role Leader n)) in
  let lst := last_index (log n) in
  let n := foldl (λ n peer,
             set_match_index (<[peer := 0]> (match_index n))
               (set_next_index (<[peer := lst + 1]> (next_index n)) n)) n (peers (config n)) in
  set_next_index (<[node_id n := lst + 1]> (next_index n))
    (set_match_index (<[node_id n := lst]> (match_index n)) n).

Definition become_leader : act :=
  upd init_leader >>>
  upd (leader_append []) >>>
  send_append_to_all >>>
  upd try_advance_commit >>>
  silent try_advance_apply.

Definition has_election_quorum (n : RaftNode) : bool :=
  (election_quorum (effective_config n) <=? size (votes_received n))%nat.

Definition become_candidate (n : RaftNode) : RaftNode :=
  set_votes_received {[node_id n]} (set_election_ticks 0 (set_voted_for (Some (node_id n))
    (set_role Candidate (set_current_term (current_term n + 1) n)))).

Definition vote_request_of (n : RaftNode) : VoteRequest :=
  mkVoteRequest (current_term n) (node_id n) (last_index (log n)) (last_term (log n)).

Definition start_election : act :=
  ifM (λ n, is_self_learner n || negb (is_self_voter n))
    (upd (set_election_ticks 0))
    (upd become_candidate >>>
     ifM has_election_quorum
       become_leader
       (λ n, forM (peers (config n))
               (λ peer, push (λ n, env_new (node_id n) peer (MVoteRequest (vote_request_of n)))) n)).

(** The lexicographic comparison of the tuples [(last_log_term, last_log_index)]. *)
Definition log_up_to_date (req : VoteRequest) (n : RaftNode) : bool :=
  (last_term (log n) <? last_log_term req) ||
  ((last_log_term req =? last_term (log n)) && (last_index (log n) <=? last_log_index req)).

Definition grants_vote (src : N) (req : VoteRequest) (n : RaftNode) : bool :=
  (current_term n <=? vq_term req) && log_up_to_date req n &&
  bool_decide (voted_for n = None ∨ voted_for n = Some src).

Definition vote_reply (src : N) (granted : bool) (n : RaftNode) : Envelope :=
  env_new (node_id n) src (MVoteResponse (mkVoteResponse (current_term n) granted)).

Definition on_vote_request (src : N) (req : VoteRequest) : act :=
  ifM is_self_learner
    (push (vote_reply src false))
    (ifM (grants_vote src req)
       (upd (λ n, set_election_ticks 0 (set_voted_for (Some src) n)) >>> push (vote_reply src true))
       (push (vote_reply src false))).

Definition on_vote_response (src : N) (resp : VoteResponse) : act :=
  ifM (λ n, bool_decide (role n ≠ Candidate) || (vr_term resp <? current_term n))
    skip
    (if vote_granted resp then
       upd (λ n, set_votes_received ({[src]} ∪ votes_received n) n) >>>
       ifM has_election_quorum become_leader skip
     else skip).

(** ** Log replication *)

Definition append_reply (src : N) (success : bool) (mi : RaftNode → N) (n : RaftNode) : Envelope :=
  env_new (node_id n) src (MAppendResponse (mkAppendResponse (current_term n) success (mi n))).

Definition prev_ok (req : AppendRequest) (n : RaftNode) : bool :=
  (prev_log_index req =? 0) ||
  bool_decide (term_at (log n) (prev_log_index req) = Some (prev_log_term req)).

(** One entry of the request against the log. *)
Definition merge_entry (l : MemLog) (idx : N) (e : LogEntry) : MemLog :=
  match term_at l idx with
  | Some existing_term =>
      if existing_term =? e_term e then l else log_append e (truncate_from idx l)
  | None => log_append e l
  end.

Fixpoint merge_entries (l : MemLog) (idx : N) (es : list LogEntry) : MemLog :=
  match es with
  | [] => l
  | e :: es => merge_entries (merge_entry l idx e) (idx + 1) es
  end.

Definition accept_leader (leader : N) (n : RaftNode) : RaftNode :=
  set_election_ticks 0 (set_leader_id (Some leader) (set_role Follower n)).

Definition follower_commit (leader_commit : N) (n : RaftNode) : RaftNode :=
  if commit_index n <? leader_commit
  then set_commit_index (N.min leader_commit (last_index (log n))) n else n.

Definition on_append_request (src : N) (req : AppendRequest) : act :=
  ifM (λ n, aq_term req <? current_term n)
    (push (append_reply src false (λ _, 0)))
    (upd (accept_leader (aq_leader_id req)) >>>
     ifM (prev_ok req)
       (upd (λ n, set_log (merge_entries (log n) (prev_log_index req + 1) (aq_entries req)) n) >>>
        upd (follower_commit (leader_commit req)) >>>
        push (append_reply src true (λ n, last_index (log n))))
       (push (append_reply src false (λ n, last_index (log n))))).

Definition ack_reads (src : N) (resp : AppendResponse) (n : RaftNode) : RaftNode :=
  if ar_term resp =? current_term n then
    match last_sent_ack_seq n !! src with
    | Some last_sent =>
        set_pending_reads
          ((λ r, if (ack_seq r <=? last_sent) && (pr_term r =? current_term n)
                 then mkPendingRead (request_id r) (read_index r) (pr_term r) (ack_seq r)
                        ({[src]} ∪ acks r)
                 else r) <$> pending_reads n) n
    | None => n
    end
  else n.

Definition advance_match (src mi : N) (n : RaftNode) : RaftNode :=
  if default 0 (match_index n !! src) <? mi
  then set_next_index (<[src := mi + 1]> (next_index n))
         (set_match_index (<[src := mi]> (match_index n)) n)
  else n.

Definition back_off (src hint : N) (n : RaftNode) : RaftNode :=
  let ni := default 1 (next_index n !! src) in
  let backed := if (0 <? hint) && (hint <? ni) then hint else N.max (ni - 1) 1 in
  set_next_index (<[src := backed]> (next_index n)) n.

Definition on_append_response (src : N) (resp : AppendResponse) : act :=
  ifM (λ n, bool_decide (role n ≠ Leader) || (ar_term resp <? current_term n))
    skip
    (upd (ack_reads src resp) >>>
     if ar_success resp then
       upd (advance_match src (ar_match_index resp)) >>> upd try_advance_commit
     else
       upd (back_off src (ar_match_index resp)) >>> send_append_to src).

(** ** Snapshots and configuration messages *)

(** [commit_index] and [last_applied] raised to a snapshot's index. *)
Definition raise_applied (idx : N) (n : RaftNode) : RaftNode :=
  let n := if commit_index n <? idx then set_commit_index idx n else n in
  if last_applied n <? idx then set_last_applied idx n else n.

Definition snapshot_reply (src : N) (success : bool) (n : RaftNode) : Envelope :=
  env_new (node_id n) src (MInstallSnapshotResponse (mkSnapResponse (current_term n) success)).

Definition on_install_snapshot_request (src : N) (req : InstallSnapshotRequest) : act :=
  ifM (λ n, iq_term req <? current_term n)
    (push (snapshot_reply src false))
    (ifM (λ n, current_term n <? iq_term req) (upd (step_down (iq_term req))) skip >>>
     upd (λ n, set_log (install_snapshot (iq_last_included_index req) (iq_last_included_term req)
                          (iq_data req) (log n)) n) >>>
     upd (raise_applied (iq_last_included_index req)) >>>
     upd (set_pending_snapshot
            (Some (iq_last_included_index req, iq_last_included_term req, iq_data req))) >>>
     push (snapshot_reply src true)).

Definition on_install_snapshot_response (src : N) (resp : InstallSnapshotResponse) : act :=
  ifM (λ n, bool_decide (role n ≠ Leader) || (ir_term resp <? current_term n))
    skip
    (if ir_success resp then
       upd (λ n, let snap_idx := last_included_index (log n) in
                 set_next_index (<[src := snap_idx + 1]> (next_index n))
                   (set_match_index (<[src := snap_idx]> (match_index n)) n))
     else skip).

Definition config_reply (src : N) (success : bool) (n : RaftNode) : Envelope :=
  env_new (node_id n) src (MConfigChangeResponse (mkConfigResponse (current_term n) success)).

Definition on_config_change_request (src : N) (req : ConfigChangeRequest) : act :=
  ifM (λ n, cq_term req <? current_term n)
    (push (config_reply src false))
    (ifM (λ n, current_term n <? cq_term req) (upd (step_down (cq_term req))) skip >>>
     push (config_reply src true)).

Definition on_config_change_response (src : N) (resp : ConfigChangeResponse) : act := skip.

(** ** Entry points *)

Definition tick : act :=
  ifM is_leader
    (upd (λ n, set_heartbeat_ticks (heartbeat_ticks n + 1) n) >>>
     ifM (λ n, heartbeat_interval_ticks (config n) <=? heartbeat_ticks n)
       (upd (set_heartbeat_ticks 0) >>> send_append_to_all) skip)
    (upd (λ n, set_election_ticks (election_ticks n + 1) n) >>>
     ifM (λ n, election_timeout_ticks (config n) <=? election_ticks n) start_election skip) >>>
  try_advance_apply.

Definition dispatch (src : N) (m : Message) : act :=
  match m with
  | MVoteRequest m => on_vote_request src m
  | MVoteResponse m => on_vote_response src m
  | MAppendRequest m => on_append_request src m
  | MAppendResponse m => on_append_response src m
  | MInstallSnapshotRequest m => on_install_snapshot_request src m
  | MInstallSnapshotResponse m => on_install_snapshot_response src m
  | MConfigChangeRequest m => on_config_change_request src m
  | MConfigChangeResponse m => on_config_change_response src m
  end.

Definition handle (env : Envelope) : act :=
  ifM (λ n, current_term n <? message_term (message env))
    (upd (step_down (message_term (message env)))) skip >>>
  dispatch (from env) (message env) >>>
  try_advance_apply.

Definition broadcast : act := ifM is_leader send_append_to_all skip.

(** [propose]: the envelopes of the apply pass are dropped. *)
Definition propose (cmd : bytes) (n : RaftNode) : option N * RaftNode :=
  if is_leader n then
    let n := leader_append cmd n in
    (Some (last_index (log n)), (try_advance_apply (try_advance_commit n)).1)
  else (None, n).

Definition propose_read (rid : N) (n : RaftNode) : option N * RaftNode :=
  if is_leader n then
    let n := set_current_ack_seq (current_ack_seq n + 1) n in
    let read := mkPendingRead rid (commit_index n) (current_term n) (current_ack_seq n)
                  {[node_id n]} in
    let n := check_pending_reads (set_pending_reads (pending_reads n ++ [read]) n) in
    (Some (commit_index n), n)
  else (None, n).

Inductive TransferError : Type := NotLeader | NotVoter (target : N).

Definition transfer_leadership (target : N) (n : RaftNode) : result TransferError () * RaftNode :=
  if negb (is_leader n) then (Err NotLeader, n)
  else if negb (bool_decide (target ∈ all_voters (effective_config n)))
       then (Err (NotVoter target), n)
  else if target =? node_id n then (Ok (), n)
  else (Ok (), step_down_keeping_vote n).

Definition drain_ready_reads (n : RaftNode) : list N * RaftNode :=
  (ready_reads n, set_ready_reads [] n).
Definition drain_applied (n : RaftNode) : list (N * N * bytes) * RaftNode :=
  (applied_entries n, set_applied_entries [] n).
Definition drain_installed_snapshot (n : RaftNode) : option (N * N * bytes) * RaftNode :=
  (pending_snapshot n, set_pending_snapshot None n).

(** Drops the prefix of the applied history before the first entry above [up]. *)
Fixpoint trim_applied (up : N) (l : list (N * N * bytes)) : list (N * N * bytes) :=
  match l with
  | [] => []
  | x :: l' => if up <? x.1.1 then x :: l' else trim_applied up l'
  end.

Definition compact (up_to_index up_to_term : N) (data : bytes) (n : RaftNode) : RaftNode :=
  let n := set_log (install_snapshot up_to_index up_to_term data (log n)) n in
  let n := raise_applied up_to_index n in
  set_applied_entries (trim_applied up_to_index (applied_entries n)) n.

Definition restore_config_from_snapshot (members : list ClusterMember) (n : RaftNode) : RaftNode :=
  enter_final (voter_ids members) members n.

(** [members.sort_by_key(|m| m.id.0)], a stable sort. *)
Definition insert_member (m : ClusterMember) (l : list ClusterMember) : list ClusterMember :=
  let fix go l :=
    match l with
    | [] => [m]
    | x :: l' => if m_id m <=? m_id x then m :: x :: l' else x :: go l'
    end in go l.
Definition sort_members (l : list ClusterMember) : list ClusterMember := foldr insert_member [] l.

Definition change_members (n : RaftNode) (new_members : list ClusterMember) : list ClusterMember :=
  let by_id : gset N := {[node_id n]} ∪ list_to_set (m_id <$> new_members) in
  let members :=
    if existsb (λ m, m_id m =? node_id n) new_members then new_members
    else new_members ++ [mkMember (node_id n) [] [] false] in
  filter (λ m, m_id m ∈ by_id) (sort_members members).

Definition propose_membership_change (new_members : list ClusterMember) (n : RaftNode)
    : option N * RaftNode :=
  if negb (is_leader n) then (None, n)
  else match effective_config n, pending_membership n with
  | Stable _, None =>
      let members := change_members n new_members in
      let n := set_pending_membership (Some members) n in
      let n := leader_append (cmd_encode (CConfigChange Joint members)) n in
      let idx := last_index (log n) in
      let n := seed_replication_for_members members n in
      (Some idx, (try_advance_apply (try_advance_commit n)).1)
  | _, _ => (None, n)
  end.

Record RaftStatus := mkStatus {
  s_id : N; s_role : Role; s_current_term : N; s_commit_index : N; s_last_applied : N;
  s_leader_id : option N }.

Definition status (n : RaftNode) : RaftStatus :=
  mkStatus (node_id n) (role n) (current_term n) (commit_index n) (last_applied n) (leader_id n).
