(* ===== verification/RaftElection.v ===== *)
(** Tracking an action of the Raft node: a preorder on nodes that every step
    respects and a predicate on the envelopes it pushes, composed along the
    structure of the actions; and what the node's helper actions keep. *)
From stdpp Require Import gmap.
From S2P Require Import Prelude Bytes RaftLog RaftConfig RaftCommand RaftStorage RaftNode.

Open Scope N_scope.
Open Scope raft_scope.

(** What a preorder on nodes and a predicate on a node's envelopes must satisfy
    to hold along the actions that replicate the log and apply a configuration:
    each elementary update is in [R], and the requests a leader sends are in [P]. *)
Class CfgRel (R : relation RaftNode) (P : N → Envelope → Prop) : Prop := {
  nr_pre :: PreOrder R;
  nr_id : ∀ n n', R n n' → node_id n' = node_id n;
  nr_append_req : ∀ i peer r, P i (env_new i peer (MAppendRequest r));
  nr_snap_req : ∀ i peer r, P i (env_new i peer (MInstallSnapshotRequest r));
  nr_sent : ∀ m n, R n (set_last_sent_ack_seq m n);
  nr_commit : ∀ n, R n (try_advance_commit n);
  nr_final_entry : ∀ cmd n, is_leader n = true → is_Some (pending_membership n) →
    R n (leader_append cmd (set_pending_membership None n));
  nr_joint : ∀ vs ms n, R n (enter_joint vs ms n);
  nr_final : ∀ vs ms n, R n (enter_final vs ms n);
  nr_keep : ∀ n, R n (step_down_keeping_vote n)
}.

(** The same for the whole apply pass. *)
Class NodeRel (R : relation RaftNode) (P : N → Envelope → Prop) : Prop := {
  nr_cfg :: CfgRel R P;
  nr_applied : ∀ n, R n (set_last_applied (last_applied n + 1) n);
  nr_history : ∀ l n, R n (set_applied_entries l n);
  nr_reads : ∀ n, R n (check_pending_reads n)
}.

Create HintDb raft.

Section Track.
Context {R : relation RaftNode} {P : N → Envelope → Prop} `{!CfgRel R P}.

#[local] Hint Extern 1 (R _ _) =>
  first [apply nr_sent | apply nr_commit | apply nr_joint | apply nr_final | apply nr_keep
        | apply nr_applied | apply nr_history | apply nr_reads] : raft.
#[local] Hint Extern 1 (P _ _) => first [apply nr_append_req | apply nr_snap_req] : raft.

(** From [n], the action respects [R] and pushes only envelopes in [P]. *)
Definition tracks (a : act) (n : RaftNode) : Prop :=
  R n (a n).1 ∧ Forall (P (node_id n)) (a n).2.

Lemma tracks_skip n : tracks skip n.
Proof. split; [reflexivity|constructor]. Qed.

Lemma tracks_upd f n : R n (f n) → tracks (upd f) n.
Proof. split; [done|constructor]. Qed.

Lemma tracks_push e n : P (node_id n) (e n) → tracks (push e) n.
Proof. split; [reflexivity|by repeat constructor]. Qed.

Lemma tracks_andThen a b n : tracks a n → tracks b (a n).1 → tracks (a >>> b) n.
Proof.
  intros [Ha Hoa] [Hr Ho]. unfold tracks, andThen in *. destruct (a n) as [n1 o1]. cbn in *.
  destruct (b n1) as [n2 o2]. cbn in *.
  split; [by etrans|]. apply Forall_app. split; [done|]. by rewrite <-(nr_id _ _ Ha).
Qed.

Lemma tracks_ifM c a b n :
  (c n = true → tracks a n) → (c n = false → tracks b n) → tracks (ifM c a b) n.
Proof. intros Ha Hb. unfold tracks, ifM in *. destruct (c n); auto. Qed.

Lemma tracks_silent a n : tracks a n → tracks (silent a) n.
Proof. intros [Ha _]. split; [done|constructor]. Qed.

Lemma tracks_forM {A} (l : list A) f n : (∀ x n', tracks (f x) n') → tracks (forM l f) n.
Proof.
  intros Hf. revert n. induction l as [|x l IH]; intros n; [apply tracks_skip|].
  apply tracks_andThen; auto.
Qed.

Lemma R_foldl {A} (f : RaftNode → A → RaftNode) l n :
  (∀ n x, R n (f n x)) → R n (foldl f n l).
Proof. intros Hf. revert n. induction l as [|x l IH]; intros n; [reflexivity|]. cbn. etrans; eauto. Qed.

Lemma tracks_send_append_to peer n : tracks (send_append_to peer) n.
Proof.
  apply tracks_andThen; [apply tracks_upd; auto with raft|]. apply tracks_push. cbv beta zeta. repeat case_match; auto with raft.
Qed.

Lemma tracks_send_append_to_all n : tracks send_append_to_all n.
Proof. apply (tracks_forM (append_targets n)). apply tracks_send_append_to. Qed.

Lemma tracks_append_final n : is_leader n = true → tracks append_final_config n.
Proof.
  intros Hl. unfold tracks, append_final_config.
  destruct (pending_membership n) as [fm|] eqn:Ep; [|apply tracks_skip].
  match goal with |- R n (?a n).1 ∧ _ => change (tracks a n) end.
  apply tracks_andThen; [apply tracks_upd, nr_final_entry; by rewrite ?Ep|].
  apply tracks_andThen; [apply tracks_send_append_to_all|apply tracks_upd; auto with raft].
Qed.

Lemma tracks_apply_config phase ms n : tracks (apply_config_command phase ms) n.
Proof.
  apply tracks_andThen.
  - destruct phase; [|apply tracks_upd; auto with raft]. apply tracks_andThen; [apply tracks_upd; auto with raft|].
    apply tracks_ifM; intros Hl; [by apply tracks_append_final|apply tracks_skip].
  - apply tracks_ifM; intros _; [apply tracks_upd; auto with raft|apply tracks_skip].
Qed.

Context `{!NodeRel R P}.

Lemma tracks_apply_entry n : tracks apply_entry n.
Proof.
  unfold tracks, apply_entry.
  destruct (log_get (log n) (last_applied n)) as [e|]; [|apply tracks_skip].
  match goal with |- R n (?a n).1 ∧ _ => change (tracks a n) end.
  apply tracks_andThen; [|apply tracks_upd; auto with raft].
  destruct (cmd_decode (command e)) as [[]|]; try apply tracks_skip. apply tracks_apply_config.
Qed.

Lemma tracks_apply_next n : tracks apply_next n.
Proof. apply tracks_andThen; [apply tracks_upd; auto with raft|apply tracks_apply_entry]. Qed.

Lemma tracks_apply_loop fuel n : tracks (apply_loop fuel) n.
Proof.
  revert n. induction fuel as [|fuel IH]; intros n; [apply tracks_skip|].
  unfold tracks. cbn [apply_loop]. destruct (last_applied n <? commit_index n); [|apply tracks_skip].
  apply tracks_andThen; [apply tracks_apply_next|apply IH].
Qed.

Lemma tracks_try_advance_apply n : tracks try_advance_apply n.
Proof.
  apply tracks_andThen; [apply (tracks_apply_loop (apply_fuel n))|]. apply tracks_upd; auto with raft.
Qed.

End Track.

#[global] Arguments tracks : clear implicits.

(** * What one step of a Raft node does to its term, its vote, its role and the votes it has collected, and which votes it grants to others. *)

(** ** Quiet steps *)

(** Steps that leave term and vote alone, and either keep the role with its
    collected votes or return to follower. *)
Record quiet (n n' : RaftNode) : Prop := {
  q_id : node_id n' = node_id n;
  q_term : current_term n' = current_term n;
  q_vote : voted_for n' = voted_for n;
  q_role : (role n' = role n ∧ votes_received n' = votes_received n) ∨ role n' = Follower
}.

(** An envelope that grants a vote. *)
Definition is_grant (e : Envelope) : bool :=
  match message e with MVoteResponse r => vote_granted r | _ => false end.

Definition plain (i : N) (e : Envelope) : Prop := from e = i ∧ is_grant e = false.

#[export] Instance quiet_preorder : PreOrder quiet.
Proof.
  split.
  - intros n. split; auto.
  - intros n1 n2 n3 [? ? ? R1] [? ? ? R2]. split; [congruence..|].
    destruct R2 as [[E2 V2]|]; [|by right]. destruct R1 as [[E1 V1]|]; [left|right]; split_and?; congruence.
Qed.

(** Closes the goals where an update touches none of the tracked fields. *)
Ltac quiet_same := intros; match goal with n : RaftNode |- _ => destruct n end; split; cbn; auto.

Lemma quiet_foldl {A} (f : RaftNode → A → RaftNode) l n : (∀ n x, quiet n (f n x)) → quiet n (foldl f n l).
Proof. intros Hf. revert n. induction l as [|x l IH]; intros n; [reflexivity|]. cbn. etrans; eauto. Qed.

Lemma quiet_commit n : quiet n (try_advance_commit n).
Proof.
  unfold try_advance_commit. case_match; [reflexivity|]. apply quiet_foldl. intros m x.
  unfold try_commit_at. repeat case_match; try reflexivity. quiet_same.
Qed.

Lemma quiet_leader_append cmd n : quiet n (leader_append cmd n).
Proof. quiet_same. Qed.

Lemma quiet_seed ms n : quiet n (seed_replication_for_members ms n).
Proof. apply quiet_foldl. intros m x. case_match; [reflexivity|]. quiet_same. Qed.

Lemma quiet_joint vs ms n : quiet n (enter_joint vs ms n).
Proof. unfold enter_joint. etrans; [|apply quiet_seed]. quiet_same. Qed.

Lemma quiet_final vs ms n : quiet n (enter_final vs ms n).
Proof. unfold enter_final. etrans; [|apply quiet_seed]. quiet_same. Qed.

Lemma quiet_reads n : quiet n (check_pending_reads n).
Proof. unfold check_pending_reads. case_match; [reflexivity|]. quiet_same. Qed.

#[export] Instance quiet_cfg_rel : CfgRel quiet plain.
Proof.
  split; try (by intros; apply quiet_commit || apply quiet_joint || apply quiet_final).
  - apply _.
  - intros n n' H. apply H.
  - done.
  - done.
  - quiet_same.
  - intros cmd n _ _. etrans; [|apply quiet_leader_append]. quiet_same.
  - quiet_same.
Qed.

#[export] Instance quiet_node_rel : NodeRel quiet plain.
Proof. split; [apply _|quiet_same|quiet_same|apply quiet_reads]. Qed.

Lemma quiet_send n : tracks quiet plain send_append_to_all n.
Proof. apply tracks_send_append_to_all. Qed.

Lemma quiet_apply n : tracks quiet plain try_advance_apply n.
Proof. apply tracks_try_advance_apply. Qed.

(** ** Election steps *)

(** One step from [n] to [n'] with the envelopes [out], where [g] is the sender
    and the term of the granted vote being delivered, if any. *)
Record election_step (g : option (N * N)) (n n' : RaftNode) (out : list Envelope) : Prop := {
  es_id : node_id n' = node_id n;
  es_term : current_term n <= current_term n';
  es_vote : ∀ c, current_term n' = current_term n → voted_for n = Some c → voted_for n' = Some c;
  es_votes : role n' ≠ Follower →
    (current_term n' = current_term n ∧ role n ≠ Follower ∧
     ∀ i, i ∈ votes_received n' → i ∈ votes_received n ∨ g = Some (i, current_term n)) ∨
    (votes_received n' = {[node_id n]} ∧ voted_for n' = Some (node_id n));
  es_leader : role n' = Leader →
    (role n = Leader ∧ current_term n' = current_term n ∧ votes_received n' = votes_received n) ∨
    (election_quorum (effective_config n) ≤ size (votes_received n'))%nat;
  es_out : Forall (λ e, from e = node_id n ∧
    (is_grant e = true → message_term (message e) = current_term n' ∧ voted_for n' = Some (to e))) out
}.

Lemma plain_out n' i out :
  Forall (plain i) out →
  Forall (λ e, from e = i ∧
    (is_grant e = true → message_term (message e) = current_term n' ∧ voted_for n' = Some (to e))) out.
Proof. intros H. eapply Forall_impl; [exact H|]. intros e [-> Hg]. split; [done|congruence]. Qed.

Lemma quiet_election_step g n a : tracks quiet plain a n → election_step g n (a n).1 (a n).2.
Proof.
  intros [[Hi Ht Hv Hr] Ho]. split; [done|lia|congruence| | |by apply plain_out].
  - intros Hnf. left. destruct Hr as [[Hr Hvr]|]; [|done]. split_and!; [done|congruence|].
    intros i Hin. left. congruence.
  - intros Hl. left. destruct Hr as [[Hr Hvr]|]; [|congruence]. by rewrite <-Hr.
Qed.

(** A quiet action may follow an election step. *)
Lemma election_step_then g n a b :
  election_step g n (a n).1 (a n).2 → tracks quiet plain b (a n).1 →
  election_step g n ((a >>> b) n).1 ((a >>> b) n).2.
Proof.
  unfold andThen. destruct (a n) as [n1 o1]. cbn. intros [Hi Ht Hv Hvs Hl Ho] [[Qi Qt Qv Qr] Qo].
  destruct (b n1) as [n2 o2]. cbn in *.
  split; [congruence|lia|intros; rewrite Qv; apply Hv; congruence| | |].
  - intros Hnf. destruct Qr as [[Qr Qs]|]; [|done]. rewrite Qt, Qs, Qv. apply Hvs. congruence.
  - intros Hld. destruct Qr as [[Qr Qs]|]; [|congruence]. rewrite Qt, Qs. apply Hl. congruence.
  - apply Forall_app. split; [by rewrite Qt, Qv|]. apply plain_out. by rewrite <-Hi.
Qed.

Lemma election_step_ticks g n k n' out :
  election_step g (set_election_ticks k n) n' out → election_step g n n' out.
Proof. destruct n. intros [? ? ? ? ? ?]. by split. Qed.

(** Adopting a higher term first. *)
Lemma election_step_down g n t n' out :
  current_term n < t → election_step g (step_down t n) n' out → election_step g n n' out.
Proof.
  intros Ht. destruct n; cbn in *. intros [Hi Ht' Hv Hvs Hl Ho]; cbn in *.
  split; cbn in *; [done|lia|intros; lia| | |done].
  - intros Hnf. destruct (Hvs Hnf) as [(_ & ? & _)|]; [done|by right].
  - intros Hld. destruct (Hl Hld) as [(? & _)|]; [done|by right].
Qed.

(** ** Becoming leader *)

Lemma init_leader_facts n :
  let n' := init_leader n in
  node_id n' = node_id n ∧ current_term n' = current_term n ∧ voted_for n' = voted_for n ∧
  votes_received n' = votes_received n ∧ role n' = Leader.
Proof.
  unfold init_leader. set (n0 := set_heartbeat_ticks _ _).
  assert (node_id n0 = node_id n ∧ current_term n0 = current_term n ∧ voted_for n0 = voted_for n ∧
    votes_received n0 = votes_received n ∧ role n0 = Leader) as H0 by (unfold n0; by destruct n).
  cbv zeta. set (m := foldl _ _ _).
  assert (node_id m = node_id n0 ∧ current_term m = current_term n0 ∧ voted_for m = voted_for n0 ∧
    votes_received m = votes_received n0 ∧ role m = role n0) as Hm.
  { unfold m. generalize (peers (config n0)), (last_index (log n0)). intros l k. clear.
    generalize n0. induction l as [|p l IH]; intros n1; [done|]. cbn [foldl].
    destruct (IH (set_match_index (<[p:=0]> (match_index (set_next_index (<[p:=k + 1]> (next_index n1)) n1)))
      (set_next_index (<[p:=k + 1]> (next_index n1)) n1))) as (? & ? & ? & ? & ?). destruct n1; cbn in *.
    by split_and!. }
  clearbody m. destruct H0 as (<- & <- & <- & <- & <-). destruct Hm as (<- & <- & <- & <- & <-).
  by destruct m.
Qed.

Lemma become_leader_facts n :
  let '(n', out) := become_leader n in
  node_id n' = node_id n ∧ current_term n' = current_term n ∧ voted_for n' = voted_for n ∧
  (role n' = Follower ∨ votes_received n' = votes_received n) ∧ Forall (plain (node_id n)) out.
Proof.
  destruct (init_leader_facts n) as (Hi & Ht & Hv & Hvs & Hr).
  assert (tracks quiet plain (upd (leader_append []) >>> send_append_to_all >>>
    upd try_advance_commit >>> silent try_advance_apply) (init_leader n)) as [[Qi Qt Qv Qr] Qo].
  { apply tracks_andThen; [apply tracks_upd, quiet_leader_append|].
    apply tracks_andThen; [apply quiet_send|].
    apply tracks_andThen; [apply tracks_upd, quiet_commit|apply tracks_silent, quiet_apply]. }
  unfold become_leader. unfold andThen at 1. cbn [upd].
  destruct ((upd (leader_append []) >>> _) (init_leader n)) as [n' out]. cbn in *.
  rewrite Hi in Qo. split_and!; [congruence..| |done].
  destruct Qr as [[_ ?]|?]; [right; congruence|by left].
Qed.

(** ** Handlers *)

Lemma election_ifM g c a b n :
  (c n = true → election_step g n (a n).1 (a n).2) →
  (c n = false → election_step g n (b n).1 (b n).2) →
  election_step g n (ifM c a b n).1 (ifM c a b n).2.
Proof. intros Ha Hb. unfold ifM. destruct (c n); auto. Qed.

Lemma election_start n : election_step None n (start_election n).1 (start_election n).2.
Proof.
  unfold start_election. apply election_ifM; intros _.
  { apply (quiet_election_step _ n (upd (set_election_ticks 0))), tracks_upd. quiet_same. }
  unfold andThen. cbn [upd]. set (c := become_candidate n).
  assert (node_id c = node_id n ∧ current_term c = current_term n + 1 ∧
          voted_for c = Some (node_id n) ∧ votes_received c = {[node_id n]} ∧
          effective_config c = effective_config n ∧ role c = Candidate)
    as (Ci & Ct & Cv & Cvs & Ce & Cr) by (unfold c; by destruct n).
  clearbody c. unfold ifM. destruct (has_election_quorum c) eqn:Hq.
  - pose proof (become_leader_facts c) as Hb. destruct (become_leader c) as [n' out].
    destruct Hb as (Bi & Bt & Bv & Bvs & Bo). cbn.
    split; [congruence|lia|intros; lia| | |].
    + intros Hnf. right. destruct Bvs as [|Bvs]; [done|]. split; congruence.
    + intros Hl. right. destruct Bvs as [|Bvs]; [congruence|]. rewrite Bvs, <-Ce.
      by apply Nat.leb_le in Hq.
    + apply plain_out. by rewrite <-Ci.
  - assert (tracks quiet plain (λ n, forM (peers (config c)) (λ peer, push (λ n,
        env_new (node_id n) peer (MVoteRequest (vote_request_of n)))) n) c) as [[Qi Qt Qv Qr] Qo].
    { apply tracks_forM. intros x m. by apply tracks_push. }
    destruct (forM _ _ c) as [n' out]. cbn in *. split; [congruence|lia|intros; lia| | |].
    + intros Hnf. right. destruct Qr as [[_ Qr]|]; [|done]. split; congruence.
    + intros Hl. destruct Qr as [[Qr _]|Qr]; congruence.
    + apply plain_out. by rewrite <-Ci.
Qed.

Lemma election_vote_request src req n :
  vq_term req <= current_term n →
  election_step None n (on_vote_request src req n).1 (on_vote_request src req n).2.
Proof.
  intros Hle. unfold on_vote_request. apply election_ifM; intros _.
  { apply (quiet_election_step _ n (push (vote_reply src false))), tracks_push. done. }
  apply election_ifM; intros Hg.
  2: { apply (quiet_election_step _ n (push (vote_reply src false))), tracks_push. done. }
  unfold grants_vote in Hg. apply andb_prop in Hg as [_ Hv]. apply bool_decide_eq_true in Hv.
  unfold andThen. cbn. destruct n; cbn in *. split; cbn.
  - done.
  - lia.
  - intros c _ Hc. destruct Hv; congruence.
  - intros Hnf. left. split_and!; [done|done|by left].
  - intros. by left.
  - repeat constructor.
Qed.

Lemma election_vote_response src resp n :
  vr_term resp <= current_term n →
  election_step (if vote_granted resp then Some (src, vr_term resp) else None) n
    (on_vote_response src resp n).1 (on_vote_response src resp n).2.
Proof.
  intros Hle. unfold on_vote_response. apply election_ifM; intros Hc.
  { apply (quiet_election_step _ n skip), tracks_skip. }
  apply orb_false_iff in Hc as [Hr Ht]. apply bool_decide_eq_false in Hr.
  apply dec_stable in Hr. apply N.ltb_ge in Ht.
  destruct (vote_granted resp); [|apply (quiet_election_step _ n skip), tracks_skip].
  unfold andThen. cbn [upd]. set (c := set_votes_received _ _).
  assert (node_id c = node_id n ∧ current_term c = current_term n ∧
          voted_for c = voted_for n ∧ votes_received c = {[src]} ∪ votes_received n ∧
          effective_config c = effective_config n ∧ role c = role n)
    as (Ci & Ct & Cv & Cvs & Ce & Cr) by (unfold c; by destruct n).
  clearbody c. replace (vr_term resp) with (current_term n) by lia.
  assert (∀ i, i ∈ votes_received c → i ∈ votes_received n ∨
            Some (src, current_term n) = Some (i, current_term n)) as Hin.
  { intros i. rewrite Cvs, elem_of_union, elem_of_singleton. intros [->|]; auto. }
  unfold ifM. destruct (has_election_quorum c) eqn:Hq.
  - pose proof (become_leader_facts c) as Hb. destruct (become_leader c) as [n' out].
    destruct Hb as (Bi & Bt & Bv & Bvs & Bo). cbn.
    split; [congruence|lia|congruence| | |].
    + intros Hnf. left. destruct Bvs as [|Bvs]; [done|].
      rewrite Bvs, Hr. split_and!; [congruence|done|done].
    + intros Hl. right. destruct Bvs as [|Bvs]; [congruence|]. rewrite Bvs, <-Ce.
      by apply Nat.leb_le in Hq.
    + apply plain_out. by rewrite <-Ci.
  - cbn. split; [done|lia|congruence| | |constructor].
    + intros _. left. rewrite Hr. by split_and!.
    + intros. congruence.
Qed.

Lemma quiet_append_request src req n : tracks quiet plain (on_append_request src req) n.
Proof.
  apply tracks_ifM; intros _; [by apply tracks_push|].
  apply tracks_andThen; [apply tracks_upd; quiet_same|].
  apply tracks_ifM; intros _; [|by apply tracks_push].
  apply tracks_andThen; [apply tracks_upd; generalize (upd (accept_leader (aq_leader_id req)) n).1; quiet_same|].
  apply tracks_andThen; [|by apply tracks_push]. apply tracks_upd.
  generalize (upd (λ n0 : RaftNode, set_log
    (merge_entries (log n0) (prev_log_index req + 1) (aq_entries req)) n0)
      (upd (accept_leader (aq_leader_id req)) n).1).1.
  intros m. unfold follower_commit. case_match; [|reflexivity]. quiet_same.
Qed.

Lemma quiet_append_response src resp n : tracks quiet plain (on_append_response src resp) n.
Proof.
  apply tracks_ifM; intros _; [apply tracks_skip|].
  apply tracks_andThen.
  { apply tracks_upd. unfold ack_reads. repeat case_match; try reflexivity. quiet_same. }
  generalize (upd (ack_reads src resp) n).1. intros m. destruct (ar_success resp).
  - apply tracks_andThen; [|apply tracks_upd, quiet_commit].
    apply tracks_upd. unfold advance_match. case_match; [|reflexivity]. quiet_same.
  - apply tracks_andThen; [apply tracks_upd; quiet_same|apply tracks_send_append_to].
Qed.

Lemma quiet_raise idx n : quiet n (raise_applied idx n).
Proof. unfold raise_applied. destruct n; cbn. repeat (case_match; cbn); split; cbn; auto. Qed.

Lemma quiet_install src req n :
  iq_term req <= current_term n → tracks quiet plain (on_install_snapshot_request src req) n.
Proof.
  intros Hle. apply tracks_ifM; intros _; [by apply tracks_push|].
  apply tracks_andThen; [apply tracks_ifM; [intros ?%N.ltb_lt; lia|intros _; apply tracks_skip]|].
  generalize (ifM (λ n0, current_term n0 <? iq_term req) (upd (step_down (iq_term req))) skip n).1.
  intros m. apply tracks_andThen; [apply tracks_upd; quiet_same|].
  apply tracks_andThen; [apply tracks_upd, quiet_raise|].
  apply tracks_andThen; [|by apply tracks_push].
  apply tracks_upd. generalize (upd (raise_applied (iq_last_included_index req))
    (upd (λ n0, set_log (install_snapshot (iq_last_included_index req) (iq_last_included_term req)
       (iq_data req) (log n0)) n0) m).1).1. quiet_same.
Qed.

Lemma quiet_install_response src resp n : tracks quiet plain (on_install_snapshot_response src resp) n.
Proof.
  apply tracks_ifM; intros _; [apply tracks_skip|]. case_match; [|apply tracks_skip].
  apply tracks_upd. quiet_same.
Qed.

Lemma quiet_config_request src req n :
  cq_term req <= current_term n → tracks quiet plain (on_config_change_request src req) n.
Proof.
  intros Hle. apply tracks_ifM; intros _; [by apply tracks_push|].
  apply tracks_andThen; [apply tracks_ifM; [intros ?%N.ltb_lt; lia|intros _; apply tracks_skip]|].
  by apply tracks_push.
Qed.

(** The granted vote an envelope carries: its sender and term. *)
Definition grant_of (e : Envelope) : option (N * N) :=
  if is_grant e then Some (from e, message_term (message e)) else None.

Lemma election_dispatch e n :
  message_term (message e) <= current_term n →
  election_step (grant_of e) n (dispatch (from e) (message e) n).1 (dispatch (from e) (message e) n).2.
Proof.
  intros Hle. unfold grant_of, is_grant. destruct (message e); cbn [dispatch message_term] in *.
  - by apply election_vote_request.
  - by apply election_vote_response.
  - apply quiet_election_step, quiet_append_request.
  - apply quiet_election_step, quiet_append_response.
  - by apply quiet_election_step, quiet_install.
  - apply quiet_election_step, quiet_install_response.
  - by apply quiet_election_step, quiet_config_request.
  - apply quiet_election_step, (tracks_skip (R := quiet) (P := plain)).
Qed.

Lemma handle_eq e n :
  handle e n =
  (dispatch (from e) (message e) >>> try_advance_apply)
    (if current_term n <? message_term (message e)
     then step_down (message_term (message e)) n else n).
Proof.
  unfold handle, ifM. unfold andThen at 1.
  destruct (current_term n <? message_term (message e)); cbn [upd skip];
    by destruct ((dispatch _ _ >>> _) _).
Qed.

Lemma election_handle e n : election_step (grant_of e) n (handle e n).1 (handle e n).2.
Proof.
  rewrite handle_eq. destruct (N.ltb_spec (current_term n) (message_term (message e))).
  - eapply election_step_down; [done|].
    apply election_step_then; [apply election_dispatch|apply quiet_apply]. destruct n. cbn. lia.
  - apply election_step_then; [by apply election_dispatch|apply quiet_apply].
Qed.

Lemma election_tick n : election_step None n (tick n).1 (tick n).2.
Proof.
  apply election_step_then; [|apply quiet_apply]. apply election_ifM; intros _.
  - apply quiet_election_step. apply tracks_andThen; [apply tracks_upd; quiet_same|].
    apply tracks_ifM; intros _; [|apply tracks_skip].
    apply tracks_andThen; [apply tracks_upd|apply quiet_send].
    generalize (upd (λ n0, set_heartbeat_ticks (heartbeat_ticks n0 + 1) n0) n).1. quiet_same.
  - unfold andThen. cbn [upd]. set (m := set_election_ticks _ n).
    assert (election_step None m
      (ifM (λ n0, election_timeout_ticks (config n0) <=? election_ticks n0) start_election skip m).1
      (ifM (λ n0, election_timeout_ticks (config n0) <=? election_ticks n0) start_election skip m).2)
      as Hs.
    { apply election_ifM; intros _; [apply election_start|].
      apply (quiet_election_step _ m skip), tracks_skip. }
    destruct (ifM _ start_election skip m) as [n' out]. cbn in *. by eapply election_step_ticks.
Qed.

(** ** All entry points *)

Inductive event : Type :=
| ETick
| EDeliver (e : Envelope)
| EBroadcast
| EPropose (cmd : bytes)
| EProposeRead (rid : N)
| ETransfer (target : N)
| EMembership (members : list ClusterMember)
| ECompact (up_to_index up_to_term : N) (data : bytes)
| ERestoreConfig (members : list ClusterMember)
| EDrainApplied
| EDrainReads
| EDrainSnapshot
| EApplyFloor (index : N)
| ERestart (c : RaftConfig).

(** The calls a driver makes on a node; [ERestart] is a crash after the node's
    durable state was flushed, followed by [recover]. *)
Definition run_event (ev : event) : act :=
  match ev with
  | ETick => tick
  | EDeliver e => handle e
  | EBroadcast => broadcast
  | EPropose cmd => upd (λ n, (propose cmd n).2)
  | EProposeRead rid => upd (λ n, (propose_read rid n).2)
  | ETransfer target => upd (λ n, (transfer_leadership target n).2)
  | EMembership members => upd (λ n, (propose_membership_change members n).2)
  | ECompact i t d => upd (compact i t d)
  | ERestoreConfig members => upd (restore_config_from_snapshot members)
  | EDrainApplied => upd (λ n, (drain_applied n).2)
  | EDrainReads => upd (λ n, (drain_ready_reads n).2)
  | EDrainSnapshot => upd (λ n, (drain_installed_snapshot n).2)
  | EApplyFloor i => upd (set_recovered_apply_floor i)
  | ERestart c => upd (λ n, recover c (persist_view n))
  end.

Definition event_grant (ev : event) : option (N * N) :=
  match ev with EDeliver e => grant_of e | _ => None end.

(** A node restarts under its own identity. *)
Definition event_ok (ev : event) (n : RaftNode) : bool :=
  match ev with ERestart c => id c =? node_id n | _ => true end.

Lemma quiet_commit_apply n m :
  quiet n m → quiet n (try_advance_apply (try_advance_commit m)).1.
Proof. intros H. etrans; [exact H|]. etrans; [apply quiet_commit|apply quiet_apply]. Qed.

Lemma election_event ev n :
  event_ok ev n = true → election_step (event_grant ev) n (run_event ev n).1 (run_event ev n).2.
Proof.
  destruct ev as [|e| |cmd|rid|t|ms|i t d|ms| | | |i|c]; cbn [event_ok event_grant run_event]; intros Hok.
  1: apply election_tick.
  1: apply election_handle.
  all: apply quiet_election_step.
  1: apply tracks_ifM; intros _; [apply quiet_send|apply tracks_skip].
  all: apply tracks_upd.
  - unfold propose. case_match; [|reflexivity]. apply quiet_commit_apply, quiet_leader_append.
  - unfold propose_read. case_match; [|reflexivity]. etrans; [|apply quiet_reads]. quiet_same.
  - unfold transfer_leadership. repeat (case_match; [reflexivity|]). quiet_same.
  - unfold propose_membership_change. repeat case_match; try reflexivity.
    apply quiet_commit_apply. etrans; [|apply quiet_seed]. etrans; [|apply quiet_leader_append]. quiet_same.
  - unfold compact. set (m := set_log _ n). trans m; [subst m; quiet_same|clearbody m].
    trans (raise_applied i m); [apply quiet_raise|]. generalize (raise_applied i m). quiet_same.
  - apply quiet_final.
  - quiet_same.
  - quiet_same.
  - quiet_same.
  - quiet_same.
  - apply N.eqb_eq in Hok. split; cbn; auto.
Qed.

(** ** Properties *)

(** Whatever a driver calls on a node, restarts included, its term never
    decreases, a vote cast in a term is never changed in that term, and every
    vote it grants is for the candidate it has recorded, in its current term. *)
Theorem raft_votes_once (ev : event) (n : RaftNode) :
  event_ok ev n = true →
  let '(n', out) := run_event ev n in
  current_term n <= current_term n' ∧
  (∀ c, current_term n' = current_term n → voted_for n = Some c → voted_for n' = Some c) ∧
  (∀ e, e ∈ out → is_grant e = true →
     from e = node_id n ∧ message_term (message e) = current_term n' ∧ voted_for n' = Some (to e)).
Proof.
  intros Hok. destruct (election_event ev n Hok) as [_ Ht Hv _ _ Ho].
  destruct (run_event ev n) as [n' out]. cbn in *. split_and!; [done..|].
  intros e He Hg. rewrite Forall_forall in Ho. destruct (Ho e He) as [? Hx]. split; [done|by apply Hx].
Qed.

(** A follower of term 3 that has not voted. *)
Definition demo_follower : RaftNode :=
  set_current_term 3 (node_new (mkRaftConfig 1 [2; 3] 10 2)).

Lemma raft_votes_once_witness :
  let ev := EDeliver (env_new 2 1 (MVoteRequest (mkVoteRequest 3 2 0 0))) in
  let '(n', out) := run_event ev demo_follower in
  current_term demo_follower <= current_term n' ∧
  (∀ c, current_term n' = current_term demo_follower → voted_for demo_follower = Some c →
     voted_for n' = Some c) ∧
  (∀ e, e ∈ out → is_grant e = true →
     from e = node_id demo_follower ∧ message_term (message e) = current_term n' ∧
     voted_for n' = Some (to e)).
Proof.
  apply (raft_votes_once (EDeliver (env_new 2 1 (MVoteRequest (mkVoteRequest 3 2 0 0)))) demo_follower).
  done.
Defined.
