(* ===== verification/RaftSafety.v ===== *)
(** Election safety of a Raft cluster.  A cluster is its nodes and every
    envelope sent so far; a step runs one entry point of one node or delivers a
    sent envelope.  Envelopes may be lost, duplicated, delayed and reordered:
    they stay in the list, and any of them may be delivered at any time. *)
From stdpp Require Import gmap relations.
From S2P Require Import Prelude Bytes RaftLog RaftConfig RaftCommand RaftStorage RaftNode RaftElection.

Open Scope N_scope.

Record cluster := mkCluster { nodes : gmap N RaftNode; sent : list Envelope }.

Inductive cluster_event : Type :=
| CNode (i : N) (ev : event)
| CDeliver (k : nat).

(** Runs one entry point of node [i], provided that the node's configuration
    afterwards is the fixed voter set [V]. *)
Definition step_node (V : gset N) (i : N) (ev : event) (C : cluster) : option cluster :=
  n ← nodes C !! i;
  if event_ok ev n then
    let '(n', out) := run_event ev n in
    if bool_decide (effective_config n' = stable V)
    then Some (mkCluster (<[i := n']> (nodes C)) (sent C ++ out)) else None
  else None.

Definition cluster_step (V : gset N) (ce : cluster_event) (C : cluster) : option cluster :=
  match ce with
  | CNode i (EDeliver _) => None
  | CNode i ev => step_node V i ev C
  | CDeliver k => e ← sent C !! k; step_node V (to e) (EDeliver e) C
  end.

Fixpoint cluster_run (V : gset N) (ces : list cluster_event) (C : cluster) : option cluster :=
  match ces with
  | [] => Some C
  | ce :: ces => C' ← cluster_step V ce C; cluster_run V ces C'
  end.

(** The steps of a cluster whose voters stay [V]. *)
Definition cstep (V : gset N) (C C' : cluster) : Prop := ∃ ce, cluster_step V ce C = Some C'.

(** Fresh nodes that all know the voter set. *)
Definition cluster_init (V : gset N) (C : cluster) : Prop :=
  sent C = [] ∧
  ∀ i n, nodes C !! i = Some n →
    ∃ c, id c = i ∧ {[id c]} ∪ list_to_set (peers c) = V ∧ n = node_new c.

Lemma cluster_run_steps V ces C C' : cluster_run V ces C = Some C' → rtc (cstep V) C C'.
Proof.
  revert C. induction ces as [|ce ces IH]; intros C H; cbn in H; [simplify_eq; reflexivity|].
  destruct (cluster_step V ce C) as [C1|] eqn:E; [|done]. eapply rtc_l; [by exists ce|by apply IH].
Qed.

(** ** The invariant *)

(** [H i t c]: node [i] has voted for [c] in term [t] at some point so far. *)
Record inv (V : gset N) (H : N → N → N → Prop) (C : cluster) : Prop := {
  inv_id : ∀ i n, nodes C !! i = Some n → node_id n = i ∧ i ∈ V ∧ effective_config n = stable V;
  inv_voter : ∀ i t c, H i t c → i ∈ V;
  inv_once : ∀ i t c c', H i t c → H i t c' → c = c';
  inv_past : ∀ i t c n, H i t c → nodes C !! i = Some n →
    t <= current_term n ∧ (t = current_term n → voted_for n = Some c);
  inv_vote : ∀ i n c, nodes C !! i = Some n → voted_for n = Some c → H i (current_term n) c;
  inv_sent : ∀ e, e ∈ sent C → is_grant e = true → H (from e) (message_term (message e)) (to e);
  inv_votes : ∀ c n i, nodes C !! c = Some n → role n ≠ Follower → i ∈ votes_received n →
    H i (current_term n) c;
  inv_leader : ∀ c n, nodes C !! c = Some n → role n = Leader →
    (quorum (mkConfig V) ≤ size (votes_received n))%nat
}.

Lemma inv_init V C : cluster_init V C → inv V (λ _ _ _, False) C.
Proof.
  intros [Hs Hn]. split; try done.
  - intros i n Hin. destruct (Hn i n Hin) as (c & <- & HV & ->). split_and!; [done|set_solver|].
    cbn. by rewrite HV.
  - intros i n c Hin. by destruct (Hn i n Hin) as (? & _ & _ & ->).
  - intros e. rewrite Hs. by intros ?%elem_of_nil.
  - intros c n i Hin. by destruct (Hn c n Hin) as (? & _ & _ & ->).
  - intros c n Hin. by destruct (Hn c n Hin) as (? & _ & _ & ->).
Qed.

Lemma inv_step_node V H C i ev n :
  inv V H C → nodes C !! i = Some n → event_ok ev n = true →
  (∀ src t, event_grant ev = Some (src, t) → H src t i) →
  effective_config (run_event ev n).1 = stable V →
  let n' := (run_event ev n).1 in
  inv V (λ j t c, H j t c ∨ (j = i ∧ t = current_term n' ∧ voted_for n' = Some c))
    (mkCluster (<[i := n']> (nodes C)) (sent C ++ (run_event ev n).2)).
Proof.
  intros [Iid Ivr Ionce Ipast Ivote Isent Ivotes Ilead] Hn Hok Hg He.
  destruct (Iid i n Hn) as (Hi & HiV & Hcfg).
  destruct (election_event ev n Hok) as [Ei Et Ev Evs El Eo].
  destruct (run_event ev n) as [n' out]. cbn in *. rewrite Hi in *.
  assert (∀ t c, H i t c → t <= current_term n' ∧ (t = current_term n' → voted_for n' = Some c)) as Hpast'.
  { intros t c Hc. destruct (Ipast i t c n Hc Hn) as [? Hv]. split; [lia|].
    intros ->. apply Ev; [lia|]. apply Hv. lia. }
  split; cbn.
  - intros j m. rewrite lookup_insert_Some. intros [[<- <-]|[_ Hj]]; [done|by apply Iid].
  - intros j t c [?|[-> _]]; [by eapply Ivr|done].
  - intros j t c c' [H1|(-> & -> & H1)] [H2|(? & ? & H2)]; simplify_eq.
    + by eapply Ionce.
    + destruct (Hpast' _ _ H1) as [_ Hx]. specialize (Hx eq_refl). congruence.
    + destruct (Hpast' _ _ H2) as [_ Hx]. specialize (Hx eq_refl). congruence.
    + done.
  - intros j t c m [H1|(-> & -> & H1)]; rewrite lookup_insert_Some; intros [[Ea Eb]|[Hne Hj]];
      simplify_eq.
    + by apply Hpast'.
    + by eapply Ipast.
    + done.
  - intros j m c. rewrite lookup_insert_Some. intros [[<- <-]|[_ Hj]] Hv; [by right|left; by apply Ivote].
  - intros e. rewrite elem_of_app. intros [Hin|Hin] Hgr; [left; by apply Isent|right].
    rewrite Forall_forall in Eo. destruct (Eo e Hin) as [Hf Hx]. destruct (Hx Hgr). by rewrite Hf.
  - intros c m j. rewrite lookup_insert_Some. intros [[<- <-]|[_ Hc]] Hr Hj; [|left; by eapply Ivotes].
    destruct (Evs Hr) as [(Ht & Hr0 & Hin)|(Hv1 & Hv2)].
    + rewrite Ht. destruct (Hin j Hj) as [?|Hgj]; left; [by eapply Ivotes|by apply Hg].
    + rewrite Hv1 in Hj. apply elem_of_singleton in Hj as ->. by right.
  - intros c m. rewrite lookup_insert_Some. intros [[<- <-]|[_ Hc]] Hr; [|by eapply Ilead].
    destruct (El Hr) as [(Hr0 & _ & ->)|Hq]; [by eapply Ilead|]. by rewrite Hcfg in Hq.
Qed.

Lemma inv_cstep V H C C' :
  inv V H C → cstep V C C' → ∃ H', inv V H' C' ∧ ∀ i t c, H i t c → H' i t c.
Proof.
  intros HI [ce Hs].
  assert (∀ i ev, step_node V i ev C = Some C' → (∀ src t, event_grant ev = Some (src, t) → H src t i) →
            ∃ H', inv V H' C' ∧ ∀ i t c, H i t c → H' i t c) as Hnode.
  { intros i ev Hn Hg. unfold step_node in Hn.
    destruct (nodes C !! i) as [n|] eqn:En; [|done]. cbn in Hn. destruct (event_ok ev n) eqn:Eo; [|done].
    destruct (run_event ev n) as [n' out] eqn:Er. case_bool_decide as Hc; [|done]. simplify_eq.
    eexists. split.
    - pose proof (inv_step_node V H C i ev n HI En Eo Hg) as Hx. rewrite Er in Hx. by apply Hx.
    - intros. by left. }
  destruct ce as [i ev|k]; cbn in Hs.
  - destruct ev; try done; apply (Hnode _ _ Hs); by intros.
  - destruct (sent C !! k) as [e|] eqn:Ek; [|done]. cbn in Hs. apply (Hnode _ _ Hs).
    intros src t. cbn. unfold grant_of. destruct (is_grant e) eqn:Eg; [|done].
    intros [= <- <-]. apply (inv_sent V H C HI); [|done]. by eapply list_elem_of_lookup_2.
Qed.

Lemma inv_steps V H C C' :
  inv V H C → rtc (cstep V) C C' → ∃ H', inv V H' C' ∧ ∀ i t c, H i t c → H' i t c.
Proof.
  intros HI Hs. revert H HI. induction Hs as [C|C C1 C' H1 _ IH]; intros H HI; [by exists H|].
  destruct (inv_cstep V H C C1 HI H1) as (H2 & HI2 & Hsub).
  destruct (IH H2 HI2) as (H3 & HI3 & Hsub3). exists H3. split; [done|]. auto.
Qed.

(** The voters behind a leader, as votes cast. *)
Lemma leader_votes V H C i n :
  inv V H C → nodes C !! i = Some n → role n = Leader →
  (quorum (mkConfig V) ≤ size (votes_received n))%nat ∧ votes_received n ⊆ V ∧
  ∀ k, k ∈ votes_received n → H k (current_term n) i.
Proof.
  intros HI Hn Hr.
  assert (∀ k, k ∈ votes_received n → H k (current_term n) i) as Hk.
  { intros k. apply (inv_votes V H C HI i n k Hn). by rewrite Hr. }
  split_and!; [by apply (inv_leader V H C HI i n)| |done].
  intros k Hkin. eapply (inv_voter V H C HI), Hk, Hkin.
Qed.

(** Role and term of a node after a run, as one value to evaluate. *)
Definition role_term (i : N) (C : cluster) : option (Role * N) :=
  (λ n, (role n, current_term n)) <$> nodes C !! i.

Lemma role_term_Some i C r t :
  role_term i C = Some (r, t) → ∃ n, nodes C !! i = Some n ∧ role n = r ∧ current_term n = t.
Proof. unfold role_term. intros (n & E & ?)%fmap_Some. simplify_eq. by exists n. Qed.

(** ** Properties *)

(** Three fresh nodes with staggered election timeouts. *)
Definition demo_cluster : cluster :=
  mkCluster (list_to_map [(1, node_new (mkRaftConfig 1 [2; 3] 1 1));
                          (2, node_new (mkRaftConfig 2 [1; 3] 5 1));
                          (3, node_new (mkRaftConfig 3 [1; 2] 5 1))]) [].

Definition demo_voters : gset N := {[1; 2; 3]}.

(** Node 1 campaigns, node 2 grants, node 1 wins. *)
Definition demo_election : list cluster_event := [CNode 1 ETick; CDeliver 0; CDeliver 2].

(** Four fresh nodes. *)
Definition even_cluster : cluster :=
  mkCluster (list_to_map [(1, node_new (mkRaftConfig 1 [2; 3; 4] 1 1));
                          (2, node_new (mkRaftConfig 2 [1; 3; 4] 5 1));
                          (3, node_new (mkRaftConfig 3 [1; 2; 4] 1 1));
                          (4, node_new (mkRaftConfig 4 [1; 2; 3] 5 1))]) [].

Definition even_voters : gset N := {[1; 2; 3; 4]}.

(** Node 1 campaigns and node 2 votes for it; node 3 campaigns and node 4 votes
    for it. *)
Definition even_split : list cluster_event :=
  [CNode 1 ETick; CNode 3 ETick; CDeliver 0; CDeliver 5; CDeliver 6; CDeliver 7].

Lemma one_leader_per_term (V : gset N) (C0 C1 C2 : cluster) (i j : N) (ni nj : RaftNode) :
  Nat.odd (size V) = true → cluster_init V C0 →
  rtc (cstep V) C0 C1 → rtc (cstep V) C1 C2 →
  nodes C1 !! i = Some ni → role ni = Leader →
  nodes C2 !! j = Some nj → role nj = Leader →
  current_term ni = current_term nj → i = j.
Proof.
  intros Hodd Hinit H01 H12 Hi Hri Hj Hrj Ht.
  destruct (inv_steps V _ C0 C1 (inv_init V C0 Hinit) H01) as (HA & IA & _).
  destruct (inv_steps V HA C1 C2 IA H12) as (HB & IB & Hsub).
  destruct (leader_votes V HA C1 i ni IA Hi Hri) as (Q1 & S1 & A1).
  destruct (leader_votes V HB C2 j nj IB Hj Hrj) as (Q2 & S2 & A2).
  destruct (odd_quorums_meet (mkConfig V) (votes_received ni) (votes_received nj))
    as (k & K1 & K2); [done..|].
  apply (inv_once V HB C2 IB k (current_term nj)); [|by apply A2].
  rewrite <-Ht. by apply Hsub, A1.
Qed.

(** C3: election safety.  In every execution of a cluster whose voter set stays
    [V] with an odd number of voters, under any loss, duplication, delay and
    reordering of messages and any crashes of nodes that recover their durable
    state, at most one node is ever leader in a given term: a leader at one
    point and a leader of the same term at that or any later point are the
    same node. *)
Theorem raft_election_safety (V : gset N) (C0 C1 C2 : cluster) (i j : N) (ni nj : RaftNode) :
  Nat.odd (size V) = true → cluster_init V C0 →
  rtc (cstep V) C0 C1 → rtc (cstep V) C1 C2 →
  nodes C1 !! i = Some ni → role ni = Leader →
  nodes C2 !! j = Some nj → role nj = Leader →
  current_term ni = current_term nj → i = j.
Proof. apply one_leader_per_term. Qed.

Lemma demo_cluster_init : cluster_init demo_voters demo_cluster.
Proof.
  split; [done|]. intros i n Hin.
  apply elem_of_list_to_map_2 in Hin. rewrite !elem_of_cons in Hin.
  destruct Hin as [E|[E|[E|[]%elem_of_nil]]]; simplify_eq; (eexists; split_and!; [| |reflexivity]); by vm_compute.
Qed.

Lemma raft_election_safety_witness :
  ∃ C ni, cluster_run demo_voters demo_election demo_cluster = Some C ∧
    nodes C !! 1 = Some ni ∧ role ni = Leader ∧
    ∀ j nj, nodes C !! j = Some nj → role nj = Leader → current_term ni = current_term nj → 1 = j.
Proof.
  assert (role_term 1 <$> cluster_run demo_voters demo_election demo_cluster =
          Some (Some (Leader, 1))) as (C & E & En%eq_sym)%fmap_Some by by vm_compute.
  apply role_term_Some in En as (ni & En & Hr & _). exists C, ni.
  split_and!; [exact E|exact En|exact Hr|]. intros j nj Hj Hrj Ht.
  apply (raft_election_safety demo_voters demo_cluster C C 1 j ni nj);
    [by vm_compute|apply demo_cluster_init|exact (cluster_run_steps _ demo_election _ _ E)
    |reflexivity|exact En|exact Hr|exact Hj|exact Hrj|exact Ht].
Defined.

(** With an even number of voters election safety fails.  Four fresh nodes
    reach, through granted votes alone, a state with two leaders of the same
    term, because half of the voters already meet the election quorum. *)
Theorem raft_even_split_brain :
  Nat.even (size even_voters) = true ∧ cluster_init even_voters even_cluster ∧
  ∃ C n1 n3, cluster_run even_voters even_split even_cluster = Some C ∧
    nodes C !! 1 = Some n1 ∧ nodes C !! 3 = Some n3 ∧
    role n1 = Leader ∧ role n3 = Leader ∧ current_term n1 = current_term n3.
Proof.
  split_and!; [by vm_compute| |].
  - split; [done|]. intros i n Hin. apply elem_of_list_to_map_2 in Hin. rewrite !elem_of_cons in Hin.
    destruct Hin as [E|[E|[E|[E|[]%elem_of_nil]]]]; simplify_eq; (eexists; split_and!; [| |reflexivity]); by vm_compute.
  - assert ((λ C, (role_term 1 C, role_term 3 C)) <$> cluster_run even_voters even_split even_cluster =
            Some (Some (Leader, 1), Some (Leader, 1))) as (C & E & En%eq_sym)%fmap_Some by by vm_compute.
    apply pair_eq in En as [(n1 & ? & ? & ?)%role_term_Some (n3 & ? & ? & ?)%role_term_Some].
    exists C, n1, n3. split_and!; congruence.
Qed.
