(* ===== verification/RaftReplication.v ===== *)
(** Log replication in a Raft node: how AppendEntries merges entries, which
    indices a leader commits, what the apply pass delivers and that a leader
    never rewrites its own log. *)
From stdpp Require Import gmap.
From S2P Require Import Prelude Bytes RaftLog RaftConfig RaftCommand RaftStorage RaftNode RaftElection.

Open Scope N_scope.
Open Scope raft_scope.

(** ** Merging entries *)

(** The rule of Raft section 5.3 on the entries after the previous index: keep
    the existing entries while their terms agree, and from the first
    disagreement on take the leader's. *)
Fixpoint merge_rule (old es : list LogEntry) {struct es} : list LogEntry :=
  match es, old with
  | [], _ => old
  | _, [] => es
  | e :: es', o :: old' => if e_term o =? e_term e then o :: merge_rule old' es' else es
  end.

Lemma term_at_offset l p k :
  last_included_index l <= p →
  term_at l (p + 1 + N.of_nat k) = e_term <$> drop (N.to_nat (p - last_included_index l)) (entries l) !! k.
Proof.
  intros Hp. unfold term_at, offset_of.
  rewrite (proj2 (N.eqb_neq _ _)), (proj2 (N.leb_gt _ _)) by lia.
  rewrite lookup_drop. do 2 f_equal. lia.
Qed.

Lemma merge_entries_append l idx es :
  last_index l < idx → entries (merge_entries l idx es) = entries l ++ es ∧
  last_included_index (merge_entries l idx es) = last_included_index l.
Proof.
  revert l idx. induction es as [|e es IH]; intros l idx Hi; cbn [merge_entries].
  { by rewrite app_nil_r. }
  assert (term_at l idx = None) as Ht.
  { rewrite last_index_eq in Hi. unfold term_at, offset_of.
    rewrite (proj2 (N.eqb_neq _ _)), (proj2 (N.leb_gt _ _)) by lia.
    rewrite lookup_ge_None_2; [done|]. unfold lenN in Hi. lia. }
  unfold merge_entry. rewrite Ht.
  destruct (IH (log_append e l) (idx + 1)) as [-> ->]; [rewrite last_index_append; lia|].
  cbn. by rewrite <-app_assoc.
Qed.

Lemma merge_entries_rule es l p :
  last_included_index l <= p → p <= last_index l →
  let m := merge_entries l (p + 1) es in
  let k := N.to_nat (p - last_included_index l) in
  entries m = take k (entries l) ++ merge_rule (drop k (entries l)) es ∧
  last_included_index m = last_included_index l.
Proof.
  revert l p. induction es as [|e es IH]; intros l p Hp Hl; cbn [merge_entries].
  { cbn. by rewrite take_drop. }
  rewrite last_index_eq in Hl. unfold lenN in Hl.
  set (k := N.to_nat (p - last_included_index l)).
  pose proof (term_at_offset l p 0 Hp) as Ht. fold k in Ht.
  replace (p + 1 + N.of_nat 0) with (p + 1) in Ht by lia.
  destruct (drop k (entries l)) as [|o old] eqn:Ed; cbn [lookup list_lookup fmap option_fmap option_map] in Ht.
  - (* past the end of the log *)
    unfold merge_entry. rewrite Ht. cbn [merge_rule].
    assert (length (entries l) ≤ k)%nat as Hk.
    { apply (f_equal length) in Ed. rewrite length_drop in Ed. cbn in Ed. lia. }
    rewrite take_ge by done.
    destruct (merge_entries_append (log_append e l) (p + 1 + 1) es) as [-> ->].
    + rewrite last_index_append, last_index_eq. unfold lenN, k in *. lia.
    + cbn. by rewrite <-app_assoc.
  - assert (entries l !! k = Some o) as Hk.
    { rewrite <-(Nat.add_0_r k), <-lookup_drop, Ed. done. }
    pose proof (lookup_lt_Some _ _ _ Hk) as Hlen.
    unfold merge_entry. rewrite Ht. cbn [merge_rule]. destruct (N.eqb_spec (e_term o) (e_term e)).
    + destruct (IH l (p + 1)) as [-> ->]; [lia|rewrite last_index_eq; unfold lenN, k in *; lia|].
      replace (N.to_nat (p + 1 - last_included_index l)) with (S k) by (unfold k; lia).
      rewrite (take_S_r _ _ o) by done. split; [|done]. rewrite <-app_assoc. cbn.
      do 3 f_equal. rewrite <-Nat.add_1_r, <-drop_drop, Ed. done.
    + set (l1 := truncate_from (p + 1) l).
      assert (entries l1 = take k (entries l) ∧ last_included_index l1 = last_included_index l) as [E1 L1].
      { unfold l1, truncate_from, offset_of. rewrite (proj2 (N.eqb_neq _ _)), (proj2 (N.leb_gt _ _)) by lia.
        cbn. split; [|done]. f_equal. unfold k. lia. }
      destruct (merge_entries_append (log_append e l1) (p + 1 + 1) es) as [-> ->].
      * rewrite last_index_append, last_index_eq, E1, L1. unfold lenN, k in *. rewrite length_take. lia.
      * cbn. rewrite E1, L1. by rewrite <-app_assoc.
Qed.

Lemma merge_rule_terms old es k e :
  es !! k = Some e → ∃ o, merge_rule old es !! k = Some o ∧ e_term o = e_term e ∧
    (o = e ∨ old !! k = Some o).
Proof.
  revert old k. induction es as [|x es IH]; intros [|o old] [|k] Hk; cbn in Hk; simplify_eq; cbn [merge_rule].
  - eauto.
  - eauto.
  - destruct (N.eqb_spec (e_term o) (e_term e)); cbn; eauto.
  - destruct (N.eqb_spec (e_term o) (e_term x)); cbn; [|by eauto].
    destruct (IH old k Hk) as (o' & ? & ? & ?). eauto.
Qed.

(** ** Committing *)

(** [idx] may be committed by the leader: an entry of its own term that the
    configuration's quorum stores. *)
Definition committable (n : RaftNode) (idx : N) : Prop :=
  term_at (log n) idx = Some (current_term n) ∧
  commit_quorum_met (replicated_to n idx) (effective_config n) = true.

Lemma try_commit_at_spec n idx :
  (committable n idx ∧ try_commit_at n idx = set_commit_index idx n) ∨
  (¬ committable n idx ∧ try_commit_at n idx = n).
Proof.
  unfold try_commit_at, committable. case_bool_decide as Ht; [right; tauto|].
  destruct (commit_quorum_met _ _) eqn:E; [by left|right].
  split; [|done]. intros [_ ?]. congruence.
Qed.

Lemma commit_foldl n l :
  ∃ c, foldl try_commit_at n l = set_commit_index c n ∧
    ((c = commit_index n ∧ ∀ i, i ∈ l → ¬ committable n i) ∨
     (c ∈ l ∧ committable n c ∧
      ∀ l1 l2, l = l1 ++ c :: l2 → c ∉ l2 → ∀ i, i ∈ l2 → ¬ committable n i)).
Proof.
  induction l as [|x l IH] using rev_ind.
  { exists (commit_index n). split; [by destruct n|]. left. split; [done|]. by intros i ?%elem_of_nil. }
  destruct IH as (c & Hf & Hc). rewrite foldl_app. cbn [foldl]. rewrite Hf.
  assert (∀ i, committable (set_commit_index c n) i ↔ committable n i) as Hcm by (by destruct n).
  destruct (try_commit_at_spec (set_commit_index c n) x) as [[Hx ->]|[Hx ->]]; rewrite Hcm in Hx.
  - exists x. split; [by destruct n|]. right. split_and!; [set_solver|done|].
    intros l1 l2 E Hn i Hi. exfalso.
    destruct l2 as [|y l2 _] using rev_ind; [by apply elem_of_nil in Hi|].
    change (l1 ++ x :: l2 ++ [y]) with (l1 ++ (x :: l2) ++ [y]) in E.
    rewrite app_assoc in E. apply app_inj_tail in E as [_ ->]. set_solver.
  - exists c. split; [done|]. destruct Hc as [[-> Hno]|(Hin & Hcc & Hno)]; [left|right].
    + split; [done|]. intros i [Hi|Hi%list_elem_of_singleton]%elem_of_app; [by apply Hno|by subst].
    + split_and!; [set_solver|done|]. intros l1 l2 E Hn i Hi.
      destruct l2 as [|y l2 _] using rev_ind; [by apply elem_of_nil in Hi|].
      change (l1 ++ c :: l2 ++ [y]) with (l1 ++ (c :: l2) ++ [y]) in E.
      rewrite app_assoc in E. apply app_inj_tail in E as [-> ->].
      apply elem_of_app in Hi as [Hi|Hi%list_elem_of_singleton]; [|by subst].
      apply (Hno l1 l2); [done| |done]. set_solver.
Qed.

Lemma elem_of_N_range lo k i : i ∈ N_range lo k ↔ lo <= i < lo + N.of_nat k.
Proof.
  unfold N_range. rewrite list_elem_of_fmap. setoid_rewrite elem_of_seq. split.
  - intros (j & -> & ?). lia.
  - intros ?. exists (N.to_nat (i - lo)). split; lia.
Qed.

Lemma N_range_app lo a b : N_range lo (a + b) = N_range lo a ++ N_range (lo + N.of_nat a) b.
Proof.
  unfold N_range. rewrite seq_app, fmap_app. f_equal. cbn.
  rewrite <-(Nat.add_0_r a) at 1. rewrite <-fmap_add_seq, <-list_fmap_compose.
  apply list_fmap_ext. intros i x _. cbn. lia.
Qed.

(** The new commit index is the largest index a quorum of the configuration
    stores and that is of the leader's own term, or stays. *)
Lemma try_advance_commit_spec n :
  role n = Leader → commit_index n <= last_index (log n) →
  ∃ c, try_advance_commit n = set_commit_index c n ∧ commit_index n <= c <= last_index (log n) ∧
    (c = commit_index n ∨ committable n c) ∧
    ∀ i, c < i <= last_index (log n) → ¬ committable n i.
Proof.
  intros Hr Hle. unfold try_advance_commit. rewrite bool_decide_eq_false_2 by (rewrite Hr; auto).
  set (k := N.to_nat (last_index (log n) - commit_index n)).
  destruct (commit_foldl n (N_range (commit_index n + 1) k)) as (c & -> & Hc). exists c. split; [done|].
  destruct Hc as [[-> Hno]|(Hin & Hcc & Hno)].
  - split_and!; [lia..|by left|]. intros i Hi. apply Hno, elem_of_N_range. unfold k. lia.
  - apply elem_of_N_range in Hin. split_and!; [unfold k in *; lia..|by right|]. intros i Hi.
    set (a := N.to_nat (c - (commit_index n + 1))). set (b := N.to_nat (last_index (log n) - c)).
    assert (k = a + (1 + b))%nat as Hk by (unfold k, a, b in *; lia).
    eapply (Hno (N_range (commit_index n + 1) a) (N_range (c + 1) b)).
    + rewrite Hk, !N_range_app. f_equal. cbn. f_equal; [unfold a; lia|]. f_equal. unfold a; lia.
    + rewrite elem_of_N_range. lia.
    + apply elem_of_N_range. unfold b. lia.
Qed.

(** ** The apply pass *)

(** A log that grew at its end. *)
Definition log_ext (l l' : MemLog) : Prop := ∃ es, l' = with_entries (entries l ++ es) l.

#[export] Instance log_ext_preorder : PreOrder log_ext.
Proof.
  split.
  - intros l. exists []. rewrite app_nil_r. by destruct l.
  - intros l1 l2 l3 [e1 ->] [e2 ->]. exists (e1 ++ e2). unfold with_entries. cbn. by rewrite app_assoc.
Qed.

Lemma log_ext_append e l : log_ext l (log_append e l).
Proof. by exists [e]. Qed.

Lemma log_ext_last l l' : log_ext l l' → last_index l <= last_index l'.
Proof. intros [es ->]. rewrite !last_index_eq. cbn. rewrite lenN_app. lia. Qed.

Lemma log_ext_get l l' i : log_ext l l' → i <= last_index l → log_get l' i = log_get l i.
Proof.
  intros [es ->]. rewrite last_index_eq. unfold log_get, offset_of, lenN. cbn. intros Hi.
  destruct (N.eqb_spec i 0); [done|]. destruct (N.leb_spec i (last_included_index l)); [done|]. cbn.
  rewrite lookup_app_l; [done|lia].
Qed.

(** The last index an apply pass can reach. *)
Definition apply_room (n : RaftNode) : N :=
  N.max (commit_index n) (last_index (log n) + match pending_membership n with Some _ => 1 | None => 0 end).

(** What applying a configuration keeps of the state the pass works on. *)
Record passes (n n' : RaftNode) : Prop := {
  ps_id : node_id n' = node_id n;
  ps_log : log_ext (log n) (log n');
  ps_commit : commit_index n <= commit_index n';
  ps_bound : commit_index n <= last_index (log n) → commit_index n' <= last_index (log n');
  ps_room : apply_room n' <= apply_room n;
  ps_applied : last_applied n' = last_applied n;
  ps_entries : applied_entries n' = applied_entries n
}.

#[export] Instance passes_preorder : PreOrder passes.
Proof.
  split.
  - intros n. split; done || reflexivity.
  - intros n1 n2 n3 [] []. split; [congruence|by etrans|lia|auto|lia|congruence|congruence].
Qed.

Ltac passes_same :=
  intros; match goal with n : RaftNode |- _ => destruct n end;
  split; unfold apply_room; cbn; try (done || reflexivity || lia).

Lemma passes_commit n : passes n (try_advance_commit n).
Proof.
  unfold try_advance_commit. case_match; [reflexivity|].
  destruct (commit_foldl n (N_range (commit_index n + 1) (N.to_nat (last_index (log n) - commit_index n))))
    as (c & -> & Hc).
  assert (c = commit_index n ∨ commit_index n < c <= last_index (log n)) as Hr.
  { destruct Hc as [[-> _]|(Hin%elem_of_N_range & _)]; [by left|right; lia]. }
  clear Hc. destruct n; cbn in *. split; unfold apply_room; cbn; try (done || reflexivity || lia).
Qed.

Lemma passes_foldl {A} (f : RaftNode → A → RaftNode) l n : (∀ n x, passes n (f n x)) → passes n (foldl f n l).
Proof. intros Hf. revert n. induction l as [|x l IH]; intros n; [reflexivity|]. cbn. etrans; eauto. Qed.

Lemma passes_seed ms n : passes n (seed_replication_for_members ms n).
Proof. apply passes_foldl. intros m x. case_match; [reflexivity|]. passes_same. Qed.

#[export] Instance passes_cfg_rel : CfgRel passes (λ _ _, True).
Proof.
  split; try done.
  - apply _.
  - intros n n' H. apply H.
  - passes_same.
  - apply passes_commit.
  - intros cmd n _ [fm Hp]. destruct n; cbn in Hp; subst. split; unfold apply_room; cbn;
      rewrite ?last_index_append; try (done || lia). apply log_ext_append.
  - intros vs ms n. unfold enter_joint. etrans; [|apply passes_seed]. passes_same.
  - intros vs ms n. unfold enter_final. etrans; [|apply passes_seed].
    destruct n; split; unfold apply_room; cbn; try (done || reflexivity). case_match; lia.
  - passes_same.
Qed.

(** The log entries of the indices in [(a, b]], as the state machine receives them. *)
Definition delivered (l : MemLog) (a b : N) : list (N * N * bytes) :=
  omap (λ i, (λ e, (i, e_term e, command e)) <$> log_get l i) (N_range (a + 1) (N.to_nat (b - a))).

Lemma delivered_step l a b : a < b → delivered l a b = delivered l a (a + 1) ++ delivered l (a + 1) b.
Proof.
  intros Hab. unfold delivered. replace (N.to_nat (b - a)) with (1 + N.to_nat (b - (a + 1)))%nat by lia.
  replace (N.to_nat (a + 1 - a)) with 1%nat by lia. rewrite N_range_app, omap_app. done.
Qed.

Lemma delivered_ext l l' a b :
  log_ext l l' → b <= last_index l → delivered l' a b = delivered l a b.
Proof.
  intros Hx Hb. unfold delivered.
  assert (∀ i, i ∈ N_range (a + 1) (N.to_nat (b - a)) → i <= last_index l) as Hr.
  { intros i. rewrite elem_of_N_range. lia. }
  induction (N_range (a + 1) (N.to_nat (b - a))) as [|i r IH]; [done|]. cbn [omap list_omap].
  rewrite (log_ext_get l l' i Hx) by (apply Hr; set_solver). rewrite IH by set_solver. done.
Qed.

Lemma apply_entry_spec n :
  let n' := (apply_entry n).1 in
  last_applied n' = last_applied n ∧ log_ext (log n) (log n') ∧ commit_index n <= commit_index n' ∧
  (commit_index n <= last_index (log n) → commit_index n' <= last_index (log n')) ∧
  apply_room n' <= apply_room n ∧
  applied_entries n' =
    applied_entries n ++ option_list ((λ e, (last_applied n, e_term e, command e)) <$>
                                        log_get (log n) (last_applied n)).
Proof.
  unfold apply_entry. destruct (log_get (log n) (last_applied n)) as [e|].
  2: { cbn. rewrite app_nil_r. split_and!; done || reflexivity. }
  set (a := match cmd_decode (command e) with Ok (CConfigChange p m) => apply_config_command p m | _ => skip end).
  assert (tracks passes (λ _ _, True) a n) as [Hp _].
  { unfold a. destruct (cmd_decode (command e)) as [[]|]; try apply tracks_skip. apply tracks_apply_config. }
  unfold andThen. destruct (a n) as [m o]. cbn in *.
  destruct Hp as [_ ? ? ? ? Hla Hae]. rewrite <-Hla, <-Hae. clear Hla Hae.
  destruct m; cbn in *. by split_and!.
Qed.

Lemma apply_next_spec n :
  let n' := (apply_next n).1 in
  last_applied n' = last_applied n + 1 ∧ log_ext (log n) (log n') ∧
  commit_index n <= commit_index n' ∧
  (commit_index n <= last_index (log n) → commit_index n' <= last_index (log n')) ∧
  apply_room n' <= apply_room n ∧
  applied_entries n' = applied_entries n ++ delivered (log n) (last_applied n) (last_applied n + 1).
Proof.
  pose proof (apply_entry_spec (set_last_applied (last_applied n + 1) n)) as H.
  unfold apply_next, andThen. cbn [upd]. destruct (apply_entry _) as [n' o]. cbn [fst] in *.
  unfold delivered. replace (N.to_nat (last_applied n + 1 - last_applied n)) with 1%nat by lia.
  destruct n; cbn in *. rewrite N.add_0_r. destruct H as (? & ? & ? & ? & ? & Ha).
  split_and!; [done..|]. rewrite Ha. by destruct (log_get _ _).
Qed.

Lemma apply_loop_spec fuel n :
  (N.to_nat (apply_room n - last_applied n) ≤ fuel)%nat →
  let n' := (apply_loop fuel n).1 in
  last_applied n' = N.max (last_applied n) (commit_index n') ∧
  log_ext (log n) (log n') ∧ commit_index n <= commit_index n' ∧
  (commit_index n <= last_index (log n) →
     commit_index n' <= last_index (log n') ∧
     applied_entries n' = applied_entries n ++ delivered (log n') (last_applied n) (last_applied n')).
Proof.
  revert n. induction fuel as [|fuel IH]; intros n Hf; cbn [apply_loop].
  { assert (commit_index n <= last_applied n) by (unfold apply_room in Hf; lia).
    cbn. split_and!; [lia|reflexivity|lia|]. intros Hc. split; [done|].
    unfold delivered. rewrite N.sub_diag. cbn. by rewrite app_nil_r. }
  destruct (N.ltb_spec (last_applied n) (commit_index n)) as [Hlt|Hge].
  2: { cbn. split_and!; [lia|reflexivity|lia|]. intros Hc. split; [done|].
       unfold delivered. rewrite N.sub_diag. cbn. by rewrite app_nil_r. }
  destruct (apply_next_spec n) as (H1 & H2 & H3 & H4 & H5 & H6).
  unfold andThen. destruct (apply_next n) as [n1 o1]. cbn [fst] in *.
  destruct (IH n1) as (I1 & I2 & I3 & I4); [lia|].
  destruct (apply_loop fuel n1) as [n' o']. cbn [fst] in *.
  split_and!; [lia|by etrans|lia|]. intros Hc. destruct (I4 (H4 Hc)) as [I5 I6]. split; [done|].
  rewrite I6, H6, H1, <-app_assoc. f_equal. rewrite (delivered_step (log n') (last_applied n) (last_applied n')) by lia.
  rewrite (delivered_ext (log n) (log n') _ (last_applied n + 1)); [done|by etrans|lia].
Qed.

Lemma apply_fuel_room n : (N.to_nat (apply_room n - last_applied n) ≤ apply_fuel n)%nat.
Proof. unfold apply_room, apply_fuel. destruct (pending_membership n); lia. Qed.

Lemma check_pending_reads_same n :
  let n' := check_pending_reads n in
  last_applied n' = last_applied n ∧ log n' = log n ∧ commit_index n' = commit_index n ∧
  applied_entries n' = applied_entries n.
Proof. unfold check_pending_reads. case_match; [done|]. by destruct n. Qed.

Lemma try_advance_apply_spec n :
  let n' := (try_advance_apply n).1 in
  last_applied n' = N.max (last_applied n) (commit_index n') ∧
  log_ext (log n) (log n') ∧ commit_index n <= commit_index n' ∧
  (commit_index n <= last_index (log n) →
     commit_index n' <= last_index (log n') ∧
     applied_entries n' = applied_entries n ++ delivered (log n') (last_applied n) (last_applied n')).
Proof.
  destruct (apply_loop_spec (apply_fuel n) n (apply_fuel_room n)) as (H1 & H2 & H3 & H4).
  unfold try_advance_apply, andThen. destruct (apply_loop (apply_fuel n) n) as [m o]. cbn [fst upd] in *.
  destruct (check_pending_reads_same m) as (E1 & E2 & E3 & E4). by rewrite E1, E2, E3, E4.
Qed.

(** ** A leader's own log *)

(** The log after a leader's step: nothing above its snapshot is lost or
    changed, and what is new carries the leader's term. *)
Record log_keeps (t : N) (l l' : MemLog) : Prop := {
  lk_boundary : last_included_index l <= last_included_index l';
  lk_old : ∀ i e, last_included_index l' < i → log_get l i = Some e → log_get l' i = Some e;
  lk_new : ∀ i e, log_get l' i = Some e → log_get l i = Some e ∨ e_term e = t
}.

Lemma log_keeps_refl t l : log_keeps t l l.
Proof. split; auto; lia. Qed.

Lemma log_keeps_trans t l1 l2 l3 : log_keeps t l1 l2 → log_keeps t l2 l3 → log_keeps t l1 l3.
Proof.
  intros [A1 B1 C1] [A2 B2 C2]. split; [lia| |].
  - intros i e Hi He. apply B2; [done|]. apply B1; [lia|done].
  - intros i e He. destruct (C2 i e He) as [?|?]; auto.
Qed.

Lemma log_keeps_append t cmd l : log_keeps t l (log_append (mkEntry t cmd) l).
Proof.
  split; cbn; [lia| |].
  - intros i e _ He. rewrite log_get_append. destruct (N.eqb_spec i (last_index l + 1)) as [->|]; [|done].
    apply log_get_bound in He. lia.
  - intros i e. rewrite log_get_append. destruct (N.eqb_spec i (last_index l + 1)); [|by left].
    intros [= <-]. by right.
Qed.

Lemma log_keeps_install t up term data l : log_keeps t l (install_snapshot up term data l).
Proof.
  destruct (N.leb_spec up (last_included_index l)) as [Hle|Hlt].
  { unfold install_snapshot. rewrite (proj2 (N.leb_le _ _) Hle). apply log_keeps_refl. }
  split.
  - unfold install_snapshot. rewrite (proj2 (N.leb_gt _ _) Hlt). cbn. lia.
  - intros i e Hi He. rewrite log_get_install by done. destruct (N.leb_spec i up); [|done].
    revert Hi. unfold install_snapshot. rewrite (proj2 (N.leb_gt _ _) Hlt). cbn. lia.
  - intros i e. rewrite log_get_install by done. destruct (N.leb_spec i up); [done|by left].
Qed.

(** Steps along which a node that is leader afterwards was leader of the same
    term before, and kept its log. *)
Definition leads (n n' : RaftNode) : Prop :=
  node_id n' = node_id n ∧
  (role n' = Leader → role n = Leader ∧ current_term n' = current_term n ∧
     log_keeps (current_term n) (log n) (log n')).

#[export] Instance leads_preorder : PreOrder leads.
Proof.
  split.
  - intros n. split; [done|]. intros. split_and!; [done..|apply log_keeps_refl].
  - intros n1 n2 n3 [I1 H1] [I2 H2]. split; [congruence|]. intros Hr.
    destruct (H2 Hr) as (R2 & T2 & L2). destruct (H1 R2) as (R1 & T1 & L1).
    split_and!; [done|congruence|]. rewrite T1 in L2. by eapply log_keeps_trans.
Qed.

(** Updates that touch none of role, term and log, or leave no leader. *)
Ltac leads_same :=
  intros; match goal with n : RaftNode |- _ => destruct n end;
  split; cbn in *; [done|try done; intros; split_and!; try done; apply log_keeps_refl].

Lemma leads_foldl {A} (f : RaftNode → A → RaftNode) l n : (∀ n x, leads n (f n x)) → leads n (foldl f n l).
Proof. intros Hf. revert n. induction l as [|x l IH]; intros n; [reflexivity|]. cbn. etrans; eauto. Qed.

Lemma leads_commit n : leads n (try_advance_commit n).
Proof.
  unfold try_advance_commit. case_match; [reflexivity|]. apply leads_foldl. intros m x.
  unfold try_commit_at. repeat case_match; try reflexivity. leads_same.
Qed.

Lemma leads_seed ms n : leads n (seed_replication_for_members ms n).
Proof. apply leads_foldl. intros m x. case_match; [reflexivity|]. leads_same. Qed.

Lemma leads_append cmd n : leads n (leader_append cmd n).
Proof. destruct n; split; cbn; [done|]. intros. split_and!; [done..|apply log_keeps_append]. Qed.

Lemma leads_reads n : leads n (check_pending_reads n).
Proof. unfold check_pending_reads. case_match; [reflexivity|]. leads_same. Qed.

Lemma leads_final vs ms n : leads n (enter_final vs ms n).
Proof. unfold enter_final. etrans; [|apply leads_seed]. leads_same. Qed.

#[export] Instance leads_cfg_rel : CfgRel leads (λ _ _, True).
Proof.
  split; try done.
  - apply _.
  - intros n n' H. apply H.
  - leads_same.
  - apply leads_commit.
  - intros cmd n _ _. etrans; [|apply leads_append]. leads_same.
  - intros vs ms n. unfold enter_joint. etrans; [|apply leads_seed]. leads_same.
  - apply leads_final.
  - leads_same.
Qed.

#[export] Instance leads_node_rel : NodeRel leads (λ _ _, True).
Proof. split; [apply _|leads_same|leads_same|apply leads_reads]. Qed.

Abbreviation stays := (tracks leads (λ _ _, True)).

Lemma leads_raise idx n : leads n (raise_applied idx n).
Proof.
  unfold raise_applied. set (m := if _ : bool then _ else n).
  assert (leads n m) as Hm by (unfold m; case_match; [clear; leads_same|reflexivity]).
  etrans; [exact Hm|]. clearbody m. case_match; [|reflexivity]. clear. leads_same.
Qed.

Lemma stays_dispatch e n :
  role n = Leader → message_term (message e) <= current_term n →
  stays (dispatch (from e) (message e)) n.
Proof.
  intros Hr Hle. destruct (message e) as [m|m|m|m|m|m|m|m]; cbn [dispatch message_term] in *.
  - apply tracks_ifM; intros _; [by apply tracks_push|].
    apply tracks_ifM; intros _; [|by apply tracks_push].
    apply tracks_andThen; [apply tracks_upd; clear Hr Hle; leads_same|by apply tracks_push].
  - apply tracks_ifM; intros Hc; [apply tracks_skip|]. exfalso.
    apply orb_false_iff in Hc as [Hc _]. apply bool_decide_eq_false in Hc. rewrite Hr in Hc. by apply Hc.
  - apply tracks_ifM; intros _; [by apply tracks_push|].
    apply tracks_andThen; [apply tracks_upd; clear Hr Hle; leads_same|]. cbn [upd fst].
    assert (role (accept_leader (aq_leader_id m) n) = Follower) as Hf by (clear; by destruct n).
    generalize dependent (accept_leader (aq_leader_id m) n). clear Hr Hle. intros n1 Hf.
    apply tracks_ifM; intros _; [|by apply tracks_push].
    apply tracks_andThen; [apply tracks_upd; destruct n1; cbn in *; subst; by split|].
    apply tracks_andThen; [|by apply tracks_push]. apply tracks_upd. unfold follower_commit.
    case_match; [|reflexivity]. destruct n1; cbn in *; subst. by split.
  - apply tracks_ifM; intros _; [apply tracks_skip|]. apply tracks_andThen.
    { apply tracks_upd. unfold ack_reads. repeat case_match; try reflexivity. clear. leads_same. }
    generalize (upd (ack_reads (from e) m) n).1. clear. intros n. destruct (ar_success m).
    + apply tracks_andThen; [|apply tracks_upd, leads_commit].
      apply tracks_upd. unfold advance_match. case_match; [|reflexivity]. clear. leads_same.
    + apply tracks_andThen; [apply tracks_upd; leads_same|apply tracks_send_append_to].
  - apply tracks_ifM; intros _; [by apply tracks_push|].
    apply tracks_andThen; [apply tracks_ifM; [intros ?%N.ltb_lt; lia|intros _; apply tracks_skip]|].
    generalize (ifM (λ n0, current_term n0 <? iq_term m) (upd (step_down (iq_term m))) skip n).1.
    clear. intros n. apply tracks_andThen.
    { apply tracks_upd. destruct n; split; cbn; [done|]. intros. split_and!; [done..|apply log_keeps_install]. }
    apply tracks_andThen; [apply tracks_upd, leads_raise|].
    apply tracks_andThen; [|by apply tracks_push]. apply tracks_upd. cbn [upd fst].
    generalize (raise_applied (iq_last_included_index m) (set_log (install_snapshot
      (iq_last_included_index m) (iq_last_included_term m) (iq_data m) (log n)) n)). clear. leads_same.
  - apply tracks_ifM; intros _; [apply tracks_skip|]. case_match; [|apply tracks_skip].
    apply tracks_upd. clear Hr Hle. leads_same.
  - apply tracks_ifM; intros _; [by apply tracks_push|].
    apply tracks_andThen; [apply tracks_ifM; [intros ?%N.ltb_lt; lia|intros _; apply tracks_skip]|].
    by apply tracks_push.
  - apply (tracks_skip (R := leads) (P := λ _ _, True)).
Qed.

Lemma leads_commit_apply n m :
  leads n m → leads n (try_advance_apply (try_advance_commit m)).1.
Proof.
  intros H. etrans; [exact H|]. etrans; [apply leads_commit|].
  apply (tracks_try_advance_apply (R := leads) (P := λ _ _, True)).
Qed.

(** A leader's step that ends as leader of the same term. *)
Lemma leader_event ev n :
  event_ok ev n = true → role n = Leader → current_term (run_event ev n).1 = current_term n →
  leads n (run_event ev n).1.
Proof.
  intros Hok Hr.
  destruct ev as [|e| |cmd|rid|t|ms|i t d|ms| | | |i|c]; cbn [run_event]; intros Ht.
  - apply (tracks_andThen (R := leads) (P := λ _ _, True)); [|apply tracks_try_advance_apply].
    apply tracks_ifM; intros Hl; [|by unfold is_leader in Hl; rewrite Hr in Hl].
    apply tracks_andThen; [apply tracks_upd; clear; leads_same|].
    apply tracks_ifM; intros _; [|apply tracks_skip].
    apply tracks_andThen; [apply tracks_upd|apply tracks_send_append_to_all].
    generalize (upd (λ n0, set_heartbeat_ticks (heartbeat_ticks n0 + 1) n0) n).1. clear. leads_same.
  - rewrite handle_eq in *. destruct (N.ltb_spec (current_term n) (message_term (message e))) as [Hlt|Hge].
    + exfalso. set (m := step_down _ n) in *.
      assert (current_term m = message_term (message e)) as Em by (unfold m; by destruct n).
      assert (election_step (grant_of e) m ((dispatch (from e) (message e) >>> try_advance_apply) m).1
        ((dispatch (from e) (message e) >>> try_advance_apply) m).2) as [_ Hmono _ _ _ _].
      { apply election_step_then; [apply election_dispatch; lia|apply quiet_apply]. }
      lia.
    + apply (tracks_andThen (R := leads) (P := λ _ _, True)); [by apply stays_dispatch|].
      apply tracks_try_advance_apply.
  - apply (tracks_ifM (R := leads) (P := λ _ _, True)); intros _;
      [apply tracks_send_append_to_all|apply tracks_skip].
  - cbn [upd fst]. unfold propose. case_match; [|reflexivity]. apply leads_commit_apply, leads_append.
  - cbn [upd fst]. unfold propose_read. case_match; [|reflexivity]. etrans; [|apply leads_reads].
    clear. leads_same.
  - cbn [upd fst]. unfold transfer_leadership. repeat (case_match; [reflexivity|]). clear. leads_same.
  - cbn [upd fst]. unfold propose_membership_change. repeat case_match; try reflexivity.
    apply leads_commit_apply. etrans; [|apply leads_seed]. etrans; [|apply leads_append]. clear. leads_same.
  - cbn [upd fst]. unfold compact. set (m := set_log _ n).
    assert (leads n m) as Hm.
    { subst m. clear. destruct n; split; cbn; [done|]. intros. split_and!; [done..|apply log_keeps_install]. }
    etrans; [exact Hm|]. clearbody m. clear. trans (raise_applied i m); [apply leads_raise|].
    generalize (raise_applied i m). clear. leads_same.
  - apply leads_final.
  - clear. leads_same.
  - clear. leads_same.
  - clear. leads_same.
  - clear. leads_same.
  - split; [|done]. by apply N.eqb_eq in Hok.
Qed.

(** ** Properties *)

(** A request that lies inside the compacted prefix: each entry is compared with the term of the
    snapshot, and one of another term replaces the whole log. *)
Lemma merge_entries_compacted es l p :
  p + lenN es <= last_included_index l →
  let m := merge_entries l (p + 1) es in
  entries m = match last (filter (λ e, e_term e ≠ last_included_term l) es) with Some e => [e] | None => entries l end ∧
  last_included_index m = last_included_index l.
Proof.
  revert l p. induction es as [|e es IH] using rev_ind; intros l p Hp; [done|].
  unfold lenN in Hp. rewrite length_app in Hp. cbn [length] in Hp.
  assert (∀ es l idx, last_included_term (merge_entries l idx es) = last_included_term l) as Hterm.
  { clear. induction es as [|e es IH]; intros l idx; cbn [merge_entries]; [done|]. rewrite IH.
    unfold merge_entry, truncate_from. by repeat case_match. }
  assert (∀ es es' l idx, merge_entries l idx (es ++ es') = merge_entries (merge_entries l idx es) (idx + lenN es) es') as Happ.
  { clear. induction es as [|e es IH]; intros es' l idx; cbn [merge_entries app]; [by rewrite N.add_0_r|].
    rewrite IH. f_equal. unfold lenN. cbn [length]. lia. }
  destruct (IH l p) as [IH1 IH2]; [unfold lenN; lia|]. cbv zeta. rewrite Happ. set (m := merge_entries l (p + 1) es) in *.
  cbn [merge_entries]. unfold merge_entry, term_at. destruct (N.eqb_spec (p + 1 + lenN es) 0); [lia|].
  rewrite IH2. destruct (N.leb_spec (p + 1 + lenN es) (last_included_index l)); [|unfold lenN in *; lia].
  unfold m. rewrite Hterm. fold m. rewrite filter_app. cbn [filter list_filter]. destruct (N.eqb_spec (last_included_term l) (e_term e)) as [Et|Et].
  - rewrite decide_False by (intros Hc; by apply Hc). by rewrite app_nil_r.
  - rewrite decide_True by congruence. rewrite last_snoc. unfold truncate_from. rewrite IH2.
    destruct (N.eqb_spec (p + 1 + lenN es) 0); [lia|].
    destruct (N.leb_spec (p + 1 + lenN es) (last_included_index l)); [done|unfold lenN in *; lia].
Qed.

Lemma prev_ok_within req n : prev_ok req n = true → last_included_index (log n) <= prev_log_index req →
  prev_log_index req <= last_index (log n).
Proof.
  unfold prev_ok, last_index. generalize (prev_log_index req) as p. intros p [->%N.eqb_eq|Ht%bool_decide_eq_true]%orb_true_iff Hp;
    [destruct (entries (log n)); lia|].
  unfold term_at in Ht. destruct (N.eqb_spec p 0) as [Hz|H0]; [destruct (entries (log n)); lia|].
  destruct (N.leb_spec p (last_included_index (log n))); [destruct (entries (log n)); lia|].
  apply fmap_Some in Ht as (e & He%lookup_lt_Some & _). unfold offset_of in He. destruct (entries (log n)) as [|x xs] eqn:E; [cbn in He; lia|].
  rewrite <-E in *. unfold lenN. lia.
Qed.

(** C14: appendEntries on every branch. A request of an older term changes nothing and is refused. A
    request whose previous entry does not match leaves the log and the commit index, and is
    refused with the last index as hint. Any other is accepted: the node follows its sender, the
    commit index follows the leader's up to the end of the log, and the reply reports the last
    index. When the previous index is not inside the compacted prefix, the log becomes the common
    prefix followed by what the Raft rule makes of the rest. When the whole request lies inside
    the compacted prefix, which the Raft rule would ignore, the log is unchanged only if all its
    entries have the term of the snapshot; otherwise the last one of another term replaces the
    whole log. (A request that starts inside the prefix and ends after it is not described.) *)
Theorem raft_append_entries (n : RaftNode) (src : N) (req : AppendRequest) :
  let '(n', out) := on_append_request src req n in
  let p := prev_log_index req in
  let k := N.to_nat (p - last_included_index (log n)) in
  (aq_term req < current_term n →
     n' = n ∧ out = [append_reply src false (λ _, 0) n]) ∧
  (current_term n <= aq_term req → prev_ok req n = false →
     role n' = Follower ∧ log n' = log n ∧ commit_index n' = commit_index n ∧
     out = [append_reply src false (λ n, last_index (log n)) n]) ∧
  (current_term n <= aq_term req → prev_ok req n = true →
     role n' = Follower ∧ leader_id n' = Some (aq_leader_id req) ∧
     commit_index n' = (if commit_index n <? leader_commit req
                        then N.min (leader_commit req) (last_index (log n')) else commit_index n) ∧
     out = [append_reply src true (λ n, last_index (log n)) n'] ∧
     (last_included_index (log n) <= p →
        entries (log n') = take k (entries (log n)) ++ merge_rule (drop k (entries (log n))) (aq_entries req) ∧
        last_included_index (log n') = last_included_index (log n)) ∧
     (p + lenN (aq_entries req) <= last_included_index (log n) →
        entries (log n') = match last (filter (λ e, e_term e ≠ last_included_term (log n)) (aq_entries req)) with
                           | Some e => [e] | None => entries (log n) end ∧
        last_included_index (log n') = last_included_index (log n))).
Proof.
  destruct (on_append_request src req n) as [n' out] eqn:E. cbv zeta.
  unfold on_append_request, ifM in E. destruct (N.ltb_spec (aq_term req) (current_term n)) as [Hlt|Hge].
  { cbn in E. apply pair_eq in E as [<- <-]. split_and!; [by intros|intros; lia..]. }
  unfold andThen at 1 in E. cbn [upd] in E. set (n1 := accept_leader _ n) in E.
  assert (log n1 = log n ∧ commit_index n1 = commit_index n ∧ role n1 = Follower ∧
    leader_id n1 = Some (aq_leader_id req) ∧ node_id n1 = node_id n ∧ current_term n1 = current_term n ∧
    prev_ok req n1 = prev_ok req n) as (E1 & E2 & E3 & E4 & E5 & E6 & E7) by (unfold n1; by destruct n).
  clearbody n1. rewrite E7 in E. split; [lia|]. destruct (prev_ok req n) eqn:Eok.
  - split; [done|]. intros _ _.
    pose proof (λ Hp, merge_entries_rule (aq_entries req) (log n) (prev_log_index req) Hp (prev_ok_within req n Eok Hp)) as M.
    pose proof (merge_entries_compacted (aq_entries req) (log n) (prev_log_index req)) as M'. cbv zeta in M, M'.
    unfold andThen, upd, push in E. cbn [app] in E. rewrite E1 in E. simplify_eq.
    set (l' := merge_entries _ _ _) in *. clearbody l'. destruct n1; cbn in *. subst.
    unfold follower_commit. cbn. destruct (commit_index n <? leader_commit req); by split_and!.
  - split; [|done]. intros _ _. cbn in E. simplify_eq. split_and!; [done..|].
    unfold append_reply. by rewrite E1, E5, E6.
Qed.

(** C16: the commit rule.  A leader's commit index moves to the largest index of
    its own term that a quorum of its configuration stores according to the
    match indices, in the joint phase a quorum of both voter sets; it never
    moves back, never passes the end of the log, and never counts replicas of
    an entry of an earlier term. *)
Theorem raft_commit_rule (n : RaftNode) :
  role n = Leader → commit_index n <= last_index (log n) →
  ∃ c, try_advance_commit n = set_commit_index c n ∧ commit_index n <= c <= last_index (log n) ∧
    (c = commit_index n ∨ committable n c) ∧
    ∀ i, c < i <= last_index (log n) → ¬ committable n i.
Proof. apply try_advance_commit_spec. Qed.

(** A leader of term 2 in a cluster of three with four entries, the last two of
    its own term; node 2 stores the first three. *)
Definition demo_leader : RaftNode :=
  set_match_index (list_to_map [(1, 4); (2, 3); (3, 0)])
    (set_log (mkMemLog [mkEntry 1 [7]; mkEntry 1 [8]; mkEntry 2 []; mkEntry 2 [9]] 0 0 None)
       (set_role Leader (set_current_term 2 (node_new (mkRaftConfig 1 [2; 3] 10 2))))).

Lemma raft_commit_rule_witness :
  ∃ c, try_advance_commit demo_leader = set_commit_index c demo_leader ∧
    commit_index demo_leader <= c <= last_index (log demo_leader) ∧
    (c = commit_index demo_leader ∨ committable demo_leader c) ∧
    ∀ i, c < i <= last_index (log demo_leader) → ¬ committable demo_leader i.
Proof. apply (raft_commit_rule demo_leader); by vm_compute. Defined.

(** C17: the apply pass ends with [last_applied] at the commit index, and hands
    the state machine exactly the log entries after the previous
    [last_applied], each once and in index order; the log only grew, by the
    final-configuration entry the pass may append. *)
Theorem raft_apply_in_order (n : RaftNode) :
  commit_index n <= last_index (log n) →
  let '(n', out) := try_advance_apply n in
  last_applied n' = N.max (last_applied n) (commit_index n') ∧
  log_ext (log n) (log n') ∧ commit_index n <= commit_index n' <= last_index (log n') ∧
  applied_entries n' = applied_entries n ++ delivered (log n') (last_applied n) (last_applied n').
Proof.
  intros Hc. destruct (try_advance_apply_spec n) as (H1 & H2 & H3 & H4). destruct (H4 Hc).
  destruct (try_advance_apply n) as [n' out]. by split_and!.
Qed.

Lemma raft_apply_in_order_witness :
  let n := set_commit_index 3 demo_leader in
  let '(n', out) := try_advance_apply n in
  last_applied n' = N.max (last_applied n) (commit_index n') ∧
  log_ext (log n) (log n') ∧ commit_index n <= commit_index n' <= last_index (log n') ∧
  applied_entries n' = applied_entries n ++ delivered (log n') (last_applied n) (last_applied n').
Proof. apply (raft_apply_in_order (set_commit_index 3 demo_leader)). by vm_compute. Defined.

(** C13: leader append-only.  Whatever is called on a leader, if it is still
    leader of the same term afterwards, every entry of its log above its
    snapshot is still there unchanged, and every new entry carries its term. *)
Theorem raft_leader_append_only (ev : event) (n : RaftNode) :
  event_ok ev n = true → role n = Leader →
  role (run_event ev n).1 = Leader → current_term (run_event ev n).1 = current_term n →
  log_keeps (current_term n) (log n) (log (run_event ev n).1).
Proof. intros Hok Hr Hr' Ht. by destruct (leader_event ev n Hok Hr Ht) as [_ (_ & _ & ?)]. Qed.

Lemma raft_leader_append_only_witness :
  log_keeps (current_term demo_leader) (log demo_leader) (log (run_event (EPropose [5]) demo_leader).1).
Proof. apply (raft_leader_append_only (EPropose [5]) demo_leader); by vm_compute. Defined.

Lemma raft_append_entries_witness :
  let req := mkAppendRequest 2 2 1 1 [mkEntry 2 [5]; mkEntry 2 [6]] 3 in
  let n := set_role Follower demo_leader in
  let '(n', out) := on_append_request 2 req n in
  prev_ok req n = true ∧ last_included_index (log n) <= prev_log_index req ∧
  entries (log n') = take 1 (entries (log n)) ++ merge_rule (drop 1 (entries (log n))) (aq_entries req).
Proof.
  intros req n. pose proof (raft_append_entries n 2 req) as H.
  destruct (on_append_request 2 req n) as [n' out].
  split_and!; [by vm_compute..|]. destruct H as (_ & _ & H).
  destruct H as (_ & _ & _ & _ & H & _); [by vm_compute..|]. destruct H as [H _]; [by vm_compute|exact H].
Defined.

(** ** A delayed request on a compacted log *)

(** A follower of three that received entries 1 and 2, then 3, all committed. *)
Definition first_append : Envelope :=
  env_new 2 1 (MAppendRequest (mkAppendRequest 2 2 0 0 [mkEntry 1 [7]; mkEntry 2 []] 2)).
Definition second_append : Envelope :=
  env_new 2 1 (MAppendRequest (mkAppendRequest 2 2 2 2 [mkEntry 2 [9]] 3)).

(** The follower before and after a second copy of the first request arrives;
    in between it compacted up to index 2. *)
Definition compacted_follower : RaftNode :=
  compact 2 2 [42]
    (handle second_append (handle first_append (node_new (mkRaftConfig 1 [2; 3] 10 2))).1).1.
Definition after_duplicate : RaftNode := (handle first_append compacted_follower).1.

(** A duplicated AppendEntries request that reaches below the follower's
    snapshot destroys committed entries: [term_at] answers the snapshot's term
    for every covered index, so an entry of an older term looks like a
    conflict, the whole retained log is cut, and the old entry is appended
    under an index that is not its own, although the index is committed and
    applied. *)
Theorem raft_stale_append_corrupts :
  commit_index compacted_follower = 3 ∧ last_applied compacted_follower = 3 ∧
  log_get (log compacted_follower) 3 = Some (mkEntry 2 [9]) ∧
  commit_index after_duplicate = 3 ∧ last_applied after_duplicate = 3 ∧
  log_get (log after_duplicate) 3 = Some (mkEntry 1 [7]).
Proof. by vm_compute. Qed.
