(* ===== verification/EngineSnapshot.v ===== *)
(** Engine snapshots, [kaya-engine/src/snapshot.rs]: the serialized view of the tables and the
    memtable that Raft ships to a lagging replica, its installation, and the pins it holds on
    the tables. *)
From stdpp Require Import gmap.
From S2P Require Import Prelude Bytes Core Hlc OrdMap Path Disk WalCodec WalWriter InternalKey Memtable Manifest Compaction SstBlock SstSpec Engine EngineReads EngineStore EngineCompact EngineProps RaftCommand.

Open Scope N_scope.

(** How the installation can end early: with an error, or by an index out of range. *)
Inductive SnapError : Type := Bad (x : KayaError) | Panics.

(** ** Format *)

Definition len32 (b : bytes) : bytes := le_bytes 4 (wrap u32_lim (lenN b)).

Definition snap_table (m : TableMetadata) : bytes :=
  le_bytes 8 (table_id m) ++ le_bytes 4 (level m) ++ len32 (path m) ++ path m ++ len32 (smallest_key m) ++ smallest_key m ++
  len32 (largest_key m) ++ largest_key m ++ le_bytes 8 (min_sequence m) ++ le_bytes 8 (max_sequence m) ++
  le_bytes 8 (entry_count m) ++ le_bytes 8 (file_size m) ++ le_bytes 4 (footer_checksum m).

Definition MemRow : Type := bytes * option bytes * N.

(** [memtable_snapshot]. *)
Definition mem_row (x : InternalKey * ValueRecord) : MemRow :=
  match x.2 with VPut value s => (user_key x.1, Some value, s) | VDelete s => (user_key x.1, None, s) end.

Definition snap_row (r : MemRow) : bytes :=
  let '(key, value, seq) := r in
  len32 key ++ key ++ match value with Some v => [1] ++ len32 v ++ v | None => [0] end ++ le_bytes 8 seq.

Definition snap_file (m : TableMetadata) (content : bytes) : bytes :=
  len32 (path m) ++ path m ++ le_bytes 8 (lenN content) ++ content.

(** Everything before the table files. *)
Definition snap_head (tables : list TableMetadata) (rows : list MemRow) (cutoff : N) : bytes :=
  le_bytes 4 (wrap u32_lim (lenN tables)) ++ (tables ≫= snap_table) ++
  le_bytes 4 (wrap u32_lim (lenN rows)) ++ (rows ≫= snap_row) ++ le_bytes 8 cutoff.

(** ** Parsing *)

Definition snap_u32 : parser SnapError N := p_le (Bad (InvalidArgument "truncated snapshot u32")) 4.
Definition at_u64 : parser SnapError N := p_le Panics 8.
Definition at_u32 : parser SnapError N := p_le Panics 4.
Definition at_bytes (n : N) : parser SnapError bytes := p_bytes Panics n.

Definition snap_bytes : parser SnapError bytes := n ← snap_u32; at_bytes n.

Definition take_table : parser SnapError TableMetadata :=
  tid ← at_u64; lvl ← at_u32;
  p ← snap_bytes;
  if negb (utf8_valid p) then perr (Bad (Corruption "bad path in snapshot"))
  else
    sk ← snap_bytes; lk ← snap_bytes;
    min_seq ← at_u64; max_seq ← at_u64; count ← at_u64; size ← at_u64; crc ← at_u32;
    mret (mkTable tid lvl p sk lk min_seq max_seq count size crc).

Definition take_row : parser SnapError MemRow :=
  key ← snap_bytes;
  has_val ← p_bytes Panics 1;
  value ← (if bool_decide (has_val = [1]) then v ← snap_bytes; mret (Some v) else mret None);
  seq ← at_u64;
  mret (key, value, seq).

Definition take_view : parser SnapError (list TableMetadata * list MemRow) :=
  num_tables ← snap_u32;
  pinned ← prepeat (N.to_nat num_tables) take_table;
  num_mt ← snap_u32;
  rows ← prepeat (N.to_nat num_mt) take_row;
  mret (pinned, rows).

(** The loop over the embedded files. *)
Fixpoint candidates (n : nat) (cur : bytes) : list (bytes * bytes) :=
  match n with
  | O => []
  | S n =>
      if lenN cur <? 4 then []
      else
        let plen := le_val (take 4 cur) in
        let cur := drop 4 cur in
        if lenN cur <? plen then []
        else
          let name := take (N.to_nat plen) cur in
          let cur := drop (N.to_nat plen) cur in
          if lenN cur <? 8 then []
          else
            let clen := le_val (take 8 cur) in
            let cur := drop 8 cur in
            if lenN cur <? clen then []
            else (if utf8_valid name then name else [], take (N.to_nat clen) cur) :: candidates n (drop (N.to_nat clen) cur)
  end.

(** The files found after the memtable; [cur] still starts with the cutoff. *)
Definition embedded_files (cur : bytes) : list (bytes * bytes) :=
  if lenN cur <? 4 then []
  else
    let num_candidate := le_val (take 4 cur) in
    if (0 <? num_candidate) && (num_candidate <? 4096) && (4 + num_candidate <=? lenN cur)
    then candidates (N.to_nat num_candidate) (drop 4 cur) else [].

Section Snapshot.
Context {T : Type} `{SstFormat T}.

Definition set_refcounts (r : gmap N N) (e : Engine T) : Engine T :=
  mkEngine (limits e) (durability e) (memtable_max_bytes e) (compaction e) (e_hlc e) (e_use_hlc e)
    (e_max_clock_offset_micros e) (wal e) (memtable e) (e_last_sequence e) (manifest_state e)
    (next_table_id e) (next_manifest_edit_seq e) (live_sstables e) r (gc_watermark e).

(** [*entry(table_id).or_insert(0) += 1]. *)
Definition pin (r : gmap N N) (m : TableMetadata) : gmap N N := <[table_id m := default 0 (r !! table_id m) + 1]> r.
Definition pin_all (tables : list TableMetadata) (e : Engine T) : Engine T :=
  set_refcounts (foldl pin (sstable_refcounts e) tables) e.

(** ** [create_snapshot] *)

Fixpoint read_files (tables : list TableMetadata) : stm (Engine T) bytes :=
  match tables with
  | [] => mret []
  | m :: tables =>
      rel ← lift (path_new (path m));
      flen ← edisk (file_len rel);
      got ← edisk (read_at rel 0 flen);
      rest ← read_files tables;
      mret (snap_file m (got ++ replicate (N.to_nat flen - length got) 0) ++ rest)
  end.

Definition create_snapshot : stm (Engine T) bytes :=
  e ← get_state;
  let rows := mem_row <$> Memtable.entries (memtable e) in
  let pinned := live_tables (manifest_state e) in
  _ ← modify (pin_all pinned);
  files ← read_files pinned;
  mret (snap_head pinned rows (last_sequence (manifest_state e)) ++
        le_bytes 4 (wrap u32_lim (lenN pinned)) ++ files).

(** ** [install_snapshot] *)

(** Writes one embedded file; the outcomes are ignored. *)
Definition write_embedded (e : Engine T) (f : bytes * bytes) : Engine T :=
  if bool_decide (f.1 = []) || bool_decide (f.2 = []) then e
  else match path_new f.1 with
       | Ok rel => (edisk (fsync_file rel) (edisk (write_at rel 0 f.2) e).2).2
       | Err _ => e
       end.

Fixpoint open_tables (tables : list TableMetadata) : stm (Engine T) (list (TableMetadata * T)) :=
  match tables with
  | [] => mret []
  | m :: tables =>
      rel ← lift (path_new (path m));
      len ← edisk (file_len rel);
      got ← edisk (read_at rel 0 len);
      reader ← lift (sst_open (got ++ replicate (N.to_nat len - length got) 0));
      rest ← open_tables tables;
      mret ((m, reader) :: rest)
  end.

Definition put_row (m : Memtable) (r : MemRow) : Memtable :=
  let '(key, value, seq) := r in match value with Some v => mt_put key v seq m | None => mt_delete key seq m end.

Definition adopt (pinned : list TableMetadata) (rows : list MemRow) (cutoff : N) (live : list (TableMetadata * T))
    (e : Engine T) : Engine T :=
  let ms := manifest_state e in
  pin_all pinned
    (set_last_sequence (cutoff - 1)
       (set_memtable (foldl put_row Memtable_new rows)
          (set_manifest_state (mkManifest pinned cutoff (last_edit_seq ms))
             (set_live_sstables (sort_tables live) e)))).

Definition install_snapshot (data : bytes) (e : Engine T) : result SnapError unit * Engine T :=
  match data with
  | [] => (Ok tt, e)
  | _ =>
      match take_view data with
      | Err x => (Err x, e)
      | Ok (pinned, rows, cur) =>
          if lenN cur <? 8 then (Err Panics, e)
          else
            let cutoff := le_val (take 8 cur) in
            let e := foldl write_embedded e (embedded_files cur) in
            match open_tables pinned e with
            | (Err x, e) => (Err (Bad x), e)
            | (Ok live, e) => (Ok tt, adopt pinned rows cutoff live e)
            end
      end
  end.

(** ** [release_snapshot] *)

Definition unpin (r : gmap N N) (tid : N) : gmap N N :=
  match r !! tid with
  | Some c => let c := c - 1 in if c =? 0 then delete tid r else <[tid := c]> r
  | None => r
  end.

Definition rel_short (what : string) : KayaError := InvalidArgument what.
Definition rel_field (what : string) : parser KayaError bytes :=
  n ← p_le (rel_short "truncated snapshot u32") 4; p_bytes (rel_short what) n.

(** One table of the view; only its identifier is used. *)
Definition rel_table : parser KayaError N :=
  tid ← p_le (rel_short "truncated snapshot table id") 8;
  _ ← p_bytes (rel_short "truncated level") 4;
  _ ← rel_field "truncated path"; _ ← rel_field "truncated smallest"; _ ← rel_field "truncated largest";
  _ ← p_bytes (rel_short "truncated table footer") 40;
  mret tid.

Fixpoint release_tables (n : nat) (cur : bytes) (r : gmap N N) : result KayaError unit * gmap N N :=
  match n with
  | O => (Ok tt, r)
  | S n => match rel_table cur with
           | Ok (tid, cur) => release_tables n cur (unpin r tid)
           | Err x => (Err x, r)
           end
  end.

Definition release_snapshot (data : bytes) (e : Engine T) : result KayaError unit * Engine T :=
  match data with
  | [] => (Ok tt, e)
  | _ =>
      match p_le (rel_short "truncated snapshot u32") 4 data with
      | Err x => (Err x, e)
      | Ok (num_tables, cur) =>
          let '(res, r) := release_tables (N.to_nat num_tables) cur (sstable_refcounts e) in
          (res, set_refcounts r e)
      end
  end.

End Snapshot.

(** * What engine snapshots carry over: a memtable arrives intact; tables do not. *)

(** ** Parsing what was written *)

Definition row_ok (r : MemRow) : Prop :=
  lenN r.1.1 < u32_lim ∧ match r.1.2 with Some v => lenN v < u32_lim | None => True end ∧ r.2 < 2 ^ 64.

Lemma parses_snap_u32 v : v < u32_lim → parses snap_u32 v (le_bytes 4 v).
Proof. intros Hv. by apply parses_le. Qed.
Lemma parses_at_u64 v : v < 2 ^ 64 → parses at_u64 v (le_bytes 8 v).
Proof. intros Hv. by apply parses_le. Qed.
Lemma parses_at_u32 v : v < 2 ^ 32 → parses at_u32 v (le_bytes 4 v).
Proof. intros Hv. by apply parses_le. Qed.
Lemma parses_snap_bytes b : lenN b < u32_lim → parses snap_bytes b (len32 b ++ b).
Proof.
  intros Hb. unfold snap_bytes, len32. rewrite wrap_small by done.
  eapply parses_bind; [reflexivity|by apply parses_snap_u32|]. by apply parses_bytes.
Qed.

#[local] Hint Resolve parses_snap_u32 parses_at_u64 parses_at_u32 parses_snap_bytes : kaya_parse.

Lemma parses_table m : meta_ok m → parses take_table m (snap_table m).
Proof.
  intros [H1 H2 H3 H4 H5 H6 H7 Hu Hl _]. unfold take_table, snap_table.
  parse_step. parse_step. rewrite (app_assoc (len32 (path m))).
  eapply parses_bind; [reflexivity|apply parses_snap_bytes; lia|]. rewrite Hu. cbn [negb].
  rewrite (app_assoc (len32 (smallest_key m))). eapply parses_bind; [reflexivity|apply parses_snap_bytes; lia|].
  rewrite (app_assoc (len32 (largest_key m))). eapply parses_bind; [reflexivity|apply parses_snap_bytes; lia|].
  do 4 parse_step. parse_last. destruct m. apply parses_ret.
Qed.

Lemma parses_row r : row_ok r → parses take_row r (snap_row r).
Proof.
  destruct r as [[k v] s]. intros (Hk & Hv & Hs). cbn [fst snd] in *. unfold take_row, snap_row.
  rewrite (app_assoc (len32 k)). eapply parses_bind; [reflexivity|by apply parses_snap_bytes|].
  destruct v as [v|].
  - eapply (parses_bind _ _ [1] _ [1] ((len32 v ++ v) ++ le_bytes 8 s)); [by rewrite <-!app_assoc|by apply parses_bytes|].
    rewrite bool_decide_eq_true_2 by done.
    eapply parses_bind; [reflexivity|eapply parses_bind_tail; [by apply parses_snap_bytes|apply parses_ret]|].
    parse_last. apply parses_ret.
  - eapply (parses_bind _ _ [0] _ [0] (le_bytes 8 s)); [done|by apply parses_bytes|].
    rewrite bool_decide_eq_false_2 by done.
    eapply (parses_bind _ _ None _ [] (le_bytes 8 s)); [done|apply parses_ret|]. parse_last. apply parses_ret.
Qed.

Lemma parses_all {A} (p : parser SnapError A) enc (P : A → Prop) l : (∀ x, P x → parses p x (enc x)) → Forall P l →
  lenN l < u32_lim → parses (n ← snap_u32; prepeat (N.to_nat n) p) l (le_bytes 4 (wrap u32_lim (lenN l)) ++ (l ≫= enc)).
Proof.
  intros Hp Hl Hn. rewrite wrap_small by done. parse_step. rewrite lenN_to_nat. apply parses_prepeat.
  eapply Forall_impl; [exact Hl|exact Hp].
Qed.

Lemma take_view_head tables rows cutoff rest : Forall meta_ok tables → Forall row_ok rows → lenN tables < u32_lim → lenN rows < u32_lim →
  take_view (snap_head tables rows cutoff ++ rest) = Ok ((tables, rows), le_bytes 8 cutoff ++ rest).
Proof.
  intros Ht Hr Hnt Hnr. unfold snap_head. rewrite <-!app_assoc.
  pose proof (parses_all _ _ _ _ parses_table Ht Hnt) as Hpt. pose proof (parses_all _ _ _ _ parses_row Hr Hnr) as Hpr.
  specialize (Hpt (le_bytes 4 (wrap u32_lim (lenN rows)) ++ (rows ≫= snap_row) ++ le_bytes 8 cutoff ++ rest)).
  specialize (Hpr (le_bytes 8 cutoff ++ rest)). rewrite <-!app_assoc in Hpt, Hpr.
  unfold take_view. unfold mbind, parser_bind in *.
  destruct (snap_u32 _) as [[n bs]|]; [|done]. rewrite Hpt.
  destruct (snap_u32 _) as [[n' bs']|]; [|done]. by rewrite Hpr.
Qed.

(** ** The embedded files are never found *)

Lemma lenN_fmap {A B} (f : A → B) l : lenN (f <$> l) = lenN l.
Proof. unfold lenN. by rewrite length_fmap. Qed.

Lemma le_val_concat a b : le_val (a ++ b) = le_val a + 256 ^ N.of_nat (length a) * le_val b.
Proof.
  induction a as [|x a IH]; cbn [app le_val length]; [change (256 ^ N.of_nat 0) with 1; lia|].
  rewrite IH, Nat2N.inj_succ, N.pow_succ_r'. lia.
Qed.

Lemma take_le n v rest : take n (le_bytes n v ++ rest) = le_bytes n v.
Proof. apply take_app_length'. by rewrite length_le_bytes. Qed.
Lemma drop_le n v rest : drop n (le_bytes n v ++ rest) = rest.
Proof. apply drop_app_length'. by rewrite length_le_bytes. Qed.

(** A 64-bit integer is its low and its high half. *)
Lemma le_bytes_halves v : le_bytes 8 v = le_bytes 4 (v mod 2 ^ 32) ++ le_bytes 4 (v / 2 ^ 32).
Proof.
  assert (∀ n m v, le_bytes (n + m) v = le_bytes n (v mod 256 ^ N.of_nat n) ++ le_bytes m (v / 256 ^ N.of_nat n)) as Hg.
  2: { exact (Hg 4%nat 4%nat v). }
  clear v. induction n as [|n IH]; intros m v.
  { change (256 ^ N.of_nat 0) with 1. by rewrite N.div_1_r. }
  change (le_bytes (S n + m) v) with (v mod 256 :: le_bytes (n + m) (v / 256)). rewrite IH, Nat2N.inj_succ, N.pow_succ_r'.
  match goal with |- context [le_bytes (S n) ?x] => change (le_bytes (S n) x) with (x mod 256 :: le_bytes n (x / 256)) end. cbn [app]. f_equal.
  - rewrite N.Div0.mod_mul_r, N.mul_comm, N.Div0.mod_add, N.Div0.mod_mod. done.
  - rewrite N.Div0.mod_mul_r, (N.mul_comm 256 (_ mod _)), N.div_add by done.
    rewrite (N.div_small (v mod 256) 256) by (apply N.mod_lt; done). rewrite N.add_0_l, N.Div0.div_div. done.
Qed.

(** The reader takes the low half of the cutoff for the number of files, since the cutoff is
    still in front; the first name is then empty, and the length that follows is beyond the
    end. *)
Lemma embedded_none cutoff rest : cutoff < 2 ^ 32 →
  (lenN rest < 8 ∨ lenN rest < 8 + le_val (take 8 rest)) →
  embedded_files (le_bytes 8 cutoff ++ rest) = [].
Proof.
  intros Hc Hrest. unfold embedded_files. rewrite le_bytes_halves, N.mod_small, N.div_small by done.
  destruct (N.ltb_spec (lenN ((le_bytes 4 cutoff ++ le_bytes 4 0) ++ rest)) 4); [done|].
  rewrite <-app_assoc, take_le, drop_le, le_val_le_bytes by done.
  destruct ((0 <? cutoff) && (cutoff <? 4096) && (4 + cutoff <=? lenN (le_bytes 4 cutoff ++ le_bytes 4 0 ++ rest))) eqn:Eb; [|done].
  apply andb_prop in Eb as [[H0 _]%andb_prop _]. apply N.ltb_lt in H0.
  destruct (N.to_nat cutoff) as [|n] eqn:En; [lia|]. cbn [candidates].
  destruct (N.ltb_spec (lenN (le_bytes 4 0 ++ rest)) 4); [done|].
  rewrite take_le, drop_le. change (le_val (le_bytes 4 0)) with 0. change (N.to_nat 0) with 0%nat. rewrite drop_0.
  destruct (N.ltb_spec (lenN rest) 0); [lia|]. destruct (N.ltb_spec (lenN rest) 8) as [|H8]; [done|].
  destruct (N.ltb_spec (lenN (drop 8 rest)) (le_val (take 8 rest))) as [|Hge]; [done|].
  unfold lenN in Hge at 1. rewrite length_drop in Hge. unfold lenN in *. lia.
Qed.

Section Transfer.
Context {T : Type} `{SstFormat T}.
Implicit Types e r : Engine T.

Lemma data_cons tables rows cutoff rest : ∃ b bs, snap_head tables rows cutoff ++ rest = b :: bs.
Proof. unfold snap_head. eexists _, _. reflexivity. Qed.

(** Putting the rows of a memtable back one by one rebuilds it. *)
Lemma put_rows l1 l2 : om_sorted (l1 ++ l2) → (∀ ik x, (ik, x) ∈ l2 → vr_sequence x = commit_ts ik) →
  foldl put_row (mkMemtable l1 (foldr N.add 0 (entry_size <$> l1))) (mem_row <$> l2) =
  mkMemtable (l1 ++ l2) (foldr N.add 0 (entry_size <$> (l1 ++ l2))).
Proof.
  revert l1. induction l2 as [|[ik x] l2 IH]; intros l1 Hs Hq; [by rewrite app_nil_r|].
  assert (Forall (λ kv, klt kv.1 ik) l1) as Hlt.
  { clear -Hs. induction l1 as [|[k v] l1 IHl]; [constructor|]. apply om_sorted_cons in Hs as [Hs Hf]. constructor; [|by apply IHl].
    rewrite Forall_app in Hf. destruct Hf as [_ Hf]. by inversion Hf. }
  assert (om_get ik l1 = None) as Hn.
  { clear -Hlt. induction Hlt as [|[k v] l1 Hk _ IHl]; [done|]. cbn [om_get fst] in *. unfold klt in Hk. by rewrite kcmp_opp, Hk. }
  assert (put_row (mkMemtable l1 (foldr N.add 0 (entry_size <$> l1))) (mem_row (ik, x)) =
          mkMemtable (l1 ++ [(ik, x)]) (foldr N.add 0 (entry_size <$> (l1 ++ [(ik, x)])))) as Hp.
  { assert (vr_sequence x = commit_ts ik) as Hx by (apply Hq; left).
    destruct ik as [uk ts], x as [v s|s]; cbn in Hx |- *; subst s; unfold mt_put, mt_delete, mt_write; cbn [Memtable.entries approximate_bytes].
    all: rewrite Hn, om_insert_snoc by done; f_equal; rewrite fmap_app, foldr_app; cbn [fmap list_fmap foldr].
    all: rewrite N.sub_0_r; clear; induction l1 as [|y l1 IHl]; cbn [fmap list_fmap foldr]; lia. }
  rewrite fmap_cons. cbn [foldl]. rewrite Hp.
  rewrite (IH (l1 ++ [(ik, x)])); [by rewrite <-app_assoc|by rewrite <-app_assoc|].
  intros ik' x' Hin. apply Hq. by right.
Qed.

Lemma put_all_rows m : mt_ok m → foldl put_row Memtable_new (mem_row <$> Memtable.entries m) = m.
Proof.
  intros [Hs Hq Hb]. pose proof (put_rows [] (Memtable.entries m)) as Hp. cbn [app] in Hp.
  etrans; [exact (Hp Hs Hq)|]. rewrite <-Hb. by destruct m.
Qed.

(** C30: a snapshot of an engine that holds its data in the memtable only, with rows and a row
    count that fit their fields and a last flushed sequence below 2^32, carries all of it:
    installed on any engine, every key reads there at every timestamp what it reads at the
    sender, deletions and older versions included. *)
Theorem snapshot_memtable_transfers e r : mt_ok (memtable e) → live_sstables e = [] → live_tables (manifest_state e) = [] →
  Forall row_ok (mem_row <$> Memtable.entries (memtable e)) → lenN (Memtable.entries (memtable e)) < u32_lim →
  last_sequence (manifest_state e) < 2 ^ 32 →
  ∃ data, (create_snapshot e).1 = Ok data ∧
    (install_snapshot data r).1 = Ok tt ∧
    memtable (install_snapshot data r).2 = memtable e ∧
    ∀ k at_, get_inner k at_ (install_snapshot data r).2 = get_inner k at_ e.
Proof.
  intros Hm Hl Ht Hr Hn Hc.
  set (data := snap_head [] (mem_row <$> Memtable.entries (memtable e)) (last_sequence (manifest_state e)) ++ le_bytes 4 0).
  assert ((create_snapshot e).1 = Ok data) as Hcr.
  { unfold create_snapshot. rewrite bind_get, bind_modify, Ht. reflexivity. }
  assert (memtable (install_snapshot data r).2 = memtable e ∧ live_sstables (install_snapshot data r).2 = [] ∧
          (install_snapshot data r).1 = Ok tt) as (H1 & H2 & H3).
  { unfold install_snapshot. destruct (data_cons [] (mem_row <$> Memtable.entries (memtable e)) (last_sequence (manifest_state e)) (le_bytes 4 0)) as (b & bs & Hd).
    fold data in Hd. rewrite Hd. rewrite <-Hd. unfold data. rewrite take_view_head; [|done|done|done|by rewrite lenN_fmap].
    destruct (N.ltb_spec (lenN (le_bytes 8 (last_sequence (manifest_state e)) ++ le_bytes 4 0)) 8) as [Hlt|_].
    { rewrite lenN_app, !lenN_le_bytes in Hlt. lia. }
    rewrite embedded_none; [|done|by left]. cbn [foldl open_tables mret stm_ret adopt]. 
    split_and!; [|done|done]. cbn. by apply put_all_rows. }
  exists data. split_and!; [done..|]. intros k at_. unfold get_inner. by rewrite H1, H2, Hl.
Qed.

(** C40: a snapshot of an engine with sorted tables cannot be installed on a replica that does
    not already have the table files. The files are in the snapshot, but the reader does not
    skip the cutoff before them and finds none; nothing is written, opening the first table
    fails and the engine stays as it was. *)
Theorem snapshot_tables_lost e r data m ms rel : live_tables (manifest_state e) = m :: ms → Forall meta_ok (m :: ms) →
  Forall row_ok (mem_row <$> Memtable.entries (memtable e)) → lenN (Memtable.entries (memtable e)) < u32_lim →
  last_sequence (manifest_state e) < 2 ^ 32 → path m ≠ [] → lenN (m :: ms) < u32_lim →
  (create_snapshot e).1 = Ok data → lenN data < 2 ^ 32 →
  path_new (path m) = Ok rel → om_get rel (files (w_disk (wal r))) = None →
  install_snapshot data r = (Err (Bad NotFound), r).
Proof.
  intros Ht Hok Hr Hn Hc Hp Hnt Hcr Hd Hrel Hf. revert Hcr. unfold create_snapshot. rewrite bind_get, bind_modify, Ht.
  destruct ((files ← read_files (m :: ms); _) _) as [[data'|] e'] eqn:Erf; [|done]. intros [= ->].
  apply stm_bind_Ok in Erf as (fs & e1 & Erf & Ed). pose proof (Ok_inj (E:=KayaError) (snap_head (m :: ms) _ _ ++ _ ++ fs) data (f_equal fst Ed)) as Hdata.
  assert (∃ rest, fs = len32 (path m) ++ rest) as [rest ->].
  { cbn [read_files] in Erf. repeat (apply stm_bind_Ok in Erf as (? & ? & _ & Erf)). injection Erf as <- _.
    unfold snap_file. rewrite <-!app_assoc. by eexists. }
  rewrite <-Hdata in *. clear data Hdata. unfold install_snapshot. destruct (data_cons (m :: ms) (mem_row <$> Memtable.entries (memtable e)) (last_sequence (manifest_state e))
    (le_bytes 4 (wrap u32_lim (lenN (m :: ms))) ++ len32 (path m) ++ rest)) as (b & bs & Hdc).
  rewrite Hdc, <-Hdc, take_view_head by (done || by rewrite lenN_fmap).
  set (tail := le_bytes 4 (wrap u32_lim (lenN (m :: ms))) ++ len32 (path m) ++ rest) in *.
  destruct (N.ltb_spec (lenN (le_bytes 8 (last_sequence (manifest_state e)) ++ tail)) 8) as [Hlt|_].
  { rewrite lenN_app, lenN_le_bytes in Hlt. lia. }
  rewrite embedded_none; [|done|right].
  { cbn [foldl open_tables]. rewrite bind_lift, Hrel. unfold mbind, stm_bind, edisk, on_disk. unfold file_len. rewrite Hf.
    by destruct r as [? ? ? ? ? ? ? []]. }
  assert (take 8 tail = le_bytes 4 (wrap u32_lim (lenN (m :: ms))) ++ len32 (path m)) as ->.
  { unfold tail. rewrite app_assoc. apply take_app_length'. unfold len32. by rewrite length_app, !length_le_bytes. }
  rewrite le_val_concat, length_le_bytes. apply Forall_cons in Hok as [Hm _]. unfold len32.
  rewrite (wrap_small _ (lenN (path m))) by (destruct Hm; lia). rewrite (le_val_le_bytes 4 (lenN (path m))) by (destruct Hm; unfold u32_lim in *; change (256 ^ N.of_nat 4) with 4294967296; lia).
  assert (lenN tail < 2 ^ 32) by (rewrite lenN_app in Hd; lia).
  assert (0 < lenN (path m)) by (destruct (path m); [done|unfold lenN; cbn; lia]).
  change (256 ^ N.of_nat 4) with (2 ^ 32). lia.
Qed.

(** ** Pins *)

Lemma pin_count tid tables pins : (∃ m, m ∈ tables ∧ table_id m = tid) ∨ 0 < default 0 (pins !! tid) →
  0 < default 0 (foldl pin pins tables !! tid).
Proof.
  revert pins. induction tables as [|x tables IH]; intros pins Hp.
  - by destruct Hp as [(m & Hm%not_elem_of_nil & _)|Hp].
  - cbn [foldl]. apply IH. unfold pin at 1. destruct (decide (table_id x = tid)) as [<-|Hne].
    + right. rewrite lookup_insert_eq. cbn [from_option id]. lia.
    + rewrite lookup_insert_ne by done. destruct Hp as [(m & [->|Hm]%elem_of_cons & Ht)|Hp]; [done| |by right].
      left. by exists m.
Qed.

Lemma frames_read_files tables : frames (T:=T) (read_files tables).
Proof. induction tables; cbn [read_files]; eauto 20 with frames. Qed.

Lemma view_pins e1 e2 : view e1 = view e2 → manifest_state e1 = manifest_state e2 ∧ sstable_refcounts e1 = sstable_refcounts e2.
Proof. unfold view. intros Hv. by simplify_eq. Qed.

Lemma create_snapshot_view e :
  manifest_state (create_snapshot e).2 = manifest_state e ∧
  sstable_refcounts (create_snapshot e).2 = foldl pin (sstable_refcounts e) (live_tables (manifest_state e)).
Proof.
  unfold create_snapshot. rewrite bind_get, bind_modify.
  apply (view_pins _ (pin_all (live_tables (manifest_state e)) e)).
  apply frames_bind; [apply frames_read_files|]. intros fs. apply frames_ret.
Qed.

(** Goes past a framed step when [Hk] shows the postcondition of every framed state. *)
Ltac kept Hk :=
  match goal with
  | Hv : view ?e1 = ?v |- outcome _ ?e1 _ =>
      apply (outcome_bind _ _ e1 v);
      [ eauto using frames_publish_table, frames_publish_current, frames_delete_edits, frames_finish_manifest with frames
      | exact Hv
      | by intros; apply Hk
      | clear Hv; let e2 := fresh "e" in intros ? e2 _ Hv ]
  end.

Lemma compact_keeps_tables (c : CompactionCandidate) es m e : table_id m ∉ input_table_ids c → m ∈ live_tables (manifest_state e) →
  outcome (write_compacted c es) e (λ _ e', m ∈ live_tables (manifest_state e')).
Proof.
  intros Hni Hm.
  assert (∀ e1, view e1 = view e → m ∈ live_tables (manifest_state e1)) as Hk by (intros e1 Hv; by destruct (view_eq _ _ Hv) as (_ & _ & _ & ->)).
  assert (∀ e1 out s, view e1 = view e → m ∈ live_tables (manifest_state (install_compacted (input_table_ids c) out s e1))) as Hi.
  { intros e1 out s Hv. cbn. rewrite elem_of_app, list_elem_of_filter. left. split; [done|by apply Hk]. }
  assert (view e = view e) as Hv by done. revert Hv. generalize e at 1 3. intros e0 Hv.
  unfold write_compacted. apply outcome_get. kept Hk. destruct es as [|x0 xs].
  - kept Hk. kept Hk. by apply Hi.
  - set (es := x0 :: xs). do 9 kept Hk. by apply Hi.
Qed.

(** The tables of a snapshot outlive compaction while the snapshot pins them: taken at any
    point, whether or not its files could be read, a following compaction leaves every table it
    lists live, whatever the policy. *)
Theorem snapshot_pins_hold e m : m ∈ live_tables (manifest_state e) →
  m ∈ live_tables (manifest_state (compact (create_snapshot e).2).2).
Proof.
  intros Hm. destruct (create_snapshot_view e) as [Hms Hpins]. set (e1 := (create_snapshot e).2) in *.
  unfold compact. rewrite bind_get.
  destruct (pick_compaction _ _ _) as [c|] eqn:Ec; [|by rewrite <-Hms in Hm].
  assert (table_id m ∉ input_table_ids c) as Hni.
  { intros Hin. destruct (policy_picks_unpinned _ _ _ _ _ Ec Hin) as [Hnp _]. apply Hnp. unfold pinned_ids.
    pose proof (pin_count (table_id m) (live_tables (manifest_state e)) (sstable_refcounts e) ltac:(left; by exists m)) as Hc.
    rewrite <-Hpins in Hc. apply elem_of_dom. destruct (sstable_refcounts e1 !! table_id m) as [n|] eqn:En; cbn in Hc; [|lia].
    exists n. by apply map_lookup_filter_Some. }
  rewrite bind_lift. destruct (collect_versions _ _ _) as [bk|x]; [|by rewrite <-Hms in Hm].
  apply compact_keeps_tables; [done|by rewrite Hms].
Qed.
End Transfer.

(** ** Concrete runs *)

Definition mem_engine : Engine (list SstEntry) :=
  (run_ops [OPut run_key [1]; OPut run_key [2]; OPut run_other [5]; ODelete run_other]
     (fresh_engine (mkCompactionConfig L0Merge LeveledCompactionConfig_default SizeTieredCompactionConfig_default))).2.

Definition new_replica : Engine (list SstEntry) :=
  fresh_engine (mkCompactionConfig L0Merge LeveledCompactionConfig_default SizeTieredCompactionConfig_default).

Lemma snapshot_memtable_transfers_witness : ∃ data, (create_snapshot mem_engine).1 = Ok data ∧
  (install_snapshot data demo_engine).1 = Ok tt ∧
  memtable (install_snapshot data demo_engine).2 = memtable mem_engine ∧
  ∀ k at_, get_inner k at_ (install_snapshot data demo_engine).2 = get_inner k at_ mem_engine.
Proof.
  assert (memtable mem_engine = mt_delete run_other 4 (mt_put run_other [5] 3 (mt_put run_key [2] 2 (mt_put run_key [1] 1 Memtable_new)))) as Hm
    by (by vm_compute).
  refine (snapshot_memtable_transfers mem_engine demo_engine _ _ _ _ _ _).
  - rewrite Hm. repeat (apply mt_write_ok; [|done]). apply mt_new_ok.
  - by vm_compute.
  - by vm_compute.
  - rewrite Hm. repeat constructor.
  - by rewrite Hm.
  - by vm_compute.
Defined.

(** The first two tables of [demo_engine]. *)
Definition demo_metas : list TableMetadata := live_tables (manifest_state demo_engine).

Lemma demo_metas_ok : Forall meta_ok demo_metas.
Proof. vm_compute. repeat constructor. Qed.

Lemma snapshot_tables_lost_witness : ∃ data, (create_snapshot demo_engine).1 = Ok data ∧
  install_snapshot data new_replica = (Err (Bad NotFound), new_replica).
Proof.
  assert (∃ data, (create_snapshot demo_engine).1 = Ok data ∧ (lenN data <? 2 ^ 32) = true) as (data & Hd & Hl%N.ltb_lt)
    by (eexists; split; [vm_compute; reflexivity|vm_compute; reflexivity]).
  exists data. split; [done|].
  assert (∃ m1 m2, demo_metas = [m1; m2] ∧ path m1 = str "sst/0000000000000001.sst") as (m1 & m2 & Hm & Hp)
    by (eexists _, _; split; vm_compute; reflexivity).
  refine (snapshot_tables_lost demo_engine new_replica data m1 [m2] (str "sst/0000000000000001.sst") Hm _ _ _ _ _ _ Hd Hl _ _).
  - rewrite <-Hm. apply demo_metas_ok.
  - rewrite demo_memtable. repeat constructor.
  - by rewrite demo_memtable.
  - by vm_compute.
  - by rewrite Hp.
  - done.
  - rewrite Hp. by vm_compute.
  - by vm_compute.
Defined.

Lemma snapshot_pins_hold_witness : ∃ m, m ∈ live_tables (manifest_state demo_engine) ∧
  m ∈ live_tables (manifest_state (compact (create_snapshot demo_engine).2).2).
Proof.
  assert (∃ m1 m2, demo_metas = [m1; m2]) as (m1 & m2 & Hm) by (eexists _, _; vm_compute; reflexivity).
  exists m1. assert (m1 ∈ live_tables (manifest_state demo_engine)) as Hin by (unfold demo_metas in Hm; rewrite Hm; left).
  split; [done|]. apply (snapshot_pins_hold demo_engine m1 Hin).
Defined.

(** Installing a snapshot leaves the sequence counter of the log where it was. On a new
    replica the next write gets a sequence below those of the snapshot: it succeeds, and the
    key still reads the old value. *)
Theorem snapshot_hides_later_writes :
  ∃ data, (create_snapshot mem_engine).1 = Ok data ∧
    let '(res, replica) := install_snapshot data new_replica in
    let '(ok, replica') := run_op (OPut run_key [9]) replica in
    res = Ok tt ∧ ok = true ∧
    get_inner run_key Latest replica = Ok (Some [2]) ∧ get_inner run_key Latest replica' = Ok (Some [2]).
Proof. eexists. split; [vm_compute; reflexivity|]. vm_compute. done. Qed.

(** Releasing a snapshot of two tables fails on the second one, because it skips 40 bytes of
    a table's fixed fields where 36 were written: the second table stays pinned. *)
Theorem snapshot_release_leaks :
  ∃ data, (create_snapshot demo_engine).1 = Ok data ∧
    let '(res, e) := release_snapshot data (create_snapshot demo_engine).2 in
    res = Err (InvalidArgument "truncated path") ∧ pinned_ids demo_engine = ∅ ∧ pinned_ids e = {[2]}.
Proof. eexists. split; [vm_compute; reflexivity|]. by vm_compute. Qed.
