(* ===== verification/Index.v ===== *)
(** Secondary indexes, [kaya-engine/src/index.rs]: extractors, index metadata,
    the layout of index entries, and their round trips.  The operations that
    maintain indexes are in [Node]. *)
From S2P Require Import Prelude Bytes Core OrdMap Path.

Open Scope N_scope.

Definition INDEX_SYS_PREFIX : bytes := 0 :: str "idx/".
Definition INDEX_META_PREFIX : bytes := 0 :: str "idx/meta/".
Definition INDEX_DATA_PREFIX : bytes := 0 :: str "idx/data/".

Definition META_VERSION_V1 : N := 1.
Definition META_VERSION_V2 : N := 2.

Inductive IndexExtractor : Type :=
| WholeValue
| Prefix (len : N)
| Field (delimiter index : N).

(** The fields of [value]; [field] is the part of the current one read so far. *)
Fixpoint extract_field (delimiter index field_i : N) (field value : bytes) : option bytes :=
  match value with
  | [] => if field_i =? index then Some field else None
  | b :: value =>
      if b =? delimiter then
        if field_i =? index then Some field
        else extract_field delimiter index (sat_add u16_max field_i 1) [] value
      else extract_field delimiter index field_i (field ++ [b]) value
  end.

Definition extract (x : IndexExtractor) (value : bytes) : option bytes :=
  match x with
  | WholeValue => Some value
  | Prefix len => Some (take (N.to_nat len) value)
  | Field delimiter index => extract_field delimiter index 0 [] value
  end.

Definition extractor_tag (x : IndexExtractor) : N :=
  match x with WholeValue => 0 | Prefix _ => 1 | Field _ _ => 2 end.

Definition encode_params (x : IndexExtractor) : bytes :=
  match x with
  | WholeValue => []
  | Prefix len => be_bytes 2 len
  | Field delimiter index => delimiter :: be_bytes 2 index
  end.

Definition extractor_decode (tag : N) (params : bytes) : result KayaError IndexExtractor :=
  if tag =? 0 then Ok WholeValue
  else if tag =? 1 then
    if negb (lenN params =? 2) then Err (Corruption "index extractor prefix params")
    else Ok (Prefix (be_val params))
  else if tag =? 2 then
    match params with
    | [d; a; b] => Ok (Field d (be_val [a; b]))
    | _ => Err (Corruption "index extractor field params")
    end
  else Err (Corruption ("unknown index extractor tag " +:+ pretty tag)).

Record IndexDef := mkIndexDef {
  id_name : bytes;
  primary_prefix : bytes;
  unique : bool;
  extractor : IndexExtractor
}.

Inductive BackfillStatus : Type := Idle | Running | Paused | Complete.

#[export] Instance BackfillStatus_eq_dec : EqDecision BackfillStatus.
Proof. solve_decision. Defined.

Record BackfillProgress := mkBackfill {
  bf_status : BackfillStatus;
  bf_scanned : N;
  bf_indexed : N;
  bf_last_key : option bytes
}.

Definition BackfillProgress_default : BackfillProgress := mkBackfill Idle 0 0 None.

Inductive BackfillMode : Type := Sync | Online.

Inductive IndexDivergenceKind : Type :=
| MissingInIndex (expected_secondary : bytes)
| ExtraInIndex (secondary : bytes).

Record IndexDivergence := mkDivergence { dv_primary_key : bytes; dv_kind : IndexDivergenceKind }.

Definition is_index_system_key (key : bytes) : bool := starts_with INDEX_SYS_PREFIX key.

Definition ascii_alphanumeric (b : N) : bool :=
  ((48 <=? b) && (b <=? 57)) || ((65 <=? b) && (b <=? 90)) || ((97 <=? b) && (b <=? 122)).

(** Index names and consumer ids: letters, digits, ['_'] and ['-']. *)
Definition name_byte (b : N) : bool := ascii_alphanumeric b || (b =? 95) || (b =? 45).

Definition validate_index_name (name : bytes) : result KayaError unit :=
  if (lenN name =? 0) || (64 <? lenN name) then Err (InvalidArgument "index name must be 1..=64 bytes")
  else if negb (forallb name_byte name) then
    Err (InvalidArgument "index name must be ASCII alphanumeric, '_' or '-'")
  else Ok tt.

(** ** Text in messages *)

(** [{:x}] of a control character. *)
Definition hex_short (b : N) : bytes := if b <? 16 then hex_digits 1 b else hex_digits 2 b.

Definition debug_char (b : N) : bytes :=
  if b =? 34 then [92; 34]
  else if b =? 92 then [92; 92]
  else if b =? 9 then str "\t"
  else if b =? 10 then str "\n"
  else if b =? 13 then str "\r"
  else if b =? 0 then str "\0"
  else if (b <? 32) || (b =? 127) then str "\u{" ++ hex_short b ++ str "}"
  else [b].

(** [{:?}] of a string; characters beyond ASCII are taken to be printable. *)
Definition debug_str (s : bytes) : string := to_string ([34] ++ (s ≫= debug_char) ++ [34]).

(** A byte vector in an error message. *)
Definition debug_bytes (bs : bytes) : string :=
  "[" +:+ match bs with
          | [] => EmptyString
          | b :: bs => foldl (λ s x, s +:+ ", " +:+ pretty x) (pretty b) bs
          end +:+ "]".

(** ** Keys *)

Definition strip_prefix (p a : bytes) : option bytes :=
  if starts_with p a then Some (drop (length p) a) else None.

Definition encode_meta_key (name : bytes) : bytes := INDEX_META_PREFIX ++ name.

Definition name_from_meta_key (key : bytes) : option bytes :=
  rest ← strip_prefix INDEX_META_PREFIX key;
  if utf8_valid rest then Some rest else None.

Definition encode_data_scan_prefix (name value_prefix : bytes) : bytes :=
  INDEX_DATA_PREFIX ++ be_bytes 2 (wrap u16_lim (lenN name)) ++ name ++ value_prefix.

Definition encode_data_key (name secondary primary : bytes) : bytes :=
  INDEX_DATA_PREFIX ++ be_bytes 2 (wrap u16_lim (lenN name)) ++ name ++ secondary ++ primary ++
  be_bytes 4 (wrap u32_lim (lenN primary)).

Definition decode_data_key (name key : bytes) : option (bytes * bytes) :=
  rest ← strip_prefix INDEX_DATA_PREFIX key;
  if (length rest <? 2)%nat then None
  else
    let name_len := N.to_nat (be_val (take 2 rest)) in
    if (length rest <? 2 + name_len + 4)%nat then None
    else
      let key_name := slice 2 (2 + name_len) rest in
      if negb (utf8_valid key_name) then None
      else if negb (bool_decide (key_name = name)) then None
      else
        let after_name := drop (2 + name_len) rest in
        if (length after_name <? 4)%nat then None
        else
          let pk_len := N.to_nat (be_val (drop (length after_name - 4) after_name)) in
          if (length after_name <? 4 + pk_len)%nat then None
          else
            let body := take (length after_name - 4) after_name in
            Some (take (length body - pk_len) body, drop (length body - pk_len) body).

(** ** Metadata *)

Definition encode_meta_value (def : IndexDef) : bytes :=
  let params := encode_params (extractor def) in
  [META_VERSION_V2; if unique def then 1 else 0; extractor_tag (extractor def)] ++
  be_bytes 2 (wrap u16_lim (lenN params)) ++ params ++
  be_bytes 4 (wrap u32_lim (lenN (primary_prefix def))) ++ primary_prefix def.

Definition nth_byte (bs : bytes) (i : nat) : N := default 0 (bs !! i).

Definition decode_meta_v1 (name value : bytes) : result KayaError IndexDef :=
  if (length value <? 6)%nat then Err (Corruption "index meta value too short")
  else
    let prefix_len := N.to_nat (be_val (slice 2 6 value)) in
    if negb (length value =? 6 + prefix_len)%nat then Err (Corruption "index meta value length mismatch")
    else Ok (mkIndexDef name (drop 6 value) (negb (nth_byte value 1 =? 0)) WholeValue).

Definition decode_meta_v2 (name value : bytes) : result KayaError IndexDef :=
  if (length value <? 9)%nat then Err (Corruption "index meta v2 too short")
  else
    let params_len := N.to_nat (be_val (slice 3 5 value)) in
    if (length value <? 5 + params_len + 4)%nat then Err (Corruption "index meta v2 truncated")
    else
      extractor ← extractor_decode (nth_byte value 2) (slice 5 (5 + params_len) value);
      let rest := drop (5 + params_len) value in
      let prefix_len := N.to_nat (be_val (take 4 rest)) in
      if negb (length rest =? 4 + prefix_len)%nat then Err (Corruption "index meta v2 prefix length mismatch")
      else Ok (mkIndexDef name (drop 4 rest) (negb (nth_byte value 1 =? 0)) extractor).

Definition decode_meta_value (name value : bytes) : result KayaError IndexDef :=
  match value with
  | [] => Err (Corruption "index meta value empty")
  | version :: _ =>
      if version =? META_VERSION_V1 then decode_meta_v1 name value
      else if version =? META_VERSION_V2 then decode_meta_v2 name value
      else Err (Corruption ("unsupported index meta version " +:+ pretty version))
  end.

(** ** Extraction *)

(** The fields of a value, as [slice::split] gives them. *)
Fixpoint split_fields (delimiter : N) (field value : bytes) : list bytes :=
  match value with
  | [] => [field]
  | b :: value =>
      if b =? delimiter then field :: split_fields delimiter [] value
      else split_fields delimiter (field ++ [b]) value
  end.

(** The saturating counter does not reach the index twice. *)
Lemma extract_field_past d index value : ∀ field_i field,
  index < field_i → field_i <= u16_max → extract_field d index field_i field value = None.
Proof.
  induction value as [|b value IH]; intros fi f H1 H2; cbn.
  - destruct (N.eqb_spec fi index); [lia|done].
  - destruct (b =? d); [|by apply IH]. destruct (N.eqb_spec fi index); [lia|]. apply IH; unfold sat_add; lia.
Qed.

Lemma extract_field_split d index value : ∀ field_i field,
  field_i <= index → index <= u16_max →
  extract_field d index field_i field value = split_fields d field value !! N.to_nat (index - field_i).
Proof.
  induction value as [|b value IH]; intros fi f Hle Hmax; cbn [extract_field split_fields].
  - destruct (N.eqb_spec fi index) as [->|Hne]; [by rewrite N.sub_diag|].
    assert (N.to_nat (index - fi) = S (N.to_nat (index - fi - 1))) as -> by lia. done.
  - destruct (b =? d); [|by apply IH]. destruct (N.eqb_spec fi index) as [->|Hne]; [by rewrite N.sub_diag|].
    unfold sat_add. rewrite (N.min_l (fi + 1)) by lia. rewrite IH by lia.
    assert (N.to_nat (index - fi) = S (N.to_nat (index - (fi + 1)))) as -> by lia. done.
Qed.

(** ** Round trips *)

Lemma name_valid name : validate_index_name name = Ok tt → 0 < lenN name ∧ lenN name <= 64 ∧ utf8_valid name = true.
Proof.
  unfold validate_index_name. destruct (lenN name =? 0) eqn:E0; [done|]. destruct (N.ltb_spec 64 (lenN name)); [done|].
  cbn [orb]. destruct (forallb name_byte name) eqn:Ef; [|done]. intros _. apply N.eqb_neq in E0. split_and!; [lia|lia|].
  clear -Ef. induction name as [|b name IH]; [done|]. cbn [forallb] in Ef. apply andb_true_iff in Ef as [Hb Hn].
  cbn [utf8_valid]. assert ((b <? 128) = true) as ->; [|by apply IH]. apply N.ltb_lt.
  unfold name_byte, ascii_alphanumeric in Hb.
  rewrite !orb_true_iff, !andb_true_iff, !N.leb_le, !N.eqb_eq in Hb. lia.
Qed.

Lemma strip_prefix_app p a : strip_prefix p (p ++ a) = Some a.
Proof.
  unfold strip_prefix. rewrite (proj2 (starts_with_spec p (p ++ a))) by (by exists a).
  by rewrite drop_app_length.
Qed.

Lemma strip_prefix_Some p a r : strip_prefix p a = Some r → a = p ++ r.
Proof.
  unfold strip_prefix. destruct (starts_with p a) eqn:E; [|done]. intros [= <-].
  apply starts_with_spec in E as [k ->]. by rewrite drop_app_length.
Qed.

Lemma wrap_u16 v : v <= 64 → wrap u16_lim v = v.
Proof. intros. apply wrap_small. unfold u16_lim. lia. Qed.

Lemma wrap_u32 v : v < 2 ^ 32 → wrap u32_lim v = v.
Proof. intros. by apply wrap_small. Qed.

Lemma decode_data_key_encode name sec pk :
  validate_index_name name = Ok tt → lenN pk < 2 ^ 32 →
  decode_data_key name (encode_data_key name sec pk) = Some (sec, pk).
Proof.
  intros Hn Hpk. apply name_valid in Hn as (_ & H64 & Hu). unfold decode_data_key, encode_data_key.
  rewrite strip_prefix_app, wrap_u16, wrap_u32 by done. cbn [mbind option_bind].
  set (tail := sec ++ pk ++ be_bytes 4 (lenN pk)). set (nl := be_bytes 2 (lenN name)).
  assert (length nl = 2%nat) as Hnl by apply length_be_bytes.
  assert (length tail = (length sec + length pk + 4)%nat) as Hlt
    by (unfold tail; rewrite !length_app, length_be_bytes; lia).
  rewrite !length_app, Hnl. rewrite (proj2 (Nat.ltb_ge _ _)) by lia.
  rewrite take_app_le, take_ge by lia.
  assert (N.to_nat (be_val nl) = length name) as -> by (unfold nl; rewrite be_val_be_bytes by lia; apply lenN_to_nat).
  rewrite (proj2 (Nat.ltb_ge _ _)) by lia.
  assert (slice 2 (2 + length name) (nl ++ name ++ tail) = name) as ->.
  { apply slice_at; lia. }
  rewrite Hu. rewrite bool_decide_eq_true_2 by done. cbn [negb].
  assert (drop (2 + length name) (nl ++ name ++ tail) = tail) as ->.
  { rewrite app_assoc, <-Hnl, <-length_app. apply drop_app_length. }
  rewrite Hlt. rewrite (proj2 (Nat.ltb_ge _ _)) by lia.
  replace (length sec + length pk + 4 - 4)%nat with (length (sec ++ pk)) by (rewrite length_app; lia).
  assert (tail = (sec ++ pk) ++ be_bytes 4 (lenN pk)) as -> by (unfold tail; by rewrite app_assoc).
  rewrite drop_app_length, take_app_length, be_val_be_bytes by done. rewrite lenN_to_nat.
  rewrite (proj2 (Nat.ltb_ge _ _)) by lia. rewrite length_app, Nat.add_sub.
  by rewrite take_app_length, drop_app_length.
Qed.

Lemma be_bytes_be_val n bs : bytes_ok bs → length bs = n → be_bytes n (be_val bs) = bs.
Proof.
  intros Hb <-. unfold be_bytes, be_val. rewrite <-(length_reverse bs), le_bytes_le_val.
  - apply reverse_involutive.
  - by apply Forall_reverse.
Qed.

Lemma decode_data_key_Some name key sec pk :
  bytes_ok key → lenN name <= 64 → decode_data_key name key = Some (sec, pk) → key = encode_data_key name sec pk.
Proof.
  intros Hb H64 Hd. unfold decode_data_key in Hd. destruct (strip_prefix INDEX_DATA_PREFIX key) as [rest|] eqn:Es; [|done].
  apply strip_prefix_Some in Es as ->. apply Forall_app in Hb as [_ Hb]. cbn [mbind option_bind] in Hd.
  destruct (length rest <? 2)%nat eqn:E2; [done|]. apply Nat.ltb_ge in E2.
  set (nl := N.to_nat (be_val (take 2 rest))) in *.
  destruct (length rest <? 2 + nl + 4)%nat eqn:E3; [done|]. apply Nat.ltb_ge in E3.
  destruct (utf8_valid _) eqn:Eu in Hd; [|done]. cbn [negb] in Hd.
  destruct (bool_decide_reflect (slice 2 (2 + nl) rest = name)) as [Hn|]; [|done]. cbn [negb] in Hd.
  assert (length name = nl) as Hln by (rewrite <-Hn, length_slice; lia).
  set (an := drop (2 + nl) rest) in *. destruct (length an <? 4)%nat eqn:E4; [done|]. apply Nat.ltb_ge in E4.
  set (pl := N.to_nat (be_val (drop (length an - 4) an))) in *.
  destruct (length an <? 4 + pl)%nat eqn:E5; [done|]. apply Nat.ltb_ge in E5. injection Hd as <- <-.
  assert (bytes_ok an) as Hban by (by apply Forall_drop).
  assert (take 2 rest = be_bytes 2 (lenN name)) as H2.
  { rewrite <-(be_bytes_be_val 2 (take 2 rest)); [|by apply Forall_take|rewrite length_take; lia]. f_equal.
    unfold lenN. rewrite Hln. unfold nl. lia. }
  assert (drop (length an - 4) an = be_bytes 4 (N.of_nat pl)) as H4.
  { rewrite <-(be_bytes_be_val 4 (drop (length an - 4) an)); [|by apply Forall_drop|rewrite length_drop; lia].
    f_equal. unfold pl. lia. }
  unfold encode_data_key. rewrite wrap_u16 by done. f_equal.
  assert (N.of_nat pl < 2 ^ 32) as Hpl.
  { pose proof (le_val_bound (reverse (drop (length an - 4) an))) as Hbd. unfold pl, be_val.
    rewrite length_reverse, length_drop in Hbd. replace (length an - (length an - 4))%nat with 4%nat in Hbd by lia.
    specialize (Hbd ltac:(by apply Forall_reverse, Forall_drop)). rewrite N2Nat.id. exact Hbd. }
  rewrite <-H2, <-Hn, app_assoc. rewrite <-slice_0_take, slice_split by lia. rewrite slice_0_take.
  rewrite <-(take_drop (2 + nl) rest) at 1. f_equal. fold an.
  rewrite length_take, Nat.min_l by lia. rewrite !app_assoc, (take_drop (length an - 4 - pl)).
  rewrite <-(take_drop (length an - 4) an) at 1. f_equal. rewrite H4. f_equal.
  rewrite wrap_u32; unfold lenN; rewrite length_drop, length_take; lia.
Qed.

(** Keys of different indexes differ. *)
Lemma data_key_name n1 s1 p1 n2 s2 p2 :
  lenN n1 <= 64 → lenN n2 <= 64 → encode_data_key n1 s1 p1 = encode_data_key n2 s2 p2 → n1 = n2.
Proof.
  intros H1 H2 E. unfold encode_data_key in E. apply app_inv_head in E. rewrite !wrap_u16 in E by done.
  apply app_inj_1 in E as [El E]; [|by rewrite !length_be_bytes].
  assert (lenN n1 = lenN n2) as Hl.
  { rewrite <-(be_val_be_bytes 2 (lenN n1)), El, be_val_be_bytes by lia. done. }
  apply app_inj_1 in E as [? _]; [done|]. unfold lenN in Hl. lia.
Qed.

Lemma data_key_inj n1 s1 p1 n2 s2 p2 :
  validate_index_name n1 = Ok tt → validate_index_name n2 = Ok tt → lenN p1 < 2 ^ 32 → lenN p2 < 2 ^ 32 →
  encode_data_key n1 s1 p1 = encode_data_key n2 s2 p2 → n1 = n2 ∧ s1 = s2 ∧ p1 = p2.
Proof.
  intros H1 H2 Hp1 Hp2 E.
  assert (n1 = n2) as -> by (eapply data_key_name; [apply name_valid, H1|apply name_valid, H2|exact E]).
  pose proof (decode_data_key_encode n2 s1 p1 H1 Hp1) as D1. rewrite E, decode_data_key_encode in D1 by done.
  by simplify_eq.
Qed.

Lemma data_key_system n s p : is_index_system_key (encode_data_key n s p) = true.
Proof. done. Qed.

Lemma data_key_scanned name vp sec pk :
  starts_with vp sec = true → starts_with (encode_data_scan_prefix name vp) (encode_data_key name sec pk) = true.
Proof.
  rewrite !starts_with_spec. intros [k ->]. unfold encode_data_scan_prefix, encode_data_key.
  exists (k ++ pk ++ be_bytes 4 (wrap u32_lim (lenN pk))). by rewrite <-!app_assoc.
Qed.

(** The extractor's parameters fit their fields. *)
Definition extractor_ok (x : IndexExtractor) : Prop :=
  match x with
  | WholeValue => True
  | Prefix len => len < 2 ^ 16
  | Field delimiter index => delimiter < 2 ^ 8 ∧ index < 2 ^ 16
  end.

Lemma extractor_decode_encode x :
  extractor_ok x → extractor_decode (extractor_tag x) (encode_params x) = Ok x ∧ lenN (encode_params x) <= 3.
Proof.
  destruct x as [|len|d i]; cbn [extractor_ok]; intros Hx; unfold extractor_decode; cbn [extractor_tag encode_params].
  - done.
  - change (1 =? 0) with false. change (1 =? 1) with true. cbn iota. unfold lenN. rewrite length_be_bytes. cbn [negb N.of_nat].
    split; [|lia]. change (N.of_nat 2 =? 2) with true. cbn [negb]. by rewrite be_val_be_bytes.
  - change (2 =? 0) with false. change (2 =? 1) with false. change (2 =? 2) with true. cbn iota. destruct Hx as [_ Hi].
    unfold lenN. cbn [length]. rewrite length_be_bytes. split; [|lia].
    pose proof (length_be_bytes 2 i) as Hl. pose proof (be_val_be_bytes 2 i Hi) as Hv.
    destruct (be_bytes 2 i) as [|a [|b [|]]]; try done. by rewrite Hv.
Qed.

Lemma decode_meta_encode def :
  extractor_ok (extractor def) → lenN (primary_prefix def) < 2 ^ 32 →
  decode_meta_value (id_name def) (encode_meta_value def) = Ok def.
Proof.
  intros Hx Hp. destruct def as [name pp u x]. cbn [extractor primary_prefix] in *.
  destruct (extractor_decode_encode x Hx) as [Hd H3].
  unfold encode_meta_value. cbn [extractor primary_prefix unique id_name].
  rewrite wrap_small by (unfold u16_lim; lia). rewrite wrap_u32 by done.
  set (params := encode_params x) in *. set (pl := be_bytes 2 (lenN params)).
  set (tail := be_bytes 4 (lenN pp) ++ pp).
  assert (length pl = 2%nat) as Hpl by apply length_be_bytes.
  assert (length tail = (4 + length pp)%nat) as Htl by (unfold tail; rewrite length_app, length_be_bytes; lia).
  set (hd := [META_VERSION_V2; if u then 1 else 0; extractor_tag x]).
  unfold decode_meta_value. change (hd ++ pl ++ params ++ tail) with (META_VERSION_V2 :: (drop 1 hd ++ pl ++ params ++ tail)).
  cbn iota. change (META_VERSION_V2 =? META_VERSION_V1) with false. change (META_VERSION_V2 =? META_VERSION_V2) with true.
  cbn iota. change (META_VERSION_V2 :: (drop 1 hd ++ pl ++ params ++ tail)) with (hd ++ pl ++ params ++ tail).
  unfold decode_meta_v2. assert (length hd = 3%nat) as Hhd by done.
  rewrite !length_app, Hpl, Hhd, Htl. rewrite (proj2 (Nat.ltb_ge _ _)) by lia.
  rewrite (slice_at 3 5 hd pl) by lia.
  assert (N.to_nat (be_val pl) = length params) as -> by (unfold pl; rewrite be_val_be_bytes by lia; apply lenN_to_nat).
  rewrite (proj2 (Nat.ltb_ge _ _)) by lia.
  assert (slice 5 (5 + length params) (hd ++ pl ++ params ++ tail) = params) as ->.
  { rewrite app_assoc. apply slice_at; rewrite length_app; lia. }
  change (nth_byte (hd ++ pl ++ params ++ tail) 2) with (extractor_tag x). rewrite Hd. cbn [mbind result_bind].
  assert (drop (5 + length params) (hd ++ pl ++ params ++ tail) = tail) as ->.
  { rewrite !app_assoc. replace (5 + length params)%nat with (length ((hd ++ pl) ++ params)) by (rewrite !length_app; lia).
    apply drop_app_length. }
  assert (take 4 tail = be_bytes 4 (lenN pp)) as ->.
  { unfold tail. rewrite take_app_le, take_ge; rewrite ?length_be_bytes; done. }
  rewrite be_val_be_bytes, lenN_to_nat, Htl, Nat.eqb_refl by done. cbn [negb].
  assert (drop 4 tail = pp) as ->.
  { unfold tail. rewrite <-(length_be_bytes 4 (lenN pp)) at 1. apply drop_app_length. }
  by destruct u.
Qed.
