(* ===== verification/Cdc.v ===== *)
(** The change feed, [kaya-engine/src/cdc.rs]: the lines of the change log, and
    the consumers' cursors.  Appending events to the log is in [Node]. *)
From stdpp Require Import gmap.
From S2P Require Import Prelude Bytes Core OrdMap Path Index.

Open Scope N_scope.

Definition CDC_LOG_PATH : bytes := str "cdc/log.jsonl".
Definition LOG_VERSION : N := 1.

Inductive CdcOp : Type := OpPut | OpDelete.

#[export] Instance CdcOp_eq_dec : EqDecision CdcOp.
Proof. solve_decision. Defined.

Record CdcEvent := mkCdcEvent {
  ev_seq : N;
  ev_key : bytes;
  ev_value : option bytes;
  ev_op : CdcOp
}.

Record CdcCursor := mkCursor { consumer_id : bytes; cur_last_seq : N }.

Record CdcState := mkCdcState {
  cdc_events : list CdcEvent;
  consumer_last_seq : gmap bytes N
}.

Definition CdcState_new : CdcState := mkCdcState [] ∅.

Definition validate_consumer_id (id : bytes) : result KayaError unit :=
  if (lenN id =? 0) || (64 <? lenN id) then Err (InvalidArgument "cdc consumer_id must be 1..=64 bytes")
  else if negb (forallb name_byte id) then
    Err (InvalidArgument "cdc consumer_id must be ASCII alphanumeric, '_' or '-'")
  else Ok tt.

(** ** Numbers and hex *)

(** [Display] of an unsigned integer of at most 64 bits. *)
Fixpoint dec_go (fuel : nat) (n : N) (acc : bytes) : bytes :=
  match fuel with
  | O => acc
  | S fuel => let acc := (48 + n mod 10) :: acc in if n <? 10 then acc else dec_go fuel (n / 10) acc
  end.
Definition dec_bytes (n : N) : bytes := dec_go 20 n [].

Fixpoint parse_dec (max acc : N) (bs : bytes) : option N :=
  match bs with
  | [] => Some acc
  | b :: bs =>
      if (48 <=? b) && (b <=? 57) then
        let acc := 10 * acc + (b - 48) in
        if acc <=? max then parse_dec max acc bs else None
      else None
  end.

(** [str::parse] for an unsigned integer. *)
Definition parse_uint (max : N) (bs : bytes) : option N :=
  match bs with
  | [] => None
  | 43 :: bs => match bs with [] => None | _ => parse_dec max 0 bs end
  | _ => parse_dec max 0 bs
  end.

Definition hex_char (n : N) : N := if n <? 10 then 48 + n else 87 + n.

Definition hex_encode (bs : bytes) : bytes :=
  bs ≫= λ b, [hex_char (N.shiftr b 4); hex_char (N.land b 0xf)].

Definition hex_nibble (b : N) : result KayaError N :=
  if (48 <=? b) && (b <=? 57) then Ok (b - 48)
  else if (97 <=? b) && (b <=? 102) then Ok (b - 97 + 10)
  else if (65 <=? b) && (b <=? 70) then Ok (b - 65 + 10)
  else Err (Corruption "invalid cdc hex digit").

Fixpoint hex_pairs (bs : bytes) : result KayaError bytes :=
  match bs with
  | hi :: lo :: bs =>
      h ← hex_nibble hi;
      l ← hex_nibble lo;
      rest ← hex_pairs bs;
      Ok (N.lor (N.shiftl h 4) l :: rest)
  | _ => Ok []
  end.

Definition hex_decode (s : bytes) : result KayaError bytes :=
  if N.odd (lenN s) then Err (Corruption "cdc hex length not even") else hex_pairs s.

(** ** Lines *)

Definition quote : N := 34.

Definition encode_event_line (ev : CdcEvent) : bytes :=
  str "{" ++ [quote] ++ str "v" ++ [quote] ++ str ":" ++ dec_bytes LOG_VERSION ++
  str "," ++ [quote] ++ str "seq" ++ [quote] ++ str ":" ++ dec_bytes (ev_seq ev) ++
  str "," ++ [quote] ++ str "op" ++ [quote] ++ str ":" ++
  match ev_op ev with
  | OpPut =>
      [quote] ++ str "put" ++ [quote] ++ str "," ++ [quote] ++ str "key" ++ [quote] ++ str ":" ++
      [quote] ++ hex_encode (ev_key ev) ++ [quote] ++ str "," ++ [quote] ++ str "value" ++ [quote] ++ str ":" ++
      [quote] ++ hex_encode (default [] (ev_value ev)) ++ [quote]
  | OpDelete =>
      [quote] ++ str "delete" ++ [quote] ++ str "," ++ [quote] ++ str "key" ++ [quote] ++ str ":" ++
      [quote] ++ hex_encode (ev_key ev) ++ [quote]
  end ++ str "}" ++ [10].

(** [b as char], pushed to a [String]. *)
Definition latin1 (b : N) : bytes := if b <? 128 then [b] else [192 + b / 64; 128 + b mod 64].

(** The text up to the closing quote and what follows it. *)
Fixpoint json_string_loop (out bs : bytes) : result KayaError (bytes * bytes) :=
  match bs with
  | [] => Err (Corruption "cdc unterminated string")
  | b :: bs =>
      if b =? quote then Ok (out, bs)
      else if b =? 92 then
        match bs with
        | [] => Err (Corruption "cdc truncated escape")
        | c :: bs => json_string_loop (out ++ latin1 c) bs
        end
      else json_string_loop (out ++ latin1 b) bs
  end.

Definition parse_json_string (s : bytes) : result KayaError (bytes * bytes) :=
  match s with
  | 34 :: bs => json_string_loop [] bs
  | _ => Err (Corruption "cdc expected string")
  end.

Definition trim_start (bs : bytes) : bytes := trim_with ws_front (length bs) bs.

(** The number up to a comma or white space. *)
Fixpoint take_number (fuel : nat) (bs : bytes) : bytes * bytes :=
  match fuel, bs with
  | S fuel, b :: t =>
      if (b =? 44) || negb (ws_front bs =? 0)%nat then ([], bs)
      else let '(n, rest) := take_number fuel t in (b :: n, rest)
  | _, _ => ([], bs)
  end.

(** One field and what follows it, both trimmed at the front. *)
Definition json_field (rest : bytes) : result KayaError (bytes * bytes * bytes) :=
  let rest := trim_start rest in
  if negb (starts_with [quote] rest) then Err (Corruption "cdc expected field name")
  else
    '(name, after_name) ← parse_json_string rest;
    let rest := trim_start after_name in
    if negb (starts_with (str ":") rest) then Err (Corruption "cdc expected ':' after field name")
    else
      let rest := trim_start (drop 1 rest) in
      '(value, after_val) ← (if starts_with [quote] rest then parse_json_string rest
                             else Ok (take_number (length rest) rest));
      Ok (name, value, trim_start after_val).

(** Every field takes a byte at least, so the length is enough fuel. *)
Fixpoint split_fields_loop (fuel : nat) (rest : bytes) : result KayaError (list (bytes * bytes)) :=
  match fuel, rest with
  | _, [] => Ok []
  | O, _ => Ok []
  | S fuel, _ =>
      '(name, value, rest) ← json_field rest;
      if starts_with (str ",") rest then
        fields ← split_fields_loop fuel (trim_start (drop 1 rest)); Ok ((name, value) :: fields)
      else if bool_decide (rest = []) then Ok [(name, value)]
      else Err (Corruption "cdc unexpected trailing field data")
  end.

Definition split_json_fields (body : bytes) : result KayaError (list (bytes * bytes)) :=
  let rest := trim body in split_fields_loop (length rest) rest.

(** The fields seen so far. *)
Record EventFields := mkFields {
  f_version : option N;
  f_seq : option N;
  f_op : option CdcOp;
  f_key : option bytes;
  f_value : option bytes
}.

Definition op_parse (s : bytes) : result KayaError CdcOp :=
  if bool_decide (s = str "put") then Ok OpPut
  else if bool_decide (s = str "delete") then Ok OpDelete
  else Err (Corruption ("unknown cdc op " +:+ debug_str s)).

Definition take_field (f : EventFields) (field : bytes * bytes) : result KayaError EventFields :=
  let '(k, v) := field in
  if bool_decide (k = str "v") then
    match parse_uint 255 v with
    | Some n => Ok (mkFields (Some n) (f_seq f) (f_op f) (f_key f) (f_value f))
    | None => Err (Corruption "cdc bad version")
    end
  else if bool_decide (k = str "seq") then
    match parse_uint u64_max v with
    | Some n => Ok (mkFields (f_version f) (Some n) (f_op f) (f_key f) (f_value f))
    | None => Err (Corruption "cdc bad seq")
    end
  else if bool_decide (k = str "op") then
    o ← op_parse v; Ok (mkFields (f_version f) (f_seq f) (Some o) (f_key f) (f_value f))
  else if bool_decide (k = str "key") then
    b ← hex_decode v; Ok (mkFields (f_version f) (f_seq f) (f_op f) (Some b) (f_value f))
  else if bool_decide (k = str "value") then
    b ← hex_decode v; Ok (mkFields (f_version f) (f_seq f) (f_op f) (f_key f) (Some b))
  else Ok f.

Fixpoint take_fields (f : EventFields) (fields : list (bytes * bytes)) : result KayaError EventFields :=
  match fields with [] => Ok f | x :: fields => f ← take_field f x; take_fields f fields end.

Definition required {A} (x : option A) (msg : string) : result KayaError A :=
  match x with Some a => Ok a | None => Err (Corruption msg) end.

Definition decode_event_line (line : bytes) : result KayaError CdcEvent :=
  let line := trim line in
  if negb (starts_with (str "{") line) || negb (bool_decide (last line = Some 125)) then
    Err (Corruption "cdc log line is not a JSON object")
  else
    fields ← split_json_fields (slice 1 (length line - 1) line);
    f ← take_fields (mkFields None None None None None) fields;
    version ← required (f_version f) "cdc missing v";
    if negb (version =? LOG_VERSION) then Err (Corruption ("unsupported cdc log version " +:+ pretty version))
    else
      seq ← required (f_seq f) "cdc missing seq";
      op ← required (f_op f) "cdc missing op";
      key ← required (f_key f) "cdc missing key";
      Ok (mkCdcEvent seq key (match op with OpPut => Some (default [] (f_value f)) | OpDelete => None end) op).

(** ** Consumers *)

Definition cdc_disabled : KayaError := InvalidArgument "cdc is disabled (EngineConfig.enable_cdc = false)".

Definition cdc_subscribe (enable_cdc : bool) (id : bytes) (from_seq : option N) (c : CdcState)
    : result KayaError CdcCursor :=
  if negb enable_cdc then Err cdc_disabled
  else
    _ ← validate_consumer_id id;
    Ok (mkCursor id (match from_seq with Some s => s | None => default 0 (consumer_last_seq c !! id) end)).

(** The first [limit] events after [last]. *)
Fixpoint poll_events (last : N) (limit : nat) (evs : list CdcEvent) : list CdcEvent :=
  match limit, evs with
  | S limit', ev :: evs =>
      if ev_seq ev <=? last then poll_events last limit evs else ev :: poll_events last limit' evs
  | _, _ => []
  end.

Definition cdc_poll (enable_cdc : bool) (cursor : CdcCursor) (limit : nat) (c : CdcState)
    : result KayaError (list CdcEvent) * CdcCursor * CdcState :=
  if negb enable_cdc then (Err cdc_disabled, cursor, c)
  else
    match validate_consumer_id (consumer_id cursor) with
    | Err e => (Err e, cursor, c)
    | Ok _ =>
        let out := poll_events (cur_last_seq cursor) limit (cdc_events c) in
        match last out with
        | None => (Ok out, cursor, c)
        | Some ev =>
            (Ok out, mkCursor (consumer_id cursor) (ev_seq ev),
             mkCdcState (cdc_events c) (<[consumer_id cursor := ev_seq ev]> (consumer_last_seq c)))
        end
    end.

Definition cdc_min_consumer_seq (c : CdcState) : N :=
  match (map_to_list (consumer_last_seq c)).*2 with [] => 0 | x :: l => foldr N.min x l end.

(** The events [cdc_compact] keeps. *)
Definition cdc_retain (cutoff : N) (c : CdcState) : CdcState :=
  mkCdcState (filter (λ ev, cutoff < ev_seq ev) (cdc_events c)) (consumer_last_seq c).

(** ** Round trip of a line *)

Lemma hex_char_val n : n < 16 → hex_nibble (hex_char n) = Ok n ∧ plain (hex_char n) ∧ hex_char n ≠ quote.
Proof.
  intros Hn. unfold hex_char, hex_nibble, plain, quote, ch_backslash. destruct (N.ltb_spec n 10).
  - rewrite (proj2 (N.leb_le 48 _)), (proj2 (N.leb_le _ 57)) by lia. cbn [andb]. split_and!; [f_equal; lia|lia..].
  - rewrite (proj2 (N.leb_gt _ 57)) by lia. rewrite andb_false_r.
    rewrite (proj2 (N.leb_le 97 _)), (proj2 (N.leb_le _ 102)) by lia. cbn [andb]. split_and!; [f_equal; lia|lia..].
Qed.

Lemma nibbles b : b < 256 → N.shiftr b 4 < 16 ∧ N.land b 0xf < 16 ∧ N.lor (N.shiftl (N.shiftr b 4) 4) (N.land b 0xf) = b.
Proof.
  intros Hb.
  assert (Forall (λ b, N.shiftr b 4 < 16 ∧ N.land b 0xf < 16 ∧ N.lor (N.shiftl (N.shiftr b 4) 4) (N.land b 0xf) = b)
            (N.of_nat <$> seq 0 256)) as Hall by (apply (bool_decide_unpack _); by vm_compute).
  apply (proj1 (Forall_forall _ _) Hall). apply list_elem_of_fmap. exists (N.to_nat b). split; [lia|].
  apply elem_of_seq. lia.
Qed.

Lemma hex_pairs_encode bs : bytes_ok bs → hex_pairs (hex_encode bs) = Ok bs.
Proof.
  induction 1 as [|b bs Hb _ IH]; [done|]. unfold hex_encode in *. rewrite bind_cons. cbn [app hex_pairs].
  destruct (nibbles b Hb) as (H1 & H2 & E). rewrite (proj1 (hex_char_val _ H1)), (proj1 (hex_char_val _ H2)).
  cbn [mbind result_bind]. rewrite IH. cbn [mbind result_bind]. by rewrite E.
Qed.

Lemma length_hex_encode bs : length (hex_encode bs) = (2 * length bs)%nat.
Proof. induction bs as [|b bs IH]; [done|]. unfold hex_encode in *. rewrite bind_cons, length_app, IH. cbn. lia. Qed.

Lemma hex_decode_encode bs : bytes_ok bs → hex_decode (hex_encode bs) = Ok bs.
Proof.
  intros Hb. unfold hex_decode, lenN. rewrite length_hex_encode, Nat2N.inj_mul, N.odd_mul.
  change (N.odd (N.of_nat 2)) with false. cbn [andb]. by apply hex_pairs_encode.
Qed.

(** Text without quotes and escapes. *)
Definition bare (b : N) : Prop := plain b ∧ b ≠ quote.

Lemma hex_encode_bare bs : bytes_ok bs → Forall bare (hex_encode bs).
Proof.
  induction 1 as [|b bs Hb _ IH]; [constructor|]. unfold hex_encode in *. rewrite bind_cons.
  destruct (nibbles b Hb) as (H1 & H2 & _). destruct (hex_char_val _ H1) as (_ & ? & ?), (hex_char_val _ H2) as (_ & ? & ?).
  constructor; [by split|]. constructor; [by split|done].
Qed.

(** Decimal digits. *)
Lemma dec_go_digits fuel n acc :
  Forall (λ b, 48 <= b ∧ b <= 57) acc → Forall (λ b, 48 <= b ∧ b <= 57) (dec_go fuel n acc).
Proof.
  revert n acc. induction fuel as [|fuel IH]; intros n acc Ha; [done|]. cbn [dec_go]. cbv zeta.
  pose proof (N.mod_lt n 10 ltac:(done)) as Hm.
  assert (Forall (λ b, 48 <= b ∧ b <= 57) ((48 + n mod 10) :: acc)) by (apply Forall_cons; split; [clear -Hm; revert Hm; generalize (n mod 10); intros; lia|done]).
  destruct (n <? 10); [done|]. by apply IH.
Qed.

Lemma parse_dec_app max acc a b :
  parse_dec max acc (a ++ b) = parse_dec max acc a ≫= λ x, parse_dec max x b.
Proof.
  revert acc. induction a as [|x a IH]; intros acc; [done|]. cbn [app parse_dec].
  destruct (_ && _); [|done]. cbv zeta. destruct (_ <=? max); [apply IH|done].
Qed.

Lemma parse_dec_go max fuel : ∀ n acc,
  n <= max → n < 10 ^ N.of_nat fuel → parse_dec max 0 (dec_go fuel n acc) = parse_dec max n acc.
Proof.
  induction fuel as [|fuel IH]; intros n acc Hn Hf.
  { change (10 ^ N.of_nat 0) with 1 in Hf. by assert (n = 0) as -> by lia. }
  cbn [dec_go]. cbv zeta. pose proof (N.mod_lt n 10 ltac:(done)) as Hm. pose proof (N.div_mod n 10 ltac:(done)) as Hd.
  assert (n / 10 < 10 ^ N.of_nat fuel) as Hq.
  { apply N.Div0.div_lt_upper_bound. rewrite Nat2N.inj_succ, N.pow_succ_r' in Hf. done. }
  revert Hm Hd Hq. generalize (n mod 10) as m, (n / 10) as q. intros m q Hm Hd Hq.
  assert (parse_dec max q ((48 + m) :: acc) = parse_dec max n acc) as Hstep.
  { cbn [parse_dec]. rewrite (proj2 (N.leb_le 48 _)), (proj2 (N.leb_le _ 57)) by lia. cbn [andb].
    replace (10 * q + (48 + m - 48)) with n by lia. by rewrite (proj2 (N.leb_le n max)). }
  destruct (N.ltb_spec n 10) as [Hlt|Hge].
  - assert (q = 0) as -> by lia. exact Hstep.
  - rewrite IH; [exact Hstep|lia|done].
Qed.

Lemma dec_bytes_head n : ∃ d l, dec_bytes n = d :: l ∧ 48 <= d ∧ d <= 57 ∧ Forall (λ b, 48 <= b ∧ b <= 57) l.
Proof.
  pose proof (dec_go_digits 20 n [] (Forall_nil_2 _)) as Hf. fold (dec_bytes n) in Hf.
  assert (∀ fuel m acc, acc ≠ [] ∨ fuel ≠ 0%nat → dec_go fuel m acc ≠ []) as Hne.
  { induction fuel as [|fuel IH]; intros m acc Ha; [by destruct Ha|]. cbn [dec_go]. cbv zeta.
    destruct (m <? 10); [done|]. apply IH. by left. }
  destruct (dec_bytes n) as [|d l] eqn:E.
  - exfalso. apply (Hne 20%nat n []); [by right|exact E].
  - apply Forall_cons in Hf as [[? ?] Hf]. by exists d, l.
Qed.

Lemma parse_uint_dec max n : n <= max → max <= u64_max → parse_uint max (dec_bytes n) = Some n.
Proof.
  intros Hn Hm. destruct (dec_bytes_head n) as (d & l & E & H1 & H2 & _). unfold parse_uint. rewrite E.
  assert (parse_dec max 0 (d :: l) = Some n) as Hp.
  { rewrite <-E. unfold dec_bytes. rewrite parse_dec_go; [done|done|]. unfold u64_max in Hm. cbn. lia. }
  destruct d as [|p]; [lia|]. do 6 (destruct p as [p|p|]; try exact Hp; try lia).
Qed.

Lemma dec_bytes_bare n : Forall bare (dec_bytes n).
Proof.
  eapply Forall_impl; [apply (dec_go_digits 20 n [] (Forall_nil_2 _))|]. intros b [? ?].
  unfold bare, plain, quote, ch_backslash. lia.
Qed.

Lemma latin1_bare b : bare b → latin1 b = [b].
Proof. intros [(_ & ? & _) _]. unfold latin1. by rewrite (proj2 (N.ltb_lt b 128)) by lia. Qed.

Lemma json_string_ok out s rest :
  Forall bare s → json_string_loop out (s ++ quote :: rest) = Ok (out ++ s, rest).
Proof.
  intros Hs. revert out. induction Hs as [|b s Hb _ IH]; intros out; cbn [app json_string_loop].
  - change (quote =? quote) with true. by rewrite app_nil_r.
  - pose proof Hb as [(_ & _ & Hbs) Hq]. apply N.eqb_neq in Hq, Hbs. rewrite Hq. unfold ch_backslash in Hbs. rewrite Hbs.
    rewrite IH, latin1_bare by done. by rewrite <-app_assoc.
Qed.

Lemma trim_start_plain b bs : plain b → trim_start (b :: bs) = b :: bs.
Proof. intros. unfold trim_start. by apply trim_with_stop, ws_front_plain. Qed.

Lemma trim_start_nil : trim_start [] = [].
Proof. done. Qed.

(** What may follow a field. *)
Definition field_end (rest : bytes) : Prop := rest = [] ∨ ∃ t, rest = 44 :: t.

Lemma trim_start_end rest : field_end rest → trim_start rest = rest.
Proof. intros [->|[t ->]]; [done|]. by apply trim_start_plain. Qed.

Lemma take_number_bare s rest :
  Forall (λ b, plain b ∧ b ≠ 44) s → field_end rest →
  take_number (length (s ++ rest)) (s ++ rest) = (s, rest).
Proof.
  intros Hs Hr. induction Hs as [|b s [Hb H44] _ IH]; cbn [length app take_number].
  - destruct Hr as [->|[t ->]]; done.
  - apply N.eqb_neq in H44. rewrite H44, ws_front_plain by done. cbn [orb Nat.eqb negb]. by rewrite IH.
Qed.

(** *** The fuel of the field loop is enough *)

Lemma trim_with_length ws fuel : ∀ bs, (length (trim_with ws fuel bs) ≤ length bs)%nat.
Proof.
  induction fuel as [|fuel IH]; intros bs; cbn [trim_with]; [done|]. destruct (ws bs); [done|].
  etrans; [apply IH|]. rewrite length_drop. lia.
Qed.

Lemma trim_start_length bs : (length (trim_start bs) ≤ length bs)%nat.
Proof. apply trim_with_length. Qed.

Lemma json_string_length bs : ∀ out s rest,
  json_string_loop out bs = Ok (s, rest) → (length rest < length bs)%nat.
Proof.
  remember (length bs) as n eqn:Hn. revert bs Hn. induction n as [n IH] using lt_wf_ind. intros [|b bs] Hn out s rest; [done|].
  cbn [json_string_loop]. cbn in Hn. destruct (b =? quote); [intros [= <- <-]; lia|]. destruct (b =? 92).
  - destruct bs as [|c bs]; [done|]. cbn in Hn. intros Hr. apply (IH (length bs) ltac:(lia) bs eq_refl) in Hr. lia.
  - intros Hr. apply (IH (length bs) ltac:(lia) bs eq_refl) in Hr. lia.
Qed.

Lemma parse_json_string_length bs s rest :
  parse_json_string bs = Ok (s, rest) → (length rest < length bs)%nat.
Proof.
  unfold parse_json_string. destruct bs as [|b bs]; [done|]. intros Hp.
  assert (json_string_loop [] bs = Ok (s, rest)) as Hj by (repeat case_match; done).
  apply json_string_length in Hj. cbn. lia.
Qed.

Lemma take_number_length fuel : ∀ bs, (length (take_number fuel bs).2 ≤ length bs)%nat.
Proof.
  induction fuel as [|fuel IH]; intros [|b bs]; cbn [take_number]; [done..|]. destruct (_ || _); [done|].
  specialize (IH bs). destruct (take_number fuel bs). cbn in *. lia.
Qed.

Lemma json_field_length rest name v r :
  json_field rest = Ok (name, v, r) → (length r < length rest)%nat.
Proof.
  unfold json_field. pose proof (trim_start_length rest) as H1. set (r1 := trim_start rest) in *.
  destruct (negb (starts_with [quote] r1)); [done|].
  destruct (parse_json_string r1) as [[nm r2]|] eqn:E1; [|done]. apply parse_json_string_length in E1.
  cbn [mbind result_bind]. pose proof (trim_start_length r2) as H2. set (r3 := trim_start r2) in *.
  destruct (negb (starts_with (str ":") r3)); [done|].
  pose proof (trim_start_length (drop 1 r3)) as H3. set (r4 := trim_start (drop 1 r3)) in *.
  rewrite length_drop in H3. destruct (starts_with [quote] r4).
  - destruct (parse_json_string r4) as [[vl r5]|] eqn:E2; [|done]. apply parse_json_string_length in E2.
    cbn [mbind result_bind]. intros [= <- <- <-]. pose proof (trim_start_length r5). lia.
  - pose proof (take_number_length (length r4) r4) as H4. destruct (take_number (length r4) r4) as [vl r5].
    cbn [mbind result_bind snd] in *. intros [= <- <- <-]. pose proof (trim_start_length r5). lia.
Qed.

Lemma split_fields_fuel n m rest :
  (length rest ≤ n)%nat → (length rest ≤ m)%nat → split_fields_loop n rest = split_fields_loop m rest.
Proof.
  revert m rest. induction n as [|n IH]; intros [|m] [|b rest] Hn Hm; try done; cbn [length] in Hn, Hm; [lia|lia|].
  cbn [split_fields_loop]. destruct (json_field (b :: rest)) as [[[name v] r]|] eqn:E; [|done].
  apply json_field_length in E. cbn [mbind result_bind length] in *. destruct (starts_with (str ",") r); [|done].
  pose proof (trim_start_length (drop 1 r)) as Ht. rewrite length_drop in Ht. rewrite (IH m) by lia. done.
Qed.

Definition split_all (rest : bytes) := split_fields_loop (length rest) rest.

Lemma split_all_eq b rest name v r :
  json_field (b :: rest) = Ok (name, v, r) →
  split_all (b :: rest) =
    if starts_with (str ",") r then fields ← split_all (trim_start (drop 1 r)); Ok ((name, v) :: fields)
    else if bool_decide (r = []) then Ok [(name, v)] else Err (Corruption "cdc unexpected trailing field data").
Proof.
  intros Hj. unfold split_all at 1. cbn [length split_fields_loop]. rewrite Hj. cbn [mbind result_bind].
  destruct (starts_with (str ",") r); [|done]. apply json_field_length in Hj. cbn [length] in Hj.
  pose proof (trim_start_length (drop 1 r)) as Ht. rewrite length_drop in Ht.
  unfold split_all. by rewrite (split_fields_fuel (length rest) (length (trim_start (drop 1 r)))) by lia.
Qed.

(** *** Fields *)

Definition field_of (name v : bytes) : bytes := quote :: name ++ quote :: 58 :: v.
Definition quoted (v : bytes) : bytes := quote :: v ++ [quote].

Lemma parse_quoted v rest : Forall bare v → parse_json_string (quote :: v ++ quote :: rest) = Ok (v, rest).
Proof. intros Hv. change (parse_json_string (quote :: ?x)) with (json_string_loop [] x). by rewrite json_string_ok. Qed.

Lemma json_field_eq name v rest :
  Forall bare name → plain (nth_byte v 0) → v ≠ [] →
  json_field (field_of name v ++ rest) =
    '(value, after_val) ← (if starts_with [quote] (v ++ rest) then parse_json_string (v ++ rest)
                           else Ok (take_number (length (v ++ rest)) (v ++ rest)));
    Ok (name, value, trim_start after_val).
Proof.
  intros Hn Hv Hne. unfold json_field, field_of. cbn [app]. rewrite trim_start_plain by done.
  change (starts_with [quote] (quote :: ?x)) with true. cbn [negb]. rewrite <-app_assoc. cbn [app].
  rewrite parse_quoted by done. cbn [mbind result_bind]. rewrite trim_start_plain by done.
  change (starts_with (str ":") (58 :: ?x)) with true. cbn [negb drop].
  destruct v as [|b v]; [done|]. cbn [app]. by rewrite drop_0, trim_start_plain by done.
Qed.

Lemma json_field_quoted name v rest :
  Forall bare name → Forall bare v → field_end rest →
  json_field (field_of name (quoted v) ++ rest) = Ok (name, v, rest).
Proof.
  intros Hn Hv Hr. rewrite json_field_eq by done. unfold quoted. cbn [app].
  change (starts_with [quote] (quote :: ?x)) with true. cbn iota. rewrite <-app_assoc. cbn [app].
  rewrite parse_quoted by done. cbn [mbind result_bind]. by rewrite trim_start_end.
Qed.

Lemma json_field_number name n rest :
  Forall bare name → field_end rest → json_field (field_of name (dec_bytes n) ++ rest) = Ok (name, dec_bytes n, rest).
Proof.
  intros Hn Hr. destruct (dec_bytes_head n) as (d & l & E & H1 & H2 & Hl). rewrite E.
  assert (plain d) as Hd by (unfold plain, ch_backslash; lia). rewrite json_field_eq by done. cbn [app].
  assert (starts_with [quote] (d :: l ++ rest) = false) as ->.
  { change (starts_with [quote] (d :: l ++ rest)) with ((quote =? d) && true).
    by rewrite (proj2 (N.eqb_neq quote d)) by (unfold quote; lia). }
  assert (take_number (length (d :: l ++ rest)) (d :: l ++ rest) = (d :: l, rest)) as ->.
  { apply (take_number_bare (d :: l) rest); [|done]. constructor; [split; [done|lia]|].
    eapply Forall_impl; [exact Hl|]. intros b [? ?]. unfold plain, ch_backslash. lia. }
  cbn [mbind result_bind]. by rewrite trim_start_end.
Qed.

(** Events as the engine emits them: a put has a value, a deletion has none. *)
Record event_ok (ev : CdcEvent) : Prop := {
  eo_seq : ev_seq ev <= u64_max;
  eo_key : bytes_ok (ev_key ev);
  eo_value : match ev_op ev with OpPut => ∃ v, ev_value ev = Some v ∧ bytes_ok v | OpDelete => ev_value ev = None end
}.

Definition line_body (ev : CdcEvent) : bytes :=
  field_of (str "v") (dec_bytes LOG_VERSION) ++ 44 :: field_of (str "seq") (dec_bytes (ev_seq ev)) ++ 44 ::
  match ev_op ev with
  | OpPut =>
      field_of (str "op") (quoted (str "put")) ++ 44 :: field_of (str "key") (quoted (hex_encode (ev_key ev))) ++ 44 ::
      field_of (str "value") (quoted (hex_encode (default [] (ev_value ev))))
  | OpDelete =>
      field_of (str "op") (quoted (str "delete")) ++ 44 :: field_of (str "key") (quoted (hex_encode (ev_key ev)))
  end.

Lemma encode_event_line_eq ev : encode_event_line ev = (123 :: line_body ev ++ [125]) ++ [10].
Proof.
  unfold encode_event_line, line_body, field_of, quoted.
  change (str "{") with [123]. change (str "}") with [125]. change (str ",") with [44]. change (str ":") with [58].
  destruct (ev_op ev); repeat (progress (cbn [app]; rewrite <-?app_assoc)); reflexivity.
Qed.

Lemma bare_plain l : Forall bare l → Forall plain l.
Proof. intros. eapply Forall_impl; [done|]. by intros b []. Qed.

Lemma field_of_plain name v : Forall bare name → Forall plain v → Forall plain (field_of name v).
Proof.
  intros Hn Hv. unfold field_of. constructor; [done|]. apply Forall_app. split; [by apply bare_plain|].
  by repeat (constructor; [done|]).
Qed.

Lemma quoted_plain v : Forall bare v → Forall plain (quoted v).
Proof. intros Hv. unfold quoted. constructor; [done|]. apply Forall_app. split; [by apply bare_plain|by repeat constructor]. Qed.

#[export] Instance bare_dec b : Decision (bare b).
Proof. unfold bare, plain. apply _. Defined.

Ltac bare_text := apply (bool_decide_unpack _); reflexivity.

Lemma line_body_plain ev : event_ok ev → Forall plain (line_body ev).
Proof.
  intros [_ Hk Hv]. pose proof (hex_encode_bare _ Hk) as Hk'. unfold line_body.
  assert (∀ n, Forall plain (dec_bytes n)) as Hd by (intros; apply bare_plain, dec_bytes_bare).
  assert (Forall bare (hex_encode (default [] (ev_value ev)))) as Hv'.
  { destruct (ev_op ev); [destruct Hv as (v & -> & Hv); by apply hex_encode_bare|by rewrite Hv]. }
  destruct (ev_op ev); repeat first
    [ apply field_of_plain; [bare_text|] | apply Hd | apply quoted_plain; (done || bare_text)
    | apply Forall_app; split | apply Forall_cons; split; [done|] ].
Qed.

Lemma trim_with_step ws fuel bs n : ws bs = S n → trim_with ws (S fuel) bs = trim_with ws fuel (drop (S n) bs).
Proof. intros E. cbn [trim_with]. by rewrite E. Qed.

Lemma trim_line l : Forall plain l → l ≠ [] → trim (l ++ [10]) = l.
Proof.
  intros Hl Hne. unfold trim. destruct l as [|b l]; [done|]. pose proof Hl as [Hb _]%Forall_cons.
  change ((b :: l) ++ [10]) with (b :: (l ++ [10])).
  rewrite (trim_with_stop ws_front) by (by apply ws_front_plain).
  change (b :: (l ++ [10])) with ((b :: l) ++ [10]). rewrite reverse_app, length_app, Nat.add_1_r.
  change (reverse [10] ++ reverse (b :: l)) with (10 :: reverse (b :: l)).
  rewrite (trim_with_step _ _ _ 0) by done. change (drop 1 (10 :: reverse (b :: l))) with (reverse (b :: l)).
  apply Forall_reverse in Hl. rewrite trim_with_stop; [apply reverse_involutive|].
  destruct Hl; [done|by apply ws_back_plain].
Qed.

Lemma split_all_more x name v t :
  json_field x = Ok (name, v, 44 :: t) → trim_start t = t →
  split_all x = fields ← split_all t; Ok ((name, v) :: fields).
Proof.
  intros Hj Ht. destruct x as [|b x]; [done|]. rewrite (split_all_eq _ _ _ _ _ Hj).
  change (starts_with (str ",") (44 :: t)) with true. cbn iota. change (drop 1 (44 :: t)) with t. by rewrite Ht.
Qed.

Lemma split_all_last x name v : json_field x = Ok (name, v, []) → split_all x = Ok [(name, v)].
Proof. intros Hj. destruct x as [|b x]; [done|]. by rewrite (split_all_eq _ _ _ _ _ Hj). Qed.

Lemma split_line ev :
  event_ok ev →
  split_json_fields (line_body ev) =
    Ok ([(str "v", dec_bytes LOG_VERSION); (str "seq", dec_bytes (ev_seq ev))] ++
        match ev_op ev with
        | OpPut => [(str "op", str "put"); (str "key", hex_encode (ev_key ev));
                    (str "value", hex_encode (default [] (ev_value ev)))]
        | OpDelete => [(str "op", str "delete"); (str "key", hex_encode (ev_key ev))]
        end).
Proof.
  intros Hev. unfold split_json_fields. rewrite trim_plain by (by apply line_body_plain). fold (split_all (line_body ev)).
  destruct Hev as [_ Hk Hv]. pose proof (hex_encode_bare _ Hk) as Hk'.
  assert (Forall bare (hex_encode (default [] (ev_value ev)))) as Hv'.
  { destruct (ev_op ev); [destruct Hv as (v & -> & Hv); by apply hex_encode_bare|by rewrite Hv]. }
  assert (∀ t, field_end (44 :: t)) as Hend by (intros t; right; by exists t).
  unfold line_body.
  erewrite split_all_more; [|apply json_field_number; [bare_text|apply Hend]|by apply trim_start_plain].
  erewrite split_all_more; [|apply json_field_number; [bare_text|apply Hend]|by destruct (ev_op ev); apply trim_start_plain].
  destruct (ev_op ev).
  - erewrite split_all_more; [|apply json_field_quoted; [bare_text|bare_text|apply Hend]|by apply trim_start_plain].
    erewrite split_all_more; [|apply json_field_quoted; [bare_text|done|apply Hend]|by apply trim_start_plain].
    rewrite <-(app_nil_r (field_of (str "value") _)).
    erewrite split_all_last; [|apply json_field_quoted; [bare_text|done|by left]]. done.
  - erewrite split_all_more; [|apply json_field_quoted; [bare_text|bare_text|apply Hend]|by apply trim_start_plain].
    rewrite <-(app_nil_r (field_of (str "key") _)).
    erewrite split_all_last; [|apply json_field_quoted; [bare_text|done|by left]]. done.
Qed.

Lemma decode_encode_line ev : event_ok ev → decode_event_line (encode_event_line ev) = Ok ev.
Proof.
  intros Hev. rewrite encode_event_line_eq. unfold decode_event_line.
  pose proof (line_body_plain ev Hev) as Hp. set (l := 123 :: line_body ev ++ [125]).
  assert (Forall plain l) as Hl.
  { unfold l. constructor; [done|]. apply Forall_app. split; [done|]. by constructor. }
  rewrite trim_line by done. change (starts_with (str "{") l) with true.
  assert (last l = Some 125) as Hlast.
  { unfold l. change (123 :: line_body ev ++ [125]) with ((123 :: line_body ev) ++ [125]). apply last_snoc. }
  rewrite bool_decide_eq_true_2 by done. cbn [negb orb].
  assert (slice 1 (length l - 1) l = line_body ev) as ->.
  { unfold l. change (123 :: line_body ev ++ [125]) with ([123] ++ line_body ev ++ [125]).
    apply slice_at; [done|]. rewrite !length_app. cbn [length]. lia. }
  rewrite (split_line ev Hev). cbn [mbind result_bind app take_fields].
  destruct Hev as [Hs Hk Hv]. destruct ev as [seq key value op]. cbn [ev_seq ev_key ev_value ev_op] in *.
  assert (∀ f, take_field f (str "v", dec_bytes LOG_VERSION) =
    Ok (mkFields (Some 1) (f_seq f) (f_op f) (f_key f) (f_value f))) as Hfv by done.
  assert (∀ f, take_field f (str "seq", dec_bytes seq) =
    Ok (mkFields (f_version f) (Some seq) (f_op f) (f_key f) (f_value f))) as Hfs.
  { intros f. change (take_field f (str "seq", dec_bytes seq)) with
      (match parse_uint u64_max (dec_bytes seq) with
       | Some n => Ok (mkFields (f_version f) (Some n) (f_op f) (f_key f) (f_value f))
       | None => Err (Corruption "cdc bad seq") end). by rewrite parse_uint_dec. }
  assert (∀ f, take_field f (str "key", hex_encode key) =
    Ok (mkFields (f_version f) (f_seq f) (f_op f) (Some key) (f_value f))) as Hfk.
  { intros f. change (take_field f (str "key", hex_encode key)) with
      (b ← hex_decode (hex_encode key); Ok (mkFields (f_version f) (f_seq f) (f_op f) (Some b) (f_value f))).
    by rewrite hex_decode_encode. }
  rewrite Hfv. cbn [mbind result_bind]. rewrite Hfs. cbn [mbind result_bind]. destruct op; cbn [take_fields].
  - destruct Hv as (v & -> & Hv). cbn [default].
    change (take_field ?f (str "op", str "put")) with
      (Ok (mkFields (f_version f) (f_seq f) (Some OpPut) (f_key f) (f_value f)) : result KayaError EventFields).
    cbn [mbind result_bind]. rewrite Hfk. cbn [mbind result_bind].
    assert (∀ f, take_field f (str "value", hex_encode v) =
      Ok (mkFields (f_version f) (f_seq f) (f_op f) (f_key f) (Some v))) as Hfl.
    { intros f. change (take_field f (str "value", hex_encode v)) with
        (b ← hex_decode (hex_encode v); Ok (mkFields (f_version f) (f_seq f) (f_op f) (f_key f) (Some b))).
      by rewrite hex_decode_encode. }
    by rewrite Hfl.
  - subst value. change (take_field ?f (str "op", str "delete")) with
      (Ok (mkFields (f_version f) (f_seq f) (Some OpDelete) (f_key f) (f_value f)) : result KayaError EventFields).
    cbn [mbind result_bind]. by rewrite Hfk.
Qed.

(** ** Delivery *)

(** The events a consumer at [last] has still to receive. *)
Definition pending (last : N) (evs : list CdcEvent) : list CdcEvent := filter (λ ev, last < ev_seq ev) evs.

Definition events_sorted (evs : list CdcEvent) : Prop := StronglySorted (λ x y, ev_seq x < ev_seq y) evs.

Lemma poll_events_take last limit evs : poll_events last limit evs = take limit (pending last evs).
Proof.
  unfold pending. revert limit. induction evs as [|ev evs IH]; intros [|limit]; [done..|]. cbn [poll_events].
  rewrite filter_cons. destruct (N.leb_spec (ev_seq ev) last).
  - rewrite decide_False by lia. apply IH.
  - rewrite decide_True by done. cbn [take]. by rewrite IH.
Qed.

Lemma pending_nil last evs : Forall (λ ev, ev_seq ev <= last) evs → pending last evs = [].
Proof.
  intros Hf. unfold pending. induction Hf as [|ev evs Hle _ IH]; [done|]. rewrite filter_cons, decide_False by lia. done.
Qed.

Lemma pending_app last a b : pending last (a ++ b) = pending last a ++ pending last b.
Proof. apply filter_app. Qed.

Lemma pending_all last evs : Forall (λ ev, last < ev_seq ev) evs → pending last evs = evs.
Proof.
  intros Hf. unfold pending. induction Hf as [|ev evs Hlt _ IH]; [done|]. rewrite filter_cons, decide_True by done. by rewrite IH.
Qed.

Lemma pending_trans last last' evs : last <= last' → pending last' (pending last evs) = pending last' evs.
Proof.
  intros Hle. unfold pending. rewrite list_filter_filter_l; [done|]. intros x ?. lia.
Qed.

Lemma pending_sorted last evs : events_sorted evs → events_sorted (pending last evs).
Proof.
  unfold events_sorted, pending. induction 1 as [|ev evs Hs IH Hf]; [constructor|]. rewrite filter_cons.
  destruct (decide _); [|done]. constructor; [done|]. apply Forall_forall. intros x [_ Hx]%list_elem_of_filter.
  exact (proj1 (Forall_forall _ _) Hf x Hx).
Qed.

(** Cutting a sorted list of events after [ev]. *)
Lemma pending_after a ev b : events_sorted (a ++ ev :: b) → pending (ev_seq ev) (a ++ ev :: b) = b.
Proof.
  intros Hs. rewrite pending_app. rewrite pending_nil.
  - cbn [app]. unfold pending. rewrite filter_cons, decide_False by lia.
    apply pending_all. apply StronglySorted_app_1_r in Hs. by inversion Hs.
  - apply Forall_forall. intros x Hx. apply N.lt_le_incl.
    eapply (StronglySorted_app_1_elem_of _ _ _ _ _ Hs); [done|by left].
Qed.

Lemma foldr_min_le x l y : y ∈ x :: l → foldr N.min x l <= y.
Proof.
  revert y. induction l as [|z l IH]; intros y; cbn [foldr].
  - rewrite list_elem_of_singleton. by intros ->.
  - rewrite !elem_of_cons. intros [->|[->|Hy]]; [|lia|].
    + specialize (IH x ltac:(by left)). lia.
    + specialize (IH y ltac:(by right)). lia.
Qed.

Lemma cdc_min_le c id s : consumer_last_seq c !! id = Some s → cdc_min_consumer_seq c <= s.
Proof.
  intros Hs. unfold cdc_min_consumer_seq. apply elem_of_map_to_list in Hs.
  assert (s ∈ (map_to_list (consumer_last_seq c)).*2) as Hin by (by apply (list_elem_of_fmap_2 snd) in Hs).
  destruct ((map_to_list (consumer_last_seq c)).*2) as [|x l]; [by apply elem_of_nil in Hin|]. by apply foldr_min_le.
Qed.

(** ** Properties *)

(** A line of the change log decodes to the event it was written for. *)
Theorem cdc_line_roundtrip (ev : CdcEvent) : event_ok ev → decode_event_line (encode_event_line ev) = Ok ev.
Proof. apply decode_encode_line. Qed.

(** A poll delivers the next events after the cursor, at most [limit] of them, in
    order; what it delivered and what remains for the cursor it leaves are
    together what was outstanding, so that nothing is skipped or repeated; it
    delivers something when something is outstanding; and compaction at the
    lowest position of the known consumers takes nothing away from any of them. *)
Theorem cdc_poll_delivers (cursor : CdcCursor) (limit : nat) (c : CdcState) :
  validate_consumer_id (consumer_id cursor) = Ok tt → events_sorted (cdc_events c) →
  ∃ out cursor' c', cdc_poll true cursor limit c = (Ok out, cursor', c') ∧
    out = take limit (pending (cur_last_seq cursor) (cdc_events c)) ∧
    out ++ pending (cur_last_seq cursor') (cdc_events c') = pending (cur_last_seq cursor) (cdc_events c) ∧
    (out ≠ [] → consumer_last_seq c' !! consumer_id cursor = Some (cur_last_seq cursor')) ∧
    ∀ id s, consumer_last_seq c' !! id = Some s →
      pending s (cdc_events (cdc_retain (cdc_min_consumer_seq c') c')) = pending s (cdc_events c').
Proof.
  intros Hid Hs. unfold cdc_poll. rewrite Hid. cbn [negb]. rewrite poll_events_take.
  set (P := pending (cur_last_seq cursor) (cdc_events c)).
  assert (∀ c id s, consumer_last_seq c !! id = Some s →
    pending s (cdc_events (cdc_retain (cdc_min_consumer_seq c) c)) = pending s (cdc_events c)) as Hret.
  { intros c0 id s Hc. unfold cdc_retain. cbn. apply pending_trans. by eapply cdc_min_le. }
  destruct (last (take limit P)) as [ev|] eqn:El.
  - eexists _, _, _. split; [done|]. split_and!; [done| |intros _; cbn; by rewrite lookup_insert_eq|apply Hret].
    cbn [cur_last_seq cdc_events]. apply last_Some in El as [l El]. pose proof (take_drop limit P) as HP.
    rewrite El, <-app_assoc in HP. cbn [app] in HP.
    rewrite <-(pending_trans (cur_last_seq cursor) (ev_seq ev)).
    + fold P. rewrite El. rewrite <-HP at 1. rewrite pending_after.
      * by rewrite <-app_assoc.
      * rewrite HP. by apply pending_sorted.
    + apply N.lt_le_incl. assert (ev ∈ P) as Hev by (rewrite <-HP; apply elem_of_app; right; by left).
      by apply list_elem_of_filter in Hev as [? _].
  - eexists _, _, _. split; [done|]. split_and!; [done| |by rewrite (proj1 (last_None _) El)|apply Hret].
    by rewrite (proj1 (last_None _) El).
Qed.

Definition demo_event (s : N) : CdcEvent := mkCdcEvent s [107; 0; 255] (Some [1]) OpPut.

Lemma cdc_line_roundtrip_witness : decode_event_line (encode_event_line (demo_event 300)) = Ok (demo_event 300).
Proof. apply (cdc_line_roundtrip (demo_event 300)). by split; [|repeat constructor|exists [1]; split; [|repeat constructor]]. Defined.

Lemma cdc_poll_delivers_witness :
  let c := mkCdcState [demo_event 1; demo_event 4; demo_event 5] {[ [98] := 2 ]} in
  ∃ out cursor' c', cdc_poll true (mkCursor [97] 1) 1 c = (Ok out, cursor', c') ∧
    out = take 1 (pending 1 (cdc_events c)) ∧
    out ++ pending (cur_last_seq cursor') (cdc_events c') = pending 1 (cdc_events c) ∧
    (out ≠ [] → consumer_last_seq c' !! [97] = Some (cur_last_seq cursor')) ∧
    ∀ id s, consumer_last_seq c' !! id = Some s →
      pending s (cdc_events (cdc_retain (cdc_min_consumer_seq c') c')) = pending s (cdc_events c').
Proof.
  apply (cdc_poll_delivers (mkCursor [97] 1) 1 (mkCdcState [demo_event 1; demo_event 4; demo_event 5] {[ [98] := 2 ]})).
  - done.
  - by repeat constructor.
Defined.
