(* ===== verification/Node.v ===== *)
(** The engine with the state of its upper layers: the public writes of
    [kaya-engine/src/memtable.rs], secondary indexes ([index.rs]), the change feed
    ([cdc.rs]), transactions ([txn.rs]) and two-phase commit ([txn2pc.rs]). *)
From stdpp Require Import gmap.
From S2P Require Import Prelude Bytes Core Hlc OrdMap Path Disk WalCodec WalWriter InternalKey SstBlock Memtable Manifest Compaction Engine EngineStore Index Cdc.

Open Scope N_scope.

(** ** State *)

Record Intent := mkIntent { in_txn_id : N; in_value : option bytes }.
Record TxnMeta := mkTxnMeta { snapshot_ts : N; tm_keys : gset bytes }.
Record TxnTables := mkTxnTables {
  intents : gmap bytes Intent;
  txns : gmap N TxnMeta;
  next_txn_id : N
}.
Definition TxnTables_new : TxnTables := mkTxnTables ∅ ∅ 1.

(** How an asynchronous call ends: with a value, with an error, or not yet. *)
Inductive reply (A : Type) : Type := Done (a : A) | Failed (x : KayaError) | Waiting.
Arguments Done {A} a.
Arguments Failed {A} x.
Arguments Waiting {A}.

Definition reply_of {A} (r : result KayaError A) : reply A :=
  match r with Ok a => Done a | Err x => Failed x end.

(** The prefix of the keys of two-phase commit. *)
Definition TXN_SYS_PREFIX : bytes := 0 :: str "txn/".

Definition is_txn_system_key (key : bytes) : bool := starts_with TXN_SYS_PREFIX key.

(** The indexes a key belongs to. *)
Definition matching (key : bytes) (ix : list (bytes * IndexDef)) : list IndexDef :=
  filter (λ d, starts_with (primary_prefix d) key = true) ix.*2.

Section Node.
Context {T : Type} `{SstFormat T}.

(** The wall clock in milliseconds, the clock of the log and the duration of the
    sync, at every write. *)
Context (env : N → N * N * N).

Record Node := mkNode {
  core : Engine T;
  txn : TxnTables;
  indexes : list (bytes * IndexDef);
  index_backfill : list (bytes * BackfillProgress);
  enable_cdc : bool;
  cdc : CdcState;
  writes : N
}.

Definition set_core (e : Engine T) (n : Node) : Node :=
  mkNode e (txn n) (indexes n) (index_backfill n) (enable_cdc n) (cdc n) (writes n).
Definition set_txn (t : TxnTables) (n : Node) : Node :=
  mkNode (core n) t (indexes n) (index_backfill n) (enable_cdc n) (cdc n) (writes n).
Definition set_indexes (l : list (bytes * IndexDef)) (n : Node) : Node :=
  mkNode (core n) (txn n) l (index_backfill n) (enable_cdc n) (cdc n) (writes n).
Definition set_backfill (l : list (bytes * BackfillProgress)) (n : Node) : Node :=
  mkNode (core n) (txn n) (indexes n) l (enable_cdc n) (cdc n) (writes n).
Definition set_cdc (c : CdcState) (n : Node) : Node :=
  mkNode (core n) (txn n) (indexes n) (index_backfill n) (enable_cdc n) c (writes n).
Definition count_write (n : Node) : Node :=
  mkNode (core n) (txn n) (indexes n) (index_backfill n) (enable_cdc n) (cdc n) (writes n + 1).

(** ** Calls *)

Definition task (A : Type) : Type := Node → reply A * Node.

#[global] Instance task_ret : MRet task := fun A a n => (Done a, n).
#[global] Instance task_bind : MBind task := fun A B f m n =>
  match m n with
  | (Done a, n) => f a n
  | (Failed x, n) => (Failed x, n)
  | (Waiting, n) => (Waiting, n)
  end.

Definition failed {A} (x : KayaError) : task A := fun n => (Failed x, n).
Definition of_result {A} (r : result KayaError A) : task A := fun n => (reply_of r, n).
Definition node : task Node := fun n => (Done n, n).
Definition update (f : Node → Node) : task unit := fun n => (Done tt, f n).

(** A read of the engine. *)
Definition reads {A} (f : Engine T → result KayaError A) : task A := fun n => (reply_of (f (core n)), n).

(** A disk operation. *)
Definition disk {A} (op : stm SimState A) : task A := fun n =>
  let '(r, e) := edisk op (core n) in (reply_of r, set_core e n).

(** [write_put] and, without a value, [write_delete]. *)
Definition write (key : bytes) (v : option bytes) (mode : option DurabilityMode) : task WriteResult := fun n =>
  let '(now_ms, now, fsync_us) := env (writes n) in
  let '(r, e) := engine_write key v mode now_ms now fsync_us (core n) in
  (match r with Ok (Some w) => Done w | Ok None => Waiting | Err x => Failed x end, count_write (set_core e n)).

Fixpoint each {A} (f : A → task unit) (l : list A) : task unit :=
  match l with [] => mret tt | x :: l => _ ← f x; each f l end.

Definition get_latest (key : bytes) : task (option bytes) := reads (get_inner key Latest).
Definition scan (prefix : bytes) : task (list (bytes * bytes)) :=
  reads (scan_prefix_inner prefix (mkScanOptions None Latest)).

(** ** Reserved keys *)

Definition reject_if_system_key (key : bytes) : result KayaError unit :=
  if is_index_system_key key then
    Err (InvalidArgument "keys under reserved system prefix \x00idx/ are not writable via public API")
  else if is_txn_system_key key then
    Err (InvalidArgument "keys under reserved system prefix \x00txn/ are not writable via public API")
  else Ok tt.

(** ** Index maintenance *)

(** The new entry of the index [def]. *)
Definition insert_entry (def : IndexDef) (key value : bytes) (mode : option DurabilityMode) : task unit :=
  match extract (extractor def) value with
  | Some sec => _ ← write (encode_data_key (id_name def) sec key) (Some []) mode; mret tt
  | None => mret tt
  end.

Definition maintain_put (key : bytes) (old_value : option bytes) (new_value : bytes) (mode : option DurabilityMode)
    (def : IndexDef) : task unit :=
  match old_value ≫= extract (extractor def) with
  | None => insert_entry def key new_value mode
  | Some old_sec =>
      if negb (bool_decide (extract (extractor def) new_value = Some old_sec)) then
        _ ← write (encode_data_key (id_name def) old_sec key) None mode;
        insert_entry def key new_value mode
      else
        cur ← get_latest (encode_data_key (id_name def) old_sec key);
        match cur with
        | None => _ ← write (encode_data_key (id_name def) old_sec key) (Some []) mode; mret tt
        | Some _ => mret tt
        end
  end.

Definition maintain_indexes_after_put (key : bytes) (old_value : option bytes) (new_value : bytes)
    (mode : option DurabilityMode) : task unit :=
  n ← node;
  if is_index_system_key key || bool_decide (indexes n = []) then mret tt
  else each (maintain_put key old_value new_value mode) (matching key (indexes n)).

Definition maintain_delete (key old : bytes) (mode : option DurabilityMode) (def : IndexDef) : task unit :=
  match extract (extractor def) old with
  | Some sec => _ ← write (encode_data_key (id_name def) sec key) None mode; mret tt
  | None => mret tt
  end.

Definition maintain_indexes_after_delete (key : bytes) (old_value : option bytes) (mode : option DurabilityMode)
    : task unit :=
  n ← node;
  if is_index_system_key key || bool_decide (indexes n = []) then mret tt
  else match old_value with
       | None => mret tt
       | Some old => each (maintain_delete key old mode) (matching key (indexes n))
       end.

(** ** Change feed *)

Definition append_cdc_event (ev : CdcEvent) : task unit :=
  n ← node;
  if negb (enable_cdc n) then mret tt
  else
    path ← of_result (path_new CDC_LOG_PATH);
    _ ← disk (append path (encode_event_line ev));
    _ ← disk (fsync_file path);
    update (λ n, set_cdc (mkCdcState (cdc_events (cdc n) ++ [ev]) (consumer_last_seq (cdc n))) n).

Definition cdc_compact (retain_below : option N) : task N :=
  n ← node;
  if negb (enable_cdc n) then failed cdc_disabled
  else
    let cutoff := default (cdc_min_consumer_seq (cdc n)) retain_below in
    if cutoff =? 0 then mret 0
    else
      let c := cdc_retain cutoff (cdc n) in
      let removed := lenN (cdc_events (cdc n)) - lenN (cdc_events c) in
      _ ← update (set_cdc c);
      if removed =? 0 then mret 0
      else
        path ← of_result (path_new CDC_LOG_PATH);
        let body := cdc_events c ≫= encode_event_line in
        _ ← disk (write_at path 0 body);
        _ ← disk (truncate path (lenN body));
        _ ← disk (fsync_file path);
        mret removed.

Definition cdc_checkpoint (id : bytes) : task unit :=
  n ← node;
  if negb (enable_cdc n) then failed cdc_disabled
  else
    _ ← of_result (validate_consumer_id id);
    path ← of_result (path_new (str "cdc/cursors/" ++ id));
    let payload := dec_bytes (default 0 (consumer_last_seq (cdc n) !! id)) ++ [10] in
    _ ← disk (write_at path 0 payload);
    _ ← disk (truncate path (lenN payload));
    disk (fsync_file path).

(** ** Public writes *)

Definition put (key value : bytes) (mode : option DurabilityMode) : task WriteResult :=
  _ ← reads (validate_key key);
  _ ← of_result (reject_if_system_key key);
  _ ← reads (validate_value value);
  old ← get_latest key;
  wr ← write key (Some value) mode;
  _ ← maintain_indexes_after_put key old value mode;
  _ ← append_cdc_event (mkCdcEvent (wr_sequence wr) key (Some value) OpPut);
  mret wr.

Definition delete (key : bytes) (mode : option DurabilityMode) : task WriteResult :=
  _ ← reads (validate_key key);
  _ ← of_result (reject_if_system_key key);
  old ← get_latest key;
  wr ← write key None mode;
  _ ← maintain_indexes_after_delete key old mode;
  _ ← append_cdc_event (mkCdcEvent (wr_sequence wr) key None OpDelete);
  mret wr.

End Node.
