(* ===== verification/NodeStore.v ===== *)
(** Reasoning about the calls of [Node]: what a call reads is a function of the
    log of all writes so far, and what it writes is a plan computed from that
    log.  A call performs a prefix of its plan, the whole of it when it returns. *)
From stdpp Require Import gmap.
From S2P Require Import Prelude Bytes Core Hlc OrdMap Path Disk WalCodec WalWriter InternalKey SstBlock SstSpec Memtable Manifest Compaction Engine EngineReads EngineScan EngineStore Index Cdc Node.

Open Scope N_scope.

(** ** Logs *)

(** Writes, the newest first. *)
Abbreviation log := (list (bytes * option bytes)).

Fixpoint look (k : bytes) (g : log) : option bytes :=
  match g with [] => None | (k', v) :: g => if decide (k = k') then v else look k g end.

Definition under (p : bytes) (g : log) : log := filter (λ x, starts_with p x.1 = true) g.

Fixpoint lives (ks : list bytes) (g : log) : list (bytes * bytes) :=
  match ks with
  | [] => []
  | k :: ks => match look k g with Some v => om_insert k v (lives ks g) | None => lives ks g end
  end.

(** The pairs under a prefix, by key. *)
Definition live (p : bytes) (g : log) : list (bytes * bytes) := lives (under p g).*1 (under p g).

(** A scan of the prefix stays within the limits. *)
Definition scan_fits (l : LimitsConfig) (p : bytes) (g : log) : Prop :=
  lenN p <= max_key_len l ∧ lenN (remove_dups (under p g).*1) <= max_scan_results l ∧
  pairs_bytes (live p g) <= max_scan_bytes l.

Definition cell (x : SstEntry) : bytes * option bytes := (se_key x, se_value x).
Definition cells (h : list SstEntry) : log := cell <$> h.

Definition write_cost (x : bytes * option bytes) : N := entry_cost (mkSstEntry x.1 x.2 0).
Definition plan_cost (l : log) : N := foldr N.add 0 (write_cost <$> l).
Definition write_bytes (x : bytes * option bytes) : Prop := bytes_ok x.1 ∧ bytes_ok (default [] x.2).

Lemma plan_cost_app l1 l2 : plan_cost (l1 ++ l2) = plan_cost l1 + plan_cost l2.
Proof. unfold plan_cost. induction l1; cbn [app fmap list_fmap foldr]; lia. Qed.

Lemma look_app k g1 g2 : look k (g1 ++ g2) = if decide (k ∈ g1.*1) then look k g1 else look k g2.
Proof.
  induction g1 as [|[k' v] g1 IH]; [by rewrite decide_False by (by intros ?%elem_of_nil)|]. cbn [app look fmap list_fmap fst].
  destruct (decide (k = k')) as [->|Hne].
  - by rewrite decide_True by left.
  - rewrite IH. destruct (decide (k ∈ g1.*1)).
    + by rewrite decide_True by (by right).
    + by rewrite decide_False by (by intros [|]%elem_of_cons).
Qed.

Lemma look_eq k v g : look k ((k, v) :: g) = v.
Proof. cbn [look]. by rewrite decide_True. Qed.

Lemma look_skip k g1 g2 : k ∉ g1.*1 → look k (g1 ++ g2) = look k g2.
Proof. intros Hk. by rewrite look_app, decide_False. Qed.

Lemma look_elem k v g : look k g = Some v → (k, Some v) ∈ g.
Proof.
  induction g as [|[k' w] g IH]; cbn [look]; [done|]. destruct (decide (k = k')) as [->|]; [by intros ->; left|].
  right. auto.
Qed.

Lemma under_app p g1 g2 : under p (g1 ++ g2) = under p g1 ++ under p g2.
Proof. apply filter_app. Qed.

Lemma under_none p g : Forall (λ x, starts_with p x.1 = false) g → under p g = [].
Proof.
  unfold under. induction 1 as [|x g Hx Hg IH]; [done|]. rewrite filter_cons_False; [done|]. by rewrite Hx.
Qed.

Lemma look_under p k g : starts_with p k = true → look k (under p g) = look k g.
Proof.
  intros Hk. unfold under. induction g as [|[k' v] g IH]; [done|]. rewrite filter_cons. cbn [fst look].
  destruct (decide (k = k')) as [<-|Hne].
  - rewrite decide_True by done. cbn [look]. by rewrite decide_True.
  - case_decide; cbn [look]; rewrite ?decide_False; done.
Qed.

Lemma lives_sorted ks g : om_sorted (lives ks g).
Proof. induction ks; cbn [lives]; [apply om_sorted_nil|]. case_match; [by apply om_insert_sorted|done]. Qed.

Lemma lives_get ks g k : om_get k (lives ks g) = if decide (k ∈ ks) then look k g else None.
Proof.
  induction ks as [|k' ks IH]; cbn [lives]; [by rewrite decide_False by (by intros ?%elem_of_nil)|].
  destruct (decide (k = k')) as [->|Hne].
  - rewrite (decide_True (P := k' ∈ k' :: ks)) by left. destruct (look k' g); [apply om_get_insert_eq|].
    rewrite IH. by case_decide.
  - transitivity (om_get k (lives ks g)); [destruct (look k' g); [by apply om_get_insert_ne; [apply lives_sorted|]|done]|]. rewrite IH.
    case_decide as Hk; [by rewrite decide_True by (by right)|]. by rewrite decide_False by (by intros [|]%elem_of_cons).
Qed.

Lemma live_sorted p g : om_sorted (live p g).
Proof. apply lives_sorted. Qed.

Lemma live_elem p g k v : (k, v) ∈ live p g ↔ starts_with p k = true ∧ look k g = Some v.
Proof.
  rewrite <-om_get_elem by apply live_sorted. unfold live. rewrite lives_get. case_decide as Hk.
  - apply list_elem_of_fmap in Hk as ([? w] & -> & Hk). apply list_elem_of_filter in Hk as [Hk _]. cbn [fst] in *.
    rewrite look_under by done. tauto.
  - split; [done|]. intros [Hp Hl]. destruct Hk. apply list_elem_of_fmap. exists (k, Some v). split; [done|].
    apply list_elem_of_filter. split; [done|by apply look_elem].
Qed.

(** Writes elsewhere do not change what is under a prefix. *)
Lemma live_skip p g1 g2 : Forall (λ x, starts_with p x.1 = false) g1 → live p (g1 ++ g2) = live p g2.
Proof. intros Hg. unfold live. by rewrite under_app, (under_none p g1). Qed.

Lemma scan_fits_skip l p g1 g2 :
  Forall (λ x, starts_with p x.1 = false) g1 → scan_fits l p (g1 ++ g2) ↔ scan_fits l p g2.
Proof. intros Hg. unfold scan_fits. by rewrite (live_skip p), under_app, (under_none p g1). Qed.

Lemma pairs_bytes_sub l1 l2 : NoDup l1 → (∀ x, x ∈ l1 → x ∈ l2) → pairs_bytes l1 <= pairs_bytes l2.
Proof.
  intros Hnd Hs. unfold pairs_bytes. assert (l1 ⊆+ l2) as Hsub by (by apply NoDup_submseteq).
  clear Hnd Hs. induction Hsub; cbn [fmap list_fmap foldr]; lia.
Qed.

(** Deletions under the prefix keep a scan within the limits. *)
Lemma scan_fits_deletes lim p l g :
  Forall (λ x, starts_with p x.1 = true → x.2 = None ∧ x.1 ∈ (under p g).*1) l →
  scan_fits lim p g → scan_fits lim p (reverse l ++ g).
Proof.
  intros Hl (Hp & Hk & Hb). rewrite Forall_forall in Hl. split_and!; [done| |].
  - etrans; [|exact Hk]. unfold lenN. apply N2Z.inj_le. rewrite !nat_N_Z. apply inj_le.
    apply submseteq_length, NoDup_submseteq; [apply NoDup_remove_dups|]. intros k. rewrite !elem_of_remove_dups, under_app, fmap_app, elem_of_app.
    intros [Hin|Hin]; [|done]. apply list_elem_of_fmap in Hin as (x & -> & [Hx Hin]%list_elem_of_filter).
    rewrite elem_of_reverse in Hin. by apply Hl.
  - etrans; [|exact Hb]. apply pairs_bytes_sub; [by eapply NoDup_fmap_1, om_sorted_NoDup, live_sorted|].
    intros [k v]. rewrite !live_elem. intros [Hpk Hlk]. split; [done|]. destruct (decide (k ∈ (reverse l).*1)) as [Hin|Hin].
    + exfalso. rewrite look_app, decide_True in Hlk by done. apply look_elem in Hlk. rewrite elem_of_reverse in Hlk.
      by destruct (Hl _ Hlk Hpk).
    + by rewrite look_skip in Hlk.
Qed.

(** ** Histories and logs *)

Lemma read_cells k ts h : Forall (λ x, se_sequence x <= ts) h → read_at_ts k ts h = look k (cells h).
Proof.
  unfold read_at_ts, sst_newest, cells. induction 1 as [|x h Hx Hh IH]; [done|]. rewrite filter_cons.
  cbn [fmap list_fmap look cell]. destruct (decide (k = se_key x)) as [->|Hne].
  - by rewrite decide_True by done.
  - rewrite decide_False; [done|]. by intros [? _].
Qed.

Lemma read_old k ts vs h :
  Forall (λ x, ts < se_sequence x) vs → read_at_ts k ts (vs ++ h) = read_at_ts k ts h.
Proof.
  intros Hv. unfold read_at_ts. rewrite sst_newest_skip; [done|]. apply sst_newest_None. intros y Hy [_ Hle].
  pose proof (proj1 (Forall_forall _ _) Hv y Hy). cbn in *. lia.
Qed.

Section NodeStore.
Context {T : Type} `{SstLaws T} (env : N → N * N * N).

Abbreviation Node := (Node (T:=T)).
Abbreviation task := (task (T:=T)).

(** The engine of the node holds the history, with room for further writes; if it draws sequences
    from the hybrid clock, the wall clock stays within what the clock can pack. *)
Record stores (room : N) (h : list SstEntry) (n : Node) : Prop := {
  st_rep : represents room h (core n);
  st_bytes : Forall write_bytes (cells h);
  st_clock : e_use_hlc (core n) = true → ∀ i, (env i).1.1 < clock_limit
}.

(** What the writes of a call leave alone. *)
Definition upper (n : Node) := (txn n, indexes n, index_backfill n, enable_cdc n, fixed (core n)).

(** The history [h'] of [n'] is the history [h] of [n] and the writes [l], under
    sequences of their own. *)
Record wrote (l : log) (n : Node) (h : list SstEntry) (n' : Node) (h' : list SstEntry) : Prop := {
  wr_versions : ∃ vs, h' = vs ++ h ∧ cells vs = reverse l ∧
                  Forall (λ x, e_last_sequence (core n) < se_sequence x <= e_last_sequence (core n')) vs;
  wr_last : e_last_sequence (core n) <= e_last_sequence (core n')
}.

Lemma wrote_nil n h n' : e_last_sequence (core n') = e_last_sequence (core n) → wrote [] n h n' h.
Proof. intros He. split; [|by rewrite He]. by exists []. Qed.

Lemma wrote_trans l1 l2 n1 n2 n3 h1 h2 h3 :
  wrote l1 n1 h1 n2 h2 → wrote l2 n2 h2 n3 h3 → wrote (l1 ++ l2) n1 h1 n3 h3.
Proof.
  intros [(v1 & -> & Hc1 & Hs1) Hl1] [(v2 & -> & Hc2 & Hs2) Hl2]. split; [|lia]. exists (v2 ++ v1). split_and!.
  - by rewrite app_assoc.
  - unfold cells in *. by rewrite fmap_app, Hc1, Hc2, reverse_app.
  - apply Forall_app. split; (eapply Forall_impl; [eassumption|]); cbn; intros x ?; lia.
Qed.

Lemma wrote_cells l n h n' h' : wrote l n h n' h' → cells h' = reverse l ++ cells h.
Proof. intros [(vs & -> & <- & _) _]. apply fmap_app. Qed.

(** Snapshots taken before the writes read as before. *)
Lemma wrote_snapshot l n h n' h' k ts :
  wrote l n h n' h' → ts <= e_last_sequence (core n) → read_at_ts k ts h' = read_at_ts k ts h.
Proof.
  intros [(vs & -> & _ & Hs) _] Hts. apply read_old. eapply Forall_impl; [exact Hs|]. cbn. intros x ?. lia.
Qed.

Lemma stores_seqs room h n : stores room h n → Forall (λ x, se_sequence x <= u64_max) h.
Proof.
  intros [Hr _ _]. eapply Forall_impl; [apply Hr|]. cbn. intros x Hx. pose proof (rp_next _ _ _ Hr).
  pose proof (rp_seq _ _ _ Hr). unfold u64_max, seq_limit in *. lia.
Qed.

Lemma stores_room room room' h n : room' <= room → stores room h n → stores room' h n.
Proof. intros Hle []. split; [by eapply represents_room|done|done]. Qed.

(** ** Calls with a plan *)

Definition does {A} (m : task A) (plan : log) (P : A → Node → list SstEntry → Prop) (n : Node) (h : list SstEntry) : Prop :=
  ∀ room, stores (room + plan_cost plan) h n →
  ∃ l h', l `prefix_of` plan ∧ stores room h' (m n).2 ∧ wrote l n h (m n).2 h' ∧ upper (m n).2 = upper n ∧
    ∀ a, (m n).1 = Done a → l = plan ∧ P a (m n).2 h'.

Lemma does_ret {A} (a : A) (P : A → Node → list SstEntry → Prop) n h : P a n h → does (mret a) [] P n h.
Proof.
  intros HP room Hs. exists [], h. split_and!; [done|by eapply stores_room; [|exact Hs]; unfold plan_cost; cbn; lia
    |by apply wrote_nil|done|]. by intros ? [= <-].
Qed.

Lemma does_failed {A} x plan (P : A → Node → list SstEntry → Prop) n h : does (failed x) plan P n h.
Proof.
  intros room Hs. exists [], h. split_and!; [apply prefix_nil|by eapply stores_room; [|exact Hs]; lia
    |by apply wrote_nil|done|done].
Qed.

Lemma does_bind {A B} (m : task A) (f : A → task B) p1 p2 P Q n h :
  does m p1 P n h →
  (∀ a n' h', wrote p1 n h n' h' → upper n' = upper n → P a n' h' → does (f a) p2 Q n' h') →
  does (m ≫= f) (p1 ++ p2) Q n h.
Proof.
  intros Hm Hf room Hs. rewrite plan_cost_app in Hs.
  destruct (Hm (room + plan_cost p2)) as (l1 & h1 & Hl1 & Hs1 & Hw1 & Hu1 & Hd1);
    [by eapply stores_room; [|exact Hs]; lia|].
  unfold mbind, task_bind. destruct (m n) as [r n1]. cbn [fst snd] in *.
  assert ((∀ a, r ≠ Done a) → ∃ l h', l `prefix_of` p1 ++ p2 ∧ stores room h' n1 ∧ wrote l n h n1 h' ∧ upper n1 = upper n)
    as Hstop.
  { intros _. exists l1, h1. split_and!; [by apply prefix_app_r|by eapply stores_room; [|exact Hs1]; lia|done|done]. }
  destruct r as [a|x|].
  - destruct (Hd1 a eq_refl) as [-> HP]. destruct (Hf a n1 h1 Hw1 Hu1 HP room Hs1) as (l2 & h2 & Hl2 & Hs2 & Hw2 & Hu2 & Hd2).
    exists (p1 ++ l2), h2. split_and!; [by apply prefix_app|done|by eapply wrote_trans|by rewrite Hu2|].
    intros b Hb. destruct (Hd2 b Hb) as [-> ?]. done.
  - destruct Hstop as (l & h' & ? & ? & ? & ?); [done|]. by exists l, h'.
  - destruct Hstop as (l & h' & ? & ? & ? & ?); [done|]. by exists l, h'.
Qed.

Lemma does_weaken {A} (m : task A) plan (P Q : A → Node → list SstEntry → Prop) n h :
  does m plan P n h →
  (∀ a n' h', wrote plan n h n' h' → upper n' = upper n → P a n' h' → Q a n' h') → does m plan Q n h.
Proof.
  intros Hm HPQ room Hs. destruct (Hm room Hs) as (l & h' & Hl & Hs' & Hw & Hu & Hd). exists l, h'. split_and!; try done.
  intros a Ha. destruct (Hd a Ha) as [-> HP]. split; [done|]. by apply HPQ.
Qed.

(** A call whose result is known before it. *)
Lemma does_stored {A} (m : task A) plan (P : A → Node → list SstEntry → Prop) n h :
  (∀ room, stores room h n → does m plan P n h) → does m plan P n h.
Proof. intros Hm room Hs. by apply (Hm _ Hs). Qed.

Lemma stores_look room h n k : stores room h n → get_inner k Latest (core n) = Ok (look k (cells h)).
Proof.
  intros Hs. rewrite (represents_get room h (core n)) by apply Hs. f_equal. by apply read_cells, (stores_seqs room _ n).
Qed.

Lemma stores_scan room h n p :
  stores room h n → scan_fits (limits (core n)) p (cells h) →
  scan_prefix_inner p (mkScanOptions None Latest) (core n) = Ok (live p (cells h)).
Proof.
  intros Hs (Hp & Hk & Hb). apply (represents_scan room h (core n)) with (ks := remove_dups (under p (cells h)).*1);
    [apply Hs| |done|apply live_sorted| | |done|done].
  - unfold validate_scan_prefix. case_match eqn:E; [apply N.ltb_lt in E; lia|done].
  - intros k v. rewrite live_elem. cbn [as_u64 scan_read_at]. by rewrite read_cells by (by eapply stores_seqs).
  - intros x Hx Hpx. apply elem_of_remove_dups, list_elem_of_fmap. exists (cell x). split; [done|].
    apply list_elem_of_filter. split; [done|]. by apply list_elem_of_fmap_2.
Qed.

(** A step that only looks. *)
Lemma does_look {A B} (m : task A) (f : A → task B) plan Q n h :
  (m n).2 = n → (∀ a, (m n).1 = Done a → does (f a) plan Q n h) → does (m ≫= f) plan Q n h.
Proof.
  intros Hn Hf room Hs. unfold mbind, task_bind. destruct (m n) as [r n1]. cbn [fst snd] in *. subst n1.
  destruct r as [a|x|]; [by apply (Hf a eq_refl)| |];
    (exists [], h; split_and!; [apply prefix_nil|by eapply stores_room; [|exact Hs]; lia|by apply wrote_nil|done|done]).
Qed.

Lemma does_get {B} k (f : option bytes → task B) plan Q n h :
  does (f (look k (cells h))) plan Q n h → does (get_latest k ≫= f) plan Q n h.
Proof.
  intros Hf. apply does_stored. intros room Hs. apply does_look; [done|]. intros a. unfold get_latest, reads. cbn [fst].
  rewrite (stores_look _ _ _ k Hs). by intros [= <-].
Qed.

Lemma does_scan {B} p (f : list (bytes * bytes) → task B) plan Q n h :
  scan_fits (limits (core n)) p (cells h) → does (f (live p (cells h))) plan Q n h → does (scan p ≫= f) plan Q n h.
Proof.
  intros Hfit Hf. apply does_stored. intros room Hs. apply does_look; [done|]. intros a. unfold scan, reads. cbn [fst].
  rewrite (stores_scan _ _ _ p Hs Hfit). by intros [= <-].
Qed.

Lemma does_of_result {A B} (r : result KayaError A) (f : A → task B) plan Q n h :
  (∀ a, r = Ok a → does (f a) plan Q n h) → does (of_result r ≫= f) plan Q n h.
Proof. intros Hf. apply does_look; [done|]. unfold of_result. cbn [fst]. destruct r; [|done]. intros ? [= <-]. by apply Hf. Qed.

Lemma does_reads {A B} (m : Engine T → result KayaError A) (f : A → task B) plan Q n h :
  (∀ a, m (core n) = Ok a → does (f a) plan Q n h) → does (reads m ≫= f) plan Q n h.
Proof.
  intros Hf. apply does_look; [done|]. unfold reads. cbn [fst]. destruct (m (core n)); [|done]. intros ? [= <-]. by apply Hf.
Qed.

Lemma does_node {B} (f : Node → task B) plan Q n h : does (f n) plan Q n h → does (node ≫= f) plan Q n h.
Proof. intros Hf. apply does_look; [done|]. by intros ? [= <-]. Qed.

Lemma does_write k v mode (P : WriteResult → Node → list SstEntry → Prop) n h :
  write_bytes (k, v) → (∀ w n' h', wrote [(k, v)] n h n' h' → wr_sequence w = e_last_sequence (core n') → P w n' h') →
  does (write env k v mode) [(k, v)] P n h.
Proof.
  intros [Hbk Hbv] HP room [Hr Hb Hck]. unfold write. pose proof (λ E, Hck E (writes n)) as Hms. destruct (env (writes n)) as [[ms now] us].
  cbn [fst] in Hms.
  assert (room + plan_cost [(k, v)] = room + entry_cost (mkSstEntry k v 0)) as Hc
    by (unfold plan_cost, write_cost; cbn [fmap list_fmap foldr fst snd]; lia). rewrite Hc in Hr.
  pose proof (represents_write _ h k v mode ms now us (core n) Hr Hms Hbk Hbv) as Hw. cbv zeta in Hw.
  destruct Hw as [Hf Hw]; [lia|]. replace (room + entry_cost (mkSstEntry k v 0) - entry_cost (mkSstEntry k v 0)) with room in Hw by lia.
  destruct (engine_write k v mode ms now us (core n)) as [r e']. cbn [fst snd] in *.
  assert (upper (count_write (set_core e' n)) = upper n) as Hu by (unfold upper; cbn; by rewrite Hf).
  assert (e_use_hlc e' = e_use_hlc (core n)) as Hhlc by (by injection Hf).
  destruct Hw as [(s & Hs & He & Hres & Hr')|(Hno & He & Hr')].
  - assert (wrote [(k, v)] n h (count_write (set_core e' n)) (mkSstEntry k v s :: h)) as Hwr.
    { split; cbn [core count_write set_core]; [|lia]. exists [mkSstEntry k v s]. split_and!; [done|done|].
      constructor; [cbn; lia|done]. }
    exists [(k, v)], (mkSstEntry k v s :: h). split_and!; [done| |done|done|].
    + split; [done| |cbn; by rewrite Hhlc]. constructor; [by split|done].
    + destruct r as [[w|]|]; intros a [= <-]. split; [done|]. apply HP; [done|]. by rewrite (Hres w eq_refl), <-He.
  - exists [], h. split_and!; [apply prefix_nil|split; [done|done|cbn; by rewrite Hhlc]|by apply wrote_nil|done|].
    destruct r as [[w|]|]; [by destruct (Hno w)|done|done].
Qed.

Lemma does_disk {A} (op : stm SimState A) (P : A → Node → list SstEntry → Prop) n h :
  (∀ a n', e_last_sequence (core n') = e_last_sequence (core n) → P a n' h) → does (disk op) [] P n h.
Proof.
  intros HP room [Hr Hb Hck]. unfold disk. destruct (represents_edisk op _ _ _ Hr) as [Hr' Hst].
  destruct (edisk op (core n)) as [r e']. cbn [fst snd] in *. unfold static in Hst.
  apply pair_eq in Hst as [[[Hf _]%pair_eq Hl]%pair_eq _]. assert (e_use_hlc e' = e_use_hlc (core n)) as Hhlc by (by injection Hf).
  exists [], h. split_and!; [done| |by apply wrote_nil|by unfold upper; cbn; rewrite Hf|].
  - split; [|done|cbn; by rewrite Hhlc]. eapply represents_room; [|exact Hr']. unfold plan_cost. cbn. lia.
  - destruct r; [|done]. intros ? [= <-]. split; [done|]. by apply HP.
Qed.

(** The loop over a list: the plan of each element may look at the log. *)
Fixpoint each_plan {A} (f : A → log → log) (l : list A) (g : log) : log :=
  match l with [] => [] | x :: l => f x g ++ each_plan f l (reverse (f x g) ++ g) end.

Lemma does_each {A} (f : A → task unit) (plan : A → log → log) (I : Node → Prop) l n h :
  (∀ n n', upper n' = upper n → I n → I n') →
  (∀ x n h, x ∈ l → I n → does (f x) (plan x (cells h)) (λ _ _ _, True) n h) → I n →
  does (each f l) (each_plan plan l (cells h)) (λ _ _ _, True) n h.
Proof.
  intros HI. revert n h. induction l as [|x l IH]; intros n h Hf Hn; cbn [each each_plan]; [by apply does_ret|].
  eapply does_bind; [apply Hf; [by left|done]|]. intros [] n' h' Hw Hu _.
  rewrite <-(wrote_cells _ _ _ _ _ Hw). apply IH; [|by eapply HI]. intros y ? ? Hy. apply Hf. by right.
Qed.

End NodeStore.

Arguments stores_seqs {T H env}.
Arguments stores_room {T H env}.
Arguments does_ret {T H env} {A}.
Arguments does_failed {T H env} {A}.
Arguments does_bind {T H env} {A B}.
Arguments does_weaken {T H env} {A}.
Arguments does_stored {T H env} {A}.
Arguments stores_look {T H env}.
Arguments stores_scan {T H env}.
Arguments does_look {T H env} {A B}.
Arguments does_get {T H env} {B}.
Arguments does_scan {T H env} {B}.
Arguments does_of_result {T H env} {A B}.
Arguments does_reads {T H env} {A B}.
Arguments does_node {T H env} {B}.
Arguments does_disk {T H env} {A}.
Arguments does_each {T H env} {A}.
Arguments st_rep {T H env}.
Arguments st_bytes {T H env}.
