(* ===== verification/Txn.v ===== *)
(** Snapshot-isolation transactions of one engine, [kaya-engine/src/txn.rs]. *)
From stdpp Require Import gmap.
From S2P Require Import Prelude Bytes Core Hlc OrdMap Path Disk WalCodec WalWriter InternalKey SstBlock Memtable Manifest Compaction Engine EngineStore Index Cdc Node.

Open Scope N_scope.

Section Txn.
Context {T : Type} `{SstFormat T} (env : N → N * N * N).

Abbreviation Node := (Node (T:=T)).
Abbreviation task := (task (T:=T)).

Definition unknown_txn (txn_id : N) : KayaError :=
  InvalidArgument ("unknown or finished transaction " +:+ pretty txn_id).

Definition begin_txn (n : Node) : N * N * Node :=
  let t := txn n in
  let id := next_txn_id t in
  let snapshot := e_last_sequence (core n) in
  (id, snapshot,
   set_txn (mkTxnTables (intents t) (<[id := mkTxnMeta snapshot ∅]> (txns t)) (sat_add u64_max id 1)) n).

(** The metadata of an open transaction. *)
Definition txn_meta (txn_id : N) : task TxnMeta :=
  n ← node;
  match txns (txn n) !! txn_id with Some m => mret m | None => failed (unknown_txn txn_id) end.

Definition txn_snapshot_ts (txn_id : N) : task N :=
  meta ← txn_meta txn_id;
  mret (snapshot_ts meta).

(** ** Conflicts *)

Fixpoint latest_in_tables (key : bytes) (ts : list (TableMetadata * T)) : result KayaError (option N) :=
  match ts with
  | [] => Ok None
  | (_, reader) :: ts =>
      e ← sst_get_at reader key u64_max;
      match e with Some x => Ok (Some (se_sequence x)) | None => latest_in_tables key ts end
  end.

Definition latest_committed_seq (key : bytes) (e : Engine T) : result KayaError (option N) :=
  match mt_get key (memtable e) with
  | Some rec => Ok (Some (vr_sequence rec))
  | None => latest_in_tables key (live_sstables e)
  end.

Definition check_write_conflict (txn_id : N) (key : bytes) (snapshot : N) : task unit :=
  n ← node;
  if match intents (txn n) !! key with Some i => negb (in_txn_id i =? txn_id) | None => false end
  then failed TxnConflict
  else
    s ← reads (latest_committed_seq key);
    match s with
    | Some seq => if snapshot <? seq then failed TxnConflict else mret tt
    | None => mret tt
    end.

(** ** Staging *)

Definition add_intent (txn_id : N) (key : bytes) (value : option bytes) (t : TxnTables) : TxnTables :=
  mkTxnTables (<[key := mkIntent txn_id value]> (intents t))
    (alter (λ m, mkTxnMeta (snapshot_ts m) ({[ key ]} ∪ tm_keys m)) txn_id (txns t)) (next_txn_id t).

Definition stage_intent (txn_id : N) (key : bytes) (value : option bytes) : task unit :=
  meta ← txn_meta txn_id;
  _ ← check_write_conflict txn_id key (snapshot_ts meta);
  update (λ n, set_txn (add_intent txn_id key value (txn n)) n).

Definition txn_put (txn_id : N) (key value : bytes) : task unit :=
  _ ← reads (validate_key key);
  _ ← of_result (reject_if_system_key key);
  _ ← reads (validate_value value);
  stage_intent txn_id key (Some value).

Definition txn_delete (txn_id : N) (key : bytes) : task unit :=
  _ ← reads (validate_key key);
  _ ← of_result (reject_if_system_key key);
  stage_intent txn_id key None.

(** A read at the snapshot; the transaction's own intent comes first. *)
Definition txn_get (txn_id : N) (key : bytes) : task (option bytes) :=
  meta ← txn_meta txn_id;
  n ← node;
  match intents (txn n) !! key with
  | Some i => if in_txn_id i =? txn_id then mret (in_value i)
              else reads (get_inner key (At (snapshot_ts meta)))
  | None => reads (get_inner key (At (snapshot_ts meta)))
  end.

(** ** The end of a transaction *)

(** Insertion by key; [keys.sort()]. *)
Fixpoint sort_keys (l : list bytes) : list bytes :=
  match l with [] => [] | k :: l => (om_insert k tt ((λ x, (x, tt)) <$> sort_keys l)).*1 end.

(** The staged writes of the transaction, by key. *)
Definition staged (txn_id : N) (t : TxnTables) (keys : list bytes) : list (bytes * option bytes) :=
  omap (λ key, i ← intents t !! key; if in_txn_id i =? txn_id then Some (key, in_value i) else None) keys.

(** The conflict checks visit the keys in the order of the set's elements; the
    source's hash set promises none. *)
Definition txn_prepare_commit (txn_id : N) : task (list (bytes * option bytes)) :=
  meta ← txn_meta txn_id;
  let keys := elements (tm_keys meta) in
  _ ← each (λ key, check_write_conflict txn_id key (snapshot_ts meta)) keys;
  n ← node;
  mret (staged txn_id (txn n) (sort_keys keys)).

(** Removes a transaction with the intents it holds. *)
Definition drop_txn (txn_id : N) (meta : TxnMeta) (t : TxnTables) : TxnTables :=
  mkTxnTables
    (set_fold (λ key m, match m !! key with
                        | Some i => if in_txn_id i =? txn_id then base.delete key m else m
                        | None => m end) (intents t) (tm_keys meta))
    (base.delete txn_id (txns t)) (next_txn_id t).

Definition txn_rollback (txn_id : N) : task unit :=
  meta ← txn_meta txn_id;
  update (λ n, set_txn (drop_txn txn_id meta (txn n)) n).

Definition txn_take_commit (txn_id : N) : task (list (bytes * option bytes)) :=
  mutations ← txn_prepare_commit txn_id;
  meta ← txn_meta txn_id;
  _ ← update (λ n, set_txn (drop_txn txn_id meta (txn n)) n);
  mret mutations.

Definition txn_finish (txn_id : N) : task unit := txn_rollback txn_id.

(** One mutation after the other, each under its own sequence. *)
Fixpoint mutate_loop (mode : option DurabilityMode) (last_seq : N) (mutations : list (bytes * option bytes)) : task N :=
  match mutations with
  | [] => mret last_seq
  | (key, value) :: mutations =>
      wr ← match value with Some v => put env key v mode | None => Node.delete env key mode end;
      mutate_loop mode (wr_sequence wr) mutations
  end.

Definition apply_mutations (mutations : list (bytes * option bytes)) (mode : option DurabilityMode) : task N :=
  n ← node;
  mutate_loop mode (e_last_sequence (core n)) mutations.

Definition txn_commit (txn_id : N) : task N :=
  mutations ← txn_take_commit txn_id;
  apply_mutations mutations None.

End Txn.
