(* ===== verification/NodePlans.v ===== *)
(** The plans of the public writes and of batches of mutations. *)
From stdpp Require Import gmap.
From S2P Require Import Prelude Bytes Core Hlc OrdMap Path Disk WalCodec WalWriter WalDurability InternalKey Memtable Manifest Compaction SstBlock SstSpec Engine EngineReads EngineScan EngineStore SstProps EngineProps Index Cdc Node NodeStore Txn.

Open Scope N_scope.

(** ** Plans *)

Definition entry_plan (def : IndexDef) (key value : bytes) : log :=
  match extract (extractor def) value with
  | Some sec => [(encode_data_key (id_name def) sec key, Some [])]
  | None => []
  end.

Definition maintain_put_plan (key : bytes) (old : option bytes) (value : bytes) (def : IndexDef) (g : log) : log :=
  match old ≫= extract (extractor def) with
  | None => entry_plan def key value
  | Some old_sec =>
      let dk := encode_data_key (id_name def) old_sec key in
      if bool_decide (extract (extractor def) value = Some old_sec)
      then match look dk g with None => [(dk, Some [])] | Some _ => [] end
      else (dk, None) :: entry_plan def key value
  end.

Definition maintain_delete_plan (key old : bytes) (def : IndexDef) (_ : log) : log :=
  match extract (extractor def) old with
  | Some sec => [(encode_data_key (id_name def) sec key, None)]
  | None => []
  end.

Definition put_plan (ix : list (bytes * IndexDef)) (key value : bytes) (g : log) : log :=
  (key, Some value) ::
  each_plan (maintain_put_plan key (look key g) value) (matching key ix) ((key, Some value) :: g).

Definition delete_plan (ix : list (bytes * IndexDef)) (key : bytes) (g : log) : log :=
  (key, None) ::
  match look key g with
  | None => []
  | Some old => each_plan (maintain_delete_plan key old) (matching key ix) ((key, None) :: g)
  end.

Definition mutation_plan (ix : list (bytes * IndexDef)) (m : bytes * option bytes) (g : log) : log :=
  match m.2 with Some value => put_plan ix m.1 value g | None => delete_plan ix m.1 g end.

(** ** Well-formed index definitions *)

Definition index_ok (x : bytes * IndexDef) : Prop := id_name x.2 = x.1 ∧ validate_index_name x.1 = Ok tt.
Definition indexes_ok (ix : list (bytes * IndexDef)) : Prop := om_sorted ix ∧ Forall index_ok ix.

Lemma name_bytes_ok name : validate_index_name name = Ok tt → bytes_ok name.
Proof.
  unfold validate_index_name. case_match; [done|]. case_match eqn:E; [done|]. intros _. apply negb_false_iff in E.
  apply Forall_forall. intros b Hb.
  rewrite forallb_forall in E. specialize (E b (proj1 (list_elem_of_In _ _) Hb)). unfold byte_ok.
  unfold name_byte, ascii_alphanumeric in E.
  rewrite !orb_true_iff, !andb_true_iff, !N.leb_le, !N.eqb_eq in E. lia.
Qed.

Lemma extract_field_bytes d i value : ∀ fi field s,
  bytes_ok field → bytes_ok value → extract_field d i fi field value = Some s → bytes_ok s.
Proof.
  induction value as [|b value IH]; intros fi field s Hf Hv; cbn [extract_field].
  - case_match; [by intros [= <-]|done].
  - apply Forall_cons in Hv as [Hb Hv]. repeat case_match; [by intros [= <-]| |].
    + apply IH; [constructor|done].
    + apply IH; [|done]. apply Forall_app. by split; [|constructor].
Qed.

Lemma extract_bytes x value s : bytes_ok value → extract x value = Some s → bytes_ok s.
Proof.
  intros Hv. destruct x; cbn [extract]; [by intros [= <-]|intros [= <-]; by apply Forall_take|].
  by apply extract_field_bytes; [constructor|].
Qed.

Lemma be_bytes_bytes_ok k v : bytes_ok (be_bytes k v).
Proof. apply Forall_reverse, le_bytes_ok. Qed.

Lemma data_key_bytes name sec pk : bytes_ok name → bytes_ok sec → bytes_ok pk → bytes_ok (encode_data_key name sec pk).
Proof.
  intros. unfold encode_data_key. repeat (apply Forall_app; split); try done; try apply be_bytes_bytes_ok.
  repeat constructor.
Qed.

Lemma matching_elem key ix d :
  indexes_ok ix → d ∈ matching key ix →
  starts_with (primary_prefix d) key = true ∧ validate_index_name (id_name d) = Ok tt ∧ (id_name d, d) ∈ ix.
Proof.
  intros [_ Hi] [Hp Hd]%list_elem_of_filter. apply list_elem_of_fmap in Hd as ([nm d'] & -> & Hd).
  destruct (proj1 (Forall_forall _ _) Hi _ Hd) as [Hn Hv]. cbn [fst snd] in *. by rewrite Hn.
Qed.

(** The keys of a plan: the primary key and entries of it in its indexes. *)
Lemma each_plan_Forall {A} (P : bytes * option bytes → Prop) (f : A → log → log) l g :
  (∀ x g, x ∈ l → Forall P (f x g)) → Forall P (each_plan f l g).
Proof.
  revert g. induction l as [|x l IH]; intros g Hf; cbn [each_plan]; [done|]. apply Forall_app. split; [apply Hf; by left|].
  apply IH. intros y g' Hy. apply Hf. by right.
Qed.

Definition entry_of (key : bytes) (defs : list IndexDef) (x : bytes * option bytes) : Prop :=
  ∃ d sec, d ∈ defs ∧ x.1 = encode_data_key (id_name d) sec key.

Lemma entry_plan_keys key value d : Forall (entry_of key [d]) (entry_plan d key value).
Proof. unfold entry_plan. case_match; [|done]. constructor; [|done]. eexists d, _. split; [by left|done]. Qed.

Lemma maintain_put_keys key old value d g : Forall (entry_of key [d]) (maintain_put_plan key old value d g).
Proof.
  unfold maintain_put_plan. destruct (old ≫= extract (extractor d)) as [os|]; [|apply entry_plan_keys].
  case_bool_decide.
  - case_match; [done|]. constructor; [|done]. eexists d, _. split; [by left|done].
  - constructor; [|apply entry_plan_keys]. eexists d, _. split; [by left|done].
Qed.

Lemma maintain_delete_keys key old d g : Forall (entry_of key [d]) (maintain_delete_plan key old d g).
Proof. unfold maintain_delete_plan. case_match; [|done]. constructor; [|done]. eexists d, _. split; [by left|done]. Qed.

Lemma entry_of_sub key d defs x : d ∈ defs → entry_of key [d] x → entry_of key defs x.
Proof. intros Hd (d' & sec & ->%list_elem_of_singleton & Hx). by exists d, sec. Qed.

(** A mutation writes its key, then entries of it. *)
Lemma mutation_plan_cons ix m g :
  ∃ l, mutation_plan ix m g = m :: l ∧ Forall (entry_of m.1 (matching m.1 ix)) l.
Proof.
  destruct m as [k [v|]]; unfold mutation_plan, put_plan, delete_plan; cbn [fst snd]; eexists; (split; [done|]).
  - apply each_plan_Forall. intros d g' Hd. eapply Forall_impl; [apply maintain_put_keys|]. intros x. by apply entry_of_sub.
  - destruct (look k g); [|done]. apply each_plan_Forall. intros d g' Hd.
    eapply Forall_impl; [apply maintain_delete_keys|]. intros x. by apply entry_of_sub.
Qed.

Lemma entry_of_system key defs x : entry_of key defs x → is_index_system_key x.1 = true.
Proof. by intros (d & sec & _ & ->). Qed.

(** ** What users see of a plan *)

Definition user (l : log) : log := filter (λ x, is_index_system_key x.1 = false) l.

Lemma look_user k l g : is_index_system_key k = false → look k (reverse l ++ g) = look k (reverse (user l) ++ g).
Proof.
  intros Hk. induction l as [|[k' v] l IH] using rev_ind; [done|]. unfold user in *.
  rewrite filter_app, !reverse_app, <-!app_assoc, reverse_singleton. cbn [app look].
  destruct (decide (k = k')) as [<-|Hne].
  - rewrite filter_cons_True by done. rewrite filter_nil, reverse_singleton. cbn [app look]. by rewrite decide_True.
  - rewrite IH, filter_cons, filter_nil. case_decide; [|done]. rewrite reverse_singleton. cbn [app look]. by rewrite decide_False.
Qed.

Lemma user_prefix l1 l2 : l1 `prefix_of` l2 → user l1 `prefix_of` user l2.
Proof. intros [k ->]. unfold user. rewrite filter_app. by exists (filter (λ x, is_index_system_key x.1 = false) k). Qed.

Lemma user_mutation ix m g : is_index_system_key m.1 = false → user (mutation_plan ix m g) = [m].
Proof.
  intros Hm. destruct (mutation_plan_cons ix m g) as (l & -> & Hl). unfold user. rewrite filter_cons_True by done. f_equal.
  induction Hl as [|x l Hx Hl IH]; [done|]. rewrite filter_cons_False; [done|]. by rewrite (entry_of_system _ _ _ Hx).
Qed.

Lemma user_mutations ix ms g :
  Forall (λ m, is_index_system_key m.1 = false) ms → user (each_plan (mutation_plan ix) ms g) = ms.
Proof.
  intros Hm. revert g. induction Hm as [|m ms Hm Hms IH]; intros g; cbn [each_plan]; [done|].
  pose proof (user_mutation ix m g Hm) as Hu. unfold user in *. by rewrite filter_app, IH, Hu.
Qed.

Lemma reject_index key : reject_if_system_key key = Ok tt → is_index_system_key key = false.
Proof. unfold reject_if_system_key. by destruct (is_index_system_key key). Qed.

(** A log whose writes of a key agree. *)
Lemma look_agree (l g : log) k v :
  (∀ v', (k, v') ∈ l → v' = v) → (k, v) ∈ l → look k (l ++ g) = v.
Proof.
  induction l as [|[k' v'] l IH]; intros Ha Hin; [by apply elem_of_nil in Hin|]. cbn [app look]. case_decide as Hk.
  - subst k'. apply Ha. by left.
  - apply IH; [intros v'' ?; apply Ha; by right|]. by apply elem_of_cons in Hin as [[= -> ->]|?].
Qed.

(** ** The calls perform their plans *)

Section NodePlans.
Context {T : Type} `{SstLaws T} (env : N → N * N * N).

Abbreviation Node := (Node (T:=T)).
Abbreviation task := (task (T:=T)).
Abbreviation stores := (stores env).
Abbreviation does := (does env).

Lemma upper_indexes (n n' : Node) : upper n' = upper n → indexes n' = indexes n.
Proof. unfold upper. by intros [= _ -> _ _ _ _ _ _]. Qed.

Lemma upper_limits (n n' : Node) : upper n' = upper n → limits (core n') = limits (core n).
Proof. unfold upper, fixed. by intros [= _ _ _ _ -> _ _ _]. Qed.

Lemma upper_txn (n n' : Node) : upper n' = upper n → txn n' = txn n.
Proof. unfold upper. by intros [= -> _ _ _ _ _ _ _]. Qed.

(** A write without interest in its result. *)
Lemma does_write_unit k v mode n h :
  write_bytes (k, v) →
  does (w ← write env k v mode; mret tt : task unit) [(k, v)] (λ _ _ _, True) n h.
Proof.
  intros Hb. change [(k, v)] with ([(k, v)] ++ ([] : log)). eapply does_bind; [by apply (does_write env) with (P := λ _ _ _, True)|].
  intros. by apply does_ret.
Qed.

Lemma does_insert_entry d key value mode n h :
  bytes_ok (id_name d) → bytes_ok key → bytes_ok value →
  does (insert_entry env d key value mode) (entry_plan d key value) (λ _ _ _, True) n h.
Proof.
  intros Hd Hk Hv. unfold insert_entry, entry_plan. destruct (extract (extractor d) value) as [sec|] eqn:E; [|by apply does_ret].
  apply does_write_unit. split; [|constructor]. apply data_key_bytes; [done| |done]. by eapply extract_bytes.
Qed.

Lemma does_maintain_put key old value mode d n h :
  bytes_ok (id_name d) → bytes_ok key → bytes_ok value → bytes_ok (default [] old) →
  does (maintain_put env key old value mode d) (maintain_put_plan key old value d (cells h)) (λ _ _ _, True) n h.
Proof.
  intros Hd Hk Hv Ho. unfold maintain_put, maintain_put_plan. destruct (old ≫= extract (extractor d)) as [os|] eqn:E;
    [|by apply does_insert_entry].
  assert (bytes_ok (encode_data_key (id_name d) os key)) as Hdk.
  { apply data_key_bytes; [done| |done]. destruct old; [|done]. by eapply extract_bytes. }
  case_bool_decide; cbn [negb].
  - apply does_get. destruct (look _ _); [by apply does_ret|]. apply does_write_unit. by split; [|constructor].
  - apply (does_bind _ _ [_] _ (λ _ _ _, True) _); [apply does_write; [by split; [|constructor]|done]|].
    intros _ n' h' _ _ _. by apply does_insert_entry.
Qed.

Lemma does_maintain_delete key old mode d n h :
  bytes_ok (id_name d) → bytes_ok key → bytes_ok old →
  does (maintain_delete env key old mode d) (maintain_delete_plan key old d (cells h)) (λ _ _ _, True) n h.
Proof.
  intros Hd Hk Ho. unfold maintain_delete, maintain_delete_plan. destruct (extract (extractor d) old) as [sec|] eqn:E; [|by apply does_ret].
  apply does_write_unit. split; [|constructor]. apply data_key_bytes; [done| |done]. by eapply extract_bytes.
Qed.

Lemma does_cdc ev n h :
  does (append_cdc_event ev) [] (λ _ n' h', e_last_sequence (core n') = e_last_sequence (core n) ∧ h' = h) n h.
Proof.
  unfold append_cdc_event. apply does_node. destruct (enable_cdc n); cbn [negb]; [|by apply does_ret].
  apply does_of_result. intros p _.
  apply (does_bind _ _ [] [] (λ _ n' h', e_last_sequence (core n') = e_last_sequence (core n) ∧ h' = h) _);
    [by apply does_disk|]. intros _ n1 h1 _ _ [He ->].
  apply (does_bind _ _ [] [] (λ _ n' h', e_last_sequence (core n') = e_last_sequence (core n) ∧ h' = h) _);
    [apply does_disk; intros; split; [congruence|done]|]. intros _ n2 h1 _ _ [He2 ->].
  intros room Hs. exists [], h. split_and!; [done| |by apply wrote_nil|done|by intros [] _].
  apply (stores_room (room + plan_cost [])); [lia|]. by destruct Hs as [Hr Hb].
Qed.

(** The indexes are well formed. *)
Definition node_ok (n : Node) : Prop := indexes_ok (indexes n).

Lemma node_ok_upper n n' : upper n' = upper n → node_ok n → node_ok n'.
Proof. intros Hu. unfold node_ok. by rewrite (upper_indexes _ _ Hu). Qed.

Lemma matching_bytes key n d : node_ok n → d ∈ matching key (indexes n) → bytes_ok (id_name d).
Proof. intros Hn Hd. by eapply name_bytes_ok, matching_elem. Qed.

Lemma look_bytes k g : Forall write_bytes g → bytes_ok (default [] (look k g)).
Proof.
  intros Hg. destruct (look k g) as [v|] eqn:E; [|constructor]. apply look_elem in E.
  by destruct (proj1 (Forall_forall _ _) Hg _ E).
Qed.

(** The loop over the matching indexes. *)
Lemma does_maintain (f : IndexDef → task unit) (plan : IndexDef → log → log) key n h :
  node_ok n →
  (∀ d n h, bytes_ok (id_name d) → does (f d) (plan d (cells h)) (λ _ _ _, True) n h) →
  does (each f (matching key (indexes n))) (each_plan plan (matching key (indexes n)) (cells h)) (λ _ _ _, True) n h.
Proof.
  intros Hn Hf. apply (does_each _ _ (λ _, True)); [done| |done]. intros d n1 h1 Hd _. apply Hf. by eapply matching_bytes.
Qed.

(** The first key of the plan is the one written. *)
Definition put_post (key : bytes) (n : Node) : WriteResult → Node → list SstEntry → Prop := λ w n' h',
  reject_if_system_key key = Ok tt ∧ validate_key key (core n) = Ok tt ∧
  e_last_sequence (core n) < wr_sequence w <= e_last_sequence (core n').

Lemma does_put key value mode n h :
  node_ok n → bytes_ok key → bytes_ok value →
  does (put env key value mode) (put_plan (indexes n) key value (cells h)) (put_post key n) n h.
Proof.
  intros Hn Hk Hv. apply does_stored. intros room0 Hs0. unfold put, put_plan. apply does_reads. intros [] Hvk.
  apply does_of_result. intros [] Hrej. apply does_reads. intros [] _. apply does_get.
  set (old := look key (cells h)). assert (bytes_ok (default [] old)) as Hold by apply look_bytes, Hs0.
  set (w0 := (key, Some value)). change (w0 :: ?l) with ([w0] ++ l).
  eapply does_bind with (P := λ w n1 h1, e_last_sequence (core n) < wr_sequence w <= e_last_sequence (core n1)).
  { apply does_write; [by split|]. intros w n1 h1 [(vs & -> & Hc & Hf) _] ->. destruct vs as [|x []]; try done.
    apply Forall_cons in Hf as [Hf _]. lia. }
  intros w n1 h1 Hw1 Hu1 Hws. set (l := each_plan _ _ _). rewrite <-(app_nil_r l).
  eapply does_bind with (P := λ _ _ _, True).
  { unfold maintain_indexes_after_put. apply does_node. rewrite (upper_indexes _ _ Hu1).
    assert (l = each_plan (maintain_put_plan key old value) (matching key (indexes n)) (cells h1)) as ->
      by (unfold l; by rewrite (wrote_cells _ _ _ _ _ Hw1)).
    destruct (is_index_system_key key) eqn:Es; [unfold reject_if_system_key in Hrej; by rewrite Es in Hrej|].
    cbn [orb]. case_bool_decide as Hi; [rewrite Hi; by apply does_ret|]. rewrite <-(upper_indexes _ _ Hu1).
    apply does_maintain; [by apply (node_ok_upper n)|]. intros. by apply does_maintain_put. }
  intros [] n2 h2 Hw2 _ _. apply (does_bind _ _ [] [] _ _ _ _ (does_cdc _ _ _)). intros _ n3 h3 _ _ [He ->].
  apply does_ret. split_and!; [done|done|lia|]. destruct Hw2 as [_ ?]. lia.
Qed.

Lemma does_delete key mode n h :
  node_ok n → bytes_ok key →
  does (Node.delete env key mode) (delete_plan (indexes n) key (cells h)) (put_post key n) n h.
Proof.
  intros Hn Hk. apply does_stored. intros room0 Hs0. unfold Node.delete, delete_plan. apply does_reads. intros [] Hvk.
  apply does_of_result. intros [] Hrej. apply does_get.
  set (old := look key (cells h)). assert (bytes_ok (default [] old)) as Hold by apply look_bytes, Hs0.
  set (w0 := (key, None)). change (w0 :: ?l) with ([w0] ++ l).
  eapply does_bind with (P := λ w n1 h1, e_last_sequence (core n) < wr_sequence w <= e_last_sequence (core n1)).
  { apply does_write; [by split; [|constructor]|]. intros w n1 h1 [(vs & -> & Hc & Hf) _] ->. destruct vs as [|x []]; try done.
    apply Forall_cons in Hf as [Hf _]. lia. }
  intros w n1 h1 Hw1 Hu1 Hws. set (l := match old with None => _ | _ => _ end). rewrite <-(app_nil_r l).
  eapply does_bind with (P := λ _ _ _, True).
  { unfold maintain_indexes_after_delete. apply does_node. rewrite (upper_indexes _ _ Hu1). unfold l.
    destruct (is_index_system_key key) eqn:Es; [unfold reject_if_system_key in Hrej; by rewrite Es in Hrej|].
    cbn [orb]. case_bool_decide as Hi; [rewrite Hi; destruct old; by apply does_ret|].
    destruct old as [o|]; [|by apply does_ret].
    change (w0 :: cells h) with (reverse [w0] ++ cells h). rewrite <-(wrote_cells _ _ _ _ _ Hw1), <-(upper_indexes _ _ Hu1).
    apply does_maintain; [by apply (node_ok_upper n)|]. intros. by apply does_maintain_delete. }
  intros [] n2 h2 Hw2 _ _. apply (does_bind _ _ [] [] _ _ _ _ (does_cdc _ _ _)). intros _ n3 h3 _ _ [He ->].
  apply does_ret. split_and!; [done|done|lia|]. destruct Hw2 as [_ ?]. lia.
Qed.

(** Batches. *)
Lemma does_mutations mode ms : ∀ s n h,
  node_ok n → Forall write_bytes ms →
  does (mutate_loop env mode s ms) (each_plan (mutation_plan (indexes n)) ms (cells h))
    (λ _ _ _, Forall (λ m, reject_if_system_key m.1 = Ok tt) ms) n h.
Proof.
  induction ms as [|[k v] ms IH]; intros s n h Hn Hb; cbn [mutate_loop each_plan]; [by apply does_ret|].
  apply Forall_cons in Hb as [[Hk Hv] Hb]. eapply does_bind with (P := put_post k n).
  { unfold mutation_plan. cbn [fst snd]. destruct v; [by apply does_put|by apply does_delete]. }
  intros w n1 h1 Hw Hu (Hrej & _). rewrite <-(wrote_cells _ _ _ _ _ Hw), <-(upper_indexes _ _ Hu).
  eapply does_weaken; [by apply IH; [eapply node_ok_upper|]|]. intros. by constructor.
Qed.

Lemma does_apply_mutations mode ms n h :
  node_ok n → Forall write_bytes ms →
  does (apply_mutations env ms mode) (each_plan (mutation_plan (indexes n)) ms (cells h))
    (λ _ _ _, Forall (λ m, reject_if_system_key m.1 = Ok tt) ms) n h.
Proof. intros Hn Hb. unfold apply_mutations. apply does_node. by apply does_mutations. Qed.

End NodePlans.

(** * A node on an empty disk, for runs on concrete inputs. *)

Definition still : N → N * N * N := λ _, (0, 0, 0).

Definition fresh_node : Node (T:=list SstEntry) :=
  mkNode (fresh_engine (mkCompactionConfig L0Merge LeveledCompactionConfig_default SizeTieredCompactionConfig_default))
    TxnTables_new [] [] false CdcState_new 0.

(** The same with other limits. *)
Definition limited_node (l : LimitsConfig) : Node (T:=list SstEntry) :=
  mkNode (mkEngine l Strict 0 (mkCompactionConfig L0Merge LeveledCompactionConfig_default SizeTieredCompactionConfig_default)
            (mkHlc 0 0) false 0 (demo_writer (mkWalConfig 100000 1000 (mkWalBatchConfig 1 0 0)) SimDisk_new)
            Memtable_new 0 ManifestState_default 1 1 [] ∅ 0)
    TxnTables_new [] [] false CdcState_new 0.

(** The same with the hybrid clock, as on a server with several groups, and a wall clock that
    runs. *)
Definition clocked_node : Node (T:=list SstEntry) :=
  mkNode (mkEngine LimitsConfig_default Strict 0 (mkCompactionConfig L0Merge LeveledCompactionConfig_default SizeTieredCompactionConfig_default)
            (mkHlc 0 0) true 0 (demo_writer (mkWalConfig 100000 1000 (mkWalBatchConfig 1 0 0)) SimDisk_new)
            Memtable_new 0 ManifestState_default 1 1 [] ∅ 0)
    TxnTables_new [] [] false CdcState_new 0.
Definition running : N → N * N * N := λ i, (1700000000000 + N.min i 1000000, 0, 0).

Lemma fresh_stores : stores still 1000000 [] fresh_node.
Proof.
  split; [|constructor|done]. split; try done.
  - exists []. split_and!; [split; [apply mt_new_ok|constructor]|repeat constructor|]. by intros y.
  - constructor.
Qed.

Lemma clocked_stores : stores running 1000000 [] clocked_node.
Proof.
  split; [|constructor|intros _ i; unfold running, clock_limit; cbn; lia]. split; try done.
  - exists []. split_and!; [split; [apply mt_new_ok|constructor]|repeat constructor|]. by intros y.
  - constructor.
Qed.

Lemma fresh_node_ok : node_ok fresh_node.
Proof. split; [apply om_sorted_nil|constructor]. Qed.
Lemma clocked_node_ok : node_ok clocked_node.
Proof. split; [apply om_sorted_nil|constructor]. Qed.

(** Without indexes a plan is what the user writes. *)
Lemma plain_mutation m g : mutation_plan [] m g = [m].
Proof.
  destruct m as [k [v|]]; unfold mutation_plan, put_plan, delete_plan; cbn [fst snd]; [done|]. by destruct (look k g).
Qed.

Lemma plain_mutations ms g : each_plan (mutation_plan []) ms g = ms.
Proof.
  revert g. induction ms as [|m ms IH]; intros g; cbn [each_plan]; [done|]. by rewrite plain_mutation, IH.
Qed.
