(* ===== verification/TxnProps.v ===== *)
(** Snapshot isolation of the transactions of one engine: interleavings of
    transactional and plain calls, the invariant of the intent tables, snapshot
    reads, and first-committer-wins. *)
From stdpp Require Import gmap.
From S2P Require Import Prelude Bytes Core Hlc OrdMap Path Disk WalCodec WalWriter InternalKey SstBlock SstSpec Memtable Manifest Compaction Engine EngineReads EngineScan EngineStore Index Cdc Node NodeStore Txn NodePlans.

Open Scope N_scope.

(** ** The staged writes *)

Lemma sort_keys_elem l k : k ∈ sort_keys l ↔ k ∈ l.
Proof.
  assert (∀ (m : list (bytes * unit)) x y, y ∈ (om_insert x tt m).*1 ↔ y = x ∨ y ∈ m.*1) as Hins.
  { intros m x y. induction m as [|[z []] m IH]; cbn [om_insert].
    - cbn. by rewrite elem_of_cons, elem_of_nil.
    - destruct (kcmp x z) eqn:E.
      + apply kcmp_eq in E as ->. cbn [fmap list_fmap fst]. rewrite elem_of_cons. tauto.
      + cbn [fmap list_fmap fst]. rewrite !elem_of_cons. tauto.
      + cbn [fmap list_fmap fst]. rewrite !elem_of_cons, IH. tauto. }
  assert (∀ l : list bytes, ((λ x, (x, tt)) <$> l).*1 = l) as Hid by (intros l'; induction l'; cbn; by f_equal).
  induction l as [|x l IH]; cbn [sort_keys]; [done|]. rewrite Hins, Hid, IH. by rewrite elem_of_cons.
Qed.

Lemma staged_elem id t keys k v : (k, v) ∈ staged id t keys ↔ k ∈ keys ∧ intents t !! k = Some (mkIntent id v).
Proof.
  unfold staged. rewrite list_elem_of_omap. split.
  - intros (k' & Hk & Ho). destruct (intents t !! k') as [[id' v']|] eqn:E; [|done]. cbn [mbind option_bind in_txn_id in_value] in Ho.
    destruct (N.eqb_spec id' id); [|done]. by simplify_eq.
  - intros [Hk Hi]. exists k. split; [done|]. rewrite Hi. cbn [mbind option_bind in_txn_id in_value]. by rewrite N.eqb_refl.
Qed.

(** The writes a commit would make. *)
Definition commit_writes (id : N) (t : TxnTables) : log :=
  match txns t !! id with
  | Some m => staged id t (sort_keys (elements (tm_keys m)))
  | None => []
  end.

(** Removing a transaction frees the keys it holds and no other. *)
Lemma drop_txn_intents id m t k i :
  intents (drop_txn id m t) !! k = Some i ↔ intents t !! k = Some i ∧ ¬ (k ∈ tm_keys m ∧ in_txn_id i = id).
Proof.
  unfold drop_txn. cbn [intents]. revert k i.
  apply (set_fold_ind_L (λ (mp : gmap bytes Intent) (X : gset bytes),
    ∀ k i, mp !! k = Some i ↔ intents t !! k = Some i ∧ ¬ (k ∈ X ∧ in_txn_id i = id))).
  - intros k i. set_solver.
  - intros x X mp Hx IH k i. destruct (decide (k = x)) as [->|Hne].
    + assert (∀ i, mp !! x = Some i ↔ intents t !! x = Some i) as Hmx by (intros j; rewrite IH; tauto).
      destruct (mp !! x) as [j|] eqn:Ej.
      * pose proof (proj1 (Hmx j) eq_refl) as Hj. rewrite Hj. destruct (N.eqb_spec (in_txn_id j) id) as [He|He].
        -- rewrite lookup_delete_eq. split; [done|]. intros [[= <-] Hno]. destruct Hno. set_solver.
        -- rewrite Ej. split; [intros [= <-]|by intros [[= <-] _]]. split; [done|]. tauto.
      * rewrite Ej. split; [done|]. intros [Hi _]. by apply Hmx in Hi.
    + transitivity (mp !! k = Some i).
      { destruct (mp !! x); [|done]. destruct (_ =? _); [|done]. by rewrite lookup_delete_ne. }
      rewrite IH. set_solver.
Qed.

Section TxnProps.
Context {T : Type} `{SstLaws T} (env : N → N * N * N).

Abbreviation Node := (Node (T:=T)).
Abbreviation task := (task (T:=T)).
Abbreviation stores := (stores env).
Abbreviation does := (does env).

(** ** Conflict checks *)

Lemma latest_committed_seq_eq room h n k :
  stores room h n → latest_committed_seq k (core n) = Ok (se_sequence <$> sst_newest k u64_max h).
Proof.
  intros [Hr _]. destruct (rp_tables _ _ _ Hr) as (ess & Hok & Hl & Hh).
  rewrite <-(represents_hit room h (core n) Hr k u64_max ess Hok Hl Hh). destruct Hok as [Hm Ht].
  unfold latest_committed_seq, mt_get. rewrite mem_get_at by done. cbn [sources first_hit].
  destruct (sst_newest k u64_max (mem_versions (memtable (core n)))) as [[? [v|] s]|]; [done|done|].
  cbn [fmap option_fmap option_map]. clear -Ht.
  induction Ht as [|[meta t] es l ess Ht _ IH]; [done|]. cbn [latest_in_tables first_hit].
  rewrite (hd_get t es Ht). cbn [mbind result_bind]. by destruct (sst_newest k u64_max es).
Qed.

(** No other transaction holds the key and no version is newer than the snapshot. *)
Definition no_conflict (id : N) (k : bytes) (snapshot : N) (n : Node) (h : list SstEntry) : Prop :=
  (∀ i, intents (txn n) !! k = Some i → in_txn_id i = id) ∧ ∀ x, x ∈ h → se_key x = k → se_sequence x <= snapshot.

Lemma newest_bound room h n k snapshot :
  stores room h n →
  match se_sequence <$> sst_newest k u64_max h with Some s => s <= snapshot | None => True end ↔
  ∀ x, x ∈ h → se_key x = k → se_sequence x <= snapshot.
Proof.
  intros Hs. pose proof (stores_seqs _ _ _ Hs) as Hq. destruct (sst_newest k u64_max h) as [y|] eqn:E; cbn [fmap option_fmap option_map].
  - apply history_latest in E as (Hy & [Hk _] & Hall); [|apply Hs]. split; [|intros Hx; by apply Hx].
    intros Hle x Hx Hkx. etrans; [|exact Hle]. apply Hall; [done|]. split; [done|].
    by apply (proj1 (Forall_forall _ _) Hq x Hx).
  - split; [|done]. intros _ x Hx Hk. pose proof (proj1 (sst_newest_None k u64_max h) E x Hx) as Hno. destruct Hno.
    split; [done|]. by apply (proj1 (Forall_forall _ _) Hq x Hx).
Qed.

Lemma check_write_conflict_spec room h n id k snapshot :
  stores room h n →
  check_write_conflict id k snapshot n = (Done tt, n) ∧ no_conflict id k snapshot n h ∨
  check_write_conflict id k snapshot n = (Failed TxnConflict, n) ∧ ¬ no_conflict id k snapshot n h.
Proof.
  intros Hs. pose proof (newest_bound room h n k snapshot Hs) as Hb. unfold check_write_conflict, no_conflict.
  unfold mbind, task_bind, node, reads. cbv beta iota.
  destruct (match intents (txn n) !! k with Some i => _ | None => _ end) eqn:Ei.
  { right. split; [done|]. destruct (intents (txn n) !! k) as [i|]; [|done]. intros [Hi _].
    by rewrite (Hi i eq_refl), N.eqb_refl in Ei. }
  assert (∀ i, intents (txn n) !! k = Some i → in_txn_id i = id) as Hi.
  { intros i Hi. rewrite Hi in Ei. by apply negb_false_iff, N.eqb_eq in Ei. }
  rewrite (latest_committed_seq_eq room h n k Hs). cbn [reply_of].
  destruct (se_sequence <$> sst_newest k u64_max h) as [s|].
  - destruct (N.ltb_spec snapshot s) as [Hlt|Hle]; [right|left]; (split; [done|]).
    + intros [_ Hx]. apply Hb in Hx. lia.
    + split; [done|]. by apply Hb.
  - left. split; [done|]. split; [done|]. by apply Hb.
Qed.

Lemma check_all_spec room h n id snapshot keys :
  stores room h n →
  let m := each (λ k, check_write_conflict id k snapshot) keys in
  m n = (Done tt, n) ∧ Forall (λ k, no_conflict id k snapshot n h) keys ∨
  m n = (Failed TxnConflict, n) ∧ ¬ Forall (λ k, no_conflict id k snapshot n h) keys.
Proof.
  intros Hs. cbv zeta. induction keys as [|k keys IH]; cbn [each]; [by left|]. unfold mbind, task_bind in *.
  destruct (check_write_conflict_spec room h n id k snapshot Hs) as [[-> Hk]|[-> Hk]].
  - destruct IH as [[-> IH]|[-> IH]]; [left|right]; (split; [done|]); [by constructor|]. by intros [_ ?]%Forall_cons.
  - right. split; [done|]. by intros [? _]%Forall_cons.
Qed.

(** ** Transactional calls *)

Lemma txn_meta_eq id (n : Node) :
  txn_meta id n = (match txns (txn n) !! id with Some m => Done m | None => Failed (unknown_txn id) end, n).
Proof. unfold txn_meta, mbind, task_bind, node. by destruct (txns (txn n) !! id). Qed.

(** The keys of a transaction have no conflict. *)
Definition no_conflicts (id : N) (m : TxnMeta) (n : Node) (h : list SstEntry) : Prop :=
  ∀ k, k ∈ tm_keys m → no_conflict id k (snapshot_ts m) n h.

Lemma take_commit_spec room h n id m :
  stores room h n → txns (txn n) !! id = Some m →
  txn_take_commit id n = (Done (commit_writes id (txn n)), set_txn (drop_txn id m (txn n)) n) ∧ no_conflicts id m n h ∨
  txn_take_commit id n = (Failed TxnConflict, n) ∧ ¬ no_conflicts id m n h.
Proof.
  intros Hs Hm. unfold txn_take_commit, txn_prepare_commit, commit_writes, no_conflicts. unfold mbind, task_bind.
  rewrite txn_meta_eq, Hm. cbv beta iota.
  assert ((∀ k, k ∈ tm_keys m → no_conflict id k (snapshot_ts m) n h) ↔
          Forall (λ k, no_conflict id k (snapshot_ts m) n h) (elements (tm_keys m))) as Heq.
  { rewrite Forall_forall. split; intros Hf k Hk; apply Hf; [by apply elem_of_elements in Hk|by apply elem_of_elements]. }
  rewrite Heq. destruct (check_all_spec room h n id (snapshot_ts m) (elements (tm_keys m)) Hs) as [[-> Hf]|[-> Hf]]; [left|right].
  - unfold node. cbv beta iota. unfold mret, task_ret. rewrite txn_meta_eq, Hm. by split.
  - by split.
Qed.

Lemma stage_spec room h n id k v :
  stores room h n →
  match txns (txn n) !! id with
  | None => stage_intent id k v n = (Failed (unknown_txn id), n)
  | Some m =>
      stage_intent id k v n = (Done tt, set_txn (add_intent id k v (txn n)) n) ∧ no_conflict id k (snapshot_ts m) n h ∨
      stage_intent id k v n = (Failed TxnConflict, n) ∧ ¬ no_conflict id k (snapshot_ts m) n h
  end.
Proof.
  intros Hs. unfold stage_intent, mbind, task_bind. rewrite txn_meta_eq. destruct (txns (txn n) !! id) as [m|]; [|done].
  cbv beta iota. destruct (check_write_conflict_spec room h n id k (snapshot_ts m) Hs) as [[-> Hk]|[-> Hk]]; [left|right]; by split.
Qed.

(** Staging ends with the intent added, or changes nothing. *)
Lemma txn_put_spec room h n id k v :
  stores room h n →
  (∃ m, txns (txn n) !! id = Some m ∧ reject_if_system_key k = Ok tt ∧ no_conflict id k (snapshot_ts m) n h ∧
     txn_put id k v n = (Done tt, set_txn (add_intent id k (Some v) (txn n)) n)) ∨
  ∃ x, txn_put id k v n = (Failed x, n).
Proof.
  intros Hs. unfold txn_put, mbind, task_bind, reads, of_result. destruct (validate_key k (core n)) as [[]|]; cbn [reply_of]; [|eauto].
  destruct (reject_if_system_key k) as [[]|]; cbn [reply_of]; [|eauto].
  destruct (validate_value v (core n)) as [[]|]; cbn [reply_of]; [|eauto].
  pose proof (stage_spec room h n id k (Some v) Hs) as Hst. destruct (txns (txn n) !! id) as [m|]; [|eauto].
  destruct Hst as [[-> Hk]|[-> _]]; [|eauto]. left. by exists m.
Qed.

Lemma txn_delete_spec room h n id k :
  stores room h n →
  (∃ m, txns (txn n) !! id = Some m ∧ reject_if_system_key k = Ok tt ∧ no_conflict id k (snapshot_ts m) n h ∧
     txn_delete id k n = (Done tt, set_txn (add_intent id k None (txn n)) n)) ∨
  ∃ x, txn_delete id k n = (Failed x, n).
Proof.
  intros Hs. unfold txn_delete, mbind, task_bind, reads, of_result. destruct (validate_key k (core n)) as [[]|]; cbn [reply_of]; [|eauto].
  destruct (reject_if_system_key k) as [[]|]; cbn [reply_of]; [|eauto].
  pose proof (stage_spec room h n id k None Hs) as Hst. destruct (txns (txn n) !! id) as [m|]; [|eauto].
  destruct Hst as [[-> Hk]|[-> _]]; [|eauto]. left. by exists m.
Qed.

(** A read in a transaction: its own intent, else the snapshot. *)
Lemma txn_get_spec room h n id k :
  stores room h n →
  txn_get id k n =
    (match txns (txn n) !! id with
     | None => Failed (unknown_txn id)
     | Some m => Done (match intents (txn n) !! k with
                       | Some i => if in_txn_id i =? id then in_value i else read_at_ts k (snapshot_ts m) h
                       | None => read_at_ts k (snapshot_ts m) h
                       end)
     end, n).
Proof.
  intros [Hr _]. unfold txn_get, mbind, task_bind. rewrite txn_meta_eq. destruct (txns (txn n) !! id) as [m|]; [|done].
  unfold node, reads. cbv beta iota. pose proof (represents_get room h (core n) Hr k (At (snapshot_ts m))) as Hg. cbn [as_u64] in Hg.
  destruct (intents (txn n) !! k) as [i|]; [|by rewrite Hg]. destruct (in_txn_id i =? id); [done|]. by rewrite Hg.
Qed.

(** ** Interleavings *)

Inductive call : Type :=
| CBegin
| CTxnGet (id : N) (k : bytes)
| CTxnPut (id : N) (k v : bytes)
| CTxnDelete (id : N) (k : bytes)
| CRollback (id : N)
| CCommit (id : N)
| CPut (k v : bytes) (mode : option DurabilityMode)
| CDelete (k : bytes) (mode : option DurabilityMode).

Definition run_call (c : call) (n : Node) : Node :=
  match c with
  | CBegin => (begin_txn n).2
  | CTxnGet id k => (txn_get id k n).2
  | CTxnPut id k v => (txn_put id k v n).2
  | CTxnDelete id k => (txn_delete id k n).2
  | CRollback id => (txn_rollback id n).2
  | CCommit id => (txn_commit env id n).2
  | CPut k v mode => (put env k v mode n).2
  | CDelete k mode => (Node.delete env k mode n).2
  end.

Definition call_plan (c : call) (n : Node) (g : log) : log :=
  match c with
  | CCommit id => each_plan (mutation_plan (indexes n)) (commit_writes id (txn n)) g
  | CPut k v _ => put_plan (indexes n) k v g
  | CDelete k _ => delete_plan (indexes n) k g
  | _ => []
  end.

(** Space in the memtable and in the sequences. *)
Definition has_room (r : N) (e : Engine T) : Prop :=
  table_size (mem_versions (memtable e)) + r < 2 ^ 30 ∧ seq_limit e + r < 2 ^ 64.

Definition call_bytes (c : call) : Prop :=
  match c with
  | CTxnPut _ k v | CPut k v _ => bytes_ok k ∧ bytes_ok v
  | CTxnDelete _ k | CDelete k _ => bytes_ok k
  | _ => True
  end.

(** The arguments are bytes, ids are left, and there is room for the writes. *)
Definition call_ok (c : call) (n : Node) : Prop :=
  call_bytes c ∧ next_txn_id (txn n) < u64_max ∧
  ∀ h, stores 0 h n → has_room (plan_cost (call_plan c n (cells h))) (core n).

(** The invariant of the tables: ids are fresh, snapshots are in the past, an
    intent and its transaction know of each other. *)
Record txns_ok (n : Node) : Prop := {
  to_next : ∀ id m, txns (txn n) !! id = Some m → id < next_txn_id (txn n);
  to_snapshot : ∀ id m, txns (txn n) !! id = Some m → snapshot_ts m <= e_last_sequence (core n);
  to_held : ∀ id m k, txns (txn n) !! id = Some m → k ∈ tm_keys m → ∃ v, intents (txn n) !! k = Some (mkIntent id v);
  to_open : ∀ k i, intents (txn n) !! k = Some i → ∃ m, txns (txn n) !! in_txn_id i = Some m ∧ k ∈ tm_keys m;
  to_user : ∀ k i, intents (txn n) !! k = Some i → reject_if_system_key k = Ok tt ∧ write_bytes (k, in_value i)
}.

Lemma has_room_stores r h (n : Node) : stores 0 h n → has_room r (core n) → stores r h n.
Proof. intros [[] Hb Hc] [H1 H2]. by split. Qed.

Lemma txns_ok_core (n n' : Node) :
  txn n' = txn n → e_last_sequence (core n) <= e_last_sequence (core n') → txns_ok n → txns_ok n'.
Proof.
  intros Ht He [H1 H2 H3 H4 H5]. split; rewrite Ht; try done. intros id m Hm. etrans; [by eapply H2|done].
Qed.

Lemma txns_ok_begin (n : Node) : next_txn_id (txn n) < u64_max → txns_ok n → txns_ok (begin_txn n).2.
Proof.
  intros Hn [H1 H2 H3 H4 H5]. assert (txns (txn n) !! next_txn_id (txn n) = None) as Hfresh.
  { destruct (txns (txn n) !! next_txn_id (txn n)) as [m|] eqn:E; [|done]. specialize (H1 _ _ E). lia. }
  assert (sat_add u64_max (next_txn_id (txn n)) 1 = next_txn_id (txn n) + 1) as Hsat by (unfold sat_add; lia).
  split; cbn [begin_txn snd txn set_txn txns intents next_txn_id core]; rewrite ?Hsat.
  - intros id m [[<- _]|[_ Hm]]%lookup_insert_Some; [lia|]. specialize (H1 id m Hm). lia.
  - intros id m [[_ <-]|[_ Hm]]%lookup_insert_Some; [done|by eapply H2].
  - intros id m k [[_ <-]|[_ Hm]]%lookup_insert_Some; [by intros ?%elem_of_empty|by apply H3].
  - intros k i Hi. destruct (H4 k i Hi) as (m & Hm & Hk). exists m. split; [|done].
    rewrite lookup_insert_ne; [done|]. intros E. by rewrite <-E, Hfresh in Hm.
  - done.
Qed.

Lemma txns_ok_stage (n : Node) id m k v :
  txns_ok n → txns (txn n) !! id = Some m → (∀ i, intents (txn n) !! k = Some i → in_txn_id i = id) →
  reject_if_system_key k = Ok tt → write_bytes (k, v) → txns_ok (set_txn (add_intent id k v (txn n)) n).
Proof.
  intros [H1 H2 H3 H4 H5] Hm Hown Hrej Hb. unfold add_intent.
  assert (∀ id' m', alter (λ m, mkTxnMeta (snapshot_ts m) ({[ k ]} ∪ tm_keys m)) id (txns (txn n)) !! id' = Some m' →
    ∃ m0, txns (txn n) !! id' = Some m0 ∧ snapshot_ts m' = snapshot_ts m0 ∧
      tm_keys m' = if decide (id' = id) then {[ k ]} ∪ tm_keys m0 else tm_keys m0) as Halt.
  { intros id' m' [(<- & m0 & Hz & ->)|[Hne Hz]]%lookup_alter_Some.
    - exists m0. by rewrite decide_True.
    - exists m'. by rewrite decide_False. }
  split; cbn [txn set_txn txns intents next_txn_id core].
  - intros id' m' (m0 & Hz & _)%Halt. by eapply H1.
  - intros id' m' (m0 & Hz & -> & _)%Halt. by eapply H2.
  - intros id' m' k' (m0 & Hz & _ & ->)%Halt Hk'. destruct (decide (k' = k)) as [->|Hne].
    + destruct (decide (id' = id)) as [->|Hid]; [exists v; apply lookup_insert_eq|].
      destruct (H3 id' m0 k Hz Hk') as [v' Hv']. by specialize (Hown _ Hv').
    + rewrite lookup_insert_ne by done. apply (H3 id' m0); [done|]. destruct (decide (id' = id)); [set_solver|done].
  - intros k' i [[<- <-]|[Hne Hi]]%lookup_insert_Some.
    + cbn [in_txn_id]. eexists. split; [by rewrite lookup_alter_eq, Hm|]. cbn [tm_keys]. set_solver.
    + destruct (H4 k' i Hi) as (m0 & Hz & Hk0). destruct (decide (in_txn_id i = id)) as [Hid|Hid].
      * rewrite Hid in *. eexists. split; [by rewrite lookup_alter_eq, Hz|]. cbn [tm_keys]. set_solver.
      * exists m0. by rewrite lookup_alter_ne.
  - intros k' i [[<- <-]|[Hne Hi]]%lookup_insert_Some; [done|by apply H5].
Qed.

Lemma txns_ok_drop (n : Node) id m :
  txns_ok n → txns (txn n) !! id = Some m → txns_ok (set_txn (drop_txn id m (txn n)) n).
Proof.
  intros [H1 H2 H3 H4 H5] Hm. split; cbn [txn set_txn core]; cbn [drop_txn txns next_txn_id].
  - intros id' m' [_ Hd]%lookup_delete_Some. by eapply H1.
  - intros id' m' [_ Hd]%lookup_delete_Some. by eapply H2.
  - intros id' m' k [Hne Hd]%lookup_delete_Some Hk. destruct (H3 id' m' k Hd Hk) as [v Hv]. exists v.
    apply drop_txn_intents. split; [done|]. by intros [_ ?].
  - intros k i [Hi Hno]%drop_txn_intents. destruct (H4 k i Hi) as (m0 & Hz & Hk). exists m0. split; [|done].
    apply lookup_delete_Some. split; [|done]. intros E. rewrite <-E in Hz. simplify_eq. apply Hno. by split.
  - intros k i [Hi _]%drop_txn_intents. by apply H5.
Qed.

(** The writes of a commit are user writes. *)
Lemma commit_writes_elem (n : Node) id k v :
  txns_ok n → txns (txn n) !! id ≠ None → (k, v) ∈ commit_writes id (txn n) ↔ intents (txn n) !! k = Some (mkIntent id v).
Proof.
  intros Hok Hm. unfold commit_writes. destruct (txns (txn n) !! id) as [m|] eqn:E; [|done].
  rewrite staged_elem, sort_keys_elem, elem_of_elements. split; [by intros [_ ?]|]. intros Hi. split; [|done].
  destruct (to_open _ Hok k _ Hi) as (m' & Hm' & Hk). cbn [in_txn_id] in Hm'. by simplify_eq.
Qed.

Lemma commit_writes_ok (n : Node) id :
  txns_ok n → Forall (λ m, reject_if_system_key m.1 = Ok tt ∧ write_bytes m) (commit_writes id (txn n)).
Proof.
  intros Hok. apply Forall_forall. intros [k v] Hkv. destruct (txns (txn n) !! id) as [m|] eqn:E.
  - apply commit_writes_elem in Hkv; [|done|by rewrite E]. by apply (to_user _ Hok) in Hkv.
  - unfold commit_writes in Hkv. rewrite E in Hkv. by apply elem_of_nil in Hkv.
Qed.

(** A commit of an open transaction either finds a conflict and changes nothing,
    or performs its plan and closes the transaction. *)
Lemma txn_commit_spec h (n : Node) id m :
  node_ok n → txns_ok n → stores (plan_cost (call_plan (CCommit id) n (cells h))) h n → txns (txn n) !! id = Some m →
  txn_commit env id n = (Failed TxnConflict, n) ∧ ¬ no_conflicts id m n h ∨
  no_conflicts id m n h ∧ ∃ l h',
    l `prefix_of` call_plan (CCommit id) n (cells h) ∧ stores 0 h' (txn_commit env id n).2 ∧
    wrote l n h (txn_commit env id n).2 h' ∧ txn (txn_commit env id n).2 = drop_txn id m (txn n) ∧
    indexes (txn_commit env id n).2 = indexes n ∧
    ∀ a, (txn_commit env id n).1 = Done a → l = call_plan (CCommit id) n (cells h).
Proof.
  intros Hn Hok Hs Hm. unfold txn_commit, mbind, task_bind.
  destruct (take_commit_spec _ h n id m Hs Hm) as [[-> Hc]|[-> Hc]]; [right|by left]. split; [done|].
  set (n1 := set_txn (drop_txn id m (txn n)) n).
  destruct (does_apply_mutations env None (commit_writes id (txn n)) n1 h) with (room := 0) as (l & h' & Hl & Hs' & Hw & Hu & Hd).
  - done.
  - eapply Forall_impl; [by apply commit_writes_ok|]. by intros ? [_ ?].
  - by destruct Hs.
  - exists l, h'. split_and!; [done|done|by destruct Hw; split| | |].
    + by rewrite (upper_txn _ _ Hu).
    + by rewrite (upper_indexes _ _ Hu).
    + intros a Ha. by destruct (Hd a Ha).
Qed.

Lemma txn_commit_unknown (n : Node) id :
  txns (txn n) !! id = None → txn_commit env id n = (Failed (unknown_txn id), n).
Proof.
  intros Hm. unfold txn_commit, txn_take_commit, txn_prepare_commit, mbind, task_bind. by rewrite txn_meta_eq, Hm.
Qed.

Lemma rollback_spec (n : Node) id :
  (txn_rollback id n).2 =
    match txns (txn n) !! id with Some m => set_txn (drop_txn id m (txn n)) n | None => n end.
Proof. unfold txn_rollback, mbind, task_bind. rewrite txn_meta_eq. by destruct (txns (txn n) !! id). Qed.

(** What a call does to an open transaction: it stays as it is but for its
    keys, or it is gone; ids are never reused. *)
Definition same_txns (n n' : Node) : Prop :=
  next_txn_id (txn n) <= next_txn_id (txn n') ∧
  ∀ id m', id < next_txn_id (txn n) → txns (txn n') !! id = Some m' →
    ∃ m, txns (txn n) !! id = Some m ∧ snapshot_ts m = snapshot_ts m'.

Lemma same_txns_refl (n n' : Node) : txn n' = txn n → same_txns n n'.
Proof. intros E. unfold same_txns. rewrite E. eauto. Qed.

Lemma same_txns_trans (n1 n2 n3 : Node) : same_txns n1 n2 → same_txns n2 n3 → same_txns n1 n3.
Proof.
  intros [Hle1 H12] [Hle2 H23]. split; [lia|]. intros id m3 Hid Hm3. destruct (H23 id m3) as (m2 & Hm2 & E2); [lia|done|].
  destruct (H12 id m2) as (m1 & Hm1 & E1); [done|done|]. exists m1. split; [done|congruence].
Qed.

Lemma same_txns_stage (n : Node) id k v : same_txns n (set_txn (add_intent id k v (txn n)) n).
Proof.
  split; [done|]. cbn [txn set_txn add_intent txns]. intros id' m' _ [(<- & m0 & Hz & ->)|[_ Hz]]%lookup_alter_Some; eauto.
Qed.

Lemma same_txns_drop (n n' : Node) id m : txn n' = drop_txn id m (txn n) → same_txns n n'.
Proof.
  intros E. unfold same_txns. rewrite E. split; [done|]. cbn [drop_txn txns]. intros id' m' _ [_ Hd]%lookup_delete_Some. eauto.
Qed.

Lemma same_txns_begin (n : Node) : next_txn_id (txn n) < u64_max → same_txns n (begin_txn n).2.
Proof.
  intros Hn. split; cbn [begin_txn snd txn set_txn txns next_txn_id]; [unfold sat_add; lia|].
  intros id m' Hid [[<- _]|[_ Hm]]%lookup_insert_Some; [lia|]. eauto.
Qed.

(** One call. *)
Lemma call_step c (n : Node) h :
  node_ok n → txns_ok n → call_ok c n → stores 0 h n →
  node_ok (run_call c n) ∧ txns_ok (run_call c n) ∧ same_txns n (run_call c n) ∧
  ∃ l h', l `prefix_of` call_plan c n (cells h) ∧ stores 0 h' (run_call c n) ∧ wrote l n h (run_call c n) h'.
Proof.
  intros Hn Hok (Hb & Hid & Hroom) Hs. pose proof (has_room_stores _ _ _ Hs (Hroom h Hs)) as Hr.
  assert (∀ n', core n' = core n → indexes n' = indexes n → txns_ok n' → same_txns n n' →
    node_ok n' ∧ txns_ok n' ∧ same_txns n n' ∧
    ∃ l h', l `prefix_of` call_plan c n (cells h) ∧ stores 0 h' n' ∧ wrote l n h n' h') as Hquiet.
  { intros n' Hc Hi Ho Hsm. unfold node_ok. rewrite Hi. split_and!; [done|done|done|]. exists [], h. split_and!; [apply prefix_nil| |].
    - destruct Hs. split; [by rewrite Hc|done|by rewrite Hc].
    - apply wrote_nil. by rewrite Hc. }
  assert (∀ {A} (m : task A) P, (does m (call_plan c n (cells h)) P n h) →
    node_ok (m n).2 ∧ txns_ok (m n).2 ∧ same_txns n (m n).2 ∧
    ∃ l h', l `prefix_of` call_plan c n (cells h) ∧ stores 0 h' (m n).2 ∧ wrote l n h (m n).2 h') as Hloud.
  { intros A m P Hm. destruct (Hm 0 Hr) as (l & h' & Hl & Hs' & Hw & Hu & _). pose proof (upper_txn _ _ Hu) as Ht.
    split_and!; [by eapply node_ok_upper| |by apply same_txns_refl|eauto]. eapply txns_ok_core; [done|apply Hw|done]. }
  destruct c as [|id k|id k v|id k|id|id|k v mode|k mode]; cbn [run_call call_bytes] in *.
  - apply Hquiet; [done|done|by apply txns_ok_begin|by apply same_txns_begin].
  - rewrite (txn_get_spec 0 h n id k Hs). apply Hquiet; [done|done|done|by apply same_txns_refl].
  - destruct (txn_put_spec 0 h n id k v Hs) as [(m & Hm & Hrej & [Hi _] & ->)|[x ->]]; apply Hquiet; try done.
    + by eapply txns_ok_stage.
    + apply same_txns_stage.
    + by apply same_txns_refl.
  - destruct (txn_delete_spec 0 h n id k Hs) as [(m & Hm & Hrej & [Hi _] & ->)|[x ->]]; apply Hquiet; try done.
    + eapply txns_ok_stage; try done. by split; [|constructor].
    + apply same_txns_stage.
    + by apply same_txns_refl.
  - rewrite rollback_spec. destruct (txns (txn n) !! id) as [m|] eqn:Em; apply Hquiet; try done.
    + by apply txns_ok_drop.
    + by eapply same_txns_drop.
    + by apply same_txns_refl.
  - destruct (txns (txn n) !! id) as [m|] eqn:Em.
    + destruct (txn_commit_spec h n id m Hn Hok Hr Em) as [[-> _]|(_ & l & h' & Hl & Hs' & Hw & Ht & Hi & _)].
      * apply Hquiet; [done|done|done|by apply same_txns_refl].
      * split_and!; [unfold node_ok; by rewrite Hi| |by eapply same_txns_drop|by exists l, h'].
        apply (txns_ok_core (set_txn (drop_txn id m (txn n)) n)); [done|apply Hw|by apply txns_ok_drop].
    + rewrite (txn_commit_unknown n id Em). apply Hquiet; [done|done|done|by apply same_txns_refl].
  - destruct Hb. eapply Hloud. by apply does_put.
  - eapply Hloud. by apply does_delete.
Qed.

(** Calls one after the other, each with room. *)
Inductive runs : Node → Node → Prop :=
| runs_nil n : runs n n
| runs_cons c n n' : call_ok c n → runs (run_call c n) n' → runs n n'.

Lemma runs_keep n n' :
  runs n n' → ∀ h, node_ok n → txns_ok n → stores 0 h n →
  node_ok n' ∧ txns_ok n' ∧ same_txns n n' ∧ ∃ l h', stores 0 h' n' ∧ wrote l n h n' h'.
Proof.
  induction 1 as [n|c n n' Hc Hr IH]; intros h Hn Hok Hs.
  - split_and!; [done|done|by apply same_txns_refl|]. exists [], h. split; [done|by apply wrote_nil].
  - destruct (call_step c n h Hn Hok Hc Hs) as (Hn1 & Hok1 & Hsm1 & l1 & h1 & _ & Hs1 & Hw1).
    destruct (IH h1 Hn1 Hok1 Hs1) as (Hn2 & Hok2 & Hsm2 & l2 & h2 & Hs2 & Hw2).
    split_and!; [done|done|by eapply same_txns_trans|]. exists (l1 ++ l2), h2. split; [done|by eapply wrote_trans].
Qed.

(** After [begin_txn] and any calls, an open transaction still has its snapshot. *)
Lemma begun n0 n h0 :
  node_ok n0 → txns_ok n0 → stores 0 h0 n0 → next_txn_id (txn n0) < u64_max → runs (begin_txn n0).2 n →
  node_ok n ∧ txns_ok n ∧
  (∃ l h, stores 0 h n ∧ wrote l n0 h0 n h) ∧
  ∀ m, txns (txn n) !! next_txn_id (txn n0) = Some m → snapshot_ts m = e_last_sequence (core n0).
Proof.
  intros Hn Hok Hs Hid Hr. assert (stores 0 h0 (begin_txn n0).2) as Hs1 by (by destruct Hs).
  destruct (runs_keep _ _ Hr h0 Hn (txns_ok_begin n0 Hid Hok) Hs1) as (Hn' & Hok' & Hsm & l & h & Hs' & Hw).
  split_and!; [done|done|exists l, h; split; [done|by destruct Hw; split]|].
  intros m Hm. destruct Hsm as [_ Hsm]. destruct (Hsm (next_txn_id (txn n0)) m) as (m0 & Hm0 & <-); [|done|].
  - cbn [begin_txn snd txn set_txn next_txn_id]. unfold sat_add. lia.
  - cbn [begin_txn snd txn set_txn txns] in Hm0. rewrite lookup_insert_eq in Hm0. by injection Hm0 as <-.
Qed.

Lemma stores_snapshot room h (n : Node) k : stores room h n → read_at_ts k (e_last_sequence (core n)) h = look k (cells h).
Proof. intros [Hr _]. by apply read_cells, Hr. Qed.

(** A key is among the writes since when it has a version newer than then. *)
Lemma wrote_since l (n0 : Node) h0 (n : Node) h k :
  wrote l n0 h0 n h → k ∈ l.*1 → ∃ x, x ∈ h ∧ se_key x = k ∧ e_last_sequence (core n0) < se_sequence x.
Proof.
  intros [(vs & -> & Hc & Hf) _] Hin. assert (k ∈ (cells vs).*1) as Hkv.
  { rewrite Hc. apply list_elem_of_fmap in Hin as (x & -> & Hx). apply list_elem_of_fmap_2. by apply elem_of_reverse. }
  unfold cells in Hkv. rewrite <-list_fmap_compose in Hkv. apply list_elem_of_fmap in Hkv as (x & -> & Hx).
  exists x. split_and!; [apply elem_of_app; by left|done|].
  pose proof (proj1 (Forall_forall _ _) Hf x Hx) as Hfx. cbn in Hfx. lia.
Qed.

(** C28: snapshot reads: after [begin_txn] and whatever calls of any transactions
    come next, the transaction reads its own staged write of a key, else the value
    the key had when it began. *)
Theorem txn_snapshot_reads n0 n h0 k m :
  node_ok n0 → txns_ok n0 → stores 0 h0 n0 → next_txn_id (txn n0) < u64_max →
  let id := (begin_txn n0).1.1 in
  runs (begin_txn n0).2 n → txns (txn n) !! id = Some m →
  (txn_get id k n).1 =
    Done (match intents (txn n) !! k with
          | Some i => if in_txn_id i =? id then in_value i else look k (cells h0)
          | None => look k (cells h0)
          end) ∧
  ∀ v, (txn_put id k v n).1 = Done tt → (txn_get id k (txn_put id k v n).2).1 = Done (Some v).
Proof.
  intros Hn Hok Hs Hid id Hr Hm. destruct (begun n0 n h0 Hn Hok Hs Hid Hr) as (_ & Hok' & (l & h & Hs' & Hw) & Hsnap).
  assert (read_at_ts k (snapshot_ts m) h = look k (cells h0)) as Hread.
  { rewrite (Hsnap m Hm), (wrote_snapshot _ _ _ _ _ k _ Hw) by done. by eapply stores_snapshot. }
  split.
  - rewrite (txn_get_spec 0 h n id k Hs'), Hm, Hread. done.
  - intros v Hd. destruct (txn_put_spec 0 h n id k v Hs') as [(m' & _ & _ & _ & E)|[x E]]; rewrite E in Hd |- *; [|done].
    rewrite (txn_get_spec 0 h) by (by destruct Hs'). cbn [fst snd txn set_txn add_intent txns intents].
    rewrite lookup_alter_eq, Hm, lookup_insert_eq. cbn [fmap option_fmap option_map in_txn_id in_value]. by rewrite N.eqb_refl.
Qed.

(** C8: first committer wins: when a transaction commits, no key it wrote was
    written by anyone since it began, its writes are visible, every other user
    key reads as before the commit, and it holds no keys any more. *)
Theorem txn_first_committer_wins n0 n h0 ts :
  node_ok n0 → txns_ok n0 → stores 0 h0 n0 → next_txn_id (txn n0) < u64_max →
  let id := (begin_txn n0).1.1 in
  runs (begin_txn n0).2 n → call_ok (CCommit id) n →
  let n' := (txn_commit env id n).2 in
  (txn_commit env id n).1 = Done ts →
  ∃ since h h', stores 0 h n ∧ wrote since n0 h0 n h ∧ stores 0 h' n' ∧
    (∀ k v, intents (txn n) !! k = Some (mkIntent id v) → (k ∉ since.*1) ∧ look k (cells h') = v) ∧
    (∀ k, is_index_system_key k = false → (∀ v, intents (txn n) !! k ≠ Some (mkIntent id v)) →
       look k (cells h') = look k (cells h)) ∧
    txns (txn n') !! id = None ∧ ∀ k i, intents (txn n') !! k = Some i ↔ intents (txn n) !! k = Some i ∧ in_txn_id i ≠ id.
Proof.
  intros Hn Hok Hs Hid id Hr (_ & _ & Hroom) n' Hd.
  destruct (begun n0 n h0 Hn Hok Hs Hid Hr) as (Hn1 & Hok1 & (since & h & Hs1 & Hw1) & Hsnap).
  destruct (txns (txn n) !! id) as [m|] eqn:Em; [|by rewrite txn_commit_unknown in Hd].
  destruct (txn_commit_spec h n id m Hn1 Hok1 (has_room_stores _ _ _ Hs1 (Hroom h Hs1)) Em)
    as [[E _]|(Hnc & l & h' & _ & Hs2 & Hw2 & Ht & _ & Hl)]; [by rewrite E in Hd|]. specialize (Hl ts Hd). subst l.
  pose proof (commit_writes_ok n id Hok1) as Hcw.
  assert (∀ k, is_index_system_key k = false → look k (cells h') = look k (reverse (commit_writes id (txn n)) ++ cells h)) as Hlook.
  { intros k Hk. rewrite (wrote_cells _ _ _ _ _ Hw2), look_user by done. cbn [call_plan]. rewrite user_mutations; [done|].
    eapply Forall_impl; [exact Hcw|]. intros x [Hx _]. by apply reject_index. }
  assert (∀ k v, (k, v) ∈ commit_writes id (txn n) ↔ intents (txn n) !! k = Some (mkIntent id v)) as Hel
    by (intros k v; apply commit_writes_elem; [done|by rewrite Em]).
  exists since, h, h'. split_and!; [done|done|done| | | |].
  - intros k v Hi. assert (is_index_system_key k = false) as Hk by (by eapply reject_index, to_user). split.
    + intros Hin. destruct (to_open n Hok1 k _ Hi) as (m' & Hm' & Hkm). cbn [in_txn_id] in Hm'. simplify_eq.
      destruct (Hnc k Hkm) as [_ Hold]. destruct (wrote_since _ _ _ _ _ k Hw1 Hin) as (x & Hx & Hxk & Hxs).
      specialize (Hold x Hx Hxk). rewrite (Hsnap m Em) in Hold. lia.
    + rewrite Hlook by done. apply look_agree; [|by apply elem_of_reverse, Hel]. intros v' Hv'%elem_of_reverse%Hel. congruence.
  - intros k Hk Hno. rewrite Hlook by done. apply look_skip. intros Hin. apply list_elem_of_fmap in Hin as ([k' v] & -> & Hin).
    apply elem_of_reverse, Hel in Hin. by destruct (Hno v).
  - unfold n'. rewrite Ht. cbn [drop_txn txns]. apply lookup_delete_eq.
  - intros k i. unfold n'. rewrite Ht, drop_txn_intents. split; intros [Hi Hx]; (split; [done|]); [|tauto]. intros Hii. apply Hx.
    split; [|done]. destruct (to_open n Hok1 k i Hi) as (m' & Hm' & Hkm). rewrite Hii in Hm'. congruence.
Qed.

(** A conflict is found: when the newest version of a key that the transaction
    has staged was written after it began, the commit fails with [TxnConflict] and
    changes nothing. *)
Theorem txn_conflict_detected n0 n h0 k v s :
  node_ok n0 → txns_ok n0 → stores 0 h0 n0 → next_txn_id (txn n0) < u64_max →
  let id := (begin_txn n0).1.1 in
  runs (begin_txn n0).2 n → call_ok (CCommit id) n → intents (txn n) !! k = Some (mkIntent id v) →
  latest_committed_seq k (core n) = Ok (Some s) → e_last_sequence (core n0) < s →
  txn_commit env id n = (Failed TxnConflict, n).
Proof.
  intros Hn Hok Hs Hid id Hr (_ & _ & Hroom) Hi Hl Hlt.
  destruct (begun n0 n h0 Hn Hok Hs Hid Hr) as (Hn1 & Hok1 & (l & h & Hs1 & _) & Hsnap).
  destruct (to_open n Hok1 k _ Hi) as (m & Hm & Hkm). cbn [in_txn_id] in Hm.
  destruct (txn_commit_spec h n id m Hn1 Hok1 (has_room_stores _ _ _ Hs1 (Hroom h Hs1)) Hm) as [[E _]|[Hnc _]]; [done|].
  destruct (Hnc k Hkm) as [_ Hold]. apply (newest_bound 0 h n k _ Hs1) in Hold.
  rewrite (latest_committed_seq_eq 0 h n k Hs1) in Hl. injection Hl as Hl. rewrite Hl, (Hsnap m Hm) in Hold. lia.
Qed.

End TxnProps.

(** ** A run *)

Lemma fresh_txns_ok : txns_ok fresh_node.
Proof. split; intros *; unfold fresh_node, TxnTables_new; cbn [txn txns intents]; by rewrite lookup_empty. Qed.

Abbreviation run := (run_call still).

Definition has_roomb (r : N) (e : Engine (list SstEntry)) : bool :=
  (table_size (mem_versions (memtable e)) + r <? 2 ^ 30) && (seq_limit e + r <? 2 ^ 64).

(** What a call writes on a node without indexes. *)
Definition plain_writes (c : call) (n : Node (T:=list SstEntry)) : log :=
  match c with
  | CCommit id => commit_writes id (txn n)
  | CPut k v _ => [(k, Some v)]
  | CDelete k _ => [(k, None)]
  | _ => []
  end.

Lemma plain_call_ok c (n : Node (T:=list SstEntry)) :
  bool_decide (indexes n = []) && (next_txn_id (txn n) <? u64_max) && has_roomb (plan_cost (plain_writes c n)) (core n) = true →
  call_bytes c → call_ok still c n.
Proof.
  intros E Hb. apply andb_true_iff in E as [[Hi Hn]%andb_true_iff [H1 H2]%andb_true_iff].
  apply bool_decide_eq_true in Hi. apply N.ltb_lt in Hn, H1, H2. split_and!; [done|done|]. intros h _.
  assert (call_plan c n (cells h) = plain_writes c n) as ->; [|done].
  destruct c; cbn [call_plan plain_writes]; rewrite ?Hi; try done.
  - apply plain_mutations.
  - apply (plain_mutation (k, None)).
Qed.

(** Transaction 1 stages a write of ["a"]; ["b"] is written meanwhile. *)
Definition busy_node : Node (T:=list SstEntry) :=
  run (CPut [98] [2] None) (run (CTxnPut 1 [97] [1]) (begin_txn fresh_node).2).

Lemma busy_runs : runs still (begin_txn fresh_node).2 busy_node.
Proof.
  apply (runs_cons _ (CTxnPut 1 [97] [1])); [apply plain_call_ok; [by vm_compute|repeat constructor]|].
  apply (runs_cons _ (CPut [98] [2] None)); [apply plain_call_ok; [by vm_compute|repeat constructor]|]. apply runs_nil.
Qed.

Lemma fresh_stores_0 : stores still 0 [] fresh_node.
Proof. by eapply stores_room, fresh_stores. Qed.

Lemma txn_snapshot_reads_witness :
  (txn_get 1 [98] busy_node).1 = Done None ∧ (txn_get 1 [97] busy_node).1 = Done (Some [1]).
Proof.
  split.
  - eapply (proj1 (txn_snapshot_reads still fresh_node busy_node [] [98] (mkTxnMeta 0 {[ [97] ]}) fresh_node_ok fresh_txns_ok
      fresh_stores_0 eq_refl busy_runs ltac:(by vm_compute))).
  - eapply (proj1 (txn_snapshot_reads still fresh_node busy_node [] [97] (mkTxnMeta 0 {[ [97] ]}) fresh_node_ok fresh_txns_ok
      fresh_stores_0 eq_refl busy_runs ltac:(by vm_compute))).
Defined.

Lemma txn_first_committer_wins_witness :
  ∃ h', stores still 0 h' (txn_commit still 1 busy_node).2 ∧ look [97] (cells h') = Some [1].
Proof.
  destruct (txn_first_committer_wins still fresh_node busy_node [] 2 fresh_node_ok fresh_txns_ok fresh_stores_0 eq_refl busy_runs)
    as (since & h & h' & _ & _ & Hs & Hw & _).
  - apply plain_call_ok; [by vm_compute|done].
  - by vm_compute.
  - exists h'. split; [done|]. apply Hw. by vm_compute.
Defined.

Definition racing_node : Node (T:=list SstEntry) := run (CPut [97] [3] None) busy_node.

Lemma runs_snoc c n n' : runs still n n' → call_ok (T:=list SstEntry) still c n' → runs still n (run c n').
Proof. induction 1; intros Hc; econstructor; eauto using runs_nil. Qed.

Lemma txn_conflict_detected_witness : txn_commit still 1 racing_node = (Failed TxnConflict, racing_node).
Proof.
  apply (txn_conflict_detected still fresh_node racing_node [] [97] (Some [1]) 2 fresh_node_ok fresh_txns_ok fresh_stores_0 eq_refl).
  - apply runs_snoc; [apply busy_runs|]. apply plain_call_ok; [by vm_compute|repeat constructor].
  - apply plain_call_ok; [by vm_compute|done].
  - by vm_compute.
  - by vm_compute.
  - by vm_compute.
Defined.
