(* ===== verification/Txn2pc.v ===== *)
(** The durable records of two-phase commit, [kaya-engine/src/txn2pc.rs]. *)
From stdpp Require Import gmap.
From S2P Require Import Prelude Bytes Core Hlc OrdMap Path Disk WalCodec WalWriter InternalKey SstBlock Memtable Manifest Compaction Engine EngineStore Index Cdc Node Txn.

Open Scope N_scope.

(** ** Keys and values *)

Definition TXN_REC_PREFIX : bytes := 0 :: str "txn/rec/".
Definition TXN_INTENT_PREFIX : bytes := 0 :: str "txn/intent/".
Definition TXN_DEC_PREFIX : bytes := 0 :: str "txn/dec/".

Definition DECISION_ABORT : N := 0.
Definition DECISION_COMMIT : N := 1.
Definition INTENT_DELETE : N := 0.
Definition INTENT_PUT : N := 1.

Inductive Txn2pcState : Type := Preparing | Prepared | Committed | Aborted | Committing.

#[export] Instance Txn2pcState_eq_dec : EqDecision Txn2pcState.
Proof. solve_decision. Defined.

Definition as_byte (s : Txn2pcState) : N :=
  match s with Preparing => 1 | Prepared => 2 | Committed => 3 | Aborted => 4 | Committing => 5 end.

Definition from_byte (b : N) : result KayaError Txn2pcState :=
  match b with
  | 1 => Ok Preparing
  | 2 => Ok Prepared
  | 3 => Ok Committed
  | 4 => Ok Aborted
  | 5 => Ok Committing
  | other => Err (Corruption ("unknown 2PC txn state byte " +:+ pretty other))
  end.

Definition state_name (s : Txn2pcState) : string :=
  match s with
  | Preparing => "Preparing"
  | Prepared => "Prepared"
  | Committed => "Committed"
  | Aborted => "Aborted"
  | Committing => "Committing"
  end.

Definition encode_rec_key (txn_id : N) : bytes := TXN_REC_PREFIX ++ be_bytes 8 txn_id.
Definition encode_intent_key (txn_id : N) (user_key : bytes) : bytes :=
  TXN_INTENT_PREFIX ++ be_bytes 8 txn_id ++ [47] ++ user_key.
Definition encode_dec_key (txn_id : N) : bytes := TXN_DEC_PREFIX ++ be_bytes 8 txn_id.
Definition encode_intent_scan_prefix (txn_id : N) : bytes := TXN_INTENT_PREFIX ++ be_bytes 8 txn_id ++ [47].

Definition user_key_from_intent_key (txn_id : N) (intent_key : bytes) : option bytes :=
  strip_prefix (encode_intent_scan_prefix txn_id) intent_key.

Definition parse_rec_txn_id (key : bytes) : option N :=
  if negb (lenN key =? lenN TXN_REC_PREFIX + 8) then None
  else if negb (starts_with TXN_REC_PREFIX key) then None
  else Some (be_val (drop (length TXN_REC_PREFIX) key)).

Record Txn2pcRecoveryStats := mkRecoveryStats {
  rs_aborted : N;
  rs_finished_commits : N;
  rs_undecided_prepared : list N
}.

Definition encode_intent_value (value : option bytes) : bytes :=
  match value with Some v => INTENT_PUT :: v | None => [INTENT_DELETE] end.

Definition decode_intent_value (raw : bytes) : result KayaError (option bytes) :=
  match raw with
  | [] => Err (Corruption "empty 2PC intent value")
  | tag :: rest =>
      if tag =? INTENT_DELETE then
        if negb (lenN raw =? 1) then Err (Corruption "2PC delete intent must be a single-byte tombstone")
        else Ok None
      else if tag =? INTENT_PUT then Ok (Some rest)
      else Err (Corruption ("unknown 2PC intent tag " +:+ pretty tag))
  end.

(** ** Participants *)

Section Txn2pc.
Context {T : Type} `{SstFormat T} (env : N → N * N * N).

Abbreviation Node := (Node (T:=T)).
Abbreviation task := (task (T:=T)).

Definition read_txn_decision (txn_id : N) : task (option bool) :=
  v ← get_latest (encode_dec_key txn_id);
  match v with
  | Some (b :: _) =>
      if b =? DECISION_COMMIT then mret (Some true)
      else if b =? DECISION_ABORT then mret (Some false)
      else failed (Corruption ("unknown 2PC decision byte " +:+ pretty b))
  | Some [] => failed (Corruption "empty 2PC decision value")
  | None => mret None
  end.

Definition read_txn2pc_state (txn_id : N) : task (option Txn2pcState) :=
  v ← get_latest (encode_rec_key txn_id);
  match v with
  | Some (b :: _) => s ← of_result (from_byte b); mret (Some s)
  | Some [] => failed (Corruption "empty 2PC rec value")
  | None => mret None
  end.

Definition write_rec (txn_id : N) (s : Txn2pcState) : task unit :=
  _ ← write env (encode_rec_key txn_id) (Some [as_byte s]) None;
  mret tt.

Definition write_intent (txn_id : N) (m : bytes * option bytes) : task unit :=
  if bool_decide (m.1 = []) then failed (InvalidArgument "2PC prepare mutation key must not be empty")
  else if is_txn_system_key m.1 || is_index_system_key m.1 then
    failed (InvalidArgument "2PC prepare mutations must not target system keys")
  else
    _ ← write env (encode_intent_key txn_id m.1) (Some (encode_intent_value m.2)) None;
    mret tt.

Definition apply_txn_prepare (txn_id : N) (mutations : list (bytes * option bytes)) : task unit :=
  _ ← write_rec txn_id Preparing;
  _ ← each (write_intent txn_id) mutations;
  write_rec txn_id Prepared.

(** One intent of the scan. *)
Definition decode_intent (txn_id : N) (kv : bytes * bytes) : result KayaError (bytes * option bytes) :=
  match user_key_from_intent_key txn_id kv.1 with
  | None => Err (Corruption ("intent key missing txn " +:+ pretty txn_id +:+ " prefix: " +:+ debug_bytes kv.1))
  | Some user_key => value ← decode_intent_value kv.2; Ok (user_key, value)
  end.

Fixpoint decode_intents (txn_id : N) (rows : list (bytes * bytes)) : result KayaError (list (bytes * option bytes)) :=
  match rows with
  | [] => Ok []
  | kv :: rows => m ← decode_intent txn_id kv; ms ← decode_intents txn_id rows; Ok (m :: ms)
  end.

Definition load_durable_intents (txn_id : N) : task (list (bytes * option bytes)) :=
  rows ← scan (encode_intent_scan_prefix txn_id);
  of_result (decode_intents txn_id rows).

Definition clear_durable_intents (txn_id : N) : task unit :=
  rows ← scan (encode_intent_scan_prefix txn_id);
  each (λ kv, _ ← write env kv.1 None None; mret tt) rows.

(** From the record [Committing] on. *)
Definition materialize (txn_id : N) : task unit :=
  mutations ← load_durable_intents txn_id;
  _ ← (if bool_decide (mutations = []) then mret tt
       else (_ ← apply_mutations env mutations None; mret tt));
  _ ← clear_durable_intents txn_id;
  write_rec txn_id Committed.

Definition apply_txn_commit_2pc (txn_id : N) : task unit :=
  s ← read_txn2pc_state txn_id;
  match s with
  | Some Committed => mret tt
  | Some Aborted => failed (InvalidArgument ("cannot commit aborted 2PC txn " +:+ pretty txn_id))
  | Some Committing => materialize txn_id
  | Some Preparing | Some Prepared | None => _ ← write_rec txn_id Committing; materialize txn_id
  end.

Definition apply_txn_abort_2pc (txn_id : N) : task unit :=
  s ← read_txn2pc_state txn_id;
  match s with
  | Some Aborted => mret tt
  | Some (Committed as s) | Some (Committing as s) =>
      failed (InvalidArgument ("cannot abort " +:+ state_name s +:+ " 2PC txn " +:+ pretty txn_id))
  | Some Preparing | Some Prepared | None =>
      _ ← clear_durable_intents txn_id;
      write_rec txn_id Aborted
  end.

Definition resolve_local_2pc_record (txn_id : N) (commit : bool) : task unit :=
  s ← read_txn2pc_state txn_id;
  match s with
  | Some Preparing | Some Prepared =>
      if commit then apply_txn_commit_2pc txn_id else apply_txn_abort_2pc txn_id
  | _ => mret tt
  end.

Definition apply_txn_decision (txn_id : N) (commit : bool) : task unit :=
  d ← read_txn_decision txn_id;
  _ ← match d with
      | Some prev =>
          if negb (eqb prev commit) then
            failed (InvalidArgument ("2PC decision for txn " +:+ pretty txn_id +:+ " already durable as "
                                     +:+ (if prev then "commit" else "abort") +:+ " — cannot flip"))
          else mret tt
      | None =>
          _ ← write env (encode_dec_key txn_id) (Some [if commit then DECISION_COMMIT else DECISION_ABORT]) None;
          mret tt
      end;
  resolve_local_2pc_record txn_id commit.

(** ** Recovery *)

Definition count_aborted (s : Txn2pcRecoveryStats) : Txn2pcRecoveryStats :=
  mkRecoveryStats (sat_add u32_max (rs_aborted s) 1) (rs_finished_commits s) (rs_undecided_prepared s).
Definition count_finished (s : Txn2pcRecoveryStats) : Txn2pcRecoveryStats :=
  mkRecoveryStats (rs_aborted s) (sat_add u32_max (rs_finished_commits s) 1) (rs_undecided_prepared s).
Definition count_undecided (txn_id : N) (s : Txn2pcRecoveryStats) : Txn2pcRecoveryStats :=
  mkRecoveryStats (rs_aborted s) (rs_finished_commits s) (rs_undecided_prepared s ++ [txn_id]).

(** One record of the recovery's scan, in the state the scan found. *)
Definition recover_one (txn_id : N) (state : Txn2pcState) (stats : Txn2pcRecoveryStats) : task Txn2pcRecoveryStats :=
  match state with
  | Preparing | Prepared =>
      d ← read_txn_decision txn_id;
      match d with
      | Some true => _ ← apply_txn_commit_2pc txn_id; mret (count_finished stats)
      | Some false => _ ← apply_txn_abort_2pc txn_id; mret (count_aborted stats)
      | None =>
          if bool_decide (state = Preparing) then
            _ ← apply_txn_abort_2pc txn_id; mret (count_aborted stats)
          else mret (count_undecided txn_id stats)
      end
  | Committing => _ ← apply_txn_commit_2pc txn_id; mret (count_finished stats)
  | Committed | Aborted => mret stats
  end.

Fixpoint recover_rows (rows : list (bytes * bytes)) (stats : Txn2pcRecoveryStats) : task Txn2pcRecoveryStats :=
  match rows with
  | [] => mret stats
  | (key, value) :: rows =>
      match parse_rec_txn_id key, value with
      | Some txn_id, b :: _ =>
          state ← of_result (from_byte b);
          stats ← recover_one txn_id state stats;
          recover_rows rows stats
      | _, _ => recover_rows rows stats
      end
  end.

Definition recover_incomplete_2pc : task Txn2pcRecoveryStats :=
  rows ← scan TXN_REC_PREFIX;
  recover_rows rows (mkRecoveryStats 0 0 []).

Fixpoint undecided_rows (rows : list (bytes * bytes)) : task (list N) :=
  match rows with
  | [] => mret []
  | (key, value) :: rows =>
      match parse_rec_txn_id key with
      | Some txn_id =>
          if bool_decide (head value = Some (as_byte Prepared)) then
            d ← read_txn_decision txn_id;
            rest ← undecided_rows rows;
            mret (match d with None => txn_id :: rest | Some _ => rest end)
          else undecided_rows rows
      | None => undecided_rows rows
      end
  end.

Definition undecided_prepared_txns : task (list N) :=
  rows ← scan TXN_REC_PREFIX;
  undecided_rows rows.

End Txn2pc.
