(* ===== verification/Txn2pcProps.v ===== *)
(** Two-phase commit on one participant: prepare is invisible, commit is atomic
    and resumable, abort leaves user keys alone, decisions are final, recovery
    closes what it may. *)
From stdpp Require Import gmap.
From S2P Require Import Prelude Bytes Core Hlc OrdMap Path Disk WalCodec WalWriter InternalKey Memtable Manifest Compaction SstBlock SstSpec Engine EngineReads EngineScan EngineStore Index Cdc Node NodeStore Txn NodePlans Txn2pc.

Open Scope N_scope.

(** ** Keys *)

Abbreviation intent_prefix := encode_intent_scan_prefix.

Lemma starts_with_weaken p q k : starts_with p q = true → starts_with q k = true → starts_with p k = true.
Proof. rewrite !starts_with_spec. intros ? ?. by etrans. Qed.

Lemma intent_prefix_system id : starts_with TXN_SYS_PREFIX (intent_prefix id) = true.
Proof. done. Qed.

(** Keys outside the reserved space of two-phase commit. *)
Lemma outside_intents id k : is_txn_system_key k = false → starts_with (intent_prefix id) k = false.
Proof.
  intros Hk. apply not_true_iff_false. intros Hs. unfold is_txn_system_key in Hk.
  by rewrite (starts_with_weaken _ _ _ (intent_prefix_system id) Hs) in Hk.
Qed.

Lemma index_not_txn k : is_index_system_key k = true → is_txn_system_key k = false.
Proof.
  unfold is_index_system_key, is_txn_system_key. rewrite starts_with_spec. intros [s ->]. done.
Qed.

Lemma reject_txn k : reject_if_system_key k = Ok tt → is_txn_system_key k = false.
Proof. unfold reject_if_system_key. destruct (is_index_system_key k); [done|]. by destruct (is_txn_system_key k). Qed.

Lemma be8_inj a b : a < 2 ^ 64 → b < 2 ^ 64 → be_bytes 8 a = be_bytes 8 b → a = b.
Proof. intros Ha Hb E. rewrite <-(be_val_be_bytes 8 a), E, be_val_be_bytes by done. done. Qed.

Lemma intent_prefix_other id id' k :
  id < 2 ^ 64 → id' < 2 ^ 64 → id ≠ id' → starts_with (intent_prefix id) (intent_prefix id' ++ k) = false.
Proof.
  intros Hi Hi' Hne. apply not_true_iff_false. rewrite starts_with_spec. intros [s E].
  unfold encode_intent_scan_prefix in E. rewrite <-!app_assoc in E. apply app_inv_head in E.
  apply app_inj_1 in E as [E _]; [|by rewrite !length_be_bytes]. by apply be8_inj in E.
Qed.

Lemma rec_not_intent id id' : starts_with (intent_prefix id) (encode_rec_key id') = false.
Proof. done. Qed.

Lemma dec_not_intent id id' : starts_with (intent_prefix id) (encode_dec_key id') = false.
Proof. done. Qed.

Lemma rec_key_inj id id' : id < 2 ^ 64 → id' < 2 ^ 64 → encode_rec_key id = encode_rec_key id' → id = id'.
Proof. intros ? ? E%app_inv_head. by apply be8_inj. Qed.

Lemma parse_rec_key id : id < 2 ^ 64 → parse_rec_txn_id (encode_rec_key id) = Some id.
Proof.
  intros Hid. unfold parse_rec_txn_id, encode_rec_key.
  assert (lenN (TXN_REC_PREFIX ++ be_bytes 8 id) = lenN TXN_REC_PREFIX + 8) as ->
    by (unfold lenN; rewrite length_app, length_be_bytes; lia). rewrite N.eqb_refl. cbn [negb].
  rewrite (proj2 (starts_with_spec _ _)) by (by eexists). cbn [negb].
  by rewrite drop_app_length, be_val_be_bytes.
Qed.

Lemma parse_rec_Some key id :
  bytes_ok key → parse_rec_txn_id key = Some id → key = encode_rec_key id ∧ id < 2 ^ 64.
Proof.
  intros Hb. unfold parse_rec_txn_id. destruct (N.eqb_spec (lenN key) (lenN TXN_REC_PREFIX + 8)) as [Hl|]; [|done]. cbn [negb].
  destruct (starts_with TXN_REC_PREFIX key) eqn:E; [|done]. cbn [negb]. intros Hid.
  apply starts_with_spec in E as [s ->]. rewrite drop_app_length in Hid. injection Hid as <-. apply Forall_app in Hb as [_ Hb].
  assert (length s = 8%nat) as Hs by (unfold lenN in Hl; rewrite length_app in Hl; lia).
  split; [unfold encode_rec_key; by rewrite be_bytes_be_val|].
  pose proof (le_val_bound (reverse s)) as Hbd. rewrite length_reverse, Hs in Hbd. apply Hbd. by apply Forall_reverse.
Qed.

Lemma intent_key_eq id k : encode_intent_key id k = intent_prefix id ++ k.
Proof. unfold encode_intent_key, encode_intent_scan_prefix. by rewrite <-!app_assoc. Qed.

Lemma user_key_intent id k : user_key_from_intent_key id (encode_intent_key id k) = Some k.
Proof. rewrite intent_key_eq. apply strip_prefix_app. Qed.

Lemma intent_value_roundtrip v : decode_intent_value (encode_intent_value v) = Ok v.
Proof. by destruct v. Qed.

(** ** The log of a participant *)

Definition rec_of (id : N) (g : log) : option bytes := look (encode_rec_key id) g.
Definition in_state (id : N) (s : Txn2pcState) (g : log) : Prop := rec_of id g = Some [as_byte s].
Definition rows_of (id : N) (g : log) : list (bytes * bytes) := live (intent_prefix id) g.

(** The durable intents. *)
Definition intents_are (id : N) (ms : log) (g : log) : Prop := decode_intents id (rows_of id g) = Ok ms.

(** All of the mutations are visible. *)
Definition visible (ms : log) (g : log) : Prop := ∀ k v, (k, v) ∈ ms → look k g = v.

Lemma from_as_byte s : from_byte (as_byte s) = Ok s.
Proof. by destruct s. Qed.

Lemma decode_intents_rows id rows ms :
  decode_intents id rows = Ok ms → ∀ k v, (k, v) ∈ ms ↔ ∃ raw, (intent_prefix id ++ k, raw) ∈ rows ∧ decode_intent_value raw = Ok v.
Proof.
  revert ms. induction rows as [|[key raw] rows IH]; intros ms; cbn [decode_intents].
  - intros [= <-] k v. rewrite elem_of_nil. split; [done|]. by intros (? & ?%elem_of_nil & _).
  - unfold decode_intent. cbn [fst snd]. unfold user_key_from_intent_key.
    destruct (strip_prefix (intent_prefix id) key) as [uk|] eqn:E; [|done]. apply strip_prefix_Some in E as ->.
    destruct (decode_intent_value raw) as [v0|] eqn:Ev; [|done]. cbn [mbind result_bind].
    destruct (decode_intents id rows) as [ms'|] eqn:Em; [|done]. cbn [mbind result_bind]. intros [= <-] k v.
    rewrite elem_of_cons, (IH ms' eq_refl k v). split.
    + intros [[= -> ->]|(raw' & Hin & Hr)]; [exists raw; split; [by left|done]|]. exists raw'. split; [by right|done].
    + intros (raw' & [[= -> ->]|Hin]%elem_of_cons & Hr); [|right; by exists raw']. left. congruence.
Qed.

(** ** Plans *)

Definition clear_plan (id : N) (g : log) : log := (λ kv, (kv.1, None)) <$> rows_of id g.

Definition materialize_plan (ix : list (bytes * IndexDef)) (id : N) (g : log) : log :=
  match decode_intents id (rows_of id g) with
  | Ok ms => each_plan (mutation_plan ix) ms g ++ clear_plan id g ++ [(encode_rec_key id, Some [as_byte Committed])]
  | Err _ => []
  end.

(** The state the record is read as. *)
Definition state_of (id : N) (g : log) : option Txn2pcState :=
  match rec_of id g with
  | Some (b :: _) => match from_byte b with Ok s => Some s | Err _ => None end
  | _ => None
  end.

Definition commit_plan (ix : list (bytes * IndexDef)) (id : N) (g : log) : log :=
  match state_of id g with
  | Some Committed | Some Aborted => []
  | Some Committing => materialize_plan ix id g
  | _ => let w := (encode_rec_key id, Some [as_byte Committing]) in w :: materialize_plan ix id (w :: g)
  end.

Definition abort_plan (id : N) (g : log) : log :=
  match state_of id g with
  | Some Preparing | Some Prepared | None => clear_plan id g ++ [(encode_rec_key id, Some [as_byte Aborted])]
  | _ => []
  end.

(** Mutations of user keys write nothing under the prefix of two-phase commit. *)
Lemma mutations_outside ix ms g :
  Forall (λ m, reject_if_system_key m.1 = Ok tt) ms →
  Forall (λ x, is_txn_system_key x.1 = false) (each_plan (mutation_plan ix) ms g).
Proof.
  intros Hm. apply each_plan_Forall. intros m g' Hin. destruct (mutation_plan_cons ix m g') as (l & -> & Hl).
  constructor; [apply reject_txn, (proj1 (Forall_forall _ _) Hm m Hin)|].
  eapply Forall_impl; [exact Hl|]. intros x Hx. by eapply index_not_txn, entry_of_system.
Qed.

Lemma outside_prefix id l :
  Forall (λ x : bytes * option bytes, is_txn_system_key x.1 = false) l →
  Forall (λ x, starts_with (intent_prefix id) x.1 = false) l.
Proof. intros Hl. eapply Forall_impl; [exact Hl|]. intros x. apply outside_intents. Qed.

(** ** Commit, on logs *)

Lemma prefix_app_cases {A} (l a b : list A) :
  l `prefix_of` a ++ b → l `prefix_of` a ∨ ∃ l', l = a ++ l' ∧ l' `prefix_of` b.
Proof.
  revert l. induction a as [|x a IH]; intros l Hl; [right; by exists l|]. destruct l as [|y l]; [left; apply prefix_nil|].
  cbn [app] in Hl. pose proof (prefix_cons_inv_1 _ _ _ _ Hl) as ->. apply prefix_cons_inv_2 in Hl.
  destruct (IH l Hl) as [Hp|(l' & -> & Hp)]; [left; by apply prefix_cons|right; by exists l'].
Qed.

Lemma reverse_elem {A} (l : list A) x : x ∈ reverse l → x ∈ l.
Proof. by rewrite elem_of_reverse. Qed.

Lemma prefix_elem {A} (l p : list A) x : l `prefix_of` p → x ∈ l → x ∈ p.
Proof. intros [k ->] Hx. apply elem_of_app. by left. Qed.

Lemma prefix_Forall {A} (P : A → Prop) l p : l `prefix_of` p → Forall P p → Forall P l.
Proof. intros [k ->] [? _]%Forall_app. done. Qed.

(** Writes outside the reserved space keep the records and intents. *)
Lemma outside_rec id l g :
  Forall (λ x, is_txn_system_key x.1 = false) l → rec_of id (reverse l ++ g) = rec_of id g.
Proof.
  intros Hl. apply look_skip. intros (x & Hx & Hin)%list_elem_of_fmap. apply reverse_elem in Hin.
  pose proof (proj1 (Forall_forall _ _) Hl x Hin) as Hf. cbn in Hf. by rewrite <-Hx in Hf.
Qed.

Lemma outside_rows id l g :
  Forall (λ x, is_txn_system_key x.1 = false) l → rows_of id (reverse l ++ g) = rows_of id g.
Proof. intros Hl. apply live_skip. by apply Forall_reverse, outside_prefix. Qed.

(** Clearing removes intents and nothing else. *)
Lemma clear_plan_keys id g : Forall (λ x, starts_with (intent_prefix id) x.1 = true ∧ x.2 = None) (clear_plan id g).
Proof.
  apply Forall_forall. intros x Hx. apply list_elem_of_fmap in Hx as ([k v] & -> & Hkv).
  apply live_elem in Hkv as [Hk _]. done.
Qed.

Lemma clear_look id l g k :
  l `prefix_of` clear_plan id g → starts_with (intent_prefix id) k = false → look k (reverse l ++ g) = look k g.
Proof.
  intros Hl Hk. apply look_skip. intros (x & -> & Hin)%list_elem_of_fmap. apply reverse_elem in Hin.
  eapply prefix_elem in Hin; [|exact Hl]. pose proof (proj1 (Forall_forall _ _) (clear_plan_keys id g) x Hin) as [Hf _].
  by rewrite Hk in Hf.
Qed.

Lemma clear_rows id l g x : l `prefix_of` clear_plan id g → x ∈ rows_of id (reverse l ++ g) → x ∈ rows_of id g ∧ x.1 ∉ l.*1.
Proof.
  destruct x as [k v]. intros Hl [Hp Hk]%live_elem. cbn [fst]. destruct (decide (k ∈ l.*1)) as [Hin|Hin].
  - exfalso. apply list_elem_of_fmap in Hin as ([b w] & Hb & Hin). cbn [fst] in Hb. subst b.
    assert (∀ w', (k, w') ∈ l → w' = None) as Hnone.
    { intros w' Hw'. eapply prefix_elem in Hw'; [|exact Hl].
      by destruct (proj1 (Forall_forall _ _) (clear_plan_keys id g) _ Hw') as [_ ?]. }
    assert (w = None) as -> by (by apply Hnone). rewrite (look_agree (reverse l) g k None) in Hk; [done| |by apply elem_of_reverse].
    intros v' Hv'%reverse_elem. by apply Hnone.
  - split; [|done]. apply live_elem. split; [done|]. rewrite look_skip in Hk; [done|].
    intros (y & -> & Hy)%list_elem_of_fmap. apply Hin. apply list_elem_of_fmap_2. by apply elem_of_reverse.
Qed.

Lemma clear_all id g : rows_of id (reverse (clear_plan id g) ++ g) = [].
Proof.
  destruct (rows_of id (reverse (clear_plan id g) ++ g)) as [|x rows] eqn:E; [done|]. exfalso.
  destruct (clear_rows id (clear_plan id g) g x) as [Hx Hno]; [done|rewrite E; by left|]. apply Hno.
  unfold clear_plan. rewrite <-list_fmap_compose. by apply list_elem_of_fmap_2.
Qed.

Lemma decode_sub id rows ms rows' :
  decode_intents id rows = Ok ms → (∀ x, x ∈ rows' → x ∈ rows) → ∃ ms', decode_intents id rows' = Ok ms' ∧ ∀ x, x ∈ ms' → x ∈ ms.
Proof.
  intros Hd Hsub. assert (∀ x, x ∈ rows → ∃ m, decode_intent id x = Ok m ∧ m ∈ ms) as Hone.
  { clear Hsub. revert ms Hd. induction rows as [|r rows IH]; intros ms; cbn [decode_intents]; [by intros _ ? ?%elem_of_nil|].
    destruct (decode_intent id r) as [m|] eqn:Em; [|done]. cbn [mbind result_bind].
    destruct (decode_intents id rows) as [ms0|] eqn:E0; [|done]. cbn [mbind result_bind]. intros [= <-] x [->|Hx]%elem_of_cons.
    - exists m. split; [done|by left].
    - destruct (IH ms0 eq_refl x Hx) as (m' & Hm' & Hin). exists m'. split; [done|by right]. }
  induction rows' as [|r rows' IH]; cbn [decode_intents]; [exists []; split; [done|]; by intros ? ?%elem_of_nil|].
  destruct (Hone r) as (m & -> & Hm); [apply Hsub; by left|]. cbn [mbind result_bind].
  destruct IH as (ms' & -> & Hms'); [intros x Hx; apply Hsub; by right|]. cbn [mbind result_bind].
  exists (m :: ms'). split; [done|]. by intros x [->|Hx]%elem_of_cons; [|apply Hms'].
Qed.

(** The stages of a commit of the mutations [ms]. *)
Definition pending (id : N) (ms g : log) : Prop :=
  (in_state id Prepared g ∨ in_state id Committing g) ∧ intents_are id ms g.
Definition finishing (id : N) (ms g : log) : Prop :=
  in_state id Committing g ∧ visible ms g ∧ ∃ ms', intents_are id ms' g ∧ ∀ x, x ∈ ms' → x ∈ ms.
Definition committed (id : N) (ms g : log) : Prop :=
  in_state id Committed g ∧ visible ms g ∧ rows_of id g = [].
Definition in_commit (id : N) (ms g : log) : Prop := pending id ms g ∨ finishing id ms g ∨ committed id ms g.

Lemma in_state_of id s g : in_state id s g → state_of id g = Some s.
Proof. unfold in_state, state_of. intros ->. by rewrite from_as_byte. Qed.

(** Mutations of user keys, each key once. *)
Definition user_writes (ms : log) : Prop :=
  Forall (λ m, reject_if_system_key m.1 = Ok tt) ms ∧ ∀ k v v', (k, v) ∈ ms → (k, v') ∈ ms → v = v'.

(** User keys that are none of the mutations'. *)
Definition other_key (ms : log) (k : bytes) : Prop := reject_if_system_key k = Ok tt ∧ k ∉ ms.*1.

Lemma user_writes_sub ms ms' : user_writes ms → (∀ x, x ∈ ms' → x ∈ ms) → user_writes ms'.
Proof.
  intros [Hr Hf] Hs. split; [|eauto]. apply Forall_forall. intros x Hx.
  apply (proj1 (Forall_forall _ _) Hr x (Hs x Hx)).
Qed.

(** A prefix of the plan of a batch shows a prefix of the batch. *)
Lemma batch_prefix ix ms l g :
  user_writes ms → l `prefix_of` each_plan (mutation_plan ix) ms g →
  ∃ u, u `prefix_of` ms ∧ (l = each_plan (mutation_plan ix) ms g → u = ms) ∧
    ∀ k, reject_if_system_key k = Ok tt → look k (reverse l ++ g) = look k (reverse u ++ g).
Proof.
  intros [Hr _] Hl. assert (user (each_plan (mutation_plan ix) ms g) = ms) as Hu.
  { apply user_mutations. eapply Forall_impl; [exact Hr|]. intros x. apply reject_index. }
  exists (user l). split_and!.
  - rewrite <-Hu. by apply user_prefix.
  - by intros ->.
  - intros k Hk. by apply look_user, reject_index.
Qed.

Lemma visible_keep ms u g : user_writes ms → (∀ x, x ∈ u → x ∈ ms) → visible ms g → visible ms (reverse u ++ g).
Proof.
  intros [_ Hf] Hu Hv k v Hkv. destruct (decide (k ∈ (reverse u).*1)) as [Hin|Hin].
  - apply list_elem_of_fmap in Hin as ([k' w] & E & Hin). cbn [fst] in E. subst k'.
    assert (w = v) as -> by (apply (Hf k); [by apply Hu, reverse_elem|done]).
    apply look_agree; [|done]. intros v' Hv'%reverse_elem. by apply (Hf k); [apply Hu|].
  - rewrite look_skip by done. by apply Hv.
Qed.

Lemma visible_all ms g : user_writes ms → visible ms (reverse ms ++ g).
Proof.
  intros [_ Hf] k v Hkv. apply look_agree; [|by apply elem_of_reverse]. intros v' Hv'%reverse_elem. by apply (Hf k).
Qed.

Lemma visible_look ms g g' :
  user_writes ms → (∀ k, reject_if_system_key k = Ok tt → look k g' = look k g) → visible ms g → visible ms g'.
Proof.
  intros [Hr _] Hl Hv k v Hkv. rewrite Hl; [by apply Hv|]. by apply (proj1 (Forall_forall _ _) Hr _ Hkv).
Qed.

Lemma user_outside_intents id k : reject_if_system_key k = Ok tt → starts_with (intent_prefix id) k = false.
Proof. intros Hk. by apply outside_intents, reject_txn. Qed.

Lemma user_not_rec id k : reject_if_system_key k = Ok tt → k ≠ encode_rec_key id.
Proof. intros Hk%reject_txn ->. done. Qed.

(** What a stopped commit leaves. *)
Definition commit_result (id : N) (ms g g' : log) : Prop :=
  in_commit id ms g' ∧ ∀ k, other_key ms k → look k g' = look k g.

Section Materialize.
Context (ix : list (bytes * IndexDef)) (id : N) (ms ms' g : log).
Context (Hu : user_writes ms) (Hst : in_state id Committing g) (Hi : intents_are id ms' g).
Context (Hsub : ∀ x, x ∈ ms' → x ∈ ms) (Hor : ms' = ms ∨ visible ms g).

Let batch := each_plan (mutation_plan ix) ms' g.

Lemma batch_outside l : l `prefix_of` batch → Forall (λ x, is_txn_system_key x.1 = false) l.
Proof. intros Hl. eapply prefix_Forall; [exact Hl|]. apply mutations_outside, (user_writes_sub _ _ Hu Hsub). Qed.

Lemma batch_other l k : l `prefix_of` batch → other_key ms k → look k (reverse l ++ g) = look k g.
Proof.
  intros Hl [Hk Hno]. destruct (batch_prefix ix ms' l g (user_writes_sub _ _ Hu Hsub) Hl) as (u & Hpre & _ & ->); [|done].
  apply look_skip. intros ([k' w] & -> & Hin)%list_elem_of_fmap. apply Hno.
  by eapply list_elem_of_fmap_2, Hsub, prefix_elem, reverse_elem.
Qed.

(** Stopped in the batch. *)
Lemma stopped_in_batch l : l `prefix_of` batch → commit_result id ms g (reverse l ++ g).
Proof.
  intros Hl. pose proof (batch_outside l Hl) as Hout. split; [|intros; by apply batch_other].
  assert (in_state id Committing (reverse l ++ g)) as Hst' by (unfold in_state; by rewrite outside_rec).
  assert (intents_are id ms' (reverse l ++ g)) as Hi' by (unfold intents_are; by rewrite outside_rows).
  destruct Hor as [->|Hv]; [left; by split; [right|]|]. right. left. split_and!; [done| |by exists ms'].
  destruct (batch_prefix ix ms' l g (user_writes_sub _ _ Hu Hsub) Hl) as (u & Hpre & _ & Hlook).
  apply (visible_look ms (reverse u ++ g)); [done|done|]. apply visible_keep; [done| |done].
  intros x Hx. by eapply Hsub, prefix_elem.
Qed.

(** After the batch all is visible. *)
Lemma batch_visible : visible ms (reverse batch ++ g).
Proof.
  destruct (batch_prefix ix ms' batch g (user_writes_sub _ _ Hu Hsub)) as (u & _ & Hall & Hlook); [done|].
  specialize (Hall eq_refl). subst u. apply (visible_look ms (reverse ms' ++ g)); [done|done|].
  destruct Hor as [->|Hv]; [by apply visible_all|by apply visible_keep].
Qed.

Let g1 := reverse batch ++ g.

Lemma clear_same : clear_plan id g = clear_plan id g1.
Proof. unfold clear_plan, g1. by rewrite outside_rows by (by apply batch_outside). Qed.

(** Stopped in the clearing. *)
Lemma stopped_in_clear l :
  l `prefix_of` clear_plan id g → finishing id ms (reverse l ++ g1) ∧ ∀ k, other_key ms k → look k (reverse l ++ g1) = look k g.
Proof.
  rewrite clear_same. intros Hl.
  assert (∀ k, reject_if_system_key k = Ok tt → look k (reverse l ++ g1) = look k g1) as Hlook.
  { intros k Hk. apply (clear_look id); [done|by apply user_outside_intents]. }
  split; [split_and!|].
  - unfold in_state, rec_of. rewrite (clear_look id) by done. fold (rec_of id g1). unfold g1. by rewrite outside_rec by (by apply batch_outside).
  - apply (visible_look ms g1); [done|done|apply batch_visible].
  - destruct (decode_sub id (rows_of id g1) ms' (rows_of id (reverse l ++ g1))) as (ms2 & Hd & Hs2).
    + unfold g1. by rewrite outside_rows by (by apply batch_outside).
    + intros x Hx. by eapply clear_rows.
    + exists ms2. split; [done|]. intros x Hx. by apply Hsub, Hs2.
  - intros k Hk. rewrite Hlook by apply Hk. by apply batch_other.
Qed.

Lemma materialize_steps l :
  l `prefix_of` materialize_plan ix id g →
  commit_result id ms g (reverse l ++ g) ∧ (l = materialize_plan ix id g → committed id ms (reverse l ++ g)).
Proof.
  unfold materialize_plan. unfold intents_are in Hi. rewrite Hi. fold batch. intros Hl.
  set (w := (encode_rec_key id, Some [as_byte Committed])) in *.
  assert (∀ l', l' `prefix_of` clear_plan id g → commit_result id ms g (reverse (batch ++ l') ++ g)) as Hclear.
  { intros l' Hl'. rewrite reverse_app, <-app_assoc. destruct (stopped_in_clear l' Hl') as [Hf Ho]. split; [by right; left|done]. }
  assert (committed id ms (reverse (batch ++ clear_plan id g ++ [w]) ++ g) ∧
          ∀ k, other_key ms k → look k (reverse (batch ++ clear_plan id g ++ [w]) ++ g) = look k g) as [Hend Hendo].
  { rewrite !reverse_app, reverse_singleton, <-!app_assoc. fold g1.
    destruct (stopped_in_clear (clear_plan id g) (reflexivity _)) as [(_ & Hv & _) Ho]. set (g2 := reverse (clear_plan id g) ++ g1) in *.
    assert (∀ k, reject_if_system_key k = Ok tt → look k ([w] ++ g2) = look k g2) as Hlook.
    { intros k Hk. apply look_skip. intros ->%list_elem_of_singleton. by destruct (user_not_rec id _ Hk). }
    split; [split_and!|].
    - apply look_eq.
    - by apply (visible_look ms g2).
    - unfold rows_of. rewrite live_skip by (by repeat constructor). unfold g2. rewrite clear_same. apply clear_all.
    - intros k Hk. rewrite Hlook by apply Hk. by apply Ho. }
  split; [|by intros ->].
  destruct (prefix_app_cases l batch _ Hl) as [Hb|(l1 & -> & Hl1)]; [by apply stopped_in_batch|].
  destruct (prefix_app_cases l1 (clear_plan id g) _ Hl1) as [Hc|(l2 & -> & Hl2)]; [by apply Hclear|].
  destruct l2 as [|x l2]; [rewrite app_nil_r; by apply Hclear|].
  pose proof (prefix_cons_inv_1 _ _ _ _ Hl2) as ->. apply prefix_cons_inv_2, prefix_nil_inv in Hl2 as ->.
  split; [by right; right|done].
Qed.

End Materialize.

(** Committing again and again, each time up to any point, stays on the way to
    the same outcome; a commit that returns has reached it. *)
Lemma commit_steps ix id ms l g :
  user_writes ms → in_commit id ms g → l `prefix_of` commit_plan ix id g →
  commit_result id ms g (reverse l ++ g) ∧ (l = commit_plan ix id g → committed id ms (reverse l ++ g)).
Proof.
  intros Hu Hc Hl. unfold commit_plan in *. set (w := (encode_rec_key id, Some [as_byte Committing])) in *.
  destruct Hc as [[[Hp|Hp] Hi]|[(Hst & Hv & ms' & Hi & Hsub)|(Hst & Hv & Hr)]].
  - rewrite (in_state_of _ _ _ Hp) in *. cbv zeta in *. destruct l as [|x l].
    { split; [split; [left; by split; [left|]|done]|done]. }
    pose proof (prefix_cons_inv_1 _ _ _ _ Hl) as ->. apply prefix_cons_inv_2 in Hl.
    assert (∀ k, reject_if_system_key k = Ok tt → look k (w :: g) = look k g) as Hlook.
    { intros k Hk. apply (look_skip k [w]). intros ->%list_elem_of_singleton. by destruct (user_not_rec id _ Hk). }
    assert (in_state id Committing (w :: g)) as Hst by apply look_eq.
    assert (intents_are id ms (w :: g)) as Hi'.
    { unfold intents_are, rows_of. change (w :: g) with ([w] ++ g). rewrite live_skip; [done|by repeat constructor]. }
    destruct (materialize_steps ix id ms ms (w :: g) Hu Hst Hi' (λ x Hx, Hx) (or_introl eq_refl) l Hl) as [[Hin Ho] Hend].
    rewrite reverse_cons, <-app_assoc. split; [split; [done|]|by intros [= ->]; apply Hend].
    intros k Hk. etrans; [by apply Ho|]. apply Hlook, Hk.
  - rewrite (in_state_of _ _ _ Hp) in *. by apply (materialize_steps ix id ms ms g Hu Hp Hi (λ x Hx, Hx) (or_introl eq_refl)).
  - rewrite (in_state_of _ _ _ Hst) in *. by apply (materialize_steps ix id ms ms' g Hu Hst Hi Hsub (or_intror Hv)).
  - rewrite (in_state_of _ _ _ Hst) in *. apply prefix_nil_inv in Hl as ->. cbn [reverse rev_append app].
    split; [split; [by right; right|done]|done].
Qed.

(** A commit touches only its own intents under their prefix. *)
Lemma clear_deletes id g : Forall (λ x, starts_with (intent_prefix id) x.1 = true → x.2 = None ∧ x.1 ∈ (under (intent_prefix id) g).*1) (clear_plan id g).
Proof.
  apply Forall_forall. intros x (kv & -> & Hkv)%list_elem_of_fmap _. split; [done|]. destruct kv as [k v].
  apply live_elem in Hkv as [Hp Hk]. apply look_elem in Hk. apply list_elem_of_fmap. exists (k, Some v). split; [done|].
  by apply list_elem_of_filter.
Qed.

Lemma no_deletes (P : bytes * option bytes → Prop) p l :
  Forall (λ x, starts_with p x.1 = false) l → Forall (λ x, starts_with p x.1 = true → P x) l.
Proof. intros Hl. eapply Forall_impl; [exact Hl|]. cbn. intros x ->. done. Qed.

Lemma materialize_deletes ix id ms g :
  intents_are id ms g → user_writes ms →
  Forall (λ x, starts_with (intent_prefix id) x.1 = true → x.2 = None ∧ x.1 ∈ (under (intent_prefix id) g).*1) (materialize_plan ix id g).
Proof.
  intros Hi Hu. unfold materialize_plan. unfold intents_are in Hi. rewrite Hi. repeat (apply Forall_app; split).
  - apply no_deletes, outside_prefix, mutations_outside, Hu.
  - apply clear_deletes.
  - by repeat constructor.
Qed.

Lemma commit_deletes ix id ms g :
  user_writes ms → in_commit id ms g →
  Forall (λ x, starts_with (intent_prefix id) x.1 = true → x.2 = None ∧ x.1 ∈ (under (intent_prefix id) g).*1) (commit_plan ix id g).
Proof.
  intros Hu Hc. unfold commit_plan. set (w := (encode_rec_key id, Some [as_byte Committing])).
  destruct Hc as [[[Hp|Hp] Hi]|[(Hst & Hv & ms' & Hi & Hsub)|(Hst & Hv & Hr)]].
  - rewrite (in_state_of _ _ _ Hp). constructor; [done|]. apply (materialize_deletes ix id ms (w :: g)); [|done].
    unfold intents_are, rows_of. change (w :: g) with ([w] ++ g). rewrite live_skip; [done|by repeat constructor].
  - rewrite (in_state_of _ _ _ Hp). by eapply materialize_deletes.
  - rewrite (in_state_of _ _ _ Hst). eapply materialize_deletes; [done|]. by eapply user_writes_sub.
  - by rewrite (in_state_of _ _ _ Hst).
Qed.

(** ** Abort, on logs *)

Lemma abort_plan_system id g : Forall (λ x, is_txn_system_key x.1 = true) (abort_plan id g).
Proof.
  assert (Forall (λ z, is_txn_system_key z.1 = true) (clear_plan id g ++ [(encode_rec_key id, Some [as_byte Aborted])])) as Hsys.
  { apply Forall_app. split; [|by repeat constructor]. eapply Forall_impl; [apply clear_plan_keys|].
    intros z [Hz _]. exact (starts_with_weaken _ _ _ (intent_prefix_system id) Hz). }
  unfold abort_plan. by destruct (state_of id g) as [[]|].
Qed.

Lemma abort_end id g :
  state_of id g ≠ Some Committed → state_of id g ≠ Some Committing →
  state_of id (reverse (abort_plan id g) ++ g) = Some Aborted ∧
  (state_of id g = Some Aborted ∨ rows_of id (reverse (abort_plan id g) ++ g) = []).
Proof.
  intros H1 H2. set (w := (encode_rec_key id, Some [as_byte Aborted])).
  assert (state_of id (reverse (clear_plan id g ++ [w]) ++ g) = Some Aborted ∧ rows_of id (reverse (clear_plan id g ++ [w]) ++ g) = [])
    as [Ha Hr].
  { rewrite reverse_app, reverse_singleton, <-app_assoc. split; [apply in_state_of, look_eq|].
    unfold rows_of. rewrite live_skip by (by repeat constructor). apply clear_all. }
  unfold abort_plan. fold w. destruct (state_of id g) as [[]|] eqn:E; try done; (split; [done|by right]) || by split; [|left].
Qed.

(** Writes inside the reserved space are invisible. *)
Lemma system_invisible l p g k :
  l `prefix_of` p → Forall (λ x, is_txn_system_key x.1 = true) p → is_txn_system_key k = false →
  look k (reverse l ++ g) = look k g.
Proof.
  intros Hl Hp Hk. apply look_skip. intros (x & -> & Hx)%list_elem_of_fmap. apply reverse_elem in Hx.
  eapply prefix_elem in Hx; [|exact Hl]. pose proof (proj1 (Forall_forall _ _) Hp x Hx) as Hsys.
  cbv beta in Hsys. by rewrite Hk in Hsys.
Qed.

(** ** Prepare, on logs *)

Definition intent_cell (id : N) (m : bytes * option bytes) : bytes * option bytes :=
  (encode_intent_key id m.1, Some (encode_intent_value m.2)).

Definition prepare_plan (id : N) (ms : log) : log :=
  (encode_rec_key id, Some [as_byte Preparing]) :: (intent_cell id <$> ms) ++ [(encode_rec_key id, Some [as_byte Prepared])].

Definition preparable (m : bytes * option bytes) : Prop :=
  m.1 ≠ [] ∧ is_txn_system_key m.1 = false ∧ is_index_system_key m.1 = false.

Lemma preparable_user m : preparable m → reject_if_system_key m.1 = Ok tt.
Proof. intros (_ & Ht & Hi). unfold reject_if_system_key. by rewrite Hi, Ht. Qed.

Lemma prepare_plan_system id ms : Forall (λ x, is_txn_system_key x.1 = true) (prepare_plan id ms).
Proof.
  constructor; [done|]. apply Forall_app. split; [|by repeat constructor]. rewrite Forall_fmap. apply Forall_forall. by intros m _.
Qed.

Lemma intent_key_inj id k k' : encode_intent_key id k = encode_intent_key id k' → k = k'.
Proof. rewrite !intent_key_eq. apply app_inv_head. Qed.

Lemma intent_prefix_key id k : starts_with (intent_prefix id) (encode_intent_key id k) = true.
Proof. rewrite intent_key_eq. apply starts_with_spec. by eexists. Qed.

(** The intents read back as they were written. *)
Lemma look_intent id ms g k :
  look (encode_intent_key id k) (reverse (intent_cell id <$> ms) ++ g) =
    if decide (k ∈ ms.*1) then Some (encode_intent_value (look k (reverse ms))) else look (encode_intent_key id k) g.
Proof.
  induction ms as [|[k' v] ms IH] using rev_ind; [done|]. rewrite fmap_app, !reverse_app. cbn [fmap list_fmap]. unfold intent_cell at 1.
  rewrite !reverse_singleton. cbn [app look fst snd]. destruct (decide (k = k')) as [->|Hne].
  - rewrite decide_True by done. rewrite decide_True; [done|]. rewrite fmap_app, elem_of_app. right. by left.
  - rewrite decide_False by (by intros ?%intent_key_inj). rewrite IH. rewrite fmap_app.
    destruct (decide (k ∈ ms.*1)).
    + rewrite decide_True; [done|]. apply elem_of_app. by left.
    + rewrite decide_False; [done|]. cbn. rewrite elem_of_app, list_elem_of_singleton. tauto.
Qed.

Lemma decode_rows_ok id rows :
  (∀ x, x ∈ rows → ∃ k v, x = (encode_intent_key id k, encode_intent_value v)) → ∃ ms, decode_intents id rows = Ok ms.
Proof.
  induction rows as [|x rows IH]; intros Hr; cbn [decode_intents]; [by eexists|].
  destruct (Hr x) as (k & v & ->); [by left|]. unfold decode_intent. cbn [fst snd].
  rewrite user_key_intent, intent_value_roundtrip. cbn [mbind result_bind].
  destruct IH as (ms & ->); [intros y Hy; apply Hr; by right|]. by eexists.
Qed.

Lemma prepare_rows id ms g x :
  rows_of id g = [] →
  x ∈ rows_of id (reverse (prepare_plan id ms) ++ g) ↔
  ∃ k, k ∈ ms.*1 ∧ x = (encode_intent_key id k, encode_intent_value (look k (reverse ms))).
Proof.
  intros Hno. destruct x as [key raw]. unfold rows_of, prepare_plan. rewrite reverse_cons, reverse_app, reverse_singleton, <-!app_assoc.
  rewrite live_skip by (by repeat constructor). rewrite live_elem.
  set (w1 := (encode_rec_key id, Some [as_byte Preparing])).
  assert (∀ k, look (encode_intent_key id k) ([w1] ++ g) = None) as Hnone.
  { intros k. rewrite look_skip by (by intros ?%list_elem_of_singleton).
    destruct (look (encode_intent_key id k) g) as [v|] eqn:E; [|done].
    assert ((encode_intent_key id k, v) ∈ rows_of id g) as Hin by (apply live_elem; split; [apply intent_prefix_key|done]).
    rewrite Hno in Hin. by apply elem_of_nil in Hin. }
  split.
  - intros [Hk Hl]. apply starts_with_spec in Hk as [k ->]. rewrite <-intent_key_eq, look_intent, Hnone in Hl.
    case_decide; [|done]. injection Hl as <-. exists k. split; [done|]. by rewrite intent_key_eq.
  - intros (k & Hk & [-> ->]%pair_eq). split; [apply intent_prefix_key|]. by rewrite look_intent, decide_True.
Qed.

(** On a log without intents of the transaction, those prepared are the last
    mutation of each key. *)
Lemma prepare_pending id ms g :
  Forall preparable ms → rows_of id g = [] →
  let g' := reverse (prepare_plan id ms) ++ g in
  ∃ ms', pending id ms' g' ∧ user_writes ms' ∧ ∀ k v, (k, v) ∈ ms' ↔ k ∈ ms.*1 ∧ look k (reverse ms) = v.
Proof.
  intros Hp Hno g'. assert (∀ x, x ∈ rows_of id g' ↔ _) as Hrows by (intros x; by apply prepare_rows).
  destruct (decode_rows_ok id (rows_of id g')) as [ms' Hms'].
  { intros x (k & _ & ->)%Hrows. by eexists _, _. }
  assert (∀ k v, (k, v) ∈ ms' ↔ k ∈ ms.*1 ∧ look k (reverse ms) = v) as Hel.
  { intros k v. rewrite (decode_intents_rows _ _ _ Hms'). split.
    - intros (raw & (k' & Hk' & [Hkk ->]%pair_eq)%Hrows & Hv). rewrite intent_value_roundtrip in Hv. injection Hv as <-.
      assert (k = k') as -> by (apply (intent_key_inj id); by rewrite (intent_key_eq id k)). done.
    - intros [Hk <-]. exists (encode_intent_value (look k (reverse ms))). split; [|apply intent_value_roundtrip].
      apply Hrows. exists k. by rewrite intent_key_eq. }
  exists ms'. split_and!; [|split|done].
  - split; [left|done]. unfold in_state, rec_of, g', prepare_plan. rewrite app_comm_cons, reverse_app. apply look_eq.
  - apply Forall_forall. intros [k v] [Hk _]%Hel. apply list_elem_of_fmap in Hk as (m & -> & Hm).
    apply preparable_user, (proj1 (Forall_forall _ _) Hp m Hm).
  - intros k v v' [_ <-]%Hel [_ <-]%Hel. done.
Qed.

Section Txn2pcProps.
Context {T : Type} `{SstLaws T} (env : N → N * N * N).

Abbreviation Node := (Node (T:=T)).
Abbreviation task := (task (T:=T)).
Abbreviation stores := (stores env).
Abbreviation does := (does env).

Lemma rec_key_bytes id : bytes_ok (encode_rec_key id).
Proof. apply Forall_app. split; [repeat constructor|apply be_bytes_bytes_ok]. Qed.

Lemma intent_key_bytes id k : bytes_ok k → bytes_ok (encode_intent_key id k).
Proof.
  intros Hk. repeat (apply Forall_app; split); [repeat constructor|apply be_bytes_bytes_ok|repeat constructor|done].
Qed.

Lemma does_write_rec id s n h :
  does (write_rec env id s) [(encode_rec_key id, Some [as_byte s])] (λ _ _ _, True) n h.
Proof.
  apply (does_write_unit env). split; [apply rec_key_bytes|]. constructor; [|constructor]. by destruct s.
Qed.

Lemma read_state_eq room h n id :
  stores room h n →
  read_txn2pc_state id n =
    (match rec_of id (cells h) with
     | None => Done None
     | Some [] => Failed (Corruption "empty 2PC rec value")
     | Some (b :: _) => match from_byte b with Ok s => Done (Some s) | Err x => Failed x end
     end, n).
Proof.
  intros Hs. unfold read_txn2pc_state, get_latest, reads, mbind, task_bind. rewrite (stores_look _ _ _ _ Hs). cbn [reply_of].
  unfold rec_of. destruct (look (encode_rec_key id) (cells h)) as [[|b raw]|]; [done| |done].
  unfold of_result. by destruct (from_byte b).
Qed.

(** Reading the record: the rest runs with the state it is in. *)
Lemma does_read_state {B} id (f : option Txn2pcState → task B) plan Q n h :
  does (f (state_of id (cells h))) plan Q n h → does (read_txn2pc_state id ≫= f) plan Q n h.
Proof.
  intros Hf. apply does_stored. intros room Hs. apply does_look; rewrite (read_state_eq room h n id Hs); [done|].
  unfold state_of in Hf. cbn [fst]. destruct (rec_of id (cells h)) as [[|b raw]|]; [done| |by intros ? [= <-]].
  destruct (from_byte b); [by intros ? [= <-]|done].
Qed.

Lemma does_clear id n h :
  scan_fits (limits (core n)) (intent_prefix id) (cells h) →
  does (clear_durable_intents env id) (clear_plan id (cells h)) (λ _ _ _, True) n h.
Proof.
  intros Hfit. apply does_stored. intros room Hs. apply does_scan; [done|]. fold (rows_of id (cells h)). unfold clear_plan.
  assert (∀ g, (λ kv, (kv.1, None)) <$> rows_of id (cells h) = each_plan (λ (kv : bytes * bytes) _, [(kv.1, None)]) (rows_of id (cells h)) g)
    as Heq.
  { intros g. generalize (rows_of id (cells h)) as rows. intros rows. revert g.
    induction rows as [|kv rows IH]; intros g; cbn [each_plan fmap list_fmap app]; [done|]. by rewrite <-IH. }
  rewrite (Heq (cells h)). apply (does_each _ _ (λ _, True)); [done| |done]. intros [k v] n' h' Hkv _. apply (does_write_unit env). split; [|constructor]. cbn [fst].
  apply live_elem in Hkv as [_ Hkv]. apply look_elem in Hkv. by apply (proj1 (Forall_forall _ _) (st_bytes _ _ _ Hs) _ Hkv).
Qed.

Lemma decode_intent_value_bytes raw v : bytes_ok raw → decode_intent_value raw = Ok v → bytes_ok (default [] v).
Proof.
  intros Hb. destruct raw as [|tag rest]; cbn [decode_intent_value]; [done|]. apply Forall_cons in Hb as [_ Hb].
  repeat case_match; intros [= <-]; [constructor|done].
Qed.

Lemma intents_bytes room h n id ms :
  stores room h n → intents_are id ms (cells h) → Forall write_bytes ms.
Proof.
  intros Hs Hi. apply Forall_forall. intros [k v] Hkv. apply (decode_intents_rows _ _ _ Hi) in Hkv as (raw & Hin & Hv).
  apply live_elem in Hin as [_ Hin]. apply look_elem in Hin.
  destruct (proj1 (Forall_forall _ _) (st_bytes _ _ _ Hs) _ Hin) as [Hk Hr]. cbn [fst snd default] in *.
  apply Forall_app in Hk as [_ Hk]. split; [done|]. by eapply decode_intent_value_bytes.
Qed.

Lemma load_eq room h n id :
  stores room h n → scan_fits (limits (core n)) (intent_prefix id) (cells h) →
  load_durable_intents id n = (reply_of (decode_intents id (rows_of id (cells h))), n).
Proof.
  intros Hs Hfit. unfold load_durable_intents, scan, reads, mbind, task_bind. by rewrite (stores_scan _ _ _ _ Hs Hfit).
Qed.

(** The second half of a commit. *)
Lemma does_materialize id n h :
  node_ok n → scan_fits (limits (core n)) (intent_prefix id) (cells h) →
  does (materialize env id) (materialize_plan (indexes n) id (cells h))
    (λ _ _ _, ∃ ms, intents_are id ms (cells h) ∧ Forall (λ m, reject_if_system_key m.1 = Ok tt) ms) n h.
Proof.
  intros Hn Hfit. apply does_stored. intros room Hs. unfold materialize, materialize_plan.
  apply does_look; rewrite (load_eq room h n id Hs Hfit); [done|]. cbn [fst].
  destruct (decode_intents id (rows_of id (cells h))) as [ms|] eqn:E; [|done]. cbn [reply_of]. intros ? [= <-].
  pose proof (intents_bytes room h n id ms Hs E) as Hb.
  eapply does_bind with (P := λ _ n' h', Forall (λ m, reject_if_system_key m.1 = Ok tt) ms).
  { case_bool_decide as Hms; [rewrite Hms; by apply does_ret|]. rewrite <-(app_nil_r (each_plan _ _ _)).
    eapply does_bind; [by apply does_apply_mutations|]. intros a n' h' _ _ Hrej. by apply does_ret. }
  intros _ n1 h1 Hw1 Hu1 Hrej. pose proof (outside_prefix id _ (mutations_outside (indexes n) ms (cells h) Hrej)) as Hout.
  pose proof (wrote_cells _ _ _ _ _ Hw1) as Hc1.
  assert (clear_plan id (cells h) = clear_plan id (cells h1)) as ->.
  { unfold clear_plan, rows_of. rewrite Hc1, live_skip; [done|by apply Forall_reverse]. }
  eapply does_bind; [apply does_clear|].
  - rewrite (upper_limits _ _ Hu1), Hc1. apply scan_fits_skip; [by apply Forall_reverse|done].
  - intros _ n2 h2 _ _ _. eapply does_weaken; [apply does_write_rec|]. intros. by exists ms.
Qed.

(** A commit performs its plan; when it returns without having been committed
    before, the intents were those of user keys. *)
Definition commit_post (id : N) (g : log) : unit → Node → list SstEntry → Prop := λ _ _ _,
  state_of id g = Some Committed ∨
  state_of id g ≠ Some Aborted ∧ ∃ ms, intents_are id ms g ∧ Forall (λ m, reject_if_system_key m.1 = Ok tt) ms.

Lemma does_commit id n h :
  node_ok n → scan_fits (limits (core n)) (intent_prefix id) (cells h) →
  does (apply_txn_commit_2pc env id) (commit_plan (indexes n) id (cells h)) (commit_post id (cells h)) n h.
Proof.
  intros Hn Hfit. unfold apply_txn_commit_2pc, commit_plan. apply does_read_state.
  assert (state_of id (cells h) ≠ Some Aborted → does (write_rec env id Committing ≫= λ _, materialize env id)
    ((encode_rec_key id, Some [as_byte Committing]) :: materialize_plan (indexes n) id ((encode_rec_key id, Some [as_byte Committing]) :: cells h))
    (commit_post id (cells h)) n h) as Hfirst.
  { intros Hst. set (w := (encode_rec_key id, Some [as_byte Committing])) in *. change (w :: ?l) with ([w] ++ l).
    eapply does_bind; [apply does_write_rec|]. intros _ n1 h1 Hw1 Hu1 _. pose proof (wrote_cells _ _ _ _ _ Hw1) as Hc1.
    assert (materialize_plan (indexes n) id (w :: cells h) = materialize_plan (indexes n1) id (cells h1)) as ->
      by (by rewrite Hc1, (upper_indexes _ _ Hu1)).
    eapply does_weaken; [apply does_materialize; [by eapply node_ok_upper|]|].
    - rewrite (upper_limits _ _ Hu1), Hc1. apply scan_fits_skip; [by repeat constructor|done].
    - intros a n2 h2 _ _ (ms & Hi & Hrej). right. split; [done|]. exists ms. split; [|done].
      unfold intents_are, rows_of in *. rewrite Hc1, live_skip in Hi; [done|by repeat constructor]. }
  destruct (state_of id (cells h)) as [[]|] eqn:E.
  - by apply Hfirst.
  - by apply Hfirst.
  - apply does_ret. by left.
  - apply does_failed.
  - eapply does_weaken; [by apply does_materialize|]. intros a n2 h2 _ _ Hms. right. by rewrite E.
  - by apply Hfirst.
Qed.

(** C5: atomic commit. Let a participant have the record of a transaction at [Prepared] or later on the
    way to [Committed], with intents for the user writes [ms], and let the scan of its intents stay
    within the limits of scans ([max_scan_results], [max_scan_bytes]); beyond them the code commits
    a part ([txn2pc_commit_truncated]). Then it stays on that way however a commit of it ends, by
    failing at any write or by never returning; a commit that returns has made all of [ms]
    visible, removed the intents and set [Committed]. Other user keys do not change. The premises
    hold again, so interrupted commits can be resumed any number of times while the memtable and
    the sequences have room. The sequences may come from the counter or from the hybrid clock. *)
Theorem txn2pc_commit_atomic n h id ms :
  node_ok n → stores (plan_cost (commit_plan (indexes n) id (cells h))) h n →
  scan_fits (limits (core n)) (intent_prefix id) (cells h) → user_writes ms → in_commit id ms (cells h) →
  let n' := (apply_txn_commit_2pc env id n).2 in
  ∃ h', stores 0 h' n' ∧ node_ok n' ∧ scan_fits (limits (core n')) (intent_prefix id) (cells h') ∧
    in_commit id ms (cells h') ∧ (∀ k, other_key ms k → look k (cells h') = look k (cells h)) ∧
    ((apply_txn_commit_2pc env id n).1 = Done tt → committed id ms (cells h')).
Proof.
  intros Hn Hs Hfit Hu Hc n'. destruct (does_commit id n h Hn Hfit 0 Hs) as (l & h' & Hl & Hs' & Hw & Hup & Hd).
  destruct (commit_steps (indexes n) id ms l (cells h) Hu Hc Hl) as [[Hin Ho] Hend].
  pose proof (wrote_cells _ _ _ _ _ Hw) as Hcells. fold n' in Hs', Hw, Hup.
  exists h'. rewrite Hcells, (upper_limits _ _ Hup). split_and!; [done|by eapply node_ok_upper| |done|done|].
  - apply scan_fits_deletes; [|done]. eapply prefix_Forall; [exact Hl|]. by eapply commit_deletes.
  - intros Hdone. apply Hend. by apply (Hd tt).
Qed.

(** *** Prepare *)

Lemma encode_intent_value_bytes v : bytes_ok (default [] v) → bytes_ok (encode_intent_value v).
Proof. intros Hv. destruct v; [by constructor|by repeat constructor]. Qed.

Lemma does_write_intents id ms n h :
  Forall write_bytes ms →
  does (each (write_intent env id) ms) (intent_cell id <$> ms) (λ _ _ _, Forall preparable ms) n h.
Proof.
  intros Hb. revert n h. induction Hb as [|m ms [Hk Hv] Hb IH]; intros n h; cbn [each fmap list_fmap]; [by apply does_ret|].
  change (intent_cell id m :: ?l) with ([intent_cell id m] ++ l). apply (does_bind _ _ _ _ (λ _ _ _, preparable m)).
  - unfold write_intent. case_bool_decide as He; [apply does_failed|].
    destruct (is_txn_system_key m.1) eqn:Et; [apply does_failed|]. destruct (is_index_system_key m.1) eqn:Ei; [apply does_failed|].
    cbn [orb]. eapply does_weaken; [apply (does_write_unit env)|by intros; split_and!].
    split; [by apply intent_key_bytes|]. by apply encode_intent_value_bytes.
  - intros _ n' h' _ _ Hm. eapply does_weaken; [apply IH|]. intros a n2 h2 _ _ Hms. by constructor.
Qed.

Lemma does_prepare id ms n h :
  Forall write_bytes ms → does (apply_txn_prepare env id ms) (prepare_plan id ms) (λ _ _ _, Forall preparable ms) n h.
Proof.
  intros Hb. unfold apply_txn_prepare, prepare_plan. set (w := (encode_rec_key id, Some [as_byte Preparing])).
  change (w :: ?l) with ([w] ++ l). eapply does_bind; [apply does_write_rec|]. intros _ n1 h1 _ _ _.
  eapply does_bind; [by apply does_write_intents|]. intros a n2 h2 _ _ Hp.
  eapply does_weaken; [apply does_write_rec|done].
Qed.

(** Prepare is invisible: however it ends, no key outside the reserved space
    changes.  When it returns the record is [Prepared] and the durable intents are
    the last mutation of each key, ready to be committed. *)
Theorem txn2pc_prepare n h id ms :
  stores (plan_cost (prepare_plan id ms)) h n → Forall write_bytes ms → rows_of id (cells h) = [] →
  let n' := (apply_txn_prepare env id ms n).2 in
  ∃ h', stores 0 h' n' ∧ (∀ k, is_txn_system_key k = false → look k (cells h') = look k (cells h)) ∧
    ((apply_txn_prepare env id ms n).1 = Done tt →
     ∃ ms', pending id ms' (cells h') ∧ user_writes ms' ∧ ∀ k v, (k, v) ∈ ms' ↔ k ∈ ms.*1 ∧ look k (reverse ms) = v).
Proof.
  intros Hs Hb Hno n'. destruct (does_prepare id ms n h Hb 0 Hs) as (l & h' & Hl & Hs' & Hw & _ & Hd).
  exists h'. rewrite (wrote_cells _ _ _ _ _ Hw). split_and!; [done| |].
  - intros k Hk. eapply system_invisible; [done|apply prepare_plan_system|done].
  - intros Hdone. destruct (Hd tt Hdone) as [-> Hp]. by apply prepare_pending.
Qed.

(** *** Abort *)

Lemma does_abort id n h :
  scan_fits (limits (core n)) (intent_prefix id) (cells h) →
  does (apply_txn_abort_2pc env id) (abort_plan id (cells h))
    (λ _ _ _, state_of id (cells h) ≠ Some Committed ∧ state_of id (cells h) ≠ Some Committing) n h.
Proof.
  intros Hfit. unfold apply_txn_abort_2pc, abort_plan. apply does_read_state.
  assert (does (clear_durable_intents env id ≫= λ _, write_rec env id Aborted)
    (clear_plan id (cells h) ++ [(encode_rec_key id, Some [as_byte Aborted])]) (λ _ _ _, True) n h) as Hab.
  { eapply does_bind; [by apply does_clear|]. intros. apply does_write_rec. }
  destruct (state_of id (cells h)) as [[]|]; try apply does_failed; try (by apply does_ret);
    (eapply does_weaken; [apply Hab|done]).
Qed.

(** Abort does not touch user keys however it ends; when it returns the record is
    [Aborted] and, unless it was before, no intents are left.  A transaction that
    is committing or committed is refused without a change. *)
Theorem txn2pc_abort n h id :
  stores (plan_cost (abort_plan id (cells h))) h n → scan_fits (limits (core n)) (intent_prefix id) (cells h) →
  let x := apply_txn_abort_2pc env id n in
  (∃ h', stores 0 h' x.2 ∧ (∀ k, is_txn_system_key k = false → look k (cells h') = look k (cells h)) ∧
    (x.1 = Done tt → state_of id (cells h') = Some Aborted ∧ (state_of id (cells h) = Some Aborted ∨ rows_of id (cells h') = []))) ∧
  (in_state id Committing (cells h) ∨ in_state id Committed (cells h) → ∃ e, x = (Failed e, n)).
Proof.
  intros Hs Hfit x. split.
  - destruct (does_abort id n h Hfit 0 Hs) as (l & h' & Hl & Hs' & Hw & _ & Hd). exists h'.
    rewrite (wrote_cells _ _ _ _ _ Hw). split_and!; [done| |].
    + intros k Hk. eapply system_invisible; [done|apply abort_plan_system|done].
    + intros Hdone. destruct (Hd tt Hdone) as [-> [Hn1 Hn2]]. by apply abort_end.
  - intros Hst. unfold x, apply_txn_abort_2pc, mbind, task_bind. rewrite (read_state_eq _ h n id Hs).
    destruct Hst as [Hst|Hst]; unfold in_state in Hst; rewrite Hst; by eexists.
Qed.

End Txn2pcProps.

(** ** A run *)

Definition two_writes : log := [([97], Some [1]); ([98], None)].

Definition prepared_node : Node (T:=list SstEntry) := (apply_txn_prepare running 7 two_writes clocked_node).2.

Lemma two_writes_bytes : Forall write_bytes two_writes.
Proof. by repeat constructor. Qed.

Lemma clocked_room r : r <= 1000000 → stores running r [] clocked_node.
Proof. intros Hr. eapply stores_room, clocked_stores. done. Qed.

(** The participant after the prepare, with its log. *)
Lemma prepared_stores : ∃ h, stores running 100000 h prepared_node ∧ cells h = reverse (prepare_plan 7 two_writes) ∧ node_ok prepared_node.
Proof.
  destruct (does_prepare running 7 two_writes clocked_node [] two_writes_bytes 100000) as (l & h & _ & Hs & Hw & Hu & Hd).
  { apply clocked_room. by vm_compute. }
  destruct (Hd tt) as [-> _]; [by vm_compute|]. exists h. split_and!; [done| |].
  - rewrite (wrote_cells _ _ _ _ _ Hw). apply app_nil_r.
  - eapply node_ok_upper; [exact Hu|apply clocked_node_ok].
Qed.

Lemma two_writes_user : user_writes two_writes.
Proof.
  split; [by repeat constructor|]. intros k v v' H1 H2. unfold two_writes in *. rewrite !elem_of_cons, elem_of_nil in H1, H2.
  by destruct H1 as [[= -> ->]|[[= -> ->]|[]]], H2 as [[= ->]|[[= ->]|[]]].
Qed.

Lemma prepared_fits : scan_fits LimitsConfig_default (intent_prefix 7) (reverse (prepare_plan 7 two_writes)).
Proof. split_and!; by vm_compute. Qed.

Lemma txn2pc_prepare_witness :
  ∃ h, stores running 0 h prepared_node ∧ look [97] (cells h) = None ∧ ∃ ms, pending 7 ms (cells h) ∧ ([98], None) ∈ ms.
Proof.
  destruct (txn2pc_prepare running clocked_node [] 7 two_writes) as (h & Hs & Hl & Hd).
  - apply clocked_room. by vm_compute.
  - apply two_writes_bytes.
  - done.
  - exists h. split_and!; [done|by rewrite Hl|]. destruct Hd as (ms & Hp & _ & Hel); [by vm_compute|]. exists ms. split; [done|].
    apply Hel. by split; [right; left|].
Defined.

Lemma txn2pc_commit_atomic_witness :
  ∃ h, stores running 0 h (apply_txn_commit_2pc running 7 prepared_node).2 ∧ committed 7 two_writes (cells h).
Proof.
  destruct prepared_stores as (h & Hs & Hc & Hn).
  destruct (txn2pc_commit_atomic running prepared_node h 7 two_writes Hn) as (h' & Hs' & _ & _ & _ & _ & Hd).
  - eapply stores_room; [|exact Hs]. rewrite Hc. by vm_compute.
  - rewrite Hc. apply prepared_fits.
  - apply two_writes_user.
  - rewrite Hc. left. split; [by left|by vm_compute].
  - exists h'. split; [done|]. apply Hd. by vm_compute.
Defined.

Lemma txn2pc_abort_witness :
  ∃ h, stores running 0 h (apply_txn_abort_2pc running 7 prepared_node).2 ∧ state_of 7 (cells h) = Some Aborted.
Proof.
  destruct prepared_stores as (h & Hs & Hc & Hn).
  destruct (txn2pc_abort running prepared_node h 7) as [(h' & Hs' & _ & Hd) _].
  - eapply stores_room; [|exact Hs]. rewrite Hc. by vm_compute.
  - rewrite Hc. apply prepared_fits.
  - exists h'. split; [done|]. apply Hd. by vm_compute.
Defined.

(** ** A commit that loses writes *)

(** With more intents than a scan returns, a commit makes only the first visible,
    leaves the rest as intents, and running marks the transaction [Committed]: a
    second commit does nothing, and an abort is refused. *)
Theorem txn2pc_commit_truncated :
  let n := limited_node (mkLimitsConfig 100 100 1 1000) in
  let p := apply_txn_prepare running 7 [([97], Some [1]); ([98], Some [2])] n in
  let c := apply_txn_commit_2pc running 7 p.2 in
  p.1 = Done tt ∧ c.1 = Done tt ∧
  (get_latest [97] c.2).1 = Done (Some [1]) ∧ (get_latest [98] c.2).1 = Done None ∧
  (read_txn2pc_state 7 c.2).1 = Done (Some Committed) ∧
  (get_latest (encode_intent_key 7 [98]) c.2).1 = Done (Some [1; 2]) ∧
  apply_txn_commit_2pc running 7 c.2 = (Done tt, c.2) ∧
  (apply_txn_abort_2pc running 7 c.2).1 = Failed (InvalidArgument "cannot abort Committed 2PC txn 7").
Proof. vm_compute. repeat split. Qed.

(** * Decisions and crash recovery of two-phase commit on one participant. *)

(** ** Logs *)

Definition decision_of (id : N) (g : log) : option bool :=
  match look (encode_dec_key id) g with
  | Some (b :: _) => if b =? DECISION_COMMIT then Some true else if b =? DECISION_ABORT then Some false else None
  | _ => None
  end.

(** The intents are those of user keys, as prepare leaves them. *)
Definition user_intents (id : N) (g : log) : Prop := ∀ ms, intents_are id ms g → user_writes ms.

(** Writes for the transaction [id] and for users. *)
Definition touches (id : N) (x : bytes * option bytes) : Prop :=
  x.1 = encode_rec_key id ∨ starts_with (intent_prefix id) x.1 = true ∨ is_txn_system_key x.1 = false.

Lemma touches_dec id id' x : touches id x → x.1 ≠ encode_dec_key id'.
Proof. intros [->|[Ht|Ht]]; [done| |]; intros E; rewrite E in Ht; done. Qed.

Lemma touches_rec id id' x : id < 2 ^ 64 → id' < 2 ^ 64 → id ≠ id' → touches id x → x.1 ≠ encode_rec_key id'.
Proof.
  intros Hi Hi' Hne [->|[Ht|Ht]]; [by intros ?%rec_key_inj| |]; intros E; rewrite E in Ht; done.
Qed.

Lemma touches_rows id id' x :
  id < 2 ^ 64 → id' < 2 ^ 64 → id ≠ id' → touches id x → starts_with (intent_prefix id') x.1 = false.
Proof.
  intros Hi Hi' Hne [->|[Ht|Ht]]; [done| |by apply outside_intents].
  apply starts_with_spec in Ht as [k ->]. by apply intent_prefix_other.
Qed.

Lemma look_touched (Q : bytes * option bytes → Prop) k l g :
  Forall Q l → (∀ x, Q x → x.1 ≠ k) → look k (reverse l ++ g) = look k g.
Proof.
  intros Hl Hq. apply look_skip. intros (x & -> & Hx)%list_elem_of_fmap. apply reverse_elem in Hx.
  by apply (Hq x (proj1 (Forall_forall _ _) Hl x Hx)).
Qed.

(** What is kept of a transaction. *)
Record same_txn (id : N) (g g' : log) : Prop := {
  sm_rec : rec_of id g' = rec_of id g;
  sm_under : under (intent_prefix id) g' = under (intent_prefix id) g
}.

Lemma same_txn_state id g g' : same_txn id g g' → state_of id g' = state_of id g.
Proof. intros [E _]. unfold state_of. by rewrite E. Qed.

Lemma same_txn_rows id g g' : same_txn id g g' → rows_of id g' = rows_of id g.
Proof. intros [_ E]. unfold rows_of, live. by rewrite E. Qed.

Lemma same_txn_fits lim id g g' : same_txn id g g' → scan_fits lim (intent_prefix id) g → scan_fits lim (intent_prefix id) g'.
Proof. intros [_ E]. unfold scan_fits, live. by rewrite E. Qed.

Lemma same_txn_trans id g1 g2 g3 : same_txn id g1 g2 → same_txn id g2 g3 → same_txn id g1 g3.
Proof. intros [? ?] [? ?]. split; congruence. Qed.

Lemma touches_same id id' l g :
  id < 2 ^ 64 → id' < 2 ^ 64 → id ≠ id' → Forall (touches id) l → same_txn id' g (reverse l ++ g).
Proof.
  intros Hi Hi' Hne Hl. split.
  - eapply look_touched; [exact Hl|]. intros x. by apply touches_rec.
  - rewrite under_app, under_none; [done|]. apply Forall_reverse. eapply Forall_impl; [exact Hl|]. intros x. by apply touches_rows.
Qed.

Lemma touches_decision id id' l g : Forall (touches id) l → decision_of id' (reverse l ++ g) = decision_of id' g.
Proof. intros Hl. unfold decision_of. by rewrite (look_touched (touches id)) by (done || intros x; by apply touches_dec). Qed.

Lemma clear_touches id g : Forall (touches id) (clear_plan id g).
Proof. eapply Forall_impl; [apply clear_plan_keys|]. intros x [Hx _]. right. by left. Qed.

Lemma materialize_touches ix id g : user_intents id g → Forall (touches id) (materialize_plan ix id g).
Proof.
  intros Hu. unfold materialize_plan. destruct (decode_intents id (rows_of id g)) as [ms|] eqn:E; [|done].
  repeat (apply Forall_app; split); [|apply clear_touches|by repeat constructor; left].
  eapply Forall_impl; [apply mutations_outside, (Hu ms E)|]. intros x Hx. by right; right.
Qed.

Lemma user_intents_rec id s g : user_intents id g → user_intents id ((encode_rec_key id, Some [as_byte s]) :: g).
Proof.
  intros Hu ms Hi. apply Hu. unfold intents_are, rows_of in *.
  change (?w :: g) with ([w] ++ g) in Hi. rewrite live_skip in Hi; [done|by repeat constructor].
Qed.

Lemma commit_touches ix id g : user_intents id g → Forall (touches id) (commit_plan ix id g).
Proof.
  intros Hu. unfold commit_plan.
  assert (Forall (touches id) ((encode_rec_key id, Some [as_byte Committing]) ::
    materialize_plan ix id ((encode_rec_key id, Some [as_byte Committing]) :: g))) as Hc.
  { constructor; [by left|]. by apply materialize_touches, user_intents_rec. }
  destruct (state_of id g) as [[]|]; try done. by apply materialize_touches.
Qed.

Lemma abort_touches id g : Forall (touches id) (abort_plan id g).
Proof.
  assert (Forall (touches id) (clear_plan id g ++ [(encode_rec_key id, Some [as_byte Aborted])])) as Hc.
  { apply Forall_app. split; [apply clear_touches|by repeat constructor; left]. }
  unfold abort_plan. by destruct (state_of id g) as [[]|].
Qed.

(** The end of a commit that returned. *)
Lemma materialize_end ix id g ms :
  intents_are id ms g → user_writes ms →
  state_of id (reverse (materialize_plan ix id g) ++ g) = Some Committed ∧
  rows_of id (reverse (materialize_plan ix id g) ++ g) = [].
Proof.
  intros Hi Hu. unfold materialize_plan. unfold intents_are in Hi. rewrite Hi.
  rewrite !reverse_app, reverse_singleton, <-!app_assoc. split; [apply in_state_of, look_eq|].
  unfold rows_of at 1. rewrite live_skip by (by repeat constructor).
  assert (clear_plan id g = clear_plan id (reverse (each_plan (mutation_plan ix) ms g) ++ g)) as ->; [|apply clear_all].
  unfold clear_plan. by rewrite outside_rows by apply mutations_outside, Hu.
Qed.

Lemma commit_end ix id g ms :
  state_of id g ≠ Some Aborted → state_of id g ≠ Some Committed → intents_are id ms g → user_writes ms →
  state_of id (reverse (commit_plan ix id g) ++ g) = Some Committed ∧ rows_of id (reverse (commit_plan ix id g) ++ g) = [].
Proof.
  intros H1 H2 Hi Hu. unfold commit_plan. set (w := (encode_rec_key id, Some [as_byte Committing])).
  assert (state_of id (reverse (w :: materialize_plan ix id (w :: g)) ++ g) = Some Committed ∧
          rows_of id (reverse (w :: materialize_plan ix id (w :: g)) ++ g) = []) as Hw.
  { rewrite reverse_cons, <-app_assoc. apply (materialize_end ix id (w :: g) ms); [|done].
    unfold intents_are, rows_of. change (w :: g) with ([w] ++ g). rewrite live_skip; [done|by repeat constructor]. }
  destruct (state_of id g) as [[]|]; try done. by apply (materialize_end ix id g ms).
Qed.

(** ** Plans *)

Definition resolve_plan (ix : list (bytes * IndexDef)) (id : N) (commit : bool) (g : log) : log :=
  match state_of id g with
  | Some Preparing | Some Prepared => if commit then commit_plan ix id g else abort_plan id g
  | _ => []
  end.

Definition decision_cell (id : N) (commit : bool) : bytes * option bytes :=
  (encode_dec_key id, Some [if commit then DECISION_COMMIT else DECISION_ABORT]).

Definition decision_plan (ix : list (bytes * IndexDef)) (id : N) (commit : bool) (g : log) : log :=
  match decision_of id g with
  | Some prev => if eqb prev commit then resolve_plan ix id commit g else []
  | None => decision_cell id commit :: resolve_plan ix id commit (decision_cell id commit :: g)
  end.

(** What recovery does with a record. *)
Definition one_plan (ix : list (bytes * IndexDef)) (id : N) (s : Txn2pcState) (g : log) : log :=
  match s with
  | Committing => commit_plan ix id g
  | Preparing | Prepared =>
      match decision_of id g with
      | Some true => commit_plan ix id g
      | Some false => abort_plan id g
      | None => if bool_decide (s = Preparing) then abort_plan id g else []
      end
  | Committed | Aborted => []
  end.

Definition row_plan (ix : list (bytes * IndexDef)) (row : bytes * bytes) (g : log) : log :=
  match parse_rec_txn_id row.1, row.2 with
  | Some id, b :: _ => match from_byte b with Ok s => one_plan ix id s g | Err _ => [] end
  | _, _ => []
  end.

(** What recovery makes of a record in the state [s] with the decision [d]. *)
Definition settled (id : N) (s : Txn2pcState) (d : option bool) (g g' : log) : Prop :=
  match s, d with
  | Committed, _ | Aborted, _ | Prepared, None => same_txn id g g'
  | Committing, _ | _, Some true => state_of id g' = Some Committed ∧ rows_of id g' = []
  | _, _ => state_of id g' = Some Aborted ∧ rows_of id g' = []
  end.

Definition in_doubt (id : N) (s : Txn2pcState) (g : log) : list N :=
  if bool_decide (s = Prepared ∧ decision_of id g = None) then [id] else [].

Lemma one_touches ix id s g : user_intents id g → Forall (touches id) (one_plan ix id s g).
Proof.
  intros Hu. pose proof (commit_touches ix id g Hu). pose proof (abort_touches id g).
  destruct s; cbn [one_plan]; try done; (destruct (decision_of id g) as [[]|]; try done); by case_bool_decide.
Qed.

Section Txn2pcRecovery.
Context {T : Type} `{SstLaws T} (env : N → N * N * N).

Abbreviation Node := (Node (T:=T)).
Abbreviation task := (task (T:=T)).
Abbreviation stores := (stores env).
Abbreviation does := (does env).

Lemma read_decision_eq room h n id :
  stores room h n →
  read_txn_decision id n =
    (match look (encode_dec_key id) (cells h) with
     | Some (b :: _) =>
         if b =? DECISION_COMMIT then Done (Some true)
         else if b =? DECISION_ABORT then Done (Some false)
         else Failed (Corruption ("unknown 2PC decision byte " +:+ pretty b))
     | Some [] => Failed (Corruption "empty 2PC decision value")
     | None => Done None
     end, n).
Proof.
  intros Hs. unfold read_txn_decision, get_latest, reads, mbind, task_bind. rewrite (stores_look _ _ _ _ Hs). cbn [reply_of].
  destruct (look (encode_dec_key id) (cells h)) as [[|b raw]|]; [done| |done]. by repeat case_match.
Qed.

Lemma does_read_decision {B} id (f : option bool → task B) plan Q n h :
  does (f (decision_of id (cells h))) plan Q n h → does (read_txn_decision id ≫= f) plan Q n h.
Proof.
  intros Hf. apply does_stored. intros room Hs. apply does_look; rewrite (read_decision_eq room h n id Hs); [done|].
  unfold decision_of in Hf. cbn [fst]. destruct (look _ _) as [[|b raw]|]; [done| |by intros ? [= <-]].
  destruct (b =? DECISION_COMMIT); [by intros ? [= <-]|]. destruct (b =? DECISION_ABORT); [by intros ? [= <-]|done].
Qed.

(** A step that counts its result. *)
Lemma does_count {A B} (m : task A) (f : B) plan P n h :
  does m plan P n h → does (_ ← m; mret f : task B) plan (λ b n' h', b = f ∧ ∃ a, P a n' h') n h.
Proof.
  intros Hm. rewrite <-(app_nil_r plan). eapply does_bind; [exact Hm|]. intros a n' h' _ _ HP. apply does_ret. eauto.
Qed.

Lemma does_recover_commit id s stats n h :
  node_ok n → scan_fits (limits (core n)) (intent_prefix id) (cells h) → user_intents id (cells h) →
  state_of id (cells h) = Some s → s ≠ Committed → s ≠ Aborted →
  does (_ ← apply_txn_commit_2pc env id; mret (count_finished stats)) (commit_plan (indexes n) id (cells h))
    (λ r n' h', rs_undecided_prepared r = rs_undecided_prepared stats ∧
       state_of id (cells h') = Some Committed ∧ rows_of id (cells h') = []) n h.
Proof.
  intros Hn Hfit Hu Hs H1 H2. eapply does_weaken; [by eapply does_count, does_commit|].
  intros r n' h' Hw _ (-> & _ & [E|(_ & ms & Hi & _)]); [congruence|]. split; [done|].
  rewrite (wrote_cells _ _ _ _ _ Hw). apply (commit_end _ _ _ ms); [congruence|congruence|done|by apply Hu].
Qed.

Lemma does_recover_abort id s stats n h :
  scan_fits (limits (core n)) (intent_prefix id) (cells h) → state_of id (cells h) = Some s → s ≠ Aborted →
  does (_ ← apply_txn_abort_2pc env id; mret (count_aborted stats)) (abort_plan id (cells h))
    (λ r n' h', rs_undecided_prepared r = rs_undecided_prepared stats ∧
       state_of id (cells h') = Some Aborted ∧ rows_of id (cells h') = []) n h.
Proof.
  intros Hfit Hs H1. eapply does_weaken; [by eapply does_count, does_abort|].
  intros r n' h' Hw _ (-> & _ & Hc1 & Hc2). split; [done|]. rewrite (wrote_cells _ _ _ _ _ Hw).
  destruct (abort_end id (cells h) Hc1 Hc2) as [Ha [E|Hr]]; [congruence|done].
Qed.

Lemma does_recover_one id s stats n h :
  node_ok n → scan_fits (limits (core n)) (intent_prefix id) (cells h) → user_intents id (cells h) →
  state_of id (cells h) = Some s →
  does (recover_one env id s stats) (one_plan (indexes n) id s (cells h))
    (λ r n' h', rs_undecided_prepared r = rs_undecided_prepared stats ++ in_doubt id s (cells h) ∧
       settled id s (decision_of id (cells h)) (cells h) (cells h')) n h.
Proof.
  intros Hn Hfit Hu Hs. unfold in_doubt.
  destruct s; cbn [recover_one one_plan].
  - apply does_read_decision. destruct (decision_of id (cells h)) as [[]|]; rewrite ?bool_decide_eq_true_2 by done;
      rewrite bool_decide_eq_false_2, app_nil_r by (by intros []).
    + by eapply does_recover_commit.
    + by eapply does_recover_abort.
    + by eapply does_recover_abort.
  - apply does_read_decision. destruct (decision_of id (cells h)) as [[]|].
    + rewrite bool_decide_eq_false_2, app_nil_r by (by intros []). by eapply does_recover_commit.
    + rewrite bool_decide_eq_false_2, app_nil_r by (by intros []). by eapply does_recover_abort.
    + rewrite bool_decide_eq_false_2, bool_decide_eq_true_2 by done. by apply does_ret.
  - rewrite bool_decide_eq_false_2, app_nil_r by (by intros []). by apply does_ret.
  - rewrite bool_decide_eq_false_2, app_nil_r by (by intros []). by apply does_ret.
  - rewrite bool_decide_eq_false_2, app_nil_r by (by intros []). by eapply does_recover_commit.
Qed.

(** *** The loop *)

(** Rows the loop can work on: each record once, as the log has it. *)
Record recoverable (lim : LimitsConfig) (rows : list (bytes * bytes)) (g : log) : Prop := {
  rc_once : NoDup rows.*1;
  rc_now : ∀ k v, (k, v) ∈ rows → look k g = Some v ∧ bytes_ok k ∧ starts_with TXN_REC_PREFIX k = true;
  rc_fits : ∀ id v, (encode_rec_key id, v) ∈ rows → id < 2 ^ 64 → scan_fits lim (intent_prefix id) g ∧ user_intents id g
}.

(** The record of the row is settled. *)
Definition row_settled (g g' : log) (row : bytes * bytes) : Prop :=
  ∀ id b rest s, row = (encode_rec_key id, b :: rest) → id < 2 ^ 64 → from_byte b = Ok s →
    settled id s (decision_of id g) g g'.

Definition row_in_doubt (g : log) (row : bytes * bytes) : list N :=
  match parse_rec_txn_id row.1, row.2 with
  | Some id, b :: _ => match from_byte b with Ok s => in_doubt id s g | Err _ => [] end
  | _, _ => []
  end.

Lemma row_in_doubt_eq g g' row : (∀ id, decision_of id g' = decision_of id g) → row_in_doubt g' row = row_in_doubt g row.
Proof.
  intros Hd. unfold row_in_doubt. destruct (parse_rec_txn_id row.1) as [id|]; [|done]. destruct row.2 as [|b rest]; [done|].
  destruct (from_byte b) as [s|]; [|done]. unfold in_doubt.
  assert (bool_decide (s = Prepared ∧ decision_of id g' = None) = bool_decide (s = Prepared ∧ decision_of id g = None)) as ->; [|done].
  apply bool_decide_ext. by rewrite Hd.
Qed.

Record recovered (rows : list (bytes * bytes)) (g g' : log) : Prop := {
  rd_rows : Forall (row_settled g g') rows;
  rd_other : ∀ id, id < 2 ^ 64 → encode_rec_key id ∉ rows.*1 → same_txn id g g';
  rd_decision : ∀ id, decision_of id g' = decision_of id g
}.

Lemma settled_after id s d g g1 g' : settled id s d g g1 → same_txn id g1 g' → settled id s d g g'.
Proof.
  intros Hs Hm. pose proof (same_txn_state _ _ _ Hm). pose proof (same_txn_rows _ _ _ Hm).
  destruct s, d as [[]|]; cbn [settled] in *; (by eapply same_txn_trans) || (destruct Hs; split; congruence).
Qed.

Lemma settled_before id s d g g1 g' : same_txn id g g1 → settled id s d g1 g' → settled id s d g g'.
Proof. intros Hm Hs. destruct s, d as [[]|]; cbn [settled] in *; try done; by eapply same_txn_trans. Qed.

Lemma touches_row id x k :
  touches id x → starts_with TXN_REC_PREFIX k = true → k ≠ encode_rec_key id → x.1 ≠ k.
Proof.
  intros Ht Hk Hne E. unfold touches in Ht. rewrite E in Ht. destruct Ht as [->|[Ht|Ht]]; [done| |].
  - apply starts_with_spec in Hk as [s ->]. done.
  - apply starts_with_spec in Hk as [s ->]. done.
Qed.

Lemma recoverable_tail lim id v rows l g :
  id < 2 ^ 64 → recoverable lim ((encode_rec_key id, v) :: rows) g → Forall (touches id) l →
  recoverable lim rows (reverse l ++ g).
Proof.
  intros Hid [Hnd Hnow Hfit] Hl. cbn [fmap list_fmap fst] in Hnd. apply NoDup_cons in Hnd as [Hno Hnd]. split.
  - done.
  - intros k' v' Hin. destruct (Hnow k' v') as (Hlk & Hb & Hp); [by right|]. split_and!; [|done|done].
    rewrite (look_touched (touches id)); [done|done|]. intros x Hx. apply (touches_row id); [done|done|].
    intros ->. apply Hno. by apply list_elem_of_fmap_2 with (f := fst) in Hin.
  - intros id' v' Hin Hid'. destruct (Hfit id' v') as [Hf Hu]; [by right|done|].
    assert (id ≠ id') as Hne.
    { intros <-. apply Hno. by apply list_elem_of_fmap_2 with (f := fst) in Hin. }
    pose proof (touches_same id id' l g Hid Hid' Hne Hl) as Hsm. split; [by eapply same_txn_fits|].
    intros ms Hms. apply Hu. unfold intents_are in *. by rewrite <-(same_txn_rows _ _ _ Hsm).
Qed.

Lemma recovered_cons id b rest s rows l g g' :
  id < 2 ^ 64 → from_byte b = Ok s → encode_rec_key id ∉ rows.*1 → Forall (touches id) l →
  settled id s (decision_of id g) g (reverse l ++ g) → recovered rows (reverse l ++ g) g' →
  recovered ((encode_rec_key id, b :: rest) :: rows) g g'.
Proof.
  intros Hid Hb Hno Hl Hs [Hrows Hother Hdec]. split.
  - constructor.
    + intros id' b' rest' s' E Hid' Hb'. apply pair_eq in E as [E1 E2]. apply rec_key_inj in E1 as <-; [|done|done].
      injection E2 as <- <-. assert (s' = s) as -> by congruence. eapply settled_after; [exact Hs|]. by apply Hother.
    + apply Forall_forall. intros row Hrow id' b' rest' s' -> Hid' Hb'.
      assert (id ≠ id') as Hne by (intros <-; apply Hno; by apply list_elem_of_fmap_2 with (f := fst) in Hrow).
      eapply settled_before; [by apply (touches_same id id' l)|]. rewrite <-(touches_decision id id' l g Hl).
      by eapply (proj1 (Forall_forall _ _) Hrows _ Hrow).
  - intros id' Hid' Hni. cbn [fmap list_fmap fst] in Hni. apply not_elem_of_cons in Hni as [Hne Hni].
    eapply same_txn_trans; [apply (touches_same id id' l); [done|done| |done]|by apply Hother]. by intros <-.
  - intros id'. by rewrite Hdec, (touches_decision id).
Qed.

(** A row that is no record of a transaction. *)
Lemma recovered_skip row rows g g' :
  (∀ id, id < 2 ^ 64 → row.1 = encode_rec_key id → row.2 = []) → recovered rows g g' → recovered (row :: rows) g g'.
Proof.
  intros Hskip [Hrows Hother Hdec]. split; [|intros id Hid Hno; apply Hother; [done|]|done].
  - constructor; [|done]. intros id b rest s -> Hid _. by specialize (Hskip id Hid eq_refl).
  - intros Hin. apply Hno. by right.
Qed.

Lemma recoverable_skip lim row rows g : recoverable lim (row :: rows) g → recoverable lim rows g.
Proof.
  intros [Hnd Hnow Hfit]. cbn [fmap list_fmap] in Hnd. apply NoDup_cons in Hnd as [_ Hnd]. split; [done| |].
  - intros k v Hin. apply Hnow. by right.
  - intros id v Hin. eapply Hfit. by right.
Qed.

Lemma does_recover_rows rows : ∀ stats n h,
  node_ok n → recoverable (limits (core n)) rows (cells h) →
  does (recover_rows env rows stats) (each_plan (row_plan (indexes n)) rows (cells h))
    (λ r n' h', recovered rows (cells h) (cells h') ∧
       rs_undecided_prepared r = rs_undecided_prepared stats ++ (rows ≫= row_in_doubt (cells h))) n h.
Proof.
  induction rows as [|[k v] rows IH]; intros stats n h Hn Hrc; cbn [recover_rows each_plan].
  { apply does_ret. rewrite app_nil_r. split; [|done]. split; [done|by intros|done]. }
  destruct (rc_now _ _ _ Hrc k v) as (Hlk & Hbk & _); [by left|].
  assert (row_plan (indexes n) (k, v) (cells h) = [] → row_in_doubt (cells h) (k, v) = [] →
    (∀ id, id < 2 ^ 64 → k = encode_rec_key id → v = []) →
    does (recover_rows env rows stats) (row_plan (indexes n) (k, v) (cells h) ++
        each_plan (row_plan (indexes n)) rows (reverse (row_plan (indexes n) (k, v) (cells h)) ++ cells h))
      (λ r n' h', recovered ((k, v) :: rows) (cells h) (cells h') ∧
         rs_undecided_prepared r = rs_undecided_prepared stats ++ (((k, v) :: rows) ≫= row_in_doubt (cells h))) n h) as Hskip.
  { intros -> Hd Hno. cbn [app]. rewrite reverse_nil. cbn [app].
    eapply does_weaken; [apply IH; [done|by eapply recoverable_skip]|]. intros r n' h' _ _ [Hr ->]. split.
    - by apply recovered_skip.
    - rewrite bind_cons, Hd. done. }
  destruct (parse_rec_txn_id k) as [id|] eqn:Ep.
  2: { apply Hskip; [unfold row_plan; cbn [fst]; by rewrite Ep|unfold row_in_doubt; cbn [fst]; by rewrite Ep|].
       intros id Hid ->. by rewrite parse_rec_key in Ep. }
  destruct v as [|b rest].
  { apply Hskip; [unfold row_plan; cbn [fst snd]; by rewrite Ep|unfold row_in_doubt; cbn [fst snd]; by rewrite Ep|done]. }
  clear Hskip. apply does_of_result. intros s Hb.
  assert (row_plan (indexes n) (k, b :: rest) (cells h) = one_plan (indexes n) id s (cells h)) as ->
    by (unfold row_plan; cbn [fst snd]; by rewrite Ep, Hb).
  destruct (parse_rec_Some k id Hbk Ep) as [-> Hid]. destruct (rc_fits _ _ _ Hrc id (b :: rest)) as [Hfit Hu]; [by left|done|].
  pose proof (one_touches (indexes n) id s (cells h) Hu) as Htch.
  eapply does_bind; [apply does_recover_one; [done|done|done|]|].
  { unfold state_of, rec_of. rewrite Hlk. by rewrite Hb. }
  intros r1 n1 h1 Hw1 Hu1 [Hd1 Hset]. rewrite <-(wrote_cells _ _ _ _ _ Hw1), <-(upper_indexes _ _ Hu1).
  assert (encode_rec_key id ∉ rows.*1) as Hno by (pose proof (rc_once _ _ _ Hrc) as Hnd; by apply NoDup_cons in Hnd as [? _]).
  pose proof (wrote_cells _ _ _ _ _ Hw1) as Hc1.
  eapply does_weaken; [apply IH; [by eapply node_ok_upper|]|].
  { rewrite (upper_limits _ _ Hu1), Hc1. by eapply recoverable_tail. }
  intros r n' h' _ _ [Hr ->]. split; [rewrite Hc1 in Hset, Hr; by eapply recovered_cons|].
  rewrite Hd1, bind_cons, <-app_assoc. do 2 f_equal.
  - unfold row_in_doubt. cbn [fst snd]. by rewrite Ep, Hb.
  - rewrite Hc1. apply list_bind_ext; [|done]. intros row. apply row_in_doubt_eq. intros id'. by apply (touches_decision id).
Qed.

(** *** Recovery *)

(** The transactions a recovery leaves in doubt. *)
Definition undecided (g : log) : list N := live TXN_REC_PREFIX g ≫= row_in_doubt g.


(** *** Decisions *)

Lemma resolve_touches ix id commit g : user_intents id g → Forall (touches id) (resolve_plan ix id commit g).
Proof.
  intros Hu. pose proof (commit_touches ix id g Hu). pose proof (abort_touches id g). unfold resolve_plan.
  destruct (state_of id g) as [[]|]; try done; by destruct commit.
Qed.

(** A record that waits for the decision follows it. *)
Definition follows (id : N) (commit : bool) (g g' : log) : Prop :=
  state_of id g = Some Preparing ∨ state_of id g = Some Prepared →
  state_of id g' = Some (if commit then Committed else Aborted) ∧ rows_of id g' = [].

Lemma does_resolve id commit n h :
  node_ok n → scan_fits (limits (core n)) (intent_prefix id) (cells h) → user_intents id (cells h) →
  does (resolve_local_2pc_record env id commit) (resolve_plan (indexes n) id commit (cells h))
    (λ _ n' h', follows id commit (cells h) (cells h')) n h.
Proof.
  intros Hn Hfit Hu. unfold resolve_local_2pc_record, resolve_plan, follows. apply does_read_state.
  assert (∀ s, state_of id (cells h) = Some s → s ≠ Committed → s ≠ Committing → s ≠ Aborted →
    does (if commit then apply_txn_commit_2pc env id else apply_txn_abort_2pc env id)
      (if commit then commit_plan (indexes n) id (cells h) else abort_plan id (cells h))
      (λ _ n' h', state_of id (cells h') = Some (if commit then Committed else Aborted) ∧ rows_of id (cells h') = []) n h) as Hdo.
  { intros s Es H1 H2 H3. destruct commit.
    - eapply does_weaken; [by apply does_commit|]. intros a n' h' Hw _ [E|(_ & ms & Hi & _)]; [congruence|].
      rewrite (wrote_cells _ _ _ _ _ Hw). apply (commit_end _ _ _ ms); [congruence|congruence|done|by apply Hu].
    - eapply does_weaken; [by apply does_abort|]. intros a n' h' Hw _ [Hc1 Hc2]. rewrite (wrote_cells _ _ _ _ _ Hw).
      destruct (abort_end id (cells h) Hc1 Hc2) as [Ha [E|Hr]]; [congruence|done]. }
  destruct (state_of id (cells h)) as [[]|].
  all: try (eapply does_weaken; [by eapply Hdo|by intros]).
  all: apply does_ret; by intros [|].
Qed.

Lemma dec_key_inj id id' : id < 2 ^ 64 → id' < 2 ^ 64 → encode_dec_key id = encode_dec_key id' → id = id'.
Proof. intros ? ? E%app_inv_head. by apply be8_inj. Qed.

Lemma decision_cell_eq id commit g : decision_of id (decision_cell id commit :: g) = Some commit.
Proof. unfold decision_of, decision_cell. rewrite look_eq. by destruct commit. Qed.

Lemma decision_cell_same id commit g : same_txn id g (decision_cell id commit :: g).
Proof.
  split.
  - apply (look_skip _ [_]). by intros ?%list_elem_of_singleton.
  - change (decision_cell id commit :: g) with ([decision_cell id commit] ++ g).
    rewrite under_app, under_none; [done|by repeat constructor].
Qed.

Lemma user_intents_same id g g' : same_txn id g g' → user_intents id g → user_intents id g'.
Proof. intros Hsm Hu ms Hi. apply Hu. unfold intents_are in *. by rewrite <-(same_txn_rows _ _ _ Hsm). Qed.

Lemma does_decision id commit n h :
  node_ok n → scan_fits (limits (core n)) (intent_prefix id) (cells h) → user_intents id (cells h) →
  does (apply_txn_decision env id commit) (decision_plan (indexes n) id commit (cells h))
    (λ _ n' h', decision_of id (cells h') = Some commit ∧ follows id commit (cells h) (cells h')) n h.
Proof.
  intros Hn Hfit Hu. unfold apply_txn_decision, decision_plan. apply does_read_decision.
  destruct (decision_of id (cells h)) as [prev|] eqn:Ed.
  - destruct (eqb prev commit) eqn:Eb; cbn [negb]; apply does_look; try done. intros [] _. apply eqb_prop in Eb as ->.
    eapply does_weaken; [by apply does_resolve|]. intros a n' h' Hw _ Hf. split; [|done].
    rewrite (wrote_cells _ _ _ _ _ Hw). by rewrite (touches_decision id) by (by apply resolve_touches).
  - set (w := decision_cell id commit). change (w :: ?l) with ([w] ++ l). eapply does_bind; [apply (does_write_unit env)|].
    { split; [apply Forall_app; split; [repeat constructor|apply be_bytes_bytes_ok]|]. by destruct commit; repeat constructor. }
    intros _ n1 h1 Hw1 Hu1 _. pose proof (wrote_cells _ _ _ _ _ Hw1) as Hc1. cbn [reverse rev_append app] in Hc1.
    pose proof (decision_cell_same id commit (cells h)) as Hsm. fold w in Hsm. rewrite <-Hc1 in Hsm.
    assert (resolve_plan (indexes n) id commit (w :: cells h) = resolve_plan (indexes n1) id commit (cells h1)) as ->
      by (by rewrite Hc1, (upper_indexes _ _ Hu1)).
    pose proof (user_intents_same _ _ _ Hsm Hu) as Hu'.
    eapply does_weaken; [apply does_resolve; [by eapply node_ok_upper| |done]|].
    { rewrite (upper_limits _ _ Hu1). by eapply same_txn_fits. }
    intros a n' h' Hw _ Hf. split.
    + rewrite (wrote_cells _ _ _ _ _ Hw), (touches_decision id) by (by apply resolve_touches). rewrite Hc1. apply decision_cell_eq.
    + unfold follows in *. by rewrite <-(same_txn_state _ _ _ Hsm).
Qed.

(** Decisions already made survive any part of the plan. *)
Lemma decision_kept ix id commit l g id' b :
  user_intents id g → id < 2 ^ 64 → id' < 2 ^ 64 → l `prefix_of` decision_plan ix id commit g →
  decision_of id' g = Some b → decision_of id' (reverse l ++ g) = Some b.
Proof.
  intros Hu Hid Hid' Hl Hb. unfold decision_plan in Hl. destruct (decision_of id g) as [prev|] eqn:Ed.
  - assert (Forall (touches id) l) as Ht.
    { eapply prefix_Forall; [exact Hl|]. destruct (eqb prev commit); [by apply resolve_touches|done]. }
    by rewrite (touches_decision id).
  - destruct l as [|x l]; [done|]. pose proof (prefix_cons_inv_1 _ _ _ _ Hl) as ->. apply prefix_cons_inv_2 in Hl.
    rewrite reverse_cons, <-app_assoc. rewrite (touches_decision id).
    + unfold decision_of in Hb |- *. rewrite look_skip; [done|]. intros E%list_elem_of_singleton. cbn [fst decision_cell] in E.
      apply dec_key_inj in E as ->; [|done|done]. unfold decision_of in Ed. congruence.
    + eapply prefix_Forall; [exact Hl|]. apply resolve_touches. eapply user_intents_same, Hu. apply decision_cell_same.
Qed.

(** A decision is final: once it is recorded, the opposite one is refused without
    a change, and no decision of another transaction is ever touched.  When it returns,
    the decision is recorded and a record that was waiting for it has followed it. *)
Theorem txn2pc_decision_final n h id commit :
  node_ok n → stores (plan_cost (decision_plan (indexes n) id commit (cells h))) h n →
  scan_fits (limits (core n)) (intent_prefix id) (cells h) → user_intents id (cells h) → id < 2 ^ 64 →
  let x := apply_txn_decision env id commit n in
  (decision_of id (cells h) = Some (negb commit) → ∃ e, x = (Failed e, n)) ∧
  ∃ h', stores 0 h' x.2 ∧
    (∀ id' b, id' < 2 ^ 64 → decision_of id' (cells h) = Some b → decision_of id' (cells h') = Some b) ∧
    (x.1 = Done tt → decision_of id (cells h') = Some commit ∧ follows id commit (cells h) (cells h')).
Proof.
  intros Hn Hs Hfit Hu Hid x. split.
  { intros Hd. unfold x, apply_txn_decision, mbind, task_bind. rewrite (read_decision_eq _ h n id Hs).
    unfold decision_of in Hd. destruct (look (encode_dec_key id) (cells h)) as [[|b raw]|]; [done| |done].
    destruct (b =? DECISION_COMMIT); [injection Hd as Hd; destruct commit; [done|by eexists]|].
    destruct (b =? DECISION_ABORT); [|done]. injection Hd as Hd. destruct commit; [by eexists|done]. }
  destruct (does_decision id commit n h Hn Hfit Hu 0 Hs) as (l & h' & Hl & Hs' & Hw & _ & Hend). exists h'. split_and!; [done| |].
  - intros id' b Hid' Hb. rewrite (wrote_cells _ _ _ _ _ Hw). by eapply decision_kept.
  - intros Hd. by destruct (Hend tt Hd).
Qed.

End Txn2pcRecovery.

(** ** A run *)

Lemma two_writes_intents : user_intents 7 (reverse (prepare_plan 7 two_writes)).
Proof.
  intros ms Hi. assert (intents_are 7 two_writes (reverse (prepare_plan 7 two_writes))) as H2 by (by vm_compute).
  assert (ms = two_writes) as -> by (unfold intents_are in *; congruence). apply two_writes_user.
Qed.

Lemma txn2pc_decision_final_witness :
  ∃ h, stores running 0 h (apply_txn_decision running 7 true prepared_node).2 ∧ decision_of 7 (cells h) = Some true ∧
    state_of 7 (cells h) = Some Committed.
Proof.
  destruct prepared_stores as (h & Hs & Hc & Hn).
  destruct (txn2pc_decision_final running prepared_node h 7 true Hn) as [_ (h' & Hs' & _ & Hd)].
  - eapply stores_room; [|exact Hs]. rewrite Hc. by vm_compute.
  - rewrite Hc. apply prepared_fits.
  - rewrite Hc. apply two_writes_intents.
  - done.
  - exists h'. split; [done|]. destruct Hd as [Hdec Hf]; [by vm_compute|]. split; [done|]. apply Hf. right. by rewrite Hc.
Defined.

