(* ===== verification/IndexOps.v ===== *)
(** Secondary indexes: creation with backfill, dropping, scans, verification and
    loading, [kaya-engine/src/index.rs]. *)
From stdpp Require Import gmap.
From S2P Require Import Prelude Bytes Core Hlc OrdMap Path Disk WalCodec WalWriter InternalKey SstBlock Memtable Manifest Compaction Engine EngineStore Index Cdc Node.

Open Scope N_scope.

Definition unknown_index (name : bytes) : KayaError :=
  InvalidArgument ("unknown index " +:+ debug_str name).

Section IndexOps.
Context {T : Type} `{SstFormat T} (env : N → N * N * N).

Abbreviation Node := (Node (T:=T)).
Abbreviation task := (task (T:=T)).

(** The definition of a registered index. *)
Definition index_def (name : bytes) : task IndexDef :=
  n ← node;
  match om_get name (indexes n) with Some def => mret def | None => failed (unknown_index name) end.

Definition set_progress (name : bytes) (p : BackfillProgress) : task unit :=
  update (λ n, set_backfill (om_insert name p (index_backfill n)) n).

(** ** Backfill *)

Definition insert_index_entries_for_named (name key value : bytes) : task bool :=
  n ← node;
  match om_get name (indexes n) with
  | None => mret false
  | Some def =>
      if negb (starts_with (primary_prefix def) key) then mret false
      else match extract (extractor def) value with
           | None => mret false
           | Some sec => _ ← write env (encode_data_key name sec key) (Some []) None; mret true
           end
  end.

Fixpoint sync_rows (name : bytes) (rows : list (bytes * bytes)) (scanned indexed : N) : task (N * N) :=
  match rows with
  | [] => mret (scanned, indexed)
  | (key, value) :: rows =>
      if is_index_system_key key then sync_rows name rows scanned indexed
      else
        b ← insert_index_entries_for_named name key value;
        sync_rows name rows (scanned + 1) (if b : bool then indexed + 1 else indexed)
  end.

Definition run_sync_backfill (name primary_prefix : bytes) : task unit :=
  rows ← scan primary_prefix;
  counts ← sync_rows name rows 0 0;
  set_progress name (mkBackfill Complete counts.1 counts.2 None).

Definition create_index_with (name primary_prefix : bytes) (x : IndexExtractor) (backfill : BackfillMode) : task unit :=
  _ ← of_result (validate_index_name name);
  n ← node;
  if om_has name (indexes n) then
    failed (InvalidArgument ("index " +:+ debug_str name +:+ " already exists"))
  else if bool_decide (primary_prefix = []) then failed (InvalidArgument "primary_prefix must be non-empty")
  else
    _ ← reads (validate_key primary_prefix);
    let def := mkIndexDef name primary_prefix false x in
    _ ← write env (encode_meta_key name) (Some (encode_meta_value def)) None;
    _ ← update (λ n, set_indexes (om_insert name def (indexes n)) n);
    _ ← set_progress name (match backfill with
                           | Sync => BackfillProgress_default
                           | Online => mkBackfill Running 0 0 None
                           end);
    match backfill with
    | Sync => run_sync_backfill name primary_prefix
    | Online => mret tt
    end.

Definition index_backfill_status (name : bytes) : task BackfillProgress :=
  _ ← index_def name;
  n ← node;
  mret (default BackfillProgress_default (om_get name (index_backfill n))).

Definition index_backfill_pause (name : bytes) : task BackfillProgress :=
  prog ← index_backfill_status name;
  let prog := if bool_decide (bf_status prog = Running)
              then mkBackfill Paused (bf_scanned prog) (bf_indexed prog) (bf_last_key prog) else prog in
  _ ← set_progress name prog;
  mret prog.

Definition index_backfill_resume (name : bytes) : task BackfillProgress :=
  prog ← index_backfill_status name;
  _ ← set_progress name prog;
  match bf_status prog with
  | Paused | Idle =>
      let prog := mkBackfill Running (bf_scanned prog) (bf_indexed prog) (bf_last_key prog) in
      _ ← set_progress name prog;
      mret prog
  | Complete => failed (InvalidArgument ("index " +:+ debug_str name +:+ " backfill already complete"))
  | Running => mret prog
  end.

(** The loop of a step; [true] when the batch ended it. *)
Fixpoint step_rows (name : bytes) (start_after : option bytes) (batch_size processed : N)
    (rows : list (bytes * bytes)) (prog : BackfillProgress) : task (bool * BackfillProgress) :=
  match rows with
  | [] => mret (false, prog)
  | (key, value) :: rows =>
      if is_index_system_key key || match start_after with Some last => ble key last | None => false end
      then step_rows name start_after batch_size processed rows prog
      else
        b ← insert_index_entries_for_named name key value;
        let prog := mkBackfill (bf_status prog) (bf_scanned prog + 1)
                      (if b : bool then bf_indexed prog + 1 else bf_indexed prog) (Some key) in
        if batch_size <=? processed + 1 then mret (true, prog)
        else step_rows name start_after batch_size (processed + 1) rows prog
  end.

Definition index_backfill_step (name : bytes) (batch_size : N) : task BackfillProgress :=
  if batch_size =? 0 then index_backfill_status name
  else
    def ← index_def name;
    n ← node;
    let prog := default BackfillProgress_default (om_get name (index_backfill n)) in
    match bf_status prog with
    | Paused => failed (InvalidArgument ("index " +:+ debug_str name +:+ " backfill is paused; resume first"))
    | Complete => mret prog
    | Idle | Running =>
        rows ← scan (primary_prefix def);
        r ← step_rows name (bf_last_key prog) batch_size 0 rows
              (mkBackfill Running (bf_scanned prog) (bf_indexed prog) (bf_last_key prog));
        let prog := if (r.1 : bool) then r.2
                    else mkBackfill Complete (bf_scanned r.2) (bf_indexed r.2) (bf_last_key r.2) in
        _ ← set_progress name prog;
        mret prog
    end.

(** ** Dropping, scanning *)

Definition drop_index (name : bytes) : task unit :=
  _ ← index_def name;
  rows ← scan (encode_data_scan_prefix name []);
  _ ← each (λ kv, match decode_data_key name kv.1 with
                  | Some _ => _ ← write env kv.1 None None; mret tt
                  | None => mret tt
                  end) rows;
  _ ← write env (encode_meta_key name) None None;
  update (λ n, set_backfill (om_remove name (index_backfill n)) (set_indexes (om_remove name (indexes n)) n)).

Definition scan_by_index (name value_prefix : bytes) : task (list (bytes * bytes)) :=
  _ ← index_def name;
  rows ← scan (encode_data_scan_prefix name value_prefix);
  mret (omap (λ kv, x ← decode_data_key name kv.1; if starts_with value_prefix x.1 then Some x else None) rows).

(** ** Verification *)

(** The entries the index should have, by primary key. *)
Definition expected_entries (def : IndexDef) (rows : list (bytes * bytes)) : list (bytes * bytes) :=
  foldl (λ m kv, if is_index_system_key kv.1 then m
                 else match extract (extractor def) kv.2 with Some sec => om_insert kv.1 sec m | None => m end)
    [] rows.

(** The pass over the entries it has: the divergences and the primary keys seen. *)
Definition check_entry (name : bytes) (expected : list (bytes * bytes))
    (acc : list IndexDivergence * list (bytes * bytes)) (kv : bytes * bytes) : list IndexDivergence * list (bytes * bytes) :=
  match decode_data_key name kv.1 with
  | None => acc
  | Some (sec, pk) =>
      if bool_decide (om_get pk expected = Some sec) then (acc.1, om_insert pk sec acc.2)
      else (acc.1 ++ [mkDivergence pk (ExtraInIndex sec)], acc.2)
  end.

Definition missing_entries (expected seen : list (bytes * bytes)) : list IndexDivergence :=
  omap (λ kv, if om_has kv.1 seen then None else Some (mkDivergence kv.1 (MissingInIndex kv.2))) expected.

Definition verify_index (name : bytes) : task (list IndexDivergence) :=
  def ← index_def name;
  primaries ← scan (primary_prefix def);
  let expected := expected_entries def primaries in
  idx_entries ← scan (encode_data_scan_prefix name []);
  let '(divergences, seen) := foldl (check_entry name expected) ([], []) idx_entries in
  mret (divergences ++ missing_entries expected seen).

(** ** Loading *)

Fixpoint load_defs (rows : list (bytes * bytes)) (m : list (bytes * IndexDef)) : result KayaError (list (bytes * IndexDef)) :=
  match rows with
  | [] => Ok m
  | (key, value) :: rows =>
      match name_from_meta_key key with
      | None => load_defs rows m
      | Some name => def ← decode_meta_value name value; load_defs rows (om_insert (id_name def) def m)
      end
  end.

Definition load_index_metadata : task unit :=
  rows ← scan INDEX_META_PREFIX;
  m ← of_result (load_defs rows []);
  update (λ n, set_backfill ((λ x, (x.1, mkBackfill Complete 0 0 None)) <$> m) (set_indexes m n)).

End IndexOps.
