(* ===== verification/IndexProps.v ===== *)
(** Secondary indexes stay in step with their primary keys, are scanned exactly,
    verified exactly and backfilled completely; then runs in which they are not. *)
From stdpp Require Import gmap.
From S2P Require Import Prelude Bytes Core Hlc OrdMap Path Disk WalCodec WalWriter InternalKey SstBlock SstSpec Memtable Manifest Compaction Engine EngineReads EngineScan EngineStore Index Cdc Node NodeStore Txn NodePlans IndexOps Txn2pc Txn2pcProps EngineProps.

Open Scope N_scope.

(** ** Consistency *)

(** The entry the index should have. *)
Definition expected (d : IndexDef) (g : log) (sec pk : bytes) : Prop :=
  is_index_system_key pk = false ∧ starts_with (primary_prefix d) pk = true ∧
  ∃ v, look pk g = Some v ∧ extract (extractor d) v = Some sec.

(** The index has the entries it should have and no others. *)
Definition consistent_index (d : IndexDef) (g : log) : Prop :=
  ∀ sec pk, lenN pk < 2 ^ 32 → look (encode_data_key (id_name d) sec pk) g ≠ None ↔ expected d g sec pk.

Definition consistent_indexes (ix : list (bytes * IndexDef)) (g : log) : Prop :=
  ∀ nm d, (nm, d) ∈ ix → consistent_index d g.

(** ** Plans of maintenance *)

Lemma each_plan_app {A} (f : A → log → log) l1 l2 g :
  each_plan f (l1 ++ l2) g = each_plan f l1 g ++ each_plan f l2 (reverse (each_plan f l1 g) ++ g).
Proof.
  revert g. induction l1 as [|x l1 IH]; intros g; cbn [each_plan app]; [done|].
  rewrite IH, reverse_app, <-!app_assoc. done.
Qed.

Lemma look_not_in k l g : Forall (λ x, x.1 ≠ k) l → look k (reverse l ++ g) = look k g.
Proof.
  intros Hl. apply look_skip. intros (x & -> & Hx)%list_elem_of_fmap. apply reverse_elem in Hx.
  by apply (proj1 (Forall_forall _ _) Hl x Hx).
Qed.

Section Entries.
Context (d : IndexDef) (key : bytes) (Hd : validate_index_name (id_name d) = Ok tt) (Hk : lenN key < 2 ^ 32).

Abbreviation dk sec := (encode_data_key (id_name d) sec key).

Lemma dk_inj s1 s2 : dk s1 = dk s2 → s1 = s2.
Proof. intros E. by eapply (data_key_inj _ _ _ _ _ _ Hd Hd Hk Hk) in E as (_ & ? & _). Qed.

Lemma dk_eq s1 s2 v g : look (dk s1) ((dk s2, v) :: g) = if decide (s1 = s2) then v else look (dk s1) g.
Proof.
  cbn [look]. destruct (decide (s1 = s2)) as [->|Hne]; [by rewrite decide_True|]. by rewrite decide_False by (by intros ?%dk_inj).
Qed.

Lemma entry_plan_look value sec g :
  look (dk sec) (reverse (entry_plan d key value) ++ g) ≠ None ↔ extract (extractor d) value = Some sec ∨ look (dk sec) g ≠ None.
Proof.
  unfold entry_plan. destruct (extract (extractor d) value) as [s|]; [|cbn; naive_solver]. rewrite reverse_singleton. cbn [app].
  rewrite dk_eq. destruct (decide (sec = s)) as [->|]; naive_solver.
Qed.

(** What an update does to the entries of a key. *)
Lemma maintain_put_look old value sec g :
  look (dk sec) (reverse (maintain_put_plan key old value d g) ++ g) ≠ None ↔
  extract (extractor d) value = Some sec ∨ (look (dk sec) g ≠ None ∧ old ≫= extract (extractor d) ≠ Some sec).
Proof.
  unfold maintain_put_plan. destruct (old ≫= extract (extractor d)) as [os|].
  2: { rewrite entry_plan_look. naive_solver. }
  case_bool_decide as Hsame.
  - rewrite Hsame. destruct (look (dk os) g) as [w|] eqn:E.
    + rewrite reverse_nil. cbn [app]. destruct (decide (sec = os)) as [->|Hne]; [rewrite E|]; naive_solver.
    + rewrite reverse_singleton. cbn [app]. rewrite dk_eq. destruct (decide (sec = os)) as [->|Hne]; naive_solver.
  - rewrite reverse_cons, <-app_assoc, entry_plan_look. cbn [app]. rewrite dk_eq.
    destruct (decide (sec = os)) as [->|Hne]; naive_solver.
Qed.

Lemma maintain_delete_look old sec g :
  look (dk sec) (reverse (maintain_delete_plan key old d g) ++ g) ≠ None ↔
  look (dk sec) g ≠ None ∧ extract (extractor d) old ≠ Some sec.
Proof.
  unfold maintain_delete_plan. destruct (extract (extractor d) old) as [os|].
  - rewrite reverse_singleton. cbn [app]. rewrite dk_eq. destruct (decide (sec = os)) as [->|Hne]; naive_solver.
  - cbn. naive_solver.
Qed.

End Entries.

(** ** The loop over the indexes of a key *)

Lemma matching_names ix key : indexes_ok ix → NoDup (id_name <$> matching key ix).
Proof.
  intros [Hs Hok]. assert (id_name <$> ix.*2 = ix.*1) as Hn.
  { clear Hs. induction Hok as [|x ix [Hx _] _ IH]; [done|]. cbn [fmap list_fmap]. by rewrite Hx, IH. }
  eapply sublist_NoDup; [apply (om_sorted_NoDup ix Hs)|]. rewrite <-Hn. apply fmap_sublist, sublist_filter.
Qed.

Lemma matching_split ix key d :
  indexes_ok ix → d ∈ matching key ix →
  ∃ l1 l2, matching key ix = l1 ++ d :: l2 ∧ Forall (λ x, id_name x ≠ id_name d) l1 ∧ Forall (λ x, id_name x ≠ id_name d) l2.
Proof.
  intros Hok Hd. pose proof (matching_names ix key Hok) as Hnd. apply list_elem_of_split in Hd as (l1 & l2 & E).
  exists l1, l2. split; [done|]. rewrite E, fmap_app in Hnd. cbn [fmap list_fmap] in Hnd. apply NoDup_app in Hnd as (_ & Hd & Hnd).
  apply NoDup_cons in Hnd as [Hn2 _]. split; apply Forall_forall; intros x Hx En.
  - apply (Hd (id_name x)); [by apply list_elem_of_fmap_2|]. rewrite En. by left.
  - apply Hn2. rewrite <-En. by apply list_elem_of_fmap_2.
Qed.

Section Loop.
Context (ix : list (bytes * IndexDef)) (key : bytes) (f : IndexDef → log → log) (Hok : indexes_ok ix) (Hkey : lenN key < 2 ^ 32).
Context (Hf : ∀ d g, Forall (entry_of key [d]) (f d g)).

(** Entries of other keys and of indexes the key does not belong to. *)
Lemma loop_elsewhere defs d sec pk g :
  (∀ x, x ∈ defs → validate_index_name (id_name x) = Ok tt) → validate_index_name (id_name d) = Ok tt → lenN pk < 2 ^ 32 →
  (∀ x, x ∈ defs → id_name x = id_name d → pk ≠ key) →
  look (encode_data_key (id_name d) sec pk) (reverse (each_plan f defs g) ++ g) = look (encode_data_key (id_name d) sec pk) g.
Proof.
  intros Hv Hd Hpk Hne. apply look_not_in. apply each_plan_Forall. intros x g' Hx. eapply Forall_impl; [apply Hf|].
  intros c (x' & s & ->%list_elem_of_singleton & ->) E. apply data_key_inj in E as (En & _ & ->); [|by apply Hv|done|done|done].
  by apply (Hne x).
Qed.

Lemma matching_valid x : x ∈ matching key ix → validate_index_name (id_name x) = Ok tt.
Proof. intros Hx. by apply (matching_elem key ix x Hok). Qed.

(** The entries of the key are those its own index made. *)
Lemma loop_own d g :
  d ∈ matching key ix →
  ∃ g1, (∀ s, look (encode_data_key (id_name d) s key) g1 = look (encode_data_key (id_name d) s key) g) ∧
    ∀ s, look (encode_data_key (id_name d) s key) (reverse (each_plan f (matching key ix) g) ++ g) =
         look (encode_data_key (id_name d) s key) (reverse (f d g1) ++ g1).
Proof.
  intros Hd. pose proof (matching_valid d Hd) as Hvd. destruct (matching_split ix key d Hok Hd) as (l1 & l2 & E & H1 & H2).
  assert (∀ x, x ∈ l1 ∨ x ∈ l2 → validate_index_name (id_name x) = Ok tt) as Hv.
  { intros x Hx. apply matching_valid. rewrite E, elem_of_app, elem_of_cons. tauto. }
  rewrite E. exists (reverse (each_plan f l1 g) ++ g). split.
  - intros s. apply loop_elsewhere; [by auto|done|done|]. intros x Hx En. by destruct (proj1 (Forall_forall _ _) H1 x Hx).
  - intros s. rewrite each_plan_app. cbn [each_plan]. rewrite !reverse_app, <-!app_assoc.
    apply loop_elsewhere; [by auto|done|done|]. intros x Hx En. by destruct (proj1 (Forall_forall _ _) H2 x Hx).
Qed.

(** User keys are not entries. *)
Lemma loop_primary defs pk g :
  is_index_system_key pk = false → look pk (reverse (each_plan f defs g) ++ g) = look pk g.
Proof.
  intros Hpk. apply look_not_in, each_plan_Forall. intros x g' _. eapply Forall_impl; [apply Hf|].
  intros c Hc <-. by rewrite (entry_of_system _ _ _ Hc) in Hpk.
Qed.

End Loop.

Lemma data_key_not_user name sec pk key : is_index_system_key key = false → encode_data_key name sec pk ≠ key.
Proof. by intros Hk <-. Qed.

(** ** Maintenance keeps indexes consistent *)

Section Maintained.
Context (ix : list (bytes * IndexDef)) (key : bytes) (g : log).
Context (Hok : indexes_ok ix) (Hkey : lenN key < 2 ^ 32) (Hsys : is_index_system_key key = false).
Context (Hcons : consistent_indexes ix g).

(** A write of the key with a maintenance loop that sets its entries right. *)
Lemma maintained f (v : option bytes) :
  (∀ d g, Forall (entry_of key [d]) (f d g)) →
  let g' := reverse (each_plan f (matching key ix) ((key, v) :: g)) ++ (key, v) :: g in
  (∀ d g1 sec, d ∈ matching key ix → validate_index_name (id_name d) = Ok tt →
     (∀ s, look (encode_data_key (id_name d) s key) g1 ≠ None ↔ look key g ≫= extract (extractor d) = Some s) →
     look (encode_data_key (id_name d) sec key) (reverse (f d g1) ++ g1) ≠ None ↔ v ≫= extract (extractor d) = Some sec) →
  consistent_indexes ix g'.
Proof.
  intros Hf g' Hright nm d Hin sec pk Hpk.
  assert (id_name d = nm ∧ validate_index_name nm = Ok tt) as [<- Hvd]
    by (destruct Hok as [_ Hi]; exact (proj1 (Forall_forall _ _) Hi _ Hin)).
  assert (∀ p, is_index_system_key p = false → look p g' = look p ((key, v) :: g)) as Hlook
    by (intros p Hp; by apply (loop_primary key)).
  assert (∀ s p, look (encode_data_key (id_name d) s p) ((key, v) :: g) = look (encode_data_key (id_name d) s p) g) as Hskip.
  { intros s p. cbn [look]. rewrite decide_False; [done|]. by apply data_key_not_user. }
  destruct (decide (pk = key)) as [->|Hne].
  - destruct (starts_with (primary_prefix d) key) eqn:Hpre.
    + assert (d ∈ matching key ix) as Hd
        by (apply list_elem_of_filter; split; [done|]; by apply list_elem_of_fmap_2 with (f := snd) in Hin).
      destruct (loop_own ix key f Hok Hkey Hf d ((key, v) :: g) Hd) as (g1 & Hg1 & ->).
      rewrite (Hright d g1 sec Hd Hvd).
      * unfold expected. rewrite Hlook, look_eq by done. pose proof (matching_elem key ix d Hok Hd) as (Hp & _ & _).
        destruct v as [v|]; cbn [mbind option_bind]; naive_solver.
      * intros s. rewrite Hg1, Hskip, (Hcons _ d Hin s key Hkey). unfold expected.
        pose proof (matching_elem key ix d Hok Hd) as (Hp & _ & _). destruct (look key g) as [o|]; cbn [mbind option_bind]; naive_solver.
    + unfold g'. rewrite (loop_elsewhere key f Hkey Hf).
      * rewrite Hskip, (Hcons _ d Hin sec key Hkey). unfold expected. by rewrite Hpre; naive_solver.
      * intros x Hx. by apply (matching_valid ix key Hok).
      * done.
      * done.
      * intros x Hx En _. pose proof (matching_elem key ix x Hok Hx) as (Hpx & _ & Hxin).
        assert (x = d) as <-; [|by rewrite Hpre in Hpx]. rewrite En in Hxin. destruct Hok as [Hs _].
        apply om_get_elem in Hxin, Hin; [|done|done]. congruence.
  - unfold g'. rewrite (loop_elsewhere key f Hkey Hf); [|intros x Hx; by apply (matching_valid ix key Hok)|done|done|done].
    rewrite Hskip, (Hcons _ d Hin sec pk Hpk). unfold expected. fold g'.
    destruct (is_index_system_key pk) eqn:Es; [naive_solver|]. rewrite Hlook by done. cbn [look]. by rewrite decide_False.
Qed.

Lemma put_maintains value : consistent_indexes ix (reverse (put_plan ix key value g) ++ g).
Proof.
  unfold put_plan. rewrite reverse_cons, <-app_assoc. apply maintained.
  - intros d g'. apply maintain_put_keys.
  - intros d g1 sec Hd Hv Hg1. rewrite (maintain_put_look d key Hv Hkey), Hg1. cbn [mbind option_bind]. naive_solver.
Qed.

Lemma delete_maintains : consistent_indexes ix (reverse (delete_plan ix key g) ++ g).
Proof.
  unfold delete_plan. rewrite reverse_cons, <-app_assoc. destruct (look key g) as [old|] eqn:E.
  - apply maintained; [intros d g'; apply maintain_delete_keys|].
    intros d g1 sec Hd Hv Hg1. rewrite (maintain_delete_look d key Hv Hkey), Hg1, E. cbn [mbind option_bind]. naive_solver.
  - pose proof (maintained (λ _ _, []) None) as Hm. assert (∀ l g', each_plan (λ (_ : IndexDef) _, []) l g' = []) as He
      by (intros l; by induction l). rewrite He in Hm. apply Hm; [done|].
    intros d g1 sec Hd Hv Hg1. rewrite reverse_nil. cbn [app]. by rewrite Hg1, E.
Qed.

End Maintained.

(** ** Scans of an index, on logs *)

Definition index_rows (name value_prefix : bytes) (rows : list (bytes * bytes)) : list (bytes * bytes) :=
  omap (λ kv, x ← decode_data_key name kv.1; if starts_with value_prefix x.1 then Some x else None) rows.

Lemma index_rows_elem name vp g sec pk :
  Forall write_bytes g → validate_index_name name = Ok tt → lenN pk < 2 ^ 32 →
  (sec, pk) ∈ index_rows name vp (live (encode_data_scan_prefix name vp) g) ↔
  starts_with vp sec = true ∧ look (encode_data_key name sec pk) g ≠ None.
Proof.
  intros Hb Hn Hpk. unfold index_rows. rewrite list_elem_of_omap. split.
  - intros ([key v] & Hin & Hd). apply live_elem in Hin as [_ Hl]. cbn [fst] in Hd.
    destruct (decode_data_key name key) as [[s p]|] eqn:E; [|done]. cbn [mbind option_bind fst] in Hd.
    destruct (starts_with vp s) eqn:Es; [|done]. injection Hd as -> ->. split; [done|].
    apply decode_data_key_Some in E as ->; [by rewrite Hl| |by apply name_valid].
    apply look_elem in Hl. by apply (proj1 (Forall_forall _ _) Hb _ Hl).
  - intros [Hs Hl]. destruct (look (encode_data_key name sec pk) g) as [v|] eqn:E; [|done].
    exists (encode_data_key name sec pk, v). split; [apply live_elem; split; [by apply data_key_scanned|done]|].
    cbn [fst]. rewrite decode_data_key_encode by done. cbn [mbind option_bind fst]. by rewrite Hs.
Qed.

(** ** Verification, on logs *)

(** The map of expected entries has the pairs of the rows. *)
Lemma expected_entries_elem d rows :
  NoDup rows.*1 →
  om_sorted (expected_entries d rows) ∧
  ∀ pk sec, om_get pk (expected_entries d rows) = Some sec ↔
    is_index_system_key pk = false ∧ ∃ v, (pk, v) ∈ rows ∧ extract (extractor d) v = Some sec.
Proof.
  unfold expected_entries. induction rows as [|[k v] rows IH] using rev_ind; intros Hnd.
  { split; [apply om_sorted_nil|]. intros pk sec. cbn. split; [done|]. by intros (_ & ? & ?%elem_of_nil & _). }
  rewrite fmap_app in Hnd. apply NoDup_app in Hnd as (Hnd & Hdis & _). destruct (IH Hnd) as [Hs Hel]. clear IH.
  rewrite foldl_app. set (m := foldl _ _ rows) in *. cbn [foldl fst snd].
  assert (k ∉ rows.*1) as Hk by (intros Hin; apply (Hdis k Hin); by left).
  assert (∀ pk sec, is_index_system_key pk = false ∧ (∃ v0, (pk, v0) ∈ rows ++ [(k, v)] ∧ extract (extractor d) v0 = Some sec) ↔
    om_get pk m = Some sec ∨ pk = k ∧ is_index_system_key k = false ∧ extract (extractor d) v = Some sec) as Hsplit.
  { intros pk sec. rewrite Hel. setoid_rewrite elem_of_app. setoid_rewrite list_elem_of_singleton. naive_solver. }
  destruct (is_index_system_key k) eqn:Ek; [|destruct (extract (extractor d) v) as [s|] eqn:Ee].
  - split; [done|]. intros pk sec. rewrite Hsplit. naive_solver.
  - split; [by apply om_insert_sorted|]. intros pk sec. rewrite Hsplit.
    assert (∀ s', om_get k m ≠ Some s').
    { intros s' (_ & v0 & Hin & _)%Hel. apply Hk. by apply list_elem_of_fmap_2 with (f := fst) in Hin. }
    destruct (decide (k = pk)) as [<-|Hne]; [rewrite om_get_insert_eq; naive_solver|].
    rewrite om_get_insert_ne by done. naive_solver.
  - split; [done|]. intros pk sec. rewrite Hsplit. naive_solver.
Qed.

Lemma check_entries name exp rows :
  let r := foldl (check_entry name exp) ([], []) rows in
  (r.1 = [] ↔ ∀ kv sec pk, kv ∈ rows → decode_data_key name kv.1 = Some (sec, pk) → om_get pk exp = Some sec) ∧
  om_sorted r.2 ∧
  ∀ pk, pk ∈ r.2.*1 ↔ ∃ kv sec, kv ∈ rows ∧ decode_data_key name kv.1 = Some (sec, pk) ∧ om_get pk exp = Some sec.
Proof.
  cbv zeta. induction rows as [|kv rows IH] using rev_ind.
  { cbn [foldl fst snd fmap list_fmap]. split_and!; [by split; [intros _ ? ? ? ?%elem_of_nil|]|apply om_sorted_nil|].
    intros pk. split; [by intros ?%elem_of_nil|]. by intros (? & ? & ?%elem_of_nil & _). }
  rewrite foldl_app. set (r := foldl (check_entry name exp) ([], []) rows) in *. destruct IH as (Hd & Hs & Hel). cbn [foldl].
  setoid_rewrite elem_of_app. setoid_rewrite list_elem_of_singleton. unfold check_entry.
  destruct (decode_data_key name kv.1) as [[s p]|] eqn:E; [|split_and!; [naive_solver|done|naive_solver]].
  case_bool_decide as Hp; cbn [fst snd].
  - split_and!; [naive_solver|by apply om_insert_sorted|]. intros pk.
    assert (pk ∈ (om_insert p s r.2).*1 ↔ pk = p ∨ pk ∈ r.2.*1) as ->; [|naive_solver].
    rewrite <-!om_has_elem by (done || by apply om_insert_sorted). unfold om_has. destruct (decide (p = pk)) as [<-|Hne].
    + rewrite om_get_insert_eq. naive_solver.
    + rewrite om_get_insert_ne by done. naive_solver.
  - split_and!; [|done|naive_solver]. split; [by intros [_ [=]]%app_nil|]. intros Hall. exfalso. apply Hp. apply (Hall kv); [by right|done].
Qed.

Lemma missing_nil exp seen :
  om_sorted seen → missing_entries exp seen = [] ↔ ∀ x, x ∈ exp → x.1 ∈ seen.*1.
Proof.
  intros Hs. unfold missing_entries. induction exp as [|kv exp IH]; [split; [by intros _ ? ?%elem_of_nil|done]|].
  cbn [omap list_omap]. destruct (om_has kv.1 seen) eqn:E.
  - rewrite IH. apply om_has_elem in E; [|done]. setoid_rewrite elem_of_cons. naive_solver.
  - split; [done|]. intros Hall. assert (om_has kv.1 seen = true) as Ht by (apply om_has_elem; [done|]; apply Hall; by left). congruence.
Qed.

(** The primary keys fit their length field. *)
Definition keys_fit (g : log) : Prop := Forall (λ x, lenN x.1 < 2 ^ 32) g.

Lemma decode_pk_len name key sec pk :
  bytes_ok key → decode_data_key name key = Some (sec, pk) → lenN pk < 2 ^ 32.
Proof.
  intros Hb Hd. unfold decode_data_key in Hd. destruct (strip_prefix INDEX_DATA_PREFIX key) as [rest|] eqn:Es; [|done].
  apply strip_prefix_Some in Es as ->. apply Forall_app in Hb as [_ Hb]. cbn [mbind option_bind] in Hd.
  destruct (length rest <? 2)%nat; [done|]. set (nl := N.to_nat (be_val (take 2 rest))) in *.
  destruct (length rest <? 2 + nl + 4)%nat; [done|]. destruct (negb (utf8_valid _)) in Hd; [done|].
  destruct (negb (bool_decide _)) in Hd; [done|].
  set (an := drop (2 + nl) rest) in *. destruct (length an <? 4)%nat eqn:H4; [done|]. apply Nat.ltb_ge in H4.
  set (pl := N.to_nat (be_val (drop (length an - 4) an))) in *.
  destruct (length an <? 4 + pl)%nat eqn:Hp; [done|]. apply Nat.ltb_ge in Hp. injection Hd as _ <-.
  assert (bytes_ok an) as Hban by (by apply Forall_drop).
  assert (be_val (drop (length an - 4) an) < 2 ^ 32) as Hbv.
  { pose proof (le_val_bound (reverse (drop (length an - 4) an))) as Hbd. rewrite length_reverse, length_drop in Hbd.
    replace (length an - (length an - 4))%nat with 4%nat in Hbd by lia. apply Hbd. by apply Forall_reverse, Forall_drop. }
  unfold lenN. rewrite length_drop, length_take. unfold pl in *. lia.
Qed.

(** No divergence is found exactly when the index is consistent. *)
Lemma verify_exact d g :
  Forall write_bytes g → keys_fit g → validate_index_name (id_name d) = Ok tt →
  let exp := expected_entries d (live (primary_prefix d) g) in
  let r := foldl (check_entry (id_name d) exp) ([], []) (live (encode_data_scan_prefix (id_name d) []) g) in
  r.1 ++ missing_entries exp r.2 = [] ↔ consistent_index d g.
Proof.
  intros Hb Hfit Hn exp r. destruct (expected_entries_elem d (live (primary_prefix d) g)) as [Hes Hexp];
    [apply om_sorted_NoDup, live_sorted|]. fold exp in Hes, Hexp.
  destruct (check_entries (id_name d) exp (live (encode_data_scan_prefix (id_name d) []) g)) as (Hr & Hrs & Hseen).
  fold r in Hr, Hrs, Hseen.
  assert (∀ pk sec, om_get pk exp = Some sec ↔ expected d g sec pk) as Hex.
  { intros pk sec. rewrite Hexp. unfold expected. setoid_rewrite live_elem. naive_solver. }
  assert (∀ kv sec pk, kv ∈ live (encode_data_scan_prefix (id_name d) []) g → decode_data_key (id_name d) kv.1 = Some (sec, pk) →
    lenN pk < 2 ^ 32 ∧ look (encode_data_key (id_name d) sec pk) g ≠ None) as Hrow.
  { intros [key v] sec pk [_ Hl]%live_elem E. cbn [fst] in E.
    assert (bytes_ok key) as Hbk by (apply look_elem in Hl; by apply (proj1 (Forall_forall _ _) Hb _ Hl)).
    split; [by eapply decode_pk_len|]. apply decode_data_key_Some in E as ->; [by rewrite Hl|done|by apply name_valid]. }
  assert (∀ sec pk, lenN pk < 2 ^ 32 → look (encode_data_key (id_name d) sec pk) g ≠ None →
    ∃ kv, kv ∈ live (encode_data_scan_prefix (id_name d) []) g ∧ decode_data_key (id_name d) kv.1 = Some (sec, pk)) as Hent.
  { intros sec pk Hpk Hl. destruct (look (encode_data_key (id_name d) sec pk) g) as [v|] eqn:E; [|done].
    exists (encode_data_key (id_name d) sec pk, v). split; [|by apply decode_data_key_encode].
    apply live_elem. split; [by apply data_key_scanned|done]. }
  assert (∀ sec pk, expected d g sec pk → lenN pk < 2 ^ 32) as Hlen.
  { intros sec pk (_ & _ & v & Hl & _). apply look_elem in Hl. by apply (proj1 (Forall_forall _ _) Hfit _ Hl). }
  rewrite app_nil, Hr, missing_nil by done. split.
  - intros [Ha Hm] sec pk Hpk. split.
    + intros Hl. destruct (Hent sec pk Hpk Hl) as (kv & Hin & E). by apply Hex, (Ha kv).
    + intros He. apply Hex in He as Hg. assert (pk ∈ r.2.*1) as (kv & s' & Hin & E & Hg')%Hseen.
      { apply (Hm (pk, sec)). by apply om_get_elem. }
      assert (s' = sec) as -> by congruence. by apply (Hrow kv).
  - intros Hc. split.
    + intros kv sec pk Hin E. destruct (Hrow kv sec pk Hin E) as [Hpk Hl]. by apply Hex, Hc.
    + intros [pk sec] Hin. cbn [fst]. apply om_get_elem in Hin; [|done]. apply Hseen. apply Hex in Hin as He.
      destruct (Hent sec pk) as (kv & Hkv & E); [by eapply Hlen|apply Hc; [by eapply Hlen|done]|]. by exists kv, sec.
Qed.

(** ** Backfill, on logs *)

Definition backfill_row (d : IndexDef) (kv : bytes * bytes) : log :=
  if is_index_system_key kv.1 then []
  else if starts_with (primary_prefix d) kv.1 then entry_plan d kv.1 kv.2 else [].

Definition backfill_plan (d : IndexDef) (rows : list (bytes * bytes)) : log := rows ≫= backfill_row d.

Definition create_plan (d : IndexDef) (g : log) : log :=
  let w := (encode_meta_key (id_name d), Some (encode_meta_value d)) in
  w :: backfill_plan d (live (primary_prefix d) (w :: g)).

Lemma backfill_elem d rows x :
  x ∈ backfill_plan d rows ↔
  ∃ k v sec, (k, v) ∈ rows ∧ is_index_system_key k = false ∧ starts_with (primary_prefix d) k = true ∧
    extract (extractor d) v = Some sec ∧ x = (encode_data_key (id_name d) sec k, Some []).
Proof.
  unfold backfill_plan. rewrite list_elem_of_bind. unfold backfill_row, entry_plan. split.
  - intros ([k v] & Hx & Hin). cbn [fst snd] in Hx. destruct (is_index_system_key k) eqn:Es; [by apply elem_of_nil in Hx|].
    destruct (starts_with (primary_prefix d) k) eqn:Ep; [|by apply elem_of_nil in Hx].
    destruct (extract (extractor d) v) as [sec|] eqn:Ee; [|by apply elem_of_nil in Hx].
    apply list_elem_of_singleton in Hx as ->. by exists k, v, sec.
  - intros (k & v & sec & Hin & Es & Ep & Ee & ->). exists (k, v). split; [|done]. cbn [fst snd]. rewrite Es, Ep, Ee. by left.
Qed.

Lemma create_system d g : Forall (λ x, is_index_system_key x.1 = true) (create_plan d g).
Proof.
  constructor; [done|]. apply Forall_forall. by intros x (k & v & sec & _ & _ & _ & _ & ->)%backfill_elem.
Qed.

Lemma create_primary d g k : is_index_system_key k = false → look k (reverse (create_plan d g) ++ g) = look k g.
Proof.
  intros Hk. apply look_not_in. eapply Forall_impl; [apply create_system|]. cbv beta. intros x Hx <-. congruence.
Qed.

Lemma expected_same d g g' sec pk :
  (∀ k, is_index_system_key k = false → look k g' = look k g) → expected d g' sec pk ↔ expected d g sec pk.
Proof.
  intros Hl. unfold expected. destruct (is_index_system_key pk) eqn:E; [naive_solver|]. by rewrite Hl.
Qed.

Lemma meta_not_data name name' sec pk : encode_meta_key name ≠ encode_data_key name' sec pk.
Proof. done. Qed.

Lemma create_entries d g sec pk :
  look (encode_data_key (id_name d) sec pk) g = None →
  look (encode_data_key (id_name d) sec pk) (reverse (create_plan d g) ++ g) ≠ None ↔
  (encode_data_key (id_name d) sec pk, Some []) ∈ create_plan d g.
Proof.
  intros Hnone. set (dk := encode_data_key (id_name d) sec pk) in *.
  assert (∀ v, (dk, v) ∈ create_plan d g → v = Some []) as Hagree.
  { intros v [[E _]%pair_eq|Hin]%elem_of_cons; [by destruct (meta_not_data _ _ _ _ (eq_sym E))|].
    by apply backfill_elem in Hin as (? & ? & ? & _ & _ & _ & _ & [_ ->]%pair_eq). }
  split.
  - intros Hl. destruct (decide (dk ∈ (reverse (create_plan d g)).*1)) as [Hin|Hin]; [|by rewrite look_skip in Hl].
    apply list_elem_of_fmap in Hin as ([k v] & E & Hin%reverse_elem). cbn [fst] in E. subst k. by rewrite <-(Hagree v Hin).
  - intros Hin. rewrite (look_agree _ _ dk (Some [])); [done| |by apply elem_of_reverse]. intros v Hv%reverse_elem. by apply Hagree.
Qed.

(** The new index is consistent, the others stay so. *)
Lemma create_consistent ix d g :
  indexes_ok ix → validate_index_name (id_name d) = Ok tt → keys_fit g →
  (∀ sec pk, lenN pk < 2 ^ 32 → look (encode_data_key (id_name d) sec pk) g = None) →
  consistent_indexes ix g → consistent_indexes (om_insert (id_name d) d ix) (reverse (create_plan d g) ++ g).
Proof.
  intros [Hs Hok] Hv Hfit Hfresh Hc nm d' Hin sec pk Hpk. rewrite (expected_same d' g) by (intros; by apply create_primary).
  set (w := (encode_meta_key (id_name d), Some (encode_meta_value d))).
  assert (∀ k v, is_index_system_key k = false → look k (w :: g) = Some v ↔ look k g = Some v) as Hw.
  { intros k v Hk. cbn [look w]. rewrite decide_False; [done|]. by intros ->. }
  apply om_get_elem in Hin; [|by apply om_insert_sorted]. destruct (decide (id_name d = nm)) as [<-|Hne].
  - rewrite om_get_insert_eq in Hin. injection Hin as <-. rewrite create_entries by (by apply Hfresh). unfold create_plan. fold w. split.
    + intros [[E _]%pair_eq|Hin]%elem_of_cons; [by destruct (meta_not_data _ _ _ _ (eq_sym E))|].
      apply backfill_elem in Hin as (k & v & s & [_ Hl]%live_elem & Es & Ep & Ee & [E _]%pair_eq). apply Hw in Hl; [|done].
      assert (lenN k < 2 ^ 32) as Hk by (apply look_elem in Hl; by apply (proj1 (Forall_forall _ _) Hfit _ Hl)).
      apply data_key_inj in E as (_ & -> & ->); [|done|done|done|done]. split_and!; [done|done|]. by exists v.
    + intros (Es & Ep & v & Hl & Ee). right. apply backfill_elem. exists pk, v, sec. split_and!; try done.
      apply live_elem. split; [done|]. by apply Hw.
  - rewrite om_get_insert_ne in Hin by done. apply om_get_elem in Hin; [|done].
    destruct (proj1 (Forall_forall _ _) Hok _ Hin) as [Hn' Hv']. cbn [fst snd] in Hn', Hv'.
    rewrite look_not_in; [by apply (Hc nm)|]. apply Forall_forall. intros x [->|Hx]%elem_of_cons E;
      [by destruct (meta_not_data _ _ _ _ E)|]. apply backfill_elem in Hx as (k & v & s & _ & _ & _ & _ & ->). cbn [fst] in E.
    apply data_key_name in E; [congruence|by apply name_valid|rewrite Hn'; by apply name_valid].
Qed.

Section IndexProps.
Context {T : Type} `{SstLaws T} (env : N → N * N * N).

Abbreviation Node := (Node (T:=T)).
Abbreviation task := (task (T:=T)).
Abbreviation stores := (stores env).
Abbreviation does := (does env).

Lemma node_index (n : Node) nm d : node_ok n → om_get nm (indexes n) = Some d → id_name d = nm ∧ validate_index_name nm = Ok tt.
Proof. intros [Hs Hok] Hg. apply om_get_elem in Hg; [|done]. exact (proj1 (Forall_forall _ _) Hok _ Hg). Qed.

(** One public write, a put or without a value a delete. *)
Definition public_write (key : bytes) (v : option bytes) (mode : option DurabilityMode) : task WriteResult :=
  match v with Some value => put env key value mode | None => Node.delete env key mode end.

(** C12: A public write that returns keeps every index consistent with the primary
    keys, and is visible. *)
Theorem index_maintained n h key v mode w :
  node_ok n → bytes_ok key → bytes_ok (default [] v) → max_key_len (limits (core n)) < 2 ^ 32 →
  stores (plan_cost (mutation_plan (indexes n) (key, v) (cells h))) h n → consistent_indexes (indexes n) (cells h) →
  let x := public_write key v mode n in
  x.1 = Done w →
  ∃ h', stores 0 h' x.2 ∧ indexes x.2 = indexes n ∧ look key (cells h') = v ∧ consistent_indexes (indexes x.2) (cells h').
Proof.
  intros Hn Hk Hv Hmax Hs Hc x Hd.
  assert (does (public_write key v mode) (mutation_plan (indexes n) (key, v) (cells h)) (put_post key n) n h) as Hdo.
  { unfold public_write, mutation_plan. cbn [fst snd]. destruct v; [by apply does_put|by apply does_delete]. }
  destruct (Hdo 0 Hs) as (l & h' & _ & Hs' & Hw & Hu & Hend). destruct (Hend w Hd) as (-> & Hrej & Hval & _).
  exists h'. fold x in Hu, Hs'. rewrite (upper_indexes _ _ Hu), (wrote_cells _ _ _ _ _ Hw).
  pose proof (reject_index key Hrej) as Hsys.
  assert (lenN key < 2 ^ 32) as Hlen.
  { unfold validate_key in Hval. destruct (lenN key =? 0); [done|]. destruct (N.ltb_spec (max_key_len (limits (core n))) (lenN key)); [done|lia]. }
  split_and!; [done|done| |].
  - rewrite look_user, user_mutation by done. rewrite reverse_singleton. apply look_eq.
  - unfold mutation_plan. cbn [fst snd]. destruct v; [by apply put_maintains|by apply delete_maintains].
Qed.

Lemma scan_by_index_eq room h (n : Node) name vp d :
  stores room h n → om_get name (indexes n) = Some d →
  scan_fits (limits (core n)) (encode_data_scan_prefix name vp) (cells h) →
  scan_by_index name vp n = (Done (index_rows name vp (live (encode_data_scan_prefix name vp) (cells h))), n).
Proof.
  intros Hs Hd Hfit. unfold scan_by_index, index_def, node, scan, reads, mbind, task_bind.
  rewrite Hd. unfold mret, task_ret. by rewrite (stores_scan _ _ _ _ Hs Hfit).
Qed.

(** A scan of a consistent index returns exactly the pairs of a secondary value
    under the prefix and a primary key that has it. *)
Theorem index_scan_exact h (n : Node) name vp d :
  node_ok n → stores 0 h n → om_get name (indexes n) = Some d →
  scan_fits (limits (core n)) (encode_data_scan_prefix name vp) (cells h) → consistent_index d (cells h) →
  ∃ rows, scan_by_index name vp n = (Done rows, n) ∧
    ∀ sec pk, lenN pk < 2 ^ 32 → (sec, pk) ∈ rows ↔ starts_with vp sec = true ∧ expected d (cells h) sec pk.
Proof.
  intros Hn Hs Hd Hfit Hc. destruct (node_index n name d Hn Hd) as [En Hv].
  eexists. split; [by eapply scan_by_index_eq|]. intros sec pk Hpk.
  rewrite index_rows_elem; [|apply Hs|done|done]. rewrite <-En. by rewrite (Hc sec pk Hpk).
Qed.

(** The verification finds no divergence exactly when the index is consistent. *)
Theorem index_verify_exact h (n : Node) name d :
  node_ok n → stores 0 h n → keys_fit (cells h) → om_get name (indexes n) = Some d →
  scan_fits (limits (core n)) (primary_prefix d) (cells h) →
  scan_fits (limits (core n)) (encode_data_scan_prefix name []) (cells h) →
  ∃ ds, verify_index name n = (Done ds, n) ∧ (ds = [] ↔ consistent_index d (cells h)).
Proof.
  intros Hn Hs Hk Hd Hf1 Hf2. destruct (node_index n name d Hn Hd) as [<- Hv].
  pose proof (verify_exact d (cells h) (st_bytes _ _ _ Hs) Hk Hv) as Hex. cbv zeta in Hex.
  unfold verify_index, index_def, node, scan, reads, mbind, task_bind. rewrite Hd. unfold mret, task_ret.
  rewrite (stores_scan _ _ _ _ Hs Hf1). cbn [reply_of]. rewrite (stores_scan _ _ _ _ Hs Hf2). cbn [reply_of].
  set (exp := expected_entries d (live (primary_prefix d) (cells h))) in *.
  destruct (foldl (check_entry (id_name d) exp) ([], []) (live (encode_data_scan_prefix (id_name d) []) (cells h))) as [ds seen] eqn:E.
  cbn [fst snd] in Hex. eexists. split; [done|]. exact Hex.
Qed.

(** *** Backfill *)

Lemma does_insert_named d key value n h :
  om_get (id_name d) (indexes n) = Some d → bytes_ok (id_name d) → bytes_ok key → bytes_ok value →
  does (insert_index_entries_for_named env (id_name d) key value)
    (if starts_with (primary_prefix d) key then entry_plan d key value else []) (λ _ _ _, True) n h.
Proof.
  intros Hd Hb Hk Hv. unfold insert_index_entries_for_named. apply does_node. rewrite Hd.
  destruct (starts_with (primary_prefix d) key); cbn [negb]; [|by apply does_ret]. unfold entry_plan.
  destruct (extract (extractor d) value) as [sec|] eqn:E; [|by apply does_ret].
  rewrite <-(app_nil_r [_]). eapply does_bind with (P := λ _ _ _, True); [apply does_write; [|done]|intros; by apply does_ret].
  split; [|constructor]. apply data_key_bytes; [done|by eapply extract_bytes|done].
Qed.

Lemma does_sync_rows d rows : ∀ scanned indexed n h,
  om_get (id_name d) (indexes n) = Some d → bytes_ok (id_name d) → Forall (λ x, bytes_ok x.1 ∧ bytes_ok x.2) rows →
  does (sync_rows env (id_name d) rows scanned indexed) (backfill_plan d rows) (λ _ _ _, True) n h.
Proof.
  induction rows as [|[k v] rows IH]; intros sc ixd n h Hd Hb Hr; cbn [sync_rows]; [by apply does_ret|].
  apply Forall_cons in Hr as [[Hk Hv] Hr]. unfold backfill_plan. rewrite bind_cons. unfold backfill_row at 1. cbn [fst snd] in *.
  destruct (is_index_system_key k); [by apply IH|].
  eapply does_bind; [by apply does_insert_named|]. intros b n1 h1 _ Hu _. apply IH; [by rewrite (upper_indexes _ _ Hu)|done|done].
Qed.

Lemma meta_bytes d :
  validate_index_name (id_name d) = Ok tt → extractor_ok (extractor d) → bytes_ok (primary_prefix d) →
  write_bytes (encode_meta_key (id_name d), Some (encode_meta_value d)).
Proof.
  intros Hn Hx Hp. split; cbn [fst snd default].
  - apply Forall_app. split; [repeat constructor|by apply name_bytes_ok].
  - unfold encode_meta_value. repeat (apply Forall_app; split); try done; try apply be_bytes_bytes_ok.
    + repeat constructor; [by destruct (unique d)|by destruct (extractor d)].
    + destruct (extractor d) as [|len|dl i]; cbn [encode_params extractor_ok] in *; [done|apply be_bytes_bytes_ok|].
      constructor; [apply Hx|apply be_bytes_bytes_ok].
Qed.

Lemma live_bytes p g : Forall write_bytes g → Forall (λ x, bytes_ok x.1 ∧ bytes_ok x.2) (live p g).
Proof.
  intros Hg. apply Forall_forall. intros [k v] [_ Hl]%live_elem. apply look_elem in Hl.
  by destruct (proj1 (Forall_forall _ _) Hg _ Hl).
Qed.

Lemma bind_Done {A B} (m : task A) (f : A → task B) n b n' :
  (m ≫= f) n = (Done b, n') → ∃ a n1, m n = (Done a, n1) ∧ f a n1 = (Done b, n').
Proof. unfold mbind, task_bind. destruct (m n) as [[a|x|] n1]; [|done|done]. eauto. Qed.

Lemma reply_Done {A} (r : result KayaError A) a : reply_of r = Done a → r = Ok a.
Proof. destruct r; [by intros [= ->]|done]. Qed.

(** The node when the backfill of a new index begins. *)
Definition registered (name : bytes) (d : IndexDef) (p : BackfillProgress) (n : Node) : Node :=
  let n := set_indexes (om_insert name d (indexes n)) n in set_backfill (om_insert name p (index_backfill n)) n.

Lemma create_inv d n n' :
  unique d = false → create_index_with env (id_name d) (primary_prefix d) (extractor d) Sync n = (Done tt, n') →
  validate_index_name (id_name d) = Ok tt ∧
  ∃ r n1, write env (encode_meta_key (id_name d)) (Some (encode_meta_value d)) None n = (Done r, n1) ∧
    run_sync_backfill env (id_name d) (primary_prefix d) (registered (id_name d) d BackfillProgress_default n1) = (Done tt, n').
Proof.
  intros Hun E. assert (mkIndexDef (id_name d) (primary_prefix d) false (extractor d) = d) as Edef by (rewrite <-Hun; by destruct d).
  unfold create_index_with in E. apply bind_Done in E as ([] & n0 & E0 & E). apply pair_eq in E0 as [Hv%reply_Done <-].
  split; [done|]. apply bind_Done in E as (n1 & n2 & [= <- <-] & E). destruct (om_has (id_name d) (indexes n)); [done|].
  case_bool_decide; [done|]. apply bind_Done in E as ([] & n3 & E3 & E). apply pair_eq in E3 as [_ <-].
  cbv zeta in E. rewrite Edef in E. apply bind_Done in E as (r & n4 & Hw & E). exists r, n4. split; [done|].
  apply bind_Done in E as ([] & n5 & [= <-] & E). by apply bind_Done in E as ([] & n6 & [= <-] & E).
Qed.

Lemma sync_backfill_end d (n : Node) h n' :
  om_get (id_name d) (indexes n) = Some d → bytes_ok (id_name d) →
  stores (plan_cost (backfill_plan d (live (primary_prefix d) (cells h)))) h n →
  scan_fits (limits (core n)) (primary_prefix d) (cells h) →
  run_sync_backfill env (id_name d) (primary_prefix d) n = (Done tt, n') →
  ∃ h', stores 0 h' n' ∧ cells h' = reverse (backfill_plan d (live (primary_prefix d) (cells h))) ++ cells h ∧
    indexes n' = indexes n ∧ bf_status <$> om_get (id_name d) (index_backfill n') = Some Complete.
Proof.
  intros Hd Hb Hs Hfit E. unfold run_sync_backfill in E. apply bind_Done in E as (rows & n0 & E0 & E).
  unfold scan, reads in E0. rewrite (stores_scan _ _ _ _ Hs Hfit) in E0. injection E0 as <- <-.
  apply bind_Done in E as (counts & n1 & E1 & E).
  destruct (does_sync_rows d (live (primary_prefix d) (cells h)) 0 0 n h Hd Hb (live_bytes _ _ (st_bytes _ _ _ Hs)) 0 Hs)
    as (l & h' & _ & Hs' & Hw & Hu & Hend). rewrite E1 in *. cbn [fst snd] in *. destruct (Hend counts eq_refl) as [-> _].
  unfold set_progress, update in E. injection E as <-. exists h'. split_and!.
  - destruct Hs' as [Hr' Hb']. by split.
  - by eapply wrote_cells.
  - cbn [indexes set_backfill]. by apply upper_indexes.
  - cbn [index_backfill set_backfill]. by rewrite om_get_insert_eq.
Qed.

(** Creating an index with a synchronous backfill makes it consistent with the
    primary keys there are, keeps the other indexes consistent, and reports it
    complete. *)
Theorem index_backfill_complete h (n : Node) d :
  let name := id_name d in
  unique d = false → node_ok n → stores (plan_cost (create_plan d (cells h))) h n → keys_fit (cells h) →
  extractor_ok (extractor d) → bytes_ok (primary_prefix d) →
  scan_fits (limits (core n)) (primary_prefix d) ((encode_meta_key name, Some (encode_meta_value d)) :: cells h) →
  (∀ sec pk, lenN pk < 2 ^ 32 → look (encode_data_key name sec pk) (cells h) = None) →
  consistent_indexes (indexes n) (cells h) →
  let x := create_index_with env name (primary_prefix d) (extractor d) Sync n in
  x.1 = Done tt →
  ∃ h', stores 0 h' x.2 ∧ om_get name (indexes x.2) = Some d ∧ consistent_indexes (indexes x.2) (cells h') ∧
    bf_status <$> om_get name (index_backfill x.2) = Some Complete.
Proof.
  intros name Hun Hn Hs Hk Hx Hp Hfit Hfresh Hc x Hd. destruct x as [r n'] eqn:E. cbn [fst snd] in *. subst r.
  destruct (create_inv d n n' Hun E) as (Hv & r & n1 & Ew & Eb). clear E.
  set (w := (encode_meta_key name, Some (encode_meta_value d))) in *.
  destruct (does_write env (encode_meta_key name) (Some (encode_meta_value d)) None (λ _ _ _, True) n h (meta_bytes d Hv Hx Hp)
    (λ _ _ _ _ _, I) (plan_cost (backfill_plan d (live (primary_prefix d) (w :: cells h))))) as (l1 & h1 & _ & Hs1 & Hw1 & Hu1 & Hd1).
  { eapply stores_room; [|exact Hs]. unfold create_plan, plan_cost. fold name w. cbn [fmap list_fmap foldr]. lia. }
  fold name in Ew. rewrite Ew in *. cbn [fst snd] in *. destruct (Hd1 r eq_refl) as [-> _].
  pose proof (wrote_cells _ _ _ _ _ Hw1) as Hc1. cbn [reverse rev_append app] in Hc1. fold w in Hc1.
  destruct (sync_backfill_end d (registered name d BackfillProgress_default n1) h1 n') as (h' & Hs' & Hc' & Hi & Hst).
  - unfold registered. cbn [indexes set_backfill set_indexes]. apply om_get_insert_eq.
  - by apply name_bytes_ok.
  - rewrite Hc1. by destruct Hs1.
  - rewrite Hc1. cbn [registered core set_backfill set_indexes]. by rewrite (upper_limits _ _ Hu1).
  - done.
  - exists h'. assert (indexes n' = om_insert name d (indexes n)) as ->
      by (rewrite Hi; cbn [registered indexes set_backfill set_indexes]; by rewrite (upper_indexes _ _ Hu1)).
    split_and!; [done|apply om_get_insert_eq| |done].
    assert (cells h' = reverse (create_plan d (cells h)) ++ cells h) as ->.
    { rewrite Hc', Hc1. unfold create_plan. fold name w. by rewrite reverse_cons, <-app_assoc. }
    by apply create_consistent.
Qed.

End IndexProps.

(** ** Runs *)

Definition demo_index : IndexDef := mkIndexDef (str "by") (str "u") false WholeValue.

Definition indexed_node : Node (T:=list SstEntry) := set_indexes [(str "by", demo_index)] fresh_node.

Lemma indexed_node_ok : node_ok indexed_node.
Proof. split; [by repeat constructor|]. by repeat constructor. Qed.

Lemma indexed_stores r : r <= 1000000 → stores still r [] indexed_node.
Proof. intros Hr. destruct fresh_stores as [H1 H2 H3]. split; [by eapply represents_room|done|done]. Qed.

Lemma empty_consistent ix : consistent_indexes ix [].
Proof. intros nm d _ sec pk _. split; [done|]. by intros (_ & _ & v & ? & _). Qed.

Lemma index_maintained_witness :
  ∃ h, stores still 0 h (public_write still (str "u1") (Some (str "red")) None indexed_node).2 ∧
    look (str "u1") (cells h) = Some (str "red") ∧
    consistent_indexes [(str "by", demo_index)] (cells h).
Proof.
  destruct (index_maintained still indexed_node [] (str "u1") (Some (str "red")) None (mkWriteResult 1 1 true)) as (h & Hs & _ & Hl & Hc).
  - apply indexed_node_ok.
  - by repeat constructor.
  - by repeat constructor.
  - done.
  - apply indexed_stores. by vm_compute.
  - apply empty_consistent.
  - by vm_compute.
  - by exists h.
Defined.

(** One key, indexed. *)
Definition entered_node : Node (T:=list SstEntry) := (put still (str "u1") (str "red") None indexed_node).2.

Lemma entered_stores :
  ∃ h, stores still 0 h entered_node ∧ cells h = reverse (put_plan [(str "by", demo_index)] (str "u1") (str "red") []) ∧
    node_ok entered_node ∧ indexes entered_node = [(str "by", demo_index)] ∧ consistent_index demo_index (cells h).
Proof.
  destruct (does_put still (str "u1") (str "red") None indexed_node [] indexed_node_ok) with (room := 0) as (l & h & _ & Hs & Hw & Hu & Hd).
  - by repeat constructor.
  - by repeat constructor.
  - apply indexed_stores. by vm_compute.
  - destruct (Hd (mkWriteResult 1 1 true)) as [-> _]; [by vm_compute|]. exists h.
    assert (cells h = reverse (put_plan [(str "by", demo_index)] (str "u1") (str "red") []) ++ []) as Hc
      by exact (wrote_cells _ _ _ _ _ Hw).
    split_and!; [done|by rewrite app_nil_r in Hc|by eapply node_ok_upper, indexed_node_ok|by apply (upper_indexes _ _ Hu)|].
    rewrite Hc. eapply (put_maintains [(str "by", demo_index)] (str "u1") [] indexed_node_ok eq_refl eq_refl (empty_consistent _)). by left.
Qed.

Lemma index_scan_exact_witness : ∃ rows, scan_by_index (str "by") (str "re") entered_node = (Done rows, entered_node) ∧ (str "red", str "u1") ∈ rows.
Proof.
  destruct entered_stores as (h & Hs & Hc & Hn & Hi & Hcons).
  destruct (index_scan_exact still h entered_node (str "by") (str "re") demo_index) as (rows & E & Hel).
  - done.
  - done.
  - by rewrite Hi.
  - rewrite Hc. split_and!; by vm_compute.
  - done.
  - exists rows. split; [done|]. apply Hel; [done|]. split; [done|]. split_and!; [done|done|].
    exists (str "red"). split; [rewrite Hc; by vm_compute|done].
Defined.

Lemma index_verify_exact_witness : verify_index (str "by") entered_node = (Done [], entered_node).
Proof.
  destruct entered_stores as (h & Hs & Hc & Hn & Hi & Hcons).
  destruct (index_verify_exact still h entered_node (str "by") demo_index) as (ds & E & Hel).
  - done.
  - done.
  - rewrite Hc. unfold keys_fit. apply (bool_decide_unpack _). by vm_compute.
  - by rewrite Hi.
  - rewrite Hc. split_and!; by vm_compute.
  - rewrite Hc. split_and!; by vm_compute.
  - rewrite E. by rewrite (proj2 Hel Hcons).
Defined.

(** A node with a primary key and no index yet. *)
Definition seeded_node : Node (T:=list SstEntry) := (put still (str "u1") (str "red") None fresh_node).2.

Lemma seeded_stores : ∃ h, stores still 10000 h seeded_node ∧ cells h = [(str "u1", Some (str "red"))] ∧ node_ok seeded_node ∧ indexes seeded_node = [].
Proof.
  destruct (does_put still (str "u1") (str "red") None fresh_node [] fresh_node_ok) with (room := 10000) as (l & h & _ & Hs & Hw & Hu & Hd).
  - by repeat constructor.
  - by repeat constructor.
  - eapply stores_room, fresh_stores. by vm_compute.
  - destruct (Hd (mkWriteResult 1 1 true)) as [-> _]; [by vm_compute|]. exists h.
    split_and!; [done|exact (wrote_cells _ _ _ _ _ Hw)|by eapply node_ok_upper, fresh_node_ok|by apply (upper_indexes _ _ Hu)].
Qed.

Lemma index_backfill_complete_witness :
  ∃ h, stores still 0 h (create_index_with still (str "by") (str "u") WholeValue Sync seeded_node).2 ∧
    consistent_index demo_index (cells h).
Proof.
  destruct seeded_stores as (h & Hs & Hc & Hn & Hi).
  destruct (index_backfill_complete still h seeded_node demo_index) as (h' & Hs' & Hg & Hcons & _).
  - done.
  - done.
  - rewrite Hc. eapply stores_room; [|exact Hs]. by vm_compute.
  - rewrite Hc. by repeat constructor.
  - done.
  - by repeat constructor.
  - rewrite Hc. split_and!; by vm_compute.
  - rewrite Hc. done.
  - rewrite Hi. by intros ? ? ?%elem_of_nil.
  - by vm_compute.
  - exists h'. split; [done|]. eapply Hcons. apply om_get_elem; [|exact Hg]. by vm_compute; repeat constructor.
Defined.

(** *** Divergence *)

(** The entry of an index is longer than its primary key, and can exceed the
    limit the primary key is within: then the put fails after its key was
    written, and the index misses it. *)
Theorem index_put_diverges :
  let n := limited_node (mkLimitsConfig 20 100 100 1000) in
  let c := create_index_with still (str "by") (str "u") WholeValue Sync n in
  let p := put still (str "u1") (str "crimson") None c.2 in
  c.1 = Done tt ∧
  p.1 = Failed (InvalidArgument "key length 27 exceeds max 20") ∧
  (get_latest (str "u1") p.2).1 = Done (Some (str "crimson")) ∧
  (scan_by_index (str "by") (str "c") p.2).1 = Done [] ∧
  (verify_index (str "by") p.2).1 = Done [mkDivergence (str "u1") (MissingInIndex (str "crimson"))].
Proof. vm_compute. repeat split. Qed.

(** An online backfill that was not finished is taken for complete when the
    metadata is loaded again: further steps do nothing, it cannot be resumed, and the
    index misses the key. *)
Theorem index_reload_incomplete :
  let n := seeded_node in
  let c := create_index_with still (str "by") (str "u") WholeValue Online n in
  let l := load_index_metadata c.2 in
  c.1 = Done tt ∧ l.1 = Done tt ∧ indexes l.2 = indexes c.2 ∧
  (index_backfill_step still (str "by") 10 l.2).1 = Done (mkBackfill Complete 0 0 None) ∧
  (index_backfill_resume (str "by") l.2).1 = Failed (InvalidArgument ("index " +:+ debug_str (str "by") +:+ " backfill already complete")) ∧
  (verify_index (str "by") (index_backfill_step still (str "by") 10 l.2).2).1
    = Done [mkDivergence (str "u1") (MissingInIndex (str "red"))].
Proof. vm_compute. repeat split. Qed.

(** A backfill sees no more keys than a scan returns, and reports itself complete;
    the verification is cut the same way and finds nothing. *)
Theorem index_backfill_truncated :
  let n := limited_node (mkLimitsConfig 100 100 1 1000) in
  let n1 := (put still (str "u1") (str "red") None n).2 in
  let n2 := (put still (str "u2") (str "blue") None n1).2 in
  let c := create_index_with still (str "by") (str "u") WholeValue Sync n2 in
  c.1 = Done tt ∧ bf_status <$> om_get (str "by") (index_backfill c.2) = Some Complete ∧
  (get_latest (str "u2") c.2).1 = Done (Some (str "blue")) ∧
  (scan_by_index (str "by") (str "blue") c.2).1 = Done [] ∧
  (verify_index (str "by") c.2).1 = Done [].
Proof. vm_compute. repeat split. Qed.
