(* ===== verification/CdcLoad.v ===== *)
(** Loading the change feed when an engine opens, [kaya-engine/src/cdc.rs]: the
    event log, the cursors of the consumers and the backup watermark. *)
From stdpp Require Import gmap.
From S2P Require Import Prelude Bytes Core Hlc OrdMap Path Disk WalCodec WalWriter WalDurability InternalKey SstBlock Memtable Manifest Compaction Engine EngineStore Index Cdc Node NodeStore Txn NodePlans EngineReads.

Open Scope N_scope.

(** ** Text *)

(** [String::from_utf8_lossy]: every maximal invalid part becomes U+FFFD. *)
Definition replacement : bytes := [0xEF; 0xBF; 0xBD].

Definition cont (b : N) : bool := in_range 0x80 0xBF b.

(** The length of the sequence the first bytes can begin, with the range of its second byte. *)
Definition utf8_lead (b : N) : option (nat * N * N) :=
  if in_range 0xC2 0xDF b then Some (2%nat, 0x80, 0xBF)
  else if b =? 0xE0 then Some (3%nat, 0xA0, 0xBF)
  else if b =? 0xED then Some (3%nat, 0x80, 0x9F)
  else if in_range 0xE1 0xEF b then Some (3%nat, 0x80, 0xBF)
  else if b =? 0xF0 then Some (4%nat, 0x90, 0xBF)
  else if in_range 0xF1 0xF3 b then Some (4%nat, 0x80, 0xBF)
  else if b =? 0xF4 then Some (4%nat, 0x80, 0x8F)
  else None.

Fixpoint utf8_lossy (fuel : nat) (bs : bytes) : bytes :=
  match fuel with
  | O => []
  | S fuel =>
      match bs with
      | [] => []
      | b :: rest =>
          if b <? 0x80 then b :: utf8_lossy fuel rest
          else match utf8_lead b, rest with
          | Some (len, lo, hi), c :: rest2 =>
              if negb (in_range lo hi c) then replacement ++ utf8_lossy fuel rest
              else if (len =? 2)%nat then [b; c] ++ utf8_lossy fuel rest2
              else match rest2 with
              | d :: rest3 =>
                  if negb (cont d) then replacement ++ utf8_lossy fuel rest2
                  else if (len =? 3)%nat then [b; c; d] ++ utf8_lossy fuel rest3
                  else match rest3 with
                  | e :: rest4 =>
                      if negb (cont e) then replacement ++ utf8_lossy fuel rest3
                      else [b; c; d; e] ++ utf8_lossy fuel rest4
                  | [] => replacement
                  end
              | [] => replacement
              end
          | _, _ => replacement ++ utf8_lossy fuel rest
          end
      end
  end.

Definition from_utf8_lossy (bs : bytes) : bytes := utf8_lossy (length bs) bs.

Definition strip_cr (line : bytes) : bytes :=
  if bool_decide (last line = Some 13) then removelast line else line.

(** [str::lines]. *)
Definition text_lines (s : bytes) : list bytes :=
  let parts := split_on 10 s in
  (strip_cr <$> removelast parts) ++ match last parts with Some (b :: l) => [b :: l] | _ => [] end.

(** ** Files *)

(** The loop of reads; every read that does not end it makes progress, so the
    length of the file is enough of them. *)
Fixpoint read_loop (fuel : nat) (path : bytes) (offset len : N) : stm SimState bytes :=
  match fuel with
  | O => mret []
  | S fuel =>
      if negb (offset <? len) then mret []
      else
        chunk ← read_at path offset (len - offset);
        if lenN chunk =? 0 then mret []
        else rest ← read_loop fuel path (offset + lenN chunk) len; mret (chunk ++ rest)
  end.

Definition read_file (path : bytes) (len : N) : stm SimState bytes := read_loop (N.to_nat len) path 0 len.

Definition CDC_CURSORS_DIR : bytes := str "cdc/cursors".
Definition CDC_BACKUP_WATERMARK : bytes := str "cdc/backup_watermark".

Definition cursor_rel_path (id : bytes) : result KayaError bytes := path_new (CDC_CURSORS_DIR ++ [ch_slash] ++ id).

(** A number in a file of its own. *)
Definition parse_number (not_utf8 not_number : string) (bs : bytes) : result KayaError N :=
  if negb (utf8_valid bs) then Err (Corruption not_utf8)
  else match parse_uint u64_max (trim bs) with Some n => Ok n | None => Err (Corruption not_number) end.

Definition read_cursor_file (id : bytes) : stm SimState N :=
  path ← lift (cursor_rel_path id);
  len ← file_len path;
  if len =? 0 then mret 0
  else
    bs ← read_file path len;
    lift (parse_number "cdc cursor not utf-8" "cdc cursor not a u64" bs).

(** [sort_by_key(|e| e.seq)]; the sort is stable. *)
Fixpoint insert_event (ev : CdcEvent) (evs : list CdcEvent) : list CdcEvent :=
  match evs with
  | [] => [ev]
  | x :: evs => if ev_seq ev <=? ev_seq x then ev :: x :: evs else x :: insert_event ev evs
  end.

Definition sort_events (evs : list CdcEvent) : list CdcEvent := foldr insert_event [] evs.

Fixpoint decode_lines (ls : list bytes) : result KayaError (list CdcEvent) :=
  match ls with
  | [] => Ok []
  | l :: ls =>
      if bool_decide (trim l = []) then decode_lines ls
      else ev ← decode_event_line l; evs ← decode_lines ls; Ok (ev :: evs)
  end.

(** A call whose error is a value. *)
Definition catch {S A} (m : stm S A) : stm S (result KayaError A) := λ s, let '(r, s) := m s in (Ok r, s).

Definition load_events : stm SimState (list CdcEvent) :=
  path ← lift (path_new CDC_LOG_PATH);
  r ← catch (file_len path);
  match r with
  | Ok len =>
      if 0 <? len then
        bs ← read_file path len;
        evs ← lift (decode_lines (text_lines (from_utf8_lossy bs)));
        mret (sort_events evs)
      else mret []
  | Err NotFound => mret []
  | Err e => fail e
  end.

Fixpoint load_cursors (entries : list DirEntry) (m : gmap bytes N) : stm SimState (gmap bytes N) :=
  match entries with
  | [] => mret m
  | ent :: entries =>
      if is_dir ent then load_cursors entries m
      else
        let name := default [] (last (split_on ch_slash (de_path ent))) in
        if bool_decide (name = []) || negb (is_ok (validate_consumer_id name)) then load_cursors entries m
        else
          r ← catch (read_cursor_file name);
          load_cursors entries (match r with Ok seq => <[name := seq]> m | Err _ => m end)
  end.

Definition load_cdc_log_and_cursors : stm SimState CdcState :=
  evs ← load_events;
  dir ← lift (path_new CDC_CURSORS_DIR);
  r ← catch (list_dir dir);
  match r with
  | Ok entries => m ← load_cursors entries ∅; mret (mkCdcState evs m)
  | Err NotFound => mret (mkCdcState evs ∅)
  | Err e => fail e
  end.

Section CdcLoad.
Context {T : Type}.

Definition load_cdc_state : task (T:=T) unit :=
  n ← node;
  if negb (enable_cdc n) then update (set_cdc CdcState_new)
  else c ← disk load_cdc_log_and_cursors; update (set_cdc c).

Definition cdc_consumer_seq (id : bytes) (n : Node (T:=T)) : result KayaError N :=
  _ ← validate_consumer_id id;
  Ok (default 0 (consumer_last_seq (cdc n) !! id)).

Definition cdc_write_backup_watermark (seq : N) : task (T:=T) unit :=
  n ← node;
  if negb (enable_cdc n) then failed cdc_disabled
  else
    path ← of_result (path_new CDC_BACKUP_WATERMARK);
    let payload := dec_bytes seq ++ [10] in
    _ ← disk (write_at path 0 payload);
    _ ← disk (truncate path (lenN payload));
    disk (fsync_file path).

Definition cdc_read_backup_watermark : task (T:=T) (option N) :=
  n ← node;
  if negb (enable_cdc n) then mret None
  else
    path ← of_result (path_new CDC_BACKUP_WATERMARK);
    r ← disk (catch (file_len path));
    match r with
    | Ok len =>
        if len =? 0 then mret None
        else
          bs ← disk (read_file path len);
          s ← of_result (parse_number "cdc backup watermark not utf-8" "cdc backup watermark not a u64" bs);
          mret (Some s)
    | Err NotFound => mret None
    | Err e => failed e
    end.

End CdcLoad.

(** ** Reading back *)

Lemma utf8_lossy_ascii bs : ∀ fuel, (length bs ≤ fuel)%nat → Forall (λ b, b < 0x80) bs → utf8_lossy fuel bs = bs.
Proof.
  induction bs as [|b bs IH]; intros fuel Hf Hb; destruct fuel as [|fuel]; cbn [length] in Hf; try done; try lia.
  apply Forall_cons in Hb as [Hb Hbs]. cbn [utf8_lossy]. rewrite (proj2 (N.ltb_lt _ _)) by done. rewrite IH; [done|lia|done].
Qed.

Definition line_of (ev : CdcEvent) : bytes := 123 :: line_body ev ++ [125].

Lemma line_of_plain ev : event_ok ev → Forall plain (line_of ev).
Proof. intros He. constructor; [done|]. apply Forall_app. split; [by apply line_body_plain|by constructor]. Qed.

Lemma plain_no_newline l : Forall plain l → 10 ∉ l.
Proof. intros Hl Hin. destruct (proj1 (Forall_forall _ _) Hl 10 Hin) as [? _]. lia. Qed.

Lemma decode_line_of ev : event_ok ev → decode_event_line (line_of ev) = Ok ev.
Proof.
  intros He. rewrite <-(decode_encode_line ev He), encode_event_line_eq. fold (line_of ev). unfold decode_event_line.
  rewrite trim_plain by (by apply line_of_plain). by rewrite trim_line by (done || by apply line_of_plain).
Qed.

Lemma split_lines evs :
  Forall event_ok evs → split_on 10 (evs ≫= encode_event_line) = (line_of <$> evs) ++ [[]].
Proof.
  induction 1 as [|ev evs He _ IH]; [done|]. rewrite bind_cons, encode_event_line_eq. fold (line_of ev). rewrite <-app_assoc.
  cbn [app]. rewrite split_on_app by (by apply plain_no_newline, line_of_plain). by rewrite IH.
Qed.

Lemma strip_cr_plain l : Forall plain l → strip_cr l = l.
Proof.
  intros Hl. unfold strip_cr. case_bool_decide as E; [|done]. apply last_Some_elem_of in E.
  destruct (proj1 (Forall_forall _ _) Hl 13 E) as [? _]. lia.
Qed.

Lemma text_lines_events evs : Forall event_ok evs → text_lines (evs ≫= encode_event_line) = line_of <$> evs.
Proof.
  intros He. unfold text_lines. rewrite split_lines by done. rewrite removelast_last, last_snoc, app_nil_r.
  induction He as [|ev evs Hev _ IH]; [done|]. cbn [fmap list_fmap]. rewrite strip_cr_plain by (by apply line_of_plain). by f_equal.
Qed.

Lemma decode_lines_events evs : Forall event_ok evs → decode_lines (line_of <$> evs) = Ok evs.
Proof.
  induction 1 as [|ev evs He _ IH]; [done|]. cbn [fmap list_fmap decode_lines].
  rewrite trim_plain by (by apply line_of_plain). rewrite bool_decide_eq_false_2 by done.
  rewrite decode_line_of by done. cbn [mbind result_bind]. rewrite IH. done.
Qed.

Lemma sort_events_sorted evs : StronglySorted (λ x y, ev_seq x <= ev_seq y) evs → sort_events evs = evs.
Proof.
  unfold sort_events. induction 1 as [|ev evs _ IH Hf]; [done|]. cbn [foldr]. rewrite IH. destruct evs as [|x evs]; [done|].
  cbn [insert_event]. apply Forall_cons in Hf as [Hx _]. by rewrite (proj2 (N.leb_le _ _)).
Qed.

Lemma read_file_all path f s :
  om_get path (files s) = Some f → read_file path (lenN (volatile f)) s = (Ok (volatile f), s).
Proof.
  intros Hf. unfold read_file. destruct (volatile f) as [|b l] eqn:E; [done|]. rewrite <-E.
  destruct (N.to_nat (lenN (volatile f))) as [|fuel] eqn:El; [unfold lenN in El; rewrite E in El; cbn in El; lia|].
  assert (0 < lenN (volatile f)) as Hpos by (unfold lenN; rewrite E; cbn [length]; lia).
  cbn [read_loop]. rewrite (proj2 (N.ltb_lt _ _)) by done. cbn [negb]. unfold mbind, stm_bind.
  assert (read_at path 0 (lenN (volatile f) - 0) s = (Ok (volatile f), s)) as ->.
  { unfold read_at. rewrite Hf. rewrite (proj2 (N.leb_gt _ _)) by lia. rewrite drop_0, take_ge; [done|]. unfold lenN. lia. }
  rewrite (proj2 (N.eqb_neq _ _)) by lia. rewrite N.add_0_l.
  destruct fuel as [|fuel]; cbn [read_loop]; rewrite ?N.ltb_irrefl; cbn [negb]; unfold mret, stm_ret; by rewrite app_nil_r.
Qed.

(** The log of the disk holds the events, as written and as synced. *)
Definition log_holds (s : SimState) (evs : list CdcEvent) : Prop :=
  let c := evs ≫= encode_event_line in
  om_get CDC_LOG_PATH (files s) = Some (mkSimFile c c) ∨ evs = [] ∧ om_get CDC_LOG_PATH (files s) = None.

Lemma load_events_log s evs :
  log_holds s evs → Forall event_ok evs → StronglySorted (λ x y, ev_seq x <= ev_seq y) evs → load_events s = (Ok evs, s).
Proof.
  intros Hl He Hs. unfold load_events. assert (path_new CDC_LOG_PATH = Ok CDC_LOG_PATH) as -> by (by vm_compute).
  unfold mbind, stm_bind, lift, catch, file_len. destruct Hl as [Hf|[-> Hf]]; [|by rewrite Hf]. rewrite Hf. cbn [volatile].
  set (c := evs ≫= encode_event_line) in *. destruct (N.ltb_spec 0 (lenN c)) as [Hpos|Hz].
  - pose proof (read_file_all CDC_LOG_PATH _ s Hf) as Hr. cbn [volatile] in Hr. rewrite Hr.
    assert (from_utf8_lossy c = c) as ->.
    { apply utf8_lossy_ascii; [done|]. unfold c. clear -He. induction He as [|ev evs Hev _ IH]; [done|].
      rewrite bind_cons, encode_event_line_eq. apply Forall_app. split; [|done]. apply Forall_app. split; [|by constructor].
      eapply Forall_impl; [by apply (line_of_plain ev)|]. intros b [_ [? _]]. lia. }
    unfold c. rewrite text_lines_events, decode_lines_events by done. unfold mret, stm_ret. by rewrite sort_events_sorted.
  - destruct evs as [|ev evs]; [done|]. exfalso. unfold c in Hz. rewrite bind_cons, encode_event_line_eq in Hz.
    unfold lenN in Hz. rewrite !length_app in Hz. cbn [length] in Hz. lia.
Qed.

(** ** Appending *)

Section CdcAppend.
Context {T : Type}.

Abbreviation Node := (Node (T:=T)).

Definition disk_of (n : Node) : SimState := w_disk (wal (core n)).

Lemma disk_run {A} (op : stm SimState A) (n : Node) r s :
  op (disk_of n) = (r, s) → ∃ n', disk op n = (reply_of r, n') ∧ disk_of n' = s ∧ cdc n' = cdc n ∧ enable_cdc n' = enable_cdc n.
Proof.
  intros E. unfold disk, edisk, on_disk. fold (disk_of n). rewrite E. eexists. by split_and!.
Qed.

Lemma append_sync_log s evs ev :
  fault_schedule s = None → om_sorted (files s) → log_holds s evs →
  ∃ s', (append CDC_LOG_PATH (encode_event_line ev) ≫= λ _, fsync_file CDC_LOG_PATH) s = (Ok tt, s') ∧
    log_holds s' (evs ++ [ev]) ∧ fault_schedule s' = None ∧ om_sorted (files s') ∧ strict_namespace s' = strict_namespace s.
Proof.
  intros Hf Hso Hl.
  assert (volatile (file_or_default CDC_LOG_PATH s) = evs ≫= encode_event_line) as Hv.
  { unfold file_or_default. by destruct Hl as [->|[-> ->]]. }
  unfold mbind, stm_bind, append, take_fault, append_bytes. rewrite Hf. cbn [mbind option_bind].
  unfold fsync_file, take_fault. cbn [fault_schedule with_files files mbind option_bind fault_not_partial].
  cbn [files with_files fault_schedule strict_namespace]. rewrite om_get_insert_eq. eexists. split_and!; [done| |done| |done].
  - left. cbn [files with_files volatile]. rewrite om_get_insert_eq.
    change (file_or_default CDC_LOG_PATH _) with (file_or_default CDC_LOG_PATH s). rewrite Hv, bind_app, bind_singleton. done.
  - cbn [files with_files]. by repeat apply om_insert_sorted.
Qed.

Lemma log_holds_crash s evs : strict_namespace s = false → log_holds s evs → log_holds (crash s) evs.
Proof.
  intros Hn Hl. unfold log_holds, crash in *. rewrite Hn. cbn [files with_files].
  assert (∀ m : list (bytes * SimFile), om_get CDC_LOG_PATH (prod_map id crash_file <$> m) = crash_file <$> om_get CDC_LOG_PATH m) as Hg.
  { induction m as [|[k f] m IH]; [done|]. cbn [fmap list_fmap prod_map om_get fst snd id]. by destruct (kcmp _ _). }
  rewrite Hg. destruct Hl as [->|[-> ->]]; [by left|by right].
Qed.

(** An event is durable when the append returns: on a disk without faults the
    append returns, the event is the last of the feed, and what an engine
    loads after a crash is the feed with the event. *)
Theorem cdc_append_durable (n : Node) ev :
  let evs := cdc_events (cdc n) in
  enable_cdc n = true → fault_schedule (disk_of n) = None → om_sorted (files (disk_of n)) →
  strict_namespace (disk_of n) = false → log_holds (disk_of n) evs →
  Forall event_ok (evs ++ [ev]) → StronglySorted (λ x y, ev_seq x <= ev_seq y) (evs ++ [ev]) →
  ∃ n', append_cdc_event ev n = (Done tt, n') ∧ cdc_events (cdc n') = evs ++ [ev] ∧
    log_holds (disk_of n') (evs ++ [ev]) ∧ (load_events (crash (disk_of n'))).1 = Ok (evs ++ [ev]).
Proof.
  intros evs He Hf Hso Hns Hl Hok Hsort. destruct (append_sync_log _ _ ev Hf Hso Hl) as (s2 & E & Hl2 & _ & _ & Hn2).
  unfold mbind, stm_bind in E. destruct (append CDC_LOG_PATH (encode_event_line ev) (disk_of n)) as [[a|] s1] eqn:Ea; [|done].
  destruct (disk_run _ n _ _ Ea) as (n1 & E1 & <- & Hc1 & He1). destruct (disk_run _ n1 _ _ E) as (n2 & E2 & Hd2 & Hc2 & He2).
  exists (set_cdc (mkCdcState (evs ++ [ev]) (consumer_last_seq (cdc n2))) n2). split_and!.
  - unfold append_cdc_event, mbind, task_bind, node. rewrite He. cbn [negb].
    assert (path_new CDC_LOG_PATH = Ok CDC_LOG_PATH) as -> by (by vm_compute). unfold of_result. cbn [reply_of].
    rewrite E1. cbn [reply_of]. rewrite E2. cbn [reply_of]. unfold update. by rewrite Hc2, Hc1.
  - done.
  - unfold disk_of in *. cbn [core set_cdc]. by rewrite Hd2.
  - unfold disk_of in *. cbn [core set_cdc]. rewrite Hd2. rewrite (load_events_log (crash s2) (evs ++ [ev])); [done| |done|done].
    apply log_holds_crash; [by rewrite Hn2|done].
Qed.

End CdcAppend.

(** ** Runs *)

Definition feed_node (d : SimState) : Node (T:=list SstEntry) :=
  let n := fresh_node in
  mkNode (set_wal (upd_disk d (wal (core n))) (core n)) (txn n) [] [] true CdcState_new 0.

Lemma cdc_append_durable_witness :
  ∃ n', append_cdc_event (mkCdcEvent 1 [107] (Some [1]) OpPut) (feed_node SimDisk_new) = (Done tt, n') ∧
    (load_events (crash (disk_of n'))).1 = Ok [mkCdcEvent 1 [107] (Some [1]) OpPut].
Proof.
  destruct (cdc_append_durable (feed_node SimDisk_new) (mkCdcEvent 1 [107] (Some [1]) OpPut)) as (n' & E & _ & _ & Hl).
  - done.
  - done.
  - apply om_sorted_nil.
  - done.
  - right. by split.
  - constructor; [|done]. split; [done|by repeat constructor|]. exists [1]. by split; [|repeat constructor].
  - by repeat constructor.
  - by exists n'.
Defined.

(** A line of the log that was written in part makes loading fail: the put was
    acknowledged, and the engine does not open again.  Torn records at the end of the
    write-ahead log are recovered from. *)
Theorem cdc_torn_line_blocks_open :
  let faulty := mkSimState [] 0 (Some [mkFaultRule 3 (FPartialWrite 10)]) false [] [] in
  let n := feed_node faulty in
  let p := put still [107] [1] None n in
  p.1 = Done (mkWriteResult 1 1 true) ∧
  (load_cdc_state p.2).1 = Failed (Corruption "cdc log line is not a JSON object").
Proof. vm_compute. repeat split. Qed.

(** The directory entry of the log is never synced: on a disk that keeps a new file
    only once its directory was synced, a crash after an acknowledged put keeps the
    segment of the write-ahead log and loses the feed with its event. *)
Theorem cdc_log_lost_by_crash :
  let strict := mkSimState [] 0 None true [] [] in
  let e := core fresh_node in
  let w := demo_writer (mkWalConfig 100000 1000 (mkWalBatchConfig 1 0 0)) strict in
  let n := mkNode (set_wal w e) TxnTables_new [] [] true CdcState_new 0 in
  let p := put still [107] [1] (Some Strict) n in
  let after := crash (disk_of p.2) in
  p.1 = Done (mkWriteResult 1 1 true) ∧ cdc_events (cdc p.2) = [mkCdcEvent 1 [107] (Some [1]) OpPut] ∧
  (files after).*1 = [active_path (wal (core p.2))] ∧ (load_events after).1 = Ok [].
Proof. vm_compute. repeat split. Qed.
