(* ===== verification/EngineOpen.v ===== *)
(** Opening the engine: [Engine::open] of [kaya-engine/src/lib.rs], and the helpers and the
    stand-alone [recover] of [kaya-engine/src/recovery.rs]. *)
From stdpp Require Import gmap.
From S2P Require Import Prelude Bytes Core Hlc OrdMap Path Disk WalCodec WalWriter WalRecovery WalDurability InternalKey SstBlock Memtable Manifest Compaction Engine EngineReads EngineStore Index Cdc Node Txn2pc IndexOps CdcLoad.

Open Scope N_scope.

(** ** Configuration and reports *)

(** The part of [EngineConfig] the engine keeps; the table options belong to the table format. *)
Record EngineConfig := mkEngineConfig {
  ec_data_dir : bytes;
  ec_durability : DurabilityMode;
  ec_wal : WalConfig;
  ec_memtable_max_bytes : N;
  ec_limits : LimitsConfig;
  ec_compaction : CompactionConfig;
  ec_disable_locking : bool;
  ec_enable_cdc : bool;
  ec_use_hlc : bool;
  ec_max_clock_offset_micros : N
}.

Inductive RecoveryWarning : Type := RWal (w : WalWarning) | RManifest (w : ManifestWarning).

(** [records_replayed] repeats [wal_records_replayed]. *)
Record RecoveryReport := mkRecoveryReport {
  rp_manifest_records_replayed : N;
  rp_live_sstable_count : N;
  rp_wal_records_replayed : N;
  rp_wal_truncated_bytes : N;
  rp_tmp_files_removed : N;
  rp_last_lsn : option N;
  rp_last_sequence : option N;
  rp_warnings : list RecoveryWarning;
  rp_wal : WalRecoveryReport;
  rp_txn2pc_aborted : N;
  rp_txn2pc_finished_commits : N;
  rp_txn2pc_pending : N
}.

Definition recovery_report (manifest_records live tmp_files : N) (manifest_warnings : list ManifestWarning)
    (wal : WalRecoveryReport) : RecoveryReport :=
  let next_sequence := next_sequence_of wal in
  mkRecoveryReport manifest_records live (lenN (records wal)) (truncated_bytes wal) tmp_files (last_lsn wal)
    (if 1 <? next_sequence then Some (next_sequence - 1) else None)
    ((RWal <$> warnings wal) ++ (RManifest <$> manifest_warnings)) wal 0 0 0.

Definition count_txn2pc (stats : Txn2pcRecoveryStats) (r : RecoveryReport) : RecoveryReport :=
  mkRecoveryReport (rp_manifest_records_replayed r) (rp_live_sstable_count r) (rp_wal_records_replayed r)
    (rp_wal_truncated_bytes r) (rp_tmp_files_removed r) (rp_last_lsn r) (rp_last_sequence r) (rp_warnings r) (rp_wal r)
    (rs_aborted stats) (rs_finished_commits stats) (lenN (rs_undecided_prepared stats) mod 2 ^ 32).

(** Whether the lock file is held: [created] is the outcome of creating the directory, [free]
    whether the file could be opened and locked. *)
Definition acquire_directory_lock (config : EngineConfig) (created : result KayaError unit) (free : bool)
    : result KayaError bool :=
  if ec_disable_locking config then Ok false
  else if bool_decide (ec_data_dir config = []) then Ok false
  else _ ← created; if free : bool then Ok true else Err LockConflict.

(** ** Helpers *)

Definition ends_with (suffix bs : bytes) : bool := starts_with (rev suffix) (rev bs).

Definition is_temp (entry : DirEntry) : bool := negb (is_dir entry) && ends_with (str ".tmp") (de_path entry).

Definition scan_temp_files : stm SimState (list bytes) :=
  current_tmp ← lift (path_new CURRENT_TMP_FILE_NAME);
  found ← catch (file_len current_tmp);
  let temps := if is_ok found then [current_tmp] else [] in
  sst_dir ← lift (path_new (str "sst"));
  listed ← catch (list_dir sst_dir);
  match listed with
  | Ok entries => mret (temps ++ (de_path <$> filter (λ entry, is_temp entry = true) entries))
  | Err NotFound => mret temps
  | Err e => fail e
  end.

Fixpoint remove_files (paths : list bytes) : stm SimState unit :=
  match paths with
  | [] => mret tt
  | path :: paths => _ ← remove_file path; remove_files paths
  end.

(** The name [CURRENT] holds. *)
Definition current_name (bs : bytes) : result KayaError bytes :=
  if utf8_valid bs then path_new (trim bs) else Err (Corruption "CURRENT file is not valid UTF-8").

Section EngineOpen.
Context {T : Type} `{SstFormat T}.

Fixpoint load_tables (metas : list TableMetadata) : stm SimState (list (TableMetadata * T)) :=
  match metas with
  | [] => mret []
  | meta :: metas =>
      sst_rel ← lift (path_new (path meta));
      sst_len ← file_len sst_rel;
      sst_buf ← read_at sst_rel 0 sst_len;
      reader ← lift (sst_open sst_buf);
      rest ← load_tables metas;
      mret ((meta, reader) :: rest)
  end.

(** A [file_len] whose [NotFound] is an answer. *)
Definition find_len (path : bytes) : stm SimState (option N) :=
  r ← catch (file_len path);
  match r with Ok len => mret (Some len) | Err NotFound => mret None | Err e => fail e end.

Definition load_manifest_and_sstables
    : stm SimState (ManifestState * list (TableMetadata * T) * N * list ManifestWarning) :=
  let none := (ManifestState_default, [], 0, []) in
  current_rel ← lift (path_new CURRENT_FILE_NAME);
  current_len ← find_len current_rel;
  match current_len with
  | None | Some 0 => mret none
  | Some len =>
      current_buf ← read_at current_rel 0 len;
      manifest_rel ← lift (current_name current_buf);
      manifest_len ← find_len manifest_rel;
      match manifest_len with
      | None => mret none
      | Some m_len =>
          manifest_buf ← read_at manifest_rel 0 m_len;
          let '(state, replayed_count, warnings) := replay_manifest manifest_buf in
          live ← load_tables (live_tables state);
          mret (state, sort_tables live, replayed_count, warnings)
      end
  end.

(** ** [recover] *)

(** The manifest part of the report; the tables are not opened. *)
Definition manifest_summary : stm SimState (N * N * list ManifestWarning) :=
  current_rel ← lift (path_new CURRENT_FILE_NAME);
  r ← catch (file_len current_rel);
  match r with
  | Ok len =>
      if 0 <? len then
        current_buf ← read_at current_rel 0 len;
        manifest_rel ← lift (current_name current_buf);
        r ← catch (file_len manifest_rel);
        match r with
        | Ok m_len =>
            if 0 <? m_len then
              manifest_buf ← read_at manifest_rel 0 m_len;
              let '(state, replayed_count, warnings) := replay_manifest manifest_buf in
              mret (replayed_count, lenN (live_tables state), warnings)
            else mret (0, 0, [])
        | Err _ => mret (0, 0, [])
        end
      else mret (0, 0, [])
  | Err _ => mret (0, 0, [])
  end.

Definition recover (config : EngineConfig) : stm SimState RecoveryReport :=
  temp_files ← scan_temp_files;
  wal_report ← recover_wal (ec_wal config);
  '(replayed, live, manifest_warnings) ← manifest_summary;
  mret (recovery_report replayed live (lenN temp_files) manifest_warnings wal_report).

(** ** [Engine::open] *)

Definition next_id_after (metas : list TableMetadata) : N :=
  match metas with [] => 1 | _ => foldr N.max 0 ((λ t, table_id t + 1) <$> metas) end.

(** Up to the construction of the engine. *)
Definition open_core (config : EngineConfig) : stm SimState (Engine T * RecoveryReport) :=
  temp_files ← scan_temp_files;
  _ ← remove_files temp_files;
  wal_report ← recover_wal (ec_wal config);
  let mem := replay (rr_record <$> records wal_report) Memtable_new in
  let next_sequence := next_sequence_of wal_report in
  d ← get_state;
  w ← lift (open_at (ec_wal config) (next_lsn_of wal_report) next_sequence d);
  '(state, live, replayed, manifest_warnings) ← load_manifest_and_sstables;
  let e := mkEngine (ec_limits config) (ec_durability config) (ec_memtable_max_bytes config) (ec_compaction config)
             hlc_zero (ec_use_hlc config) (ec_max_clock_offset_micros config) w mem (next_sequence - 1) state
             (next_id_after (live_tables state)) (last_edit_seq state + 1) live ∅ 0 in
  mret (e, recovery_report replayed (lenN live) (lenN temp_files) manifest_warnings wal_report).

(** With the layers above, which load their state from the engine. *)
Definition engine_open (env : N → N * N * N) (config : EngineConfig) (lock : result KayaError bool) (d : SimState)
    : reply (Node (T:=T) * RecoveryReport) :=
  match lock with
  | Err e => Failed e
  | Ok _ =>
      match (open_core config d).1 with
      | Err e => Failed e
      | Ok (e, report) =>
          let n := mkNode e TxnTables_new [] [] (ec_enable_cdc config) CdcState_new 0 in
          let layers := _ ← load_index_metadata; _ ← load_cdc_state; recover_incomplete_2pc env in
          match layers n with
          | (Done stats, n) => Done (n, count_txn2pc stats report)
          | (Failed e, _) => Failed e
          | (Waiting, _) => Waiting
          end
      end
  end.
End EngineOpen.
