(* ===== verification/EngineTables.v ===== *)
(** The tables of the engine on disk: after every completed flush, compaction and write the
    manifest and the table files hold what the engine has in memory, and loading them after a
    crash gives it back. *)
From stdpp Require Import gmap.
From S2P Require Import Prelude Bytes Core Hlc OrdMap Path Disk WalCodec WalWriter WalRecovery WalLayout WalDurability InternalKey SstBlock SstSpec SstIndex Sstable SstBuild SstTable Memtable Manifest Compaction Engine EngineReads EngineStore EngineCompact Cdc CdcLoad EngineOpen.

Open Scope N_scope.

(** ** Disk operations by the files they change *)

Notation dget d p := (om_get p (files d)).

Definition synced (bs : bytes) : SimFile := mkSimFile bs bs.

(** [d'] is [d] with [f] at [p]. *)
Definition changed (p : bytes) (f : option SimFile) (d d' : SimState) : Prop :=
  disk_ok d' ∧ ∀ q, dget d' q = if decide (q = p) then f else dget d q.

Lemma changed_at p f d d' : changed p f d d' → dget d' p = f.
Proof. intros [_ H]. rewrite H. by destruct (decide (p = p)). Qed.
Lemma changed_ne p f d d' q : changed p f d d' → q ≠ p → dget d' q = dget d q.
Proof. intros [_ H] Hne. rewrite H. by destruct (decide (q = p)). Qed.

Lemma changed_insert p f d d' : disk_ok d → disk_ok d' → files d' = om_insert p f (files d) → changed p (Some f) d d'.
Proof.
  intros [Hs _] Hd' E. split; [done|]. intros q. rewrite E. destruct (decide (q = p)) as [->|Hne].
  - apply om_get_insert_eq.
  - by apply om_get_insert_ne.
Qed.

Lemma append_at p bs d : disk_ok d →
  let old := default (mkSimFile [] []) (dget d p) in
  ∃ n d', append p bs d = (Ok n, d') ∧ changed p (Some (mkSimFile (volatile old ++ bs) (stable old))) d d'.
Proof.
  intros Hd. destruct (append_ok p bs d Hd) as (d' & Ha & Hd' & E). eexists _, d'. split; [exact Ha|]. by apply changed_insert.
Qed.

Lemma fsync_at p f d : disk_ok d → dget d p = Some f →
  ∃ d', fsync_file p d = (Ok tt, d') ∧ changed p (Some (synced (volatile f))) d d'.
Proof.
  intros Hd Hf. destruct (fsync_file_ok p d f Hd Hf) as (d' & Ha & Hd' & E). exists d'. split; [exact Ha|]. by apply changed_insert.
Qed.

Lemma write_new p bs d : disk_ok d → dget d p = None →
  ∃ n d', write_at p 0 bs d = (Ok n, d') ∧ changed p (Some (mkSimFile bs [])) d d'.
Proof.
  intros [Hs Hf] Hn. unfold write_at, take_fault. rewrite Hf. cbn. eexists _, _. split; [done|].
  unfold file_or_default. cbn. rewrite Hn. cbn. unfold overwrite. cbn [Nat.add length N.to_nat app Nat.sub take].
  rewrite drop_ge, app_nil_r by (rewrite length_replicate; lia).
  apply changed_insert; [by split|split; cbn; [by apply om_insert_sorted|done]|done].
Qed.

Lemma rename_at p q f d : disk_ok d → dget d p = Some f → p ≠ q →
  ∃ d', rename p q d = (Ok tt, d') ∧ disk_ok d' ∧
    ∀ r, dget d' r = if decide (r = q) then Some f else if decide (r = p) then None else dget d r.
Proof.
  intros [Hs Hf] Hp Hne. unfold rename, take_fault. cbn. rewrite Hp. eexists. split; [done|].
  match goal with |- disk_ok ?d' ∧ _ => assert (files d' = om_insert q f (om_remove p (files d))) as E end.
  { repeat case_match; done. }
  assert (om_sorted (om_remove p (files d))) as Hr by (by apply om_remove_sorted). split.
  - split; [rewrite E; by apply om_insert_sorted|]. repeat case_match; done.
  - intros r. rewrite E. destruct (decide (r = q)) as [->|Hrq]; [apply om_get_insert_eq|].
    rewrite om_get_insert_ne by done. destruct (decide (r = p)) as [->|Hrp]; [by apply om_get_remove_eq|].
    by apply om_get_remove_ne.
Qed.

Lemma fsync_dir_at p d : disk_ok d → ∃ d', fsync_dir p d = (Ok tt, d') ∧ disk_ok d' ∧ files d' = files d.
Proof. apply fsync_dir_ok. Qed.

(** Writing a file under a temporary name and renaming it. *)
Definition publish (tmp p dir bs : bytes) : stm SimState unit :=
  _ ← write_at tmp 0 bs;
  _ ← fsync_file tmp;
  _ ← rename tmp p;
  fsync_dir dir.

Lemma publish_at tmp p dir bs d : disk_ok d → dget d tmp = None → tmp ≠ p →
  ∃ d', publish tmp p dir bs d = (Ok tt, d') ∧ changed p (Some (synced bs)) d d'.
Proof.
  intros Hd Hn Hne. destruct (write_new tmp bs d Hd Hn) as (n & d1 & E1 & Hc1).
  destruct (fsync_at tmp _ d1 (proj1 Hc1) (changed_at _ _ _ _ Hc1)) as (d2 & E2 & Hc2).
  destruct (rename_at tmp p _ d2 (proj1 Hc2) (changed_at _ _ _ _ Hc2) Hne) as (d3 & E3 & Hd3 & H3).
  destruct (fsync_dir_at dir d3 Hd3) as (d4 & E4 & Hd4 & Ef). exists d4.
  unfold publish, mbind, stm_bind. rewrite E1, E2, E3, E4. split; [done|]. split; [done|].
  intros q. rewrite Ef, H3. destruct (decide (q = p)) as [->|Hq]; [done|].
  destruct (decide (q = tmp)) as [->|Hqt]; [done|].
  by rewrite (changed_ne _ _ _ _ q Hc2), (changed_ne _ _ _ _ q Hc1).
Qed.

(** ** Names *)

Definition sst_prefix : bytes := str "sst/".
Definition table_name (id : N) (ext : string) : bytes := hex_digits 16 id ++ str ext.

Lemma table_file_name id ext : table_file id ext = sst_prefix ++ table_name id ext.
Proof. done. Qed.

Lemma table_file_prefix id ext : starts_with sst_prefix (table_file id ext) = true.
Proof. apply starts_with_spec. by exists (table_name id ext). Qed.

Definition plain_ext (ext : string) : Prop := Forall plain (str ext) ∧ ch_slash ∉ str ext.

Lemma ext_sst : plain_ext ".sst".
Proof. split; [by repeat constructor|by vm_compute; set_solver]. Qed.
Lemma ext_tmp : plain_ext ".tmp".
Proof. split; [by repeat constructor|by vm_compute; set_solver]. Qed.

Lemma table_name_plain id ext : plain_ext ext → Forall plain (table_name id ext) ∧ ch_slash ∉ table_name id ext.
Proof.
  intros [Hp Hs]. unfold table_name. split.
  - apply Forall_app. split; [|done]. apply hex_digits_Forall. intros. by apply hex_digit_plain.
  - intros [H|H]%elem_of_app; [|done].
    pose proof (hex_digits_Forall (λ b, b ≠ ch_slash) 16 id ltac:(intros; by apply hex_digit_plain)) as Hf.
    rewrite Forall_forall in Hf. by apply (Hf _ H).
Qed.

Lemma table_name_long id ext : (16 ≤ length (table_name id ext))%nat.
Proof. unfold table_name. rewrite length_app, length_hex_digits. lia. Qed.

Lemma table_name_good id ext : good_part (table_name id ext).
Proof. pose proof (table_name_long id ext) as L. unfold good_part. split_and!; intros E; rewrite E in L; cbn in L; lia. Qed.

Lemma split_table_file id ext : plain_ext ext → split_on ch_slash (table_file id ext) = [str "sst"; table_name id ext].
Proof.
  intros He. change (table_file id ext) with (str "sst" ++ ch_slash :: table_name id ext).
  rewrite split_on_app; [f_equal; by apply split_on_no_sep, table_name_plain|]. vm_compute. set_solver.
Qed.

Lemma path_new_table id ext : plain_ext ext → path_new (table_file id ext) = Ok (table_file id ext).
Proof.
  intros He. apply path_new_plain; [| |done|done].
  - apply Forall_app. split; [by repeat constructor|by apply table_name_plain].
  - rewrite split_table_file by done. repeat constructor; try done; apply table_name_good.
Qed.

Lemma path_join_table id ext : plain_ext ext → path_join (str "sst") (table_name id ext) = Ok (table_file id ext).
Proof.
  intros He. unfold path_join. rewrite path_new_plain.
  - unfold mbind, result_bind, is_root. rewrite !bool_decide_eq_false_2; [|apply table_name_good|done].
    by apply path_new_table.
  - by apply table_name_plain.
  - rewrite split_on_no_sep by by apply table_name_plain. repeat constructor; apply table_name_good.
  - apply not_true_iff_false. rewrite starts_with_spec. intros [k Hk].
    apply (proj2 (table_name_plain id ext He)). rewrite Hk. by left.
  - intros Hl. pose proof (hex_digits_Forall (λ b, b ≠ ch_colon) 16 id ltac:(intros; by apply hex_digit_plain)) as Hf.
    unfold table_name in Hl. rewrite lookup_app_l in Hl by (rewrite length_hex_digits; lia).
    rewrite Forall_lookup in Hf. by apply (Hf _ _ Hl).
Qed.

Lemma hex_digits_inj a b : a < 2 ^ 64 → b < 2 ^ 64 → hex_digits 16 a = hex_digits 16 b → a = b.
Proof.
  intros Ha Hb E. pose proof (parse_hex_digits_hex 16 a Ha Ha) as E1. rewrite E, (parse_hex_digits_hex 16 b Hb Hb) in E1. congruence.
Qed.

Lemma table_file_inj a b ext : a < 2 ^ 64 → b < 2 ^ 64 → table_file a ext = table_file b ext → a = b.
Proof. intros Ha Hb E. apply hex_digits_inj; [done..|]. unfold table_file in E. by apply app_inv_head, app_inv_tail in E. Qed.

Lemma table_file_ext a b : table_file a ".sst" ≠ table_file b ".tmp".
Proof.
  intros E. unfold table_file in E. apply app_inv_head, (f_equal (drop 16)) in E.
  by rewrite !drop_app_length' in E by (by rewrite length_hex_digits).
Qed.

Lemma table_file_other id ext p : starts_with sst_prefix p = false → table_file id ext ≠ p.
Proof. intros H E. by rewrite <-E, table_file_prefix in H. Qed.

Lemma ascii_valid bs : Forall (λ b, b < 0x80) bs → utf8_valid bs = true.
Proof. induction 1 as [|b bs Hb _ IH]; [done|]. cbn [utf8_valid]. by rewrite (proj2 (N.ltb_lt _ _)). Qed.

Lemma table_file_ascii id : Forall (λ b, b < 0x80) (table_file id ".sst").
Proof.
  unfold table_file. rewrite !Forall_app. split; [by repeat constructor|split; [|by repeat constructor]].
  apply hex_digits_Forall. intros n Hn. unfold hex_digit. destruct (n <? 10); lia.
Qed.

(** ** Temporary files *)

(** What is under [sst/] are finished tables, and [CURRENT.tmp] is not left over. *)
Record tidy (d : SimState) : Prop := {
  td_disk : disk_ok d;
  td_sst : ∀ p f, starts_with sst_prefix p = true → dget d p = Some f → ∃ id, p = table_file id ".sst";
  td_tmp : dget d CURRENT_TMP_FILE_NAME = None
}.

Lemma no_temp_table d id : tidy d → dget d (table_file id ".tmp") = None.
Proof.
  intros [_ Hs _]. destruct (dget d (table_file id ".tmp")) as [f|] eqn:E; [|done].
  destruct (Hs _ _ (table_file_prefix id ".tmp") E) as [i Hi]. symmetry in Hi. by apply table_file_ext in Hi.
Qed.

Lemma table_file_not_temp id n : is_temp (mkDirEntry (table_file id ".sst") false n) = false.
Proof.
  unfold is_temp, ends_with, table_file. cbn [is_dir de_path negb andb]. rewrite !rev_app_distr. reflexivity.
Qed.

Lemma list_entries_tables fs : ∀ seen,
  (∀ k f, (k, f) ∈ fs → starts_with sst_prefix k = true → ∃ id, k = table_file id ".sst") →
  ∃ es, list_entries (str "sst") sst_prefix seen fs = Ok es ∧ Forall (λ x, is_temp x = false) es.
Proof.
  induction fs as [|[k f] fs IH]; intros seen Hk; [by exists []|]. cbn [list_entries].
  destruct (IH seen) as (es & Hes & Hf); [intros; eapply Hk; [by right|done]|].
  destruct (starts_with sst_prefix k) eqn:Es; [|by exists es]. cbn [negb].
  destruct (Hk k f) as [id ->]; [by left|done|]. rewrite table_file_name, drop_app_length.
  case_bool_decide; [by exists es|]. rewrite split_on_no_sep by apply table_name_plain, ext_sst. cbn [head default from_option Datatypes.id].
  case_bool_decide; [by exists es|]. rewrite path_join_table by apply ext_sst. cbn [mbind result_bind].
  destruct (IH (table_name id ".sst" :: seen)) as (es' & -> & Hf'); [intros; eapply Hk; [by right|done]|].
  rewrite (bool_decide_eq_false_2 (ch_slash ∈ _)) by apply table_name_plain, ext_sst. cbn [mbind result_bind mret result_ret].
  eexists. split; [done|]. constructor; [apply table_file_not_temp|done].
Qed.

Lemma scan_tidy d : tidy d → scan_temp_files d = (Ok [], d).
Proof.
  intros [Hd Hs Ht]. unfold scan_temp_files, mbind, stm_bind, lift, catch.
  change (path_new CURRENT_TMP_FILE_NAME) with (Ok CURRENT_TMP_FILE_NAME : result KayaError bytes).
  unfold file_len. rewrite Ht. cbn [is_ok]. change (path_new (str "sst")) with (Ok (str "sst") : result KayaError bytes).
  unfold list_dir. change (if is_root (str "sst") then [] else str "sst" ++ [ch_slash]) with sst_prefix.
  destruct (list_entries_tables (files d) []) as (es & -> & Hf).
  { intros k f Hin Hk. eapply Hs; [done|]. apply om_get_elem; [apply Hd|done]. }
  enough (filter (λ entry, is_temp entry = true) es = []) as -> by done.
  induction Hf as [|x es Hx Hf IH]; [done|]. rewrite filter_cons_False; [done|]. by rewrite Hx.
Qed.

(** ** The order of the tables *)

Lemma Forall_filter_keep {A} (P Q : A → Prop) `{!∀ x, Decision (P x)} l : Forall Q l → Forall Q (filter P l).
Proof. rewrite !Forall_forall. intros HQ x [_ Hx]%list_elem_of_filter. auto. Qed.

Lemma filter_keep_all {A} (P : A → Prop) `{!∀ x, Decision (P x)} l : Forall P l → filter P l = l.
Proof. induction 1 as [|x l Hx _ IH]; [done|]. by rewrite filter_cons_True, IH. Qed.

Section Sorting.
Context {T : Type}.
Implicit Types (x y : TableMetadata * T) (l : list (TableMetadata * T)).

Definition newer x y : Prop := table_id y.1 <= table_id x.1.

Lemma insert_table_perm x l : insert_table x l ≡ₚ x :: l.
Proof. induction l as [|y l IH]; cbn; [done|]. case_match; [done|]. rewrite IH. constructor. Qed.

Lemma sort_tables_perm l : sort_tables l ≡ₚ l.
Proof. induction l as [|x l IH]; cbn; [done|]. by rewrite insert_table_perm, IH. Qed.

Lemma insert_table_sorted x l : StronglySorted newer l → StronglySorted newer (insert_table x l).
Proof.
  induction 1 as [|y l Hl IH Hy]; cbn; [by repeat constructor|]. case_match eqn:E; nbool.
  - repeat constructor; [done|done|done|]. eapply Forall_impl; [exact Hy|]. unfold newer. intros z. lia.
  - constructor; [done|]. rewrite insert_table_perm. constructor; [unfold newer; lia|done].
Qed.

Lemma sort_tables_sorted l : StronglySorted newer (sort_tables l).
Proof. induction l as [|x l IH]; cbn; [constructor|by apply insert_table_sorted]. Qed.

Lemma insert_table_head x l : Forall (λ y, newer x y) l → insert_table x l = x :: l.
Proof. destruct 1 as [|y l Hy _]; [done|]. cbn. unfold newer in Hy. by rewrite (proj2 (N.leb_le _ _)). Qed.

Lemma sort_sorted l : StronglySorted newer l → sort_tables l = l.
Proof. induction 1 as [|x l Hl IH Hx]; [done|]. cbn [sort_tables foldr]. fold (sort_tables l). by rewrite IH, insert_table_head. Qed.

Lemma sort_snoc_newest x l : Forall (λ y, table_id y.1 < table_id x.1) l → sort_tables (l ++ [x]) = x :: sort_tables l.
Proof.
  induction 1 as [|y l Hy Hl IH]; [done|]. cbn [app sort_tables foldr]. fold (sort_tables (l ++ [x])) (sort_tables l).
  rewrite IH. cbn [insert_table]. by rewrite (proj2 (N.leb_gt _ _)).
Qed.

Lemma filter_insert (P : TableMetadata * T → Prop) `{!∀ x, Decision (P x)} x l : StronglySorted newer l →
  filter P (insert_table x l) = if decide (P x) then insert_table x (filter P l) else filter P l.
Proof.
  induction 1 as [|y l Hl IH Hy]; cbn [insert_table]; [by rewrite filter_cons|].
  destruct (N.leb_spec (table_id y.1) (table_id x.1)) as [E|E].
  - destruct (decide (P x)); [rewrite (filter_cons_True P x)|by rewrite (filter_cons_False P x)]; [|done].
    rewrite insert_table_head; [done|]. apply Forall_filter_keep. constructor; [done|].
    eapply Forall_impl; [exact Hy|]. unfold newer. intros z. lia.
  - rewrite !filter_cons, IH. repeat case_decide; cbn [insert_table]; rewrite ?(proj2 (N.leb_gt _ _)) by done; done.
Qed.

Lemma sort_filter (P : TableMetadata * T → Prop) `{!∀ x, Decision (P x)} l : sort_tables (filter P l) = filter P (sort_tables l).
Proof.
  induction l as [|x l IH]; [done|]. cbn [sort_tables foldr]. fold (sort_tables l). rewrite filter_insert by apply sort_tables_sorted.
  rewrite filter_cons. case_decide; [|done]. cbn [sort_tables foldr]. by rewrite <-IH.
Qed.

Lemma filter_sorted (P : TableMetadata * T → Prop) `{!∀ x, Decision (P x)} l : StronglySorted newer l → StronglySorted newer (filter P l).
Proof.
  induction 1 as [|x l Hl IH Hx]; [constructor|]. rewrite filter_cons. case_decide; [|done]. constructor; [done|]. by apply Forall_filter_keep.
Qed.
End Sorting.

(** ** What is stored *)

(** The metadata of a table the engine builds fits its fields in the manifest. *)
Class SstMeta (T : Type) `{SstFormat T} : Prop :=
  sst_meta_fits es bs : table_fits es → sst_build es = Ok bs →
    lenN bs < 2 ^ 64 ∧ (∀ lo hi, decode_footer_seqs bs = Ok (lo, hi) → lo < 2 ^ 64 ∧ hi < 2 ^ 64) ∧
    (∀ c, footer_stored_crc bs = Ok c → c < 2 ^ 32).

Section Stored.
Context {T : Type} `{SstLaws T} `{!SstMeta T}.
Implicit Types e : Engine T.

(** The file of a live table holds it, synced. *)
Record table_stored (d : SimState) (meta : TableMetadata) (t : T) (es : list SstEntry) : Prop := {
  ts_path : path meta = table_file (table_id meta) ".sst";
  ts_id : table_id meta < 2 ^ 64;
  ts_file : ∃ bs, dget d (path meta) = Some (synced bs) ∧ sst_build es = Ok bs ∧ sst_open bs = Ok t;
  ts_some : es ≠ [];
  ts_sorted : sst_sorted es;
  ts_fits : table_fits es
}.

Definition holds_table (d : SimState) (x : TableMetadata * T) : Prop := ∃ es, table_stored d x.1 x.2 es.

(** The manifest file holds the edits, and [CURRENT] names it; before the first edit there is
    neither. *)
Definition manifest_holds (d : SimState) (es : list (ManifestEdit * N)) : Prop :=
  match es with
  | [] => dget d CURRENT_FILE_NAME = None ∧ dget d MANIFEST_FILE_NAME = None
  | _ => dget d CURRENT_FILE_NAME = Some (synced MANIFEST_FILE_NAME) ∧ dget d MANIFEST_FILE_NAME = Some (synced (encode_edits es))
  end.

(** [es] are the edits so far, [xs] the live tables in the order of their creation. *)
Record stored (d : SimState) (es : list (ManifestEdit * N)) (xs : list (TableMetadata * T)) : Prop := {
  st_tidy : tidy d;
  st_edits : edits_ok es;
  st_manifest : manifest_holds d es;
  st_live : live_tables (apply_edits ManifestState_default es) = xs.*1;
  st_tables : Forall (holds_table d) xs
}.

(** *** Loading *)

Lemma file_len_synced p bs d : dget d p = Some (synced bs) → file_len p d = (Ok (lenN bs), d).
Proof. intros E. unfold file_len. by rewrite E. Qed.

Lemma find_len_at p d : find_len p d = (Ok (lenN ∘ volatile <$> dget d p), d).
Proof. unfold find_len, mbind, stm_bind, catch, file_len. by destruct (dget d p). Qed.

Lemma read_synced p bs n d : dget d p = Some (synced bs) → n = lenN bs → read_at p 0 n d = (Ok bs, d).
Proof. intros E ->. exact (read_at_all p d (synced bs) E). Qed.

Lemma load_tables_stored d xs : Forall (holds_table d) xs → load_tables xs.*1 d = (Ok xs, d).
Proof.
  induction 1 as [|[meta t] xs [es Hx] _ IH]; [done|]. cbn [fmap list_fmap fst load_tables]. unfold mbind, stm_bind, lift.
  destruct (ts_file _ _ _ _ Hx) as (bs & Hf & _ & Ho). cbn [fst snd] in *.
  rewrite (ts_path _ _ _ _ Hx) in *. rewrite path_new_table by apply ext_sst. rewrite (file_len_synced _ _ _ Hf).
  rewrite (read_synced _ _ _ _ Hf eq_refl), Ho, IH. done.
Qed.

Lemma load_stored d es xs : stored d es xs →
  load_manifest_and_sstables d = (Ok (apply_edits ManifestState_default es, sort_tables xs, lenN es, []), d).
Proof.
  intros [_ Hok Hm Hl Ht]. unfold load_manifest_and_sstables, mbind, stm_bind, lift.
  change (path_new CURRENT_FILE_NAME) with (Ok CURRENT_FILE_NAME : result KayaError bytes).
  cbn iota beta. rewrite find_len_at.
  destruct es as [|x es]; cbn [manifest_holds] in Hm.
  { destruct Hm as [-> _]. by destruct xs. }
  destruct Hm as [Hc Hm]. set (el := x :: es) in *. rewrite Hc.
  change (lenN ∘ volatile <$> Some (synced MANIFEST_FILE_NAME)) with (Some 15). cbn iota beta.
  rewrite (read_synced _ _ 15 _ Hc eq_refl).
  change (current_name MANIFEST_FILE_NAME) with (Ok MANIFEST_FILE_NAME : result KayaError bytes).
  cbn iota beta. rewrite find_len_at, Hm. cbn [fmap option_fmap option_map compose volatile synced]. rewrite (read_synced _ _ _ _ Hm eq_refl).
  pose proof (manifest_replay el [] Hok ltac:(by left)) as Hr. rewrite app_nil_r in Hr. rewrite Hr.
  rewrite Hl, load_tables_stored by done. done.
Qed.
(** *** Crashes and other files *)

Definition same_other (d d2 : SimState) : Prop := ∀ p, starts_with wal_prefix p = false → dget d2 p = dget d p.

Lemma sst_not_wal p : starts_with sst_prefix p = true → starts_with wal_prefix p = false.
Proof. intros [k ->]%starts_with_spec. done. Qed.

(** The files a stored state needs keep what they hold, and no others appear. *)
Lemma stored_keep d d2 es xs : stored d es xs → disk_ok d2 →
  (∀ p bs, starts_with wal_prefix p = false → dget d p = Some (synced bs) → dget d2 p = Some (synced bs)) →
  (∀ p, starts_with wal_prefix p = false → dget d p = None → dget d2 p = None) → stored d2 es xs.
Proof.
  intros [[Hd Hs Ht] Hok Hm Hl Hx] Hd2 H1 H2. split; [|done| |done|].
  - split; [done| |by apply H2]. intros p f Hp Hf. destruct (dget d p) as [f0|] eqn:E; [by eapply Hs|].
    rewrite H2 in Hf by (done || by apply sst_not_wal). done.
  - unfold manifest_holds in *. destruct es; destruct Hm; split; auto.
  - eapply Forall_impl; [exact Hx|]. intros x (es' & [Hp Hi (bs & Hf & Hb) Hn Hso Hfi]). exists es'. split; [done|done| |done..].
    exists bs. split; [|done]. apply H1; [|done]. rewrite Hp. apply sst_not_wal, table_file_prefix.
Qed.

Lemma stored_other d d2 es xs : stored d es xs → disk_ok d2 → same_other d d2 → stored d2 es xs.
Proof. intros Hs Hd Ho. eapply stored_keep; [done..| |]; intros; by rewrite Ho. Qed.

Lemma synced_survive bs f : file_survives (synced bs) f → f = synced bs.
Proof. destruct f as [v s]. intros (H1 & H2 & E). cbn in *. subst s. by assert (v = bs) as -> by (by apply (anti_symm prefix)). Qed.

Lemma stored_crash d d2 es xs : stored d es xs → crash_to d d2 → stored d2 es xs.
Proof.
  intros Hs [Hd Hc]. eapply stored_keep; [done..| |]; intros p.
  - intros bs _ Hp. specialize (Hc p). rewrite Hp in Hc. inversion Hc as [? f Hf|]; subst. by apply synced_survive in Hf as ->.
  - intros _ Hp. specialize (Hc p). rewrite Hp in Hc. by inversion Hc.
Qed.

(** *** The engine during an operation *)

(** The engine [e] with other counters, on another disk. *)
Definition eng (d : SimState) (t s : N) e : Engine T := set_wal (upd_disk d (wal e)) (set_next_ids t s e).

Definition disk_of e : SimState := w_disk (wal e).

Lemma eng_self e : e = eng (disk_of e) (next_table_id e) (next_manifest_edit_seq e) e.
Proof. by destruct e as [???????[] ????????]. Qed.

Lemma take_eng e : (take_table_id e).2 = eng (disk_of e) (next_table_id e + 1) (next_manifest_edit_seq e) e.
Proof. by destruct e as [???????[] ????????]. Qed.

Lemma edisk_eng {A} (op : stm SimState A) d t s e : edisk op (eng d t s e) = let '(r, d') := op d in (r, eng d' t s e).
Proof. unfold edisk, on_disk. cbn. by destruct (op d). Qed.

Lemma next_edit_eng x d t s e : next_edit x (eng d t s e) = (Ok (encode_manifest_edit x s), eng d t (s + 1) e).
Proof. done. Qed.

(** The manifest has grown to [es], not synced yet; nothing else has changed. *)
Record grown (d : SimState) (es : list (ManifestEdit * N)) (d' : SimState) : Prop := {
  gr_disk : disk_ok d';
  gr_file : volatile (default (mkSimFile [] []) (dget d' MANIFEST_FILE_NAME)) = encode_edits es;
  gr_other : ∀ q, q ≠ MANIFEST_FILE_NAME → dget d' q = dget d q
}.

Lemma encode_edits_snoc es x n : encode_edits (es ++ [(x, n)]) = encode_edits es ++ encode_manifest_edit x n.
Proof. unfold encode_edits. rewrite bind_app. cbn. by rewrite app_nil_r. Qed.

Lemma grown_append d es d1 x n : grown d es d1 →
  ∃ k d2, append MANIFEST_FILE_NAME (encode_manifest_edit x n) d1 = (Ok k, d2) ∧ grown d (es ++ [(x, n)]) d2 ∧
    ∃ f, dget d2 MANIFEST_FILE_NAME = Some f.
Proof.
  intros [Hd Hf Ho]. destruct (append_at MANIFEST_FILE_NAME (encode_manifest_edit x n) d1 Hd) as (k & d2 & Ha & Hc).
  exists k, d2. split; [done|]. split; [|rewrite (changed_at _ _ _ _ Hc); by eexists]. split; [apply Hc| |].
  - rewrite (changed_at _ _ _ _ Hc), encode_edits_snoc, <-Hf. done.
  - intros q Hq. rewrite (changed_ne _ _ _ _ q Hc Hq). by apply Ho.
Qed.

Lemma grown_start d es : manifest_holds d es → disk_ok d → grown d es d.
Proof. intros Hm Hd. split; [done| |done]. destruct es; destruct Hm as [_ ->]; done. Qed.

(** The end of a manifest change: sync and [CURRENT]. *)
Lemma publish_current_eng d es d1 t s e : grown d es d1 → is_Some (dget d1 MANIFEST_FILE_NAME) →
  dget d CURRENT_TMP_FILE_NAME = None → es ≠ [] →
  ∃ d2, (_ ← edisk (fsync_file MANIFEST_FILE_NAME); publish_current) (eng d1 t s e) = (Ok tt, eng d2 t s e) ∧ disk_ok d2 ∧
    manifest_holds d2 es ∧ ∀ q, q ≠ MANIFEST_FILE_NAME → q ≠ CURRENT_FILE_NAME → dget d2 q = dget d q.
Proof.
  intros [Hd Hf Ho] [f Hm] Ht Hne. destruct (fsync_at MANIFEST_FILE_NAME f d1 Hd Hm) as (d2 & E2 & Hc2).
  destruct (publish_at CURRENT_TMP_FILE_NAME CURRENT_FILE_NAME [] MANIFEST_FILE_NAME d2 (proj1 Hc2)) as (d3 & E3 & Hc3); [|done|].
  { rewrite (changed_ne _ _ _ _ _ Hc2) by done. by rewrite Ho. }
  exists d3. split; [|split_and!; [apply Hc3| |]].
  - unfold mbind at 1, stm_bind. rewrite edisk_eng, E2. unfold publish_current, mbind, stm_bind, lift.
    change (path_new CURRENT_TMP_FILE_NAME) with (Ok CURRENT_TMP_FILE_NAME : result KayaError bytes).
    change (path_new CURRENT_FILE_NAME) with (Ok CURRENT_FILE_NAME : result KayaError bytes). cbn iota beta.
    unfold publish, mbind, stm_bind in E3. rewrite edisk_eng. destruct (write_at _ _ _ d2) as [[?|?] d4]; [|done].
    rewrite edisk_eng. destruct (fsync_file _ d4) as [[?|?] d5]; [|done].
    rewrite edisk_eng. destruct (rename _ _ d5) as [[?|?] d6]; [|done]. by rewrite edisk_eng, E3.
  - destruct es; [done|]. split; [by apply (changed_at _ _ _ _ Hc3)|]. rewrite (changed_ne _ _ _ _ _ Hc3) by done.
    rewrite (changed_at _ _ _ _ Hc2). rewrite Hm in Hf. cbn in Hf. by rewrite Hf.
  - intros q H1 H2. rewrite (changed_ne _ _ _ _ _ Hc3), (changed_ne _ _ _ _ _ Hc2) by done. by apply Ho.
Qed.

Lemma publish_table_eng tid bs d t s e : disk_ok d → dget d (table_file tid ".tmp") = None →
  ∃ d2, publish_table tid bs (eng d t s e) = (Ok tt, eng d2 t s e) ∧ changed (table_file tid ".sst") (Some (synced bs)) d d2.
Proof.
  intros Hd Hn. destruct (publish_at (table_file tid ".tmp") (table_file tid ".sst") (str "sst") bs d Hd Hn) as (d2 & E & Hc).
  { intros Heq. symmetry in Heq. by apply table_file_ext in Heq. }
  exists d2. split; [|done]. unfold publish_table, mbind, stm_bind, lift.
  rewrite !path_new_table by (apply ext_sst || apply ext_tmp). change (path_new (str "sst")) with (Ok (str "sst") : result KayaError bytes).
  cbn iota beta. unfold publish, mbind, stm_bind in E. rewrite edisk_eng. destruct (write_at _ _ _ d) as [[?|?] d4]; [|done].
  rewrite edisk_eng. destruct (fsync_file _ d4) as [[?|?] d5]; [|done].
  rewrite edisk_eng. destruct (rename _ _ d5) as [[?|?] d6]; [|done]. by rewrite edisk_eng, E.
Qed.
(** *** A new table *)

Lemma elem_key_fits es k : table_fits es → k ∈ se_key <$> es → lenN k < 2 ^ 30 ∧ bytes_ok k.
Proof.
  intros [Hf Hs] (x & -> & Hx)%list_elem_of_fmap. rewrite Forall_forall in Hf. split; [|by apply ef_key_bytes, Hf].
  apply list_elem_of_split in Hx as (a & b & ->). rewrite table_size_app in Hs.
  unfold table_size in Hs. cbn [fmap list_fmap foldr] in Hs. unfold entry_cost in Hs. lia.
Qed.

Lemma default_key_fits es (o : option SstEntry) : table_fits es → (∀ x, o = Some x → x ∈ es) →
  lenN (default [] (se_key <$> o)) < 2 ^ 30 ∧ bytes_ok (default [] (se_key <$> o)).
Proof.
  intros Hf Ho. destruct o as [x|]; cbn; [|by split; [|constructor]].
  apply (elem_key_fits es); [done|]. apply list_elem_of_fmap_2. by apply Ho.
Qed.

Lemma table_meta_ok es bs desc tid level : es ≠ [] → sst_sorted es → table_fits es → sst_build es = Ok bs →
  describe_table bs = Ok desc → tid < 2 ^ 64 → level < 2 ^ 32 → meta_ok (table_meta tid level bs (lenN es) desc).
Proof.
  intros Hne Hso Hf Hb Hdesc Hid Hlv. destruct (sst_meta_fits es bs Hf Hb) as (Hlen & Hseq & Hcrc).
  destruct (sst_build_open es bs Hne Hso Hf Hb) as (t & Ho & Hh). unfold describe_table in Hdesc.
  destruct (decode_footer_seqs bs) as [[lo hi]|] eqn:Ef; [|done]. cbn [mbind result_bind] in Hdesc.
  rewrite Ho in Hdesc. cbn [mbind result_bind] in Hdesc. rewrite (hd_all _ _ Hh) in Hdesc. cbn in Hdesc. injection Hdesc as <-.
  destruct (Hseq lo hi eq_refl) as [Hlo Hhi].
  destruct (default_key_fits es (head es) Hf) as [Hk1 Hb1]; [intros x; destruct es; [done|]; intros [= ->]; by left|].
  destruct (default_key_fits es (last es) Hf) as [Hk2 Hb2]; [intros x Hx; by eapply last_Some_elem_of|].
  assert (lenN (table_file tid ".sst") = 24) as Hp by (unfold table_file, lenN; by rewrite !length_app, length_hex_digits).
  pose proof (table_file_ascii tid) as Ha.
  assert (bytes_ok (table_file tid ".sst")) as Hpb by (eapply Forall_impl; [exact Ha|]; unfold byte_ok; cbn; lia).
  split; cbn [table_meta table_id Manifest.level min_sequence max_sequence entry_count file_size footer_checksum path smallest_key largest_key]; try done.
  - pose proof (table_size_length es). pose proof (tf_size _ Hf). lia.
  - destruct (footer_stored_crc bs) as [c|]; [by apply Hcrc|done].
  - by apply ascii_valid.
  - rewrite Hp. unfold u32_lim. lia.
Qed.
(** A table file that no live table uses does not disturb what is stored. *)
Lemma stored_new_file d es xs tid bs d1 : stored d es xs → Forall (λ x, table_id x.1 < tid) xs → tid < 2 ^ 64 →
  changed (table_file tid ".sst") (Some (synced bs)) d d1 → stored d1 es xs.
Proof.
  intros [[Hd Hs Ht] Hok Hm Hl Hx] Hid Htid Hc.
  assert (∀ q, starts_with sst_prefix q = false → dget d1 q = dget d q) as Hq.
  { intros q Hq. apply (changed_ne _ _ _ _ q Hc). intros E. by rewrite E, table_file_prefix in Hq. }
  split; [|done| |done|].
  - split; [apply Hc| |by rewrite Hq]. intros p f Hp Hf. destruct (decide (p = table_file tid ".sst")) as [->|Hne]; [by eexists|].
    rewrite (changed_ne _ _ _ _ p Hc Hne) in Hf. by eapply Hs.
  - unfold manifest_holds in *. destruct es; by rewrite !Hq.
  - rewrite Forall_forall in *. intros x Hin. destruct (Hx x Hin) as (es' & [Hp Hi (bs' & Hf & Hb) Hn Hso Hfi]).
    exists es'. split; [done|done| |done..]. exists bs'. split; [|done]. rewrite (changed_ne _ _ _ _ _ Hc); [done|].
    rewrite Hp. intros E. apply table_file_inj in E; [|done..]. specialize (Hid x Hin). cbn in Hid. lia.
Qed.

Lemma stored_commit d d2 es xs es' xs' : stored d es xs → disk_ok d2 → manifest_holds d2 es' →
  (∀ q, q ≠ MANIFEST_FILE_NAME → q ≠ CURRENT_FILE_NAME → dget d2 q = dget d q) → edits_ok es' →
  live_tables (apply_edits ManifestState_default es') = xs'.*1 → Forall (holds_table d) xs' → stored d2 es' xs'.
Proof.
  intros [[Hd Hs Ht] Hok Hm Hl Hx] Hd2 Hm2 Ho Hok' Hl' Hx'. split; [|done..|].
  - split; [done| |by rewrite Ho]. intros p f Hp Hf. apply (Hs p f Hp). rewrite Ho in Hf; [done|..]; by intros ->.
  - eapply Forall_impl; [exact Hx'|]. intros x (es2 & [Hp Hi (bs' & Hf & Hb) Hn Hso Hfi]). exists es2. split; [done|done| |done..].
    exists bs'. split; [|done]. rewrite Ho; [done|..]; rewrite Hp; by apply table_file_other.
Qed.

(** ** The engine and its disk *)

Record einv (es : list (ManifestEdit * N)) (xs : list (TableMetadata * T)) e : Prop := {
  ei_stored : stored (disk_of e) es xs;
  ei_live : live_tables (manifest_state e) = xs.*1;
  ei_readers : live_sstables e = sort_tables xs;
  ei_ids : Forall (λ x, table_id x.1 < next_table_id e) xs;
  ei_seq : next_manifest_edit_seq e = last_edit_seq (apply_edits ManifestState_default es) + 1;
  ei_mem : mt_ok (memtable e);
  ei_last : e_last_sequence e < 2 ^ 64
}.

(** [e'] differs from [e] in its tables, its memtable and the files outside [wal/] only. *)
Definition outside_wal e e' : Prop :=
  wal e' = upd_disk (disk_of e') (wal e) ∧ same_wal (disk_of e) (disk_of e') ∧
  limits e' = limits e ∧ durability e' = durability e.

Lemma last_edit_snoc es x n : last_edit_seq (apply_edits ManifestState_default (es ++ [(x, n)])) = n.
Proof. unfold apply_edits. rewrite foldl_app. cbn. by destruct x. Qed.

Lemma apply_edits_app s a b : apply_edits s (a ++ b) = apply_edits (apply_edits s a) b.
Proof. apply foldl_app. Qed.

Lemma edits_ok_snoc es x n : edits_ok es → edit_ok x → n < 2 ^ 64 → edits_ok (es ++ [(x, n)]).
Proof. intros H1 H2 H3. apply Forall_app. split; [done|]. by apply Forall_singleton. Qed.

(** The bytes of a table that was described open. *)
Lemma describe_opens bs desc : describe_table bs = Ok desc → ∃ t, sst_open bs = Ok t.
Proof.
  unfold describe_table. destruct (decode_footer_seqs bs); [|done]. cbn. destruct (sst_open bs) as [t|]; [by exists t|done].
Qed.

(** Publishing the table of the entries [out], which no live table uses yet. *)
Lemma publish_new es xs out bs desc level d tid t s e : stored d es xs → Forall (λ x, table_id x.1 < tid) xs → tid < 2 ^ 64 →
  out ≠ [] → sst_sorted out → table_fits out → sst_build out = Ok bs → describe_table bs = Ok desc → level < 2 ^ 32 →
  let meta := table_meta tid level bs (lenN out) desc in
  ∃ reader d1, sst_open bs = Ok reader ∧ publish_table tid bs (eng d t s e) = (Ok tt, eng d1 t s e) ∧ stored d1 es xs ∧
    table_id meta = tid ∧ meta_ok meta ∧ holds_table d1 (meta, reader) ∧
    ∀ q, q ≠ table_file tid ".sst" → dget d1 q = dget d q.
Proof.
  intros Hst Hid Ht Ho Hso Hf Hb Hdesc Hlv meta. destruct (describe_opens bs desc Hdesc) as [reader Hop].
  assert (meta_ok meta) as Hmeta by by apply (table_meta_ok out).
  destruct (publish_table_eng tid bs d t s e (td_disk _ (st_tidy _ _ _ Hst)) (no_temp_table d tid (st_tidy _ _ _ Hst))) as (d1 & E1 & Hc1).
  destruct desc as [[[lo hi] sk] lk]. exists reader, d1. split_and!; [done..|by eapply stored_new_file|done|done| |].
  - exists out. split; cbn [fst snd]; [done|apply Hmeta| |done..]. exists bs. split_and!; [|done..]. apply (changed_at _ _ _ _ Hc1).
  - intros q Hq. by apply (changed_ne _ _ _ _ q Hc1).
Qed.

(** A new table and a changed manifest are outside [wal/]. *)
Lemma published_outside tid d d1 d2 : (∀ q, q ≠ table_file tid ".sst" → dget d1 q = dget d q) →
  (∀ q, q ≠ MANIFEST_FILE_NAME → q ≠ CURRENT_FILE_NAME → dget d2 q = dget d1 q) → same_wal d d2.
Proof.
  intros H1 H2 q Hq. rewrite H2, H1; [done|..]; intros ->; by rewrite ?(sst_not_wal _ (table_file_prefix tid ".sst")) in Hq.
Qed.

Lemma flush_nonempty_inv es xs e : einv es xs e → mt_is_empty (memtable e) = false → table_fits (mem_versions (memtable e)) →
  next_table_id e < 2 ^ 64 → next_manifest_edit_seq e + 1 < 2 ^ 64 →
  ∃ r e' es' xs', flush_nonempty e = (r, e') ∧ einv es' xs' e' ∧ outside_wal e e'.
Proof.
  intros [Hst Hl Hr Hid Hsq Hm Hla] Hne Hf Ht Hs.
  set (d := disk_of e) in *. set (tid := next_table_id e) in *. set (s := next_manifest_edit_seq e) in *.
  replace (flush_nonempty e) with (flush_nonempty (eng d tid s e)) by (by unfold d, tid, s; rewrite <-eng_self).
  unfold flush_nonempty, mbind, stm_bind, take_table_id, get_state, lift.
  cbn iota beta. change (set_next_ids _ _ (eng d tid s e)) with (eng d (tid + 1) s e).
  change (sst_of_record <$> _) with (mem_versions (memtable e)). set (vs := mem_versions (memtable e)) in *.
  assert (einv es xs (eng d (tid + 1) s e) ∧ outside_wal e (eng d (tid + 1) s e)) as [Hi0 Ho0].
  { split; [split; try done|by split_and!]. eapply Forall_impl; [exact Hid|]. cbn. intros. lia. }
  destruct (sst_build vs) as [bs|x] eqn:Hb; [|by eauto 10].
  destruct (describe_table bs) as [desc|x] eqn:Hdesc; [|by eauto 10].
  assert (vs ≠ []) as Hvs.
  { unfold vs, mem_versions. unfold mt_is_empty in Hne. apply bool_decide_eq_false in Hne. by destruct (Memtable.entries (memtable e)). }
  destruct (publish_new es xs vs bs desc 0 d tid (tid + 1) s e) as (t & d1 & Hop & E1 & Hst1 & Etid & Hmeta & Hnew & Ho1); try done.
  { by apply mem_versions_sorted. }
  change (next_table_id (eng d tid s e)) with tid. rewrite E1.
  change (path_new MANIFEST_FILE_NAME) with (Ok MANIFEST_FILE_NAME : result KayaError bytes). cbn iota beta.
  set (meta := table_meta tid 0 bs (lenN vs) desc) in *.
  pose proof (grown_start d1 es (st_manifest _ _ _ Hst1) (td_disk _ (st_tidy _ _ _ Hst1))) as Hg1.
  rewrite !next_edit_eng. cbn iota beta.
  change (e_last_sequence (eng d (tid + 1) s e)) with (e_last_sequence e).
  destruct (grown_append _ _ _ (CreateTable meta) s Hg1) as (k1 & d2 & E2 & Hg2 & _).
  rewrite edisk_eng. fold meta. rewrite E2.
  destruct (grown_append _ _ _ (SetLastSequence (e_last_sequence e)) (s + 1) Hg2) as (k2 & d3 & E3 & Hg3 & Hsome).
  rewrite edisk_eng, E3.
  destruct (publish_current_eng _ _ _ (tid + 1) (s + 1 + 1) e Hg3 Hsome (td_tmp _ (st_tidy _ _ _ Hst1))) as (d4 & E4 & Hd4 & Hm4 & Ho4).
  { by destruct es. }
  unfold mbind, stm_bind in E4. destruct (edisk (fsync_file MANIFEST_FILE_NAME) _) as [[?|?] e5]; [|done]. rewrite E4, Hop.
  unfold modify. cbn iota beta. eexists _, _, _, (xs ++ [(meta, t)]). split; [done|].
  split; [split|].
  - eapply stored_commit; [exact Hst1|done|exact Hm4|done| | |].
    + apply edits_ok_snoc; [apply edits_ok_snoc|..]; [apply Hst|done|lia|done|done].
    + rewrite !apply_edits_app. cbn. rewrite (st_live _ _ _ Hst), fmap_app. done.
    + apply Forall_app. split; [apply Hst1|by apply Forall_singleton].
  - cbn. by rewrite Hl, fmap_app.
  - cbn. rewrite sort_snoc_newest by (cbn [fst]; by rewrite Etid). by rewrite Hr.
  - apply Forall_app. cbn. split; [eapply Forall_impl; [exact Hid|]; cbn; intros; lia|apply Forall_singleton; cbn; lia].
  - by rewrite last_edit_snoc.
  - apply mt_new_ok.
  - done.
  - split_and!; try done. by apply (published_outside tid d d1 d4).
Qed.

(** *** Compaction *)

Fixpoint deletes (s : N) (ids : list N) : list (ManifestEdit * N) :=
  match ids with [] => [] | i :: ids => (DeleteTable i, s) :: deletes (s + 1) ids end.

Lemma delete_edits_eng ids : ∀ d es d1 t s e, grown d es d1 →
  ∃ d2, delete_edits MANIFEST_FILE_NAME ids (eng d1 t s e) = (Ok tt, eng d2 t (s + lenN ids) e) ∧
    grown d (es ++ deletes s ids) d2.
Proof.
  induction ids as [|i ids IH]; intros d es d1 t s e Hg; cbn [delete_edits deletes].
  - exists d1. by rewrite N.add_0_r, app_nil_r.
  - unfold mbind, stm_bind. rewrite next_edit_eng, edisk_eng.
    destruct (grown_append _ _ _ (DeleteTable i) s Hg) as (k & d2 & -> & Hg2 & _).
    destruct (IH d (es ++ [(DeleteTable i, s)]) d2 t (s + 1) e Hg2) as (d3 & -> & Hg3).
    exists d3. rewrite <-app_assoc in Hg3. split; [|done]. do 2 f_equal. unfold lenN. cbn [length]. lia.
Qed.

Lemma deletes_live ids : ∀ s st, live_tables (apply_edits st (deletes s ids)) = filter (λ t, table_id t ∉ ids) (live_tables st).
Proof.
  induction ids as [|i ids IH]; intros s st; cbn [deletes].
  - cbn. rewrite filter_keep_all; [done|]. apply Forall_forall. intros t _. apply not_elem_of_nil.
  - unfold apply_edits. cbn [foldl fst snd]. fold (apply_edits (apply_edit st (DeleteTable i) s) (deletes (s + 1) ids)).
    rewrite IH. cbn. rewrite list_filter_filter. apply list_filter_iff. intros t. rewrite not_elem_of_cons. tauto.
Qed.

Lemma deletes_ok ids : ∀ s, Forall (λ i, i < 2 ^ 64) ids → s + lenN ids <= 2 ^ 64 → edits_ok (deletes s ids).
Proof.
  induction ids as [|i ids IH]; intros s Hi Hs; [constructor|]. apply Forall_cons in Hi as [Hi His]. unfold lenN in *. cbn [length] in Hs.
  constructor; [cbn; split; [done|lia]|]. apply IH; [done|lia].
Qed.

(** The last edit, the sync and [CURRENT]. *)
Lemma finish_manifest_inv d es xs es2 xs2 d2 t s last e : stored d es xs → grown d es2 d2 →
  edits_ok es2 → last < 2 ^ 64 → s < 2 ^ 64 → live_tables (apply_edits ManifestState_default es2) = xs2.*1 →
  Forall (holds_table d) xs2 →
  ∃ d3, finish_manifest MANIFEST_FILE_NAME last (eng d2 t s e) = (Ok tt, eng d3 t (s + 1) e) ∧
    stored d3 (es2 ++ [(SetLastSequence last, s)]) xs2 ∧
    ∀ q, q ≠ MANIFEST_FILE_NAME → q ≠ CURRENT_FILE_NAME → dget d3 q = dget d q.
Proof.
  intros Hst Hg Hok Hla Hs Hl Hx. unfold finish_manifest, mbind at 1, stm_bind at 1. rewrite next_edit_eng.
  destruct (grown_append _ _ _ (SetLastSequence last) s Hg) as (k & d3 & E3 & Hg3 & Hsome).
  unfold mbind at 1, stm_bind at 1. rewrite edisk_eng, E3.
  destruct (publish_current_eng _ _ _ t (s + 1) e Hg3 Hsome (td_tmp _ (st_tidy _ _ _ Hst))) as (d4 & E4 & Hd4 & Hm4 & Ho4).
  { by destruct es2. }
  exists d4. split_and!; [done| |done]. eapply stored_commit; [exact Hst|done|exact Hm4|done| | |done].
  - by apply edits_ok_snoc.
  - by rewrite apply_edits_app.
Qed.

(** The tables left by a compaction. *)
Definition unless (ids : list N) (xs : list (TableMetadata * T)) : list (TableMetadata * T) :=
  filter (λ x, table_id x.1 ∉ ids) xs.

Lemma unless_live ids xs : filter (λ t, table_id t ∉ ids) xs.*1 = (unless ids xs).*1.
Proof. unfold unless. induction xs as [|x xs IH]; [done|]. rewrite fmap_cons, !filter_cons, IH. by repeat case_decide. Qed.

Lemma unless_readers ids xs : sort_tables (unless ids (sort_tables xs)) = sort_tables (unless ids xs).
Proof. unfold unless. rewrite <-sort_filter. apply sort_sorted, sort_tables_sorted. Qed.

Lemma unless_readers_snoc ids xs x : Forall (λ y, table_id y.1 < table_id x.1) xs →
  sort_tables (unless ids (sort_tables xs) ++ [x]) = sort_tables (unless ids xs ++ [x]).
Proof.
  intros Hx. rewrite !sort_snoc_newest, unless_readers; [done|by apply Forall_filter_keep|].
  apply Forall_filter_keep. by rewrite sort_tables_perm.
Qed.

Lemma compact_away_inv es xs ids e : einv es xs e → Forall (λ i, i < 2 ^ 64) ids →
  next_manifest_edit_seq e + lenN ids + 1 <= 2 ^ 64 →
  ∃ e1 es' xs', (_ ← delete_edits MANIFEST_FILE_NAME ids; finish_manifest MANIFEST_FILE_NAME (e_last_sequence e)) e = (Ok tt, e1) ∧
    let e' := install_compacted ids None (e_last_sequence e) e1 in einv es' xs' e' ∧ outside_wal e e'.
Proof.
  intros [Hst Hl Hr Hid Hsq Hm Hla] Hids Hs. pose proof (td_disk _ (st_tidy _ _ _ Hst)) as Hd.
  set (d := disk_of e) in *. set (tid := next_table_id e) in *. set (s := next_manifest_edit_seq e) in *.
  destruct (delete_edits_eng ids d es d tid s e (grown_start d es (st_manifest _ _ _ Hst) Hd)) as (d2 & E2 & Hg2).
  destruct (finish_manifest_inv d es xs _ (unless ids xs) d2 tid (s + lenN ids) (e_last_sequence e) e Hst Hg2) as (d3 & E3 & Hst3 & Ho3).
  { apply Forall_app. split; [apply Hst|]. apply deletes_ok; [done|lia]. }
  { done. }
  { lia. }
  { by rewrite apply_edits_app, deletes_live, (st_live _ _ _ Hst), unless_live. }
  { apply Forall_filter_keep, Hst. }
  exists (eng d3 tid (s + lenN ids + 1) e), (es ++ deletes s ids ++ [(SetLastSequence (e_last_sequence e), s + lenN ids)]), (unless ids xs).
  split.
  { unfold mbind, stm_bind. rewrite (eng_self e) at 1. fold d tid s. rewrite E2. exact E3. }
  rewrite app_assoc. split; [split|split_and!]; try done.
  - cbn. by rewrite app_nil_r, Hl, unless_live.
  - cbn. rewrite app_nil_r, Hr. apply unless_readers.
  - cbn. by apply Forall_filter_keep.
  - by rewrite last_edit_snoc.
  - by apply (published_outside tid d d d3).
Qed.

Lemma compact_into_inv es xs ids out bs desc level e : einv es xs e → Forall (λ i, i < 2 ^ 64) ids →
  next_table_id e ∉ ids → out ≠ [] → sst_sorted out → table_fits out → sst_build out = Ok bs → describe_table bs = Ok desc →
  level < 2 ^ 32 → next_table_id e < 2 ^ 64 → next_manifest_edit_seq e + lenN ids + 2 <= 2 ^ 64 →
  ∃ t e1 es' xs', sst_open bs = Ok t ∧
    let meta := table_meta (next_table_id e) level bs (lenN out) desc in
    (_ ← publish_table (next_table_id e) bs;
     edit_create ← next_edit (CreateTable meta);
     _ ← edisk (append MANIFEST_FILE_NAME edit_create);
     _ ← delete_edits MANIFEST_FILE_NAME ids;
     finish_manifest MANIFEST_FILE_NAME (e_last_sequence e)) (take_table_id e).2 = (Ok tt, e1) ∧
    let e' := install_compacted ids (Some (meta, t)) (e_last_sequence e) e1 in einv es' xs' e' ∧ outside_wal e e'.
Proof.
  intros [Hst Hl Hr Hid Hsq Hm Hla] Hids Hnin Ho Hso Hf Hb Hdesc Hlv Ht Hs.
  set (d := disk_of e) in *. set (tid := next_table_id e) in *. set (s := next_manifest_edit_seq e) in *.
  destruct (publish_new es xs out bs desc level d tid (tid + 1) s e) as (t & d1 & Hop & E1 & Hst1 & Etid & Hmeta & Hnew & Ho1); try done.
  set (meta := table_meta tid level bs (lenN out) desc) in *.
  destruct (grown_append _ _ _ (CreateTable meta) s (grown_start d1 es (st_manifest _ _ _ Hst1) (td_disk _ (st_tidy _ _ _ Hst1)))) as (k & d2 & E2 & Hg2 & _).
  destruct (delete_edits_eng ids d1 _ d2 (tid + 1) (s + 1) e Hg2) as (d3 & E3 & Hg3).
  destruct (finish_manifest_inv d1 es xs _ (unless ids xs ++ [(meta, t)]) d3 (tid + 1) (s + 1 + lenN ids) (e_last_sequence e) e Hst1 Hg3)
    as (d4 & E4 & Hst4 & Ho4).
  { apply Forall_app. split; [apply edits_ok_snoc; [apply Hst|done|lia]|]. apply deletes_ok; [done|lia]. }
  { done. }
  { lia. }
  { rewrite !apply_edits_app, deletes_live. cbn. rewrite (st_live _ _ _ Hst), filter_app, unless_live, fmap_app.
    by rewrite filter_cons_True by by rewrite Etid. }
  { apply Forall_app. split; [apply Forall_filter_keep, Hst1|by apply Forall_singleton]. }
  exists t, (eng d4 (tid + 1) (s + 1 + lenN ids + 1) e). eexists _, (unless ids xs ++ [(meta, t)]). split; [done|]. cbv zeta. split.
  { rewrite take_eng. fold d tid s.
    unfold mbind at 1, stm_bind at 1. rewrite E1. unfold mbind at 1, stm_bind at 1. rewrite next_edit_eng.
    unfold mbind at 1, stm_bind at 1. rewrite edisk_eng, E2. unfold mbind, stm_bind. rewrite E3. exact E4. }
  split; [split|split_and!]; try done.
  - cbn. by rewrite Hl, unless_live, fmap_app.
  - cbn. rewrite Hr. apply unless_readers_snoc. cbn [fst]. by rewrite Etid.
  - cbn. apply Forall_app. split; [|apply Forall_singleton; cbn; lia].
    apply Forall_filter_keep. eapply Forall_impl; [exact Hid|]. cbn. intros. lia.
  - by rewrite last_edit_snoc.
  - by apply (published_outside tid d d1 d4).
Qed.

Lemma write_compacted_inv es xs c out e : einv es xs e → (∀ i, i ∈ input_table_ids c → ∃ x, x ∈ xs ∧ table_id x.1 = i) →
  sst_sorted out → table_fits out → output_level c < 2 ^ 32 → next_table_id e < 2 ^ 64 →
  next_manifest_edit_seq e + lenN (input_table_ids c) + 2 <= 2 ^ 64 →
  ∃ r e' es' xs', write_compacted c out e = (r, e') ∧ einv es' xs' e' ∧ outside_wal e e'.
Proof.
  intros Hi Hin Hso Hf Hlv Ht Hs. set (ids := input_table_ids c) in *.
  assert (∀ i, i ∈ ids → i < 2 ^ 64 ∧ i < next_table_id e) as Hids.
  { intros i (x & Hx & <-)%Hin. pose proof (st_tables _ _ _ (ei_stored _ _ _ Hi)) as Htb. rewrite Forall_forall in Htb.
    destruct (Htb x Hx) as (es' & Hx'). split; [apply Hx'|]. pose proof (ei_ids _ _ _ Hi) as Hlt. rewrite Forall_forall in Hlt. by apply Hlt. }
  assert (Forall (λ i, i < 2 ^ 64) ids) as Hids1 by (apply Forall_forall; intros; by apply Hids).
  unfold write_compacted. unfold mbind at 1, stm_bind at 1, get_state. unfold mbind at 1, stm_bind at 1, lift.
  change (path_new MANIFEST_FILE_NAME) with (Ok MANIFEST_FILE_NAME : result KayaError bytes). cbn iota beta zeta. fold ids.
  destruct out as [|x0 out0]; [|set (out := x0 :: out0) in *].
  - destruct (compact_away_inv es xs ids e Hi Hids1) as (e1 & es' & xs' & E & H'); [lia|].
    unfold mbind, stm_bind in *. destruct (delete_edits _ _ e) as [[?|?] e0]; [|done]. rewrite E. by eexists _, _, es', xs'.
  - unfold mbind at 1, stm_bind at 1. change (take_table_id e) with (Ok (next_table_id e) : result KayaError N, (take_table_id e).2).
    cbn iota beta. unfold mbind at 1, stm_bind at 1.
    assert (einv es xs (take_table_id e).2 ∧ outside_wal e (take_table_id e).2) as [Hi0 Ho0].
    { destruct Hi. split; [split; try done|by destruct e as [???????[] ????????]]. eapply Forall_impl; [eassumption|]. cbn. intros. lia. }
    destruct (sst_build out) as [bs|x] eqn:Hb; [|by eexists _, _, es, xs].
    unfold mbind at 1, stm_bind at 1. destruct (describe_table bs) as [desc|x] eqn:Hdesc; [|by eexists _, _, es, xs].
    destruct (compact_into_inv es xs ids out bs desc (output_level c) e Hi Hids1) as (t & e1 & es' & xs' & Hop & E & H'); try done.
    { intros [_ Hlt]%Hids. lia. }
    unfold mbind, stm_bind in *. destruct (publish_table _ _ _) as [[?|?] e2]; [|done].
    destruct (next_edit _ e2) as [[?|?] e3]; [|done]. destruct (edisk _ e3) as [[?|?] e4]; [|done].
    destruct (delete_edits _ _ e4) as [[?|?] e5]; [|done]. rewrite E, Hop. by eexists _, _, es', xs'.
Qed.

Lemma push_versions_sorted es m : om_sorted m → om_sorted (foldl push_version m es).
Proof. revert m. induction es as [|x es IH]; intros m Hm; [done|]. by apply IH, om_insert_sorted. Qed.

Lemma collect_sorted ids (l : list (TableMetadata * T)) m m' : collect_versions ids l m = Ok m' → om_sorted m → om_sorted m'.
Proof.
  revert m. induction l as [|[meta t] l IH]; intros m; cbn [collect_versions]; [by intros [= ->]|].
  case_bool_decide; [|apply IH]. destruct (sst_all_entries t) as [es|]; [|done]. intros Hc Hm.
  by apply (IH _ Hc), push_versions_sorted.
Qed.

(** The numbers a compaction of [e] uses fit their fields. *)
Definition compact_room e : Prop := next_table_id e < 2 ^ 64 ∧
  ∀ c, pick_compaction (compaction_policy_from_config (compaction e)) (live_tables (manifest_state e)) (pinned_ids e) = Some c →
    output_level c < 2 ^ 32 ∧ next_manifest_edit_seq e + lenN (input_table_ids c) + 2 <= 2 ^ 64 ∧
    ∀ m, collect_versions (input_table_ids c) (rev (live_sstables e)) [] = Ok m → table_fits (compacted_entries (gc_watermark e) m).

Lemma outside_wal_refl e : outside_wal e e.
Proof. by destruct e as [???????[] ????????]. Qed.

Lemma compact_inv es xs e : einv es xs e → compact_room e →
  ∃ r e' es' xs', compact e = (r, e') ∧ einv es' xs' e' ∧ outside_wal e e'.
Proof.
  intros Hi [Ht Hr]. unfold compact, mbind at 1, stm_bind at 1, get_state.
  destruct (pick_compaction _ _ _) as [c|] eqn:Ep; [|eexists _, e, es, xs; eauto using outside_wal_refl].
  destruct (Hr c eq_refl) as (Hlv & Hsq & Hfit). unfold mbind, stm_bind, lift.
  destruct (collect_versions _ _ _) as [m|x] eqn:Ec; [|eexists _, e, es, xs; eauto using outside_wal_refl].
  apply (write_compacted_inv es xs); try done; [|eapply compacted_sorted, collect_sorted; [done|constructor]|by apply Hfit].
  intros i Hin. destruct (policy_picks_unpinned _ _ _ _ i Ep Hin) as (_ & t & Ht' & <-).
  rewrite (ei_live _ _ _ Hi) in Ht'. apply list_elem_of_fmap in Ht' as (x & -> & Hx). eauto.
Qed.

(** The same of a flush of [e]. *)
Definition flush_room (m : Memtable) e : Prop :=
  table_fits (mem_versions m) ∧ next_table_id e < 2 ^ 64 ∧ next_manifest_edit_seq e + 1 < 2 ^ 64.

Lemma flush_inv es xs e : einv es xs e → flush_room (memtable e) e →
  ∃ r e' es' xs', flush e = (r, e') ∧ einv es' xs' e' ∧ outside_wal e e'.
Proof.
  intros Hi (Hf & Ht & Hs). unfold flush. destruct (mt_is_empty (memtable e)) eqn:E; [eexists _, e, es, xs; eauto using outside_wal_refl|].
  by apply (flush_nonempty_inv es xs).
Qed.
End Stored.

(** ** The real table format *)

Section RealTables.
Context (lz4_compress : bytes → bytes) (lz4_decompress : bytes → result string bytes).
Context (zstd_encode : bytes → option bytes) (zstd_decode : bytes → result string bytes).
Context (o : SstableBuildOptions).

Hypothesis bloom_small : bloom_bits_per_key o <= 16.
Hypothesis is_mvcc : mvcc o = true.

Lemma sst_format_meta : @SstMeta SstableReader (sst_format lz4_compress lz4_decompress zstd_encode zstd_decode o).
Proof.
  intros es bs Hf Hb. destruct (build_layout _ _ _ es bs Hb) as (blocks & Hj & Hne & ->).
  pose proof (footer_of_fits lz4_compress zstd_encode o bloom_small is_mvcc es blocks Hf Hj Hne) as Hff.
  set (f := footer_of _ _ _ _ _) in *. 
  set (pre := data_of lz4_compress zstd_encode o blocks ++ finalize_index_block (index_of lz4_compress zstd_encode o 0 blocks) ++ (bloom_part o es).1).
  replace (_ ++ _ ++ _ ++ encode_footer f) with (pre ++ encode_footer f) by (unfold pre; by rewrite <-!app_assoc).
  assert (length (encode_footer f) = 72%nat) as Hlf.
  { rewrite encode_footer_body by done. by rewrite !length_app, !length_le_bytes, length_footer_body. }
  pose proof (decode_footer_encode pre f Hff) as Hdf. split_and!.
  - destruct Hf as [_ Ht]. destruct (bloom_part_facts o bloom_small es Ht) as (Hb1 & _ & _). subst es.
    pose proof (data_of_bound lz4_compress zstd_encode o blocks Ht Hne). pose proof (index_size_bound lz4_compress zstd_encode o blocks Hne).
    unfold pre. rewrite !lenN_app, length_finalize_index by lia.
    assert (lenN (encode_footer f) = 72) by (unfold lenN; by rewrite Hlf). lia.
  - cbn. rewrite Hdf. intros lo hi [= <- <-]. split; apply Hff.
  - intros c. change (SstIndex.footer_stored_crc (pre ++ encode_footer f) = Ok c → c < 2 ^ 32).
    unfold SstIndex.footer_stored_crc. rewrite Hdf. cbn [mbind result_bind]. rewrite (footer_physical_72 f Hff).
    rewrite length_app, Hlf, Nat.add_sub, drop_app_length, encode_footer_body by done.
    unfold SstBlock.read_u32_le, read_le. destruct (_ <? _)%nat; [done|]. intros E%Ok_inj. rewrite <-E.
    rewrite (slice_at _ _ (footer_body f) (le_bytes 4 (crc32c (footer_body f)))).
    + pose proof (le_val_bound _ (le_bytes_ok 4 (crc32c (footer_body f)))) as Hv. by rewrite length_le_bytes in Hv.
    + by rewrite length_footer_body.
    + by rewrite length_footer_body, length_le_bytes.
Qed.
End RealTables.

#[export] Instance plain_meta : SstMeta SstableReader.
Proof. by apply sst_format_meta. Qed.
