(* ===== verification/EngineDurability.v ===== *)
(** Durability of the engine: whatever writes, flushes and compactions it runs and however often
    it crashes, opening it again succeeds, reads back every acknowledged write and has the tables
    it had. *)
From stdpp Require Import gmap.
From S2P Require Import Prelude Bytes Core Hlc OrdMap Path Disk WalCodec WalWriter WalRecovery WalLayout WalDurability InternalKey SstBlock SstSpec Sstable SstTable Memtable Manifest Compaction Engine EngineReads EngineStore EngineCompact EngineOpen EngineTables.

Open Scope N_scope.

(** ** The log writes under [wal/] only *)

(** What an operation on [p] may change. *)
Definition touches (p : bytes) {A} (op : stm SimState A) : Prop :=
  ∀ d, disk_ok d → disk_ok (op d).2 ∧ ∀ q, q ≠ p → dget (op d).2 q = dget d q.

Lemma touches_insert p f d d1 : disk_ok d → files d1 = files d → fault_schedule d1 = None →
  disk_ok (with_files (om_insert p f) d1) ∧ ∀ q, q ≠ p → dget (with_files (om_insert p f) d1) q = dget d q.
Proof.
  intros [Hs Hf] E Hf1. split; [split; [cbn; rewrite E; by apply om_insert_sorted|done]|].
  intros q Hq. cbn. rewrite E. by apply om_get_insert_ne.
Qed.

Lemma touches_append p bs : touches p (append p bs).
Proof. intros d Hd. unfold append, take_fault. rewrite (dk_faults _ Hd). cbn. by apply touches_insert. Qed.

Lemma touches_fsync p : touches p (fsync_file p).
Proof.
  intros d Hd. unfold fsync_file, take_fault. rewrite (dk_faults _ Hd). cbn. destruct (om_get p (files d)); [by apply touches_insert|].
  by destruct Hd.
Qed.

Lemma touches_truncate p n : touches p (truncate p n).
Proof.
  intros d Hd. unfold truncate, take_fault. cbn. destruct (om_get p (files d)); [by apply touches_insert; [|done|apply Hd]|].
  by destruct Hd.
Qed.

Lemma touches_fsync_dir p q : touches p (fsync_dir q).
Proof. intros d Hd. destruct (fsync_dir_ok q d Hd) as (d' & -> & Hd' & E). split; [done|]. intros r _. cbn. by rewrite E. Qed.

Definition in_wal (w : WalWriterInner) : Prop := starts_with wal_prefix (active_path w) = true ∧ disk_ok (w_disk w).

Definition wal_only {A} (m : stm WalWriterInner A) : Prop :=
  ∀ w, in_wal w → in_wal (m w).2 ∧ same_other (w_disk w) (w_disk (m w).2).

Lemma wal_only_bind {A B} (m : stm WalWriterInner A) (f : A → stm WalWriterInner B) :
  wal_only m → (∀ a, wal_only (f a)) → wal_only (m ≫= f).
Proof.
  intros Hm Hf w Hw. unfold mbind, stm_bind. destruct (m w) as [[a|x] w1] eqn:E; pose proof (Hm w Hw) as [H1 H2]; rewrite E in H1, H2; [|done].
  destruct (Hf a w1 H1) as [H3 H4]. split; [done|]. intros p Hp. by rewrite H4, H2.
Qed.

Lemma wal_only_here {A} (r : WalWriterInner → result KayaError A) (f : WalWriterInner → WalWriterInner) :
  (∀ w, in_wal w → w_disk (f w) = w_disk w ∧ starts_with wal_prefix (active_path (f w)) = true) → wal_only (λ w, (r w, f w)).
Proof.
  intros Hf w Hw. destruct (Hf w Hw) as [H1 H2]. cbn [snd]. unfold in_wal, same_other. rewrite H1. split; [|done]. split; [done|apply Hw].
Qed.

Lemma wal_only_disk {A} (op : bytes → stm SimState A) :
  (∀ p, touches p (op p)) → wal_only (λ w, on_disk (op (active_path w)) w).
Proof.
  intros Ht w [Hp Hd]. unfold on_disk. destruct (Ht (active_path w) (w_disk w) Hd) as [H1 H2].
  destruct (op (active_path w) (w_disk w)) as [r d']. split; [by split|]. intros q Hq. apply H2. intros ->. by rewrite Hp in Hq.
Qed.

Lemma wal_only_flush us : wal_only (flush_strict_batch us).
Proof.
  intros w Hw. unfold flush_strict_batch. pose proof (wal_only_disk fsync_file touches_fsync w Hw) as H.
  destruct (on_disk (fsync_file (active_path w)) w) as [[u|x] w1]; done.
Qed.

Lemma wal_only_if (b : WalWriterInner → bool) {A} (m m' : stm WalWriterInner A) :
  wal_only m → wal_only m' → wal_only (λ w, if b w then m w else m' w).
Proof. intros H1 H2 w Hw. destruct (b w); auto. Qed.

Lemma wal_only_ret {A} (a : A) : wal_only (mret a).
Proof. by intros w Hw. Qed.
Lemma wal_only_lift {A} (r : result KayaError A) : wal_only (lift r).
Proof. by intros w Hw. Qed.
Lemma wal_only_get : wal_only get_state.
Proof. by intros w Hw. Qed.

Lemma wal_only_then us : wal_only (_ ← flush_strict_batch us; mret tt).
Proof. apply wal_only_bind; [apply wal_only_flush|]. intros. apply wal_only_ret. Qed.

Lemma wal_only_rotate us len : wal_only (rotate_if_full us len).
Proof.
  apply wal_only_if; [|by apply (wal_only_here (λ _, Ok tt) (λ w, w)); intros w []].
  apply wal_only_bind; [apply wal_only_if; [apply wal_only_then|by apply (wal_only_here (λ _, Ok tt) (λ w, w)); intros w []]|].
  intros _ w Hw. unfold rotate. rewrite segment_path_eq. split; [split; [apply wal_path_prefix|apply Hw]|]. by intros p.
Qed.

Lemma wal_only_sync : wal_only sync_new_segment.
Proof.
  apply wal_only_if; [by apply (wal_only_here (λ _, Ok tt) (λ w, w)); intros w []|].
  apply wal_only_bind; [apply wal_only_lift|]. intros dir. apply wal_only_bind.
  - apply (wal_only_disk (λ _, fsync_dir dir)). intros p. apply touches_fsync_dir.
  - intros _. apply (wal_only_here (λ _, Ok tt) upd_dir_synced). by intros w [].
Qed.

Lemma wal_only_finish mode now us r off len : wal_only (finish_append mode now us r off len).
Proof.
  intros w Hw. unfold finish_append. destruct mode; [|by destruct Hw; split].
  destruct (enabled (batch w)); cbn [negb].
  - destruct (after_record_appended now r len (batch w)) as [action b]. assert (in_wal (advance (off + len) (upd_batch b w))) as Hw1 by (by destruct Hw).
    destruct action; [|done]. change (w_disk w) with (w_disk (advance (off + len) (upd_batch b w))) at 1.
    apply (wal_only_bind (flush_strict_batch us)); [apply wal_only_flush| |done]. intros. apply wal_only_ret.
  - apply (wal_only_bind (flush_strict_batch us)); [apply wal_only_flush| |done]. intros us'.
    apply wal_only_bind; [|intros; apply wal_only_ret]. apply (wal_only_here (λ _, Ok tt) (advance (off + len))). by intros w' [].
Qed.

Lemma wal_only_append p mode now us : wal_only (wal_append p mode now us).
Proof.
  unfold wal_append. apply wal_only_bind; [apply wal_only_if; [apply wal_only_then|by apply (wal_only_here (λ _, Ok tt) (λ w, w)); intros w []]|].
  intros _. apply wal_only_bind; [apply wal_only_get|]. intros w1. apply wal_only_bind; [apply wal_only_lift|]. intros bs.
  apply wal_only_bind; [apply wal_only_rotate|]. intros _.
  intros w Hw. unfold mbind at 1, stm_bind at 1, get_state.
  revert w Hw. apply (wal_only_bind (λ w, on_disk (append (active_path w) bs) w)).
  - apply (wal_only_disk (λ q, append q bs)). intros q. apply touches_append.
  - intros off. apply wal_only_bind; [apply wal_only_sync|]. intros. apply wal_only_finish.
Qed.

(** [d2] is a disk that differs from [d] under [wal/] only. *)
Definition kept (d d2 : SimState) : Prop := disk_ok d2 ∧ same_other d d2.

Lemma recover_segment_other mx seg exp rep d : starts_with wal_prefix seg.2 = true → disk_ok d →
  kept d (recover_segment mx seg exp rep d).2.
Proof.
  intros Hp Hd. unfold recover_segment. destruct seg as [i p]. cbn [snd] in Hp.
  assert (kept d d) as Hr by (split; [done|by intros q]).
  unfold file_len, read_at. destruct (dget d p) as [f|] eqn:Ef; [|done]. destruct (lenN (volatile f) =? 0); [done|].
  assert (∀ n, kept d (truncate p n d).2) as Ht.
  { intros n. destruct (touches_truncate p n d Hd) as [H1 H2]. split; [done|]. intros q Hq. apply H2. intros ->. by rewrite Hp in Hq. }
  unfold mbind at 1, stm_bind at 1. rewrite Ef.
  match goal with |- context [if ?b then (Ok [], d) else (Ok ?x, d)] => destruct (if b then (Ok [], d) else (Ok x, d)) as [[bs|e] d1] eqn:E end.
  2: { case_match; simplify_eq. }
  assert (d1 = d) as -> by (case_match; by simplify_eq).
  destruct (scan_segment _ _ _ _ _ _) as [[[rs off] exp'] stop]. cbv zeta. unfold mret, stm_ret. destruct stop as [w|]; [|done]. destruct (off <? _); [|done].
  unfold mbind, stm_bind. pose proof (Ht off) as Hto. by destruct (truncate p off d) as [[u|e] d2].
Qed.

Lemma recover_segments_other mx segs : ∀ exp rep d, Forall (λ s, starts_with wal_prefix s.2 = true) segs → disk_ok d →
  kept d (recover_segments mx segs exp rep d).2.
Proof.
  induction segs as [|seg segs IH]; intros exp rep d Hf Hd; [split; [done|by intros q]|].
  apply Forall_cons in Hf as [Hp Hf]. destruct (recover_segment_other mx seg exp rep d Hp Hd) as [H1 H2].
  cbn [recover_segments]. unfold mbind, stm_bind. destruct (recover_segment mx seg exp rep d) as [[[[stop exp'] rep']|x] d1]; [|done].
  cbn in H1, H2. destruct stop; [done|]. destruct (IH exp' rep' d1 Hf H1) as [H3 H4]. split; [done|]. intros q Hq. by rewrite H4, H2.
Qed.

Lemma recover_wal_other config d segs : layout d segs →
  kept d (recover_wal config d).2.
Proof.
  intros HL. destruct (layout_list _ _ HL) as [entries He]. unfold recover_wal, mbind, stm_bind, lift. rewrite path_new_wal, He.
  rewrite (layout_segments _ _ _ HL He). apply recover_segments_other; [|apply HL]. apply Forall_fmap, Forall_forall.
  intros [i f] _. apply wal_path_prefix.
Qed.

(** ** Opening *)

Lemma open_at_fields config l s d w : open_at config l s d = Ok w → w_disk w = d ∧ w_next_sequence w = s.
Proof.
  unfold open_at. intros Ho. repeat (inv_ok; try case_match); simplify_eq; done.
Qed.

(** The last of the operations on [k] in a log with rising sequence numbers. *)
Lemma log_read_at rs r k : rising rs → r ∈ rs → payload_key (payload r) = Some k →
  log_read k (sequence r) rs = Some (payload_record (payload r) (sequence r)).
Proof.
  induction rs as [|x rs IH] using rev_ind; intros Hs Hr Hk; [by apply not_elem_of_nil in Hr|].
  unfold log_read. rewrite foldl_app. cbn [foldl]. fold (log_read k (sequence r) rs).
  unfold rising in Hs. rewrite fmap_app in Hs. apply StronglySorted_app in Hs as (Hlt & Hs & _).
  apply elem_of_app in Hr as [Hr|Hr%list_elem_of_singleton].
  - specialize (Hlt (sequence r) (sequence x) (list_elem_of_fmap_2 _ _ _ Hr) ltac:(by left)).
    rewrite (proj2 (N.leb_gt _ _)) by done. rewrite andb_false_r. by apply IH.
  - subst x. by rewrite bool_decide_eq_true_2, N.leb_refl.
Qed.

Definition payload_value (p : WalPayload) : option bytes := match p with Put _ v => Some v | _ => None end.

Section Durability.
Context {T : Type} `{SstLaws T} `{!SstMeta T}.
Context (cfg : EngineConfig).

Implicit Types e : Engine T.

Lemma next_id_after_lt (xs : list (TableMetadata * T)) : Forall (λ x, table_id x.1 < next_id_after xs.*1) xs.
Proof.
  apply Forall_forall. intros x Hx. unfold next_id_after.
  assert (table_id x.1 + 1 <= foldr N.max 0 ((λ t, table_id t + 1) <$> xs.*1)) as Hle.
  { induction xs as [|y xs IH]; [by apply not_elem_of_nil in Hx|]. apply elem_of_cons in Hx as [->|Hx]; cbn; [lia|]. specialize (IH Hx). cbn in IH. lia. }
  destruct xs as [|y xs]; [by apply not_elem_of_nil in Hx|]. cbn in *. lia.
Qed.

Lemma open_core_spec es xs rep w d d2 : stored d es xs → recover_wal (ec_wal cfg) d = (Ok rep, d2) → kept d d2 →
  open_at (ec_wal cfg) (next_lsn_of rep) (next_sequence_of rep) d2 = Ok w → Forall record_ok (rr_record <$> records rep) →
  ∃ e report, open_core (T:=T) cfg d = (Ok (e, report), d2) ∧ einv es xs e ∧ wal e = w ∧ live_sstables e = sort_tables xs ∧
    memtable e = replay (rr_record <$> records rep) Memtable_new.
Proof.
  intros Hst Hrec [Hd2 Hsame] Ho Hok. pose proof (stored_other _ _ _ _ Hst Hd2 Hsame) as Hst2.
  destruct (open_at_fields _ _ _ _ _ Ho) as [Hw _].
  unfold open_core, mbind, stm_bind. rewrite (scan_tidy d) by apply Hst. cbn [remove_files]. unfold mret at 1, stm_ret at 1.
  rewrite Hrec. unfold get_state, lift. cbn iota beta zeta. rewrite Ho, (load_stored d2 es xs Hst2). eexists _, _. split; [done|].
  split_and!; [split; cbn; try done|done..].
  - unfold disk_of. cbn. by rewrite Hw.
  - apply Hst2.
  - rewrite (st_live _ _ _ Hst2). apply next_id_after_lt.
  - apply replay_ok, mt_new_ok.
  - unfold next_sequence_of. destruct (last (records rep)) as [r|] eqn:El; [|done].
    apply last_Some_elem_of in El. rewrite Forall_fmap, Forall_forall in Hok. pose proof (ro_seq _ (Hok r El)). lia.
Qed.

(** ** The engine as a system *)

Record engine_sys := mkEsys { se : Engine T; es_acked : list WalRecord }.

Definition es_all_acked (s : engine_sys) : list WalRecord := es_acked s ++ sent (batch (wal (se s))).

Definition payload_of (key : bytes) (v : option bytes) : WalPayload := match v with Some v => Put key v | None => Delete key end.

(** Strict writes with their automatic flush, flushes, compactions, advances of the watermark, and crashes
    followed by opening the engine again. Counters and sizes stay within their fields. *)
Inductive engine_step (s : engine_sys) : engine_sys → Prop :=
| es_write key v mode now_ms now us r e' :
    let w := wal (prepare_write now_ms (se s)) in
    default (durability (se s)) mode = Strict → payload_ok (payload_of key v) →
    next_lsn w < 2 ^ 64 → w_next_sequence w < 2 ^ 64 → active_segment_id w + 1 < u64_lim →
    flush_room (write_to key v (w_next_sequence w) (memtable (se s))) (se s) →
    engine_write key v mode now_ms now us (se s) = (r, e') →
    engine_step s (mkEsys e' (es_acked s ++
      match r with Ok (Some _) => [new_record (next_lsn w) (w_next_sequence w) (payload_of key v)] | _ => [] end))
| es_flush r e' : flush_room (memtable (se s)) (se s) → flush (se s) = (r, e') → engine_step s (mkEsys e' (es_acked s))
| es_compact r e' : compact_room (se s) → compact (se s) = (r, e') → engine_step s (mkEsys e' (es_acked s))
| es_watermark ts : engine_step s (mkEsys (set_gc_watermark ts (se s)) (es_acked s))
| es_crash d' e' report d2 :
    crash_to (disk_of (se s)) d' → open_core cfg d' = (Ok (e', report), d2) → engine_step s (mkEsys e' (es_all_acked s)).

Definition log_inv (A : list WalRecord) e : Prop := ∃ closed act, winv (ec_wal cfg) A (wal e) closed act.

Definition sys_inv (s : engine_sys) : Prop :=
  (∃ A, log_inv A (se s) ∧ ∀ r, r ∈ es_acked s → r ∈ A) ∧ ∃ es xs, einv es xs (se s).

(** An operation outside the log. *)
Lemma log_inv_outside A e e' : log_inv A e → disk_ok (disk_of e') → outside_wal e e' → log_inv A e'.
Proof.
  intros Hi Hd (Hw & Hs & _). unfold log_inv. rewrite Hw.
  exact (wal_step_inv (ec_wal cfg) (mkSys (wal e) A) _ Hi (step_other _ (mkSys (wal e) A) (disk_of e') Hd Hs)).
Qed.

Lemma sys_inv_outside s e' es xs : sys_inv s → einv es xs e' → outside_wal (se s) e' → sys_inv (mkEsys e' (es_acked s)).
Proof.
  intros [(A & Hl & Ha) _] He Ho. split; [|by exists es, xs]. exists A. split; [|done].
  eapply log_inv_outside; [done| |done]. apply He.
Qed.

Lemma prepare_write_inv A es xs now_ms e : log_inv A e → einv es xs e →
  log_inv A (prepare_write now_ms e) ∧ einv es xs (prepare_write now_ms e).
Proof.
  intros Hl [H1 H2 H3 H4 H5 H6 H7]. split; [|by split].
  refine (wal_step_inv (ec_wal cfg) (mkSys (wal e) A) (mkSys (upd_sequence _ (wal e)) A) Hl (step_bump _ (mkSys (wal e) A) _ _)).
  cbn. unfold prepare_hlc_write_sequence. cbn. destruct (e_use_hlc e); cbn; [rewrite ensure_min_sequence_max|]; lia.
Qed.

(** The engine after the append, whatever came of it. *)
Lemma log_append_inv A es xs p now us e res w' : log_inv A e → einv es xs e → payload_ok p →
  next_lsn (wal e) < 2 ^ 64 → w_next_sequence (wal e) < 2 ^ 64 → active_segment_id (wal e) + 1 < u64_lim →
  wal_append p Strict now us (wal e) = (res, w') →
  log_inv (A ++ res_acked (new_record (next_lsn (wal e)) (w_next_sequence (wal e)) p) res) (set_wal w' e) ∧ einv es xs (set_wal w' e).
Proof.
  intros Hl [H1 H2 H3 H4 H5 H6 H7] Hp Hn Hs Hid Ha. split.
  - exact (wal_step_inv (ec_wal cfg) (mkSys (wal e) A) _ Hl (step_append _ (mkSys (wal e) A) p now us res w' Hp Hn Hs Hid Ha)).
  - split; try done. destruct Hl as (closed & act & Hi).
    assert (in_wal (wal e)) as Hw by (split; [rewrite (wi_path _ _ _ _ _ Hi); apply wal_path_prefix|apply H1]).
    destruct (wal_only_append p Strict now us (wal e) Hw) as [[_ Hd] Ho]. rewrite Ha in Hd, Ho. by eapply stored_other.
Qed.

Lemma auto_flush_inv A es xs e : log_inv A e → einv es xs e → flush_room (memtable e) e →
  let e' := (maybe_auto_flush e).2 in log_inv A e' ∧ ∃ es' xs', einv es' xs' e'.
Proof.
  intros Hl He Hr. cbv zeta. unfold maybe_auto_flush. destruct (_ && _); [|by eauto].
  destruct (flush_inv es xs e He Hr) as (r & e' & es' & xs' & Hf & He' & Ho).
  unfold mbind, stm_bind. rewrite Hf. assert (log_inv A e') by (eapply log_inv_outside; [done|apply He'|done]).
  destruct r; cbn; eauto.
Qed.

(** The part of a write after its checks. *)
Lemma logged_write_inv A es xs key v now us e0 e apply : log_inv A e → einv es xs e → payload_ok (payload_of key v) →
  next_lsn (wal e) < 2 ^ 64 → w_next_sequence (wal e) < 2 ^ 64 → active_segment_id (wal e) + 1 < u64_lim →
  memtable e = memtable e0 → next_table_id e = next_table_id e0 → next_manifest_edit_seq e = next_manifest_edit_seq e0 →
  flush_room (write_to key v (w_next_sequence (wal e)) (memtable e0)) e0 → (∀ s m, apply s m = write_to key v s m) →
  let x := (r ← log_append (payload_of key v) Strict now us; after_append apply r) e in
  (∃ A', log_inv A' x.2 ∧ (∀ r, r ∈ A → r ∈ A') ∧
    ∀ y, x.1 = Ok (Some y) → new_record (next_lsn (wal e)) (w_next_sequence (wal e)) (payload_of key v) ∈ A') ∧
  ∃ es' xs', einv es' xs' x.2.
Proof.
  intros Hl He Hp Hn Hs Hid Hm Ht Hq Hr Happ. cbv zeta. unfold mbind, stm_bind, log_append.
  pose proof (wal_append_seq (payload_of key v) Strict now us (wal e)) as Hseq.
  destruct (wal_append (payload_of key v) Strict now us (wal e)) as [res w'] eqn:Ha.
  destruct (log_append_inv A es xs _ now us e res w' Hl He Hp Hn Hs Hid Ha) as [Hl' He'].
  destruct res as [[r|r]|x]; cbn [res_acked out_acked] in Hl'.
  2,3: split; [exists A; rewrite app_nil_r in Hl'; split_and!; [done|done|by intros y]|by exists es, xs].
  unfold appended_seq in Hseq. destruct Hseq as [Hsr _]. cbn [after_append]. unfold mbind, stm_bind, modify.
  set (e1 := set_last_sequence _ _).
  assert (memtable e1 = write_to key v (w_next_sequence (wal e)) (memtable e0)) as Hm1 by (cbn; by rewrite Hsr, Happ, Hm).
  assert (einv es xs e1) as He1.
  { destruct He' as [H1 H2 H3 H4 H5 H6 H7]. split; try done; [|cbn; by rewrite Hsr]. rewrite Hm1, <-Hm. by apply write_to_ok. }
  destruct (auto_flush_inv _ es xs e1 Hl' He1) as (Hl2 & He2).
  { rewrite Hm1. destruct Hr as (Hf & H1 & H2). split_and!; [done|..]; cbn; by rewrite ?Ht, ?Hq. }
  split; [|by destruct (maybe_auto_flush e1) as [[[]|] ?]]. eexists. split_and!.
  - destruct (maybe_auto_flush e1) as [[[]|] ?]; exact Hl2.
  - intros y Hy. apply elem_of_app. by left.
  - intros y _. apply elem_of_app. right. by left.
Qed.

Lemma engine_write_inv A es xs key v mode now_ms now us e : log_inv A e → einv es xs e →
  let w := wal (prepare_write now_ms e) in
  default (durability e) mode = Strict → payload_ok (payload_of key v) →
  next_lsn w < 2 ^ 64 → w_next_sequence w < 2 ^ 64 → active_segment_id w + 1 < u64_lim →
  flush_room (write_to key v (w_next_sequence w) (memtable e)) e →
  let x := engine_write key v mode now_ms now us e in
  (∃ A', log_inv A' x.2 ∧ (∀ r, r ∈ A → r ∈ A') ∧
    ∀ y, x.1 = Ok (Some y) → new_record (next_lsn w) (w_next_sequence w) (payload_of key v) ∈ A') ∧
  ∃ es' xs', einv es' xs' x.2.
Proof.
  intros Hl He w Hmode Hp Hn Hs Hid Hr. destruct (prepare_write_inv A es xs now_ms e Hl He) as [Hl1 He1].
  assert (∀ x : KayaError, (∃ A', log_inv A' e ∧ (∀ r, r ∈ A → r ∈ A') ∧
    ∀ y : WriteResult, Err x = Ok (Some y) → new_record (next_lsn w) (w_next_sequence w) (payload_of key v) ∈ A') ∧
    ∃ es' xs', einv es' xs' e) as Herr.
  { intros x. split; [by exists A|by exists es, xs]. }
  unfold engine_write. destruct v as [value|]; [unfold write_put|unfold write_delete]; rewrite bind_get, bind_lift.
  - destruct (validate_key key e) as [[]|x]; [|apply Herr]. rewrite bind_lift.
    destruct (validate_value value e) as [[]|x]; [|apply Herr]. rewrite bind_modify, Hmode.
    by apply (logged_write_inv A es xs key (Some value) now us e).
  - destruct (validate_key key e) as [[]|x]; [|apply Herr]. rewrite bind_modify, Hmode.
    by apply (logged_write_inv A es xs key None now us e).
Qed.

(** What opening after a crash gives. *)
Lemma reopen_engine s d' : sys_inv s → crash_to (disk_of (se s)) d' →
  ∃ e' report d2 rs, open_core cfg d' = (Ok (e', report), d2) ∧ sys_inv (mkEsys e' (es_all_acked s)) ∧
    live_sstables e' = live_sstables (se s) ∧ (∀ r, r ∈ es_all_acked s → r ∈ rs) ∧
    seqs_under rs (w_next_sequence (wal e')) ∧ memtable e' = replay rs Memtable_new.
Proof.
  intros [(A & (closed & act & Hi) & HA) (es & xs & He)] Hcr.
  destruct (reopen_spec _ _ _ _ _ d' Hi Hcr) as (rep & d2 & w & Hrec & Hop & Hall & Hgood & _ & Hri & Hwinv).
  destruct (crash_layout _ _ _ (wi_layout _ _ _ _ _ Hi) Hcr) as [HL' _].
  pose proof (recover_wal_other (ec_wal cfg) d' _ HL') as Hk. rewrite Hrec in Hk. cbn [snd] in Hk.
  destruct (open_core_spec es xs rep w d' d2 (stored_crash _ _ _ _ (ei_stored _ _ _ He) Hcr) Hrec Hk Hop) as (e' & report & Ho & He' & Hw & Hls & Hm).
  { eapply Forall_impl; [exact Hgood|]. by intros r [? _ _]. }
  destruct (open_at_fields _ _ _ _ _ Hop) as [_ Hsq].
  exists e', report, d2, (rr_record <$> records rep). split_and!; [done| | | | |done].
  - split; [|by exists es, xs]. exists (A ++ sent (batch (wal (se s)))). split; [unfold log_inv; cbn [se]; by rewrite Hw|].
    intros r. unfold es_all_acked. cbn [es_acked]. rewrite !elem_of_app. intros [Hr|Hr]; [left; auto|by right].
  - by rewrite Hls, (ei_readers _ _ _ He).
  - intros r. unfold es_all_acked. rewrite elem_of_app. intros [Hr|Hr]; apply Hall, elem_of_app; auto.
  - rewrite Hw, Hsq. pose proof (rising_last _ Hri) as Hq. rewrite fmap_last in Hq. unfold next_sequence_of.
    by destruct (last (records rep)).
Qed.

Lemma engine_step_inv s s' : sys_inv s → engine_step s s' → sys_inv s'.
Proof.
  intros Hi Hst. destruct Hst as [key v mode now_ms now us r e' w Hmode Hp Hn Hs Hid Hr Hw|r e' Hr Hf|r e' Hr Hc|ts|d' e' report d2 Hcr Ho].
  - pose proof Hi as [(A & Hl & HA) (es & xs & He)].
    destruct (engine_write_inv A es xs key v mode now_ms now us (se s) Hl He Hmode Hp Hn Hs Hid Hr) as [(A' & Hl' & Hsub & Hack) He'].
    rewrite Hw in Hl', Hack, He'. split; [|done]. exists A'. split; [done|]. intros x. cbn [es_acked]. rewrite elem_of_app.
    intros [Hx|Hx]; [auto|]. destruct r as [[y|]|]; [|by apply not_elem_of_nil in Hx..].
    apply list_elem_of_singleton in Hx as ->. by apply (Hack y).
  - pose proof Hi as [_ (es & xs & He)]. destruct (flush_inv es xs (se s) He Hr) as (r' & e2 & es' & xs' & Hf' & He' & Ho).
    rewrite Hf in Hf'. injection Hf' as -> ->. by eapply sys_inv_outside.
  - pose proof Hi as [_ (es & xs & He)]. destruct (compact_inv es xs (se s) He Hr) as (r' & e2 & es' & xs' & Hc' & He' & Ho).
    rewrite Hc in Hc'. injection Hc' as -> ->. by eapply sys_inv_outside.
  - unfold set_gc_watermark. destruct (_ <? _); [|by destruct s]. pose proof Hi as [_ (es & xs & [])].
    apply (sys_inv_outside s _ es xs Hi); [by split|]. by destruct (se s) as [???????[] ????????].
  - destruct (reopen_engine s d' Hi Hcr) as (e2 & rep2 & d3 & rs & Ho' & Hi' & _). rewrite Ho in Ho'. by injection Ho' as -> -> ->.
Qed.

(** A disk the engine has not used. *)
Record fresh (d : SimState) : Prop := {
  fr_wal : layout d [];
  fr_tidy : tidy d;
  fr_current : dget d CURRENT_FILE_NAME = None;
  fr_manifest : dget d MANIFEST_FILE_NAME = None
}.

Lemma open_fresh d : fresh d → ∃ e report d2, open_core cfg d = (Ok (e, report), d2) ∧ sys_inv (mkEsys e []).
Proof.
  intros [HL Ht Hc Hm]. destruct (open_empty (ec_wal cfg) d 1 1 HL) as [Hr (w & Ho & Hi)].
  assert (stored (T:=T) d [] []) as Hst by (split; [done|constructor|done|done|constructor]).
  pose proof (recover_wal_other (ec_wal cfg) d [] HL) as Hk. rewrite Hr in Hk.
  destruct (open_core_spec [] [] empty_report w d d Hst Hr Hk Ho) as (e & report & Hoc & He & Hw & _); [constructor|].
  exists e, report, d. split; [done|]. split; [|by exists [], []]. exists []. split; [|done]. exists [], None. cbn [se]. by rewrite Hw.
Qed.

Lemma reachable_inv d e report d0 s : fresh d → open_core cfg d = (Ok (e, report), d0) → rtc engine_step (mkEsys e []) s → sys_inv s.
Proof.
  intros Hf Ho Hs. destruct (open_fresh d Hf) as (e1 & r1 & d1 & Ho1 & Hi). rewrite Ho in Ho1. injection Ho1 as -> -> ->.
  clear Ho Hf. induction Hs; eauto using engine_step_inv.
Qed.

(** ** The theorem *)

(** C1: durability of the engine. Starting from an unused disk and after any number of strict
    writes (with the flushes they trigger), flushes, compactions, advances of the watermark and
    crashes with reopening in between, while counters and sizes stay within their fields, whenever
    the machine crashes and whatever part of the unsynced bytes survives (file names always do):
    the engine opens (its log, manifest and tables; the layers for indexes, the changefeed and
    prepared transactions are opened after [open_core]), a read at the sequence number of an acknowledged
    write returns what it wrote, no sequence number of an acknowledged write is given out again,
    and the engine has exactly the sorted tables it had. *)
Theorem engine_crash_safe (d : SimState) (e : Engine T) (report : RecoveryReport) (d0 : SimState) (s : engine_sys) (d' : SimState) :
  fresh d → open_core cfg d = (Ok (e, report), d0) → rtc engine_step (mkEsys e []) s → crash_to (disk_of (se s)) d' →
  ∃ e' report' d2, open_core cfg d' = (Ok (e', report'), d2) ∧
    (∀ r k, r ∈ es_all_acked s → payload_key (payload r) = Some k →
       get_inner k (At (sequence r)) e' = Ok (payload_value (payload r)) ∧ sequence r < w_next_sequence (wal e')) ∧
    live_sstables e' = live_sstables (se s).
Proof.
  intros Hf Ho Hs Hcr. destruct (reopen_engine s d' (reachable_inv d e report d0 s Hf Ho Hs) Hcr) as (e' & rep & d2 & rs & Ho' & _ & Hls & Hall & [Hri Hlt] & Hm).
  exists e', rep, d2. split_and!; [done| |done]. intros r k Hr Hk. rewrite Forall_forall in Hlt. split; [|by apply Hlt, Hall].
  unfold get_inner. cbn [as_u64]. rewrite Hm, replay_read, (log_read_at rs r k Hri (Hall r Hr) Hk) by done.
  by destruct (payload r).
Qed.
End Durability.

(** ** A run with the real table format *)

Definition demo_settings : EngineConfig :=
  mkEngineConfig (str "data") Strict (mkWalConfig 200 1000 WalBatchConfig_default) 0 LimitsConfig_default
    (mkCompactionConfig L0Merge LeveledCompactionConfig_default SizeTieredCompactionConfig_default) false true false 0.

(** The engine opened from a disk. *)
Definition opened {T} `{SstFormat T} (cfg : EngineConfig) (d : SimState) : Engine T :=
  match (open_core cfg d).1 with
  | Ok (e, _) => e
  | Err _ => mkEngine (ec_limits cfg) Strict 0 (ec_compaction cfg) hlc_zero false 0 (demo_writer (ec_wal cfg) d) Memtable_new 0
               ManifestState_default 1 1 [] ∅ 0
  end.

Definition write_sys {T} `{SstFormat T} (s : engine_sys (T:=T)) (key : bytes) (v : option bytes) : engine_sys :=
  let w := wal (prepare_write 0 (se s)) in
  let x := engine_write key v None 0 0 0 (se s) in
  mkEsys x.2 (es_acked s ++ match x.1 with Ok (Some _) => [new_record (next_lsn w) (w_next_sequence w) (payload_of key v)] | _ => [] end).
Definition flush_sys {T} `{SstFormat T} (s : engine_sys (T:=T)) : engine_sys := mkEsys (flush (se s)).2 (es_acked s).
Definition compact_sys {T} `{SstFormat T} (s : engine_sys (T:=T)) : engine_sys := mkEsys (compact (se s)).2 (es_acked s).

Lemma write_sys_step {T} `{SstFormat T} cfg (s : engine_sys (T:=T)) key v :
  let w := wal (prepare_write 0 (se s)) in
  durability (se s) = Strict → payload_ok (payload_of key v) →
  next_lsn w < 2 ^ 64 → w_next_sequence w < 2 ^ 64 → active_segment_id w + 1 < u64_lim →
  flush_room (write_to key v (w_next_sequence w) (memtable (se s))) (se s) → engine_step cfg s (write_sys s key v).
Proof.
  intros w H1 H2 H3 H4 H5 H6. unfold write_sys. destruct (engine_write key v None 0 0 0 (se s)) as [r e'] eqn:E.
  by apply (es_write cfg s key v None 0 0 0).
Qed.

Lemma flush_sys_step {T} `{SstFormat T} cfg (s : engine_sys (T:=T)) :
  flush_room (memtable (se s)) (se s) → engine_step cfg s (flush_sys s).
Proof. intros Hr. unfold flush_sys. destruct (flush (se s)) as [r e'] eqn:E. by eapply es_flush. Qed.

Lemma compact_sys_step {T} `{SstFormat T} cfg (s : engine_sys (T:=T)) :
  compact_room (se s) → engine_step cfg s (compact_sys s).
Proof. intros Hr. unfold compact_sys. destruct (compact (se s)) as [r e'] eqn:E. by eapply es_compact. Qed.

Definition demo_start : engine_sys (T:=SstableReader) := mkEsys (opened demo_settings SimDisk_new) [].

(** Two writes and a flush, a write, a delete and a flush, the compaction of the two tables, and one more write. *)
Definition demo_1 : engine_sys := write_sys demo_start [97] (Some [1]).
Definition demo_2 : engine_sys := write_sys demo_1 [98] (Some [2]).
Definition demo_3 : engine_sys := flush_sys demo_2.
Definition demo_4 : engine_sys := write_sys demo_3 [99] (Some [3]).
Definition demo_5 : engine_sys := write_sys demo_4 [97] None.
Definition demo_6 : engine_sys := flush_sys demo_5.
Definition demo_7 : engine_sys := compact_sys demo_6.
Definition demo_life : engine_sys := write_sys demo_7 [100] (Some [4]).

Lemma demo_compact_room : compact_room (se demo_6).
Proof.
  split; [by vm_compute|]. intros c Hc. vm_compute in Hc. injection Hc as <-. split_and!; [by vm_compute..|].
  intros m Hm. vm_compute in Hm. injection Hm as <-. vm_compute. repeat constructor.
Qed.

Ltac demo_write := apply write_sys_step; [by vm_compute|vm_compute; repeat constructor|by vm_compute..|vm_compute; repeat constructor].
Ltac demo_flush := apply flush_sys_step; vm_compute; repeat constructor.

Lemma demo_life_steps : rtc (engine_step demo_settings) demo_start demo_life.
Proof.
  apply (rtc_l _ _ demo_1); [unfold demo_1; demo_write|]. apply (rtc_l _ _ demo_2); [unfold demo_2; demo_write|].
  apply (rtc_l _ _ demo_3); [unfold demo_3; demo_flush|]. apply (rtc_l _ _ demo_4); [unfold demo_4; demo_write|].
  apply (rtc_l _ _ demo_5); [unfold demo_5; demo_write|]. apply (rtc_l _ _ demo_6); [unfold demo_6; demo_flush|].
  apply (rtc_l _ _ demo_7); [unfold demo_7; apply compact_sys_step, demo_compact_room|]. apply rtc_once. unfold demo_life. demo_write.
Qed.

Lemma fresh_new : fresh SimDisk_new.
Proof. split; [apply layout_new| |done|done]. split; [by split; [constructor|]|done|done]. Qed.

Lemma all_prefixes d : om_sorted (files d) → bool_decide (Forall (λ kf, stable kf.2 `prefix_of` volatile kf.2) (files d)) = true →
  ∀ path f, dget d path = Some f → stable f `prefix_of` volatile f.
Proof.
  intros Hs Hf%bool_decide_eq_true path f Hp. apply om_get_elem in Hp; [|done]. rewrite Forall_forall in Hf. exact (Hf _ Hp).
Qed.

Lemma demo_crash : crash_to (disk_of (se demo_life)) (crash (disk_of (se demo_life))).
Proof.
  assert (disk_ok (disk_of (se demo_life))) as Hd by (split; [vm_compute; repeat constructor|by vm_compute]).
  apply crash_crash_to; [done|by vm_compute|]. apply all_prefixes; [apply Hd|by vm_compute].
Qed.

Lemma engine_crash_safe_witness :
  ∃ e' report' d2, open_core demo_settings (crash (disk_of (se demo_life))) = (Ok (e', report'), d2) ∧
    (∀ r k, r ∈ es_all_acked demo_life → payload_key (payload r) = Some k →
       get_inner k (At (sequence r)) e' = Ok (payload_value (payload r)) ∧ sequence r < w_next_sequence (wal e')) ∧
    live_sstables e' = live_sstables (se demo_life).
Proof.
  refine (engine_crash_safe demo_settings SimDisk_new (se demo_start) _ _ demo_life (crash (disk_of (se demo_life))) fresh_new _ demo_life_steps demo_crash).
  vm_compute. reflexivity.
Defined.

(** ** What goes wrong *)

(** A log with a record that is only half written, as a crash or a running server leaves it. *)
Definition half_written : SimState :=
  (append (wal_path 1) (take 20 (enc (new_record 2 2 (Put [98] [2])))) (disk_of (se demo_1))).2.

(** The stand-alone recovery, which the command line runs as a check that writes nothing, cuts the half-written record
    off the file. *)
Theorem recover_dry_run_truncates :
  is_ok (recover demo_settings half_written).1 = true ∧
  (lenN ∘ volatile <$> dget half_written (wal_path 1)) = Some 70 ∧
  (lenN ∘ volatile <$> dget (recover demo_settings half_written).2 (wal_path 1)) = Some 50.
Proof. split_and!; by vm_compute. Qed.

(** A flush whose sync of the manifest fails, on the engine with one table. *)
Definition failing_sync (s : SimState) : SimState :=
  mkSimState (files s) (write_op_count s) (Some [mkFaultRule (write_op_count s + 6) FFsyncFailed]) (strict_namespace s) (durable_names s) (shadow s).
Definition interrupted : result KayaError FlushResult * Engine SstableReader :=
  flush (set_wal (upd_disk (failing_sync (disk_of (se demo_4))) (wal (se demo_4))) (se demo_4)).

(** The disk the machine restarts with: of the new edits five bytes have survived. *)
Definition cut_manifest (f : SimFile) : SimFile :=
  let kept := take (length (stable f) + 5) (volatile f) in mkSimFile kept kept.
Definition after_cut : SimState :=
  let d := disk_of interrupted.2 in
  let d := mkSimState (files d) (write_op_count d) None (strict_namespace d) (durable_names d) (shadow d) in
  match dget d MANIFEST_FILE_NAME with Some f => crash (with_files (om_insert MANIFEST_FILE_NAME (cut_manifest f)) d) | None => d end.

#[local] Instance file_survives_dec : RelDecision file_survives.
Proof. intros f f'. unfold file_survives. apply _. Defined.

Lemma survives_check o o' :
  (match o, o' with Some f, Some f' => bool_decide (file_survives f f') | None, None => true | _, _ => false end) = true →
  option_Forall2 file_survives o o'.
Proof. destruct o, o'; try done; [|constructor]. intros Hb%bool_decide_eq_true. by constructor. Qed.

Definition second_life : engine_sys (T:=SstableReader) :=
  flush_sys (write_sys (mkEsys (opened demo_settings after_cut) []) [101] (Some [5])).

(** A torn last edit of the manifest is skipped by the replay but stays in the file, and later edits are appended
    behind it: a flush of the reopened engine succeeds, and its table is forgotten when the engine opens again. *)
Theorem manifest_torn_tail_hides_flush :
  interrupted.1 = Err FsyncFailed ∧
  option_Forall2 file_survives (dget (disk_of interrupted.2) MANIFEST_FILE_NAME) (dget after_cut MANIFEST_FILE_NAME) ∧
  is_ok (flush (se (write_sys (mkEsys (opened (T:=SstableReader) demo_settings after_cut) []) [101] (Some [5])))).1 = true ∧
  lenN (live_sstables (se second_life)) = 2 ∧
  lenN (live_sstables (opened (T:=SstableReader) demo_settings (crash (disk_of (se second_life))))) = 1.
Proof.
  split_and!; [by vm_compute| |by vm_compute..]. apply survives_check. by vm_compute.
Qed.
