(* ===== verification/Encrypted.v ===== *)
(** [kaya-io/src/encrypted.rs]: the disk that seals every file with AES-256-GCM, its keyring with
    rotation, and the keyring file.  The cipher is a parameter ([Aead], with the laws of its
    documentation in [AeadLaws]), the random nonces are arguments, and the wrapped disk is the
    simulated one.  The lock around the operations makes each of them one step. *)
From stdpp Require Import gmap sorting.
From S2P Require Import Prelude Bytes Core OrdMap Path Disk Cdc CdcLoad.

Open Scope N_scope.

(** ** The cipher *)

(** Arguments: key, nonce, message, associated data. *)
Class Aead := {
  aead_encrypt : bytes → bytes → bytes → bytes → option bytes;
  aead_decrypt : bytes → bytes → bytes → bytes → option bytes
}.

Definition NONCE_LEN : N := 12.
Definition TAG_LEN : N := 16.

(** The longest message the crate seals. *)
Definition P_MAX : N := 2 ^ 36.

Class AeadLaws (A : Aead) : Prop := {
  aead_seals k n m a : lenN m <= P_MAX → is_Some (aead_encrypt k n m a);
  aead_length k n m a ct : aead_encrypt k n m a = Some ct → lenN ct = lenN m + TAG_LEN;
  aead_opens k n m a ct : aead_encrypt k n m a = Some ct → aead_decrypt k n ct a = Some m;
  aead_authentic k n m a ct : aead_decrypt k n ct a = Some m → aead_encrypt k n m a = Some ct
}.

(** ** The keyring *)

Record Keyring := mkKeyring { active_id : N; ring_keys : gmap N bytes }.

Definition keyring_new (id : N) (key : bytes) : Keyring := mkKeyring id {[id := key]}.

Definition with_previous (id : N) (key : bytes) (r : Keyring) : Keyring :=
  mkKeyring (active_id r) (<[id := key]> (ring_keys r)).

(** Indexing the map panics when the identifier is missing, which no ring has: see [ring_ok]. *)
Definition active_key (r : Keyring) : bytes := default [] (ring_keys r !! active_id r).

Definition ring_get (id : N) (r : Keyring) : option bytes := ring_keys r !! id.

Definition key_ids (r : Keyring) : list N := merge_sort N.le (map_to_list (ring_keys r)).*1.

Definition is_simple (r : Keyring) : bool := (active_id r =? 0) && (size (ring_keys r) =? 1)%nat.

Definition rotate_key (id : N) (key : bytes) (r : Keyring) : result KayaError Keyring :=
  match ring_keys r !! id with
  | Some _ => Err (InvalidArgument ("key id " +:+ pretty id +:+ " already exists in keyring"))
  | None => Ok (mkKeyring id (<[id := key]> (ring_keys r)))
  end.

(** ** Key files *)

(** [read] is what the host returns for the file. *)
Definition load_key_file (path : string) (read : result KayaError bytes) : result KayaError bytes :=
  bs ← read;
  if lenN bs =? 32 then mret bs
  else Err (InvalidArgument ("encryption key file " +:+ path +:+ " must be exactly 32 bytes, got "
                             +:+ pretty (lenN bs))).

(** The texts of the messages are left out; [HexPanics] is the slice that does not end at a
    character. *)
Inductive KeyringError : Type :=
| MissingActiveId (lineno : N)
| BadActiveId (lineno : N)
| MissingKeyId (lineno : N)
| BadKeyId (lineno : N)
| MissingHex (lineno : N)
| HexLength (lineno : N) (len : N)
| HexDigit (lineno : N)
| HexPanics (lineno : N)
| DuplicateKey (lineno : N) (id : N)
| UnknownDirective (lineno : N) (word : bytes)
| NoActiveLine
| NoKeyLines
| ActiveUndefined (id : N).

Definition encode_hex_key (key : bytes) : bytes := key ≫= hex_digits 2.

Definition char_boundary (rest : bytes) : bool :=
  match rest with [] => true | c :: _ => negb (in_range 0x80 0xBF c) end.

Fixpoint decode_hex_pairs (lineno : N) (hex : bytes) : result KeyringError bytes :=
  match hex with
  | a :: b :: rest =>
      if negb (char_boundary rest) then Err (HexPanics lineno)
      else match from_str_radix16 [a; b] with
           | None => Err (HexDigit lineno)
           | Some v => vs ← decode_hex_pairs lineno rest; mret (v :: vs)
           end
  | _ => Ok []
  end.

Definition decode_hex_key (lineno : N) (hex : bytes) : result KeyringError bytes :=
  if lenN hex =? 64 then decode_hex_pairs lineno hex else Err (HexLength lineno (lenN hex)).

(** [str::split_whitespace]. *)
Fixpoint words (fuel : nat) (word bs : bytes) : list bytes :=
  let done := match word with [] => [] | _ => [reverse word] end in
  match fuel, bs with
  | S fuel, b :: rest =>
      match ws_front bs with
      | O => words fuel (b :: word) rest
      | n => done ++ words fuel [] (drop n bs)
      end
  | _, _ => done
  end.
Definition split_whitespace (bs : bytes) : list bytes := words (length bs) [] bs.

Abbreviation ring_draft := (option N * gmap N bytes)%type.

Definition parse_active (lineno : N) (parts : list bytes) (draft : ring_draft) : result KeyringError ring_draft :=
  id ← ok_or (MissingActiveId lineno) (head parts);
  id ← ok_or (BadActiveId lineno) (parse_uint u32_max id);
  mret (Some id, draft.2).

Definition parse_key (lineno : N) (parts : list bytes) (draft : ring_draft) : result KeyringError ring_draft :=
  id ← ok_or (MissingKeyId lineno) (head parts);
  id ← ok_or (BadKeyId lineno) (parse_uint u32_max id);
  hex ← ok_or (MissingHex lineno) (parts !! 1%nat);
  key ← decode_hex_key lineno hex;
  match draft.2 !! id with
  | Some _ => Err (DuplicateKey lineno id)
  | None => mret (draft.1, <[id := key]> draft.2)
  end.

Definition parse_keyring_line (lineno : N) (raw : bytes) (draft : ring_draft) : result KeyringError ring_draft :=
  let line := trim raw in
  if bool_decide (line = []) || starts_with (str "#") line then Ok draft
  else match split_whitespace line with
       | [] => Ok draft
       | word :: parts =>
           if bool_decide (word = str "active") then parse_active lineno parts draft
           else if bool_decide (word = str "key") then parse_key lineno parts draft
           else Err (UnknownDirective lineno word)
       end.

Fixpoint parse_keyring_lines (lineno : N) (lines : list bytes) (draft : ring_draft)
    : result KeyringError ring_draft :=
  match lines with
  | [] => Ok draft
  | raw :: lines =>
      draft ← parse_keyring_line lineno raw draft;
      parse_keyring_lines (lineno + 1) lines draft
  end.

Definition parse_keyring (text : bytes) : result KeyringError Keyring :=
  '(active, keys) ← parse_keyring_lines 1 (text_lines text) (None, ∅);
  active ← ok_or NoActiveLine active;
  if (size keys =? 0)%nat then Err NoKeyLines
  else match keys !! active with
       | None => Err (ActiveUndefined active)
       | Some _ => mret (mkKeyring active keys)
       end.

Definition key_line (r : Keyring) (id : N) : bytes :=
  str "key " ++ dec_bytes id ++ str " " ++ encode_hex_key (default [] (ring_get id r)).

(** The text [save_keyring_file] writes. *)
Definition keyring_text (r : Keyring) : bytes :=
  (str "# KayaDB encryption keyring: key material, treat like a private key." ++ [10]) ++
  (str "active " ++ dec_bytes (active_id r) ++ [10]) ++
  (key_ids r ≫= λ id, key_line r id ++ [10]).

(** ** The envelope *)

Definition ENC_MAGIC : bytes := str "KAYAENC1".
Definition ENC_MAGIC2 : bytes := str "KAYAENC2".
Definition HEADER_LEN : N := 8 + 8 + NONCE_LEN.
Definition HEADER_LEN2 : N := 8 + 4 + 8 + NONCE_LEN.
Definition HEADER_PEEK : N := 20.

Record Header := mkHeader { key_id : N; header_len : N; plain_len : N }.

(** The associated data, which is also how the file starts. *)
Definition aad1 (len : N) : bytes := ENC_MAGIC ++ le_bytes 8 len.
Definition aad2 (id len : N) : bytes := ENC_MAGIC2 ++ le_bytes 4 id ++ le_bytes 8 len.

Definition cipher_for (key : bytes) : result KayaError bytes :=
  if lenN key =? 32 then Ok key else Err (InvalidArgument "invalid AES-256-GCM key: Invalid Length").

Definition parse_header (prefix : bytes) : result KayaError Header :=
  if lenN prefix <? 8 then Err (Corruption "encrypted file too short to contain a magic")
  else if bool_decide (take 8 prefix = ENC_MAGIC) then
    if lenN prefix <? 16 then Err (Corruption "legacy encrypted header truncated")
    else Ok (mkHeader 0 HEADER_LEN (le_val (slice 8 16 prefix)))
  else if bool_decide (take 8 prefix = ENC_MAGIC2) then
    if lenN prefix <? HEADER_PEEK then Err (Corruption "keyed encrypted header truncated")
    else Ok (mkHeader (le_val (slice 8 12 prefix)) HEADER_LEN2 (le_val (slice 12 20 prefix)))
  else Err (Corruption "encrypted file missing KAYAENC1/KAYAENC2 magic (wrong key mode or corrupt)").

Definition plain_len_from_header (prefix : bytes) : option N :=
  match parse_header prefix with Ok h => Some (plain_len h) | Err _ => None end.

Section Envelope.
Context `{Aead}.

Definition seal (r : Keyring) (nonce plain : bytes) : result KayaError bytes :=
  cipher ← cipher_for (active_key r);
  let aad := if is_simple r then aad1 (lenN plain) else aad2 (active_id r) (lenN plain) in
  ciphertext ← ok_or (Internal "AES-GCM encrypt failed: aead::Error") (aead_encrypt cipher nonce plain aad);
  mret (aad ++ nonce ++ ciphertext).

Definition open_sealed (r : Keyring) (path sealed : bytes) : result KayaError bytes :=
  header ← parse_header (take (N.to_nat (N.min HEADER_PEEK (lenN sealed))) sealed);
  if lenN sealed <? header_len header + TAG_LEN
  then Err (Corruption "encrypted file truncated (shorter than header+tag)")
  else
    let nonce := slice (N.to_nat (header_len header - NONCE_LEN)) (N.to_nat (header_len header)) sealed in
    let ciphertext := drop (N.to_nat (header_len header)) sealed in
    if negb (lenN ciphertext =? wrap u64_lim (plain_len header + TAG_LEN))
    then Err (Corruption ("encrypted file length mismatch: plain_len=" +:+ pretty (plain_len header)
                          +:+ ", ct=" +:+ pretty (lenN ciphertext)))
    else
      key ← ok_or (InvalidArgument ("no key id " +:+ pretty (key_id header) +:+ " in keyring to decrypt "
                                    +:+ to_string path +:+ " (see `kayactl encryption list`)"))
              (ring_get (key_id header) r);
      cipher ← cipher_for key;
      let aad := if header_len header =? HEADER_LEN then aad1 (plain_len header)
                 else aad2 (key_id header) (plain_len header) in
      ok_or (Corruption "AES-GCM authentication failed (wrong key or corrupt ciphertext)")
        (aead_decrypt cipher nonce ciphertext aad).

Definition verify_sealed (r : Keyring) (sealed : bytes) : result KayaError unit :=
  _ ← open_sealed r (str "file") sealed; mret tt.

(** ** The disk *)

(** The loop that reads [len] bytes; every read that does not end it makes progress, so as much
    fuel as bytes is enough. *)
Fixpoint read_sealed (fuel : nat) (path : bytes) (offset len : N) : stm SimState bytes :=
  match fuel with
  | O => mret []
  | S fuel =>
      if len <=? offset then mret []
      else
        chunk ← read_at path offset (len - offset);
        if lenN chunk =? 0 then fail (Corruption ("unexpected EOF reading encrypted file " +:+ to_string path))
        else rest ← read_sealed fuel path (offset + lenN chunk) len; mret (chunk ++ rest)
  end.

Definition load_plain (r : Keyring) (path : bytes) : stm SimState bytes :=
  found ← catch (file_len path);
  match found with
  | Err NotFound => mret []
  | Err e => fail e
  | Ok physical_len =>
      if physical_len =? 0 then mret []
      else if physical_len <? HEADER_PEEK then
        fail (Corruption ("encrypted file " +:+ to_string path +:+ " is shorter than its header ("
                          +:+ pretty physical_len +:+ " bytes)"))
      else
        sealed ← read_sealed (N.to_nat physical_len) path 0 physical_len;
        lift (open_sealed r path sealed)
  end.

Fixpoint write_sealed (fuel : nat) (path sealed : bytes) (written : N) : stm SimState unit :=
  match fuel with
  | O => mret tt
  | S fuel =>
      if lenN sealed <=? written then mret tt
      else
        n ← write_at path written (drop (N.to_nat written) sealed);
        if n =? 0 then fail (Io ("short write sealing " +:+ to_string path))
        else write_sealed fuel path sealed (written + n)
  end.

Definition store_plain (r : Keyring) (nonce path plain : bytes) : stm SimState unit :=
  sealed ← lift (seal r nonce plain);
  _ ← write_sealed (length sealed) path sealed 0;
  truncate path (lenN sealed).

Definition enc_read_at (r : Keyring) (path : bytes) (offset buf_len : N) : stm SimState bytes :=
  plain ← load_plain r path;
  if lenN plain <=? offset then mret []
  else mret (take (N.to_nat (N.min (lenN plain - offset) buf_len)) (drop (N.to_nat offset) plain)).

Definition enc_write_at (r : Keyring) (nonce path : bytes) (offset : N) (buf : bytes) : stm SimState N :=
  plain ← load_plain r path;
  _ ← store_plain r nonce path (overwrite (N.to_nat offset) buf plain);
  mret (lenN buf).

Definition enc_append (r : Keyring) (nonce path buf : bytes) : stm SimState N :=
  plain ← load_plain r path;
  _ ← store_plain r nonce path (plain ++ buf);
  mret (lenN plain).

(** [resize] or [truncate] of the plaintext. *)
Definition enc_truncate (r : Keyring) (nonce path : bytes) (len : N) : stm SimState unit :=
  plain ← load_plain r path;
  store_plain r nonce path
    (if lenN plain <? len then plain ++ replicate (N.to_nat len - length plain) 0
     else take (N.to_nat len) plain).

(** The length reported for a directory entry: that of the header where there is one. *)
Definition entry_len (entry : DirEntry) : stm SimState N :=
  physical ← catch (file_len (de_path entry));
  match physical with
  | Ok physical =>
      if HEADER_PEEK <=? physical then
        hdr ← catch (read_at (de_path entry) 0 HEADER_PEEK);
        match hdr with
        | Ok hdr => if lenN hdr =? HEADER_PEEK then mret (default (de_len entry) (plain_len_from_header hdr))
                    else mret (de_len entry)
        | Err _ => mret (de_len entry)
        end
      else mret (de_len entry)
  | Err _ => mret (de_len entry)
  end.

Fixpoint plain_entries (entries : list DirEntry) : stm SimState (list DirEntry) :=
  match entries with
  | [] => mret []
  | entry :: entries =>
      len ← (if is_dir entry then mret (de_len entry) else entry_len entry);
      rest ← plain_entries entries;
      mret (mkDirEntry (de_path entry) (is_dir entry) len :: rest)
  end.

Definition enc_list_dir (path : bytes) : stm SimState (list DirEntry) :=
  entries ← list_dir path;
  plain_entries entries.

Definition enc_file_len (path : bytes) : stm SimState N :=
  physical ← file_len path;
  if physical =? 0 then mret 0
  else if physical <? HEADER_PEEK then
    fail (Corruption ("encrypted file " +:+ to_string path +:+ " is shorter than its header"))
  else
    hdr ← read_at path 0 HEADER_PEEK;
    if lenN hdr <? HEADER_PEEK then fail (Corruption "encrypted file header truncated")
    else match plain_len_from_header hdr with
         | Some len => mret len
         | None => fail (Corruption "encrypted file missing KAYAENC1/KAYAENC2 magic")
         end.
End Envelope.

(** ** Envelopes *)

(** What the type [[u8; 32]] and the constructors of a ring guarantee. *)
Definition key_ok (key : bytes) : Prop := lenN key = 32 ∧ bytes_ok key.
Record ring_ok (r : Keyring) : Prop := {
  ro_active : is_Some (ring_keys r !! active_id r);
  ro_keys : map_Forall (λ id key, id < u32_lim ∧ key_ok key) (ring_keys r)
}.

Lemma keyring_new_ok id key : id < u32_lim → key_ok key → ring_ok (keyring_new id key).
Proof.
  intros Hi Hk. split; cbn; [by rewrite lookup_singleton_eq|]. by apply map_Forall_singleton.
Qed.

Lemma with_previous_ok id key r : ring_ok r → id < u32_lim → key_ok key → ring_ok (with_previous id key r).
Proof.
  intros [Ha Hk] Hi Hkey. split; cbn; [|by apply map_Forall_insert_2].
  destruct (decide (id = active_id r)) as [->|]; [by rewrite lookup_insert_eq|by rewrite lookup_insert_ne].
Qed.

Lemma rotate_key_ok id key r r' :
  ring_ok r → id < u32_lim → key_ok key → rotate_key id key r = Ok r' →
  ring_ok r' ∧ ring_keys r ⊆ ring_keys r' ∧ is_simple r' = false.
Proof.
  intros [Ha Hk] Hi Hkey. unfold rotate_key. destruct (ring_keys r !! id) eqn:E; [done|]. intros [= <-]. split_and!.
  - split; cbn; [by rewrite lookup_insert_eq|by apply map_Forall_insert_2].
  - cbn. by apply insert_subseteq.
  - unfold is_simple. cbn. rewrite map_size_insert_None by done. apply andb_false_intro2, Nat.eqb_neq.
    destruct Ha as [k Ha]. pose proof (map_size_ne_0_lookup_2 (ring_keys r) _ (ex_intro _ k Ha)). lia.
Qed.

Section EnvelopeProps.
Context {A : Aead} {AL : AeadLaws A}.

(** The bytes [c] are a sealing of [p] under a key of the ring. *)
Inductive sealed_as (r : Keyring) (p : bytes) : bytes → Prop :=
| sealed_legacy nonce key ct :
    ring_get 0 r = Some key → lenN key = 32 → lenN nonce = NONCE_LEN →
    aead_encrypt key nonce p (aad1 (lenN p)) = Some ct →
    sealed_as r p (aad1 (lenN p) ++ nonce ++ ct)
| sealed_keyed id nonce key ct :
    ring_get id r = Some key → id < u32_lim → lenN key = 32 → lenN nonce = NONCE_LEN →
    aead_encrypt key nonce p (aad2 id (lenN p)) = Some ct →
    sealed_as r p (aad2 id (lenN p) ++ nonce ++ ct).

Lemma sealed_more_keys r r' p c : ring_keys r ⊆ ring_keys r' → sealed_as r p c → sealed_as r' p c.
Proof.
  intros Hs [nonce key ct Hk ? ? ?|id nonce key ct Hk ? ? ? ?]; econstructor; try done; by eapply lookup_weaken.
Qed.

Lemma lenN_aad1 n : lenN (aad1 n) = 16.
Proof. unfold aad1. by rewrite lenN_app, lenN_le_bytes. Qed.
Lemma lenN_aad2 i n : lenN (aad2 i n) = 20.
Proof. unfold aad2. by rewrite !lenN_app, !lenN_le_bytes. Qed.

Lemma cipher_for_ok key : lenN key = 32 → cipher_for key = Ok key.
Proof. intros Hk. unfold cipher_for. by rewrite Hk. Qed.

(** The bytes added to a plaintext by the format the ring writes. *)
Definition overhead (r : Keyring) : N := (if is_simple r then HEADER_LEN else HEADER_LEN2) + TAG_LEN.

Lemma seal_ok r nonce p :
  ring_ok r → lenN nonce = NONCE_LEN → lenN p <= P_MAX →
  ∃ c, seal r nonce p = Ok c ∧ sealed_as r p c ∧ lenN c = overhead r + lenN p.
Proof.
  intros [[key Hk] Hks] Hn Hp. destruct (Hks _ _ Hk) as [Hid [Hlen _]]. unfold seal, active_key, overhead.
  rewrite Hk. change (default [] (Some key)) with key. rewrite cipher_for_ok by done. cbn [mbind result_bind]. destruct (is_simple r) eqn:Es.
  - destruct (aead_seals key nonce p (aad1 (lenN p)) Hp) as [ct Hct]. rewrite Hct. eexists. split; [done|].
    apply andb_prop in Es as [E%N.eqb_eq _]. split; [econstructor; try done; unfold ring_get; by rewrite <-E|].
    apply aead_length in Hct. rewrite !lenN_app, lenN_aad1. unfold HEADER_LEN, NONCE_LEN in *. lia.
  - destruct (aead_seals key nonce p (aad2 (active_id r) (lenN p)) Hp) as [ct Hct]. rewrite Hct. eexists. split; [done|].
    split; [by econstructor|].
    apply aead_length in Hct. rewrite !lenN_app, lenN_aad2. unfold HEADER_LEN2, NONCE_LEN in *. lia.
Qed.

Lemma le_val_field n v rest : v < 256 ^ N.of_nat n → le_val (take n (le_bytes n v ++ rest)) = v.
Proof. intros Hv. rewrite take_app_length' by (by rewrite length_le_bytes). by apply le_val_le_bytes. Qed.

Lemma parse_header1 n rest :
  n < u64_lim → parse_header (take 20 (aad1 n ++ rest)) = Ok (mkHeader 0 HEADER_LEN n).
Proof.
  intros Hn. unfold parse_header. assert (16 <= lenN (take 20 (aad1 n ++ rest))) as Hl.
  { pose proof (lenN_aad1 n). unfold lenN in *. rewrite length_take, length_app. lia. }
  rewrite !(proj2 (N.ltb_ge _ _)) by lia.
  assert (take 8 (take 20 (aad1 n ++ rest)) = ENC_MAGIC) as -> by (by rewrite take_take).
  rewrite bool_decide_eq_true_2 by done. do 2 f_equal. unfold slice. rewrite skipn_firstn_comm, take_take. cbn [Nat.sub Nat.min].
  unfold aad1. rewrite <-app_assoc. rewrite drop_app_length' by done. by apply (le_val_field 8).
Qed.

Lemma parse_header2 i n rest :
  i < u32_lim → n < u64_lim → parse_header (take 20 (aad2 i n ++ rest)) = Ok (mkHeader i HEADER_LEN2 n).
Proof.
  intros Hi Hn. unfold parse_header. assert (20 <= lenN (take 20 (aad2 i n ++ rest))) as Hl.
  { pose proof (lenN_aad2 i n). unfold lenN in *. rewrite length_take, length_app. lia. }
  unfold HEADER_PEEK. rewrite !(proj2 (N.ltb_ge _ _)) by lia.
  assert (take 8 (take 20 (aad2 i n ++ rest)) = ENC_MAGIC2) as -> by (by rewrite take_take).
  rewrite bool_decide_eq_false_2 by done. rewrite bool_decide_eq_true_2 by done.
  unfold slice. rewrite !skipn_firstn_comm, !take_take. cbn [Nat.sub Nat.min]. unfold aad2. rewrite <-!app_assoc.
  do 2 f_equal.
  - rewrite drop_app_length' by done. by apply (le_val_field 4).
  - rewrite (app_assoc ENC_MAGIC2). rewrite drop_app_length' by (by rewrite length_app, length_le_bytes). by apply (le_val_field 8).
Qed.

Lemma max_fits (p : bytes) : lenN p <= P_MAX → lenN p < u64_lim ∧ lenN p + TAG_LEN < u64_lim.
Proof. unfold P_MAX, u64_lim, TAG_LEN. intros. assert (2 ^ 36 = 68719476736) as E by done. lia. Qed.

(** The header of a sealing names its length. *)
Lemma sealed_header r p c :
  sealed_as r p c → lenN p <= P_MAX →
  44 + lenN p <= lenN c ∧ ∃ h, parse_header (take 20 c) = Ok h ∧ plain_len h = lenN p ∧
    (header_len h = 28 ∨ header_len h = 32) ∧ lenN c = header_len h + TAG_LEN + lenN p.
Proof.
  intros Hs [Hp _]%max_fits. destruct Hs as [nonce key ct _ _ Hn Hct%aead_length|id nonce key ct _ Hi _ Hn Hct%aead_length];
    rewrite !lenN_app, ?lenN_aad1, ?lenN_aad2; unfold NONCE_LEN, TAG_LEN in *; (split; [lia|]).
  - exists (mkHeader 0 HEADER_LEN (lenN p)). rewrite parse_header1 by done. split_and!; [done..|by left|cbn [header_len]; unfold HEADER_LEN, HEADER_LEN2, NONCE_LEN; lia].
  - exists (mkHeader id HEADER_LEN2 (lenN p)). rewrite parse_header2 by done. split_and!; [done..|by right|cbn [header_len]; unfold HEADER_LEN, HEADER_LEN2, NONCE_LEN; lia].
Qed.

Lemma peek_take (c : bytes) : take (N.to_nat (N.min HEADER_PEEK (lenN c))) c = take 20 c.
Proof.
  unfold HEADER_PEEK, lenN. destruct (N.min_spec 20 (N.of_nat (length c))) as [[? ->]|[? ->]]; [done|].
  rewrite Nat2N.id, !take_ge by lia. done.
Qed.

Lemma open_sealed_ok r path p c : lenN p <= P_MAX → sealed_as r p c → open_sealed r path c = Ok p.
Proof.
  intros [Hp Hp']%max_fits Hs. unfold open_sealed. rewrite peek_take.
  destruct Hs as [nonce key ct Hk Hl Hn Hct|id nonce key ct Hk Hi Hl Hn Hct]; pose proof (aead_length _ _ _ _ _ Hct) as Hlc;
    [rewrite parse_header1 by done; pose proof (lenN_aad1 (lenN p)) as Ha; set (aad := aad1 (lenN p)) in *
    |rewrite parse_header2 by done; pose proof (lenN_aad2 id (lenN p)) as Ha; set (aad := aad2 id (lenN p)) in *];
    cbn [mbind result_bind header_len plain_len key_id];
    (rewrite (proj2 (N.ltb_ge _ _)) by (rewrite !lenN_app, Ha, Hn, Hlc; unfold HEADER_LEN, HEADER_LEN2, NONCE_LEN; lia));
    (replace (slice _ _ (aad ++ nonce ++ ct)) with nonce
       by (symmetry; apply slice_at; unfold lenN, HEADER_LEN, HEADER_LEN2, NONCE_LEN in *; lia));
    (replace (drop _ (aad ++ nonce ++ ct)) with ct
       by (rewrite app_assoc, drop_app_length'; [done|rewrite length_app; unfold lenN, HEADER_LEN, HEADER_LEN2, NONCE_LEN in *; lia]));
    rewrite Hlc, wrap_small, N.eqb_refl, Hk by done; cbn [negb mbind result_bind ok_or]; rewrite cipher_for_ok by done; cbn [mbind result_bind];
    change (HEADER_LEN2 =? HEADER_LEN) with false; rewrite ?N.eqb_refl; cbn match; fold aad; by rewrite (aead_opens _ _ _ _ _ Hct).
Qed.

(** *** Only sealings open *)

Lemma slice_cut {X} a b (l : list X) : (a ≤ b)%nat → drop a l = slice a b l ++ drop b l.
Proof. intros Hab. unfold slice. rewrite <-(take_drop (b - a) (drop a l)) at 1. rewrite drop_drop. do 2 f_equal. lia. Qed.

Lemma field_bytes n (l : bytes) : bytes_ok l → length l = n → le_bytes n (le_val l) = l.
Proof. intros Hl <-. by apply le_bytes_le_val. Qed.

Lemma bytes_ok_slice a b (l : bytes) : bytes_ok l → bytes_ok (slice a b l).
Proof. intros Hl. unfold slice, bytes_ok. by apply Forall_take, Forall_drop. Qed.

Lemma slice_of_take {X} a b n (l : list X) : (b ≤ n)%nat → slice a b (take n l) = slice a b l.
Proof. intros Hb. unfold slice. rewrite skipn_firstn_comm, take_take. f_equal. lia. Qed.

(** A header that parses is the associated data it stands for. *)
Lemma parse_header_inv c h :
  bytes_ok c → 20 <= lenN c → parse_header (take 20 c) = Ok h →
  plain_len h < u64_lim ∧ key_id h < u32_lim ∧
  (h = mkHeader 0 HEADER_LEN (plain_len h) ∧ c = aad1 (plain_len h) ++ drop 16 c ∨
   h = mkHeader (key_id h) HEADER_LEN2 (plain_len h) ∧ c = aad2 (key_id h) (plain_len h) ++ drop 20 c).
Proof.
  intros Hb Hl. unfold parse_header. rewrite !take_take, !slice_of_take by lia. cbn [Nat.min].
  assert (∀ a b, (a ≤ b ≤ 20)%nat → length (slice a b c) = (b - a)%nat) as Hs by (intros; apply length_slice; unfold lenN in Hl; lia).
  assert (∀ a b, (a ≤ b ≤ 20)%nat → le_val (slice a b c) < 256 ^ N.of_nat (b - a)) as Hv.
  { intros a b Hab. rewrite <-(Hs a b) by done. by apply le_val_bound, bytes_ok_slice. }
  destruct (_ <? 8); [done|]. case_bool_decide as E1.
  - destruct (_ <? 16); [done|]. intros [= <-]. cbn [plain_len key_id]. split_and!; [by apply (Hv 8 16)%nat; lia|done|].
    left. split; [done|]. unfold aad1. rewrite <-E1, (field_bytes 8) by (by apply bytes_ok_slice || by apply (Hs 8 16)%nat; lia).
    rewrite <-app_assoc, <-(slice_cut 8 16) by lia. by rewrite take_drop.
  - case_bool_decide as E2; [|done]. destruct (_ <? HEADER_PEEK); [done|]. intros [= <-]. cbn [plain_len key_id].
    split_and!; [by apply (Hv 12 20)%nat; lia|by apply (Hv 8 12)%nat; lia|]. right. split; [done|]. unfold aad2. rewrite <-E2.
    rewrite (field_bytes 8), (field_bytes 4) by (by apply bytes_ok_slice || by apply Hs; lia).
    rewrite <-!app_assoc, <-(slice_cut 12 20), <-(slice_cut 8 12) by lia. by rewrite take_drop.
Qed.

Lemma parse_header_len pre h : parse_header pre = Ok h → header_len h = HEADER_LEN ∨ header_len h = HEADER_LEN2.
Proof. unfold parse_header. repeat case_goal; intros [= <-]; auto. Qed.

Lemma open_sealed_inv r path p c : bytes_ok c → open_sealed r path c = Ok p → sealed_as r p c.
Proof.
  intros Hb. unfold open_sealed. rewrite peek_take. destruct (parse_header (take 20 c)) as [h|] eqn:Eh; [|done]. cbn [mbind result_bind].
  pose proof (parse_header_len _ _ Eh) as Hh. destruct (N.ltb_spec (lenN c) (header_len h + TAG_LEN)) as [|Hl]; [done|].
  destruct (parse_header_inv c h Hb) as (Hp & Hi & Hc); [unfold HEADER_LEN, HEADER_LEN2, TAG_LEN in *; lia|done|].
  set (nonce := slice _ _ c). set (ct := drop _ c). destruct (N.eqb_spec (lenN ct) (wrap u64_lim (plain_len h + TAG_LEN))) as [Hct|]; [|done].
  cbn [negb]. destruct (ring_get (key_id h) r) as [key|] eqn:Hk; [|done]. cbn [ok_or mbind result_bind]. unfold cipher_for.
  destruct (N.eqb_spec (lenN key) 32) as [Hkl|]; [|done]. cbn [mbind result_bind].
  set (aad := if _ : bool then _ else _). destruct (aead_decrypt key nonce ct aad) as [m|] eqn:Hd; [|done]. intros [= <-].
  apply aead_authentic in Hd. pose proof (aead_length _ _ _ _ _ Hd) as Hm.
  assert (lenN ct = lenN c - header_len h) as Hlc by (unfold ct, lenN; rewrite length_drop; lia).
  assert (lenN nonce = NONCE_LEN) as Hn.
  { unfold nonce, lenN. rewrite length_slice by (unfold lenN in *; lia). unfold NONCE_LEN. destruct Hh as [-> | ->]; done. }
  assert (plain_len h = lenN m) as Hpl.
  { unfold wrap in Hct. destruct (N.lt_ge_cases (plain_len h + TAG_LEN) u64_lim) as [Hs|Hs]; [rewrite N.mod_small in Hct by done; lia|].
    exfalso. unfold TAG_LEN, u64_lim in *.
    assert ((plain_len h + 16) mod 18446744073709551616 = plain_len h + 16 - 18446744073709551616) as E
      by (symmetry; apply (N.mod_unique _ _ 1); lia). lia. }
  destruct h as [id hl pl]. cbn [header_len plain_len key_id] in *. subst pl.
  assert (c = aad ++ nonce ++ ct) as Ec.
  { unfold aad, nonce, ct. destruct Hc as [[[= -> ->] Ec]|[[= ->] Ec]]; rewrite Ec at 1; f_equal; [apply (slice_cut 16 28)|apply (slice_cut 20 32)]; lia. }
  rewrite Ec. unfold aad in *. destruct Hc as [[[= -> ->] _]|[[= ->] _]]; [by econstructor|by eapply sealed_keyed].
Qed.

(** ** The sealed disk beside the plain one *)

(** Two maps with the same keys and related values. *)
Definition omrel {V W} (R : V → W → Prop) : list (bytes * V) → list (bytes * W) → Prop :=
  Forall2 (λ x y, x.1 = y.1 ∧ R x.2 y.2).

Lemma omrel_keys {V W} (R : V → W → Prop) m m' : omrel R m m' → m.*1 = m'.*1.
Proof. induction 1 as [|[k v] [k' w] m m' [E _] _ IH]; [done|]. cbn in *. by rewrite E, IH. Qed.

Lemma omrel_get {V W} (R : V → W → Prop) k m m' : omrel R m m' → option_Forall2 R (om_get k m) (om_get k m').
Proof.
  induction 1 as [|[k1 v] [k2 w] m m' [E HR] _ IH]; [constructor|]. cbn in E, HR |- *. subst k2.
  by destruct (bcmp k k1); [constructor|constructor|].
Qed.

Lemma omrel_has {V W} (R : V → W → Prop) k m m' : omrel R m m' → om_has k m = om_has k m'.
Proof. intros Hm. unfold om_has. by destruct (omrel_get R k m m' Hm). Qed.

Lemma omrel_insert {V W} (R : V → W → Prop) k v w m m' : omrel R m m' → R v w → omrel R (om_insert k v m) (om_insert k w m').
Proof.
  intros Hm HR. induction Hm as [|[k1 v1] [k2 w1] m m' [E HR1] Hm IH]; [by repeat constructor|]. cbn in E, HR1 |- *. subst k2.
  destruct (bcmp k k1); repeat constructor; done.
Qed.

Lemma omrel_remove {V W} (R : V → W → Prop) k m m' : omrel R m m' → omrel R (om_remove k m) (om_remove k m').
Proof.
  intros Hm. induction Hm as [|[k1 v1] [k2 w1] m m' [E HR1] Hm IH]; [constructor|]. cbn in E, HR1 |- *. subst k2.
  destruct (bcmp k k1); [done|by repeat constructor|by repeat constructor].
Qed.

Lemma omrel_impl {V W} (R S : V → W → Prop) m m' : (∀ v w, R v w → S v w) → omrel R m m' → omrel S m m'.
Proof. intros HRS Hm. eapply Forall2_impl; [exact Hm|]. intros x y [? ?]. auto. Qed.

Lemma omrel_filter {V W} (R : V → W → Prop) (P : bytes → bool) m m' :
  omrel R m m' → omrel R (filter (λ kf, P kf.1 = true) m) (filter (λ kf, P kf.1 = true) m').
Proof.
  induction 1 as [|[k1 v1] [k2 w1] m m' [E HR1] Hm IH]; [constructor|]. cbn in E, HR1. subst k2. rewrite !filter_cons. cbn [fst].
  case_decide; [by constructor|done].
Qed.

Lemma om_insert_twice {V} k (v v' : V) (m : list (bytes * V)) : om_insert k v (om_insert k v' m) = om_insert k v m.
Proof.
  induction m as [|[k1 v1] m IH]; cbn; [by rewrite bcmp_refl|]. destruct (bcmp k k1) eqn:E; cbn; rewrite ?bcmp_refl, ?E; [done|done|by rewrite IH].
Qed.

(** A plaintext and what the wrapped disk holds for it; [overhead] bounds the format. *)
Definition content_rel (r : Keyring) (p c : bytes) : Prop :=
  p = [] ∧ c = [] ∨ lenN p <= P_MAX ∧ sealed_as r p c ∧ lenN c <= overhead r + lenN p.

Record file_rel (r : Keyring) (f g : SimFile) : Prop := {
  fr_volatile : content_rel r (volatile f) (volatile g);
  fr_stable : content_rel r (stable f) (stable g);
  fr_grows : lenN (stable f) <= lenN (volatile f)
}.

Lemma content_more_keys r r' p c :
  ring_keys r ⊆ ring_keys r' → overhead r <= overhead r' → content_rel r p c → content_rel r' p c.
Proof.
  intros Hs Ho [?|(? & ? & ?)]; [by left|right]. split_and!; [done|by eapply sealed_more_keys|lia].
Qed.

(** Names that the path operations leave alone. *)
Definition neat (p : bytes) : Prop := Forall plain p ∧ (ch_colon ∉ p) ∧ Forall good_part (split_on ch_slash p).

Record sim (r : Keyring) (d e : SimState) : Prop := {
  sm_ring : ring_ok r;
  sm_files : omrel (file_rel r) (files d) (files e);
  sm_shadow : omrel (file_rel r) (shadow d) (shadow e);
  sm_sorted : om_sorted (files e);
  sm_neat : Forall (λ kf, neat kf.1) (files e);
  sm_neat_shadow : Forall (λ kf, neat kf.1) (shadow e);
  sm_names : durable_names d = durable_names e;
  sm_strict : strict_namespace d = strict_namespace e;
  sm_faults_d : fault_schedule d = None;
  sm_faults_e : fault_schedule e = None
}.

Lemma step_ok {B C} (m : stm SimState B) (k : B → stm SimState C) s b s' : m s = (Ok b, s') → (m ≫= k) s = k b s'.
Proof. intros E. unfold mbind, stm_bind. by rewrite E. Qed.

Lemma catch_bind {B C} (m : stm SimState B) (k : result KayaError B → stm SimState C) s :
  (catch m ≫= k) s = k (m s).1 (m s).2.
Proof. unfold mbind, stm_bind, catch. by destruct (m s). Qed.

Lemma read_sealed_all path g s :
  om_get path (files s) = Some g → volatile g ≠ [] →
  read_sealed (N.to_nat (lenN (volatile g))) path 0 (lenN (volatile g)) s = (Ok (volatile g), s).
Proof.
  intros Hg Hne. assert (0 < lenN (volatile g)) as Hpos by (destruct (volatile g); [done|unfold lenN; cbn; lia]).
  destruct (N.to_nat (lenN (volatile g))) as [|fuel] eqn:El; [lia|]. cbn [read_sealed]. rewrite (proj2 (N.leb_gt _ _)) by done.
  unfold mbind, stm_bind. rewrite N.sub_0_r, (read_at_all path s g Hg). rewrite (proj2 (N.eqb_neq _ _)) by lia. rewrite N.add_0_l.
  destruct fuel; cbn [read_sealed]; rewrite ?N.leb_refl; unfold mret, stm_ret; by rewrite app_nil_r.
Qed.

(** The plaintext of a file, empty when there is none. *)
Definition plain_of (path : bytes) (d : SimState) : bytes := volatile (file_or_default path d).

Lemma sim_get r d e path :
  sim r d e →
  (∃ f g, om_get path (files d) = Some f ∧ om_get path (files e) = Some g ∧ file_rel r f g) ∨
  om_get path (files d) = None ∧ om_get path (files e) = None.
Proof. intros Hs. destruct (omrel_get _ path _ _ (sm_files _ _ _ Hs)); [left; eauto|by right]. Qed.

Lemma load_plain_open r path g e :
  om_get path (files e) = Some g → 20 <= lenN (volatile g) → load_plain r path e = (open_sealed r path (volatile g), e).
Proof.
  intros Hg Hl. unfold load_plain. rewrite catch_bind. unfold file_len. rewrite Hg. cbn [fst snd].
  rewrite (proj2 (N.eqb_neq _ _)), (proj2 (N.ltb_ge _ _)) by (unfold HEADER_PEEK; lia). unfold mbind, stm_bind.
  rewrite (read_sealed_all path g e Hg); [done|]. intros E. rewrite E in Hl. unfold lenN in Hl. cbn in Hl. lia.
Qed.

Lemma load_plain_content r path g e p :
  om_get path (files e) = Some g → content_rel r p (volatile g) → load_plain r path e = (Ok p, e).
Proof.
  intros Hg [[-> Hv]|(Hm & Hse & _)].
  - unfold load_plain. rewrite catch_bind. unfold file_len. by rewrite Hg, Hv.
  - destruct (sealed_header _ _ _ Hse Hm) as [Hl _]. rewrite (load_plain_open r path g e Hg) by lia.
    by rewrite (open_sealed_ok _ _ _ _ Hm Hse).
Qed.

Lemma load_plain_ok r path d e : sim r d e → load_plain r path e = (Ok (plain_of path d), e).
Proof.
  intros Hs. unfold plain_of, file_or_default. destruct (sim_get r d e path Hs) as [(f & g & -> & Hg & Hfg)|[-> Hg]].
  - eapply load_plain_content; [done|]. apply Hfg.
  - unfold load_plain. rewrite catch_bind. unfold file_len. by rewrite Hg.
Qed.

(** The same disk but for the counter of operations. *)
Definition counted (s s' : SimState) : Prop :=
  fault_schedule s' = fault_schedule s ∧ strict_namespace s' = strict_namespace s ∧
  durable_names s' = durable_names s ∧ shadow s' = shadow s.

Lemma bumped s n f :
  fault_schedule s = None →
  counted s (with_files f (mkSimState (files s) n None (strict_namespace s) (durable_names s) (shadow s))).
Proof. intros E. unfold counted. cbn. by rewrite E. Qed.

Lemma overwrite_all (c v : bytes) : take (length c) (overwrite 0 c v) = c.
Proof. unfold overwrite. rewrite take_0. cbn [app Nat.add]. by rewrite take_app_length. Qed.

Lemma store_plain_ok r nonce path p e c :
  fault_schedule e = None → seal r nonce p = Ok c → c ≠ [] →
  ∃ e', store_plain r nonce path p e = (Ok tt, e') ∧ counted e e' ∧
    files e' = om_insert path (mkSimFile c (take (length c) (stable (file_or_default path e)))) (files e).
Proof.
  intros Hf Hc Hne. unfold store_plain, mbind, stm_bind, lift. rewrite Hc.
  destruct (length c) as [|fuel] eqn:El; [by destruct c|]. cbn [write_sealed].
  assert (0 < lenN c) as Hpos by (unfold lenN; lia). rewrite (proj2 (N.leb_gt _ _)) by done.
  unfold mbind, stm_bind, write_at at 1, take_fault at 1. rewrite Hf. cbn [mbind option_bind fst snd]. rewrite drop_0.
  rewrite (proj2 (N.eqb_neq (lenN c) 0)) by lia. rewrite N.add_0_l.
  set (e1 := with_files _ _). assert (write_sealed fuel path c (lenN c) e1 = (Ok tt, e1)) as ->.
  { destruct fuel; cbn [write_sealed]; [done|]. by rewrite N.leb_refl. }
  unfold truncate, take_fault. cbn [fst snd]. unfold e1 at 1. cbn [files with_files]. rewrite om_get_insert_eq. cbn [volatile stable].
  eexists. split; [done|]. split; [done|]. cbn [files with_files]. unfold e1. cbn [files with_files]. rewrite om_insert_twice.
  rewrite lenN_to_nat. change (N.to_nat 0) with O. by rewrite overwrite_all, El.
Qed.

Lemma neat_insert {V} path (v : V) m :
  neat path → Forall (λ kf, neat kf.1) m → Forall (λ kf, neat kf.1) (om_insert path v m).
Proof. intros Hp Hm. by apply om_insert_Forall. Qed.

Lemma file_or_default_rel r path d e :
  sim r d e → file_rel r (file_or_default path d) (file_or_default path e).
Proof.
  intros Hs. unfold file_or_default. destruct (sim_get r d e path Hs) as [(f & g & -> & -> & Hfg)|[-> ->]]; [done|].
  split; cbn; [by left|by left|done].
Qed.

Lemma content_len r p c : content_rel r p c → lenN c <= overhead r + lenN p.
Proof. intros [[-> ->]|(_ & _ & ?)]; [unfold lenN; cbn; lia|done]. Qed.

(** Changing one file on both sides. *)
Lemma sim_insert r path f g d d' e e' :
  sim r d e → neat path → file_rel r f g → counted d d' → counted e e' →
  files d' = om_insert path f (files d) → files e' = om_insert path g (files e) → sim r d' e'.
Proof.
  intros [] Hn Hfg (Hd1 & Hd2 & Hd3 & Hd4) (He1 & He2 & He3 & He4) Ed Ee.
  split; rewrite ?Ed, ?Ee, ?Hd1, ?Hd2, ?Hd3, ?Hd4, ?He1, ?He2, ?He3, ?He4; try done.
  - by apply omrel_insert.
  - by apply om_insert_sorted.
  - by apply neat_insert.
Qed.

Lemma store_sim r nonce path p d d' e :
  sim r d e → neat path → lenN nonce = NONCE_LEN → lenN (stable (file_or_default path d)) <= lenN p → lenN p <= P_MAX →
  counted d d' → files d' = om_insert path (mkSimFile p (stable (file_or_default path d))) (files d) →
  ∃ e', store_plain r nonce path p e = (Ok tt, e') ∧ sim r d' e'.
Proof.
  intros Hs Hn Hnon Hge Hmax Hcd Hfd. destruct (seal_ok r nonce p (sm_ring _ _ _ Hs) Hnon Hmax) as (c & Hc & Hsc & Hlc).
  pose proof (file_or_default_rel r path d e Hs) as Hfr. pose proof (content_len _ _ _ (fr_stable _ _ _ Hfr)) as Hst.
  destruct (store_plain_ok r nonce path p e c (sm_faults_e _ _ _ Hs) Hc) as (e' & He & Hce & Hfe).
  { intros ->. unfold overhead, HEADER_LEN, HEADER_LEN2, TAG_LEN, NONCE_LEN, lenN in Hlc. cbn in Hlc. destruct (is_simple r); lia. }
  exists e'. split; [done|]. rewrite take_ge in Hfe by (unfold lenN in *; lia).
  eapply sim_insert; [done|done| |done|done|done|done]. split; cbn; [right|by apply Hfr|done]. split_and!; [done|done|lia].
Qed.

(** *** Operations that change a file *)

Lemma lenN_overwrite offset (buf l : bytes) : lenN (overwrite offset buf l) = N.max (lenN l) (N.of_nat offset + lenN buf).
Proof.
  unfold overwrite, lenN. rewrite !length_app, length_take, length_drop, length_app, length_replicate. lia.
Qed.

Lemma write_sim r nonce path offset buf d e :
  sim r d e → neat path → lenN nonce = NONCE_LEN → N.max (lenN (plain_of path d)) (offset + lenN buf) <= P_MAX →
  ∃ e', enc_write_at r nonce path offset buf e = ((write_at path offset buf d).1, e') ∧ sim r (write_at path offset buf d).2 e'.
Proof.
  intros Hs Hn Hnon Hmax. unfold write_at, take_fault. rewrite (sm_faults_d _ _ _ Hs). cbn [mbind option_bind fst snd].
  pose proof (fr_grows _ _ _ (file_or_default_rel r path d e Hs)) as Hgr. fold (plain_of path d) in Hgr.
  set (p := overwrite (N.to_nat offset) buf (plain_of path d)).
  assert (lenN p = N.max (lenN (plain_of path d)) (offset + lenN buf)) as Hp by (unfold p; by rewrite lenN_overwrite, N2Nat.id).
  set (d' := with_files _ _). destruct (store_sim r nonce path p d d' e) as (e' & He & Hse);
    [done|done|done|lia|lia|apply bumped, Hs|done|].
  exists e'. split; [|done]. unfold enc_write_at. rewrite (step_ok _ _ _ _ _ (load_plain_ok r path d e Hs)). fold p.
  by rewrite (step_ok _ _ _ _ _ He).
Qed.

Lemma append_sim r nonce path buf d e :
  sim r d e → neat path → lenN nonce = NONCE_LEN → lenN (plain_of path d) + lenN buf <= P_MAX →
  ∃ e', enc_append r nonce path buf e = ((append path buf d).1, e') ∧ sim r (append path buf d).2 e'.
Proof.
  intros Hs Hn Hnon Hmax. unfold append, take_fault, append_bytes. rewrite (sm_faults_d _ _ _ Hs). cbn [mbind option_bind fst snd].
  pose proof (fr_grows _ _ _ (file_or_default_rel r path d e Hs)) as Hgr. fold (plain_of path d) in Hgr.
  set (d' := with_files _ _). destruct (store_sim r nonce path (plain_of path d ++ buf) d d' e) as (e' & He & Hse);
    [done|done|done|rewrite lenN_app; lia|by rewrite lenN_app|apply bumped, Hs|done|].
  exists e'. split; [|done]. unfold enc_append. rewrite (step_ok _ _ _ _ _ (load_plain_ok r path d e Hs)).
  by rewrite (step_ok _ _ _ _ _ He).
Qed.

Lemma fsync_step path s f :
  fault_schedule s = None → om_get path (files s) = Some f →
  ∃ s', fsync_file path s = (Ok tt, s') ∧ counted s s' ∧
        files s' = om_insert path (mkSimFile (volatile f) (volatile f)) (files s).
Proof.
  intros Hn Hf. unfold fsync_file, take_fault. rewrite Hn. cbn [mbind option_bind fault_not_partial files]. rewrite Hf.
  eexists. split; [done|]. split; [by apply bumped|done].
Qed.

Lemma truncate_step path len s f :
  fault_schedule s = None → om_get path (files s) = Some f →
  ∃ s', truncate path len s = (Ok tt, s') ∧ counted s s' ∧
        files s' = om_insert path (mkSimFile (take (N.to_nat len) (volatile f)) (take (N.to_nat len) (stable f))) (files s).
Proof. intros Hn Hf. unfold truncate, take_fault. rewrite Hn. cbn [files]. rewrite Hf. eexists. split; [done|]. split; [by apply bumped|done]. Qed.

Lemma counted_trans s1 s2 s3 : counted s1 s2 → counted s2 s3 → counted s1 s3.
Proof. intros (? & ? & ? & ?) (? & ? & ? & ?). split_and!; congruence. Qed.

Lemma om_get_in {V} k (v : V) (m : list (bytes * V)) : om_get k m = Some v → (k, v) ∈ m.
Proof.
  induction m as [|[k1 v1] m IH]; cbn; [done|]. destruct (bcmp k k1) eqn:E; intros Hv; [|done|apply elem_of_cons; auto].
  apply bcmp_eq in E as <-. simplify_eq. by left.
Qed.

Lemma neat_get {V} path (v : V) m : Forall (λ kf, neat kf.1) m → om_get path m = Some v → neat path.
Proof. intros Hm Hv%om_get_in. exact (proj1 (Forall_forall _ _) Hm _ Hv). Qed.

Lemma sim_neat r d e path g : sim r d e → om_get path (files e) = Some g → neat path.
Proof. intros Hs. apply neat_get, Hs. Qed.

Lemma sync_file_sim r path d e :
  sim r d e → (fsync_file path e).1 = (fsync_file path d).1 ∧ sim r (fsync_file path d).2 (fsync_file path e).2.
Proof.
  intros Hs. destruct (sim_get r d e path Hs) as [(f & g & Hf & Hg & Hfg)|[Hf Hg]].
  - destruct (fsync_step path d f (sm_faults_d _ _ _ Hs) Hf) as (d' & -> & Hd & Ed).
    destruct (fsync_step path e g (sm_faults_e _ _ _ Hs) Hg) as (e' & -> & He & Ee). split; [done|]. cbn [snd].
    eapply (sim_insert r path (mkSimFile (volatile f) (volatile f)) (mkSimFile (volatile g) (volatile g)));
      [done|by eapply sim_neat|split; cbn [volatile stable]; [by apply Hfg..|lia]|done..].
  - unfold fsync_file, take_fault. rewrite (sm_faults_d _ _ _ Hs), (sm_faults_e _ _ _ Hs).
    cbn [mbind option_bind fault_not_partial files]. rewrite Hf, Hg. split; [done|]. destruct Hs. by split.
Qed.

(** A cut of the file that is synced before anything else happens. *)
Definition enc_cut (r : Keyring) (nonce path : bytes) (len : N) : stm SimState unit :=
  _ ← enc_truncate r nonce path len; fsync_file path.
Definition plain_cut (path : bytes) (len : N) : stm SimState unit :=
  _ ← truncate path len; fsync_file path.

Lemma cut_sim r nonce path len d e f :
  sim r d e → lenN nonce = NONCE_LEN → om_get path (files d) = Some f → len <= lenN (volatile f) →
  ∃ e', enc_cut r nonce path len e = ((plain_cut path len d).1, e') ∧ sim r (plain_cut path len d).2 e'.
Proof.
  intros Hs Hnon Hf Hlen. destruct (sim_get r d e path Hs) as [(f' & g & Hf' & Hg & Hfg)|[? _]]; [|congruence].
  assert (f' = f) as -> by congruence. set (p := take (N.to_nat len) (volatile f)).
  assert (lenN p <= P_MAX) as Hmax.
  { unfold p, lenN. rewrite length_take. destruct (fr_volatile _ _ _ Hfg) as [[-> _]|[Hm _]]; [cbn; lia|unfold lenN in Hm; lia]. }
  destruct (seal_ok r nonce p (sm_ring _ _ _ Hs) Hnon Hmax) as (c & Hc & Hsc & Hlc).
  destruct (store_plain_ok r nonce path p e c (sm_faults_e _ _ _ Hs) Hc) as (e1 & He & Hce & Hfe).
  { intros ->. unfold overhead, HEADER_LEN, HEADER_LEN2, TAG_LEN, NONCE_LEN, lenN in Hlc. cbn in Hlc. destruct (is_simple r); lia. }
  assert (enc_truncate r nonce path len e = (Ok tt, e1)) as Ht.
  { unfold enc_truncate. rewrite (step_ok _ _ _ _ _ (load_plain_ok r path d e Hs)). unfold plain_of, file_or_default. rewrite Hf.
    change (default _ (Some f)) with f. by rewrite (proj2 (N.ltb_ge _ _)). }
  destruct (truncate_step path len d f (sm_faults_d _ _ _ Hs) Hf) as (d1 & Ed & Hcd & Hfd).
  destruct (fsync_step path d1 (mkSimFile p (take (N.to_nat len) (stable f)))) as (d2 & Ed2 & Hcd2 & Hfd2);
    [destruct Hcd as [-> _]; by apply Hs|by rewrite Hfd, om_get_insert_eq|].
  destruct (fsync_step path e1 (mkSimFile c (take (length c) (stable (file_or_default path e))))) as (e2 & Ee2 & Hce2 & Hfe2);
    [destruct Hce as [-> _]; by apply Hs|by rewrite Hfe, om_get_insert_eq|].
  unfold enc_cut, plain_cut. rewrite (step_ok _ _ _ _ _ Ht), (step_ok _ _ _ _ _ Ed), Ed2, Ee2. exists e2. split; [done|].
  rewrite Hfe, om_insert_twice in Hfe2. rewrite Hfd, om_insert_twice in Hfd2.
  eapply (sim_insert r path (mkSimFile p p) (mkSimFile c c) d _ e); [done|by eapply sim_neat| |by eapply counted_trans..|done|done].
  split; cbn [volatile stable]; [right; split_and!; [done|done|lia]..|lia].
Qed.

(** *** Names, crashes and keys *)

Lemma snapshot_rel r f g : file_rel r f g → file_rel r (stable_snapshot f) (stable_snapshot g).
Proof. intros Hfg. split; cbn; [by apply Hfg..|lia]. Qed.

Lemma rename_sim r from to d e :
  sim r d e → neat to → (rename from to e).1 = (rename from to d).1 ∧ sim r (rename from to d).2 (rename from to e).2.
Proof.
  intros Hs Hto. unfold rename, take_fault. cbn [files]. destruct (sim_get r d e from Hs) as [(f & g & -> & Hg & Hfg)|[-> ->]].
  2:{ split; [done|]. destruct Hs. by split. }
  rewrite Hg. pose proof (sim_neat _ _ _ _ _ Hs Hg) as Hfrom. split; [done|]. cbn [snd]. destruct Hs as [Hr Hfi Hsh Hso Hne Hns Hna Hst Hfd Hfe].
  cbn [strict_namespace with_files durable_names]. rewrite Hst, Hna.
  assert (omrel (file_rel r) (om_insert to f (om_remove from (files d))) (om_insert to g (om_remove from (files e)))) as Hi
    by (by apply omrel_insert; [apply omrel_remove|]).
  assert (om_sorted (om_insert to g (om_remove from (files e)))) as Hso' by (by apply om_insert_sorted, om_remove_sorted).
  assert (Forall (λ kf, neat kf.1) (om_insert to g (om_remove from (files e)))) as Hne' by (by apply neat_insert, om_remove_Forall).
  destruct (strict_namespace e); [|by split]. destruct (om_has from (durable_names e)); [|by split].
  split; cbn; try done; [by apply omrel_insert; [|apply snapshot_rel]|by apply neat_insert].
Qed.

Lemma remove_sim r path d e :
  sim r d e → (remove_file path e).1 = (remove_file path d).1 ∧ sim r (remove_file path d).2 (remove_file path e).2.
Proof.
  intros Hs. unfold remove_file, take_fault. cbn [files]. pose proof (sim_get r d e path Hs) as Hget. destruct Hs as [Hr Hfi Hsh Hso Hne Hns Hna Hst Hfd Hfe].
  assert (omrel (file_rel r) (om_remove path (files d)) (om_remove path (files e))) as Hi by (by apply omrel_remove).
  assert (om_sorted (om_remove path (files e))) as Hso' by (by apply om_remove_sorted).
  assert (Forall (λ kf, neat kf.1) (om_remove path (files e))) as Hne' by (by apply om_remove_Forall).
  destruct Hget as [(f & g & -> & Hg & Hfg)|[-> ->]]; [|split; [done|by split]].
  rewrite Hg. cbn [strict_namespace with_files durable_names]. rewrite Hst, Hna.
  destruct (strict_namespace e && om_has path (durable_names e)); (split; [done|]); [|by split].
  split; cbn; try done; [by apply omrel_insert; [|apply snapshot_rel]|].
  apply neat_insert; [exact (neat_get _ _ _ Hne Hg)|done].
Qed.

Lemma foldl_remove_rel r names : ∀ m m', omrel (file_rel r) m m' → Forall (λ kf, neat kf.1) m' →
  omrel (file_rel r) (foldl (λ sh n, om_remove n sh) m names) (foldl (λ sh n, om_remove n sh) m' names) ∧
  Forall (λ kf, neat kf.1) (foldl (λ sh n, om_remove n sh) m' names).
Proof.
  induction names as [|n names IH]; intros m m' Hm Hn; [done|]. cbn [foldl]. apply IH; [by apply omrel_remove|by apply om_remove_Forall].
Qed.

Lemma sync_dir_sim r path d e :
  sim r d e → (fsync_dir path e).1 = (fsync_dir path d).1 ∧ sim r (fsync_dir path d).2 (fsync_dir path e).2.
Proof.
  intros Hs. unfold fsync_dir, take_fault. rewrite (sm_faults_d _ _ _ Hs), (sm_faults_e _ _ _ Hs). cbn [mbind option_bind fault_not_partial strict_namespace].
  destruct Hs as [Hr Hfi Hsh Hso Hne Hns Hna Hst Hfd Hfe]. rewrite Hst. destruct (strict_namespace e); [|split; [done|by split]].
  split; [done|]. cbn [snd files durable_names shadow]. rewrite (omrel_keys _ _ _ Hfi), Hna.
  set (names := foldl _ _ (filter _ (files e).*1)).
  assert (filter (λ n, parent_dir n = path ∧ om_has n (files d) = false) names.*1 = filter (λ n, parent_dir n = path ∧ om_has n (files e) = false) names.*1) as ->.
  { apply list_filter_iff. intros n. by rewrite (omrel_has _ n _ _ Hfi). }
  destruct (foldl_remove_rel r (filter (λ n, parent_dir n = path ∧ om_has n (files e) = false) names.*1) _ _ Hsh Hns). by split.
Qed.

(** Restoring the names a crash brings back. *)
Lemma restore_rel r sh sh' names : omrel (file_rel r) sh sh' → Forall (λ kf, neat kf.1) sh' → ∀ m m',
  omrel (file_rel r) m m' → om_sorted m' → Forall (λ kf, neat kf.1) m' →
  let back sh := λ (fs : list (bytes * SimFile)) n, if om_has n fs then fs else match om_get n sh with Some f => om_insert n f fs | None => fs end in
  omrel (file_rel r) (foldl (back sh) m names) (foldl (back sh') m' names) ∧ om_sorted (foldl (back sh') m' names) ∧
  Forall (λ kf, neat kf.1) (foldl (back sh') m' names).
Proof.
  intros Hsh Hn. induction names as [|n names IH]; intros m m' Hm Hs Hne back; [done|]. cbn [foldl].
  unfold back at 2 4 6 8. rewrite (omrel_has _ n _ _ Hm). destruct (om_has n m'); [by apply IH|].
  destruct (om_get n sh') as [g|] eqn:Hg; pose proof (omrel_get _ n _ _ Hsh) as Hget; rewrite Hg in Hget; inversion Hget as [f g' Hfg|]; subst; [|by apply IH].
  apply IH; [by apply omrel_insert|by apply om_insert_sorted|]. apply neat_insert; [exact (neat_get _ _ _ Hn Hg)|done].
Qed.

Lemma crash_files_rel r m m' :
  omrel (file_rel r) m m' → om_sorted m' → Forall (λ kf, neat kf.1) m' →
  omrel (file_rel r) (prod_map id crash_file <$> m) (prod_map id crash_file <$> m') ∧
  om_sorted (prod_map id crash_file <$> m') ∧ Forall (λ kf, neat kf.1) (prod_map id crash_file <$> m').
Proof.
  intros Hm Hs Hn. split_and!.
  - apply Forall2_fmap. eapply Forall2_impl; [exact Hm|]. intros [k f] [k' g] [E Hfg]. split; [done|]. by apply snapshot_rel.
  - unfold om_sorted. rewrite <-list_fmap_compose. exact Hs.
  - by apply Forall_fmap.
Qed.

Lemma crash_sim r d e : sim r d e → sim r (crash d) (crash e).
Proof.
  intros [Hr Hfi Hsh Hso Hne Hns Hna Hst Hfd Hfe]. unfold crash. rewrite Hst.
  assert (∃ m m', (if strict_namespace e then crash_names d else files d) = m ∧ (if strict_namespace e then crash_names e else files e) = m' ∧
            omrel (file_rel r) m m' ∧ om_sorted m' ∧ Forall (λ kf, neat kf.1) m') as (m & m' & -> & -> & Hm & Hs & Hn).
  { do 2 eexists. split; [done|]. split; [done|]. destruct (strict_namespace e); [|done]. unfold crash_names. rewrite Hna.
    apply (restore_rel r (shadow d) (shadow e) _ Hsh Hns); [apply (omrel_filter _ (λ n, om_has n (durable_names e))), Hfi|by apply om_filter_sorted|].
    apply Forall_forall. intros kf [_ Hin]%list_elem_of_filter. exact (proj1 (Forall_forall _ _) Hne _ Hin). }
  destruct (crash_files_rel r m m' Hm Hs Hn) as (? & ? & ?). by split.
Qed.

Lemma rotate_sim r r' id key d e :
  sim r d e → id < u32_lim → key_ok key → rotate_key id key r = Ok r' → sim r' d e.
Proof.
  intros [Hr Hfi Hsh Hso Hne Hns Hna Hst Hfd Hfe] Hid Hk Hro. destruct (rotate_key_ok id key r r' Hr Hid Hk Hro) as (Hr' & Hsub & Hsimple).
  assert (∀ f g, file_rel r f g → file_rel r' f g) as Himp.
  { assert (overhead r <= overhead r') as Ho by (unfold overhead; rewrite Hsimple; unfold HEADER_LEN, HEADER_LEN2; destruct (is_simple r); lia).
    intros f g [Hv Hst' Hg]. split; [by eapply content_more_keys|by eapply content_more_keys|done]. }
  split; try done; by eapply omrel_impl.
Qed.

(** *** Reading *)

(** The plain disk, with a missing file read as an empty one. *)
Definition plain_read (path : bytes) (offset len : N) (d : SimState) : result KayaError bytes :=
  match (read_at path offset len d).1 with Err NotFound => Ok [] | r => r end.

Lemma read_sim r path offset len d e : sim r d e → enc_read_at r path offset len e = (plain_read path offset len d, e).
Proof.
  intros Hs. unfold enc_read_at. rewrite (step_ok _ _ _ _ _ (load_plain_ok r path d e Hs)).
  unfold plain_read, read_at, plain_of, file_or_default. destruct (om_get path (files d)) as [f|]; [|by destruct offset].
  change (default _ (Some f)) with f. by destruct (lenN (volatile f) <=? offset).
Qed.

Lemma peek_ok path g s :
  om_get path (files s) = Some g → 20 <= lenN (volatile g) → read_at path 0 HEADER_PEEK s = (Ok (take 20 (volatile g)), s).
Proof.
  intros Hg Hl. unfold read_at. rewrite Hg. rewrite (proj2 (N.leb_gt _ _)) by lia. rewrite N.sub_0_r, drop_0.
  unfold HEADER_PEEK. by rewrite N.min_r by lia.
Qed.

Lemma plain_len_sealed r p c : lenN p <= P_MAX → sealed_as r p c → plain_len_from_header (take 20 c) = Some (lenN p).
Proof. intros Hm Hs. destruct (sealed_header _ _ _ Hs Hm) as (_ & h & Hh & Hp & _). unfold plain_len_from_header. by rewrite Hh, Hp. Qed.

Lemma len_sim r path d e : sim r d e → enc_file_len path e = ((file_len path d).1, e).
Proof.
  intros Hs. unfold enc_file_len, mbind, stm_bind, file_len. destruct (sim_get r d e path Hs) as [(f & g & -> & Hg & Hfg)|[-> ->]]; [|done].
  rewrite Hg. destruct (fr_volatile _ _ _ Hfg) as [[-> ->]|(Hm & Hse & _)]; [done|]. destruct (sealed_header _ _ _ Hse Hm) as [Hl _].
  rewrite (proj2 (N.eqb_neq _ _)), (proj2 (N.ltb_ge _ _)) by (unfold HEADER_PEEK; lia). rewrite (peek_ok path g e Hg) by lia.
  rewrite (proj2 (N.ltb_ge _ _)) by (unfold HEADER_PEEK, lenN in *; rewrite length_take; lia).
  by rewrite (plain_len_sealed _ _ _ Hm Hse).
Qed.

(** An entry of the directory of the plain disk and of the wrapped one. *)
Definition entry_rel (d e : list (bytes * SimFile)) (r : Keyring) (x y : DirEntry) : Prop :=
  de_path x = de_path y ∧ is_dir x = is_dir y ∧
  if is_dir x then de_len x = de_len y
  else ∃ f g, (de_path y, f) ∈ d ∧ (de_path y, g) ∈ e ∧ file_rel r f g ∧ de_len x = lenN (volatile f) ∧ de_len y = lenN (volatile g).

Lemma entry_len_sim r d e x y : sim r d e → entry_rel (files d) (files e) r x y → is_dir x = false → entry_len y e = (Ok (de_len x), e).
Proof.
  intros Hs (_ & _ & Hx) Hd. rewrite Hd in Hx. destruct Hx as (f & g & _ & Hg & Hfg & -> & Hy).
  apply om_get_elem in Hg; [|by apply Hs]. unfold entry_len. rewrite catch_bind. unfold file_len. rewrite Hg. cbn [fst snd].
  destruct (fr_volatile _ _ _ Hfg) as [[Ef Eg]|(Hm & Hse & _)]; [rewrite Eg, Hy, Ef, Eg; done|].
  destruct (sealed_header _ _ _ Hse Hm) as [Hl _]. rewrite (proj2 (N.leb_le _ _)) by (unfold HEADER_PEEK; lia).
  rewrite catch_bind, (peek_ok _ g e Hg) by lia. cbn [fst snd].
  rewrite (proj2 (N.eqb_eq _ _)) by (unfold HEADER_PEEK, lenN in *; rewrite length_take; lia).
  by rewrite (plain_len_sealed _ _ _ Hm Hse).
Qed.

Lemma plain_entries_sim r d e xs ys :
  sim r d e → Forall2 (entry_rel (files d) (files e) r) xs ys → plain_entries ys e = (Ok xs, e).
Proof.
  intros Hs. induction 1 as [|x y xs ys Hxy _ IH]; [done|]. cbn [plain_entries].
  assert ((if is_dir y then mret (de_len y) else entry_len y) e = (Ok (de_len x), e)) as Hl.
  { pose proof Hxy as (_ & Ed & Hx). rewrite <-Ed. destruct (is_dir x) eqn:E; [by rewrite Hx|]. by eapply entry_len_sim. }
  rewrite (step_ok _ _ _ _ _ Hl), (step_ok _ _ _ _ _ IH). destruct Hxy as (Ep & Ed & _). rewrite <-Ep, <-Ed. by destruct x.
Qed.

Lemma split_on_app_all sep (a b : bytes) : split_on sep (a ++ sep :: b) = split_on sep a ++ split_on sep b.
Proof.
  induction a as [|x a IH]; cbn; [by rewrite N.eqb_refl|]. destruct (x =? sep); [by rewrite IH|].
  rewrite IH. destruct (split_on sep a) eqn:E; [|done]. by apply split_on_nonempty in E.
Qed.

Lemma neat_path_new p : neat p → path_new p = Ok p.
Proof.
  intros (Hp & Hc & Hg). apply path_new_plain; [done|done| |].
  - destruct p as [|b p]; [done|]. cbn [starts_with]. destruct (N.eqb_spec ch_slash b) as [<-|]; [|done].
    cbn in Hg. by apply Forall_cons in Hg as [[? _] _].
  - intros H%list_elem_of_lookup_2. done.
Qed.

Definition dir_prefix (path : bytes) : bytes := if is_root path then [] else path ++ [ch_slash].

Lemma neat_join path rem : neat (dir_prefix path ++ rem) → rem ≠ [] → ch_slash ∉ rem → path_join path rem = Ok (dir_prefix path ++ rem).
Proof.
  intros Hn Hne Hns. unfold path_join. assert (neat rem) as Hr.
  { destruct Hn as (Hp & Hc & Hg). split_and!; [by apply Forall_app in Hp as [_ ?]|set_solver|].
    unfold dir_prefix in Hg. destruct (is_root path); [done|]. rewrite <-app_assoc in Hg. cbn [app] in Hg.
    rewrite split_on_app_all in Hg. by apply Forall_app in Hg as [_ ?]. }
  rewrite (neat_path_new rem Hr). cbn [mbind result_bind]. unfold dir_prefix in *. destruct (is_root path); [done|].
  unfold is_root. rewrite bool_decide_eq_false_2 by done. rewrite <-app_assoc in *. by apply neat_path_new.
Qed.

Lemma list_entries_rel r D E path m m' :
  omrel (file_rel r) m m' → Forall (λ kf, neat kf.1) m' → (∀ x, x ∈ m → x ∈ D) → (∀ x, x ∈ m' → x ∈ E) → ∀ seen,
  match list_entries path (dir_prefix path) seen m, list_entries path (dir_prefix path) seen m' with
  | Ok xs, Ok ys => Forall2 (entry_rel D E r) xs ys
  | Err a, Err b => a = b
  | _, _ => False
  end.
Proof.
  induction 1 as [|[k f] [k' g] m m' [Ek Hfg] Hm IH]; intros Hn HD HE seen; [by constructor|]. cbn in Ek, Hfg. subst k'.
  apply Forall_cons in Hn as [Hk Hn]. cbn [fst] in Hk.
  assert (∀ seen, match list_entries path (dir_prefix path) seen m, list_entries path (dir_prefix path) seen m' with
          | Ok xs, Ok ys => Forall2 (entry_rel D E r) xs ys | Err a, Err b => a = b | _, _ => False end) as IH'
    by (apply IH; [done|intros; apply HD; by right|intros; apply HE; by right]).
  cbn [list_entries]. destruct (starts_with (dir_prefix path) k) eqn:Esw; [|apply IH'].
  apply starts_with_spec in Esw as [rem ->]. rewrite drop_app_length.
  cbn [negb]. case_bool_decide as Hne; [apply IH'|]. case_bool_decide as Hse; [apply IH'|].
  specialize (IH' (default [] (head (split_on ch_slash rem)) :: seen)).
  destruct (path_join path _) as [child|a] eqn:Ej; cbn [mbind result_bind]; [|done].
  destruct (list_entries path (dir_prefix path) _ m) as [xs|], (list_entries path (dir_prefix path) _ m') as [ys|]; try done.
  cbn [mbind result_bind mret result_ret]. constructor; [|done]. split; [done|]. split; [done|]. cbn [is_dir de_len de_path].
  case_bool_decide as Hsl; [done|]. rewrite split_on_no_sep in Ej by done. cbn in Ej. rewrite neat_join in Ej by done. injection Ej as <-.
  exists f, g. split_and!; [apply HD; by left|apply HE; by left|done..].
Qed.

Lemma list_sim r path d e : sim r d e → enc_list_dir path e = ((list_dir path d).1, e).
Proof.
  intros Hs. unfold enc_list_dir, list_dir, mbind, stm_bind. fold (dir_prefix path). cbn [fst].
  pose proof (list_entries_rel r (files d) (files e) path _ _ (sm_files _ _ _ Hs) (sm_neat _ _ _ Hs) (λ _ H, H) (λ _ H, H) []) as Hl.
  destruct (list_entries path (dir_prefix path) [] (files d)) as [xs|a], (list_entries path (dir_prefix path) [] (files e)) as [ys|b]; try done.
  - by eapply plain_entries_sim.
  - by rewrite Hl.
Qed.

(** ** Runs *)

Inductive DiskOp : Type :=
| OpRead (path : bytes) (offset len : N)
| OpWrite (nonce path : bytes) (offset : N) (buf : bytes)
| OpAppend (nonce path buf : bytes)
| OpSync (path : bytes)
| OpSyncDir (path : bytes)
| OpCut (nonce path : bytes) (len : N)
| OpRename (from to : bytes)
| OpRemove (path : bytes)
| OpList (path : bytes)
| OpLen (path : bytes)
| OpRotate (id : N) (key : bytes)
| OpCrash.

Inductive Answer : Type :=
| ABytes (r : result KayaError bytes)
| ANum (r : result KayaError N)
| AUnit (r : result KayaError unit)
| AEntries (r : result KayaError (list DirEntry))
| ANone.

Definition answers {S B} (f : result KayaError B → Answer) (x : result KayaError B * S) : Answer * S := (f x.1, x.2).

Definition plain_op (op : DiskOp) (d : SimState) : Answer * SimState :=
  match op with
  | OpRead path offset len => (ABytes (plain_read path offset len d), d)
  | OpWrite _ path offset buf => answers ANum (write_at path offset buf d)
  | OpAppend _ path buf => answers ANum (append path buf d)
  | OpSync path => answers AUnit (fsync_file path d)
  | OpSyncDir path => answers AUnit (fsync_dir path d)
  | OpCut _ path len => answers AUnit (plain_cut path len d)
  | OpRename from to => answers AUnit (rename from to d)
  | OpRemove path => answers AUnit (remove_file path d)
  | OpList path => answers AEntries (list_dir path d)
  | OpLen path => answers ANum (file_len path d)
  | OpRotate _ _ => (ANone, d)
  | OpCrash => (ANone, crash d)
  end.

(** With a new key the disk is opened again under the rotated ring; a refused rotation leaves the old one. *)
Definition enc_op (op : DiskOp) (r : Keyring) (e : SimState) : Answer * (Keyring * SimState) :=
  let on {B} (f : result KayaError B → Answer) (x : result KayaError B * SimState) := (f x.1, (r, x.2)) in
  match op with
  | OpRead path offset len => on ABytes (enc_read_at r path offset len e)
  | OpWrite nonce path offset buf => on ANum (enc_write_at r nonce path offset buf e)
  | OpAppend nonce path buf => on ANum (enc_append r nonce path buf e)
  | OpSync path => on AUnit (fsync_file path e)
  | OpSyncDir path => on AUnit (fsync_dir path e)
  | OpCut nonce path len => on AUnit (enc_cut r nonce path len e)
  | OpRename from to => on AUnit (rename from to e)
  | OpRemove path => on AUnit (remove_file path e)
  | OpList path => on AEntries (enc_list_dir path e)
  | OpLen path => on ANum (enc_file_len path e)
  | OpRotate id key => (ANone, (match rotate_key id key r with Ok r' => r' | Err _ => r end, e))
  | OpCrash => (ANone, (r, crash e))
  end.

(** Nonces and keys have their sizes, files stay within what the cipher seals, a cut shortens. *)
Definition op_ok (op : DiskOp) (d : SimState) : Prop :=
  match op with
  | OpWrite nonce path offset buf =>
      lenN nonce = NONCE_LEN ∧ neat path ∧ N.max (lenN (plain_of path d)) (offset + lenN buf) <= P_MAX
  | OpAppend nonce path buf => lenN nonce = NONCE_LEN ∧ neat path ∧ lenN (plain_of path d) + lenN buf <= P_MAX
  | OpCut nonce path len => lenN nonce = NONCE_LEN ∧ om_has path (files d) = true ∧ len <= lenN (plain_of path d)
  | OpRename _ to => neat to
  | OpRotate id key => id < u32_lim ∧ key_ok key
  | _ => True
  end.

Fixpoint run_plain (ops : list DiskOp) (d : SimState) : list Answer * SimState :=
  match ops with
  | [] => ([], d)
  | op :: ops => let '(a, d) := plain_op op d in let '(l, d) := run_plain ops d in (a :: l, d)
  end.

Fixpoint run_enc (ops : list DiskOp) (r : Keyring) (e : SimState) : list Answer * (Keyring * SimState) :=
  match ops with
  | [] => ([], (r, e))
  | op :: ops => let '(a, (r, e)) := enc_op op r e in let '(l, re) := run_enc ops r e in (a :: l, re)
  end.

Fixpoint ops_ok (ops : list DiskOp) (d : SimState) : Prop :=
  match ops with
  | [] => True
  | op :: ops => op_ok op d ∧ ops_ok ops (plain_op op d).2
  end.

Lemma op_sim op r d e :
  sim r d e → op_ok op d →
  ∃ r' e', enc_op op r e = ((plain_op op d).1, (r', e')) ∧ sim r' (plain_op op d).2 e'.
Proof.
  intros Hs Hok. destruct op as [path off len|nonce path off buf|nonce path buf|path|path|nonce path len|from to|path|path|path|id key|];
    cbn [enc_op plain_op op_ok answers fst snd] in *.
  - rewrite (read_sim r path off len d e Hs). by exists r, e.
  - destruct Hok as (? & ? & ?). destruct (write_sim r nonce path off buf d e) as (e' & -> & ?); [done..|]. by exists r, e'.
  - destruct Hok as (? & ? & ?). destruct (append_sim r nonce path buf d e) as (e' & -> & ?); [done..|]. by exists r, e'.
  - destruct (sync_file_sim r path d e Hs) as [-> ?]. by exists r, (fsync_file path e).2.
  - destruct (sync_dir_sim r path d e Hs) as [-> ?]. by exists r, (fsync_dir path e).2.
  - destruct Hok as (? & Hh & Hlen). unfold om_has in Hh. unfold plain_of, file_or_default in Hlen.
    destruct (om_get path (files d)) as [f|] eqn:Hf; [|done].
    destruct (cut_sim r nonce path len d e f) as (e' & -> & ?); [done..|]. by exists r, e'.
  - destruct (rename_sim r from to d e Hs Hok) as [-> ?]. by exists r, (rename from to e).2.
  - destruct (remove_sim r path d e Hs) as [-> ?]. by exists r, (remove_file path e).2.
  - rewrite (list_sim r path d e Hs). by exists r, e.
  - rewrite (len_sim r path d e Hs). exists r, e. split; [done|]. unfold file_len. by destruct (om_get path (files d)).
  - destruct Hok as [Hid Hk]. destruct (rotate_key id key r) as [r'|] eqn:E; [|by exists r, e].
    exists r', e. split; [done|]. by eapply rotate_sim.
  - exists r, (crash e). split; [done|]. by apply crash_sim.
Qed.

Lemma run_sim ops : ∀ r d e, sim r d e → ops_ok ops d →
  ∃ r' e', run_enc ops r e = ((run_plain ops d).1, (r', e')) ∧ sim r' (run_plain ops d).2 e'.
Proof.
  induction ops as [|op ops IH]; intros r d e Hs Hok; [by exists r, e|]. destruct Hok as [Hop Hok].
  destruct (op_sim op r d e Hs Hop) as (r1 & e1 & E1 & Hs1). destruct (IH r1 _ e1 Hs1 Hok) as (r2 & e2 & E2 & Hs2).
  exists r2, e2. cbn [run_enc run_plain]. rewrite E1. destruct (plain_op op d) as [a d1]. cbn [fst snd] in *. rewrite E2.
  by destruct (run_plain ops d1).
Qed.

Definition empty_disk (strict : bool) : SimState := mkSimState [] 0 None strict [] [].

Lemma sim_empty r strict : ring_ok r → sim r (empty_disk strict) (empty_disk strict).
Proof. intros Hr. split; try done; constructor. Qed.

(** C18: the sealed disk is transparent: over any sequence of reads, writes, appends, syncs, synced cuts, renames,
    removals, listings, key rotations and crashes, with any nonces and with or without durable names, it gives
    the answers of the plain disk, and at the end every file of the wrapped disk is empty or a sealing, under a
    key of the ring, of what the plain disk holds, both written and synced. *)
Theorem encrypted_transparent (r : Keyring) (strict : bool) (ops : list DiskOp) :
  ring_ok r → ops_ok ops (empty_disk strict) →
  ∃ r' e', run_enc ops r (empty_disk strict) = ((run_plain ops (empty_disk strict)).1, (r', e')) ∧
    ∀ path, option_Forall2 (λ f g,
        content_rel r' (volatile f) (volatile g) ∧ content_rel r' (stable f) (stable g))
      (om_get path (files (run_plain ops (empty_disk strict)).2)) (om_get path (files e')).
Proof.
  intros Hr Hok. destruct (run_sim ops r _ _ (sim_empty r strict Hr) Hok) as (r' & e' & E & Hs). exists r', e'. split; [done|].
  intros path. destruct (omrel_get _ path _ _ (sm_files _ _ _ Hs)) as [f g Hfg|]; constructor. split; apply Hfg.
Qed.

(** A file opens to a plaintext exactly when it is the sealing of it, header and key identifier included, under a
    key of the ring: nothing else on the disk is accepted. *)
Theorem encrypted_authentic (r : Keyring) (path p c : bytes) :
  lenN p <= P_MAX → bytes_ok c → open_sealed r path c = Ok p ↔ sealed_as r p c.
Proof. intros Hp Hc. split; [by apply open_sealed_inv|by apply open_sealed_ok]. Qed.

(** ** What goes wrong *)

(** A file whose header was replaced no longer opens. *)
Lemma open_wrong_len r path p c h c' :
  lenN p <= P_MAX → sealed_as r p c → parse_header (take 20 c) = Ok h → take 20 c' = take 20 c → lenN c' ≠ lenN c →
  ∃ msg, open_sealed r path c' = Err (Corruption msg).
Proof.
  intros Hm Hs Hh Et Hl. destruct (sealed_header r p c Hs Hm) as (_ & h' & Hh' & Hp & Hhl & Hlc).
  assert (h' = h) as -> by congruence. unfold open_sealed. rewrite peek_take, Et, Hh. cbn [mbind result_bind].
  destruct (N.ltb_spec (lenN c') (header_len h + TAG_LEN)) as [|Hge]; [by eexists|].
  destruct (N.eqb_spec (lenN (drop (N.to_nat (header_len h)) c')) (wrap u64_lim (plain_len h + TAG_LEN))) as [E|]; [|by eexists].
  exfalso. rewrite Hp, wrap_small in E by (by apply max_fits). unfold lenN in *. rewrite length_drop in E. lia.
Qed.

Lemma overhead_min r : 44 <= overhead r.
Proof. unfold overhead, HEADER_LEN, HEADER_LEN2, NONCE_LEN, TAG_LEN. destruct (is_simple r); lia. Qed.

(** What a stop may leave of the file at [path]: the first [k] bytes as written, the others as they were last synced. *)
Definition stopped (path : bytes) (k : nat) (e : SimState) : SimState :=
  match om_get path (files e) with
  | Some g => let c := take k (volatile g) ++ drop k (stable g) in with_files (om_insert path (mkSimFile c c)) e
  | None => e
  end.

Lemma stopped_get path k e g :
  om_get path (files e) = Some g →
  om_get path (files (stopped path k e)) =
    Some (mkSimFile (take k (volatile g) ++ drop k (stable g)) (take k (volatile g) ++ drop k (stable g))).
Proof. intros Hg. unfold stopped. rewrite Hg. cbn [files with_files]. apply om_get_insert_eq. Qed.

Lemma plain_append_step path buf d v c :
  fault_schedule d = None → om_get path (files d) = Some (mkSimFile v c) →
  (append path buf d).1 = Ok (lenN v) ∧ om_get path (files (append path buf d).2) = Some (mkSimFile (v ++ buf) c).
Proof.
  intros Hf Hg. unfold append, take_fault, append_bytes, file_or_default. rewrite Hf. cbn [mbind option_bind fst snd files]. rewrite Hg.
  split; [done|]. apply om_get_insert_eq.
Qed.

(** The bytes of a plain file after a stop begin with the synced ones. *)
Lemma torn_prefix (p buf : bytes) k :
  let c := take k (p ++ buf) ++ drop k p in
  (if lenN c <=? 0 then Ok [] else Ok (take (N.to_nat (N.min (lenN c - 0) (lenN p))) (drop (N.to_nat 0) c))) = (Ok p : result KayaError bytes).
Proof.
  intros c. assert (∃ q, c = p ++ q) as [q ->].
  { unfold c. destruct (decide (k ≤ length p)%nat).
    - exists []. by rewrite take_app_le, take_drop, app_nil_r by lia.
    - rewrite (drop_ge p), take_app_ge, app_nil_r by lia. by eexists. }
  rewrite N.sub_0_r, lenN_app. destruct (N.leb_spec (lenN p + lenN q) 0) as [H|H].
  - by destruct p; [|unfold lenN in H; cbn in H; lia].
  - rewrite N.min_r by lia. rewrite lenN_to_nat. change (N.to_nat 0) with 0%nat. by rewrite drop_0, take_app_length.
Qed.

(** C39: A file with synced content [p] is appended to, and the machine stops before the append is synced. On the plain disk
    the synced bytes are read back, wherever it stops. On the encrypted disk the append writes the whole file again over
    the synced bytes: wherever it stops past the header and short of the end, the file is refused as corrupt, and what
    had been synced is lost with what had not. *)
Theorem encrypted_torn_append (r : Keyring) (path n1 n2 p buf old : bytes) (d e : SimState) (k : nat) :
  ring_ok r → lenN n1 = NONCE_LEN → lenN n2 = NONCE_LEN → lenN p + lenN buf <= P_MAX → buf ≠ [] →
  fault_schedule d = None → om_get path (files d) = Some (mkSimFile p p) →
  seal r n1 p = Ok old → fault_schedule e = None → om_get path (files e) = Some (mkSimFile old old) →
  let d' := (append path buf d).2 in
  let e' := (enc_append r n2 path buf e).2 in
  (append path buf d).1 = Ok (lenN p) ∧ (read_at path 0 (lenN p) (stopped path k d')).1 = Ok p ∧
  (enc_append r n2 path buf e).1 = Ok (lenN p) ∧
  (20 <= N.of_nat k < lenN (volatile (file_or_default path e')) →
   ∃ msg, (enc_read_at r path 0 (lenN p) (stopped path k e')).1 = Err (Corruption msg)).
Proof.
  intros Hr Hn1 Hn2 Hmax Hb Hfd Hd Ho Hfe He d' e'. destruct (seal_ok r n1 p Hr Hn1) as (o & Ho' & Hso & Hlo); [lia|].
  assert (o = old) as -> by congruence. destruct (seal_ok r n2 (p ++ buf) Hr Hn2) as (new & Hn & Hsn & Hln); [by rewrite lenN_app|].
  pose proof (overhead_min r) as Hov. destruct (plain_append_step path buf d p p Hfd Hd) as [Ed Hd']. fold d' in Hd'.
  destruct (store_plain_ok r n2 path (p ++ buf) e new Hfe Hn) as (e1 & Es & _ & Hf1); [intros ->; unfold lenN in Hln; cbn in Hln; lia|].
  assert (enc_append r n2 path buf e = (Ok (lenN p), e1)) as Ee.
  { unfold enc_append. rewrite (step_ok _ _ _ _ _ (load_plain_content r path _ e p He ltac:(right; split_and!; [lia|done|cbn; lia]))).
    by rewrite (step_ok _ _ _ _ _ Es). }
  assert (e' = e1) as -> by (unfold e'; by rewrite Ee). assert (file_or_default path e = mkSimFile old old) as Efd by (unfold file_or_default; by rewrite He).
  rewrite Efd in Hf1. cbn [stable] in Hf1. rewrite lenN_app in Hln. rewrite take_ge in Hf1 by (unfold lenN in *; lia).
  assert (om_get path (files e1) = Some (mkSimFile new old)) as He1 by (by rewrite Hf1, om_get_insert_eq).
  split_and!; [done| |by rewrite Ee|].
  - unfold read_at. rewrite (stopped_get path k d' _ Hd'). cbn [volatile stable]. pose proof (torn_prefix p buf k) as Ht.
    cbv zeta in Ht. by destruct (_ <=? 0).
  - unfold file_or_default. rewrite He1. cbn [default from_option id volatile]. intros Hk.
    destruct (sealed_header r _ _ Hsn) as (_ & h & Hh & _); [by rewrite lenN_app|].
    destruct (open_wrong_len r path (p ++ buf) new h (take k new ++ drop k old)) as [msg Hmsg]; [by rewrite lenN_app|done|done| | |].
    + rewrite take_app_le by (rewrite length_take; unfold lenN in *; lia). rewrite take_take. f_equal. lia.
    + rewrite lenN_app. unfold lenN in *. rewrite length_take, length_drop. assert (length buf ≠ 0%nat) by (by destruct buf). lia.
    + exists msg. unfold enc_read_at, mbind, stm_bind. rewrite (load_plain_open r path _ _ (stopped_get path k e1 _ He1)); cbn [volatile stable].
      * by rewrite Hmsg.
      * rewrite lenN_app. unfold lenN in *. rewrite length_take, length_drop. lia.
Qed.

Lemma om_get_crash path (m : list (bytes * SimFile)) : om_get path (prod_map id crash_file <$> m) = crash_file <$> om_get path m.
Proof. induction m as [|[k f] m IH]; [done|]. cbn. by destruct (bcmp path k). Qed.

(** Shortening a synced file seals it again in place, and the cut of the wrapped file reaches the disk at once while
    the new bytes do not: until the file is synced, a crash leaves the old sealing without its end, which no
    longer opens. *)
Theorem encrypted_cut_crash (r : Keyring) (path n1 n2 p c : bytes) (len : N) (e : SimState) :
  ring_ok r → lenN n1 = NONCE_LEN → lenN n2 = NONCE_LEN → lenN p <= P_MAX → len < lenN p → seal r n1 p = Ok c →
  fault_schedule e = None → strict_namespace e = false → om_get path (files e) = Some (mkSimFile c c) →
  ∃ e', enc_truncate r n2 path len e = (Ok tt, e') ∧
    enc_read_at r path 0 len e' = (Ok (take (N.to_nat len) p), e') ∧
    ∃ msg, enc_read_at r path 0 len (crash e') = (Err (Corruption msg), crash e').
Proof.
  intros Hr Hn1 Hn2 Hmax Hlt Hc Hf Hst Hg. destruct (seal_ok r n1 p Hr Hn1 Hmax) as (c1 & Hc1 & Hs1 & Hl1).
  assert (c1 = c) as -> by congruence. set (q := take (N.to_nat len) p).
  assert (lenN q = len) as Hq by (unfold q, lenN in *; rewrite length_take; lia).
  destruct (seal_ok r n2 q Hr Hn2) as (c2 & Hc2 & Hs2 & Hl2); [lia|].
  pose proof (overhead_min r) as Hov.
  destruct (store_plain_ok r n2 path q e c2 Hf Hc2) as (e' & He & (_ & Hst' & _ & _) & Hfe);
    [intros ->; unfold lenN in Hl2; cbn in Hl2; lia|].
  assert (file_or_default path e = mkSimFile c c) as Efd by (unfold file_or_default; by rewrite Hg). rewrite Efd in Hfe. cbn [stable] in Hfe.
  assert (om_get path (files e') = Some (mkSimFile c2 (take (length c2) c))) as Hg' by (by rewrite Hfe, om_get_insert_eq).
  assert (content_rel r p c) as Hp1 by (right; split_and!; [done|done|lia]).
  assert (content_rel r q c2) as Hp2 by (right; split_and!; [lia|done|lia]).
  exists e'. split_and!.
  - unfold enc_truncate. rewrite (step_ok _ _ _ _ _ (load_plain_content r path _ e p Hg Hp1)).
    by rewrite (proj2 (N.ltb_ge _ _)) by lia.
  - unfold enc_read_at. rewrite (step_ok _ _ _ _ _ (load_plain_content r path _ e' q Hg' Hp2)).
    destruct (N.leb_spec (lenN q) 0) as [H0|H0]; [by destruct q; [|unfold lenN in H0; cbn in H0; lia]|].
    unfold mret, stm_ret. rewrite drop_0, N.sub_0_r, Hq, N.min_id. rewrite <-Hq, lenN_to_nat. by rewrite firstn_all.
  - assert (om_get path (files (crash e')) = Some (mkSimFile (take (length c2) c) (take (length c2) c))) as Hgc.
    { unfold crash. rewrite Hst', Hst. cbn [files with_files]. by rewrite om_get_crash, Hg'. }
    destruct (sealed_header r p c Hs1 Hmax) as (_ & h & Hh & _).
    destruct (open_wrong_len r path p c h (take (length c2) c)) as [msg Hmsg]; [done|done|done| | |].
    + rewrite take_take. f_equal. unfold lenN in *. lia.
    + unfold lenN in *. rewrite length_take. lia.
    + exists msg. unfold enc_read_at, mbind, stm_bind. rewrite (load_plain_open r path _ _ Hgc); cbn [volatile]; [by rewrite Hmsg|].
      unfold lenN in *. rewrite length_take. lia.
Qed.
End EnvelopeProps.

(** ** The keyring file *)

Definition printable (b : N) : Prop := 32 <= b ∧ b <= 126.

#[local] Instance plain_dec b : Decision (plain b).
Proof. unfold plain. apply _. Defined.

(** For the words of the file. *)
Ltac by_plain := refine (bool_decide_eq_true_1 _ _); vm_compute; reflexivity.

Lemma plain_printable l : Forall plain l → Forall printable l.
Proof. intros Hl. eapply Forall_impl; [exact Hl|]. intros b (? & ? & _). split; lia. Qed.

Lemma text_lines_all ls : Forall (Forall printable) ls → text_lines (ls ≫= λ l, l ++ [10]) = ls.
Proof.
  intros Hl. unfold text_lines. assert (split_on 10 (ls ≫= λ l, l ++ [10]) = ls ++ [[]]) as ->.
  { induction Hl as [|l ls Hp _ IH]; [done|]. rewrite bind_cons, <-app_assoc. cbn [app]. rewrite split_on_app, IH; [done|].
    intros Hin. destruct (proj1 (Forall_forall _ _) Hp 10 Hin). lia. }
  rewrite removelast_last, last_snoc, app_nil_r. induction Hl as [|l ls Hp _ IH]; [done|]. cbn [fmap list_fmap]. f_equal; [|done].
  unfold strip_cr. case_bool_decide as E; [|done]. apply last_Some_elem_of in E. destruct (proj1 (Forall_forall _ _) Hp 13 E). lia.
Qed.

Lemma trim_ends a l b : plain a → plain b → trim (a :: l ++ [b]) = a :: l ++ [b].
Proof.
  intros Ha Hb. unfold trim. rewrite (trim_with_stop ws_front) by (by apply ws_front_plain).
  rewrite trim_with_stop; [by rewrite reverse_involutive|]. rewrite reverse_cons, reverse_app. cbn. by apply ws_back_plain.
Qed.

Lemma words_plain w : Forall plain w → ∀ fuel word rest,
  (length w ≤ fuel)%nat → words fuel word (w ++ rest) = words (fuel - length w) (reverse w ++ word) rest.
Proof.
  induction 1 as [|b w Hb _ IH]; intros fuel word rest Hf; [by rewrite Nat.sub_0_r|]. destruct fuel as [|fuel]; [cbn in Hf; lia|].
  cbn [app words]. rewrite (ws_front_plain b (w ++ rest) Hb). cbn [length] in Hf. rewrite IH by lia. cbn [length Nat.sub].
  by rewrite reverse_cons, <-app_assoc.
Qed.

Lemma words_one fuel w rest :
  Forall plain w → w ≠ [] → (length w < fuel)%nat → words fuel [] (w ++ 32 :: rest) = w :: words (fuel - length w - 1) [] rest.
Proof.
  intros Hw Hne Hf. rewrite words_plain by (done || lia). rewrite app_nil_r. destruct (fuel - length w)%nat as [|n] eqn:E; [lia|].
  cbn [words ws_front ascii_ws]. change (ws_front (32 :: rest)) with 1%nat. cbn [drop]. rewrite reverse_involutive.
  destruct (reverse w) eqn:Er; [apply (f_equal reverse) in Er; rewrite reverse_involutive in Er; done|]. cbn [app]. do 2 f_equal. lia.
Qed.

Lemma words_last fuel w : Forall plain w → w ≠ [] → (length w ≤ fuel)%nat → words fuel [] w = [w].
Proof.
  intros Hw Hne Hf. rewrite <-(app_nil_r w) at 1. rewrite words_plain by done. rewrite app_nil_r.
  assert (∀ n, words n (reverse w) [] = match reverse w with [] => [] | _ => [reverse (reverse w)] end) as -> by (by intros [|n]).
  rewrite reverse_involutive. destruct (reverse w) eqn:Er; [|done]. apply (f_equal reverse) in Er. by rewrite reverse_involutive in Er.
Qed.

Lemma hex_pair v : v < 256 → ∃ a b, hex_digits 2 v = [a; b] ∧ plain a ∧ plain b ∧ from_str_radix16 [a; b] = Some v.
Proof.
  intros Hv. assert (hex_digits 2 v = [hex_digit (v / 16 mod 16); hex_digit (v mod 16)]) as E by done.
  exists (hex_digit (v / 16 mod 16)), (hex_digit (v mod 16)).
  destruct (hex_digit_plain (v / 16 mod 16)) as (H1 & _ & _ & Hplus & _); [apply N.mod_lt; lia|].
  destruct (hex_digit_plain (v mod 16)) as (H2 & _); [apply N.mod_lt; lia|]. split_and!; [done..|].
  pose proof (parse_hex_digits_hex 2 v) as Hp. rewrite E in Hp. rewrite <-Hp by (done || unfold u64_lim; lia).
  unfold from_str_radix16. clear -Hplus. set (a := hex_digit _) in *. destruct a as [|a]; [done|].
  do 6 (destruct a as [a|a|]; try done).
Qed.

Lemma encode_hex_plain key : bytes_ok key → Forall plain (encode_hex_key key) ∧ lenN (encode_hex_key key) = 2 * lenN key.
Proof.
  unfold encode_hex_key. induction 1 as [|v key Hv _ [IH1 IH2]]; [done|]. rewrite bind_cons, lenN_app, IH2.
  destruct (hex_pair v Hv) as (a & b & -> & Ha & Hb & _). split; [|unfold lenN; cbn [length]; lia].
  apply Forall_app. split; [|done]. apply Forall_cons. split; [done|]. apply Forall_cons. by split.
Qed.

Lemma decode_hex_encode n key : bytes_ok key → decode_hex_pairs n (encode_hex_key key) = Ok key.
Proof.
  unfold encode_hex_key. induction 1 as [|v key Hv Hk IH]; [done|]. rewrite bind_cons.
  destruct (hex_pair v Hv) as (a & b & -> & _ & _ & Hr). cbn [app decode_hex_pairs]. rewrite IH, Hr.
  assert (char_boundary (key ≫= hex_digits 2) = true) as ->; [|done].
  destruct Hk as [|w key Hw _]; [done|]. rewrite bind_cons. destruct (hex_pair w Hw) as (c & d & -> & (_ & Hc & _) & _).
  cbn. unfold in_range. rewrite (proj2 (N.leb_gt 128 c)) by lia. done.
Qed.

(** The keys of a ring as its file lists them. *)
Lemma key_ids_spec r id : id ∈ key_ids r ↔ is_Some (ring_keys r !! id).
Proof.
  unfold key_ids. rewrite (merge_sort_Permutation N.le). rewrite list_elem_of_fmap. split.
  - intros ([i k] & -> & Hin%elem_of_map_to_list). by exists k.
  - intros [k Hk]. exists (id, k). split; [done|]. by apply elem_of_map_to_list.
Qed.

Lemma key_ids_NoDup r : NoDup (key_ids r).
Proof. unfold key_ids. rewrite (merge_sort_Permutation N.le). apply NoDup_fst_map_to_list. Qed.

Lemma dec_plain n : Forall plain (dec_bytes n) ∧ dec_bytes n ≠ [].
Proof.
  split; [eapply Forall_impl; [apply dec_bytes_bare|]; by intros b []|]. by destruct (dec_bytes_head n) as (d & l & -> & _).
Qed.

Lemma active_line_parsed n id m : id <= u32_max →
  parse_keyring_line n (str "active " ++ dec_bytes id) (None, m) = Ok (Some id, m) ∧ Forall printable (str "active " ++ dec_bytes id).
Proof.
  intros Hid. destruct (dec_plain id) as [Hp Hne]. destruct (exists_last Hne) as (l & b & E).
  split; [|change (str "active ") with (str "active" ++ [32]); rewrite <-app_assoc; apply Forall_app; split;
    [apply plain_printable; by_plain|apply Forall_cons; split; [done|by apply plain_printable]]].
  unfold parse_keyring_line.
  assert (plain b) as Hb by (rewrite E in Hp; by apply Forall_app in Hp as [_ [? _]%Forall_cons]).
  assert (trim (str "active " ++ dec_bytes id) = str "active " ++ dec_bytes id) as ->.
  { rewrite E, app_assoc. apply (trim_ends 97 (str "ctive " ++ l) b); [done|done]. }
  rewrite bool_decide_eq_false_2 by done. cbn [orb].
  assert (starts_with (str "#") (str "active " ++ dec_bytes id) = false) as -> by done.
  unfold split_whitespace. change (str "active " ++ dec_bytes id) with (str "active" ++ 32 :: dec_bytes id).
  rewrite words_one; [|by_plain|done|rewrite length_app; cbn; lia].
  rewrite words_last; [|done|done|rewrite length_app; cbn; lia]. rewrite bool_decide_eq_true_2 by done.
  unfold parse_active. cbn [head ok_or mbind result_bind]. by rewrite parse_uint_dec.
Qed.

Lemma key_line_parsed n r id key active m :
  ring_get id r = Some key → id <= u32_max → key_ok key → m !! id = None →
  parse_keyring_line n (key_line r id) (active, m) = Ok (active, <[id := key]> m) ∧ Forall printable (key_line r id).
Proof.
  intros Hk Hid [Hl Hb] Hm. destruct (dec_plain id) as [Hp Hne]. destruct (encode_hex_plain key Hb) as [Hhp Hhl].
  assert (encode_hex_key key ≠ []) as Hhne by (intros E; rewrite E, Hl in Hhl; done).
  destruct (exists_last Hhne) as (l & b & E).
  assert (plain b) as Hpb by (rewrite E in Hhp; by apply Forall_app in Hhp as [_ [? _]%Forall_cons]).
  assert (key_line r id = str "key" ++ 32 :: dec_bytes id ++ 32 :: encode_hex_key key) as El by (unfold key_line; by rewrite Hk).
  rewrite El. split.
  2:{ apply Forall_app. split; [apply plain_printable; by_plain|]. apply Forall_cons. split; [done|]. apply Forall_app.
      split; [by apply plain_printable|]. apply Forall_cons. split; [done|by apply plain_printable]. }
  unfold parse_keyring_line. set (line := str "key" ++ _).
  assert (trim line = line) as ->.
  { unfold line. rewrite E. change (str "key") with (107 :: str "ey"). cbn [app].
    replace (107 :: _) with (107 :: (str "ey" ++ 32 :: dec_bytes id ++ 32 :: l) ++ [b]); [by apply trim_ends|].
    rewrite <-app_assoc. cbn [app]. by rewrite <-app_assoc. }
  rewrite bool_decide_eq_false_2 by done. cbn [orb]. assert (starts_with (str "#") line = false) as -> by done.
  unfold split_whitespace, line. rewrite words_one; [|by_plain|done|rewrite length_app; cbn; lia].
  rewrite words_one; [|done|done|rewrite length_app; cbn; rewrite length_app; cbn; lia].
  rewrite words_last; [|done|done|rewrite length_app; cbn; rewrite length_app; cbn; lia].
  rewrite bool_decide_eq_false_2 by done. rewrite bool_decide_eq_true_2 by done.
  unfold parse_key. cbn [head ok_or mbind result_bind]. rewrite parse_uint_dec by done. cbn [ok_or mbind result_bind].
  cbn [lookup list_lookup ok_or mbind result_bind]. unfold decode_hex_key. rewrite Hhl, Hl. cbn [snd fst].
  rewrite (proj2 (N.eqb_eq _ _)) by done. rewrite decode_hex_encode by done. cbn [mbind result_bind]. by rewrite Hm.
Qed.

Lemma key_lines_parsed r ids active : ∀ n m,
  ring_ok r → NoDup ids → (∀ id, id ∈ ids → is_Some (ring_keys r !! id) ∧ m !! id = None) →
  ∃ m', parse_keyring_lines n (key_line r <$> ids) (active, m) = Ok (active, m') ∧ Forall (Forall printable) (key_line r <$> ids) ∧
    ∀ id, m' !! id = if decide (id ∈ ids) then ring_keys r !! id else m !! id.
Proof.
  intros n m Hr Hn. revert n m. induction Hn as [|id ids Hid _ IH]; intros n m Hall.
  { exists m. split_and!; [done|constructor|done]. }
  destruct (Hall id) as [[key Hk] Hm]; [by left|]. destruct (ro_keys _ Hr _ _ Hk) as [Hlt Hkey].
  destruct (key_line_parsed n r id key active m) as [Hp Hpr]; [done|unfold u32_max, u32_lim in *; lia|done|done|].
  destruct (IH (n + 1) (<[id := key]> m)) as (m' & Hm' & Hpr' & Hl).
  { intros i Hi. destruct (Hall i) as [? ?]; [by right|]. split; [done|]. rewrite lookup_insert_ne by (intros ->; done). done. }
  exists m'. cbn [fmap list_fmap parse_keyring_lines]. rewrite Hp. cbn [mbind result_bind]. split_and!; [done|by constructor|].
  intros i. rewrite Hl. destruct (decide (i = id)) as [->|Hne].
  - rewrite decide_False by done. rewrite lookup_insert_eq. rewrite decide_True by (by left). done.
  - destruct (decide (i ∈ ids)); [rewrite decide_True by (by right); done|].
    rewrite decide_False by (rewrite elem_of_cons; tauto). by rewrite lookup_insert_ne.
Qed.

(** A keyring written to its file is the keyring read from it. *)
Theorem keyring_file_roundtrip (r : Keyring) : ring_ok r → parse_keyring (keyring_text r) = Ok r.
Proof.
  intros Hr. destruct (ro_active _ Hr) as [key Hk]. destruct (ro_keys _ Hr _ _ Hk) as [Hlt _].
  set (comment := str "# KayaDB encryption keyring: key material, treat like a private key.").
  destruct (key_lines_parsed r (key_ids r) (Some (active_id r)) 3 ∅ Hr (key_ids_NoDup r)) as (m & Hm & Hpr & Hl).
  { intros id Hid. by rewrite <-key_ids_spec. }
  destruct (active_line_parsed 2 (active_id r) ∅) as [Ha Hpa]; [unfold u32_max, u32_lim in *; lia|].
  assert (m = ring_keys r) as ->.
  { apply map_eq. intros id. rewrite Hl. destruct (decide (id ∈ key_ids r)) as [|Hid]; [done|]. rewrite key_ids_spec in Hid.
    rewrite lookup_empty. by destruct (ring_keys r !! id) as [k|]; [destruct Hid; eexists|]. }
  assert (keyring_text r = (comment :: (str "active " ++ dec_bytes (active_id r)) :: (key_line r <$> key_ids r)) ≫= λ l, l ++ [10]) as Et.
  { assert (∀ ids, (ids ≫= λ id, key_line r id ++ [10]) = (key_line r <$> ids) ≫= λ l, l ++ [10]) as Hb.
    { induction ids as [|id ids IH]; [done|]. cbn [fmap list_fmap]. by rewrite !bind_cons, IH. }
    unfold keyring_text. by rewrite Hb, !bind_cons, <-!app_assoc. }
  unfold parse_keyring. rewrite Et, text_lines_all.
  2:{ apply Forall_cons. split; [refine (bool_decide_eq_true_1 _ _); by vm_compute|]. by apply Forall_cons. }
  cbn [parse_keyring_lines]. assert (parse_keyring_line 1 comment (None, ∅) = Ok (None, ∅)) as -> by (by vm_compute).
  cbn [mbind result_bind]. change (1 + 1) with 2. rewrite Ha. cbn [mbind result_bind]. change (2 + 1) with 3. rewrite Hm.
  cbn [mbind result_bind ok_or]. pose proof (map_size_ne_0_lookup_2 (ring_keys r) _ (ex_intro _ key Hk)) as Hsz.
  rewrite (proj2 (Nat.eqb_neq _ _)) by done. rewrite Hk. by destruct r.
Qed.

(** ** Examples

    A stand-in for the cipher with its laws: the tag is a checksum of everything. *)

Definition sum_tag (k n m a : bytes) : bytes := replicate 16 ((sumN k + sumN n + sumN m + sumN a) mod 256).
Definition sum_encrypt (k n m a : bytes) : option bytes :=
  if lenN m <=? P_MAX then Some (m ++ sum_tag k n m a) else None.
Definition sum_decrypt (k n ct a : bytes) : option bytes :=
  let m := take (length ct - 16) ct in
  if bool_decide (sum_encrypt k n m a = Some ct) then Some m else None.

#[local] Instance sum_aead : Aead := {| aead_encrypt := sum_encrypt; aead_decrypt := sum_decrypt |}.

#[local] Instance sum_laws : AeadLaws sum_aead.
Proof.
  assert (∀ k n m a ct, sum_encrypt k n m a = Some ct → ct = m ++ sum_tag k n m a) as He.
  { intros k n m a ct. unfold sum_encrypt. destruct (_ <=? _); [by intros [= <-]|done]. }
  split; cbn [aead_encrypt aead_decrypt sum_aead].
  - intros k n m a Hm. unfold sum_encrypt. rewrite (proj2 (N.leb_le _ _)) by done. by eexists.
  - intros k n m a ct ->%He. by rewrite lenN_app.
  - intros k n m a ct Hct. pose proof (He _ _ _ _ _ Hct) as ->. unfold sum_decrypt.
    rewrite length_app. change (length (sum_tag k n m a)) with 16%nat. rewrite Nat.add_sub, take_app_length.
    by rewrite bool_decide_eq_true_2.
  - intros k n m a ct. unfold sum_decrypt. case_bool_decide; [|done]. by intros [= <-].
Qed.

#[local] Instance byte_ok_dec b : Decision (byte_ok b).
Proof. unfold byte_ok. apply _. Defined.
#[local] Instance key_ok_dec key : Decision (key_ok key).
Proof. unfold key_ok, bytes_ok. apply _. Defined.
#[local] Instance good_part_dec p : Decision (good_part p).
Proof. unfold good_part. apply _. Defined.
#[local] Instance neat_dec p : Decision (neat p).
Proof. unfold neat. apply _. Defined.
#[local] Instance op_ok_dec op d : Decision (op_ok op d).
Proof. destruct op; cbn; apply _. Defined.
#[local] Instance ops_ok_dec ops : ∀ d, Decision (ops_ok ops d).
Proof. induction ops as [|op ops IH]; intros d; cbn; apply _. Defined.

Definition demo_key (b : N) : bytes := replicate 32 b.
Definition demo_nonce (b : N) : bytes := replicate 12 b.
Definition demo_ring : Keyring := keyring_new 0 (demo_key 7).
Definition demo_rotated : Keyring := mkKeyring 1 {[0 := demo_key 7; 1 := demo_key 9]}.

(** Two files, of which one is synced; a crash, a rotation, and writes under the new key. *)
Definition demo_ops : list DiskOp :=
  [OpAppend (demo_nonce 1) (str "wal/a") [1; 2; 3]; OpSync (str "wal/a"); OpSyncDir (str "wal");
   OpAppend (demo_nonce 2) (str "wal/a") [4]; OpAppend (demo_nonce 3) (str "sst/b") [9]; OpList (str "wal"); OpCrash;
   OpRead (str "wal/a") 0 10; OpRead (str "sst/b") 0 10; OpRotate 1 (demo_key 9); OpWrite (demo_nonce 4) (str "wal/a") 1 [8; 8; 8];
   OpRead (str "wal/a") 0 10; OpCut (demo_nonce 5) (str "wal/a") 2; OpCrash; OpRename (str "wal/a") (str "wal/c"); OpLen (str "wal/c");
   OpRemove (str "wal/c"); OpLen (str "wal/c")].

Lemma demo_ring_ok : ring_ok demo_ring.
Proof. apply keyring_new_ok; [done|]. refine (bool_decide_eq_true_1 _ _). by vm_compute. Qed.

Lemma demo_rotated_ok : ring_ok demo_rotated.
Proof. split; [by eexists|]. refine (bool_decide_eq_true_1 _ _). by vm_compute. Qed.

Lemma encrypted_transparent_witness :
  ∃ r' e', run_enc demo_ops demo_ring (empty_disk true) = ((run_plain demo_ops (empty_disk true)).1, (r', e')) ∧
    ∀ path, option_Forall2 (λ f g,
        content_rel r' (volatile f) (volatile g) ∧ content_rel r' (stable f) (stable g))
      (om_get path (files (run_plain demo_ops (empty_disk true)).2)) (om_get path (files e')).
Proof.
  refine (encrypted_transparent demo_ring true demo_ops demo_ring_ok _).
  refine (bool_decide_eq_true_1 _ _). vm_compute. reflexivity.
Defined.

(** A file of three bytes under the second key of a rotated ring. *)
Definition demo_file : bytes :=
  match seal demo_rotated (demo_nonce 1) [1; 2; 3] with Ok c => c | Err _ => [] end.

Lemma encrypted_authentic_witness : open_sealed demo_rotated (str "a") demo_file = Ok [1; 2; 3] ↔ sealed_as demo_rotated [1; 2; 3] demo_file.
Proof.
  refine (encrypted_authentic demo_rotated (str "a") [1; 2; 3] demo_file _ _); [by vm_compute|].
  refine (bool_decide_eq_true_1 _ _). vm_compute. reflexivity.
Defined.

Lemma keyring_file_roundtrip_witness : parse_keyring (keyring_text demo_rotated) = Ok demo_rotated.
Proof. exact (keyring_file_roundtrip demo_rotated demo_rotated_ok). Defined.

Definition demo_plain : SimState := mkSimState [(str "a", mkSimFile [1; 2; 3] [1; 2; 3])] 0 None false [] [].
Definition demo_synced : SimState := mkSimState [(str "a", mkSimFile demo_file demo_file)] 0 None false [] [].

Lemma encrypted_torn_append_witness :
  let d' := (append (str "a") [4] demo_plain).2 in
  let e' := (enc_append demo_rotated (demo_nonce 2) (str "a") [4] demo_synced).2 in
  (append (str "a") [4] demo_plain).1 = Ok 3 ∧ (read_at (str "a") 0 3 (stopped (str "a") 30 d')).1 = Ok [1; 2; 3] ∧
  (enc_append demo_rotated (demo_nonce 2) (str "a") [4] demo_synced).1 = Ok 3 ∧
  (20 <= N.of_nat 30 < lenN (volatile (file_or_default (str "a") e')) →
   ∃ msg, (enc_read_at demo_rotated (str "a") 0 3 (stopped (str "a") 30 e')).1 = Err (Corruption msg)).
Proof.
  refine (encrypted_torn_append demo_rotated (str "a") (demo_nonce 1) (demo_nonce 2) [1; 2; 3] [4] demo_file demo_plain demo_synced 30
            demo_rotated_ok _ _ _ _ _ _ _ _ _); [done|done|by vm_compute|done|by vm_compute..].
Defined.

Lemma encrypted_cut_crash_witness :
  ∃ e', enc_truncate demo_rotated (demo_nonce 2) (str "a") 2 demo_synced = (Ok tt, e') ∧
    enc_read_at demo_rotated (str "a") 0 2 e' = (Ok [1; 2], e') ∧
    ∃ msg, enc_read_at demo_rotated (str "a") 0 2 (crash e') = (Err (Corruption msg), crash e').
Proof.
  refine (encrypted_cut_crash demo_rotated (str "a") (demo_nonce 1) (demo_nonce 2) [1; 2; 3] demo_file 2 demo_synced
            demo_rotated_ok _ _ _ _ _ _ _ _); by vm_compute.
Defined.
