(* ===== verification/Linear.v ===== *)
(** The linearizability checker, [kaya-sim/src/linear.rs]: recorded histories, the
    sequential replay, the search for a linearization, and the two ways to reduce a
    rejected history to a small part of it.  Additions to ticks wrap as they do in a
    release build. *)
From S2P Require Import Prelude Bytes Core OrdMap Path Index Cdc.

Open Scope N_scope.

Definition WGL_MAX_OPS : nat := 14.

(** ** Histories *)

Inductive Op : Type :=
| OpPut (key value : bytes)
| OpDelete (key : bytes)
| OpGet (key : bytes)
| OpScan (prefix : bytes).

Inductive OpResult : Type :=
| ResOk
| ResValue (v : option bytes)
| ResScan (items : list (bytes * bytes))
| ResError (msg : bytes).

#[export] Instance Op_eq_dec : EqDecision Op.
Proof. solve_decision. Defined.
#[export] Instance OpResult_eq_dec : EqDecision OpResult.
Proof. solve_decision. Defined.

Record HistoryEntry := mkHistoryEntry {
  start_tick : N;
  end_tick : N;
  client_id : option N;
  he_op : Op;
  he_result : OpResult
}.

Record MinimalCounterexample := mkCounterexample {
  original_indices : list nat;
  cex_ops : list HistoryEntry;
  cex_why : list string
}.

Record LinearizabilityChecker := mkChecker {
  history : list HistoryEntry;
  next_tick : N
}.

Definition checker_new : LinearizabilityChecker := mkChecker [] 0.

Definition record_interval (start_tick end_tick : N) (client : option N) (op : Op) (res : OpResult)
    (c : LinearizabilityChecker) : LinearizabilityChecker :=
  mkChecker (history c ++ [mkHistoryEntry start_tick end_tick client op res])
    (if next_tick c <? end_tick then wrap u64_lim (end_tick + 1) else next_tick c).

Definition record (start_tick : N) (op : Op) (res : OpResult) (end_tick : N) : LinearizabilityChecker → LinearizabilityChecker :=
  record_interval start_tick end_tick None op res.

Definition record_next_with_client (op : Op) (res : OpResult) (client : option N)
    (c : LinearizabilityChecker) : LinearizabilityChecker :=
  let start := next_tick c in
  let end_ := wrap u64_lim (start + 1) in
  mkChecker (history c ++ [mkHistoryEntry start end_ client op res]) (wrap u64_lim (end_ + 1)).

Definition record_next (op : Op) (res : OpResult) : LinearizabilityChecker → LinearizabilityChecker :=
  record_next_with_client op res None.

Definition checker_reset (c : LinearizabilityChecker) : LinearizabilityChecker := mkChecker [] 0.

Definition from_entries (es : list HistoryEntry) : LinearizabilityChecker :=
  mkChecker es (foldr N.max 0 ((λ e, sat_add u64_max (end_tick e) 1) <$> es)).

(** ** Messages *)

Definition hex_enc (b : bytes) : string := to_string (hex_encode b).
Definition option_hex (b : option bytes) : string := match b with Some b => hex_enc b | None => "None" end.

(** [[x, y]] of the elements' texts. *)
Definition debug_list (xs : list string) : string :=
  "[" +:+ match xs with [] => EmptyString | x :: xs => foldl (λ s x, s +:+ ", " +:+ x) x xs end +:+ "]".

(** [{:?}] of an [OpResult]. *)
Definition debug_result (r : OpResult) : string :=
  match r with
  | ResOk => "Ok"
  | ResValue None => "Value(None)"
  | ResValue (Some v) => "Value(Some(" +:+ debug_bytes v +:+ "))"
  | ResScan items => "Scan(" +:+ debug_list ((λ kv, "(" +:+ debug_bytes kv.1 +:+ ", " +:+ debug_bytes kv.2 +:+ ")") <$> items) +:+ ")"
  | ResError e => "Error(" +:+ debug_str e +:+ ")"
  end.

Definition format_op (op : Op) : string :=
  match op with
  | OpPut key value => "PUT key=" +:+ hex_enc key +:+ " val=" +:+ hex_enc value
  | OpDelete key => "DELETE key=" +:+ hex_enc key
  | OpGet key => "GET key=" +:+ hex_enc key
  | OpScan prefix => "SCAN prefix=" +:+ hex_enc prefix
  end.

Definition format_result (r : OpResult) : string :=
  match r with
  | ResOk => "Ok"
  | ResValue v => "Value(" +:+ option_hex v +:+ ")"
  | ResScan items => "Scan(" +:+ pretty (lenN items) +:+ " pairs)"
  | ResError e => "Error(" +:+ to_string e +:+ ")"
  end.

Definition nat_text (n : nat) : string := pretty (N.of_nat n).

(** ** The reference model *)

Definition Model : Type := list (bytes * bytes).

(** [range(prefix..)] while the keys start with the prefix. *)
Fixpoint take_prefix (prefix : bytes) (m : Model) : Model :=
  match m with
  | [] => []
  | (k, v) :: m => if starts_with prefix k then (k, v) :: take_prefix prefix m else []
  end.

Definition model_scan (prefix : bytes) (m : Model) : Model := take_prefix prefix (om_from prefix m).

Definition is_error (r : OpResult) : bool := match r with ResError _ => true | _ => false end.

(** One entry of [check_sequential]: the model after it, and what it reports. *)
Definition seq_entry (idx : nat) (e : HistoryEntry) (m : Model) : Model * list string :=
  let got kind := "op[" +:+ nat_text idx +:+ "] " +:+ kind +:+ debug_result (he_result e) in
  match he_op e with
  | OpPut key value =>
      if bool_decide (he_result e = ResOk) then (om_insert key value m, [])
      else if is_error (he_result e) then (m, [])
      else (m, [got "PUT expected Ok or Error, got "])
  | OpDelete key =>
      if bool_decide (he_result e = ResOk) then (om_remove key m, [])
      else if is_error (he_result e) then (m, [])
      else (m, [got "DELETE expected Ok or Error, got "])
  | OpGet key =>
      match he_result e with
      | ResValue observed =>
          let expected := om_get key m in
          (m, if bool_decide (observed = expected) then []
              else ["op[" +:+ nat_text idx +:+ "] GET key=" +:+ hex_enc key +:+ " expected=" +:+ option_hex expected
                    +:+ " observed=" +:+ option_hex observed])
      | ResError _ => (m, [])
      | _ => (m, [got "GET expected Value or Error, got "])
      end
  | OpScan prefix =>
      match he_result e with
      | ResScan observed =>
          let expected := model_scan prefix m in
          (m, if bool_decide (observed = expected) then []
              else ["op[" +:+ nat_text idx +:+ "] SCAN prefix=" +:+ hex_enc prefix +:+ " expected "
                    +:+ pretty (lenN expected) +:+ " pairs got " +:+ pretty (lenN observed) +:+ " pairs"])
      | ResError _ => (m, [])
      | _ => (m, [got "SCAN expected Scan or Error, got "])
      end
  end.

Fixpoint seq_loop (idx : nat) (m : Model) (es : list HistoryEntry) : list string :=
  match es with
  | [] => []
  | e :: es => let '(m, v) := seq_entry idx e m in v ++ seq_loop (S idx) m es
  end.

Definition of_violations (violations : list string) : result (list string) unit :=
  if bool_decide (violations = []) then Ok tt else Err violations.

Definition check_sequential (c : LinearizabilityChecker) : result (list string) unit :=
  of_violations (seq_loop 0 [] (history c)).

(** One entry of [verify_linearization]. *)
Definition lin_entry (idx : nat) (e : HistoryEntry) (m : Model) : Model * list string :=
  match he_op e with
  | OpPut key value => (if bool_decide (he_result e = ResOk) then om_insert key value m else m, [])
  | OpDelete key => (if bool_decide (he_result e = ResOk) then om_remove key m else m, [])
  | OpGet key =>
      match he_result e with
      | ResValue observed =>
          let expected := om_get key m in
          (m, if bool_decide (observed = expected) then []
              else ["lin[" +:+ nat_text idx +:+ "] GET key=" +:+ hex_enc key +:+ " expected=" +:+ option_hex expected
                    +:+ " observed=" +:+ option_hex observed])
      | _ => (m, [])
      end
  | OpScan prefix =>
      match he_result e with
      | ResScan observed =>
          let expected := model_scan prefix m in
          (m, if bool_decide (observed = expected) then []
              else ["lin[" +:+ nat_text idx +:+ "] SCAN prefix=" +:+ hex_enc prefix +:+ " expected "
                    +:+ pretty (lenN expected) +:+ " pairs got " +:+ pretty (lenN observed)])
      | _ => (m, [])
      end
  end.

Fixpoint lin_loop (idx : nat) (m : Model) (es : list HistoryEntry) : list string :=
  match es with
  | [] => []
  | e :: es => let '(m, v) := lin_entry idx e m in v ++ lin_loop (S idx) m es
  end.

(** The entries at the given indices. *)
Definition keep_entries (h : list HistoryEntry) (indices : list nat) : list HistoryEntry :=
  omap (λ i, h !! i) indices.

Definition verify_linearization (h : list HistoryEntry) (order : list nat) : result (list string) unit :=
  of_violations (lin_loop 0 [] (keep_entries h order)).

(** ** The search for a linearization *)

Definition overlap (a b : HistoryEntry) : bool := (start_tick a <? end_tick b) && (start_tick b <? end_tick a).

Fixpoint no_overlap (h : list HistoryEntry) : bool :=
  match h with
  | [] => true
  | a :: h => forallb (λ b, negb (overlap a b)) h && no_overlap h
  end.

Definition must_before (h : list HistoryEntry) : list (list bool) :=
  imap (λ i hi, imap (λ j hj, negb (i =? j)%nat && (end_tick hi <? start_tick hj)) h) h.

Definition at_matrix (mb : list (list bool)) (i j : nat) : bool :=
  default false (row ← mb !! i; row !! j).

Definition blocked (mb : list (list bool)) (order : list nat) (i : nat) : bool :=
  existsb (λ j, at_matrix mb j i) order.

(** What the search has found, and the violations of the last order it tried. *)
Definition search : Type := bool * list string.

(** The loop over the candidates: [f] tries one, [skip] says which are not tried. *)
Fixpoint try_each (skip : nat → bool) (f : nat → search → search) (cands : list nat) (st : search) : search :=
  match cands with
  | [] => st
  | i :: cands =>
      if skip i then try_each skip f cands st
      else let st := f i st in if st.1 then st else try_each skip f cands st
  end.

(** The recursion is at most as deep as the history is long. *)
Fixpoint dfs (fuel : nat) (h : list HistoryEntry) (mb : list (list bool)) (order : list nat) (used : list bool)
    (st : search) : search :=
  match fuel with
  | O => st
  | S fuel =>
      if st.1 then st
      else if (length order =? length h)%nat then
        match verify_linearization h order with Ok _ => (true, st.2) | Err e => (false, e) end
      else
        try_each (λ i, default true (used !! i) || blocked mb order i)
          (λ i, dfs fuel h mb (order ++ [i]) (<[i := true]> used))
          (seq 0 (length h)) st
  end.

Definition check_concurrent (c : LinearizabilityChecker) : result (list string) unit :=
  let h := history c in
  if (WGL_MAX_OPS <? length h)%nat then
    Err ["concurrent check supports at most 14 ops (have " +:+ nat_text (length h) +:+ ")"]
  else if (length h =? 0)%nat then Ok tt
  else if no_overlap h then check_sequential c
  else
    let '(found, last_error) :=
      dfs (S (length h)) h (must_before h) [] (replicate (length h) false) (false, []) in
    if found then Ok tt
    else if bool_decide (last_error = []) then Err ["no linearization extends the real-time order"]
    else Err last_error.

(** ** Reducing a rejected history *)

(** [check_concurrent] on a part of a history. *)
Definition check_part (h : list HistoryEntry) (indices : list nat) : result (list string) unit :=
  check_concurrent (from_entries (keep_entries h indices)).

(** The first position whose removal is still rejected. *)
Fixpoint first_drop (h : list HistoryEntry) (keep poss : list nat) : option (list nat * list string) :=
  match poss with
  | [] => None
  | pos :: poss =>
      match check_part h (delete pos keep) with
      | Err e => Some (delete pos keep, e)
      | Ok _ => first_drop h keep poss
      end
  end.

Fixpoint shrink_forward (fuel : nat) (h : list HistoryEntry) (keep : list nat) (why : list string) : list nat * list string :=
  match fuel with
  | O => (keep, why)
  | S fuel =>
      if (length keep <=? 1)%nat then (keep, why)
      else match first_drop h keep (seq 0 (length keep)) with
           | Some (keep, why) => shrink_forward fuel h keep why
           | None => (keep, why)
           end
  end.

(** One pass over the positions from the last to the first. *)
Fixpoint reverse_pass (h : list HistoryEntry) (poss keep : list nat) (why : list string) : list nat * list string :=
  match poss with
  | [] => (keep, why)
  | pos :: poss =>
      if (length keep <=? 1)%nat then (keep, why)
      else match check_part h (delete pos keep) with
           | Err e => reverse_pass h poss (delete pos keep) e
           | Ok _ => reverse_pass h poss keep why
           end
  end.

Fixpoint shrink_reverse (fuel : nat) (h : list HistoryEntry) (keep : list nat) (why : list string) : list nat * list string :=
  match fuel with
  | O => (keep, why)
  | S fuel =>
      let '(keep', why) := reverse_pass h (reverse (seq 0 (length keep))) keep why in
      if (length keep' =? length keep)%nat then (keep', why) else shrink_reverse fuel h keep' why
  end.

(** Every round but the last of either loop drops an index. *)
Definition shrink_indices_to_minimal (h : list HistoryEntry) (seed : list nat) : option MinimalCounterexample :=
  if bool_decide (seed = []) then None
  else match check_part h seed with
       | Ok _ => None
       | Err why =>
           let '(keep, why) := shrink_forward (length seed) h seed why in
           let '(keep, why) := shrink_reverse (S (length keep)) h keep why in
           Some (mkCounterexample keep (keep_entries h keep) why)
       end.

Definition pick_smaller (best : option MinimalCounterexample) (cand : MinimalCounterexample) : MinimalCounterexample :=
  match best with
  | None => cand
  | Some b => if (length (cex_ops cand) <? length (cex_ops b))%nat then cand else b
  end.

Definition op_key (op : Op) : option bytes :=
  match op with OpPut key _ | OpGet key | OpDelete key => Some key | OpScan _ => None end.

Fixpoint partition_loop (i : nat) (es : list HistoryEntry) (by_key : list (bytes * list nat)) (scans : list nat)
    : list (bytes * list nat) * list nat :=
  match es with
  | [] => (by_key, scans)
  | e :: es =>
      match op_key (he_op e) with
      | Some key => partition_loop (S i) es (om_insert key (default [] (om_get key by_key) ++ [i]) by_key) scans
      | None => partition_loop (S i) es by_key (scans ++ [i])
      end
  end.

Definition key_and_scan_partitions (h : list HistoryEntry) : list (bytes * list nat) * list nat :=
  partition_loop 0 h [] [].

Definition scan_prefixes (h : list HistoryEntry) : list bytes :=
  omap (λ e, match he_op e with OpScan prefix => Some prefix | _ => None end) h.

Definition scan_related (prefixes : list bytes) (e : HistoryEntry) : bool :=
  match op_key (he_op e) with None => true | Some key => existsb (λ p, starts_with p key) prefixes end.

Definition scan_related_indices (h : list HistoryEntry) : list nat :=
  omap id (imap (λ i e, if scan_related (scan_prefixes h) e then Some i else None) h).

(** The smallest of the parts' counterexamples, the first of its size. *)
Definition shrink_into (h : list HistoryEntry) (best : option MinimalCounterexample) (idxs : list nat) : option MinimalCounterexample :=
  match shrink_indices_to_minimal h idxs with Some cex => Some (pick_smaller best cex) | None => best end.

Definition minimal_counterexample (c : LinearizabilityChecker) : option MinimalCounterexample :=
  match check_concurrent c with
  | Ok _ => None
  | Err _ =>
      let h := history c in
      let '(by_key, scan_idxs) := key_and_scan_partitions h in
      let best := foldl (shrink_into h) None by_key.*2 in
      let best := if bool_decide (scan_idxs = []) then best else shrink_into h best scan_idxs in
      match best with
      | None => shrink_indices_to_minimal h (seq 0 (length h))
      | Some b => Some b
      end
  end.

Definition check_concurrent_detailed (c : LinearizabilityChecker)
    : result (list string * option MinimalCounterexample) unit :=
  match check_concurrent c with
  | Ok _ => Ok tt
  | Err violations => Err (violations, minimal_counterexample c)
  end.

(** ** All minimal rejected parts *)

Definition subset_unsat_why (h : list HistoryEntry) (indices : list nat) : option (list string) :=
  if bool_decide (indices = []) || (WGL_MAX_OPS <? length indices)%nat then None
  else match check_part h indices with Ok _ => None | Err e => Some e end.

Fixpoint pos_ones (p : positive) : nat :=
  match p with xH => 1 | xO p => pos_ones p | xI p => S (pos_ones p) end.

(** [u32::count_ones]. *)
Definition count_ones (mask : N) : nat := match mask with 0 => 0%nat | Npos p => pos_ones p end.

(** The seed's elements at the set bits. *)
Definition select (seed : list nat) (mask : N) : list nat :=
  omap (λ i, if N.testbit mask (N.of_nat i) then seed !! i else None) (seq 0 (length seed)).

Definition mus_step (h : list HistoryEntry) (seed : list nat) (size : nat) (mus_masks : list N) (mask : N) : list N :=
  if negb (count_ones mask =? size)%nat then mus_masks
  else if existsb (λ mus, N.land mask mus =? mus) mus_masks then mus_masks
  else match subset_unsat_why h (select seed mask) with
       | Some _ => mus_masks ++ [mask]
       | None => mus_masks
       end.

(** The masks [1..limit]. *)
Definition masks (n : nat) : list N := N.of_nat <$> seq 1 (2 ^ n - 1).

Definition mus_masks (h : list HistoryEntry) (seed : list nat) : list N :=
  let n := length seed in
  foldl (λ acc size, foldl (mus_step h seed size) acc (masks n)) [] (seq 1 n).

Definition mus_of (h : list HistoryEntry) (keep : list nat) : MinimalCounterexample :=
  mkCounterexample keep (keep_entries h keep) (default [] (subset_unsat_why h keep)).

Definition enumerate_mus_in (h : list HistoryEntry) (seed : list nat) (cap : nat) : list MinimalCounterexample :=
  let n := length seed in
  if (n =? 0)%nat || (cap <? n)%nat || (WGL_MAX_OPS <? n)%nat then []
  else match subset_unsat_why h seed with
       | None => []
       | Some _ => (λ mask, mus_of h (select seed mask)) <$> mus_masks h seed
       end.

Definition push_unique_cex (found : list MinimalCounterexample) (cex : MinimalCounterexample) : list MinimalCounterexample :=
  if existsb (λ e, bool_decide (original_indices e = original_indices cex)) found then found else found ++ [cex].

(** [Vec<usize>::cmp]. *)
Fixpoint indices_cmp (a b : list nat) : comparison :=
  match a, b with
  | [], [] => Eq
  | [], _ :: _ => Lt
  | _ :: _, [] => Gt
  | x :: a, y :: b => match (x ?= y)%nat with Eq => indices_cmp a b | c => c end
  end.

Definition mus_cmp (a b : MinimalCounterexample) : comparison :=
  match (length (cex_ops a) ?= length (cex_ops b))%nat with
  | Eq => indices_cmp (original_indices a) (original_indices b)
  | c => c
  end.

Fixpoint insert_mus (x : MinimalCounterexample) (l : list MinimalCounterexample) : list MinimalCounterexample :=
  match l with
  | [] => [x]
  | y :: l => match mus_cmp x y with Gt => y :: insert_mus x l | _ => x :: y :: l end
  end.

(** [sort_by]; the sort is stable. *)
Definition sort_mus (l : list MinimalCounterexample) : list MinimalCounterexample := foldr insert_mus [] l.

Definition push_all (found : list MinimalCounterexample) (cexs : list MinimalCounterexample) : list MinimalCounterexample :=
  foldl push_unique_cex found cexs.

Definition minimal_unsatisfiable_subsets (c : LinearizabilityChecker) (cap : nat) : list MinimalCounterexample :=
  let h := history c in
  let cap := Nat.min cap WGL_MAX_OPS in
  if (cap =? 0)%nat || (length h =? 0)%nat then []
  else if (length h <=? cap)%nat then sort_mus (enumerate_mus_in h (seq 0 (length h)) cap)
  else
    let '(by_key, scan_idxs) := key_and_scan_partitions h in
    let found := foldl (λ f idxs, push_all f (enumerate_mus_in h idxs cap)) [] by_key.*2 in
    let found :=
      if bool_decide (scan_idxs = []) then found
      else
        let found := push_all found (enumerate_mus_in h scan_idxs cap) in
        let mixed := scan_related_indices h in
        if (length mixed <=? cap)%nat then push_all found (enumerate_mus_in h mixed cap) else found in
    sort_mus found.

(** ** The report *)

Fixpoint join (sep : string) (xs : list string) : string :=
  match xs with
  | [] => EmptyString
  | [x] => x
  | x :: xs => x +:+ sep +:+ join sep xs
  end.

Definition newline : string := to_string [10].

Definition op_line (i orig : nat) (e : HistoryEntry) : string :=
  "  [" +:+ nat_text i +:+ "] orig=" +:+ nat_text orig +:+ " client="
  +:+ match client_id e with Some c => pretty c | None => "-" end
  +:+ " [" +:+ pretty (start_tick e) +:+ "," +:+ pretty (end_tick e) +:+ ") "
  +:+ format_op (he_op e) +:+ " → " +:+ format_result (he_result e).

(** The real-time precedence edges within the operations. *)
Definition edges (ops : list HistoryEntry) : list string :=
  mjoin (imap (λ i a, omap id (imap (λ j b,
    if negb (i =? j)%nat && (end_tick a <? start_tick b) then Some (nat_text i +:+ "≺" +:+ nat_text j) else None) ops)) ops).

Definition report (c : MinimalCounterexample) : string :=
  let es := edges (cex_ops c) in
  join newline
    (["minimal counterexample: " +:+ nat_text (length (cex_ops c)) +:+ " op(s) (indices "
      +:+ debug_list (nat_text <$> original_indices c) +:+ ")"]
     ++ imap (λ i oe, op_line i oe.1 oe.2) (zip (original_indices c) (cex_ops c))
     ++ [if bool_decide (es = []) then "  real-time order: (none — all intervals overlap)"
         else "  real-time order: " +:+ join ", " es]
     ++ [if bool_decide (cex_why c = []) then "  reason: no linearization extends the real-time order"
         else "  reason: " +:+ join "; " (cex_why c)]).
