(* ===== verification/LinearProps.v ===== *)
(** What the linearizability checker decides: the sequential replay against an abstract
    key-value store, the search against the orders it tries, and the reductions of a
    rejected history; then histories it judges wrongly. *)
From S2P Require Import Prelude Bytes Core OrdMap Path Index Cdc Linear.

Open Scope N_scope.

(** ** The abstract store *)

Abbreviation store := (gmap bytes bytes).

(** [kv_step s e s']: in the state [s] the operation of [e] may return what [e]
    observed, and leaves [s'].  An error tells nothing and changes nothing. *)
Inductive kv_step : store → HistoryEntry → store → Prop :=
| kv_put s t0 t1 c k v : kv_step s (mkHistoryEntry t0 t1 c (OpPut k v) ResOk) (<[k := v]> s)
| kv_delete s t0 t1 c k : kv_step s (mkHistoryEntry t0 t1 c (OpDelete k) ResOk) (delete k s)
| kv_get s t0 t1 c k : kv_step s (mkHistoryEntry t0 t1 c (OpGet k) (ResValue (s !! k))) s
| kv_scan s t0 t1 c p items :
    om_sorted items → (∀ k v, (k, v) ∈ items ↔ s !! k = Some v ∧ p `prefix_of` k) →
    kv_step s (mkHistoryEntry t0 t1 c (OpScan p) (ResScan items)) s
| kv_error s t0 t1 c op m : kv_step s (mkHistoryEntry t0 t1 c op (ResError m)) s.

(** The entries are explained one after the other, from the state [s]. *)
Inductive legal : store → list HistoryEntry → Prop :=
| legal_nil s : legal s []
| legal_cons s e s' es : kv_step s e s' → legal s' es → legal s (e :: es).

(** The result has the kind of its operation, or is an error. *)
Definition well_typed (e : HistoryEntry) : Prop :=
  match he_op e, he_result e with
  | _, ResError _ => True
  | OpPut _ _, ResOk | OpDelete _, ResOk => True
  | OpGet _, ResValue _ => True
  | OpScan _, ResScan _ => True
  | _, _ => False
  end.

(** ** The model represents the store *)

Definition store_of (m : Model) : store := list_to_map m.

Lemma store_of_lookup m k : om_sorted m → store_of m !! k = om_get k m.
Proof.
  intros Hs. apply option_eq. intros v. unfold store_of. rewrite om_get_elem by done.
  symmetry. apply elem_of_list_to_map. by apply om_sorted_NoDup.
Qed.

Lemma store_of_insert k v m : om_sorted m → store_of (om_insert k v m) = <[k := v]> (store_of m).
Proof.
  intros Hs. apply map_eq. intros k'. rewrite store_of_lookup by auto with kaya.
  destruct (decide (k = k')) as [->|Hne].
  - by rewrite lookup_insert_eq, om_get_insert_eq.
  - by rewrite lookup_insert_ne, om_get_insert_ne, store_of_lookup.
Qed.

Lemma store_of_remove k m : om_sorted m → store_of (om_remove k m) = delete k (store_of m).
Proof.
  intros Hs. apply map_eq. intros k'. rewrite store_of_lookup by auto with kaya.
  destruct (decide (k = k')) as [->|Hne].
  - by rewrite lookup_delete_eq, om_get_remove_eq.
  - by rewrite lookup_delete_ne, om_get_remove_ne, store_of_lookup.
Qed.

Lemma take_prefix_elem p m x : om_sorted m → Forall (λ kv, bcmp p kv.1 ≠ Gt) m →
  x ∈ take_prefix p m ↔ x ∈ m ∧ starts_with p x.1 = true.
Proof.
  induction m as [|[k v] m IH]; cbn [take_prefix]; intros Hs Hf.
  { split; [by intros ?%not_elem_of_nil|by intros [?%not_elem_of_nil _]]. }
  apply om_sorted_cons in Hs as [Hs Hk]. apply Forall_cons in Hf as [Hp Hf].
  destruct (starts_with p k) eqn:E.
  - rewrite !elem_of_cons, IH by done. split; [|tauto]. by intros [->|?]; tauto.
  - rewrite elem_of_nil, elem_of_cons. split; [done|]. intros [[->|Hin] Hx]; cbn in *; [congruence|].
    rewrite Forall_forall in Hk. specialize (Hk _ Hin). unfold klt in Hk. cbn in Hk.
    rewrite (starts_with_between p k x.1) in E; [done|done|by rewrite Hk|done].
Qed.

Lemma take_prefix_sorted p m : om_sorted m → om_sorted (take_prefix p m).
Proof.
  induction m as [|[k v] m IH]; cbn [take_prefix]; [done|]. intros [Hs Hk]%om_sorted_cons.
  destruct (starts_with p k); [|constructor]. apply om_sorted_cons. split; [by apply IH|].
  clear Hs IH. induction Hk as [|[k' v'] m Hx Hk IH]; cbn [take_prefix]; [constructor|].
  destruct (starts_with p k'); constructor; auto.
Qed.

Lemma model_scan_sorted p m : om_sorted m → om_sorted (model_scan p m).
Proof. intros. by apply take_prefix_sorted, om_from_sorted. Qed.

Lemma model_scan_elem p m k v : om_sorted m →
  (k, v) ∈ model_scan p m ↔ store_of m !! k = Some v ∧ p `prefix_of` k.
Proof.
  intros Hs. unfold model_scan. rewrite take_prefix_elem.
  - rewrite om_from_elem, store_of_lookup, om_get_elem, starts_with_spec by done. cbn [fst].
    split; [tauto|]. intros [Hin Hp]. repeat split; [done| |done].
    apply starts_with_spec, starts_with_le in Hp. cbn. rewrite bcmp_antisym. by destruct (bcmp p k).
  - by apply om_from_sorted.
  - apply Forall_forall. intros x [_ Hx]%om_from_elem; [|done]. cbn in Hx.
    rewrite bcmp_antisym. by destruct (bcmp x.1 p).
Qed.

Lemma scan_observed p m items : om_sorted m →
  items = model_scan p m ↔ om_sorted items ∧ ∀ k v, (k, v) ∈ items ↔ store_of m !! k = Some v ∧ p `prefix_of` k.
Proof.
  intros Hs. split.
  - intros ->. split; [by apply model_scan_sorted|]. intros k v. by apply model_scan_elem.
  - intros [Hi Hel]. apply om_ext; [done|by apply model_scan_sorted|]. intros k. apply option_eq. intros v.
    rewrite !om_get_elem, Hel, model_scan_elem by auto using model_scan_sorted. done.
Qed.

(** ** Replays *)

Lemma app_eq_nil_iff {A} (l k : list A) : l ++ k = [] ↔ l = [] ∧ k = [].
Proof. split; [apply app_nil|by intros [-> ->]]. Qed.

Lemma of_violations_ok vs : of_violations vs = Ok tt ↔ vs = [].
Proof. unfold of_violations. case_bool_decide; naive_solver. Qed.

(** One entry of a replay agrees with the store's step. *)
Definition entry_agrees (f : HistoryEntry → Model → Model * list string) (e : HistoryEntry) : Prop :=
  ∀ m, om_sorted m → om_sorted (f e m).1 ∧
    ((f e m).2 = [] ↔ ∃ s', kv_step (store_of m) e s') ∧ ∀ s', kv_step (store_of m) e s' → s' = store_of (f e m).1.

Lemma get_agrees m k o t0 t1 c :
  om_sorted m → o = om_get k m ↔ ∃ s', kv_step (store_of m) (mkHistoryEntry t0 t1 c (OpGet k) (ResValue o)) s'.
Proof.
  intros Hs. rewrite <-store_of_lookup by done. split.
  - intros ->. eexists. constructor.
  - intros [s' Hst]. by inversion Hst.
Qed.

Lemma scan_agrees m p items t0 t1 c :
  om_sorted m → items = model_scan p m ↔ ∃ s', kv_step (store_of m) (mkHistoryEntry t0 t1 c (OpScan p) (ResScan items)) s'.
Proof.
  intros Hs. rewrite scan_observed by done. split.
  - intros [? ?]. eexists. by constructor.
  - intros [s' Hst]. by inversion Hst.
Qed.

Lemma seq_entry_agrees idx e : entry_agrees (seq_entry idx) e.
Proof.
  intros m Hs. destruct e as [t0 t1 c op r]. unfold seq_entry. cbn [he_op he_result].
  destruct op as [k v|k|k|p], r as [|o|items|msg]; cbn [is_error];
    try (rewrite bool_decide_eq_false_2 by done); try (rewrite bool_decide_eq_true_2 by done); cbn [fst snd].
  all: (split_and!; [by auto with kaya| |intros s' Hst; inversion Hst; subst; by rewrite ?store_of_insert, ?store_of_remove]).
  all: try (split; [intros [=]|intros [s' Hst]; by inversion Hst]; fail).
  all: try (split; [intros _; eexists; by constructor|done]; fail).
  - erewrite <-get_agrees by done. case_bool_decide; naive_solver.
  - erewrite <-scan_agrees by done. case_bool_decide; naive_solver.
Qed.

Lemma lin_entry_agrees idx e : well_typed e → entry_agrees (lin_entry idx) e.
Proof.
  intros Hw m Hs. destruct e as [t0 t1 c op r]. unfold lin_entry. cbn [he_op he_result].
  destruct op as [k v|k|k|p], r as [|o|items|msg]; try (by destruct Hw);
    try (rewrite bool_decide_eq_false_2 by done); try (rewrite bool_decide_eq_true_2 by done); cbn [fst snd].
  all: (split_and!; [by auto with kaya| |intros s' Hst; inversion Hst; subst; by rewrite ?store_of_insert, ?store_of_remove]).
  all: try (split; [intros _; eexists; by constructor|done]; fail).
  - erewrite <-get_agrees by done. case_bool_decide; naive_solver.
  - erewrite <-scan_agrees by done. case_bool_decide; naive_solver.
Qed.

(** A replay in steps that agree with the store accepts exactly what the store explains. *)
Lemma legal_step f e m es : entry_agrees f e → om_sorted m →
  legal (store_of m) (e :: es) ↔ (f e m).2 = [] ∧ legal (store_of (f e m).1) es.
Proof.
  intros He Hs. destruct (He m Hs) as (_ & Hv & Hn). rewrite Hv. split.
  - intros Hl. inversion Hl as [|? ? s' ? Hst Hl']; subst. rewrite <-(Hn s' Hst). eauto.
  - intros [[s' Hst] Hl]. econstructor; [exact Hst|]. by rewrite (Hn s' Hst).
Qed.

Lemma seq_loop_legal idx m es : om_sorted m → seq_loop idx m es = [] ↔ legal (store_of m) es.
Proof.
  revert idx m. induction es as [|e es IH]; intros idx m Hs; cbn [seq_loop].
  - split; [constructor|done].
  - rewrite (legal_step (seq_entry idx) e m es) by (done || apply seq_entry_agrees).
    destruct (seq_entry_agrees idx e m Hs) as [Hs' _].
    destruct (seq_entry idx e m) as [m' v]. cbn [fst snd] in *. by rewrite app_eq_nil_iff, IH.
Qed.

Lemma lin_loop_legal idx m es : om_sorted m → Forall well_typed es → lin_loop idx m es = [] ↔ legal (store_of m) es.
Proof.
  intros Hs Hw. revert idx m Hs. induction Hw as [|e es Hw _ IH]; intros idx m Hs; cbn [lin_loop].
  - split; [constructor|done].
  - rewrite (legal_step (lin_entry idx) e m es) by (done || by apply lin_entry_agrees).
    destruct (lin_entry_agrees idx e Hw m Hs) as [Hs' _].
    destruct (lin_entry idx e m) as [m' v]. cbn [fst snd] in *. by rewrite app_eq_nil_iff, IH.
Qed.

(** ** Orders *)

(** [a] returned before [b] was called. *)
Definition precedes (a b : HistoryEntry) : Prop := end_tick a < start_tick b.

Definition before (h : list HistoryEntry) (i j : nat) : Prop :=
  ∃ a b, h !! i = Some a ∧ h !! j = Some b ∧ i ≠ j ∧ precedes a b.

(** An order of a history: every index once. *)
Definition order_of (h : list HistoryEntry) (order : list nat) : Prop := order ≡ₚ seq 0 (length h).

(** Linearizability: some order of the operations in which none comes before one that
    had returned when it was called, and which the store explains. *)
Definition linearizable (h : list HistoryEntry) : Prop :=
  ∃ order, order_of h order ∧ StronglySorted (λ i j, ¬ before h j i) order ∧ legal ∅ (keep_entries h order).

(** What the search accepts: the orders in which no operation comes after one that had
    returned when it was called. *)
Definition search_accepts (h : list HistoryEntry) : Prop :=
  ∃ order, order_of h order ∧ StronglySorted (λ i j, ¬ before h i j) order ∧ legal ∅ (keep_entries h order).

Lemma must_before_spec h i j : at_matrix (must_before h) i j = true ↔ before h i j.
Proof.
  unfold at_matrix, must_before, before. rewrite list_lookup_imap.
  destruct (h !! i) as [a|] eqn:Ei; cbn; [|naive_solver].
  rewrite list_lookup_imap. destruct (h !! j) as [b|] eqn:Ej; cbn; [|naive_solver].
  rewrite andb_true_iff, negb_true_iff, Nat.eqb_neq, N.ltb_lt. unfold precedes. naive_solver.
Qed.

Lemma blocked_spec h order i : blocked (must_before h) order i = false ↔ Forall (λ j, ¬ before h j i) order.
Proof.
  unfold blocked. rewrite <-not_true_iff_false, existsb_exists, Forall_forall.
  setoid_rewrite must_before_spec. setoid_rewrite list_elem_of_In. naive_solver.
Qed.

Lemma strongly_sorted_snoc {A} (R : A → A → Prop) l x :
  StronglySorted R (l ++ [x]) ↔ StronglySorted R l ∧ Forall (λ y, R y x) l.
Proof.
  induction l as [|y l IH]; cbn.
  - split; intros _; repeat constructor.
  - split.
    + intros Hc. apply StronglySorted_inv in Hc as [Hs Hf]. apply IH in Hs as [Hs Hx].
      apply Forall_app in Hf as [Hf Hy]. rewrite Forall_singleton in Hy. by split; constructor.
    + intros [Hc Hd]. apply StronglySorted_inv in Hc as [Hs Hf]. apply Forall_cons in Hd as [Hy Hx].
      constructor; [apply IH; auto|]. apply Forall_app. split; [done|]. by constructor.
Qed.

(** ** The search *)

(** Extending [order] to an order of the history that the search would accept. *)
Definition completes (h : list HistoryEntry) (order : list nat) : Prop :=
  ∃ rest, order_of h (order ++ rest) ∧ StronglySorted (λ i j, ¬ before h i j) (order ++ rest) ∧
    verify_linearization h (order ++ rest) = Ok tt.

Lemma try_each_found skip f cands (P : nat → Prop) l :
  (∀ i l, i ∈ cands → skip i = false → (f i (false, l)).1 = true ↔ P i) →
  (try_each skip f cands (false, l)).1 = true ↔ ∃ i, i ∈ cands ∧ skip i = false ∧ P i.
Proof.
  revert l. induction cands as [|i cands IH]; intros l Hf; cbn [try_each].
  { split; [done|]. by intros (i & Hi%not_elem_of_nil & _). }
  assert (∀ l, (try_each skip f cands (false, l)).1 = true ↔ ∃ j, j ∈ cands ∧ skip j = false ∧ P j) as IH'.
  { intros l'. apply IH. intros j l2 Hj. apply Hf. by right. }
  setoid_rewrite elem_of_cons. destruct (skip i) eqn:Es.
  { rewrite IH'. split; [by intros (j & ? & ?); eauto|]. intros (j & [->|?] & ? & ?); [congruence|eauto]. }
  specialize (Hf i l (list_elem_of_here _ _) Es) as Hi.
  destruct (f i (false, l)) as [[] l'] eqn:Ef; cbn [fst] in *.
  - split; [intros _; exists i; split_and!; [by left|done|by apply Hi]|done].
  - rewrite IH'. split; [by intros (j & ? & ?); eauto|]. intros (j & [->|?] & ? & HP); [|eauto].
    by apply Hi in HP.
Qed.

(** The used indices are those of the order. *)
Definition used_by (h : list HistoryEntry) (order : list nat) (used : list bool) : Prop :=
  ∀ i, (i < length h)%nat → used !! i = Some (bool_decide (i ∈ order)).

Lemma used_by_snoc h order used i :
  used_by h order used → (i < length h)%nat → used_by h (order ++ [i]) (<[i := true]> used).
Proof.
  intros Hu Hi j Hj. destruct (decide (i = j)) as [->|Hne].
  - rewrite list_lookup_insert_eq by (apply lookup_lt_is_Some; rewrite Hu; eauto).
    f_equal. symmetry. apply bool_decide_eq_true_2, elem_of_app. right. by apply list_elem_of_singleton.
  - rewrite list_lookup_insert_ne by done. rewrite Hu by done. f_equal. apply bool_decide_ext.
    rewrite elem_of_app, list_elem_of_singleton. naive_solver.
Qed.

Lemma completes_step h order : (length order < length h)%nat →
  completes h order ↔ ∃ i, i ∈ seq 0 (length h) ∧ completes h (order ++ [i]).
Proof.
  intros Hl. split.
  - intros ([|i rest] & Hp & Hr).
    { apply Permutation_length in Hp. rewrite length_app, length_seq in Hp. cbn in Hp. lia. }
    exists i. split.
    + unfold order_of in Hp. rewrite <-Hp, elem_of_app, elem_of_cons. auto.
    + exists rest. by rewrite <-app_assoc.
  - intros (i & _ & rest & Hr). exists (i :: rest). by rewrite <-app_assoc in Hr.
Qed.

Lemma completes_app h order i : completes h (order ++ [i]) →
  i ∉ order ∧ Forall (λ j, ¬ before h j i) order.
Proof.
  intros (rest & Hp & Hs & _). split.
  - assert (NoDup ((order ++ [i]) ++ rest)) as Hn.
    { unfold order_of in Hp. rewrite Hp. apply NoDup_seq. }
    apply NoDup_app in Hn as (Hn & _). apply NoDup_app in Hn as (_ & Hn & _).
    intros Hi. apply (Hn i Hi). by apply list_elem_of_singleton.
  - rewrite <-(take_drop 1 rest) in Hs. clear Hp.
    assert (StronglySorted (λ i j, ¬ before h i j) (order ++ [i])) as Hso.
    { revert Hs. rewrite take_drop. generalize (order ++ [i]). induction rest as [|x rest IH]; intros l; [by rewrite app_nil_r|].
      rewrite cons_middle, app_assoc. intros Hs. apply IH in Hs. by apply strongly_sorted_snoc in Hs as [? _]. }
    by apply strongly_sorted_snoc in Hso as [_ ?].
Qed.

Lemma dfs_found fuel h order used l :
  (length h < fuel + length order)%nat → (length order ≤ length h)%nat → used_by h order used →
  NoDup order → order ⊆ seq 0 (length h) → StronglySorted (λ i j, ¬ before h i j) order →
  (dfs fuel h (must_before h) order used (false, l)).1 = true ↔ completes h order.
Proof.
  revert order used l. induction fuel as [|fuel IH]; intros order used l Hf Hl Hu Hn Hsub Hs; [lia|].
  cbn [dfs fst]. destruct (Nat.eqb_spec (length order) (length h)) as [E|E].
  - assert (order_of h order) as Ho.
    { apply submseteq_length_Permutation; [by apply NoDup_submseteq|]. rewrite length_seq. lia. }
    transitivity (verify_linearization h order = Ok tt).
    { destruct (verify_linearization h order) as [[]|]; naive_solver. }
    split.
    + intros Hv. exists []. by rewrite app_nil_r.
    + intros (rest & Hp & _ & Hv). apply Permutation_length in Hp. rewrite length_app, length_seq in Hp.
      destruct rest; [by rewrite app_nil_r in Hv|cbn in Hp; lia].
  - rewrite completes_step by lia.
    assert (∀ i, i ∈ seq 0 (length h) →
      default true (used !! i) || blocked (must_before h) order i = false ↔ i ∉ order ∧ Forall (λ j, ¬ before h j i) order) as Hsk.
    { intros i [_ Hi]%elem_of_seq. rewrite Hu by lia. cbn [from_option id]. rewrite orb_false_iff, blocked_spec.
      unfold id. by rewrite bool_decide_eq_false. }
    rewrite (try_each_found _ _ _ (λ i, completes h (order ++ [i]))).
    + split; [naive_solver|]. intros (i & Hi & HP). exists i. rewrite Hsk by done. eauto using completes_app.
    + intros i l' Hi [Hni Hfo]%Hsk; [|done]. pose proof Hi as [_ Hlt]%elem_of_seq. apply IH.
      * rewrite length_app. cbn. lia.
      * rewrite length_app. cbn. lia.
      * by apply used_by_snoc; [|lia].
      * apply NoDup_app. split_and!; [done| |apply NoDup_singleton]. intros x Hx ->%list_elem_of_singleton. done.
      * intros x [Hx| ->%list_elem_of_singleton]%elem_of_app; [by apply Hsub|done].
      * by apply strongly_sorted_snoc.
Qed.

Lemma keep_entries_typed h order : Forall well_typed h → Forall well_typed (keep_entries h order).
Proof.
  intros Hw. apply Forall_forall. intros e (i & _ & Hi)%list_elem_of_omap.
  eapply Forall_lookup_1; [exact Hw|exact Hi].
Qed.

Lemma verify_legal h order :
  Forall well_typed h → verify_linearization h order = Ok tt ↔ legal ∅ (keep_entries h order).
Proof.
  intros Hw. unfold verify_linearization. rewrite of_violations_ok.
  rewrite lin_loop_legal; [done|constructor|by apply keep_entries_typed].
Qed.

Lemma completes_nil h : Forall well_typed h → completes h [] ↔ search_accepts h.
Proof.
  intros Hw. unfold completes, search_accepts. cbn [app]. by setoid_rewrite (verify_legal h _ Hw).
Qed.

Lemma search_result (found : bool) (l : list string) (msg : string) :
  (if found then Ok tt else if bool_decide (l = []) then Err [msg] else Err l) = @Ok (list string) unit tt ↔ found = true.
Proof. destruct found; [done|]. by case_bool_decide. Qed.

Lemma check_search c :
  let h := history c in
  (length h ≤ WGL_MAX_OPS)%nat → no_overlap h = false → Forall well_typed h →
  check_concurrent c = Ok tt ↔ search_accepts h.
Proof.
  intros h Hlen Hno Hw. rewrite <-completes_nil by done. unfold check_concurrent. fold h.
  rewrite (proj2 (Nat.ltb_ge _ _)) by done. rewrite Hno.
  destruct (Nat.eqb_spec (length h) 0) as [E|E]; [by apply length_zero_iff_nil in E; rewrite E in Hno|].
  pose proof (dfs_found (S (length h)) h [] (replicate (length h) false) []) as Hd.
  destruct (dfs _ _ _ _ _ _) as [found l]. cbn [fst] in Hd. rewrite search_result. apply Hd.
  - cbn. lia.
  - cbn. lia.
  - intros i Hi. rewrite lookup_replicate_2 by done. by rewrite bool_decide_eq_false_2 by apply not_elem_of_nil.
  - constructor.
  - intros x Hx. by apply not_elem_of_nil in Hx.
  - constructor.
Qed.

(** ** What is decided *)

(** The replay of a history accepts it exactly when an abstract store explains the
    results in the recorded order. *)
Theorem linear_sequential_exact c : check_sequential c = Ok tt ↔ legal ∅ (history c).
Proof. unfold check_sequential. rewrite of_violations_ok. apply (seq_loop_legal 0 []). constructor. Qed.

(** The search, on a history with overlapping operations, accepts exactly when an
    abstract store explains the results in some order that is compatible with the
    precedence the search enforces: no operation comes after one that had returned when
    it was called.  It is exhaustive: no such order is missed. *)
Theorem linear_search_exact c :
  let h := history c in
  (length h ≤ WGL_MAX_OPS)%nat → no_overlap h = false → Forall well_typed h →
  check_concurrent c = Ok tt ↔ search_accepts h.
Proof. apply check_search. Qed.

Lemma linear_search_exact_witness :
  let c := from_entries [mkHistoryEntry 0 2 None (OpPut [107] [1]) ResOk; mkHistoryEntry 1 3 None (OpGet [107]) (ResValue None)] in
  check_concurrent c = Ok tt ↔ search_accepts (history c).
Proof.
  intros c. apply (linear_search_exact c); [cbn; unfold WGL_MAX_OPS; lia|reflexivity|by repeat constructor].
Defined.

(** Sufficient conditions under which the verdict is linearizability. *)

Definition all_concurrent (h : list HistoryEntry) : Prop :=
  ∀ a b, a ∈ h → b ∈ h → ¬ precedes a b.

Definition one_by_one (h : list HistoryEntry) : Prop := StronglySorted precedes h ∧ Forall (λ e, start_tick e < end_tick e) h.

Lemma not_before_concurrent h i j : all_concurrent h → ¬ before h i j.
Proof. intros Hc (a & b & Ha & Hb & _ & Hp). apply (Hc a b); [by eapply list_elem_of_lookup_2..|done]. Qed.

Lemma sorted_any {A} (R : A → A → Prop) l : (∀ x y, R x y) → StronglySorted R l.
Proof. intros HR. induction l; constructor; [done|]. by apply Forall_true. Qed.

Lemma one_by_one_before h i j :
  one_by_one h → (i < length h)%nat → (j < length h)%nat → before h i j ↔ (i < j)%nat.
Proof.
  intros [Hs Ht] Hi Hj.
  assert (∀ i j a b, (i < j)%nat → h !! i = Some a → h !! j = Some b → precedes a b) as Hlt.
  { clear -Hs. induction Hs as [|x h _ IH Hf]; intros i j a b Hij Ha Hb; [by rewrite lookup_nil in Ha|].
    destruct i as [|i], j as [|j]; [lia| |lia|].
    - injection Ha as <-. cbn in Hb. eapply Forall_lookup_1; eauto.
    - apply (IH i j); [lia|done..]. }
  split.
  - intros (a & b & Ha & Hb & Hne & Hp). destruct (Nat.lt_trichotomy i j) as [?|[?|Hji]]; [done|done|].
    pose proof (Hlt _ _ _ _ Hji Hb Ha) as Hq. unfold precedes in *.
    pose proof (Forall_lookup_1 _ _ _ _ Ht Ha) as Hta. pose proof (Forall_lookup_1 _ _ _ _ Ht Hb) as Htb.
    cbn in Hta, Htb. lia.
  - intros Hij. destruct (lookup_lt_is_Some_2 h i Hi) as [a Ha]. destruct (lookup_lt_is_Some_2 h j Hj) as [b Hb].
    exists a, b. split_and!; [done|done|lia|]. by apply (Hlt i j).
Qed.

Lemma sorted_weaken {A} (P : A → Prop) (R Q : A → A → Prop) l :
  (∀ x y, P x → P y → R x y → Q x y) → Forall P l → StronglySorted R l → StronglySorted Q l.
Proof.
  intros HRQ HP. induction 1 as [|x l Hs IH Hf]; constructor.
  - apply IH. by apply Forall_cons in HP as [_ ?].
  - apply Forall_cons in HP as [Hx HP]. rewrite Forall_forall in *. intros y Hy. apply HRQ; auto.
Qed.

Lemma seq_sorted_le a n : StronglySorted le (seq a n).
Proof.
  revert a. induction n as [|n IH]; intros a; cbn; constructor; [apply IH|].
  apply Forall_forall. intros x [? _]%elem_of_seq. lia.
Qed.

Lemma keep_entries_shift e h l : keep_entries (e :: h) (S <$> l) = keep_entries h l.
Proof.
  unfold keep_entries. induction l as [|i l IH]; [done|]. cbn [fmap list_fmap omap list_omap]. by rewrite IH.
Qed.

Lemma keep_entries_all h : keep_entries h (seq 0 (length h)) = h.
Proof.
  induction h as [|e h IH]; [done|]. cbn [length seq]. rewrite <-seq_shift.
  change (e :: keep_entries (e :: h) (S <$> seq 0 (length h)) = e :: h). by rewrite keep_entries_shift, IH.
Qed.

Lemma one_by_one_linearizable h : one_by_one h → linearizable h ↔ legal ∅ h.
Proof.
  intros Ho. split.
  - intros (order & Hp & Hs & Hl). assert (order = seq 0 (length h)) as ->; [|by rewrite keep_entries_all in Hl].
    eapply (StronglySorted_unique le); [|apply seq_sorted_le|exact Hp].
    refine (sorted_weaken (λ i, (i < length h)%nat) _ _ _ _ _ Hs); [|apply Forall_forall].
    + intros i j Hi Hj Hb. rewrite one_by_one_before in Hb by done. lia.
    + intros i Hi. unfold order_of in Hp. rewrite Hp in Hi. apply elem_of_seq in Hi. lia.
  - intros Hl. exists (seq 0 (length h)). split_and!; [by unfold order_of| |by rewrite keep_entries_all].
    refine (sorted_weaken (λ i, (i < length h)%nat) _ _ _ _ _ (seq_sorted_le 0 (length h))); [|apply Forall_forall].
    + intros i j Hi Hj Hij. rewrite one_by_one_before by done. lia.
    + intros i Hi%elem_of_seq. lia.
Qed.

Lemma one_by_one_no_overlap h : one_by_one h → no_overlap h = true.
Proof.
  intros [Hs _]. induction Hs as [|a h _ IH Hf]; [done|]. cbn [no_overlap]. rewrite IH, andb_true_r.
  apply forallb_forall. intros b Hb%list_elem_of_In. rewrite Forall_forall in Hf. specialize (Hf b Hb).
  unfold precedes, overlap in *. destruct (N.ltb_spec (start_tick b) (end_tick a)); [lia|]. by rewrite andb_false_r.
Qed.

(** The verdict is linearizability for the histories of one client at a time, recorded
    as they ran, and for histories in which no operation precedes another. *)
Theorem linear_check_correct c :
  let h := history c in
  (length h ≤ WGL_MAX_OPS)%nat → Forall well_typed h → one_by_one h ∨ (all_concurrent h ∧ no_overlap h = false) →
  check_concurrent c = Ok tt ↔ linearizable h.
Proof.
  intros h Hlen Hw [Ho|[Hc Hno]].
  - rewrite one_by_one_linearizable by done. unfold check_concurrent. fold h.
    rewrite (proj2 (Nat.ltb_ge _ _)) by done. rewrite one_by_one_no_overlap by done.
    destruct (Nat.eqb_spec (length h) 0) as [E|E].
    + apply length_zero_iff_nil in E. rewrite E. split; [constructor|done].
    + unfold check_sequential. rewrite of_violations_ok. apply (seq_loop_legal 0 []). constructor.
  - rewrite check_search by done. unfold search_accepts, linearizable.
    split; intros (order & Hp & _ & Hl); exists order; split_and!; try done;
      apply sorted_any; intros i j; by apply not_before_concurrent.
Qed.

Lemma linear_check_correct_witness :
  let c := from_entries [mkHistoryEntry 0 1 None (OpPut [107] [1]) ResOk; mkHistoryEntry 2 3 None (OpGet [107]) (ResValue None)] in
  check_concurrent c = Ok tt ↔ linearizable (history c).
Proof.
  intros c. apply (linear_check_correct c); [cbn; unfold WGL_MAX_OPS; lia|by repeat constructor|left].
  split; repeat constructor.
Defined.

(** ** Histories that are judged wrongly *)

Definition ev (t0 t1 : N) (op : Op) (r : OpResult) : HistoryEntry := mkHistoryEntry t0 t1 None op r.

(** A read that misses a write which had returned before the read was called. *)
Definition stale_read : list HistoryEntry :=
  [ev 0 1 (OpPut [107] [1]) ResOk; ev 2 5 (OpGet [107]) (ResValue None); ev 3 4 (OpPut [98] [2]) ResOk].

(** The same history with the read returning what was written. *)
Definition fresh_read : list HistoryEntry :=
  [ev 0 1 (OpPut [107] [1]) ResOk; ev 2 5 (OpGet [107]) (ResValue (Some [1])); ev 3 4 (OpPut [98] [2]) ResOk].

(** A write and a read of it that do not overlap, recorded in the order of completion
    reports, the read first. *)
Definition late_record : list HistoryEntry :=
  [ev 2 3 (OpGet [107]) (ResValue (Some [1])); ev 0 1 (OpPut [107] [1]) ResOk].

Lemma stale_read_not_linearizable : ¬ linearizable stale_read.
Proof.
  intros (order & Hp & Hs & Hl). unfold order_of in Hp. symmetry in Hp.
  apply permutations_Permutation in Hp. apply verify_legal in Hl; [|by repeat constructor].
  assert (before stale_read 0 1) as Hb by by apply must_before_spec.
  vm_compute in Hp.
  assert (∀ i j l, StronglySorted (λ i j, ¬ before stale_read j i) (i :: j :: l) → ¬ before stale_read j i) as Hhd.
  { intros i j l [_ [Hf _]%Forall_cons]%StronglySorted_inv. done. }
  repeat (apply elem_of_cons in Hp as [->|Hp];
    [first [by vm_compute in Hl|by apply Hhd in Hs|by apply StronglySorted_inv in Hs as [Hs%Hhd _]
           |by apply StronglySorted_inv in Hs as [_ [_ [Hs _]%Forall_cons]%Forall_cons]]|]).
  by apply not_elem_of_nil in Hp.
Qed.

Lemma legal_replay h order : Forall well_typed h → bool_decide (lin_loop 0 [] (keep_entries h order) = []) = true →
  legal ∅ (keep_entries h order).
Proof.
  intros Hw Hv%bool_decide_eq_true. apply (lin_loop_legal 0 []) in Hv; [done|constructor|by apply keep_entries_typed].
Qed.

Lemma fresh_read_linearizable : linearizable fresh_read.
Proof.
  exists [0; 1; 2]%nat. split_and!; [by unfold order_of| |by apply legal_replay; [repeat constructor|vm_compute]].
  repeat constructor; by rewrite <-must_before_spec.
Qed.

Lemma late_record_linearizable : linearizable late_record.
Proof.
  exists [1; 0]%nat. split_and!; [apply Permutation_swap| |by apply legal_replay; [repeat constructor|vm_compute]].
  repeat constructor; by rewrite <-must_before_spec.
Qed.

(** C27: the search enforces the real-time order the wrong way round: of two operations that
    do not overlap it tries only the orders with the later one first.  So it accepts a
    stale read and rejects the same history with the right read.  And a history without
    overlap is replayed as recorded, whatever its ticks say. *)
Theorem linear_order_inverted :
  (check_concurrent (from_entries stale_read) = Ok tt ∧ ¬ linearizable stale_read) ∧
  (is_ok (check_concurrent (from_entries fresh_read)) = false ∧ linearizable fresh_read) ∧
  (is_ok (check_concurrent (from_entries late_record)) = false ∧ linearizable late_record).
Proof.
  split_and!.
  - by vm_compute.
  - apply stale_read_not_linearizable.
  - by vm_compute.
  - apply fresh_read_linearizable.
  - by vm_compute.
  - apply late_record_linearizable.
Qed.
