(* ===== verification/LinearMinimal.v ===== *)
(** The reductions of a rejected history: the greedy one leaves a part from which no
    single operation can be dropped, and the enumeration returns exactly the minimal
    rejected parts. *)
From S2P Require Import Prelude Bytes Core OrdMap Path Index Cdc Linear.

Open Scope N_scope.

(** ** The greedy reduction *)

Section Greedy.
  Context (h : list HistoryEntry).

Lemma check_part_nil : check_part h [] = Ok tt.
Proof. done. Qed.

Lemma length_delete_lt {A} i (l : list A) : (i < length l)%nat → length (delete i l) = (length l - 1)%nat.
Proof. intros Hi. apply length_delete. by apply lookup_lt_is_Some. Qed.

(** A smaller rejected part of [keep]. *)
Definition reduced (keep keep' : list nat) (why' : list string) : Prop :=
  keep' `sublist_of` keep ∧ check_part h keep' = Err why'.

Lemma first_drop_spec keep poss keep' why' : Forall (λ p, (p < length keep)%nat) poss →
  first_drop h keep poss = Some (keep', why') → reduced keep keep' why' ∧ (length keep' < length keep)%nat.
Proof.
  induction 1 as [|pos poss Hp _ IH]; cbn [first_drop]; [done|].
  destruct (check_part h (delete pos keep)) as [[]|e] eqn:E; [done|]. intros [= <- <-].
  split; [by split; [apply sublist_delete|]|]. rewrite length_delete_lt by done. lia.
Qed.

Lemma shrink_forward_spec fuel keep why : check_part h keep = Err why →
  let '(keep', why') := shrink_forward fuel h keep why in reduced keep keep' why'.
Proof.
  revert keep why. induction fuel as [|fuel IH]; intros keep why He; cbn [shrink_forward]; [by split|].
  destruct (length keep <=? 1)%nat; [by split|].
  destruct (first_drop h keep (seq 0 (length keep))) as [[keep' why']|] eqn:E; [|by split].
  apply first_drop_spec in E as [[Hs He'] _].
  - specialize (IH keep' why' He'). destruct (shrink_forward fuel h keep' why') as [k w].
    destruct IH as [Hs' Hw]. split; [by etrans|done].
  - apply Forall_forall. intros p Hp%elem_of_seq. lia.
Qed.

(** No operation of [keep] can be dropped. *)
Definition tight (keep : list nat) (k : nat) : Prop :=
  (length keep ≤ 1)%nat ∨ ∀ pos, (pos < k)%nat → check_part h (delete pos keep) = Ok tt.

Lemma seq_snoc k : reverse (seq 0 (S k)) = k :: reverse (seq 0 k).
Proof. by rewrite seq_S, reverse_app. Qed.

Lemma reverse_pass_spec k keep why : (k ≤ length keep)%nat → check_part h keep = Err why →
  let '(keep', why') := reverse_pass h (reverse (seq 0 k)) keep why in
  reduced keep keep' why' ∧ (length keep' ≤ length keep)%nat ∧
  (length keep' = length keep → keep' = keep ∧ tight keep k).
Proof.
  revert keep why. induction k as [|k IH]; intros keep why Hk He.
  { cbn. split_and!; [by split|done|]. intros _. split; [done|]. right. lia. }
  rewrite seq_snoc. cbn [reverse_pass]. destruct (Nat.leb_spec (length keep) 1).
  { split_and!; [by split|done|]. intros _. split; [done|by left]. }
  destruct (check_part h (delete k keep)) as [[]|e] eqn:E.
  - specialize (IH keep why ltac:(lia) He). destruct (reverse_pass h _ keep why) as [keep' why'].
    destruct IH as (Hr & Hl & Ht). split_and!; [done|done|]. intros [-> [?|Hx]]%Ht; (split; [done|]); [by left|].
    right. intros pos Hpos. destruct (decide (pos = k)) as [->|]; [done|]. apply Hx. lia.
  - pose proof (length_delete_lt k keep ltac:(lia)) as Hd.
    specialize (IH (delete k keep) e ltac:(lia) E). destruct (reverse_pass h _ (delete k keep) e) as [keep' why'].
    destruct IH as ([Hs Hw] & Hl & _). split_and!; [|lia|lia].
    split; [|done]. etrans; [done|apply sublist_delete].
Qed.

Lemma shrink_reverse_spec fuel keep why : (length keep < fuel)%nat → check_part h keep = Err why →
  let '(keep', why') := shrink_reverse fuel h keep why in reduced keep keep' why' ∧ tight keep' (length keep').
Proof.
  revert keep why. induction fuel as [|fuel IH]; intros keep why Hf He; [lia|]. cbn [shrink_reverse].
  pose proof (reverse_pass_spec (length keep) keep why ltac:(lia) He) as Hp.
  destruct (reverse_pass h _ keep why) as [keep1 why1]. destruct Hp as ([Hs Hw] & Hl & Ht).
  destruct (Nat.eqb_spec (length keep1) (length keep)) as [E|E].
  - destruct (Ht E) as [-> Htt]. by split.
  - specialize (IH keep1 why1 ltac:(lia) Hw). destruct (shrink_reverse fuel h keep1 why1) as [keep2 why2].
    destruct IH as [[Hs2 Hw2] Ht2]. split; [|done]. split; [by etrans|done].
Qed.

Lemma tight_drops keep pos : tight keep (length keep) → (pos < length keep)%nat → check_part h (delete pos keep) = Ok tt.
Proof.
  intros [Hl|Ht] Hp; [|by apply Ht]. destruct keep as [|i [|j keep]]; cbn in *; [lia| |lia].
  destruct pos; [done|lia].
Qed.
End Greedy.

(** The greedy reduction stops at a part that is rejected, while without any one of its
    operations it is accepted; it finds one whenever the seed is rejected. *)
Theorem linear_shrink_minimal h seed :
  match shrink_indices_to_minimal h seed with
  | None => check_part h seed = Ok tt
  | Some cex =>
      let keep := original_indices cex in
      keep `sublist_of` seed ∧ cex_ops cex = keep_entries h keep ∧ check_part h keep = Err (cex_why cex) ∧
      ∀ pos, (pos < length keep)%nat → check_part h (delete pos keep) = Ok tt
  end.
Proof.
  unfold shrink_indices_to_minimal. case_bool_decide as Hn; [by rewrite Hn|].
  destruct (check_part h seed) as [[]|why] eqn:E; [done|].
  pose proof (shrink_forward_spec h (length seed) seed why E) as H1.
  destruct (shrink_forward _ h seed why) as [k1 w1]. destruct H1 as [Hs1 Hw1].
  pose proof (shrink_reverse_spec h (S (length k1)) k1 w1 ltac:(lia) Hw1) as H2.
  destruct (shrink_reverse _ h k1 w1) as [k2 w2]. destruct H2 as [[Hs2 Hw2] Ht]. cbn.
  split_and!; [by etrans|done|done|]. intros pos Hp. by apply tight_drops.
Qed.

(** ** Masks *)

Lemma testbit_succ m i : N.testbit m (N.succ i) = N.testbit (N.div2 m) i.
Proof. by rewrite N.div2_div, N.div2_bits by lia. Qed.

Lemma select_cons x seed mask :
  select (x :: seed) mask = (if N.testbit mask 0 then [x] else []) ++ select seed (N.div2 mask).
Proof.
  unfold select. cbn [length seq]. rewrite <-seq_shift. cbn [omap list_omap].
  change (N.of_nat 0) with 0. transitivity (
    (if N.testbit mask 0 then [x] else []) ++
    omap (λ i, if N.testbit mask (N.of_nat i) then (x :: seed) !! i else None) (S <$> seq 0 (length seed))).
  { by destruct (N.testbit mask 0). }
  f_equal. induction (seq 0 (length seed)) as [|i l IH]; [done|].
  cbn [fmap list_fmap omap list_omap]. rewrite Nat2N.inj_succ, testbit_succ.
  cbn [lookup list_lookup]. destruct (N.testbit (N.div2 mask) (N.of_nat i)); [|exact IH].
  destruct (seed !! i); [|exact IH]. f_equal. exact IH.
Qed.

Lemma div2_lt m n : m < 2 ^ N.of_nat (S n) → N.div2 m < 2 ^ N.of_nat n.
Proof. rewrite Nat2N.inj_succ, N.pow_succ_r', N.div2_div. intros. apply N.Div0.div_lt_upper_bound. lia. Qed.

Lemma mask_split m : m = N.b2n (N.testbit m 0) + 2 * N.div2 m.
Proof. rewrite N.bit0_odd. pose proof (N.div2_odd m). lia. Qed.

Lemma testbit_cons (b : bool) m : N.testbit (N.b2n b + 2 * m) 0 = b.
Proof. rewrite N.add_comm. apply N.testbit_0_r. Qed.

Lemma div2_cons (b : bool) m : N.div2 (N.b2n b + 2 * m) = m.
Proof. destruct b; cbn [N.b2n]; destruct m; reflexivity. Qed.

Lemma count_ones_cons m : count_ones m = ((if N.testbit m 0 then 1 else 0) + count_ones (N.div2 m))%nat.
Proof. destruct m as [|[p|p|]]; reflexivity. Qed.

Lemma select_length seed mask : mask < 2 ^ N.of_nat (length seed) → length (select seed mask) = count_ones mask.
Proof.
  revert mask. induction seed as [|x seed IH]; intros mask Hm.
  { cbn in Hm. assert (mask = 0) as -> by lia. done. }
  rewrite select_cons, count_ones_cons, length_app, IH by by apply div2_lt. by destruct (N.testbit mask 0).
Qed.

Lemma select_sublist seed mask : select seed mask `sublist_of` seed.
Proof.
  revert mask. induction seed as [|x seed IH]; intros mask; [done|]. rewrite select_cons.
  destruct (N.testbit mask 0); cbn; [by apply sublist_skip|by apply sublist_cons].
Qed.

Lemma sublist_select keep seed : keep `sublist_of` seed →
  ∃ mask, mask < 2 ^ N.of_nat (length seed) ∧ select seed mask = keep.
Proof.
  induction 1 as [|x k l _ (m & Hm & <-)|x k l _ (m & Hm & <-)].
  - exists 0. by split.
  - exists (N.b2n true + 2 * m). rewrite select_cons, testbit_cons, div2_cons. split; [|done].
    cbn [length]. rewrite Nat2N.inj_succ, N.pow_succ_r'. cbn [N.b2n]. lia.
  - exists (N.b2n false + 2 * m). rewrite select_cons, testbit_cons, div2_cons. split; [|done].
    cbn [length]. rewrite Nat2N.inj_succ, N.pow_succ_r'. cbn [N.b2n]. lia.
Qed.

(** [m'] has no bit that [m] has not. *)
Definition submask (m' m : N) : Prop := N.land m m' = m'.

#[export] Instance submask_dec m' m : Decision (submask m' m).
Proof. unfold submask. apply _. Defined.

Lemma submask_cons m' m :
  submask m' m ↔ (N.testbit m' 0 = true → N.testbit m 0 = true) ∧ submask (N.div2 m') (N.div2 m).
Proof.
  unfold submask. split.
  - intros Hl. split.
    + intros Hb. rewrite <-Hl, N.land_spec in Hb. by apply andb_prop in Hb as [? _].
    + apply N.bits_inj. intros i. rewrite N.land_spec, <-!testbit_succ. by rewrite <-Hl at 2; rewrite N.land_spec.
  - intros [Hb Hd]. apply N.bits_inj. intros i. rewrite N.land_spec. destruct (N.zero_or_succ i) as [->|[j ->]].
    + destruct (N.testbit m' 0); [by rewrite Hb|by rewrite andb_false_r].
    + rewrite !testbit_succ. by rewrite <-Hd at 2; rewrite N.land_spec.
Qed.

Lemma submask_refl m : submask m m.
Proof. apply N.land_diag. Qed.

Lemma submask_trans a b c : submask a b → submask b c → submask a c.
Proof. unfold submask. intros <- <-. rewrite !N.land_assoc. by rewrite N.land_diag. Qed.

Lemma select_submask seed m' m : NoDup seed →
  m' < 2 ^ N.of_nat (length seed) → m < 2 ^ N.of_nat (length seed) →
  select seed m' `sublist_of` select seed m ↔ submask m' m.
Proof.
  intros Hn. revert m' m. induction Hn as [|x seed Hx Hn IH]; intros m' m Hm' Hm.
  { cbn in Hm, Hm'. assert (m = 0 ∧ m' = 0) as [-> ->] by lia. done. }
  rewrite !select_cons, submask_cons, <-IH by by apply div2_lt.
  assert (∀ k, x ∉ select seed k) as Hni.
  { intros k Hin. apply Hx. eapply sublist_subseteq; [apply select_sublist|done]. }
  destruct (N.testbit m' 0), (N.testbit m 0); cbn [app].
  - rewrite sublist_cons_l. split.
    + intros (k1 & k2 & Hk & Hs). split; [done|]. destruct k1 as [|y k1]; [by injection Hk as ->|].
      injection Hk as -> Hk. exfalso. apply (Hni (N.div2 m)). rewrite Hk. apply elem_of_app. right. by left.
    + intros [_ Hs]. exists [], (select seed (N.div2 m)). done.
  - split; [|by intros [Hc _]; specialize (Hc eq_refl)]. intros Hs. exfalso. apply (Hni (N.div2 m)).
    eapply sublist_subseteq; [exact Hs|by left].
  - split; [|intros [_ Hs]; by apply sublist_cons]. intros Hs. split; [done|].
    apply sublist_cons_r in Hs as [Hs|(l' & Hl & _)]; [done|]. exfalso. apply (Hni (N.div2 m')). rewrite Hl. by left.
  - split; [by split|by intros [_ ?]].
Qed.

Lemma sublist_same_length {A} (k l : list A) : k `sublist_of` l → length k = length l → k = l.
Proof.
  induction 1 as [|x k l Hs IH|x k l Hs IH]; cbn; intros Hl; [done|by rewrite IH by lia|].
  apply sublist_length in Hs. lia.
Qed.

Lemma select_inj seed m' m : NoDup seed →
  m' < 2 ^ N.of_nat (length seed) → m < 2 ^ N.of_nat (length seed) → select seed m' = select seed m → m' = m.
Proof.
  intros Hn Hm' Hm E.
  assert (submask m' m) as <- by (apply (select_submask seed); [done..|by rewrite E]).
  assert (submask m m') as Hs by (apply (select_submask seed); [done..|by rewrite E]).
  unfold submask in Hs. by rewrite N.land_comm in Hs.
Qed.

(** ** The enumeration *)

Lemma masks_elem k m : m ∈ masks k ↔ 0 < m < 2 ^ N.of_nat k.
Proof.
  unfold masks. rewrite list_elem_of_fmap. assert (2 ^ N.of_nat k = N.of_nat (2 ^ k)) as Hp.
  { by rewrite Nat2N.inj_pow. }
  pose proof (Nat.pow_nonzero 2 k ltac:(lia)). rewrite Hp. split.
  - intros (i & -> & Hi%elem_of_seq). lia.
  - intros Hm. exists (N.to_nat m). rewrite elem_of_seq. lia.
Qed.

Lemma masks_NoDup k : NoDup (masks k).
Proof. apply NoDup_fmap_2; [intros ???; lia|apply NoDup_seq]. Qed.

Section Enumerate.
  Context (h : list HistoryEntry) (seed : list nat).
  Context (Hnd : NoDup seed).

Abbreviation n := (length seed).

(** The part of the mask is rejected. *)
Definition fails (m : N) : Prop := subset_unsat_why h (select seed m) ≠ None.

#[local] Instance fails_dec m : Decision (fails m).
Proof. unfold fails. apply _. Defined.

Definition minimal_mask (m : N) : Prop := fails m ∧ ∀ m', m' ∈ masks n → submask m' m → m' ≠ m → ¬ fails m'.

Lemma submask_count m' m : m' ∈ masks n → m ∈ masks n → submask m' m → m' ≠ m → (count_ones m' < count_ones m)%nat.
Proof.
  rewrite !masks_elem. intros Hm' Hm Hs Hne. rewrite <-!(select_length seed) by lia.
  apply (select_submask seed) in Hs as Hsub; [|done|lia|lia]. pose proof (sublist_length _ _ Hsub) as Hl.
  destruct (decide (length (select seed m') = length (select seed m))) as [E|]; [|lia]. exfalso. apply Hne.
  apply (select_inj seed); [done|lia|lia|by apply sublist_same_length].
Qed.

(** A rejected part has a minimal rejected part. *)
Lemma minimal_below m : m ∈ masks n → fails m → ∃ m', m' ∈ masks n ∧ submask m' m ∧ minimal_mask m'.
Proof.
  remember (count_ones m) as c eqn:Hc. revert m Hc. induction c as [c IH] using lt_wf_ind. intros m -> Hm Hf.
  destruct (decide (Exists (λ m', submask m' m ∧ m' ≠ m ∧ fails m') (masks n))) as [He|He].
  - apply Exists_exists in He as (m1 & Hm1 & Hs & Hne & Hf1).
    destruct (IH _ (submask_count m1 m Hm1 Hm Hs Hne) m1 eq_refl Hm1 Hf1) as (m' & ? & Hs' & ?).
    exists m'. split_and!; [done|by eapply submask_trans|done].
  - exists m. split_and!; [done|apply submask_refl|]. split; [done|]. intros m' Hm' Hs Hne Hf'.
    apply He, Exists_exists. by exists m'.
Qed.

(** The masks handled when those of size [size] up to [done] are. *)
Definition handled (size : nat) (fin : list N) (m : N) : Prop :=
  m ∈ masks n ∧ ((count_ones m < size)%nat ∨ (count_ones m = size ∧ m ∈ fin)).

Definition collected (size : nat) (fin acc : list N) : Prop :=
  ∀ m, m ∈ acc ↔ handled size fin m ∧ minimal_mask m.

Lemma mus_step_collected size fin acc m : m ∈ masks n → m ∉ fin →
  collected size fin acc → collected size (fin ++ [m]) (mus_step h seed size acc m).
Proof.
  intros Hm Hfin Hc. unfold mus_step.
  assert (∀ x, handled size (fin ++ [m]) x ↔ handled size fin x ∨ (x = m ∧ count_ones m = size)) as Hh.
  { intros x. unfold handled. rewrite elem_of_app, list_elem_of_singleton. naive_solver. }
  assert (∀ acc', (∀ x, x ∈ acc' ↔ x ∈ acc ∨ (x = m ∧ count_ones m = size ∧ minimal_mask m)) →
                  collected size (fin ++ [m]) acc') as Hgo.
  { intros acc' Ha x. rewrite Ha, Hh, (Hc x). naive_solver. }
  destruct (Nat.eqb_spec (count_ones m) size) as [E|E]; cbn [negb]; [|apply Hgo; naive_solver].
  destruct (existsb (λ mus, N.land m mus =? mus) acc) eqn:Ex.
  - apply Hgo. intros x. apply existsb_exists in Ex as (mus & Hmus%list_elem_of_In & Hs%N.eqb_eq).
    split; [by left|]. intros [?|(-> & _ & _ & Hmin)]; [done|]. exfalso.
    apply Hc in Hmus as [[Hin Hmus] [Hf _]]. apply (Hmin mus); [done|done| |done].
    intros ->. destruct Hmus as [?|[_ ?]]; [lia|done].
  - assert (minimal_mask m ↔ fails m) as Hmf.
    { split; [by intros [? _]|]. intros Hf. split; [done|]. intros m' Hm' Hs Hne Hf'.
      destruct (minimal_below m' Hm' Hf') as (m2 & Hm2 & Hs2 & Hmin).
      assert (m2 ∈ acc) as Hacc.
      { apply Hc. split; [|done]. split; [done|]. left. rewrite <-E.
        destruct (decide (m2 = m')) as [->|]; [by apply submask_count|].
        pose proof (submask_count m2 m' Hm2 Hm' Hs2 ltac:(done)). pose proof (submask_count m' m Hm' Hm Hs Hne). lia. }
      apply not_true_iff_false in Ex. apply Ex, existsb_exists. exists m2.
      split; [by apply list_elem_of_In|]. apply N.eqb_eq. by eapply submask_trans. }
    unfold fails in Hmf. destruct (subset_unsat_why h (select seed m)) as [why|]; apply Hgo; intros x.
    + rewrite elem_of_app, list_elem_of_singleton. naive_solver.
    + naive_solver.
Qed.

Lemma mus_row_collected size l fin acc : fin ++ l = masks n →
  collected size fin acc → collected size (masks n) (foldl (mus_step h seed size) acc l).
Proof.
  revert fin acc. induction l as [|m l IH]; intros fin acc Hl Hc; cbn [foldl]; [by rewrite app_nil_r in Hl; subst|].
  apply (IH (fin ++ [m])); [by rewrite <-app_assoc|]. apply mus_step_collected; [| |done].
  - rewrite <-Hl. apply elem_of_app. right. by left.
  - pose proof (masks_NoDup n) as Hn. rewrite <-Hl in Hn. apply NoDup_app in Hn as (_ & Hn & _).
    intros Hm. by apply (Hn m Hm); left.
Qed.

Lemma collected_next size acc : collected size (masks n) acc → collected (S size) [] acc.
Proof.
  intros Hc m. rewrite (Hc m). unfold handled. split.
  - intros ((Hm & Hs) & Hmin). split_and!; [done| |done]. left. lia.
  - intros ((Hm & [Hs|[_ Hs%not_elem_of_nil]]) & Hmin); [|done]. split; [|done]. split; [done|].
    destruct (decide (count_ones m = size)); [by right|left; lia].
Qed.

Lemma mus_masks_elem m : m ∈ mus_masks h seed ↔ m ∈ masks n ∧ minimal_mask m.
Proof.
  assert (∀ k s acc, collected s [] acc →
    collected (s + k) [] (foldl (λ acc size, foldl (mus_step h seed size) acc (masks n)) acc (seq s k))) as Hrow.
  { induction k as [|k IH]; intros s acc Hc; cbn [seq foldl]; [by rewrite Nat.add_0_r|].
    rewrite <-Nat.add_succ_comm. apply IH, collected_next, (mus_row_collected s _ []); done. }
  assert (collected 1 [] []) as H1.
  { intros x. split; [by intros ?%not_elem_of_nil|]. intros ((Hx & Hc) & _). apply masks_elem in Hx.
    assert (count_ones x = 0)%nat by (destruct Hc as [?|[_ ?%not_elem_of_nil]]; [lia|done]).
    destruct x as [|p]; [lia|]. exfalso. cbn in *. clear -H. induction p; cbn in *; lia. }
  specialize (Hrow n 1%nat [] H1). unfold mus_masks. rewrite (Hrow m). unfold handled.
  split; [naive_solver|]. intros [Hm Hmin]. split; [|done]. split; [done|]. left.
  rewrite <-(select_length seed) by (apply masks_elem in Hm; lia).
  pose proof (sublist_length _ _ (select_sublist seed m)). lia.
Qed.
End Enumerate.

Lemma insert_mus_perm x l : insert_mus x l ≡ₚ x :: l.
Proof.
  induction l as [|y l IH]; cbn; [done|]. destruct (mus_cmp x y); [done..|]. rewrite IH. apply Permutation_swap.
Qed.

Lemma sort_mus_perm l : sort_mus l ≡ₚ l.
Proof. induction l as [|x l IH]; cbn; [done|]. by rewrite insert_mus_perm, IH. Qed.

(** A part of a history, given by its indices, is rejected. *)
Definition rejected (h : list HistoryEntry) (keep : list nat) : Prop := check_part h keep ≠ Ok tt.

(** [keep] is a rejected part of [seed] of which every smaller part is accepted. *)
Definition minimal_part (h : list HistoryEntry) (seed keep : list nat) : Prop :=
  keep `sublist_of` seed ∧ rejected h keep ∧ ∀ k, k `sublist_of` keep → k ≠ keep → ¬ rejected h k.

Lemma fails_rejected h seed m : (length seed ≤ WGL_MAX_OPS)%nat → fails h seed m ↔ rejected h (select seed m).
Proof.
  intros Hl. unfold fails, rejected, subset_unsat_why.
  pose proof (sublist_length _ _ (select_sublist seed m)).
  rewrite (proj2 (Nat.ltb_ge WGL_MAX_OPS (length (select seed m)))) by lia. rewrite orb_false_r.
  case_bool_decide as E; [rewrite E; split; [done|intros Hc; by destruct Hc]|].
  destruct (check_part h (select seed m)) as [[]|e]; naive_solver.
Qed.

Lemma minimal_mask_part h seed m : NoDup seed → (length seed ≤ WGL_MAX_OPS)%nat → m ∈ masks (length seed) →
  minimal_mask h seed m ↔ minimal_part h seed (select seed m).
Proof.
  intros Hn Hl Hm. apply masks_elem in Hm. unfold minimal_mask, minimal_part. rewrite fails_rejected by done. split.
  - intros [Hf Hmin]. split_and!; [apply select_sublist|done|]. intros k Hk Hne Hr.
    destruct (sublist_select k seed) as (m' & Hm' & <-); [by etrans; [|apply select_sublist]|].
    apply (Hmin m'); [| |by intros ->|by apply fails_rejected].
    + apply masks_elem. split; [|done]. destruct (decide (m' = 0)) as [->|]; [|lia]. exfalso. apply Hr.
      replace (select seed 0) with ([] : list nat); [done|].
      symmetry. apply length_zero_iff_nil. rewrite select_length; [done|lia].
    + by apply (select_submask seed); [|done|lia|].
  - intros (_ & Hr & Hmin). split; [done|]. intros m' Hm' Hs Hne Hf'%fails_rejected; [|done].
    apply masks_elem in Hm'. apply (Hmin (select seed m')); [by apply select_submask; [|lia|lia|]| |done].
    intros E. apply Hne. apply (select_inj seed); [done|lia|lia|done].
Qed.

Lemma minimal_part_mask h seed keep : minimal_part h seed keep →
  ∃ m, m ∈ masks (length seed) ∧ select seed m = keep.
Proof.
  intros (Hs & Hr & _). destruct (sublist_select keep seed Hs) as (m & Hm & <-). exists m. split; [|done].
  apply masks_elem. split; [|done]. destruct (decide (m = 0)) as [->|]; [|lia]. exfalso. apply Hr.
  replace (select seed 0) with ([] : list nat); [done|].
  symmetry. apply length_zero_iff_nil. rewrite select_length; [done|]. pose proof (N.pow_nonzero 2 (N.of_nat (length seed))). lia.
Qed.

Lemma enumerate_exact h seed cap keep : NoDup seed → seed ≠ [] → (length seed ≤ cap)%nat → (length seed ≤ WGL_MAX_OPS)%nat →
  keep ∈ original_indices <$> enumerate_mus_in h seed cap ↔ rejected h seed ∧ minimal_part h seed keep.
Proof.
  intros Hn Hne Hc Hl. unfold enumerate_mus_in.
  destruct (Nat.eqb_spec (length seed) 0) as [E|_]; [by apply length_zero_iff_nil in E|].
  rewrite (proj2 (Nat.ltb_ge cap _)), (proj2 (Nat.ltb_ge WGL_MAX_OPS _)) by done. cbn [orb].
  assert (subset_unsat_why h seed ≠ None ↔ rejected h seed) as Hseed.
  { destruct (sublist_select seed seed) as (m & _ & Hm); [done|]. rewrite <-Hm. by apply fails_rejected. }
  destruct (subset_unsat_why h seed) as [why|]; [|split; [by intros ?%not_elem_of_nil|naive_solver]].
  rewrite <-list_fmap_compose, list_elem_of_fmap. split.
  - intros (m & -> & Hm). apply mus_masks_elem in Hm as [Hm Hmin]; [|done]. cbn.
    split; [naive_solver|]. by apply minimal_mask_part.
  - intros [_ Hp]. destruct (minimal_part_mask h seed keep Hp) as (m & Hm & <-). exists m. split; [done|].
    apply mus_masks_elem; [done|]. split; [done|]. by apply minimal_mask_part.
Qed.

(** The enumeration returns, for a rejected history within its bound, exactly the parts
    that are rejected while every smaller part of them is accepted; for an accepted history
    nothing. *)
Theorem linear_mus_exact c cap keep :
  let h := history c in
  let all := seq 0 (length h) in
  h ≠ [] → (length h ≤ cap)%nat → (length h ≤ WGL_MAX_OPS)%nat →
  keep ∈ original_indices <$> minimal_unsatisfiable_subsets c cap ↔ rejected h all ∧ minimal_part h all keep.
Proof.
  intros h all Hne Hc Hl. unfold minimal_unsatisfiable_subsets. fold h.
  destruct (Nat.eqb_spec (Nat.min cap WGL_MAX_OPS) 0) as [E|_].
  { destruct h; [done|]. cbn in *. lia. }
  destruct (Nat.eqb_spec (length h) 0) as [E|_]; [by apply length_zero_iff_nil in E|]. cbn [orb].
  rewrite (proj2 (Nat.leb_le _ _)) by lia. rewrite sort_mus_perm. apply enumerate_exact.
  - apply NoDup_seq.
  - intros E%(f_equal length). unfold all in E. rewrite length_seq in E. by apply length_zero_iff_nil in E.
  - unfold all. rewrite length_seq. lia.
  - unfold all. by rewrite length_seq.
Qed.

Lemma linear_mus_exact_witness :
  let c := from_entries [mkHistoryEntry 0 1 None (OpPut [107] [1]) ResOk; mkHistoryEntry 2 3 None (OpGet [107]) (ResValue None)] in
  [0; 1]%nat ∈ original_indices <$> minimal_unsatisfiable_subsets c 14 ↔
  rejected (history c) [0; 1]%nat ∧ minimal_part (history c) [0; 1]%nat [0; 1]%nat.
Proof. intros c. apply (linear_mus_exact c 14 [0; 1]%nat); [done|cbn; lia|cbn; unfold WGL_MAX_OPS; lia]. Defined.
