(* ===== verification/Ranges.v ===== *)
(** The range table, [StaticRangeTable] of [kaya-raft/src/multi_raft.rs]: which Raft group
    owns which interval of keys, with splits, merges and moves, and its binary snapshot. *)
From S2P Require Import Prelude Bytes Core OrdMap Path.

Open Scope N_scope.

(** ** Ranges *)

(** Keys from [sr_start] to below [sr_end]; an empty [sr_end] is no bound. *)
Record StaticRange := mkRange {
  sr_start : bytes;
  sr_end : bytes;
  sr_group : N;
  sr_id : N;
  sr_epoch : N
}.

#[export] Instance StaticRange_eq_dec : EqDecision StaticRange.
Proof. solve_decision. Defined.

Definition StaticRange_new (start_key end_key : bytes) (group : N) : StaticRange := mkRange start_key end_key group 0 0.

Definition contains (r : StaticRange) (key : bytes) : bool :=
  if blt key (sr_start r) then false else bool_decide (sr_end r = []) || blt key (sr_end r).

Record StaticRangeTable := mkTable {
  ranges : list StaticRange;
  meta_epoch : N;
  next_range_id : N;
  next_group_id : N
}.

Definition table_new : StaticRangeTable := mkTable [] 0 1 1.

(** [sort_by] on the start key; the sort is stable. *)
Fixpoint insert_range (r : StaticRange) (l : list StaticRange) : list StaticRange :=
  match l with
  | [] => [r]
  | x :: l => if ble (sr_start r) (sr_start x) then r :: x :: l else x :: insert_range r l
  end.

Definition sort_ranges (l : list StaticRange) : list StaticRange := foldr insert_range [] l.

(** The loop over the sorted ranges: identifiers and epochs for those left at zero. *)
Fixpoint number_ranges (next max_group : N) (l : list StaticRange) : list StaticRange * N * N :=
  match l with
  | [] => ([], next, max_group)
  | r :: l =>
      let '(rid, next) := if sr_id r =? 0 then (next, wrap u64_lim (next + 1))
                          else (sr_id r, N.max next (wrap u64_lim (sr_id r + 1))) in
      let r := mkRange (sr_start r) (sr_end r) (sr_group r) rid (if sr_epoch r =? 0 then 1 else sr_epoch r) in
      let '(l, next, max_group) := number_ranges next (N.max max_group (sr_group r)) l in
      (r :: l, next, max_group)
  end.

Definition from_ranges (l : list StaticRange) : StaticRangeTable :=
  let '(l, next, max_group) := number_ranges 1 0 (sort_ranges l) in
  mkTable l 1 next (N.max (sat_add u64_max max_group 1) 1).

Definition single_group (group : N) : StaticRangeTable :=
  let t := from_ranges [mkRange [] [] group 1 1] in
  mkTable (ranges t) (meta_epoch t) 2 (N.max (sat_add u64_max group 1) 1).

Definition lookup_range (t : StaticRangeTable) (key : bytes) : option StaticRange :=
  snd <$> list_find (λ r, contains r key = true) (ranges t).

Definition range_lookup (t : StaticRangeTable) (key : bytes) : option N := sr_group <$> lookup_range t key.

(** [Iter::position]. *)
Definition position {A} (f : A → bool) (l : list A) : option nat := fst <$> list_find (λ x, f x = true) l.

(** [Vec::insert] at an index within the vector. *)
Definition insert_at {A} (i : nat) (x : A) (l : list A) : list A := take i l ++ x :: drop i l.

(** ** Operations *)

Definition split_at (split_key : bytes) (t : StaticRangeTable)
    : result string (StaticRange * StaticRange * N * StaticRangeTable) :=
  if bool_decide (split_key = []) then Err "split_key must be non-empty"
  else
    idx ← ok_or "split_key is not covered by any range" (position (λ r, contains r split_key) (ranges t));
    old ← ok_or "" (ranges t !! idx);
    if bool_decide (split_key = sr_start old) then Err "split_key must be strictly greater than range start"
    else if negb (bool_decide (sr_end old = [])) && ble (sr_end old) split_key then
      Err "split_key must be strictly less than range end"
    else
      let new_group := next_group_id t in
      let left := mkRange (sr_start old) split_key (sr_group old) (sr_id old) (sat_add u64_max (sr_epoch old) 1) in
      let right := mkRange split_key (sr_end old) new_group (next_range_id t) 1 in
      Ok (left, right, new_group,
          mkTable (insert_at (S idx) right (<[idx := left]> (ranges t))) (sat_add u64_max (meta_epoch t) 1)
            (sat_add u64_max (next_range_id t) 1) (sat_add u64_max (next_group_id t) 1)).

Definition merge_with_next (left_start : bytes) (t : StaticRangeTable) : result string (StaticRange * StaticRangeTable) :=
  idx ← ok_or "no range with the given left_start" (position (λ r, bool_decide (sr_start r = left_start)) (ranges t));
  if (length (ranges t) <=? idx + 1)%nat then Err "left range has no right neighbor to merge"
  else
    left ← ok_or "" (ranges t !! idx);
    right ← ok_or "" (ranges t !! (idx + 1)%nat);
    if negb (bool_decide (sr_end left = sr_start right)) then Err "left and right ranges are not adjacent"
    else
      let merged := mkRange (sr_start left) (sr_end right) (sr_group left) (sr_id left)
                      (sat_add u64_max (N.max (sr_epoch left) (sr_epoch right)) 1) in
      Ok (merged, mkTable (delete (idx + 1)%nat (<[idx := merged]> (ranges t))) (sat_add u64_max (meta_epoch t) 1)
                    (next_range_id t) (next_group_id t)).

Definition move_range (range_start : bytes) (target_group : N) (t : StaticRangeTable)
    : result string (StaticRange * StaticRangeTable) :=
  idx ← ok_or "no range with the given start_key" (position (λ r, bool_decide (sr_start r = range_start)) (ranges t));
  old ← ok_or "" (ranges t !! idx);
  if sr_group old =? target_group then Err "range already owned by the target group"
  else
    let moved := mkRange (sr_start old) (sr_end old) target_group (sr_id old) (sat_add u64_max (sr_epoch old) 1) in
    Ok (moved, mkTable (<[idx := moved]> (ranges t)) (sat_add u64_max (meta_epoch t) 1) (next_range_id t)
                 (N.max (next_group_id t) (sat_add u64_max target_group 1))).

Definition peek_next_group_id (t : StaticRangeTable) : N := next_group_id t.

(** [sort] and [dedup] of the groups. *)
Definition table_group_ids (t : StaticRangeTable) : list N :=
  (foldr (λ r m, om_insert (sr_group r) tt m) [] (ranges t)).*1.

(** ** The binary snapshot *)

Definition encode_range (r : StaticRange) : bytes :=
  le_bytes 8 (sr_id r) ++ le_bytes 8 (sr_epoch r) ++ le_bytes 8 (sr_group r) ++
  le_bytes 4 (lenN (sr_start r)) ++ sr_start r ++ le_bytes 4 (lenN (sr_end r)) ++ sr_end r.

Definition table_encode (t : StaticRangeTable) : bytes :=
  [1] ++ le_bytes 8 (meta_epoch t) ++ le_bytes 8 (next_range_id t) ++ le_bytes 8 (next_group_id t) ++
  le_bytes 4 (lenN (ranges t)) ++ (ranges t ≫= encode_range).

Definition truncated (label : string) : string := "truncated range table (" +:+ label +:+ ")".

Definition rt_u64 (label : string) : parser string N := p_le (truncated label) 8.
Definition rt_u32 (label : string) : parser string N := p_le (truncated label) 4.

Definition rt_take (label : string) (len : N) : parser string bytes := λ cur,
  if lenN cur <? len
  then Err (truncated label +:+ ": need " +:+ pretty len +:+ ", have " +:+ pretty (lenN cur))
  else Ok (take (N.to_nat len) cur, drop (N.to_nat len) cur).

Definition rt_bytes (label : string) : parser string bytes := len ← rt_u32 label; rt_take label len.

Definition decode_range : parser string StaticRange :=
  range_id ← rt_u64 "range_id";
  epoch ← rt_u64 "epoch";
  group ← rt_u64 "group_id";
  start_key ← rt_bytes "start_key";
  end_key ← rt_bytes "end_key";
  mret (mkRange start_key end_key group range_id epoch).

Definition decode_fields : parser string StaticRangeTable :=
  epoch ← rt_u64 "meta_epoch";
  rid ← rt_u64 "next_range_id";
  gid ← rt_u64 "next_group_id";
  count ← rt_u32 "range count";
  rs ← prepeat (N.to_nat count) decode_range;
  mret (mkTable rs epoch rid gid).

Definition table_decode (data : bytes) : result string StaticRangeTable :=
  match data with
  | [] => Err "empty range table snapshot"
  | version :: cur =>
      if negb (version =? 1) then Err ("unsupported range table version: " +:+ pretty version)
      else
        x ← decode_fields cur;
        let '(t, rest) := x in
        if bool_decide (rest = []) then Ok t
        else Err ("trailing " +:+ pretty (lenN rest) +:+ " bytes after range table snapshot")
  end.
