(* ===== verification/RangesProps.v ===== *)
(** The range table partitions the keys: whatever splits, merges and moves happen, every
    key has exactly one range, and each operation reroutes just the keys it should; the
    binary snapshot restores the table. *)
From S2P Require Import Prelude Bytes Core OrdMap Path Ranges.

Open Scope N_scope.

(** ** Order facts *)

Lemma blt_true a b : blt a b = true ↔ bcmp a b = Lt.
Proof. unfold blt. by destruct (bcmp a b). Qed.

Lemma blt_false a b : blt a b = false ↔ bcmp a b ≠ Lt.
Proof. unfold blt. by destruct (bcmp a b). Qed.

Lemma ble_true a b : ble a b = true ↔ bcmp b a ≠ Lt.
Proof. unfold ble. rewrite (bcmp_antisym a b). by destruct (bcmp a b). Qed.

Lemma ble_false a b : ble a b = false ↔ bcmp b a = Lt.
Proof. unfold ble. rewrite (bcmp_antisym a b). by destruct (bcmp a b). Qed.

Lemma le_lt_trans a b c : bcmp b a ≠ Lt → bcmp b c = Lt → bcmp a c = Lt.
Proof.
  intros Hab Hbc. destruct (bcmp a b) eqn:E.
  - by apply bcmp_eq in E as ->.
  - by eapply bcmp_trans_lt.
  - rewrite bcmp_antisym, E in Hab. done.
Qed.

Lemma lt_le_trans a b c : bcmp a b = Lt → bcmp c b ≠ Lt → bcmp a c = Lt.
Proof.
  intros Hab Hbc. destruct (bcmp b c) eqn:E.
  - by apply bcmp_eq in E as ->.
  - by eapply bcmp_trans_lt.
  - rewrite bcmp_antisym, E in Hbc. done.
Qed.

Lemma lt_asym a b : bcmp a b = Lt → bcmp b a ≠ Lt.
Proof. intros Hab. rewrite bcmp_antisym, Hab. done. Qed.

Lemma nil_le a : bcmp a [] ≠ Lt.
Proof. by destruct a. Qed.

Lemma lt_not_nil a b : bcmp a b = Lt → b ≠ [].
Proof. intros Hab ->. by apply nil_le in Hab. Qed.

Lemma contains_spec r key :
  contains r key = true ↔ bcmp key (sr_start r) ≠ Lt ∧ (sr_end r = [] ∨ bcmp key (sr_end r) = Lt).
Proof.
  unfold contains. destruct (blt key (sr_start r)) eqn:E.
  - apply blt_true in E. naive_solver.
  - apply blt_false in E. rewrite orb_true_iff, bool_decide_eq_true, blt_true. tauto.
Qed.

(** ** Chains of ranges *)

(** The ranges follow each other without gap from [s] to the end of the keys. *)
Fixpoint chain (s : bytes) (l : list StaticRange) : Prop :=
  match l with
  | [] => False
  | r :: l => sr_start r = s ∧ (if l is [] then sr_end r = [] else bcmp s (sr_end r) = Lt ∧ chain (sr_end r) l)
  end.

(** The ranges follow each other from [s] to [e]. *)
Fixpoint segment (s : bytes) (l : list StaticRange) (e : bytes) : Prop :=
  match l with
  | [] => s = e
  | r :: l => sr_start r = s ∧ bcmp s (sr_end r) = Lt ∧ segment (sr_end r) l e
  end.

Lemma range_chain_app s l1 r l2 : chain s (l1 ++ r :: l2) ↔ segment s l1 (sr_start r) ∧ chain (sr_start r) (r :: l2).
Proof.
  revert s. induction l1 as [|x l1 IH]; intros s; cbn [app segment].
  - cbn [chain]. split; [intros [-> ?]; auto|]. intros [-> [_ ?]]. auto.
  - specialize (IH (sr_end x)). destruct (l1 ++ r :: l2) as [|y l] eqn:E; [by destruct l1|].
    cbn [chain] in *. tauto.
Qed.

Lemma chain_from s l r : chain s l → r ∈ l → bcmp (sr_start r) s ≠ Lt.
Proof.
  revert s. induction l as [|x l IH]; intros s Hc; [done|].
  intros [->|Hr]%elem_of_cons; destruct Hc as [<- Hc]; [by rewrite bcmp_refl|].
  destruct l as [|y l]; [by apply not_elem_of_nil in Hr|]. destruct Hc as [Hlt Hc].
  specialize (IH _ Hc Hr). intros Hbad. apply IH. eapply bcmp_trans_lt; eauto.
Qed.

Lemma chain_unique s l key r1 r2 :
  chain s l → r1 ∈ l → r2 ∈ l → contains r1 key = true → contains r2 key = true → r1 = r2.
Proof.
  revert s. induction l as [|x l IH]; intros s Hc H1 H2 C1 C2; [by apply not_elem_of_nil in H1|].
  destruct Hc as [Hs Hc]. destruct l as [|y l].
  { apply list_elem_of_singleton in H1, H2. congruence. }
  destruct Hc as [Hlt Hc].
  assert (∀ r, r ∈ y :: l → contains r key = true → contains x key = true → False) as Hno.
  { intros r Hr [Hk _]%contains_spec [_ [He|He]]%contains_spec; [by apply lt_not_nil in Hlt|].
    apply (chain_from _ _ _ Hc) in Hr. apply Hk. eapply lt_le_trans; eauto. }
  apply elem_of_cons in H1 as [->|H1], H2 as [->|H2]; [done|by destruct (Hno r2)|by destruct (Hno r1)|eauto].
Qed.

Lemma chain_covers s l key : chain s l → bcmp key s ≠ Lt → ∃ r, r ∈ l ∧ contains r key = true.
Proof.
  revert s. induction l as [|x l IH]; intros s Hc Hk; [done|]. destruct Hc as [<- Hc].
  destruct (contains x key) eqn:E; [exists x; split; [by left|done]|].
  assert (¬ (sr_end x = [] ∨ bcmp key (sr_end x) = Lt)) as Hn.
  { intros Hx. apply not_true_iff_false in E. apply E, contains_spec. done. }
  destruct l as [|y l]; [tauto|]. destruct Hc as [Hlt Hc].
  destruct (IH _ Hc) as (r & Hr & Hcr); [naive_solver|]. exists r. split; [by right|done].
Qed.

(** ** Tables *)

Record table_ok (t : StaticRangeTable) : Prop := {
  ok_chain : chain [] (ranges t);
  ok_ids : NoDup (sr_id <$> ranges t);
  ok_next : Forall (λ r, sr_id r < next_range_id t) (ranges t);
  ok_groups : next_group_id t = u64_max ∨ Forall (λ r, sr_group r < next_group_id t) (ranges t)
}.

Lemma lookup_range_in t key r : chain [] (ranges t) → r ∈ ranges t → contains r key = true → lookup_range t key = Some r.
Proof.
  intros Hc Hr Hk. unfold lookup_range. destruct (list_find _ _) as [[i x]|] eqn:E; cbn.
  - apply list_find_Some in E as (Hx & Hxk & _). f_equal.
    eapply chain_unique; [exact Hc|by eapply list_elem_of_lookup_2|done..].
  - apply list_find_None in E. rewrite Forall_forall in E. by destruct (E r).
Qed.

Lemma lookup_range_spec t key r : chain [] (ranges t) →
  lookup_range t key = Some r ↔ r ∈ ranges t ∧ contains r key = true.
Proof.
  intros Hc. split; [|intros [? ?]; by apply lookup_range_in]. unfold lookup_range.
  intros ([i x] & (Hx & Hk & _)%list_find_Some & ->)%fmap_Some. cbn.
  split; [by eapply list_elem_of_lookup_2|done].
Qed.

Lemma lookup_range_total t key : chain [] (ranges t) → ∃ r, lookup_range t key = Some r ∧ r ∈ ranges t ∧ contains r key = true.
Proof.
  intros Hc. destruct (chain_covers _ _ key Hc (nil_le key)) as (r & Hr & Hk). exists r. by rewrite lookup_range_spec.
Qed.

Lemma position_Some {A} (f : A → bool) l i : position f l = Some i → ∃ l1 x l2, l = l1 ++ x :: l2 ∧ length l1 = i ∧ f x = true.
Proof.
  unfold position. intros ([j x] & (Hx & Hf & _)%list_find_Some & ->)%fmap_Some. cbn.
  exists (take j l), x, (drop (S j) l). split_and!; [by rewrite take_drop_middle| |done].
  apply length_take_le. apply lookup_lt_Some in Hx. lia.
Qed.

(** What an operation does to the list of ranges. *)
Lemma insert_middle {A} (l1 l2 : list A) x y : <[length l1 := y]> (l1 ++ x :: l2) = l1 ++ y :: l2.
Proof. rewrite insert_app_r_alt by lia. by rewrite Nat.sub_diag. Qed.

Lemma insert_at_middle {A} (l1 l2 : list A) x y : insert_at (S (length l1)) y (l1 ++ x :: l2) = l1 ++ x :: y :: l2.
Proof.
  unfold insert_at. replace (l1 ++ x :: l2) with ((l1 ++ [x]) ++ l2) by (by rewrite <-app_assoc).
  assert (length (l1 ++ [x]) = S (length l1)) as Hl by (rewrite length_app; cbn; lia).
  rewrite <-Hl, take_app_length, drop_app_length. by rewrite <-app_assoc.
Qed.

Lemma delete_second {A} (l1 l2 : list A) x y : delete (length l1 + 1)%nat (l1 ++ x :: y :: l2) = l1 ++ x :: l2.
Proof.
  replace (l1 ++ x :: y :: l2) with ((l1 ++ [x]) ++ y :: l2) by (by rewrite <-app_assoc).
  replace (length l1 + 1)%nat with (length (l1 ++ [x])) by (rewrite length_app; cbn; lia).
  by rewrite delete_middle, <-app_assoc.
Qed.

(** ** Operations *)

Lemma lookup_middle {A} (l1 l2 : list A) x : (l1 ++ x :: l2) !! length l1 = Some x.
Proof. by rewrite lookup_app_r, Nat.sub_diag by lia. Qed.

Lemma split_shape k t left right g t' : split_at k t = Ok (left, right, g, t') →
  ∃ l1 old l2, ranges t = l1 ++ old :: l2 ∧ contains old k = true ∧ k ≠ sr_start old ∧
    left = mkRange (sr_start old) k (sr_group old) (sr_id old) (sat_add u64_max (sr_epoch old) 1) ∧
    right = mkRange k (sr_end old) (next_group_id t) (next_range_id t) 1 ∧ g = next_group_id t ∧
    t' = mkTable (l1 ++ left :: right :: l2) (sat_add u64_max (meta_epoch t) 1)
           (sat_add u64_max (next_range_id t) 1) (sat_add u64_max (next_group_id t) 1).
Proof.
  unfold split_at. case_bool_decide as Hk; [done|].
  destruct (position _ (ranges t)) as [idx|] eqn:Ep; [|done]. cbn [ok_or mbind result_bind].
  apply position_Some in Ep as (l1 & old & l2 & Hl & <- & Hc). rewrite Hl, lookup_middle. cbn [ok_or mbind result_bind].
  case_bool_decide as Hs; [done|]. destruct (_ && _); [done|].
  intros [= <- <- <- <-]. exists l1, old, l2. rewrite insert_middle, insert_at_middle. done.
Qed.

Lemma merge_shape k t merged t' : merge_with_next k t = Ok (merged, t') →
  ∃ l1 left right l2, ranges t = l1 ++ left :: right :: l2 ∧ sr_start left = k ∧ sr_end left = sr_start right ∧
    merged = mkRange k (sr_end right) (sr_group left) (sr_id left)
               (sat_add u64_max (N.max (sr_epoch left) (sr_epoch right)) 1) ∧
    t' = mkTable (l1 ++ merged :: l2) (sat_add u64_max (meta_epoch t) 1) (next_range_id t) (next_group_id t).
Proof.
  unfold merge_with_next. destruct (position _ (ranges t)) as [idx|] eqn:Ep; [|done]. cbn [ok_or mbind result_bind].
  apply position_Some in Ep as (l1 & left & l2 & Hl & <- & Hs%bool_decide_eq_true).
  destruct (Nat.leb_spec (length (ranges t)) (length l1 + 1)) as [|Hlen]; [done|]. rewrite Hl in *.
  rewrite lookup_middle. cbn [ok_or mbind result_bind]. rewrite length_app in Hlen.
  destruct l2 as [|right l2]; [cbn in Hlen; lia|].
  replace ((l1 ++ left :: right :: l2) !! (length l1 + 1)%nat) with (Some right)
    by (by rewrite lookup_app_r, Nat.add_sub_swap, Nat.sub_diag by lia).
  cbn [ok_or mbind result_bind]. case_bool_decide as Ha; cbn [negb]; [|done].
  intros [= <- <-]. exists l1, left, right, l2. rewrite insert_middle, delete_second. by rewrite Hs.
Qed.

Lemma move_shape k g t moved t' : move_range k g t = Ok (moved, t') →
  ∃ l1 old l2, ranges t = l1 ++ old :: l2 ∧ sr_start old = k ∧ sr_group old ≠ g ∧
    moved = mkRange k (sr_end old) g (sr_id old) (sat_add u64_max (sr_epoch old) 1) ∧
    t' = mkTable (l1 ++ moved :: l2) (sat_add u64_max (meta_epoch t) 1) (next_range_id t)
           (N.max (next_group_id t) (sat_add u64_max g 1)).
Proof.
  unfold move_range. destruct (position _ (ranges t)) as [idx|] eqn:Ep; [|done]. cbn [ok_or mbind result_bind].
  apply position_Some in Ep as (l1 & old & l2 & Hl & <- & Hs%bool_decide_eq_true). rewrite Hl, lookup_middle.
  cbn [ok_or mbind result_bind]. destruct (N.eqb_spec (sr_group old) g); [done|].
  intros [= <- <-]. exists l1, old, l2. rewrite insert_middle. by rewrite Hs.
Qed.

Inductive range_op : Type := Split (key : bytes) | Merge (left_start : bytes) | Move (range_start : bytes) (target : N).

Definition apply_op (op : range_op) (t : StaticRangeTable) : result string StaticRangeTable :=
  match op with
  | Split k => snd <$> split_at k t
  | Merge k => snd <$> merge_with_next k t
  | Move k g => snd <$> move_range k g t
  end.

(** The counters have room for another split. *)
Definition has_room (t : StaticRangeTable) : Prop := next_range_id t < u64_max ∧ next_group_id t < u64_max.

(** ** The invariant *)

Lemma chain_replace s l1 r r' l2 : chain s (l1 ++ r :: l2) → sr_start r' = sr_start r → sr_end r' = sr_end r →
  chain s (l1 ++ r' :: l2).
Proof. rewrite !range_chain_app. cbn [chain]. intros Hc -> ->. done. Qed.

Lemma split_chain s l1 old l2 left right :
  chain s (l1 ++ old :: l2) → contains old (sr_start right) = true → sr_start right ≠ sr_start old →
  sr_start left = sr_start old → sr_end left = sr_start right → sr_end right = sr_end old →
  chain s (l1 ++ left :: right :: l2).
Proof.
  rewrite !range_chain_app. intros [Hseg [_ Hc]] [Hk He]%contains_spec Hne Hl Hm Hr. rewrite Hl.
  split; [done|]. cbn [chain]. rewrite Hl, Hm, Hr. split; [done|]. split.
  - rewrite bcmp_antisym. destruct (bcmp (sr_start right) (sr_start old)) eqn:E; [by apply bcmp_eq in E|done|done].
  - split; [done|]. destruct l2 as [|x l2]; [done|]. destruct Hc as [Hlt Hc]. split; [|done].
    destruct He as [He|He]; [|done]. rewrite He in Hlt. by apply nil_le in Hlt.
Qed.

Lemma merge_chain s l1 left right l2 merged :
  chain s (l1 ++ left :: right :: l2) → sr_start merged = sr_start left → sr_end merged = sr_end right →
  chain s (l1 ++ merged :: l2).
Proof.
  rewrite !range_chain_app. intros [Hseg (_ & Hlt & Hs & Hc)] Hst He. rewrite Hst. split; [done|]. cbn [chain].
  rewrite Hst, He. split; [done|]. destruct l2 as [|x l2]; [done|]. destruct Hc as [Hlt2 Hc].
  split; [|done]. by eapply bcmp_trans_lt.
Qed.

Lemma sat_add_room x : x < u64_max → sat_add u64_max x 1 = x + 1.
Proof. unfold sat_add. lia. Qed.

Lemma Forall_lt_mono {A} (f : A → N) a b l : a <= b → Forall (λ r, f r < a) l → Forall (λ r, f r < b) l.
Proof. intros Hab Hf. eapply Forall_impl; [exact Hf|]. cbn. intros. lia. Qed.

Lemma split_ok k t left right g t' : table_ok t → has_room t → split_at k t = Ok (left, right, g, t') → table_ok t'.
Proof.
  intros [Hc Hi Hn Hg] [Hr1 Hr2] (l1 & old & l2 & Hl & Hk & Hne & -> & -> & _ & ->)%split_shape.
  destruct Hg as [Hg|Hg]; [lia|]. rewrite Hl in *. rewrite Forall_app, Forall_cons in Hn, Hg.
  destruct Hn as (Hn1 & Hn2 & Hn3), Hg as (Hg1 & Hg2 & Hg3). split; cbn [ranges next_range_id next_group_id].
  - by eapply split_chain.
  - rewrite fmap_app, !fmap_cons in *. cbn [sr_id].
    replace ((sr_id <$> l1) ++ sr_id old :: next_range_id t :: (sr_id <$> l2))
      with (((sr_id <$> l1) ++ [sr_id old]) ++ next_range_id t :: (sr_id <$> l2)) by (by rewrite <-app_assoc).
    rewrite <-Permutation_middle, <-app_assoc. cbn [app]. constructor; [|done].
    rewrite elem_of_app, elem_of_cons, !list_elem_of_fmap. rewrite Forall_forall in Hn1, Hn3.
    intros [(x & E & Hx%Hn1)|[E|(x & E & Hx%Hn3)]]; cbn in *; lia.
  - rewrite sat_add_room by done. rewrite Forall_app, !Forall_cons. cbn [sr_id].
    split_and!; [by eapply Forall_lt_mono; [|exact Hn1]; lia|lia|lia|by eapply Forall_lt_mono; [|exact Hn3]; lia].
  - right. rewrite sat_add_room by done. rewrite Forall_app, !Forall_cons. cbn [sr_group].
    split_and!; [by eapply Forall_lt_mono; [|exact Hg1]; lia|lia|lia|by eapply Forall_lt_mono; [|exact Hg3]; lia].
Qed.

Lemma merge_ok k t merged t' : table_ok t → merge_with_next k t = Ok (merged, t') → table_ok t'.
Proof.
  intros [Hc Hi Hn Hg] (l1 & left & right & l2 & Hl & <- & _ & -> & ->)%merge_shape. rewrite Hl in *.
  rewrite Forall_app, !Forall_cons in Hn. destruct Hn as (Hn1 & Hn2 & _ & Hn3).
  split; cbn [ranges next_range_id next_group_id].
  - by eapply merge_chain.
  - rewrite fmap_app, !fmap_cons in *. cbn [sr_id]. eapply sublist_NoDup; [exact Hi|].
    apply sublist_app; [done|]. by apply sublist_skip, sublist_cons.
  - by rewrite Forall_app, Forall_cons.
  - destruct Hg as [?|Hg]; [by left|right]. rewrite Forall_app, !Forall_cons in Hg.
    rewrite Forall_app, Forall_cons. cbn [sr_group]. tauto.
Qed.

Lemma move_ok k g t moved t' : table_ok t → g <= u64_max → move_range k g t = Ok (moved, t') → table_ok t'.
Proof.
  intros [Hc Hi Hn Hg] Hgl (l1 & old & l2 & Hl & <- & _ & -> & ->)%move_shape. rewrite Hl in *.
  rewrite Forall_app, !Forall_cons in Hn. destruct Hn as (Hn1 & Hn2 & Hn3).
  split; cbn [ranges next_range_id next_group_id].
  - by eapply chain_replace.
  - by rewrite fmap_app, !fmap_cons in *.
  - by rewrite Forall_app, Forall_cons.
  - unfold sat_add. destruct Hg as [Hg|Hg]; [left; lia|].
    destruct (decide (g = u64_max)) as [->|]; [destruct (decide (next_group_id t <= u64_max)); [left; lia|right]|right].
    all: rewrite Forall_app, !Forall_cons in Hg; destruct Hg as (Hg1 & Hg2 & Hg3);
      rewrite Forall_app, Forall_cons; cbn [sr_group]; split_and!; [by eapply Forall_lt_mono; [|exact Hg1]; lia|lia|by eapply Forall_lt_mono; [|exact Hg3]; lia].
Qed.

(** Operations whose counters and target are within range. *)
Definition op_ok (op : range_op) (t : StaticRangeTable) : Prop :=
  match op with Split _ => has_room t | Merge _ => True | Move _ g => g <= u64_max end.

Lemma apply_op_ok op t t' : table_ok t → op_ok op t → apply_op op t = Ok t' → table_ok t'.
Proof.
  intros Ht Hop. destruct op as [k|k|k g]; cbn [apply_op op_ok] in *.
  - destruct (split_at k t) as [[[[left right] g] t1]|] eqn:E; [|done]. intros [= <-]. by eapply split_ok.
  - destruct (merge_with_next k t) as [[r t1]|] eqn:E; [|done]. intros [= <-]. by eapply merge_ok.
  - destruct (move_range k g t) as [[r t1]|] eqn:E; [|done]. intros [= <-]. by eapply move_ok.
Qed.

Lemma single_group_ok g : g <= u64_max → table_ok (single_group g).
Proof.
  intros Hg. split; cbn [single_group ranges next_range_id next_group_id from_ranges].
  - done.
  - apply NoDup_singleton.
  - apply Forall_singleton. cbn. lia.
  - unfold sat_add. destruct (decide (g = u64_max)) as [->|]; [by left|right]. apply Forall_singleton. cbn. lia.
Qed.

(** Tables that operations lead to from a single group; those that fail change nothing. *)
Inductive table_reachable : StaticRangeTable → Prop :=
| reach_single g : g <= u64_max → table_reachable (single_group g)
| reach_op op t t' : table_reachable t → op_ok op t → apply_op op t = Ok t' → table_reachable t'.

Lemma reachable_ok t : table_reachable t → table_ok t.
Proof. induction 1; [by apply single_group_ok|by eapply apply_op_ok]. Qed.

(** C23: the ranges partition the keys: after any operations, every key is in exactly one
    range, which is the one the lookup finds, and no two ranges have the same identifier. *)
Theorem ranges_partition t key : table_reachable t →
  NoDup (sr_id <$> ranges t) ∧
  ∃ r, lookup_range t key = Some r ∧ range_lookup t key = Some (sr_group r) ∧
    ∀ r', r' ∈ ranges t ∧ contains r' key = true ↔ r' = r.
Proof.
  intros Ht%reachable_ok. split; [apply Ht|]. destruct (lookup_range_total t key (ok_chain t Ht)) as (r & Hr & Hin & Hk).
  exists r. unfold range_lookup. rewrite Hr. split_and!; [done|done|]. intros r'. split; [|by intros ->].
  intros [Hin' Hk']. eapply chain_unique; eauto using ok_chain.
Qed.

(** Two splits, a merge and a move. *)
Definition demo_ops : list range_op := [Split [109]; Split [112]; Merge [109]; Move [109] 9].
Definition demo_after (n : nat) : StaticRangeTable :=
  foldl (λ t op, match apply_op op t with Ok t' => t' | Err _ => t end) (single_group 3) (take n demo_ops).

Lemma demo_reachable : table_reachable (demo_after 4).
Proof.
  assert (∀ n op, table_reachable (demo_after n) → op_ok op (demo_after n) →
    apply_op op (demo_after n) = Ok (demo_after (S n)) → table_reachable (demo_after (S n))) as Hs by (intros; by eapply reach_op).
  apply (Hs 3%nat (Move [109] 9)); [|done|by vm_compute]. apply (Hs 2%nat (Merge [109])); [|done|by vm_compute].
  apply (Hs 1%nat (Split [112])); [|by vm_compute..]. apply (Hs 0%nat (Split [109])); [|by vm_compute..].
  by apply reach_single.
Qed.

Lemma ranges_partition_witness : length (ranges (demo_after 4)) = 2%nat ∧
  NoDup (sr_id <$> ranges (demo_after 4)) ∧
  ∃ r, lookup_range (demo_after 4) [120] = Some r ∧ range_lookup (demo_after 4) [120] = Some (sr_group r) ∧
    ∀ r', r' ∈ ranges (demo_after 4) ∧ contains r' [120] = true ↔ r' = r.
Proof. split; [by vm_compute|]. apply (ranges_partition (demo_after 4) [120] demo_reachable). Defined.

(** ** Routing *)

(** The group of a key after an operation, from the range [r] it had before. *)
Definition rerouted (op : range_op) (t : StaticRangeTable) (r : StaticRange) (key : bytes) : N :=
  match op with
  | Split k => if contains r k && ble k key then next_group_id t else sr_group r
  | Merge k => match lookup_range t k with
               | Some l => if bool_decide (sr_start r = sr_end l) then sr_group l else sr_group r
               | None => sr_group r
               end
  | Move k g => if bool_decide (sr_start r = k) then g else sr_group r
  end.

Lemma chain_start s l r1 r2 : chain s l → r1 ∈ l → r2 ∈ l → sr_start r1 = sr_start r2 → r1 = r2.
Proof.
  assert (∀ s l r, chain s l → r ∈ l → contains r (sr_start r) = true) as Hself.
  { clear. intros s l r Hc Hr. apply contains_spec. split; [by rewrite bcmp_refl|]. revert s Hc.
    induction l as [|x l IH]; intros s Hc; [by apply not_elem_of_nil in Hr|]. destruct Hc as [<- Hc].
    apply elem_of_cons in Hr as [->|Hr].
    - destruct l as [|y l]; [by left|right; tauto].
    - destruct l as [|y l]; [by apply not_elem_of_nil in Hr|]. destruct Hc as [_ Hc]. eauto. }
  intros Hc H1 H2 E. apply (chain_unique s l (sr_start r1)); [done..|by eapply Hself|]. rewrite E. by eapply Hself.
Qed.

Lemma split_routes k t left right g t' key r : table_ok t → has_room t → split_at k t = Ok (left, right, g, t') →
  lookup_range t key = Some r → range_lookup t' key = Some (rerouted (Split k) t r key).
Proof.
  intros Ht Hroom Hsp Hr. pose proof (split_ok _ _ _ _ _ _ Ht Hroom Hsp) as Ht'.
  pose proof (ok_chain _ Ht) as Hc. pose proof (ok_chain _ Ht') as Hc'.
  apply split_shape in Hsp as (l1 & old & l2 & Hl & Hk & Hne & -> & -> & _ & ->).
  apply lookup_range_spec in Hr as [Hin Hkey]; [|done]. unfold range_lookup, rerouted.
  assert (contains r k = true ↔ r = old) as Hold.
  { split; [|by intros ->]. intros. apply (chain_unique [] (ranges t) k); [done|done| |done|done].
    rewrite Hl. apply elem_of_app. right. by left. }
  cbn [ranges] in Hc'.
  destruct (contains r k) eqn:Er; cbn [andb].
  - assert (r = old) as -> by by apply Hold. apply contains_spec in Hkey as [Hs He].
    destruct (ble k key) eqn:Ek; [apply ble_true in Ek|apply ble_false in Ek].
    + erewrite lookup_range_in; [|exact Hc'|apply elem_of_app; right; right; by left|by apply contains_spec]. done.
    + erewrite lookup_range_in; [|exact Hc'|apply elem_of_app; right; by left|apply contains_spec; split; [done|by right]].
      done.
  - erewrite lookup_range_in; [reflexivity|exact Hc'| |done].
    rewrite Hl, elem_of_app, elem_of_cons in Hin. cbn [ranges]. rewrite elem_of_app, !elem_of_cons.
    destruct Hin as [?|[->|?]]; [by left|congruence|by do 3 right].
Qed.

Lemma merge_routes k t merged t' key r : table_ok t → merge_with_next k t = Ok (merged, t') →
  lookup_range t key = Some r → range_lookup t' key = Some (rerouted (Merge k) t r key).
Proof.
  intros Ht Hm Hr. pose proof (merge_ok _ _ _ _ Ht Hm) as Ht'.
  pose proof (ok_chain _ Ht) as Hc. pose proof (ok_chain _ Ht') as Hc'.
  apply merge_shape in Hm as (l1 & left & right & l2 & Hl & <- & Hadj & -> & ->).
  apply lookup_range_spec in Hr as [Hin Hkey]; [|done]. unfold range_lookup, rerouted.
  assert (left ∈ ranges t ∧ right ∈ ranges t) as [Hlin Hrin].
  { rewrite Hl, !elem_of_app, !elem_of_cons. tauto. }
  assert (bcmp (sr_start left) (sr_end left) = Lt ∧ (sr_end right = [] ∨ bcmp (sr_end left) (sr_end right) = Lt)) as [Hlt Hend].
  { rewrite Hl, range_chain_app in Hc. destruct Hc as (_ & _ & Hlt & _ & Hc). split; [done|].
    destruct l2 as [|x l2]; [by left|]. destruct Hc as [? _]. by right. }
  rewrite (lookup_range_in t (sr_start left) left Hc Hlin) by (apply contains_spec; rewrite bcmp_refl; auto).
  cbn [ranges] in Hc'. destruct (decide (r = left ∨ r = right)) as [Hlr|Hlr].
  - erewrite lookup_range_in; [|exact Hc'|apply elem_of_app; right; by left|].
    + cbn. destruct Hlr as [->| ->].
      * rewrite bool_decide_eq_false_2; [done|]. intros E. rewrite E in Hlt. by rewrite bcmp_refl in Hlt.
      * by rewrite bool_decide_eq_true_2.
    + apply contains_spec in Hkey as [Hk1 Hk2]. apply contains_spec. cbn. destruct Hlr as [->| ->].
      * split; [done|]. destruct Hend as [?|Hend]; [by left|right].
        destruct Hk2 as [E|Hk2]; [rewrite E in Hlt; by apply nil_le in Hlt|]. by eapply bcmp_trans_lt.
      * split; [|done]. intros Hbad. apply Hk1. rewrite <-Hadj. by eapply bcmp_trans_lt.
  - rewrite bool_decide_eq_false_2.
    + erewrite lookup_range_in; [reflexivity|exact Hc'| |done]. rewrite Hl, elem_of_app, !elem_of_cons in Hin.
      cbn [ranges]. rewrite elem_of_app, elem_of_cons. naive_solver.
    + intros E. apply Hlr. right. apply (chain_start [] (ranges t)); [done..|]. by rewrite E.
Qed.

Lemma move_routes k g t moved t' key r : table_ok t → g <= u64_max → move_range k g t = Ok (moved, t') →
  lookup_range t key = Some r → range_lookup t' key = Some (rerouted (Move k g) t r key).
Proof.
  intros Ht Hg Hm Hr. pose proof (move_ok _ _ _ _ _ Ht Hg Hm) as Ht'.
  pose proof (ok_chain _ Ht) as Hc. pose proof (ok_chain _ Ht') as Hc'.
  apply move_shape in Hm as (l1 & old & l2 & Hl & <- & _ & -> & ->).
  apply lookup_range_spec in Hr as [Hin Hkey]; [|done]. unfold range_lookup, rerouted.
  assert (old ∈ ranges t) as Hold by (rewrite Hl, elem_of_app, elem_of_cons; tauto).
  cbn [ranges] in Hc'. case_bool_decide as E.
  - assert (r = old) as -> by (by apply (chain_start [] (ranges t))). erewrite lookup_range_in;
      [|exact Hc'|apply elem_of_app; right; by left|]; [done|]. by apply contains_spec; apply contains_spec in Hkey.
  - erewrite lookup_range_in; [reflexivity|exact Hc'| |done]. rewrite Hl, elem_of_app, elem_of_cons in Hin.
    cbn [ranges]. rewrite elem_of_app, elem_of_cons. naive_solver.
Qed.

(** An operation that succeeds reroutes exactly the keys it names: a split the keys of the
    range from the split key on, to a group no range had; a merge those of the right
    neighbour, to the left group; a move those of the range, to the target.  All other keys
    keep their group, and the epoch by which clients notice a change is advanced. *)
Theorem ranges_route op t t' key : table_reachable t → op_ok op t → apply_op op t = Ok t' →
  (∃ r, lookup_range t key = Some r ∧ range_lookup t' key = Some (rerouted op t r key)) ∧
  meta_epoch t' = sat_add u64_max (meta_epoch t) 1 ∧
  (∀ k, op = Split k → next_group_id t ∉ sr_group <$> ranges t).
Proof.
  intros Ht%reachable_ok Hop Ha.
  destruct (lookup_range_total t key (ok_chain t Ht)) as (r & Hr & _).
  split; [exists r; split; [done|]|split].
  - destruct op as [k|k|k g]; cbn [apply_op op_ok] in *.
    + destruct (split_at k t) as [[[[left right] g] t1]|] eqn:E; [|done]. injection Ha as <-. by eapply split_routes.
    + destruct (merge_with_next k t) as [[m t1]|] eqn:E; [|done]. injection Ha as <-. by eapply merge_routes.
    + destruct (move_range k g t) as [[m t1]|] eqn:E; [|done]. injection Ha as <-. by eapply move_routes.
  - destruct op as [k|k|k g]; cbn [apply_op] in Ha.
    + destruct (split_at k t) as [[[[left right] g] t1]|] eqn:E; [|done]. injection Ha as <-.
      by apply split_shape in E as (? & ? & ? & _ & _ & _ & _ & _ & _ & ->).
    + destruct (merge_with_next k t) as [[m t1]|] eqn:E; [|done]. injection Ha as <-.
      by apply merge_shape in E as (? & ? & ? & ? & _ & _ & _ & _ & ->).
    + destruct (move_range k g t) as [[m t1]|] eqn:E; [|done]. injection Ha as <-.
      by apply move_shape in E as (? & ? & ? & _ & _ & _ & _ & ->).
  - intros k ->. destruct Hop as [_ Hroom]. destruct (ok_groups t Ht) as [?|Hg]; [lia|].
    intros (x & E & Hx)%list_elem_of_fmap. rewrite Forall_forall in Hg. specialize (Hg x Hx). cbn in Hg. lia.
Qed.

Lemma ranges_route_witness : ∃ t', apply_op (Split [109]) (single_group 0) = Ok t' ∧
  (∃ r, lookup_range (single_group 0) [120] = Some r ∧ range_lookup t' [120] = Some (rerouted (Split [109]) (single_group 0) r [120])) ∧
  meta_epoch t' = sat_add u64_max (meta_epoch (single_group 0)) 1 ∧
  (∀ k, Split [109] = Split k → next_group_id (single_group 0) ∉ sr_group <$> ranges (single_group 0)).
Proof.
  eexists. split; [reflexivity|]. eapply (ranges_route (Split [109]) (single_group 0)); [|done|reflexivity].
  apply reach_single. done.
Defined.

(** ** The snapshot *)

Record range_fits (r : StaticRange) : Prop := {
  fits_id : sr_id r < u64_lim;
  fits_epoch : sr_epoch r < u64_lim;
  fits_group : sr_group r < u64_lim;
  fits_start : lenN (sr_start r) < u32_lim;
  fits_end : lenN (sr_end r) < u32_lim
}.

Record table_fits (t : StaticRangeTable) : Prop := {
  fits_ranges : Forall range_fits (ranges t);
  fits_count : lenN (ranges t) < u32_lim;
  fits_meta : meta_epoch t < u64_lim;
  fits_next_id : next_range_id t < u64_lim;
  fits_next_group : next_group_id t < u64_lim
}.

Lemma parses_rt_u64 label v : v < u64_lim → parses (rt_u64 label) v (le_bytes 8 v).
Proof. intros. by apply parses_le. Qed.

Lemma parses_rt_bytes label x : lenN x < u32_lim → parses (rt_bytes label) x (le_bytes 4 (lenN x) ++ x).
Proof.
  intros Hl. eapply parses_bind; [reflexivity|by apply parses_le|].
  intros rest. unfold rt_take. rewrite lenN_app. destruct (N.ltb_spec (lenN x + lenN rest) (lenN x)); [lia|].
  by rewrite lenN_to_nat, take_app_length, drop_app_length.
Qed.

Lemma parses_range r : range_fits r → parses decode_range r (encode_range r).
Proof.
  intros [Hi He Hg Hs Hn]. unfold decode_range, encode_range.
  eapply parses_bind; [reflexivity|by apply parses_rt_u64|].
  eapply parses_bind; [reflexivity|by apply parses_rt_u64|].
  eapply parses_bind; [reflexivity|by apply parses_rt_u64|].
  eapply parses_bind; [by rewrite app_assoc|by apply parses_rt_bytes|].
  eapply parses_bind_tail; [by apply parses_rt_bytes|]. destruct r. apply parses_ret.
Qed.

(** A table whose fields fit their widths is restored by its snapshot. *)
Theorem ranges_snapshot_roundtrip t : table_fits t → table_decode (table_encode t) = Ok t.
Proof.
  intros [Hr Hc Hm Hi Hg]. unfold table_decode, table_encode. cbn [app]. rewrite N.eqb_refl. cbn [negb].
  assert (parses decode_fields t (le_bytes 8 (meta_epoch t) ++ le_bytes 8 (next_range_id t) ++ le_bytes 8 (next_group_id t) ++
            le_bytes 4 (lenN (ranges t)) ++ (ranges t ≫= encode_range))) as Hp.
  { unfold decode_fields.
    eapply parses_bind; [reflexivity|by apply parses_rt_u64|].
    eapply parses_bind; [reflexivity|by apply parses_rt_u64|].
    eapply parses_bind; [reflexivity|by apply parses_rt_u64|].
    eapply parses_bind; [reflexivity|by apply parses_le|]. rewrite lenN_to_nat.
    apply parses_bind_tail with (x := ranges t); [|destruct t; apply parses_ret].
    apply parses_prepeat. eapply Forall_impl; [exact Hr|]. apply parses_range. }
  specialize (Hp []). rewrite app_nil_r in Hp. cbn [app]. rewrite Hp. cbn [mbind result_bind]. done.
Qed.

Lemma ranges_snapshot_roundtrip_witness : table_decode (table_encode (single_group 3)) = Ok (single_group 3).
Proof.
  apply (ranges_snapshot_roundtrip (single_group 3)). split; [|done..]. repeat constructor.
Defined.

(** Identifiers are numbered past those given so far, not past those to come: a range left
    at zero takes the identifier of a later one. *)
Theorem ranges_duplicate_ids :
  sr_id <$> ranges (from_ranges [mkRange [] [109] 1 0 0; mkRange [109] [] 2 1 0]) = [1; 1].
Proof. reflexivity. Qed.
