(* ===== verification/Balancer.v ===== *)
(** The advisory balancer, [kaya-server/src/cluster/balancer.rs]: suggested moves that even
    out the number of ranges per node, and that the loop bound is always enough for it. *)
From S2P Require Import Prelude Bytes OrdMap.

Open Scope N_scope.

Record RangeMove := mkRangeMove { mv_range_id : N; mv_from_node : N; mv_to_node : N }.

(** Nodes with the ranges they hold. *)
Abbreviation placement := (list (N * list N)).

(** [sort_unstable] on numbers. *)
Fixpoint insert_num (x : N) (l : list N) : list N :=
  match l with [] => [x] | y :: l => if x <=? y then x :: y :: l else y :: insert_num x l end.
Definition sort_nums (l : list N) : list N := foldr insert_num [] l.

(** [dedup]: of equal neighbours the first stays. *)
Fixpoint dedup (l : list N) : list N :=
  match l with
  | [] => []
  | x :: l => match dedup l with
              | [] => [x]
              | y :: l' => if x =? y then y :: l' else x :: y :: l'
              end
  end.

(** [sort_by_key] on the node; the sort is stable. *)
Fixpoint insert_node (x : N * list N) (l : placement) : placement :=
  match l with [] => [x] | y :: l => if x.1 <=? y.1 then x :: y :: l else y :: insert_node x l end.
Definition sort_nodes (l : placement) : placement := foldr insert_node [] l.

(** By the number of ranges, then by the node. *)
Definition load_cmp (a b : N * list N) : comparison :=
  match (length a.2 ?= length b.2)%nat with Eq => a.1 ?= b.1 | c => c end.

(** [max_by]: the last of the greatest; [min_by]: the first of the least. *)
Fixpoint max_index (i : nat) (best : nat * (N * list N)) (l : placement) : nat :=
  match l with
  | [] => best.1
  | x :: l => max_index (S i) (match load_cmp best.2 x with Gt => best | _ => (i, x) end) l
  end.
Fixpoint min_index (i : nat) (best : nat * (N * list N)) (l : placement) : nat :=
  match l with
  | [] => best.1
  | x :: l => min_index (S i) (match load_cmp best.2 x with Gt => (i, x) | _ => best end) l
  end.

Definition rich_index (l : placement) : option nat := match l with [] => None | x :: l => Some (max_index 1 (0%nat, x) l) end.
Definition poor_index (l : placement) : option nat := match l with [] => None | x :: l => Some (min_index 1 (0%nat, x) l) end.

(** One round: the new assignment and its move, or nothing when the loop breaks. *)
Definition rebalance_step (assign : placement) : option (placement * RangeMove) :=
  rich_idx ← rich_index assign;
  poor_idx ← poor_index assign;
  rich ← assign !! rich_idx;
  poor ← assign !! poor_idx;
  if (length rich.2 - length poor.2 <=? 1)%nat then None
  else if (rich_idx =? poor_idx)%nat then None
  else
    range_id ← last rich.2;
    let assign := <[rich_idx := (rich.1, removelast rich.2)]> assign in
    let assign := <[poor_idx := (poor.1, sort_nums (poor.2 ++ [range_id]))]> assign in
    Some (assign, mkRangeMove range_id rich.1 poor.1).

Fixpoint rebalance_loop (iters : nat) (assign : placement) : list RangeMove :=
  match iters with
  | O => []
  | S iters => match rebalance_step assign with
               | Some (assign, mv) => mv :: rebalance_loop iters assign
               | None => []
               end
  end.

Definition initial_assign (nodes : placement) : placement :=
  sort_nodes ((λ n, (n.1, dedup (sort_nums n.2))) <$> nodes).

Definition total_ranges (l : placement) : nat := foldr (λ n s, length n.2 + s)%nat 0%nat l.

Definition plan_range_count (nodes : placement) : list RangeMove :=
  if (length nodes <? 2)%nat then []
  else
    let assign := initial_assign nodes in
    rebalance_loop (Nat.max (total_ranges assign * 2) 1) assign.

(** ** Counts *)

(** The assignment after the rounds the loop makes. *)
Fixpoint rebalanced (iters : nat) (assign : placement) : placement :=
  match iters with
  | O => assign
  | S iters => match rebalance_step assign with Some (assign, _) => rebalanced iters assign | None => assign end
  end.

Definition loads (l : placement) : list nat := (λ n, length n.2) <$> l.
Fixpoint sum (f : nat → nat) (l : list nat) : nat := match l with [] => 0 | c :: l => f c + sum f l end.

Lemma total_loads l : total_ranges l = sum id (loads l).
Proof. induction l as [|x l IH]; cbn [total_ranges foldr loads fmap list_fmap sum]; [done|]. unfold total_ranges, loads in IH. by rewrite IH. Qed.

Lemma sum_update f i l c x : l !! i = Some c → (sum f (<[i := x]> l) + f c = sum f l + f x)%nat.
Proof.
  revert i. induction l as [|y l IH]; intros [|i] Hi; [done|done|injection Hi as ->; cbn; lia|].
  specialize (IH i Hi). change (<[S i := x]> (y :: l)) with (y :: <[i := x]> l). cbn [sum]. lia.
Qed.

(** ** The richest and the poorest *)

Lemma load_cmp_le a b : load_cmp a b ≠ Gt → (length a.2 ≤ length b.2)%nat.
Proof. unfold load_cmp. destruct (Nat.compare_spec (length a.2) (length b.2)); [lia|lia|done]. Qed.

Lemma load_cmp_ge a b : load_cmp a b = Gt → (length b.2 ≤ length a.2)%nat.
Proof. unfold load_cmp. destruct (Nat.compare_spec (length a.2) (length b.2)); [lia|done|lia]. Qed.

Lemma max_index_spec l0 i best l : (l0 ++ l) !! best.1 = Some best.2 → length l0 = i →
  Forall (λ x, length x.2 ≤ length best.2.2)%nat l0 →
  ∃ x, (l0 ++ l) !! max_index i best l = Some x ∧ Forall (λ y, length y.2 ≤ length x.2)%nat (l0 ++ l).
Proof.
  revert l0 i best. induction l as [|y l IH]; intros l0 i best Hb Hi Hf; cbn [max_index].
  - exists best.2. rewrite app_nil_r in *. done.
  - replace (l0 ++ y :: l) with ((l0 ++ [y]) ++ l) in * by (by rewrite <-app_assoc).
    apply IH; [|rewrite length_app; cbn; lia|].
    + destruct (load_cmp best.2 y); [|..|done]; cbn; rewrite <-app_assoc; apply list_lookup_middle; lia.
    + rewrite Forall_app, Forall_singleton. destruct (load_cmp best.2 y) eqn:E; cbn.
      1,2: (split; [|done]; eapply Forall_impl; [exact Hf|]; cbn; intros z Hz; etrans; [exact Hz|]; apply load_cmp_le; by rewrite E).
      split; [done|]. by apply load_cmp_ge.
Qed.

Lemma min_index_spec l0 i best l : (l0 ++ l) !! best.1 = Some best.2 → length l0 = i →
  Forall (λ x, length best.2.2 ≤ length x.2)%nat l0 →
  ∃ x, (l0 ++ l) !! min_index i best l = Some x ∧ Forall (λ y, length x.2 ≤ length y.2)%nat (l0 ++ l).
Proof.
  revert l0 i best. induction l as [|y l IH]; intros l0 i best Hb Hi Hf; cbn [min_index].
  - exists best.2. rewrite app_nil_r in *. done.
  - replace (l0 ++ y :: l) with ((l0 ++ [y]) ++ l) in * by (by rewrite <-app_assoc).
    apply IH; [|rewrite length_app; cbn; lia|].
    + destruct (load_cmp best.2 y); [done..|]; cbn; rewrite <-app_assoc; apply list_lookup_middle; lia.
    + rewrite Forall_app, Forall_singleton. destruct (load_cmp best.2 y) eqn:E; cbn.
      1,2: (split; [done|]; apply load_cmp_le; by rewrite E).
      split; [|done]. eapply Forall_impl; [exact Hf|]; cbn; intros z Hz. etrans; [|exact Hz]. by apply load_cmp_ge.
Qed.

Lemma rich_spec l i : rich_index l = Some i → ∃ x, l !! i = Some x ∧ Forall (λ y, length y.2 ≤ length x.2)%nat l.
Proof.
  destruct l as [|x l]; [done|]. intros [= <-]. apply (max_index_spec [x] 1 (0%nat, x) l); [done|done|by apply Forall_singleton].
Qed.

Lemma poor_spec l i : poor_index l = Some i → ∃ x, l !! i = Some x ∧ Forall (λ y, length x.2 ≤ length y.2)%nat l.
Proof.
  destruct l as [|x l]; [done|]. intros [= <-]. apply (min_index_spec [x] 1 (0%nat, x) l); [done|done|by apply Forall_singleton].
Qed.

(** ** One round *)

Definition balanced (l : placement) : Prop := ∀ x y, x ∈ l → y ∈ l → (length x.2 ≤ length y.2 + 1)%nat.

Lemma length_sort_nums l : length (sort_nums l) = length l.
Proof.
  assert (∀ x l, length (insert_num x l) = S (length l)) as Hi.
  { intros x k. induction k as [|y k IH]; cbn; [done|]. destruct (x <=? y); cbn; auto. }
  induction l as [|x l IH]; [done|]. cbn [sort_nums foldr length]. by rewrite Hi; f_equal.
Qed.

Lemma length_removelast {A} (l : list A) : length (removelast l) = (length l - 1)%nat.
Proof. induction l as [|x [|y l] IH]; [done..|]. cbn [removelast length] in *. lia. Qed.

(** A round takes a range from a node of greatest load to one of least load, which differ
    by more than one; otherwise the loads are even. *)
Lemma step_spec l : l ≠ [] →
  match rebalance_step l with
  | None => balanced l
  | Some (l', mv) => ∃ i j rich poor, i ≠ j ∧ l !! i = Some rich ∧ l !! j = Some poor ∧
      Forall (λ y, length y.2 ≤ length rich.2)%nat l ∧ Forall (λ y, length poor.2 ≤ length y.2)%nat l ∧
      (length poor.2 + 2 ≤ length rich.2)%nat ∧ mv_from_node mv = rich.1 ∧ mv_to_node mv = poor.1 ∧
      ∃ r p, l' = <[j := (poor.1, p)]> (<[i := (rich.1, r)]> l) ∧ length r = (length rich.2 - 1)%nat ∧ length p = S (length poor.2)
  end.
Proof.
  intros Hne. unfold rebalance_step.
  destruct (rich_index l) as [i|] eqn:Er; [|by destruct l]. destruct (poor_index l) as [j|] eqn:Ep; [|by destruct l].
  apply rich_spec in Er as (rich & Hi & Hmax). apply poor_spec in Ep as (poor & Hj & Hmin).
  cbn [mbind option_bind]. rewrite Hi, Hj. cbn [mbind option_bind].
  assert (∀ x y, x ∈ l → y ∈ l → (length x.2 + length poor.2 ≤ length y.2 + length rich.2)%nat) as Hsp.
  { intros x y Hx Hy. rewrite Forall_forall in Hmax, Hmin. specialize (Hmax x Hx). specialize (Hmin y Hy). cbn in *. lia. }
  destruct (Nat.leb_spec (length rich.2 - length poor.2) 1) as [Hle|Hgt].
  { intros x y Hx Hy. specialize (Hsp x y Hx Hy). lia. }
  destruct (Nat.eqb_spec i j) as [->|Hij].
  { rewrite Hi in Hj. injection Hj as ->. lia. }
  destruct (last rich.2) as [range_id|] eqn:El; [|apply last_None in El; rewrite El in Hgt; cbn in Hgt; lia].
  cbn [mbind option_bind]. exists i, j, rich, poor. split_and!; [done..|lia|done|done|].
  eexists _, _. split; [reflexivity|]. rewrite length_removelast, length_sort_nums, length_app. cbn. lia.
Qed.

Lemma step_loads i j rich poor r p (l : placement) : i ≠ j → l !! i = Some rich → l !! j = Some poor →
  loads (<[j := (poor.1, p)]> (<[i := (rich.1, r)]> l)) = <[j := length p]> (<[i := length r]> (loads l)).
Proof. intros. unfold loads. by rewrite !list_fmap_insert. Qed.

(** ** The loop bound is enough *)

Section Average.
  Context (n total : nat).

Definition low : nat := (total / n)%nat.
Definition high : nat := if (total mod n =? 0)%nat then low else S low.
(** The distance of a load from the even ones. *)
Definition excess (c : nat) : nat := (c - high + (low - c))%nat.
End Average.

Lemma sum_bounds l m M : Forall (λ c, m ≤ c ≤ M)%nat l → (length l * m ≤ sum id l ≤ length l * M)%nat.
Proof. induction 1 as [|c l Hc _ IH]; cbn [sum length]; [lia|]. unfold id at 1 3. nia. Qed.

Lemma sum_strict l m M i c : Forall (λ c, m ≤ c ≤ M)%nat l → l !! i = Some c →
  (c + length l * m ≤ sum id l + m)%nat ∧ (sum id l + M ≤ c + length l * M)%nat.
Proof.
  intros Hf. revert i. induction Hf as [|y l Hy Hf IH]; intros [|i] Hi; [done|done| |].
  - injection Hi as ->. pose proof (sum_bounds l m M Hf). cbn [sum length]. unfold id at 1 3. nia.
  - specialize (IH i Hi). cbn [sum length]. unfold id at 1 3. nia.
Qed.

Lemma sum_excess_start n total l : length l = n → (0 < n)%nat → sum id l = total →
  (sum (excess n total) l ≤ total * 2)%nat.
Proof.
  intros Hl Hn <-. assert (n * low n (sum id l) ≤ sum id l)%nat as Hlow by (apply Nat.Div0.mul_div_le).
  assert (∀ k, (sum (excess n (sum id l)) k ≤ sum id k + length k * low n (sum id l))%nat) as Hk.
  { induction k as [|c k IH]; cbn [sum length]; [lia|]. change (id c) with c.
    assert (excess n (sum id l) c ≤ c + low n (sum id l))%nat by (unfold excess; lia). nia. }
  specialize (Hk l). lia.
Qed.

Lemma excess_step n total m M : (0 < n)%nat → (m + 2 ≤ M)%nat → (n * m < total)%nat → (total < n * M)%nat →
  (excess n total (M - 1) + excess n total (S m) + 1 ≤ excess n total M + excess n total m)%nat.
Proof.
  intros Hn HmM Hm HM. unfold excess, high, low.
  pose proof (Nat.div_mod_eq total n) as Hd. pose proof (Nat.mod_upper_bound total n ltac:(lia)) as Hr.
  set (q := (total / n)%nat) in *. set (r := (total mod n)%nat) in *.
  destruct (Nat.eqb_spec r 0) as [E|E].
  - assert (m < q)%nat by nia. assert (q < M)%nat by nia. lia.
  - assert (m ≤ q)%nat by nia. assert (S q ≤ M)%nat by nia. lia.
Qed.

Lemma sum_zero f l c : sum f l = 0%nat → c ∈ l → f c = 0%nat.
Proof. induction l as [|y l IH]; intros Hs Hc; [by apply not_elem_of_nil in Hc|]. cbn in Hs. apply elem_of_cons in Hc as [->|Hc]; [lia|]. apply IH; [lia|done]. Qed.

Lemma excess_zero n total l : sum (excess n total) (loads l) = 0%nat → balanced l.
Proof.
  intros Hs x y Hx Hy.
  assert (∀ z, z ∈ l → excess n total (length z.2) = 0%nat) as Hz.
  { intros z Hz. eapply sum_zero; [exact Hs|]. unfold loads. apply list_elem_of_fmap. by exists z. }
  pose proof (Hz x Hx) as H1. pose proof (Hz y Hy) as H2. unfold excess, high in *.
  destruct (total mod n =? 0)%nat; lia.
Qed.

(** A round keeps the number of ranges and brings the loads closer to the even ones. *)
Lemma step_excess l l' mv n total : rebalance_step l = Some (l', mv) → l ≠ [] → length l = n → total_ranges l = total →
  length l' = n ∧ total_ranges l' = total ∧ (sum (excess n total) (loads l') < sum (excess n total) (loads l))%nat.
Proof.
  intros Hs Hne Hn Ht. pose proof (step_spec l Hne) as Hsp. rewrite Hs in Hsp.
  destruct Hsp as (i & j & rich & poor & Hij & Hi & Hj & Hmax & Hmin & Hd & _ & _ & r & p & -> & Hr & Hp).
  split; [by rewrite !length_insert|].
  rewrite total_loads in *. rewrite (step_loads i j rich poor) by done.
  assert (loads l !! i = Some (length rich.2)) as Hli by (unfold loads; by rewrite list_lookup_fmap, Hi).
  assert (loads l !! j = Some (length poor.2)) as Hlj by (unfold loads; by rewrite list_lookup_fmap, Hj).
  assert (∀ f, sum f (<[j := length p]> (<[i := length r]> (loads l))) + f (length rich.2) + f (length poor.2) =
               sum f (loads l) + f (length r) + f (length p))%nat as Hsum.
  { intros f. pose proof (sum_update f i _ _ (length r) Hli).
    assert (<[i := length r]> (loads l) !! j = Some (length poor.2)) as Hlj' by (by rewrite list_lookup_insert_ne).
    pose proof (sum_update f j _ _ (length p) Hlj'). lia. }
  split; [specialize (Hsum id); unfold id in *; lia|].
  assert (Forall (λ c, length poor.2 ≤ c ≤ length rich.2)%nat (loads l)) as Hb.
  { unfold loads. rewrite Forall_fmap. rewrite Forall_forall in *. cbn. auto. }
  assert (length (loads l) = n) as Hll by (unfold loads; by rewrite length_fmap).
  pose proof (sum_strict _ _ _ _ _ Hb Hli) as [H1 _]. pose proof (sum_strict _ _ _ _ _ Hb Hlj) as [_ H2].
  rewrite Hll, Ht in *. assert (0 < n)%nat by (destruct l; cbn in *; [done|lia]).
  pose proof (excess_step n total (length poor.2) (length rich.2) ltac:(lia) ltac:(lia) ltac:(lia) ltac:(lia)).
  specialize (Hsum (excess n total)). rewrite Hr, Hp in *. lia.
Qed.

Lemma loop_balances iters l n total : l ≠ [] → length l = n → total_ranges l = total →
  (sum (excess n total) (loads l) ≤ iters)%nat → balanced (rebalanced iters l).
Proof.
  revert l. induction iters as [|iters IH]; intros l Hne Hn Ht Hx; cbn [rebalanced].
  - apply (excess_zero n total). lia.
  - pose proof (step_spec l Hne) as Hsp. destruct (rebalance_step l) as [[l' mv]|] eqn:E; [|done].
    destruct (step_excess _ _ _ n total E Hne Hn Ht) as (Hn' & Ht' & Hlt). apply IH; [|done|done|lia].
    intros ->. rewrite <-Hn in Hn'. by destruct l.
Qed.

(** ** What the moves amount to *)

(** The ranges a node holds, counted over the entries for it. *)
Definition load_of (id : N) (l : placement) : nat := foldr (λ n s, if n.1 =? id then (length n.2 + s)%nat else s) 0%nat l.
Definition moves_to (id : N) (mv : list RangeMove) : nat := length (filter (λ m, mv_to_node m = id) mv).
Definition moves_from (id : N) (mv : list RangeMove) : nat := length (filter (λ m, mv_from_node m = id) mv).

Lemma load_of_insert id l i x y : l !! i = Some x → x.1 = y.1 →
  (load_of id (<[i := y]> l) + (if (x.1 =? id)%N then length x.2 else 0) = load_of id l + (if (x.1 =? id)%N then length y.2 else 0))%nat.
Proof.
  revert i. induction l as [|z l IH]; intros [|i] Hi Hk; [done|done| |].
  - injection Hi as ->. cbn. rewrite <-Hk. destruct (x.1 =? id); lia.
  - specialize (IH i Hi Hk). change (<[S i := y]> (z :: l)) with (z :: <[i := y]> l). unfold load_of in *. cbn [foldr].
    destruct (z.1 =? id); lia.
Qed.

Lemma step_load id l l' mv : rebalance_step l = Some (l', mv) → l ≠ [] →
  (load_of id l' + (if (mv_from_node mv =? id)%N then 1 else 0) = load_of id l + (if (mv_to_node mv =? id)%N then 1 else 0))%nat ∧ l'.*1 = l.*1.
Proof.
  intros Hs Hne. pose proof (step_spec l Hne) as Hsp. rewrite Hs in Hsp.
  destruct Hsp as (i & j & rich & poor & Hij & Hi & Hj & _ & _ & Hd & -> & -> & r & p & -> & Hr & Hp).
  assert (<[i := (rich.1, r)]> l !! j = Some poor) as Hj' by (by rewrite list_lookup_insert_ne).
  split.
  - pose proof (load_of_insert id l i rich (rich.1, r) Hi eq_refl) as H1.
    pose proof (load_of_insert id _ j poor (poor.1, p) Hj' eq_refl) as H2. cbn [snd] in *.
    destruct (rich.1 =? id), (poor.1 =? id); lia.
  - rewrite !list_fmap_insert. cbn [fst]. rewrite (list_insert_id _ i) by (by rewrite list_lookup_fmap, Hi).
    apply list_insert_id. by rewrite list_lookup_fmap, Hj.
Qed.

Lemma rebalanced_load id iters l : l ≠ [] →
  (load_of id (rebalanced iters l) + moves_from id (rebalance_loop iters l) = load_of id l + moves_to id (rebalance_loop iters l))%nat ∧
  (rebalanced iters l).*1 = l.*1.
Proof.
  revert l. induction iters as [|iters IH]; intros l Hne; cbn [rebalanced rebalance_loop]; [done|].
  destruct (rebalance_step l) as [[l' mv]|] eqn:E; [|done].
  destruct (step_load id _ _ _ E Hne) as [H1 H2].
  destruct (IH l') as [H3 H4]; [intros ->; by destruct l|]. split; [|congruence].
  unfold moves_from, moves_to in *. rewrite !filter_cons.
  destruct (N.eqb_spec (mv_from_node mv) id), (N.eqb_spec (mv_to_node mv) id); repeat case_decide; try done; cbn [length]; lia.
Qed.

Lemma load_of_lookup l id : NoDup l.*1 → id ∈ l.*1 → ∃ x, x ∈ l ∧ length x.2 = load_of id l.
Proof.
  induction l as [|y l IH]; intros Hd Hi; [by apply not_elem_of_nil in Hi|].
  apply NoDup_cons in Hd as [Hny Hd]. cbn [fmap list_fmap] in *. apply elem_of_cons in Hi as [->|Hi].
  - exists y. split; [apply list_elem_of_here|]. unfold load_of. cbn [foldr]. rewrite N.eqb_refl. fold (load_of y.1 l).
    enough (load_of y.1 l = 0%nat) as -> by lia. clear IH Hd. induction l as [|z l IH]; [done|]. cbn in *.
    destruct (N.eqb_spec z.1 y.1) as [E|]; [|apply IH; set_solver]. destruct Hny. rewrite <-E. apply list_elem_of_here.
  - destruct (IH Hd Hi) as (x & Hx & Hl). exists x. split; [by apply list_elem_of_further|]. cbn.
    destruct (N.eqb_spec y.1 id) as [E|]; [|done]. by rewrite E in Hny.
Qed.

Lemma insert_node_perm x l : insert_node x l ≡ₚ x :: l.
Proof. induction l as [|y l IH]; cbn; [done|]. destruct (x.1 <=? y.1); [done|]. rewrite IH. apply Permutation_swap. Qed.

Lemma sort_nodes_perm l : sort_nodes l ≡ₚ l.
Proof. induction l as [|x l IH]; cbn [sort_nodes foldr]; [done|]. rewrite insert_node_perm. by f_equiv. Qed.

Lemma initial_ids nodes : (initial_assign nodes).*1 ≡ₚ nodes.*1.
Proof. unfold initial_assign. rewrite sort_nodes_perm, <-list_fmap_compose. done. Qed.

(** The plan evens out the cluster: applied to the ranges the nodes hold, the suggested moves
    leave any two nodes with loads that differ by at most one. In particular the bound of the
    loop, twice the number of ranges, never cuts the plan short. *)
Theorem balancer_evens nodes a b : NoDup nodes.*1 → (2 ≤ length nodes)%nat → a ∈ nodes.*1 → b ∈ nodes.*1 →
  let before id := load_of id (initial_assign nodes) in
  let plan := plan_range_count nodes in
  (moves_from a plan ≤ before a + moves_to a plan ∧
   before a + moves_to a plan - moves_from a plan ≤ (before b + moves_to b plan - moves_from b plan) + 1)%nat.
Proof.
  intros Hd Hlen Ha Hb before plan. unfold plan, plan_range_count.
  destruct (Nat.ltb_spec (length nodes) 2) as [|_]; [lia|].
  set (l := initial_assign nodes) in *. set (k := Nat.max _ _).
  assert (l.*1 ≡ₚ nodes.*1) as Hids by apply initial_ids.
  assert (length l = length nodes) as Hll by (rewrite <-(length_fmap fst l), <-(length_fmap fst nodes); by rewrite Hids).
  assert (l ≠ []) as Hne by (intros E; rewrite E in Hll; cbn in Hll; lia).
  assert (balanced (rebalanced k l)) as Hbal.
  { apply (loop_balances k l (length l) (total_ranges l)); [done..|].
    pose proof (sum_excess_start (length l) (total_ranges l) (loads l)) as Hs. etrans; [apply Hs|unfold k; lia].
    - unfold loads. apply length_fmap.
    - lia.
    - by rewrite total_loads. }
  destruct (rebalanced_load a k l Hne) as [Hma Hk]. destruct (rebalanced_load b k l Hne) as [Hmb _].
  assert (NoDup (rebalanced k l).*1) as Hd' by (by rewrite Hk, Hids).
  destruct (load_of_lookup _ a Hd') as (x & Hx & Hlx); [by rewrite Hk, Hids|].
  destruct (load_of_lookup _ b Hd') as (y & Hy & Hly); [by rewrite Hk, Hids|].
  specialize (Hbal x y Hx Hy). unfold before. lia.
Qed.

Lemma balancer_evens_witness :
  plan_range_count [(10, [1; 2; 3; 4; 5]); (20, []); (30, [])] =
    [mkRangeMove 5 10 20; mkRangeMove 4 10 30; mkRangeMove 3 10 20] ∧
  let nodes := [(10, [1; 2; 3; 4; 5]); (20, []); (30, [])] in
  let before id := load_of id (initial_assign nodes) in
  let plan := plan_range_count nodes in
  (moves_from 10%N plan ≤ before 10%N + moves_to 10%N plan ∧
   before 10%N + moves_to 10%N plan - moves_from 10%N plan ≤ (before 30%N + moves_to 30%N plan - moves_from 30%N plan) + 1)%nat.
Proof.
  split; [reflexivity|]. apply (balancer_evens [(10, [1; 2; 3; 4; 5]); (20, []); (30, [])] 10 30);
    [apply (bool_decide_unpack _); reflexivity|cbn; lia|apply (bool_decide_unpack _); reflexivity..].
Defined.
