(* ===== verification/NetCodec.v ===== *)
(** The Raft wire of [kaya-net]: the envelope codec of [codec.rs] and the framing of
    [transport.rs] that carries it over a byte stream. *)
From S2P Require Import Prelude Bytes RaftCommand RaftLog RaftNode.

Open Scope N_scope.

Definition DEFAULT_MAX_FRAME_LEN : N := 64 * 1024 * 1024.
Definition MAX_SNAPSHOT_DATA_LEN : N := DEFAULT_MAX_FRAME_LEN - 64.

(** The decoders' error strings, and those of the framing. *)
Inductive NetError : Type :=
| UnexpectedEof (width have : N)
| NetTruncated (need have : N)
| SuspiciousEntryCount (n : N)
| CommandTooLarge (n : N)
| SnapshotTooLarge (n : N)
| UnknownRaftMessage (t : N)
| RaftFrameTooLarge (n : N)
| StreamEnded
| NetText (msg : string)
| NotUtf8 (what : string)
| SuspiciousScanCount (n : N)
| UnknownTxnOp (op : N)
| UnknownCdcOp (op : N)
| UnknownOpcode (op : N)
| TrailingBytes (n : N) (what : string).

(** ** The cursor *)

Definition take_u8 : parser NetError N := λ cur,
  match cur with [] => Err (UnexpectedEof 1 0) | b :: cur => Ok (b, cur) end.
Definition take_u16 : parser NetError N := λ cur, p_le (UnexpectedEof 2 (lenN cur)) 2 cur.
Definition take_u32 : parser NetError N := λ cur, p_le (UnexpectedEof 4 (lenN cur)) 4 cur.
Definition take_u64 : parser NetError N := λ cur, p_le (UnexpectedEof 8 (lenN cur)) 8 cur.
Definition take_bytes (len : N) : parser NetError bytes := λ cur, p_bytes (NetTruncated len (lenN cur)) len cur.

(** [flag as u8] and [take_u8(..)? != 0]. *)
Definition flag_byte (b : bool) : N := if b then 1 else 0.
Definition take_flag : parser NetError bool := b ← take_u8; mret (negb (b =? 0)).

(** ** Encoding *)

Definition push_u32 (v : N) : bytes := le_bytes 4 v.
Definition push_u64 (v : N) : bytes := le_bytes 8 v.
(** [len as u32] and what it counts. *)
Definition push_len {A} (l : list A) : bytes := push_u32 (wrap u32_lim (lenN l)).

Definition push_entry (e : LogEntry) : bytes := push_u64 (e_term e) ++ push_len (command e) ++ command e.

Definition encode_message (m : Message) : bytes :=
  match m with
  | MVoteRequest m =>
      [1] ++ push_u64 (vq_term m) ++ push_u64 (candidate_id m) ++ push_u64 (last_log_index m) ++ push_u64 (last_log_term m)
  | MVoteResponse m => [2] ++ push_u64 (vr_term m) ++ [flag_byte (vote_granted m)]
  | MAppendRequest m =>
      [3] ++ push_u64 (aq_term m) ++ push_u64 (aq_leader_id m) ++ push_u64 (prev_log_index m) ++
      push_u64 (prev_log_term m) ++ push_u64 (leader_commit m) ++ push_len (aq_entries m) ++ (aq_entries m ≫= push_entry)
  | MAppendResponse m => [4] ++ push_u64 (ar_term m) ++ [flag_byte (ar_success m)] ++ push_u64 (ar_match_index m)
  | MInstallSnapshotRequest m =>
      [5] ++ push_u64 (iq_term m) ++ push_u64 (iq_leader_id m) ++ push_u64 (iq_last_included_index m) ++
      push_u64 (iq_last_included_term m) ++ push_len (iq_data m) ++ iq_data m
  | MInstallSnapshotResponse m => [6] ++ push_u64 (ir_term m) ++ [flag_byte (ir_success m)]
  | MConfigChangeRequest m =>
      [7] ++ push_u64 (cq_term m) ++ push_len (old_peers m) ++ (old_peers m ≫= push_u64) ++
      push_len (new_peers m) ++ (new_peers m ≫= push_u64)
  | MConfigChangeResponse m => [8] ++ push_u64 (cr_term m) ++ [flag_byte (cr_success m)]
  end.

Definition envelope_body (env : Envelope) : bytes :=
  push_u64 (from env) ++ push_u64 (to env) ++ push_u64 (group_id env) ++ encode_message (message env).

Definition encode_envelope (env : Envelope) : bytes := push_len (envelope_body env) ++ envelope_body env.

(** ** Decoding *)

Definition take_entry : parser NetError LogEntry :=
  entry_term ← take_u64;
  cmd_len ← take_u32;
  if 16 * 1024 * 1024 <? cmd_len then perr (CommandTooLarge cmd_len)
  else cmd ← take_bytes cmd_len; mret (mkEntry entry_term cmd).

Definition take_append_request : parser NetError AppendRequest :=
  term ← take_u64; leader ← take_u64; prev_index ← take_u64; prev_term ← take_u64; commit ← take_u64;
  entry_count ← take_u32;
  if 100000 <? entry_count then perr (SuspiciousEntryCount entry_count)
  else es ← prepeat (N.to_nat entry_count) take_entry; mret (mkAppendRequest term leader prev_index prev_term es commit).

Definition take_snapshot_request : parser NetError InstallSnapshotRequest :=
  term ← take_u64; leader ← take_u64; idx ← take_u64; idx_term ← take_u64;
  data_len ← take_u32;
  if MAX_SNAPSHOT_DATA_LEN <? data_len then perr (SnapshotTooLarge data_len)
  else data ← take_bytes data_len; mret (mkSnapRequest term leader idx idx_term data).

Definition take_peers : parser NetError (list N) := n ← take_u32; prepeat (N.to_nat n) take_u64.

Definition take_message (msg_type : N) : parser NetError Message :=
  match msg_type with
  | 1 => term ← take_u64; candidate ← take_u64; idx ← take_u64; idx_term ← take_u64;
         mret (MVoteRequest (mkVoteRequest term candidate idx idx_term))
  | 2 => term ← take_u64; granted ← take_flag; mret (MVoteResponse (mkVoteResponse term granted))
  | 3 => m ← take_append_request; mret (MAppendRequest m)
  | 4 => term ← take_u64; success ← take_flag; idx ← take_u64; mret (MAppendResponse (mkAppendResponse term success idx))
  | 5 => m ← take_snapshot_request; mret (MInstallSnapshotRequest m)
  | 6 => term ← take_u64; success ← take_flag; mret (MInstallSnapshotResponse (mkSnapResponse term success))
  | 7 => term ← take_u64; old ← take_peers; new ← take_peers; mret (MConfigChangeRequest (mkConfigRequest term old new))
  | 8 => term ← take_u64; success ← take_flag; mret (MConfigChangeResponse (mkConfigResponse term success))
  | t => perr (UnknownRaftMessage t)
  end.

Definition take_envelope : parser NetError Envelope :=
  f ← take_u64; t ← take_u64; g ← take_u64;
  msg_type ← take_u8;
  m ← take_message msg_type;
  mret (mkEnvelope f t g m).

(** Bytes after the message are ignored. *)
Definition decode_envelope (data : bytes) : result NetError Envelope := fst <$> take_envelope data.

(** ** Framing *)

(** [read_raft_envelope] on the bytes the stream still has; the stream ends after them. *)
Definition read_raft_envelope : parser NetError Envelope := λ stream,
  len_rest ← p_le StreamEnded 4 stream;
  let len := len_rest.1 in
  if DEFAULT_MAX_FRAME_LEN <? len then Err (RaftFrameTooLarge len)
  else
    buf_rest ← p_bytes StreamEnded len len_rest.2;
    env ← decode_envelope buf_rest.1;
    Ok (env, buf_rest.2).

(** The task of one accepted connection: envelopes until the first error, each forwarded to
    the channel. Every frame takes four bytes of the stream at least. *)
Fixpoint raft_connection (fuel : nat) (stream : bytes) : list Envelope :=
  match fuel with
  | O => []
  | S fuel => match read_raft_envelope stream with
              | Ok (env, stream) => env :: raft_connection fuel stream
              | Err _ => []
              end
  end.
Definition receive (stream : bytes) : list Envelope := raft_connection (length stream) stream.

(** What [send_to_addr] writes to a new connection. *)
Definition send_to_addr (envs : list Envelope) : bytes := envs ≫= encode_envelope.

(** [send_envelopes]: the frames each destination that the roster knows gets, in order. *)
Definition by_dest (node : N) (envs : list Envelope) : list Envelope := filter (λ e, to e = node) envs.
Definition send_envelopes (roster : N → bool) (envs : list Envelope) (node : N) : bytes :=
  if roster node then send_to_addr (by_dest node envs) else [].

(** ** Envelopes that fit the wire *)

Definition u64_ok (v : N) : Prop := v < 2 ^ 64.

Definition entry_ok (e : LogEntry) : Prop := u64_ok (e_term e) ∧ lenN (command e) ≤ 16 * 1024 * 1024.

Definition message_ok (m : Message) : Prop :=
  match m with
  | MVoteRequest m => u64_ok (vq_term m) ∧ u64_ok (candidate_id m) ∧ u64_ok (last_log_index m) ∧ u64_ok (last_log_term m)
  | MVoteResponse m => u64_ok (vr_term m)
  | MAppendRequest m => u64_ok (aq_term m) ∧ u64_ok (aq_leader_id m) ∧ u64_ok (prev_log_index m) ∧ u64_ok (prev_log_term m) ∧
      u64_ok (leader_commit m) ∧ lenN (aq_entries m) ≤ 100000 ∧ Forall entry_ok (aq_entries m)
  | MAppendResponse m => u64_ok (ar_term m) ∧ u64_ok (ar_match_index m)
  | MInstallSnapshotRequest m => u64_ok (iq_term m) ∧ u64_ok (iq_leader_id m) ∧ u64_ok (iq_last_included_index m) ∧
      u64_ok (iq_last_included_term m) ∧ lenN (iq_data m) ≤ MAX_SNAPSHOT_DATA_LEN
  | MInstallSnapshotResponse m => u64_ok (ir_term m)
  | MConfigChangeRequest m => u64_ok (cq_term m) ∧ lenN (old_peers m) < u32_lim ∧ lenN (new_peers m) < u32_lim ∧
      Forall u64_ok (old_peers m) ∧ Forall u64_ok (new_peers m)
  | MConfigChangeResponse m => u64_ok (cr_term m)
  end.

Definition envelope_ok (env : Envelope) : Prop :=
  u64_ok (from env) ∧ u64_ok (to env) ∧ u64_ok (group_id env) ∧ message_ok (message env).

(** ** Round trip *)

Lemma parses_take_u8 b : parses take_u8 b [b].
Proof. by intros rest. Qed.

Lemma parses_take_flag b : parses take_flag b [flag_byte b].
Proof. by destruct b. Qed.

Lemma parses_take_u32 v : v < u32_lim → parses take_u32 v (push_u32 v).
Proof. intros Hv rest. by apply parses_le. Qed.

Lemma parses_take_u64 v : u64_ok v → parses take_u64 v (push_u64 v).
Proof. intros Hv rest. by apply parses_le. Qed.

Lemma parses_take_len {A} (l : list A) : lenN l < u32_lim → parses take_u32 (lenN l) (push_len l).
Proof. intros Hl. unfold push_len. rewrite wrap_small by done. by apply parses_take_u32. Qed.

Lemma parses_take_bytes b : parses (take_bytes (lenN b)) b b.
Proof. intros rest. by apply parses_bytes. Qed.

#[export] Hint Resolve parses_take_u8 parses_take_flag parses_take_u32 parses_take_u64 parses_take_len parses_take_bytes : kaya_parse.

Lemma parses_entry e : entry_ok e → parses take_entry e (push_entry e).
Proof.
  intros [Ht Hc]. unfold take_entry, push_entry. assert (lenN (command e) < u32_lim) by (unfold u32_lim; lia).
  parse_step. parse_step. destruct (N.ltb_spec (16 * 1024 * 1024) (lenN (command e))); [lia|].
  parse_last. destruct e. apply parses_ret.
Qed.

Lemma parses_repeat {A} (p : parser NetError A) enc (P : A → Prop) l : (∀ x, P x → parses p x (enc x)) → Forall P l →
  parses (prepeat (N.to_nat (lenN l)) p) l (l ≫= enc).
Proof. intros Hp Hl. rewrite lenN_to_nat. apply parses_prepeat. eapply Forall_impl; [exact Hl|exact Hp]. Qed.

Lemma parses_peers l : lenN l < u32_lim → Forall u64_ok l → parses take_peers l (push_len l ++ (l ≫= push_u64)).
Proof. intros Hn Hl. unfold take_peers. parse_step. eapply parses_repeat; [|exact Hl]. apply parses_take_u64. Qed.

Lemma parses_append_request m : message_ok (MAppendRequest m) →
  parses take_append_request m (drop 1 (encode_message (MAppendRequest m))).
Proof.
  intros (H1 & H2 & H3 & H4 & H5 & Hn & Hes). unfold take_append_request. cbn [encode_message app drop].
  assert (lenN (aq_entries m) < u32_lim) by (unfold u32_lim; lia).
  do 6 parse_step. destruct (N.ltb_spec 100000 (lenN (aq_entries m))); [lia|].
  eapply parses_bind_tail; [eapply parses_repeat; [apply parses_entry|exact Hes]|]. destruct m. apply parses_ret.
Qed.

Lemma parses_snapshot_request m : message_ok (MInstallSnapshotRequest m) →
  parses take_snapshot_request m (drop 1 (encode_message (MInstallSnapshotRequest m))).
Proof.
  intros (H1 & H2 & H3 & H4 & Hn). unfold take_snapshot_request. cbn [encode_message app drop].
  assert (lenN (iq_data m) < u32_lim) by (unfold u32_lim, MAX_SNAPSHOT_DATA_LEN, DEFAULT_MAX_FRAME_LEN in *; lia).
  do 5 parse_step. destruct (N.ltb_spec MAX_SNAPSHOT_DATA_LEN (lenN (iq_data m))); [lia|].
  parse_last. destruct m. apply parses_ret.
Qed.

Lemma parses_message m : message_ok m → parses (t ← take_u8; take_message t) m (encode_message m).
Proof.
  intros Hm. destruct m as [m|m|m|m|m|m|m|m]; eapply parses_bind; try reflexivity; try apply parses_take_u8; cbn [take_message].
  3: { eapply parses_bind_tail; [by apply parses_append_request|apply parses_ret]. }
  4: { eapply parses_bind_tail; [by apply parses_snapshot_request|apply parses_ret]. }
  all: cbn [message_ok] in Hm; destruct_and?.
  5: { parse_step. rewrite app_assoc. eapply parses_bind; [reflexivity|by apply parses_peers|].
       eapply parses_bind_tail; [by apply parses_peers|destruct m; apply parses_ret]. }
  all: repeat parse_step; parse_last; destruct m; apply parses_ret.
Qed.

Lemma parses_envelope env : envelope_ok env → parses take_envelope env (envelope_body env).
Proof.
  intros (Hf & Ht & Hg & Hm). unfold take_envelope, envelope_body. parse_step. parse_step. parse_step.
  intros rest. pose proof (parses_message _ Hm rest) as Hp. unfold mbind, parser_bind in *.
  destruct (take_u8 (encode_message (message env) ++ rest)) as [[ty bs]|e]; [|done].
  rewrite Hp. by destruct env.
Qed.

Lemma decode_envelope_body env : envelope_ok env → decode_envelope (envelope_body env) = Ok env.
Proof.
  intros Hok. unfold decode_envelope. pose proof (parses_envelope env Hok []) as Hp.
  rewrite app_nil_r in Hp. by rewrite Hp.
Qed.

(** An envelope whose frame a receiver takes. *)
Definition sendable (env : Envelope) : Prop := envelope_ok env ∧ lenN (envelope_body env) ≤ DEFAULT_MAX_FRAME_LEN.

Lemma frame_split env : sendable env → encode_envelope env = push_u32 (lenN (envelope_body env)) ++ envelope_body env.
Proof.
  intros [_ Hl]. unfold encode_envelope, push_len. rewrite wrap_small; [done|].
  unfold u32_lim, DEFAULT_MAX_FRAME_LEN in *. lia.
Qed.

Lemma parses_frame env : sendable env → parses read_raft_envelope env (encode_envelope env).
Proof.
  intros Hs rest. rewrite (frame_split env Hs). destruct Hs as [Hok Hl]. unfold read_raft_envelope, push_u32.
  rewrite <-app_assoc, (parses_le StreamEnded 4) by (unfold DEFAULT_MAX_FRAME_LEN in Hl; change (256 ^ N.of_nat 4) with (2 ^ 32); lia).
  cbn [mbind result_bind fst snd]. destruct (N.ltb_spec DEFAULT_MAX_FRAME_LEN (lenN (envelope_body env))); [lia|].
  rewrite (parses_bytes StreamEnded (envelope_body env)) by done. cbn [mbind result_bind fst snd].
  rewrite decode_envelope_body by done. done.
Qed.

(** A frame cut short is not taken for an envelope. *)
Lemma frame_cut env k : sendable env → (k < length (encode_envelope env))%nat →
  read_raft_envelope (take k (encode_envelope env)) = Err StreamEnded.
Proof.
  intros Hs Hk. rewrite (frame_split env Hs) in *. destruct Hs as [Hok Hl]. unfold read_raft_envelope.
  unfold push_u32 in *. rewrite length_app, length_le_bytes in Hk. destruct (decide (k < 4)%nat) as [H4|H4].
  - unfold p_le. destruct (N.ltb_spec (lenN (take k (le_bytes 4 (lenN (envelope_body env)) ++ envelope_body env))) (N.of_nat 4)) as [|Hge]; [done|].
    unfold lenN in Hge. rewrite length_take in Hge. lia.
  - rewrite take_app, take_ge by (rewrite length_le_bytes; lia). rewrite length_le_bytes.
    rewrite (parses_le StreamEnded 4) by (unfold DEFAULT_MAX_FRAME_LEN in Hl; change (256 ^ N.of_nat 4) with (2 ^ 32); lia).
    cbn [mbind result_bind fst snd]. destruct (N.ltb_spec DEFAULT_MAX_FRAME_LEN (lenN (envelope_body env))); [lia|].
    unfold p_bytes. destruct (N.ltb_spec (lenN (take (k - 4) (envelope_body env))) (lenN (envelope_body env))) as [|Hge]; [done|].
    unfold lenN in Hge. rewrite length_take in Hge. lia.
Qed.

Lemma receive_stream envs fuel : Forall sendable envs → (length envs ≤ fuel)%nat → raft_connection fuel (send_to_addr envs) = envs.
Proof.
  intros Hf. revert fuel. induction Hf as [|env envs Hs Hf IH]; intros fuel Hl.
  - by destruct fuel.
  - destruct fuel as [|fuel]; cbn in Hl; [lia|]. cbn [raft_connection send_to_addr mbind list_bind].
    rewrite (parses_frame env Hs). f_equal. apply IH. lia.
Qed.

Lemma frame_length env : (4 ≤ length (encode_envelope env))%nat.
Proof. unfold encode_envelope, push_len, push_u32. rewrite length_app, length_le_bytes. lia. Qed.

Lemma stream_length envs : (length envs ≤ length (send_to_addr envs))%nat.
Proof.
  induction envs as [|env envs IH]; [done|]. cbn [send_to_addr mbind list_bind length]. rewrite length_app.
  pose proof (frame_length env). unfold send_to_addr in IH. lia.
Qed.

(** The envelopes whose frames lie completely within the first [k] bytes of a connection. *)
Fixpoint complete_in (k : nat) (envs : list Envelope) : list Envelope :=
  match envs with
  | [] => []
  | env :: envs =>
    let l := length (encode_envelope env) in if decide (l ≤ k)%nat then env :: complete_in (k - l) envs else []
  end.

Lemma receive_cut envs fuel k : Forall sendable envs → (length (complete_in k envs) ≤ fuel)%nat →
  raft_connection fuel (take k (send_to_addr envs)) = complete_in k envs.
Proof.
  intros Hf. revert fuel k. induction Hf as [|env envs Hs Hf IH]; intros fuel k Hl.
  { cbn [send_to_addr mbind list_bind]. rewrite take_nil. by destruct fuel. }
  cbn [complete_in] in *. destruct fuel as [|fuel].
  { destruct (decide _); [cbn in Hl; lia|done]. }
  cbn [raft_connection send_to_addr mbind list_bind]. destruct (decide _) as [Hk|Hk].
  - rewrite take_app, take_ge, (parses_frame env Hs) by lia. f_equal. apply IH. cbn in Hl. lia.
  - by rewrite take_app_le, frame_cut by (done || lia).
Qed.

Lemma complete_in_bound envs k : (length (complete_in k envs) ≤ length (take k (send_to_addr envs)))%nat.
Proof.
  revert k. induction envs as [|env envs IH]; intros k; [cbn; lia|].
  cbn [complete_in send_to_addr mbind list_bind]. destruct (decide _) as [Hk|Hk]; [|cbn; lia].
  specialize (IH (k - length (encode_envelope env))%nat). pose proof (frame_length env).
  rewrite take_app, length_app, length_take. cbn [length]. unfold send_to_addr in IH. lia.
Qed.

(** C25: raft messages survive the wire. Of the envelopes a process sends, those addressed to a node
    that its roster knows arrive there complete, unchanged and in the order they were sent,
    provided each is within the limits the receiver imposes ([sendable]: fields of their width,
    at most 100000 entries of at most 16 MiB in an append, a snapshot within its limit, a frame
    of at most 64 MiB). A connection that breaks after any [k] bytes delivers exactly the
    envelopes whose frames were complete by then: none of them is lost and no damaged one is
    made up from the rest. *)
Theorem net_envelopes_delivered roster envs node : Forall sendable envs → roster node = true →
  receive (send_envelopes roster envs node) = filter (λ e, to e = node) envs ∧
  ∀ k, receive (take k (send_envelopes roster envs node)) = complete_in k (filter (λ e, to e = node) envs).
Proof.
  intros Hf Hr. unfold send_envelopes. rewrite Hr. unfold by_dest.
  assert (Forall sendable (filter (λ e, to e = node) envs)) as Hf'.
  { rewrite Forall_forall in *. intros e [_ He]%list_elem_of_filter. auto. }
  split; [apply receive_stream; [done|apply stream_length]|]. intros k.
  apply receive_cut; [done|apply complete_in_bound].
Qed.

Lemma net_envelopes_delivered_witness :
  let envs := [mkEnvelope 1 2 0 (MVoteResponse (mkVoteResponse 3 true));
               mkEnvelope 1 3 0 (MAppendRequest (mkAppendRequest 3 1 0 0 [mkEntry 3 [7; 8]] 0));
               mkEnvelope 1 2 5 (MConfigChangeRequest (mkConfigRequest 3 [1; 2] [1; 2; 3]))] in
  receive (send_envelopes (λ n, n <? 4) envs 2) = filter (λ e, to e = 2) envs ∧
  ∀ k, receive (take k (send_envelopes (λ n, n <? 4) envs 2)) = complete_in k (filter (λ e, to e = 2) envs).
Proof.
  apply (net_envelopes_delivered (λ n, n <? 4)
    [mkEnvelope 1 2 0 (MVoteResponse (mkVoteResponse 3 true));
     mkEnvelope 1 3 0 (MAppendRequest (mkAppendRequest 3 1 0 0 [mkEntry 3 [7; 8]] 0));
     mkEnvelope 1 2 5 (MConfigChangeRequest (mkConfigRequest 3 [1; 2] [1; 2; 3]))] 2); [|reflexivity].
  repeat constructor; vm_compute; congruence.
Defined.

(** ** What the decoder lets in *)

(** Whatever the parser yields from well-formed bytes satisfies [P]. *)
Definition yields {E A} (p : parser E A) (P : A → Prop) : Prop :=
  ∀ bs x rest, bytes_ok bs → p bs = Ok (x, rest) → P x ∧ bytes_ok rest.

Lemma yields_ret {E A} (x : A) (P : A → Prop) : P x → yields (mret x : parser E A) P.
Proof. intros Hx bs y rest Hb [= <- <-]. done. Qed.

Lemma yields_err {E A} (e : E) (P : A → Prop) : yields (perr e) P.
Proof. done. Qed.

Lemma yields_bind {E A B} (p : parser E A) (k : A → parser E B) (P : A → Prop) (Q : B → Prop) :
  yields p P → (∀ x, P x → yields (k x) Q) → yields (p ≫= k) Q.
Proof.
  intros Hp Hk bs y rest Hb. unfold mbind, parser_bind. destruct (p bs) as [[x bs']|] eqn:E1; [|done].
  destruct (Hp _ _ _ Hb E1) as [HP Hb']. by apply Hk.
Qed.

Lemma bytes_ok_take n bs : bytes_ok bs → bytes_ok (take n bs).
Proof. apply Forall_take. Qed.
Lemma bytes_ok_drop n bs : bytes_ok bs → bytes_ok (drop n bs).
Proof. apply Forall_drop. Qed.

Lemma yields_u8 : yields take_u8 (λ _, True).
Proof. intros [|b bs] x rest Hb Hp; [done|]. injection Hp as <- <-. split; [done|]. by inversion Hb. Qed.

Lemma yields_flag : yields take_flag (λ _, True).
Proof. eapply yields_bind; [apply yields_u8|]. intros b _. by apply yields_ret. Qed.

Lemma yields_le {E} (f : bytes → E) n : yields (λ cur, p_le (f cur) n cur) (λ v, v < 256 ^ N.of_nat n).
Proof.
  intros bs x rest Hb. unfold p_le. destruct (N.ltb_spec (lenN bs) (N.of_nat n)); [done|]. intros [= <- <-].
  split; [|by apply bytes_ok_drop]. pose proof (le_val_bound (take n bs) (bytes_ok_take _ _ Hb)) as Hv.
  rewrite length_take_le in Hv; [done|]. unfold lenN in *. lia.
Qed.

Lemma yields_u64 : yields take_u64 u64_ok.
Proof. exact (yields_le _ 8). Qed.

Lemma yields_u32 : yields take_u32 (λ v, v < u32_lim).
Proof. exact (yields_le _ 4). Qed.

Lemma yields_bytes n : yields (take_bytes n) (λ b, lenN b = n ∧ bytes_ok b).
Proof.
  intros bs x rest Hb. unfold take_bytes, p_bytes. destruct (N.ltb_spec (lenN bs) n); [done|]. intros [= <- <-].
  split_and!; [|by apply bytes_ok_take|by apply bytes_ok_drop]. unfold lenN in *. rewrite length_take_le; lia.
Qed.

Lemma yields_repeat {E A} n (p : parser E A) P : yields p P → yields (prepeat n p) (λ l, length l = n ∧ Forall P l).
Proof.
  intros Hp. induction n as [|n IH]; cbn [prepeat]; [by apply yields_ret|].
  eapply yields_bind; [exact Hp|]. intros x Hx. eapply yields_bind; [exact IH|]. intros l [Hl Hf].
  apply yields_ret. cbn. auto.
Qed.

#[export] Hint Resolve yields_u8 yields_flag yields_u32 yields_u64 yields_bytes : kaya_yields.
Ltac yields_step := eapply yields_bind; [eauto with kaya_yields|]; intros ? ?.

Lemma yields_entry : yields take_entry entry_ok.
Proof.
  unfold take_entry. yields_step. eapply yields_bind; [apply yields_u32|]. intros n Hn.
  destruct (N.ltb_spec (16 * 1024 * 1024) n); [apply yields_err|].
  eapply yields_bind; [apply yields_bytes|]. intros b [Hb _]. apply yields_ret. split; [done|]. cbn. lia.
Qed.

Lemma yields_peers : yields take_peers (λ l, lenN l < u32_lim ∧ Forall u64_ok l).
Proof.
  unfold take_peers. eapply yields_bind; [apply yields_u32|]. intros n Hn bs l rest Hb Hp.
  destruct (yields_repeat _ _ _ yields_u64 _ _ _ Hb Hp) as [[Hl Hf] Hr]. split_and!; [|done|done]. cbv beta in *. unfold lenN. lia.
Qed.

Lemma yields_append_request : yields take_append_request (λ m, message_ok (MAppendRequest m)).
Proof.
  unfold take_append_request. do 5 yields_step. eapply yields_bind; [apply yields_u32|]. intros n Hn.
  destruct (N.ltb_spec 100000 n); [apply yields_err|].
  eapply yields_bind; [apply yields_repeat, yields_entry|]. intros es [Hl Hf]. apply yields_ret. cbn.
  split_and!; [done..| |done]. unfold lenN. lia.
Qed.

Lemma yields_snapshot_request : yields take_snapshot_request (λ m, message_ok (MInstallSnapshotRequest m)).
Proof.
  unfold take_snapshot_request. do 4 yields_step. eapply yields_bind; [apply yields_u32|]. intros n Hn.
  destruct (N.ltb_spec MAX_SNAPSHOT_DATA_LEN n); [apply yields_err|].
  eapply yields_bind; [apply yields_bytes|]. intros b [Hb _]. apply yields_ret. cbn. split_and!; [done..|lia].
Qed.

Lemma yields_message ty : yields (take_message ty) message_ok.
Proof.
  unfold take_message. repeat case_match; try apply yields_err.
  all: try (eapply yields_bind; [apply yields_append_request|]; intros ? ?; by apply yields_ret).
  all: try (eapply yields_bind; [apply yields_snapshot_request|]; intros ? ?; by apply yields_ret).
  all: try (repeat yields_step; apply yields_ret; cbn; by auto).
  yields_step. eapply yields_bind; [apply yields_peers|]. intros o [Ho1 Ho2].
  eapply yields_bind; [apply yields_peers|]. intros w [Hw1 Hw2]. apply yields_ret. cbn. auto.
Qed.

(** C32: whatever bytes arrive, an envelope the decoder accepts is within the limits of the
    wire: fields of 64 bits, at most 100 000 entries of at most 16 MiB, a snapshot that fits a
    frame. And encoding an accepted envelope again and decoding that gives the same envelope. *)
Theorem net_decode_bounded data env : bytes_ok data → decode_envelope data = Ok env →
  envelope_ok env ∧ decode_envelope (envelope_body env) = Ok env.
Proof.
  intros Hb Hd. enough (envelope_ok env) as Hok by (split; [done|by apply decode_envelope_body]).
  unfold decode_envelope in Hd. destruct (take_envelope data) as [[e rest]|] eqn:E; [|done]. injection Hd as <-.
  enough (yields take_envelope envelope_ok) as Hy by (by destruct (Hy _ _ _ Hb E)).
  unfold take_envelope. do 3 yields_step. eapply yields_bind; [apply yields_u8|]. intros ty _.
  eapply yields_bind; [apply yields_message|]. intros m Hm. apply yields_ret. by split_and!.
Qed.

Lemma net_decode_bounded_witness :
  let env := mkEnvelope 1 2 0 (MVoteResponse (mkVoteResponse 3 true)) in
  envelope_ok env ∧ decode_envelope (envelope_body env) = Ok env.
Proof.
  apply (net_decode_bounded (le_bytes 8 1 ++ le_bytes 8 2 ++ le_bytes 8 0 ++ [2] ++ le_bytes 8 3 ++ [77; 9; 9])).
  - repeat constructor.
  - reflexivity.
Defined.

(** ** A follower too far behind *)

Lemma large_append_refused f t g m : u64_ok f → u64_ok t → u64_ok g →
  u64_ok (aq_term m) → u64_ok (aq_leader_id m) → u64_ok (prev_log_index m) → u64_ok (prev_log_term m) → u64_ok (leader_commit m) →
  100000 < lenN (aq_entries m) < u32_lim →
  decode_envelope (envelope_body (mkEnvelope f t g (MAppendRequest m))) = Err (SuspiciousEntryCount (lenN (aq_entries m))).
Proof.
  intros Hf Ht Hg H1 H2 H3 H4 H5 Hn. unfold decode_envelope, take_envelope, envelope_body.
  assert (∀ v rest, u64_ok v → take_u64 (push_u64 v ++ rest) = Ok (v, rest)) as Hu by (intros; by apply parses_take_u64).
  unfold mbind at 1, parser_bind. cbn [from to group_id message]. 
  unfold mbind, parser_bind. rewrite !Hu by done. cbn [encode_message app take_u8 take_message].
  unfold take_append_request, mbind, parser_bind. rewrite !Hu by done.
  rewrite (parses_take_len (aq_entries m)) by lia. destruct (N.ltb_spec 100000 (lenN (aq_entries m))); [done|lia].
Qed.
