(* ===== verification/TxnCoord.v ===== *)
(** Cross-group commit: the coordinator of [kaya-server/src/cluster/txn_coord.rs], which drives
    prepare, decision and commit or abort over several Raft groups, and [apply_command] of
    [kaya-server/src/cluster/replication.rs], which executes a replicated command. *)
From stdpp Require Import gmap.
From S2P Require Import Prelude Bytes Core Hlc OrdMap Path Disk WalCodec WalWriter InternalKey SstBlock SstSpec Memtable Manifest Compaction RaftCommand Engine EngineStore EngineReads Index Cdc Node NodeStore Txn NodePlans Txn2pc Balancer.

Open Scope N_scope.

(** ** The coordinator *)

Definition MutationsByGroup : Type := list (N * list Mutation).

(** The keys in iteration order of the map; of equal keys the first counts. *)
Definition best_step (best : option (bytes * N)) (x : bytes * N) : option (bytes * N) :=
  match best with
  | None => Some x
  | Some (bk, g) => if blt x.1 bk then Some x else best
  end.
Definition coordinator_group (ms : MutationsByGroup) : option N :=
  snd <$> foldl best_step None (ms ≫= λ '(gid, muts), (λ m, (m.1, gid)) <$> muts).

(** How a proposal ends for its proposer: the command was applied, an error, or no answer
    before the deadline. After an error or a timeout the command may still be applied. *)
Inductive answer : Type := AOk | AErr (e : string) | ATimeout.

#[export] Instance answer_eq_dec : EqDecision answer.
Proof. solve_decision. Defined.

Inductive CoordError : Type :=
| TooFewGroups
| NoKeys
| ProposalFailed (e : string)
| PhaseTimedOut (group : N)
| DecisionFailed (e : string)
| DecisionTimedOut
| CommitFailed (e : CoordError).

Section Coordinator.
Context (propose : N → RaftCommand → answer).

(** The groups that answered and the first error. *)
Definition fan_out (groups : list N) (cmd_for : N → RaftCommand) : list N * option CoordError :=
  let results := (λ gid, (gid, propose gid (cmd_for gid))) <$> groups in
  (fst <$> filter (λ r, r.2 = AOk) results,
   head (omap (λ r, match r.2 with AOk => None | AErr e => Some (ProposalFailed e) | ATimeout => Some (PhaseTimedOut r.1) end) results)).

Definition DECISION_GROUP : N := 0.

Definition decide_2pc (txn_id : N) (commit : bool) : option CoordError :=
  match propose DECISION_GROUP (CTxnDecision txn_id commit) with
  | AOk => None
  | AErr e => Some (DecisionFailed e)
  | ATimeout => Some DecisionTimedOut
  end.

(** The result and the proposals made, phase by phase. *)
Definition commit_cross_group (txn_id : N) (ms : MutationsByGroup) : result CoordError unit * list (list (N * RaftCommand)) :=
  if bool_decide (ms = []) then (Ok tt, [])
  else if (length ms <? 2)%nat then (Err TooFewGroups, [])
  else match coordinator_group ms with
  | None => (Err NoKeys, [])
  | Some coordinator =>
      let participants := sort_nums ms.*1 in
      let prepare gid := CTxnPrepare txn_id coordinator (default [] (snd <$> (snd <$> list_find (λ x, x.1 = gid) ms))) in
      let '(prepared, prepare_err) := fan_out participants prepare in
      let sent := [(λ g, (g, prepare g)) <$> participants] in
      let decision_err := match prepare_err with None => decide_2pc txn_id true | Some _ => None end in
      let sent := sent ++ match prepare_err with None => [[(DECISION_GROUP, CTxnDecision txn_id true)]] | Some _ => [] end in
      match (match prepare_err with Some e => Some e | None => decision_err end) with
      | Some err =>
          (Err err,
           sent ++ if bool_decide (prepared = []) then []
                   else [[(DECISION_GROUP, CTxnDecision txn_id false)]; (λ g, (g, CTxnAbort2pc txn_id)) <$> prepared])
      | None =>
          let commit_err := (fan_out participants (λ _, CTxnCommit2pc txn_id)).2 in
          (match commit_err with Some e => Err (CommitFailed e) | None => Ok tt end,
           sent ++ [(λ g, (g, CTxnCommit2pc txn_id)) <$> participants])
      end
  end.

(** ** What the phases guarantee *)

Lemma fan_out_ok groups cmd_for : (fan_out groups cmd_for).2 = None → ∀ g, g ∈ groups → propose g (cmd_for g) = AOk.
Proof.
  unfold fan_out. cbn [snd]. induction groups as [|g groups IH]; intros He g' Hg; [by apply not_elem_of_nil in Hg|].
  cbn [fmap list_fmap omap list_omap] in He. destruct (propose g (cmd_for g)) eqn:E; cbn in He; [|done|done].
  apply elem_of_cons in Hg as [->|Hg]; [done|by apply IH].
Qed.

Lemma fan_out_prepared groups cmd_for g : g ∈ (fan_out groups cmd_for).1 ↔ g ∈ groups ∧ propose g (cmd_for g) = AOk.
Proof.
  unfold fan_out. cbn [fst]. rewrite list_elem_of_fmap. split.
  - intros ([g' a] & -> & [Ha Hin]%list_elem_of_filter). apply list_elem_of_fmap in Hin as (y & [= -> ->] & Hy). done.
  - intros [Hg Ha]. exists (g, propose g (cmd_for g)). split; [done|]. apply list_elem_of_filter. split; [done|].
    apply list_elem_of_fmap. eauto.
Qed.

Definition prepare_cmd (txn_id : N) (ms : MutationsByGroup) (c gid : N) : RaftCommand :=
  CTxnPrepare txn_id c (default [] (snd <$> (snd <$> list_find (λ x, x.1 = gid) ms))).

(** The three ways a run over several groups goes. *)
Inductive coord_run (txn_id : N) (ms : MutationsByGroup) : result CoordError unit → list (list (N * RaftCommand)) → Prop :=
| run_aborted c mid aborted e :
    mid = [] ∨ mid = [[(DECISION_GROUP, CTxnDecision txn_id true)]] →
    (∀ g, g ∈ aborted → g ∈ ms.*1 ∧ propose g (prepare_cmd txn_id ms c g) = AOk) →
    coord_run txn_id ms (Err e)
      ([(λ g, (g, prepare_cmd txn_id ms c g)) <$> sort_nums ms.*1] ++ mid ++
       if bool_decide (aborted = []) then []
       else [[(DECISION_GROUP, CTxnDecision txn_id false)]; (λ g, (g, CTxnAbort2pc txn_id)) <$> aborted])
| run_committed c res :
    (∀ g, g ∈ ms.*1 → propose g (prepare_cmd txn_id ms c g) = AOk) →
    propose DECISION_GROUP (CTxnDecision txn_id true) = AOk →
    (res = Ok tt → ∀ g, g ∈ ms.*1 → propose g (CTxnCommit2pc txn_id) = AOk) →
    coord_run txn_id ms res
      [(λ g, (g, prepare_cmd txn_id ms c g)) <$> sort_nums ms.*1; [(DECISION_GROUP, CTxnDecision txn_id true)];
       (λ g, (g, CTxnCommit2pc txn_id)) <$> sort_nums ms.*1].

Lemma sort_nums_perm l : sort_nums l ≡ₚ l.
Proof.
  assert (∀ x l, insert_num x l ≡ₚ x :: l) as Hi.
  { intros x k. induction k as [|y k IH]; cbn; [done|]. destruct (x <=? y); [done|]. rewrite IH. apply Permutation_swap. }
  induction l as [|x l IH]; [done|]. cbn [sort_nums foldr]. rewrite Hi. by f_equiv.
Qed.

Lemma coord_runs txn_id ms : (2 ≤ length ms)%nat → coordinator_group ms ≠ None →
  coord_run txn_id ms (commit_cross_group txn_id ms).1 (commit_cross_group txn_id ms).2.
Proof.
  intros Hl Hc. unfold commit_cross_group. rewrite bool_decide_eq_false_2 by (by intros ->; cbn in Hl; lia).
  rewrite (proj2 (Nat.ltb_ge _ _)) by done. destruct (coordinator_group ms) as [c|]; [|done].
  change (λ gid, CTxnPrepare txn_id c _) with (prepare_cmd txn_id ms c).
  pose proof (fan_out_ok (sort_nums ms.*1) (prepare_cmd txn_id ms c)) as Hok.
  pose proof (fan_out_prepared (sort_nums ms.*1) (prepare_cmd txn_id ms c)) as Hprep.
  destruct (fan_out (sort_nums ms.*1) (prepare_cmd txn_id ms c)) as [prepared prepare_err]. cbn [fst snd] in *.
  assert (∀ g, g ∈ prepared → g ∈ ms.*1 ∧ propose g (prepare_cmd txn_id ms c g) = AOk) as Hpre.
  { intros g [Hg ?]%Hprep. by rewrite sort_nums_perm in Hg. }
  destruct prepare_err as [e|]; cbn [fst snd].
  { rewrite <-app_assoc. apply (run_aborted txn_id ms c [] prepared e); [by left|done]. }
  destruct (decide_2pc txn_id true) as [e|] eqn:Ed; cbn [fst snd].
  { rewrite <-app_assoc. apply (run_aborted txn_id ms c [[(DECISION_GROUP, CTxnDecision txn_id true)]] prepared e); [by right|done]. }
  pose proof (fan_out_ok (sort_nums ms.*1) (λ _, CTxnCommit2pc txn_id)) as Hcok.
  assert (∀ g, g ∈ ms.*1 → g ∈ sort_nums ms.*1) as Hin by (intros g; by rewrite sort_nums_perm).
  apply run_committed; [by auto| |].
  - unfold decide_2pc in Ed. by destruct (propose _ _).
  - destruct (fan_out _ _).2 as [e|]; [done|]. auto.
Qed.

Lemma coord_trivial txn_id ms : (length ms < 2)%nat ∨ coordinator_group ms = None →
  (commit_cross_group txn_id ms).2 = [] ∧ ((commit_cross_group txn_id ms).1 = Ok tt → ms = []).
Proof.
  intros Hc. unfold commit_cross_group. case_bool_decide as Hms; [done|].
  destruct (Nat.ltb_spec (length ms) 2); [done|]. destruct Hc as [?| ->]; [lia|done].
Qed.

(** Every proposal of a run. *)
Lemma coord_sent txn_id ms res sent g cmd : coord_run txn_id ms res sent → (g, cmd) ∈ mjoin sent →
  (∃ c, g ∈ ms.*1 ∧ cmd = prepare_cmd txn_id ms c g) ∨ (∃ b, cmd = CTxnDecision txn_id b) ∨
  (cmd = CTxnAbort2pc txn_id ∧ is_ok res = false ∧
   ∃ c, (g, prepare_cmd txn_id ms c g) ∈ mjoin sent ∧ propose g (prepare_cmd txn_id ms c g) = AOk) ∨
  (cmd = CTxnCommit2pc txn_id ∧
   ∃ c, sent = [(λ g, (g, prepare_cmd txn_id ms c g)) <$> sort_nums ms.*1; [(DECISION_GROUP, CTxnDecision txn_id true)];
                (λ g, (g, CTxnCommit2pc txn_id)) <$> sort_nums ms.*1]).
Proof.
  assert (∀ g cmd c, (g, cmd) ∈ (λ g, (g, prepare_cmd txn_id ms c g)) <$> sort_nums ms.*1 → g ∈ ms.*1 ∧ cmd = prepare_cmd txn_id ms c g) as Hpp.
  { intros g0 cmd0 c (y & [= -> ->] & Hy)%list_elem_of_fmap. by rewrite sort_nums_perm in Hy. }
  intros [c mid aborted e Hmid Hab|c r Hp Hd Hr]; cbn [app mjoin list_join]; rewrite elem_of_app; intros [Hin|Hin].
  1, 3: left; exists c; by apply Hpp.
  - assert (mjoin (mid ++ (if bool_decide (aborted = []) then [] else [[(DECISION_GROUP, CTxnDecision txn_id false)]; (λ g, (g, CTxnAbort2pc txn_id)) <$> aborted])) ⊆
            [(DECISION_GROUP, CTxnDecision txn_id true); (DECISION_GROUP, CTxnDecision txn_id false)] ++ ((λ g, (g, CTxnAbort2pc txn_id)) <$> aborted)) as Hsub.
    { destruct Hmid as [-> | ->], (bool_decide_reflect (aborted = [])) as [->|]; cbn; set_solver. }
    apply Hsub in Hin. rewrite elem_of_app, !elem_of_cons, elem_of_nil in Hin.
    destruct Hin as [[[= _ ->]|[[= _ ->]|[]]]|(y & [= -> ->] & Hy)%list_elem_of_fmap]; [right; left; by eexists..|].
    right; right; left. destruct (Hab y Hy) as [Hg Ha]. split_and!; [done..|]. exists c. split; [|done].
    apply elem_of_app. left. apply list_elem_of_fmap. exists y. by rewrite sort_nums_perm.
  - rewrite elem_of_cons, elem_of_app, elem_of_nil in Hin. destruct Hin as [[= _ ->]|[Hin|[]]]; [right; left; by eexists|].
    apply list_elem_of_fmap in Hin as (y & [= -> ->] & Hy). right; right; right. split; [done|]. by exists c.
Qed.

(** C19: the coordinator commits only what is decided. If it proposes a commit to some
    participant, then before that every participant answered its prepare and the decision to
    commit was answered as applied; in such a run it proposes no abort. When it reports
    success every participant has also answered the commit. When it proposes an abort, it does
    so only to participants that answered their prepare. *)
Theorem coord_commit_after_decision txn_id ms : let '(res, sent) := commit_cross_group txn_id ms in
  (∀ g, (g, CTxnCommit2pc txn_id) ∈ mjoin sent →
     ∃ prepares commits, sent = [prepares; [(DECISION_GROUP, CTxnDecision txn_id true)]; commits] ∧
       propose DECISION_GROUP (CTxnDecision txn_id true) = AOk ∧
       (∀ g', g' ∈ ms.*1 → ∃ c muts, (g', CTxnPrepare txn_id c muts) ∈ prepares ∧ propose g' (CTxnPrepare txn_id c muts) = AOk) ∧
       (∀ g', (g', CTxnAbort2pc txn_id) ∉ mjoin sent)) ∧
  (res = Ok tt → ∀ g, g ∈ ms.*1 → propose g (CTxnCommit2pc txn_id) = AOk) ∧
  (∀ g, (g, CTxnAbort2pc txn_id) ∈ mjoin sent →
     ∃ c muts, (g, CTxnPrepare txn_id c muts) ∈ mjoin sent ∧ propose g (CTxnPrepare txn_id c muts) = AOk).
Proof.
  destruct (decide ((2 ≤ length ms)%nat ∧ coordinator_group ms ≠ None)) as [[Hl Hc]|Hn].
  2: { destruct (coord_trivial txn_id ms) as [H1 H2].
       { destruct (decide (length ms < 2)%nat); [by left|right]. destruct (coordinator_group ms); [|done]. destruct Hn. split; [lia|done]. }
       destruct (commit_cross_group txn_id ms) as [res sent]. cbn [fst snd] in *. subst sent.
       split_and!; [by intros ? ?%not_elem_of_nil|intros Hr g; rewrite (H2 Hr); by intros ?%not_elem_of_nil|by intros ? ?%not_elem_of_nil]. }
  pose proof (coord_runs txn_id ms Hl Hc) as Hrun. destruct (commit_cross_group txn_id ms) as [res sent]. cbn [fst snd] in *.
  assert (∀ g, (g, CTxnAbort2pc txn_id) ∈ mjoin sent → is_ok res = false ∧
     ∃ c muts, (g, CTxnPrepare txn_id c muts) ∈ mjoin sent ∧ propose g (CTxnPrepare txn_id c muts) = AOk) as Habort.
  { intros g Hin. destruct (coord_sent _ _ _ _ _ _ Hrun Hin) as [(c & _ & ?)|[(b & ?)|[(_ & ? & c & Hc')|[? _]]]]; try done.
    split; [done|]. unfold prepare_cmd in Hc'. by eexists c, _. }
  split_and!; [| |by intros g [_ ?]%Habort].
  2: { destruct Hrun as [c mid aborted e Hmid Hab|c res Hp Hd Hr]; [by intros|exact Hr]. }
  intros g Hin. destruct (coord_sent _ _ _ _ _ _ Hrun Hin) as [(c & _ & ?)|[(b & ?)|[[? _]|[_ (c & Hs)]]]]; try done.
  destruct Hrun as [c1 mid aborted e Hmid Hab|c1 res Hp Hd Hr]; [exfalso|].
  { destruct Hmid as [-> | ->], (bool_decide (aborted = [])); cbn [app] in Hs; try done; injection Hs as _ Hs; try done. }
  injection Hs as E. eexists _, _. split_and!; [reflexivity|done| |].
  - intros g' Hg. unfold prepare_cmd in Hp. eexists c1, _. split; [|by apply Hp]. apply list_elem_of_fmap. exists g'. by rewrite sort_nums_perm.
  - intros g' Hin'. cbn [mjoin list_join] in Hin'. rewrite !elem_of_app, list_elem_of_singleton, elem_of_nil in Hin'.
    destruct Hin' as [(? & ? & _)%list_elem_of_fmap|[?|[(? & ? & _)%list_elem_of_fmap|[]]]]; done.
Qed.
End Coordinator.

(** ** Executing a replicated command *)

Section Apply.
Context {T : Type} `{SstFormat T} (env : N → N * N * N).

(** [apply_command]; membership and range changes are applied elsewhere. *)
Definition apply_command (command : bytes) : task (T:=T) (option N) :=
  match cmd_decode command with
  | Ok (CPut key value) => w ← put env key value None; mret (Some (wr_lsn w))
  | Ok (CDelete key) => w ← Node.delete env key None; mret (Some (wr_lsn w))
  | Ok (CConfigChange _ _) | Ok (CRangeMeta _ _) => mret None
  | Ok (CTxnCommit _ mutations) =>
      if bool_decide (mutations = []) then mret None
      else _ ← apply_mutations env mutations None; mret None
  | Ok (CTxnPrepare txn_id _ mutations) => _ ← apply_txn_prepare env txn_id mutations; mret None
  | Ok (CTxnCommit2pc txn_id) => _ ← apply_txn_commit_2pc env txn_id; mret None
  | Ok (CTxnAbort2pc txn_id) => _ ← apply_txn_abort_2pc env txn_id; mret None
  | Ok (CTxnDecision txn_id commit) => _ ← apply_txn_decision env txn_id commit; mret None
  | Err _ => failed (Internal "corrupt command in log")
  end.

(** A replica applies committed commands one after the other; one that fails is skipped. *)
Definition apply_all (commands : list RaftCommand) (n : Node (T:=T)) : Node (T:=T) :=
  foldl (λ n c, (apply_command (cmd_encode c) n).2) n commands.
End Apply.

(** ** A transaction that half of the replicas commit *)

(** Group 1 and group 2 prepare; the decision to commit is not answered in time, although it
    is committed in group 0; the decision to abort is then refused. *)
Definition slow_decision (g : N) (c : RaftCommand) : answer :=
  match c with CTxnDecision _ true => ATimeout | CTxnDecision _ false => AErr "cannot flip" | _ => AOk end.

Definition split_writes : MutationsByGroup := [(1, [([97], Some [1])]); (2, [([98], Some [2])])].

(** The proposals of a run that go to one group: its log. *)
Definition group_log (g : N) (sent : list (list (N * RaftCommand))) : list RaftCommand :=
  snd <$> filter (λ x, x.1 = g) (mjoin sent).

(** [l] merges the given logs, each in its own order. *)
Fixpoint merges (l : list RaftCommand) (logs : list (list RaftCommand)) : bool :=
  match l with
  | [] => forallb (λ g, bool_decide (g = [])) logs
  | c :: l => existsb (λ i, match logs !! i with
                            | Some (x :: g) => bool_decide (x = c) && merges l (<[i := g]> logs)
                            | _ => false
                            end) (seq 0 (length logs))
  end.

(** Both replicas apply the same logs of the three groups; they differ in when they get to
    the logs of the others. *)
Definition replica_a : list RaftCommand :=
  [CTxnPrepare 7 1 [([97], Some [1])]; CTxnPrepare 7 1 [([98], Some [2])]; CTxnDecision 7 true; CTxnDecision 7 false;
   CTxnAbort2pc 7; CTxnAbort2pc 7].
Definition replica_b : list RaftCommand :=
  [CTxnPrepare 7 1 [([97], Some [1])]; CTxnPrepare 7 1 [([98], Some [2])]; CTxnAbort2pc 7; CTxnAbort2pc 7;
   CTxnDecision 7 true; CTxnDecision 7 false].

(** When the answer to the commit decision is late, the coordinator aborts a transaction
    that is decided to commit. Replicas that have applied exactly the same group logs then
    disagree for good: one that reached the decision before the aborts has both writes, one that
    reached it after has none. *)
Theorem coord_late_decision_diverges :
  let '(res, sent) := commit_cross_group slow_decision 7 split_writes in
  let a := apply_all still replica_a fresh_node in
  let b := apply_all still replica_b fresh_node in
  res = Err DecisionTimedOut ∧
  merges replica_a ((λ g, group_log g sent) <$> [0; 1; 2]) = true ∧ merges replica_b ((λ g, group_log g sent) <$> [0; 1; 2]) = true ∧
  (read_txn_decision 7 a).1 = Done (Some true) ∧ (read_txn_decision 7 b).1 = Done (Some true) ∧
  (get_latest [97] a).1 = Done (Some [1]) ∧ (get_latest [98] a).1 = Done (Some [2]) ∧
  (get_latest [97] b).1 = Done None ∧ (get_latest [98] b).1 = Done None ∧
  (read_txn2pc_state 7 a).1 = Done (Some Committed) ∧ (read_txn2pc_state 7 b).1 = Done (Some Aborted).
Proof. vm_compute. repeat split. Qed.
