(* ===== verification/MultiRaft.v ===== *)
(** [MultiRaftHost] of [kaya-raft/src/multi_raft.rs]: several Raft groups in one process behind
    one tick and one inbox, and that each group behaves as if it were alone. *)
From stdpp Require Import gmap relations.
From S2P Require Import Prelude Bytes Path RaftLog RaftConfig RaftCommand RaftStorage RaftNode RaftElection RaftSafety.

Open Scope N_scope.

Abbreviation MultiRaftHost := (gmap N RaftNode).

Definition host_new : MultiRaftHost := ∅.
Definition host_insert (gid : N) (node : RaftNode) (h : MultiRaftHost) : MultiRaftHost := <[gid := node]> h.
Definition insert_single_node (gid i : N) (h : MultiRaftHost) : MultiRaftHost :=
  host_insert gid (node_new (mkRaftConfig i [] 1 1)) h.
Definition host_remove (gid : N) (h : MultiRaftHost) : option RaftNode * MultiRaftHost := (h !! gid, delete gid h).

(** The groups in ascending order. *)
Definition sorted_group_ids (h : MultiRaftHost) : list N := set_list (dom h).

(** [env.group_id = gid]. *)
Definition stamp (gid : N) (e : Envelope) : Envelope := mkEnvelope (from e) (to e) gid (message e).

(** Runs [f] on each of the groups in turn and collects what they return. *)
Fixpoint each_group {X} (f : N → RaftNode → list X * RaftNode) (ids : list N) (h : MultiRaftHost) : list X * MultiRaftHost :=
  match ids with
  | [] => ([], h)
  | gid :: ids =>
      match h !! gid with
      | None => each_group f ids h
      | Some node =>
          let '(out, node) := f gid node in
          let '(rest, h) := each_group f ids (<[gid := node]> h) in
          (out ++ rest, h)
      end
  end.

(** A node's action with its envelopes stamped. *)
Definition stamped (a : act) (gid : N) (n : RaftNode) : list Envelope * RaftNode :=
  let '(n, out) := a n in (stamp gid <$> out, n).

(** Runs [f] on one group; without the group, [d]. *)
Definition on_group {X} (d : X) (gid : N) (f : RaftNode → X * RaftNode) (h : MultiRaftHost) : X * MultiRaftHost :=
  match h !! gid with
  | None => (d, h)
  | Some node => let '(x, node) := f node in (x, <[gid := node]> h)
  end.

Definition tick_all (h : MultiRaftHost) : list Envelope * MultiRaftHost := each_group (stamped tick) (sorted_group_ids h) h.

Definition host_propose (gid : N) (cmd : bytes) : MultiRaftHost → option N * MultiRaftHost := on_group None gid (propose cmd).

Definition host_handle (env : Envelope) : MultiRaftHost → list Envelope * MultiRaftHost :=
  on_group [] (group_id env) (stamped (handle env) (group_id env)).

Definition handle_group (gid : N) (env : Envelope) : MultiRaftHost → list Envelope * MultiRaftHost := host_handle (stamp gid env).

Definition is_leader_of (gid : N) (h : MultiRaftHost) : bool := default false (is_leader <$> h !! gid).

Inductive HostTransferError : Type := GroupNotHosted (gid : N) | TransferFailed (e : TransferError).

Definition host_transfer_leadership (gid target : N) (h : MultiRaftHost) : result HostTransferError unit * MultiRaftHost :=
  on_group (Err (GroupNotHosted gid)) gid
    (λ n, let '(r, n) := transfer_leadership target n in (match r with Ok u => Ok u | Err e => Err (TransferFailed e) end, n)) h.

Definition is_leader_any (h : MultiRaftHost) : bool := existsb (λ kn, is_leader kn.2) (map_to_list h).

Definition status_of (gid : N) (h : MultiRaftHost) : option RaftStatus := status <$> h !! gid.
Definition primary_status (h : MultiRaftHost) : option RaftStatus := status_of 0 h.

Definition propose_read_group (gid request_id : N) : MultiRaftHost → option N * MultiRaftHost :=
  on_group None gid (propose_read request_id).

Definition broadcast_group (gid : N) : MultiRaftHost → list Envelope * MultiRaftHost :=
  on_group [] gid (stamped broadcast gid).

Definition drain_all_applied (h : MultiRaftHost) : list (N * N * N * bytes) * MultiRaftHost :=
  each_group (λ gid n, let '(l, n) := drain_applied n in ((λ '(idx, term, cmd), (gid, idx, term, cmd)) <$> l, n))
    (sorted_group_ids h) h.

Definition drain_all_ready_reads (h : MultiRaftHost) : list (N * N) * MultiRaftHost :=
  each_group (λ gid n, let '(l, n) := drain_ready_reads n in (pair gid <$> l, n)) (sorted_group_ids h) h.

(** What [for_each_persist_view] hands to its callback. *)
Definition persist_views (h : MultiRaftHost) : list (N * PersistedRaftState) :=
  omap (λ gid, (λ n, (gid, persist_view n)) <$> h !! gid) (sorted_group_ids h).

Definition is_voter_anywhere (i : N) (h : MultiRaftHost) : bool :=
  existsb (λ kn, bool_decide (i ∈ all_voters (effective_config kn.2))) (map_to_list h).

(** The directory of a group, below the data directory. *)
Definition multi_raft_group_dir (data_dir : bytes) (gid : N) : bytes :=
  if gid =? 0 then data_dir else data_dir ++ str "/groups/" ++ str (pretty gid).

(** ** One group at a time *)

Lemma each_group_lookup {X} (f : N → RaftNode → list X * RaftNode) ids h gid : NoDup ids →
  (each_group f ids h).2 !! gid = (if bool_decide (gid ∈ ids) then (λ n, (f gid n).2) <$> h !! gid else h !! gid).
Proof.
  revert h. induction ids as [|g ids IH]; intros h Hd; cbn [each_group]; [done|].
  apply NoDup_cons in Hd as [Hg Hd]. destruct (h !! g) as [n|] eqn:E.
  - destruct (f g n) as [out n'] eqn:Ef. specialize (IH (<[g := n']> h) Hd).
    destruct (each_group f ids (<[g := n']> h)) as [rest h']. cbn [snd] in *. rewrite IH.
    destruct (decide (gid = g)) as [->|Hne].
    + rewrite (bool_decide_eq_false_2 (g ∈ ids)), (bool_decide_eq_true_2 (g ∈ g :: ids)) by (done || left).
      rewrite lookup_insert_eq, E. cbn [fmap option_fmap option_map]. by rewrite Ef.
    + rewrite lookup_insert_ne by done. assert (gid ∈ g :: ids ↔ gid ∈ ids) as Hiff by (rewrite elem_of_cons; naive_solver).
      by rewrite (bool_decide_ext _ _ Hiff).
  - rewrite IH by done. destruct (decide (gid = g)) as [->|Hne].
    + rewrite E. by destruct (bool_decide _), (bool_decide _).
    + assert (gid ∈ g :: ids ↔ gid ∈ ids) as Hiff by (rewrite elem_of_cons; naive_solver). by rewrite (bool_decide_ext _ _ Hiff).
Qed.

(** What the groups return, group by group. *)
Lemma each_group_out {X} (f : N → RaftNode → list X * RaftNode) ids h : NoDup ids →
  (each_group f ids h).1 = ids ≫= λ gid, from_option (λ n, (f gid n).1) [] (h !! gid).
Proof.
  revert h. induction ids as [|g ids IH]; intros h Hd; cbn [each_group]; [done|].
  apply NoDup_cons in Hd as [Hg Hd].
  assert (∀ h', (∀ i, i ∈ ids → h' !! i = h !! i) → (each_group f ids h').1 = ids ≫= λ gid, from_option (λ n, (f gid n).1) [] (h !! gid)) as Hr.
  { intros h' Hh. rewrite IH by done. clear -Hh. induction ids as [|i ids IHi]; [done|]. cbn [mbind list_bind].
    rewrite Hh by left. f_equal. apply IHi. intros j Hj. apply Hh. by right. }
  cbn [mbind list_bind]. destruct (h !! g) as [n|] eqn:E; cbn [from_option]; [|by rewrite Hr].
  destruct (f g n) as [out n'] eqn:Ef. specialize (Hr (<[g := n']> h)).
  destruct (each_group f ids (<[g := n']> h)) as [rest h']. cbn [fst] in *. rewrite Hr; [done|].
  intros i Hi. apply lookup_insert_ne. by intros ->.
Qed.

Lemma each_all_lookup {X} (f : N → RaftNode → list X * RaftNode) h gid :
  (each_group f (sorted_group_ids h) h).2 !! gid = (λ n, (f gid n).2) <$> h !! gid.
Proof.
  rewrite each_group_lookup by apply NoDup_set_list. case_bool_decide as Hin; [done|].
  unfold sorted_group_ids in Hin. rewrite elem_of_set_list, not_elem_of_dom in Hin. by rewrite Hin.
Qed.

(** The part of the output that belongs to one group. *)
Lemma each_all_out {X} (f : N → RaftNode → list X * RaftNode) (key : X → N) h gid : (∀ g n, Forall (λ x, key x = g) (f g n).1) →
  filter (λ x, key x = gid) (each_group f (sorted_group_ids h) h).1 = from_option (λ n, (f gid n).1) [] (h !! gid).
Proof.
  intros Hk. rewrite each_group_out by apply NoDup_set_list. unfold sorted_group_ids.
  assert (∀ ids, NoDup ids → filter (λ x, key x = gid) (ids ≫= λ g, from_option (λ n, (f g n).1) [] (h !! g)) =
            if bool_decide (gid ∈ ids) then from_option (λ n, (f gid n).1) [] (h !! gid) else []) as Hf.
  2: { rewrite Hf by apply NoDup_set_list. case_bool_decide as Hin; [done|].
       rewrite elem_of_set_list, not_elem_of_dom in Hin. by rewrite Hin. }
  assert (∀ g n, filter (λ x, key x = gid) (f g n).1 = if bool_decide (g = gid) then (f g n).1 else []) as Hg.
  { intros g n. specialize (Hk g n). induction Hk as [|x l Hx _ IH]; [by destruct (bool_decide _)|].
    rewrite filter_cons, IH. destruct (decide (key x = gid)) as [E|E], (bool_decide_reflect (g = gid)) as [E'|E']; done || congruence. }
  induction 1 as [|g ids Hni Hd IH]; [done|]. rewrite bind_cons, filter_app, IH. clear IH.
  assert (filter (λ x, key x = gid) (from_option (λ n, (f g n).1) [] (h !! g)) =
          if bool_decide (g = gid) then from_option (λ n, (f g n).1) [] (h !! g) else []) as ->.
  { destruct (h !! g) as [n|]; cbn [from_option]; [apply Hg|by destruct (bool_decide _)]. }
  destruct (bool_decide_reflect (g = gid)) as [->|Hne].
  - rewrite (bool_decide_eq_false_2 (gid ∈ ids)), (bool_decide_eq_true_2 (gid ∈ gid :: ids)) by (done || left). by rewrite app_nil_r.
  - assert (gid ∈ g :: ids ↔ gid ∈ ids) as Hiff by (rewrite elem_of_cons; naive_solver). by rewrite (bool_decide_ext _ _ Hiff).
Qed.

(** ** Every group is an independent Raft node *)

Lemma filter_every {A} (P : A → Prop) `{∀ x, Decision (P x)} l : Forall P l → filter P l = l.
Proof. induction 1 as [|x l Hx _ IH]; [done|]. by rewrite filter_cons_True, IH. Qed.

Lemma filter_no {A} (P : A → Prop) `{∀ x, Decision (P x)} l : Forall (λ x, ¬ P x) l → filter P l = [].
Proof. induction 1 as [|x l Hx _ IH]; [done|]. by rewrite filter_cons_False. Qed.

(** The calls made on a host. *)
Inductive host_event : Type :=
| HTickAll
| HHandle (env : Envelope)
| HGroup (gid : N) (ev : event)
| HDrainApplied
| HDrainReads.

Definition run_host (ev : host_event) (h : MultiRaftHost) : list Envelope * MultiRaftHost :=
  match ev with
  | HTickAll => tick_all h
  | HHandle env => host_handle env h
  | HGroup gid ev => on_group [] gid (stamped (run_event ev) gid) h
  | HDrainApplied => ([], (drain_all_applied h).2)
  | HDrainReads => ([], (drain_all_ready_reads h).2)
  end.

(** What such a call is for one group. *)
Definition event_for (gid : N) (ev : host_event) : option event :=
  match ev with
  | HTickAll => Some ETick
  | HHandle env => if group_id env =? gid then Some (EDeliver env) else None
  | HGroup g ev => if g =? gid then Some ev else None
  | HDrainApplied => Some EDrainApplied
  | HDrainReads => Some EDrainReads
  end.

Definition run_opt (ev : option event) : act := match ev with Some ev => run_event ev | None => skip end.

Lemma stamped_group a gid n : Forall (λ e, group_id e = gid) (stamped a gid n).1.
Proof. unfold stamped. destruct (a n) as [n' out]. cbn. rewrite Forall_fmap. by apply Forall_true. Qed.

Lemma on_group_simulates (a : act) g gid h :
  let x := on_group [] g (stamped a g) h in
  x.2 !! gid = (λ n, if g =? gid then (a n).1 else n) <$> h !! gid ∧
  filter (λ e, group_id e = gid) x.1 = from_option (λ n, if g =? gid then stamp gid <$> (a n).2 else []) [] (h !! gid).
Proof.
  unfold on_group. destruct (N.eqb_spec g gid) as [->|Hne].
  - destruct (h !! gid) as [n|] eqn:Eh; [|cbn; by rewrite Eh]. pose proof (stamped_group a gid n) as Hs. unfold stamped in *.
    destruct (a n) as [n' out] eqn:E. cbn [fst snd from_option fmap option_fmap option_map] in *. rewrite E. cbn [fst snd]. split; [by rewrite lookup_insert_eq|].
    by apply filter_every.
  - assert (filter (λ e, group_id e = gid) (match h !! g with Some n => (stamped a g n).1 | None => [] end) = []) as Hf.
    { destruct (h !! g) as [n|]; [|done]. pose proof (stamped_group a g n) as Hs. apply filter_no. eapply Forall_impl; [exact Hs|]. cbn. congruence. }
    destruct (h !! g) as [n|]; [|by destruct (h !! gid) eqn:Eh; cbn; rewrite Eh]. destruct (stamped a g n) as [out n']. cbn [fst snd] in *.
    rewrite lookup_insert_ne, Hf by done. by destruct (h !! gid).
Qed.

Lemma each_simulates (a : act) gid h :
  let x := each_group (stamped a) (sorted_group_ids h) h in
  x.2 !! gid = (λ n, (a n).1) <$> h !! gid ∧ filter (λ e, group_id e = gid) x.1 = from_option (λ n, stamp gid <$> (a n).2) [] (h !! gid).
Proof.
  cbn zeta. rewrite each_all_lookup, (each_all_out _ group_id) by (intros; apply stamped_group).
  unfold stamped. by destruct (h !! gid) as [n|]; cbn; [destruct (a n)|].
Qed.

Lemma drain_simulates {X} (f : N → RaftNode → list X * RaftNode) ev gid h :
  (∀ n, run_event ev n = ((f gid n).2, [])) →
  (each_group f (sorted_group_ids h) h).2 !! gid = (λ n, (run_event ev n).1) <$> h !! gid ∧
  [] = from_option (λ n, stamp gid <$> (run_event ev n).2) [] (h !! gid).
Proof.
  intros Hf. rewrite each_all_lookup. destruct (h !! gid) as [n|]; cbn; [|done]. by rewrite Hf.
Qed.

Lemma host_simulates ev gid h :
  (run_host ev h).2 !! gid = (λ n, (run_opt (event_for gid ev) n).1) <$> h !! gid ∧
  filter (λ e, group_id e = gid) (run_host ev h).1 = from_option (λ n, stamp gid <$> (run_opt (event_for gid ev) n).2) [] (h !! gid).
Proof.
  destruct ev as [|env|g ev| |]; cbn [run_host event_for run_opt].
  - apply (each_simulates tick).
  - destruct (on_group_simulates (handle env) (group_id env) gid h) as [H1 H2]. unfold host_handle. rewrite H1, H2.
    by destruct (group_id env =? gid), (h !! gid).
  - destruct (on_group_simulates (run_event ev) g gid h) as [H1 H2]. rewrite H1, H2. by destruct (g =? gid), (h !! gid).
  - by apply (drain_simulates _ EDrainApplied).
  - by apply (drain_simulates _ EDrainReads).
Qed.

Fixpoint run_hosts (evs : list host_event) (h : MultiRaftHost) : list Envelope * MultiRaftHost :=
  match evs with
  | [] => ([], h)
  | ev :: evs => let '(out, h) := run_host ev h in let '(rest, h) := run_hosts evs h in (out ++ rest, h)
  end.

(** The run of the node of one group. *)
Fixpoint run_nodes (evs : list event) : act :=
  match evs with [] => skip | ev :: evs => andThen (run_event ev) (run_nodes evs) end.

(** Hosting many groups changes none of them. After any calls on a host, each group is in
    the state its node would have reached alone under the calls that concern it, and the
    envelopes the host sent for the group are those of the node, in order, stamped with the
    group; groups neither appear nor vanish. *)
Theorem multiraft_groups_independent evs h gid :
  (run_hosts evs h).2 !! gid = (λ n, (run_nodes (omap (event_for gid) evs) n).1) <$> h !! gid ∧
  filter (λ e, group_id e = gid) (run_hosts evs h).1 =
    from_option (λ n, stamp gid <$> (run_nodes (omap (event_for gid) evs) n).2) [] (h !! gid).
Proof.
  revert h. induction evs as [|ev evs IH]; intros h; cbn [run_hosts].
  { cbn. by destruct (h !! gid). }
  destruct (host_simulates ev gid h) as [H1 H2]. destruct (run_host ev h) as [out h1]. cbn [fst snd] in *.
  specialize (IH h1). destruct (run_hosts evs h1) as [rest h2]. cbn [fst snd] in *. destruct IH as [IH1 IH2].
  rewrite IH1, filter_app, H2, IH2, H1. destruct (h !! gid) as [n|]; [|done].
  cbn [fmap option_fmap option_map from_option omap list_omap]. destruct (event_for gid ev) as [nev|]; cbn [run_opt]; [|done].
  cbn [run_nodes]. unfold andThen. destruct (run_event nev n) as [n1 o1]. cbn [fst snd].
  change (list_omap ?A ?B ?f ?l) with (omap f l). destruct (run_nodes (omap (event_for gid) evs) n1) as [n2 o2]. cbn [fst snd].
  by rewrite fmap_app.
Qed.

(** * Election safety of a fleet of multi-Raft hosts: the processes of a cluster, each hosting several groups and exchanging stamped envelopes over one wire. *)

(** The hosts by process, every envelope sent so far, and which process ever hosted which group. *)
Record fleet := mkFleet { hosts : gmap N MultiRaftHost; wire : list Envelope; ever : gset (N * N) }.

(** A call on a host, the delivery of an envelope, and what a process does when ranges move: it
    starts to host a group with a new node, or drops one. *)
Inductive fleet_event : Type :=
| FNode (i : N) (ev : host_event)
| FDeliver (k : nat)
| FHost (i gid : N) (c : RaftConfig)
| FUnhost (i gid : N).

(** A restart of a group's node keeps its identity; envelopes come from the wire only. *)
Definition host_event_ok (ev : host_event) (h : MultiRaftHost) : bool :=
  match ev with
  | HHandle _ | HGroup _ (EDeliver _) => false
  | HGroup g ev => match h !! g with Some n => event_ok ev n | None => true end
  | _ => true
  end.

Definition run_on (i : N) (ev : host_event) (h : MultiRaftHost) (F : fleet) : fleet :=
  let '(out, h') := run_host ev h in mkFleet (<[i := h']> (hosts F)) (wire F ++ out) (ever F).

Definition fleet_step (ev : fleet_event) (F : fleet) : option fleet :=
  match ev with
  | FNode i ev => h ← hosts F !! i; if host_event_ok ev h then Some (run_on i ev h F) else None
  | FDeliver k => e ← wire F !! k; h ← hosts F !! to e; Some (run_on (to e) (HHandle e) h F)
  | FHost i gid c =>
      h ← hosts F !! i;
      if bool_decide (h !! gid = None) && bool_decide ((i, gid) ∉ ever F) && (id c =? i)
      then Some (mkFleet (<[i := host_insert gid (node_new c) h]> (hosts F)) (wire F) ({[(i, gid)]} ∪ ever F)) else None
  | FUnhost i gid => h ← hosts F !! i; Some (mkFleet (<[i := (host_remove gid h).2]> (hosts F)) (wire F) (ever F))
  end.

(** The nodes of group [g]. *)
Definition group_nodes (g : N) (F : fleet) : gmap N RaftNode := omap (λ h, h !! g) (hosts F).

(** Every node of the group has the voters [V]. *)
Definition voters_are (V : gset N) (g : N) (F : fleet) : Prop :=
  map_Forall (λ _ n, effective_config n = stable V) (group_nodes g F).

(** The steps after which the voters of group [g] are [V]; the other groups may do anything. *)
Definition fstep (V : gset N) (g : N) (F F' : fleet) : Prop := (∃ ev, fleet_step ev F = Some F') ∧ voters_are V g F'.

(** The run of a list of events, when the voters of [g] are [V] after each of them. *)
Fixpoint fleet_run (V : gset N) (g : N) (evs : list fleet_event) (F : fleet) : option fleet :=
  match evs with
  | [] => Some F
  | ev :: evs =>
      F ← fleet_step ev F;
      if bool_decide (map_Forall (λ _ n, effective_config n = stable V) (group_nodes g F)) then fleet_run V g evs F else None
  end.

Definition fleet_init (V : gset N) (g : N) (F : fleet) : Prop :=
  wire F = [] ∧ ∀ i n, group_nodes g F !! i = Some n →
    (i, g) ∈ ever F ∧ ∃ c, id c = i ∧ {[id c]} ∪ list_to_set (peers c) = V ∧ n = node_new c.

(** ** One group of a fleet is a Raft cluster *)

(** [late] are the nodes of the group that processes will start: in the cluster they are there from
    the start and do nothing, as those do that a process has dropped. The envelopes of the cluster
    carry no group. *)
Record projects (late : gmap N RaftNode) (g : N) (F : fleet) (C : cluster) : Prop := {
  pj_nodes : ∀ i n, group_nodes g F !! i = Some n → nodes C !! i = Some n;
  pj_late : ∀ i n, late !! i = Some n → (i, g) ∉ ever F → nodes C !! i = Some n;
  pj_ever : ∀ i n, group_nodes g F !! i = Some n → (i, g) ∈ ever F;
  pj_wire : filter (λ e, group_id e = g) (wire F) = stamp g <$> sent C
}.

Lemma group_nodes_insert g i h F w ev : group_nodes g (mkFleet (<[i := h]> (hosts F)) w ev) =
  match h !! g with Some n => <[i := n]> (group_nodes g F) | None => delete i (group_nodes g F) end.
Proof.
  unfold group_nodes. cbn. apply map_eq. intros j. rewrite lookup_omap. destruct (decide (j = i)) as [->|Hne].
  - rewrite lookup_insert_eq. cbn. destruct (h !! g); by rewrite ?lookup_insert_eq, ?lookup_delete_eq.
  - rewrite lookup_insert_ne by done. destruct (h !! g); by rewrite ?lookup_insert_ne, ?lookup_delete_ne, lookup_omap by done.
Qed.

Lemma group_nodes_lookup g i h F : hosts F !! i = Some h → group_nodes g F !! i = h !! g.
Proof. intros Hh. unfold group_nodes. by rewrite lookup_omap, Hh. Qed.

(** The same nodes and more on the wire, or fewer nodes. *)
Lemma projects_within late g F F' C : projects late g F C → group_nodes g F' ⊆ group_nodes g F → ever F' = ever F →
  filter (λ e, group_id e = g) (wire F') = filter (λ e, group_id e = g) (wire F) → projects late g F' C.
Proof.
  intros [H1 H2 H3 H4] Hs He Hw. split; rewrite ?He, ?Hw; try done.
  - intros i n Hn. eapply H1, lookup_weaken; [exact Hn|done].
  - intros i n Hn. eapply H3, lookup_weaken; [exact Hn|done].
Qed.

(** A step of a host is nothing for the group, or one event of its node. *)
Lemma run_on_projects late V g i ev h F C : projects late g F C → hosts F !! i = Some h → voters_are V g (run_on i ev h F) →
  match h !! g, event_for g ev with
  | Some n, Some nev =>
      effective_config (run_event nev n).1 = stable V ∧
      projects late g (run_on i ev h F) (mkCluster (<[i := (run_event nev n).1]> (nodes C)) (sent C ++ (run_event nev n).2))
  | _, _ => projects late g (run_on i ev h F) C
  end.
Proof.
  intros Hp Hh. unfold run_on. destruct (host_simulates ev g h) as [H1 H2]. destruct (run_host ev h) as [out h'].
  cbn [fst snd] in *. pose proof (group_nodes_lookup g i h F Hh) as Hl. intros HV.
  destruct (h !! g) as [n|] eqn:Eg; cbn [fmap option_fmap option_map from_option] in *.
  - destruct (event_for g ev) as [nev|]; cbn [run_opt] in *.
    + split; [apply (HV i); by rewrite group_nodes_insert, H1, lookup_insert_eq|]. destruct Hp as [P1 P2 P3 P4].
      split; cbn [nodes sent wire ever]; rewrite ?group_nodes_insert, ?H1.
      * intros j m [[<- <-]|[Hne Hm]]%lookup_insert_Some; [by rewrite lookup_insert_eq|]. rewrite lookup_insert_ne by done. by apply P1.
      * intros j m Hm Hj. destruct (decide (i = j)) as [<-|Hne]; [by destruct Hj; eapply P3|]. rewrite lookup_insert_ne by done. by apply P2.
      * intros j m [[<- _]|[Hne Hm]]%lookup_insert_Some; by eapply P3.
      * by rewrite filter_app, P4, H2, fmap_app.
    + eapply projects_within; [exact Hp|..]; cbn [wire ever]; [|done|by rewrite filter_app, H2, app_nil_r].
      rewrite group_nodes_insert, H1. unfold skip. cbn [fst]. by rewrite insert_id.
  - eapply projects_within; [exact Hp|..]; cbn [wire ever]; [|done|by rewrite filter_app, H2, app_nil_r].
    rewrite group_nodes_insert, H1. apply delete_subseteq.
Qed.

Lemma step_node_event V i ev n C : nodes C !! i = Some n → event_ok ev n = true → effective_config (run_event ev n).1 = stable V →
  step_node V i ev C = Some (mkCluster (<[i := (run_event ev n).1]> (nodes C)) (sent C ++ (run_event ev n).2)).
Proof.
  intros Hn Ho He. unfold step_node. rewrite Hn. cbn [mbind option_bind]. rewrite Ho.
  destruct (run_event ev n) as [n' out]. by rewrite bool_decide_eq_true_2.
Qed.

(** A step all of whose new nodes of the group are in [late]. *)
Definition foreseen (late : gmap N RaftNode) (g : N) (ev : fleet_event) : Prop :=
  match ev with FHost i gid c => gid = g → late !! i = Some (node_new c) | _ => True end.

Lemma node_step_projects late V g i ev h F C : hosts F !! i = Some h → host_event_ok ev h = true → voters_are V g (run_on i ev h F) →
  projects late g F C → ∃ C', rtc (cstep V) C C' ∧ projects late g (run_on i ev h F) C'.
Proof.
  intros Hh Eo HV Hp. pose proof (run_on_projects late V g i ev h F C Hp Hh HV) as Hr. pose proof (group_nodes_lookup g i h F Hh) as Hl.
  destruct (h !! g) as [n|] eqn:Hg; [|by exists C]. destruct (event_for g ev) as [nev|] eqn:Ee; [|by exists C].
  destruct Hr as [Hc Hr]. eexists. split; [|exact Hr]. apply rtc_once. exists (CNode i nev).
  assert (event_ok nev n = true ∧ ∀ e, nev ≠ EDeliver e) as [Ho Hnd].
  { destruct ev as [|e|g' ev| |]; cbn in Ee, Eo; try done; try (by injection Ee as <-).
    destruct (N.eqb_spec g' g) as [->|]; [|done]. injection Ee as ->. rewrite Hg in Eo. by destruct nev. }
  cbn [cluster_step]. destruct nev; try (by apply step_node_event; [apply (pj_nodes _ g F C Hp)|..]). by destruct (Hnd e).
Qed.

Lemma deliver_projects late V g k e h F C : wire F !! k = Some e → hosts F !! to e = Some h → voters_are V g (run_on (to e) (HHandle e) h F) →
  projects late g F C → ∃ C', rtc (cstep V) C C' ∧ projects late g (run_on (to e) (HHandle e) h F) C'.
Proof.
  intros Ek Hh HV Hp.
  pose proof (run_on_projects late V g (to e) (HHandle e) h F C Hp Hh HV) as Hr. pose proof (group_nodes_lookup g (to e) h F Hh) as Hl.
  destruct (h !! g) as [n|] eqn:Hg; [|by exists C]. cbn [event_for] in Hr. destruct (N.eqb_spec (group_id e) g) as [E|]; [|by exists C].
  destruct Hr as [Hc Hr]. eexists. split; [|exact Hr]. apply rtc_once.
  assert (e ∈ stamp g <$> sent C) as (e0 & -> & [k' Hk']%list_elem_of_lookup)%list_elem_of_fmap.
  { rewrite <-(pj_wire _ g F C Hp). apply list_elem_of_filter. split; [done|]. by eapply list_elem_of_lookup_2. }
  exists (CDeliver k'). cbn [cluster_step]. rewrite Hk'. cbn [mbind option_bind].
  apply (step_node_event V (to e0) (EDeliver e0) n C); [by apply (pj_nodes _ g F C Hp)|done|exact Hc].
Qed.

Lemma fstep_projects late V g ev F F' C : fleet_step ev F = Some F' → voters_are V g F' → foreseen late g ev → projects late g F C →
  ∃ C', rtc (cstep V) C C' ∧ projects late g F' C'.
Proof.
  intros Hs HV Hf Hp. destruct ev as [i ev|k|i gid c|i gid]; cbn [fleet_step] in Hs.
  - destruct (hosts F !! i) as [h|] eqn:Hh; [|done]. cbn [mbind option_bind] in Hs.
    destruct (host_event_ok ev h) eqn:Eo; [|done]. injection Hs as <-. by apply node_step_projects.
  - destruct (wire F !! k) as [e|] eqn:Ek; [|done]. cbn [mbind option_bind] in Hs.
    destruct (hosts F !! to e) as [h|] eqn:Hh; [|done]. injection Hs as <-. by eapply deliver_projects.
  - exists C. split; [done|]. destruct (hosts F !! i) as [h|] eqn:Hh; [|done]. cbn [mbind option_bind] in Hs.
    destruct (_ && _) eqn:Ec; [|done]. injection Hs as <-.
    apply andb_true_iff in Ec as [[Ec1%bool_decide_eq_true Ec2%bool_decide_eq_true]%andb_true_iff _].
    pose proof (group_nodes_lookup g i h F Hh) as Hl. destruct Hp as [P1 P2 P3 P4]. cbn [foreseen] in Hf.
    destruct (decide (gid = g)) as [->|Hne].
    + split; cbn [wire ever]; try rewrite group_nodes_insert; unfold host_insert; try rewrite lookup_insert_eq; [..|done].
      * intros j m [[<- <-]|[Hne Hm]]%lookup_insert_Some; [|by apply P1]. apply P2; [by apply Hf|done].
      * intros j m Hm Hj. apply P2; set_solver.
      * intros j m [[<- _]|[Hne Hm]]%lookup_insert_Some; [set_solver|]. apply P3 in Hm. set_solver.
    + assert (group_nodes g (mkFleet (<[i := host_insert gid (node_new c) h]> (hosts F)) (wire F) ({[(i, gid)]} ∪ ever F)) = group_nodes g F) as E.
      { rewrite group_nodes_insert. unfold host_insert. rewrite lookup_insert_ne by done. rewrite <-Hl.
        destruct (group_nodes g F !! i) eqn:E; [by rewrite insert_id|by rewrite delete_id]. }
      split; rewrite ?E; cbn [wire ever]; [done| |intros j m Hm%P3; set_solver|done]. intros j m Hm Hj. apply P2; set_solver.
  - exists C. split; [done|]. destruct (hosts F !! i) as [h|] eqn:Hh; [|done]. cbn [mbind option_bind] in Hs. injection Hs as <-.
    pose proof (group_nodes_lookup g i h F Hh) as Hl. eapply projects_within; [exact Hp| |done|done].
    rewrite group_nodes_insert. cbn [host_remove snd]. destruct (decide (gid = g)) as [->|Hne].
    + rewrite lookup_delete_eq. apply delete_subseteq.
    + rewrite lookup_delete_ne by done. rewrite <-Hl. destruct (group_nodes g F !! i) eqn:E; [by rewrite insert_id|apply delete_subseteq].
Qed.

(** The steps whose new nodes of the group are in [late]. *)
Definition lstep (late : gmap N RaftNode) (V : gset N) (g : N) (F F' : fleet) : Prop :=
  ∃ ev, fleet_step ev F = Some F' ∧ voters_are V g F' ∧ foreseen late g ev.

Lemma lsteps_project late V g F F' C : rtc (lstep late V g) F F' → projects late g F C → ∃ C', rtc (cstep V) C C' ∧ projects late g F' C'.
Proof.
  intros Hs. revert C. induction Hs as [F|F F1 F' (ev & He & HV & Hf) _ IH]; intros C Hp; [by exists C|].
  destruct (fstep_projects late V g ev F F1 C He HV Hf Hp) as (C1 & Hc1 & Hp1). destruct (IH C1 Hp1) as (C2 & Hc2 & Hp2).
  exists C2. split; [by etrans|done].
Qed.

(** Which process hosted which group is never forgotten, and nobody hosts a group twice. *)
Lemma ever_step ev F F' : fleet_step ev F = Some F' → ever F ⊆ ever F' ∧
  match ev with FHost i gid _ => (i, gid) ∉ ever F ∧ (i, gid) ∈ ever F' | _ => True end.
Proof.
  destruct ev as [i ev|k|i gid c|i gid]; cbn [fleet_step].
  - destruct (hosts F !! i) as [h|]; [|done]. cbn [mbind option_bind]. destruct (host_event_ok ev h); [|done]. intros [= <-].
    unfold run_on. by destruct (run_host ev h).
  - destruct (wire F !! k) as [e|]; [|done]. cbn [mbind option_bind]. destruct (hosts F !! to e) as [h|]; [|done]. intros [= <-].
    unfold run_on. by destruct (run_host _ h).
  - destruct (hosts F !! i) as [h|]; [|done]. cbn [mbind option_bind]. destruct (_ && _) eqn:Ec; [|done]. intros [= <-].
    apply andb_true_iff in Ec as [[_ Ec%bool_decide_eq_true]%andb_true_iff _]. cbn [ever]. set_solver.
  - destruct (hosts F !! i) as [h|]; [|done]. by intros [= <-].
Qed.

Lemma lsteps_weaken late late' V g F F' : late ⊆ late' → rtc (lstep late V g) F F' → rtc (lstep late' V g) F F'.
Proof.
  intros Hl Hs. induction Hs as [F|F F1 F' (ev & He & HV & Hf) _ IH]; [done|]. eapply rtc_l; [|exact IH]. exists ev.
  split_and!; [done..|]. destruct ev as [| |j gid c|]; try done. intros E. eapply lookup_weaken; [by apply Hf|done].
Qed.

(** The nodes a run starts, each of the voters [V]. *)
Definition fresh_nodes (V : gset N) (late : gmap N RaftNode) : Prop :=
  map_Forall (λ i n, ∃ c, id c = i ∧ {[id c]} ∪ list_to_set (peers c) = V ∧ n = node_new c) late.

Lemma started_voters V g i gid c F F' : fleet_step (FHost i gid c) F = Some F' → gid = g → voters_are V g F' →
  id c = i ∧ {[id c]} ∪ list_to_set (peers c) = V.
Proof.
  cbn [fleet_step]. destruct (hosts F !! i) as [h|] eqn:Hh; [|done]. cbn [mbind option_bind]. destruct (_ && _) eqn:Ec; [|done].
  intros [= <-] -> HV. apply andb_true_iff in Ec as [_ Ec%N.eqb_eq]. split; [done|].
  assert (effective_config (node_new c) = stable V) as E.
  { apply (HV i). rewrite group_nodes_insert. unfold host_insert. by rewrite lookup_insert_eq, lookup_insert_eq. }
  cbn in E. by injection E as E.
Qed.

Lemma steps_foreseen V g F F' late : rtc (fstep V g) F F' → fresh_nodes V late → (∀ i, is_Some (late !! i) → (i, g) ∉ ever F') →
  ∃ late', late ⊆ late' ∧ fresh_nodes V late' ∧ rtc (lstep late' V g) F F' ∧ ∀ i, is_Some (late' !! i) → (i, g) ∉ ever F.
Proof.
  intros Hs Hfr. induction Hs as [F|F F1 F' [[ev He] HV] _ IH]; intros Hnot; [by exists late|].
  destruct (IH Hnot) as (late' & Hsub' & Hl & Hs & Hn). destruct (ever_step _ _ _ He) as [Hsub Hev].
  assert ((∀ i gid c, ev = FHost i gid c → gid ≠ g) ∨ ∃ i c, ev = FHost i g c) as [Ho|(i & c & ->)].
  { destruct ev as [| |i gid c|]; try (by left). destruct (decide (gid = g)) as [->|]; [right; eauto|]. left. intros ??? [= -> -> ->]. done. }
  - exists late'. split_and!; [done|done| |intros i Hi; specialize (Hn i Hi); set_solver].
    eapply rtc_l; [|exact Hs]. exists ev. split_and!; [done..|]. destruct ev as [| |i gid c|]; try done. intros ->. by destruct (Ho i g c).
  - destruct (started_voters V g i g c F F1 He eq_refl HV) as [H1 H2]. destruct Hev as [Hi1 Hi2].
    assert (late' ⊆ <[i := node_new c]> late') as Hext.
    { apply insert_subseteq. destruct (late' !! i) as [n|] eqn:E; [|done]. by destruct (Hn i ltac:(eauto)). }
    exists (<[i := node_new c]> late'). split_and!.
    + by etrans.
    + apply map_Forall_insert_2; [by exists c|done].
    + eapply rtc_l; [|by eapply lsteps_weaken]. exists (FHost i g c). split_and!; [done..|]. intros _. by rewrite lookup_insert_eq.
    + intros j [n [[<- _]|[_ Hj]]%lookup_insert_Some]; [done|]. assert ((j, g) ∉ ever F1) by (apply Hn; by eexists). set_solver.
Qed.

Lemma init_projects late V g F : fleet_init V g F → fresh_nodes V late → (∀ i, is_Some (late !! i) → (i, g) ∉ ever F) →
  ∃ C, cluster_init V C ∧ projects late g F C.
Proof.
  intros [Hw Hn] Hl He. exists (mkCluster (group_nodes g F ∪ late) []). split; [split; [done|]|split; cbn [nodes sent]].
  - intros i n [Hi|[_ Hi]]%lookup_union_Some_raw; [by apply Hn|]. by apply (Hl i).
  - intros i n Hi. by apply lookup_union_Some_l.
  - intros i n Hi Hnot. apply lookup_union_Some_raw. right. split; [|done].
    destruct (group_nodes g F !! i) as [m|] eqn:E; [|done]. by destruct Hnot; eapply Hn.
  - intros i n Hi. by eapply Hn.
  - by rewrite Hw.
Qed.

(** C15: election safety of every group of a fleet. Processes run and lose and duplicate envelopes as
    they like, start hosting groups and drop them, restart, and anything may happen in the other
    groups; but the group [g] starts from new nodes, its voters stay an odd set [V], a node of it
    that restarts has the state it had when its last envelopes left (which the disk holds if it
    was written before), and a process that dropped the group does not host it again. Then the
    group never has two leaders of one term: a leader of the group at one point and a leader of
    it in the same term at that or any later point are the same process. *)
Theorem multiraft_election_safety V g F0 F1 F2 i j ni nj : Nat.odd (size V) = true → fleet_init V g F0 →
  rtc (fstep V g) F0 F1 → rtc (fstep V g) F1 F2 →
  group_nodes g F1 !! i = Some ni → role ni = Leader →
  group_nodes g F2 !! j = Some nj → role nj = Leader →
  current_term ni = current_term nj → i = j.
Proof.
  intros Ho Hi H01 H12 Hni Hri Hnj Hrj Ht.
  destruct (steps_foreseen V g F1 F2 ∅ H12) as (late1 & _ & Hl1 & Hs1 & Hn1); [apply map_Forall_empty|by intros i' [n Hn]; rewrite lookup_empty in Hn|].
  destruct (steps_foreseen V g F0 F1 late1 H01 Hl1 Hn1) as (late & Hsub & Hl & Hs0 & Hn0).
  destruct (init_projects late V g F0 Hi Hl Hn0) as (C0 & HC0 & Hp0).
  destruct (lsteps_project late V g F0 F1 C0 Hs0 Hp0) as (C1 & HC1 & Hp1).
  destruct (lsteps_project late V g F1 F2 C1 (lsteps_weaken _ _ _ _ _ _ Hsub Hs1) Hp1) as (C2 & HC2 & Hp2).
  apply (one_leader_per_term V C0 C1 C2 i j ni nj); try done; [by apply (pj_nodes _ _ _ _ Hp1)|by apply (pj_nodes _ _ _ _ Hp2)].
Qed.

(** ** A run *)

(** Three processes that host group 0; the first two host group 4 as well. *)
Definition demo_host (c : RaftConfig) : MultiRaftHost := host_insert 4 (node_new c) (host_insert 0 (node_new c) host_new).
Definition demo_late : RaftConfig := mkRaftConfig 3 [1; 2] 5 1.
Definition demo_fleet : fleet :=
  mkFleet (list_to_map [(1, demo_host (mkRaftConfig 1 [2; 3] 1 1)); (2, demo_host (mkRaftConfig 2 [1; 3] 5 1));
                        (3, host_insert 0 (node_new demo_late) host_new)])
    [] (list_to_set [(1, 0); (1, 4); (2, 0); (2, 4); (3, 0)]).

(** Process 1 campaigns in both groups; process 3 starts to host group 4; process 2 grants the
    request for group 4 and later drops the group. *)
Definition demo_fleet_events : list fleet_event := [FNode 1 HTickAll; FHost 3 4 demo_late; FDeliver 2; FDeliver 4; FUnhost 2 4].

Definition fleet_role_term (g i : N) (F : fleet) : option (Role * N) := (λ n, (role n, current_term n)) <$> group_nodes g F !! i.

Lemma fleet_run_steps V g evs F F' : fleet_run V g evs F = Some F' → rtc (fstep V g) F F'.
Proof.
  revert F. induction evs as [|ev evs IH]; intros F; cbn [fleet_run]; [by intros [= <-]|].
  destruct (fleet_step ev F) as [F1|] eqn:E; [|done]. cbn [mbind option_bind]. case_bool_decide as HV; [|done].
  intros Hr. eapply rtc_l; [|by apply IH]. split; [by exists ev|done].
Qed.

Lemma demo_fleet_init : fleet_init {[1; 2; 3]} 4 demo_fleet.
Proof.
  split; [done|]. intros i n (h & Hn & Hh)%lookup_omap_Some. apply elem_of_list_to_map_2 in Hh. rewrite !elem_of_cons in Hh.
  unfold demo_host, host_insert, host_new in Hh.
  destruct Hh as [E|[E|[E|[]%elem_of_nil]]]; simplify_eq; rewrite lookup_insert_eq in Hn; simplify_eq.
  all: split; [by apply (bool_decide_unpack _)|]; eexists; split_and!; [| |reflexivity]; by vm_compute.
Qed.

Lemma fleet_role_term_Some g i F r t : fleet_role_term g i F = Some (r, t) →
  ∃ n, group_nodes g F !! i = Some n ∧ role n = r ∧ current_term n = t.
Proof. intros (n & E & [= -> ->])%fmap_Some. by exists n. Qed.

Lemma multiraft_election_safety_witness :
  ∃ F ni, fleet_run {[1; 2; 3]} 4 demo_fleet_events demo_fleet = Some F ∧
    group_nodes 4 F !! 1 = Some ni ∧ role ni = Leader ∧
    ∀ j nj, group_nodes 4 F !! j = Some nj → role nj = Leader → current_term ni = current_term nj → 1 = j.
Proof.
  assert (fleet_role_term 4 1 <$> fleet_run {[1; 2; 3]} 4 demo_fleet_events demo_fleet = Some (Some (Leader, 1)))
    as (F & E & En%eq_sym)%fmap_Some by by vm_compute.
  apply fleet_role_term_Some in En as (ni & En & Hr & _). exists F, ni.
  split_and!; [exact E|exact En|exact Hr|]. intros j nj Hj Hrj Ht.
  apply (multiraft_election_safety {[1; 2; 3]} 4 demo_fleet F F 1 j ni nj);
    [by vm_compute|apply demo_fleet_init|exact (fleet_run_steps _ _ demo_fleet_events _ _ E)
    |reflexivity|exact En|exact Hr|exact Hj|exact Hrj|exact Ht].
Defined.
