(* ===== verification/ClientCodec.v ===== *)
(** The client protocol of [kaya-net]: the payload codecs of [codec.rs], the framing of
    tokens and epochs around a payload, and the request and response frames of
    [transport.rs]. *)
From S2P Require Import Prelude Bytes Core RaftCommand RaftLog RaftNode NetCodec.

Open Scope N_scope.

(** ** Opcodes and statuses *)

Definition PROTO_VERSION : N := 1.
Definition HELLO_OPCODE : N := 0.
Definition ADD_MEMBER_OPCODE : N := 7.
Definition REMOVE_MEMBER_OPCODE : N := 8.
Definition TXN_BEGIN_OPCODE : N := 9.
Definition TXN_OP_OPCODE : N := 10.
Definition TXN_COMMIT_OPCODE : N := 11.
Definition TXN_ROLLBACK_OPCODE : N := 12.
Definition CDC_POLL_OPCODE : N := 13.
Definition CDC_CHECKPOINT_OPCODE : N := 14.
Definition LIST_RANGES_OPCODE : N := 15.
Definition SPLIT_RANGE_OPCODE : N := 16.
Definition MERGE_RANGE_OPCODE : N := 17.
Definition TRANSFER_LEADER_OPCODE : N := 18.
Definition PROMOTE_LEARNER_OPCODE : N := 19.
Definition REBALANCE_PLAN_OPCODE : N := 20.
Definition MOVE_RANGE_OPCODE : N := 21.
Definition TXN_FORWARD_OPCODE : N := 22.

Definition CDC_EVENT_PUT : N := 1.
Definition CDC_EVENT_DELETE : N := 2.
Definition TXN_OP_GET : N := 1.
Definition TXN_OP_PUT : N := 2.
Definition TXN_OP_DELETE : N := 3.

Definition STATUS_OK : N := 0.
Definition STATUS_INVALID_ARGUMENT : N := 1.
Definition STATUS_NOT_FOUND : N := 2.
Definition STATUS_TXN_CONFLICT : N := 3.
Definition STATUS_ERROR : N := 9.
Definition STATUS_NOT_LEADER : N := 10.
Definition STATUS_RANGE_MOVED : N := 11.

(** ["ADMIN\x00"], ["CLIENT\x00"] and ["MEPO"]. *)
Definition ADMIN_AUTH_PREFIX : bytes := [65; 68; 77; 73; 78; 0].
Definition CLIENT_AUTH_PREFIX : bytes := [67; 76; 73; 69; 78; 84; 0].
Definition META_EPOCH_PREFIX : bytes := [77; 69; 80; 79].

(** The opcodes of the enumeration in [lib.rs]. *)
Inductive Opcode : Type :=
| OcHello | OcPut | OcGet | OcDelete | OcScan | OcHealth | OcStats | OcAddMember | OcRemoveMember | OcTxnBegin | OcTxnOp | OcTxnCommit | OcTxnRollback
| OcCdcPoll | OcCdcCheckpoint | OcListRanges | OcSplitRange | OcMergeRange | OcTransferLeader | OcPromoteLearner | OcRebalancePlan.

Definition from_wire (value : N) : result KayaError Opcode :=
  match value with
  | 0 => Ok OcHello | 1 => Ok OcPut | 2 => Ok OcGet | 3 => Ok OcDelete | 4 => Ok OcScan | 5 => Ok OcHealth | 6 => Ok OcStats
  | 7 => Ok OcAddMember | 8 => Ok OcRemoveMember | 9 => Ok OcTxnBegin | 10 => Ok OcTxnOp | 11 => Ok OcTxnCommit | 12 => Ok OcTxnRollback
  | 13 => Ok OcCdcPoll | 14 => Ok OcCdcCheckpoint | 15 => Ok OcListRanges | 16 => Ok OcSplitRange | 17 => Ok OcMergeRange
  | 18 => Ok OcTransferLeader | 19 => Ok OcPromoteLearner | 20 => Ok OcRebalancePlan
  | _ => Err (InvalidArgument "unknown protocol opcode")
  end.

(** ** Payloads *)

(** A decoder reads from the start of the payload; what follows is left unread. *)
Definition decoded {A} (p : parser NetError A) (data : bytes) : result NetError A := fst <$> p data.

(** [len as u16] and [len as u32] before the bytes they count. *)
Definition push_len16 (b : bytes) : bytes := le_bytes 2 (wrap 65536 (lenN b)).
Definition push_str (b : bytes) : bytes := push_len b ++ b.
Definition take_str : parser NetError bytes := n ← take_u32; take_bytes n.
(** [String::from_utf8]. *)
Definition as_utf8 (what : string) (b : bytes) : parser NetError bytes := if utf8_valid b then mret b else perr (NotUtf8 what).

Definition encode_txn_forward_payload (group_id : N) (cmd : bytes) : bytes := le_bytes 8 group_id ++ cmd.
Definition decode_txn_forward_payload (payload : bytes) : result NetError (N * bytes) :=
  if (length payload <? 9)%nat then Err (NetText "TXN_FORWARD payload must carry a group id and a command")
  else Ok (le_val (take 8 payload), drop 8 payload).

Definition encode_hello_request (version : N) : bytes := le_bytes 2 version.
Definition decode_hello_request (data : bytes) : result NetError N :=
  decoded (p_le (NetText "truncated HELLO request payload") 2) data.
Definition encode_hello_response (version : N) : bytes := le_bytes 2 version.
Definition decode_hello_response (data : bytes) : result NetError N :=
  decoded (p_le (NetText "truncated HELLO response payload") 2) data.

Definition encode_put_payload (key value : bytes) : bytes := push_len key ++ push_len value ++ key ++ value.
Definition decode_put_payload (data : bytes) : result NetError (bytes * bytes) :=
  decoded (key_len ← take_u32; value_len ← take_u32; key ← take_bytes key_len; value ← take_bytes value_len; mret (key, value)) data.

Definition encode_key_payload (key : bytes) : bytes := push_str key.
Definition decode_key_payload (data : bytes) : result NetError bytes := decoded take_str data.

Definition encode_member_payload_with_learner (node_id : N) (raft_addr client_addr : bytes) (is_learner : bool) : bytes :=
  le_bytes 8 node_id ++ push_str raft_addr ++ push_str client_addr ++ [flag_byte is_learner].
Definition encode_member_payload (node_id : N) (raft_addr client_addr : bytes) : bytes :=
  encode_member_payload_with_learner node_id raft_addr client_addr false.
(** The flag of older payloads is missing. *)
Definition take_optional_flag : parser NetError bool := λ cur, match cur with [] => Ok (false, []) | _ => take_flag cur end.
Definition decode_member_payload (data : bytes) : result NetError (N * bytes * bytes * bool) :=
  decoded (node_id ← take_u64;
           raft ← take_str; raft ← as_utf8 "raft addr" raft;
           client ← take_str; client ← as_utf8 "client addr" client;
           is_learner ← take_optional_flag;
           mret (node_id, raft, client, is_learner)) data.

Definition encode_remove_member_payload (node_id : N) : bytes := le_bytes 8 node_id.
Definition decode_remove_member_payload (data : bytes) : result NetError N :=
  decoded (p_le (NetText "truncated REMOVE_MEMBER payload") 8) data.
Definition encode_promote_learner_payload (node_id : N) : bytes := le_bytes 8 node_id.
Definition decode_promote_learner_payload (data : bytes) : result NetError N :=
  decoded (p_le (NetText "truncated PROMOTE_LEARNER payload") 8) data.

Definition encode_scan_payload (prefix : bytes) : bytes := encode_key_payload prefix.
Definition decode_scan_payload (data : bytes) : result NetError bytes := decode_key_payload data.

Definition encode_value_payload (value : bytes) : bytes := push_str value.
Definition decode_value_payload (data : bytes) : result NetError bytes := decoded take_str data.

Definition push_item (kv : bytes * bytes) : bytes := push_str kv.1 ++ push_str kv.2.
Definition take_item : parser NetError (bytes * bytes) := k ← take_str; v ← take_str; mret (k, v).
Definition encode_scan_response (items : list (bytes * bytes)) : bytes := push_len items ++ (items ≫= push_item).
Definition decode_scan_response (data : bytes) : result NetError (list (bytes * bytes)) :=
  decoded (count ← take_u32;
           if 1000000 <? count then perr (SuspiciousScanCount count) else prepeat (N.to_nat count) take_item) data.

Definition encode_txn_begin_response (txn_id snapshot_ts : N) : bytes := le_bytes 8 txn_id ++ le_bytes 8 snapshot_ts.
Definition decode_txn_begin_response (data : bytes) : result NetError (N * N) :=
  decoded (txn_id ← take_u64; snapshot_ts ← take_u64; mret (txn_id, snapshot_ts)) data.

Definition encode_txn_op_payload (txn_id op : N) (key : bytes) (value : option bytes) : bytes :=
  le_bytes 8 txn_id ++ [op] ++ push_str key ++ (if op =? TXN_OP_PUT then push_str (default [] value) else []).
Definition decode_txn_op_payload (data : bytes) : result NetError (N * N * bytes * option bytes) :=
  decoded (txn_id ← take_u64; op ← take_u8; key ← take_str;
           value ← (if op =? TXN_OP_PUT then v ← take_str; mret (Some v) else mret None);
           if (op =? TXN_OP_GET) || (op =? TXN_OP_PUT) || (op =? TXN_OP_DELETE) then mret (txn_id, op, key, value)
           else perr (UnknownTxnOp op)) data.

Definition encode_txn_id_payload (txn_id : N) : bytes := le_bytes 8 txn_id.
Definition decode_txn_id_payload (data : bytes) : result NetError N := decoded take_u64 data.
Definition encode_txn_commit_response (commit_ts : N) : bytes := le_bytes 8 commit_ts.
Definition decode_txn_commit_response (data : bytes) : result NetError N := decoded take_u64 data.

Definition take_consumer : parser NetError bytes := n ← take_u16; id ← take_bytes n; as_utf8 "cdc consumer_id" id.
Definition encode_cdc_poll_request (consumer_id : bytes) (from_seq limit : N) : bytes :=
  push_len16 consumer_id ++ consumer_id ++ le_bytes 8 from_seq ++ le_bytes 4 limit.
Definition decode_cdc_poll_request (data : bytes) : result NetError (bytes * N * N) :=
  decoded (consumer_id ← take_consumer; from_seq ← take_u64; limit ← take_u32; mret (consumer_id, from_seq, limit)) data.

(** [(seq, op, key, value)]. *)
Abbreviation CdcEventWire := (N * N * bytes * option bytes)%type.
Definition push_event (ev : CdcEventWire) : bytes :=
  let '(seq, op, key, value) := ev in
  le_bytes 8 seq ++ [op] ++ push_str key ++ (if op =? CDC_EVENT_PUT then push_str (default [] value) else []).
Definition take_event : parser NetError CdcEventWire :=
  seq ← take_u64; op ← take_u8; key ← take_str;
  if op =? CDC_EVENT_PUT then v ← take_str; mret (seq, op, key, Some v)
  else if op =? CDC_EVENT_DELETE then mret (seq, op, key, None)
  else perr (UnknownCdcOp op).
Definition encode_cdc_poll_response (events : list CdcEventWire) : bytes := push_len events ++ (events ≫= push_event).
Definition decode_cdc_poll_response (data : bytes) : result NetError (list CdcEventWire) :=
  decoded (count ← take_u32; prepeat (N.to_nat count) take_event) data.

Definition encode_cdc_checkpoint_request (consumer_id : bytes) : bytes := push_len16 consumer_id ++ consumer_id.
Definition decode_cdc_checkpoint_request (data : bytes) : result NetError bytes := decoded take_consumer data.

(** [(range_id, epoch, group_id, start_key, end_key)]. *)
Abbreviation RangeDescWire := (N * N * N * bytes * bytes)%type.
Definition push_range (r : RangeDescWire) : bytes :=
  let '(range_id, epoch, group_id, start, end_) := r in
  le_bytes 8 range_id ++ le_bytes 8 epoch ++ le_bytes 8 group_id ++ push_str start ++ push_str end_.
Definition take_range : parser NetError RangeDescWire :=
  range_id ← take_u64; epoch ← take_u64; group_id ← take_u64; start ← take_str; end_ ← take_str;
  mret (range_id, epoch, group_id, start, end_).
Definition encode_list_ranges_response (meta_epoch : N) (ranges : list RangeDescWire) : bytes :=
  le_bytes 8 meta_epoch ++ push_len ranges ++ (ranges ≫= push_range).
Definition decode_list_ranges_response (data : bytes) : result NetError (N * list RangeDescWire) :=
  decoded (meta_epoch ← take_u64; count ← take_u32; ranges ← prepeat (N.to_nat count) take_range; mret (meta_epoch, ranges)) data.
Definition encode_range_moved_payload (meta_epoch range_id epoch group_id : N) (start end_ : bytes) : bytes :=
  encode_list_ranges_response meta_epoch [(range_id, epoch, group_id, start, end_)].

Definition encode_split_range_request (split_key : bytes) : bytes := push_str split_key.
Definition decode_split_range_request (data : bytes) : result NetError bytes := decoded take_str data.
Definition encode_merge_range_request (left_start : bytes) : bytes := push_str left_start.
Definition decode_merge_range_request (data : bytes) : result NetError bytes := decoded take_str data.

(** Nothing may follow the last field. *)
Definition take_end (what : string) : parser NetError unit := λ cur,
  match cur with [] => Ok (tt, []) | _ => Err (TrailingBytes (lenN cur) what) end.
Definition encode_move_range_request (range_start : bytes) (target_group : N) : bytes := push_str range_start ++ push_u64 target_group.
Definition decode_move_range_request (data : bytes) : result NetError (bytes * N) :=
  decoded (range_start ← take_str; target_group ← take_u64; _ ← take_end "MOVE_RANGE request"; mret (range_start, target_group)) data.

Definition push_move (m : N * N * N) : bytes := let '(range_id, from_node, to_node) := m in push_u64 range_id ++ push_u64 from_node ++ push_u64 to_node.
Definition take_move : parser NetError (N * N * N) :=
  range_id ← take_u64; from_node ← take_u64; to_node ← take_u64; mret (range_id, from_node, to_node).
Definition encode_rebalance_plan_response (moves : list (N * N * N)) : bytes := push_len moves ++ (moves ≫= push_move).
Definition decode_rebalance_plan_response (data : bytes) : result NetError (list (N * N * N)) :=
  decoded (count ← take_u32; moves ← prepeat (N.to_nat count) take_move; _ ← take_end "REBALANCE_PLAN response"; mret moves) data.

Definition encode_transfer_leader_request (group_id target_node_id : N) : bytes := le_bytes 8 group_id ++ le_bytes 8 target_node_id.
Definition decode_transfer_leader_request (data : bytes) : result NetError (N * N) :=
  if (length data <? 16)%nat then Err (NetText "truncated TRANSFER_LEADER payload")
  else decoded (group_id ← take_u64; target_node_id ← take_u64; mret (group_id, target_node_id)) data.

Definition encode_error_payload (msg : bytes) : bytes := push_str msg.
Definition decode_error_payload (data : bytes) : result NetError bytes := decoded (b ← take_str; as_utf8 "error payload" b) data.

(** ** Tokens and epochs around a payload *)

Definition push_token (prefix : bytes) (token : option bytes) : bytes :=
  match token with Some tok => prefix ++ push_len16 tok ++ tok | None => [] end.

Definition encode_admin_payload (opcode : N) (inner : bytes) (operator_token : option bytes) : bytes :=
  push_token ADMIN_AUTH_PREFIX operator_token ++ [opcode] ++ inner.
Definition encode_client_auth_payload (inner : bytes) (client_token : option bytes) : bytes :=
  push_token CLIENT_AUTH_PREFIX client_token ++ inner.

(** The token behind the prefix, if the payload starts with it. *)
Definition take_token (prefix : bytes) (what : string) : parser NetError (option bytes) := λ cur,
  if starts_with prefix cur then
    (tlen ← p_le (NetText ("truncated " +:+ what +:+ " auth token length")) 2;
     tok ← p_bytes (NetText ("truncated " +:+ what +:+ " auth token")) tlen;
     tok ← as_utf8 (what +:+ " token") tok;
     mret (Some tok)) (drop (length prefix) cur)
  else Ok (None, cur).

Definition decode_admin_payload (data : bytes) : result NetError (N * bytes * option bytes) :=
  '(token, cur) ← take_token ADMIN_AUTH_PREFIX "admin" data;
  match cur with
  | [] => Err (NetText "missing opcode after optional admin auth prefix")
  | opcode :: inner => Ok (opcode, inner, token)
  end.
Definition decode_client_auth_payload (data : bytes) : result NetError (bytes * option bytes) :=
  '(token, cur) ← take_token CLIENT_AUTH_PREFIX "client" data; Ok (cur, token).

Definition encode_meta_epoch_payload (inner : bytes) (meta_epoch : N) : bytes := META_EPOCH_PREFIX ++ le_bytes 8 meta_epoch ++ inner.
Definition decode_meta_epoch_payload (data : bytes) : bytes * option N :=
  if (length META_EPOCH_PREFIX + 8 <=? length data)%nat && starts_with META_EPOCH_PREFIX data
  then (drop 12 data, Some (le_val (slice 4 12 data)))
  else (data, None).

(** ** Frames *)

(** [(1 + payload.len()) as u32]. *)
Definition encode_client_frame (opcode : N) (payload : bytes) : bytes := le_bytes 4 (wrap u32_lim (1 + lenN payload)) ++ [opcode] ++ payload.

Definition read_client_frame : parser NetError (N * bytes) :=
  len ← p_le StreamEnded 4;
  if len =? 0 then perr (NetText "empty client frame")
  else if DEFAULT_MAX_FRAME_LEN <? len then perr (NetText "client frame too large")
  else opcode ← p_le StreamEnded 1; payload ← p_bytes StreamEnded (len - 1); mret (opcode, payload).

Definition write_client_response (status : N) (payload : bytes) : bytes :=
  le_bytes 4 (wrap u32_lim (2 + lenN payload)) ++ le_bytes 2 status ++ payload.

(** The answer read by [request_on_stream]. *)
Definition read_client_response : parser NetError (N * bytes) :=
  resp_len ← p_le StreamEnded 4;
  if resp_len <? 2 then perr (NetText "response frame too short")
  else status ← p_le StreamEnded 2; body ← p_bytes StreamEnded (resp_len - 2); mret (status, body).

Definition validate_frame_len (frame_len max_frame_len : N) : result KayaError unit :=
  if max_frame_len <? frame_len then Err (InvalidArgument "frame length exceeds max") else Ok tt.

(** ** Requests *)

Inductive Request : Type :=
| RHello (version : N)
| RPut (key value : bytes)
| RGet (key : bytes)
| RDelete (key : bytes)
| RScan (prefix : bytes)
| RHealth
| RStats
| RAddMember (node_id : N) (raft_addr client_addr : bytes) (is_learner : bool)
| RRemoveMember (node_id : N)
| RTxnBegin
| RTxnOp (txn_id op : N) (key : bytes) (value : option bytes)
| RTxnCommit (txn_id : N)
| RTxnRollback (txn_id : N)
| RCdcPoll (consumer_id : bytes) (from_seq limit : N)
| RCdcCheckpoint (consumer_id : bytes)
| RListRanges
| RSplitRange (split_key : bytes)
| RMergeRange (left_start : bytes)
| RTransferLeader (group_id target_node_id : N)
| RPromoteLearner (node_id : N)
| RRebalancePlan
| RMoveRange (range_start : bytes) (target_group : N)
| RTxnForward (group_id : N) (cmd : bytes).

Definition request_opcode (r : Request) : N :=
  match r with
  | RHello _ => 0 | RPut _ _ => 1 | RGet _ => 2 | RDelete _ => 3 | RScan _ => 4 | RHealth => 5 | RStats => 6
  | RAddMember _ _ _ _ => 7 | RRemoveMember _ => 8 | RTxnBegin => 9 | RTxnOp _ _ _ _ => 10 | RTxnCommit _ => 11
  | RTxnRollback _ => 12 | RCdcPoll _ _ _ => 13 | RCdcCheckpoint _ => 14 | RListRanges => 15 | RSplitRange _ => 16
  | RMergeRange _ => 17 | RTransferLeader _ _ => 18 | RPromoteLearner _ => 19 | RRebalancePlan => 20 | RMoveRange _ _ => 21
  | RTxnForward _ _ => 22
  end.

Definition request_payload (r : Request) : bytes :=
  match r with
  | RHello v => encode_hello_request v
  | RPut k v => encode_put_payload k v
  | RGet k | RDelete k => encode_key_payload k
  | RScan p => encode_scan_payload p
  | RHealth | RStats | RTxnBegin | RListRanges | RRebalancePlan => []
  | RAddMember id raft client learner => encode_member_payload_with_learner id raft client learner
  | RRemoveMember id => encode_remove_member_payload id
  | RTxnOp id op k v => encode_txn_op_payload id op k v
  | RTxnCommit id | RTxnRollback id => encode_txn_id_payload id
  | RCdcPoll c s l => encode_cdc_poll_request c s l
  | RCdcCheckpoint c => encode_cdc_checkpoint_request c
  | RSplitRange k => encode_split_range_request k
  | RMergeRange k => encode_merge_range_request k
  | RTransferLeader g n => encode_transfer_leader_request g n
  | RPromoteLearner id => encode_promote_learner_payload id
  | RMoveRange s g => encode_move_range_request s g
  | RTxnForward g c => encode_txn_forward_payload g c
  end.

(** The decoder the dispatch of the server runs for an opcode. *)
Definition decode_request (opcode : N) (payload : bytes) : result NetError Request :=
  match opcode with
  | 0 => RHello <$> decode_hello_request payload
  | 1 => '(k, v) ← decode_put_payload payload; Ok (RPut k v)
  | 2 => RGet <$> decode_key_payload payload
  | 3 => RDelete <$> decode_key_payload payload
  | 4 => RScan <$> decode_scan_payload payload
  | 5 => Ok RHealth
  | 6 => Ok RStats
  | 7 => '(id, raft, client, learner) ← decode_member_payload payload; Ok (RAddMember id raft client learner)
  | 8 => RRemoveMember <$> decode_remove_member_payload payload
  | 9 => Ok RTxnBegin
  | 10 => '(id, op, k, v) ← decode_txn_op_payload payload; Ok (RTxnOp id op k v)
  | 11 => RTxnCommit <$> decode_txn_id_payload payload
  | 12 => RTxnRollback <$> decode_txn_id_payload payload
  | 13 => '(c, s, l) ← decode_cdc_poll_request payload; Ok (RCdcPoll c s l)
  | 14 => RCdcCheckpoint <$> decode_cdc_checkpoint_request payload
  | 15 => Ok RListRanges
  | 16 => RSplitRange <$> decode_split_range_request payload
  | 17 => RMergeRange <$> decode_merge_range_request payload
  | 18 => '(g, n) ← decode_transfer_leader_request payload; Ok (RTransferLeader g n)
  | 19 => RPromoteLearner <$> decode_promote_learner_payload payload
  | 20 => Ok RRebalancePlan
  | 21 => '(s, g) ← decode_move_range_request payload; Ok (RMoveRange s g)
  | 22 => '(g, c) ← decode_txn_forward_payload payload; Ok (RTxnForward g c)
  | _ => Err (UnknownOpcode opcode)
  end.

(** The opcodes with an operator token, and those with a client token. *)
Definition is_admin_opcode (opcode : N) : bool :=
  (opcode =? ADD_MEMBER_OPCODE) || (opcode =? REMOVE_MEMBER_OPCODE) || (opcode =? TRANSFER_LEADER_OPCODE) ||
  (opcode =? PROMOTE_LEARNER_OPCODE) || (opcode =? REBALANCE_PLAN_OPCODE) || (opcode =? MOVE_RANGE_OPCODE) ||
  (opcode =? TXN_FORWARD_OPCODE).
Definition is_data_opcode (opcode : N) : bool := in_range 1 4 opcode || (opcode =? 6) || in_range 9 17 opcode.

(** [KayaClient::wire_payload]: the epoch of the cached range table, then the token. *)
Definition wire_payload (client_token : option bytes) (epoch : option N) (opcode : N) (payload : bytes) : bytes :=
  let payload :=
    match epoch with
    | Some e => if in_range 1 4 opcode then encode_meta_epoch_payload payload e else payload
    | None => payload
    end in
  if is_data_opcode opcode then encode_client_auth_payload payload client_token else payload.

(** An administrative payload is framed only when there is a token. *)
Definition admin_wire_payload (operator_token : option bytes) (opcode : N) (inner : bytes) : bytes :=
  match operator_token with Some _ => encode_admin_payload opcode inner operator_token | None => inner end.

(** What a client sends for a request. *)
Definition client_payload (client_token operator_token : option bytes) (epoch : option N) (r : Request) : bytes :=
  let opcode := request_opcode r in
  wire_payload client_token epoch opcode
    (if is_admin_opcode opcode then admin_wire_payload operator_token opcode (request_payload r) else request_payload r).

(** The first steps of [dispatch]: the operator token of an administrative request ... *)
Definition unwrap_admin (opcode : N) (payload : bytes) : result NetError (bytes * option bytes) :=
  if starts_with ADMIN_AUTH_PREFIX payload then
    '(got_opcode, inner, tok) ← decode_admin_payload payload;
    if negb (got_opcode =? opcode) then Err (NetText "admin opcode mismatch") else Ok (inner, tok)
  else Ok (payload, None).
(** ... and the client token of one on data. *)
Definition unwrap_client (opcode : N) (payload : bytes) : result NetError (bytes * option bytes) :=
  if is_data_opcode opcode && starts_with CLIENT_AUTH_PREFIX payload then decode_client_auth_payload payload
  else Ok (payload, None).

(** Those steps and the decoding in the order of [dispatch]. *)
Definition receive_request (opcode : N) (payload : bytes) : result NetError (Request * option bytes * option N) :=
  if opcode =? HELLO_OPCODE then r ← decode_request opcode payload; Ok (r, None, None)
  else if is_admin_opcode opcode then
    '(clean, tok) ← unwrap_admin opcode payload; r ← decode_request opcode clean; Ok (r, tok, None)
  else
    '(clean, tok) ← unwrap_client opcode payload;
    let '(clean, epoch) := decode_meta_epoch_payload clean in
    r ← decode_request opcode clean; Ok (r, tok, epoch).

(** ** Round trips *)

Definition str_ok (b : bytes) : Prop := lenN b < u32_lim.
Definition text_ok (b : bytes) : Prop := str_ok b ∧ utf8_valid b = true.
Definition consumer_ok (b : bytes) : Prop := lenN b < 65536 ∧ utf8_valid b = true.

Lemma decoded_parses {A} (p : parser NetError A) x bs : parses p x bs → decoded p bs = Ok x.
Proof. intros Hp. unfold decoded. specialize (Hp []). rewrite app_nil_r in Hp. by rewrite Hp. Qed.

Lemma decoded_bind {A B} (p : parser NetError A) (k : A → parser NetError B) x b1 b2 : parses p x b1 →
  decoded (p ≫= k) (b1 ++ b2) = decoded (k x) b2.
Proof. intros Hp. unfold decoded, mbind, parser_bind. by rewrite Hp. Qed.

Lemma decoded_bind_nil {A B} (p : parser NetError A) (k : A → parser NetError B) x bs : parses p x [] →
  decoded (p ≫= k) bs = decoded (k x) bs.
Proof. apply (decoded_bind p k x []). Qed.

Lemma parses_take_str b : str_ok b → parses take_str b (push_str b).
Proof. intros Hb. unfold take_str, push_str. parse_step. apply parses_take_bytes. Qed.

Lemma parses_as_utf8 what b : utf8_valid b = true → parses (as_utf8 what b) b [].
Proof. intros Hb. unfold as_utf8. rewrite Hb. apply parses_ret. Qed.

Lemma parses_take_u64_le v : u64_ok v → parses take_u64 v (le_bytes 8 v).
Proof. apply parses_take_u64. Qed.

Lemma parses_take_u32_le v : v < u32_lim → parses take_u32 v (le_bytes 4 v).
Proof. apply parses_take_u32. Qed.

Lemma parses_take_len16 b : lenN b < 65536 → parses take_u16 (lenN b) (push_len16 b).
Proof. intros Hb rest. unfold push_len16. rewrite wrap_small by done. by apply parses_le. Qed.

#[export] Hint Resolve parses_take_str parses_as_utf8 parses_take_u64_le parses_take_u32_le parses_take_len16 : kaya_parse.
(** A step that reads nothing. *)
Ltac parse_nil := eapply (parses_bind _ _ _ _ []); [reflexivity|eauto with kaya_parse|].

Lemma parses_consumer b : consumer_ok b → parses take_consumer b (push_len16 b ++ b).
Proof. intros [Hl Hu]. unfold take_consumer. parse_step. parse_last. by apply parses_as_utf8. Qed.

Lemma decode_put k v : str_ok k → str_ok v → decode_put_payload (encode_put_payload k v) = Ok (k, v).
Proof.
  intros Hk Hv. apply decoded_parses. unfold encode_put_payload. parse_step. parse_step. parse_step. parse_last. apply parses_ret.
Qed.

Lemma decode_member id raft client learner : u64_ok id → text_ok raft → text_ok client →
  decode_member_payload (encode_member_payload_with_learner id raft client learner) = Ok (id, raft, client, learner).
Proof.
  intros Hid [Hr Hru] [Hc Hcu]. unfold decode_member_payload, encode_member_payload_with_learner.
  rewrite (decoded_bind _ _ id), (decoded_bind _ _ raft), (decoded_bind_nil _ _ raft), (decoded_bind _ _ client), (decoded_bind_nil _ _ client)
    by auto with kaya_parse. by destruct learner.
Qed.

Definition txn_op_ok (op : N) (value : option bytes) : Prop :=
  match value with Some v => op = TXN_OP_PUT ∧ str_ok v | None => op = TXN_OP_GET ∨ op = TXN_OP_DELETE end.

Lemma decode_txn_op id op k v : u64_ok id → str_ok k → txn_op_ok op v →
  decode_txn_op_payload (encode_txn_op_payload id op k v) = Ok (id, op, k, v).
Proof.
  intros Hid Hk Hv. apply decoded_parses. unfold encode_txn_op_payload. parse_step. parse_step. parse_step.
  destruct v as [v|]; cbn [txn_op_ok] in Hv.
  - destruct Hv as [-> Hv]. cbn. eapply parses_bind_tail; [|apply parses_ret]. parse_last. apply parses_ret.
  - destruct Hv as [-> | ->]; cbn; (eapply parses_bind_tail; [apply parses_ret|apply parses_ret]).
Qed.

Lemma decode_cdc_poll c s l : consumer_ok c → u64_ok s → l < u32_lim → decode_cdc_poll_request (encode_cdc_poll_request c s l) = Ok (c, s, l).
Proof.
  intros Hc Hs Hl. apply decoded_parses. unfold encode_cdc_poll_request. rewrite app_assoc.
  eapply parses_bind; [reflexivity|by apply parses_consumer|]. parse_step. parse_last. apply parses_ret.
Qed.

Lemma decode_transfer g n : u64_ok g → u64_ok n → decode_transfer_leader_request (encode_transfer_leader_request g n) = Ok (g, n).
Proof.
  intros Hg Hn. unfold decode_transfer_leader_request, encode_transfer_leader_request.
  rewrite length_app, !length_le_bytes. cbn [Nat.ltb Nat.leb Nat.add]. apply decoded_parses. parse_step. parse_last. apply parses_ret.
Qed.

Lemma decode_move s g : str_ok s → u64_ok g → decode_move_range_request (encode_move_range_request s g) = Ok (s, g).
Proof.
  intros Hs Hg. unfold decode_move_range_request, encode_move_range_request.
  rewrite (decoded_bind _ _ s) by auto with kaya_parse. rewrite <-(app_nil_r (push_u64 g)), (decoded_bind _ _ g) by auto with kaya_parse. done.
Qed.

Lemma decode_forward g c : u64_ok g → c ≠ [] → decode_txn_forward_payload (encode_txn_forward_payload g c) = Ok (g, c).
Proof.
  intros Hg Hc. unfold decode_txn_forward_payload, encode_txn_forward_payload. rewrite length_app, length_le_bytes.
  destruct c as [|b c]; [done|]. cbn [length]. destruct (Nat.ltb_spec (8 + S (length c)) 9); [lia|].
  rewrite take_app_length', drop_app_length' by (by rewrite length_le_bytes). by rewrite le_val_le_bytes.
Qed.

(** The requests whose fields fit the wire. *)
Definition request_ok (r : Request) : Prop :=
  match r with
  | RHello v => v < 65536
  | RPut k v => str_ok k ∧ str_ok v
  | RGet k | RDelete k | RScan k | RSplitRange k | RMergeRange k => str_ok k
  | RHealth | RStats | RTxnBegin | RListRanges | RRebalancePlan => True
  | RAddMember id raft client _ => u64_ok id ∧ text_ok raft ∧ text_ok client
  | RRemoveMember id | RPromoteLearner id | RTxnCommit id | RTxnRollback id => u64_ok id
  | RTxnOp id op k v => u64_ok id ∧ str_ok k ∧ txn_op_ok op v
  | RCdcPoll c s l => consumer_ok c ∧ u64_ok s ∧ l < u32_lim
  | RCdcCheckpoint c => consumer_ok c
  | RTransferLeader g n => u64_ok g ∧ u64_ok n
  | RMoveRange s g => str_ok s ∧ u64_ok g
  | RTxnForward g c => u64_ok g ∧ c ≠ []
  end.

Lemma decode_request_payload r : request_ok r → decode_request (request_opcode r) (request_payload r) = Ok r.
Proof.
  destruct r; cbn [request_ok request_opcode request_payload decode_request]; intros Hr; try done.
  - unfold decode_hello_request. rewrite (decoded_parses _ version); [done|]. by apply parses_le.
  - destruct Hr. by rewrite decode_put.
  - unfold decode_key_payload. by rewrite (decoded_parses _ key) by by apply parses_take_str.
  - unfold decode_key_payload. by rewrite (decoded_parses _ key) by by apply parses_take_str.
  - unfold decode_scan_payload, decode_key_payload. by rewrite (decoded_parses _ prefix0) by by apply parses_take_str.
  - destruct Hr as (? & ? & ?). by rewrite decode_member.
  - unfold decode_remove_member_payload. rewrite (decoded_parses _ node_id); [done|]. by apply parses_le.
  - destruct Hr as (? & ? & ?). by rewrite decode_txn_op.
  - unfold decode_txn_id_payload. by rewrite (decoded_parses _ txn_id) by by apply parses_take_u64.
  - unfold decode_txn_id_payload. by rewrite (decoded_parses _ txn_id) by by apply parses_take_u64.
  - destruct Hr as (? & ? & ?). by rewrite decode_cdc_poll.
  - unfold decode_cdc_checkpoint_request. by rewrite (decoded_parses _ consumer_id) by by apply parses_consumer.
  - unfold decode_split_range_request. by rewrite (decoded_parses _ split_key) by by apply parses_take_str.
  - unfold decode_merge_range_request. by rewrite (decoded_parses _ left_start) by by apply parses_take_str.
  - destruct Hr. by rewrite decode_transfer.
  - unfold decode_promote_learner_payload. rewrite (decoded_parses _ node_id); [done|]. by apply parses_le.
  - destruct Hr. by rewrite decode_move.
  - destruct Hr. by rewrite decode_forward.
Qed.

(** ** Prefixes and payloads do not overlap *)

(** The requests whose payload starts with a small number: an identifier below 2^30 or the
    length of a consumer name as the feed accepts them, where it does not start with the length
    of a key, which the limit of a frame keeps small. *)
Definition small_id (n : N) : Prop := n < 2 ^ 30.
Definition plain_request (r : Request) : Prop :=
  match r with
  | RAddMember id _ _ _ | RRemoveMember id | RPromoteLearner id | RTxnCommit id | RTxnRollback id | RTxnOp id _ _ _
  | RTransferLeader id _ | RTxnForward id _ => small_id id
  | RCdcPoll c _ _ | RCdcCheckpoint c => lenN c ≤ 64
  | _ => True
  end.

Definition auth_prefix (p : bytes) : Prop := p = ADMIN_AUTH_PREFIX ∨ p = CLIENT_AUTH_PREFIX ∨ p = META_EPOCH_PREFIX.

(** A payload no prefix is the start of: it is empty, or its first four bytes are a small
    number, or its second byte is zero. *)
Lemma not_prefixed_nil p : auth_prefix p → starts_with p [] = false.
Proof. by intros [-> | [-> | ->]]. Qed.

Lemma not_prefixed_word p v rest : auth_prefix p → small_id v → starts_with p (le_bytes 4 v ++ rest) = false.
Proof.
  intros Hp Hv. unfold small_id in Hv. apply not_true_iff_false. intros [k Hk]%starts_with_spec.
  assert (le_val (take 4 (le_bytes 4 v ++ rest)) = v) as E.
  { rewrite take_app_length' by (by rewrite length_le_bytes). apply le_val_le_bytes. change (256 ^ N.of_nat 4) with (2 ^ 32). lia. }
  rewrite Hk in E. destruct Hp as [-> | [-> | ->]]; vm_compute in E; subst v; vm_compute in Hv; done.
Qed.

Lemma le_bytes_app n m v : le_bytes (n + m) v = le_bytes n v ++ le_bytes m (v / 256 ^ N.of_nat n).
Proof.
  revert v. induction n as [|n IH]; intros v; [by rewrite N.div_1_r|]. unfold le_bytes; fold le_bytes. cbn [Nat.add app].
  unfold le_bytes at 1; fold le_bytes. f_equal. rewrite IH. do 2 f_equal. rewrite Nat2N.inj_succ, N.pow_succ_r', N.Div0.div_div. done.
Qed.

Lemma not_prefixed_id p v rest : auth_prefix p → small_id v → starts_with p (le_bytes 8 v ++ rest) = false.
Proof. intros Hp Hv. rewrite (le_bytes_app 4 4), <-app_assoc. by apply not_prefixed_word. Qed.

Lemma not_prefixed_len p (k rest : bytes) : auth_prefix p → small_id (lenN k) → starts_with p (push_len k ++ rest) = false.
Proof.
  intros Hp Hk. unfold push_len. rewrite wrap_small; [by apply not_prefixed_word|]. unfold small_id, u32_lim in *. lia.
Qed.

Lemma not_prefixed_consumer p (c rest : bytes) : auth_prefix p → lenN c ≤ 64 → starts_with p (push_len16 c ++ rest) = false.
Proof.
  intros Hp Hc. unfold push_len16. rewrite wrap_small by lia. unfold le_bytes; fold le_bytes.
  rewrite (N.div_small (lenN c) 256) by lia. destruct Hp as [-> | [-> | ->]]; cbn; by rewrite ?andb_false_r.
Qed.

Lemma not_prefixed p r : auth_prefix p → plain_request r → request_opcode r ≠ 0 → small_id (lenN (request_payload r)) →
  starts_with p (request_payload r) = false.
Proof.
  intros Hp Hr Hh Hl. destruct r; cbn [request_payload plain_request] in *; try (by apply not_prefixed_nil); try done.
  all: unfold encode_put_payload, encode_scan_payload, encode_key_payload, encode_split_range_request, encode_merge_range_request,
    encode_move_range_request, push_str in *; rewrite <-?app_assoc in *;
    try (apply not_prefixed_len; [done|]; unfold small_id, lenN in *; rewrite !length_app in Hl; lia).
  all: unfold encode_member_payload_with_learner, encode_txn_op_payload, encode_transfer_leader_request, encode_txn_forward_payload;
    try (by apply not_prefixed_id).
  all: unfold encode_remove_member_payload, encode_txn_id_payload, encode_promote_learner_payload;
    try (rewrite <-(app_nil_r (le_bytes 8 _)); by apply not_prefixed_id).
  all: by apply not_prefixed_consumer.
Qed.

(** ** What a client sends is what the server sees *)

Definition token_ok (token : option bytes) : Prop := from_option (λ t, lenN t < 65536 ∧ utf8_valid t = true) True token.

Lemma take_token_push prefix what t rest : token_ok (Some t) →
  take_token prefix what (push_token prefix (Some t) ++ rest) = Ok (Some t, rest).
Proof.
  intros [Hl Hu]. unfold take_token, push_token. rewrite <-app_assoc.
  rewrite (proj2 (starts_with_spec _ _)) by (by eexists). rewrite drop_app_length, <-app_assoc.
  unfold mbind at 1, parser_bind at 1. unfold push_len16. rewrite wrap_small by done.
  rewrite (parses_le _ 2) by done. unfold mbind at 1, parser_bind at 1. rewrite (parses_bytes _ t) by done.
  unfold as_utf8. by rewrite Hu.
Qed.

Lemma starts_with_token p t rest : starts_with p (push_token p (Some t) ++ rest) = true.
Proof. apply starts_with_spec. unfold push_token. rewrite <-app_assoc. by eexists. Qed.

Lemma unwrap_admin_wire opcode inner tok : token_ok tok → (tok = None → starts_with ADMIN_AUTH_PREFIX inner = false) →
  unwrap_admin opcode (admin_wire_payload tok opcode inner) = Ok (inner, tok).
Proof.
  intros Ht Hn. unfold unwrap_admin, admin_wire_payload. destruct tok as [t|]; [|by rewrite Hn].
  unfold encode_admin_payload. rewrite starts_with_token. unfold decode_admin_payload. rewrite take_token_push by done.
  cbn [mbind result_bind app]. by rewrite N.eqb_refl.
Qed.

Lemma unwrap_client_wire opcode inner tok : is_data_opcode opcode = true → token_ok tok →
  (tok = None → starts_with CLIENT_AUTH_PREFIX inner = false) →
  unwrap_client opcode (encode_client_auth_payload inner tok) = Ok (inner, tok).
Proof.
  intros Ho Ht Hn. unfold unwrap_client, encode_client_auth_payload. rewrite Ho. destruct tok as [t|]; cbn [andb].
  - rewrite starts_with_token. unfold decode_client_auth_payload. by rewrite take_token_push.
  - cbn [push_token app]. by rewrite Hn.
Qed.

Lemma meta_epoch_wire inner e : u64_ok e → decode_meta_epoch_payload (encode_meta_epoch_payload inner e) = (inner, Some e).
Proof.
  intros He. unfold decode_meta_epoch_payload, encode_meta_epoch_payload.
  rewrite (proj2 (starts_with_spec _ _)) by (by eexists). rewrite !length_app, length_le_bytes.
  destruct (Nat.leb_spec (length META_EPOCH_PREFIX + 8) (length META_EPOCH_PREFIX + (8 + length inner))); [|lia]. cbn [andb].
  change META_EPOCH_PREFIX with [77; 69; 80; 79]. f_equal.
  unfold slice. cbn [Nat.sub]. change (drop 4 ([77; 69; 80; 79] ++ le_bytes 8 e ++ inner)) with (le_bytes 8 e ++ inner).
  rewrite take_app_length' by (by rewrite length_le_bytes). by rewrite le_val_le_bytes.
Qed.

Lemma meta_epoch_plain inner : starts_with META_EPOCH_PREFIX inner = false → decode_meta_epoch_payload inner = (inner, None).
Proof. intros Hn. unfold decode_meta_epoch_payload. by rewrite Hn, andb_false_r. Qed.

Lemma parses_client_frame opcode payload : opcode < 256 → 1 + lenN payload ≤ DEFAULT_MAX_FRAME_LEN →
  parses read_client_frame (opcode, payload) (encode_client_frame opcode payload).
Proof.
  intros Ho Hl. unfold read_client_frame, encode_client_frame.
  rewrite wrap_small by (unfold u32_lim, DEFAULT_MAX_FRAME_LEN in *; lia).
  eapply parses_bind; [reflexivity|apply parses_le; unfold DEFAULT_MAX_FRAME_LEN in Hl; change (256 ^ N.of_nat 4) with (2 ^ 32); lia|].
  destruct (N.eqb_spec (1 + lenN payload) 0); [lia|]. destruct (N.ltb_spec DEFAULT_MAX_FRAME_LEN (1 + lenN payload)); [lia|].
  replace [opcode] with (le_bytes 1 opcode) by (unfold le_bytes; by rewrite N.mod_small).
  eapply parses_bind; [reflexivity|by apply parses_le|].
  eapply parses_bind_tail; [apply parses_bytes; lia|]. apply parses_ret.
Qed.

(** The token the server sees for a request. *)
Definition presented (client_token operator_token : option bytes) (r : Request) : option bytes :=
  if is_admin_opcode (request_opcode r) then operator_token
  else if is_data_opcode (request_opcode r) then client_token else None.
Definition epoch_of (epoch : option N) (r : Request) : option N := if in_range 1 4 (request_opcode r) then epoch else None.

(** The payload of the request reads as the start of something the client did not put there: a
    token, where it sent none, or the epoch of a range table, where it sent none. *)
Definition mistaken (client_token operator_token : option bytes) (epoch : option N) (r : Request) : bool :=
  let payload := request_payload r in
  if is_admin_opcode (request_opcode r) then bool_decide (operator_token = None) && starts_with ADMIN_AUTH_PREFIX payload
  else
    is_data_opcode (request_opcode r) && bool_decide (epoch_of epoch r = None) &&
    (bool_decide (client_token = None) && starts_with CLIENT_AUTH_PREFIX payload ||
     (length META_EPOCH_PREFIX + 8 <=? length payload)%nat && starts_with META_EPOCH_PREFIX payload).

Lemma take_token_prefixed prefix what cur tok rest : starts_with prefix cur = true → take_token prefix what cur = Ok (tok, rest) → tok ≠ None.
Proof.
  unfold take_token. intros ->. unfold mbind, parser_bind, as_utf8. repeat case_match; try done. by intros [= <- <-].
Qed.

Lemma receive_admin opcode inner tok : is_admin_opcode opcode = true → token_ok tok →
  starts_with ADMIN_AUTH_PREFIX inner = true → tok = None →
  ∀ r e, receive_request opcode (admin_wire_payload tok opcode inner) ≠ Ok (r, None, e).
Proof.
  intros Ha _ Hp -> r e. unfold receive_request. destruct (opcode =? HELLO_OPCODE) eqn:E; [apply N.eqb_eq in E; by subst|].
  rewrite Ha. unfold admin_wire_payload, unwrap_admin. rewrite Hp. unfold decode_admin_payload.
  destruct (take_token ADMIN_AUTH_PREFIX "admin" inner) as [[tok cur]|] eqn:Et; [|done].
  apply take_token_prefixed in Et; [|done]. cbn [mbind result_bind]. destruct cur as [|op cur]; [done|].
  cbn [mbind result_bind]. destruct (negb (op =? opcode)); [done|]. cbn [mbind result_bind].
  destruct (decode_request opcode cur); [|done]. cbn. congruence.
Qed.

(** The data path, seen from the payload inside the token. *)
Lemma receive_data opcode inner ctok : is_data_opcode opcode = true → token_ok ctok →
  (ctok = None → starts_with CLIENT_AUTH_PREFIX inner = false) →
  receive_request opcode (encode_client_auth_payload inner ctok) =
  let '(clean, epoch) := decode_meta_epoch_payload inner in r ← decode_request opcode clean; Ok (r, ctok, epoch).
Proof.
  intros Hd Ht Hn. unfold receive_request.
  assert ((opcode =? HELLO_OPCODE) = false ∧ is_admin_opcode opcode = false) as [-> ->].
  { unfold is_data_opcode, in_range, is_admin_opcode in *. split; [|repeat apply orb_false_intro]; apply N.eqb_neq; intros ->; done. }
  by rewrite unwrap_client_wire.
Qed.

Lemma receive_client_mistaken opcode inner r e : is_data_opcode opcode = true → starts_with CLIENT_AUTH_PREFIX inner = true →
  receive_request opcode inner ≠ Ok (r, None, e).
Proof.
  intros Hd Hp. unfold receive_request.
  assert ((opcode =? HELLO_OPCODE) = false ∧ is_admin_opcode opcode = false) as [-> ->].
  { unfold is_data_opcode, in_range, is_admin_opcode in *. split; [|repeat apply orb_false_intro]; apply N.eqb_neq; intros ->; done. }
  unfold unwrap_client. rewrite Hd, Hp. cbn [andb]. unfold decode_client_auth_payload.
  destruct (take_token CLIENT_AUTH_PREFIX "client" inner) as [[tok cur]|] eqn:Et; [|done].
  apply take_token_prefixed in Et; [|done]. cbn [mbind result_bind]. destruct (decode_meta_epoch_payload cur) as [clean epoch].
  destruct (decode_request opcode clean); [|done]. cbn. congruence.
Qed.

Lemma receive_client_data ctok epoch r : request_ok r → is_data_opcode (request_opcode r) = true → token_ok ctok → from_option u64_ok True epoch →
  let payload := request_payload r in
  let inner := match epoch_of epoch r with Some e => encode_meta_epoch_payload payload e | None => payload end in
  receive_request (request_opcode r) (encode_client_auth_payload inner ctok) = Ok (r, ctok, epoch_of epoch r) ↔
  bool_decide (epoch_of epoch r = None) && (bool_decide (ctok = None) && starts_with CLIENT_AUTH_PREFIX payload ||
     (length META_EPOCH_PREFIX + 8 <=? length payload)%nat && starts_with META_EPOCH_PREFIX payload) = false.
Proof.
  intros Hr Hd Hc He payload inner. pose proof (decode_request_payload r Hr) as Hdec.
  destruct (epoch_of epoch r) as [e|] eqn:Ee; subst inner.
  { cbn [bool_decide decide andb]. split; [done|]. intros _. rewrite receive_data by done. rewrite meta_epoch_wire.
    - unfold payload. by rewrite Hdec.
    - unfold epoch_of in Ee. destruct (in_range 1 4 _); [|done]. by subst. }
  rewrite (bool_decide_eq_true_2 (None = None)) by done. cbn [andb].
  destruct (bool_decide (ctok = None) && starts_with CLIENT_AUTH_PREFIX payload) eqn:Ec; cbn [orb].
  { apply andb_true_iff in Ec as [->%bool_decide_eq_true Ec]. split; [|done]. intros H. cbn in H. by apply receive_client_mistaken in H. }
  rewrite receive_data; [|done..|intros ->; by rewrite bool_decide_eq_true_2 in Ec by done].
  unfold decode_meta_epoch_payload. destruct (_ && starts_with META_EPOCH_PREFIX payload).
  - split; [|done]. destruct (decode_request (request_opcode r) (drop 12 payload)); [|done]. by intros [=].
  - split; [done|]. intros _. unfold payload. by rewrite Hdec.
Qed.

Lemma receive_client_payload ctok otok epoch r : request_ok r → token_ok ctok → token_ok otok → from_option u64_ok True epoch →
  receive_request (request_opcode r) (client_payload ctok otok epoch r) = Ok (r, presented ctok otok r, epoch_of epoch r) ↔
  mistaken ctok otok epoch r = false.
Proof.
  intros Hr Hc Ho He. pose proof (decode_request_payload r Hr) as Hd. unfold mistaken, presented.
  assert (client_payload ctok otok epoch r =
    if is_admin_opcode (request_opcode r) then admin_wire_payload otok (request_opcode r) (request_payload r)
    else if is_data_opcode (request_opcode r) then
      encode_client_auth_payload (match epoch_of epoch r with Some e => encode_meta_epoch_payload (request_payload r) e | None => request_payload r end) ctok
    else request_payload r) as -> by (by destruct r, epoch).
  destruct (is_admin_opcode (request_opcode r)) eqn:Ea.
  - assert (epoch_of epoch r = None) as -> by (by destruct r).
    destruct (bool_decide (otok = None) && starts_with ADMIN_AUTH_PREFIX (request_payload r)) eqn:Em.
    + apply andb_true_iff in Em as [->%bool_decide_eq_true Em]. split; [|done]. intros H. by apply receive_admin in H.
    + split; [done|]. intros _. unfold receive_request. rewrite Ea, unwrap_admin_wire; [|done|].
      2: { intros ->. by rewrite bool_decide_eq_true_2 in Em by done. }
      cbn [mbind result_bind]. rewrite Hd. cbn [mbind result_bind]. by destruct r.
  - destruct (is_data_opcode (request_opcode r)) eqn:Ed; [by apply receive_client_data|]. split; [done|]. intros _.
    unfold receive_request. rewrite Ea. destruct r; try discriminate; cbn [request_opcode] in *; [by rewrite Hd|done].
Qed.

Lemma payload_within ctok otok epoch r : lenN (request_payload r) ≤ lenN (client_payload ctok otok epoch r).
Proof.
  unfold client_payload, wire_payload, admin_wire_payload, encode_admin_payload, encode_client_auth_payload, encode_meta_epoch_payload, lenN.
  repeat case_match; rewrite ?length_app; cbn [length]; lia.
Qed.

Lemma plain_not_mistaken ctok otok epoch r : plain_request r → request_opcode r ≠ 0 → small_id (lenN (request_payload r)) →
  mistaken ctok otok epoch r = false.
Proof.
  intros Hp H0 Hl. unfold mistaken. assert (∀ p, auth_prefix p → starts_with p (request_payload r) = false) as Hn by (intros; by apply not_prefixed).
  rewrite !Hn by (unfold auth_prefix; tauto). rewrite !andb_false_r. cbn [orb]. rewrite ?andb_false_r. by destruct (is_admin_opcode _).
Qed.

(** C24: the client protocol is understood. For every request whose fields fit the wire and whose
    frame is within the limit, with any client and operator tokens of less than 64 KiB of UTF-8
    and any cached epoch, the frame a client writes is read by the server as one frame whatever
    follows it on the connection. The request, the token and the epoch the server finds in it
    are those of the client, except exactly when the payload happens to begin with a marker
    where the client put none ([mistaken]): that of an operator token in an administrative
    request sent without one, that of a client token in a request on data sent without one, or
    that of an epoch in one sent without. Only payloads that begin with an identifier of 2^30 or
    more or with a consumer name of more than 64 bytes can do so. *)
Theorem client_request_received ctok otok epoch r rest : request_ok r → token_ok ctok → token_ok otok → from_option u64_ok True epoch →
  let payload := client_payload ctok otok epoch r in
  1 + lenN payload ≤ DEFAULT_MAX_FRAME_LEN →
  read_client_frame (encode_client_frame (request_opcode r) payload ++ rest) = Ok ((request_opcode r, payload), rest) ∧
  (receive_request (request_opcode r) payload = Ok (r, presented ctok otok r, epoch_of epoch r) ↔ mistaken ctok otok epoch r = false) ∧
  (plain_request r → mistaken ctok otok epoch r = false).
Proof.
  intros Hr Hc Ho He payload Hl. split_and!.
  - apply parses_client_frame; [|done]. by destruct r.
  - by apply receive_client_payload.
  - intros Hp. destruct (decide (request_opcode r = 0)); [by destruct r|]. apply plain_not_mistaken; [done..|].
    pose proof (payload_within ctok otok epoch r). unfold small_id, DEFAULT_MAX_FRAME_LEN, payload in *. lia.
Qed.

Lemma client_request_received_witness :
  let payload := client_payload (Some [116]) None (Some 3) (RPut [107] [1; 2]) in
  read_client_frame (encode_client_frame 1 payload ++ [9]) = Ok ((1, payload), [9]) ∧
  (receive_request 1 payload = Ok (RPut [107] [1; 2], Some [116], Some 3) ↔ mistaken (Some [116]) None (Some 3) (RPut [107] [1; 2]) = false) ∧
  (plain_request (RPut [107] [1; 2]) → mistaken (Some [116]) None (Some 3) (RPut [107] [1; 2]) = false).
Proof.
  apply (client_request_received (Some [116]) None (Some 3) (RPut [107] [1; 2]) [9]); try done.
Defined.

(** Identifiers can be mistaken for markers. A read in transaction 1330660685 is taken for one
    that carries an epoch, a commit of transaction 92695146613827 for one that carries a
    token, and the removal of node 336237249601 for one that carries an operator's. *)
Theorem client_txn_id_misread :
  let read := RTxnOp 1330660685 TXN_OP_GET [107] None in
  let commit := RTxnCommit 92695146613827 in
  let remove := RRemoveMember 336237249601 in
  request_ok read ∧ request_ok commit ∧ request_ok remove ∧
  receive_request 10 (client_payload None None None read) = Err (UnexpectedEof 8 2) ∧
  receive_request 11 (client_payload None None None commit) = Err (NetText "truncated client auth token length") ∧
  receive_request 8 (client_payload None None None remove) = Err (NetText "missing opcode after optional admin auth prefix").
Proof. intros read commit remove. split; [split_and!; [done..|by left]|]. split_and!; by vm_compute. Qed.

(** ** Answers *)

(** The bodies of successful answers, and the text of a failure. *)
Inductive Answer : Type :=
| AHello (version : N)
| AValue (value : bytes)
| AItems (items : list (bytes * bytes))
| ATxnBegin (txn_id snapshot_ts : N)
| ACommitted (commit_ts : N)
| AEvents (events : list CdcEventWire)
| ARanges (meta_epoch : N) (ranges : list RangeDescWire)
| AMoves (moves : list (N * N * N))
| AError (msg : bytes).

Definition encode_answer (a : Answer) : bytes :=
  match a with
  | AHello v => encode_hello_response v
  | AValue v => encode_value_payload v
  | AItems items => encode_scan_response items
  | ATxnBegin id ts => encode_txn_begin_response id ts
  | ACommitted ts => encode_txn_commit_response ts
  | AEvents evs => encode_cdc_poll_response evs
  | ARanges e rs => encode_list_ranges_response e rs
  | AMoves ms => encode_rebalance_plan_response ms
  | AError msg => encode_error_payload msg
  end.

(** The decoder a client runs, by what it expects: [None] for the text of a failure. *)
Definition decode_answer (opcode : option N) (data : bytes) : result NetError Answer :=
  match opcode with
  | None => AError <$> decode_error_payload data
  | Some 0 => AHello <$> decode_hello_response data
  | Some 2 => AValue <$> decode_value_payload data
  | Some 4 => AItems <$> decode_scan_response data
  | Some 9 => '(id, ts) ← decode_txn_begin_response data; Ok (ATxnBegin id ts)
  | Some 11 => ACommitted <$> decode_txn_commit_response data
  | Some 13 => AEvents <$> decode_cdc_poll_response data
  | Some 15 => '(e, rs) ← decode_list_ranges_response data; Ok (ARanges e rs)
  | Some 20 => AMoves <$> decode_rebalance_plan_response data
  | Some op => Err (UnknownOpcode op)
  end.

Definition expected_by (a : Answer) : option N :=
  match a with
  | AHello _ => Some 0 | AValue _ => Some 2 | AItems _ => Some 4 | ATxnBegin _ _ => Some 9 | ACommitted _ => Some 11
  | AEvents _ => Some 13 | ARanges _ _ => Some 15 | AMoves _ => Some 20 | AError _ => None
  end.

Definition event_wire_ok (ev : CdcEventWire) : Prop :=
  let '(seq, op, key, value) := ev in u64_ok seq ∧ str_ok key ∧
    match value with Some v => op = CDC_EVENT_PUT ∧ str_ok v | None => op = CDC_EVENT_DELETE end.
Definition range_wire_ok (r : RangeDescWire) : Prop :=
  let '(range_id, epoch, group_id, start, end_) := r in u64_ok range_id ∧ u64_ok epoch ∧ u64_ok group_id ∧ str_ok start ∧ str_ok end_.
Definition move_wire_ok (m : N * N * N) : Prop := let '(r, f, t) := m in u64_ok r ∧ u64_ok f ∧ u64_ok t.

Definition answer_ok (a : Answer) : Prop :=
  match a with
  | AHello v => v < 65536
  | AValue v => str_ok v
  | AItems items => lenN items ≤ 1000000 ∧ Forall (λ kv, str_ok kv.1 ∧ str_ok kv.2) items
  | ATxnBegin id ts => u64_ok id ∧ u64_ok ts
  | ACommitted ts => u64_ok ts
  | AEvents evs => lenN evs < u32_lim ∧ Forall event_wire_ok evs
  | ARanges e rs => u64_ok e ∧ lenN rs < u32_lim ∧ Forall range_wire_ok rs
  | AMoves ms => lenN ms < u32_lim ∧ Forall move_wire_ok ms
  | AError msg => text_ok msg
  end.

Lemma parses_item kv : str_ok kv.1 ∧ str_ok kv.2 → parses take_item kv (push_item kv).
Proof. destruct kv as [k v]. intros [Hk Hv]. unfold take_item, push_item. parse_step. parse_last. apply parses_ret. Qed.

Lemma parses_event ev : event_wire_ok ev → parses take_event ev (push_event ev).
Proof.
  destruct ev as [[[seq op] key] value]. intros (Hs & Hk & Hv). unfold take_event, push_event.
  parse_step. parse_step. parse_step. destruct value as [v|].
  - destruct Hv as [-> Hv]. cbn. parse_last. apply parses_ret.
  - subst op. cbn. apply parses_ret.
Qed.

Lemma parses_range_wire r : range_wire_ok r → parses take_range r (push_range r).
Proof.
  destruct r as [[[[i e] g] s] t]. intros (? & ? & ? & ? & ?). unfold take_range, push_range.
  parse_step. parse_step. parse_step. parse_step. parse_last. apply parses_ret.
Qed.

Lemma parses_move m : move_wire_ok m → parses take_move m (push_move m).
Proof. destruct m as [[r f] t]. intros (? & ? & ?). unfold take_move, push_move. parse_step. parse_step. parse_last. apply parses_ret. Qed.

Lemma decode_encode_answer a : answer_ok a → decode_answer (expected_by a) (encode_answer a) = Ok a.
Proof.
  destruct a; cbn [answer_ok expected_by encode_answer decode_answer]; intros Ha.
  - unfold decode_hello_response. rewrite (decoded_parses _ version); [done|]. by apply parses_le.
  - unfold decode_value_payload. by rewrite (decoded_parses _ value) by by apply parses_take_str.
  - destruct Ha as [Hl Hi]. unfold decode_scan_response, encode_scan_response.
    rewrite (decoded_bind _ _ (lenN items)) by (apply parses_take_len; unfold u32_lim; lia).
    destruct (N.ltb_spec 1000000 (lenN items)); [lia|].
    rewrite (decoded_parses _ items); [done|]. eapply parses_repeat; [apply parses_item|exact Hi].
  - destruct Ha. unfold decode_txn_begin_response, encode_txn_begin_response.
    rewrite (decoded_parses _ (txn_id, snapshot_ts)); [done|]. parse_step. parse_last. apply parses_ret.
  - unfold decode_txn_commit_response. by rewrite (decoded_parses _ commit_ts) by by apply parses_take_u64.
  - destruct Ha as [Hl Hi]. unfold decode_cdc_poll_response, encode_cdc_poll_response.
    rewrite (decoded_bind _ _ (lenN events)) by (by apply parses_take_len).
    rewrite (decoded_parses _ events); [done|]. eapply parses_repeat; [apply parses_event|exact Hi].
  - destruct Ha as (He & Hl & Hi). unfold decode_list_ranges_response, encode_list_ranges_response.
    rewrite (decoded_bind _ _ meta_epoch), (decoded_bind _ _ (lenN ranges)) by (by apply parses_take_len || by apply parses_take_u64).
    rewrite (decoded_parses _ (meta_epoch, ranges)); [done|].
    eapply parses_bind_tail; [eapply parses_repeat; [apply parses_range_wire|exact Hi]|]. apply parses_ret.
  - destruct Ha as [Hl Hi]. unfold decode_rebalance_plan_response, encode_rebalance_plan_response.
    rewrite (decoded_bind _ _ (lenN moves)) by (by apply parses_take_len).
    rewrite <-(app_nil_r (moves ≫= _)), (decoded_bind _ _ moves); [done|]. eapply parses_repeat; [apply parses_move|exact Hi].
  - destruct Ha. unfold decode_error_payload. rewrite (decoded_parses _ msg); [done|].
    parse_last. by apply parses_as_utf8.
Qed.

(** Answers are understood. What the server writes as an answer is read by the client as
    one answer whatever follows it, with its status, and the body decodes to what the server
    encoded. *)
Theorem client_response_received status a rest : status < 65536 → answer_ok a → 2 + lenN (encode_answer a) < u32_lim →
  read_client_response (write_client_response status (encode_answer a) ++ rest) = Ok ((status, encode_answer a), rest) ∧
  decode_answer (expected_by a) (encode_answer a) = Ok a.
Proof.
  intros Hs Ha Hl. split; [|by apply decode_encode_answer].
  revert rest. fold (parses read_client_response (status, encode_answer a) (write_client_response status (encode_answer a))).
  unfold read_client_response, write_client_response. rewrite wrap_small by done.
  eapply parses_bind; [reflexivity|by apply parses_le|]. destruct (N.ltb_spec (2 + lenN (encode_answer a)) 2); [lia|].
  eapply parses_bind; [reflexivity|by apply parses_le|].
  eapply parses_bind_tail; [apply parses_bytes; lia|]. apply parses_ret.
Qed.

Lemma client_response_received_witness :
  let a := ARanges 3 [(1, 1, 0, [], [109]); (2, 1, 1, [109], [])] in
  read_client_response (write_client_response 0 (encode_answer a) ++ [5]) = Ok ((0, encode_answer a), [5]) ∧
  decode_answer (Some 15) (encode_answer a) = Ok a.
Proof.
  apply (client_response_received 0 (ARanges 3 [(1, 1, 0, [], [109]); (2, 1, 1, [109], [])]) [5]); [done| |done].
  split_and!; [done|done|]. repeat constructor; done.
Defined.
