(* ===== verification/Acl.v ===== *)
(** Access control of [kaya-server] ([acl.rs]): prefix rules and exclusive tenants. *)
From stdpp Require Import gmap.
From S2P Require Import Prelude Bytes Path Index.

Open Scope N_scope.

(** ** Prefixes in configuration files *)

Inductive AclError : Type :=
| HexOddLength (prefix : bytes) (n : N)
| HexBadDigit (prefix : bytes) (b : N)
| EmptyToken (prefix : bytes)
| NoTenants
| TenantNotObject (i : N)
| TenantIdNotString (i : N)
| TenantIdEmpty (i : N)
| TenantTokenNotString (id : bytes)
| TenantTokenEmpty (id : bytes)
| TenantPrefixNotString (id : bytes)
| TenantPrefixEmpty (id : bytes)
| DuplicateTenantId (id : bytes)
| DuplicateTenantToken (id : bytes)
| TenantsOverlap (id_a id_b : bytes).

Definition to_ascii_lowercase (s : bytes) : bytes := (λ b, if in_range 65 90 b then b + 32 else b) <$> s.

Definition acl_nibble (s : bytes) (b : N) : result AclError N :=
  if in_range 48 57 b then Ok (b - 48)
  else if in_range 97 102 b then Ok (b - 97 + 10)
  else if in_range 65 70 b then Ok (b - 65 + 10)
  else Err (HexBadDigit s b).

Fixpoint acl_hex_pairs (s hex : bytes) : result AclError bytes :=
  match hex with
  | hi :: lo :: hex =>
      h ← acl_nibble s hi; l ← acl_nibble s lo; rest ← acl_hex_pairs s hex;
      Ok (N.lor (N.shiftl h 4) l :: rest)
  | _ => Ok []
  end.

Definition decode_hex (s hex : bytes) : result AclError bytes :=
  if N.odd (lenN hex) then Err (HexOddLength s (lenN hex)) else acl_hex_pairs s hex.

(** ["0x"] and ["hex:"]. *)
Definition parse_prefix_key (s : bytes) : result AclError bytes :=
  let lower := to_ascii_lowercase s in
  match strip_prefix [48; 120] lower with
  | Some hex => decode_hex s hex
  | None => match strip_prefix [104; 101; 120; 58] lower with Some hex => decode_hex s hex | None => Ok s end
  end.

(** ** Prefix rules *)

(** [(prefix_bytes, token)], longest prefix first. *)
Abbreviation Rule := (bytes * bytes)%type.
Record PrefixAcl := mkPrefixAcl { rules : list Rule }.

(** The order of the rules: longer prefixes first, then by bytes. *)
Definition rule_le (a b : Rule) : bool :=
  match lenN b.1 ?= lenN a.1 with Lt => true | Eq => ble a.1 b.1 | Gt => false end.
Fixpoint insert_rule (r : Rule) (l : list Rule) : list Rule :=
  match l with [] => [r] | x :: l => if rule_le r x then r :: x :: l else x :: insert_rule r l end.
Definition sort_rules (l : list Rule) : list Rule := foldr insert_rule [] l.

(** The loop over the map, in the order it is iterated. *)
Fixpoint parse_rules (map : list (bytes * bytes)) : result AclError (list Rule) :=
  match map with
  | [] => Ok []
  | (prefix_s, token) :: map =>
      if bool_decide (token = []) then Err (EmptyToken prefix_s)
      else prefix ← parse_prefix_key prefix_s; rest ← parse_rules map; Ok ((prefix, token) :: rest)
  end.
Definition from_map (map : list (bytes * bytes)) : result AclError PrefixAcl :=
  rs ← parse_rules map; Ok (mkPrefixAcl (sort_rules rs)).

Fixpoint first_rule (key : bytes) (l : list Rule) : option bytes :=
  match l with [] => None | (p, t) :: l => if starts_with p key then Some t else first_rule key l end.
Definition acl_authorize (acl : PrefixAcl) (key : bytes) (token : option bytes) : bool :=
  match token with
  | None => false
  | Some token => match first_rule key (rules acl) with Some t => bool_decide (t = token) | None => false end
  end.
Definition acl_authorize_token (acl : PrefixAcl) (token : option bytes) : bool :=
  match token with None => false | Some token => existsb (λ r, bool_decide (r.2 = token)) (rules acl) end.

(** ** Tenants *)

(** A parsed JSON document ([serde_json::Value]). *)
Inductive Json : Type :=
| JNull
| JBool (b : bool)
| JNumber
| JString (s : bytes)
| JArray (l : list Json)
| JObject (fields : list (bytes * Json)).

Fixpoint field_of (key : bytes) (fields : list (bytes * Json)) : option Json :=
  match fields with [] => None | (k, v) :: fields => if bool_decide (k = key) then Some v else field_of key fields end.
Definition json_get (key : bytes) (v : Json) : option Json := match v with JObject fields => field_of key fields | _ => None end.
Definition as_str (v : Json) : option bytes := match v with JString s => Some s | _ => None end.

Record TenantEntry := mkTenant { tenant_name : bytes; tenant_prefix : bytes }.
Record TenantAcl := mkTenantAcl { by_token : gmap bytes TenantEntry }.

Definition or_error {A} (x : option A) (e : AclError) : result AclError A := match x with Some a => Ok a | None => Err e end.
Definition guard_ok (b : bool) (e : AclError) : result AclError unit := if b then Ok tt else Err e.

(** One element of the array. *)
Definition parse_tenant (i : N) (entry : Json) : result AclError (bytes * bytes * bytes) :=
  match entry with
  | JObject obj =>
      id ← or_error (field_of (str "id") obj ≫= as_str) (TenantIdNotString i);
      _ ← guard_ok (negb (bool_decide (id = []))) (TenantIdEmpty i);
      token ← or_error (field_of (str "token") obj ≫= as_str) (TenantTokenNotString id);
      _ ← guard_ok (negb (bool_decide (token = []))) (TenantTokenEmpty id);
      prefix_s ← or_error (field_of (str "prefix") obj ≫= as_str) (TenantPrefixNotString id);
      prefix ← parse_prefix_key prefix_s;
      _ ← guard_ok (negb (bool_decide (prefix = []))) (TenantPrefixEmpty id);
      Ok (id, token, prefix)
  | _ => Err (TenantNotObject i)
  end.

(** The loop: the tenants so far by token, and the prefixes in order. *)
Fixpoint parse_tenants (i : N) (arr : list Json) (tokens : gmap bytes TenantEntry) (prefixes : list (bytes * bytes))
    : result AclError (gmap bytes TenantEntry * list (bytes * bytes)) :=
  match arr with
  | [] => Ok (tokens, prefixes)
  | entry :: arr =>
      '(id, token, prefix) ← parse_tenant i entry;
      _ ← guard_ok (negb (bool_decide (id ∈ prefixes.*1))) (DuplicateTenantId id);
      _ ← guard_ok (negb (bool_decide (is_Some (tokens !! token)))) (DuplicateTenantToken id);
      parse_tenants (i + 1) arr (<[token := mkTenant id prefix]> tokens) (prefixes ++ [(id, prefix)])
  end.

(** The first later prefix that overlaps. *)
Fixpoint overlapping (pre : bytes) (l : list (bytes * bytes)) : option bytes :=
  match l with
  | [] => None
  | (id, p) :: l => if starts_with p pre || starts_with pre p then Some id else overlapping pre l
  end.
Fixpoint assert_exclusive_prefixes (prefixes : list (bytes * bytes)) : result AclError unit :=
  match prefixes with
  | [] => Ok tt
  | (id_a, pre_a) :: rest =>
      match overlapping pre_a rest with Some id_b => Err (TenantsOverlap id_a id_b) | None => assert_exclusive_prefixes rest end
  end.

Definition tenants_from_value (v : Json) : result AclError TenantAcl :=
  match json_get (str "tenants") v with
  | Some (JArray arr) =>
      '(tokens, prefixes) ← parse_tenants 0 arr ∅ [];
      _ ← assert_exclusive_prefixes prefixes;
      Ok (mkTenantAcl tokens)
  | _ => Err NoTenants
  end.

Definition tenant_id (acl : TenantAcl) (token : option bytes) : option bytes := t ← token; tenant_name <$> by_token acl !! t.
Definition tenant_authorize (acl : TenantAcl) (key : bytes) (token : option bytes) : bool :=
  match token ≫= λ t, by_token acl !! t with Some entry => starts_with (tenant_prefix entry) key | None => false end.
Definition tenant_authorize_token (acl : TenantAcl) (token : option bytes) : bool := bool_decide (is_Some (token ≫= λ t, by_token acl !! t)).

(** ** Both layers *)

Definition authorize_key (acl : option PrefixAcl) (tenants : option TenantAcl) (key : bytes) (token : option bytes) : bool :=
  from_option (λ ta, tenant_authorize ta key token) true tenants && from_option (λ pa, acl_authorize pa key token) true acl.
Definition authorize_token (acl : option PrefixAcl) (tenants : option TenantAcl) (token : option bytes) : bool :=
  from_option (λ ta, tenant_authorize_token ta token) true tenants && from_option (λ pa, acl_authorize_token pa token) true acl.

(** ** The longest prefix decides *)

Definition longer (a b : Rule) : Prop := (length b.1 ≤ length a.1)%nat.

Lemma rule_le_longer a b : rule_le a b = true → longer a b.
Proof. unfold rule_le, longer, lenN. destruct (N.compare_spec (N.of_nat (length b.1)) (N.of_nat (length a.1))); intros; [lia..|done]. Qed.

Lemma rule_not_le_longer a b : rule_le a b = false → longer b a.
Proof. unfold rule_le, longer, lenN. destruct (N.compare_spec (N.of_nat (length b.1)) (N.of_nat (length a.1))); intros; [lia|done|lia]. Qed.

Lemma insert_rule_perm r l : insert_rule r l ≡ₚ r :: l.
Proof. induction l as [|x l IH]; cbn; [done|]. case_match; [done|]. rewrite IH. by constructor. Qed.

Lemma sort_rules_perm l : sort_rules l ≡ₚ l.
Proof. induction l as [|x l IH]; cbn; [done|]. by rewrite insert_rule_perm, IH. Qed.

Lemma insert_rule_sorted r l : StronglySorted longer l → StronglySorted longer (insert_rule r l).
Proof.
  induction 1 as [|x l Hl IH Hx]; cbn; [by repeat constructor|]. destruct (rule_le r x) eqn:E.
  - apply rule_le_longer in E. constructor; [by constructor|]. constructor; [done|].
    eapply Forall_impl; [exact Hx|]. unfold longer in *. intros y. lia.
  - constructor; [done|]. rewrite insert_rule_perm. constructor; [by apply rule_not_le_longer|done].
Qed.

Lemma sort_rules_sorted l : StronglySorted longer (sort_rules l).
Proof. induction l; cbn; [constructor|by apply insert_rule_sorted]. Qed.

(** [t] is the token of the longest rule for [key]. *)
Definition longest_rule (l : list Rule) (key t : bytes) : Prop :=
  ∃ p, (p, t) ∈ l ∧ p `prefix_of` key ∧ ∀ p' t', (p', t') ∈ l → p' `prefix_of` key → (length p' ≤ length p)%nat.

Lemma first_rule_longest l key t : StronglySorted longer l → first_rule key l = Some t → longest_rule l key t.
Proof.
  induction 1 as [|[p t'] l Hl IH Hx]; cbn [first_rule]; [done|]. rewrite Forall_forall in Hx.
  destruct (starts_with p key) eqn:E.
  - intros [= ->]. exists p. apply starts_with_spec in E. split_and!; [by left|done|].
    intros p' t' [[= -> ->]|Hin]%elem_of_cons _; [done|]. exact (Hx _ Hin).
  - intros (q & Hq & Hp & Hmax)%IH. exists q. split_and!; [by right|done|].
    intros p' t'' [[= -> ->]|Hin]%elem_of_cons Hpre; [|by eapply Hmax]. apply starts_with_spec in Hpre. congruence.
Qed.

Lemma longest_rule_unique l key t t' : NoDup l.*1 → longest_rule l key t → longest_rule l key t' → t = t'.
Proof.
  intros Hd (p & Hp & Hk & Hm) (p' & Hp' & Hk' & Hm'). assert (p = p') as <-.
  { pose proof (Hm _ _ Hp' Hk'). pose proof (Hm' _ _ Hp Hk). destruct Hk as [s ->], Hk' as [s' E].
    apply app_inj_1 in E as [-> _]; [done|lia]. }
  apply list_elem_of_lookup in Hp as [i Hi], Hp' as [j Hj].
  assert (i = j) as <-; [|congruence]. eapply (NoDup_lookup l.*1); [done|by rewrite list_lookup_fmap, Hi|by rewrite list_lookup_fmap, Hj].
Qed.

Lemma first_rule_none l key : first_rule key l = None → ∀ p t, (p, t) ∈ l → ¬ p `prefix_of` key.
Proof.
  induction l as [|[p t] l IH]; cbn [first_rule]; intros Hn q u; [by intros ?%not_elem_of_nil|].
  destruct (starts_with p key) eqn:E; [done|]. intros [[= -> ->]|Hin]%elem_of_cons.
  - rewrite <-starts_with_spec. congruence.
  - by eapply IH.
Qed.

Lemma authorize_longest rs key token : NoDup rs.*1 →
  acl_authorize (mkPrefixAcl (sort_rules rs)) key (Some token) = true ↔ longest_rule rs key token.
Proof.
  intros Hd. unfold acl_authorize. cbn [rules].
  assert (∀ t, longest_rule (sort_rules rs) key t ↔ longest_rule rs key t) as Hs.
  { intros t. unfold longest_rule. by setoid_rewrite (sort_rules_perm rs). }
  destruct (first_rule key (sort_rules rs)) as [t|] eqn:E.
  - apply first_rule_longest, Hs in E; [|apply sort_rules_sorted]. rewrite bool_decide_eq_true. split; [by intros <-|].
    intros Ht. by eapply longest_rule_unique.
  - split; [done|]. intros (p & Hp & Hk & _). rewrite <-(sort_rules_perm rs) in Hp. by destruct (first_rule_none _ _ E _ _ Hp).
Qed.

Lemma parse_rules_perm map map' rs : map ≡ₚ map' → parse_rules map = Ok rs → ∃ rs', parse_rules map' = Ok rs' ∧ rs ≡ₚ rs'.
Proof.
  intros Hp. revert rs. induction Hp as [|[p t] map map' _ IH|[p t] [q u] map|map1 map2 map3 _ IH1 _ IH2]; intros rs Hr.
  - injection Hr as <-. by exists [].
  - cbn [parse_rules] in *. case_bool_decide; [done|]. destruct (parse_prefix_key p) as [pre|]; [|done]. cbn in *.
    destruct (parse_rules map) as [rest|]; [|done]. injection Hr as <-. destruct (IH rest) as (rest' & -> & Hrest); [done|].
    eexists. split; [done|]. by constructor.
  - cbn [parse_rules] in *. case_bool_decide; [done|]. destruct (parse_prefix_key q) as [preq|]; [|done]. cbn in *.
    case_bool_decide; [done|]. destruct (parse_prefix_key p) as [prep|]; [|done]. cbn in *.
    destruct (parse_rules map) as [rest|]; [|done]. injection Hr as <-. eexists. split; [done|]. by constructor.
  - destruct (IH1 rs Hr) as (r2 & H2 & P2). destruct (IH2 r2 H2) as (r3 & H3 & P3). exists r3. split; [done|by etrans].
Qed.

(** Prefix rules decide by the longest prefix. When the prefixes of the rules are distinct
    a token is accepted for a key exactly when it belongs to the longest rule that is a prefix
    of the key, and the order in which the configuration map is iterated does not matter. *)
Theorem acl_longest_prefix map rs : parse_rules map = Ok rs → NoDup rs.*1 →
  ∀ map', map' ≡ₚ map → ∃ acl, from_map map' = Ok acl ∧
    ∀ key token, acl_authorize acl key (Some token) = true ↔ longest_rule rs key token.
Proof.
  intros Hr Hd map' Hp. symmetry in Hp. destruct (parse_rules_perm _ _ _ Hp Hr) as (rs' & Hr' & Hrs).
  exists (mkPrefixAcl (sort_rules rs')). unfold from_map. rewrite Hr'. split; [done|]. intros key token.
  rewrite authorize_longest by (by rewrite <-Hrs). unfold longest_rule. by setoid_rewrite Hrs.
Qed.

Lemma acl_longest_prefix_witness :
  ∃ acl, from_map [(str "a/b/", str "tok-ab"); (str "a/", str "tok-a")] = Ok acl ∧
    ∀ key token, acl_authorize acl key (Some token) = true ↔ longest_rule [(str "a/", str "tok-a"); (str "a/b/", str "tok-ab")] key token.
Proof.
  apply (acl_longest_prefix [(str "a/", str "tok-a"); (str "a/b/", str "tok-ab")] [(str "a/", str "tok-a"); (str "a/b/", str "tok-ab")]).
  - reflexivity.
  - by apply (bool_decide_unpack _).
  - constructor.
Defined.

(** Two keys of the configuration that denote the same prefix are both kept, and the one the
    map happens to yield first decides. *)
Theorem acl_ambiguous_prefix :
  let m := [(str "a", str "one"); (str "0x61", str "two")] in
  (λ acl, acl_authorize acl (str "a") (Some (str "one"))) <$> from_map m = Ok true ∧
  (λ acl, acl_authorize acl (str "a") (Some (str "one"))) <$> from_map (reverse m) = Ok false.
Proof. by vm_compute. Qed.

(** ** Tenants are isolated *)

Record tenants_inv (tokens : gmap bytes TenantEntry) (prefixes : list (bytes * bytes)) : Prop := {
  ti_listed t e : tokens !! t = Some e → (tenant_name e, tenant_prefix e) ∈ prefixes;
  ti_names t t' e e' : tokens !! t = Some e → tokens !! t' = Some e' → tenant_name e = tenant_name e' → t = t';
  ti_distinct : NoDup prefixes.*1
}.

Lemma guard_ok_bind {A} b e (k : unit → result AclError A) x : (guard_ok b e ≫= k) = Ok x → b = true ∧ k tt = Ok x.
Proof. by destruct b. Qed.

Lemma parse_tenants_inv i arr tokens prefixes tokens' prefixes' : tenants_inv tokens prefixes →
  parse_tenants i arr tokens prefixes = Ok (tokens', prefixes') → tenants_inv tokens' prefixes'.
Proof.
  revert i tokens prefixes. induction arr as [|entry arr IH]; intros i tokens prefixes Hi; cbn [parse_tenants].
  { by intros [= <- <-]. }
  destruct (parse_tenant i entry) as [[[id token] prefix]|]; [|done]. cbn [mbind result_bind].
  intros [Hid%negb_true_iff%bool_decide_eq_false [Htok%negb_true_iff%bool_decide_eq_false Hr]%guard_ok_bind]%guard_ok_bind. revert Hr.
  apply IH. destruct Hi as [Hl Hn Hd]. apply eq_None_not_Some in Htok. split.
  - intros t e. rewrite lookup_insert_Some, elem_of_app, list_elem_of_singleton. intros [[<- <-]|[_ He]]; [by right|left; by eapply Hl].
  - assert (∀ t e, tokens !! t = Some e → tenant_name e ≠ id) as Hne.
    { intros t e He E. apply Hid, list_elem_of_fmap. eexists. split; [|by eapply Hl]. done. }
    intros t t' e e'. rewrite !lookup_insert_Some. intros [[<- <-]|[_ He]] [[<- <-]|[_ He']] E; cbn in E; [done| | |by eapply Hn].
    + by destruct (Hne t' e').
    + by destruct (Hne t e).
  - rewrite fmap_app. apply NoDup_app. split_and!; [done| |apply NoDup_singleton]. intros x Hx [= ->]%list_elem_of_singleton. done.
Qed.

Lemma overlapping_none pre l : overlapping pre l = None → ∀ id p, (id, p) ∈ l → ¬ p `prefix_of` pre ∧ ¬ pre `prefix_of` p.
Proof.
  induction l as [|[id p] l IH]; cbn [overlapping]; intros Hn i q; [by intros ?%not_elem_of_nil|].
  destruct (starts_with p pre) eqn:E1, (starts_with pre p) eqn:E2; try done. cbn [orb] in Hn.
  intros [[= -> ->]|Hin]%elem_of_cons; [|by eapply IH]. rewrite <-!starts_with_spec. by rewrite E1, E2.
Qed.

Lemma exclusive_prefixes l : assert_exclusive_prefixes l = Ok tt → ∀ x y, x ∈ l → y ∈ l → x.2 `prefix_of` y.2 → x = y.
Proof.
  induction l as [|[id p] l IH]; cbn [assert_exclusive_prefixes]; intros Hx x y; [by intros ?%not_elem_of_nil|].
  destruct (overlapping p l) eqn:E; [done|]. pose proof (overlapping_none _ _ E) as Ho.
  intros [->|Hin]%elem_of_cons [->|Hin']%elem_of_cons Hp; cbn in *; [done| | |by eapply IH].
  - destruct y as [i q]. by destruct (Ho i q Hin').
  - destruct x as [i q]. by destruct (Ho i q Hin).
Qed.

Lemma prefixes_comparable (p q key : bytes) : p `prefix_of` key → q `prefix_of` key → p `prefix_of` q ∨ q `prefix_of` p.
Proof. apply prefix_weak_total. Qed.

(** C26: tenants are isolated. Under any tenant file that is accepted, what a token may touch no
    other token may: a key, or every key under a scanned prefix, that is authorised for one
    token is refused for every other one, and a token whose prefix is authorised may touch all
    keys under it. *)
Theorem tenant_isolation v ta t prefix key : tenants_from_value v = Ok ta →
  tenant_authorize ta prefix (Some t) = true → prefix `prefix_of` key →
  tenant_authorize ta key (Some t) = true ∧ ∀ t', tenant_authorize ta key (Some t') = true → t' = t.
Proof.
  unfold tenants_from_value. destruct (json_get (str "tenants") v) as [[]|]; try done.
  destruct (parse_tenants 0 l ∅ []) as [[tokens prefixes]|] eqn:E; [|done]. cbn [mbind result_bind].
  destruct (assert_exclusive_prefixes prefixes) as [[]|] eqn:Ex; [|done]. intros [= <-].
  assert (tenants_inv tokens prefixes) as [Hl Hn Hd].
  { eapply parse_tenants_inv; [|exact E]. split; [by intros ???|by intros ?????|constructor]. }
  unfold tenant_authorize. cbn [mbind option_bind by_token].
  destruct (tokens !! t) as [e|] eqn:Et; [|done]. rewrite starts_with_spec. intros Hp Hk.
  assert (tenant_prefix e `prefix_of` key) as Hek by (by etrans). split; [by apply starts_with_spec|].
  intros t'. destruct (tokens !! t') as [e'|] eqn:Et'; [|done]. rewrite starts_with_spec. intros Hek'.
  pose proof (exclusive_prefixes _ Ex) as He. symmetry.
  destruct (prefixes_comparable _ _ _ Hek Hek') as [Hc|Hc].
  - pose proof (He _ _ (Hl _ _ Et) (Hl _ _ Et') Hc) as [= Hname _]. by eapply Hn.
  - pose proof (He _ _ (Hl _ _ Et') (Hl _ _ Et) Hc) as [= Hname _]. symmetry. by eapply Hn.
Qed.

Definition demo_tenant (id token prefix : string) : Json :=
  JObject [(str "id", JString (str id)); (str "token", JString (str token)); (str "prefix", JString (str prefix))].
Definition demo_tenants : Json := JObject [(str "tenants", JArray [demo_tenant "acme" "t1" "acme/"; demo_tenant "beta" "t2" "hex:62"])].

Lemma tenant_isolation_witness :
  ∃ ta, tenants_from_value demo_tenants = Ok ta ∧
    tenant_authorize ta (str "acme/x/y") (Some (str "t1")) = true ∧
    ∀ t', tenant_authorize ta (str "acme/x/y") (Some t') = true → t' = str "t1".
Proof.
  eexists. split; [vm_compute; reflexivity|].
  apply (tenant_isolation demo_tenants _ (str "t1") (str "acme/x") (str "acme/x/y")); [by vm_compute|by vm_compute|].
  exists (str "/y"). reflexivity.
Defined.
