(* ===== verification/Roster.v ===== *)
(** Cluster membership outside the Raft log: the roster of addresses ([kaya-net/src/roster.rs])
    and what the server does with it ([kaya-server/src/membership.rs]), persistence and the
    member sets of configuration changes included. *)
From stdpp Require Import gmap sorting.
From S2P Require Import Prelude Bytes Core Path RaftConfig RaftCommand Cdc CdcLoad.

Open Scope N_scope.

(** [std::net::SocketAddr] as the code uses it: it is parsed and printed. *)
Class SocketAddr (A : Type) := {
  addr_parse : bytes → option A;
  addr_text : A → bytes
}.

(** A printed address is read back, starts with a digit or a bracket and is printable ASCII
    without a quote or backslash. *)
Class AddrLaws (A : Type) `{SocketAddr A} := {
  addr_parse_text a : addr_parse (addr_text a) = Some a;
  addr_text_start a : ∃ b rest, addr_text a = b :: rest ∧ (in_range 48 57 b = true ∨ b = 91);
  addr_text_plain a : Forall (λ b, 33 <= b ∧ b <= 126 ∧ b ≠ 34 ∧ b ≠ 92) (addr_text a)
}.

Section Roster.
Context {A : Type} `{SocketAddr A}.

Record RosterEntry := mkRosterEntry { re_raft : A; re_client : A }.
Abbreviation NodeRoster := (gmap N RosterEntry).

(** ** The roster *)

Definition roster_new_with_client (entries : list (N * A * A)) : NodeRoster :=
  foldl (λ r '(id, raft, client), <[id := mkRosterEntry raft client]> r) ∅ entries.
Definition roster_new (entries : list (N * A)) : NodeRoster :=
  roster_new_with_client ((λ '(id, raft), (id, raft, raft)) <$> entries).

Definition roster_addr (r : NodeRoster) (id : N) : option A := re_raft <$> r !! id.
Definition roster_contains (r : NodeRoster) (id : N) : bool := bool_decide (is_Some (r !! id)).
Definition roster_client_addr (r : NodeRoster) (id : N) : option A := re_client <$> r !! id.
Definition all_ids (r : NodeRoster) : list N := set_list (dom r).
Definition all_entries (r : NodeRoster) : list (N * A) := omap (λ id, (λ e, (id, re_raft e)) <$> r !! id) (all_ids r).

Definition upsert (id : N) (raft client : A) (r : NodeRoster) : NodeRoster := <[id := mkRosterEntry raft client]> r.

(** The loop of [replace_from_members]; the roster is replaced only when every address parses. *)
Fixpoint parse_entries (members : list ClusterMember) (next : NodeRoster) : option NodeRoster :=
  match members with
  | [] => Some next
  | m :: members =>
      raft ← addr_parse (raft_addr m); client ← addr_parse (client_addr m); parse_entries members (upsert (m_id m) raft client next)
  end.
Definition replace_from_members (members : list ClusterMember) (r : NodeRoster) : option NodeRoster := parse_entries members ∅.

Definition retain_voters (voters : gset N) (self_id : N) (self_raft self_client : A) (r : NodeRoster) : NodeRoster :=
  upsert self_id self_raft self_client (filter (λ '(id, _), id ∈ voters ∨ id = self_id) r).

Definition merge_one_address (r : NodeRoster) (m : ClusterMember) : NodeRoster :=
  if bool_decide (raft_addr m = [] ∨ client_addr m = []) then r
  else match addr_parse (raft_addr m), addr_parse (client_addr m) with
       | Some raft, Some client => upsert (m_id m) raft client r
       | _, _ => r
       end.
Definition merge_member_addresses (members : list ClusterMember) (r : NodeRoster) : NodeRoster := foldl merge_one_address r members.

(** ** Configuration changes *)

(** Without the write of the file, which [persist_roster] describes. *)
Definition apply_config_change_to_roster (phase : ConfigChangePhase) (members : list ClusterMember) (self_id : N) (self_raft self_client : A)
    (r : NodeRoster) : NodeRoster :=
  let r := upsert self_id self_raft self_client (merge_member_addresses members r) in
  match phase with
  | Joint => r
  | Final =>
      if forallb (λ m, negb (bool_decide (raft_addr m = [])) && negb (bool_decide (client_addr m = []))) members then
        match replace_from_members members r with Some r => upsert self_id self_raft self_client r | None => r end
      else retain_voters (list_to_set (m_id <$> members)) self_id self_raft self_client r
  end.

Definition set_raft_addr (a : bytes) (m : ClusterMember) : ClusterMember := mkMember (m_id m) a (client_addr m) (is_learner m).
Definition set_client_addr (a : bytes) (m : ClusterMember) : ClusterMember := mkMember (m_id m) (raft_addr m) a (is_learner m).

(** Empty addresses are filled from the roster. *)
Definition fill_member (r : NodeRoster) (id : N) (m : ClusterMember) : ClusterMember :=
  let m := if bool_decide (raft_addr m = []) then match roster_addr r id with Some a => set_raft_addr (addr_text a) m | None => m end else m in
  if bool_decide (client_addr m = []) then match roster_client_addr r id with Some a => set_client_addr (addr_text a) m | None => m end else m.

Definition resolve_member (id : N) (known : option ClusterMember) (r : NodeRoster) (self_entry : ClusterMember) : option ClusterMember :=
  if id =? m_id self_entry then Some self_entry
  else match known with
       | Some m => Some (fill_member r id m)
       | None => raft ← roster_addr r id; client ← roster_client_addr r id; Some (mkMember id (addr_text raft) (addr_text client) false)
       end.

(** The values of a [BTreeMap] by identifier, in order. *)
Definition member_values (m : gmap N ClusterMember) : list ClusterMember := omap (λ id, m !! id) (set_list (dom m)).

Definition insert_resolved (r : NodeRoster) (self_entry : ClusterMember) (known : option ClusterMember) (id : N) (by_id : gmap N ClusterMember)
    : gmap N ClusterMember :=
  match resolve_member id known r self_entry with Some m => <[id := m]> by_id | None => by_id end.

(** The members so far: the known ones, or the voters when none are known. *)
Definition current_set (r : NodeRoster) (self_entry : ClusterMember) (current_voters : list N) (current_members : list ClusterMember)
    : gmap N ClusterMember :=
  if bool_decide (current_members = []) then foldl (λ by_id id, insert_resolved r self_entry None id by_id) ∅ current_voters
  else foldl (λ by_id m, insert_resolved r self_entry (Some m) (m_id m) by_id) ∅ current_members.

Definition members_for_add (r : NodeRoster) (current_voters : list N) (current_members : list ClusterMember)
    (new_member self_entry : ClusterMember) : list ClusterMember :=
  member_values (<[m_id new_member := new_member]> (current_set r self_entry current_voters current_members)).

Definition find_member (id : N) (members : list ClusterMember) : option ClusterMember := snd <$> list_find (λ m, m_id m = id) members.

Definition members_for_remove (r : NodeRoster) (current_voters : list N) (current_members : list ClusterMember) (remove_id : N)
    (self_entry : ClusterMember) : option (list ClusterMember) :=
  if remove_id =? m_id self_entry then None
  else
    let is_learner_removal := from_option is_learner false (find_member remove_id current_members) in
    if negb is_learner_removal && ((length current_voters <=? 2)%nat || negb (bool_decide (remove_id ∈ current_voters))) then None
    else
      let source := if bool_decide (current_members = []) then omap (λ id, resolve_member id None r self_entry) current_voters
                    else current_members in
      let by_id := foldl (λ by_id m, if m_id m =? remove_id then by_id else insert_resolved r self_entry (Some m) (m_id m) by_id) ∅ source in
      let remaining_voters := length (filter (λ m, is_learner m = false) (member_values by_id)) in
      if negb is_learner_removal && (remaining_voters <? 2)%nat then None else Some (member_values by_id).

Fixpoint resolve_all (r : NodeRoster) (self_entry : ClusterMember) (promote_id : N) (members : list ClusterMember) : option (list ClusterMember) :=
  match members with
  | [] => Some []
  | m :: members =>
      resolved ← resolve_member (m_id m) (Some m) r self_entry;
      rest ← resolve_all r self_entry promote_id members;
      Some ((if m_id resolved =? promote_id then mkMember (m_id resolved) (raft_addr resolved) (client_addr resolved) false else resolved) :: rest)
  end.
Definition members_for_promote (r : NodeRoster) (current_members : list ClusterMember) (promote_id : N) (self_entry : ClusterMember)
    : option (list ClusterMember) :=
  target ← find_member promote_id current_members;
  if negb (is_learner target) then None else resolve_all r self_entry promote_id current_members.

(** ** The roster file *)

Definition quoted (b : bytes) : bytes := [34] ++ b ++ [34].

Definition roster_line (r : NodeRoster) (e : N * A) : bytes :=
  let client := default e.2 (roster_client_addr r e.1) in
  str "{" ++ quoted (str "id") ++ str ":" ++ dec_bytes e.1 ++ str "," ++
  quoted (str "raft_addr") ++ str ":" ++ quoted (addr_text e.2) ++ str "," ++
  quoted (str "client_addr") ++ str ":" ++ quoted (addr_text client) ++ str "}".

Fixpoint join_lines (lines : list bytes) : bytes :=
  match lines with [] => [] | [l] => l | l :: lines => l ++ [10] ++ join_lines lines end.
Definition persist_roster (r : NodeRoster) : bytes := join_lines (roster_line r <$> all_entries r).

(** What follows the first occurrence of [needle]. *)
Fixpoint after_needle (needle s : bytes) : option bytes :=
  if starts_with needle s then Some (drop (length needle) s)
  else match s with [] => None | _ :: s => after_needle needle s end.
Fixpoint take_digits (s : bytes) : bytes := match s with b :: s => if in_range 48 57 b then b :: take_digits s else [] | [] => [] end.
(** Up to the next quote. *)
Fixpoint until_quote (s : bytes) : option bytes :=
  match s with [] => None | b :: s => if b =? 34 then Some [] else cons b <$> until_quote s end.

Definition extract_json_u64 (json key : bytes) : option N :=
  rest ← after_needle (quoted key ++ str ":") json; parse_uint u64_max (take_digits (trim_start rest)).
Definition extract_json_str (json key : bytes) : option bytes := rest ← after_needle (quoted key ++ str ":" ++ [34]) json; until_quote rest.

Record RosterRecord := mkRosterRecord { rr_id : N; rr_raft : bytes; rr_client : bytes }.
Definition serde_json_parse_line (line : bytes) : option RosterRecord :=
  id ← extract_json_u64 line (str "id"); raft ← extract_json_str line (str "raft_addr"); client ← extract_json_str line (str "client_addr");
  Some (mkRosterRecord id raft client).

Definition load_line (r : NodeRoster) (line : bytes) : NodeRoster :=
  let line := trim line in
  if bool_decide (line = []) then r
  else match serde_json_parse_line line with
       | Some record =>
           match addr_parse (rr_raft record), addr_parse (rr_client record) with
           | Some raft, Some client => upsert (rr_id record) raft client r
           | _, _ => r
           end
       | None => r
       end.
Definition load_persisted_roster (text : bytes) (r : NodeRoster) : NodeRoster := foldl load_line r (text_lines text).
End Roster.
