(* ===== verification/RosterProps.v ===== *)
(** The member sets of configuration changes, the roster they lead to, and its file. *)
From stdpp Require Import gmap sorting.
From S2P Require Import Prelude Bytes Core Path RaftConfig RaftCommand Cdc CdcLoad Roster.

Open Scope N_scope.

(** ** Member sets *)

Section Members.
Context {A : Type} `{SocketAddr A}.
Implicit Types (r : gmap N (RosterEntry (A:=A))) (m : ClusterMember).

Lemma fill_member_keeps r id m : m_id (fill_member r id m) = m_id m ∧ is_learner (fill_member r id m) = is_learner m.
Proof. unfold fill_member. by repeat case_match. Qed.

(** What a known member becomes. *)
Definition resolved r (self m : ClusterMember) : ClusterMember := if m_id m =? m_id self then self else fill_member r (m_id m) m.

Lemma resolve_known r self m : resolve_member (m_id m) (Some m) r self = Some (resolved r self m).
Proof. unfold resolve_member, resolved. by destruct (m_id m =? m_id self). Qed.

(** The entry of this process in the membership agrees with the entry it presents. *)
Definition self_agrees (self : ClusterMember) (members : list ClusterMember) : Prop :=
  ∀ m, m ∈ members → m_id m = m_id self → is_learner m = is_learner self.

Lemma resolved_keeps r self members m : self_agrees self members → m ∈ members →
  m_id (resolved r self m) = m_id m ∧ is_learner (resolved r self m) = is_learner m.
Proof.
  intros Hs Hm. unfold resolved. destruct (N.eqb_spec (m_id m) (m_id self)) as [E|_]; [|apply fill_member_keeps].
  by rewrite E, (Hs m Hm E).
Qed.

Lemma foldl_resolved r self (keep : ClusterMember → bool) members acc : NoDup (m_id <$> members) →
  (∀ m, m ∈ members → acc !! m_id m = None) →
  let out := foldl (λ by_id m, if keep m then insert_resolved r self (Some m) (m_id m) by_id else by_id) acc members in
  ∀ id x, out !! id = Some x ↔ acc !! id = Some x ∨ ∃ m, m ∈ members ∧ keep m = true ∧ m_id m = id ∧ x = resolved r self m.
Proof.
  revert acc. induction members as [|m members IH]; intros acc Hd Hn out id x.
  { split; [by left|]. intros [?|(? & ?%not_elem_of_nil & _)]; done. }
  cbn [fmap list_fmap] in Hd. apply NoDup_cons in Hd as [Hm Hd]. unfold out. cbn [foldl].
  rewrite IH; [|done|].
  2: { intros m' Hm'. assert (m_id m' ≠ m_id m) by (intros E; apply Hm; rewrite <-E; by apply list_elem_of_fmap_2).
       destruct (keep m); [|by apply Hn; right]. unfold insert_resolved. rewrite resolve_known, lookup_insert_ne by done.
       apply Hn. by right. }
  setoid_rewrite elem_of_cons. destruct (keep m) eqn:Ek.
  - unfold insert_resolved. rewrite resolve_known. rewrite lookup_insert_Some. split.
    + intros [[[<- <-]|[_ ?]]|(m' & ? & ? & ? & ?)]; [right; exists m; auto|by left|right; exists m'; auto].
    + intros [Ha|(m' & [->|Hin] & Hk & Hi & ->)]; [|left; left; auto|right; eauto].
      left. right. split; [|done]. intros <-. rewrite Hn in Ha by (by left). done.
  - split; [intros [?|(m' & ? & ? & ? & ?)]; [by left|right; exists m'; auto]|].
    intros [?|(m' & [->|Hin] & Hk & ? & ?)]; [by left|congruence|right; eauto].
Qed.

Lemma member_values_elem (by_id : gmap N ClusterMember) x : x ∈ member_values by_id ↔ ∃ id, by_id !! id = Some x.
Proof.
  unfold member_values. rewrite list_elem_of_omap. setoid_rewrite elem_of_set_list. setoid_rewrite elem_of_dom. split.
  - intros (id & _ & E). eauto.
  - intros (id & E). exists id. split; [by eexists|done].
Qed.

Lemma voter_ids_elem ms i : i ∈ voter_ids ms ↔ ∃ m, m ∈ ms ∧ m_id m = i ∧ is_learner m = false.
Proof. unfold voter_ids. rewrite list_elem_of_fmap. setoid_rewrite list_elem_of_filter. naive_solver. Qed.

Lemma current_members_set r self voters members : members ≠ [] → NoDup (m_id <$> members) →
  ∀ id x, current_set r self voters members !! id = Some x ↔ ∃ m, m ∈ members ∧ m_id m = id ∧ x = resolved r self m.
Proof.
  intros Hne Hd id x. unfold current_set. rewrite bool_decide_eq_false_2 by done.
  pose proof (foldl_resolved r self (λ _, true) members ∅ Hd ltac:(done) id x) as Hf. cbn in Hf. rewrite Hf, lookup_empty.
  naive_solver.
Qed.

(** What becomes of the entry [m] of a member list: the same node in the given role, at the
    addresses [m] gives or, where it gives none, at those of the roster; this process is listed
    as it presents itself. *)
Definition carried r (self : ClusterMember) (role : bool) m (x : ClusterMember) : Prop :=
  m_id x = m_id m ∧ is_learner x = role ∧
  if decide (m_id m = m_id self) then raft_addr x = raft_addr self ∧ client_addr x = client_addr self
  else
    raft_addr x = (if decide (raft_addr m = []) then from_option addr_text [] (roster_addr r (m_id m)) else raft_addr m) ∧
    client_addr x = (if decide (client_addr m = []) then from_option addr_text [] (roster_client_addr r (m_id m)) else client_addr m).

Lemma filled_carried r m : let x := fill_member r (m_id m) m in
  raft_addr x = (if decide (raft_addr m = []) then from_option addr_text [] (roster_addr r (m_id m)) else raft_addr m) ∧
  client_addr x = (if decide (client_addr m = []) then from_option addr_text [] (roster_client_addr r (m_id m)) else client_addr m).
Proof.
  destruct m as [id ra ca l]. cbn. unfold fill_member. cbn [m_id raft_addr client_addr]. rewrite !bool_decide_decide.
  destruct (decide (ra = [])) as [->|], (roster_addr r id); cbn; rewrite ?bool_decide_decide;
    destruct (decide (ca = [])) as [->|], (roster_client_addr r id); done.
Qed.

Lemma member_eq (x y : ClusterMember) :
  m_id x = m_id y ∧ is_learner x = is_learner y ∧ raft_addr x = raft_addr y ∧ client_addr x = client_addr y ↔ x = y.
Proof. split; [|by intros ->]. destruct x, y; cbn. by intros (-> & -> & -> & ->). Qed.

Lemma carried_resolved r self members m x : self_agrees self members → m ∈ members →
  carried r self (is_learner m) m x ↔ x = resolved r self m.
Proof.
  intros Hs Hm. unfold carried, resolved. rewrite <-member_eq. destruct (N.eqb_spec (m_id m) (m_id self)) as [E|E].
  - by rewrite decide_True, (Hs m Hm E), E by done.
  - rewrite decide_False by done. destruct (filled_carried r m) as [<- <-]. by destruct (fill_member_keeps r (m_id m) m) as [-> ->].
Qed.

Lemma carried_exists r self m : ∃ x, carried r self (is_learner m) m x.
Proof.
  unfold carried. destruct (decide _).
  - by exists (mkMember (m_id m) (raft_addr self) (client_addr self) (is_learner m)).
  - eexists (mkMember (m_id m) _ _ (is_learner m)). cbn. by split_and!.
Qed.

Lemma member_values_ids (by_id : gmap N ClusterMember) : (∀ id x, by_id !! id = Some x → m_id x = id) → NoDup (m_id <$> member_values by_id).
Proof.
  intros Hid. unfold member_values. pose proof (NoDup_set_list (dom by_id)) as Hd. revert Hd.
  generalize (set_list (dom by_id)). induction l as [|i l IH]; intros Hd; cbn; [constructor|].
  apply NoDup_cons in Hd as [Hi Hd]. destruct (by_id !! i) as [x|] eqn:E; [|by apply IH].
  cbn. apply NoDup_cons. split; [|by apply IH]. rewrite (Hid i x E). intros (y & Hy & Hin)%list_elem_of_fmap.
  apply list_elem_of_omap in Hin as (j & Hj & Ej). apply Hid in Ej. congruence.
Qed.

(** The list made from the members that [keep] selects. *)
Definition kept r self (keep : ClusterMember → Prop) (members ms : list ClusterMember) : Prop :=
  NoDup (m_id <$> ms) ∧ ∀ x, x ∈ ms ↔ ∃ m, m ∈ members ∧ keep m ∧ carried r self (is_learner m) m x.

Lemma kept_voters r self keep members ms i : kept r self keep members ms →
  i ∈ voter_ids ms ↔ ∃ m, m ∈ members ∧ keep m ∧ m_id m = i ∧ is_learner m = false.
Proof.
  intros [_ Hms]. rewrite voter_ids_elem. setoid_rewrite Hms. split.
  - intros (x & (m & Hm & Hk & Hi & Hl & _) & <- & Hx). exists m. by rewrite <-Hi, <-Hl.
  - intros (m & Hm & Hk & <- & Hl).
    destruct (carried_exists r self m) as [x Hx]. exists x. split; [by exists m|]. destruct Hx as (-> & -> & _). done.
Qed.

Lemma current_members r self voters members : members ≠ [] → NoDup (m_id <$> members) → self_agrees self members → ∀ id x,
  current_set r self voters members !! id = Some x ↔ ∃ m, m ∈ members ∧ m_id m = id ∧ carried r self (is_learner m) m x.
Proof.
  intros Hne Hd Hs id x. rewrite current_members_set by done. split; intros (m & Hm & Hi & Hx); exists m; split_and!; try done;
    by apply (carried_resolved r self members).
Qed.

Lemma add_members r self voters members new : members ≠ [] → NoDup (m_id <$> members) → self_agrees self members →
  m_id new ∉ m_id <$> members → let ms := members_for_add r voters members new self in
  NoDup (m_id <$> ms) ∧ ∀ x, x ∈ ms ↔ x = new ∨ ∃ m, m ∈ members ∧ carried r self (is_learner m) m x.
Proof.
  intros Hne Hd Hs Hn ms. unfold ms, members_for_add. pose proof (current_members r self voters members Hne Hd Hs) as Hc. split.
  - apply member_values_ids. intros id x [[<- <-]|[_ (m & _ & <- & <- & _)%Hc]]%lookup_insert_Some; done.
  - intros x. rewrite member_values_elem. setoid_rewrite lookup_insert_Some. setoid_rewrite Hc. split.
    + intros (id & [[_ <-]|[_ (m & ? & _ & ?)]]); [by left|right; by exists m].
    + intros [->|(m & Hm & Hx)]; [exists (m_id new); by left|]. exists (m_id m). right. split; [|by exists m].
      intros E. apply Hn. rewrite E. by apply list_elem_of_fmap_2.
Qed.

Lemma remove_set r self members rid : NoDup (m_id <$> members) → self_agrees self members →
  kept r self (λ m, m_id m ≠ rid) members
    (member_values (foldl (λ by_id m, if m_id m =? rid then by_id else insert_resolved r self (Some m) (m_id m) by_id) ∅ members)).
Proof.
  intros Hd Hs.
  assert (foldl (λ by_id m, if m_id m =? rid then by_id else insert_resolved r self (Some m) (m_id m) by_id) ∅ members =
          foldl (λ by_id m, if negb (m_id m =? rid) then insert_resolved r self (Some m) (m_id m) by_id else by_id) ∅ members) as ->.
  { generalize (∅ : gmap N ClusterMember). clear. induction members as [|m members IH]; intros acc; cbn [foldl]; [done|].
    rewrite IH. by destruct (m_id m =? rid). }
  pose proof (foldl_resolved r self (λ m, negb (m_id m =? rid)) members ∅ Hd ltac:(done)) as Hf. cbv zeta in Hf.
  set (by_id := foldl _ ∅ members) in *. split.
  - apply member_values_ids. intros id x [?|(m & Hm & _ & <- & ->)]%Hf; [done|]. by destruct (resolved_keeps r self members m Hs Hm).
  - intros x. rewrite member_values_elem. setoid_rewrite Hf. setoid_rewrite lookup_empty. setoid_rewrite negb_true_iff.
    setoid_rewrite N.eqb_neq. split.
    + intros (id & [?|(m & Hm & Hk & _ & Hx)]); [done|]. exists m. split_and!; [done..|]. by apply (carried_resolved r self members).
    + intros (m & Hm & Hk & Hx). exists (m_id m). right. exists m. split_and!; try done. by apply (carried_resolved r self members).
Qed.

Lemma find_member_elem id members : NoDup (m_id <$> members) → ∀ x, find_member id members = Some x ↔ x ∈ members ∧ m_id x = id.
Proof.
  intros Hd x. unfold find_member. split.
  - intros ([j y] & E & ->)%fmap_Some. apply list_find_Some in E as (Hj & Hy & _). split; [by eapply list_elem_of_lookup_2|done].
  - intros [[j Hj]%list_elem_of_lookup Hx]. apply fmap_Some. exists (j, x). split; [|done]. apply list_find_Some.
    split_and!; [done..|]. intros k y Hk Hlt Hy. assert (j = k); [|lia].
    eapply (NoDup_lookup (m_id <$> members)); [done|by rewrite list_lookup_fmap, Hj|rewrite list_lookup_fmap, Hk; cbn; congruence].
Qed.

(** The node is listed as a learner. *)
Definition learner_of (members : list ClusterMember) (id : N) : Prop := ∃ m, m ∈ members ∧ m_id m = id ∧ is_learner m = true.

Lemma find_learner id members : NoDup (m_id <$> members) →
  from_option is_learner false (find_member id members) = true ↔ learner_of members id.
Proof.
  intros Hd. unfold learner_of. setoid_rewrite (assoc and). setoid_rewrite <-find_member_elem; [|done].
  destruct (find_member id members); cbn; naive_solver.
Qed.

Lemma voter_ids_nodup members : NoDup (m_id <$> members) → NoDup (voter_ids members).
Proof. intros Hd. unfold voter_ids. eapply sublist_NoDup; [exact Hd|apply fmap_sublist, sublist_filter]. Qed.

Lemma remaining_voters r self members rid ms : NoDup (m_id <$> members) → rid ∈ voter_ids members →
  kept r self (λ m, m_id m ≠ rid) members ms → S (length (voter_ids ms)) = length (voter_ids members).
Proof.
  intros Hd Hr Hk. change (length (rid :: voter_ids ms) = length (voter_ids members)). apply Permutation_length, NoDup_Permutation.
  - apply NoDup_cons. split; [|apply voter_ids_nodup, Hk]. intros (m & _ & ? & ? & _)%(kept_voters _ _ _ _ _ _ Hk). done.
  - by apply voter_ids_nodup.
  - intros i. rewrite elem_of_cons, (kept_voters _ _ _ _ _ _ Hk), voter_ids_elem. split.
    + intros [->|(m & ? & _ & ? & ?)]; [by apply voter_ids_elem|by exists m].
    + intros (m & Hm & Hi & Hl). destruct (decide (i = rid)); [by left|right]. exists m. split_and!; [done| |done..]. congruence.
Qed.

(** A removal is granted for a learner, and for a voter while at least three of them are left,
    never for the process that is asked. *)
Lemma remove_members r self voters members rid : members ≠ [] → NoDup (m_id <$> members) → self_agrees self members →
  voters ≡ₚ voter_ids members →
  match members_for_remove r voters members rid self with
  | Some ms => kept r self (λ m, m_id m ≠ rid) members ms ∧ rid ≠ m_id self ∧
      (learner_of members rid ∨ rid ∈ voter_ids members ∧ 3 ≤ length (voter_ids members) ∧ S (length (voter_ids ms)) = length (voter_ids members))%nat
  | None => rid = m_id self ∨ ¬ learner_of members rid ∧ (rid ∉ voter_ids members ∨ length (voter_ids members) ≤ 2)%nat
  end.
Proof.
  intros Hne Hd Hs Hv. unfold members_for_remove. destruct (N.eqb_spec rid (m_id self)) as [|Hself]; [by left|].
  rewrite (bool_decide_eq_false_2 (members = [])) by done. rewrite (Permutation_length Hv).
  pose proof (remove_set r self members rid Hd Hs) as Hk. set (ms := member_values _) in *.
  pose proof (find_learner rid members Hd) as Hl. destruct (from_option _ _ _); cbn [negb andb].
  { split_and!; [done..|left; by apply Hl]. }
  assert (¬ learner_of members rid) as Hnl by (intros H'; by apply Hl in H').
  rewrite (bool_decide_ext _ (rid ∈ voter_ids members)) by (by rewrite Hv).
  destruct (Nat.leb_spec (length (voter_ids members)) 2) as [H2|H2]; [right; auto|].
  case_bool_decide as Hr; cbn [orb negb]; [|right; auto]. pose proof (remaining_voters _ _ _ _ _ Hd Hr Hk) as Hn.
  unfold voter_ids in Hn at 1. rewrite length_fmap in Hn. destruct (Nat.ltb_spec (length (filter (λ m, is_learner m = false) ms)) 2); [lia|].
  split_and!; [done..|right]. split_and!; [done|lia|]. by apply (remaining_voters r self members rid).
Qed.

(** A promotion is granted for a learner. *)
Lemma promote_members r self members pid : NoDup (m_id <$> members) → self_agrees self members →
  match members_for_promote r members pid self with
  | Some ms => learner_of members pid ∧ Forall2 (λ m x, carried r self (is_learner m && negb (m_id m =? pid)) m x) members ms
  | None => ¬ learner_of members pid
  end.
Proof.
  intros Hd Hs. unfold members_for_promote. pose proof (find_learner pid members Hd) as Hl.
  destruct (find_member pid members) as [t|]; cbn [from_option mbind option_bind] in *; [|by rewrite <-Hl].
  destruct (is_learner t); cbn [negb]; [|by rewrite <-Hl].
  assert (∃ ms, resolve_all r self pid members = Some ms ∧
    Forall2 (λ m x, carried r self (is_learner m && negb (m_id m =? pid)) m x) members ms) as (ms & -> & Hms); [|split; [by apply Hl|done]].
  clear Hl Hd. induction members as [|m members IH]; cbn [resolve_all]; [exists []; by split|].
  destruct IH as (ms & -> & Hms); [intros m' Hm'; apply Hs; by right|]. rewrite resolve_known. cbn [mbind option_bind].
  eexists. split; [reflexivity|]. constructor; [|done].
  assert (carried r self (is_learner m) m (resolved r self m)) as (Hi & Hll & Ha).
  { apply (carried_resolved r self (m :: members)); [done|left|done]. }
  rewrite Hi. destruct (N.eqb_spec (m_id m) pid); cbn [negb]; rewrite ?andb_true_r, ?andb_false_r; split_and!; done.
Qed.

(** C34: A membership request changes the membership by the node it names and by nothing else. Let
    the leader know a non-empty membership that lists each node once and this process in the
    role in which it presents itself, and let the voters be those of the membership. Adding a
    node that is not a member gives the members as they were ([carried]: same nodes and roles,
    learners included, at their addresses) and the node exactly as it was described, voter or
    learner. Removing a node is refused for this process, for a node that is no member and for
    a voter when only two are left, and granted otherwise; then the rest remain as they were.
    Promoting is granted exactly for a learner, which becomes a voter in its place in the list,
    the others remaining as they were. *)
Theorem membership_changes_one r self voters members : members ≠ [] → NoDup (m_id <$> members) → self_agrees self members →
  voters ≡ₚ voter_ids members →
  (∀ new, m_id new ∉ m_id <$> members → let ms := members_for_add r voters members new self in
     NoDup (m_id <$> ms) ∧ ∀ x, x ∈ ms ↔ x = new ∨ ∃ m, m ∈ members ∧ carried r self (is_learner m) m x) ∧
  (∀ rid,
     match members_for_remove r voters members rid self with
     | Some ms => kept r self (λ m, m_id m ≠ rid) members ms ∧ rid ≠ m_id self ∧
         (learner_of members rid ∨ rid ∈ voter_ids members ∧ 3 ≤ length (voter_ids members) ∧ S (length (voter_ids ms)) = length (voter_ids members))%nat
     | None => rid = m_id self ∨ ¬ learner_of members rid ∧ (rid ∉ voter_ids members ∨ length (voter_ids members) ≤ 2)%nat
     end) ∧
  (∀ pid,
     match members_for_promote r members pid self with
     | Some ms => learner_of members pid ∧ Forall2 (λ m x, carried r self (is_learner m && negb (m_id m =? pid)) m x) members ms
     | None => ¬ learner_of members pid
     end).
Proof.
  intros Hne Hd Hs Hv. split_and!.
  - intros new Hn. by apply add_members.
  - intros rid. by apply remove_members.
  - intros pid. by apply promote_members.
Qed.
End Members.

(** ** The roster after a configuration change *)

Section Applied.
Context {A : Type} `{SocketAddr A}.
Abbreviation NodeRoster := (gmap N (RosterEntry (A:=A))).
Implicit Types (r : NodeRoster) (m : ClusterMember).

(** The entry a member's addresses denote. *)
Definition entry_of m : option (RosterEntry (A:=A)) :=
  raft ← addr_parse (raft_addr m); client ← addr_parse (client_addr m); Some (mkRosterEntry raft client).

Lemma parse_entries_lookup members next r' : NoDup (m_id <$> members) → parse_entries members next = Some r' →
  ∀ id, r' !! id = match find_member id members with Some m => entry_of m | None => next !! id end.
Proof.
  revert next. induction members as [|m members IH]; intros next Hd; cbn [parse_entries].
  { by intros [= <-]. }
  cbn [fmap list_fmap] in Hd. apply NoDup_cons in Hd as [Hm Hd].
  destruct (addr_parse (raft_addr m)) as [raft|] eqn:E1; [|done]. cbn [mbind option_bind].
  destruct (addr_parse (client_addr m)) as [client|] eqn:E2; [|done]. cbn [mbind option_bind]. intros Hp id.
  rewrite (IH _ Hd Hp id). unfold find_member, upsert. cbn [list_find]. destruct (decide (m_id m = id)) as [<-|Hne].
  - cbn. unfold entry_of. rewrite E1, E2. cbn. destruct (list_find _ members) as [[j y]|] eqn:Ef.
    + apply list_find_Some in Ef as (Hj & Hy & _). destruct Hm. rewrite <-Hy. apply list_elem_of_fmap_2. by eapply list_elem_of_lookup_2.
    + by rewrite lookup_insert_eq.
  - rewrite lookup_insert_ne by done. destruct (list_find _ members) as [[j y]|]; done.
Qed.

(** When a final configuration whose addresses all parse is applied, the roster is exactly
    its members with their addresses, and this process with its own: nodes that left are gone
    and no message goes to them any more. While a change is in its joint phase nobody is
    removed. *)
Theorem roster_follows_config members self raft client r : NoDup (m_id <$> members) → Forall (λ m, is_Some (entry_of m)) members →
  Forall (λ m, raft_addr m ≠ [] ∧ client_addr m ≠ []) members →
  (∀ id, apply_config_change_to_roster Final members self raft client r !! id =
     if id =? self then Some (mkRosterEntry raft client) else find_member id members ≫= entry_of) ∧
  dom r ⊆ dom (apply_config_change_to_roster Joint members self raft client r).
Proof.
  intros Hd Hp Ha. split.
  - intros id. unfold apply_config_change_to_roster. rewrite (proj2 (forallb_forall _ _)).
    2: { intros m Hm%list_elem_of_In. rewrite Forall_forall in Ha. destruct (Ha m Hm) as [H1 H2].
         by rewrite !bool_decide_eq_false_2. }
    unfold replace_from_members. destruct (parse_entries members ∅) as [next|] eqn:E.
    + unfold upsert. destruct (N.eqb_spec id self) as [->|Hne]; [by rewrite lookup_insert_eq|]. rewrite lookup_insert_ne by done.
      rewrite (parse_entries_lookup _ _ _ Hd E id), lookup_empty. by destruct (find_member id members).
    + exfalso. clear -Hp E. generalize dependent (∅ : NodeRoster). induction Hp as [|m members [e He] _ IH]; intros next; cbn [parse_entries]; [done|].
      unfold entry_of in He. destruct (addr_parse (raft_addr m)); [|done]. destruct (addr_parse (client_addr m)); [|done]. apply IH.
  - cbn [apply_config_change_to_roster]. unfold upsert. rewrite dom_insert. clear. unfold merge_member_addresses.
    assert (dom r ⊆ dom (foldl merge_one_address r members)) as Hs; [|set_solver].
    revert r. induction members as [|m members IH]; intros r; cbn [foldl]; [done|]. etrans; [|apply IH].
    unfold merge_one_address, upsert. repeat case_match; set_solver.
Qed.
End Applied.

(** ** The roster file *)

(** A needle that starts with a quote is not found in bytes without quotes, nor at a quote that
    is followed by another byte. *)
Lemma needle_skip needle p s : Forall (λ b, b ≠ 34) p → after_needle (34 :: needle) (p ++ s) = after_needle (34 :: needle) s.
Proof.
  induction 1 as [|b p Hb _ IH]; [done|]. cbn [app after_needle starts_with]. destruct (N.eqb_spec 34 b); [congruence|]. apply IH.
Qed.

Lemma needle_other needle c d s : c ≠ d → after_needle (34 :: c :: needle) (34 :: d :: s) = after_needle (34 :: c :: needle) (d :: s).
Proof. intros Hcd. cbn [after_needle starts_with]. rewrite N.eqb_refl. destruct (N.eqb_spec c d); [done|]. done. Qed.

Lemma needle_step needle b s : b ≠ 34 → after_needle (34 :: needle) (b :: s) = after_needle (34 :: needle) s.
Proof. intros Hb. apply (needle_skip needle [b]). by constructor. Qed.

Ltac needle_run := cbn [app]; repeat first [rewrite needle_step by done | rewrite needle_other by done].

Lemma needle_found needle s : after_needle needle (needle ++ s) = Some s.
Proof.
  destruct (needle ++ s) as [|b l] eqn:E; cbn [after_needle]; rewrite <-E, (proj2 (starts_with_spec _ _)) by (by eexists);
    by rewrite drop_app_length.
Qed.

Lemma until_quote_found a s : Forall (λ b, b ≠ 34) a → until_quote (a ++ 34 :: s) = Some a.
Proof.
  induction 1 as [|b a Hb _ IH]; cbn [app until_quote]; [done|]. destruct (N.eqb_spec b 34); [done|]. by rewrite IH.
Qed.

Lemma take_digits_dec n s : take_digits (dec_bytes n ++ 44 :: s) = dec_bytes n.
Proof.
  assert (Forall (λ b, 48 <= b ∧ b <= 57) (dec_bytes n)) as Hf.
  { destruct (dec_bytes_head n) as (d & l & -> & ? & ? & ?). by constructor. }
  induction Hf as [|b l [? ?] _ IH]; [done|]. cbn [app take_digits]. unfold in_range.
  rewrite (proj2 (N.leb_le 48 b)), (proj2 (N.leb_le b 57)) by done. cbn [andb]. by f_equal.
Qed.

Lemma dec_no_quote n : Forall (λ b, b ≠ 34) (dec_bytes n).
Proof. destruct (dec_bytes_head n) as (d & l & -> & ? & ? & Hl). constructor; [lia|]. eapply Forall_impl; [exact Hl|]. cbn. lia. Qed.

Section File.
Context {A : Type} `{AddrLaws A}.
Abbreviation NodeRoster := (gmap N (RosterEntry (A:=A))).
Implicit Types (r : NodeRoster).

Lemma addr_no_quote (a : A) : Forall (λ b, b ≠ 34) (addr_text a).
Proof. eapply Forall_impl; [apply addr_text_plain|]. by intros b (_ & _ & ? & _). Qed.

(** A line, with what is read from it marked by the names of its fields. *)
Definition line_text (id : N) (raft client : A) : bytes :=
  [123] ++ (quoted (str "id") ++ str ":") ++ dec_bytes id ++ [44] ++
  (quoted (str "raft_addr") ++ str ":" ++ [34]) ++ addr_text raft ++ [34; 44] ++
  (quoted (str "client_addr") ++ str ":" ++ [34]) ++ addr_text client ++ [34; 125].

Lemma roster_line_text r id e : r !! id = Some e → roster_line r (id, re_raft e) = line_text id (re_raft e) (re_client e).
Proof.
  intros He. unfold roster_line, line_text, roster_client_addr, quoted. cbn [fst snd]. rewrite He. cbn [fmap option_fmap option_map default].
  rewrite <-!app_assoc. reflexivity.
Qed.

Lemma parse_line_text id raft client : id <= u64_max →
  serde_json_parse_line (line_text id raft client) = Some (mkRosterRecord id (addr_text raft) (addr_text client)).
Proof.
  intros Hid. unfold serde_json_parse_line.
  assert (extract_json_u64 (line_text id raft client) (str "id") = Some id) as ->.
  { unfold extract_json_u64, line_text. set (n := quoted (str "id") ++ str ":").
    change n with (34 :: drop 1 n) at 1. cbn [app]. rewrite needle_step by done. change (34 :: drop 1 n) with n.
    rewrite needle_found. cbn [mbind option_bind]. destruct (dec_bytes_head id) as (d & l & E & ? & ? & ?).
    rewrite E. cbn [app]. rewrite trim_start_plain by (unfold plain, ch_backslash; lia).
    rewrite app_comm_cons, <-E, take_digits_dec. by apply parse_uint_dec. }
  assert (extract_json_str (line_text id raft client) (str "raft_addr") = Some (addr_text raft)) as ->.
  { unfold extract_json_str, line_text. set (n := quoted (str "raft_addr") ++ str ":" ++ [34]).
    change n with (34 :: 114 :: drop 2 n) at 1. change (quoted (str "id") ++ str ":") with ([34; 105; 100; 34; 58]).
    needle_run. rewrite needle_skip by apply dec_no_quote. needle_run. change (34 :: 114 :: drop 2 n) with n. rewrite needle_found.
    cbn [mbind option_bind]. apply until_quote_found, addr_no_quote. }
  assert (extract_json_str (line_text id raft client) (str "client_addr") = Some (addr_text client)) as ->; [|done].
  unfold extract_json_str, line_text. set (n := quoted (str "client_addr") ++ str ":" ++ [34]).
  change n with (34 :: 99 :: drop 2 n) at 1. change (quoted (str "id") ++ str ":") with ([34; 105; 100; 34; 58]).
  change (quoted (str "raft_addr") ++ str ":" ++ [34]) with [34; 114; 97; 102; 116; 95; 97; 100; 100; 114; 34; 58; 34].
  needle_run. rewrite needle_skip by apply dec_no_quote. needle_run.
  pose proof (addr_no_quote raft) as Hq. destruct (addr_text_start raft) as (b & rest & E & Hb). rewrite E in *. cbn [app].
  rewrite needle_other by (destruct Hb as [Hb| ->]; [intros <-; discriminate|done]).
  rewrite app_comm_cons, needle_skip by done. needle_run. change (34 :: 99 :: drop 2 n) with n. rewrite needle_found.
  cbn [mbind option_bind]. apply until_quote_found, addr_no_quote.
Qed.

Lemma line_plain id raft client : Forall plain (line_text id raft client).
Proof.
  assert (∀ a : A, Forall plain (addr_text a)) as Ha.
  { intros a. eapply Forall_impl; [apply addr_text_plain|]. intros b (? & ? & _ & ?). done. }
  assert (Forall plain (dec_bytes id)) as Hd by (eapply Forall_impl; [apply dec_bytes_bare|]; by intros b [? _]).
  unfold line_text. rewrite !Forall_app. split_and!; try apply Ha; try apply Hd; repeat (constructor; [by unfold plain, ch_backslash|]); constructor.
Qed.

Lemma split_join_lines lines : lines ≠ [] → Forall (Forall plain) lines → split_on 10 (join_lines lines) = lines.
Proof.
  intros Hne Hf. induction Hf as [|l lines Hl Hf IH]; [done|]. destruct lines as [|l' lines].
  - by apply split_on_no_sep, plain_no_newline.
  - change (join_lines (l :: l' :: lines)) with (l ++ 10 :: join_lines (l' :: lines)). rewrite split_on_app by (by apply plain_no_newline). by rewrite IH.
Qed.

Lemma text_lines_join lines : Forall (λ l, l ≠ [] ∧ Forall plain l) lines → text_lines (join_lines lines) = lines.
Proof.
  intros Hf. destruct (decide (lines = [])) as [->|Hne]; [done|].
  assert (Forall (Forall plain) lines) as Hp by (eapply Forall_impl; [exact Hf|]; by intros l [_ ?]).
  unfold text_lines. rewrite split_join_lines by done. clear Hne Hp. induction Hf as [|l lines [Hl Hp] Hf IH]; [done|].
  destruct lines as [|l' lines].
  - cbn. by destruct l.
  - change (removelast (l :: l' :: lines)) with (l :: removelast (l' :: lines)). cbn [fmap list_fmap]. rewrite strip_cr_plain by done.
    change (last (l :: l' :: lines)) with (last (l' :: lines)). cbn [app]. f_equal. exact IH.
Qed.

Lemma load_line_text r id raft client : id <= u64_max → load_line r (line_text id raft client) = upsert id raft client r.
Proof.
  intros Hid. unfold load_line. rewrite trim_plain by apply line_plain. rewrite bool_decide_eq_false_2 by done.
  rewrite parse_line_text by done. cbn [rr_raft rr_client rr_id]. by rewrite !addr_parse_text.
Qed.

Lemma load_lines_lookup r ids acc : NoDup ids → (∀ id, id ∈ ids → id <= u64_max) → ∀ id,
  foldl load_line acc (roster_line r <$> omap (λ id, (λ e, (id, re_raft e)) <$> r !! id) ids) !! id =
  if bool_decide (id ∈ ids ∧ is_Some (r !! id)) then r !! id else acc !! id.
Proof.
  intros Hd Hb. revert acc. induction Hd as [|x ids Hx Hd IH]; intros acc id.
  { cbn. rewrite bool_decide_eq_false_2; [done|]. by intros [?%not_elem_of_nil _]. }
  cbn [omap list_omap]. destruct (r !! x) as [e|] eqn:Ex; cbn [fmap option_fmap option_map list_fmap foldl].
  - rewrite roster_line_text by done. rewrite load_line_text by (apply Hb; by left).
    rewrite IH by (intros; apply Hb; by right). unfold upsert. destruct (decide (id = x)) as [->|Hne].
    + rewrite (bool_decide_eq_false_2 (x ∈ ids ∧ _)) by naive_solver. rewrite lookup_insert_eq, bool_decide_eq_true_2.
      * by destruct e.
      * split; [by left|done].
    + rewrite lookup_insert_ne by done. rewrite (bool_decide_ext (id ∈ x :: ids ∧ is_Some (r !! id)) (id ∈ ids ∧ is_Some (r !! id))); [done|].
      rewrite elem_of_cons. naive_solver.
  - rewrite IH by (intros; apply Hb; by right). rewrite (bool_decide_ext (id ∈ x :: ids ∧ is_Some (r !! id)) (id ∈ ids ∧ is_Some (r !! id))); [done|].
    rewrite elem_of_cons. split; [|naive_solver]. intros [[->|?] [? ?]]; [congruence|by split].
Qed.

(** The roster survives a restart: what the roster file holds is read back as the roster
    that was written, whatever the addresses. *)
Theorem roster_file_roundtrip r : (∀ id, is_Some (r !! id) → id <= u64_max) → load_persisted_roster (persist_roster r) ∅ = r.
Proof.
  intros Hb. unfold load_persisted_roster, persist_roster, all_entries. rewrite text_lines_join.
  - apply map_eq. intros id. rewrite load_lines_lookup; [|apply NoDup_set_list|].
    + rewrite (bool_decide_ext _ (is_Some (r !! id))).
      * case_bool_decide as E; [done|]. apply eq_None_not_Some in E. by rewrite E.
      * unfold all_ids. rewrite elem_of_set_list, elem_of_dom. tauto.
    + unfold all_ids. intros x Hx. apply Hb. by rewrite elem_of_set_list, elem_of_dom in Hx.
  - apply Forall_fmap, Forall_forall. intros e (x & _ & (e' & Hx & ->)%fmap_Some)%list_elem_of_omap. unfold compose.
    rewrite roster_line_text by done. split; [done|apply line_plain].
Qed.
End File.

(** Two addresses, as a cluster on one machine has them. *)
#[export] Instance demo_addr : SocketAddr bool := {|
  addr_parse b := if bool_decide (b = str "127.0.0.1:7481") then Some true
                  else if bool_decide (b = str "127.0.0.1:7482") then Some false else None;
  addr_text a := if a then str "127.0.0.1:7481" else str "127.0.0.1:7482"
|}.
#[export] Instance demo_addr_laws : AddrLaws bool.
Proof.
  split.
  - by intros [].
  - intros []; (eexists _, _; split; [reflexivity|by left]).
  - intros []; cbn; repeat (constructor; [done|]); constructor.
Defined.

Definition demo_members : list ClusterMember :=
  [mkMember 1 (str "127.0.0.1:7481") (str "127.0.0.1:7482") false; mkMember 2 (str "127.0.0.1:7482") (str "127.0.0.1:7481") false;
   mkMember 3 (str "127.0.0.1:7482") (str "127.0.0.1:7482") true].
Definition demo_roster : gmap N (RosterEntry (A:=bool)) := roster_new_with_client [(1, true, false); (2, false, true)].

Lemma roster_file_roundtrip_witness : load_persisted_roster (persist_roster demo_roster) ∅ = demo_roster.
Proof.
  apply (roster_file_roundtrip demo_roster). intros id [e He]. unfold demo_roster, roster_new_with_client in He. cbn [foldl] in He.
  apply lookup_insert_Some in He as [[<- _]|[_ He]]; [done|]. apply lookup_insert_Some in He as [[<- _]|[_ He]]; done.
Defined.

Lemma roster_follows_config_witness :
  (∀ id, apply_config_change_to_roster Final demo_members 1 true false demo_roster !! id =
     if id =? 1 then Some (mkRosterEntry true false) else find_member id demo_members ≫= entry_of) ∧
  dom demo_roster ⊆ dom (apply_config_change_to_roster Joint demo_members 1 true false demo_roster).
Proof.
  apply (roster_follows_config demo_members 1 true false demo_roster).
  - by apply (bool_decide_unpack _).
  - repeat (constructor; [by eexists|]). constructor.
  - repeat (constructor; [done|]). constructor.
Defined.

Lemma membership_changes_one_witness :
  ∃ ms, members_for_promote demo_roster demo_members 3 (mkMember 1 [] [] false) = Some ms ∧ learner_of demo_members 3 ∧
    Forall2 (λ m x, carried demo_roster (mkMember 1 [] [] false) (is_learner m && negb (m_id m =? 3)) m x) demo_members ms.
Proof.
  destruct (membership_changes_one demo_roster (mkMember 1 [] [] false) [1; 2] demo_members) as (_ & _ & Hp).
  - done.
  - by apply (bool_decide_unpack _).
  - intros m Hm. by repeat (apply elem_of_cons in Hm as [->|Hm]); [..|apply not_elem_of_nil in Hm].
  - by vm_compute.
  - eexists. split; [vm_compute; reflexivity|]. exact (Hp 3).
Defined.

(** A voter whose addresses this process does not know disappears from the configuration when
    another node is added, as long as no membership was committed yet. *)
Theorem membership_add_drops_voter :
  let r : gmap N (RosterEntry (A:=bool)) := roster_new_with_client [(1, true, false); (2, false, true)] in
  voter_ids (members_for_add r [1; 2; 3] [] (mkMember 4 (str "127.0.0.1:7482") (str "127.0.0.1:7482") false)
    (mkMember 1 (str "127.0.0.1:7481") (str "127.0.0.1:7482") false)) = [1; 2; 4].
Proof. by vm_compute. Qed.
