(* ===== verification/Client.v ===== *)
(** The client library ([kaya-client]): retry policy, range cache, the request loop with its
    redirects and retries, and the operations built on it. *)
From stdpp Require Import gmap sorting.
From S2P Require Import Prelude Bytes Core Path RaftConfig RaftCommand RaftLog RaftNode NetCodec ClientCodec Cdc CdcLoad Roster.

Open Scope N_scope.

(** ** Retry policy *)

(** Durations in microseconds. *)
Record RetryPolicy := mkRetryPolicy {
  max_attempts : N;
  base_backoff : N;
  max_backoff : N;
  jitter : bool;
  request_timeout : option N
}.

Definition default_policy : RetryPolicy := mkRetryPolicy 4 50000 2000000 true (Some 5000000).
Definition no_retry : RetryPolicy := mkRetryPolicy 1 0 0 false None.

(** [1u64.checked_shl(i).unwrap_or(u64::MAX)]. *)
Definition checked_shl_one (i : N) : N := if i <? 64 then N.shiftl 1 i else u64_max.

(** The generator: xorshift64*. *)
Definition xorshift (x : N) : N :=
  let x := N.lxor x (N.shiftr x 12) in
  let x := N.lxor x (wrap u64_lim (N.shiftl x 25)) in
  N.lxor x (N.shiftr x 27).

Definition backoff (p : RetryPolicy) (retry_index : N) (rng_state : N) : N * N :=
  let base_us := wrap u64_lim (base_backoff p) in
  let scaled := N.min u64_max (base_us * checked_shl_one retry_index) in
  let capped := N.min scaled (wrap u64_lim (max_backoff p)) in
  if negb (jitter p) || (capped =? 0) then (capped, rng_state)
  else
    let x := xorshift rng_state in
    (wrap u64_lim (x * 0x2545F4914F6CDD1D) mod (capped + 1), x).

(** ** Range cache *)

(** [CachedRange] has the fields of a descriptor on the wire. *)
Definition cr_id (r : RangeDescWire) : N := r.1.1.1.1.
Definition cr_group (r : RangeDescWire) : N := r.1.1.2.
Definition cr_start (r : RangeDescWire) : bytes := r.1.2.
Definition cr_end (r : RangeDescWire) : bytes := r.2.

Record RangeCache := mkRangeCache { rc_epoch : N; rc_ranges : list RangeDescWire }.

(** [key < r.start_key] skips the range. *)
Definition cached_contains (r : RangeDescWire) (key : bytes) : bool :=
  ble (cr_start r) key && (bool_decide (cr_end r = []) || blt key (cr_end r)).
Fixpoint lookup_cached (ranges : list RangeDescWire) (key : bytes) : option N :=
  match ranges with [] => None | r :: ranges => if cached_contains r key then Some (cr_group r) else lookup_cached ranges key end.
Definition lookup_group (c : RangeCache) (key : bytes) : option N := lookup_cached (rc_ranges c) key.

Definition ranges_overlap (a b : RangeDescWire) : bool :=
  (bool_decide (cr_end b = []) || blt (cr_start a) (cr_end b)) && (bool_decide (cr_end a = []) || blt (cr_start b) (cr_end a)).

Fixpoint insert_cached (r : RangeDescWire) (l : list RangeDescWire) : list RangeDescWire :=
  match l with [] => [r] | x :: l => if ble (cr_start r) (cr_start x) then r :: x :: l else x :: insert_cached r l end.
Definition sort_cached (l : list RangeDescWire) : list RangeDescWire := foldr insert_cached [] l.

(** One reported range replaces those with its identifier and those it overlaps. *)
Definition apply_descriptor (l : list RangeDescWire) (nr : RangeDescWire) : list RangeDescWire :=
  filter (λ r, cr_id r ≠ cr_id nr ∧ ranges_overlap r nr = false) l ++ [nr].
Definition apply_descriptors (meta_epoch : N) (ranges : list RangeDescWire) (c : RangeCache) : RangeCache :=
  mkRangeCache (if rc_epoch c <? meta_epoch then meta_epoch else rc_epoch c)
    (sort_cached (foldl apply_descriptor (rc_ranges c) ranges)).

(** ** The client *)

Section Client.
Context {A : Type} `{SocketAddr A} `{EqDecision A}.

Record KayaClient := mkClient {
  cl_addr : A;
  max_redirects : N;
  client_token : option bytes;
  operator_token : option bytes;
  retry_policy : RetryPolicy;
  backoff_seed : N;
  conn_addr : option A;
  range_cache : option RangeCache
}.

Definition rotl5 (x : N) : N := N.lor (wrap u64_lim (N.shiftl x 5)) (N.shiftr x 59).
Definition seed_from_addr (addr : A) : N :=
  N.lor (foldl (λ seed b, N.lxor (rotl5 seed) b) 0x9e3779b97f4a7c15 (addr_text addr)) 1.

Definition client_connect (addr : A) : KayaClient := mkClient addr 3 None None default_policy (seed_from_addr addr) None None.

Definition set_addr (a : A) (c : KayaClient) : KayaClient :=
  mkClient a (max_redirects c) (client_token c) (operator_token c) (retry_policy c) (backoff_seed c) (conn_addr c) (range_cache c).
Definition set_seed (s : N) (c : KayaClient) : KayaClient :=
  mkClient (cl_addr c) (max_redirects c) (client_token c) (operator_token c) (retry_policy c) s (conn_addr c) (range_cache c).
Definition set_conn (a : option A) (c : KayaClient) : KayaClient :=
  mkClient (cl_addr c) (max_redirects c) (client_token c) (operator_token c) (retry_policy c) (backoff_seed c) a (range_cache c).
Definition set_cache (rc : option RangeCache) (c : KayaClient) : KayaClient :=
  mkClient (cl_addr c) (max_redirects c) (client_token c) (operator_token c) (retry_policy c) (backoff_seed c) (conn_addr c) rc.

Definition invalidate_conn : KayaClient → KayaClient := set_conn None.

Definition client_wire (c : KayaClient) (opcode : N) (payload : bytes) : bytes :=
  wire_payload (client_token c) (rc_epoch <$> range_cache c) opcode payload.

Definition parse_leader_hint (body : bytes) : option A :=
  if utf8_valid body then let hint := trim body in if bool_decide (hint = []) then None else addr_parse hint else None.

(** Whether the body could be decoded, and the client with the refreshed cache. *)
Definition apply_range_moved_body (body : bytes) (c : KayaClient) : bool * KayaClient :=
  match decode_list_ranges_response body with
  | Err _ => (false, c)
  | Ok (meta_epoch, ranges) =>
      (true, set_cache (Some match range_cache c with
                             | Some cache => apply_descriptors meta_epoch ranges cache
                             | None => mkRangeCache meta_epoch ranges
                             end) c)
  end.

(** The wait before a retry, seen through the generator it advances. *)
Definition step_backoff (i : N) (c : KayaClient) : KayaClient :=
  set_seed (backoff (retry_policy c) (wrap u32_lim i) (backoff_seed c)).2 c.

(** *** The network *)

(** What comes back from one request: an answer, a failure of the connection, or nothing. *)
Inductive Trip : Type := Answered (status : N) (body : bytes) | Broken | Silent.

(** The network and the servers behind it: any state and any reaction to a request. *)
Context {W : Type} (request : A → N → bytes → W → Trip * W).

(** What the loop returns; without a timeout a silent server blocks it. *)
Inductive Sent : Type := Responded (status : N) (body : bytes) | SendFailed (attempts redirects : N) (timed_out : bool) | Blocked.

(** The loop of [send_with_retry], and the number of requests it made. *)
Fixpoint send_loop (fuel : nat) (opcode : N) (wire : bytes) (current : A) (attempts redirects range_moved : N) (c : KayaClient) (w : W)
    : option (Sent * N * KayaClient * W) :=
  match fuel with
  | O => None
  | S fuel =>
      let again current attempts redirects range_moved c w :=
        '(res, n, c, w) ← send_loop fuel opcode wire current attempts redirects range_moved c w; Some (res, n + 1, c, w) in
      let '(trip, w) := request current opcode wire w in
      let c := set_conn (Some current) c in
      let failed timed_out :=
        let c := invalidate_conn c in
        if max_attempts (retry_policy c) <=? attempts + 1 then Some (SendFailed (attempts + 1) redirects timed_out, 1, c, w)
        else again current (attempts + 1) redirects range_moved (step_backoff attempts c) w in
      match trip with
      | Answered status body =>
          if status =? STATUS_NOT_LEADER then
            let c := invalidate_conn c in
            if max_redirects c <=? redirects then Some (Responded status body, 1, c, w)
            else
              let '(current, c) := match parse_leader_hint body with Some a => (a, set_addr a c) | None => (current, c) end in
              again current attempts (redirects + 1) range_moved (step_backoff redirects c) w
          else if status =? STATUS_RANGE_MOVED then
            let '(applied, c) := apply_range_moved_body body c in
            if (max_redirects c <=? range_moved) || negb applied then Some (Responded status body, 1, c, w)
            else again current attempts redirects (range_moved + 1) (step_backoff range_moved c) w
          else Some (Responded status body, 1, c, w)
      | Broken => failed false
      | Silent => match request_timeout (retry_policy c) with Some _ => failed true | None => Some (Blocked, 1, c, w) end
      end
  end.

(** The most requests one call makes: a redirect, a refresh of the cache and a failed attempt
    each have a budget of their own. *)
Definition max_trips (c : KayaClient) : N := 2 * max_redirects c + N.max 1 (max_attempts (retry_policy c)).

Definition send_with_retry (opcode : N) (payload : bytes) (c : KayaClient) (w : W) : option (Sent * N * KayaClient * W) :=
  send_loop (N.to_nat (max_trips c)) opcode (client_wire c opcode payload) (cl_addr c) 0 0 0 c w.

(** *** Operations *)

Inductive ClientError : Type :=
| CInvalidArgument (msg : bytes)
| CInternal (msg : bytes)
| CCorruption (e : NetError)
| CTxnConflict
| CRequestFailed (attempts redirects : N).

Definition error_text (body : bytes) (otherwise : string) : bytes := match decode_error_payload body with Ok m => m | Err _ => str otherwise end.

(** The end every operation has in common: the statuses that are not its own. *)
Definition other_status {X} (status : N) (body : bytes) : result ClientError X :=
  if status =? STATUS_INVALID_ARGUMENT then Err (CInvalidArgument (error_text body "invalid argument"))
  else Err (CInternal (error_text body "Unknown error")).

Definition map_txn_status (status : N) (body : bytes) : ClientError :=
  if status =? STATUS_TXN_CONFLICT then CTxnConflict
  else if status =? STATUS_NOT_LEADER then
    let hint := if utf8_valid body then trim body else [] in
    if bool_decide (hint = []) then CInternal (str "not leader (no leader hint)") else CInternal (str "not leader; hint=" ++ hint)
  else CInternal (error_text body "Unknown error").
Definition other_txn_status {X} (status : N) (body : bytes) : result ClientError X :=
  if status =? STATUS_INVALID_ARGUMENT then Err (CInvalidArgument (error_text body "invalid argument"))
  else Err (map_txn_status status body).

Definition corrupt {X} (r : result NetError X) : result ClientError X := match r with Ok x => Ok x | Err e => Err (CCorruption e) end.

(** A request and what is made of its answer; no result when the call blocks. *)
Definition call {X} (opcode : N) (payload : bytes) (k : N → bytes → result ClientError X) (c : KayaClient) (w : W)
    : option (result ClientError X) * KayaClient * W :=
  match send_with_retry opcode payload c w with
  | Some (Responded status body, _, c, w) => (Some (k status body), c, w)
  | Some (SendFailed attempts redirects _, _, c, w) => (Some (Err (CRequestFailed attempts redirects)), c, w)
  | Some (Blocked, _, c, w) => (None, c, w)
  | None => (None, c, w)
  end.

Definition handshake := call HELLO_OPCODE (encode_hello_request PROTO_VERSION) (λ status body,
  if status =? STATUS_OK then corrupt (decode_hello_response body) else other_status status body).

Definition client_put (key value : bytes) := call 1 (encode_put_payload key value) (λ status body,
  if status =? STATUS_OK then Ok tt else other_status status body).

Definition client_get (key : bytes) := call 2 (encode_key_payload key) (λ status body,
  if status =? STATUS_OK then Some <$> corrupt (decode_value_payload body)
  else if status =? STATUS_NOT_FOUND then Ok None else other_status status body).

Definition client_delete (key : bytes) := call 3 (encode_key_payload key) (λ status body,
  if status =? STATUS_OK then Ok tt else other_status status body).

Definition client_scan (prefix : bytes) := call 4 (encode_scan_payload prefix) (λ status body,
  if status =? STATUS_OK then corrupt (decode_scan_response body) else other_status status body).

(** [health] and [stats] return the body as text. *)
Definition text_answer (status : N) (body : bytes) : result ClientError bytes :=
  if status =? STATUS_OK then if utf8_valid body then Ok body else Err (CCorruption (NotUtf8 "utf-8"))
  else Err (CInternal (error_text body "Unknown error")).
Definition client_health := call 5 [] text_answer.
Definition client_stats := call 6 [] text_answer.

(** [list_ranges] replaces the cache. *)
Definition list_ranges (c : KayaClient) (w : W) : option (result ClientError RangeCache) * KayaClient * W :=
  let '(res, c, w) := call LIST_RANGES_OPCODE [] (λ status body,
    if status =? STATUS_OK then '(e, rs) ← corrupt (decode_list_ranges_response body); Ok (mkRangeCache e rs)
    else other_status status body) c w in
  match res with Some (Ok cache) => (res, set_cache (Some cache) c, w) | _ => (res, c, w) end.

(** The administrative calls read the whole table when they have succeeded. *)
Definition then_refresh (r : option (result ClientError unit) * KayaClient * W) : option (result ClientError RangeCache) * KayaClient * W :=
  let '(res, c, w) := r in
  match res with
  | Some (Ok _) => list_ranges c w
  | Some (Err e) => (Some (Err e), c, w)
  | None => (None, c, w)
  end.

Definition client_split_range (split_key : bytes) (c : KayaClient) (w : W) : option (result ClientError RangeCache) * KayaClient * W :=
  match send_with_retry SPLIT_RANGE_OPCODE (encode_split_range_request split_key) c w with
  | Some (Responded status body, _, c, w) =>
      if status =? STATUS_OK then
        match decode_list_ranges_response body with Ok _ => list_ranges c w | Err e => (Some (Err (CCorruption e)), c, w) end
      else if status =? STATUS_INVALID_ARGUMENT then (Some (Err (CInvalidArgument (error_text body "invalid argument"))), c, w)
      else if status =? STATUS_RANGE_MOVED then
        let '(refreshed, c, w) := list_ranges c w in
        match refreshed with
        | Some _ => (Some (Err (CInvalidArgument (str "range moved during split; cache refreshed"))), c, w)
        | None => (None, c, w)
        end
      else (Some (Err (CInternal (error_text body "Unknown error"))), c, w)
  | Some (SendFailed attempts redirects _, _, c, w) => (Some (Err (CRequestFailed attempts redirects)), c, w)
  | Some (Blocked, _, c, w) => (None, c, w)
  | None => (None, c, w)
  end.

Definition client_move_range (range_start : bytes) (target_group : N) (c : KayaClient) (w : W) :=
  then_refresh (call MOVE_RANGE_OPCODE
    (admin_wire_payload (operator_token c) MOVE_RANGE_OPCODE (encode_move_range_request range_start target_group)) (λ status body,
      if status =? STATUS_OK then _ ← corrupt (decode_list_ranges_response body); Ok tt else other_status status body) c w).

Definition client_cdc_poll (consumer_id : bytes) (from_seq limit : N) :=
  call CDC_POLL_OPCODE (encode_cdc_poll_request consumer_id from_seq limit) (λ status body,
    if status =? STATUS_OK then
      evs ← corrupt (decode_cdc_poll_response body);
      Ok (map (λ '(seq, op, key, value), (seq, op =? CDC_EVENT_PUT, key, value)) evs)
    else other_status status body).

Definition client_cdc_checkpoint (consumer_id : bytes) :=
  call CDC_CHECKPOINT_OPCODE (encode_cdc_checkpoint_request consumer_id) (λ status body,
    if status =? STATUS_OK then Ok tt else other_status status body).

(** *** Transactions *)

(** The handle: identifier, snapshot and the writes made through it. *)
Record Transaction := mkTransaction { tx_id : N; tx_snapshot_ts : N; tx_local : gmap bytes (option bytes) }.

Definition client_begin_txn := call TXN_BEGIN_OPCODE [] (λ status body,
  if status =? STATUS_OK then '(id, ts) ← corrupt (decode_txn_begin_response body); Ok (mkTransaction id ts ∅)
  else other_txn_status status body).

Definition transaction_get (t : Transaction) (key : bytes) (c : KayaClient) (w : W) : option (result ClientError (option bytes)) * KayaClient * W :=
  match tx_local t !! key with
  | Some local => (Some (Ok local), c, w)
  | None => call TXN_OP_OPCODE (encode_txn_op_payload (tx_id t) TXN_OP_GET key None) (λ status body,
      if status =? STATUS_OK then Some <$> corrupt (decode_value_payload body)
      else if status =? STATUS_NOT_FOUND then Ok None else other_txn_status status body) c w
  end.

(** [put] and [delete]: the local buffer follows what the server accepted. *)
Definition transaction_write (t : Transaction) (op : N) (key : bytes) (value : option bytes) (c : KayaClient) (w : W)
    : option (result ClientError unit) * Transaction * KayaClient * W :=
  let '(res, c, w) := call TXN_OP_OPCODE (encode_txn_op_payload (tx_id t) op key value) (λ status body,
    if status =? STATUS_OK then Ok tt else other_txn_status status body) c w in
  (res, match res with Some (Ok _) => mkTransaction (tx_id t) (tx_snapshot_ts t) (<[key := value]> (tx_local t)) | _ => t end, c, w).
Definition transaction_put (t : Transaction) (key value : bytes) := transaction_write t TXN_OP_PUT key (Some value).
Definition transaction_delete (t : Transaction) (key : bytes) := transaction_write t TXN_OP_DELETE key None.

Definition transaction_commit (t : Transaction) := call TXN_COMMIT_OPCODE (encode_txn_id_payload (tx_id t)) (λ status body,
  if status =? STATUS_OK then corrupt (decode_txn_commit_response body) else other_txn_status status body).
Definition transaction_rollback (t : Transaction) := call TXN_ROLLBACK_OPCODE (encode_txn_id_payload (tx_id t)) (λ status body,
  if status =? STATUS_OK then Ok tt else other_txn_status status body).
End Client.
