(* ===== verification/ClientProps.v ===== *)
(** Theorems on the client library: every call returns within its budgets, the waits between
    retries are bounded, and the range cache stays a partition of what the servers reported. *)
From stdpp Require Import gmap sorting.
From S2P Require Import Prelude Bytes Core Path RaftConfig RaftCommand RaftLog RaftNode NetCodec ClientCodec Cdc CdcLoad Roster RosterProps Client.

Open Scope N_scope.

(** ** The request loop *)

Section Loop.
Context {A : Type} `{SocketAddr A} `{EqDecision A}.
Context {W : Type} (request : A → N → bytes → W → Trip * W).

(** What the loop reads of the client and never changes. *)
Definition same_limits (c c' : KayaClient (A:=A)) : Prop :=
  max_redirects c' = max_redirects c ∧ retry_policy c' = retry_policy c.

Definition attempts_budget (c : KayaClient (A:=A)) : N := N.max 1 (max_attempts (retry_policy c)).

(** The requests the remaining budgets allow. *)
Definition trips_left (c : KayaClient (A:=A)) (attempts redirects range_moved : N) : N :=
  (max_redirects c - redirects) + (max_redirects c - range_moved) + (attempts_budget c - attempts).

(** A result the loop may return from a state with these budgets. *)
Definition loop_result (c : KayaClient (A:=A)) (attempts redirects range_moved : N) (res : Sent) (n : N) : Prop :=
  1 <= n <= trips_left c attempts redirects range_moved ∧
  match res with
  | Responded status _ => status = STATUS_NOT_LEADER → max_redirects c - redirects + 1 <= n
  | SendFailed a r _ => a = attempts_budget c ∧ r <= max_redirects c ∧ attempts_budget c - attempts <= n
  | Blocked => False
  end.

Lemma loop_result_step c c' a r m a' r' m' res n :
  same_limits c c' →
  a <= a' → a' <= a + 1 → r <= r' → r' <= r + 1 → m <= m' → a < attempts_budget c → r <= max_redirects c →
  trips_left c a' r' m' + 1 <= trips_left c a r m →
  loop_result c' a' r' m' res n → loop_result c a r m res (n + 1).
Proof.
  intros [HR HP] ??????? Hm. unfold loop_result, trips_left, attempts_budget in *. rewrite HR, HP. intros [Hn Hres].
  split; [lia|]. destruct res; [|lia|done]. intros Hs. specialize (Hres Hs). lia.
Qed.

Lemma refresh_limits body (c : KayaClient (A:=A)) : same_limits c (apply_range_moved_body body c).2.
Proof. unfold apply_range_moved_body. by destruct (decode_list_ranges_response body) as [[??]|]. Qed.

Lemma send_loop_result fuel opcode wire : ∀ current a r m c w,
  request_timeout (retry_policy c) ≠ None →
  a < attempts_budget c → r <= max_redirects c → m <= max_redirects c → trips_left c a r m <= N.of_nat fuel →
  ∃ res n c' w', send_loop request fuel opcode wire current a r m c w = Some (res, n, c', w') ∧ loop_result c a r m res n.
Proof.
  induction fuel as [|fuel IH]; intros current a r m c w Ht Ha Hr Hm Hf.
  { unfold trips_left in Hf. lia. }
  assert (∀ a' r' m' c' cur w', same_limits c c' → a <= a' → a' <= a + 1 → r <= r' → r' <= r + 1 → m <= m' →
    a' < attempts_budget c → r' <= max_redirects c → m' <= max_redirects c →
    trips_left c a' r' m' + 1 <= trips_left c a r m →
    ∃ res n c2 w2, ('(res, n, c, w) ← send_loop request fuel opcode wire cur a' r' m' c' w'; Some (res, n + 1, c, w)) = Some (res, n, c2, w2)
      ∧ loop_result c a r m res n) as again.
  { intros a' r' m' c' cur w' Hs ?????????.
    destruct (IH cur a' r' m' c' w') as (res & n & c2 & w2 & -> & Hl); [..|].
    1-5: destruct Hs as [HR HP]; unfold trips_left, attempts_budget in *; rewrite ?HR, ?HP; done || lia.
    do 4 eexists. split; [reflexivity|]. eapply loop_result_step; [done|..|done]; done. }
  assert (1 <= trips_left c a r m) as H1 by (unfold trips_left; lia).
  cbn [send_loop]. destruct (request current opcode wire w) as [trip w']. cbv zeta.
  assert (∀ timed_out, ∃ res n c2 w2,
    (if max_attempts (retry_policy c) <=? a + 1
     then Some (SendFailed (a + 1) r timed_out, 1, invalidate_conn (set_conn (Some current) c), w')
     else '(res, n, c, w) ← send_loop request fuel opcode wire current (a + 1) r m (step_backoff a (invalidate_conn (set_conn (Some current) c))) w';
          Some (res, n + 1, c, w)) = Some (res, n, c2, w2) ∧ loop_result c a r m res n) as failed.
  { intros timed_out. destruct (N.leb_spec (max_attempts (retry_policy c)) (a + 1)).
    - do 4 eexists. split; [reflexivity|]. split; [lia|]. unfold attempts_budget in *. lia.
    - apply again; unfold trips_left, attempts_budget in *; done || lia. }
  destruct trip as [status body| |]; [|apply failed|].
  - destruct (N.eqb_spec status STATUS_NOT_LEADER) as [->|Hnl].
    + cbn [max_redirects invalidate_conn set_conn]. destruct (N.leb_spec (max_redirects c) r).
      * do 4 eexists. split; [reflexivity|]. split; [lia|]. intros _. lia.
      * destruct (parse_leader_hint body); apply again; unfold trips_left in *; done || lia.
    + destruct (N.eqb_spec status STATUS_RANGE_MOVED) as [->|Hrm].
      * pose proof (refresh_limits body (set_conn (Some current) c)) as [HR HP].
        destruct (apply_range_moved_body body (set_conn (Some current) c)) as [applied c'].
        cbn [snd max_redirects retry_policy set_conn] in HR, HP. rewrite HR.
        destruct (N.leb_spec (max_redirects c) m); [|destruct applied]; cbn [orb negb].
        1,3: do 4 eexists; split; [reflexivity|]; split; [lia|done].
        apply again; unfold trips_left in *; try done || lia.
      * do 4 eexists. split; [reflexivity|]. split; [lia|done].
  - destruct (request_timeout (retry_policy (set_conn (Some current) c))) eqn:E; [apply failed|done].
Qed.

(** *** The conversation behind an outcome *)

Definition not_leader (t : Trip) : bool := match t with Answered status _ => status =? STATUS_NOT_LEADER | _ => false end.
Definition trip_failed (t : Trip) : bool := match t with Answered _ _ => false | _ => true end.

(** After such an exchange the loop may make another request. *)
Definition retried (t : Trip) : Prop :=
  match t with
  | Answered status body => status = STATUS_NOT_LEADER ∨
      status = STATUS_RANGE_MOVED ∧ ∃ epoch_ranges, decode_list_ranges_response body = Ok epoch_ranges
  | _ => True
  end.

(** Where it goes: to the leader a server names, otherwise to the same server. *)
Definition next_addr (current : A) (t : Trip) : A :=
  match t with
  | Answered status body => if status =? STATUS_NOT_LEADER then default current (parse_leader_hint body) else current
  | _ => current
  end.

(** The exchanges of a call that starts at [current] with the network in [w]: each the same
    request, followed by another one only where the loop may retry. *)
Fixpoint conversation (opcode : N) (wire : bytes) (current : A) (w : W) (trips : list Trip) (w' : W) : Prop :=
  match trips with
  | [] => False
  | t :: rest => ∃ w1, request current opcode wire w = (t, w1) ∧
      match rest with [] => w1 = w' | _ => retried t ∧ conversation opcode wire (next_addr current t) w1 rest w' end
  end.

(** What the loop reports of its last exchange, having counted [a] failures and [r] redirects. *)
Definition reported (a r : N) (t : Trip) : Sent :=
  match t with
  | Answered status body => Responded status body
  | Broken => SendFailed a r false
  | Silent => SendFailed a r true
  end.

Definition trip_count (f : Trip → bool) (trips : list Trip) : N := lenN (filter (λ t, f t = true) trips).

Lemma trip_count_cons f t trips : trip_count f (t :: trips) = (if f t then 1 else 0) + trip_count f trips.
Proof. unfold trip_count, lenN. rewrite filter_cons. destruct (f t); [rewrite decide_True by done|rewrite decide_False by done]; cbn [length]; lia. Qed.

(** A result of the loop is the report of a conversation. *)
Definition tells opcode wire current (a r : N) w (res : Sent) (n : N) w' : Prop := ∃ trips t,
  conversation opcode wire current w (trips ++ [t]) w' ∧ n = lenN (trips ++ [t]) ∧
  res = reported (a + trip_count trip_failed (trips ++ [t])) (r + trip_count not_leader (trips ++ [t])) t.

Lemma tells_last opcode wire current a r w t w' : request current opcode wire w = (t, w') →
  tells opcode wire current a r w (reported (a + if trip_failed t then 1 else 0) (r + if not_leader t then 1 else 0) t) 1 w'.
Proof.
  intros E. exists [], t. cbn [app]. split; [by exists w'|]. split; [done|]. rewrite !trip_count_cons. unfold trip_count. cbn. by rewrite !N.add_0_r.
Qed.

Lemma tells_again opcode wire current a r w t w1 res n w' : request current opcode wire w = (t, w1) → retried t →
  tells opcode wire (next_addr current t) (a + if trip_failed t then 1 else 0) (r + if not_leader t then 1 else 0) w1 res n w' →
  tells opcode wire current a r w res (n + 1) w'.
Proof.
  intros E Ht (trips & t' & Hc & -> & ->). exists (t :: trips), t'. rewrite <-app_comm_cons. split_and!.
  - cbn [conversation]. exists w1. split; [done|]. destruct (trips ++ [t']) eqn:E'; [by destruct trips|done].
  - unfold lenN. cbn [length]. lia.
  - by rewrite !trip_count_cons, !N.add_assoc.
Qed.

Lemma send_loop_tells fuel opcode wire : ∀ current a r m c w res n c' w', request_timeout (retry_policy c) ≠ None →
  send_loop request fuel opcode wire current a r m c w = Some (res, n, c', w') → tells opcode wire current a r w res n w'.
Proof.
  induction fuel as [|fuel IH]; intros current a r m c w res n c' w' Ht; [done|]. cbn [send_loop].
  destruct (request current opcode wire w) as [t w1] eqn:Er. cbv zeta.
  assert (∀ cur a' r' m' c1, retried t → cur = next_addr current t → a' = a + (if trip_failed t then 1 else 0) →
    r' = r + (if not_leader t then 1 else 0) → same_limits c c1 →
    ('(res, n, c, w) ← send_loop request fuel opcode wire cur a' r' m' c1 w1; Some (res, n + 1, c, w)) = Some (res, n, c', w') →
    tells opcode wire current a r w res n w') as again.
  { intros cur a' r' m' c1 Hrt -> -> -> [_ HP].
    destruct (send_loop _ fuel opcode wire _ _ _ _ c1 w1) as [[[[res1 n1] c2] w2]|] eqn:E; [|done].
    cbn [mbind option_bind]. intros [= <- <- <- <-]. eapply tells_again; [done..|]. eapply IH; [|exact E]. by rewrite HP. }
  pose proof (tells_last opcode wire current a r w t w1 Er) as last.
  destruct t as [status body| |]; cbn [trip_failed not_leader reported] in *; rewrite ?N.add_0_r in *.
  - destruct (N.eqb_spec status STATUS_NOT_LEADER) as [->|Hnl].
    + cbn [max_redirects invalidate_conn set_conn]. destruct (N.leb_spec (max_redirects c) r); [by intros [= <- <- <- <-]|].
      destruct (parse_leader_hint body) as [addr|] eqn:Eh; apply again; cbn [next_addr retried]; try done; try (by left);
        rewrite ?N.eqb_refl, ?Eh; done.
    + destruct (N.eqb_spec status STATUS_RANGE_MOVED) as [->|Hrm]; [|by intros [= <- <- <- <-]].
      pose proof (refresh_limits body (set_conn (Some current) c)) as Hl. unfold apply_range_moved_body in *.
      destruct (decode_list_ranges_response body) as [[epoch ranges]|] eqn:Ed.
      * cbn [negb orb max_redirects set_cache set_conn]. rewrite orb_false_r.
        destruct (max_redirects c <=? m); [by intros [= <- <- <- <-]|].
        apply again; [right; split; [done|by eexists]|..]; cbn [next_addr]; rewrite ?N.add_0_r; done.
      * rewrite orb_true_r. by intros [= <- <- <- <-].
  - destruct (N.leb_spec (max_attempts (retry_policy (invalidate_conn (set_conn (Some current) c)))) (a + 1)); [by intros [= <- <- <- <-]|].
    by apply again.
  - change (retry_policy (set_conn (Some current) c)) with (retry_policy c).
    destruct (request_timeout (retry_policy c)); [|done].
    destruct (N.leb_spec (max_attempts (retry_policy (invalidate_conn (set_conn (Some current) c)))) (a + 1)); [by intros [= <- <- <- <-]|].
    by apply again.
Qed.

(** C22: with a request timeout set, every call returns, whatever the servers and the network do. The
    call is a conversation of at least one exchange and at most twice the redirect budget plus
    the attempt budget, in which the same request goes first to the client's server and then
    again only after a failed exchange (to the same server), after a server that is not the
    leader (to the one it names, if any) and after a decodable notice that ranges moved: any
    other answer ends the call. The outcome is the answer of the last exchange or its failure,
    broken or timed out, with the numbers of failed and of redirected exchanges. The call fails
    only after all its attempts, and reports that a server is not the leader only after all its
    redirects. *)
Theorem client_send_terminates opcode payload (c : KayaClient (A:=A)) w :
  request_timeout (retry_policy c) ≠ None →
  ∃ res c' w' trips t, let all := trips ++ [t] in
    send_with_retry request opcode payload c w = Some (res, lenN all, c', w') ∧
    conversation opcode (client_wire c opcode payload) (cl_addr c) w all w' ∧
    res = reported (trip_count trip_failed all) (trip_count not_leader all) t ∧
    1 <= lenN all <= max_trips c ∧
    match res with
    | Responded status _ => status = STATUS_NOT_LEADER → max_redirects c + 1 <= lenN all
    | SendFailed attempts redirects _ =>
        attempts = N.max 1 (max_attempts (retry_policy c)) ∧ redirects <= max_redirects c ∧ attempts <= lenN all
    | Blocked => False
    end.
Proof.
  intros Ht. unfold send_with_retry.
  destruct (send_loop_result (N.to_nat (max_trips c)) opcode (client_wire c opcode payload) (cl_addr c) 0 0 0 c w)
    as (res & n & c' & w' & E & Hn & Hres); [done|unfold attempts_budget; lia|lia|lia|unfold trips_left, attempts_budget, max_trips; lia|].
  pose proof (send_loop_tells _ _ _ _ _ _ _ _ _ _ _ _ _ Ht E) as (trips & t & Hc & -> & Hr).
  exists res, c', w', trips, t. cbv zeta. split_and!; [done|done|by rewrite !N.add_0_l in Hr|lia| |].
  - unfold trips_left, attempts_budget, max_trips in *. lia.
  - destruct res; [|unfold attempts_budget in Hres; lia|done]. intros Hs. specialize (Hres Hs). lia.
Qed.
End Loop.

(** ** Waits *)

Lemma wrap_lt x : wrap u64_lim x < u64_lim.
Proof. unfold wrap. apply N.mod_lt. done. Qed.

(** Saturation and the shift's limit do not show below the cap. *)
Lemma capped_exact base i mx :
  mx < u64_lim → N.min (N.min u64_max (base * checked_shl_one i)) mx = N.min (base * 2 ^ i) mx.
Proof.
  intros Hmx. unfold checked_shl_one, u64_max, u64_lim in *. destruct (N.ltb_spec i 64) as [?|Hi].
  - rewrite N.shiftl_1_l. lia.
  - assert (2 ^ 64 <= 2 ^ i) by (apply N.pow_le_mono_r; lia). change (2 ^ 64) with 18446744073709551616 in *.
    destruct (N.eq_dec base 0) as [->|]; [lia|]. nia.
Qed.

Lemma lt_u64_bits x : x < u64_lim → ∀ i, 64 <= i → N.testbit x i = false.
Proof.
  intros Hx i Hi. destruct (N.eq_dec x 0) as [->|]; [apply N.bits_0|].
  apply N.bits_above_log2. apply N.log2_lt_pow2; [lia|]. change u64_lim with (2 ^ 64) in Hx.
  eapply N.lt_le_trans; [done|]. apply N.pow_le_mono_r; lia.
Qed.

Lemma lxor_u64 x y : x < u64_lim → y < u64_lim → N.lxor x y < u64_lim.
Proof.
  intros Hx Hy. change u64_lim with (2 ^ 64). destruct (N.eq_dec (N.lxor x y) 0) as [->|]; [done|].
  apply N.log2_lt_pow2; [lia|]. apply N.nle_gt. intros Hl.
  assert (N.testbit (N.lxor x y) (N.log2 (N.lxor x y)) = true) as Hb by (by apply N.bit_log2).
  rewrite N.lxor_spec, !lt_u64_bits in Hb by done. done.
Qed.

Lemma shiftr_u64 x i : x < u64_lim → N.shiftr x i < u64_lim.
Proof. intros Hx. rewrite N.shiftr_div_pow2. eapply N.le_lt_trans; [|done]. apply N.Div0.div_le_upper_bound.
  assert (1 <= 2 ^ i) by (apply (N.pow_le_mono_r 2 0); lia). nia. Qed.

Lemma lxor_shiftr_nonzero x i : i ≠ 0 → x ≠ 0 → N.lxor x (N.shiftr x i) ≠ 0.
Proof.
  intros Hi Hx E%N.lxor_eq. rewrite N.shiftr_div_pow2 in E.
  assert (x / 2 ^ i < x); [|lia]. apply N.div_lt; [lia|]. apply N.pow_gt_1; lia.
Qed.

Lemma lxor_shiftl_nonzero x i : i ≠ 0 → x < u64_lim → x ≠ 0 → N.lxor x (wrap u64_lim (N.shiftl x i)) ≠ 0.
Proof.
  intros Hi Hlt Hx E%N.lxor_eq. apply Hx. apply N.bits_inj_0.
  intros n. induction n as [n IH] using (well_founded_induction N.lt_wf_0).
  destruct (N.lt_ge_cases n 64) as [Hn|Hn]; [|by apply lt_u64_bits].
  rewrite E. unfold wrap. change u64_lim with (2 ^ 64). rewrite N.mod_pow2_bits_low by done.
  destruct (N.lt_ge_cases n i); [by apply N.shiftl_spec_low|].
  rewrite N.shiftl_spec_high' by done. apply IH. lia.
Qed.

Lemma xorshift_seed x : x < u64_lim → x ≠ 0 → xorshift x < u64_lim ∧ xorshift x ≠ 0.
Proof.
  intros Hx Hn. unfold xorshift. set (y := N.lxor x (N.shiftr x 12)).
  assert (y < u64_lim) by (by apply lxor_u64, shiftr_u64). assert (y ≠ 0) by (by apply lxor_shiftr_nonzero).
  set (z := N.lxor y _). assert (z < u64_lim) by (apply lxor_u64; [done|apply wrap_lt]).
  assert (z ≠ 0) by (by apply lxor_shiftl_nonzero).
  split; [by apply lxor_u64, shiftr_u64|by apply lxor_shiftr_nonzero].
Qed.

(** The wait before a retry never exceeds the base doubled at every retry nor the cap, and is
    exactly the lesser of the two without jitter, at every retry index; the generator's state
    stays a non-zero 64-bit number, so the jitter never degenerates. *)
Theorem client_backoff_bounded p i seed :
  base_backoff p < u64_lim → max_backoff p < u64_lim → 0 < seed < u64_lim →
  (backoff p i seed).1 <= N.min (base_backoff p * 2 ^ i) (max_backoff p) ∧
  (jitter p = false → (backoff p i seed).1 = N.min (base_backoff p * 2 ^ i) (max_backoff p)) ∧
  0 < (backoff p i seed).2 < u64_lim.
Proof.
  intros Hb Hm Hs. unfold backoff. rewrite (wrap_small _ _ Hb), (wrap_small _ _ Hm), (capped_exact _ _ _ Hm).
  set (cap := N.min _ _). destruct (jitter p); cbn [negb orb].
  - destruct (N.eqb_spec cap 0) as [->|]; cbn [fst snd]; [lia|]. split_and!; [|done|..].
    + apply N.lt_succ_r. rewrite <- N.add_1_r. apply N.mod_lt. lia.
    + destruct (xorshift_seed seed); lia.
    + destruct (xorshift_seed seed); lia.
  - cbn [fst snd]. lia.
Qed.

Lemma client_backoff_bounded_witness :
  (backoff default_policy 9 7).1 <= 2000000 ∧ (backoff (mkRetryPolicy 5 100 400 false None) 1 1).1 = 200.
Proof.
  split.
  - refine (proj1 (client_backoff_bounded default_policy 9 7 _ _ _)); done.
  - refine (proj1 (proj2 (client_backoff_bounded (mkRetryPolicy 5 100 400 false None) 1 1 _ _ _)) _); done.
Defined.

(** ** The range cache *)

Definition cache_disjoint (l : list RangeDescWire) : Prop :=
  ∀ i j a b, l !! i = Some a → l !! j = Some b → i ≠ j → ranges_overlap a b = false.

Lemma ranges_overlap_sym a b : ranges_overlap a b = ranges_overlap b a.
Proof. unfold ranges_overlap. apply andb_comm. Qed.

Lemma ble_blt_lt a b c : ble a b = true → blt b c = true → blt a c = true.
Proof.
  unfold ble, blt. destruct (bcmp a b) eqn:E; try done.
  - apply bcmp_eq in E as ->. done.
  - destruct (bcmp b c) eqn:E'; try done. by rewrite (bcmp_trans_lt _ _ _ E E').
Qed.

(** Two ranges that hold a common key overlap. *)
Lemma common_key_overlaps a b key : cached_contains a key = true → cached_contains b key = true → ranges_overlap a b = true.
Proof.
  unfold cached_contains, ranges_overlap. rewrite !andb_true_iff, !orb_true_iff. intros [Ha1 Ha2] [Hb1 Hb2].
  split; [destruct Hb2|destruct Ha2]; eauto using ble_blt_lt.
Qed.

Lemma insert_cached_perm r l : insert_cached r l ≡ₚ r :: l.
Proof.
  induction l as [|x l IH]; cbn; [done|]. destruct (ble _ _); [done|].
  rewrite IH. apply Permutation_swap.
Qed.
Lemma sort_cached_perm l : sort_cached l ≡ₚ l.
Proof. induction l as [|r l IH]; cbn; [done|]. by rewrite insert_cached_perm, IH. Qed.

Definition by_start (a b : RangeDescWire) : Prop := ble (cr_start a) (cr_start b) = true.

Lemma ble_total a b : ble a b = false → ble b a = true.
Proof. unfold ble. rewrite (bcmp_antisym a b). by destruct (bcmp a b). Qed.

Lemma insert_cached_sorted r l : Sorted by_start l → Sorted by_start (insert_cached r l).
Proof.
  induction l as [|x l IH]; intros Hs; cbn; [repeat constructor|].
  destruct (ble _ _) eqn:E; [by constructor; [|constructor]|].
  apply Sorted_inv in Hs as [Hs Hx]. constructor; [by apply IH|].
  destruct l as [|y l]; cbn; [constructor; by apply ble_total|].
  apply HdRel_inv in Hx. destruct (ble (cr_start r) (cr_start y)); constructor; [by apply ble_total|done].
Qed.
Lemma sort_cached_sorted l : Sorted by_start (sort_cached l).
Proof. induction l; cbn; [constructor|by apply insert_cached_sorted]. Qed.

Lemma cache_disjoint_perm l k : l ≡ₚ k → cache_disjoint l → cache_disjoint k.
Proof.
  intros Hp Hd i j a b Hi Hj Hij. symmetry in Hp. apply Permutation_inj in Hp as [_ (f & Hf & Hl)].
  rewrite Hl in Hi, Hj. eapply Hd; [done..|]. intros E. by apply Hij, Hf.
Qed.

Lemma cache_disjoint_in l a b : cache_disjoint l → a ∈ l → b ∈ l → ranges_overlap a b = true → a = b.
Proof.
  intros Hd [i Hi]%list_elem_of_lookup [j Hj]%list_elem_of_lookup Ho. destruct (decide (i = j)) as [->|Hij]; [by simplify_eq|].
  by rewrite (Hd _ _ _ _ Hi Hj Hij) in Ho.
Qed.

Lemma cache_disjoint_cons r l : cache_disjoint (r :: l) ↔ Forall (λ x, ranges_overlap x r = false) l ∧ cache_disjoint l.
Proof.
  split.
  - intros Hd. split.
    + apply Forall_forall. intros x [i Hi]%list_elem_of_lookup. by apply (Hd (S i) 0%nat).
    + intros i j a b Hi Hj Hij. apply (Hd (S i) (S j)); [done..|lia].
  - intros [Hf Hd] [|i] [|j] a b; cbn; intros Hi Hj Hij; simplify_eq.
    + rewrite ranges_overlap_sym. rewrite Forall_lookup in Hf. eauto.
    + rewrite Forall_lookup in Hf. eauto.
    + eapply Hd; [done..|]. congruence.
Qed.

Lemma cache_disjoint_filter (P : RangeDescWire → Prop) `{∀ r, Decision (P r)} l : cache_disjoint l → cache_disjoint (filter P l).
Proof.
  induction l as [|r l IH]; [done|]. intros [Hf Hd]%cache_disjoint_cons. rewrite filter_cons.
  destruct (decide (P r)); [|auto]. apply cache_disjoint_cons. split; [|auto].
  apply Forall_forall. intros x [_ Hx]%list_elem_of_filter. rewrite Forall_forall in Hf. auto.
Qed.

Lemma apply_descriptor_disjoint l nr : cache_disjoint l → cache_disjoint (apply_descriptor l nr).
Proof.
  intros Hd. unfold apply_descriptor. eapply cache_disjoint_perm; [symmetry; apply Permutation_app_comm|]. cbn [app].
  apply cache_disjoint_cons. split; [|by apply cache_disjoint_filter].
  apply Forall_forall. by intros x [[_ Hx] _]%list_elem_of_filter.
Qed.

Lemma elem_of_apply_descriptor l nr r :
  r ∈ apply_descriptor l nr ↔ r = nr ∨ (cr_id r ≠ cr_id nr ∧ ranges_overlap r nr = false ∧ r ∈ l).
Proof. unfold apply_descriptor. rewrite elem_of_app, list_elem_of_filter, list_elem_of_singleton. tauto. Qed.

Lemma apply_all_disjoint rs l : cache_disjoint l → cache_disjoint (foldl apply_descriptor l rs).
Proof. revert l. induction rs as [|r rs IH]; intros l Hd; cbn; [done|]. by apply IH, apply_descriptor_disjoint. Qed.

(** A range that no later report replaces stays. *)
Lemma apply_all_keeps rs : ∀ l r, r ∈ l → Forall (λ nr, cr_id r ≠ cr_id nr ∧ ranges_overlap r nr = false) rs →
  r ∈ foldl apply_descriptor l rs.
Proof.
  induction rs as [|nr rs IH]; intros l r Hr Hf; cbn; [done|]. apply Forall_cons in Hf as [[??] Hf].
  apply IH; [|done]. apply elem_of_apply_descriptor. by right.
Qed.

Lemma apply_all_reported rs : ∀ l r, NoDup (cr_id <$> rs) → cache_disjoint rs → r ∈ rs → r ∈ foldl apply_descriptor l rs.
Proof.
  induction rs as [|nr rs IH]; intros l r Hn Hd Hr; [by apply elem_of_nil in Hr|].
  cbn [foldl]. rewrite fmap_cons in Hn. apply NoDup_cons in Hn as [Hni Hn]. apply cache_disjoint_cons in Hd as [Hf Hd].
  apply elem_of_cons in Hr as [->|Hr]; [|by apply IH].
  apply apply_all_keeps; [apply elem_of_apply_descriptor; by left|].
  apply Forall_forall. intros x Hx. split.
  - intros E. apply Hni. rewrite E. by apply list_elem_of_fmap_2.
  - rewrite Forall_forall in Hf. rewrite ranges_overlap_sym. auto.
Qed.

Lemma lookup_cached_unique l r key :
  cache_disjoint l → r ∈ l → cached_contains r key = true → lookup_cached l key = Some (cr_group r).
Proof.
  intros Hd Hr Hc. assert (∀ k, k ⊆ l → r ∈ k → lookup_cached k key = Some (cr_group r)) as Hk; [|by apply Hk].
  induction k as [|x k IH]; intros Hs Hk; [by apply elem_of_nil in Hk|]. cbn [lookup_cached].
  destruct (cached_contains x key) eqn:E.
  - assert (r = x) as ->; [|done]. eapply cache_disjoint_in; [done..| |by eapply common_key_overlaps]. apply Hs. left.
  - apply elem_of_cons in Hk as [->|Hk]; [congruence|]. apply IH; [|done]. intros y Hy. apply Hs. by right.
Qed.

(** Refreshing the cache from the ranges a server reports keeps its ranges disjoint and
    ordered by start key and its epoch never goes back; afterwards every key of a reported range
    is routed to that range's group, and a key of an older range that no report overlaps or
    replaces keeps its group. *)
Theorem client_cache_refresh meta_epoch ranges c :
  cache_disjoint (rc_ranges c) → cache_disjoint ranges → NoDup (cr_id <$> ranges) →
  let c' := apply_descriptors meta_epoch ranges c in
  cache_disjoint (rc_ranges c') ∧ Sorted by_start (rc_ranges c') ∧ rc_epoch c' = N.max (rc_epoch c) meta_epoch ∧
  (∀ r key, r ∈ ranges → cached_contains r key = true → lookup_group c' key = Some (cr_group r)) ∧
  (∀ r key, r ∈ rc_ranges c → Forall (λ nr, cr_id r ≠ cr_id nr ∧ ranges_overlap r nr = false) ranges →
    cached_contains r key = true → lookup_group c' key = Some (cr_group r)).
Proof.
  intros Hc Hd Hn c'. assert (cache_disjoint (rc_ranges c')) as Hd'.
  { eapply cache_disjoint_perm; [symmetry; apply sort_cached_perm|]. by apply apply_all_disjoint. }
  split_and!; [done|apply sort_cached_sorted|..].
  - cbn [c' apply_descriptors rc_epoch]. destruct (N.ltb_spec (rc_epoch c) meta_epoch); lia.
  - intros r key Hr. apply lookup_cached_unique; [done|]. cbn [c' apply_descriptors rc_ranges].
    rewrite sort_cached_perm. by apply apply_all_reported.
  - intros r key Hr Hf. apply lookup_cached_unique; [done|]. cbn [c' apply_descriptors rc_ranges].
    rewrite sort_cached_perm. by apply apply_all_keeps.
Qed.

Definition demo_range (id group : N) (from to : bytes) : RangeDescWire := (id, 1, group, from, to).

Lemma client_cache_refresh_witness :
  lookup_group (apply_descriptors 4 [demo_range 1 5 [] [109]; demo_range 2 7 [109] []] (mkRangeCache 3 [demo_range 1 5 [] []])) [120] = Some 7.
Proof.
  refine (proj1 (proj2 (proj2 (proj2 (client_cache_refresh 4 [demo_range 1 5 [] [109]; demo_range 2 7 [109] []]
    (mkRangeCache 3 [demo_range 1 5 [] []]) _ _ _)))) (demo_range 2 7 [109] []) [120] _ _).
  - apply cache_disjoint_cons. split; [constructor|by intros [|] ].

  - apply cache_disjoint_cons. split; [by repeat constructor|]. apply cache_disjoint_cons. split; [constructor|by intros [|] ].
  - by apply (bool_decide_unpack _).
  - right. left.
  - done.
Defined.

(** A server that answers the first two requests with a redirect to the other node and is then
    silent for ever. *)
Definition stubborn (_ : bool) (_ : N) (_ : bytes) (w : nat) : Trip * nat :=
  (if (w <? 2)%nat then Answered STATUS_NOT_LEADER (str "127.0.0.1:7482") else Silent, S w).

Lemma client_send_terminates_witness :
  ∃ res c' w' trips t, let all := trips ++ [t] in
    send_with_retry stubborn 1 [] (client_connect true) 0%nat = Some (res, lenN all, c', w') ∧
    conversation stubborn 1 (client_wire (client_connect true) 1 []) true 0%nat all w' ∧
    res = reported (trip_count trip_failed all) (trip_count not_leader all) t ∧
    1 <= lenN all <= max_trips (client_connect true) ∧
    match res with
    | Responded status _ => status = STATUS_NOT_LEADER → max_redirects (client_connect true) + 1 <= lenN all
    | SendFailed attempts redirects _ =>
        attempts = N.max 1 (max_attempts (retry_policy (client_connect true))) ∧ redirects <= max_redirects (client_connect true) ∧ attempts <= lenN all
    | Blocked => False
    end.
Proof. apply (client_send_terminates stubborn 1 [] (client_connect true) 0%nat). done. Defined.
