(* ===== verification/ClientOps.v ===== *)
(** The request handlers of a server process, [kaya-server/src/cluster/client_ops.rs].

    A handler is a program over the calls it makes on what it shares with the rest of the
    process: a lock it takes, a proposal it hands to the Raft loop and waits for, an operation of
    the engine. Other handlers and the Raft loop run between two calls. *)
From stdpp Require Import gmap strings.
From S2P Require Import Prelude Bytes Core OrdMap Path RaftConfig RaftCommand RaftLog RaftNode MultiRaft Ranges Balancer NetCodec ClientCodec Cdc CdcLoad Acl Roster TxnCoord.

Open Scope N_scope.

(** ** Calls and programs *)

(** How a proposal ends for the handler that waits for it. *)
Inductive Wait : Type := WDone | WError (e : string) | WNoLoop | WDropped.

#[export] Instance Wait_eq_dec : EqDecision Wait.
Proof. solve_decision. Defined.

Section Programs.
Context {A : Type}.

Inductive Call : Type → Type :=
| CHost : Call MultiRaftHost
| CTransfer (gid target : N) : Call (result HostTransferError unit)
| CChange (members : list ClusterMember) : Call (option N * list Envelope)
| CSend (out : list Envelope) : Call unit
| CTable : Call StaticRangeTable
| CRoster : Call (gmap N (RosterEntry (A:=A)))
| CUpsert (id : N) (raft client : A) : Call unit
| CEnsureHosted (gid : N) : Call (result string unit)
| CPropose (gid : N) (command : bytes) : Call Wait
| CReadId : Call N
| CRead (gid request_id : N) : Call Wait
| CForward (addr : A) (payload : bytes) : Call (result string (N * bytes))
| CCross (txn_id : N) (ms : MutationsByGroup) : Call (result CoordError unit)
| CGet (key : bytes) : Call (result KayaError (option bytes))
| CScan (pre : bytes) : Call (result KayaError (list (bytes * bytes)))
| CTxnBegin : Call (N * N)
| CTxnGet (txn_id : N) (key : bytes) : Call (result KayaError (option bytes))
| CTxnPut (txn_id : N) (key value : bytes) : Call (result KayaError unit)
| CTxnDelete (txn_id : N) (key : bytes) : Call (result KayaError unit)
| CTxnTake (txn_id : N) : Call (result KayaError (list Mutation))
| CTxnRollback (txn_id : N) : Call (result KayaError unit)
(** The subscription and the poll, under one lock. *)
| CCdcPoll (consumer : bytes) (from_seq : N) (limit : nat) : Call (result KayaError (result KayaError (list CdcEvent)))
| CCdcCheckpoint (consumer : bytes) : Call (result KayaError unit)
| CLastSequence : Call N
(** The numbers of [EngineStats], in the order of the answer. *)
| CEngineStats : Call (list N).

Inductive prog (X : Type) : Type :=
| Ret (x : X)
| Do {B : Type} (c : Call B) (k : B → prog X).
Arguments Ret {X} x.
Arguments Do {X B} c k.

Fixpoint prog_bind {X Y} (f : X → prog Y) (p : prog X) : prog Y :=
  match p with Ret x => f x | Do c k => Do c (λ b, prog_bind f (k b)) end.
End Programs.
Arguments Call A : clear implicits.
Arguments prog A X : clear implicits.
Arguments Ret {A X} x.
Arguments Do {A X B} c k.

#[export] Instance prog_ret {A} : MRet (prog A) := λ X x, Ret x.
#[export] Instance prog_mbind {A} : MBind (prog A) := λ X Y, prog_bind.
#[export] Instance prog_fmap {A} : FMap (prog A) := λ X Y f, prog_bind (λ x, Ret (f x)).
Definition ask {A B} (c : Call A B) : prog A B := Do c Ret.

(** ** Answers *)

(** The text of an error answer. *)
Inductive Msg : Type :=
| MText (s : string)
| MNet (e : NetError)
| MKaya (e : KayaError)
| MCoord (e : CoordError)
| MTransfer (e : HostTransferError)
| MVersion (client_version : N)
| MMember (why : string) (id : N)
| MUnknownOpcode (opcode : N)
| MUnknownTxnOp (op : N).

Inductive Body : Type := Raw (b : bytes) | Error (m : Msg).

(** [body] is what [encode_error_payload] makes of the text when it is an error. *)
Record DispatchOutcome := mkOutcome { o_status : N; o_body : Body; o_auth_kind : string; o_key_len : option N }.
Abbreviation Reply := (N * Body)%type.

Definition with_auth (auth_kind : string) (key_len : option N) (r : Reply) : DispatchOutcome := mkOutcome r.1 r.2 auth_kind key_len.

Section Handlers.
Context {A : Type} `{SocketAddr A}.
Abbreviation prog := (prog A).
Abbreviation NodeRoster := (gmap N (RosterEntry (A:=A))).

(** The arguments of [dispatch] that never change. *)
Record Config := mkConfig {
  operator_token : option bytes;
  client_token : option bytes;
  acl : option PrefixAcl;
  tenants : option TenantAcl;
  drain : bool;
  self_id : N;
  self_raft : A;
  self_client : A
}.

(** ** Authorisation *)

Definition acl_denied (auth_kind : string) (key_len : option N) : DispatchOutcome := mkOutcome STATUS_ERROR (Error (MText "acl denied")) auth_kind key_len.
Definition tenant_denied (auth_kind : string) (key_len : option N) : DispatchOutcome :=
  mkOutcome STATUS_ERROR (Error (MText "tenant denied")) auth_kind key_len.

Definition deny_key (cfg : Config) (key : bytes) (token : option bytes) (auth_kind : string) : option DispatchOutcome :=
  if bool_decide (is_Some (tenants cfg)) && negb (authorize_key None (tenants cfg) key token) then Some (tenant_denied auth_kind (Some (lenN key)))
  else if bool_decide (is_Some (acl cfg)) && negb (authorize_key (acl cfg) None key token) then Some (acl_denied auth_kind (Some (lenN key)))
  else None.

Definition deny_token (cfg : Config) (token : option bytes) (auth_kind : string) (key_len : option N) : option DispatchOutcome :=
  if bool_decide (is_Some (tenants cfg)) && negb (authorize_token None (tenants cfg) token) then Some (tenant_denied auth_kind key_len)
  else if bool_decide (is_Some (acl cfg)) && negb (authorize_token (acl cfg) None token) then Some (acl_denied auth_kind key_len)
  else None.

Definition data_auth_configured (cfg : Config) : bool :=
  bool_decide (is_Some (client_token cfg)) || bool_decide (is_Some (acl cfg)) || bool_decide (is_Some (tenants cfg)).

Definition operator_auth (cfg : Config) : string := match operator_token cfg with Some _ => "operator" | None => "none" end.
Definition client_auth (cfg : Config) : string := if data_auth_configured cfg then "client" else "none".

(** The tenant written to the audit log: of a well-formed token prefix only. *)
Definition resolve_tenant_for_audit (cfg : Config) (opcode : N) (payload : bytes) : option bytes :=
  t ← tenants cfg;
  if negb (is_data_opcode opcode) then None
  else if starts_with CLIENT_AUTH_PREFIX payload then
    match decode_client_auth_payload payload with Ok (_, tok) => tenant_id t tok | Err _ => None end
  else None.

(** ** Routing *)

Definition leader_hint (h : MultiRaftHost) (r : NodeRoster) : bytes :=
  let s := match primary_status h with Some s => Some s | None => head (omap (λ g, status_of g h) (sorted_group_ids h)) end in
  match s ≫= s_leader_id with
  | Some leader => match roster_client_addr r leader with Some a => addr_text a | None => [] end
  | None => []
  end.
Definition get_leader_hint (r : NodeRoster) : prog bytes := h ← ask CHost; Ret (leader_hint h r).
Definition not_leader (r : NodeRoster) : prog Reply := hint ← get_leader_hint r; Ret (STATUS_NOT_LEADER, Raw hint).
(** Each question takes the lock of the host for itself. *)
Definition leads (gid : N) : prog bool := h ← ask CHost; Ret (is_leader_of gid h).
Definition group_not_hosted (gid : N) : prog bool := h ← ask CHost; Ret (negb (bool_decide (is_Some (h !! gid)))).

Definition lookup_group (t : StaticRangeTable) (key : bytes) : N := default 0 (range_lookup t key).

Definition range_wire (r : StaticRange) : RangeDescWire := (sr_id r, sr_epoch r, sr_group r, sr_start r, sr_end r).
Definition encode_list_ranges_from_table (t : StaticRangeTable) : bytes := encode_list_ranges_response (meta_epoch t) (range_wire <$> ranges t).

Definition range_moved_for_key (t : StaticRangeTable) (key : bytes) : option Reply :=
  r ← lookup_range t key;
  Some (STATUS_RANGE_MOVED, Raw (encode_range_moved_payload (meta_epoch t) (sr_id r) (sr_epoch r) (sr_group r) (sr_start r) (sr_end r))).

(** ** Proposals *)

Definition propose_and_wait (r : NodeRoster) (gid : N) (command : bytes) : prog Reply :=
  lead ← leads gid;
  if negb lead then not_leader r
  else
    w ← ask (CPropose gid command);
    match w with
    | WDone => Ret (STATUS_OK, Raw [])
    | WError e => if bool_decide (e = "not_leader") then not_leader r else Ret (STATUS_ERROR, Error (MText e))
    | WNoLoop => Ret (STATUS_ERROR, Error (MText "raft loop unavailable"))
    | WDropped => Ret (STATUS_ERROR, Error (MText "reply channel dropped"))
    end.

Definition propose_read_and_wait (gid request_id : N) : prog (option string) :=
  lead ← leads gid;
  if negb lead then Ret (Some "not_leader")
  else
    w ← ask (CRead gid request_id);
    Ret match w with WDone => None | WError e => Some e | WNoLoop => Some "raft loop unavailable" | WDropped => Some "reply channel dropped" end.

(** ** Data *)

(** The owner of the key, or the answer that the range has moved when it is not hosted here. *)
Definition route_key (key : bytes) : prog (N + Reply) :=
  t ← ask CTable;
  let gid := lookup_group t key in
  missing ← group_not_hosted gid;
  if (missing : bool) then
    t ← ask CTable;
    Ret match range_moved_for_key t key with Some out => inr out | None => inl gid end
  else Ret (inl gid).

Definition write_key (cfg : Config) (r : NodeRoster) (token : option bytes) (key : bytes) (cmd : RaftCommand) : prog DispatchOutcome :=
  match deny_key cfg key token (client_auth cfg) with
  | Some denied => Ret denied
  | None =>
      dest ← route_key key;
      reply ← match dest with inr out => Ret out | inl gid => propose_and_wait r gid (cmd_encode cmd) end;
      Ret (with_auth (client_auth cfg) (Some (lenN key)) reply)
  end.

(** A read on the owner's group; [read] is the engine's part. *)
Definition read_key (cfg : Config) (r : NodeRoster) (token : option bytes) (key : bytes) (read : prog Reply) : prog DispatchOutcome :=
  match deny_key cfg key token (client_auth cfg) with
  | Some denied => Ret denied
  | None =>
      dest ← route_key key;
      reply ← match dest with
              | inr out => Ret out
              | inl gid =>
                  req_id ← ask CReadId;
                  err ← propose_read_and_wait gid req_id;
                  match err with
                  | None => read
                  | Some e => if bool_decide (e = "not_leader") then not_leader r else Ret (STATUS_ERROR, Error (MText e))
                  end
              end;
      Ret (with_auth (client_auth cfg) None reply)
  end.

Definition engine_error (e : KayaError) : Reply := (STATUS_ERROR, Error (MKaya e)).
(** [InvalidArgument] keeps a status of its own. *)
Definition argument_error (e : KayaError) : Reply :=
  match e with InvalidArgument _ => (STATUS_INVALID_ARGUMENT, Error (MKaya e)) | _ => engine_error e end.

Definition value_reply (v : option bytes) : Reply := match v with Some v => (STATUS_OK, Raw (encode_value_payload v)) | None => (STATUS_NOT_FOUND, Raw []) end.
Definition get_reply (key : bytes) : prog Reply := v ← ask (CGet key); Ret match v with Ok v => value_reply v | Err e => engine_error e end.
Definition scan_reply (pre : bytes) : prog Reply :=
  kvs ← ask (CScan pre); Ret match kvs with Ok kvs => (STATUS_OK, Raw (encode_scan_response kvs)) | Err e => argument_error e end.

(** ** Statistics *)

Definition role_name (r : Role) : bytes := str match r with Follower => "follower" | Candidate => "candidate" | Leader => "leader" end.
Definition json_field (name : string) (v : bytes) : bytes := quoted (str name) ++ str ":" ++ v.
Definition json_object (fields : list bytes) : bytes :=
  str "{" ++ match fields with [] => [] | f :: fields => f ++ (fields ≫= λ f, str "," ++ f) end ++ str "}".
Definition stats_names : list string :=
  ["put_count"; "get_count"; "delete_count"; "scan_count"; "wal_bytes_written"; "wal_fsync_count"; "wal_fsync_total_us"; "wal_fsync_max_us";
   "memtable_entries"; "sstable_count"; "last_sequence"; "flush_total_us"; "flush_max_us"; "flush_count"; "compaction_total_us";
   "compaction_max_us"; "compaction_count"; "block_cache_hits"; "block_cache_misses"; "recovery_duration_us"].
Definition build_stats_response (cfg : Config) (r : NodeRoster) : prog Reply :=
  h ← ask CHost;
  numbers ← ask CEngineStats;
  let s := default (mkStatus 0 Follower 0 0 0 None)
             match primary_status h with Some s => Some s | None => head (omap (λ g, status_of g h) (sorted_group_ids h)) end in
  Ret (STATUS_OK, Raw (json_object
    [json_field "role" (quoted (role_name (s_role s))); json_field "term" (dec_bytes (s_current_term s));
     json_field "commit_index" (dec_bytes (s_commit_index s)); json_field "applied_index" (dec_bytes (s_last_applied s));
     json_field "peer_count" (dec_bytes (lenN (all_ids r) - 1)); json_field "raft_groups" (dec_bytes (N.of_nat (size h)));
     json_field "drain" (str (if drain cfg then "true" else "false"));
     json_field "engine" (json_object (zip_with (λ name n, json_field name (dec_bytes n)) stats_names numbers))])).

(** ** Transactions *)

Definition map_txn_err (e : KayaError) : Reply :=
  match e with TxnConflict => (STATUS_TXN_CONFLICT, Error (MText "txn conflict")) | _ => argument_error e end.
Definition txn_done (res : result KayaError unit) : Reply := match res with Ok _ => (STATUS_OK, Raw []) | Err e => map_txn_err e end.

Definition txn_op (txn_id op : N) (key : bytes) (value : option bytes) : prog Reply :=
  if op =? TXN_OP_GET then v ← ask (CTxnGet txn_id key); Ret match v with Ok v => value_reply v | Err e => map_txn_err e end
  else if op =? TXN_OP_PUT then
    match value with
    | None => Ret (STATUS_INVALID_ARGUMENT, Error (MText "TXN_OP put missing value"))
    | Some value => txn_done <$> ask (CTxnPut txn_id key value)
    end
  else if op =? TXN_OP_DELETE then txn_done <$> ask (CTxnDelete txn_id key)
  else Ret (STATUS_INVALID_ARGUMENT, Error (MUnknownTxnOp op)).

(** The mutations by group, a group where its first key is. *)
Fixpoint push_mutation (gid : N) (m : Mutation) (l : MutationsByGroup) : MutationsByGroup :=
  match l with
  | [] => [(gid, [m])]
  | (g, ms) :: l => if g =? gid then (g, ms ++ [m]) :: l else (g, ms) :: push_mutation gid m l
  end.
Definition partition_mutations (t : StaticRangeTable) (ms : list Mutation) : MutationsByGroup :=
  foldl (λ l m, push_mutation (lookup_group t m.1) m l) [] ms.

Definition commit_reply : prog Reply := ts ← ask CLastSequence; Ret (STATUS_OK, Raw (encode_txn_commit_response ts)).

Definition txn_commit_via_raft (r : NodeRoster) (txn_id : N) : prog Reply :=
  lead ← leads 0;
  if negb lead then not_leader r
  else
    taken ← ask (CTxnTake txn_id);
    match taken with
    | Err e => Ret (map_txn_err e)
    | Ok mutations =>
        t ← ask CTable;
        let by_group := partition_mutations t mutations in
        if (1 <? length by_group)%nat then
          res ← ask (CCross txn_id by_group);
          match res with
          | Ok _ => commit_reply
          | Err (ProposalFailed e) => if bool_decide (e = "not_leader") then not_leader r else Ret (STATUS_ERROR, Error (MCoord (ProposalFailed e)))
          | Err e => Ret (STATUS_ERROR, Error (MCoord e))
          end
        else
          let '(gid, mutations) := default (0, []) (head by_group) in
          '(status, body) ← propose_and_wait r gid (cmd_encode (CTxnCommit txn_id mutations));
          if negb (status =? STATUS_OK) then Ret (status, body) else commit_reply
    end.

Definition text_of (b : bytes) : string := foldr (λ c s, String (Ascii.ascii_of_N c) s) EmptyString b.

(** A command for a group that another node leads. *)
Definition forward_to_group_leader (cfg : Config) (r : NodeRoster) (gid : N) (cmd : RaftCommand) : prog answer :=
  h ← ask CHost;
  match status_of gid h ≫= s_leader_id with
  | None => Ret (AErr "not_leader")
  | Some leader =>
      match roster_client_addr r leader with
      | None => Ret (AErr ("no client address for group " +:+ pretty gid +:+ " leader"))
      | Some addr =>
          let inner := encode_txn_forward_payload gid (cmd_encode cmd) in
          let payload := match operator_token cfg with
                         | Some tok => if bool_decide (tok = []) then inner else encode_admin_payload TXN_FORWARD_OPCODE inner (Some tok)
                         | None => inner
                         end in
          res ← ask (CForward addr payload);
          Ret match res with
              | Ok (status, body) =>
                  if status =? STATUS_OK then AOk
                  else if status =? STATUS_NOT_LEADER then AErr "not_leader"
                  else match decode_error_payload body with
                       | Ok msg => AErr (text_of msg)
                       | Err _ => AErr ("forwarded propose failed with status " +:+ pretty status)
                       end
              | Err e => AErr ("forward to group " +:+ pretty gid +:+ " leader " +:+ text_of (addr_text addr) +:+ " failed: " +:+ e)
              end
      end
  end.

(** One proposal of a transaction over several groups. *)
Definition propose_cmd_result (cfg : Config) (r : NodeRoster) (gid : N) (cmd : RaftCommand) : prog answer :=
  lead ← leads gid;
  if negb lead then forward_to_group_leader cfg r gid cmd
  else
    '(status, body) ← propose_and_wait r gid (cmd_encode cmd);
    Ret (if status =? STATUS_OK then AOk
         else if status =? STATUS_NOT_LEADER then AErr "not_leader"
         else match body with Error (MText msg) => AErr msg | _ => AErr ("propose failed with status " +:+ pretty status) end).

(** ** Ranges *)

Definition encode_range_meta_command (base_epoch : N) (t : StaticRangeTable) : bytes := cmd_encode (CRangeMeta base_epoch (table_encode t)).

(** The end that split, merge and move share. *)
Definition commit_table (r : NodeRoster) (cmd : bytes) (epoch : N) (wire : list RangeDescWire) : prog Reply :=
  '(status, body) ← propose_and_wait r 0 cmd;
  Ret (if negb (status =? STATUS_OK) then (status, body) else (STATUS_OK, Raw (encode_list_ranges_response epoch wire))).

Definition draining : Reply := (STATUS_ERROR, Error (MText "node is draining; refuse new range hosting")).

Definition handle_split (cfg : Config) (r : NodeRoster) (token : option bytes) (split_key : bytes) : prog DispatchOutcome :=
  match deny_token cfg token (client_auth cfg) (Some (lenN split_key)) with
  | Some denied => Ret denied
  | None =>
      if drain cfg then Ret (with_auth (client_auth cfg) None draining)
      else
        lead ← leads 0;
        if negb lead then with_auth (client_auth cfg) None <$> not_leader r
        else
          t ← ask CTable;
          match split_at split_key t with
          | Err e => Ret (with_auth (client_auth cfg) None (STATUS_INVALID_ARGUMENT, Error (MText e)))
          | Ok (lower, upper, _, next) =>
              hosted ← ask (CEnsureHosted (peek_next_group_id t));
              match hosted with
              | Err e => Ret (with_auth (client_auth cfg) None (STATUS_ERROR, Error (MText e)))
              | Ok _ =>
                  with_auth (client_auth cfg) (Some (lenN split_key)) <$>
                    commit_table r (encode_range_meta_command (meta_epoch t) next) (meta_epoch next) [range_wire lower; range_wire upper]
              end
          end
  end.

Definition handle_merge (cfg : Config) (r : NodeRoster) (token : option bytes) (left_start : bytes) : prog DispatchOutcome :=
  match deny_token cfg token (client_auth cfg) (Some (lenN left_start)) with
  | Some denied => Ret denied
  | None =>
      lead ← leads 0;
      if negb lead then with_auth (client_auth cfg) None <$> not_leader r
      else
        t ← ask CTable;
        match merge_with_next left_start t with
        | Err e => Ret (with_auth (client_auth cfg) None (STATUS_INVALID_ARGUMENT, Error (MText e)))
        | Ok (merged, next) =>
            with_auth (client_auth cfg) (Some (lenN left_start)) <$>
              commit_table r (encode_range_meta_command (meta_epoch t) next) (meta_epoch next) [range_wire merged]
        end
  end.

(** An empty entry on the source group: what was committed there before is applied. *)
Definition quiesce_group (r : NodeRoster) (gid : N) : prog unit :=
  lead ← leads gid;
  if negb lead then Ret tt else _ ← propose_and_wait r gid []; Ret tt.

Definition handle_move_range (cfg : Config) (range_start : bytes) (target : N) : prog Reply :=
  if drain cfg then Ret draining
  else
    r ← ask CRoster;
    lead ← leads 0;
    if negb lead then not_leader r
    else
      t ← ask CTable;
      let source := sr_group <$> (snd <$> list_find (λ x, sr_start x = range_start) (ranges t)) in
      match move_range range_start target t with
      | Err e => Ret (STATUS_INVALID_ARGUMENT, Error (MText e))
      | Ok (moved, next) =>
          hosted ← ask (CEnsureHosted target);
          match hosted with
          | Err e => Ret (STATUS_ERROR, Error (MText e))
          | Ok _ =>
              _ ← match source with Some source => quiesce_group r source | None => Ret tt end;
              commit_table r (encode_range_meta_command (meta_epoch t) next) (meta_epoch next) [range_wire moved]
          end
      end.

(** The node that leads a range's group, as far as this process knows. *)
Definition range_owner (h : MultiRaftHost) (r : StaticRange) : option N :=
  match status_of (sr_group r) h ≫= s_leader_id with
  | Some n => Some n
  | None => if is_leader_of (sr_group r) h then s_id <$> status_of (sr_group r) h else None
  end.
Fixpoint push_range_of (node range_id : N) (l : placement) : placement :=
  match l with
  | [] => [(node, [range_id])]
  | (n, rs) :: l => if n =? node then (n, rs ++ [range_id]) :: l else (n, rs) :: push_range_of node range_id l
  end.
Definition build_rebalance_plan : prog (list RangeMove) :=
  roster ← ask CRoster;
  t ← ask CTable;
  h ← ask CHost;
  let empty := (λ id, (id, [])) <$> all_ids roster in
  Ret (plan_range_count
    (foldl (λ by_node r, match range_owner h r with Some n => push_range_of n (sr_id r) by_node | None => by_node end) empty (ranges t))).

(** ** Membership *)

Definition group0_membership_view : prog (list N * list ClusterMember) :=
  h ← ask CHost;
  Ret match h !! 0 with
      | Some n => (set_list (voters (stable_config (effective_config n))), current_membership n)
      | None => ([], [])
      end.

Definition self_entry (cfg : Config) : ClusterMember := mkMember (self_id cfg) (addr_text (self_raft cfg)) (addr_text (self_client cfg)) false.

(** The proposal, the broadcast it causes and the answer. *)
Definition change_membership (members : list ClusterMember) (proposed refused : string) : prog Reply :=
  '(idx, out) ← ask (CChange members);
  _ ← if bool_decide (length out = 0%nat) then Ret tt else ask (CSend out);
  Ret match idx with
      | Some idx => (STATUS_OK, Raw (str proposed ++ dec_bytes idx))
      | None => (STATUS_ERROR, Error (MText refused))
      end.

Definition propose_add_member (cfg : Config) (new_id : N) (new_raft new_client : bytes) (learner : bool) : prog Reply :=
  lead ← leads 0;
  if negb lead then r ← ask CRoster; not_leader r
  else
    '(current_voters, current_members) ← group0_membership_view;
    _ ← match addr_parse new_raft, addr_parse new_client with
        | Some raft, Some client => ask (CUpsert new_id raft client)
        | _, _ => Ret tt
        end;
    r ← ask CRoster;
    if bool_decide (new_id ∈ m_id <$> current_members) || bool_decide (new_id ∈ current_voters) then
      Ret (STATUS_INVALID_ARGUMENT, Error (MMember "is already a cluster member" new_id))
    else
      change_membership (members_for_add r current_voters current_members (mkMember new_id new_raft new_client learner) (self_entry cfg))
        "membership change proposed at index " "failed to propose membership change".

Definition propose_remove_member (cfg : Config) (remove_id : N) : prog Reply :=
  lead ← leads 0;
  if negb lead then r ← ask CRoster; not_leader r
  else
    '(current_voters, current_members) ← group0_membership_view;
    r ← ask CRoster;
    match members_for_remove r current_voters current_members remove_id (self_entry cfg) with
    | None => Ret (STATUS_INVALID_ARGUMENT, Error (MMember "cannot be removed" remove_id))
    | Some members => change_membership members "membership removal proposed at index " "failed to propose membership removal"
    end.

Definition propose_promote_learner (cfg : Config) (promote_id : N) : prog Reply :=
  lead ← leads 0;
  if negb lead then r ← ask CRoster; not_leader r
  else
    '(_, current_members) ← group0_membership_view;
    r ← ask CRoster;
    match members_for_promote r current_members promote_id (self_entry cfg) with
    | None => Ret (STATUS_INVALID_ARGUMENT, Error (MMember "cannot be promoted" promote_id))
    | Some members => change_membership members "learner promote proposed at index " "failed to propose learner promotion"
    end.

(** ** Dispatch *)

Definition hello (payload : bytes) : DispatchOutcome :=
  with_auth "none" None
    match decode_hello_request payload with
    | Ok v => if PROTO_VERSION <? v then (STATUS_INVALID_ARGUMENT, Error (MVersion v)) else (STATUS_OK, Raw (encode_hello_response PROTO_VERSION))
    | Err e => (STATUS_INVALID_ARGUMENT, Error (MNet e))
    end.

Definition transfer_leader (gid target : N) : prog Reply :=
  res ← ask (CTransfer gid target);
  match res with
  | Ok _ => Ret (STATUS_OK, Raw [])
  | Err (TransferFailed NotLeader) => r ← ask CRoster; not_leader r
  | Err e => Ret (STATUS_INVALID_ARGUMENT, Error (MTransfer e))
  end.

Definition admin_request (cfg : Config) (req : Request) : prog Reply :=
  match req with
  | RTxnForward gid command => r ← ask CRoster; propose_and_wait r gid command
  | RAddMember id raft client learner => propose_add_member cfg id raft client learner
  | RRemoveMember id => propose_remove_member cfg id
  | RPromoteLearner id => propose_promote_learner cfg id
  | RMoveRange range_start target => handle_move_range cfg range_start target
  | RRebalancePlan =>
      plan ← build_rebalance_plan;
      Ret (STATUS_OK, Raw (encode_rebalance_plan_response ((λ m, (mv_range_id m, mv_from_node m, mv_to_node m)) <$> plan)))
  | RTransferLeader gid target => transfer_leader gid target
  | _ => Ret (STATUS_ERROR, Error (MUnknownOpcode (request_opcode req)))
  end.

Definition dispatch_admin (cfg : Config) (opcode : N) (payload : bytes) : prog DispatchOutcome :=
  let answer := with_auth (operator_auth cfg) None in
  match unwrap_admin opcode payload with
  | Err e => Ret (answer (STATUS_INVALID_ARGUMENT, Error (MNet e)))
  | Ok (clean, presented) =>
      if bool_decide (is_Some (operator_token cfg)) && negb (bool_decide (presented = operator_token cfg)) then
        Ret (answer (STATUS_ERROR, Error (MText "operator credential required or invalid")))
      else if (opcode =? TXN_FORWARD_OPCODE) && bool_decide (operator_token cfg = None) && data_auth_configured cfg then
        Ret (answer (STATUS_ERROR, Error (MText
          "TXN_FORWARD requires an operator token when client auth, an ACL, or tenants are configured")))
      else match decode_request opcode clean with
           | Err e => Ret (answer (STATUS_INVALID_ARGUMENT, Error (MNet e)))
           | Ok req => answer <$> admin_request cfg req
           end
  end.

(** A request that only the leader of group 0 serves, for a known token. *)
Definition on_leader (cfg : Config) (r : NodeRoster) (p : prog Reply) : prog Reply :=
  lead ← leads 0; if negb lead then not_leader r else p.
Definition for_token (cfg : Config) (token : option bytes) (p : prog Reply) : prog DispatchOutcome :=
  match deny_token cfg token (client_auth cfg) None with
  | Some denied => Ret denied
  | None => with_auth (client_auth cfg) None <$> p
  end.

Definition cdc_wire (ev : CdcEvent) : N * N * bytes * option bytes :=
  (ev_seq ev, match ev_op ev with OpPut => CDC_EVENT_PUT | OpDelete => CDC_EVENT_DELETE end, ev_key ev, ev_value ev).
Definition cdc_poll_reply (consumer : bytes) (from_seq limit : N) : prog Reply :=
  res ← ask (CCdcPoll consumer from_seq (N.to_nat limit));
  Ret match res with
      | Ok (Ok events) => (STATUS_OK, Raw (encode_cdc_poll_response (cdc_wire <$> events)))
      | Ok (Err e) => engine_error e
      | Err e => argument_error e
      end.

(** ** The requests on data, one handler each *)

Definition handle_put (cfg : Config) (r : NodeRoster) (token : option bytes) (key value : bytes) : prog DispatchOutcome :=
  write_key cfg r token key (CPut key value).
Definition handle_get (cfg : Config) (r : NodeRoster) (token : option bytes) (key : bytes) : prog DispatchOutcome :=
  read_key cfg r token key (get_reply key).
Definition handle_delete (cfg : Config) (r : NodeRoster) (token : option bytes) (key : bytes) : prog DispatchOutcome :=
  write_key cfg r token key (CDelete key).
Definition handle_scan (cfg : Config) (r : NodeRoster) (token : option bytes) (pre : bytes) : prog DispatchOutcome :=
  read_key cfg r token pre (scan_reply pre).
Definition handle_health : prog DispatchOutcome :=
  h ← ask CHost; Ret (with_auth "none" None (STATUS_OK, Raw (str (if is_leader_any h then "leader" else "follower")))).
Definition handle_txn_begin (cfg : Config) (r : NodeRoster) (token : option bytes) : prog DispatchOutcome :=
  for_token cfg token (on_leader cfg r ('(id, ts) ← ask CTxnBegin; Ret (STATUS_OK, Raw (encode_txn_begin_response id ts)))).
Definition handle_txn_op (cfg : Config) (r : NodeRoster) (token : option bytes) (txn_id op : N) (key : bytes) (value : option bytes) : prog DispatchOutcome :=
  match deny_key cfg key token (client_auth cfg) with
  | Some denied => Ret denied
  | None =>
      lead ← leads 0;
      if negb lead then with_auth (client_auth cfg) None <$> not_leader r
      else with_auth (client_auth cfg) (Some (lenN key)) <$> txn_op txn_id op key value
  end.
Definition handle_txn_commit (cfg : Config) (r : NodeRoster) (token : option bytes) (txn_id : N) : prog DispatchOutcome :=
  for_token cfg token (txn_commit_via_raft r txn_id).
Definition handle_txn_rollback (cfg : Config) (r : NodeRoster) (token : option bytes) (txn_id : N) : prog DispatchOutcome :=
  for_token cfg token (on_leader cfg r (txn_done <$> ask (CTxnRollback txn_id))).
Definition handle_cdc_poll (cfg : Config) (r : NodeRoster) (token : option bytes) (consumer : bytes) (from_seq limit : N) : prog DispatchOutcome :=
  for_token cfg token (on_leader cfg r (cdc_poll_reply consumer from_seq limit)).
Definition handle_cdc_checkpoint (cfg : Config) (r : NodeRoster) (token : option bytes) (consumer : bytes) : prog DispatchOutcome :=
  for_token cfg token (on_leader cfg r
    (res ← ask (CCdcCheckpoint consumer); Ret match res with Ok _ => (STATUS_OK, Raw []) | Err e => argument_error e end)).
Definition handle_list_ranges (cfg : Config) : prog DispatchOutcome :=
  t ← ask CTable; Ret (with_auth (client_auth cfg) None (STATUS_OK, Raw (encode_list_ranges_from_table t))).

Definition data_request (cfg : Config) (r : NodeRoster) (token : option bytes) (req : Request) : prog DispatchOutcome :=
  match req with
  | RPut key value => handle_put cfg r token key value
  | RGet key => handle_get cfg r token key
  | RDelete key => handle_delete cfg r token key
  | RScan pre => handle_scan cfg r token pre
  | RHealth => handle_health
  | RStats => with_auth (client_auth cfg) None <$> build_stats_response cfg r
  | RTxnBegin => handle_txn_begin cfg r token
  | RTxnOp txn_id op key value => handle_txn_op cfg r token txn_id op key value
  | RTxnCommit txn_id => handle_txn_commit cfg r token txn_id
  | RTxnRollback txn_id => handle_txn_rollback cfg r token txn_id
  | RCdcPoll consumer from_seq limit => handle_cdc_poll cfg r token consumer from_seq limit
  | RCdcCheckpoint consumer => handle_cdc_checkpoint cfg r token consumer
  | RListRanges => handle_list_ranges cfg
  | RSplitRange split_key => handle_split cfg r token split_key
  | RMergeRange left_start => handle_merge cfg r token left_start
  | _ => Ret (with_auth "none" None (STATUS_ERROR, Error (MUnknownOpcode (request_opcode req))))
  end.

Definition dispatch_data (cfg : Config) (opcode : N) (payload : bytes) : prog DispatchOutcome :=
  let answer := with_auth (client_auth cfg) None in
  match unwrap_client opcode payload with
  | Err e => Ret (answer (STATUS_INVALID_ARGUMENT, Error (MNet e)))
  | Ok (clean, presented) =>
      if is_data_opcode opcode && bool_decide (is_Some (client_token cfg)) && negb (bool_decide (presented = client_token cfg)) then
        Ret (answer (STATUS_ERROR, Error (MText "client credential required or invalid")))
      else
        let '(clean, client_meta_epoch) := decode_meta_epoch_payload clean in
        stale ← match client_meta_epoch with
                | Some client_epoch =>
                    if in_range 1 4 opcode then
                      t ← ask CTable;
                      Ret (if client_epoch <? meta_epoch t then Some (STATUS_RANGE_MOVED, Raw (encode_list_ranges_from_table t)) else None)
                    else Ret None
                | None => Ret None
                end;
        match stale with
        | Some moved => Ret (answer moved)
        | None =>
            r ← ask CRoster;
            if is_data_opcode opcode || (opcode =? 5) then
              match decode_request opcode clean with
              | Err e => Ret (answer (STATUS_INVALID_ARGUMENT, Error (MNet e)))
              | Ok req => data_request cfg r presented req
              end
            else Ret (with_auth "none" None (STATUS_ERROR, Error (MUnknownOpcode opcode)))
        end
  end.

Definition dispatch (cfg : Config) (opcode : N) (payload : bytes) : prog DispatchOutcome :=
  if opcode =? 0 then Ret (hello payload)
  else if is_admin_opcode opcode then dispatch_admin cfg opcode payload
  else dispatch_data cfg opcode payload.
End Handlers.

(** Opens the handler of a request. *)
Ltac open_handler :=
  unfold data_request, handle_put, handle_get, handle_delete, handle_scan, handle_health, handle_txn_begin, handle_txn_op,
    handle_txn_commit, handle_txn_rollback, handle_cdc_poll, handle_cdc_checkpoint, handle_list_ranges.
