(* ===== verification/ClientOpsProps.v ===== *)
(** Theorems on the request handlers: what every run of [dispatch] may do, whatever the answers
    of the locks, the Raft loop and the engine. *)
From stdpp Require Import gmap strings.
From S2P Require Import Prelude Bytes Core OrdMap Path RaftConfig RaftCommand RaftLog RaftNode MultiRaft Ranges Balancer NetCodec ClientCodec Cdc CdcLoad Acl Roster RosterProps TxnCoord ClientOps.

Open Scope N_scope.

(** ** Runs *)

Section Runs.
Context {A : Type}.

(** A call and its answer. *)
Inductive Event : Type :=
| Ev {B : Type} (c : Call A B) (b : B).

Inductive runs {X : Type} : prog A X → list Event → X → Prop :=
| runs_ret x : runs (Ret x) [] x
| runs_do {B : Type} (c : Call A B) k b tr x : runs (k b) tr x → runs (Do c k) (Ev c b :: tr) x.

(** Every call a program makes satisfies [P], as long as the answers satisfy [E], and what it
    returns satisfies [Q]. *)
Fixpoint always {X} (P : ∀ B, Call A B → Prop) (E : ∀ B, Call A B → B → Prop) (Q : X → Prop) (p : prog A X) : Prop :=
  match p with
  | Ret x => Q x
  | Do c k => P _ c ∧ ∀ b, E _ c b → always P E Q (k b)
  end.

Definition call_ok (P : ∀ B, Call A B → Prop) (e : Event) : Prop := match e with Ev c _ => P _ c end.
Definition event_ok (E : ∀ B, Call A B → B → Prop) (e : Event) : Prop := match e with Ev c b => E _ c b end.

Lemma always_runs {X} P E Q (p : prog A X) tr x :
  always P E Q p → runs p tr x → Forall (event_ok E) tr → Forall (call_ok P) tr ∧ Q x.
Proof.
  intros Ha Hr. revert Ha. induction Hr as [x|B c k b tr x Hr IH]; cbn [always].
  - intros HQ _. done.
  - intros [HP Hk] [HE Htr]%Forall_cons. destruct (IH (Hk b HE) Htr). split; [by constructor|done].
Qed.

(** The runs of a program, by its shape. *)
Fixpoint run_of {X} (p : prog A X) (tr : list Event) (x : X) : Prop :=
  match p with
  | Ret y => tr = [] ∧ x = y
  | Do c k => ∃ b tr', tr = Ev c b :: tr' ∧ run_of (k b) tr' x
  end.
Lemma runs_run_of {X} (p : prog A X) tr x : runs p tr x ↔ run_of p tr x.
Proof.
  split.
  - induction 1; cbn [run_of]; eauto.
  - revert tr. induction p as [y|B c k IH]; cbn [run_of].
    + intros tr [-> ->]. constructor.
    + intros tr (b & tr' & -> & Hr). constructor. auto.
Qed.

Lemma runs_bind {X Y} (p : prog A X) (f : X → prog A Y) tr y :
  runs (p ≫= f) tr y → ∃ tr1 tr2 x, tr = tr1 ++ tr2 ∧ runs p tr1 x ∧ runs (f x) tr2 y.
Proof.
  revert tr. induction p as [x|B c k IH]; intros tr Hr.
  - exists [], tr, x. split_and!; [done|constructor|done].
  - apply runs_run_of in Hr as (b & tr' & -> & Hr). apply runs_run_of, IH in Hr as (tr1 & tr2 & x & -> & H1 & H2).
    exists (Ev c b :: tr1), tr2, x. split_and!; [done|by constructor|done].
Qed.
Lemma runs_fmap {X Y} (p : prog A X) (f : X → Y) tr y : runs (f <$> p) tr y → ∃ x, runs p tr x ∧ y = f x.
Proof.
  intros (tr1 & tr2 & x & -> & H1 & [-> ->]%runs_run_of)%(runs_bind p (λ x, Ret (f x))). rewrite app_nil_r. eauto.
Qed.
Lemma runs_ask {B} (c : Call A B) tr b : runs (ask c) tr b → tr = [Ev c b].
Proof. intros (b' & tr' & -> & [-> ->])%runs_run_of. done. Qed.
Lemma runs_Ret {X} (x y : X) tr : runs (Ret x) tr y → tr = [] ∧ y = x.
Proof. by intros [-> ->]%runs_run_of. Qed.

Lemma always_bind {X Y} P E (Q : X → Prop) (Q' : Y → Prop) (p : prog A X) (f : X → prog A Y) :
  always P E Q p → (∀ x, Q x → always P E Q' (f x)) → always P E Q' (p ≫= f).
Proof. intros Hp Hf. induction p as [x|B c k IH]; cbn in *; [auto|]. destruct Hp as [HP Hk]. split; auto. Qed.

Lemma always_fmap {X Y} P E (Q : X → Prop) (Q' : Y → Prop) (p : prog A X) (f : X → Y) :
  always P E Q p → (∀ x, Q x → Q' (f x)) → always P E Q' (f <$> p).
Proof. intros Hp Hf. induction p as [x|B c k IH]; cbn in *; [auto|]. destruct Hp as [HP Hk]. split; auto. Qed.

Lemma always_ask {B} P (E : ∀ B, Call A B → B → Prop) Q (c : Call A B) : P _ c → (∀ b, E _ c b → Q b) → always P E Q (ask c).
Proof. by split. Qed.
End Runs.

(** Goes through a program call by call. *)
Ltac walk :=
  repeat first
    [ progress intros
    | match goal with
      | |- always _ _ _ (_ ≫= _) => eapply (always_bind _ _ (λ _, True))
      | |- always _ _ _ (_ <$> _) => eapply (always_fmap _ _ (λ _, True))
      | |- always _ _ _ (ask _) => apply always_ask
      | |- always _ _ _ (Ret _) => cbn [always]
      | |- always _ _ _ (match ?x with _ => _ end) => destruct x eqn:?
      end ].

(** ** Authorisation *)

Section Authorisation.
Context {A : Type} `{SocketAddr A} (cfg : Config (A:=A)) (token : option bytes) (req : option Request).

(** The token may use the key: each layer that is configured says so. *)
Definition may_access (key : bytes) : Prop :=
  (∀ t, tenants cfg = Some t → tenant_authorize t key token = true) ∧ (∀ a, acl cfg = Some a → acl_authorize a key token = true).
(** The token is one of the configured ones. *)
Definition known_token : Prop :=
  (∀ t, tenants cfg = Some t → tenant_authorize_token t token = true) ∧ (∀ a, acl cfg = Some a → acl_authorize_token a token = true).

(** What a command in the log requires. *)
Definition command_allowed (gid : N) (cmd : RaftCommand) : Prop :=
  match cmd with
  | CPut key value => req = Some (RPut key value) ∧ may_access key
  | CDelete key => req = Some (RDelete key) ∧ may_access key
  | CTxnCommit id _ => req = Some (RTxnCommit id) ∧ known_token
  | CRangeMeta _ _ => (∃ key, req = Some (RSplitRange key) ∨ req = Some (RMergeRange key)) ∧ gid = 0 ∧ known_token
  | _ => False
  end.

(** What a call requires of the request and of the token that was presented with it. *)
Definition data_allowed (B : Type) (c : Call A B) : Prop :=
  match c with
  | CGet key => req = Some (RGet key) ∧ may_access key
  | CScan pre => req = Some (RScan pre) ∧ may_access pre
  | CRead _ _ => ∃ key, (req = Some (RGet key) ∨ req = Some (RScan key)) ∧ may_access key
  | CTxnGet id key => ∃ v, req = Some (RTxnOp id TXN_OP_GET key v) ∧ may_access key
  | CTxnPut id key value => req = Some (RTxnOp id TXN_OP_PUT key (Some value)) ∧ may_access key
  | CTxnDelete id key => ∃ v, req = Some (RTxnOp id TXN_OP_DELETE key v) ∧ may_access key
  | CPropose gid command => ∃ cmd, command = cmd_encode cmd ∧ command_allowed gid cmd
  | CTxnBegin => req = Some RTxnBegin ∧ known_token
  | CTxnTake id | CCross id _ => req = Some (RTxnCommit id) ∧ known_token
  | CLastSequence => (∃ id, req = Some (RTxnCommit id)) ∧ known_token
  | CTxnRollback id => req = Some (RTxnRollback id) ∧ known_token
  | CCdcPoll consumer from_seq limit => (∃ l, req = Some (RCdcPoll consumer from_seq l) ∧ limit = N.to_nat l) ∧ known_token
  | CCdcCheckpoint consumer => req = Some (RCdcCheckpoint consumer) ∧ known_token
  | CEnsureHosted _ => (∃ key, req = Some (RSplitRange key)) ∧ known_token
  | CEngineStats => req = Some RStats
  | CTransfer _ _ | CChange _ | CSend _ | CUpsert _ _ _ | CForward _ _ => False
  | CHost | CTable | CRoster | CReadId => True
  end.

Abbreviation any := (λ (B : Type) (_ : Call A B) (_ : B), True).
Abbreviation fine := (always data_allowed any (λ _, True)).

Lemma deny_key_none key auth : deny_key cfg key token auth = None → may_access key.
Proof.
  unfold deny_key, may_access, authorize_key. intros Hd. split.
  - intros t Ht. rewrite Ht in Hd. cbn [from_option andb] in Hd. rewrite bool_decide_true in Hd by eauto.
    destruct (tenant_authorize t key token); [done|]. done.
  - intros a Ha. rewrite Ha in Hd. cbn [from_option andb] in Hd. rewrite (bool_decide_true (is_Some (Some a))) in Hd by eauto.
    destruct (acl_authorize a key token); [done|]. by destruct (_ && _).
Qed.

Lemma deny_token_none auth len : deny_token cfg token auth len = None → known_token.
Proof.
  unfold deny_token, known_token, authorize_token. intros Hd. split.
  - intros t Ht. rewrite Ht in Hd. cbn [from_option andb] in Hd. rewrite bool_decide_true in Hd by eauto.
    destruct (tenant_authorize_token t token); [done|]. done.
  - intros a Ha. rewrite Ha in Hd. cbn [from_option andb] in Hd. rewrite (bool_decide_true (is_Some (Some a))) in Hd by eauto.
    destruct (acl_authorize_token a token); [done|]. by destruct (_ && _).
Qed.

Lemma not_leader_fine r : fine (not_leader (A:=A) r).
Proof. unfold not_leader, get_leader_hint. walk; done. Qed.
Lemma leads_fine gid : fine (leads (A:=A) gid).
Proof. unfold leads. walk; done. Qed.
Lemma propose_fine r gid command : data_allowed _ (CPropose gid command) → fine (propose_and_wait (A:=A) r gid command).
Proof. intros Hc. unfold propose_and_wait. walk; try done; auto using not_leader_fine, leads_fine. Qed.
Lemma route_fine key : fine (route_key (A:=A) key).
Proof. unfold route_key, group_not_hosted. walk; done. Qed.

Lemma write_fine r key cmd :
  (∃ v, cmd = CPut key v ∧ req = Some (RPut key v)) ∨ (cmd = CDelete key ∧ req = Some (RDelete key)) → fine (write_key cfg r token key cmd).
Proof.
  intros Hcmd. unfold write_key. destruct (deny_key _ _ _ _) eqn:Hd; [done|]. apply deny_key_none in Hd.
  walk; try done; [apply route_fine|]. apply propose_fine. exists cmd. split; [done|]. by destruct Hcmd as [(v & -> & ?)|[-> ?]].
Qed.

Lemma read_fine r key read : req = Some (RGet key) ∨ req = Some (RScan key) → (may_access key → fine read) → fine (read_key cfg r token key read).
Proof.
  intros Hq Hr. unfold read_key, propose_read_and_wait. destruct (deny_key _ _ _ _) eqn:Hd; [done|]. apply deny_key_none in Hd.
  walk; try done; auto using route_fine, leads_fine, not_leader_fine. by exists key.
Qed.

Lemma for_token_fine p : (known_token → fine p) → fine (for_token cfg token p).
Proof. intros Hp. unfold for_token. destruct (deny_token _ _ _ _) eqn:Hd; [done|]. apply deny_token_none in Hd. walk; auto. Qed.

Lemma on_leader_fine r p : fine p → fine (on_leader cfg r p).
Proof. intros Hp. unfold on_leader. walk; auto using leads_fine, not_leader_fine. Qed.

Lemma commit_fine r txn_id : req = Some (RTxnCommit txn_id) → known_token → fine (txn_commit_via_raft (A:=A) r txn_id).
Proof.
  intros Hq Hk. unfold txn_commit_via_raft, commit_reply. walk; try done; eauto using leads_fine, not_leader_fine.
  - by split; [exists txn_id|].
  - apply propose_fine. eexists. split; [reflexivity|done].
  - by split; [exists txn_id|].
Qed.

Lemma commit_table_fine r epoch t e wire key : req = Some (RSplitRange key) ∨ req = Some (RMergeRange key) → known_token →
  fine (commit_table (A:=A) r (encode_range_meta_command epoch t) e wire).
Proof. intros Hq Hk. unfold commit_table. walk; try done. apply propose_fine. eexists. split; [reflexivity|]. split; [by exists key|done]. Qed.

Lemma split_fine r key : req = Some (RSplitRange key) → fine (handle_split cfg r token key).
Proof.
  intros Hq. unfold handle_split. destruct (deny_token _ _ _ _) eqn:Hd; [done|]. apply deny_token_none in Hd.
  walk; try done; eauto using leads_fine, not_leader_fine, commit_table_fine.
  split; [by exists key|done].
Qed.

Lemma merge_fine r key : req = Some (RMergeRange key) → fine (handle_merge cfg r token key).
Proof.
  intros Hq. unfold handle_merge. destruct (deny_token _ _ _ _) eqn:Hd; [done|]. apply deny_token_none in Hd.
  walk; try done; eauto using leads_fine, not_leader_fine, commit_table_fine.
Qed.

Lemma txn_op_fine id op key value : req = Some (RTxnOp id op key value) → may_access key → fine (txn_op (A:=A) id op key value).
Proof.
  intros Hq Hm. unfold txn_op. destruct (N.eqb_spec op TXN_OP_GET) as [->|]; [walk; try done; by exists value|].
  destruct (N.eqb_spec op TXN_OP_PUT) as [->|]; [destruct value; walk; done|].
  destruct (N.eqb_spec op TXN_OP_DELETE) as [->|]; [|done]. walk; try done. by exists value.
Qed.

Lemma data_request_fine r q : req = Some q → fine (data_request cfg r token q).
Proof.
  intros Hq. destruct q; open_handler; try done.
  - apply write_fine. eauto.
  - apply read_fine; [by left|]. unfold get_reply. walk; done.
  - apply write_fine. eauto.
  - apply read_fine; [by right|]. unfold scan_reply. walk; done.
  - apply for_token_fine. intros. apply on_leader_fine. walk; done.
  - destruct (deny_key _ _ _ _) eqn:Hd; [done|]. apply deny_key_none in Hd.
    walk; try done; eauto using leads_fine, not_leader_fine, txn_op_fine.
  - apply for_token_fine. by apply commit_fine.
  - apply for_token_fine. intros. apply on_leader_fine. walk; done.
  - apply for_token_fine. intros. apply on_leader_fine. unfold cdc_poll_reply. walk; try done. split; [by exists limit|done].
  - apply for_token_fine. intros. apply on_leader_fine. walk; done.
  - by apply split_fine.
  - by apply merge_fine.
Qed.
End Authorisation.

(** The request a payload holds, if it can be read. *)
Definition requested (opcode : N) (payload : bytes) : option Request :=
  match receive_request opcode payload with Ok (req, _, _) => Some req | Err _ => None end.

Lemma data_opcode_spec opcode : is_data_opcode opcode = true → opcode ≠ 0 ∧ is_admin_opcode opcode = false.
Proof.
  unfold is_data_opcode, is_admin_opcode, in_range. rewrite !orb_true_iff, !andb_true_iff, !N.leb_le, N.eqb_eq. intros Ho.
  rewrite !orb_false_iff, !N.eqb_neq. cbv [ADD_MEMBER_OPCODE REMOVE_MEMBER_OPCODE TRANSFER_LEADER_OPCODE
    PROMOTE_LEARNER_OPCODE REBALANCE_PLAN_OPCODE MOVE_RANGE_OPCODE TXN_FORWARD_OPCODE]. lia.
Qed.

Lemma dispatch_of_data {A} `{SocketAddr A} (cfg : Config (A:=A)) opcode payload :
  is_data_opcode opcode = true → dispatch cfg opcode payload = dispatch_data cfg opcode payload.
Proof. intros [Hz Ha]%data_opcode_spec. unfold dispatch. apply N.eqb_neq in Hz as ->. by rewrite Ha. Qed.

Lemma requested_data opcode payload clean token inner epoch q :
  is_data_opcode opcode = true → unwrap_client opcode payload = Ok (clean, token) → decode_meta_epoch_payload clean = (inner, epoch) →
  decode_request opcode inner = Ok q → requested opcode payload = Some q.
Proof.
  intros Ho Hu He Hd. destruct (data_opcode_spec opcode Ho) as [Hz Ha]. unfold requested, receive_request.
  change HELLO_OPCODE with 0. apply N.eqb_neq in Hz as ->. rewrite Ha, Hu. cbn [mbind result_bind]. by rewrite He, Hd.
Qed.

Lemma dispatch_data_fine {A} `{SocketAddr A} (cfg : Config (A:=A)) token opcode payload clean :
  is_data_opcode opcode = true → unwrap_client opcode payload = Ok (clean, token) →
  always (data_allowed cfg token (requested opcode payload)) (λ _ _ _, True) (λ _, True) (dispatch_data cfg opcode payload).
Proof.
  intros Ho Hu. unfold dispatch_data. rewrite Hu. destruct (_ && _); [done|].
  destruct (decode_meta_epoch_payload clean) as [inner epoch] eqn:He.
  eapply (always_bind _ _ (λ _, True)); [walk; done|]. intros stale _. destruct stale; [done|].
  eapply (always_bind _ _ (λ _, True)); [walk; done|]. intros r _. destruct (_ || _); [|done].
  destruct (decode_request opcode inner) as [q|] eqn:Hq; [|done]. apply data_request_fine. by eapply requested_data.
Qed.


(** Without the right token nothing happens: when an operator token is configured, an
    administrative request that does not present it is refused before any call, and so is a
    request on data without the configured client token; a forwarded command is refused when
    data is protected but no operator token is configured. *)
Theorem dispatch_guarded {A} `{SocketAddr A} (cfg : Config (A:=A)) opcode payload clean presented :
  (is_admin_opcode opcode = true ∧ unwrap_admin opcode payload = Ok (clean, presented) ∧
     (is_Some (operator_token cfg) ∧ presented ≠ operator_token cfg ∨
      opcode = TXN_FORWARD_OPCODE ∧ operator_token cfg = None ∧ data_auth_configured cfg = true)) ∨
  (is_data_opcode opcode = true ∧ unwrap_client opcode payload = Ok (clean, presented) ∧
     is_Some (client_token cfg) ∧ presented ≠ client_token cfg) →
  ∃ msg auth, dispatch cfg opcode payload = Ret (mkOutcome STATUS_ERROR (Error (MText msg)) auth None).
Proof.
  intros [(Ha & Hu & Hc)|(Hd & Hu & Hs & Hp)].
  - unfold dispatch. rewrite Ha. replace (opcode =? 0) with false by (symmetry; apply N.eqb_neq; by intros ->).
    unfold dispatch_admin. rewrite Hu. destruct Hc as [[Hs Hp]|(-> & Hn & Hda)].
    + rewrite bool_decide_true, bool_decide_false by done. by do 2 eexists.
    + rewrite Hn, Hda. by do 2 eexists.
  - rewrite dispatch_of_data by done. unfold dispatch_data. rewrite Hu, Hd.
    rewrite bool_decide_true, bool_decide_false by done. by do 2 eexists.
Qed.

(** ** What an answer to a request on a key means *)

Section Keyed.
Context {A : Type} `{SocketAddr A}.

(** Every look at the range table sees the same one. *)
Definition table_is (t : StaticRangeTable) (B : Type) (c : Call A B) : B → Prop :=
  match c with CTable => λ b, b = t | _ => λ _, True end.

Lemma propose_done r gid command tr (reply : Reply) :
  runs (propose_and_wait (A:=A) r gid command) tr reply → reply.1 = STATUS_OK → Ev (CPropose gid command) WDone ∈ tr.
Proof.
  intros (tr1 & tr2 & lead & -> & _ & Hr)%runs_bind Hok. destruct (negb lead).
  { apply runs_bind in Hr as (? & ? & hint & _ & _ & [_ ->]%runs_Ret). done. }
  apply runs_bind in Hr as (? & tr3 & w & -> & ->%runs_ask & Hr). rewrite !elem_of_app. right. left.
  destruct w as [|e| |]; [left|..]; exfalso.
  - case_bool_decide; [|by apply runs_Ret in Hr as [_ ->]].
    apply runs_bind in Hr as (? & ? & hint & _ & _ & [_ ->]%runs_Ret). done.
  - by apply runs_Ret in Hr as [_ ->].
  - by apply runs_Ret in Hr as [_ ->].
Qed.

Lemma deny_key_status cfg key token auth out : deny_key (A:=A) cfg key token auth = Some out → o_status out = STATUS_ERROR.
Proof. unfold deny_key. destruct (_ && _); [by intros [= <-]|]. destruct (_ && _); [by intros [= <-]|done]. Qed.

(** The group is that of the table the handler looked at. *)
Lemma route_spec key tr d : runs (route_key (A:=A) key) tr d →
  match d with inl gid => ∃ t rest, tr = Ev CTable t :: rest ∧ gid = lookup_group t key | inr out => out.1 = STATUS_RANGE_MOVED end.
Proof.
  intros (t & tr1 & -> & Hr)%runs_run_of. cbn -[lookup_group range_moved_for_key] in Hr.
  destruct Hr as (h & tr2 & -> & Hr). destruct (negb _).
  - destruct Hr as (t' & tr3 & -> & -> & ->). unfold range_moved_for_key. destruct (lookup_range t' key); [done|]. by do 2 eexists.
  - destruct Hr as [-> ->]. by do 2 eexists.
Qed.

(** [e] comes in the run after a look at the table that showed [t]. *)
Definition after_look (t : StaticRangeTable) (e : Event (A:=A)) (tr : list (Event (A:=A))) : Prop :=
  ∃ before between after, tr = before ++ Ev CTable t :: between ++ e :: after.

Lemma after_look_here t e rest tr : e ∈ tr → after_look t e (Ev CTable t :: rest ++ tr).
Proof. intros (l1 & l2 & ->)%list_elem_of_split. exists [], (rest ++ l1), l2. by rewrite <-app_assoc. Qed.
Lemma after_look_later t e tr1 tr2 : after_look t e tr2 → after_look t e (tr1 ++ tr2).
Proof. intros (before & between & after & ->). exists (tr1 ++ before), between, after. by rewrite <-app_assoc. Qed.

Lemma write_done cfg r token key cmd tr out :
  runs (write_key (A:=A) cfg r token key cmd) tr out → o_status out = STATUS_OK →
  ∃ t, after_look t (Ev (CPropose (lookup_group t key) (cmd_encode cmd)) WDone) tr.
Proof.
  unfold write_key. destruct (deny_key _ _ _ _) eqn:Hd.
  { intros [_ ->]%runs_Ret Hok. rewrite (deny_key_status _ _ _ _ _ Hd) in Hok. done. }
  intros (tr1 & tr2 & d & -> & Hd1%route_spec & Hr)%runs_bind Hok.
  apply runs_bind in Hr as (tr3 & tr4 & reply & -> & Hr & [-> ->]%runs_Ret). rewrite app_nil_r.
  cbn [o_status with_auth] in Hok. destruct d as [gid|o].
  - destruct Hd1 as (t & rest & -> & ->). apply propose_done in Hr; [|done]. exists t. by apply after_look_here.
  - apply runs_Ret in Hr as [_ ->]. rewrite Hd1 in Hok. done.
Qed.

Lemma read_done cfg r token key read tr out :
  runs (read_key (A:=A) cfg r token key read) tr out →
  o_status out = STATUS_OK ∨ o_status out = STATUS_NOT_FOUND →
  ∃ t between id after reply, tr = Ev CTable t :: between ++ Ev (CRead (lookup_group t key) id) WDone :: after ∧
    runs read after reply ∧ out = with_auth (client_auth cfg) None reply.
Proof.
  unfold read_key. destruct (deny_key _ _ _ _) eqn:Hd.
  { intros [_ ->]%runs_Ret Hok. rewrite (deny_key_status _ _ _ _ _ Hd) in Hok. by destruct Hok. }
  intros (tr1 & tr2 & d & -> & Hd1%route_spec & Hr)%runs_bind Hok.
  apply runs_bind in Hr as (tr3 & tr4 & reply & -> & Hr & [-> ->]%runs_Ret). rewrite app_nil_r.
  cbn [o_status with_auth] in Hok. destruct d as [gid|o].
  2: { apply runs_Ret in Hr as [_ ->]. rewrite Hd1 in Hok. by destruct Hok. }
  destruct Hd1 as (t & rest & -> & ->). apply runs_bind in Hr as (? & tr5 & id & -> & ->%runs_ask & Hr).
  apply runs_bind in Hr as (tr6 & tr7 & err & -> & He & Hr). destruct err as [e|].
  { case_bool_decide.
    - apply runs_bind in Hr as (? & ? & hint & _ & _ & [_ ->]%runs_Ret). by destruct Hok.
    - apply runs_Ret in Hr as [_ ->]. by destruct Hok. }
  unfold propose_read_and_wait in He. apply runs_bind in He as (tr8 & tr9 & lead & -> & _ & He).
  destruct (negb lead); [by apply runs_Ret in He as [_ He]|].
  apply runs_bind in He as (? & ? & w & -> & ->%runs_ask & [-> Hw]%runs_Ret). destruct w; try done.
  exists t, (rest ++ [Ev CReadId id] ++ tr8), id, tr7, reply. split_and!; [|done|done]. cbn [app]. by rewrite <- !app_assoc.
Qed.

(** The end of a read: the engine's answer, as the body says it. *)
Lemma get_done key tr (reply : Reply) :
  runs (get_reply (A:=A) key) tr reply → reply.1 = STATUS_OK ∨ reply.1 = STATUS_NOT_FOUND →
  ∃ v, tr = [Ev (CGet key) (Ok v)] ∧ reply = value_reply v.
Proof.
  intros (? & ? & v & -> & ->%runs_ask & [-> ->]%runs_Ret)%runs_bind. destruct v as [v|e]; [by eauto|]. by intros [].
Qed.
Lemma scan_done pre tr (reply : Reply) :
  runs (scan_reply (A:=A) pre) tr reply → reply.1 = STATUS_OK ∨ reply.1 = STATUS_NOT_FOUND →
  ∃ kvs, tr = [Ev (CScan pre) (Ok kvs)] ∧ reply = (STATUS_OK, Raw (encode_scan_response kvs)).
Proof.
  intros (? & ? & v & -> & ->%runs_ask & [-> ->]%runs_Ret)%runs_bind. destruct v as [v|e]; [by eauto|].
  intros Hs. exfalso. destruct e; by destruct Hs.
Qed.
End Keyed.

Section Answers.
Context {A : Type} `{SocketAddr A}.
Implicit Types (tr : list (Event (A:=A))) (out : DispatchOutcome).

(** The success on which a commit of the writes [ms] is acknowledged, under the table [t]: of the
    one command when they all belong to one group, otherwise of the transaction over groups. *)
Definition commit_success (txn_id : N) (ms : list Mutation) (t : StaticRangeTable) : Event (A:=A) :=
  let by_group := partition_mutations t ms in
  if (1 <? length by_group)%nat then Ev (CCross txn_id by_group) (Ok tt)
  else let '(gid, ms) := default (0, []) (head by_group) in Ev (CPropose gid (cmd_encode (CTxnCommit txn_id ms))) WDone.

(** What a successful answer to the request says about the run. *)
Definition answered_by (req : Request) tr out : Prop :=
  match req with
  | RPut key value => o_status out = STATUS_OK → ∃ t, after_look t (Ev (CPropose (lookup_group t key) (cmd_encode (CPut key value))) WDone) tr
  | RDelete key => o_status out = STATUS_OK → ∃ t, after_look t (Ev (CPropose (lookup_group t key) (cmd_encode (CDelete key))) WDone) tr
  | RGet key =>
      o_status out = STATUS_OK ∨ o_status out = STATUS_NOT_FOUND →
      ∃ before t between id v, tr = before ++ Ev CTable t :: between ++ [Ev (CRead (lookup_group t key) id) WDone; Ev (CGet key) (Ok v)] ∧
        (o_status out, o_body out) = value_reply v
  | RScan pre =>
      o_status out = STATUS_OK →
      ∃ before t between id kvs, tr = before ++ Ev CTable t :: between ++ [Ev (CRead (lookup_group t pre) id) WDone; Ev (CScan pre) (Ok kvs)] ∧
        o_body out = Raw (encode_scan_response kvs)
  | RTxnCommit txn_id => o_status out = STATUS_OK → ∃ ms t, Ev (CTxnTake txn_id) (Ok ms) ∈ tr ∧ after_look t (commit_success txn_id ms t) tr
  | RSplitRange key => o_status out = STATUS_OK →
      ∃ t lower upper g next, split_at key t = Ok (lower, upper, g, next) ∧
        after_look t (Ev (CPropose 0 (encode_range_meta_command (meta_epoch t) next)) WDone) tr
  | RMergeRange key => o_status out = STATUS_OK →
      ∃ t merged next, merge_with_next key t = Ok (merged, next) ∧
        after_look t (Ev (CPropose 0 (encode_range_meta_command (meta_epoch t) next)) WDone) tr
  | _ => True
  end.

Lemma answered_refused req tr out : o_status out ≠ STATUS_OK → o_status out ≠ STATUS_NOT_FOUND → answered_by req tr out.
Proof. destruct req; cbn [answered_by]; try done; tauto. Qed.

Lemma answered_after req tr1 tr2 out : answered_by req tr2 out → answered_by req (tr1 ++ tr2) out.
Proof.
  destruct req; cbn [answered_by]; try done; intros Ha Hs; specialize (Ha Hs).
  - destruct Ha as [t Ht]. exists t. by apply after_look_later.
  - destruct Ha as (before & t & between & id & v & -> & ?). exists (tr1 ++ before), t, between, id, v. split; [by rewrite <- app_assoc|done].
  - destruct Ha as [t Ht]. exists t. by apply after_look_later.
  - destruct Ha as (before & t & between & id & v & -> & ?). exists (tr1 ++ before), t, between, id, v. split; [by rewrite <- app_assoc|done].
  - destruct Ha as (ms & t & Hm & Ht). exists ms, t. split; [apply elem_of_app; by right|by apply after_look_later].
  - destruct Ha as (t & l & u & g & n & Hm & Ht). exists t, l, u, g, n. split; [done|by apply after_look_later].
  - destruct Ha as (t & m & n & Hm & Ht). exists t, m, n. split; [done|by apply after_look_later].
Qed.

Lemma leads_runs gid tr b : runs (leads (A:=A) gid) tr b → ∃ h, tr = [Ev CHost h].
Proof. intros (? & ? & h & -> & ->%runs_ask & [-> _]%runs_Ret)%runs_bind. by exists h. Qed.
Lemma not_leader_runs r tr (reply : Reply) : runs (not_leader (A:=A) r) tr reply → reply.1 = STATUS_NOT_LEADER.
Proof. by intros (? & ? & hint & _ & _ & [_ ->]%runs_Ret)%runs_bind. Qed.
Lemma deny_token_status (cfg : Config (A:=A)) token auth len out : deny_token cfg token auth len = Some out → o_status out = STATUS_ERROR.
Proof. unfold deny_token. destruct (_ && _); [by intros [= <-]|]. destruct (_ && _); [by intros [= <-]|done]. Qed.

Lemma commit_done r txn_id tr (reply : Reply) : runs (txn_commit_via_raft (A:=A) r txn_id) tr reply → reply.1 = STATUS_OK →
  ∃ ms t, Ev (CTxnTake txn_id) (Ok ms) ∈ tr ∧ after_look t (commit_success txn_id ms t) tr.
Proof.
  intros (tr1 & tr2 & lead & -> & _ & Hr)%runs_bind Hok. destruct (negb lead).
  { apply not_leader_runs in Hr. by rewrite Hr in Hok. }
  apply runs_bind in Hr as (? & tr3 & taken & -> & ->%runs_ask & Hr). destruct taken as [ms|e].
  2: { apply runs_Ret in Hr as [_ ->]. unfold map_txn_err, argument_error, engine_error in Hok. by destruct e. }
  apply runs_bind in Hr as (? & tr4 & t & -> & ->%runs_ask & Hr). exists ms, t.
  split; [rewrite !elem_of_app; right; left; left|]. apply after_look_later, after_look_later. cbn [app].
  apply (after_look_here t _ []). unfold commit_success. cbv zeta in Hr |- *. destruct (1 <? _)%nat.
  - apply runs_bind in Hr as (? & tr5 & res & -> & ->%runs_ask & Hr). apply elem_of_app. left. destruct res as [[]|e]; [left|exfalso].
    destruct e; try (by apply runs_Ret in Hr as [_ ->]). case_bool_decide; [apply not_leader_runs in Hr; by rewrite Hr in Hok|by apply runs_Ret in Hr as [_ ->]].
  - destruct (default (0, []) _) as [gid ms']. apply runs_bind in Hr as (tr5 & tr6 & [status body] & -> & Hp & Hr). apply elem_of_app. left.
    eapply propose_done; [exact Hp|]. cbn. destruct (N.eqb_spec status STATUS_OK); [done|]. cbn [negb] in Hr. apply runs_Ret in Hr as [_ ->]. done.
Qed.

Lemma commit_table_done r cmd epoch wire tr (reply : Reply) : runs (commit_table (A:=A) r cmd epoch wire) tr reply → reply.1 = STATUS_OK →
  Ev (CPropose 0 cmd) WDone ∈ tr.
Proof.
  intros (tr1 & tr2 & [status body] & -> & Hp & [-> ->]%runs_Ret)%runs_bind Hok. apply elem_of_app. left.
  eapply propose_done; [exact Hp|]. cbn. destruct (N.eqb_spec status STATUS_OK); [done|]. by cbn [negb] in Hok.
Qed.

Lemma split_done cfg r token key tr out : runs (handle_split (A:=A) cfg r token key) tr out → o_status out = STATUS_OK →
  ∃ t lower upper g next, split_at key t = Ok (lower, upper, g, next) ∧
    after_look t (Ev (CPropose 0 (encode_range_meta_command (meta_epoch t) next)) WDone) tr.
Proof.
  unfold handle_split. destruct (deny_token _ _ _ _) eqn:Hd.
  { intros [_ ->]%runs_Ret Hok. rewrite (deny_token_status _ _ _ _ _ Hd) in Hok. done. }
  destruct (drain cfg); [by intros [_ ->]%runs_Ret|]. intros (tr1 & tr2 & lead & -> & _ & Hr)%runs_bind Hok. destruct (negb lead).
  { apply runs_fmap in Hr as (reply & Hr & ->). apply not_leader_runs in Hr. cbn in Hok. by rewrite Hr in Hok. }
  apply runs_bind in Hr as (? & tr3 & t & -> & ->%runs_ask & Hr). destruct (split_at key t) as [[[[lower upper] g] next]|e] eqn:Es.
  2: by apply runs_Ret in Hr as [_ ->].
  apply runs_bind in Hr as (? & tr4 & hosted & -> & ->%runs_ask & Hr). destruct hosted as [u|e]; [|by apply runs_Ret in Hr as [_ ->]].
  apply runs_fmap in Hr as (reply & Hr & ->). exists t, lower, upper, g, next. split; [done|]. apply after_look_later. cbn [app].
  apply (after_look_here t _ [_]). by eapply commit_table_done.
Qed.

Lemma merge_done cfg r token key tr out : runs (handle_merge (A:=A) cfg r token key) tr out → o_status out = STATUS_OK →
  ∃ t merged next, merge_with_next key t = Ok (merged, next) ∧
    after_look t (Ev (CPropose 0 (encode_range_meta_command (meta_epoch t) next)) WDone) tr.
Proof.
  unfold handle_merge. destruct (deny_token _ _ _ _) eqn:Hd.
  { intros [_ ->]%runs_Ret Hok. rewrite (deny_token_status _ _ _ _ _ Hd) in Hok. done. }
  intros (tr1 & tr2 & lead & -> & _ & Hr)%runs_bind Hok. destruct (negb lead).
  { apply runs_fmap in Hr as (reply & Hr & ->). apply not_leader_runs in Hr. cbn in Hok. by rewrite Hr in Hok. }
  apply runs_bind in Hr as (? & tr3 & t & -> & ->%runs_ask & Hr). destruct (merge_with_next key t) as [[merged next]|e] eqn:Es.
  2: by apply runs_Ret in Hr as [_ ->].
  apply runs_fmap in Hr as (reply & Hr & ->). exists t, merged, next. split; [done|]. apply after_look_later. cbn [app].
  apply (after_look_here t _ []). by eapply commit_table_done.
Qed.

Lemma data_request_answers (cfg : Config (A:=A)) r token req tr out : runs (data_request cfg r token req) tr out → answered_by req tr out.
Proof.
  destruct req; open_handler; cbn [answered_by]; try done; intros Hr Hs.
  - by eapply write_done.
  - destruct (read_done _ _ _ _ _ _ _ Hr Hs) as (t & between & id & after & reply & -> & Hg & ->).
    apply get_done in Hg as (v & -> & ->); [|done]. exists [], t, between, id, v. split; [done|]. by destruct v.
  - by eapply write_done.
  - destruct (read_done _ _ _ _ _ _ _ Hr (or_introl Hs)) as (t & between & id & after & reply & -> & Hg & ->).
    apply scan_done in Hg as (kvs & -> & ->); [|by left]. by exists [], t, between, id, kvs.
  - unfold for_token in Hr. destruct (deny_token _ _ _ _) eqn:Hd.
    { apply runs_Ret in Hr as [_ ->]. rewrite (deny_token_status _ _ _ _ _ Hd) in Hs. done. }
    apply runs_fmap in Hr as (reply & Hr & ->). by eapply commit_done.
  - by eapply split_done.
  - by eapply merge_done.
Qed.
End Answers.

(** C20: A successful answer is earned. In every run, whatever the answers of the locks, the Raft loop
    and the engine: a write is acknowledged only when the Raft loop has reported its command
    committed and applied in the group that owned the key in the range table the handler had
    looked at; a read is answered with what the engine said right after the leadership of that
    group was confirmed for it (for a scan, the group of the prefix itself); the commit of a
    transaction is acknowledged only when its one group has applied the writes that were taken
    from it, or the protocol over groups has succeeded; a split or a merge only when group 0 has
    applied the table computed from the one looked at. (That the range moves between the look
    and the proposal is not excluded. Reads inside a transaction and the other requests on data
    are not described.) *)
Theorem dispatch_answers {A} `{SocketAddr A} (cfg : Config (A:=A)) opcode payload req token epoch tr out :
  is_data_opcode opcode = true → receive_request opcode payload = Ok (req, token, epoch) →
  runs (dispatch cfg opcode payload) tr out → answered_by req tr out.
Proof.
  intros Hd Hq Hr. rewrite dispatch_of_data in Hr by done. destruct (data_opcode_spec opcode Hd) as [Hz Ha].
  unfold receive_request in Hq. change HELLO_OPCODE with 0 in Hq. apply N.eqb_neq in Hz. rewrite Hz, Ha in Hq.
  unfold dispatch_data in Hr. destruct (unwrap_client opcode payload) as [[clean tok]|] eqn:Hu; [|done].
  cbn [mbind result_bind] in Hq. destruct (decode_meta_epoch_payload clean) as [inner ep].
  destruct (decode_request opcode inner) as [req'|] eqn:Hreq; [|done]. cbn [mbind result_bind] in Hq. injection Hq as -> -> ->.
  destruct (_ && _); [apply runs_Ret in Hr as [_ ->]; by apply answered_refused|].
  apply runs_bind in Hr as (tr1 & tr2 & stale & -> & Hst & Hr). apply answered_after.
  destruct stale as [[st b]|].
  - apply runs_Ret in Hr as [_ ->]. destruct epoch as [e|]; [|by apply runs_Ret in Hst as [_ ?]].
    destruct (in_range 1 4 opcode); [|by apply runs_Ret in Hst as [_ ?]].
    apply runs_bind in Hst as (? & ? & t' & _ & _ & [_ E]%runs_Ret).
    destruct (e <? meta_epoch t'); [|done]. injection E as -> ->. by apply answered_refused.
  - apply runs_bind in Hr as (tr3 & tr4 & r & -> & _ & Hr). apply answered_after.
    rewrite Hd in Hr. cbn [orb] in Hr. by eapply data_request_answers.
Qed.

(** A request on data whose epoch is older than the range table is answered with the whole
    table and does nothing else: no look at the engine, no proposal. *)
Theorem dispatch_stale_epoch {A} `{SocketAddr A} (cfg : Config (A:=A)) opcode payload clean token inner e t tr out :
  in_range 1 4 opcode = true → unwrap_client opcode payload = Ok (clean, token) →
  client_token cfg = None ∨ token = client_token cfg →
  decode_meta_epoch_payload clean = (inner, Some e) → e < meta_epoch t →
  runs (dispatch cfg opcode payload) tr out → Forall (event_ok (table_is t)) tr →
  tr = [Ev CTable t] ∧ out = mkOutcome STATUS_RANGE_MOVED (Raw (encode_list_ranges_from_table t)) (client_auth cfg) None.
Proof.
  intros Ho Hu Hc He Hlt Hr Ht. assert (is_data_opcode opcode = true) as Hd by (unfold is_data_opcode; by rewrite Ho).
  rewrite dispatch_of_data in Hr by done. unfold dispatch_data in Hr. rewrite Hu, Hd in Hr.
  assert (bool_decide (is_Some (client_token cfg)) && negb (bool_decide (token = client_token cfg)) = false) as E.
  { destruct Hc as [->| ->]; [done|]. rewrite (bool_decide_true (client_token cfg = client_token cfg)) by done. apply andb_false_r. }
  cbn [andb] in Hr. rewrite E, He, Ho in Hr.
  apply runs_run_of in Hr as (t' & tr' & -> & Hr). apply Forall_cons in Ht as [-> Ht].
  apply N.ltb_lt in Hlt. cbn [prog_mbind prog_bind] in Hr. rewrite Hlt in Hr. by destruct Hr as [-> ->].
Qed.

(** ** A server with fixed answers *)

Section Fixed.
Context {A : Type} `{SocketAddr A} (h : MultiRaftHost) (t : StaticRangeTable).

(** What its locks, its empty engine and its Raft loop answer. *)
Definition fixed {B} (c : Call A B) : B :=
  match c in Call _ B return B with
  | CHost => h
  | CTransfer gid _ => Err (GroupNotHosted gid)
  | CChange _ => (None, [])
  | CSend _ => tt
  | CTable => t
  | CRoster => ∅
  | CUpsert _ _ _ => tt
  | CEnsureHosted _ => Err "no disk"
  | CPropose _ _ => WDone
  | CReadId => 0
  | CRead _ _ => WDone
  | CForward _ _ => Err "no route"
  | CCross _ _ => Err TooFewGroups
  | CGet _ => Ok None
  | CScan _ => Ok []
  | CTxnBegin => (1, 0)
  | CTxnGet _ _ => Ok None
  | CTxnPut _ _ _ => Ok tt
  | CTxnDelete _ _ => Ok tt
  | CTxnTake _ => Ok []
  | CTxnRollback _ => Ok tt
  | CCdcPoll _ _ _ => Ok (Ok [])
  | CCdcCheckpoint _ => Ok tt
  | CLastSequence => 0
  | CEngineStats => []
  end.

Fixpoint fixed_run {X} (p : prog A X) : X := match p with Ret x => x | Do c k => fixed_run (k (fixed c)) end.

Lemma fixed_runs {X} (p : prog A X) : ∃ tr, runs p tr (fixed_run p) ∧ Forall (event_ok (table_is t)) tr.
Proof.
  induction p as [x|B c k IH]; cbn [fixed_run].
  - exists []. split; constructor.
  - destruct (IH (fixed c)) as (tr & Hr & Ht). exists (Ev c (fixed c) :: tr). split; [by constructor|]. constructor; [|done].
    by destruct c.
Qed.
End Fixed.

Definition demo_config : Config (A:=bool) := mkConfig None None None None false 1 true false.
Definition demo_table : StaticRangeTable := mkTable [mkRange [] [109] 0 1 2; mkRange [109] [] 1 2 1] 2 3 2.
Definition demo_leader : MultiRaftHost := {[ 0 := set_role Leader (node_new (mkRaftConfig 1 [] 10 2)) ]}.


(** A server with two tenants and an operator. *)
Definition tenant_config : Config (A:=bool) :=
  mkConfig (Some (str "op")) None None match tenants_from_value demo_tenants with Ok ta => Some ta | Err _ => None end false 1 true false.


Lemma dispatch_guarded_witness :
  ∃ msg auth, dispatch tenant_config 8 (encode_remove_member_payload 3) = Ret (mkOutcome STATUS_ERROR (Error (MText msg)) auth None).
Proof.
  apply (dispatch_guarded tenant_config 8 (encode_remove_member_payload 3) (encode_remove_member_payload 3) None).
  left. split_and!; [done|by vm_compute|]. left. split; [by eexists|done].
Defined.

Lemma dispatch_answers_witness :
  let payload := client_payload None None None (RPut [107] [1]) in
  ∃ tr, runs (dispatch demo_config 1 payload) tr (fixed_run demo_leader demo_table (dispatch demo_config 1 payload)) ∧
    ∃ t, after_look t (Ev (CPropose (lookup_group t [107]) (cmd_encode (CPut [107] [1]))) WDone) tr.
Proof.
  intros payload. destruct (fixed_runs demo_leader demo_table (dispatch demo_config 1 payload)) as (tr & Hr & _).
  exists tr. split; [exact Hr|].
  refine (dispatch_answers demo_config 1 payload (RPut [107] [1]) None None tr _ _ _ Hr _); by vm_compute.
Defined.

Lemma dispatch_stale_epoch_witness :
  let payload := client_payload None None (Some 1) (RPut [107] [1]) in
  ∃ tr, tr = [Ev CTable demo_table] ∧ runs (dispatch demo_config 1 payload) tr
    (mkOutcome STATUS_RANGE_MOVED (Raw (encode_list_ranges_from_table demo_table)) "none" None).
Proof.
  intros payload. destruct (fixed_runs demo_leader demo_table (dispatch demo_config 1 payload)) as (tr & Hr & Ht).
  destruct (dispatch_stale_epoch demo_config 1 payload (encode_meta_epoch_payload (request_payload (RPut [107] [1])) 1) None
    (request_payload (RPut [107] [1])) 1 demo_table tr (fixed_run demo_leader demo_table (dispatch demo_config 1 payload)) eq_refl) as [Htr Hout]; [by vm_compute|by left|by vm_compute|done|exact Hr|exact Ht|].
  exists tr. split; [exact Htr|]. rewrite Hout in Hr. exact Hr.
Defined.
