(* ===== verification/SnapPayload.v ===== *)
(** The payload of a Raft snapshot, [kaya-raft/src/lib.rs]: engine data, members and range table. *)
From stdpp Require Import list.
From S2P Require Import Prelude Bytes Core Path Cdc RaftConfig RaftCommand.

Open Scope N_scope.

Inductive SnapshotFault : Type := BadEngineLen | TruncatedEngine | TruncatedMemberId | MissingLearnerFlag | BadLen | TruncatedText | NotText | TruncatedTable.

Definition push_len_prefixed (b : bytes) : bytes := le_bytes 4 (wrap u32_lim (lenN b)) ++ b.
Definition push_snapshot_member (m : ClusterMember) : bytes :=
  le_bytes 8 (m_id m) ++ push_len_prefixed (raft_addr m) ++ push_len_prefixed (client_addr m) ++ [if is_learner m then 1 else 0].

Definition build_snapshot_payload_v2 (engine_data : bytes) (members : list ClusterMember) (range_table : bytes) : bytes :=
  le_bytes 4 2 ++ push_len_prefixed engine_data ++ le_bytes 4 (wrap u32_lim (lenN members)) ++ (members ≫= push_snapshot_member) ++
  push_len_prefixed range_table.
Definition build_snapshot_payload (engine_data : bytes) (members : list ClusterMember) : bytes := build_snapshot_payload_v2 engine_data members [].

Definition take_len_prefixed : parser SnapshotFault bytes :=
  l ← p_le BadLen 4;
  s ← p_bytes TruncatedText l;
  if utf8_valid s then mret s else perr NotText.

Definition take_snapshot_member (with_learner_flag : bool) : parser SnapshotFault ClusterMember :=
  id ← p_le TruncatedMemberId 8;
  raft ← take_len_prefixed;
  client ← take_len_prefixed;
  learner ← if with_learner_flag then flag ← p_le MissingLearnerFlag 1; mret (negb (flag =? 0)) else mret false;
  mret (mkMember id raft client learner).

Definition decode_snapshot_members (mcnt : N) (with_learner_flag : bool) : parser SnapshotFault (list ClusterMember) :=
  prepeat (N.to_nat mcnt) (take_snapshot_member with_learner_flag).

(** Members with the learner flag, without it when that does not parse, or none at all. *)
Definition snapshot_members (mcnt : N) (cur : bytes) : list ClusterMember * bytes :=
  match decode_snapshot_members mcnt true cur with
  | Ok mr => mr
  | Err _ => match decode_snapshot_members mcnt false cur with Ok mr => mr | Err _ => ([], cur) end
  end.

Definition CombinedSnapshot : Type := bytes * list ClusterMember * bytes.

Definition parse_snapshot_payload_v2 (data : bytes) : result SnapshotFault CombinedSnapshot :=
  match p_le BadLen 4 data with
  | Err _ => Ok (data, [], [])
  | Ok (ver, cur) =>
      if negb ((ver =? 1) || (ver =? 2)) then Ok (data, [], [])
      else
        '(elen, cur) ← p_le BadEngineLen 4 cur;
        '(engine, cur) ← p_bytes TruncatedEngine elen cur;
        match p_le BadLen 4 cur with
        | Err _ => Ok (engine, [], [])
        | Ok (mcnt, cur) =>
            let '(members, rest) := snapshot_members mcnt cur in
            if ver =? 1 then Ok (engine, members, [])
            else match p_le BadLen 4 rest with
                 | Err _ => Ok (engine, members, [])
                 | Ok (rlen, rest) => '(table, _) ← p_bytes TruncatedTable rlen rest; Ok (engine, members, table)
                 end
        end
  end.

Definition parse_snapshot_payload (data : bytes) : result SnapshotFault (bytes * list ClusterMember) :=
  '(engine, members, _) ← parse_snapshot_payload_v2 data; Ok (engine, members).

(** ** Round trip *)

Definition prefixed_text (b : bytes) : Prop := lenN b < u32_lim ∧ utf8_valid b = true.
Definition snapshot_member_ok (m : ClusterMember) : Prop := m_id m < u64_lim ∧ prefixed_text (raft_addr m) ∧ prefixed_text (client_addr m).

Lemma parses_len_prefixed b : prefixed_text b → parses take_len_prefixed b (push_len_prefixed b).
Proof.
  intros [Hl Hu]. unfold take_len_prefixed, push_len_prefixed. rewrite wrap_small by done.
  eapply parses_bind; [reflexivity|by apply parses_le|]. eapply parses_bind_tail; [by apply parses_bytes|]. rewrite Hu. apply parses_ret.
Qed.

Lemma parses_snapshot_member m : snapshot_member_ok m → parses (take_snapshot_member true) m (push_snapshot_member m).
Proof.
  destruct m as [id r c l]. intros (Hi & Hr & Hc). unfold take_snapshot_member, push_snapshot_member. cbn [m_id raft_addr client_addr is_learner] in *.
  eapply parses_bind; [reflexivity|by apply parses_le|]. eapply parses_bind; [reflexivity|by apply parses_len_prefixed|].
  eapply parses_bind; [reflexivity|by apply parses_len_prefixed|]. eapply parses_bind_tail; [|apply parses_ret].
  eapply parses_bind_tail; [|].
  - replace [if l then 1 else 0] with (le_bytes 1 (if l then 1 else 0)) by (by destruct l). by apply parses_le; destruct l.
  - destruct l; apply parses_ret.
Qed.

(** What a leader packs into a snapshot is what the receiver unpacks: the engine's data, the
    members with their addresses and learner flags, and the range table. *)
Theorem snapshot_payload_roundtrip engine members table :
  lenN engine < u32_lim → lenN members < u32_lim → lenN table < u32_lim → Forall snapshot_member_ok members →
  parse_snapshot_payload_v2 (build_snapshot_payload_v2 engine members table) = Ok (engine, members, table).
Proof.
  intros He Hm Ht Hok. unfold parse_snapshot_payload_v2, build_snapshot_payload_v2, push_len_prefixed.
  rewrite !wrap_small by done. rewrite <- !app_assoc.
  rewrite (parses_le BadLen 4 2) by done. cbn [N.eqb Pos.eqb orb negb].
  rewrite (parses_le BadEngineLen 4) by done. cbn [mbind result_bind].
  rewrite (parses_bytes TruncatedEngine engine) by done. cbn [mbind result_bind].
  rewrite (parses_le BadLen 4 (lenN members)) by done. unfold snapshot_members, decode_snapshot_members. rewrite lenN_to_nat.
  rewrite (parses_prepeat (take_snapshot_member true) push_snapshot_member members)
    by (eapply Forall_impl; [exact Hok|apply parses_snapshot_member]).
  rewrite (parses_le BadLen 4 (lenN table)) by done. rewrite <- (app_nil_r table) at 2.
  rewrite (parses_bytes TruncatedTable table) by done. done.
Qed.

Lemma snapshot_payload_roundtrip_witness :
  parse_snapshot_payload_v2 (build_snapshot_payload_v2 [7; 8] [mkMember 3 (str "r") (str "c") true] [1; 2; 3]) =
    Ok ([7; 8], [mkMember 3 (str "r") (str "c") true], [1; 2; 3]).
Proof. apply (snapshot_payload_roundtrip [7; 8] [mkMember 3 (str "r") (str "c") true] [1; 2; 3]); [done..|]. by repeat constructor. Defined.

(** A payload from before the versions is engine data, which starts with the number of tables:
    with one or two tables it is taken for a versioned payload, and its engine data is lost. *)
Theorem snapshot_legacy_misread tables :
  parse_snapshot_payload_v2 (le_bytes 4 1 ++ le_bytes 4 0 ++ tables) ≠ Ok (le_bytes 4 1 ++ le_bytes 4 0 ++ tables, [], []) ∧
  parse_snapshot_payload_v2 (le_bytes 4 3 ++ le_bytes 4 0 ++ tables) = Ok (le_bytes 4 3 ++ le_bytes 4 0 ++ tables, [], []).
Proof.
  split.
  - unfold parse_snapshot_payload_v2. rewrite (parses_le BadLen 4 1) by done. cbn [N.eqb Pos.eqb orb negb].
    rewrite (parses_le BadEngineLen 4 0) by done. cbn [mbind result_bind].
    change tables with ([] ++ tables) at 1. rewrite (parses_bytes TruncatedEngine []) by done. cbn [mbind result_bind].
    destruct (p_le BadLen 4 tables) as [[mcnt cur]|]; [|done]. by destruct (snapshot_members mcnt cur).
  - unfold parse_snapshot_payload_v2. by rewrite (parses_le BadLen 4 3) by done.
Qed.
