(* ===== verification/Server.v ===== *)
(** A server process behind its request handlers: the Raft event loop ([election.rs]), the
    application of committed entries ([replication.rs]) and snapshots ([snapshot.rs]). *)
From stdpp Require Import gmap strings.
From S2P Require Import Prelude Bytes Core Hlc OrdMap Path Disk WalCodec WalWriter InternalKey SstBlock Memtable Manifest Compaction Engine EngineStore EngineSnapshot Index Cdc Node Txn Txn2pc RaftConfig RaftCommand RaftLog RaftStorage RaftNode MultiRaft Ranges NetCodec Roster TxnCoord SnapPayload ClientOps.

Open Scope N_scope.

(** One record of the correlation log: [RaftApplyCommand]. *)
Record ApplyRecord := mkApplyRecord { ap_term : N; ap_index : N; ap_lsn : option N }.

(** [RaftApplyIndex]: the lines of the file and the indices seen. *)
Record ApplyIndex := mkApplyIndex { ai_lines : list ApplyRecord; ai_seen : gset N }.
Definition apply_index_open (lines : list ApplyRecord) : ApplyIndex := mkApplyIndex lines (list_to_set (ap_index <$> lines)).
(** An index counts as seen even when the write of its line fails. *)
Definition apply_index_append (written : bool) (r : ApplyRecord) (a : ApplyIndex) : ApplyIndex :=
  if bool_decide (ap_index r ∈ ai_seen a) then a
  else mkApplyIndex (if written then ai_lines a ++ [r] else ai_lines a) ({[ ap_index r ]} ∪ ai_seen a).
Definition apply_index_lookup (index : N) (a : ApplyIndex) : option ApplyRecord := snd <$> list_find (λ r, ap_index r = index) (ai_lines a).

(** The directory of a Raft group. *)
Record GroupDir := mkGroupDir { gd_raft : RaftDir; gd_apply : list ApplyRecord }.
Definition empty_dir : GroupDir := mkGroupDir (mkRaftDir None None) [].

Section Server.
Context {T : Type} `{SstFormat T} (env : N → N * N * N).
Context {A : Type} `{SocketAddr A}.

Record Process := mkProcess {
  p_host : MultiRaftHost;
  p_node : Node (T:=T);
  p_roster : gmap N (RosterEntry (A:=A));
  p_table : StaticRangeTable;
  (** The identifier of the next read. *)
  p_next_read : N;
  (** The requests that wait, by group and log index, and by read. *)
  p_pending : gmap (N * N) N;
  p_pending_reads : gmap N N;
  (** The answers the requests were given, the latest first. *)
  p_replies : list (N * Wait);
  (** The groups led at the end of the last event. *)
  p_leaders : gset N;
  p_persisters : gmap N RaftPersister;
  p_apply : gmap N ApplyIndex;
  (** The files: a directory per group, the range table, the snapshot. *)
  p_dirs : gmap N GroupDir;
  p_table_file : option bytes;
  p_snapshot_file : option bytes;
  p_reclaimed : N;
  (** Messages handed to the network, the latest last. *)
  p_sent : list Envelope;
  (** The outcomes of the file-system operations to come; all succeed after the last. *)
  p_fs : list bool;
  (** The loop waits for the engine for ever. *)
  p_blocked : bool;
  (** The file of the roster. *)
  p_roster_file : option bytes
}.

(** Field updates. *)
Definition set_host v (s : Process) : Process :=
  let '(mkProcess _ b c d e f g h i j k l m n o p q r y) := s in mkProcess v b c d e f g h i j k l m n o p q r y.
Definition set_node v (s : Process) : Process :=
  let '(mkProcess a _ c d e f g h i j k l m n o p q r y) := s in mkProcess a v c d e f g h i j k l m n o p q r y.
Definition set_roster v (s : Process) : Process :=
  let '(mkProcess a b _ d e f g h i j k l m n o p q r y) := s in mkProcess a b v d e f g h i j k l m n o p q r y.
Definition set_table v (s : Process) : Process :=
  let '(mkProcess a b c _ e f g h i j k l m n o p q r y) := s in mkProcess a b c v e f g h i j k l m n o p q r y.
Definition set_next_read v (s : Process) : Process :=
  let '(mkProcess a b c d _ f g h i j k l m n o p q r y) := s in mkProcess a b c d v f g h i j k l m n o p q r y.
Definition set_pending v (s : Process) : Process :=
  let '(mkProcess a b c d e _ g h i j k l m n o p q r y) := s in mkProcess a b c d e v g h i j k l m n o p q r y.
Definition set_pending_reads v (s : Process) : Process :=
  let '(mkProcess a b c d e f _ h i j k l m n o p q r y) := s in mkProcess a b c d e f v h i j k l m n o p q r y.
Definition set_replies v (s : Process) : Process :=
  let '(mkProcess a b c d e f g _ i j k l m n o p q r y) := s in mkProcess a b c d e f g v i j k l m n o p q r y.
Definition set_leaders v (s : Process) : Process :=
  let '(mkProcess a b c d e f g h _ j k l m n o p q r y) := s in mkProcess a b c d e f g h v j k l m n o p q r y.
Definition set_persisters v (s : Process) : Process :=
  let '(mkProcess a b c d e f g h i _ k l m n o p q r y) := s in mkProcess a b c d e f g h i v k l m n o p q r y.
Definition set_apply v (s : Process) : Process :=
  let '(mkProcess a b c d e f g h i j _ l m n o p q r y) := s in mkProcess a b c d e f g h i j v l m n o p q r y.
Definition set_dirs v (s : Process) : Process :=
  let '(mkProcess a b c d e f g h i j k _ m n o p q r y) := s in mkProcess a b c d e f g h i j k v m n o p q r y.
Definition set_table_file v (s : Process) : Process :=
  let '(mkProcess a b c d e f g h i j k l _ n o p q r y) := s in mkProcess a b c d e f g h i j k l v n o p q r y.
Definition set_snapshot_file v (s : Process) : Process :=
  let '(mkProcess a b c d e f g h i j k l m _ o p q r y) := s in mkProcess a b c d e f g h i j k l m v o p q r y.
Definition set_reclaimed v (s : Process) : Process :=
  let '(mkProcess a b c d e f g h i j k l m n _ p q r y) := s in mkProcess a b c d e f g h i j k l m n v p q r y.
Definition set_sent v (s : Process) : Process :=
  let '(mkProcess a b c d e f g h i j k l m n o _ q r y) := s in mkProcess a b c d e f g h i j k l m n o v q r y.
Definition set_fs v (s : Process) : Process :=
  let '(mkProcess a b c d e f g h i j k l m n o p _ r y) := s in mkProcess a b c d e f g h i j k l m n o p v r y.
Definition set_blocked v (s : Process) : Process :=
  let '(mkProcess a b c d e f g h i j k l m n o p q _ y) := s in mkProcess a b c d e f g h i j k l m n o p q v y.
Definition set_roster_file v (s : Process) : Process :=
  let '(mkProcess a b c d e f g h i j k l m n o p q r _) := s in mkProcess a b c d e f g h i j k l m n o p q r v.

(** One operation on the file system. *)
Definition fs_step (s : Process) : bool * Process := match p_fs s with [] => (true, s) | b :: l => (b, set_fs l s) end.

(** An answer to a request. *)
Definition reply (ticket : N) (w : Wait) (s : Process) : Process := set_replies ((ticket, w) :: p_replies s) s.
(** The answer to whoever waits for an entry, if anyone does. *)
Definition reply_pending (gid idx : N) (w : Wait) (s : Process) : Process :=
  match p_pending s !! (gid, idx) with
  | Some ticket => reply ticket w (set_pending (base.delete (gid, idx) (p_pending s)) s)
  | None => s
  end.

Definition send_out (out : list Envelope) (s : Process) : Process := set_sent (p_sent s ++ out) s.

(** ** Hosting groups *)

(** The configuration of every group this process hosts. *)
Context (raft_cfg : RaftConfig).

Definition ensure_group_hosted (gid : N) (s : Process) : result string unit * Process :=
  match p_host s !! gid with
  | Some _ => (Ok tt, s)
  | None =>
      let '(made, s) := if gid =? 0 then (true, s) else fs_step s in
      let '(opened, s) := if made then fs_step s else (false, s) in
      if negb opened then (Err (if made then "open" else "create_dir_all"), s)
      else
        let dir := default empty_dir (p_dirs s !! gid) in
        let p := mkPersister (gd_raft dir) None in
        match load_state p with
        | Err _ => (Err "load_state", s)
        | Ok loaded =>
            let '(n, p) := match loaded with
                           | Some state => (set_recovered_apply_floor 0 (recover raft_cfg state), mkPersister (gd_raft dir) (Some state))
                           | None => (node_new raft_cfg, p)
                           end in
            let s := set_host (host_insert gid n (p_host s)) s in
            let s := set_dirs (<[gid := dir]> (p_dirs s)) s in
            let s := set_persisters (match p_persisters s !! gid with Some _ => p_persisters s | None => <[gid := p]> (p_persisters s) end) s in
            (Ok tt, set_apply (match p_apply s !! gid with Some _ => p_apply s | None => <[gid := apply_index_open (gd_apply dir)]> (p_apply s) end) s)
        end
  end.
(** Failures are only reported. *)
Definition host_groups (gids : list N) (s : Process) : Process := foldl (λ s gid, (ensure_group_hosted gid s).2) s gids.

(** ** The range table *)

(** Directory, write and rename. *)
Definition persist_range_table (t : StaticRangeTable) (s : Process) : result string unit * Process :=
  let '(made, s) := fs_step s in
  if negb made then (Err "create_dir_all", s)
  else
    let '(written, s) := fs_step s in
    if negb written then (Err "write", s)
    else
      let '(renamed, s) := fs_step s in
      if negb renamed then (Err "rename", s) else (Ok tt, set_table_file (Some (table_encode t)) s).

Definition load_persisted_range_table (file : option bytes) : option StaticRangeTable :=
  b ← file; match table_decode b with Ok t => Some t | Err _ => None end.

Definition apply_range_meta_entry (base_epoch : N) (snapshot : bytes) (s : Process) : result string unit * Process :=
  match table_decode snapshot with
  | Err e => (Err e, s)
  | Ok new_table =>
      if negb (meta_epoch (p_table s) =? base_epoch) then
        if bool_decide (table_encode (p_table s) = snapshot) then (Ok tt, s)
        else (Err ("range meta CAS failed: base_epoch=" +:+ pretty base_epoch +:+ " current=" +:+ pretty (meta_epoch (p_table s))), s)
      else
        match persist_range_table new_table s with
        | (Err e, s) => (Err e, s)
        | (Ok _, s) => (Ok tt, host_groups (table_group_ids new_table) (set_table new_table s))
        end
  end.

Definition restore_range_table_from_snapshot (snapshot : bytes) (s : Process) : Process :=
  if bool_decide (snapshot = []) then s
  else match table_decode snapshot with
       | Err _ => s
       | Ok new_table =>
           if meta_epoch new_table <? meta_epoch (p_table s) then s
           else match persist_range_table new_table s with
                | (Err _, s) => s
                | (Ok _, s) => host_groups (table_group_ids new_table) (set_table new_table s)
                end
       end.

(** ** Snapshots *)

(** This process, as [apply_config_change_to_roster] wants it. *)
Context (self : N) (self_raft self_client : A).

(** The new roster is written to its file; a failure is only reported. *)
Definition change_roster (phase : ConfigChangePhase) (members : list ClusterMember) (s : Process) : Process :=
  let r := apply_config_change_to_roster phase members self self_raft self_client (p_roster s) in
  let '(written, s) := fs_step (set_roster r s) in
  if written then set_roster_file (Some (persist_roster r)) s else s.

Definition restore_configs (members : list ClusterMember) (s : Process) : Process :=
  set_host (restore_config_from_snapshot members <$> p_host s) s.

Definition install_engine (data : bytes) (s : Process) : Process :=
  set_node (set_core (EngineSnapshot.install_snapshot data (core (p_node s))).2 (p_node s)) s.

(** The engine's data, the members and the ranges of a payload; what does not parse is taken for
    engine data. *)
Definition install_payload (data : bytes) (s : Process) : Process :=
  match parse_snapshot_payload_v2 data with
  | Ok (eng, mems, ranges) =>
      let s := if bool_decide (eng = []) then s else install_engine eng s in
      let s := if bool_decide (mems = []) then s else restore_configs mems (change_roster Final mems s) in
      restore_range_table_from_snapshot ranges s
  | Err _ => install_engine data s
  end.

Definition drain_installed (h : MultiRaftHost) : list bytes * MultiRaftHost :=
  each_group (λ _ n, let '(snap, n) := drain_installed_snapshot n in (match snap with Some (_, _, data) => [data] | None => [] end, n))
    (sorted_group_ids h) h.
Definition apply_installed_raft_snapshot (s : Process) : Process :=
  let '(installed, h) := drain_installed (p_host s) in
  foldl (λ s data, install_payload data s) (set_host h s) installed.
Definition install_persisted_snapshot_at_startup (s : Process) : Process :=
  match p_snapshot_file s with Some raw => install_payload raw s | None => s end.

(** The groups whose applied index is a multiple of 64, with that index and their term. *)
Definition compaction_targets (h : MultiRaftHost) : list (N * N * N) :=
  omap (λ gid, st ← status_of gid h;
    if (0 <? s_last_applied st) && (s_last_applied st mod 64 =? 0) then Some (gid, s_last_applied st, s_current_term st) else None)
    (sorted_group_ids h).

(** The members of group 0, or of the first group, with the addresses the roster knows; those
    without an address are left out. *)
Definition members_snapshot (h : MultiRaftHost) (r : gmap N (RosterEntry (A:=A))) : list ClusterMember :=
  let first := match h !! 0 with Some n => Some n | None => head (omap (λ g, h !! g) (sorted_group_ids h)) end in
  let known := match first with
               | Some n => if bool_decide (current_membership n = []) then
                             (λ i, mkMember i [] [] false) <$> set_list (voters (stable_config (effective_config n)))
                           else current_membership n
               | None => []
               end in
  filter (λ m, raft_addr m ≠ [] ∧ client_addr m ≠ []) ((λ m, fill_member r (m_id m) m) <$> known).

Definition compact_group (data : bytes) (h : MultiRaftHost) (target : N * N * N) : MultiRaftHost :=
  let '(gid, last, term) := target in
  match h !! gid with Some n => <[gid := compact last term data n]> h | None => h end.

(** A write, a sync and a rename; a failure leaves the old file. *)
Definition persist_raft_snapshot_atomically (data : bytes) (s : Process) : Process :=
  let '(written, s) := fs_step s in if written then set_snapshot_file (Some data) s else s.

Definition maybe_compact_raft_log (s : Process) : Process :=
  let targets := compaction_targets (p_host s) in
  if bool_decide (length targets = 0%nat) then s
  else
    let e := core (p_node s) in
    let e := match p_host s !! 0 ≫= node_snapshot with
             | Some (_, _, d) => if bool_decide (d = []) then e else (release_snapshot d e).2
             | None => e
             end in
    let '(created, e) := create_snapshot e in
    let engine_data := match created with Ok d => d | Err _ => [] end in
    let s := set_node (set_core e (p_node s)) s in
    let snap_data := build_snapshot_payload_v2 engine_data (members_snapshot (p_host s) (p_roster s)) (table_encode (p_table s)) in
    let s := set_host (foldl (compact_group snap_data) (p_host s) targets) s in
    if bool_decide (snap_data = []) then s else persist_raft_snapshot_atomically snap_data s.

(** ** Groups no range refers to *)

Definition reclaim_candidates (t : StaticRangeTable) (h : MultiRaftHost) : list N :=
  filter (λ gid, gid ≠ 0 ∧ gid < peek_next_group_id t ∧ gid ∉ table_group_ids t) (sorted_group_ids h).

Definition orphan_group_count (s : Process) : N := lenN (reclaim_candidates (p_table s) (p_host s)).

(** A group is dropped once all it has committed is applied. *)
Definition reclaim_group (s : Process) (gid : N) : Process :=
  match status_of gid (p_host s) with
  | Some st =>
      if s_commit_index st =? s_last_applied st then
        let s := set_host (host_remove gid (p_host s)).2 s in
        let s := set_persisters (base.delete gid (p_persisters s)) (set_apply (base.delete gid (p_apply s)) s) in
        let '(removed, s) := fs_step s in
        let s := if removed then set_dirs (base.delete gid (p_dirs s)) s else s in
        set_reclaimed (p_reclaimed s + 1) s
      else s
  | None => s
  end.
Definition reclaim_orphan_groups (s : Process) : Process := foldl reclaim_group s (reclaim_candidates (p_table s) (p_host s)).

(** ** Applying committed entries *)

(** The correlation record goes to the group's file, or to that of group 0. *)
Definition append_apply_record (gid : N) (r : ApplyRecord) (s : Process) : Process :=
  let target := match p_apply s !! gid with Some a => Some (gid, a) | None => pair 0 <$> p_apply s !! 0 end in
  match target with
  | None => s
  | Some (g, a) =>
      let '(written, s) := if bool_decide (ap_index r ∈ ai_seen a) then (true, s) else fs_step s in
      let a := apply_index_append written r a in
      let s := set_apply (<[g := a]> (p_apply s)) s in
      set_dirs (alter (λ d, mkGroupDir (gd_raft d) (ai_lines a)) g (p_dirs s)) s
  end.

Definition range_meta_step (command : bytes) (s : Process) : result string unit * Process :=
  match cmd_decode command with
  | Ok (CRangeMeta base_epoch snapshot) => apply_range_meta_entry base_epoch snapshot s
  | _ => (Ok tt, s)
  end.
Definition config_step (command : bytes) (s : Process) : Process :=
  match cmd_decode command with Ok (CConfigChange phase members) => change_roster phase members s | _ => s end.

(** One entry of a group's log. *)
Definition apply_one (s : Process) (entry : N * N * N * bytes) : Process :=
  if p_blocked s then s
  else
    let '(gid, idx, term, command) := entry in
    let s := config_step command s in
    match range_meta_step command s with
    | (Err e, s) => reply_pending gid idx (WError e) s
    | (Ok _, s) =>
        let finish lsn s := reply_pending gid idx WDone (append_apply_record gid (mkApplyRecord term idx lsn) s) in
        if bool_decide (command = []) then finish None s
        else
          let '(r, n) := apply_command env command (p_node s) in
          let s := set_node n s in
          match r with
          | Done lsn => finish lsn s
          | Failed e => reply_pending gid idx (WError (display e)) s
          | Waiting => set_blocked true s
          end
    end.

Definition answer_read (s : Process) (read : N * N) : Process :=
  match p_pending_reads s !! read.2 with
  | Some ticket => reply ticket WDone (set_pending_reads (base.delete read.2 (p_pending_reads s)) s)
  | None => s
  end.

Definition drain_and_apply (s : Process) : Process :=
  let s := apply_installed_raft_snapshot s in
  let '(applied, h) := drain_all_applied (p_host s) in
  let s := foldl apply_one (set_host h s) applied in
  if p_blocked s then s
  else
    let '(ready, h) := drain_all_ready_reads (p_host s) in
    let s := foldl answer_read (set_host h s) ready in
    reclaim_orphan_groups (maybe_compact_raft_log s).

(** ** The event loop *)

(** A flush that fails is only reported. *)
Definition flush_group (s : Process) (view : N * PersistedRaftState) : Process :=
  match p_persisters s !! view.1 with
  | None => s
  | Some p =>
      let '(written, s) := if bool_decide (last_persisted p = Some view.2) then (true, s) else fs_step s in
      if written then
        let p := flush_view view.2 p in
        set_dirs (alter (λ d, mkGroupDir (storage p) (gd_apply d)) view.1 (p_dirs s)) (set_persisters (<[view.1 := p]> (p_persisters s)) s)
      else s
  end.
Definition persist_raft_state (s : Process) : Process := foldl flush_group s (persist_views (p_host s)).

Inductive LoopEvent : Type :=
| LTick
| LMessage (e : Envelope)
| LPropose (ticket gid : N) (command : bytes)
| LRead (ticket gid request_id : N).

Definition is_known_raft_peer (from : N) (s : Process) : bool := roster_contains (p_roster s) from || is_voter_anywhere from (p_host s).

(** The first half of an event: what it does to the groups, and the messages that go out. *)
Definition react (ev : LoopEvent) (s : Process) : option Process :=
  match ev with
  | LTick => let '(out, h) := tick_all (p_host s) in Some (send_out out (set_host h s))
  | LMessage e =>
      if negb (is_known_raft_peer (from e) s) then None
      else let '(out, h) := host_handle e (p_host s) in Some (send_out out (set_host h s))
  | LPropose ticket gid command =>
      let '(idx, h) := host_propose gid command (p_host s) in
      let s := set_host h s in
      match idx with
      | None => Some (reply ticket (WError "not_leader") s)
      | Some idx =>
          let s := set_pending (<[(gid, idx) := ticket]> (p_pending s)) s in
          let '(out, h) := broadcast_group gid (p_host s) in Some (send_out out (set_host h s))
      end
  | LRead ticket gid request_id =>
      let '(idx, h) := propose_read_group gid request_id (p_host s) in
      let s := set_host h s in
      match idx with
      | None => Some (reply ticket (WError "not_leader") s)
      | Some _ =>
          let s := set_pending_reads (<[request_id := ticket]> (p_pending_reads s)) s in
          let '(out, h) := broadcast_group gid (p_host s) in Some (send_out out (set_host h s))
      end
  end.

(** A refused proposal or read ends there. *)
Definition accepted (ev : LoopEvent) (s : Process) : bool :=
  match ev with
  | LTick | LMessage _ => true
  | LPropose _ gid command => bool_decide (is_Some (host_propose gid command (p_host s)).1)
  | LRead _ gid request_id => bool_decide (is_Some (propose_read_group gid request_id (p_host s)).1)
  end.

Definition leader_groups (h : MultiRaftHost) : gset N := list_to_set (filter (λ g, is_leader_of g h = true) (sorted_group_ids h)).

(** Requests of groups that are no longer led are answered; so are all the reads. *)
Definition abort_pending (lost : gset N) (s : Process) : Process :=
  let gone := filter (λ x, x.1.1 ∈ lost) (map_to_list (p_pending s)) in
  let s := foldl (λ s x, reply x.2 (WError "not_leader") (set_pending (base.delete x.1 (p_pending s)) s)) s gone in
  foldl (λ s x, reply x.2 (WError "not_leader") (set_pending_reads (base.delete x.1 (p_pending_reads s)) s)) s (map_to_list (p_pending_reads s)).

Definition abort_orphaned_prepares (s : Process) : Process :=
  let '(r, n) := undecided_prepared_txns (p_node s) in
  let s := set_node n s in
  match r with
  | Done orphans => set_host (foldl (λ h txn_id, (host_propose 0 (cmd_encode (CTxnDecision txn_id false)) h).2) (p_host s) orphans) s
  | _ => s
  end.

Definition after_event (s : Process) : Process :=
  let current := leader_groups (p_host s) in
  let lost := p_leaders s ∖ current in
  let s := if bool_decide (lost = ∅) then s else abort_pending lost s in
  let s := if bool_decide (0 ∈ current) && negb (bool_decide (0 ∈ p_leaders s)) then abort_orphaned_prepares s else s in
  set_leaders current s.

(** One round of the loop: messages go out, entries are applied and answered, and only then is
    the state written. A message from an unknown node is skipped. *)
Definition loop_event (ev : LoopEvent) (s : Process) : Process :=
  if p_blocked s then s
  else match react ev s with
       | None => s
       | Some s' =>
           if accepted ev s then
             let s' := drain_and_apply s' in
             if p_blocked s' then s' else after_event (persist_raft_state s')
           else after_event s'
       end.

Definition run_loop (evs : list LoopEvent) (s : Process) : Process := foldl (λ s ev, loop_event ev s) s evs.
End Server.
