(* ===== verification/ServerProps.v ===== *)
(** Theorems on the Raft event loop of a server process. *)
From stdpp Require Import gmap strings.
From S2P Require Import Prelude Bytes Core Hlc OrdMap Path Disk WalCodec WalWriter InternalKey SstBlock SstSpec Memtable Manifest Compaction Engine EngineStore EngineSnapshot EngineReads Index Cdc Node Txn NodePlans Txn2pc RaftConfig RaftCommand RaftLog RaftStorage RaftNode MultiRaft Ranges RangesProps NetCodec Roster RosterProps TxnCoord SnapPayload ClientOps Server.

Open Scope N_scope.

Section Loop.
Context {T : Type} `{SstFormat T} (env : N → N * N * N).
Context {A : Type} `{SocketAddr A}.
Context (raft_cfg : RaftConfig).
Abbreviation Process := (Process (T:=T) (A:=A)).
Implicit Types s : Process.

(** A field of a process after a step on another one. *)
Ltac field s := destruct s; reflexivity.

(** ** The range table *)

(** What hosting a group leaves alone. *)
Record same_table (s s' : Process) : Prop := { st_table : p_table s' = p_table s; st_file : p_table_file s' = p_table_file s }.

Lemma same_table_trans s1 s2 s3 : same_table s1 s2 → same_table s2 s3 → same_table s1 s3.
Proof. intros [] []. split; congruence. Qed.

Lemma fs_step_table (s : Process) : same_table s (fs_step s).2.
Proof. unfold fs_step. destruct (p_fs s); [done|]. split; field s. Qed.

Lemma ensure_table gid (s : Process) : same_table s (ensure_group_hosted raft_cfg gid s).2.
Proof.
  unfold ensure_group_hosted. destruct (p_host s !! gid); [done|].
  destruct (if gid =? 0 then (true, s) else fs_step s) as [made s1] eqn:E.
  assert (same_table s s1) as H1.
  { destruct (gid =? 0); [by injection E as _ <-|]. pose proof (fs_step_table s) as Hs. by rewrite E in Hs. }
  destruct (if made then fs_step s1 else (false, s1)) as [opened s2] eqn:E2.
  assert (same_table s s2) as H2.
  { destruct made; [|by injection E2 as _ <-]. eapply same_table_trans; [exact H1|]. pose proof (fs_step_table s1) as Hs. by rewrite E2 in Hs. }
  destruct (negb opened); [done|]. destruct (load_state _) as [[st|]|]; [..|done].
  all: eapply same_table_trans; [exact H2|]; split; field s2.
Qed.

Lemma host_groups_table gids (s : Process) : same_table s (host_groups raft_cfg gids s).
Proof.
  revert s. induction gids as [|g gids IH]; intros s; [done|]. eapply same_table_trans; [apply ensure_table|]. apply IH.
Qed.

(** The table is written before it is used. *)
Lemma persist_table_spec t (s : Process) r s' : persist_range_table t s = (r, s') →
  p_table s' = p_table s ∧ p_table_file s' = match r with Ok _ => Some (table_encode t) | Err _ => p_table_file s end.
Proof.
  unfold persist_range_table. destruct (fs_step s) as [b1 s1] eqn:E1. pose proof (fs_step_table s) as [H1 H2]. rewrite E1 in H1, H2. cbn [snd] in *.
  destruct b1; cbn [negb]; [|by intros [= <- <-]].
  destruct (fs_step s1) as [b2 s2] eqn:E2. pose proof (fs_step_table s1) as [H3 H4]. rewrite E2 in H3, H4. cbn [snd] in *.
  destruct b2; cbn [negb]; [|intros [= <- <-]; split; congruence].
  destruct (fs_step s2) as [b3 s3] eqn:E3. pose proof (fs_step_table s2) as [H5 H6]. rewrite E3 in H5, H6. cbn [snd] in *.
  destruct b3; cbn [negb]; intros [= <- <-]; [|split; congruence].
  split; [|by destruct s3]. transitivity (p_table s3); [by destruct s3|congruence].
Qed.

Lemma apply_range_meta_spec base snapshot (s : Process) :
  let s' := (apply_range_meta_entry raft_cfg base snapshot s).2 in
  same_table s s' ∨
  ∃ t, meta_epoch (p_table s) = base ∧ table_decode snapshot = Ok t ∧ p_table s' = t ∧ p_table_file s' = Some (table_encode t).
Proof.
  unfold apply_range_meta_entry. destruct (table_decode snapshot) as [t|]; [|by left].
  destruct (N.eqb_spec (meta_epoch (p_table s)) base) as [E|]; cbn [negb]; [|case_bool_decide; by left].
  destruct (persist_range_table t s) as [r s1] eqn:Ep. destruct (persist_table_spec _ _ _ _ Ep) as [H1 H2].
  destruct r; cbn [snd]; [|left; by split].
  right. exists t. destruct (host_groups_table (table_group_ids t) (set_table t s1)) as [H3 H4].
  split_and!; [done|done|rewrite H3; by destruct s1|rewrite H4; rewrite <- H2; by destruct s1].
Qed.

(** ** Changes of the range table in flight *)

(** A handler prepares a change from the table it sees; the loop applies prepared changes in any
    order, more than once or never. *)
Inductive table_step : Process * list (N * bytes) → Process * list (N * bytes) → Prop :=
| step_prepare s fl op t' :
    op_ok op (p_table s) → apply_op op (p_table s) = Ok t' → table_fits t' → meta_epoch (p_table s) < u64_max →
    table_step (s, fl) (s, (meta_epoch (p_table s), table_encode t') :: fl)
| step_apply s fl base snapshot :
    (base, snapshot) ∈ fl → table_step (s, fl) ((apply_range_meta_entry raft_cfg base snapshot s).2, fl).

Record table_inv (x : Process * list (N * bytes)) : Prop := {
  ti_reach : table_reachable (p_table x.1);
  ti_file : p_table_file x.1 = Some (table_encode (p_table x.1));
  ti_fits : table_fits (p_table x.1);
  ti_flight : ∀ base snapshot, (base, snapshot) ∈ x.2 → base <= meta_epoch (p_table x.1) ∧
    ∃ t', snapshot = table_encode t' ∧ table_fits t' ∧ meta_epoch t' = base + 1 ∧
      (base = meta_epoch (p_table x.1) → ∃ op, op_ok op (p_table x.1) ∧ apply_op op (p_table x.1) = Ok t')
}.

Lemma apply_op_epoch op t t' : meta_epoch t < u64_max → apply_op op t = Ok t' → meta_epoch t' = meta_epoch t + 1.
Proof.
  intros Hr. destruct op; cbn [apply_op].
  - destruct (split_at _ t) as [[[[l r] g] n]|] eqn:E; [|done]. intros [= <-].
    apply split_shape in E as (? & ? & ? & _ & _ & _ & _ & _ & _ & ->). by apply sat_add_room.
  - destruct (merge_with_next _ t) as [[m n]|] eqn:E; [|done]. intros [= <-].
    apply merge_shape in E as (? & ? & ? & ? & _ & _ & _ & _ & ->). by apply sat_add_room.
  - destruct (move_range _ _ t) as [[m n]|] eqn:E; [|done]. intros [= <-].
    apply move_shape in E as (? & ? & ? & _ & _ & _ & _ & ->). by apply sat_add_room.
Qed.

Lemma table_step_inv x y : table_step x y → table_inv x → table_inv y.
Proof.
  intros [s fl op t' Hop Ha Hf He|s fl base snapshot Hin] [Hr Hfile Hfits Hfl]; cbn [fst snd] in *.
  - split; try done. intros base snapshot [[= -> ->]|Hin]%elem_of_cons; [|by apply Hfl]. split; [done|].
    exists t'. split_and!; [done|done|by eapply apply_op_epoch|]. eauto.
  - destruct (apply_range_meta_spec base snapshot s) as [[H1 H2]|(t & Hb & Hd & H1 & H2)].
    + split; cbn [fst snd]; rewrite ?H1, ?H2; done.
    + destruct (Hfl _ _ Hin) as (_ & t' & -> & Hft & Hep & Hop). rewrite (ranges_snapshot_roundtrip t' Hft) in Hd. injection Hd as <-.
      destruct (Hop (eq_sym Hb)) as (op & Hok & Ha). split; cbn [fst snd]; rewrite ?H1, ?H2; try done.
      * by eapply reach_op.
      * intros b snap Hin'. destruct (Hfl _ _ Hin') as (Hle & t2 & -> & Hf2 & He2 & _). split; [lia|].
        exists t2. split_and!; [done..|]. lia.
Qed.

Lemma table_steps_inv x y : rtc table_step x y → table_inv x → table_inv y.
Proof. induction 1 as [|x y z Hxy _ IH]; [done|]. intros Hi. apply IH. by eapply table_step_inv. Qed.

(** Applying a change in flight: the table stays, or it becomes what one operation makes of it;
    a success means that the change is in the table. *)
Lemma apply_in_flight s fl base snapshot : table_inv (s, fl) → (base, snapshot) ∈ fl →
  let '(r, s') := apply_range_meta_entry raft_cfg base snapshot s in
  (p_table s' = p_table s ∨ ∃ op, op_ok op (p_table s) ∧ apply_op op (p_table s) = Ok (p_table s')) ∧
  (r = Ok tt → table_decode snapshot = Ok (p_table s')).
Proof.
  intros [_ _ Hfits Hfl] Hin. destruct (Hfl _ _ Hin) as (_ & t & -> & Hft & _ & Hop). cbn [fst snd] in *.
  unfold apply_range_meta_entry. rewrite (ranges_snapshot_roundtrip t Hft).
  destruct (N.eqb_spec (meta_epoch (p_table s)) base) as [E|]; cbn [negb].
  - destruct (persist_range_table t s) as [r s1] eqn:Ep. destruct (persist_table_spec _ _ _ _ Ep) as [H1 _].
    destruct r; [|by split; [left|]]. destruct (host_groups_table (table_group_ids t) (set_table t s1)) as [H3 _].
    rewrite H3. replace (p_table (set_table t s1)) with t by (by destruct s1). split; [right; by apply Hop|done].
  - case_bool_decide as Es; (split; [by left|]); [|done]. intros _. rewrite <-(ranges_snapshot_roundtrip t Hft), <-Es.
    by apply ranges_snapshot_roundtrip.
Qed.

(** C11: concurrent changes of the range table are serialised by the compare-and-swap on its epoch,
    and none is lost. Whatever splits, merges and moves are prepared from whatever version of the
    table, and however often and in whatever order the prepared changes are applied, with or
    without failures of the disk, the table in use is one that the operations produce one after
    the other from the first, and the file holds that very table, so a restart finds it. Applying
    one more of the prepared changes either leaves the table or performs one operation on the
    table as it is at that moment, never on an older one, so that no change made in between is
    undone; and it succeeds only if the change is in the table. (Installing a snapshot, which
    replaces the table by one of another process, is not among these steps.) *)
Theorem range_changes_serialised (s : Process) s' fl :
  table_reachable (p_table s) → table_fits (p_table s) → p_table_file s = Some (table_encode (p_table s)) →
  rtc table_step (s, []) (s', fl) →
  table_reachable (p_table s') ∧ load_persisted_range_table (p_table_file s') = Some (p_table s') ∧
  ∀ base snapshot, (base, snapshot) ∈ fl →
    let '(r, s'') := apply_range_meta_entry raft_cfg base snapshot s' in
    (p_table s'' = p_table s' ∨ ∃ op, op_ok op (p_table s') ∧ apply_op op (p_table s') = Ok (p_table s'')) ∧
    (r = Ok tt → table_decode snapshot = Ok (p_table s'')).
Proof.
  intros Hr Hf Hfile Hs. assert (table_inv (s', fl)) as Hi.
  { eapply table_steps_inv; [exact Hs|]. split; [done..|]. intros ?? Hn. by apply not_elem_of_nil in Hn. }
  destruct Hi as [H1 H2 H3 H4] eqn:Ei. cbn [fst] in *. split_and!; [done| |by intros; eapply apply_in_flight].
  rewrite H2. unfold load_persisted_range_table. cbn [mbind option_bind]. by rewrite (ranges_snapshot_roundtrip _ H3).
Qed.

(** ** Groups no range refers to *)

Lemma fs_step_host (s : Process) : p_host (fs_step s).2 = p_host s.
Proof. unfold fs_step. destruct (p_fs s); [done|]. field s. Qed.

Lemma reclaim_group_host (s : Process) gid :
  p_host (reclaim_group s gid) = p_host s ∨
  (∃ st, status_of gid (p_host s) = Some st ∧ s_commit_index st = s_last_applied st) ∧ p_host (reclaim_group s gid) = base.delete gid (p_host s).
Proof.
  unfold reclaim_group. destruct (status_of gid (p_host s)) as [st|]; [|by left].
  destruct (N.eqb_spec (s_commit_index st) (s_last_applied st)) as [E|]; [|by left]. right. split; [by eauto|].
  set (s1 := set_persisters _ _). pose proof (fs_step_host s1) as Hh. destruct (fs_step s1) as [removed s2]. cbn [snd] in Hh.
  transitivity (p_host s2); [by destruct removed, s2|]. rewrite Hh. by destruct s.
Qed.

(** Cleaning up after merges drops only what nothing needs: a group that disappears from the
    host is not group 0, is not referred to by any range, is not one a split under way is about
    to use, and has applied all it committed; every other group stays exactly as it was. *)
Theorem reclaim_safe (s : Process) gid :
  p_host (reclaim_orphan_groups s) !! gid = p_host s !! gid ∨
  p_host (reclaim_orphan_groups s) !! gid = None ∧ gid ≠ 0 ∧ gid < next_group_id (p_table s) ∧ gid ∉ table_group_ids (p_table s) ∧
    ∃ n, p_host s !! gid = Some n ∧ commit_index n = last_applied n.
Proof.
  unfold reclaim_orphan_groups. set (l := reclaim_candidates _ _).
  assert (∀ g, g ∈ l → g ≠ 0 ∧ g < next_group_id (p_table s) ∧ g ∉ table_group_ids (p_table s)) as Hl.
  { intros g [Hg _]%list_elem_of_filter. done. }
  revert Hl. generalize (p_table s) as t. generalize l as gids. clear l. intros gids t. revert s.
  induction gids as [|g gids IH]; intros s Hl; cbn [foldl]; [by left|].
  destruct (IH (reclaim_group s g)) as [E|(E & H1 & H2 & H3 & n & Hn & Hc)]; [intros; apply Hl; by right|..].
  - destruct (reclaim_group_host s g) as [E'|[(st & Hst & Hcl) E']]; [left; congruence|].
    rewrite E, E'. destruct (decide (g = gid)) as [->|Hne]; [|left; by rewrite lookup_delete_ne].
    right. rewrite lookup_delete_eq. destruct (Hl gid) as (? & ? & ?); [left|]. split_and!; try done.
    unfold status_of in Hst. apply fmap_Some in Hst as (n & Hn & ->). by exists n.
  - right. split_and!; try done. exists n. split; [|done]. destruct (reclaim_group_host s g) as [E'|[_ E']]; rewrite E' in Hn; [done|].
    by apply lookup_delete_Some in Hn as [_ Hn].
Qed.

(** ** Answers *)

(** What a step does to the requests that wait and to the answers. *)
Record waits_same (s s' : Process) : Prop := {
  ws_pending : p_pending s' = p_pending s; ws_reads : p_pending_reads s' = p_pending_reads s; ws_replies : p_replies s' = p_replies s;
  ws_node : p_node s' = p_node s; ws_leaders : p_leaders s' = p_leaders s }.

Lemma waits_trans s1 s2 s3 : waits_same s1 s2 → waits_same s2 s3 → waits_same s1 s3.
Proof. intros [] []. split; congruence. Qed.
Lemma fs_step_waits (s : Process) : waits_same s (fs_step s).2.
Proof. unfold fs_step. destruct (p_fs s); [done|]. split; field s. Qed.

Lemma ensure_waits gid (s : Process) : waits_same s (ensure_group_hosted raft_cfg gid s).2.
Proof.
  unfold ensure_group_hosted. destruct (p_host s !! gid); [done|].
  destruct (if gid =? 0 then (true, s) else fs_step s) as [made s1] eqn:E.
  assert (waits_same s s1) as H1.
  { destruct (gid =? 0); [by injection E as _ <-|]. pose proof (fs_step_waits s) as Hs. by rewrite E in Hs. }
  destruct (if made then fs_step s1 else (false, s1)) as [opened s2] eqn:E2.
  assert (waits_same s s2) as H2.
  { destruct made; [|by injection E2 as _ <-]. eapply waits_trans; [exact H1|]. pose proof (fs_step_waits s1) as Hs. by rewrite E2 in Hs. }
  destruct (negb opened); [done|]. destruct (load_state _) as [[st|]|]; [..|done].
  all: eapply waits_trans; [exact H2|]; split; field s2.
Qed.
Lemma host_groups_waits gids (s : Process) : waits_same s (host_groups raft_cfg gids s).
Proof. revert s. induction gids as [|g gids IH]; intros s; [done|]. eapply waits_trans; [apply ensure_waits|]. apply IH. Qed.

Lemma persist_table_waits t (s : Process) : waits_same s (persist_range_table t s).2.
Proof.
  unfold persist_range_table. pose proof (fs_step_waits s) as H1. destruct (fs_step s) as [[] s1]; cbn [negb snd] in *; [|done].
  pose proof (fs_step_waits s1) as H2. destruct (fs_step s1) as [[] s2]; cbn [negb snd] in *; [|by eapply waits_trans].
  pose proof (fs_step_waits s2) as H3. destruct (fs_step s2) as [[] s3]; cbn [negb snd] in *;
    (eapply waits_trans; [exact H1|eapply waits_trans; [exact H2|]]); [|done]. eapply waits_trans; [exact H3|]. split; field s3.
Qed.

Lemma range_meta_waits command (s : Process) : waits_same s (range_meta_step raft_cfg command s).2.
Proof.
  unfold range_meta_step, apply_range_meta_entry. destruct (cmd_decode command) as [[]|]; try done.
  destruct (table_decode snapshot) as [t|]; [|done]. destruct (negb _); [by case_bool_decide|].
  pose proof (persist_table_waits t s) as H1. destruct (persist_range_table t s) as [[] s1]; cbn [snd] in *; [|done].
  eapply waits_trans; [exact H1|]. eapply waits_trans; [|apply host_groups_waits]. split; field s1.
Qed.

Lemma append_record_waits gid r (s : Process) : waits_same s (append_apply_record gid r s).
Proof.
  unfold append_apply_record. destruct (match p_apply s !! gid with Some a => Some (gid, a) | None => _ end) as [[g a]|]; [|done].
  destruct (if bool_decide (ap_index r ∈ ai_seen a) then (true, s) else fs_step s) as [w s1] eqn:E.
  assert (waits_same s s1) as H1.
  { case_bool_decide; [by injection E as _ <-|]. pose proof (fs_step_waits s) as Hs. by rewrite E in Hs. }
  eapply waits_trans; [exact H1|]. split; field s1.
Qed.

Context (self : N) (self_raft self_client : A).
Abbreviation apply_one := (apply_one env raft_cfg self self_raft self_client).

Lemma roster_waits phase members (s : Process) : waits_same s (change_roster self self_raft self_client phase members s).
Proof.
  unfold change_roster. set (s1 := set_roster _ s). assert (waits_same s s1) as H1 by (split; field s).
  pose proof (fs_step_waits s1) as H2. destruct (fs_step s1) as [w s2]. cbn [snd] in H2.
  eapply waits_trans; [exact H1|]. eapply waits_trans; [exact H2|]. destruct w; [split; field s2|done].
Qed.
Lemma roster_table phase members (s : Process) : p_table (change_roster self self_raft self_client phase members s) = p_table s.
Proof.
  unfold change_roster. set (s1 := set_roster _ s). pose proof (fs_step_table s1) as [Hs _]. destruct (fs_step s1) as [w s2]. cbn [snd] in Hs.
  transitivity (p_table s2); [destruct w; [by destruct s2|done]|]. rewrite Hs. by destruct s.
Qed.

Lemma config_waits command (s : Process) : waits_same s (config_step self self_raft self_client command s).
Proof. unfold config_step. destruct (cmd_decode command) as [[]|]; try done. apply roster_waits. Qed.

Lemma config_table command (s : Process) : p_table (config_step self self_raft self_client command s) = p_table s.
Proof. unfold config_step. destruct (cmd_decode command) as [[]|]; try done. apply roster_table. Qed.

Lemma reply_pending_spec gid idx w (s : Process) :
  p_node (reply_pending gid idx w s) = p_node s ∧ p_table (reply_pending gid idx w s) = p_table s ∧ p_leaders (reply_pending gid idx w s) = p_leaders s ∧
  match p_pending s !! (gid, idx) with
  | Some ticket => p_pending (reply_pending gid idx w s) = base.delete (gid, idx) (p_pending s) ∧
                   p_replies (reply_pending gid idx w s) = (ticket, w) :: p_replies s
  | None => reply_pending gid idx w s = s
  end.
Proof. unfold reply_pending, reply. destruct (p_pending s !! (gid, idx)); split_and!; try done; field s. Qed.

(** What an answer [WDone] to a command means. *)
Definition took_effect (command : bytes) (s s' : Process) : Prop :=
  (command = [] ∨ ∃ lsn, (apply_command env command (p_node s)).1 = Done lsn ∧ p_node s' = (apply_command env command (p_node s)).2) ∧
  (∀ base snapshot, cmd_decode command = Ok (CRangeMeta base snapshot) →
     table_encode (p_table s') = snapshot ∨ table_decode snapshot = Ok (p_table s')).

Lemma range_meta_effect command (s s1 : Process) : range_meta_step raft_cfg command s = (Ok tt, s1) →
  ∀ base snapshot, cmd_decode command = Ok (CRangeMeta base snapshot) → table_encode (p_table s1) = snapshot ∨ table_decode snapshot = Ok (p_table s1).
Proof.
  unfold range_meta_step. intros Hr base snapshot E. rewrite E in Hr. unfold apply_range_meta_entry in Hr.
  destruct (table_decode snapshot) as [t|]; [|done]. destruct (negb _).
  { case_bool_decide; [|done]. injection Hr as <-. by left. }
  destruct (persist_range_table t s) as [[] s2]; [|done]. injection Hr as <-. right. f_equal.
  rewrite (st_table _ _ (host_groups_table _ _)). by destruct s2.
Qed.

Lemma append_record_table gid r (s : Process) : p_table (append_apply_record gid r s) = p_table s.
Proof.
  unfold append_apply_record. destruct (match p_apply s !! gid with Some a => Some (gid, a) | None => _ end) as [[g a]|]; [|done].
  destruct (if bool_decide (ap_index r ∈ ai_seen a) then (true, s) else fs_step s) as [w s1] eqn:E.
  transitivity (p_table s1); [by destruct s1|]. case_bool_decide; [by injection E as _ <-|].
  pose proof (fs_step_table s) as [Hs _]. by rewrite E in Hs.
Qed.

Lemma apply_one_answers (s : Process) gid idx term command :
  let s' := apply_one s (gid, idx, term, command) in
  (p_pending s' = p_pending s ∧ p_replies s' = p_replies s) ∨
  ∃ ticket w, p_pending s !! (gid, idx) = Some ticket ∧ p_pending s' = base.delete (gid, idx) (p_pending s) ∧
    p_replies s' = (ticket, w) :: p_replies s ∧ (w = WDone → took_effect command s s').
Proof.
  unfold Server.apply_one. destruct (p_blocked s); [by left|].
  pose proof (config_waits command s) as [Hc1 _ Hc3 Hc4 _]. set (s1 := config_step self self_raft self_client command s) in *.
  pose proof (range_meta_waits command s1) as [Hr1 _ Hr3 Hr4 _]. pose proof (range_meta_effect command s1) as Heff.
  destruct (range_meta_step raft_cfg command s1) as [[[]|e] s2]; cbn [snd] in *.
  2: { destruct (reply_pending_spec gid idx (WError e) s2) as (_ & _ & _ & Hp). rewrite Hr1, Hc1 in Hp.
       destruct (p_pending s !! (gid, idx)) as [ticket|]; [|left; rewrite Hp; split; congruence].
       right. exists ticket, (WError e). destruct Hp as [-> ->]. split_and!; [done|done|congruence|done]. }
  assert (∀ s3 w, p_pending s3 = p_pending s2 → p_replies s3 = p_replies s2 → (w = WDone → took_effect command s (reply_pending gid idx w s3)) →
    (p_pending (reply_pending gid idx w s3) = p_pending s ∧ p_replies (reply_pending gid idx w s3) = p_replies s) ∨
    ∃ ticket w', p_pending s !! (gid, idx) = Some ticket ∧ p_pending (reply_pending gid idx w s3) = base.delete (gid, idx) (p_pending s) ∧
      p_replies (reply_pending gid idx w s3) = (ticket, w') :: p_replies s ∧ (w' = WDone → took_effect command s (reply_pending gid idx w s3))) as finish.
  { intros s3 w H1 H3 Ht. destruct (reply_pending_spec gid idx w s3) as (_ & _ & _ & Hp). rewrite H1, Hr1, Hc1 in Hp.
    destruct (p_pending s !! (gid, idx)) as [ticket|]; [|left; rewrite Hp; split; congruence].
    right. exists ticket, w. destruct Hp as [-> ->]. split_and!; [done|done|congruence|done]. }
  assert (∀ lsn n, p_node s2 = p_node s →
    (command = [] ∧ n = p_node s ∨ (apply_command env command (p_node s)).1 = Done lsn ∧ n = (apply_command env command (p_node s)).2) →
    took_effect command s (reply_pending gid idx WDone (append_apply_record gid (mkApplyRecord term idx lsn) (set_node n s2)))) as effect.
  { intros lsn n Hn Hcase. set (s4 := append_apply_record _ _ _). destruct (reply_pending_spec gid idx WDone s4) as (H1 & H2 & _ & _).
    assert (p_node s4 = n) as Hn4 by (unfold s4; rewrite (ws_node _ _ (append_record_waits _ _ _)); by destruct s2).
    assert (p_table s4 = p_table s2) as Ht4 by (unfold s4; rewrite append_record_table; by destruct s2).
    split.
    - destruct Hcase as [[-> _]|[? ->]]; [by left|]. right. exists lsn. split; [done|]. by rewrite H1, Hn4.
    - intros base snapshot E. rewrite H2, Ht4. by eapply Heff. }
  assert (p_node s2 = p_node s) as Hn by congruence.
  case_bool_decide as E.
  - apply finish; [by apply append_record_waits|by apply append_record_waits|]. intros _.
    assert (set_node (p_node s) s2 = s2) as Hs by (rewrite <- Hn; by destruct s2). rewrite <- Hs. apply effect; [done|]. by left.
  - rewrite Hn. destruct (apply_command env command (p_node s)) as [r n] eqn:Ea. destruct r as [lsn|x|].
    + apply finish; [rewrite (ws_pending _ _ (append_record_waits _ _ _)); by destruct s2|rewrite (ws_replies _ _ (append_record_waits _ _ _)); by destruct s2|].
      intros _. apply effect; [done|]. by right.
    + apply finish; [by destruct s2|by destruct s2|done].
    + left. split; [transitivity (p_pending s2); [by destruct s2|congruence]|transitivity (p_replies s2); [by destruct s2|congruence]].
Qed.

(** The loop acknowledges only what took effect. Applying an entry answers at most the one
    request that waits for that entry, once, and leaves the other requests waiting; the answer is
    a success only if the engine has executed the command, and, for a change of the range table,
    only if that table is in use. *)
Theorem loop_acks_applied (s : Process) gid idx term command :
  let s' := apply_one s (gid, idx, term, command) in
  (p_pending s' = p_pending s ∧ p_replies s' = p_replies s) ∨
  ∃ ticket w, p_pending s !! (gid, idx) = Some ticket ∧ p_pending s' = base.delete (gid, idx) (p_pending s) ∧
    p_replies s' = (ticket, w) :: p_replies s ∧ (w = WDone → took_effect command s s').
Proof. apply apply_one_answers. Qed.

(** ** Requests of groups that are no longer led *)

(** Who waited still waits or has an answer. *)
Definition replied s (t : N) : Prop := ∃ w, (t, w) ∈ p_replies s.
Record heard (s s' : Process) : Prop := {
  hd_replies : ∀ t, replied s t → replied s' t;
  hd_pending : ∀ k t, p_pending s !! k = Some t → p_pending s' !! k = Some t ∨ replied s' t;
  hd_reads : ∀ k t, p_pending_reads s !! k = Some t → p_pending_reads s' !! k = Some t ∨ replied s' t }.

Lemma heard_same s s' : p_pending s' = p_pending s → p_pending_reads s' = p_pending_reads s → p_replies s' = p_replies s → heard s s'.
Proof. intros H1 H2 H3. split; unfold replied; rewrite ?H1, ?H2, ?H3; auto. Qed.
Lemma heard_trans s1 s2 s3 : heard s1 s2 → heard s2 s3 → heard s1 s3.
Proof.
  intros [H1 H2 H3] [H4 H5 H6]. split; [auto|..]; intros k t Hk.
  - destruct (H2 k t Hk) as [?|?]; auto.
  - destruct (H3 k t Hk) as [?|?]; auto.
Qed.

(** A request that waits no longer because it is answered. *)
Lemma heard_write k t w s : p_pending s !! k = Some t → heard s (reply t w (set_pending (base.delete k (p_pending s)) s)).
Proof.
  intros Hk. set (s' := reply _ _ _).
  assert (p_replies s' = (t, w) :: p_replies s ∧ p_pending s' = base.delete k (p_pending s) ∧ p_pending_reads s' = p_pending_reads s)
    as (H1 & H2 & H3) by (by destruct s). split; unfold replied; rewrite H1, ?H2, ?H3.
  - intros t' [w' Hw]. exists w'. by right.
  - intros k' t' Hk'. destruct (decide (k = k')) as [<-|Hne]; [|left; by rewrite lookup_delete_ne].
    rewrite Hk in Hk'. injection Hk' as <-. right. exists w. left.
  - by left.
Qed.
Lemma heard_read k t w s : p_pending_reads s !! k = Some t → heard s (reply t w (set_pending_reads (base.delete k (p_pending_reads s)) s)).
Proof.
  intros Hk. set (s' := reply _ _ _).
  assert (p_replies s' = (t, w) :: p_replies s ∧ p_pending s' = p_pending s ∧ p_pending_reads s' = base.delete k (p_pending_reads s))
    as (H1 & H2 & H3) by (by destruct s). split; unfold replied; rewrite H1, ?H2, ?H3.
  - intros t' [w' Hw]. exists w'. by right.
  - by left.
  - intros k' t' Hk'. destruct (decide (k = k')) as [<-|Hne]; [|left; by rewrite lookup_delete_ne].
    rewrite Hk in Hk'. injection Hk' as <-. right. exists w. left.
Qed.

(** A step that adds no waiting request and drops none without an answer. *)
Record fewer (s s' : Process) : Prop := {
  fw_pending : p_pending s' ⊆ p_pending s; fw_leaders : p_leaders s' = p_leaders s; fw_heard : heard s s' }.

Lemma fewer_refl s : fewer s s.
Proof. split; [done..|by apply heard_same]. Qed.
Lemma fewer_trans s1 s2 s3 : fewer s1 s2 → fewer s2 s3 → fewer s1 s3.
Proof. intros [H1 H2 H5] [H3 H4 H6]. split; [by etrans|congruence|by eapply heard_trans]. Qed.
Lemma waits_fewer s s' : waits_same s s' → fewer s s'.
Proof. intros [H1 H3 H4 _ H2]. split; [by rewrite H1|done|by apply heard_same]. Qed.
Lemma foldl_fewer {X} (f : Process → X → Process) l s : (∀ s x, fewer s (f s x)) → fewer s (foldl f s l).
Proof. intros Hf. revert s. induction l as [|x l IH]; intros s; cbn; [apply fewer_refl|]. eapply fewer_trans; [apply Hf|apply IH]. Qed.

(** A field that has nothing to do with the requests. *)
Ltac other s := split; [by destruct s|by destruct s|apply heard_same; by destruct s].

Lemma fewer_host h s : fewer s (set_host h s).
Proof. other s. Qed.
Lemma fewer_node n s : fewer s (set_node n s).
Proof. other s. Qed.

Lemma reply_pending_fewer gid idx w s : fewer s (reply_pending gid idx w s).
Proof.
  destruct (reply_pending_spec gid idx w s) as (_ & _ & Hl & Hp). split; [|done|].
  - destruct (p_pending s !! (gid, idx)); [destruct Hp as [-> _]; apply delete_subseteq|by rewrite Hp].
  - unfold reply_pending. destruct (p_pending s !! (gid, idx)) eqn:E; [by apply heard_write|by apply heard_same].
Qed.

Lemma apply_one_fewer s entry : fewer s (apply_one s entry).
Proof.
  destruct entry as [[[gid idx] term] command]. unfold Server.apply_one. destruct (p_blocked s); [apply fewer_refl|].
  eapply fewer_trans; [apply waits_fewer, (config_waits command)|]. set (s1 := config_step _ _ _ _ _).
  pose proof (waits_fewer _ _ (range_meta_waits command s1)) as Hr. destruct (range_meta_step raft_cfg command s1) as [[[]|e] s2]; cbn [snd] in Hr.
  2: { eapply fewer_trans; [exact Hr|apply reply_pending_fewer]. }
  eapply fewer_trans; [exact Hr|]. case_bool_decide.
  { eapply fewer_trans; [apply waits_fewer, append_record_waits|apply reply_pending_fewer]. }
  destruct (apply_command env command (p_node s2)) as [r n]. eapply fewer_trans; [apply (fewer_node n)|]. destruct r as [lsn|x|].
  - eapply fewer_trans; [apply waits_fewer, append_record_waits|apply reply_pending_fewer].
  - apply reply_pending_fewer.
  - set (s3 := set_node n s2). other s3.
Qed.

Lemma restore_table_fewer snapshot s : fewer s (restore_range_table_from_snapshot raft_cfg snapshot s).
Proof.
  unfold restore_range_table_from_snapshot. case_bool_decide; [apply fewer_refl|]. destruct (table_decode snapshot) as [t|]; [|apply fewer_refl].
  destruct (_ <? _); [apply fewer_refl|]. pose proof (waits_fewer _ _ (persist_table_waits t s)) as Hp.
  destruct (persist_range_table t s) as [[[]|] s1]; cbn [snd] in Hp; [|done]. eapply fewer_trans; [exact Hp|].
  eapply fewer_trans; [|apply waits_fewer, host_groups_waits]. other s1.
Qed.

Lemma install_payload_fewer data s : fewer s (install_payload raft_cfg self self_raft self_client data s).
Proof.
  unfold install_payload. destruct (parse_snapshot_payload_v2 data) as [[[eng mems] ranges]|]; [|apply fewer_node].
  eapply fewer_trans; [|apply restore_table_fewer].
  eapply fewer_trans; [instantiate (1 := if bool_decide (eng = []) then s else install_engine eng s)|].
  - case_bool_decide; [apply fewer_refl|apply fewer_node].
  - set (s1 := if bool_decide (eng = []) then _ else _). case_bool_decide; [apply fewer_refl|].
    unfold restore_configs. eapply fewer_trans; [|apply fewer_host]. apply waits_fewer, roster_waits.
Qed.

Lemma compact_fewer s : fewer s (maybe_compact_raft_log s).
Proof.
  unfold maybe_compact_raft_log. case_bool_decide; [apply fewer_refl|]. destruct (create_snapshot _) as [created e].
  eapply fewer_trans; [apply (fewer_node (set_core e (p_node s)))|]. set (s1 := set_node _ s). set (data := build_snapshot_payload_v2 _ _ _).
  eapply fewer_trans; [apply (fewer_host (foldl (compact_group data) (p_host s1) (compaction_targets (p_host s))))|]. set (s2 := set_host _ s1).
  case_bool_decide; [apply fewer_refl|]. unfold persist_raft_snapshot_atomically.
  pose proof (waits_fewer _ _ (fs_step_waits s2)) as Hf. destruct (fs_step s2) as [[] s3]; cbn [snd] in Hf; [|done].
  eapply fewer_trans; [exact Hf|]. other s3.
Qed.

Lemma reclaim_fewer s : fewer s (reclaim_orphan_groups s).
Proof.
  apply foldl_fewer. clear s. intros s gid. unfold reclaim_group. destruct (status_of gid (p_host s)) as [st|]; [|apply fewer_refl].
  destruct (_ =? _); [|apply fewer_refl]. set (s1 := set_persisters _ _). assert (fewer s s1) as H1 by other s.
  pose proof (waits_fewer _ _ (fs_step_waits s1)) as H2. destruct (fs_step s1) as [removed s2]. cbn [snd] in H2.
  eapply fewer_trans; [exact H1|]. eapply fewer_trans; [exact H2|]. destruct removed; other s2.
Qed.

Lemma answer_read_fewer s read : fewer s (answer_read s read).
Proof.
  unfold answer_read. destruct (p_pending_reads s !! read.2) eqn:E; [|apply fewer_refl].
  split; [by destruct s|by destruct s|by apply heard_read].
Qed.

Lemma drain_fewer s : fewer s (drain_and_apply env raft_cfg self self_raft self_client s).
Proof.
  unfold drain_and_apply. set (s1 := apply_installed_raft_snapshot _ _ _ _ s). assert (fewer s s1) as H1.
  { unfold s1, apply_installed_raft_snapshot. destruct (drain_installed (p_host s)) as [installed h].
    eapply fewer_trans; [apply (fewer_host h)|]. apply foldl_fewer. intros. apply install_payload_fewer. }
  eapply fewer_trans; [exact H1|]. destruct (drain_all_applied (p_host s1)) as [applied h].
  set (s2 := foldl _ _ applied). assert (fewer s1 s2) as H2.
  { eapply fewer_trans; [apply (fewer_host h)|]. apply foldl_fewer. apply apply_one_fewer. }
  eapply fewer_trans; [exact H2|]. destruct (p_blocked s2); [apply fewer_refl|].
  destruct (drain_all_ready_reads (p_host s2)) as [ready h2]. eapply fewer_trans; [apply (fewer_host h2)|].
  eapply fewer_trans; [apply (foldl_fewer answer_read ready), answer_read_fewer|].
  eapply fewer_trans; [apply compact_fewer|apply reclaim_fewer].
Qed.

Lemma persist_fewer s : fewer s (persist_raft_state s).
Proof.
  apply foldl_fewer. clear s. intros s [gid view]. unfold flush_group. cbn [fst snd]. destruct (p_persisters s !! gid) as [p|]; [|apply fewer_refl].
  destruct (if bool_decide (last_persisted p = Some view) then (true, s) else fs_step s) as [w s1] eqn:E.
  assert (fewer s s1) as H1.
  { case_bool_decide; [injection E as _ <-; apply fewer_refl|]. pose proof (waits_fewer _ _ (fs_step_waits s)) as Hs. by rewrite E in Hs. }
  eapply fewer_trans; [exact H1|]. destruct w; [|apply fewer_refl]. other s1.
Qed.

(** Every write that waits belongs to a group this process led at the end of the last event. *)
Definition pending_led s : Prop := ∀ g i, is_Some (p_pending s !! (g, i)) → g ∈ p_leaders s.

Lemma pending_led_within s s' : p_pending s' ⊆ p_pending s → p_leaders s' = p_leaders s → pending_led s → pending_led s'.
Proof. intros Hp Hl Hs g i [t Ht]. rewrite Hl. apply (Hs g i). exists t. eapply lookup_weaken; [exact Ht|done]. Qed.
Lemma pending_led_fewer s s' : fewer s s' → pending_led s → pending_led s'.
Proof. intros [Hp Hl _]. by apply pending_led_within. Qed.

Lemma host_propose_leads gid command h idx : (host_propose gid command h).1 = Some idx → gid ∈ leader_groups h.
Proof.
  unfold host_propose, on_group. destruct (h !! gid) as [n|] eqn:E; [|done]. unfold propose.
  destruct (is_leader n) eqn:El; cbn [negb]; [|done]. intros _. unfold leader_groups.
  apply elem_of_list_to_set, list_elem_of_filter. split; [unfold is_leader_of; by rewrite E|].
  unfold sorted_group_ids. apply elem_of_set_list, elem_of_dom. eauto.
Qed.

Lemma react_led ev s s' : pending_led s → leader_groups (p_host s) ⊆ p_leaders s → react ev s = Some s' → pending_led s'.
Proof.
  intros Hs Hl. destruct ev as [|e|ticket gid command|ticket gid rid]; cbn [react].
  - destruct (tick_all (p_host s)) as [out h]. intros [= <-]. eapply pending_led_within; [..|exact Hs]; by destruct s.
  - destruct (negb _); [done|]. destruct (host_handle e (p_host s)) as [out h]. intros [= <-]. eapply pending_led_within; [..|exact Hs]; by destruct s.
  - destruct (host_propose gid command (p_host s)) as [[idx|] h] eqn:E.
    + destruct (broadcast_group _ _) as [out h2]. intros [= <-] g i Hi.
      assert (is_Some (<[(gid, idx) := ticket]> (p_pending s) !! (g, i))) as Hi' by (by destruct s).
      replace (p_leaders _) with (p_leaders s) by (by destruct s).
      destruct (decide ((gid, idx) = (g, i))) as [[= <- <-]|Hne]; [|rewrite lookup_insert_ne in Hi' by done; by eapply Hs].
      apply Hl. eapply host_propose_leads. by rewrite E.
    + intros [= <-]. eapply pending_led_within; [..|exact Hs]; by destruct s.
  - destruct (propose_read_group gid rid (p_host s)) as [[idx|] h].
    + destruct (broadcast_group _ _) as [out h2]. intros [= <-]. eapply pending_led_within; [..|exact Hs]; by destruct s.
    + intros [= <-]. eapply pending_led_within; [..|exact Hs]; by destruct s.
Qed.

(** The places an event gives to its own request: the entry of a proposal, the number of a read. *)
Definition takes_write (ev : LoopEvent) s (k : N * N) : Prop :=
  match ev with LPropose _ gid command => gid = k.1 ∧ (host_propose gid command (p_host s)).1 = Some k.2 | _ => False end.
Definition takes_read (ev : LoopEvent) (k : N) : Prop := match ev with LRead _ _ rid => rid = k | _ => False end.

(** As [heard], but for who waited where the event's own request now waits. *)
Record heard_but (ev : LoopEvent) (s0 s s' : Process) : Prop := {
  hb_pending : ∀ k t, p_pending s !! k = Some t → p_pending s' !! k = Some t ∨ replied s' t ∨ takes_write ev s0 k;
  hb_reads : ∀ k t, p_pending_reads s !! k = Some t → p_pending_reads s' !! k = Some t ∨ replied s' t ∨ takes_read ev k }.

Lemma heard_but_same ev s s' : heard s s' → heard_but ev s s s'.
Proof. intros [_ H1 H2]. split; intros k t Hk; [destruct (H1 k t Hk)|destruct (H2 k t Hk)]; auto. Qed.
Lemma heard_but_then ev s0 s s1 s2 : heard_but ev s0 s s1 → heard s1 s2 → heard_but ev s0 s s2.
Proof.
  intros [H1 H2] [H3 H4 H5]. split; intros k t Hk.
  - destruct (H1 k t Hk) as [Hk1|[?|?]]; [destruct (H4 k t Hk1)|..]; auto.
  - destruct (H2 k t Hk) as [Hk1|[?|?]]; [destruct (H5 k t Hk1)|..]; auto.
Qed.

Lemma react_heard ev s s' : react ev s = Some s' → heard_but ev s s s'.
Proof.
  destruct ev as [|e|ticket gid command|ticket gid rid]; cbn [react].
  - destruct (tick_all (p_host s)) as [out h]. intros [= <-]. apply heard_but_same, heard_same; by destruct s.
  - destruct (negb _); [done|]. destruct (host_handle e (p_host s)) as [out h]. intros [= <-]. apply heard_but_same, heard_same; by destruct s.
  - destruct (host_propose gid command (p_host s)) as [[idx|] h] eqn:E.
    + destruct (broadcast_group _ _) as [out h2]. intros [= <-]. set (s' := send_out _ _).
      assert (p_pending s' = <[(gid, idx) := ticket]> (p_pending s) ∧ p_pending_reads s' = p_pending_reads s) as [H1 H2] by (by destruct s).
      split; rewrite ?H1, ?H2; [|by left]. intros k t Hk. destruct (decide ((gid, idx) = k)) as [<-|Hne]; [|left; by rewrite lookup_insert_ne].
      right. right. cbn. by rewrite E.
    + intros [= <-]. set (s' := reply _ _ _). assert (p_pending s' = p_pending s ∧ p_pending_reads s' = p_pending_reads s) as [H1 H2] by (by destruct s).
      split; rewrite ?H1, ?H2; by left.
  - destruct (propose_read_group gid rid (p_host s)) as [[idx|] h].
    + destruct (broadcast_group _ _) as [out h2]. intros [= <-]. set (s' := send_out _ _).
      assert (p_pending s' = p_pending s ∧ p_pending_reads s' = <[rid := ticket]> (p_pending_reads s)) as [H1 H2] by (by destruct s).
      split; rewrite ?H1, ?H2; [by left|]. intros k t Hk. destruct (decide (rid = k)) as [<-|Hne]; [|left; by rewrite lookup_insert_ne].
      by right; right.
    + intros [= <-]. set (s' := reply _ _ _). assert (p_pending s' = p_pending s ∧ p_pending_reads s' = p_pending_reads s) as [H1 H2] by (by destruct s).
      split; rewrite ?H1, ?H2; by left.
Qed.

(** The first loop of [abort_pending], over any list of waiting requests. *)
Definition drop_writes (l : list (N * N * N)) s : Process :=
  foldl (λ s x, reply x.2 (WError "not_leader") (set_pending (base.delete x.1 (p_pending s)) s)) s l.
Definition drop_reads (l : list (N * N)) s : Process :=
  foldl (λ s x, reply x.2 (WError "not_leader") (set_pending_reads (base.delete x.1 (p_pending_reads s)) s)) s l.

Lemma drop_writes_spec l : ∀ s, p_leaders (drop_writes l s) = p_leaders s ∧ p_pending_reads (drop_writes l s) = p_pending_reads s ∧
  ∀ k, p_pending (drop_writes l s) !! k = if bool_decide (k ∈ l.*1) then None else p_pending s !! k.
Proof.
  induction l as [|[k0 t] l IH]; intros s; [done|].
  set (s1 := reply t (WError "not_leader") (set_pending (base.delete k0 (p_pending s)) s)).
  change (drop_writes ((k0, t) :: l) s) with (drop_writes l s1). cbn [fmap list_fmap fst]. destruct (IH s1) as (H1 & H2 & H3). split_and!; [rewrite H1; by destruct s|rewrite H2; by destruct s|].
  intros k. rewrite H3. replace (p_pending s1) with (base.delete k0 (p_pending s)) by (by destruct s).
  destruct (decide (k ∈ l.*1)).
  - rewrite !bool_decide_true; [done|by right|done].
  - rewrite (bool_decide_false (k ∈ l.*1)) by done. destruct (decide (k0 = k)) as [->|Hne].
    + rewrite lookup_delete_eq, bool_decide_true; [done|left].
    + rewrite lookup_delete_ne by done. rewrite bool_decide_false; [done|]. by intros [->|?]%elem_of_cons.
Qed.

Lemma drop_reads_spec l : ∀ s, p_leaders (drop_reads l s) = p_leaders s ∧ p_pending (drop_reads l s) = p_pending s ∧
  ∀ k, p_pending_reads (drop_reads l s) !! k = if bool_decide (k ∈ l.*1) then None else p_pending_reads s !! k.
Proof.
  induction l as [|[k0 t] l IH]; intros s; [done|].
  set (s1 := reply t (WError "not_leader") (set_pending_reads (base.delete k0 (p_pending_reads s)) s)).
  change (drop_reads ((k0, t) :: l) s) with (drop_reads l s1). cbn [fmap list_fmap fst]. destruct (IH s1) as (H1 & H2 & H3). split_and!; [rewrite H1; by destruct s|rewrite H2; by destruct s|].
  intros k. rewrite H3. replace (p_pending_reads s1) with (base.delete k0 (p_pending_reads s)) by (by destruct s).
  destruct (decide (k ∈ l.*1)).
  - rewrite !bool_decide_true; [done|by right|done].
  - rewrite (bool_decide_false (k ∈ l.*1)) by done. destruct (decide (k0 = k)) as [->|Hne].
    + rewrite lookup_delete_eq, bool_decide_true; [done|left].
    + rewrite lookup_delete_ne by done. rewrite bool_decide_false; [done|]. by intros [->|?]%elem_of_cons.
Qed.

Lemma drop_writes_heard l : ∀ s, (∀ k t, (k, t) ∈ l → p_pending s !! k = Some t) → NoDup l.*1 → heard s (drop_writes l s).
Proof.
  induction l as [|[k t] l IH]; intros s Hl Hd; [by apply heard_same|]. cbn in Hd. apply NoDup_cons in Hd as [Hk Hd].
  eapply heard_trans; [apply (heard_write k t (WError "not_leader")); apply Hl; left|]. cbn [drop_writes foldl]. apply IH; [|done].
  intros k' t' Hin. replace (p_pending _) with (base.delete k (p_pending s)) by (by destruct s).
  rewrite lookup_delete_ne; [apply Hl; by right|]. intros ->. apply Hk. by apply (list_elem_of_fmap_2 fst _ (k', t')).
Qed.
Lemma drop_reads_heard l : ∀ s, (∀ k t, (k, t) ∈ l → p_pending_reads s !! k = Some t) → NoDup l.*1 → heard s (drop_reads l s).
Proof.
  induction l as [|[k t] l IH]; intros s Hl Hd; [by apply heard_same|]. cbn in Hd. apply NoDup_cons in Hd as [Hk Hd].
  eapply heard_trans; [apply (heard_read k t (WError "not_leader")); apply Hl; left|]. cbn [drop_reads foldl]. apply IH; [|done].
  intros k' t' Hin. replace (p_pending_reads _) with (base.delete k (p_pending_reads s)) by (by destruct s).
  rewrite lookup_delete_ne; [apply Hl; by right|]. intros ->. apply Hk. by apply (list_elem_of_fmap_2 fst _ (k', t')).
Qed.

Lemma abort_pending_heard lost s : heard s (abort_pending lost s).
Proof.
  unfold abort_pending. set (gone := filter _ _). fold (drop_writes gone s).
  eapply heard_trans; [apply (drop_writes_heard gone)|].
  - intros k t [_ Hin]%list_elem_of_filter. by apply elem_of_map_to_list.
  - eapply sublist_NoDup; [|apply fmap_sublist, sublist_filter]. apply NoDup_fst_map_to_list.
  - fold (drop_reads (map_to_list (p_pending_reads (drop_writes gone s))) (drop_writes gone s)). apply drop_reads_heard.
    + intros k t Hin. by apply elem_of_map_to_list.
    + apply NoDup_fst_map_to_list.
Qed.

(** After an abort nothing waits for a lost group, and no read waits at all. *)
Lemma abort_pending_spec lost s :
  p_leaders (abort_pending lost s) = p_leaders s ∧ p_pending_reads (abort_pending lost s) = ∅ ∧
  ∀ g i, p_pending (abort_pending lost s) !! (g, i) = if bool_decide (g ∈ lost) then None else p_pending s !! (g, i).
Proof.
  unfold abort_pending. fold (drop_writes (filter (λ x, x.1.1 ∈ lost) (map_to_list (p_pending s))) s).
  destruct (drop_writes_spec (filter (λ x, x.1.1 ∈ lost) (map_to_list (p_pending s))) s) as (H1 & H2 & H3). set (s1 := drop_writes _ s) in *.
  fold (drop_reads (map_to_list (p_pending_reads s1)) s1). destruct (drop_reads_spec (map_to_list (p_pending_reads s1)) s1) as (H4 & H5 & H6).
  split_and!; [congruence|..].
  - apply map_eq. intros k. rewrite H6, lookup_empty. case_bool_decide as E; [done|].
    destruct (p_pending_reads s1 !! k) as [t|] eqn:Ek; [|done]. exfalso. apply E. apply list_elem_of_fmap. exists (k, t). split; [done|].
    by apply elem_of_map_to_list.
  - intros g i. rewrite H5, H3. destruct (decide (g ∈ lost)) as [Hg|Hg].
    + rewrite (bool_decide_true (g ∈ lost)) by done. case_bool_decide as E; [done|].
      destruct (p_pending s !! (g, i)) as [t|] eqn:Ek; [|done]. exfalso. apply E. apply list_elem_of_fmap. exists (g, i, t). split; [done|].
      apply list_elem_of_filter. split; [done|]. by apply elem_of_map_to_list.
    + rewrite (bool_decide_false (g ∈ lost)) by done. rewrite bool_decide_false; [done|].
      intros ([k t] & E & [Hin _]%list_elem_of_filter)%list_elem_of_fmap. cbn [fst] in E. subst k. done.
Qed.

Lemma elem_leader_groups g h : g ∈ leader_groups h ↔ ∃ n, h !! g = Some n ∧ role n = Leader.
Proof.
  unfold leader_groups, is_leader_of, sorted_group_ids. rewrite elem_of_list_to_set, list_elem_of_filter, elem_of_set_list, elem_of_dom. split.
  - intros [Hl [n Hn]]. rewrite Hn in Hl. cbn in Hl. unfold is_leader in Hl. exists n. split; [done|by apply bool_decide_eq_true in Hl].
  - intros (n & Hn & Hr). rewrite Hn. split; [|by eexists]. cbn. unfold is_leader. by apply bool_decide_eq_true.
Qed.

(** Proposing concerns its group only and makes no leader. *)
Lemma propose_leaders gid command h : leader_groups (host_propose gid command h).2 ⊆ leader_groups h ∧
  ∀ g, g ≠ gid → g ∈ leader_groups h → g ∈ leader_groups (host_propose gid command h).2.
Proof.
  unfold host_propose, on_group. destruct (h !! gid) as [n|] eqn:E; [|done].
  destruct (propose command n) as [idx n'] eqn:Ep. cbn [snd]. split.
  - intros g (m & Hm & Hr)%elem_leader_groups. apply elem_leader_groups.
    apply lookup_insert_Some in Hm as [[<- <-]|[_ Hm]]; [|by exists m]. exists n. split; [done|]. unfold propose in Ep.
    destruct (is_leader n) eqn:El; [by apply bool_decide_eq_true in El|]. by injection Ep as _ <-.
  - intros g Hg (m & Hm & Hr)%elem_leader_groups. apply elem_leader_groups. exists m. by rewrite lookup_insert_ne.
Qed.

Lemma orphans_leaders s : let h := p_host (abort_orphaned_prepares s) in
  leader_groups h ⊆ leader_groups (p_host s) ∧ ∀ g, g ≠ 0 → g ∈ leader_groups (p_host s) → g ∈ leader_groups h.
Proof.
  unfold abort_orphaned_prepares. destruct (undecided_prepared_txns (p_node s)) as [[orphans|x|] n].
  2,3: by destruct s.
  replace (p_host (set_host _ (set_node n s))) with
    (foldl (λ h txn_id, (host_propose 0 (cmd_encode (CTxnDecision txn_id false)) h).2) (p_host s) orphans) by (by destruct s).
  generalize (p_host s). induction orphans as [|x orphans IH]; intros h; [done|]. cbn [foldl].
  destruct (IH (host_propose 0 (cmd_encode (CTxnDecision x false)) h).2) as [H1 H2].
  destruct (propose_leaders 0 (cmd_encode (CTxnDecision x false)) h) as [H3 H4]. split; [set_solver|]. intros g Hg Hl. apply H2, H4; done.
Qed.

Lemma orphans_waits s : p_pending (abort_orphaned_prepares s) = p_pending s ∧ p_pending_reads (abort_orphaned_prepares s) = p_pending_reads s ∧
  p_replies (abort_orphaned_prepares s) = p_replies s.
Proof. unfold abort_orphaned_prepares. destruct (undecided_prepared_txns (p_node s)) as [[orphans|x|] n]; split_and!; field s. Qed.

(** The state between events: this process remembers every group it leads, and the writes that
    wait are of groups it leads. *)
Record waits_on_led s : Prop := {
  wl_known : leader_groups (p_host s) ⊆ p_leaders s;
  wl_led : ∀ g i, is_Some (p_pending s !! (g, i)) → g ∈ leader_groups (p_host s) }.

Lemma drop_writes_host l s : p_host (drop_writes l s) = p_host s.
Proof. revert s. induction l as [|x l IH]; intros s; [done|]. cbn [drop_writes foldl]. etransitivity; [apply IH|]. by destruct s. Qed.
Lemma drop_reads_host l s : p_host (drop_reads l s) = p_host s.
Proof. revert s. induction l as [|x l IH]; intros s; [done|]. cbn [drop_reads foldl]. etransitivity; [apply IH|]. by destruct s. Qed.
Lemma abort_pending_host lost s : p_host (abort_pending lost s) = p_host s.
Proof. etransitivity; [apply drop_reads_host|apply drop_writes_host]. Qed.

(** The end of a round. *)
Lemma after_event_led s : pending_led s → let s' := after_event s in
  waits_on_led s' ∧ heard s s' ∧ ∀ g, g ∈ p_leaders s → g ∉ leader_groups (p_host s') → p_pending_reads s' = ∅.
Proof.
  intros Hs. unfold after_event. set (current := leader_groups (p_host s)). set (lost := p_leaders s ∖ current).
  set (s1 := if bool_decide (lost = ∅) then s else abort_pending lost s).
  assert (p_host s1 = p_host s ∧ p_leaders s1 = p_leaders s ∧ heard s s1 ∧ (lost ≠ ∅ → p_pending_reads s1 = ∅) ∧
    ∀ g i, is_Some (p_pending s1 !! (g, i)) → g ∈ p_leaders s ∧ g ∉ lost) as (E1 & E2 & H1 & H2 & H3).
  { unfold s1. case_bool_decide as E.
    - split_and!; [done|done|by apply heard_same|done|]. intros g i Hi. rewrite E. split; [by eapply Hs|set_solver].
    - destruct (abort_pending_spec lost s) as (Hl & Hr & Hp). split_and!; [apply abort_pending_host|done|apply abort_pending_heard|done|].
      intros g i Hi. rewrite Hp in Hi. case_bool_decide as Hg; [by destruct Hi|]. split; [by eapply Hs|done]. }
  set (s2 := if bool_decide (0 ∈ current) && _ then abort_orphaned_prepares s1 else s1).
  assert (p_pending s2 = p_pending s1 ∧ p_pending_reads s2 = p_pending_reads s1 ∧ p_replies s2 = p_replies s1) as (H4 & H5 & H6).
  { unfold s2. destruct (_ && _); [apply orphans_waits|done]. }
  assert (leader_groups (p_host s2) ⊆ current ∧ ∀ g, g ∈ current → g ∈ p_leaders s → g ∈ leader_groups (p_host s2)) as [H7 H8].
  { assert (current = leader_groups (p_host s1)) as Hcur by (by rewrite E1). clearbody s1. clear H4 H5 H6. unfold s2. clear s2. rewrite E2.
    clear H2 H3. clearbody lost. clearbody current.
    rewrite Hcur. clear Hcur. destruct (bool_decide (0 ∈ leader_groups (p_host s1))); [|by split]. cbn [andb].
    case_bool_decide as E0; cbn [negb]; [by split|]. destruct (orphans_leaders s1) as [Ha Hb]. split; [done|].
    intros g Hg Hl. apply Hb; [|done]. by intros ->. }
  assert (p_host (set_leaders current s2) = p_host s2 ∧ p_leaders (set_leaders current s2) = current ∧
    p_pending (set_leaders current s2) = p_pending s2 ∧ p_pending_reads (set_leaders current s2) = p_pending_reads s2 ∧
    p_replies (set_leaders current s2) = p_replies s2) as (F1 & F2 & F3 & F4 & F5) by (by destruct s2).
  split_and!.
  - split; rewrite F1, ?F2, ?F3, ?H4; [done|]. intros g i Hi. destruct (H3 g i Hi) as [Hg Hn]. apply H8; [|done]. unfold lost in Hn. set_solver.
  - eapply heard_trans; [exact H1|]. apply heard_same; congruence.
  - intros g Hg Hn. rewrite F4, H5. apply H2. rewrite F1 in Hn. intros E. apply Hn, H8; [|done]. unfold lost in E. set_solver.
Qed.

Lemma loop_event_led ev s : waits_on_led s → let s' := loop_event env raft_cfg self self_raft self_client ev s in
  p_blocked s' = true ∨
  waits_on_led s' ∧ heard_but ev s s s' ∧ (leader_groups (p_host s) ⊈ leader_groups (p_host s') → p_pending_reads s' = ∅).
Proof.
  intros Hw. assert (pending_led s) as Hs by (intros g i Hi; by apply Hw, (wl_led s Hw g i)).
  unfold loop_event. destruct (p_blocked s) eqn:Eb; [by left|].
  destruct (react ev s) as [s1|] eqn:Er; [|right; split_and!; [done|by apply heard_but_same, heard_same|done]].
  pose proof (react_led ev s s1 Hs (wl_known s Hw) Er) as H1. pose proof (react_heard ev s s1 Er) as Hh.
  assert (p_leaders s1 = p_leaders s) as Hls.
  { destruct ev; cbn [react] in Er; repeat case_match; simplify_eq; try done; field s. }
  assert (∀ s2, pending_led s2 → p_leaders s2 = p_leaders s → heard s1 s2 → waits_on_led (after_event s2) ∧ heard_but ev s s (after_event s2) ∧
    (leader_groups (p_host s) ⊈ leader_groups (p_host (after_event s2)) → p_pending_reads (after_event s2) = ∅)) as Ha.
  { intros s2 H2 Hl2 Hh2. destruct (after_event_led s2 H2) as (? & Hle & Hr). split_and!; [done|..].
    - eapply heard_but_then; [exact Hh|]. by eapply heard_trans.
    - intros Hn. destruct (decide (p_pending_reads (after_event s2) = ∅)); [done|]. exfalso. apply Hn. intros g Hg.
      destruct (decide (g ∈ leader_groups (p_host (after_event s2)))); [done|]. exfalso. apply n. apply (Hr g); [|done].
      rewrite Hl2. by apply Hw. }
  destruct (accepted ev s); [|right; apply Ha; [done|done|by apply heard_same]].
  pose proof (drain_fewer s1) as Hd. set (s2 := drain_and_apply _ _ _ _ _ s1) in *.
  destruct (p_blocked s2) eqn:Eb2; [by left|]. right. pose proof (fewer_trans _ _ _ Hd (persist_fewer s2)) as Hp. apply Ha.
  - by eapply pending_led_fewer.
  - by rewrite (fw_leaders _ _ Hp).
  - apply Hp.
Qed.

Lemma loop_event_blocked ev s : p_blocked s = true → loop_event env raft_cfg self self_raft self_client ev s = s.
Proof. intros Hb. unfold loop_event. by rewrite Hb. Qed.

Lemma run_loop_led evs s : waits_on_led s → let s' := run_loop env raft_cfg self self_raft self_client evs s in
  p_blocked s' = true ∨ waits_on_led s'.
Proof.
  intros Hw. cbv zeta. induction evs as [|ev evs IH] using rev_ind; [by right|]. unfold run_loop in *. rewrite foldl_snoc.
  destruct IH as [Hb|Hi]; [left; by rewrite loop_event_blocked|]. destruct (loop_event_led ev _ Hi) as [?|(? & _)]; auto.
Qed.

(** C21: nobody waits for ever on a lost leadership. From a state in which nobody waits and every
    group this process leads is one it remembers (as when it starts), after any events, the next
    round of the loop, unless the engine itself hangs, ends with every waiting write in a group
    whose Raft node on this process is the leader; if a group was led before the round and is not
    led after it, no read waits any more. Nobody is dropped on the way: a write or a read that
    waited before the round still waits or has been answered, unless the round's own request was
    given its place (the same group and index, or the same number of a read). *)
Theorem loop_no_stale_waiters evs ev s :
  p_pending s = ∅ → leader_groups (p_host s) ⊆ p_leaders s →
  let s1 := run_loop env raft_cfg self self_raft self_client evs s in
  let s2 := loop_event env raft_cfg self self_raft self_client ev s1 in
  p_blocked s2 = true ∨
  (∀ g i, is_Some (p_pending s2 !! (g, i)) → ∃ n, p_host s2 !! g = Some n ∧ role n = Leader) ∧
  (leader_groups (p_host s1) ⊈ leader_groups (p_host s2) → p_pending_reads s2 = ∅) ∧
  (∀ k t, p_pending s1 !! k = Some t → p_pending s2 !! k = Some t ∨ replied s2 t ∨ takes_write ev s1 k) ∧
  (∀ k t, p_pending_reads s1 !! k = Some t → p_pending_reads s2 !! k = Some t ∨ replied s2 t ∨ takes_read ev k).
Proof.
  intros Hp Hl s1 s2. assert (waits_on_led s) as Hw.
  { split; [done|]. rewrite Hp. intros g i [t Ht]. by rewrite lookup_empty in Ht. }
  destruct (run_loop_led evs s Hw) as [Hb|H1].
  { left. unfold s2. by rewrite loop_event_blocked. }
  destruct (loop_event_led ev s1 H1) as [?|(H2 & [H3 H4] & H5)]; [by left|right]. split_and!; [|done..].
  intros g i Hi. apply elem_leader_groups. by eapply wl_led.
Qed.
End Loop.
