(* ===== verification/ServerDemo.v ===== *)
(** Server processes on concrete inputs: the hypotheses of the theorems hold, and two defects of
    the event loop. *)
From stdpp Require Import gmap strings.
From S2P Require Import Prelude Bytes Core Hlc OrdMap Path Disk WalCodec WalWriter InternalKey SstBlock SstSpec Memtable Manifest Compaction Engine EngineStore EngineSnapshot EngineReads Index Cdc Node Txn NodePlans Txn2pc RaftConfig RaftCommand RaftLog RaftStorage RaftNode MultiRaft Ranges RangesProps NetCodec Roster RosterProps TxnCoord SnapPayload ClientOps Server ServerProps.

Open Scope N_scope.

(** A process with the given directories that hosts nothing yet. *)
Definition blank (dirs : gmap N GroupDir) : Process (T:=list SstEntry) (A:=bool) :=
  mkProcess ∅ fresh_node ∅ (single_group 0) 0 ∅ ∅ [] ∅ ∅ ∅ dirs (Some (table_encode (single_group 0))) None 0 [] [] false None.
(** It starts and hosts group 0. *)
Definition started (c : RaftConfig) (dirs : gmap N GroupDir) : Process (T:=list SstEntry) (A:=bool) := host_groups c [0] (blank dirs).

Definition alone : RaftConfig := mkRaftConfig 1 [] 10 2.

(** A node of a cluster of the given members. *)
Definition member_of (ids : list N) (i : N) : RaftConfig := mkRaftConfig i (filter (λ j, j ≠ i) ids) 10 2.

Lemma single_group_fits : table_fits (single_group 0).
Proof. split; cbn [single_group ranges]; try done. by repeat constructor. Qed.

(** A split and a move are prepared from the same table; the split is applied first. *)
Definition demo_split : StaticRangeTable := mkTable [mkRange [] [109] 0 1 2; mkRange [109] [] 1 2 1] 2 3 2.
Definition demo_move : StaticRangeTable := match apply_op (Move [] 7) (single_group 0) with Ok t => t | Err _ => single_group 0 end.
Definition after_split : Process (T:=list SstEntry) (A:=bool) := (apply_range_meta_entry alone 1 (table_encode demo_split) (started alone ∅)).2.

(** The move then finds another table and is refused. *)
Lemma range_changes_serialised_witness :
  p_table after_split = demo_split ∧
  (table_reachable (p_table after_split) ∧ load_persisted_range_table (p_table_file after_split) = Some (p_table after_split)) ∧
  ∀ base snapshot, (base, snapshot) ∈ [(1, table_encode demo_move); (1, table_encode demo_split)] →
    let '(r, s'') := apply_range_meta_entry alone base snapshot after_split in
    (p_table s'' = p_table after_split ∨ ∃ op, op_ok op (p_table after_split) ∧ apply_op op (p_table after_split) = Ok (p_table s'')) ∧
    (r = Ok tt → table_decode snapshot = Ok (p_table s'')).
Proof.
  split; [by vm_compute|].
  destruct (range_changes_serialised alone (started alone ∅) after_split [(1, table_encode demo_move); (1, table_encode demo_split)])
    as (H1 & H2 & H3); [..|by split_and!].
  - change (table_reachable (single_group 0)). by apply reach_single.
  - apply single_group_fits.
  - done.
  - eapply rtc_l; [apply (step_prepare alone (started alone ∅) [] (Split [109]) demo_split)|].
    + done.
    + by vm_compute.
    + split; try done. repeat (constructor; [by split|]). constructor.
    + done.
    + eapply rtc_l; [apply (step_prepare alone (started alone ∅) [(1, table_encode demo_split)] (Move [] 7) demo_move)|].
      * done.
      * by vm_compute.
      * split; try done. repeat (constructor; [by split|]). constructor.
      * done.
      * eapply rtc_l; [|apply rtc_refl]. refine (step_apply alone (started alone ∅) _ 1 (table_encode demo_split) _). right. left.
Defined.

(** ** A vote that is forgotten *)

Definition three : list N := [1; 2; 3].

(** A node is elected, takes a proposal, which waits for the others, and hears of a new leader. *)
Definition elected_events : list LoopEvent :=
  repeat LTick 10 ++ [LMessage (mkEnvelope 2 1 0 (MVoteResponse (mkVoteResponse 1 true))); LPropose 7 0 [1]].
Definition new_leader : LoopEvent := LMessage (mkEnvelope 3 1 0 (MAppendRequest (mkAppendRequest 2 3 0 0 [] 0))).
Definition with_waiter : Process (T:=list SstEntry) (A:=bool) :=
  run_loop still (member_of three 1) 1 true false elected_events (started (member_of three 1) ∅).
Definition deposed : Process (T:=list SstEntry) (A:=bool) := loop_event still (member_of three 1) 1 true false new_leader with_waiter.

Lemma with_waiter_waits : p_pending with_waiter !! (0, 2) = Some 7.
Proof. by vm_compute. Qed.
Lemma deposed_works : p_blocked deposed = false ∧ p_pending deposed !! (0, 2) = None.
Proof. split; by vm_compute. Qed.

(** The proposal has been answered. *)
Lemma loop_no_stale_waiters_witness : p_pending with_waiter !! (0, 2) = Some 7 ∧ replied deposed 7.
Proof.
  assert (∀ s1 s2, s1 = with_waiter → s2 = deposed → p_blocked s2 = true ∨
    ∀ k t, p_pending s1 !! k = Some t → p_pending s2 !! k = Some t ∨ replied s2 t ∨ takes_write new_leader s1 k) as H.
  { intros s1 s2 -> ->. unfold deposed, with_waiter.
    destruct (loop_no_stale_waiters still (member_of three 1) 1 true false elected_events new_leader (started (member_of three 1) ∅))
      as [H|(_ & _ & H & _)]; [by vm_compute|by apply (bool_decide_unpack _)|left; exact H|right; exact H]. }
  pose proof with_waiter_waits as H1. pose proof deposed_works as [H2 H3]. specialize (H with_waiter deposed eq_refl eq_refl).
  revert H H1 H2 H3. generalize with_waiter as s1, deposed as s2. intros s1 s2 [H|H] H1 H2 H3; [congruence|]. split; [exact H1|].
  destruct (H (0, 2) 7 H1) as [H4|[H4|H4]]; [congruence|exact H4|destruct H4].
Defined.

(** A node that has just started its first election, and the requests it sends. *)
Definition candidate (i : N) : RaftNode * list Envelope :=
  Nat.iter 10 (λ x, let '(n, out) := x in let '(n, out') := tick n in (n, out ++ out')) (node_new (member_of three i), []).
Definition request_to (j : N) (c : RaftNode * list Envelope) : list Envelope := filter (λ e, to e = j) c.2.

(** The voter's process handles a message and stops before the state is written. *)
Definition interrupted (e : Envelope) (s : Process (T:=list SstEntry) (A:=bool)) : Process (T:=list SstEntry) (A:=bool) :=
  default s (react (LMessage e) s).

(** C36: the loop sends what a group answers before it writes the group's state. A voter that
    stops in between forgets its vote, and gives it again in the same term after the restart:
    two nodes of a cluster of three lead the same term. *)
Theorem vote_given_twice :
  let voter := member_of three 2 in
  ∃ r1 r3, request_to 2 (candidate 1) = [r1] ∧ request_to 2 (candidate 3) = [r3] ∧
  let s1 := interrupted r1 (started voter ∅) in
  let s2 := interrupted r3 (started voter (p_dirs s1)) in
  ∃ v1 v3, p_sent s1 = [v1] ∧ p_sent s2 = [v3] ∧
  let l1 := (handle v1 (candidate 1).1).1 in
  let l3 := (handle v3 (candidate 3).1).1 in
  is_leader l1 = true ∧ is_leader l3 = true ∧ current_term l1 = current_term l3 ∧ node_id l1 = 1 ∧ node_id l3 = 3.
Proof.
  intros voter. eexists _, _. split; [vm_compute; reflexivity|]. split; [vm_compute; reflexivity|].
  intros s1 s2. eexists _, _. split; [vm_compute; reflexivity|]. split; [vm_compute; reflexivity|]. by vm_compute.
Qed.

(** ** A follower that is never brought up to date *)

Definition five : list N := [1; 2; 3; 4; 5].
Definition log64 : MemLog := mkMemLog (replicate 64 (mkEntry 1 [])) 0 0 None.

(** A follower with 64 entries of term 1, all but the last applied ... *)
Definition lagging : RaftNode := set_recovered_apply_floor 63 (set_current_term 1 (set_log log64 (node_new (member_of five 1)))).
(** ... hears from the leader of term 3, which has one entry of its own and has committed 64. *)
Definition from_leader_3 : Envelope := mkEnvelope 3 1 0 (MAppendRequest (mkAppendRequest 3 3 64 1 [mkEntry 3 []] 64)).
Definition follower_process : Process (T:=list SstEntry) (A:=bool) :=
  loop_event still (member_of five 1) 1 true false (LMessage from_leader_3) (set_host {[ 0 := lagging ]} (blank ∅)).
Definition follower : RaftNode := default lagging (p_host follower_process !! 0).

(** A node that has compacted the same entries in term 1 and is elected in term 4. *)
Definition granted (i : N) : Envelope := mkEnvelope i 2 0 (MVoteResponse (mkVoteResponse 4 true)).
Definition leader_4 : RaftNode :=
  let n := set_recovered_apply_floor 64 (set_current_term 1 (set_log log64 (node_new (member_of five 2)))) in
  let n := set_current_term 3 (compact 64 1 [9] n) in
  let n := Nat.iter 10 (λ n, (tick n).1) n in
  (handle (granted 5) (handle (granted 4) n).1).1.

(** Messages between the two, each handled in turn. *)
Definition pass_message (m : Envelope) (x : RaftNode * RaftNode) : list Envelope * (RaftNode * RaftNode) :=
  let '(l, f) := x in
  if to m =? 1 then let '(f, out) := handle m f in (filter (λ e, to e = 2) out, (l, f))
  else let '(l, out) := handle m l in (filter (λ e, to e = 1) out, (l, f)).
Fixpoint converse (fuel : nat) (msgs : list Envelope) (x : RaftNode * RaftNode) : list Envelope * (RaftNode * RaftNode) :=
  match fuel, msgs with
  | S fuel, m :: msgs => let '(out, x) := pass_message m x in converse fuel (msgs ++ out) x
  | _, _ => (msgs, x)
  end.
(** A heartbeat of the leader and the conversation it starts. *)
Definition heartbeat (x : RaftNode * RaftNode) : list Envelope * (RaftNode * RaftNode) :=
  let '(l, out1) := tick x.1 in
  let '(l, out2) := tick l in
  converse 10 (filter (λ e, to e = 1) (out1 ++ out2)) (l, x.2).

Lemma heartbeat_repeats : heartbeat (heartbeat (leader_4, follower)).2 = heartbeat (leader_4, follower).
Proof. by vm_compute. Qed.

(** C37: compaction records the current term of the node as the term of the last entry it drops. A
    follower that learns in term 3 that entry 64 of term 1 is committed claims term 3 for it. The
    leader of term 4, which has the right term, is refused at entry 64, sends its snapshot, which
    the follower ignores, and is refused again: however many heartbeats it sends, each
    conversation ends, and the follower keeps its entry of term 3 and gets none of the leader's. *)
Theorem compaction_term_wedges k :
  is_leader leader_4 = true ∧ term_at log64 64 = Some 1 ∧ term_at (log follower) 64 = Some 3 ∧
  let '(msgs, (l, f)) := Nat.iter (S k) (λ x, heartbeat x.2) ([], (leader_4, follower)) in
  msgs = [] ∧ log f = log follower ∧ log_get (log f) 65 = Some (mkEntry 3 []) ∧ log_get (log l) 65 = Some (mkEntry 4 []).
Proof.
  split_and!; [by vm_compute..|].
  assert (Nat.iter (S k) (λ x, heartbeat x.2) ([], (leader_4, follower)) = heartbeat (leader_4, follower)) as ->; [|by vm_compute].
  induction k as [|k IH]; [done|]. rewrite Nat.iter_succ, IH. apply heartbeat_repeats.
Qed.
