(* ===== verification/RaftOwn.v ===== *)
(** What a leader's steps keep of the entry at one index: the log holds it or has compacted it,
    and the state machine is handed no other entry for that index. *)
From stdpp Require Import gmap relations.
From S2P Require Import Prelude Bytes RaftLog RaftConfig RaftCommand RaftStorage RaftNode RaftElection RaftReplication.

Open Scope N_scope.
Open Scope raft_scope.

Implicit Types n : RaftNode.

(** The command of index [i] is [c], wherever the node still has it. *)
Record own n (i : N) (c : bytes) : Prop := {
  own_index : i <= last_index (log n);
  own_log : ∀ e, log_get (log n) i = Some e → command e = c;
  own_queue : ∀ t c', (i, t, c') ∈ applied_entries n → c' = c
}.

(** What was handed over is in the log's range. *)
Definition queue_ok n : Prop := ∀ x, x ∈ applied_entries n → x.1.1 <= last_index (log n).

Lemma log_keeps_last t l l' i : log_keeps t l l' → i <= last_index l → i <= last_index l'.
Proof.
  intros [H1 H2 _] Hi. pose proof (last_index_eq l'). destruct (N.le_gt_cases i (last_included_index l')) as [Hle|Hgt]; [lia|].
  destruct (log_get_inside l i) as [e He]; [lia|]. apply (H2 _ _ Hgt), log_get_bound in He. lia.
Qed.

Lemma log_keeps_same t l l' i e : log_keeps t l l' → i <= last_index l → log_get l' i = Some e → log_get l i = Some e.
Proof.
  intros [H1 H2 _] Hi He. pose proof (log_get_bound _ _ _ He). destruct (log_get_inside l i) as [e' He']; [lia|].
  rewrite (H2 i e') in He; [congruence|lia|done].
Qed.

Lemma log_ext_keep l l' i e : log_ext l l' → i <= last_index l → log_get l' i = Some e → log_get l i = Some e.
Proof. intros Hx Hi He. by rewrite <- (log_ext_get l l' i Hx Hi). Qed.

(** A step that changes nothing but the log, by a leader. *)
Lemma own_keeps t n n' i c : log_keeps t (log n) (log n') → (∀ x, x ∈ applied_entries n' → x ∈ applied_entries n) → own n i c → own n' i c.
Proof.
  intros Hk Hq [H1 H2 H3]. split; [by eapply log_keeps_last|..].
  - intros e He. apply H2. by eapply log_keeps_same.
  - intros t' c' Hin. by eapply H3, Hq.
Qed.
Lemma own_ext n n' i c : log_ext (log n) (log n') → (∀ x, x ∈ applied_entries n' → x ∈ applied_entries n) → own n i c → own n' i c.
Proof.
  intros Hx Hq [H1 H2 H3]. pose proof (log_ext_last _ _ Hx). split; [lia|..].
  - intros e He. apply H2. by eapply log_ext_keep.
  - intros t' c' Hin. by eapply H3, Hq.
Qed.
Lemma queue_ext n n' : log_ext (log n) (log n') → (∀ x, x ∈ applied_entries n' → x ∈ applied_entries n) → queue_ok n → queue_ok n'.
Proof. intros Hx Hq H x Hin. pose proof (log_ext_last _ _ Hx). specialize (H x (Hq x Hin)). lia. Qed.

(** ** The apply pass *)

(** What the pass hands over is in the log. *)
Definition fresh n n' : Prop :=
  ∀ x, x ∈ applied_entries n' → x ∈ applied_entries n ∨ ∃ e, log_get (log n') x.1.1 = Some e ∧ x = (x.1.1, e_term e, command e).

Lemma apply_next_fresh n : log_ext (log n) (log (apply_next n).1) ∧ fresh n (apply_next n).1.
Proof.
  destruct (apply_next_spec n) as (_ & Hx & _ & _ & _ & Ha). split; [done|]. intros x. rewrite Ha, elem_of_app. intros [?|Hin]; [by left|right].
  unfold delivered in Hin. apply list_elem_of_omap in Hin as (i & _ & Hi). apply fmap_Some in Hi as (e & He & ->). exists e. cbn [fst].
  split; [|done]. pose proof (log_get_bound _ _ _ He). rewrite (log_ext_get _ _ _ Hx); [done|lia].
Qed.

Lemma fresh_trans n1 n2 n3 : fresh n1 n2 → log_ext (log n2) (log n3) → fresh n2 n3 → fresh n1 n3.
Proof.
  intros H1 Hx H2 x Hin. destruct (H2 x Hin) as [Hin2|?]; [|by right]. destruct (H1 x Hin2) as [?|(e & He & E)]; [by left|right].
  exists e. split; [|done]. pose proof (log_get_bound _ _ _ He). rewrite (log_ext_get _ _ _ Hx); [done|lia].
Qed.

Lemma apply_loop_fresh fuel n : log_ext (log n) (log (apply_loop fuel n).1) ∧ fresh n (apply_loop fuel n).1.
Proof.
  revert n. induction fuel as [|fuel IH]; intros n; cbn [apply_loop]; [split; [reflexivity|by left]|].
  destruct (_ <? _); [|split; [reflexivity|by left]]. destruct (apply_next_fresh n) as [H1 H2]. unfold andThen.
  destruct (apply_next n) as [n1 o1]. cbn [fst] in *. destruct (IH n1) as [H3 H4]. destruct (apply_loop fuel n1) as [n2 o2]. cbn [fst] in *.
  split; [by etrans|by eapply fresh_trans].
Qed.

Lemma apply_fresh n : log_ext (log n) (log (try_advance_apply n).1) ∧ fresh n (try_advance_apply n).1.
Proof.
  destruct (apply_loop_fresh (apply_fuel n) n) as [H1 H2]. unfold try_advance_apply, andThen. destruct (apply_loop (apply_fuel n) n) as [m o].
  cbn [fst upd] in *. destruct (check_pending_reads_same m) as (_ & E1 & _ & E2). unfold fresh in *. by rewrite E1, E2.
Qed.

Lemma own_apply n i c : own n i c → own (try_advance_apply n).1 i c.
Proof.
  destruct (apply_fresh n) as [Hx Hf]. intros [H1 H2 H3]. pose proof (log_ext_last _ _ Hx). split; [lia|..].
  - intros e He. apply H2. by eapply log_ext_keep.
  - intros t c' Hin. destruct (Hf _ Hin) as [?|(e & He & E)]; [by eapply H3|]. cbn [fst] in *.
    injection E as _ ->. apply H2. by eapply log_ext_keep.
Qed.
Lemma queue_apply n : queue_ok n → queue_ok (try_advance_apply n).1.
Proof.
  destruct (apply_fresh n) as [Hx Hf]. intros Hq x Hin. pose proof (log_ext_last _ _ Hx).
  destruct (Hf x Hin) as [Hin'|(e & He & _)]; [specialize (Hq x Hin'); lia|]. apply log_get_bound in He. lia.
Qed.

(** ** A leader's first half of a step *)

(** Steps that hand nothing over. *)
Definition quiet_queue n n' : Prop := node_id n' = node_id n ∧ applied_entries n' = applied_entries n.

(** Updates of other fields. *)
Ltac quiet_same := intros; cbv beta; match goal with |- quiet_queue ?n _ => generalize n; clear; intros []; by split end.

#[export] Instance quiet_queue_preorder : PreOrder quiet_queue.
Proof. split; [done|]. intros n1 n2 n3 [] []. split; congruence. Qed.

Lemma quiet_passes n n' : passes n n' → quiet_queue n n'.
Proof. intros []. by split. Qed.

#[export] Instance quiet_queue_cfg_rel : CfgRel quiet_queue (λ _ _, True).
Proof.
  split; try done; try quiet_same.
  - apply _.
  - intros n n' H. apply H.
  - intros. apply quiet_passes, passes_commit.
  - intros. apply quiet_passes, (nr_joint (R := passes) (P := λ _ _, True)).
  - intros. apply quiet_passes, (nr_final (R := passes) (P := λ _ _, True)).
Qed.

Abbreviation hands_nothing := (tracks quiet_queue (λ _ _, True)).

Lemma queue_raise idx n : quiet_queue n (raise_applied idx n).
Proof. unfold raise_applied. destruct (commit_index n <? idx), (_ <? idx); destruct n; by split. Qed.

Lemma quiet_follower c n : quiet_queue n (follower_commit c n).
Proof. unfold follower_commit. destruct (_ <? _); quiet_same. Qed.
Lemma quiet_ack src m n : quiet_queue n (ack_reads src m n).
Proof. unfold ack_reads. destruct (_ =? _); [|done]. destruct (_ !! _); quiet_same. Qed.
Lemma quiet_match src m n : quiet_queue n (advance_match src m n).
Proof. unfold advance_match. destruct (_ <? _); quiet_same. Qed.
Lemma quiet_back_off src hint n : quiet_queue n (back_off src hint n).
Proof. unfold back_off. quiet_same. Qed.

Ltac quiet :=
  repeat first
    [ apply tracks_skip | by apply tracks_push | apply tracks_send_append_to | apply tracks_send_append_to_all
    | apply tracks_andThen | apply tracks_ifM; intros ? | apply tracks_upd ].

Lemma hands_dispatch e n : role n = Leader → hands_nothing (dispatch (from e) (message e)) n.
Proof.
  intros Hr. destruct (message e) as [m|m|m|m|m|m|m|m]; cbn [dispatch].
  - unfold on_vote_request. quiet. quiet_same.
  - unfold on_vote_response. apply tracks_ifM; intros Hc; [apply tracks_skip|]. exfalso.
    apply orb_false_iff in Hc as [Hc _]. apply bool_decide_eq_false in Hc. rewrite Hr in Hc. by apply Hc.
  - unfold on_append_request. quiet; try quiet_same. apply quiet_follower.
  - unfold on_append_response. apply tracks_ifM; intros _; [apply tracks_skip|]. apply tracks_andThen.
    + apply tracks_upd, quiet_ack.
    + destruct (ar_success m); quiet; first [apply quiet_match|apply quiet_passes, passes_commit|apply quiet_back_off].
  - unfold on_install_snapshot_request. quiet; first [quiet_same|apply queue_raise].
  - unfold on_install_snapshot_response. apply tracks_ifM; intros _; [apply tracks_skip|]. case_match; quiet. quiet_same.
  - unfold on_config_change_request. quiet. quiet_same.
  - apply (tracks_skip (R := quiet_queue) (P := λ _ _, True)).
Qed.

(** ** The calls of the event loop *)

Lemma leads_own n n' i c : leads n n' → role n' = Leader → applied_entries n' = applied_entries n → own n i c → own n' i c.
Proof. intros [_ Hl] Hr Ha. destruct (Hl Hr) as (_ & _ & Hk). eapply own_keeps; [exact Hk|]. by rewrite Ha. Qed.
Lemma leads_queue n n' : leads n n' → role n' = Leader → applied_entries n' = applied_entries n → queue_ok n → queue_ok n'.
Proof. intros [_ Hl] Hr Ha Hq x. rewrite Ha. intros Hin. destruct (Hl Hr) as (_ & _ & Hk). eapply log_keeps_last; [exact Hk|]. by apply Hq. Qed.

Lemma apply_leads n : leads n (try_advance_apply n).1.
Proof. apply (tracks_try_advance_apply (R := leads) (P := λ _ _, True)). Qed.

(** The two halves of [tick] and [handle] on a leader that stays leader. *)
Lemma halves a n i c : stays a n → hands_nothing a n → role ((a >>> try_advance_apply) n).1 = Leader →
  (own n i c → own ((a >>> try_advance_apply) n).1 i c) ∧ (queue_ok n → queue_ok ((a >>> try_advance_apply) n).1).
Proof.
  intros [Hs _] [[_ Hq] _]. pose proof (apply_leads (a n).1) as [_ Hl]. pose proof (own_apply (a n).1 i c) as Ho. pose proof (queue_apply (a n).1) as Hqa.
  unfold andThen. destruct (a n) as [m o]. cbn [fst] in *. destruct (try_advance_apply m) as [m' o']. cbn [fst] in *.
  intros Hr. destruct (Hl Hr) as (Hr' & _ & _). split; intros H; [by apply Ho; eapply leads_own|by apply Hqa; eapply leads_queue].
Qed.

Lemma tick_own n i c : role n = Leader → role (tick n).1 = Leader → (own n i c → own (tick n).1 i c) ∧ (queue_ok n → queue_ok (tick n).1).
Proof.
  intros Hr. assert (∀ m, leads m (set_heartbeat_ticks (heartbeat_ticks m + 1) m) ∧ leads m (set_heartbeat_ticks 0 m)) as Hh.
  { intros m. split; leads_same. }
  assert (∀ m, quiet_queue m (set_heartbeat_ticks (heartbeat_ticks m + 1) m) ∧ quiet_queue m (set_heartbeat_ticks 0 m)) as Hq.
  { intros m. split; quiet_same. }
  apply halves.
  - apply tracks_ifM; intros Hl; [|by unfold is_leader in Hl; rewrite Hr in Hl].
    apply tracks_andThen; [apply tracks_upd, Hh|]. apply tracks_ifM; intros _; [|apply tracks_skip].
    apply tracks_andThen; [apply tracks_upd, Hh|apply tracks_send_append_to_all].
  - apply tracks_ifM; intros Hl; [|by unfold is_leader in Hl; rewrite Hr in Hl].
    apply tracks_andThen; [apply tracks_upd, Hq|]. apply tracks_ifM; intros _; [|apply tracks_skip].
    apply tracks_andThen; [apply tracks_upd, Hq|apply tracks_send_append_to_all].
Qed.

Lemma handle_own e n i c : role n = Leader → role (handle e n).1 = Leader → current_term (handle e n).1 = current_term n →
  (own n i c → own (handle e n).1 i c) ∧ (queue_ok n → queue_ok (handle e n).1).
Proof.
  intros Hr. rewrite handle_eq. destruct (N.ltb_spec (current_term n) (message_term (message e))) as [Hlt|Hge].
  - intros _ Ht. exfalso. set (m := step_down _ n) in *.
    assert (current_term m = message_term (message e)) as Em by (unfold m; by destruct n).
    assert (election_step (grant_of e) m ((dispatch (from e) (message e) >>> try_advance_apply) m).1
      ((dispatch (from e) (message e) >>> try_advance_apply) m).2) as [_ Hmono _ _ _ _].
    { apply election_step_then; [apply election_dispatch; lia|apply quiet_apply]. }
    lia.
  - intros Hr' _. apply halves; [by apply stays_dispatch|by apply hands_dispatch|done].
Qed.

Lemma passes_own n n' i c : passes n n' → (own n i c → own n' i c) ∧ (queue_ok n → queue_ok n').
Proof. intros [_ Hx _ _ _ _ Hq]. split; [apply own_ext|apply queue_ext]; try done; by rewrite Hq. Qed.

(** A proposal keeps what was there, and its own entry is at the index it answers. *)
Lemma propose_own cmd n i c : (own n i c → own (propose cmd n).2 i c) ∧ (queue_ok n → queue_ok (propose cmd n).2).
Proof.
  unfold propose. destruct (is_leader n); [|done]. cbn [snd].
  assert (log_ext (log n) (log (leader_append cmd n)) ∧ applied_entries (leader_append cmd n) = applied_entries n) as [H1 H2].
  { destruct n. split; [apply log_ext_append|done]. }
  destruct (passes_own _ _ i c (passes_commit (leader_append cmd n))) as [Ho Hq].
  split; intros H; [apply own_apply, Ho; eapply own_ext|apply queue_apply, Hq; eapply queue_ext]; try done; by rewrite H2.
Qed.
Lemma propose_new cmd n i : queue_ok n → (propose cmd n).1 = Some i → own (propose cmd n).2 i cmd.
Proof.
  intros Hq. unfold propose. destruct (is_leader n); [|done]. cbn [fst snd]. intros [= <-]. apply own_apply.
  apply (passes_own _ _ _ _ (passes_commit (leader_append cmd n))). split; [done|..].
  - intros e. destruct n as [????????????????????? ]. cbn. rewrite last_index_append, log_get_append, N.eqb_refl. by intros [= <-].
  - intros t c' Hin. replace (applied_entries (leader_append cmd n)) with (applied_entries n) in Hin by (by destruct n).
    apply Hq in Hin. cbn [fst] in Hin. destruct n; cbn in *. rewrite last_index_append in Hin. lia.
Qed.

Lemma own_same n n' i c : log n' = log n → applied_entries n' = applied_entries n → (own n i c → own n' i c) ∧ (queue_ok n → queue_ok n').
Proof. intros H1 H2. split; [intros [? ? ?]; split; by rewrite ?H1, ?H2|]. unfold queue_ok. by rewrite H1, H2. Qed.

Lemma propose_read_own rid n i c : (own n i c → own (propose_read rid n).2 i c) ∧ (queue_ok n → queue_ok (propose_read rid n).2).
Proof.
  unfold propose_read. destruct (is_leader n); [|done]. cbn [snd]. match goal with |- context [check_pending_reads ?m] =>
    destruct (check_pending_reads_same m) as (_ & E1 & _ & E2) end. apply own_same; [rewrite E1|rewrite E2]; by destruct n.
Qed.
Lemma broadcast_own n i c : (own n i c → own (broadcast n).1 i c) ∧ (queue_ok n → queue_ok (broadcast n).1).
Proof.
  assert (passes n (broadcast n).1) as Hp; [|by apply passes_own].
  apply (tracks_ifM (R := passes) (P := λ _ _, True)); intros _; [apply tracks_send_append_to_all|apply tracks_skip].
Qed.
