(* ===== verification/ServerAcks.v ===== *)
(** A client's write is acknowledged only when the very command it asked for has been executed,
    as long as no event both deposes the leader and applies entries. *)
From stdpp Require Import gmap strings.
From S2P Require Import Prelude Bytes Core Hlc OrdMap Path Disk WalCodec WalWriter InternalKey SstBlock SstSpec Memtable Manifest Compaction Engine EngineStore EngineSnapshot EngineReads Index Cdc Node Txn NodePlans Txn2pc RaftConfig RaftCommand RaftLog RaftStorage RaftNode RaftReplication RaftOwn MultiRaft Ranges RangesProps NetCodec Roster RosterProps TxnCoord SnapPayload ClientOps Server ServerProps ServerDemo.

Open Scope N_scope.

(** ** Steps between the messages of a host *)

(** A step of a node that neither changes its role nor hands entries over. *)
Record milder (n n' : RaftNode) : Prop := {
  ml_role : role n' = role n;
  ml_own : ∀ i c, own n i c → own n' i c;
  ml_queue : ∀ x, x ∈ applied_entries n' → x ∈ applied_entries n;
  ml_queue_ok : queue_ok n → queue_ok n'
}.

(** A node that leads nothing and has nothing to hand over. *)
Definition idle (n : RaftNode) : Prop := role n ≠ Leader ∧ applied_entries n = [].

(** Groups may be dropped, and idle ones added. *)
Definition host_milder (h h' : MultiRaftHost) : Prop :=
  ∀ g n', h' !! g = Some n' → (∃ n, h !! g = Some n ∧ milder n n') ∨ idle n'.

Lemma milder_refl n : milder n n.
Proof. by split. Qed.
Lemma milder_trans n1 n2 n3 : milder n1 n2 → milder n2 n3 → milder n1 n3.
Proof. intros [] []. split; [congruence|auto|auto|auto]. Qed.
Lemma milder_idle n n' : milder n n' → idle n → idle n'.
Proof.
  intros [Hr _ Hq _] [H1 H2]. split; [congruence|]. destruct (applied_entries n') as [|x l]; [done|].
  exfalso. apply (not_elem_of_nil x). rewrite <- H2. apply Hq. left.
Qed.
Lemma milder_same n n' : role n' = role n → log n' = log n → applied_entries n' = applied_entries n → milder n n'.
Proof. intros H1 H2 H3. split; [done|intros; by eapply own_same|by rewrite H3|by apply (own_same _ _ 0 [])]. Qed.
Lemma idle_queue n : idle n → queue_ok n.
Proof. intros [_ H] x. rewrite H. by intros ?%not_elem_of_nil. Qed.

Lemma host_milder_refl h : host_milder h h.
Proof. intros g n Hn. left. exists n. split; [done|apply milder_refl]. Qed.
Lemma host_milder_trans h1 h2 h3 : host_milder h1 h2 → host_milder h2 h3 → host_milder h1 h3.
Proof.
  intros H1 H2 g n3 Hn3. destruct (H2 g n3 Hn3) as [(n2 & Hn2 & M2)|?]; [|by right].
  destruct (H1 g n2 Hn2) as [(n1 & Hn1 & M1)|Hi]; [left|right; by eapply milder_idle].
  exists n1. split; [done|]. by eapply milder_trans.
Qed.
Lemma host_milder_each {X} (f : N → RaftNode → list X * RaftNode) h : (∀ g n, milder n (f g n).2) →
  host_milder h (each_group f (sorted_group_ids h) h).2.
Proof.
  intros Hf g n'. rewrite each_all_lookup. intros (n & Hn & ->)%fmap_Some. left. exists n. split; [done|apply Hf].
Qed.
Lemma host_milder_insert g n n' h : h !! g = Some n → milder n n' → host_milder h (<[g := n']> h).
Proof.
  intros Hg Hm k m. destruct (decide (g = k)) as [->|Hne].
  - rewrite lookup_insert_eq. intros [= <-]. left. by exists n.
  - rewrite lookup_insert_ne by done. intros Hk. left. exists m. split; [done|apply milder_refl].
Qed.
Lemma host_milder_new g n h : idle n → host_milder h (<[g := n]> h).
Proof.
  intros Hi k m. destruct (decide (g = k)) as [->|Hne].
  - rewrite lookup_insert_eq. intros [= <-]. by right.
  - rewrite lookup_insert_ne by done. intros Hk. left. exists m. split; [done|apply milder_refl].
Qed.

Lemma milder_drain_snapshot n : milder n (drain_installed_snapshot n).2.
Proof. destruct n. by apply milder_same. Qed.
Lemma milder_drain_reads n : milder n (drain_ready_reads n).2.
Proof. destruct n. by apply milder_same. Qed.
Lemma milder_drain_applied n : milder n (drain_applied n).2.
Proof.
  assert (role (drain_applied n).2 = role n ∧ log (drain_applied n).2 = log n ∧ applied_entries (drain_applied n).2 = []) as (H1 & H2 & H3) by (by destruct n).
  split; [done|..].
  - intros i c [Ho1 Ho2 _]. split; rewrite ?H2; [done..|]. intros t c'. rewrite H3. by intros ?%not_elem_of_nil.
  - intros x. rewrite H3. by intros ?%not_elem_of_nil.
  - intros _ x. rewrite H3. by intros ?%not_elem_of_nil.
Qed.
Lemma milder_seed ms n : milder n (seed_replication_for_members ms n).
Proof.
  unfold seed_replication_for_members. generalize (last_index (log n)) as lst. intros lst. revert n. induction ms as [|x ms IH]; intros n; [apply milder_refl|].
  cbn [foldl]. eapply milder_trans; [|apply IH]. destruct (_ =? _); [apply milder_refl|]. destruct n. by apply milder_same.
Qed.
Lemma milder_restore ms n : milder n (restore_config_from_snapshot ms n).
Proof.
  unfold restore_config_from_snapshot, enter_final. eapply milder_trans; [|apply milder_seed]. destruct n. by apply milder_same.
Qed.
Lemma milder_raise idx n : milder n (raise_applied idx n).
Proof. unfold raise_applied. destruct (commit_index n <? idx), (_ <? idx); destruct n; by apply milder_same. Qed.
Lemma trim_subset up l x : x ∈ trim_applied up l → x ∈ l.
Proof. induction l as [|[[i t] c] l IH]; cbn [trim_applied]; [done|]. destruct (_ <? _); [done|]. intros ?. right. auto. Qed.
Lemma milder_compact i t d n : milder n (compact i t d n).
Proof.
  unfold compact. set (m := set_log _ n). assert (milder n m) as Hm.
  { assert (log m = RaftLog.install_snapshot i t d (log n) ∧ role m = role n ∧ applied_entries m = applied_entries n) as (H1 & H2 & H3) by (by destruct n).
    pose proof (log_keeps_install (current_term n) i t d (log n)) as Hk. rewrite <- H1 in Hk. split; [done|..].
    - intros j c. eapply own_keeps; [exact Hk|]. by rewrite H3.
    - by rewrite H3.
    - intros Hq x. rewrite H3. intros Hin. eapply log_keeps_last; [exact Hk|]. by apply Hq. }
  eapply milder_trans; [exact Hm|]. eapply milder_trans; [apply (milder_raise i)|]. generalize (raise_applied i m). clear. intros m.
  assert (∀ x, x ∈ trim_applied i (applied_entries m) → x ∈ applied_entries m) as Ht by (intros; by eapply trim_subset).
  assert (log (set_applied_entries (trim_applied i (applied_entries m)) m) = log m ∧ role (set_applied_entries (trim_applied i (applied_entries m)) m) = role m ∧
    applied_entries (set_applied_entries (trim_applied i (applied_entries m)) m) = trim_applied i (applied_entries m)) as (H1 & H2 & H3) by (by destruct m).
  split; [done|..].
  - intros j c. apply own_ext; [by rewrite H1|by rewrite H3].
  - by rewrite H3.
  - apply queue_ext; [by rewrite H1|by rewrite H3].
Qed.

(** ** Steps of a process between its messages *)

Section Acks.
Context {T : Type} `{SstFormat T} (env : N → N * N * N).
Context {A : Type} `{SocketAddr A}.
Context (raft_cfg : RaftConfig) (self : N) (self_raft self_client : A).
Abbreviation Process := (Process (T:=T) (A:=A)).
Implicit Types s : Process.
Abbreviation apply_one := (apply_one env raft_cfg self self_raft self_client).

(** A step that answers nobody. *)
Record calm s s' : Prop := {
  cm_host : host_milder (p_host s) (p_host s');
  cm_pending : p_pending s' = p_pending s;
  cm_reads : p_pending_reads s' = p_pending_reads s;
  cm_replies : p_replies s' = p_replies s;
  cm_blocked : p_blocked s' = p_blocked s
}.

Lemma calm_refl s : calm s s.
Proof. split; try done. apply host_milder_refl. Qed.
Lemma calm_trans s1 s2 s3 : calm s1 s2 → calm s2 s3 → calm s1 s3.
Proof. intros [] []. split; [by eapply host_milder_trans|congruence..]. Qed.
Lemma calm_foldl {X} (f : Process → X → Process) l s : (∀ s x, calm s (f s x)) → calm s (foldl f s l).
Proof. intros Hf. revert s. induction l as [|x l IH]; intros s; cbn [foldl]; [apply calm_refl|]. eapply calm_trans; [apply Hf|apply IH]. Qed.

(** A step on another field, and one on the host. *)
Ltac calm_field s := split; [destruct s; apply host_milder_refl|by destruct s..].
Lemma calm_host h s : host_milder (p_host s) h → calm s (set_host h s).
Proof. intros Hh. split; [by destruct s|by destruct s..]. Qed.
Lemma calm_maps a p s : calm s (set_persisters p (set_apply a s)).
Proof. calm_field s. Qed.
Lemma calm_node n s : calm s (set_node n s).
Proof. calm_field s. Qed.

Lemma calm_fs s : calm s (fs_step s).2.
Proof. unfold fs_step. destruct (p_fs s); [apply calm_refl|]. calm_field s. Qed.
Lemma calm_fs_if (b : bool) s s' w : (if b then (true, s) else fs_step s) = (w, s') → calm s s'.
Proof. pose proof (calm_fs s) as Hf. destruct b; [intros [= _ <-]; apply calm_refl|]. intros E. by rewrite E in Hf. Qed.

Lemma calm_ensure gid s : calm s (ensure_group_hosted raft_cfg gid s).2.
Proof.
  unfold ensure_group_hosted. destruct (p_host s !! gid); [apply calm_refl|].
  destruct (if gid =? 0 then (true, s) else fs_step s) as [made s1] eqn:E. apply calm_fs_if in E.
  destruct (if made then fs_step s1 else (false, s1)) as [opened s2] eqn:E2. assert (calm s s2) as H2.
  { destruct made; [|by injection E2 as _ <-]. eapply calm_trans; [exact E|]. pose proof (calm_fs s1) as Hs. by rewrite E2 in Hs. }
  destruct (negb opened); [done|]. destruct (load_state _) as [[st|]|]; [..|done]; (eapply calm_trans; [exact H2|]).
  - set (n := set_recovered_apply_floor 0 _). assert (idle n) as Hn by done.
    eapply calm_trans; [apply (calm_host (host_insert gid n (p_host s2))), host_milder_new, Hn|]. set (s3 := set_host _ s2). calm_field s3.
  - set (n := node_new raft_cfg). assert (idle n) as Hn by done.
    eapply calm_trans; [apply (calm_host (host_insert gid n (p_host s2))), host_milder_new, Hn|]. set (s3 := set_host _ s2). calm_field s3.
Qed.
Lemma calm_host_groups gids s : calm s (host_groups raft_cfg gids s).
Proof. apply calm_foldl. intros. apply calm_ensure. Qed.

Lemma calm_persist_table t s : calm s (persist_range_table t s).2.
Proof.
  unfold persist_range_table. pose proof (calm_fs s) as H1. destruct (fs_step s) as [[] s1]; cbn [negb snd] in *; [|done].
  pose proof (calm_fs s1) as H2. destruct (fs_step s1) as [[] s2]; cbn [negb snd] in *; [|by eapply calm_trans].
  pose proof (calm_fs s2) as H3. destruct (fs_step s2) as [[] s3]; cbn [negb snd] in *;
    (eapply calm_trans; [exact H1|eapply calm_trans; [exact H2|]]); [|done]. eapply calm_trans; [exact H3|]. calm_field s3.
Qed.
(** The table is written, then used. *)
Lemma calm_use_table t s s1 r : persist_range_table t s = (r, s1) → calm s (host_groups raft_cfg (table_group_ids t) (set_table t s1)).
Proof.
  intros E. pose proof (calm_persist_table t s) as Hp. rewrite E in Hp. eapply calm_trans; [exact Hp|]. cbn [snd].
  eapply calm_trans; [|apply calm_host_groups]. calm_field s1.
Qed.
Lemma calm_range_meta command s : calm s (range_meta_step raft_cfg command s).2.
Proof.
  unfold range_meta_step, apply_range_meta_entry. destruct (cmd_decode command) as [[]|]; try apply calm_refl.
  destruct (table_decode snapshot) as [t|]; [|apply calm_refl]. destruct (negb _); [case_bool_decide; apply calm_refl|].
  pose proof (calm_persist_table t s) as Hp. destruct (persist_range_table t s) as [[] s1] eqn:E; [|done]. by eapply calm_use_table.
Qed.
Lemma calm_roster phase members s : calm s (change_roster self self_raft self_client phase members s).
Proof.
  unfold change_roster. set (s1 := set_roster _ s). assert (calm s s1) as H1 by calm_field s.
  pose proof (calm_fs s1) as H2. destruct (fs_step s1) as [w s2]. cbn [snd] in H2.
  eapply calm_trans; [exact H1|]. eapply calm_trans; [exact H2|]. destruct w; [calm_field s2|apply calm_refl].
Qed.
Lemma calm_config command s : calm s (config_step self self_raft self_client command s).
Proof. unfold config_step. destruct (cmd_decode command) as [[]|]; try apply calm_refl. apply calm_roster. Qed.
Lemma calm_record gid r s : calm s (append_apply_record gid r s).
Proof.
  unfold append_apply_record. destruct (match p_apply s !! gid with Some a => Some (gid, a) | None => _ end) as [[g a]|]; [|apply calm_refl].
  destruct (if bool_decide (ap_index r ∈ ai_seen a) then (true, s) else fs_step s) as [w s1] eqn:E.
  eapply calm_trans; [by eapply (calm_fs_if (bool_decide (ap_index r ∈ ai_seen a)))|]. calm_field s1.
Qed.

Lemma calm_restore_table snapshot s : calm s (restore_range_table_from_snapshot raft_cfg snapshot s).
Proof.
  unfold restore_range_table_from_snapshot. case_bool_decide; [apply calm_refl|]. destruct (table_decode snapshot) as [t|]; [|apply calm_refl].
  destruct (_ <? _); [apply calm_refl|]. pose proof (calm_persist_table t s) as Hp.
  destruct (persist_range_table t s) as [[] s1] eqn:E; [|done]. by eapply calm_use_table.
Qed.
Lemma calm_restore_configs mems s : calm s (restore_configs mems (change_roster self self_raft self_client Final mems s)).
Proof.
  unfold restore_configs. set (s1 := change_roster _ _ _ _ _ s). assert (calm s s1) as H1 by apply calm_roster.
  eapply calm_trans; [exact H1|]. apply calm_host. intros g n'. rewrite lookup_fmap. intros (n & Hn & ->)%fmap_Some.
  left. exists n. split; [done|apply milder_restore].
Qed.
Lemma calm_install data s : calm s (install_payload raft_cfg self self_raft self_client data s).
Proof.
  unfold install_payload. destruct (parse_snapshot_payload_v2 data) as [[[eng mems] ranges]|]; [|apply calm_node].
  eapply calm_trans; [|apply calm_restore_table].
  eapply calm_trans; [instantiate (1 := if bool_decide (eng = []) then s else install_engine eng s)|].
  - case_bool_decide; [apply calm_refl|apply calm_node].
  - case_bool_decide as E; case_bool_decide; first [apply calm_refl|apply calm_restore_configs].
Qed.
Lemma calm_installed s : calm s (apply_installed_raft_snapshot raft_cfg self self_raft self_client s).
Proof.
  unfold apply_installed_raft_snapshot. destruct (drain_installed (p_host s)) as [installed h] eqn:E.
  eapply calm_trans; [apply (calm_host h)|apply calm_foldl; intros; apply calm_install].
  replace h with (drain_installed (p_host s)).2 by (by rewrite E). apply host_milder_each. intros g n.
  pose proof (milder_drain_snapshot n) as Hm. by destruct (drain_installed_snapshot n).
Qed.

Lemma calm_compact s : calm s (maybe_compact_raft_log s).
Proof.
  unfold maybe_compact_raft_log. case_bool_decide; [apply calm_refl|]. destruct (create_snapshot _) as [created e].
  eapply calm_trans; [apply (calm_node (set_core e (p_node s)))|]. set (s1 := set_node _ s). set (data := build_snapshot_payload_v2 _ _ _).
  eapply calm_trans; [apply (calm_host (foldl (compact_group data) (p_host s1) (compaction_targets (p_host s))))|].
  { generalize (p_host s1), (compaction_targets (p_host s)). clear. intros h l. revert h.
    induction l as [|[[g i] t] l IH]; intros h; cbn [foldl]; [apply host_milder_refl|]. eapply host_milder_trans; [|apply IH].
    unfold compact_group. destruct (h !! g) as [n|] eqn:E; [|apply host_milder_refl]. eapply host_milder_insert; [exact E|apply milder_compact]. }
  set (s2 := set_host _ s1). case_bool_decide; [apply calm_refl|]. unfold persist_raft_snapshot_atomically.
  pose proof (calm_fs s2) as Hf. destruct (fs_step s2) as [[] s3]; cbn [snd] in Hf; [|done]. eapply calm_trans; [exact Hf|]. calm_field s3.
Qed.
Lemma calm_reclaim s : calm s (reclaim_orphan_groups s).
Proof.
  apply calm_foldl. clear s. intros s gid. unfold reclaim_group. destruct (status_of gid (p_host s)) as [st|]; [|apply calm_refl].
  destruct (_ =? _); [|apply calm_refl]. set (s1 := set_persisters _ _). assert (calm s s1) as H1.
  { eapply calm_trans; [apply (calm_host (host_remove gid (p_host s)).2)|apply calm_maps].
    intros g n. cbn [host_remove snd]. intros [_ Hn]%lookup_delete_Some. left. exists n. split; [done|apply milder_refl]. }
  eapply calm_trans; [exact H1|]. pose proof (calm_fs s1) as H2. destruct (fs_step s1) as [removed s2]. cbn [snd] in H2.
  eapply calm_trans; [exact H2|]. destruct removed; calm_field s2.
Qed.
Lemma calm_persist s : calm s (persist_raft_state s).
Proof.
  apply calm_foldl. clear s. intros s [gid view]. unfold flush_group. cbn [fst snd]. destruct (p_persisters s !! gid) as [p|]; [|apply calm_refl].
  destruct (if bool_decide (last_persisted p = Some view) then (true, s) else fs_step s) as [w s1] eqn:E.
  eapply calm_trans; [by eapply (calm_fs_if (bool_decide (last_persisted p = Some view)))|]. destruct w; [|apply calm_refl]. calm_field s1.
Qed.
(** ** Who waits for what *)

(** What each waiting write asked for: a group and a command; reads ask for nothing. *)
Context (asked : N → option (N * bytes)).

(** The index a write waits for holds its command, unless its group has been lost and has nothing
    to hand over. *)
Definition host_owns (h : MultiRaftHost) (pend : gmap (N * N) N) : Prop :=
  ∀ g i t, pend !! (g, i) = Some t → ∃ c, asked t = Some (g, c) ∧ ∀ n, h !! g = Some n → own n i c ∨ idle n.
(** Between events every queue is within its log; after a drain the queues are empty. *)
Definition host_queue (h : MultiRaftHost) : Prop := ∀ g n, h !! g = Some n → queue_ok n.
Definition host_empty (h : MultiRaftHost) : Prop := ∀ g n, h !! g = Some n → applied_entries n = [].

Lemma host_owns_milder h h' pend pend' : host_milder h h' → pend' ⊆ pend → host_owns h pend → host_owns h' pend'.
Proof.
  intros Hm Hp Ho g i t Ht. destruct (Ho g i t) as (c & Ha & Hc); [by eapply lookup_weaken|]. exists c. split; [done|].
  intros n' Hn'. destruct (Hm g n' Hn') as [(n & Hn & M)|?]; [|by right].
  destruct (Hc n Hn) as [?|?]; [left; by apply M|right; by eapply milder_idle].
Qed.
Lemma host_empty_queue h : host_empty h → host_queue h.
Proof. intros He g n Hn x. rewrite (He g n Hn). by intros ?%not_elem_of_nil. Qed.
Lemma host_empty_milder h h' : host_milder h h' → host_empty h → host_empty h'.
Proof.
  intros Hm He g n' Hn'. destruct (Hm g n' Hn') as [(n & Hn & M)|[_ ?]]; [|done].
  destruct (applied_entries n') as [|x l] eqn:E; [done|]. exfalso. apply (not_elem_of_nil x). rewrite <- (He g n Hn). apply M. rewrite E. left.
Qed.

Lemma reply_pending_host gid idx w s : p_host (reply_pending gid idx w s) = p_host s ∧ p_pending_reads (reply_pending gid idx w s) = p_pending_reads s.
Proof. unfold reply_pending, reply. destruct (p_pending s !! (gid, idx)); [|done]. by destruct s. Qed.

Lemma apply_one_host s entry : host_milder (p_host s) (p_host (apply_one s entry)) ∧ p_pending_reads (apply_one s entry) = p_pending_reads s.
Proof.
  destruct entry as [[[gid idx] term] command]. unfold Server.apply_one. destruct (p_blocked s); [split; [apply host_milder_refl|done]|].
  pose proof (calm_config command s) as H1. set (s1 := config_step _ _ _ _ _) in *.
  pose proof (calm_range_meta command s1) as H2. destruct (range_meta_step raft_cfg command s1) as [r s2]. cbn [snd] in H2.
  pose proof (calm_trans _ _ _ H1 H2) as H3.
  assert (∀ s3 w, calm s s3 → host_milder (p_host s) (p_host (reply_pending gid idx w s3)) ∧ p_pending_reads (reply_pending gid idx w s3) = p_pending_reads s) as Hr.
  { intros s3 w [Hh _ Hp _ _]. destruct (reply_pending_host gid idx w s3) as [-> ->]. done. }
  destruct r as [[]|e]; [|by apply Hr]. case_bool_decide; [apply Hr; eapply calm_trans; [exact H3|apply calm_record]|].
  destruct (apply_command env command (p_node s2)) as [r n]. pose proof (calm_trans _ _ _ H3 (calm_node n s2)) as Hn. destruct r.
  - apply Hr. eapply calm_trans; [exact Hn|apply calm_record].
  - by apply Hr.
  - destruct Hn as [Hh _ Hp _ _]. split; [|rewrite <- Hp]; by destruct s2.
Qed.

(** The entries a drain executes, each with the state it finds. *)
Fixpoint apply_trace (l : list (N * N * N * bytes)) s : list (Process * (N * N * N * bytes)) :=
  match l with [] => [] | e :: l => (s, e) :: apply_trace l (apply_one s e) end.

(** A successful answer to a write that was executed on the way. *)
Definition executed (tr : list (Process * (N * N * N * bytes))) (t : N) : Prop :=
  ∃ s g i term c, (s, (g, i, term, c)) ∈ tr ∧ asked t = Some (g, c) ∧ took_effect env c s (apply_one s (g, i, term, c)).

Lemma fold_acks l s t :
  (∀ g i term c t, (g, i, term, c) ∈ l → p_pending s !! (g, i) = Some t → asked t = Some (g, c)) →
  (t, WDone) ∈ p_replies (foldl apply_one s l) → (t, WDone) ∈ p_replies s ∨ executed (apply_trace l s) t.
Proof.
  revert s. induction l as [|[[[g i] term] c] l IH]; intros s Hl Hin; cbn [foldl] in Hin; [by left|].
  destruct (IH (apply_one s (g, i, term, c))) as [Hin'|(s' & g' & i' & term' & c' & H1 & H2)]; [|done|..].
  - intros g' i' term' c' t' Hin' Ht. eapply (Hl g' i' term' c' t'); [by right|]. eapply lookup_weaken; [exact Ht|].
    apply (apply_one_fewer env raft_cfg self self_raft self_client s (g, i, term, c)).
  - destruct (apply_one_answers env raft_cfg self self_raft self_client s g i term c) as [[_ E]|(ticket & w & Hp & _ & E & Hw)].
    + left. by rewrite <- E.
    + rewrite E in Hin'. apply elem_of_cons in Hin' as [[= <- <-]|Hin']; [right|by left].
      exists s, g, i, term, c. split; [left|]. split; [|by apply Hw]. eapply Hl; [left|done].
  - right. exists s', g', i', term', c'. split; [by right|done].
Qed.

(** What a drain hands over is what the nodes had queued. *)
Lemma drained_elem h g i term c : (g, i, term, c) ∈ (drain_all_applied h).1 → ∃ n, h !! g = Some n ∧ (i, term, c) ∈ applied_entries n.
Proof.
  unfold drain_all_applied. rewrite each_group_out by apply NoDup_set_list. intros (g' & Hin & _)%list_elem_of_bind.
  destruct (h !! g') as [n|] eqn:E; cbn [from_option] in Hin; [|by apply not_elem_of_nil in Hin]. unfold drain_applied in Hin. cbn [fst] in Hin.
  apply list_elem_of_fmap in Hin as ([[i' t'] c'] & [= -> -> -> ->] & Hx). by exists n.
Qed.
Lemma drain_all_milder h : host_milder h (drain_all_applied h).2.
Proof. apply host_milder_each. intros g n. pose proof (milder_drain_applied n) as Hm. by destruct (drain_applied n). Qed.
Lemma drain_all_empty h : host_empty (drain_all_applied h).2.
Proof. intros g n'. unfold drain_all_applied. rewrite each_all_lookup. intros (n & _ & ->)%fmap_Some. by destruct n. Qed.
Lemma drain_reads_milder h : host_milder h (drain_all_ready_reads h).2.
Proof. apply host_milder_each. intros g n. pose proof (milder_drain_reads n) as Hm. by destruct (drain_ready_reads n). Qed.

(** The entries a drain executes. *)
Definition drain_trace s : list (Process * (N * N * N * bytes)) :=
  let s := apply_installed_raft_snapshot raft_cfg self self_raft self_client s in
  let '(applied, h) := drain_all_applied (p_host s) in apply_trace applied (set_host h s).

Definition reads_ask_nothing s : Prop := ∀ r t, p_pending_reads s !! r = Some t → asked t = None.

Lemma answer_reads_acks l s t : reads_ask_nothing s →
  let s' := foldl answer_read s l in
  (p_host s' = p_host s ∧ p_pending s' = p_pending s ∧ reads_ask_nothing s') ∧
  ((t, WDone) ∈ p_replies s' → (t, WDone) ∈ p_replies s ∨ asked t = None).
Proof.
  revert s. induction l as [|[g r] l IH]; intros s Hs; cbn [foldl]; [split; [done|by left]|].
  set (s1 := answer_read s (g, r)). assert (p_host s1 = p_host s ∧ p_pending s1 = p_pending s ∧ reads_ask_nothing s1) as (H1 & H2 & H3).
  { unfold s1, answer_read. cbn [snd]. destruct (p_pending_reads s !! r) as [ticket|]; [|done]. split_and!; [by destruct s..|].
    intros r' t' Ht. apply (Hs r'). destruct s. cbn in *. by apply lookup_delete_Some in Ht as [_ Ht]. }
  assert ((t, WDone) ∈ p_replies s1 → (t, WDone) ∈ p_replies s ∨ asked t = None) as H4.
  { unfold s1, answer_read. cbn [snd]. destruct (p_pending_reads s !! r) as [ticket|] eqn:E; [|by left].
    replace (p_replies _) with ((ticket, WDone) :: p_replies s) by (by destruct s).
    intros [[= ->]|?]%elem_of_cons; [right; by eapply Hs|by left]. }
  destruct (IH s1 H3) as [(H5 & H6 & H7) H8]. split; [split_and!; [congruence|congruence|done]|]. intros Hin. destruct (H8 Hin) as [?|?]; [auto|by right].
Qed.
(** What holds while the requests wait. *)
Record waiting_ok s : Prop := {
  wo_own : host_owns (p_host s) (p_pending s);
  wo_reads : reads_ask_nothing s
}.

Lemma waiting_calm s s' : calm s s' → waiting_ok s → waiting_ok s'.
Proof.
  intros [Hh Hp Hr _ _] [H1 H2]. split; [eapply host_owns_milder; [exact Hh|by rewrite Hp|done]|].
  intros r t. rewrite Hr. apply H2.
Qed.

Lemma waiting_fold l s : waiting_ok s → waiting_ok (foldl apply_one s l).
Proof.
  revert s. induction l as [|e l IH]; intros s Hs; cbn [foldl]; [done|]. apply IH. destruct Hs as [H1 H2], (apply_one_host s e) as [Hh Hr]. split.
  - eapply host_owns_milder; [exact Hh|apply (apply_one_fewer env raft_cfg self self_raft self_client s e)|done].
  - intros r t. rewrite Hr. apply H2.
Qed.

Lemma drain_acks s t : waiting_ok s →
  let s' := drain_and_apply env raft_cfg self self_raft self_client s in
  waiting_ok s' ∧ host_empty (p_host s') ∧
  ((t, WDone) ∈ p_replies s' → (t, WDone) ∈ p_replies s ∨ asked t = None ∨ executed (drain_trace s) t).
Proof.
  intros Hs. unfold drain_and_apply, drain_trace. pose proof (calm_installed s) as Hc. set (s1 := apply_installed_raft_snapshot _ _ _ _ s) in *.
  pose proof (waiting_calm _ _ Hc Hs) as H1. pose proof (drained_elem (p_host s1)) as Hd. pose proof (drain_all_milder (p_host s1)) as Hm.
  pose proof (drain_all_empty (p_host s1)) as He. destruct (drain_all_applied (p_host s1)) as [applied h]. cbn [fst snd] in *.
  set (s2 := set_host h s1). pose proof (waiting_calm _ _ (calm_host h s1 Hm) H1) as H2. fold s2 in H2.
  assert ((t, WDone) ∈ p_replies (foldl apply_one s2 applied) → (t, WDone) ∈ p_replies s ∨ executed (apply_trace applied s2) t) as Hacks.
  { replace (p_replies s) with (p_replies s2) by (rewrite <- (cm_replies _ _ Hc); by destruct s1). apply fold_acks.
    intros g i term c t' Hin Ht. destruct (Hd _ _ _ _ Hin) as (n & Hn & Hq).
    destruct (wo_own _ H1 g i t') as (c' & Ha & Hown); [by destruct s1|]. destruct (Hown n Hn) as [Ho|[_ E]].
    - by rewrite (own_queue _ _ _ Ho _ _ Hq).
    - rewrite E in Hq. by apply not_elem_of_nil in Hq. }
  pose proof (waiting_fold applied s2 H2) as H3. assert (host_empty (p_host (foldl apply_one s2 applied))) as He3.
  { assert (host_empty (p_host s2)) as He2 by (by destruct s1). clear -He2. revert He2. generalize s2. clear.
    induction applied as [|e l IH]; intros s2 He; cbn [foldl]; [done|]. apply IH. by eapply host_empty_milder; [apply apply_one_host|]. }
  set (s3 := foldl apply_one s2 applied) in *.
  destruct (p_blocked s3); [split_and!; [done..|]; intros Hin; destruct (Hacks Hin); auto|].
  pose proof (drain_reads_milder (p_host s3)) as Hm3. destruct (drain_all_ready_reads (p_host s3)) as [ready h3]. cbn [snd] in Hm3.
  pose proof (waiting_calm _ _ (calm_host h3 s3 Hm3) H3) as H4. set (s4 := set_host h3 s3) in *.
  destruct (answer_reads_acks ready s4 t (wo_reads _ H4)) as [(H5 & H6 & H7) H8]. set (s5 := foldl answer_read s4 ready) in *.
  assert (waiting_ok s5) as H9 by (split; [rewrite H5, H6; apply H4|done]).
  pose proof (calm_trans _ _ _ (calm_compact s5) (calm_reclaim _)) as Hcr. split_and!; [by eapply waiting_calm|..].
  { eapply host_empty_milder; [apply Hcr|]. rewrite H5. eapply host_empty_milder; [apply (calm_host h3 s3 Hm3)|done]. }
  rewrite (cm_replies _ _ Hcr). intros Hin. destruct (H8 Hin) as [Hin'|?]; [|by right; left].
  replace (p_replies s4) with (p_replies s3) in Hin' by (by destruct s3). destruct (Hacks Hin'); auto.
Qed.

(** ** Events *)

(** The tickets of an event agree with what was asked. *)
Definition event_asks (ev : LoopEvent) : Prop :=
  match ev with
  | LPropose ticket gid command => asked ticket = Some (gid, command)
  | LRead ticket _ _ => asked ticket = None
  | _ => True
  end.

(** No group with a waiting write loses its leadership while it hands entries over. *)
Definition steady (ev : LoopEvent) s : Prop :=
  ∀ s' g i n n', react ev s = Some s' → is_Some (p_pending s !! (g, i)) → p_host s !! g = Some n → p_host s' !! g = Some n' →
    (role n = Leader ∧ role n' = Leader ∧ current_term n' = current_term n) ∨ idle n'.

(** The step of one group in an event. *)
Definition group_step (ev : LoopEvent) (g : N) (n : RaftNode) : RaftNode :=
  match ev with
  | LTick => (tick n).1
  | LMessage e => if group_id e =? g then (handle e n).1 else n
  | LPropose _ gid command =>
      if gid =? g then let '(idx, n) := propose command n in match idx with Some _ => (broadcast n).1 | None => n end else n
  | LRead _ gid rid =>
      if gid =? g then let '(idx, n) := propose_read rid n in match idx with Some _ => (broadcast n).1 | None => n end else n
  end.
Lemma broadcast_step gid h g : (broadcast_group gid h).2 !! g = (λ n, if gid =? g then (broadcast n).1 else n) <$> h !! g.
Proof. apply (on_group_simulates broadcast). Qed.

(** A call of one group, and its messages if the call was accepted. *)
Lemma ask_step {X} gid (f : RaftNode → option X * RaftNode) h x h1 g : on_group None gid f h = (x, h1) →
  (if x then (broadcast_group gid h1).2 else h1) !! g =
    (λ n, if gid =? g then let '(x, n) := f n in match x with Some _ => (broadcast n).1 | None => n end else n) <$> h !! g.
Proof.
  unfold on_group. destruct (h !! gid) as [n|] eqn:E.
  - destruct (f n) as [y n'] eqn:Ef. intros [= <- <-]. destruct (N.eqb_spec gid g) as [->|Hne].
    + rewrite E. cbn [fmap option_fmap option_map]. rewrite Ef. destruct y; [rewrite broadcast_step, N.eqb_refl|]; by rewrite lookup_insert_eq.
    + destruct y; [rewrite broadcast_step, (proj2 (N.eqb_neq _ _) Hne)|]; rewrite lookup_insert_ne by done; by destruct (h !! g).
  - intros [= <- <-]. destruct (N.eqb_spec gid g) as [->|Hne]; [by rewrite E|]. by destruct (h !! g).
Qed.

(** What an event does to the groups and to those who wait, before anything is applied. *)
Lemma react_spec ev s s' : react ev s = Some s' →
  (∀ g, p_host s' !! g = group_step ev g <$> p_host s !! g) ∧
  (∀ t, (t, WDone) ∈ p_replies s' → (t, WDone) ∈ p_replies s) ∧
  match ev with
  | LPropose ticket gid command =>
      match (host_propose gid command (p_host s)).1 with
      | Some idx => p_pending s' = <[(gid, idx) := ticket]> (p_pending s)
      | None => p_pending s' = p_pending s
      end
  | _ => p_pending s' = p_pending s
  end ∧
  (event_asks ev → reads_ask_nothing s → reads_ask_nothing s').
Proof.
  assert (∀ ticket e (l : list (N * Wait)) t, (t, WDone) ∈ (ticket, WError e) :: l → (t, WDone) ∈ l) as Herr by (intros ???? [[=]|?]%elem_of_cons; done).
  destruct ev as [|e|ticket gid command|ticket gid rid]; cbn [react group_step event_asks].
  - pose proof (λ g, proj1 (each_simulates tick g (p_host s))) as Hh. unfold tick_all. destruct (each_group _ _ _) as [out h]. cbn [snd] in Hh.
    intros [= <-]. destruct s. by split_and!.
  - destruct (negb _); [done|]. pose proof (λ g, proj1 (on_group_simulates (handle e) (group_id e) g (p_host s))) as Hh.
    unfold host_handle. destruct (on_group _ _ _ _) as [out h]. cbn [snd] in Hh. intros [= <-]. destruct s. by split_and!.
  - destruct (host_propose gid command (p_host s)) as [idx h] eqn:E. pose proof (λ g, ask_step _ _ _ _ _ g E) as Hh. cbn [fst]. destruct idx as [idx|].
    + set (s2 := set_pending _ _). replace (p_host s2) with h by (by destruct s). destruct (broadcast_group gid h) as [out h2]. cbn [snd] in Hh.
      intros [= <-]. destruct s. by split_and!.
    + intros [= <-]. destruct s. split_and!; [done| |done|done]. intros t. apply Herr.
  - destruct (propose_read_group gid rid (p_host s)) as [idx h] eqn:E. pose proof (λ g, ask_step _ _ _ _ _ g E) as Hh. destruct idx as [idx|].
    + set (s2 := set_pending_reads _ _). replace (p_host s2) with h by (by destruct s). destruct (broadcast_group gid h) as [out h2]. cbn [snd] in Hh.
      intros [= <-]. destruct s. split_and!; [done..|]. intros Ha Hr r t. cbn.
      intros [[_ <-]|[_ Ht]]%lookup_insert_Some; [done|by eapply Hr].
    + intros [= <-]. destruct s. split_and!; [done| |done|done]. intros t. apply Herr.
Qed.

(** The command of an index survives an event that leaves its group in place. *)
Lemma group_step_own ev g n i c : own n i c →
  role n = Leader ∧ role (group_step ev g n) = Leader ∧ current_term (group_step ev g n) = current_term n → own (group_step ev g n) i c.
Proof.
  intros Ho (Hr & Hr' & Ht). destruct ev as [|e|ticket gid command|ticket gid rid]; cbn [group_step] in *.
  - by apply tick_own.
  - destruct (_ =? _); [|done]. by apply handle_own.
  - destruct (_ =? _); [|done]. apply (propose_own command) in Ho. destruct (propose command n) as [[]]; [|done]. by apply broadcast_own.
  - destruct (_ =? _); [|done]. apply (propose_read_own rid) in Ho. destruct (propose_read rid n) as [[]]; [|done]. by apply broadcast_own.
Qed.

Lemma react_waiting ev s s' : event_asks ev → steady ev s → waiting_ok s → host_queue (p_host s) → react ev s = Some s' → waiting_ok s'.
Proof.
  intros Ha Hst [Ho Hr] Hq E. destruct (react_spec ev s s' E) as (Hh & _ & Hp & Hreads). split; [|by apply Hreads].
  assert (∀ g i t, p_pending s !! (g, i) = Some t → ∃ c, asked t = Some (g, c) ∧ ∀ n, p_host s' !! g = Some n → own n i c ∨ idle n) as Hold.
  { intros g i t Ht. destruct (Ho g i t Ht) as (c & Hc & Hown). exists c. split; [done|]. intros n' Hn'. pose proof Hn' as Hn.
    rewrite Hh in Hn. apply fmap_Some in Hn as (n & Hn & ->). destruct (Hst s' g i n _ E (ex_intro _ t Ht) Hn Hn') as [Hl|?]; [left|by right].
    destruct (Hown n Hn) as [?|[Hni _]]; [by apply group_step_own|]. by destruct Hl. }
  destruct ev as [|e|ticket gid command|ticket gid rid]; try (intros g i t; rewrite Hp; apply Hold).
  destruct (host_propose gid command (p_host s)).1 as [idx|] eqn:Ei; rewrite Hp; [|exact Hold].
  intros g i t [[[= <- <-] <-]|[_ Ht]]%lookup_insert_Some; [|by apply Hold]. exists command. split; [done|].
  intros n'. rewrite Hh. intros (n & Hn & ->)%fmap_Some. left. cbn [group_step]. rewrite N.eqb_refl.
  assert ((propose command n).1 = Some idx) as Hi by (unfold host_propose, on_group in Ei; rewrite Hn in Ei; by destruct (propose command n)).
  pose proof (propose_new command n idx (Hq gid n Hn) Hi) as Hnew. destruct (propose command n) as [x n1]. cbn [fst snd] in *. subst x. by apply broadcast_own.
Qed.

(** ** The end of an event *)

Lemma drop_writes_done l s t : p_host (drop_writes l s) = p_host s ∧ ((t, WDone) ∈ p_replies (drop_writes l s) → (t, WDone) ∈ p_replies s).
Proof.
  revert s. induction l as [|x l IH]; intros s; [done|].
  destruct (IH (reply x.2 (WError "not_leader") (set_pending (base.delete x.1 (p_pending s)) s))) as [H1 H2]. split; [etransitivity; [exact H1|by destruct s]|].
  intros Hin. apply H2 in Hin. destruct s. cbn in *. by apply elem_of_cons in Hin as [[=]|?].
Qed.
Lemma drop_reads_done l s t : p_host (drop_reads l s) = p_host s ∧ ((t, WDone) ∈ p_replies (drop_reads l s) → (t, WDone) ∈ p_replies s).
Proof.
  revert s. induction l as [|x l IH]; intros s; [done|].
  destruct (IH (reply x.2 (WError "not_leader") (set_pending_reads (base.delete x.1 (p_pending_reads s)) s))) as [H1 H2]. split; [etransitivity; [exact H1|by destruct s]|].
  intros Hin. apply H2 in Hin. destruct s. cbn in *. by apply elem_of_cons in Hin as [[=]|?].
Qed.

Lemma abort_waiting lost s t : waiting_ok s → host_queue (p_host s) →
  let s' := abort_pending lost s in
  waiting_ok s' ∧ host_queue (p_host s') ∧ ((t, WDone) ∈ p_replies s' → (t, WDone) ∈ p_replies s).
Proof.
  intros [Ho Hr] Hq. destruct (abort_pending_spec lost s) as (_ & Hreads & Hp).
  assert (p_host (abort_pending lost s) = p_host s ∧ ((t, WDone) ∈ p_replies (abort_pending lost s) → (t, WDone) ∈ p_replies s)) as [Hh Hd].
  { unfold abort_pending. set (gone := filter _ _). fold (drop_writes gone s). destruct (drop_writes_done gone s t) as [H1 H2].
    fold (drop_reads (map_to_list (p_pending_reads (drop_writes gone s))) (drop_writes gone s)).
    destruct (drop_reads_done (map_to_list (p_pending_reads (drop_writes gone s))) (drop_writes gone s) t) as [H3 H4]. split; [congruence|auto]. }
  split_and!; [split|by rewrite Hh|done].
  - rewrite Hh. intros g i t'. rewrite Hp. case_bool_decide; [done|]. apply Ho.
  - intros r t'. rewrite Hreads. by rewrite lookup_empty.
Qed.
Lemma propose_waiting h gid command pend : host_owns h pend → host_queue h →
  host_owns (host_propose gid command h).2 pend ∧ host_queue (host_propose gid command h).2.
Proof.
  intros Ho Hq. unfold host_propose, on_group. destruct (h !! gid) as [n|] eqn:E; [|done].
  pose proof (propose_own command n) as Hn. assert (idle n → idle (propose command n).2) as Hi.
  { intros [Hr He]. unfold propose, is_leader. by rewrite bool_decide_false. }
  destruct (propose command n) as [x n']. cbn [snd] in *. split.
  - intros g i t Ht. destruct (Ho g i t Ht) as (c & Hc & Hown). exists c. split; [done|]. intros m.
    intros [[<- <-]|[_ Hm]]%lookup_insert_Some; [|by apply Hown]. destruct (Hown n E); [left; by apply Hn|right; auto].
  - intros g m [[_ <-]|[_ Hm]]%lookup_insert_Some; [|by eapply Hq]. by apply (Hn 0 []), (Hq gid).
Qed.

Lemma orphans_waiting s : waiting_ok s → host_queue (p_host s) →
  let s' := abort_orphaned_prepares s in waiting_ok s' ∧ host_queue (p_host s') ∧ p_replies s' = p_replies s.
Proof.
  intros [Ho Hr] Hq. unfold abort_orphaned_prepares. destruct (undecided_prepared_txns (p_node s)) as [r n]. set (s1 := set_node n s).
  assert (p_host s1 = p_host s ∧ p_pending s1 = p_pending s ∧ p_pending_reads s1 = p_pending_reads s ∧ p_replies s1 = p_replies s) as (E1 & E2 & E3 & E4) by (by destruct s).
  assert (waiting_ok s1) as Hs1 by (split; [by rewrite E1, E2|intros a b; rewrite E3; apply Hr]).
  destruct r as [orphans|x|]; [|split_and!; [done|by rewrite E1|done]..].
  set (h := foldl _ (p_host s1) orphans). assert (host_owns h (p_pending s) ∧ host_queue h) as [Hoh Hqh].
  { unfold h. rewrite E1. clear -Ho Hq. revert Ho Hq. generalize (p_host s). induction orphans as [|t l IH]; intros h Ho Hq; [done|].
    cbn [foldl]. destruct (propose_waiting h 0 (cmd_encode (CTxnDecision t false)) _ Ho Hq). by apply IH. }
  destruct s. cbn in *. split_and!; [by split|done|done].
Qed.

Lemma after_waiting s t : waiting_ok s → host_queue (p_host s) →
  let s' := after_event s in waiting_ok s' ∧ host_queue (p_host s') ∧ ((t, WDone) ∈ p_replies s' → (t, WDone) ∈ p_replies s).
Proof.
  intros Hs Hq. unfold after_event. set (lost := p_leaders s ∖ _). set (s1 := if bool_decide (lost = ∅) then s else abort_pending lost s).
  assert (waiting_ok s1 ∧ host_queue (p_host s1) ∧ ((t, WDone) ∈ p_replies s1 → (t, WDone) ∈ p_replies s)) as (H1 & H2 & H3).
  { unfold s1. case_bool_decide; [done|]. by apply abort_waiting. }
  set (s2 := if _ && _ then abort_orphaned_prepares s1 else s1).
  assert (waiting_ok s2 ∧ host_queue (p_host s2) ∧ p_replies s2 = p_replies s1) as (H4 & H5 & H6).
  { unfold s2. destruct (_ && _); [|done]. by apply orphans_waiting. }
  split_and!; [destruct H4; split; by destruct s2|by destruct s2|]. replace (p_replies (set_leaders _ s2)) with (p_replies s2) by (by destruct s2).
  rewrite H6. exact H3.
Qed.

(** ** Runs of the loop *)

Abbreviation loop_event := (loop_event env raft_cfg self self_raft self_client).

(** The entries an event executes, and those of a run. *)
Definition event_trace (ev : LoopEvent) s : list (Process * (N * N * N * bytes)) :=
  if p_blocked s then [] else match react ev s with Some s' => if accepted ev s then drain_trace s' else [] | None => [] end.
Fixpoint run_trace (evs : list LoopEvent) s : list (Process * (N * N * N * bytes)) :=
  match evs with [] => [] | ev :: evs => event_trace ev s ++ run_trace evs (loop_event ev s) end.
Fixpoint steady_run (evs : list LoopEvent) s : Prop :=
  match evs with [] => True | ev :: evs => steady ev s ∧ steady_run evs (loop_event ev s) end.

(** A step that applied nothing keeps the queues. *)
Lemma refused_queue ev s s' : react ev s = Some s' → accepted ev s = false → host_queue (p_host s) → host_queue (p_host s').
Proof.
  intros E Ha Hq g n'. destruct (react_spec ev s s' E) as (-> & _). intros (n & Hn & ->)%fmap_Some. specialize (Hq g n Hn).
  destruct ev as [|e|ticket gid command|ticket gid rid]; cbn [accepted group_step] in *; [done|done|..].
  - destruct (N.eqb_spec gid g) as [->|]; [|done]. destruct (propose_own command n 0 []) as [_ H1]. destruct (propose command n) as [[]]; [|auto].
    by apply (broadcast_own _ 0 []), H1.
  - destruct (N.eqb_spec gid g) as [->|]; [|done]. destruct (propose_read_own rid n 0 []) as [_ H1]. destruct (propose_read rid n) as [[]]; [|auto].
    by apply (broadcast_own _ 0 []), H1.
Qed.

Lemma loop_event_acks ev s t : event_asks ev → steady ev s → p_blocked s = true ∨ waiting_ok s ∧ host_queue (p_host s) →
  let s' := loop_event ev s in
  (p_blocked s' = true ∨ waiting_ok s' ∧ host_queue (p_host s')) ∧
  ((t, WDone) ∈ p_replies s' → (t, WDone) ∈ p_replies s ∨ asked t = None ∨ executed (event_trace ev s) t).
Proof.
  intros Ha Hst Hs. unfold Server.loop_event, event_trace. destruct (p_blocked s) eqn:Eb; [split; [by left|by left]|].
  destruct Hs as [?|[Hw Hq]]; [done|]. destruct (react ev s) as [s1|] eqn:E; [|split; [by right|by left]].
  pose proof (react_waiting ev s s1 Ha Hst Hw Hq E) as H1. destruct (react_spec ev s s1 E) as (_ & Hr & _).
  destruct (accepted ev s) eqn:Eacc.
  - destruct (drain_acks s1 t H1) as (H2 & He & Hd). set (s2 := drain_and_apply _ _ _ _ _ s1) in *.
    assert ((t, WDone) ∈ p_replies s2 → (t, WDone) ∈ p_replies s ∨ asked t = None ∨ executed (drain_trace s1) t) as Hd'.
    { intros Hin. destruct (Hd Hin) as [?|?]; auto. }
    destruct (p_blocked s2) eqn:Eb2; [split; [by left|done]|]. pose proof (calm_persist s2) as Hp.
    destruct (after_waiting (persist_raft_state s2) t) as (H3 & H4 & H5); [by eapply waiting_calm|apply host_empty_queue; eapply host_empty_milder; [apply Hp|done]|].
    split; [by right|]. intros Hin. apply Hd'. rewrite <- (cm_replies _ _ Hp). auto.
  - destruct (after_waiting s1 t H1) as (H3 & H4 & H5); [by eapply refused_queue|]. split; [by right|]. intros Hin. left. auto.
Qed.

(** C4: an acknowledged write has been executed. From a state in which nobody waits, after any
    events of the loop (ticks, messages, proposals and reads in any order), a write is answered
    with success only if the loop has executed the very command it asked for, in its own group,
    and the engine accepted it, provided no event deposes the leader of a group with waiting
    writes and hands over entries of that group at the same time. *)
Theorem loop_acks_own evs s t g c :
  p_pending s = ∅ → p_pending_reads s = ∅ → host_queue (p_host s) → Forall event_asks evs → steady_run evs s → asked t = Some (g, c) →
  (t, WDone) ∈ p_replies (run_loop env raft_cfg self self_raft self_client evs s) →
  (t, WDone) ∈ p_replies s ∨
  ∃ s' i term, (s', (g, i, term, c)) ∈ run_trace evs s ∧ took_effect env c s' (apply_one s' (g, i, term, c)).
Proof.
  intros Hp Hr Hq Hev Hst Ht Hin.
  assert (p_blocked s = true ∨ waiting_ok s ∧ host_queue (p_host s)) as Hs.
  { right. split; [split|done]; [intros g' i t'; rewrite Hp|intros r t'; rewrite Hr]; by rewrite lookup_empty. }
  assert ((t, WDone) ∈ p_replies s ∨ executed (run_trace evs s) t) as [?|(s' & g' & i & term & c' & H1 & H2 & H3)]; [|by left|].
  2: { rewrite Ht in H2. injection H2 as <- <-. right. eauto 6. }
  clear Hp Hr Hq. revert s Hev Hst Hs Hin. induction evs as [|ev evs IH]; intros s Hev Hst Hs Hin; [by left|].
  apply Forall_cons in Hev as [Ha Hev]. destruct Hst as [Hst1 Hst2]. destruct (loop_event_acks ev s t Ha Hst1 Hs) as [Hs' Hacks].
  assert (∀ l1 l2, executed l1 t ∨ executed l2 t → executed (l1 ++ l2) t) as Happ.
  { intros l1 l2 [(s' & g' & i & term & c' & Hl & ?)|(s' & g' & i & term & c' & Hl & ?)]; exists s', g', i, term, c'; rewrite elem_of_app; auto. }
  destruct (IH (loop_event ev s)) as [H1|H1]; [done..| |right; apply Happ; by right].
  destruct (Hacks H1) as [?|[?|?]]; [by left|congruence|right; apply Happ; by left].
Qed.
End Acks.

Lemma steady_none {T} `{SstFormat T} {A} `{SocketAddr A} (ev : LoopEvent) (s : Process (T:=T) (A:=A)) : p_pending s = ∅ → steady ev s.
Proof. intros E s' g i n n' _. rewrite E. by intros [? [=]]. Qed.

(** A process alone in its cluster is elected and takes a write. *)
Definition demo_put : bytes := cmd_encode (CPut [97] [1]).
Definition demo_asked (t : N) : option (N * bytes) := if t =? 1 then Some (0, demo_put) else None.
Definition demo_events : list LoopEvent := replicate 10 LTick ++ [LPropose 1 0 demo_put].

Lemma loop_acks_own_witness :
  let s := started alone ∅ in
  (1, WDone) ∈ p_replies (run_loop still alone 1 true false demo_events s) ∧
  ((1, WDone) ∈ p_replies s ∨
   ∃ s' i term, (s', (0, i, term, demo_put)) ∈ run_trace still alone 1 true false demo_events s ∧
     took_effect still demo_put s' (apply_one still alone 1 true false s' (0, i, term, demo_put))).
Proof.
  intros s. assert ((1, WDone) ∈ p_replies (run_loop still alone 1 true false demo_events s)) as Hin.
  { apply (bool_decide_unpack _). by vm_compute. }
  assert (host_queue (p_host s)) as Hq.
  { intros g n Hn. assert (applied_entries n = []) as E; [|intros x; rewrite E; by intros ?%not_elem_of_nil].
    change (p_host s) with ({[0 := node_new alone]} : MultiRaftHost) in Hn. by apply lookup_singleton_Some in Hn as [_ <-]. }
  assert (steady_run still alone 1 true false demo_events s) as Hst.
  { unfold demo_events. cbn [replicate app steady_run]. repeat (split; [apply steady_none; vm_compute; reflexivity|]). exact I. }
  split; [exact Hin|].
  refine (loop_acks_own still alone 1 true false demo_asked demo_events s 1 0 demo_put _ _ Hq _ Hst _ Hin); [vm_compute; reflexivity..| |vm_compute; reflexivity].
  repeat constructor.
Defined.
