(* ===== verification/ClientServer.v ===== *)
(** The request handlers over a server process: a handler runs until it waits for the Raft loop,
    and goes on when the loop answers; other handlers and other events of the loop come between. *)
From stdpp Require Import gmap strings.
From S2P Require Import Prelude Bytes Core Hlc OrdMap Path Disk WalCodec WalWriter InternalKey SstBlock SstSpec Memtable Manifest Compaction Engine EngineStore EngineSnapshot EngineReads Index Cdc Node Txn NodePlans Txn2pc RaftConfig RaftCommand RaftLog RaftStorage RaftNode MultiRaft Ranges Balancer NetCodec ClientCodec CdcLoad Acl Roster RosterProps TxnCoord SnapPayload ClientOps ClientOpsProps Server.

Open Scope N_scope.

Section Handlers.
Context {T : Type} `{SstFormat T} (env : N → N * N * N).
Context {A : Type} `{SocketAddr A}.
Context (cfg : Config (A:=A)) (raft_cfg : RaftConfig).
Abbreviation Process := (Process (T:=T) (A:=A)).

(** ** The calls that are answered at once *)

(** A call of the engine; no answer while it waits for the disk. *)
Definition on_engine {X} (op : task (T:=T) X) (s : Process) : option (result KayaError X * Process) :=
  let '(r, n) := op (p_node s) in
  match r with
  | Done x => Some (Ok x, set_node n s)
  | Failed e => Some (Err e, set_node n s)
  | Waiting => None
  end.

Definition poll_feed (consumer : bytes) (from_seq : N) (limit : nat) (n : Node (T:=T))
    : result KayaError (result KayaError (list CdcEvent)) * Node (T:=T) :=
  match cdc_subscribe (enable_cdc n) consumer (Some from_seq) (cdc n) with
  | Err e => (Err e, n)
  | Ok cursor => let '(r, _, c) := cdc_poll (enable_cdc n) cursor limit (cdc n) in (Ok r, set_cdc c n)
  end.

(** Proposals and reads go to the loop; other nodes, cross-group commits and the engine's counters
    are not part of this process. *)
Definition answer_now {B} (c : Call A B) (s : Process) : option (B * Process) :=
  match c in Call _ B return option (B * Process) with
  | CHost => Some (p_host s, s)
  | CTransfer gid target => let '(r, h) := host_transfer_leadership gid target (p_host s) in Some (r, set_host h s)
  | CChange members =>
      let '(idx, h) := on_group None 0 (propose_membership_change members) (p_host s) in
      let '(out, h) := match idx with Some _ => broadcast_group 0 h | None => ([], h) end in
      Some ((idx, out), set_host h s)
  | CSend out => Some (tt, send_out out s)
  | CTable => Some (p_table s, s)
  | CRoster => Some (p_roster s, s)
  | CUpsert id raft client => Some (tt, set_roster (upsert id raft client (p_roster s)) s)
  | CEnsureHosted gid => Some (ensure_group_hosted raft_cfg gid s)
  | CReadId => Some (p_next_read s, set_next_read (wrap u64_lim (p_next_read s + 1)) s)
  | CGet key => on_engine (get_latest key) s
  | CScan pre => on_engine (scan pre) s
  | CTxnBegin => let '(txn_id, ts, n) := begin_txn (p_node s) in Some ((txn_id, ts), set_node n s)
  | CTxnGet txn_id key => on_engine (txn_get txn_id key) s
  | CTxnPut txn_id key value => on_engine (txn_put txn_id key value) s
  | CTxnDelete txn_id key => on_engine (txn_delete txn_id key) s
  | CTxnTake txn_id => on_engine (txn_take_commit txn_id) s
  | CTxnRollback txn_id => on_engine (txn_rollback txn_id) s
  | CCdcPoll consumer from_seq limit => let '(r, n) := poll_feed consumer from_seq limit (p_node s) in Some (r, set_node n s)
  | CCdcCheckpoint consumer => on_engine (cdc_checkpoint consumer) s
  | CLastSequence => Some (e_last_sequence (core (p_node s)), s)
  | CPropose _ _ | CRead _ _ | CForward _ _ | CCross _ _ | CEngineStats => None
  end.

(** The handler goes on until it has to wait. *)
Fixpoint advance {X} (p : prog A X) (s : Process) : prog A X * Process :=
  match p with
  | Ret x => (Ret x, s)
  | Do c k => match answer_now c s with Some (b, s) => advance (k b) s | None => (Do c k, s) end
  end.

(** ** Handlers and the loop *)

(** The channels of the loop hold requests with the ticket of the handler that waits. *)
Record ServerState := mkServer {
  sv_process : Process;
  sv_waiting : gmap N (prog A DispatchOutcome);
  sv_proposals : list (N * N * bytes);
  sv_reads : list (N * N * N);
  sv_answers : list (N * DispatchOutcome)
}.

(** The handler runs; its answer is kept, or what it asks of the loop is put on the channel. *)
Definition settle (ticket : N) (p : prog A DispatchOutcome) (sv : ServerState) : ServerState :=
  let '(p, s) := advance p (sv_process sv) in
  match p with
  | Ret out => mkServer s (base.delete ticket (sv_waiting sv)) (sv_proposals sv) (sv_reads sv) ((ticket, out) :: sv_answers sv)
  | Do c _ =>
      let waiting := <[ticket := p]> (sv_waiting sv) in
      match c with
      | CPropose gid command => mkServer s waiting (sv_proposals sv ++ [(ticket, gid, command)]) (sv_reads sv) (sv_answers sv)
      | CRead gid request_id => mkServer s waiting (sv_proposals sv) (sv_reads sv ++ [(ticket, gid, request_id)]) (sv_answers sv)
      | _ => mkServer s waiting (sv_proposals sv) (sv_reads sv) (sv_answers sv)
      end
  end.

Definition resume (w : Wait) (p : prog A DispatchOutcome) : prog A DispatchOutcome :=
  match p with
  | Ret x => Ret x
  | Do c k =>
      match c in Call _ B return (B → prog A DispatchOutcome) → prog A DispatchOutcome with
      | CPropose _ _ => λ k, k w
      | CRead _ _ => λ k, k w
      | c => λ k, Do c k
      end k
  end.

(** The loop's answers wake the handlers, oldest first. *)
Definition wake (sv : ServerState) (r : N * Wait) : ServerState :=
  match sv_waiting sv !! r.1 with Some p => settle r.1 (resume r.2 p) sv | None => sv end.
Definition deliver (sv : ServerState) : ServerState :=
  let replies := reverse (p_replies (sv_process sv)) in
  foldl wake (mkServer (set_replies [] (sv_process sv)) (sv_waiting sv) (sv_proposals sv) (sv_reads sv) (sv_answers sv)) replies.

Definition in_loop (ev : LoopEvent) (sv : ServerState) : ServerState :=
  let s := loop_event env raft_cfg (self_id cfg) (self_raft cfg) (self_client cfg) ev (sv_process sv) in
  deliver (mkServer s (sv_waiting sv) (sv_proposals sv) (sv_reads sv) (sv_answers sv)).

(** A request arrives; the loop takes a tick, a message, a proposal or a read. *)
Inductive ServerEvent : Type :=
| SRequest (ticket opcode : N) (payload : bytes)
| STick
| SMessage (e : Envelope)
| SPropose
| SRead.

Definition server_step (sv : ServerState) (ev : ServerEvent) : ServerState :=
  match ev with
  | SRequest ticket opcode payload => settle ticket (dispatch cfg opcode payload) sv
  | STick => in_loop LTick sv
  | SMessage e => in_loop (LMessage e) sv
  | SPropose =>
      match sv_proposals sv with
      | [] => sv
      | (ticket, gid, command) :: l =>
          in_loop (LPropose ticket gid command) (mkServer (sv_process sv) (sv_waiting sv) l (sv_reads sv) (sv_answers sv))
      end
  | SRead =>
      match sv_reads sv with
      | [] => sv
      | (ticket, gid, request_id) :: l =>
          in_loop (LRead ticket gid request_id) (mkServer (sv_process sv) (sv_waiting sv) (sv_proposals sv) l (sv_answers sv))
      end
  end.
Definition server_run (evs : list ServerEvent) (sv : ServerState) : ServerState := foldl server_step sv evs.

(** The answer a handler has given. *)
Definition answer_of (ticket : N) (sv : ServerState) : option DispatchOutcome := (λ x, x.2.2) <$> list_find (λ x, x.1 = ticket) (sv_answers sv).
End Handlers.
