(* ===== verification/ClientServerDemo.v ===== *)
(** Servers on concrete inputs: requests answered end to end, and what goes wrong. *)
From stdpp Require Import gmap strings.
From S2P Require Import Prelude Bytes Core Hlc OrdMap Path Disk WalCodec WalWriter InternalKey Memtable Manifest Compaction SstBlock SstSpec Engine EngineStore EngineReads RaftLog RaftConfig RaftCommand RaftStorage RaftNode EngineSnapshot Index Cdc Node Txn NodePlans Txn2pc CdcLoad Ranges Balancer NetCodec TxnCoord MultiRaft ClientCodec Acl Roster RosterProps Client ClientProps ClientOps ClientOpsProps SnapPayload Server ServerDemo ClientServer.

Open Scope N_scope.

Abbreviation DemoServer := (ServerState (T:=list SstEntry) (A:=bool)).

Definition server_of (c : RaftConfig) : DemoServer := mkServer (started c ∅) ∅ [] [] [].
Definition request (ticket : N) (token : option bytes) (req : Request) : ServerEvent :=
  SRequest ticket (request_opcode req) (client_payload token None None req).
(** A request, and the loop takes what it asks for. *)
Definition write_now (ticket : N) (token : option bytes) (req : Request) : list ServerEvent := [request ticket token req; SPropose].
Definition read_now (ticket : N) (token : option bytes) (req : Request) : list ServerEvent := [request ticket token req; SRead].

(** A server alone in its cluster, once it leads; its engine keeps a change feed. *)
Definition feeding_node : Node (T:=list SstEntry) :=
  Node.mkNode (core fresh_node) (txn fresh_node) (indexes fresh_node) (index_backfill fresh_node) true (cdc fresh_node) (writes fresh_node).
Definition leading (cfg : Config (A:=bool)) : DemoServer :=
  server_run still cfg alone (replicate 10 STick) (mkServer (set_node feeding_node (started alone ∅)) ∅ [] [] []).
Definition answers (cfg : Config (A:=bool)) (evs : list ServerEvent) (ticket : N) : option (N * Body) :=
  (λ o, (o_status o, o_body o)) <$> answer_of ticket (server_run still cfg alone evs (leading cfg)).

(** ** Transactions *)

Definition both_commit : list ServerEvent :=
  write_now 1 None (RPut [97] [0])
  ++ [request 2 None RTxnBegin; request 3 None RTxnBegin;
      request 4 None (RTxnOp 1 TXN_OP_GET [97] None); request 5 None (RTxnOp 2 TXN_OP_GET [97] None);
      request 6 None (RTxnOp 1 TXN_OP_PUT [97] (Some [1])); request 7 None (RTxnCommit 1);
      request 8 None (RTxnOp 2 TXN_OP_PUT [97] (Some [2])); request 9 None (RTxnCommit 2);
      SPropose; SPropose]
  ++ read_now 10 None (RGet [97]).

(** C38: A commit is checked when its mutations are taken, before the proposal, and not again when
    the entry is applied. Two transactions that read a key at the same snapshot and write it both
    commit if the second is checked before the first is applied, and the first write is lost. *)
Theorem server_txn_lost_update :
  answers demo_config both_commit 2 = Some (STATUS_OK, Raw (encode_txn_begin_response 1 1)) ∧
  answers demo_config both_commit 3 = Some (STATUS_OK, Raw (encode_txn_begin_response 2 1)) ∧
  answers demo_config both_commit 4 = Some (STATUS_OK, Raw (encode_value_payload [0])) ∧
  answers demo_config both_commit 5 = Some (STATUS_OK, Raw (encode_value_payload [0])) ∧
  answers demo_config both_commit 7 = Some (STATUS_OK, Raw (encode_txn_commit_response 2)) ∧
  answers demo_config both_commit 9 = Some (STATUS_OK, Raw (encode_txn_commit_response 3)) ∧
  answers demo_config both_commit 10 = Some (STATUS_OK, Raw (encode_value_payload [2])).
Proof. by vm_compute. Qed.

(** ** Access *)

(** A tenant writes; another reads the key, and polls the change feed. *)
Definition feed_poll : list ServerEvent :=
  write_now 1 (Some (str "t2")) (RPut (str "beta") [7])
  ++ read_now 2 (Some (str "t1")) (RGet (str "beta"))
  ++ [request 3 (Some (str "t1")) (RCdcPoll (str "c") 0 10)].

(** Two rules, one for a prefix of the other's prefix. *)
Definition acl_config : Config (A:=bool) :=
  mkConfig None None match from_map [(str "a", str "t1"); (str "a/b", str "t2")] with Ok acl => Some acl | Err _ => None end None false 1 true false.
Definition scan_above : list ServerEvent :=
  write_now 1 (Some (str "t2")) (RPut (str "a/b") [7])
  ++ read_now 2 (Some (str "t1")) (RGet (str "a/b"))
  ++ read_now 3 (Some (str "t1")) (RScan (str "a")).

(** A tenant that may not read a key of another gets it from the change feed, which checks only
    that the token belongs to a tenant. *)
Theorem cdc_poll_crosses_tenants :
  answers tenant_config feed_poll 1 = Some (STATUS_OK, Raw []) ∧
  answers tenant_config feed_poll 2 = Some (STATUS_ERROR, Error (MText "tenant denied")) ∧
  answers tenant_config feed_poll 3 = Some (STATUS_OK, Raw (encode_cdc_poll_response [(1, 1, str "beta", Some [7])])).
Proof. by vm_compute. Qed.

(** A scan is checked at its prefix only: a token that may not read a key with a rule of its
    own gets it by scanning a shorter prefix. *)
Theorem acl_scan_crosses_rules :
  answers acl_config scan_above 1 = Some (STATUS_OK, Raw []) ∧
  answers acl_config scan_above 2 = Some (STATUS_ERROR, Error (MText "acl denied")) ∧
  answers acl_config scan_above 3 = Some (STATUS_OK, Raw (encode_scan_response [(str "a/b", [7])])).
Proof. by vm_compute. Qed.

(** ** An acknowledged write that is lost *)

(** Server 1 of three, and two nodes. *)
Definition hush (sv : DemoServer) : DemoServer :=
  mkServer (set_sent [] (sv_process sv)) (sv_waiting sv) (sv_proposals sv) (sv_reads sv) (sv_answers sv).
Definition go (evs : list ServerEvent) (sv : DemoServer) : DemoServer := server_run still demo_config (member_of three 1) evs (hush sv).
Definition sent_to (j : N) (l : list Envelope) : list Envelope := filter (λ e, to e = j) l.
Definition says (j : N) (sv : DemoServer) : list Envelope := sent_to j (p_sent (sv_process sv)).
Definition feed (ms : list Envelope) (n : RaftNode) : RaftNode * list Envelope :=
  foldl (λ x m, let '(n, out) := handle m x.1 in (n, x.2 ++ out)) (n, []) ms.
(** Ticks until the node sends something. *)
Definition until_sends (n : RaftNode) : RaftNode * list Envelope := Nat.iter 30 (λ x, if bool_decide (x.2 = []) then tick x.1 else x) (n, []).

(** The server is elected, and its first entry reaches node 2. *)
Definition elected : DemoServer * RaftNode * RaftNode :=
  let s := go (replicate 10 STick) (server_of (member_of three 1)) in
  let '(b, out_b) := feed (says 2 s) (node_new (member_of three 2)) in
  let '(c, out_c) := feed (says 3 s) (node_new (member_of three 3)) in
  let s := go (SMessage <$> out_b) s in
  let '(b, out_b) := feed (says 2 s) b in
  let '(c, _) := feed (says 3 s) c in
  (go (SMessage <$> out_b) s, b, c).
(** It takes a write, and what it sends is lost. *)
Definition cut_off : DemoServer := go (write_now 1 None (RPut [97] [1])) elected.1.1.
(** Node 2 is elected by node 3, commits its first entry, and is heard by the server again. *)
Definition heard_again : option Envelope :=
  let '(_, b, c) := elected in
  let '(b, out) := until_sends b in
  let '(c, out) := feed (sent_to 3 out) c in
  let '(b, out) := feed (sent_to 2 out) b in
  let '(c, out) := feed (sent_to 3 out) c in
  let '(b, out) := feed (sent_to 2 out) b in
  head (sent_to 1 (until_sends b).2).

Definition command_at (i : N) (s : DemoServer) : option bytes := p_host (sv_process s) !! 0 ≫= λ n, command <$> log_get (log n) i.

(** C35: A proposal waits under the index it was given, and the loop answers it when an entry of that
    index is applied, whatever the entry. A leader that was cut off takes a write that no other
    node gets; the message of the next leader that replaces the entry also commits the
    replacement, and the client is told its write succeeded. The engine never sees the key. *)
Theorem server_acks_overwritten_put :
  answer_of 1 cut_off = None ∧
  ∃ e, heard_again = Some e ∧
    let s := go [SMessage e] cut_off in
    answer_of 1 s = Some (mkOutcome STATUS_OK (Raw []) "none" (Some 1)) ∧
    (get_latest [97] (p_node (sv_process s))).1 = Done None ∧
    command_at 2 cut_off = Some (cmd_encode (CPut [97] [1])) ∧ command_at 2 s = Some [].
Proof. split; [by vm_compute|]. eexists. split; [vm_compute; reflexivity|]. by vm_compute. Qed.

(** * A client and the servers it talks to: what becomes of a stale range cache. *)

Section Stale.
Context {A : Type} `{SocketAddr A} `{EqDecision A}.
Context {W : Type} (request : A → N → bytes → W → Trip * W).
(** The texts of the messages. *)
Context (text : Msg → bytes).

Definition wire_body (b : Body) : bytes := match b with Raw b => b | Error m => encode_error_payload (text m) end.

(** Every server answers with a run of [dispatch], under the same range table. *)
Definition all_serve (cfg : Config (A:=A)) (t : StaticRangeTable) : Prop :=
  ∀ a opcode wire w, ∃ tr out, runs (dispatch cfg opcode wire) tr out ∧ Forall (event_ok (table_is t)) tr ∧
    (request a opcode wire w).1 = Answered (o_status out) (wire_body (o_body out)).

Lemma table_decodes t : u64_ok (meta_epoch t) → lenN (ranges t) < u32_lim → Forall (λ r, range_wire_ok (range_wire r)) (ranges t) →
  decode_list_ranges_response (encode_list_ranges_from_table t) = Ok (meta_epoch t, range_wire <$> ranges t).
Proof.
  intros He Hl Hr. unfold encode_list_ranges_from_table.
  pose proof (decode_encode_answer (ARanges (meta_epoch t) (range_wire <$> ranges t))) as Hd.
  cbn [expected_by decode_answer encode_answer ClientCodec.answer_ok] in Hd.
  assert (Forall range_wire_ok (range_wire <$> ranges t)) by (by apply Forall_fmap). clear Hr.
  assert (lenN (range_wire <$> ranges t) < u32_lim) by (unfold lenN; by rewrite length_fmap).
  destruct (decode_list_ranges_response _) as [[e rs]|]; cbn [mbind result_bind] in Hd; [|by specialize (Hd ltac:(done))].
  specialize (Hd ltac:(done)). by injection Hd as -> ->.
Qed.

Lemma stale_loop opcode wire t fuel : ∀ current m c w cache,
  (∀ a w, (request a opcode wire w).1 = Answered STATUS_RANGE_MOVED (encode_list_ranges_from_table t)) →
  decode_list_ranges_response (encode_list_ranges_from_table t) = Ok (meta_epoch t, range_wire <$> ranges t) →
  range_cache c = Some cache → rc_epoch cache <= meta_epoch t → m <= max_redirects c → max_redirects c - m < N.of_nat fuel →
  ∃ c' w' cache', send_loop request fuel opcode wire current 0 0 m c w =
    Some (Responded STATUS_RANGE_MOVED (encode_list_ranges_from_table t), max_redirects c - m + 1, c', w') ∧
    range_cache c' = Some cache' ∧ rc_epoch cache' = meta_epoch t.
Proof.
  induction fuel as [|fuel IH]; intros current m c w cache Hq Hd Hc He Hm Hf; [lia|].
  cbn [send_loop]. specialize (Hq current w) as Hq0. destruct (request current opcode wire w) as [trip w']. cbn [fst] in Hq0. subst trip.
  cbv zeta. change (STATUS_RANGE_MOVED =? STATUS_NOT_LEADER) with false. change (STATUS_RANGE_MOVED =? STATUS_RANGE_MOVED) with true.
  cbn match. unfold apply_range_moved_body. rewrite Hd. cbn [range_cache set_conn]. rewrite Hc. cbv beta iota zeta.
  set (cache' := apply_descriptors _ _ _). assert (rc_epoch cache' = meta_epoch t) as Hc'.
  { cbn [cache' apply_descriptors rc_epoch]. destruct (N.ltb_spec (rc_epoch cache) (meta_epoch t)); lia. }
  cbn [max_redirects set_cache set_conn negb]. rewrite orb_false_r. destruct (N.leb_spec (max_redirects c) m).
  - replace (max_redirects c - m + 1) with 1 by lia. do 3 eexists. split; [reflexivity|done].
  - edestruct (IH current (m + 1) (step_backoff m (set_cache (Some cache') (set_conn (Some current) c))) w') as (c2 & w2 & k2 & -> & H2 & H3);
      [done|done|reflexivity|lia|cbn; lia|cbn; lia|].
    replace (max_redirects c - m + 1) with (max_redirects c - (m + 1) + 1 + 1) by lia. do 3 eexists. split; [reflexivity|done].
Qed.

(** A client whose cached range table is older than the servers' fails the request it is
    making: the payload with the old epoch is built once and sent again after every refresh, so
    all the retries are refused. The cache it is left with is current. *)
Theorem client_stale_epoch_fails cfg t (c : KayaClient (A:=A)) w cache req :
  all_serve cfg t → u64_ok (meta_epoch t) → lenN (ranges t) < u32_lim → Forall (λ r, range_wire_ok (range_wire r)) (ranges t) →
  in_range 1 4 (request_opcode req) = true → token_ok (Client.client_token c) →
  ClientOps.client_token cfg = None ∨ Client.client_token c = ClientOps.client_token cfg →
  range_cache c = Some cache → rc_epoch cache < meta_epoch t →
  ∃ c' w' cache',
    send_with_retry request (request_opcode req) (request_payload req) c w =
      Some (Responded STATUS_RANGE_MOVED (encode_list_ranges_from_table t), max_redirects c + 1, c', w') ∧
    range_cache c' = Some cache' ∧ rc_epoch cache' = meta_epoch t.
Proof.
  intros Hs He Hl Hr Ho Ht Hc Hcache Hlt. unfold send_with_retry, client_wire. rewrite Hcache. cbn [fmap option_fmap option_map].
  set (wire := wire_payload _ _ _ _). assert (is_data_opcode (request_opcode req) = true) as Hd by (unfold is_data_opcode; by rewrite Ho).
  assert (unwrap_client (request_opcode req) wire =
            Ok (encode_meta_epoch_payload (request_payload req) (rc_epoch cache), Client.client_token c)) as Hu.
  { unfold wire, wire_payload. rewrite Ho, Hd. by apply unwrap_client_wire. }
  destruct (stale_loop (request_opcode req) wire t (N.to_nat (max_trips c)) (cl_addr c) 0 c w cache) as (c' & w' & k & -> & ? & ?).
  - intros a w'. destruct (Hs a (request_opcode req) wire w') as (tr & out & Hrun & Htr & ->).
    destruct (dispatch_stale_epoch cfg _ _ _ _ (request_payload req) (rc_epoch cache) t tr out Ho Hu) as [_ ->]; try done.
    apply meta_epoch_wire. unfold u64_ok in *. lia.
  - by apply table_decodes.
  - done.
  - lia.
  - lia.
  - unfold max_trips. lia.
  - rewrite N.sub_0_r. do 3 eexists. split; [reflexivity|done].
Qed.
End Stale.

(** ** Servers that host no group *)

Definition idle_request (_ : bool) (opcode : N) (wire : bytes) (w : nat) : Trip * nat :=
  let out := fixed_run ∅ demo_table (dispatch demo_config opcode wire) in (Answered (o_status out) (wire_body (λ _, []) (o_body out)), S w).
Definition stale_client : KayaClient (A:=bool) := set_cache (Some (mkRangeCache 1 [(1, 1, 0, [], [])])) (client_connect true).

Lemma client_stale_epoch_fails_witness :
  ∃ c' w' cache',
    send_with_retry idle_request 1 (request_payload (RPut [107] [1])) stale_client 0%nat =
      Some (Responded STATUS_RANGE_MOVED (encode_list_ranges_from_table demo_table), 4, c', w') ∧
    range_cache c' = Some cache' ∧ rc_epoch cache' = 2.
Proof.
  refine (client_stale_epoch_fails idle_request (λ _, []) demo_config demo_table stale_client 0%nat
    (mkRangeCache 1 [(1, 1, 0, [], [])]) (RPut [107] [1]) _ _ _ _ _ _ _ _ _); try done.
  - intros a opcode wire w. destruct (fixed_runs ∅ demo_table (dispatch demo_config opcode wire)) as (tr & Hr & Ht).
    exists tr, (fixed_run ∅ demo_table (dispatch demo_config opcode wire)). done.
  - by repeat constructor.
  - by left.
Defined.
